(* ===== verification/_CoqProject ===== *)
-Q . S2P
Prelude.v
GoStrings.v
GoTime.v
GoFloat.v
Pg.v
Ledger.v
Payment.v
Saga.v
Partition.v
Raft.v
Playground.v
Clocks.v
Replication.v
Breaker.v
TTLCache.v
LoadBalancer.v
Gateway.v
BufferPool.v
RateLimit.v
Auth.v
GatewayMain.v
Subscription.v
Usage.v
Subscriptiond.v
Order.v
OrderDemo.v
Devices.v
Token.v
Playback.v
Livescale.v
Holds.v
Resp.v
HoldsApi.v
Tenant.v
Stadium.v
StadiumService.v
Rides.v
RidesDispatch.v
RidesApi.v
RailCache.v
RailSearch.v
Social.v
SocialOps.v
Diagnostics.v
Telemetry.v
DebugServices.v
SubscriptionPg.v
Instascale.v
InstascaleOps.v
RailApi.v
RailHttp.v
CricketOps.v
