(* ===== verification/Prelude.v ===== *)
(** * Verification of the Go services of this repository

The repository holds independent Go services under [src/]; each has its own
state and its own hard part: money that must not be lost, requests that must
not be applied twice, limits that must hold under concurrency.  This
development models their core packages and proves the properties that make
them correct.  The two food-delivery projects are TypeScript and are not part
of it.

** Files

- [Prelude]: results of fallible calls, fixed-width integers, the Go string
  order, FNV-1a, sums over maps, filters, invariants of step relations, the
  tactics ([zbool], [case_test], [width], [open_hyps]) and the hint databases.
- [GoStrings], [GoTime], [GoFloat]: the parts of [strings], [strconv] and [time] the
  sources use; [ParseDuration] computes its fractions in float64, by [SpecFloat],
  and [ParseFloat] rounds correctly.
- [Ledger]: [fintech-ledger-go/internal/money] and [internal/ledger].  Accounts in
  a heap, [Transfer] with its two locks; [tstep] interleaves calls lock by lock.
- [Payment]: [internal/payment] and [internal/idempotency].  [IdemStore] is the
  interface of the store; [debit_step] interleaves concurrent [Debit] calls.
- [Saga]: [internal/saga], [internal/wallet] and [internal/gateway].  The bank is a
  parameter that answers each call.
- [Partition]: [internal/partition] and [internal/reconciliation].  The
  single-writer shard and the worker pool as step relations.
- [Raft], [Clocks], [Replication]: [distributed-primitives-go].  Elections with
  fencing, logical clocks over executions of messages, and replicated types.
- [Playground]: the cluster of [Raft] behind the handlers of [cmd/playground].
- [Breaker], [TTLCache], [LoadBalancer], [Gateway]: [fintech-gateway-go/internal].
  The gateway's handler is composed of the cache, the balancer and the breaker
  files' operations in the order of [gateway.go]; the regular expressions of the
  WAF are parameters.
- [RateLimit], [Auth]: the token buckets (gateway, livescale, railcache, cricket)
  over exact rationals, the JWT verifier with base64url, and the tenant cipher.
  [Auth] closes the gateway: its handler is run with the verifier and the limiter
  of the repository in place of the parameters.
- [GatewayMain]: [cmd/gateway], the gateway that is started, under any requests.
- [BufferPool]: the body buffers that the gateway's requests share, on a heap, and
  the simulation of [Gateway]'s private recorders.
- [Subscription], [Usage]: [subscription-core].  Webhook processor, reconciler and
  entitlement service over the interface [Repo], implemented by the in-memory
  store; deliveries of webhooks as steps; usage counters and the ledger flusher.
- [SubscriptionPg]: the Postgres store of [subscription-core], statement by
  statement, related to the in-memory store.
- [Subscriptiond]: the configuration and the daemon wired from these parts.
- [Order]: [microservice/order].  Transactional store with outbox, idempotent
  placement, leases, and the dispatcher's saga.
- [OrderDemo]: [microservice/cmd/order-demo], the server over these parts with its
  selectable exchange, and the progress of its workflow.
- [Devices], [Token], [Playback]: [livescale-control-plane].  The sharded device
  table, playback tokens, and the handlers, sweeper and in-flight limiter over
  them.
- [Livescale]: its configuration and counters, and the running process: requests
  that enter, run and leave, and the sweeper, interleaved at every critical section.
- [Holds]: [ttd/internal/queue].  Methods are programs of commands that
  interleave; Redis is the interface [RedisDB] with [RedisLaws]; [good] is a small
  program logic of stable knowledge.
- [Resp]: the Redis client of [ttd], byte for byte: framing of commands, parsing of
  replies, and the methods of [Holds] over it.
- [HoldsApi]: its HTTP routes as threads of that system, and what the status codes
  promise.
- [Tenant]: [secure-multitenant-go].  [Repository] is implemented by the in-memory
  and the Postgres store, the latter by its SQL statements over rows with the
  row-level security policy; [Isolated] states tenant isolation.
- [Pg]: what the sources use of Postgres: tables with committed and pending row
  versions, statements that wait for another transaction's rows, unique indexes;
  an interface with laws and an instance.
- [Stadium], [StadiumService]: [cricket-stadium-booking].  [PlaceHold] as round
  trips of interleaved transactions over [Pg]; then the retries, the seat cache, the
  handlers' status codes, the rate limiter and the configuration above it.
- [CricketOps]: its refund worker over the interface [OutboxStore], the load test
  with its accounting, routes and panics.
- [Rides]: [kafkaeda].  Every transaction of the services in an error monad over
  the tables, the outbox relay and the consumer groups over a partitioned log.
- [RidesDispatch]: the dispatch transactions of [Rides] as programs of SQL statements,
  interleaved with row locks, SKIP LOCKED and commits as Postgres has them.
- [RidesApi]: its HTTP routes, the activity feed, the configuration and the roles.
- [RailCache], [RailSearch]: [railcache/internal].  The breaker and the lock, then
  the read path as computations over any [World] of store, source, clock and
  flights, with a weakest-precondition calculus.
- [RailApi], [RailHttp]: the configuration, the rate limiter, the handlers, the source
  query and the herd generator; then the middleware chains over a response writer,
  the metrics with their lock-free sum, and [cmd/railcache].
- [Social], [SocialOps]: the social pulse of railcache: likes, inbox, outbox with
  leases, relay and consumers over the log; then the broker, the consumer loop over
  restarts, the relay's ticks, the routes, and [cmd/socialpulse].
- [Diagnostics], [Telemetry]: [golangdebugging].  The event log, the snapshot
  collector and its admin handler; then the metrics, the recording middleware, the
  failure laboratory and the feed service.
- [DebugServices]: its profile and recommendation services, tracing and capture of
  errors, and the feed composed over them.
- [Instascale], [InstascaleOps]: [instascale-observability].  Feed and like services
  over their caches, the storm guard, the edge and the chaos switches; then the
  metrics middleware, the drained pool and the three processes.

Each definition that models code carries a comment with the file and the
lines it translates.

** What the theorems show

- Concurrency: transfers are serializable, deadlock free and conserve money;
  a debit is applied once per key; a shard serializes its commands; the worker
  pool reports each transaction once; queue slots are never overbooked and
  bookings belong to confirmed holds, with failures, lost replies and restarts;
  device limits bound the slots of an account whatever interleaves, and its live
  sessions under the conditions of [Sessions_within_limit]; the in-flight limiter is
  exact.
- Sagas and retries: compensations run in reverse; a withdrawal debits exactly
  when the bank accepts; an order always has exactly the outbox event that moves
  it on, the calls of an operation carry one id and at most [MaxAttempts] of them are
  settled, the others having been interrupted; placing is idempotent.
- Distributed primitives: at most one accepted writer after any partitions;
  vector clocks characterize causality; counters and registers converge.
- Seats and rides: a seat is never sold twice and a hold is placed in one atomic
  commit, which a retry under the same key returns; a driver serves one ride and a
  ride has one driver, with dispatchers interleaving at their SQL statements, the
  projections agree with dispatch, nothing leaves the outbox before it is in the log,
  and an offset is committed only past events that were processed or whose processing
  returned an error.
- The search cache: only the source and the request's own context can make a
  search fail, one search asks the source at most once, an entry lives fresh, then
  stale, then is filled again, at most one refresh per key runs, and an outage costs
  a number of calls to the store that the threshold, the callers at a time and the
  cooldown bound.
- Refinement: the sharded cache implements LRU lists with expiry; the
  entitlement service answers as if it had no cache; evicting idle rate-limit
  entries changes no decision.
- Termination and progress: retry loops end after their bound with a classified
  result; the relay empties the outbox once the broker answers; the order workflow
  comes to rest with every order settled; the worker pool finishes; a reply of Redis
  is read to an end whatever the peer sends.
- Bytes on the wire: a command is framed so that no argument can change it, reading
  inverts the encoding of replies, and a hold read over the wire is the stored one.
- Access: the gateway's guards, the playback tokens, the role checks, and
  non-interference between tenants of the Postgres store, by its predicates alone; with
  the repository's verifier and limiter, what passes the gateway passed the firewall,
  the limiter and the route table and carries a valid token.
- Rates and counts: the token buckets implement the ideal bucket, so each window
  admits at most the burst and the refill; a like is counted once however often its
  event is delivered; the metrics equal the requests served, each under the label that
  the bare history gives it; the event log is the sequence of calls with its fields; a snapshot never exceeds its bounds.
- Whole processes: a client that was answered 201 finds its booking in the file and
  the status of its hold confirmed for good; the control plane keeps its limits from any
  environment that lets it start; the subscription daemon grants exactly what a
  delivered webhook paid for; shared buffers cannot be observed; the started gateway
  lets nothing reach the payment backends without a valid token; whatever is clicked
  in the playground one node at most can write; a retried like is recorded once, with
  its row and its event; a refund event is processed only when the status of its refund
  is written as refunded; processes close what they
  opened after what uses it has stopped.
- Error paths: each file states what a failing call leaves behind.

Several theorems show behaviour outside what the code means to do
([Account_Credit_overflow], [Breaker_trip_race], [RoundRobin_counter_panics],
[LWW_same_node_tie_diverges], [Entitlement_stale_cache], [Handle_lost_update],
[Flusher_restart_double_bills], [meter_key_collision], [sweep_frees_live_slot],
[heartbeat_race], [stop_foreign_session], [Store_Put_takes_over],
[Record_sync_failure_duplicates], [Sign_dotted_scope_rejected],
[Boundary_seat_listed_but_refused], [Failed_event_skipped], [Status_event_previous],
[Leader_reported_suppressed], [Pulse_failed_event_skipped], [Zero_burst_admits],
[Attrs_before_group_misplaced], [Early_hints_lost], [Holders_exceed_ceiling],
[Subject_diverges], [Moved_customer_diverges], [Like_cold_answers_one],
[Counts_between_expiries], [Feed_limit_ignored], [DBMaxConns_truncated], [Hard_limit_wraps],
[Sweep_zero_panics], [Mean_latency_wraps], [Hold_seconds_wrap],
[Outage_is_bad_request], [Fault_reported_as_bad_request], [Driver_addr_ignored],
[Interval_zero_panics], [demo_key_crosses_accounts], [readRESP_length_panics],
[CacheJitter_nan_accepted], [sampling_nan_passes], [recommendations_duplicated],
[panic_log_lacks_id], [pulse_panic_unknown], [pulse_failure_races_close],
[EnvBool_case], [exhaust_without_pool], [bad_id_is_node_zero]); the
positive theorems carry the conditions that exclude them.

** Conventions, bounds and fuel

Integers are [Z] with the wrap-around of their width where the code can
overflow ([i64], [u64]); clocks are [Z] in nanoseconds.  Maps are [gmap]; where Go
leaves the order of a range statement open, the order is an argument and the
theorem holds for every permutation.  A critical section is one step, and
step relations interleave critical sections; where a handler is taken as one
step its file says so, and [handle_alone], [alone_handleRideRequested] and
[alone_handleDriverLocation] relate such a handler to its sections.  Loops recurse on their list or on the number of
attempts the code itself bounds ([MaxAttempts], [maxProxyAttempts], the three
attempts of [fetch]), so there is no fuel that could run out; termination of
the worker pool is a theorem with a measure; [ParseDuration] recurses on fuel, and
[duration_parts_fuel] shows that the length of its input is enough; [readRESP]
recurses on fuel, and [readRESP_total] shows that one more than the number of bytes
is enough.  Hash functions with random seeds, HMAC and SHA-256, id generators, clocks,
the bank, the payment provider and Redis are parameters or classes; each hypothesis on
them has an instance in the file that uses it.  The text form of times that the holds of
[ttd] store is a parameter that reading inverts, which holds of Go's RFC 3339 form in
the years 0 to 9999.

** Not modelled

Sockets, TLS and signals, the set-up of exporters, pools and profilers, wire
encodings of HTTP and JSON beyond the fields the handlers decide on, log formatting,
the HTML pages, database migrations, random ids (arguments of the model), the command
line of the token mint and the ledger's demonstration: they hold no state of the
programs, or only call the libraries.  The rounding of floats in two places: token
buckets are over exact rationals, so that [Gateway_rate] bounds the ideal bucket and not
its rounded levels, and the HyperLogLog estimate, which needs logarithms, is left out;
the jitter of railcache's lifetimes is computed in float64.  The
algebra of AES-GCM, HMAC and SHA-256 is a parameter.  The cancellation and listing
queries of the cricket store are not in the repository. *)

From Stdlib Require Import ZArith Lia.
From stdpp Require Import base gmap strings list fin_maps relations sorting.

Open Scope Z_scope.

(** ** Notation scope of the development *)

Declare Scope go_scope.
Delimit Scope go_scope with go.

(** ** Results of fallible Go functions

A Go function returning [(T, error)] is modelled by [result E T]: [Ok v] is
[(v, nil)] and [Err e] is [(_, e)]. *)

Inductive result (E A : Type) : Type :=
| Ok (a : A)
| Err (e : E).
Arguments Ok {E A} a.
Arguments Err {E A} e.

Definition result_bind {E A B} (r : result E A) (f : A → result E B) : result E B :=
  match r with Ok a => f a | Err e => Err e end.

Definition is_ok {E A} (r : result E A) : bool :=
  match r with Ok _ => true | Err _ => false end.

Notation "'let?' x ':=' r 'in' k" := (result_bind r (fun x => k))
  (at level 10, x pattern, r at level 100, k at level 200) : go_scope.

#[global] Instance result_eq_dec {E A} `{EqDecision E} `{EqDecision A} : EqDecision (result E A).
Proof. solve_decision. Defined.

(** ** Fixed-width integers

A w-bit Go integer is a [Z]; every arithmetic operation of the source is
followed by the wrap-around of its type. *)

Definition u64 (z : Z) : Z := z mod 2 ^ 64.
Definition u32 (z : Z) : Z := z mod 2 ^ 32.
Definition i64 (z : Z) : Z := (z + 2 ^ 63) mod 2 ^ 64 - 2 ^ 63.
Definition i32 (z : Z) : Z := (z + 2 ^ 31) mod 2 ^ 32 - 2 ^ 31.

Definition in_i64 (z : Z) : Prop := - 2 ^ 63 ≤ z < 2 ^ 63.
Definition in_u64 (z : Z) : Prop := 0 ≤ z < 2 ^ 64.

Definition min_i64 : Z := - 2 ^ 63.
Definition max_i64 : Z := 2 ^ 63 - 1.

(** [m[k]] on a Go map with a numeric element type: absent keys read as 0. *)
Definition zget {K} `{Countable K} (m : gmap K Z) (k : K) : Z := default 0 (m !! k).

(** ** Tactics *)

(** Opens existentials and conjunctions of the hypotheses. *)
Ltac open_hyps :=
  repeat match goal with
  | H : ∃ _, _ |- _ => let x := fresh in destruct H as [x H]
  | H : _ ∧ _ |- _ => destruct H
  end.

(** Turns boolean comparisons of [Z] and conjunctions into propositions. *)
Ltac zbool :=
  repeat match goal with
  | H : (_ <? _) = true |- _ => apply Z.ltb_lt in H
  | H : (_ <? _) = false |- _ => apply Z.ltb_ge in H
  | H : (_ <=? _) = true |- _ => apply Z.leb_le in H
  | H : (_ <=? _) = false |- _ => apply Z.leb_gt in H
  | H : (_ >? _) = true |- _ => rewrite Z.gtb_ltb in H; apply Z.ltb_lt in H
  | H : (_ >? _) = false |- _ => rewrite Z.gtb_ltb in H; apply Z.ltb_ge in H
  | H : (_ =? _) = true |- _ => apply Z.eqb_eq in H
  | H : (_ =? _) = false |- _ => apply Z.eqb_neq in H
  | H : (_ && _) = true |- _ => apply andb_true_iff in H; destruct H
  | H : (_ || _) = false |- _ => apply orb_false_iff in H; destruct H
  | H : negb _ = true |- _ => apply negb_true_iff in H
  | H : negb _ = false |- _ => apply negb_false_iff in H
  | H : String.eqb _ _ = true |- _ => apply String.eqb_eq in H
  | H : String.eqb _ _ = false |- _ => apply String.eqb_neq in H
  | H : bool_decide _ = true |- _ => apply bool_decide_eq_true in H
  | H : bool_decide _ = false |- _ => apply bool_decide_eq_false in H
  end.

(** Case analysis on the innermost test of the goal or of a hypothesis. *)
Ltac case_test :=
  match goal with
  | |- context [if ?b then _ else _] =>
      lazymatch b with context [if _ then _ else _] => fail | _ => idtac end;
      let E := fresh "E" in destruct b eqn:E
  | H : context [if ?b then _ else _] |- _ =>
      lazymatch b with context [if _ then _ else _] => fail | _ => idtac end;
      let E := fresh "E" in destruct b eqn:E
  end.

Ltac unfold_width := unfold u64, u32, i64, i32, in_i64, in_u64, min_i64, max_i64 in *.

(** Linear arithmetic over the machine bounds, with [mod] by a constant. *)
Ltac width := unfold_width; Z.div_mod_to_equations; lia.

Create HintDb go discriminated.
Create Rewrite HintDb go_width.

(** ** Lemmas on fixed-width integers *)

Lemma u64_small z : in_u64 z → u64 z = z.
Proof. intros. apply Z.mod_small. exact H. Qed.

Lemma u64_range z : in_u64 (u64 z).
Proof. apply Z.mod_pos_bound. lia. Qed.

Lemma i64_small z : in_i64 z → i64 z = z.
Proof. unfold in_i64, i64. intros. rewrite Z.mod_small; lia. Qed.

Lemma i64_range z : in_i64 (i64 z).
Proof.
  unfold in_i64, i64. pose proof (Z.mod_pos_bound (z + 2^63) (2^64)). lia.
Qed.

Lemma u64_add_l x y : u64 (u64 x + y) = u64 (x + y).
Proof. apply Zplus_mod_idemp_l. Qed.

Lemma u64_add_r x y : u64 (x + u64 y) = u64 (x + y).
Proof. apply Zplus_mod_idemp_r. Qed.

(** [i64] is the identity modulo [2^64]. *)
Lemma i64_cong z : ∃ k, i64 z = z + k * 2 ^ 64.
Proof.
  unfold i64. exists (- ((z + 2^63) / 2^64)).
  pose proof (Z.div_mod (z + 2^63) (2^64)). lia.
Qed.

Lemma i64_add_cong x k : i64 (x + k * 2 ^ 64) = i64 x.
Proof.
  unfold i64. replace (x + k * 2^64 + 2^63) with (x + 2^63 + k * 2^64) by lia.
  by rewrite Z_mod_plus_full.
Qed.

Lemma i64_add_l x y : i64 (i64 x + y) = i64 (x + y).
Proof.
  destruct (i64_cong x) as [k ->].
  replace (x + k * 2^64 + y) with (x + y + k * 2^64) by lia. apply i64_add_cong.
Qed.

Lemma i64_add_r x y : i64 (x + i64 y) = i64 (x + y).
Proof. rewrite (Z.add_comm x), i64_add_l. f_equal. lia. Qed.

Lemma i64_sub_l x y : i64 (i64 x - y) = i64 (x - y).
Proof. rewrite <- !Z.add_opp_r. apply i64_add_l. Qed.

(** ** Go string order

Go compares strings bytewise; [String.compare] does the same on the byte
codes of [ascii]. *)

Definition str_lt (a b : string) : bool :=
  match String.compare a b with Lt => true | _ => false end.

Lemma ascii_compare_refl c : Ascii.compare c c = Eq.
Proof. apply N.compare_refl. Qed.

Lemma str_compare_refl s : String.compare s s = Eq.
Proof. induction s as [|c s IH]; simpl; [done|]. by rewrite ascii_compare_refl. Qed.

Lemma str_compare_eq a b : String.compare a b = Eq ↔ a = b.
Proof. split; [apply String.compare_eq_iff | intros ->; apply str_compare_refl]. Qed.

Lemma ascii_compare_eq c d : Ascii.compare c d = Eq → c = d.
Proof.
  intros E%N.compare_eq_iff.
  rewrite <- (Ascii.ascii_N_embedding c), <- (Ascii.ascii_N_embedding d). by rewrite E.
Qed.

Lemma str_lt_irrefl s : str_lt s s = false.
Proof. unfold str_lt. by rewrite str_compare_refl. Qed.

Lemma str_lt_trans a b c : str_lt a b = true → str_lt b c = true → str_lt a c = true.
Proof.
  unfold str_lt. revert b c.
  induction a as [|x a IH]; intros [|y b] [|z c]; simpl; try done.
  destruct (Ascii.compare x y) eqn:Exy, (Ascii.compare y z) eqn:Eyz; try done; intros H1 H2.
  - apply ascii_compare_eq in Exy as ->. rewrite Eyz. eauto.
  - apply ascii_compare_eq in Exy as ->. by rewrite Eyz.
  - apply ascii_compare_eq in Eyz as ->. by rewrite Exy.
  - assert (Ascii.compare x z = Lt) as ->; [|done].
    unfold Ascii.compare in *. rewrite N.compare_lt_iff in *. lia.
Qed.

Lemma str_lt_total a b : a ≠ b → str_lt a b = false → str_lt b a = true.
Proof.
  unfold str_lt. intros Hne. rewrite (String.compare_antisym b a).
  destruct (String.compare a b) eqn:E; simpl; try done.
  apply str_compare_eq in E. congruence.
Qed.

(** ** hash/fnv: the 32-bit FNV-1a hash of a string *)

Definition byte_Z (c : Ascii.ascii) : Z := Z.of_N (Ascii.N_of_ascii c).

Fixpoint fnv32a_from (h : Z) (s : string) : Z :=
  match s with
  | EmptyString => h
  | String c s' => fnv32a_from (u32 (Z.lxor h (byte_Z c) * 16777619)) s'
  end.

Definition fnv32a (s : string) : Z := fnv32a_from 2166136261 s.

Lemma fnv32a_range s : 0 ≤ fnv32a s < 2 ^ 32.
Proof.
  unfold fnv32a. assert (0 ≤ 2166136261 < 2 ^ 32) as H by lia. revert H.
  generalize 2166136261. induction s as [|c s IH]; intros h Hh; simpl; [done|].
  apply IH. apply Z.mod_pos_bound. lia.
Qed.

(** ** Sums over maps and lists *)

(** The sum of an integer measure over the elements of a list. *)
Definition zsum {A} (f : A → Z) (l : list A) : Z := foldr (fun a acc => f a + acc) 0 l.

Lemma zsum_app {A} (f : A → Z) l1 l2 : zsum f (l1 ++ l2) = zsum f l1 + zsum f l2.
Proof. induction l1; simpl; lia. Qed.

#[global] Instance zsum_perm {A} (f : A → Z) : Proper ((≡ₚ) ==> (=)) (zsum f).
Proof. intros l1 l2 H. induction H; simpl; lia. Qed.

Lemma zsum_nonneg {A} (f : A → Z) l : (∀ a, a ∈ l → 0 ≤ f a) → 0 ≤ zsum f l.
Proof.
  induction l as [|a l IH]; simpl; [lia|]. intros H.
  assert (0 ≤ f a) by (apply H; left). assert (0 ≤ zsum f l); [|lia].
  apply IH. intros b Hb. apply H. by right.
Qed.

Lemma zsum_ext {A} (f g : A → Z) l : (∀ a, a ∈ l → f a = g a) → zsum f l = zsum g l.
Proof.
  induction l as [|a l IH]; simpl; [done|]. intros H. f_equal.
  - apply H. left.
  - apply IH. intros b Hb. apply H. by right.
Qed.

Lemma zsum_insert {A} (f : A → Z) (l : list A) i x y : l !! i = Some x → zsum f (<[i := y]> l) = zsum f l - f x + f y.
Proof.
  revert i. induction l as [|a l IH]; intros [|i] Hi; simplify_eq/=; [unfold zsum; simpl; lia|].
  specialize (IH i Hi). unfold zsum in *. simpl. lia.
Qed.

Lemma zsum_zero {A} (l : list A) : zsum (fun _ => 0) l = 0.
Proof. induction l; simpl; lia. Qed.

Lemma zsum_add {A} (f g : A → Z) l : zsum (fun a => f a + g a) l = zsum f l + zsum g l.
Proof. induction l; simpl; lia. Qed.

(** The sum of a measure over the values of a map. *)
Definition msum {K A} `{Countable K} (f : A → Z) (m : gmap K A) : Z :=
  zsum (fun p => f p.2) (map_to_list m).

Section msum.
Context {K A : Type} `{Countable K} (f : A → Z).
Implicit Types m : gmap K A.

Lemma msum_empty : msum f (∅ : gmap K A) = 0.
Proof. unfold msum. by rewrite map_to_list_empty. Qed.

Lemma msum_insert_new m k v : m !! k = None → msum f (<[k:=v]> m) = f v + msum f m.
Proof. intros Hk. unfold msum. by rewrite map_to_list_insert. Qed.

Lemma msum_delete m k v : m !! k = Some v → msum f m = f v + msum f (delete k m).
Proof.
  intros Hk. rewrite <- (insert_delete_id m k v) at 1 by done.
  apply msum_insert_new. apply lookup_delete_eq.
Qed.

Lemma msum_insert m k v w :
  m !! k = Some w → msum f (<[k:=v]> m) = msum f m - f w + f v.
Proof.
  intros Hk. rewrite (msum_delete m k w Hk), <- insert_delete_eq.
  rewrite msum_insert_new by apply lookup_delete_eq. lia.
Qed.

Lemma msum_nonneg m : (∀ k v, m !! k = Some v → 0 ≤ f v) → 0 ≤ msum f m.
Proof.
  intros Hm. apply zsum_nonneg. intros [k v] Hin%elem_of_map_to_list. eauto.
Qed.

Lemma msum_ge m k v :
  (∀ k v, m !! k = Some v → 0 ≤ f v) → m !! k = Some v → f v ≤ msum f m.
Proof.
  intros Hm Hk. rewrite (msum_delete m k v Hk).
  assert (0 ≤ msum f (delete k m)); [|lia].
  apply msum_nonneg. intros k' v' [? ?]%lookup_delete_Some. eauto.
Qed.

(** Two measures that agree off one entry differ by what they differ there. *)
Lemma msum_change (g : A → Z) m k v :
  m !! k = Some v → (∀ k' v', k' ≠ k → m !! k' = Some v' → f v' = g v') →
  msum f m = f v + (msum g m - g v).
Proof.
  intros Hk Hfg. unfold msum. rewrite <- (insert_delete_id m k v Hk) at 1 2.
  rewrite !map_to_list_insert by apply lookup_delete_eq. simpl.
  rewrite (zsum_ext (fun p => f p.2) (fun p => g p.2)); [lia|].
  intros [k' v'] Hin%elem_of_map_to_list. apply lookup_delete_Some in Hin as [Hne Hin]. by apply (Hfg k').
Qed.

Lemma msum_ext (g : A → Z) m : (∀ k v, m !! k = Some v → f v = g v) → msum f m = msum g m.
Proof. intros Hfg. apply zsum_ext. intros [k v] Hin%elem_of_map_to_list. by apply (Hfg k). Qed.
End msum.

(** ** Maps of counters *)

Lemma zget_insert {K} `{Countable K} (m : gmap K Z) k v k' :
  zget (<[k := v]> m) k' = if decide (k = k') then v else zget m k'.
Proof. unfold zget. rewrite lookup_insert. by case_decide. Qed.

Lemma zget_empty {K} `{Countable K} (k : K) : zget (∅ : gmap K Z) k = 0.
Proof. unfold zget. by rewrite lookup_empty. Qed.

Lemma zget_dom {K} `{Countable K} (m : gmap K Z) k : k ∉ dom m → zget m k = 0.
Proof. intros Hk%not_elem_of_dom. unfold zget. by rewrite Hk. Qed.

(** ** Filters *)

Section filter.
Context {A : Type} (P Q : A → Prop) `{!∀ x, Decision (P x), !∀ x, Decision (Q x)}.

Lemma filter_ext_in (l : list A) : (∀ x, x ∈ l → P x ↔ Q x) → filter P l = filter Q l.
Proof.
  induction l as [|a l IH]; intros Hall; [done|]. rewrite !filter_cons, IH.
  - assert (P a ↔ Q a) by (apply Hall; left). repeat case_decide; tauto.
  - intros x Hx. apply Hall. by right.
Qed.

Lemma filter_all_in (l : list A) : (∀ x, x ∈ l → P x) → filter P l = l.
Proof.
  induction l as [|a l IH]; intros Hall; [done|]. rewrite filter_cons, decide_True.
  - f_equal. apply IH. intros x Hx. apply Hall. by right.
  - apply Hall. left.
Qed.
End filter.

Lemma filter_fmap {A B} (f : A → B) (P : B → Prop) `{!∀ y, Decision (P y)} (l : list A) :
  filter P (f <$> l) = f <$> filter (fun x => P (f x)) l.
Proof.
  induction l as [|a l IH]; [done|]. rewrite fmap_cons, !filter_cons, IH.
  by repeat case_decide.
Qed.

(** ** Maximal elements *)

(** A non-empty list has an element above which the strict order [R] has none. *)
Lemma list_maximal {A} (R : A → A → bool) (l : list A) :
  (∀ x, R x x = false) → (∀ x y z, R x y = true → R y z = true → R x z = true) →
  l ≠ [] → ∃ x, x ∈ l ∧ ∀ y, y ∈ l → R x y = false.
Proof.
  intros Hirr Htr. induction l as [|a l IH]; [done|]. intros _.
  destruct l as [|b l].
  { exists a. split; [left|]. intros y ->%list_elem_of_singleton. apply Hirr. }
  destruct IH as (x & Hx & Hmax); [done|].
  destruct (R x a) eqn:E.
  - exists a. split; [left|]. intros y [->|Hy]%elem_of_cons; [apply Hirr|].
    destruct (R a y) eqn:E'; [|done]. by rewrite <- (Hmax y Hy), (Htr x a y).
  - exists x. split; [by right|]. intros y [->|Hy]%elem_of_cons; auto.
Qed.

(** ** Reachability of a step relation *)

(** A set is no larger than another that it injects into. *)
Lemma size_le_inj {A B} `{Countable A, Countable B} (R : A → B → Prop) (X : gset A) (Y : gset B) :
  (∀ x, x ∈ X → ∃ y, y ∈ Y ∧ R x y) → (∀ x x' y, R x y → R x' y → x = x') → (size X ≤ size Y)%nat.
Proof.
  intros HX HR. revert Y HX. induction X as [|x X Hx IH] using set_ind_L; intros Y HX; [rewrite size_empty; lia|].
  destruct (HX x ltac:(set_solver)) as (y & Hy & Hxy).
  assert (size X ≤ size (Y ∖ {[y]}))%nat as Hle.
  { apply IH. intros x' Hx'. destruct (HX x' ltac:(set_solver)) as (y' & Hy' & Hr). exists y'. split; [|done].
    apply elem_of_difference. split; [done|]. intros ->%elem_of_singleton. assert (x = x') by eauto. congruence. }
  rewrite size_difference, size_singleton in Hle by set_solver.
  assert (size Y ≠ 0)%nat by (intros He%size_empty_inv; set_solver).
  rewrite size_union, size_singleton by set_solver. lia.
Qed.

(** An invariant that holds initially and is preserved by every step holds in
every reachable state. *)
Lemma rtc_invariant {S} (R : relation S) (P : S → Prop) s s' :
  (∀ x y, P x → R x y → P y) → rtc R s s' → P s → P s'.
Proof. intros Hstep Hr. induction Hr; eauto. Qed.

#[export] Hint Resolve u64_range i64_range str_lt_irrefl str_lt_trans : go.
#[export] Hint Rewrite u64_add_l u64_add_r i64_add_l i64_add_r i64_sub_l : go_width.
