(* ===== verification/GoStrings.v ===== *)
(** * The parts of Go's strings and strconv packages that the sources use

[strings.Split] and [strings.Join] on a one-byte separator,
[strings.LastIndex] of one byte, [strings.TrimSpace], slices of strings, and the decimal
conversions of [strconv]; the components that parse keys and tokens share
their round trips. *)

From Stdlib Require Import ZArith Lia Ascii.
From stdpp Require Import base strings pretty list.
From S2P Require Import Prelude.

Open Scope Z_scope.

(** ** strings.Split and strings.Join *)

Fixpoint split (c : Ascii.ascii) (s : string) : list string :=
  match s with
  | EmptyString => [""]
  | String a s' =>
      if Ascii.eqb a c then "" :: split c s'
      else match split c s' with
           | h :: t => String a h :: t
           | [] => [String a ""]
           end
  end.

Fixpoint join (c : Ascii.ascii) (l : list string) : string :=
  match l with
  | [] => ""
  | [x] => x
  | x :: l' => x +:+ String c (join c l')
  end.

(** ** strings.LastIndex of a byte *)

Fixpoint last_index (c : Ascii.ascii) (s : string) : option nat :=
  match s with
  | EmptyString => None
  | String a s' =>
      match last_index c s' with
      | Some i => Some (S i)
      | None => if Ascii.eqb a c then Some 0%nat else None
      end
  end.

(** The slices [s[:i]] and [s[i:]] for [i] at most the length. *)
Definition slice_to (i : nat) (s : string) : string := String.substring 0 i s.

Definition slice_from (i : nat) (s : string) : string := String.substring i (String.length s - i) s.

(** ** strings.TrimSpace on ASCII white space *)

Definition is_space (a : Ascii.ascii) : bool :=
  let n := Ascii.nat_of_ascii a in (Nat.leb 9 n && Nat.leb n 13) || Nat.eqb n 32.

Fixpoint trim_left (s : string) : string :=
  match s with String a s' => if is_space a then trim_left s' else s | EmptyString => "" end.

Fixpoint trim_right (s : string) : string :=
  match s with
  | EmptyString => ""
  | String a s' =>
      match trim_right s' with
      | EmptyString => if is_space a then "" else String a ""
      | t => String a t
      end
  end.

Definition TrimSpace (s : string) : string := trim_right (trim_left s).

(** ** strconv *)

(** [strconv.Itoa] and [FormatInt] in base 10. *)
Definition Itoa (z : Z) : string := pretty z.

Definition digit_value (a : Ascii.ascii) : option Z :=
  let n := byte_Z a in if (48 <=? n) && (n <=? 57) then Some (n - 48) else None.

Fixpoint digits (acc : Z) (s : string) : option Z :=
  match s with
  | EmptyString => Some acc
  | String a s' => match digit_value a with Some d => digits (10 * acc + d) s' | None => None end
  end.

(** [strconv.ParseInt(s, 10, 64)] and [strconv.Atoi]: an optional sign, at least
one digit, and a value in the range of int64. *)
Definition unsigned (s : string) : option Z :=
  match s with EmptyString => None | _ => digits 0 s end.

Definition signed (s : string) : option Z :=
  match s with
  | String a s' =>
      if Ascii.eqb a "-"%char then Z.opp <$> unsigned s'
      else if Ascii.eqb a "+"%char then unsigned s'
      else unsigned s
  | EmptyString => None
  end.

Definition ParseInt (s : string) : option Z :=
  match signed s with
  | Some z => if (min_i64 <=? z) && (z <=? max_i64) then Some z else None
  | None => None
  end.

(** [strconv.ParseBool]. *)
Definition ParseBool (s : string) : option bool :=
  if bool_decide (s ∈ ["1"; "t"; "T"; "true"; "TRUE"; "True"]) then Some true
  else if bool_decide (s ∈ ["0"; "f"; "F"; "false"; "FALSE"; "False"]) then Some false
  else None.

(** [fmt.Sscanf] with the verb d: leading blanks that are not newlines, an optional
sign, and the longest run of digits, which must fit an int64; what follows is
ignored. *)
Fixpoint skip_blanks (s : string) : option string :=
  match s with
  | EmptyString => Some ""
  | String a s' => if Ascii.eqb a "010" then None else if is_space a then skip_blanks s' else Some s
  end.

Fixpoint scan_digits (acc : Z) (s : string) : Z :=
  match s with
  | EmptyString => acc
  | String a s' => match digit_value a with Some d => scan_digits (10 * acc + d) s' | None => acc end
  end.

Definition scan_unsigned (s : string) : option Z :=
  match s with
  | EmptyString => None
  | String a _ => match digit_value a with Some _ => Some (scan_digits 0 s) | None => None end
  end.

Definition scan_signed (s : string) : option Z :=
  match s with
  | String a s' =>
      if Ascii.eqb a "-"%char then Z.opp <$> scan_unsigned s'
      else if Ascii.eqb a "+"%char then scan_unsigned s'
      else scan_unsigned s
  | EmptyString => None
  end.

Definition Sscan_d (s : string) : option Z :=
  match skip_blanks s ≫= scan_signed with
  | Some z => if (min_i64 <=? z) && (z <=? max_i64) then Some z else None
  | None => None
  end.

(** ** Lemmas *)

Lemma str_app_cons x (a b : string) : String x a +:+ b = String x (a +:+ b).
Proof. done. Qed.

Lemma str_app_assoc (a b c : string) : (a +:+ b) +:+ c = a +:+ b +:+ c.
Proof. induction a as [|x a IH]; [done|]. by rewrite !str_app_cons, IH. Qed.

Lemma str_app_nil (a : string) : a +:+ "" = a.
Proof. induction a as [|x a IH]; [done|]. by rewrite str_app_cons, IH. Qed.

Lemma str_app_inj_suffix (a b s : string) : a +:+ s = b +:+ s → a = b.
Proof.
  assert (∀ x y : string, String.length (x +:+ y) = (String.length x + String.length y)%nat) as Hlen.
  { intros x y. induction x as [|c x IH]; [done|]. rewrite str_app_cons. simpl. by rewrite IH. }
  revert b. induction a as [|x a IH]; intros [|y b] Heq; [done| | |].
  - apply (f_equal String.length) in Heq. rewrite !Hlen in Heq. simpl in Heq. lia.
  - apply (f_equal String.length) in Heq. rewrite !Hlen in Heq. simpl in Heq. lia.
  - rewrite !str_app_cons in Heq. injection Heq as -> Heq. f_equal. by apply IH.
Qed.

Section sep.
Context (c : Ascii.ascii).

(** The separator does not occur in the string. *)
Definition lacks (s : string) : Prop := split c s = [s].

Lemma split_nonempty s : split c s ≠ [].
Proof. induction s as [|a s IH]; simpl; [done|]. destruct (Ascii.eqb a c); [done|]. by destruct (split c s). Qed.

Lemma join_cons x l : l ≠ [] → join c (x :: l) = x +:+ String c (join c l).
Proof. by destruct l. Qed.

Lemma join_split s : join c (split c s) = s.
Proof.
  induction s as [|a s IH]; [done|]. cbn [split]. destruct (Ascii.eqb a c) eqn:E.
  - apply Ascii.eqb_eq in E as ->. rewrite join_cons by apply split_nonempty. by rewrite IH.
  - destruct (split c s) as [|h t] eqn:Es; [by destruct (split_nonempty s)|].
    rewrite <- IH. destruct t; done.
Qed.

Lemma join_snoc l x : l ≠ [] → join c (l ++ [x]) = join c l +:+ String c x.
Proof.
  induction l as [|y l IH]; [done|]. intros _. destruct l as [|z l]; [done|].
  rewrite <- app_comm_cons, !join_cons by done. rewrite IH by done. by rewrite !str_app_assoc.
Qed.

Lemma split_app a b : split c (a +:+ String c b) = split c a ++ split c b.
Proof.
  induction a as [|x a IH]; [change ("" +:+ String c b) with (String c b); cbn [split]; by rewrite Ascii.eqb_refl|].
  rewrite str_app_cons. cbn [split]. destruct (Ascii.eqb x c); [by rewrite IH|]. rewrite IH.
  by destruct (split c a) as [|h t] eqn:E; [destruct (split_nonempty a)|].
Qed.

Lemma lacks_cons a s : lacks (String a s) ↔ a ≠ c ∧ lacks s.
Proof.
  unfold lacks. cbn [split]. destruct (Ascii.eqb a c) eqn:E.
  - apply Ascii.eqb_eq in E as ->. split; [|by intros []]. intros Heq. injection Heq. done.
  - apply Ascii.eqb_neq in E. destruct (split c s) as [|h t] eqn:Es; [by destruct (split_nonempty s)|].
    split; [intros [= -> ->]; done|]. intros [_ [= -> ->]]. done.
Qed.

Lemma last_index_None s : last_index c s = None ↔ lacks s.
Proof.
  induction s as [|a s IH]; [done|]. rewrite lacks_cons, <- IH. cbn [last_index].
  destruct (last_index c s); [split; [done|by intros [_ ?]]|].
  destruct (Ascii.eqb a c) eqn:E; [apply Ascii.eqb_eq in E|apply Ascii.eqb_neq in E];
    (split; [try done; by intros|]); tauto.
Qed.

Lemma last_index_app a b : lacks b → last_index c (a +:+ String c b) = Some (String.length a).
Proof.
  intros Hb%last_index_None. induction a as [|x a IH]; [|rewrite str_app_cons; cbn [last_index]; by rewrite IH].
  change ("" +:+ String c b) with (String c b). cbn [last_index]. by rewrite Hb, Ascii.eqb_refl.
Qed.

(** The last separator cuts the string; nothing after it is one. *)
Lemma last_index_Some s i : last_index c s = Some i →
  ∃ a b, s = a +:+ String c b ∧ String.length a = i ∧ lacks b.
Proof.
  revert i. induction s as [|x s IH]; intros i; [done|]. cbn [last_index].
  destruct (last_index c s) as [j|] eqn:E.
  - intros [= <-]. destruct (IH j eq_refl) as (a & b & -> & <- & Hb).
    exists (String x a), b. by rewrite str_app_cons.
  - destruct (Ascii.eqb x c) eqn:Ex; [|done]. intros [= <-]. apply Ascii.eqb_eq in Ex as ->.
    exists "", s. split_and!; [done|done|]. by apply last_index_None.
Qed.

(** Splitting what was joined from pieces without the separator. *)
Lemma split_join l : l ≠ [] → Forall lacks l → split c (join c l) = l.
Proof.
  induction l as [|x l IH]; [done|]. intros _ [Hx Hl]%Forall_cons. destruct l as [|y l]; [done|].
  rewrite join_cons, split_app, IH by done. by rewrite Hx.
Qed.
End sep.

(** ** Trimming is idempotent *)

Lemma trim_left_idem s : trim_left (trim_left s) = trim_left s.
Proof.
  induction s as [|a s IH]; [done|]. cbn [trim_left]. destruct (is_space a) eqn:E; [done|].
  cbn [trim_left]. by rewrite E.
Qed.

Lemma trim_right_cons a s :
  trim_right (String a s) = if is_space a && bool_decide (trim_right s = "") then "" else String a (trim_right s).
Proof. cbn [trim_right]. destruct (trim_right s); simpl; by destruct (is_space a). Qed.

Lemma trim_right_idem s : trim_right (trim_right s) = trim_right s.
Proof.
  induction s as [|a s IH]; [done|]. rewrite trim_right_cons.
  destruct (is_space a && bool_decide (trim_right s = "")) eqn:E; [done|].
  rewrite trim_right_cons, IH. by rewrite E.
Qed.

(** Trimming on the right leaves the first byte, or nothing. *)
Lemma trim_left_right s : trim_left s = s → trim_left (trim_right s) = trim_right s.
Proof.
  destruct s as [|a s]; [done|]. cbn [trim_left]. destruct (is_space a) eqn:E.
  - intros Hs. exfalso. assert (∀ t, (String.length (trim_left t) ≤ String.length t)%nat) as Hl.
    { intros t. induction t as [|b t IH]; simpl; [done|]. destruct (is_space b); simpl; lia. }
    specialize (Hl s). rewrite Hs in Hl. simpl in Hl. lia.
  - intros _. rewrite trim_right_cons, E. simpl. by rewrite E.
Qed.

Lemma TrimSpace_idem s : TrimSpace (TrimSpace s) = TrimSpace s.
Proof. unfold TrimSpace. rewrite trim_left_right by apply trim_left_idem. apply trim_right_idem. Qed.

Lemma substring_all s : String.substring 0 (String.length s) s = s.
Proof. induction s as [|a s IH]; simpl; [done|]. by rewrite IH. Qed.

Lemma slice_from_app p s : slice_from (String.length p) (p +:+ s) = s.
Proof.
  unfold slice_from. induction p as [|a p IH]; [|done]. change ("" +:+ s) with s.
  rewrite Nat.sub_0_r. apply substring_all.
Qed.

Lemma slice_to_app p s : slice_to (String.length p) (p +:+ s) = p.
Proof.
  unfold slice_to. induction p as [|a p IH]; [by destruct s|]. rewrite str_app_cons. simpl. by rewrite IH.
Qed.

Lemma prefix_app p s : String.prefix p (p +:+ s) = true.
Proof.
  induction p as [|a p IH]; [by destruct s|]. rewrite str_app_cons. simpl.
  by destruct (Ascii.ascii_dec a a).
Qed.

Lemma prefix_split p key : String.prefix p key = true → key = p +:+ slice_from (String.length p) key.
Proof.
  unfold slice_from. revert key. induction p as [|a p IH]; intros key Hp; simpl.
  - rewrite Nat.sub_0_r. by rewrite substring_all.
  - destruct key as [|b key]; [done|]. simpl in *. destruct (Ascii.ascii_dec a b) as [->|]; [|done].
    rewrite str_app_cons. f_equal. by apply IH.
Qed.

(** ** Decimal round trip *)

Lemma digits_pretty (x : N) (s : string) : digits 0 (pretty_N_go x s) = digits (Z.of_N x) s.
Proof.
  revert s. induction (N.lt_wf_0 x) as [x _ IH]; intros s.
  destruct (decide (x = 0%N)) as [->|Hx]; [done|]. rewrite pretty_N_go_step by lia.
  rewrite IH by (apply N.div_lt; lia). cbn [digits].
  assert (digit_value (pretty_N_char (x mod 10)) = Some (Z.of_N (x mod 10))) as ->.
  { pose proof (N.mod_lt x 10 ltac:(lia)) as Hlt. revert Hlt. generalize (x mod 10)%N. intros d Hd.
    by assert (d = 0 ∨ d = 1 ∨ d = 2 ∨ d = 3 ∨ d = 4 ∨ d = 5 ∨ d = 6 ∨ d = 7 ∨ d = 8 ∨ d = 9)%N
      as [->|[->|[->|[->|[->|[->|[->|[->|[->| ->]]]]]]]]] by lia. }
  f_equal. rewrite N2Z.inj_div, N2Z.inj_mod. pose proof (Z.div_mod (Z.of_N x) 10). lia.
Qed.

Lemma unsigned_pretty (x : N) : unsigned (pretty x) = Some (Z.of_N x).
Proof.
  unfold pretty, pretty_N. case_decide as Hx; [by subst|]. pose proof (digits_pretty x "") as Hd.
  unfold unsigned. destruct (pretty_N_go x "") eqn:E; [|done]. simpl in Hd. injection Hd. lia.
Qed.

(** A rendered natural number starts with a digit. *)
Lemma unsigned_head a s z : unsigned (String a s) = Some z → a ≠ "-"%char ∧ a ≠ "+"%char.
Proof. cbn. intros Hd. split; intros ->; done. Qed.

Lemma signed_Itoa z : signed (Itoa z) = Some z.
Proof.
  unfold signed, Itoa, pretty, pretty_Z. destruct z as [|p|p].
  - by vm_compute.
  - pose proof (unsigned_pretty (Npos p)) as Hu. change (pretty p) with (pretty (N.pos p)).
    destruct (pretty (N.pos p)) as [|a s] eqn:E; [done|].
    destruct (unsigned_head a s _ Hu) as [Hm Hp].
    by rewrite (proj2 (Ascii.eqb_neq _ _) Hm), (proj2 (Ascii.eqb_neq _ _) Hp), Hu.
  - change ("-" +:+ pretty p) with (String "-" (pretty (N.pos p))).
    cbv beta iota. by rewrite Ascii.eqb_refl, unsigned_pretty.
Qed.

Lemma ParseInt_Itoa z : in_i64 z → ParseInt (Itoa z) = Some z.
Proof.
  intros Hz. unfold ParseInt. rewrite signed_Itoa.
  assert ((min_i64 <=? z) && (z <=? max_i64) = true) as ->; [|done].
  apply andb_true_iff. rewrite !Z.leb_le. unfold min_i64, max_i64, in_i64 in *. lia.
Qed.

(** No separator that is neither a digit nor a minus occurs in a rendered
integer. *)
Lemma pretty_N_go_lacks c x s : digit_value c = None → lacks c s → lacks c (pretty_N_go x s).
Proof.
  intros Hc. revert s. induction (N.lt_wf_0 x) as [x _ IH]; intros s Hs.
  destruct (decide (x = 0%N)) as [->|Hx]; [done|]. rewrite pretty_N_go_step by lia.
  apply IH; [apply N.div_lt; lia|]. apply lacks_cons. split; [|done]. intros <-. revert Hc.
  pose proof (N.mod_lt x 10 ltac:(lia)) as Hlt. revert Hlt. generalize (x mod 10)%N. intros d Hd.
  by assert (d = 0 ∨ d = 1 ∨ d = 2 ∨ d = 3 ∨ d = 4 ∨ d = 5 ∨ d = 6 ∨ d = 7 ∨ d = 8 ∨ d = 9)%N
      as [->|[->|[->|[->|[->|[->|[->|[->|[->| ->]]]]]]]]] by lia.
Qed.

Lemma Itoa_lacks c z : digit_value c = None → c ≠ "-"%char → lacks c (Itoa z).
Proof.
  intros Hd Hm. assert (∀ x : N, lacks c (pretty x)) as Hn.
  { intros x. unfold pretty, pretty_N. case_decide; [|by apply pretty_N_go_lacks].
    apply lacks_cons. split; [|done]. intros <-. done. }
  unfold Itoa, pretty, pretty_Z. destruct z as [|p|p]; [apply (Hn 0%N)|apply (Hn (Npos p))|].
  change ("-" +:+ pretty p) with (String "-" (pretty (N.pos p))). apply lacks_cons. eauto.
Qed.
