(* ===== verification/GoTime.v ===== *)
(** * The part of package [time] the configurations use

[time.ParseDuration] with its 64-bit arithmetic.  The digits after a decimal
point go through [float64] in Go; they do here too, by [SpecFloat], so the
function is exact on every input. *)

From Stdlib Require Import ZArith Lia Ascii String SpecFloat.
From stdpp Require Import base strings pretty list.
From S2P Require Import Prelude GoStrings.
Open Scope string_scope.
Open Scope Z_scope.

Definition Nanosecond : Z := 1.
Definition Microsecond : Z := 1000 * Nanosecond.
Definition Millisecond : Z := 1000 * Microsecond.
Definition Second : Z := 1000 * Millisecond.
Definition Minute : Z := 60 * Second.
Definition Hour : Z := 60 * Minute.

(** [float64] with 53 bits of mantissa and exponents up to 1024. *)
Definition to_float64 (z : Z) : spec_float := binary_normalize 53 1024 z 0 false.
Definition float64_mul : spec_float → spec_float → spec_float := SFmul 53 1024.
Definition float64_div : spec_float → spec_float → spec_float := SFdiv 53 1024.

(** [uint64(f)] for a finite [f] in range: the fraction is dropped. *)
Definition float64_trunc (f : spec_float) : Z :=
  match f with
  | S754_finite false m e => Z.shiftl (Zpos m) e
  | _ => 0
  end.

(** [leadingInt]: the digits in front of [s], [None] past [1<<63]. *)
Fixpoint leadingInt (x : Z) (s : string) : option (Z * string) :=
  match s with
  | EmptyString => Some (x, s)
  | String c s' =>
      match digit_value c with
      | None => Some (x, s)
      | Some v =>
          if 2 ^ 63 / 10 <? x then None
          else if 2 ^ 63 <? x * 10 + v then None
          else leadingInt (x * 10 + v) s'
      end
  end.

(** [leadingFraction]: digits that no longer fit are read and dropped. *)
Fixpoint leadingFraction (x : Z) (scale : spec_float) (overflow : bool) (s : string) : Z * spec_float * string :=
  match s with
  | EmptyString => (x, scale, s)
  | String c s' =>
      match digit_value c with
      | None => (x, scale, s)
      | Some v =>
          if overflow || ((2 ^ 63 - 1) / 10 <? x) || (2 ^ 63 <? x * 10 + v) then leadingFraction x scale true s'
          else leadingFraction (x * 10 + v) (float64_mul scale (to_float64 10)) false s'
      end
  end.

Definition is_dot (c : Ascii.ascii) : bool := bool_decide (c = "."%char).

(** The unit: everything up to the next digit or point. *)
Fixpoint unit_prefix (s : string) : string * string :=
  match s with
  | EmptyString => ("", "")
  | String c s' =>
      if is_dot c || bool_decide (is_Some (digit_value c)) then ("", s)
      else let '(u, rest) := unit_prefix s' in (String c u, rest)
  end.

(** [unitMap]; both spellings of the micro sign, in UTF-8. *)
Definition unit_of (u : string) : option Z :=
  if String.eqb u "ns" then Some Nanosecond
  else if String.eqb u "us" || String.eqb u (String (Ascii.ascii_of_nat 194) (String (Ascii.ascii_of_nat 181) "s"))
       || String.eqb u (String (Ascii.ascii_of_nat 206) (String (Ascii.ascii_of_nat 188) "s")) then Some Microsecond
  else if String.eqb u "ms" then Some Millisecond
  else if String.eqb u "s" then Some Second
  else if String.eqb u "m" then Some Minute
  else if String.eqb u "h" then Some Hour
  else None.

(** One element of the sequence, number and unit, in nanoseconds. *)
Definition duration_part (s : string) : option (Z * string) :=
  match s with
  | EmptyString => None
  | String c _ =>
      if negb (is_dot c || bool_decide (is_Some (digit_value c))) then None
      else
        match leadingInt 0 s with
        | None => None
        | Some (v, s1) =>
            let pre := negb (Nat.eqb (String.length s) (String.length s1)) in
            let '(f, scale, s2, post) :=
              match s1 with
              | String c1 s1' =>
                  if is_dot c1 then
                    let '(f, scale, s2) := leadingFraction 0 (to_float64 1) false s1' in
                    (f, scale, s2, negb (Nat.eqb (String.length s1') (String.length s2)))
                  else (0, to_float64 1, s1, false)
              | EmptyString => (0, to_float64 1, s1, false)
              end in
            if negb pre && negb post then None
            else
              let '(u, s3) := unit_prefix s2 in
              if String.eqb u "" then None
              else
                match unit_of u with
                | None => None
                | Some un =>
                    if 2 ^ 63 / un <? v then None
                    else
                      let w := v * un in
                      if 0 <? f then
                        let w' := w + float64_trunc (float64_mul (to_float64 f) (float64_div (to_float64 un) scale)) in
                        if 2 ^ 63 <? w' then None else Some (w', s3)
                      else Some (w, s3)
                end
        end
  end.

(** The loop of [ParseDuration]; every round consumes a unit, so the length of
the string bounds the rounds. *)
Fixpoint duration_parts (fuel : nat) (d : Z) (s : string) : option Z :=
  match s with
  | EmptyString => Some d
  | _ =>
      match fuel with
      | O => None
      | S n =>
          match duration_part s with
          | None => None
          | Some (v, s') => if 2 ^ 63 <? d + v then None else duration_parts n (d + v) s'
          end
      end
  end.

Definition sign_of (s : string) : bool * string :=
  match s with
  | String c s' =>
      if bool_decide (c = "-"%char) then (true, s')
      else if bool_decide (c = "+"%char) then (false, s') else (false, s)
  | EmptyString => (false, s)
  end.

Definition ParseDuration (s : string) : option Z :=
  let '(neg, s) := sign_of s in
  if String.eqb s "0" then Some 0
  else if String.eqb s "" then None
  else
    match duration_parts (String.length s) 0 s with
    | None => None
    | Some d => if neg then Some (- d) else if 2 ^ 63 - 1 <? d then None else Some d
    end.

(** ** Laws *)

Lemma digit_value_range c v : digit_value c = Some v → 0 ≤ v < 10.
Proof. unfold digit_value. intros. repeat case_test; simplify_eq; zbool; lia. Qed.

Lemma leadingInt_spec s : ∀ x v s', 0 ≤ x → leadingInt x s = Some (v, s') →
  0 ≤ v ∧ (String.length s' ≤ String.length s)%nat.
Proof.
  induction s as [|c s IH]; simpl; intros x v s' Hx H; [by simplify_eq|].
  destruct (digit_value c) as [w|] eqn:E; [|simplify_eq; simpl; lia].
  apply digit_value_range in E. repeat case_test; simplify_eq.
  apply IH in H; [|lia]. lia.
Qed.

Lemma leadingFraction_len s : ∀ x sc o, (String.length (leadingFraction x sc o s).2 ≤ String.length s)%nat.
Proof.
  induction s as [|c s IH]; simpl; intros x sc o; [lia|].
  destruct (digit_value c); simpl; [|lia]. case_test; etransitivity; [apply IH|lia|apply IH|lia].
Qed.

Lemma unit_prefix_len s : String.length s = (String.length (unit_prefix s).1 + String.length (unit_prefix s).2)%nat.
Proof.
  induction s as [|c s IH]; simpl; [done|]. case_test; simpl; [done|].
  destruct (unit_prefix s); simpl in *. lia.
Qed.

Lemma float64_trunc_nonneg f : 0 ≤ float64_trunc f.
Proof. unfold float64_trunc. destruct f as [|[]| |[] m e]; try lia. apply Z.shiftl_nonneg. lia. Qed.

(** An element is not negative and reading it shortens the string. *)
Lemma duration_part_spec s v s' : duration_part s = Some (v, s') →
  0 ≤ v ∧ (String.length s' < String.length s)%nat.
Proof.
  unfold duration_part. destruct s as [|c s]; [done|]. set (s0 := String c s).
  case_test; [done|]. destruct (leadingInt 0 s0) as [[x s1]|] eqn:El; [|done].
  apply leadingInt_spec in El as [Hx Hl]; [|lia].
  set (q := match s1 with EmptyString => _ | String _ _ => _ end).
  destruct q as [[[f sc] s2] post] eqn:Eq.
  assert (String.length s2 ≤ String.length s1)%nat as Hl2.
  { subst q. destruct s1 as [|c1 s1]; [by simplify_eq|]. case_test; [|by simplify_eq].
    pose proof (leadingFraction_len s1 0 (to_float64 1) false) as Hf.
    destruct (leadingFraction 0 (to_float64 1) false s1) as [[??]?]. simplify_eq/=. lia. }
  case_test; [done|]. pose proof (unit_prefix_len s2) as Hu. destruct (unit_prefix s2) as [u s3]. simpl in Hu.
  case_test; [done|]. zbool. assert (String.length u ≠ 0)%nat as Hn by (destruct u; simpl; [done|lia]).
  destruct (unit_of u) as [un|] eqn:Eun; [|done].
  assert (0 < un) by (unfold unit_of in Eun; repeat case_test; by simplify_eq).
  pose proof (float64_trunc_nonneg (float64_mul (to_float64 f) (float64_div (to_float64 un) sc))).
  intros H'. repeat case_test; simplify_eq; split; nia || lia.
Qed.

Lemma duration_parts_range n : ∀ d s r, 0 ≤ d ≤ 2 ^ 63 → duration_parts n d s = Some r → 0 ≤ r ≤ 2 ^ 63.
Proof.
  induction n as [|n IH]; intros d s r Hd; destruct s; cbn [duration_parts];
    [intros; simplify_eq; lia|done|intros; simplify_eq; lia|].
  destruct (duration_part (String a s)) as [[v s']|] eqn:E; [|done].
  apply duration_part_spec in E as [? _]. case_test; [done|]. zbool. apply IH. lia.
Qed.

(** The fuel of [ParseDuration] is enough: more of it changes nothing. *)
Lemma duration_parts_fuel n : ∀ m d s, (String.length s ≤ n)%nat → (n ≤ m)%nat →
  duration_parts m d s = duration_parts n d s.
Proof.
  induction n as [|n IH]; intros m d s Hn Hm.
  { destruct s; simpl in Hn; [|lia]. by destruct m. }
  destruct m as [|m]; [lia|]. destruct s as [|c s]; [done|]. cbn [duration_parts].
  destruct (duration_part (String c s)) as [[v s']|] eqn:E; [|done].
  apply duration_part_spec in E as [_ ?]. cbn [String.length] in *. case_test; [done|]. apply IH; lia.
Qed.

(** A parsed duration fits its 64 bits. *)
Lemma ParseDuration_range s d : ParseDuration s = Some d → in_i64 d.
Proof.
  unfold ParseDuration, in_i64. destruct (sign_of s) as [neg s']. repeat (case_test; [intros; simplify_eq; lia|]).
  destruct (duration_parts _ 0 s') as [r|] eqn:Er; [|done].
  apply duration_parts_range in Er; [|lia]. intros H. repeat case_test; simplify_eq; zbool; lia.
Qed.

Lemma digits_ge s : ∀ x v, 0 ≤ x → digits x s = Some v → x ≤ v.
Proof.
  induction s as [|c s IH]; simpl; intros x v Hx H; [by simplify_eq|].
  destruct (digit_value c) as [w|] eqn:E; [|done]. apply digit_value_range in E.
  apply IH in H; lia.
Qed.

Lemma leadingInt_digits s : ∀ x v, 0 ≤ x → digits x s = Some v → v ≤ 2 ^ 63 - 1 →
  leadingInt x (s +:+ "s") = Some (v, "s").
Proof.
  induction s as [|c s IH]; intros x v Hx Hd Hv; [simpl in *; by simplify_eq|].
  rewrite str_app_cons. cbn [leadingInt digits] in *.
  destruct (digit_value c) as [w|] eqn:E; [|done]. pose proof (digit_value_range _ _ E).
  replace (10 * x + w) with (x * 10 + w) in Hd by lia. assert (x * 10 + w ≤ v) by (apply (digits_ge s); [lia|done]).
  rewrite (proj2 (Z.ltb_ge _ _)) by (apply Z.div_le_lower_bound; lia).
  rewrite (proj2 (Z.ltb_ge _ _)) by lia. apply IH; [lia|done|done].
Qed.

(** A whole number of seconds is read back. *)
Lemma ParseDuration_seconds n : 0 ≤ n → n * Second < 2 ^ 63 → ParseDuration (Itoa n +:+ "s") = Some (n * Second).
Proof.
  intros Hn Hb. destruct n as [|p|p]; [done| |lia]. change (Itoa (Z.pos p)) with (pretty (N.pos p)).
  pose proof (unsigned_pretty (N.pos p)) as Hu. destruct (pretty (N.pos p)) as [|c s] eqn:Ep; [done|].
  destruct (unsigned_head c s _ Hu) as [Hm Hp]. cbn [unsigned] in Hu.
  assert (leadingInt 0 (String c s +:+ "s") = Some (Z.pos p, "s")) as Hl.
  { apply leadingInt_digits; [lia|done|]. unfold Second, Millisecond, Microsecond, Nanosecond in Hb. lia. }
  assert (is_Some (digit_value c)) as Hc by (cbn in Hu; destruct (digit_value c); [by eexists|done]).
  assert (duration_part (String c s +:+ "s") = Some (Z.pos p * Second, "")) as Hpart.
  { unfold duration_part. rewrite Hl, str_app_cons.
    rewrite (bool_decide_eq_true_2 _ Hc), orb_true_r. cbn [negb].
    assert (Nat.eqb (String.length (String c (s +:+ "s"))) (String.length "s") = false) as ->.
    { apply Nat.eqb_neq. intros Hs. cbn [String.length] in Hs. by destruct s. }
    replace (is_dot "s") with false by done. cbn [negb andb].
    replace (unit_prefix "s") with ("s", "") by done. cbv beta iota.
    replace (String.eqb "s" "") with false by done. replace (unit_of "s") with (Some Second) by done.
    rewrite (proj2 (Z.ltb_ge _ _)); [done|]. apply Z.div_le_lower_bound; [done|]. lia. }
  unfold ParseDuration, sign_of. rewrite str_app_cons. rewrite !bool_decide_eq_false_2 by done.
  assert (String.eqb (String c (s +:+ "s")) "0" = false) as ->.
  { apply String.eqb_neq. intros [= _ Hs]. by destruct s. }
  cbn [String.eqb String.length duration_parts].
  rewrite <- str_app_cons, Hpart.
  rewrite (proj2 (Z.ltb_ge _ _)) by lia. rewrite Z.add_0_l.
  assert (∀ n d, duration_parts n d "" = Some d) as -> by (by intros []).
  rewrite (proj2 (Z.ltb_ge _ _)) by lia. done.
Qed.
