(* ===== verification/GoFloat.v ===== *)
(** * strconv.ParseFloat and comparisons of float64

[ParseFloat] at 64 bits: the special words, decimal and hexadecimal literals
with underscores as Go's syntax has them, and the nearest float64 of the value,
ties to even, computed exactly ([ratio_float64] keeps a sticky bit).  A value
that overflows is an error, as is any text that is not consumed to its end.
NaN is a value like any other: it parses, and every comparison with it is false. *)

From Stdlib Require Import ZArith Lia Ascii SpecFloat.
From stdpp Require Import base strings pretty list.
From S2P Require Import Prelude GoStrings GoTime.

Open Scope string_scope.
Open Scope Z_scope.

Definition float64 : Type := spec_float.

Definition flt : float64 → float64 → bool := SFltb.
Definition fle : float64 → float64 → bool := SFleb.
Definition NaN : float64 := S754_nan.
Definition f0 : float64 := S754_zero false.
Definition f1 : float64 := to_float64 1.

(** The nearest float64 of [num / den], for [0 ≤ num] and [0 < den]. *)
Definition ratio_float64 (num den : Z) : float64 :=
  if num =? 0 then f0
  else
    let s := Z.max 0 (Z.log2 den - Z.log2 num + 66) in
    let n := num * 2 ^ s in
    binary_normalize 53 1024 (2 * (n / den) + (if n mod den =? 0 then 0 else 1)) (- (s + 1)) false.

(** The letter in lower case. *)
Definition lower (a : ascii) : ascii :=
  let n := nat_of_ascii a in if (65 <=? n)%nat && (n <=? 90)%nat then ascii_of_nat (n + 32) else a.

Fixpoint lower_all (s : string) : string :=
  match s with EmptyString => "" | String a s' => String (lower a) (lower_all s') end.

(** ** The words *)

Definition special (s : string) : option float64 :=
  let s := lower_all s in
  if bool_decide (s = "nan") then Some NaN
  else if bool_decide (s ∈ ["inf"; "+inf"; "infinity"; "+infinity"]) then Some (S754_infinity false)
  else if bool_decide (s ∈ ["-inf"; "-infinity"]) then Some (S754_infinity true)
  else None.

(** ** The literals *)

Definition digit_in (hex : bool) (a : ascii) : option Z :=
  match digit_value a with
  | Some d => Some d
  | None => let n := byte_Z (lower a) in
            if hex && (97 <=? n) && (n <=? 102) then Some (n - 87) else None
  end.

(** The digits: mantissa, digits behind the dot, whether a digit was seen, and
the rest. *)
Fixpoint mantissa (hex sawdot sawdigit : bool) (m frac : Z) (s : string) : Z * Z * bool * string :=
  match s with
  | EmptyString => (m, frac, sawdigit, "")
  | String a s' =>
      if Ascii.eqb a "_" then mantissa hex sawdot sawdigit m frac s'
      else if Ascii.eqb a "." then
        if sawdot then (m, frac, sawdigit, s) else mantissa hex true sawdigit m frac s'
      else match digit_in hex a with
           | Some d => mantissa hex sawdot true ((if hex then 16 else 10) * m + d) (if sawdot then frac + 1 else frac) s'
           | None => (m, frac, sawdigit, s)
           end
  end.

(** The exponent's digits, which stop counting at 10000. *)
Fixpoint exponent_digits (e : Z) (s : string) : Z * string :=
  match s with
  | EmptyString => (e, "")
  | String a s' =>
      if Ascii.eqb a "_" then exponent_digits e s'
      else match digit_value a with
           | Some d => exponent_digits (if e <? 10000 then 10 * e + d else e) s'
           | None => (e, s)
           end
  end.

Definition exponent (s : string) : option (Z * string) :=
  let '(neg, s1) :=
    match s with
    | String a s' => if Ascii.eqb a "-" then (true, s') else if Ascii.eqb a "+" then (false, s') else (false, s)
    | EmptyString => (false, s)
    end in
  match s1 with
  | String a _ =>
      match digit_value a with
      | Some _ => let '(e, rest) := exponent_digits 0 s1 in Some (if neg : bool then - e else e, rest)
      | None => None
      end
  | EmptyString => None
  end.

(** Underscores stand between digits, or between the base prefix and a digit. *)
Inductive prev : Type := PStart | PDigit | PUnder | POther.

Fixpoint underscores (hex : bool) (i : prev) (s : string) : bool :=
  match s with
  | EmptyString => match i with PUnder => false | _ => true end
  | String a s' =>
      match digit_in hex a with
      | Some _ => underscores hex PDigit s'
      | None =>
          if Ascii.eqb a "_" then match i with PDigit => underscores hex PUnder s' | _ => false end
          else match i with PUnder => false | _ => underscores hex POther s' end
      end
  end.

Definition strip_sign (s : string) : bool * string :=
  match s with
  | String a s' => if Ascii.eqb a "-" then (true, s') else if Ascii.eqb a "+" then (false, s') else (false, s)
  | EmptyString => (false, s)
  end.

(** The text behind a hexadecimal prefix, which needs a character behind it. *)
Definition hex_body (s : string) : option string :=
  match s with
  | String a (String b (String c s')) =>
      if Ascii.eqb a "0" && Ascii.eqb (lower b) "x" then Some (String c s') else None
  | _ => None
  end.

Definition underscoreOK (s : string) : bool :=
  match hex_body s with
  | Some t => underscores true PDigit t
  | None => underscores false PStart s
  end.

Definition literal_value (hex : bool) (m e : Z) : float64 :=
  if hex then binary_normalize 53 1024 m e false
  else if 0 <=? e then binary_normalize 53 1024 (m * 10 ^ e) 0 false
  else ratio_float64 m (10 ^ (- e)).

Definition literal (s : string) : option float64 :=
  let '(neg, s1) := strip_sign s in
  let '(hex, body) := match hex_body s1 with Some t => (true, t) | None => (false, s1) end in
  let '(m, frac, sawdigit, rest) := mantissa hex false false 0 0 body in
  if negb sawdigit then None
  else
    let scaled (e : Z) := Some (literal_value hex m (if hex then e - 4 * frac else e - frac)) in
    let value :=
      match rest with
      | EmptyString => if hex then None else scaled 0
      | String a rest' =>
          if Ascii.eqb (lower a) (if hex : bool then "p" else "e")%char then
            match exponent rest' with
            | Some (e, EmptyString) => scaled e
            | _ => None
            end
          else None
      end in
    match value with
    | None => None
    | Some v =>
        if negb (underscoreOK s1) then None
        else match v with S754_infinity _ => None | _ => Some (if neg then SFopp v else v) end
    end.

Definition ParseFloat (s : string) : option float64 :=
  match special s with Some v => Some v | None => literal s end.

(** ** Lemmas *)

(** The values a range check lets through. *)
Lemma flt_nan_l x : flt NaN x = false.
Proof. reflexivity. Qed.

Lemma fle_nan_r x : fle x NaN = false.
Proof. by destruct x as [[]|[]| |[] ? ?]. Qed.

Lemma flt_nan_r x : flt x NaN = false.
Proof. by destruct x as [[]|[]| |[] ? ?]. Qed.

Example parse_examples :
  ParseFloat "0.2" = Some (S754_finite false 7205759403792794 (-55)) ∧
  ParseFloat "1_000.5e-3" = Some (ratio_float64 10005 10000) ∧
  ParseFloat "0x1.8p1" = Some (to_float64 3) ∧ ParseFloat "1e400" = None ∧ ParseFloat "-0" = Some (S754_zero true) ∧
  ParseFloat "5e-324" = Some (S754_finite false 1 (-1074)) ∧ ParseFloat "nAn" = Some NaN ∧
  ParseFloat "1_" = None ∧ ParseFloat "0x1" = None ∧ ParseFloat "" = None ∧ ParseFloat "." = None.
Proof. vm_compute. repeat split. Qed.

Lemma SFcompare_antisym x y c : SFcompare x y = Some c → SFcompare y x = Some (CompOpp c).
Proof.
  destruct x as [bx|bx| |bx mx ex], y as [by_|by_| |by_ my ey]; simpl; try done;
    repeat match goal with b : bool |- _ => destruct b end; intros [= <-]; try done;
    rewrite (Z.compare_antisym ex ey); destruct (Z.compare ex ey); try done; simpl;
    change (Pos.compare_cont Eq my mx) with (Pos.compare my mx);
    change (Pos.compare_cont Eq mx my) with (Pos.compare mx my);
    rewrite (Pos.compare_antisym mx my); by destruct (Pos.compare mx my).
Qed.

Lemma SFcompare_nan x y : SFcompare x y = None → x = NaN ∨ y = NaN.
Proof.
  destruct x as [bx|bx| |bx mx ex], y as [by_|by_| |by_ my ey]; simpl; auto;
    repeat match goal with b : bool |- _ => destruct b end; try done;
    destruct (Z.compare ex ey); done.
Qed.

(** Without NaN, the order is total. *)
Lemma not_flt x y : flt x y = false → x = NaN ∨ y = NaN ∨ fle y x = true.
Proof.
  unfold flt, fle, SFltb, SFleb. destruct (SFcompare x y) as [c|] eqn:E.
  - rewrite (SFcompare_antisym _ _ _ E). by destruct c; auto.
  - apply SFcompare_nan in E as [-> | ->]; auto.
Qed.

Lemma not_fle x y : fle x y = false → x = NaN ∨ y = NaN ∨ flt y x = true.
Proof.
  unfold flt, fle, SFltb, SFleb. destruct (SFcompare x y) as [c|] eqn:E.
  - rewrite (SFcompare_antisym _ _ _ E). by destruct c; auto.
  - apply SFcompare_nan in E as [-> | ->]; auto.
Qed.

Lemma fle_not_flt x y : fle y x = true → flt x y = false.
Proof.
  unfold flt, fle, SFltb, SFleb. destruct (SFcompare y x) as [c|] eqn:E; [|done].
  rewrite (SFcompare_antisym _ _ _ E). by destruct c.
Qed.

Lemma flt_not_fle x y : flt y x = true → fle x y = false.
Proof.
  unfold flt, fle, SFltb, SFleb. destruct (SFcompare y x) as [c|] eqn:E; [|done].
  rewrite (SFcompare_antisym _ _ _ E). by destruct c.
Qed.
