(* ===== verification/Pg.v ===== *)
(** * Transactions of the SQL stores

The statements of the Postgres stores under READ COMMITTED.  A table is the
interface [PgTable]: what is committed, and for each row the version that an
open transaction has written, whose row lock it holds until it ends.  The
laws are the documented effect of writing, committing and rolling back on
these two observations.  On top of them stand the statements: which rows an
UPDATE or DELETE sees, when a statement waits for a row lock, and how an
INSERT checks a unique index against committed and pending versions.  A
statement that waits is taken as executed when the lock it waits for is
released. *)

From Stdlib Require Import ZArith Lia.
From stdpp Require Import base gmap strings fin_maps list relations.
From S2P Require Import Prelude.

Open Scope Z_scope.

(** A pending version belongs to a transaction; [None] is a deleted row. *)
Notation version A := (nat * option A)%type.

Class PgTable (T K A : Type) `{Countable K} : Type := {
  t_com : T → gmap K A;
  t_pend : T → gmap K (version A);
  t_write : nat → gmap K (option A) → T → T;
  t_commit : nat → T → T;
  t_rollback : nat → T → T;
}.

(** What a commit makes of the committed row and the pending version. *)
Definition settle {A} (t : nat) (c : option A) (p : option (version A)) : option A :=
  match p with
  | Some (t', v) => if decide (t' = t) then v else c
  | None => c
  end.

Class PgLaws (T K A : Type) `{PgTable T K A} : Prop := {
  com_write t w x : t_com (t_write t w x) = t_com x;
  pend_write t w x k :
    t_pend (t_write t w x) !! k = match w !! k with Some v => Some (t, v) | None => t_pend x !! k end;
  com_commit t x k : t_com (t_commit t x) !! k = settle t (t_com x !! k) (t_pend x !! k);
  pend_commit t x k v : t_pend (t_commit t x) !! k = Some v ↔ t_pend x !! k = Some v ∧ v.1 ≠ t;
  com_rollback t x : t_com (t_rollback t x) = t_com x;
  pend_rollback t x k v : t_pend (t_rollback t x) !! k = Some v ↔ t_pend x !! k = Some v ∧ v.1 ≠ t;
}.

(** ** Statements *)

(** The result of a statement: it waits for a lock, violates a unique index,
or is done. *)
Inductive outcome (B : Type) : Type := Blocked | Violation | Done (b : B).
Arguments Blocked {B}.
Arguments Violation {B}.
Arguments Done {B} b.

Section statements.
Context {T K A : Type} `{PgTable T K A}.
Implicit Types (x : T) (k : K) (t : nat).

(** What transaction [t] sees: its own versions over the committed rows. *)
Definition tview t x : gmap K A := merge (settle t) (t_com x) (t_pend x).

(** Row [k] is locked by a transaction other than [t]. *)
Definition locked t x k : bool :=
  match t_pend x !! k with Some (t', _) => negb (bool_decide (t' = t)) | None => false end.

(** The rows of the WHERE clause [P], by key and columns. *)
Definition matched t (P : K → A → bool) x : gmap K A := filter (fun p => P p.1 p.2 = true) (tview t x).

Definition free_of_locks t (m : gmap K A) x : bool :=
  forallb (fun p => negb (locked t x p.1)) (map_to_list m).

(** UPDATE ... SET [f] WHERE [P], and DELETE WHERE [P]. *)
Definition stmt_update t (P : K → A → bool) (f : A → A) x : outcome T :=
  let m := matched t P x in
  if free_of_locks t m x then Done (t_write t ((fun r => Some (f r)) <$> m) x) else Blocked.

Definition stmt_delete t (P : K → A → bool) x : outcome T :=
  let m := matched t P x in
  if free_of_locks t m x then Done (t_write t ((fun _ => None) <$> m) x) else Blocked.

(** INSERT of [r] under key [k].  [clash k' r'] says that the row [r'] under [k']
conflicts with the new one in a unique index.  A conflicting version that
another transaction holds locked, or one under the same primary key, is waited
for; a conflicting row that is visible is a violation. *)
Definition clash_locked t (clash : K → A → bool) x : bool :=
  existsb (fun p => match p.2 with
                    | (t', v) => negb (bool_decide (t' = t)) &&
                        (match v with Some r => clash p.1 r | None => false end ||
                         match t_com x !! p.1 with Some r => clash p.1 r | None => false end)
                    end) (map_to_list (t_pend x)).

Definition clash_seen t (clash : K → A → bool) x : bool :=
  existsb (fun p => clash p.1 p.2) (map_to_list (tview t x)).

Definition stmt_insert t k r (clash : K → A → bool) x : outcome T :=
  if locked t x k || clash_locked t clash x then Blocked
  else if clash_seen t clash x then Violation
  else Done (t_write t {[k := Some r]} x).

(** A transaction of one statement: executed and committed. *)
Definition autocommit t (s : T → outcome T) x : outcome T :=
  match s x with Done x' => Done (t_commit t x') | o => o end.

(** ** Laws of the statements *)

Lemma lookup_tview t x k : tview t x !! k = settle t (t_com x !! k) (t_pend x !! k).
Proof.
  unfold tview. rewrite lookup_merge.
  by destruct (t_com x !! k), (t_pend x !! k) as [[??]|]; simpl.
Qed.

Lemma lookup_matched t P x k r : matched t P x !! k = Some r ↔ tview t x !! k = Some r ∧ P k r = true.
Proof. unfold matched. by rewrite map_lookup_filter_Some. Qed.

Lemma locked_false t x k : locked t x k = false ↔ ∀ t' v, t_pend x !! k = Some (t', v) → t' = t.
Proof.
  unfold locked. destruct (t_pend x !! k) as [[t' v]|]; [|split; [intros; by simplify_eq | done]].
  rewrite negb_false_iff, bool_decide_eq_true. split; [by intros -> ?? [= <- <-] | eauto].
Qed.

Lemma free_of_locks_spec t m x k r :
  free_of_locks t m x = true → m !! k = Some r → locked t x k = false.
Proof.
  unfold free_of_locks. intros Hf Hk. rewrite forallb_forall in Hf.
  specialize (Hf (k, r)). simpl in Hf. apply negb_true_iff, Hf.
  by apply list_elem_of_In, elem_of_map_to_list.
Qed.

Lemma clash_seen_false t clash x k r :
  clash_seen t clash x = false → tview t x !! k = Some r → clash k r = false.
Proof.
  unfold clash_seen. intros Hf Hk. destruct (clash k r) eqn:E; [|done].
  assert (existsb (fun p => clash p.1 p.2) (map_to_list (tview t x)) = true); [|congruence].
  apply existsb_exists. exists (k, r). split; [|done]. by apply list_elem_of_In, elem_of_map_to_list.
Qed.

Lemma clash_seen_true t clash x :
  clash_seen t clash x = true → ∃ k r, tview t x !! k = Some r ∧ clash k r = true.
Proof.
  unfold clash_seen. rewrite existsb_exists. intros ([k r] & Hin & Hc).
  exists k, r. split; [|done]. by apply elem_of_map_to_list, list_elem_of_In.
Qed.

(** A version of another transaction, and the committed row under it, do not
conflict when the check does not wait. *)
Lemma clash_locked_false t clash x k t' v :
  clash_locked t clash x = false → t_pend x !! k = Some (t', v) → t' ≠ t →
  (∀ r, v = Some r → clash k r = false) ∧ (∀ r, t_com x !! k = Some r → clash k r = false).
Proof.
  unfold clash_locked. intros Hf Hk Hne.
  assert (∀ b, (match v with Some r => clash k r | None => false end ||
                match t_com x !! k with Some r => clash k r | None => false end) = b → b = false) as Hb.
  { intros [] Hb; [|done].
    match type of Hf with ?e = false => assert (e = true); [|congruence] end.
    apply existsb_exists. exists (k, (t', v)). split; [by apply list_elem_of_In, elem_of_map_to_list|].
    simpl. by rewrite bool_decide_eq_false_2 by done. }
  specialize (Hb _ eq_refl). apply orb_false_iff in Hb as [H1 H2].
  split; [intros r -> | intros r E; rewrite E in H2]; done.
Qed.
End statements.

Section laws.
Context {T K A : Type} `{PgLaws T K A}.
Implicit Types (x : T) (k : K) (t : nat).

(** A statement of [t] leaves the committed rows, and locks only rows that were
free or its own. *)
Lemma stmt_update_spec t P f x x' :
  stmt_update t P f x = Done x' →
  t_com x' = t_com x ∧
  ∀ k, t_pend x' !! k = match matched t P x !! k with
                        | Some r => Some (t, Some (f r))
                        | None => t_pend x !! k
                        end ∧ (is_Some (matched t P x !! k) → locked t x k = false).
Proof.
  unfold stmt_update. destruct (free_of_locks t _ x) eqn:E; [|done]. intros [= <-].
  split; [apply com_write|]. intros k. split.
  - rewrite pend_write, lookup_fmap. by destruct (matched t P x !! k).
  - intros [r Hr]. by eapply free_of_locks_spec.
Qed.

Lemma stmt_delete_spec t P x x' :
  stmt_delete t P x = Done x' →
  t_com x' = t_com x ∧
  ∀ k, t_pend x' !! k = match matched t P x !! k with
                        | Some r => Some (t, None)
                        | None => t_pend x !! k
                        end ∧ (is_Some (matched t P x !! k) → locked t x k = false).
Proof.
  unfold stmt_delete. destruct (free_of_locks t _ x) eqn:E; [|done]. intros [= <-].
  split; [apply com_write|]. intros k. split.
  - rewrite pend_write, lookup_fmap. by destruct (matched t P x !! k).
  - intros [r Hr]. by eapply free_of_locks_spec.
Qed.

Lemma stmt_insert_spec t k r clash x x' :
  stmt_insert t k r clash x = Done x' →
  t_com x' = t_com x ∧
  (∀ k', t_pend x' !! k' = if decide (k = k') then Some (t, Some r) else t_pend x !! k') ∧
  clash_locked t clash x = false ∧ clash_seen t clash x = false ∧ locked t x k = false.
Proof.
  unfold stmt_insert. destruct (locked t x k || clash_locked t clash x) eqn:E; [done|]. zbool.
  destruct (clash_seen t clash x) eqn:E2; [done|]. intros [= <-].
  repeat split; try done; [apply com_write|]. intros k'. rewrite pend_write.
  case_decide as Hk; [subst; by rewrite lookup_singleton_eq | by rewrite lookup_singleton_ne].
Qed.

Lemma tview_none t x : (∀ k v, t_pend x !! k = Some v → v.1 ≠ t) → tview t x = t_com x.
Proof.
  intros Hn. apply map_eq. intros k. rewrite lookup_tview. unfold settle.
  destruct (t_pend x !! k) as [[t' v]|] eqn:E; [|done].
  case_decide as Ht; [|done]. subst. by destruct (Hn _ _ E).
Qed.

Lemma pend_commit_none t x k : t_pend (t_commit t x) !! k = None ↔
  ∀ v, t_pend x !! k = Some v → v.1 = t.
Proof.
  split.
  - intros Hn v Hv. destruct (decide (v.1 = t)) as [|Hne]; [done|].
    assert (t_pend (t_commit t x) !! k = Some v) by (by apply pend_commit). congruence.
  - intros Hall. destruct (t_pend (t_commit t x) !! k) eqn:E; [|done].
    apply pend_commit in E as [E Hne]. by apply Hall in E.
Qed.

(** A one-statement update changes the committed rows it matches, none of which
has a pending version. *)
Lemma autocommit_update_spec t P f x x' :
  (∀ k v, t_pend x !! k = Some v → v.1 ≠ t) →
  autocommit t (stmt_update t P f) x = Done x' →
  (∀ k, t_com x' !! k = match matched t P x !! k with Some r => Some (f r) | None => t_com x !! k end) ∧
  (∀ k, t_pend x' !! k = t_pend x !! k) ∧
  (∀ k r, matched t P x !! k = Some r → t_com x !! k = Some r ∧ P k r = true ∧ t_pend x !! k = None).
Proof.
  intros Hn. unfold autocommit. destruct (stmt_update t P f x) as [| |y] eqn:E; try done. intros [= <-].
  apply stmt_update_spec in E as [Hc Hp].
  assert (∀ k r, matched t P x !! k = Some r →
            t_com x !! k = Some r ∧ P k r = true ∧ t_pend x !! k = None) as Hm.
  { intros k r Hr. pose proof (proj2 (Hp k) (mk_is_Some _ _ Hr)) as Hl.
    apply lookup_matched in Hr as [Hr HP]. rewrite tview_none in Hr by done.
    repeat split; try done. destruct (t_pend x !! k) as [[t' v]|] eqn:Ek; [|done].
    pose proof (proj1 (locked_false _ _ _) Hl _ _ Ek). by destruct (Hn _ _ Ek). }
  split; [|split; [|done]]; intros k; destruct (Hp k) as [Hk _].
  - rewrite com_commit, Hc, Hk. destruct (matched t P x !! k) as [r|] eqn:Er.
    + simpl. by rewrite decide_True.
    + destruct (t_pend x !! k) as [[t' v]|] eqn:Ek; [|done].
      simpl. rewrite decide_False; [done | by apply (Hn _ _ Ek)].
  - destruct (matched t P x !! k) as [r|] eqn:Er.
    + destruct (Hm _ _ Er) as (_ & _ & ->). apply pend_commit_none. rewrite Hk. by intros v [= <-].
    + destruct (t_pend x !! k) as [v|] eqn:Ek.
      * apply pend_commit. rewrite Hk. split; [done | by apply (Hn _ _ Ek)].
      * apply pend_commit_none. rewrite Hk. done.
Qed.

(** ** A transaction that is alone *)

Definition alone t x : Prop := ∀ k v, t_pend x !! k = Some v → v.1 = t.

Lemma alone_unlocked t x k : alone t x → locked t x k = false.
Proof. intros Ha. apply locked_false. intros t' v Hk. by apply Ha in Hk. Qed.

(** Alone, an update does not wait, and the transaction sees its effect. *)
Lemma stmt_update_alone t P f x :
  alone t x → ∃ x', stmt_update t P f x = Done x' ∧ alone t x' ∧ t_com x' = t_com x ∧
    ∀ k, tview t x' !! k = (fun r => if P k r then f r else r) <$> tview t x !! k.
Proof.
  intros Ha. destruct (stmt_update t P f x) as [| |x'] eqn:E.
  - revert E. unfold stmt_update. destruct (free_of_locks _ _ _) eqn:Ef; [done|].
    assert (free_of_locks t (matched t P x) x = true); [|congruence].
    apply forallb_forall. intros [k r] _. by rewrite alone_unlocked.
  - revert E. unfold stmt_update. by case_match.
  - exists x'. split; [done|]. pose proof E as [Hc Hp]%stmt_update_spec. split_and!; [|done|].
    + intros k v. rewrite (proj1 (Hp k)). case_match; [by intros [= <-] | apply Ha].
    + intros k. rewrite lookup_tview, Hc, (proj1 (Hp k)).
      destruct (matched t P x !! k) as [r|] eqn:Em.
      * apply lookup_matched in Em as [-> HP]. simpl. by rewrite HP, decide_True.
      * rewrite <- lookup_tview. destruct (tview t x !! k) as [r|] eqn:Ev; [|done]. simpl.
        destruct (P k r) eqn:EP; [|done].
        assert (matched t P x !! k = Some r) by (by apply lookup_matched). congruence.
Qed.

Lemma stmt_insert_alone t k r clash x :
  alone t x →
  (clash_seen t clash x = true ∧ stmt_insert t k r clash x = Violation) ∨
  (clash_seen t clash x = false ∧ ∃ x', stmt_insert t k r clash x = Done x').
Proof.
  intros Ha. unfold stmt_insert. rewrite alone_unlocked by done.
  assert (clash_locked t clash x = false) as ->.
  { unfold clash_locked. apply not_true_iff_false. rewrite existsb_exists. intros ([k' [t' v]] & Hin & Hc).
    apply list_elem_of_In, elem_of_map_to_list in Hin. apply Ha in Hin. simpl in *. subst t'.
    by rewrite bool_decide_eq_true_2 in Hc. }
  simpl. destruct (clash_seen t clash x); eauto.
Qed.
End laws.

(** ** Unique indexes

[clash] says that two rows conflict in some unique index.  The invariant covers
all versions of the rows: two committed rows never conflict, nor do two pending
versions, and a pending version conflicts with a committed row only when its own
transaction has rewritten that row. *)

Section unique.
Context {T K A : Type} `{PgLaws T K A} (clash : A → A → bool).
Context (clash_sym : ∀ r r', clash r r' = clash r' r).
Implicit Types (x : T) (k : K) (t : nat).

Record indexed (x : T) : Prop := {
  ix_com : ∀ i j a b, t_com x !! i = Some a → t_com x !! j = Some b → i ≠ j → clash a b = false;
  ix_mix : ∀ i j t a b, t_pend x !! i = Some (t, Some a) → t_com x !! j = Some b → i ≠ j →
             clash a b = true → ∃ v, t_pend x !! j = Some (t, v);
  ix_pend : ∀ i j t1 t2 a b, t_pend x !! i = Some (t1, Some a) → t_pend x !! j = Some (t2, Some b) →
              i ≠ j → clash a b = false;
}.

(** An update that writes rows outside every index. *)
Lemma indexed_update t P f x x' :
  (∀ r b, clash (f r) b = false) → stmt_update t P f x = Done x' → indexed x → indexed x'.
Proof.
  intros Hf [Hc Hp]%stmt_update_spec [U1 U2 U3]. split; rewrite ?Hc; [eauto | |].
  - intros i j t' a b Hi Hj Hne Hcl. rewrite (proj1 (Hp i)) in Hi. rewrite (proj1 (Hp j)).
    destruct (matched t P x !! i) as [r|] eqn:Ei; [by simplify_eq; rewrite Hf in Hcl|].
    destruct (U2 _ _ _ _ _ Hi Hj Hne Hcl) as [v Hv].
    destruct (matched t P x !! j) as [r|] eqn:Ej; [|eauto].
    pose proof (proj2 (Hp j)) as Hl. rewrite Ej in Hl.
    apply locked_false with (t' := t') (v := v) in Hl; subst; eauto.
  - intros i j t1 t2 a b Hi Hj Hne. rewrite (proj1 (Hp i)) in Hi. rewrite (proj1 (Hp j)) in Hj.
    destruct (matched t P x !! i) as [r|] eqn:Ei; [by simplify_eq; rewrite Hf|].
    destruct (matched t P x !! j) as [r|] eqn:Ej; [by simplify_eq; rewrite clash_sym, Hf | eauto].
Qed.

(** An insert under a fresh key, checked against all versions. *)
Lemma indexed_insert t k r x x' :
  t_com x !! k = None → t_pend x !! k = None →
  stmt_insert t k r (fun _ r' => clash r r') x = Done x' → indexed x → indexed x'.
Proof.
  intros Hck Hpk (Hc & Hp & Hl & Hs & _)%stmt_insert_spec [U1 U2 U3].
  assert (∀ j t' b, t_pend x !! j = Some (t', Some b) → clash r b = false) as Hnp.
  { intros j t' b Hj. destruct (decide (t' = t)) as [->|Hne].
    - apply (clash_seen_false _ _ _ j b Hs). rewrite lookup_tview, Hj. simpl. by rewrite decide_True.
    - destruct (clash_locked_false _ _ _ j t' (Some b) Hl Hj Hne) as [Hb _]. by apply Hb. }
  split; rewrite ?Hc; [eauto | |].
  - intros i j t' a b Hi Hj Hne Hcl. rewrite Hp in *. rewrite (decide_False (P := k = j)) by congruence.
    case_decide as Hk; [|eauto]. simplify_eq.
    destruct (t_pend x !! j) as [[t2 v]|] eqn:Ej.
    + destruct (decide (t2 = t')) as [->|Hne2]; [eauto|].
      destruct (clash_locked_false _ _ _ j t2 v Hl Ej Hne2) as [_ Hb]. rewrite (Hb b Hj) in Hcl. done.
    + assert (tview t' x !! j = Some b) as Hv by (by rewrite lookup_tview, Ej).
      rewrite (clash_seen_false _ _ _ j b Hs Hv) in Hcl. done.
  - intros i j t1 t2 a b Hi Hj Hne. rewrite Hp in *. repeat case_decide; simplify_eq; eauto.
Qed.

Lemma indexed_commit t x : indexed x → indexed (t_commit t x).
Proof.
  intros [U1 U2 U3].
  assert (∀ i a, t_com (t_commit t x) !! i = Some a →
    t_pend x !! i = Some (t, Some a) ∨ (t_com x !! i = Some a ∧ ∀ v, t_pend x !! i ≠ Some (t, v))) as Hcom.
  { intros i a. rewrite com_commit. destruct (t_pend x !! i) as [[t' v]|] eqn:E; simpl; [|eauto].
    case_decide; intros; simplify_eq; eauto. right. split; [done|]. intros v' ?. simplify_eq. }
  split.
  - intros i j a b [Hi|[Hi Hni]]%Hcom [Hj|[Hj Hnj]]%Hcom Hne; eauto.
    + destruct (clash a b) eqn:E; [|done]. destruct (U2 _ _ _ _ _ Hi Hj Hne E) as [v Hv]. by destruct (Hnj v).
    + destruct (clash a b) eqn:E; [|done]. rewrite clash_sym in E.
      destruct (U2 _ _ _ _ _ Hj Hi (not_eq_sym Hne) E) as [v Hv]. by destruct (Hni v).
  - intros i j t' a b [Hi Ht]%pend_commit [Hj|[Hj Hnj]]%Hcom Hne E.
    + by rewrite (U3 _ _ _ _ _ _ Hi Hj Hne) in E.
    + destruct (U2 _ _ _ _ _ Hi Hj Hne E) as [v Hv]. exists v. by apply pend_commit.
  - intros i j t1 t2 a b [Hi _]%pend_commit [Hj _]%pend_commit. eauto.
Qed.

(** Forgetting the versions of a transaction. *)
Lemma indexed_drop t x x' :
  t_com x' = t_com x → (∀ k v, t_pend x' !! k = Some v ↔ t_pend x !! k = Some v ∧ v.1 ≠ t) →
  indexed x → indexed x'.
Proof.
  intros Hc Hp [U1 U2 U3]. split; rewrite ?Hc; [eauto | |].
  - intros i j t' a b [Hi Ht]%Hp Hj Hne E. destruct (U2 _ _ _ _ _ Hi Hj Hne E) as [v Hv].
    exists v. by apply Hp.
  - intros i j t1 t2 a b [Hi _]%Hp [Hj _]%Hp. eauto.
Qed.

(** A committed row without pending version moves within the indexes it is in. *)
Lemma indexed_set k r r' x x' :
  t_com x' = <[k := r']> (t_com x) → t_pend x' = t_pend x →
  t_com x !! k = Some r → t_pend x !! k = None → (∀ b, clash r' b = true → clash r b = true) →
  indexed x → indexed x'.
Proof.
  intros Hc Hp Hk Hnone Hcl [U1 U2 U3].
  assert (∀ j b, j ≠ k → t_com x !! j = Some b → clash r' b = false) as Hr'.
  { intros j b Hj Hb. destruct (clash r' b) eqn:E; [|done]. apply Hcl in E.
    by rewrite (U1 _ _ _ _ Hk Hb (not_eq_sym Hj)) in E. }
  split; rewrite ?Hc, ?Hp; [| |eauto].
  - intros i j a b. rewrite !lookup_insert. repeat case_decide; intros; simplify_eq; eauto.
  - intros i j t' a b Hi. rewrite lookup_insert. case_decide; intros; simplify_eq; eauto.
Qed.
End unique.

(** ** An instance *)

Record ptable (K A : Type) `{Countable K} : Type := mkPtable {
  p_com : gmap K A;
  p_pend : gmap K (version A) }.
Arguments mkPtable {K A _ _} _ _.
Arguments p_com {K A _ _} _.
Arguments p_pend {K A _ _} _.

#[global] Instance ptable_ops {K A} `{Countable K} : PgTable (ptable K A) K A := {
  t_com := p_com;
  t_pend := p_pend;
  t_write t w x := mkPtable (p_com x) (((fun v => (t, v)) <$> w) ∪ p_pend x);
  t_commit t x := mkPtable (merge (settle t) (p_com x) (p_pend x)) (filter (fun p => p.2.1 ≠ t) (p_pend x));
  t_rollback t x := mkPtable (p_com x) (filter (fun p => p.2.1 ≠ t) (p_pend x));
}.

#[global] Instance ptable_laws {K A} `{Countable K} : PgLaws (ptable K A) K A.
Proof.
  split; intros; simpl; try done.
  - rewrite lookup_union, lookup_fmap. destruct (w !! k); simpl; [by destruct (p_pend x !! k)|].
    by destruct (p_pend x !! k).
  - rewrite lookup_merge. by destruct (p_com x !! k), (p_pend x !! k) as [[??]|]; simpl.
  - by rewrite map_lookup_filter_Some.
  - by rewrite map_lookup_filter_Some.
Qed.
