(* ===== verification/Ledger.v ===== *)
(** * fintech-ledger-go: money, ledger accounts, wallet cache

[money.Paise] is an int64; [ledger.Account] objects live in a heap addressed
by location (a Go pointer), so that two accounts passed to [Transfer] may
alias.  The last part runs any number of [Transfer] calls concurrently, one
step per lock operation, debit and credit. *)

From Stdlib Require Import ZArith Lia.
From stdpp Require Import base gmap strings list fin_maps relations pretty.
From S2P Require Import Prelude.

Open Scope Z_scope.

(* [base] fintech-ledger-go/internal *)

(** ** money.Paise *)

(* [go] money/money.go:12-12 Paise *)
Definition Paise : Type := Z.

(* [go] money/money.go:14-16 FromRupees *)
Definition FromRupees (rupees paise : Z) : Paise := i64 (i64 (rupees * 100) + paise).

(* [go] money/money.go:18-18 Paise.Add *)
Definition Paise_Add (p o : Paise) : Paise := i64 (p + o).

(* [go] money/money.go:19-19 Paise.Sub *)
Definition Paise_Sub (p o : Paise) : Paise := i64 (p - o).

(* [go] money/money.go:20-20 Paise.Mul *)
Definition Paise_Mul (p : Paise) (n : Z) : Paise := i64 (p * n).

(* [go] money/money.go:22-22 Paise.IsNegative *)
Definition Paise_IsNegative (p : Paise) : bool := p <? 0.

(** [fmt]'s [%02d]: the decimal of [v], zero-padded to width two. *)
Definition fmt_02d (v : Z) : string :=
  let s := pretty v in
  if (String.length s <? 2)%nat then ("0" +:+ s)%string else s.

(* [go] money/money.go:24-32 Paise.String *)
Definition Paise_String (p : Paise) : string :=
  let '(sign, v) := if p <? 0 then ("-"%string, i64 (- p)) else (""%string, p) in
  (sign +:+ "₹" +:+ pretty (Z.quot v 100) +:+ "." +:+ fmt_02d (Z.rem v 100))%string.

(** ** ledger.Account *)

(* [go] ledger/account.go:12-15 ErrInsufficientFunds, ErrNegativeAmount *)
Inductive ledger_err : Type :=
| ErrInsufficientFunds
| ErrNegativeAmount
| ErrSameAccount.

#[global] Instance ledger_err_eq_dec : EqDecision ledger_err.
Proof. solve_decision. Defined.

(** The mutex [mu] is part of the concurrent state below. *)
(* [go] ledger/account.go:17-22 Account *)
Record Account : Type := mkAccount { acc_ID : string; acc_balance : Paise }.

(* [go] ledger/account.go:24-26 NewAccount *)
Definition NewAccount (id : string) (opening : Paise) : Account := mkAccount id opening.

(* [go] ledger/account.go:28-32 Account.Balance *)
Definition Account_Balance (a : Account) : Paise := acc_balance a.

(** A mutating method returns the new object and the error, [None] for nil. *)
(* [go] ledger/account.go:57-63 Account.debit *)
Definition account_debit (a : Account) (amt : Paise) : Account * option ledger_err :=
  if Paise_IsNegative (Paise_Sub (acc_balance a) amt) then (a, Some ErrInsufficientFunds)
  else (mkAccount (acc_ID a) (Paise_Sub (acc_balance a) amt), None).

(* [go] ledger/account.go:65-67 Account.credit *)
Definition account_credit (a : Account) (amt : Paise) : Account :=
  mkAccount (acc_ID a) (Paise_Add (acc_balance a) amt).

(* [go] ledger/account.go:38-45 Account.Debit *)
Definition Account_Debit (a : Account) (amt : Paise) : Account * option ledger_err :=
  if Paise_IsNegative amt then (a, Some ErrNegativeAmount) else account_debit a amt.

(* [go] ledger/account.go:47-55 Account.Credit *)
Definition Account_Credit (a : Account) (amt : Paise) : Account * option ledger_err :=
  if Paise_IsNegative amt then (a, Some ErrNegativeAmount)
  else (account_credit a amt, None).

(** ** The heap of accounts and Transfer *)

Abbreviation loc := nat.
Abbreviation heap := (gmap loc Account).

(** A nil pointer dereference (a location outside the heap) is [None]. *)
(* [go] ledger/account.go:76-97 Transfer *)
Definition Transfer (h : heap) (from to : loc) (amt : Paise) : option (heap * option ledger_err) :=
  if Paise_IsNegative amt then Some (h, Some ErrNegativeAmount) else
  match h !! from, h !! to with
  | Some f, Some t =>
      if String.eqb (acc_ID f) (acc_ID t) then Some (h, Some ErrSameAccount) else
      match account_debit f amt with
      | (_, Some e) => Some (h, Some e)
      | (f', None) =>
          let h1 := <[from := f']> h in
          match h1 !! to with
          | Some t' => Some (<[to := account_credit t' amt]> h1, None)
          | None => None
          end
      end
  | _, _ => None
  end.

(** The order in which [Transfer] takes its two locks. *)
(* [go] ledger/account.go:83-86 Transfer *)
Definition lock_order (h : heap) (from to : loc) : option (loc * loc) :=
  match h !! from, h !! to with
  | Some f, Some t =>
      if str_lt (acc_ID t) (acc_ID f) then Some (to, from) else Some (from, to)
  | _, _ => None
  end.

Definition total (h : heap) : Z := msum acc_balance h.

Definition heap_wf (h : heap) : Prop :=
  (∀ l a, h !! l = Some a → 0 ≤ acc_balance a) ∧ total h < 2 ^ 63.

(** ** wallet.BalanceCache *)

(* [go] wallet/cache.go:20-23 BalanceCache *)
Definition BalanceCache : Type := gmap string Paise.

(* [go] wallet/cache.go:25-27 NewBalanceCache *)
Definition NewBalanceCache : BalanceCache := ∅.

(* [go] wallet/cache.go:29-34 BalanceCache.Get *)
Definition BalanceCache_Get (c : BalanceCache) (id : string) : Paise * bool :=
  match (c : gmap string Paise) !! id with Some v => (v, true) | None => (0, false) end.

(* [go] wallet/cache.go:36-40 BalanceCache.Set *)
Definition BalanceCache_Set (c : BalanceCache) (id : string) (bal : Paise) : BalanceCache :=
  <[id := bal]> (c : gmap string Paise).

(* [go] wallet/cache.go:44-49 BalanceCache.Apply *)
Definition BalanceCache_Apply (c : BalanceCache) (id : string) (delta : Paise)
  : BalanceCache * Paise :=
  let c' := <[id := Paise_Add (zget (c : gmap string Paise) id) delta]> (c : gmap string Paise) in
  (c', zget c' id).

(** ** Concurrent transfers

One thread per [Transfer] call.  The program counter follows the statements of
[Transfer]: the guards, the two [Lock] calls in ID order, the debit, the
credit, and the two deferred [Unlock] calls in reverse order. *)

Inductive pc : Type :=
| PStart
| PLock1
| PLock2
| PDebit
| PCredit
| PUnlock2 (r : option ledger_err)
| PUnlock1 (r : option ledger_err)
| PDone (r : option ledger_err).

Record thread : Type := mkThread {
  th_from : loc; th_to : loc; th_amt : Paise; th_pc : pc }.

Record cstate : Type := mkC {
  c_heap : heap;
  c_locks : gmap loc nat;      (** lock -> index of the thread that holds it *)
  c_threads : list thread }.

Definition set_pc (t : thread) (p : pc) : thread :=
  mkThread (th_from t) (th_to t) (th_amt t) p.

(** One step of thread [i] in state [s]; [None] when it is blocked or done. *)
(* [go] ledger/account.go:76-97 Transfer *)
Definition tstep (i : nat) (s : cstate) : option cstate :=
  match c_threads s !! i with
  | None => None
  | Some t =>
      let goto p h lk := Some (mkC h lk (<[i := set_pc t p]> (c_threads s))) in
      let h := c_heap s in
      let lk := c_locks s in
      match lock_order h (th_from t) (th_to t) with
      | None => None
      | Some (l1, l2) =>
          match th_pc t with
          | PStart =>
              if Paise_IsNegative (th_amt t) then goto (PDone (Some ErrNegativeAmount)) h lk
              else if bool_decide (acc_ID <$> h !! th_from t = acc_ID <$> h !! th_to t)
              then goto (PDone (Some ErrSameAccount)) h lk
              else goto PLock1 h lk
          | PLock1 => if lk !! l1 is Some _ then None else goto PLock2 h (<[l1 := i]> lk)
          | PLock2 => if lk !! l2 is Some _ then None else goto PDebit h (<[l2 := i]> lk)
          | PDebit =>
              match h !! th_from t with
              | None => None
              | Some f =>
                  match account_debit f (th_amt t) with
                  | (_, Some e) => goto (PUnlock2 (Some e)) h lk
                  | (f', None) => goto PCredit (<[th_from t := f']> h) lk
                  end
              end
          | PCredit =>
              match h !! th_to t with
              | None => None
              | Some a => goto (PUnlock2 None) (<[th_to t := account_credit a (th_amt t)]> h) lk
              end
          | PUnlock2 r => goto (PUnlock1 r) h (delete l2 lk)
          | PUnlock1 r => goto (PDone r) h (delete l1 lk)
          | PDone _ => None
          end
      end
  end.

Definition cstep (s s' : cstate) : Prop := ∃ i, tstep i s = Some s'.

Definition is_done (t : thread) : bool := match th_pc t with PDone _ => true | _ => false end.

(** The initial state of a batch of calls: no lock held, every thread at its
first statement. *)
Definition cinit (h : heap) (calls : list (loc * loc * Paise)) : cstate :=
  mkC h ∅ ((fun c => mkThread c.1.1 c.1.2 c.2 PStart) <$> calls).

(** Every call names accounts of the heap. *)
Definition calls_ok (h : heap) (calls : list (loc * loc * Paise)) : Prop :=
  Forall (fun c => is_Some (h !! c.1.1) ∧ is_Some (h !! c.1.2)) calls.

(** The rules of [tstep], one constructor per statement, for case analysis. *)
Inductive trule (i : nat) (t : thread) (l1 l2 : loc) (h : heap) (lk : gmap loc nat)
  : pc → pc → heap → gmap loc nat → Prop :=
| R_neg : th_amt t < 0 →
    trule i t l1 l2 h lk PStart (PDone (Some ErrNegativeAmount)) h lk
| R_same : 0 ≤ th_amt t → acc_ID <$> h !! th_from t = acc_ID <$> h !! th_to t →
    trule i t l1 l2 h lk PStart (PDone (Some ErrSameAccount)) h lk
| R_start : 0 ≤ th_amt t → acc_ID <$> h !! th_from t ≠ acc_ID <$> h !! th_to t →
    trule i t l1 l2 h lk PStart PLock1 h lk
| R_lock1 : lk !! l1 = None → trule i t l1 l2 h lk PLock1 PLock2 h (<[l1 := i]> lk)
| R_lock2 : lk !! l2 = None → trule i t l1 l2 h lk PLock2 PDebit h (<[l2 := i]> lk)
| R_debit_err f f' e : h !! th_from t = Some f → account_debit f (th_amt t) = (f', Some e) →
    trule i t l1 l2 h lk PDebit (PUnlock2 (Some e)) h lk
| R_debit f f' : h !! th_from t = Some f → account_debit f (th_amt t) = (f', None) →
    trule i t l1 l2 h lk PDebit PCredit (<[th_from t := f']> h) lk
| R_credit a : h !! th_to t = Some a →
    trule i t l1 l2 h lk PCredit (PUnlock2 None) (<[th_to t := account_credit a (th_amt t)]> h) lk
| R_unlock2 r : trule i t l1 l2 h lk (PUnlock2 r) (PUnlock1 r) h (delete l2 lk)
| R_unlock1 r : trule i t l1 l2 h lk (PUnlock1 r) (PDone r) h (delete l1 lk).

(** Which of its two locks a thread holds. *)
Definition holds1 (p : pc) : bool :=
  match p with PLock2 | PDebit | PCredit | PUnlock2 _ | PUnlock1 _ => true | _ => false end.
Definition holds2 (p : pc) : bool :=
  match p with PDebit | PCredit | PUnlock2 _ => true | _ => false end.

#[global] Instance pc_eq_dec : EqDecision pc.
Proof. solve_decision. Defined.

(** The thread is neither finished nor waiting for a lock. *)
Definition runnable (p : pc) : bool :=
  match p with PLock1 | PLock2 | PDone _ => false | _ => true end.

(** The guards of [Transfer] have passed. *)
Definition past_guards (p : pc) : bool :=
  match p with PStart | PDone _ => false | _ => true end.

Definition id_of (h : heap) (l : loc) : option string := acc_ID <$> h !! l.

(** The outcome fixed at the linearization point of a call. *)
Definition outcome (p : pc) : option (option ledger_err) :=
  match p with
  | PCredit => Some None
  | PUnlock2 r | PUnlock1 r | PDone r => Some r
  | _ => None
  end.

(** The sequential execution of the calls of [ts] listed by [order]. *)
Fixpoint run_seq (h : heap) (ts : list thread) (order : list nat)
  : option (heap * list (nat * option ledger_err)) :=
  match order with
  | [] => Some (h, [])
  | i :: order' =>
      match run_seq h ts order', ts !! i with
      | Some (h', rs), Some t =>
          match Transfer h' (th_from t) (th_to t) (th_amt t) with
          | Some (h'', r) => Some (h'', (i, r) :: rs)
          | None => None
          end
      | _, _ => None
      end
  end.

Record lock_inv (s : cstate) : Prop := {
  li_heap : ∀ i t, c_threads s !! i = Some t →
    is_Some (c_heap s !! th_from t) ∧ is_Some (c_heap s !! th_to t);
  li_guard : ∀ i t, c_threads s !! i = Some t → past_guards (th_pc t) = true →
    0 ≤ th_amt t ∧ id_of (c_heap s) (th_from t) ≠ id_of (c_heap s) (th_to t);
  li_held : ∀ i t l1 l2, c_threads s !! i = Some t →
    lock_order (c_heap s) (th_from t) (th_to t) = Some (l1, l2) →
    (holds1 (th_pc t) = true → c_locks s !! l1 = Some i) ∧
    (holds2 (th_pc t) = true → c_locks s !! l2 = Some i);
  li_owner : ∀ l i, c_locks s !! l = Some i → ∃ t l1 l2,
    c_threads s !! i = Some t ∧
    lock_order (c_heap s) (th_from t) (th_to t) = Some (l1, l2) ∧
    (l = l1 ∧ holds1 (th_pc t) = true ∨ l = l2 ∧ holds2 (th_pc t) = true) }.

(** ** Lemmas on single accounts *)

Lemma account_debit_ok a amt a' :
  0 ≤ acc_balance a < 2 ^ 63 → 0 ≤ amt < 2 ^ 63 → account_debit a amt = (a', None) →
  amt ≤ acc_balance a ∧ a' = mkAccount (acc_ID a) (acc_balance a - amt).
Proof.
  unfold account_debit, Paise_IsNegative, Paise_Sub. intros Hb Ha.
  rewrite i64_small by width. case_test; zbool; intros; simplify_eq; split_and?; first [done | lia].
Qed.

Lemma account_debit_err a amt a' e :
  0 ≤ acc_balance a < 2 ^ 63 → 0 ≤ amt < 2 ^ 63 → account_debit a amt = (a', Some e) →
  acc_balance a < amt ∧ a' = a ∧ e = ErrInsufficientFunds.
Proof.
  unfold account_debit, Paise_IsNegative, Paise_Sub. intros Hb Ha.
  rewrite i64_small by width. case_test; zbool; intros; simplify_eq; split_and?; first [done | lia].
Qed.

Lemma account_debit_ID a amt : acc_ID (account_debit a amt).1 = acc_ID a.
Proof. unfold account_debit. by case_test. Qed.

(** ** Sequential transfer *)

Section transfer.
Context (h : heap) (Hwf : heap_wf h).

Lemma heap_wf_bound l a : h !! l = Some a → 0 ≤ acc_balance a < 2 ^ 63.
Proof.
  destruct Hwf as [Hn Ht]. intros Hl. split; [eauto|].
  pose proof (msum_ge acc_balance h l a Hn Hl). unfold total in Ht. lia.
Qed.

Lemma total_pair l1 l2 a1 a2 : l1 ≠ l2 → h !! l1 = Some a1 → h !! l2 = Some a2 →
  acc_balance a1 + acc_balance a2 ≤ total h.
Proof.
  intros Hne H1 H2. unfold total. rewrite (msum_delete _ _ _ _ H1).
  assert (acc_balance a2 ≤ msum acc_balance (delete l1 h)); [|lia].
  destruct Hwf as [Hn _]. apply (msum_ge _ _ l2).
  - intros k v [_ ?]%lookup_delete_Some. eauto.
  - by rewrite lookup_delete_ne.
Qed.

Lemma total_move l1 l2 a1 a2 b1 b2 : l1 ≠ l2 → h !! l1 = Some a1 → h !! l2 = Some a2 →
  total (<[l2 := b2]> (<[l1 := b1]> h)) =
  total h - acc_balance a1 - acc_balance a2 + acc_balance b1 + acc_balance b2.
Proof.
  intros Hne H1 H2. unfold total.
  rewrite (msum_insert _ _ l2 b2 a2) by (by rewrite lookup_insert_ne).
  rewrite (msum_insert _ _ l1 b1 a1) by done. lia.
Qed.

(** What a transfer returns, branch by branch. *)
Lemma Transfer_cases from to amt f t :
  amt < 2 ^ 63 → h !! from = Some f → h !! to = Some t →
  Transfer h from to amt =
    if amt <? 0 then Some (h, Some ErrNegativeAmount)
    else if String.eqb (acc_ID f) (acc_ID t) then Some (h, Some ErrSameAccount)
    else if acc_balance f <? amt then Some (h, Some ErrInsufficientFunds)
    else Some (<[to := mkAccount (acc_ID t) (acc_balance t + amt)]>
                 (<[from := mkAccount (acc_ID f) (acc_balance f - amt)]> h), None).
Proof.
  intros Hamt Hf Ht. unfold Transfer, Paise_IsNegative.
  destruct (amt <? 0) eqn:En; [done|]. rewrite Hf, Ht. zbool.
  destruct (String.eqb _ _) eqn:Eid; [done|]. zbool.
  pose proof (heap_wf_bound _ _ Hf) as Bf. pose proof (heap_wf_bound _ _ Ht) as Bt.
  destruct (account_debit f amt) as [f' [e|]] eqn:Ed.
  - destruct (account_debit_err f amt f' e) as (? & -> & ->); [done|lia|done|].
    destruct (Z.ltb_spec (acc_balance f) amt); [done|lia].
  - destruct (account_debit_ok f amt f') as [? ->]; [done|lia|done|].
    destruct (Z.ltb_spec (acc_balance f) amt); [lia|].
    assert (from ≠ to) by congruence.
    rewrite lookup_insert_ne, Ht by done.
    pose proof (total_pair from to f t ltac:(done) Hf Ht). destruct Hwf as [_ Htot].
    unfold account_credit, Paise_Add. rewrite i64_small by width. done.
Qed.

Lemma Transfer_wf from to amt h' r : amt < 2 ^ 63 →
  Transfer h from to amt = Some (h', r) → total h' = total h ∧ heap_wf h'.
Proof.
  intros Hamt HT.
  assert (amt < 0 ∨ (∃ f, h !! from = Some f) ∧ (∃ t, h !! to = Some t)) as [Hneg|[[f Hf] [t Ht]]].
  { unfold Transfer, Paise_IsNegative in HT.
    destruct (Z.ltb_spec amt 0); [by left|]. repeat case_match; simplify_eq; eauto. }
  { unfold Transfer, Paise_IsNegative in HT.
    destruct (Z.ltb_spec amt 0); [by simplify_eq|lia]. }
  rewrite (Transfer_cases from to amt f t Hamt Hf Ht) in HT.
  repeat case_test; simplify_eq; zbool; try done.
  assert (from ≠ to) by congruence.
  assert (total (<[to:={| acc_ID := acc_ID t; acc_balance := acc_balance t + amt |}]>
    (<[from:={| acc_ID := acc_ID f; acc_balance := acc_balance f - amt |}]> h)) = total h) as Htot.
  { rewrite (total_move from to f t) by done. simpl. lia. }
  destruct Hwf as [Hn Hb]. split; [done|]. split; [|lia].
  intros l a [[<- <-]|[? [[<- <-]|[? ?]]%lookup_insert_Some]]%lookup_insert_Some; simpl; eauto.
  - pose proof (Hn to t Ht). lia.
  - lia.
Qed.
End transfer.

(** ** Concurrent transfers: lock discipline *)

Lemma tstep_rule i s s' : tstep i s = Some s' → ∃ t l1 l2 p' h' lk',
  c_threads s !! i = Some t ∧
  lock_order (c_heap s) (th_from t) (th_to t) = Some (l1, l2) ∧
  trule i t l1 l2 (c_heap s) (c_locks s) (th_pc t) p' h' lk' ∧
  s' = mkC h' lk' (<[i := set_pc t p']> (c_threads s)).
Proof.
  unfold tstep. destruct (c_threads s !! i) as [t|] eqn:Et; [|done].
  destruct (lock_order _ _ _) as [[l1 l2]|] eqn:El; [|done].
  intros Hs. exists t, l1, l2. unfold Paise_IsNegative in Hs.
  destruct (th_pc t) eqn:Ep;
    repeat (case_match; simplify_eq; zbool; try done); simplify_eq;
    (do 3 eexists; split_and!; [done|done| |reflexivity]; by econstructor; eauto).
Qed.

Lemma rule_tstep i s t l1 l2 p' h' lk' :
  c_threads s !! i = Some t →
  lock_order (c_heap s) (th_from t) (th_to t) = Some (l1, l2) →
  trule i t l1 l2 (c_heap s) (c_locks s) (th_pc t) p' h' lk' →
  tstep i s = Some (mkC h' lk' (<[i := set_pc t p']> (c_threads s))).
Proof.
  intros Ht Hl Hr. unfold tstep. rewrite Ht, Hl. unfold Paise_IsNegative.
  inversion Hr; subst; try (destruct (Z.ltb_spec (th_amt t) 0); try lia);
    try done; rewrite ?bool_decide_true, ?bool_decide_false by done; try done;
    repeat match goal with H : _ = _ |- _ => progress rewrite H end; done.
Qed.

Lemma trule_ids i t l1 l2 h lk p p' h' lk' l :
  trule i t l1 l2 h lk p p' h' lk' → id_of h' l = id_of h l.
Proof.
  unfold id_of. intros Hr. inversion Hr; subst; try done.
  - destruct (decide (l = th_from t)) as [->|]; [|by rewrite lookup_insert_ne].
    rewrite lookup_insert_eq, H. simpl. f_equal.
    rewrite <- (account_debit_ID f (th_amt t)). by rewrite H0.
  - destruct (decide (l = th_to t)) as [->|]; [|by rewrite lookup_insert_ne].
    by rewrite lookup_insert_eq, H.
Qed.

Lemma lock_order_ids h h' f t : (∀ l, id_of h' l = id_of h l) →
  lock_order h' f t = lock_order h f t.
Proof.
  unfold id_of, lock_order. intros Hid. pose proof (Hid f) as Hf. pose proof (Hid t) as Ht.
  destruct (h' !! f), (h !! f), (h' !! t), (h !! t); simplify_eq/=; try done.
  by rewrite Hf, Ht.
Qed.

Lemma lock_order_Some h f t : is_Some (h !! f) → is_Some (h !! t) →
  ∃ l1 l2, lock_order h f t = Some (l1, l2).
Proof. intros [a Ha] [b Hb]. unfold lock_order. rewrite Ha, Hb. case_test; eauto. Qed.

(** The two locks are the two accounts. *)
Lemma lock_order_set h f t l1 l2 : lock_order h f t = Some (l1, l2) →
  l1 = f ∧ l2 = t ∨ l1 = t ∧ l2 = f.
Proof. unfold lock_order. intros. repeat case_match; simplify_eq; auto. Qed.

(** Accounts with different IDs are locked in strictly ascending ID order. *)
Lemma lock_order_ascending h f t l1 l2 :
  lock_order h f t = Some (l1, l2) → id_of h f ≠ id_of h t →
  ∃ s1 s2, id_of h l1 = Some s1 ∧ id_of h l2 = Some s2 ∧ str_lt s1 s2 = true.
Proof.
  unfold lock_order, id_of. intros Hl Hne.
  destruct (h !! f) as [a|] eqn:Ea, (h !! t) as [b|] eqn:Eb; simplify_eq/=.
  case_test; simplify_eq; rewrite Ea, Eb; simpl; do 2 eexists; repeat split; [done|].
  apply str_lt_total; congruence.
Qed.

Lemma is_Some_id h l : is_Some (h !! l) ↔ is_Some (id_of h l).
Proof. unfold id_of. by rewrite fmap_is_Some. Qed.

Section lock_inv_step.
Context (s : cstate) (Hinv : lock_inv s).

Lemma locks_disjoint i t l1 l2 : c_threads s !! i = Some t →
  lock_order (c_heap s) (th_from t) (th_to t) = Some (l1, l2) →
  past_guards (th_pc t) = true → l1 ≠ l2.
Proof.
  intros Ht Hl Hp ->. destruct (li_guard s Hinv i t Ht Hp) as [_ Hne].
  apply (lock_order_ascending _ _ _ _ _ Hl) in Hne as (a & b & ? & ? & Hlt).
  simplify_eq. by rewrite str_lt_irrefl in Hlt.
Qed.

(** What a rule does to the locks, in terms of what the thread holds. *)
Lemma trule_locks i t l1 l2 p' h' lk' :
  c_threads s !! i = Some t →
  lock_order (c_heap s) (th_from t) (th_to t) = Some (l1, l2) →
  trule i t l1 l2 (c_heap s) (c_locks s) (th_pc t) p' h' lk' →
  (∀ l, l ≠ l1 → l ≠ l2 → lk' !! l = c_locks s !! l) ∧
  (holds1 p' = true → lk' !! l1 = Some i) ∧
  (holds2 p' = true → lk' !! l2 = Some i) ∧
  (∀ l j, lk' !! l = Some j → c_locks s !! l = Some j ∨ j = i) ∧
  (∀ l j, j ≠ i → c_locks s !! l = Some j → lk' !! l = Some j) ∧
  (∀ l, lk' !! l = Some i → l = l1 ∧ holds1 p' = true ∨ l = l2 ∧ holds2 p' = true).
Proof.
  intros Ht Hl Hr.
  assert (past_guards (th_pc t) = true → l1 ≠ l2) as Hd by (eapply locks_disjoint; eauto).
  destruct (li_held s Hinv i t l1 l2 Ht Hl) as [Hh1 Hh2].
  assert (∀ l, c_locks s !! l = Some i →
    l = l1 ∧ holds1 (th_pc t) = true ∨ l = l2 ∧ holds2 (th_pc t) = true) as Ho.
  { intros l (t' & l1' & l2' & ? & ? & ?)%(li_owner s Hinv). by simplify_eq. }
  inversion Hr as [| | | | | | | | |]; subst;
    match goal with H : _ = th_pc t |- _ => rewrite <- H in * end; simpl in *;
    (split_and!; intros; simplify_map_eq; eauto);
    try (match goal with H : c_locks s !! ?l = Some _, N : c_locks s !! ?l' = None |- _ =>
      assert (l ≠ l') by congruence; by rewrite lookup_insert_ne by done end);
    try (match goal with H : <[_ := _]> _ !! _ = Some _ |- _ =>
      apply lookup_insert_Some in H as [[<- ?]|[? ?]]; naive_solver end);
    try (match goal with H : delete _ _ !! _ = Some _ |- _ =>
      apply lookup_delete_Some in H as [? ?]; naive_solver end).
  all: rewrite ?lookup_insert_ne, ?lookup_delete_ne; naive_solver.
Qed.

Lemma lock_inv_step_ i s' : tstep i s = Some s' → lock_inv s'.
Proof.
  intros (t & l1 & l2 & p' & h' & lk' & Ht & Hl & Hr & ->)%tstep_rule.
  pose proof (fun l => trule_ids _ _ _ _ _ _ _ _ _ _ l Hr) as Hid.
  pose proof (fun f t => lock_order_ids _ _ f t Hid) as Hlo.
  destruct (trule_locks _ _ _ _ _ _ _ Ht Hl Hr) as (Hrest & Hn1 & Hn2 & Hold & Hkeep & Hown).
  assert (∀ j u, <[i := set_pc t p']> (c_threads s) !! j = Some u →
    (j = i ∧ u = set_pc t p') ∨ (j ≠ i ∧ c_threads s !! j = Some u)) as Hth.
  { intros j u [(?&?&?)|[? ?]]%list_lookup_insert_Some; naive_solver. }
  constructor; simpl.
  - intros j u [[-> ->]|[Hne Hu]]%Hth; simpl; rewrite !is_Some_id, !Hid, <- !is_Some_id;
      eauto using li_heap.
  - intros j u [[-> ->]|[Hne Hu]]%Hth; simpl; rewrite !Hid; [|eauto using li_guard].
    intros Hp. destruct (past_guards (th_pc t)) eqn:Ep; [by apply (li_guard s Hinv i)|].
    inversion Hr; subst; simplify_eq/=; try done; by match goal with
      H : _ = th_pc t |- _ => rewrite <- H in Ep end.
  - intros j u m1 m2 [[-> ->]|[Hne Hu]]%Hth; simpl; rewrite Hlo; [by intros; simplify_eq|].
    intros Hm. destruct (li_held s Hinv j u m1 m2 Hu Hm) as [H1 H2].
    split; intros Hp; eauto.
  - intros l j Hj. destruct (Hold l j Hj) as [Hs| ->].
    + destruct (decide (j = i)) as [->|Hne].
      * exists (set_pc t p'), l1, l2. rewrite list_lookup_insert_eq by eauto using lookup_lt_Some.
        rewrite Hlo. eauto.
      * destruct (li_owner s Hinv l j Hs) as (u & m1 & m2 & Hu & Hm & Hc).
        exists u, m1, m2. rewrite list_lookup_insert_ne by done. by rewrite Hlo.
    + exists (set_pc t p'), l1, l2. rewrite list_lookup_insert_eq by eauto using lookup_lt_Some.
      rewrite Hlo. eauto.
Qed.
End lock_inv_step.

Lemma lock_inv_init h calls : calls_ok h calls → lock_inv (cinit h calls).
Proof.
  intros Hok. constructor; simpl.
  - intros i t Ht. apply list_lookup_fmap_Some in Ht as (c & -> & Hc). simpl.
    by apply (Forall_lookup_1 _ _ _ _ Hok Hc).
  - intros i t Ht. apply list_lookup_fmap_Some in Ht as (c & -> & Hc). done.
  - intros i t l1 l2 Ht. apply list_lookup_fmap_Some in Ht as (c & -> & Hc). done.
  - intros l i H. by rewrite lookup_empty in H.
Qed.

Lemma lock_inv_reach h calls s : calls_ok h calls → rtc cstep (cinit h calls) s → lock_inv s.
Proof.
  intros Hok Hr. eapply rtc_invariant; [|exact Hr|by apply lock_inv_init].
  intros x y Hx [i Hi]. by eapply lock_inv_step_.
Qed.

(** ** Deadlock freedom *)

Section progress.
Context (s : cstate) (Hinv : lock_inv s).

(** A thread that is neither finished nor waiting for a lock can run. *)
Lemma running_steps i t : c_threads s !! i = Some t →
  runnable (th_pc t) = true → ∃ s', tstep i s = Some s'.
Proof.
  intros Ht Hp. destruct (li_heap s Hinv i t Ht) as [[f Hf] [a Ha]].
  destruct (lock_order_Some (c_heap s) (th_from t) (th_to t)) as (l1 & l2 & Hl); [by eauto..|].
  enough (∃ p' h' lk', trule i t l1 l2 (c_heap s) (c_locks s) (th_pc t) p' h' lk')
    as (p' & h' & lk' & Hr) by eauto using rule_tstep.
  destruct (th_pc t); try done; try (do 3 eexists; by econstructor).
  - destruct (Z_lt_ge_dec (th_amt t) 0); [do 3 eexists; by apply R_neg|].
    destruct (decide (acc_ID <$> c_heap s !! th_from t = acc_ID <$> c_heap s !! th_to t));
      do 3 eexists; [apply R_same|apply R_start]; by try lia.
  - destruct (account_debit f (th_amt t)) as [f' [e|]] eqn:E; do 3 eexists;
      [by eapply R_debit_err|by eapply R_debit].
Qed.

(** The ID of the first lock of a thread. *)
Definition first_id (t : thread) : string :=
  match lock_order (c_heap s) (th_from t) (th_to t) with
  | Some (l1, _) => default ""%string (id_of (c_heap s) l1)
  | None => ""%string
  end.

(** Among the threads waiting for their second lock, one whose first lock has
the greatest ID is not blocked. *)
Lemma lock2_steps (ts : list (nat * thread)) : ts ≠ [] →
  (∀ i t, (i, t) ∈ ts ↔ c_threads s !! i = Some t ∧ th_pc t = PLock2) →
  (∀ i t, c_threads s !! i = Some t → runnable (th_pc t) = false) →
  ∃ i s', tstep i s = Some s'.
Proof.
  intros Hne Hts Hall.
  destruct (list_maximal (fun p q => str_lt (first_id p.2) (first_id q.2)) ts)
    as ([i t] & Hin & Hmax); [eauto with go..|by eauto with go|done|].
  apply Hts in Hin as [Ht Hp].
  destruct (li_heap s Hinv i t Ht) as [Hf Ha].
  destruct (lock_order_Some (c_heap s) (th_from t) (th_to t)) as (l1 & l2 & Hl); [done..|].
  exists i. destruct (c_locks s !! l2) as [j|] eqn:El2.
  - exfalso. destruct (li_owner s Hinv l2 j El2) as (u & m1 & m2 & Hu & Hm & Hc).
    pose proof (Hall j u Hu) as Hpu.
    assert (th_pc u = PLock2 ∧ l2 = m1) as [Hpu' ->].
    { destruct (th_pc u); simpl in *; try done; by destruct Hc as [[-> ?]|[-> ?]]. }
    assert ((j, u) ∈ ts) as Hj by (by apply Hts).
    specialize (Hmax _ Hj). simpl in Hmax. unfold first_id in Hmax. rewrite Hl, Hm in Hmax.
    destruct (li_guard s Hinv i t Ht) as [_ Hids]; [by rewrite Hp|].
    destruct (lock_order_ascending _ _ _ _ _ Hl Hids) as (s1 & s2 & E1 & E2 & Hlt).
    rewrite E1, E2 in Hmax. simpl in Hmax. congruence.
  - eexists. eapply rule_tstep; [done..|]. rewrite Hp. by constructor.
Qed.

Lemma progress : Forall (fun t => is_done t = true) (c_threads s) ∨ ∃ s', cstep s s'.
Proof.
  destruct (decide (Exists (fun t => runnable (th_pc t) = true) (c_threads s))) as [Hr|Hr].
  { apply Exists_exists in Hr as (t & [i Hi]%list_elem_of_lookup & Hp).
    destruct (running_steps i t Hi Hp) as [s' ?]. right. exists s', i. done. }
  assert (∀ i t, c_threads s !! i = Some t → runnable (th_pc t) = false) as Hall.
  { intros i t Ht. destruct (runnable (th_pc t)) eqn:Ep; [|done]. destruct Hr.
    apply Exists_exists. eauto using list_elem_of_lookup_2. }
  set (ts := filter (fun p => th_pc p.2 = PLock2) (imap pair (c_threads s))).
  assert (∀ i t, (i, t) ∈ ts ↔ c_threads s !! i = Some t ∧ th_pc t = PLock2) as Hts.
  { intros i t. unfold ts. rewrite list_elem_of_filter. simpl. rewrite list_elem_of_lookup.
    setoid_rewrite list_lookup_imap_Some. naive_solver. }
  destruct ts as [|p ts'] eqn:Ets.
  2: { right. destruct (lock2_steps (p :: ts')) as (i & s' & ?); [done|exact Hts|done|].
       exists s', i. done. }
  destruct (decide (Exists (fun t => th_pc t = PLock1) (c_threads s))) as [Hw|Hw].
  - apply Exists_exists in Hw as (t & [i Hi]%list_elem_of_lookup & Hp).
    destruct (li_heap s Hinv i t Hi) as [Hf Ha].
    destruct (lock_order_Some (c_heap s) (th_from t) (th_to t)) as (l1 & l2 & Hl); [done..|].
    right. eexists. exists i. eapply rule_tstep; [done..|]. rewrite Hp. constructor.
    destruct (c_locks s !! l1) as [j|] eqn:El; [|done]. exfalso.
    destruct (li_owner s Hinv l1 j El) as (u & m1 & m2 & Hu & Hm & Hc).
    pose proof (Hall j u Hu) as Hpu. pose proof (proj2 (Hts j u)) as Hn.
    destruct (th_pc u); simpl in *; try done; destruct Hc as [[_ ?]|[_ ?]]; try done.
    by apply (not_elem_of_nil (j, u)), Hn.
  - left. apply Forall_lookup. intros i t Ht. unfold is_done.
    pose proof (Hall i t Ht). pose proof (proj2 (Hts i t)) as Hn.
    destruct (th_pc t) eqn:Ep; try done.
    + destruct Hw. apply Exists_exists. eauto using list_elem_of_lookup_2.
    + exfalso. by apply (not_elem_of_nil (i, t)), Hn.
Qed.
End progress.

(** ** Serializability *)

(** The sequential heap [hs] differs from the real heap [h] only in the
accounts whose credit is still to be made by a thread at [PCredit]. *)
Definition pending_rel (h : heap) (ts : list thread) (hs : heap) : Prop :=
  ∀ l, (∃ i t, ts !! i = Some t ∧ th_pc t = PCredit ∧ th_to t = l ∧
          hs !! l = (fun a => account_credit a (th_amt t)) <$> h !! l) ∨
       ((∀ i t, ts !! i = Some t → th_pc t = PCredit → th_to t ≠ l) ∧ hs !! l = h !! l).

Record lin_inv (h0 : heap) (s : cstate) (order : list nat) (hs : heap)
  (rs : list (nat * option ledger_err)) : Prop := {
  lin_run : run_seq h0 (c_threads s) order = Some (hs, rs);
  lin_keys : rs.*1 = order;
  lin_nodup : NoDup order;
  lin_out : ∀ i t, c_threads s !! i = Some t → ∀ r, outcome (th_pc t) = Some r ↔ (i, r) ∈ rs;
  lin_rel : pending_rel (c_heap s) (c_threads s) hs }.

Lemma run_seq_set_pc h ts i t p order : ts !! i = Some t →
  run_seq h (<[i := set_pc t p]> ts) order = run_seq h ts order.
Proof.
  intros Ht. induction order as [|j order IH]; simpl; [done|]. rewrite IH.
  destruct (decide (i = j)) as [<-|]; [|by rewrite list_lookup_insert_ne].
  rewrite list_lookup_insert_eq by eauto using lookup_lt_Some. by rewrite Ht.
Qed.

Lemma run_seq_ids h ts order hs rs l :
  run_seq h ts order = Some (hs, rs) → id_of hs l = id_of h l.
Proof.
  revert hs rs. induction order as [|j order IH]; intros hs rs; simpl; [by intros; simplify_eq|].
  destruct (run_seq h ts order) as [[h1 rs1]|]; [|done]. destruct (ts !! j) as [t|]; [|done].
  specialize (IH h1 rs1 eq_refl). rewrite <- IH. clear IH. unfold Transfer, id_of.
  intros. repeat case_match; simplify_eq; try done.
  destruct (decide (l = th_to t)) as [->|]; [|rewrite lookup_insert_ne by done].
  - rewrite lookup_insert_eq. simpl.
    match goal with E : <[_ := _]> _ !! _ = Some _ |- _ =>
      apply lookup_insert_Some in E as [[<- <-]|[? ->]] end; [|done].
    match goal with E : account_debit ?f ?x = _, Hf : h1 !! th_from t = Some ?f |- _ =>
      rewrite Hf; simpl; rewrite <- (account_debit_ID f x), E; done end.
  - destruct (decide (l = th_from t)) as [->|]; [|by rewrite lookup_insert_ne].
    rewrite lookup_insert_eq.
    match goal with E : account_debit ?f ?x = _, Hf : h1 !! th_from t = Some ?f |- _ =>
      rewrite Hf; simpl; rewrite <- (account_debit_ID f x), E; done end.
Qed.

Section lin_step.
Context (h0 : heap) (s : cstate) (Hinv : lock_inv s).
Context (order : list nat) (hs : heap) (rs : list (nat * option ledger_err)).
Context (Hlin : lin_inv h0 s order hs rs).
Context (i : nat) (t : thread) (Ht : c_threads s !! i = Some t).

(** A thread that holds both locks sees no pending credit on its accounts,
unless it is its own. *)
Lemma held_not_pending l j u : holds2 (th_pc t) = true → l = th_from t ∨ l = th_to t →
  c_threads s !! j = Some u → th_pc u = PCredit → th_to u = l → j = i.
Proof.
  intros Hp Hl Hu Hc Hto. destruct (li_heap s Hinv i t Ht) as [Hf Ha].
  destruct (lock_order_Some (c_heap s) (th_from t) (th_to t)) as (l1 & l2 & Hlo); [done..|].
  destruct (li_heap s Hinv j u Hu) as [Hf' Ha'].
  destruct (lock_order_Some (c_heap s) (th_from u) (th_to u)) as (m1 & m2 & Hmo); [done..|].
  destruct (li_held s Hinv i t l1 l2 Ht Hlo) as [H1 H2].
  destruct (li_held s Hinv j u m1 m2 Hu Hmo) as [H1' H2'].
  rewrite Hc in H1', H2'. assert (holds1 (th_pc t) = true) by by destruct (th_pc t).
  assert (c_locks s !! th_to u = Some j) as Eu.
  { apply lock_order_set in Hmo as [[-> ->]|[-> ->]]; [by apply H2'|by apply H1']. }
  assert (c_locks s !! l = Some i) as El.
  { apply lock_order_set in Hlo as [[-> ->]|[-> ->]]; destruct Hl as [->| ->]; auto. }
  congruence.
Qed.

Lemma rel_same p : th_pc t ≠ PCredit → p ≠ PCredit →
  pending_rel (c_heap s) (<[i := set_pc t p]> (c_threads s)) hs.
Proof.
  intros Hp Hp' l. destruct (lin_rel _ _ _ _ _ Hlin l) as [(j & u & Hu & Hc & Hto & He)|[Hn He]].
  - left. exists j, u. rewrite list_lookup_insert_ne by naive_solver. done.
  - right. split; [|done]. intros j u [(<- & <- & _)|[? Hu]]%list_lookup_insert_Some; eauto.
Qed.

(** A step that is not a linearization point. *)
Lemma lin_step_silent h' lk' p :
  outcome p = outcome (th_pc t) → pending_rel h' (<[i := set_pc t p]> (c_threads s)) hs →
  lin_inv h0 (mkC h' lk' (<[i := set_pc t p]> (c_threads s))) order hs rs.
Proof.
  intros Ho Hrel. destruct Hlin as [H1 H2 H3 H4 H5]. constructor; simpl; [|done..| |done].
  - by rewrite run_seq_set_pc.
  - intros j u [(<- & <- & _)|[? Hu]]%list_lookup_insert_Some r; simpl; [|by apply H4].
    rewrite Ho. by apply H4.
Qed.

(** A step that is: the sequential execution makes the same call. *)
Lemma lin_step_commit h' lk' p hs' r :
  outcome (th_pc t) = None → outcome p = Some r →
  Transfer hs (th_from t) (th_to t) (th_amt t) = Some (hs', r) →
  pending_rel h' (<[i := set_pc t p]> (c_threads s)) hs' →
  lin_inv h0 (mkC h' lk' (<[i := set_pc t p]> (c_threads s))) (i :: order) hs' ((i, r) :: rs).
Proof.
  intros Hn Ho HT Hrel. destruct Hlin as [H1 H2 H3 H4 H5].
  assert (∀ q, (i, q) ∉ rs) as Hfresh by (intros q Hq%(H4 i t Ht); congruence).
  constructor; simpl; [| | | |done].
  - rewrite run_seq_set_pc by done. rewrite H1.
    rewrite list_lookup_insert_eq by eauto using lookup_lt_Some. simpl. by rewrite HT.
  - by f_equal.
  - constructor; [|done]. rewrite <- H2. intros ([k q] & -> & Hq)%list_elem_of_fmap.
    by apply (Hfresh q).
  - intros j u [(<- & <- & _)|[? Hu]]%list_lookup_insert_Some q; simpl.
    + rewrite Ho, elem_of_cons. split; [intros [= ->]; by left|].
      intros [[= ->]|[]%Hfresh]; done.
    + rewrite (H4 j u Hu), elem_of_cons. split; [by right|]. intros [[= ? ->]|?]; done.
Qed.

Lemma hs_id l : id_of hs l = id_of (c_heap s) l.
Proof.
  unfold id_of. destruct (lin_rel _ _ _ _ _ Hlin l) as [(j & u & _ & _ & _ & ->)|[_ ->]]; [|done].
  by destruct (c_heap s !! l).
Qed.

Lemma hs_held l : th_pc t = PDebit → l = th_from t ∨ l = th_to t → hs !! l = c_heap s !! l.
Proof.
  intros Hp Hl. destruct (lin_rel _ _ _ _ _ Hlin l) as [(j & u & Hu & Hc & Hto & _)|[_ ?]]; [|done].
  assert (j = i) as -> by (eapply held_not_pending; eauto; by rewrite Hp). congruence.
Qed.
End lin_step.

Lemma Transfer_past_guards hs from to amt f a :
  0 ≤ amt → hs !! from = Some f → hs !! to = Some a → acc_ID f ≠ acc_ID a →
  Transfer hs from to amt =
    match account_debit f amt with
    | (_, Some e) => Some (hs, Some e)
    | (f', None) => Some (<[to := account_credit a amt]> (<[from := f']> hs), None)
    end.
Proof.
  intros Hamt Hf Ha Hne. unfold Transfer, Paise_IsNegative.
  destruct (Z.ltb_spec amt 0); [lia|]. rewrite Hf, Ha.
  destruct (String.eqb_spec (acc_ID f) (acc_ID a)); [done|].
  destruct (account_debit f amt) as [f' [e|]]; [done|].
  assert (from ≠ to) by congruence. by rewrite lookup_insert_ne, Ha.
Qed.

(** The debit is the linearization point of a call that passed the guards. *)
Lemma lin_debit h0 s order hs rs i t f a : lock_inv s → lin_inv h0 s order hs rs →
  c_threads s !! i = Some t → th_pc t = PDebit →
  c_heap s !! th_from t = Some f → c_heap s !! th_to t = Some a →
  Transfer hs (th_from t) (th_to t) (th_amt t) =
    match account_debit f (th_amt t) with
    | (_, Some e) => Some (hs, Some e)
    | (f', None) =>
        Some (<[th_to t := account_credit a (th_amt t)]> (<[th_from t := f']> hs), None)
    end ∧ th_from t ≠ th_to t.
Proof.
  intros Hinv Hlin Ht Hp Hf Ha.
  destruct (li_guard s Hinv i t Ht) as [Hamt Hids]; [by rewrite Hp|].
  split; [|intros E; by rewrite E in Hids].
  apply Transfer_past_guards; [done|..].
  - rewrite <- Hf. eapply hs_held; eauto.
  - rewrite <- Ha. eapply hs_held; eauto.
  - unfold id_of in Hids. rewrite Hf, Ha in Hids. simpl in Hids. congruence.
Qed.

Lemma rel_debit h0 s order hs rs i t f f' a : lock_inv s → lin_inv h0 s order hs rs →
  c_threads s !! i = Some t → th_pc t = PDebit →
  c_heap s !! th_from t = Some f → c_heap s !! th_to t = Some a → th_from t ≠ th_to t →
  pending_rel (<[th_from t := f']> (c_heap s)) (<[i := set_pc t PCredit]> (c_threads s))
    (<[th_to t := account_credit a (th_amt t)]> (<[th_from t := f']> hs)).
Proof.
  intros Hinv Hlin Ht Hp Hf Ha Hne l.
  assert (∀ j u l, l = th_from t ∨ l = th_to t → c_threads s !! j = Some u →
    th_pc u = PCredit → th_to u = l → False) as Hno.
  { intros j u l' Hl' Hu Hc Hto.
    assert (j = i) as -> by (eapply held_not_pending; eauto; by rewrite Hp). congruence. }
  destruct (decide (l = th_to t)) as [->|Hlt].
  { left. exists i, (set_pc t PCredit). rewrite list_lookup_insert_eq by eauto using lookup_lt_Some.
    split_and!; [done..|]. by rewrite lookup_insert_eq, lookup_insert_ne, Ha. }
  rewrite (lookup_insert_ne _ (th_to t)) by done.
  destruct (decide (l = th_from t)) as [->|Hlf].
  { right. rewrite !lookup_insert_eq. split; [|done].
    intros j u [(<- & <- & _)|[? Hu]]%list_lookup_insert_Some; simpl; [by intros|]. eauto. }
  rewrite !lookup_insert_ne by done.
  destruct (lin_rel _ _ _ _ _ Hlin l) as [(j & u & Hu & Hc & Hto & He)|[Hn He]].
  - left. exists j, u. rewrite list_lookup_insert_ne by congruence. done.
  - right. split; [|done].
    intros j u [(<- & <- & _)|[? Hu]]%list_lookup_insert_Some; simpl; eauto.
Qed.

Lemma rel_credit h0 s order hs rs i t a : lock_inv s → lin_inv h0 s order hs rs →
  c_threads s !! i = Some t → th_pc t = PCredit → c_heap s !! th_to t = Some a →
  pending_rel (<[th_to t := account_credit a (th_amt t)]> (c_heap s))
    (<[i := set_pc t (PUnlock2 None)]> (c_threads s)) hs.
Proof.
  intros Hinv Hlin Ht Hp Ha l.
  assert (∀ j u, c_threads s !! j = Some u → th_pc u = PCredit → th_to u = th_to t → j = i) as Hown.
  { intros j u Hu Hc Hto. eapply (held_not_pending s Hinv i t Ht (th_to t)); eauto. by rewrite Hp. }
  destruct (decide (l = th_to t)) as [->|Hlt].
  - right. split.
    + intros j u [(<- & <- & _)|[? Hu]]%list_lookup_insert_Some; simpl; [done|].
      intros Hc Hto. by apply (Hown j u) in Hto.
    + rewrite lookup_insert_eq.
      destruct (lin_rel _ _ _ _ _ Hlin (th_to t)) as [(j & u & Hu & Hc & Hto & He)|[Hn _]].
      * pose proof (Hown j u Hu Hc Hto). simplify_eq. by rewrite He, Ha.
      * by destruct (Hn i t Ht Hp).
  - rewrite lookup_insert_ne by done.
    destruct (lin_rel _ _ _ _ _ Hlin l) as [(j & u & Hu & Hc & Hto & He)|[Hn He]].
    + left. exists j, u. rewrite list_lookup_insert_ne by congruence. done.
    + right. split; [|done].
      intros j u [(<- & <- & _)|[? Hu]]%list_lookup_insert_Some; simpl; eauto.
Qed.

(** A step that leaves the heap and the outcome alone. *)
Ltac silent_step Ep :=
  do 3 eexists; eapply lin_step_silent; [done..|by rewrite Ep|]; eapply rel_same; by rewrite ?Ep.

Lemma lin_step_ h0 s s' order hs rs : lock_inv s → lin_inv h0 s order hs rs → cstep s s' →
  ∃ order' hs' rs', lin_inv h0 s' order' hs' rs'.
Proof.
  intros Hinv Hlin [i (t & l1 & l2 & p' & h' & lk' & Ht & Hl & Hr & ->)%tstep_rule].
  pose proof (li_guard s Hinv i t Ht) as Hg.
  pose proof (hs_id _ _ _ _ _ Hlin) as Hid.
  destruct (li_heap s Hinv i t Ht) as [[f Hf] [a Ha]].
  assert (is_Some (hs !! th_from t) ∧ is_Some (hs !! th_to t)) as [[fs Hfs] [ts Hts]].
  { rewrite !is_Some_id, !Hid, <- !is_Some_id, Hf, Ha. eauto. }
  remember (th_pc t) as p eqn:Ep.
  destruct Hr; symmetry in Ep.
  - do 3 eexists. eapply lin_step_commit; [done..|by rewrite Ep|done| |].
    + unfold Transfer, Paise_IsNegative. destruct (Z.ltb_spec (th_amt t) 0); [done|lia].
    + eapply rel_same; by rewrite ?Ep.
  - do 3 eexists. eapply lin_step_commit; [done..|by rewrite Ep|done| |].
    + unfold Transfer, Paise_IsNegative. destruct (Z.ltb_spec (th_amt t) 0); [lia|].
      rewrite Hfs, Hts. pose proof (Hid (th_from t)) as E1. pose proof (Hid (th_to t)) as E2.
      unfold id_of in *. rewrite Hfs in E1. rewrite Hts in E2. simpl in *.
      assert (acc_ID fs = acc_ID ts) as -> by congruence. by rewrite String.eqb_refl.
    + eapply rel_same; by rewrite ?Ep.
  - silent_step Ep.
  - silent_step Ep.
  - silent_step Ep.
  - destruct (lin_debit h0 s order hs rs i t f0 a) as [HT Hne]; [done..|].
    rewrite H0 in HT. do 3 eexists. eapply lin_step_commit; [done..|by rewrite Ep|done|exact HT|].
    eapply rel_same; by rewrite ?Ep.
  - destruct (lin_debit h0 s order hs rs i t f0 a) as [HT Hne]; [done..|].
    rewrite H0 in HT. do 3 eexists. eapply lin_step_commit; [done..|by rewrite Ep|done|exact HT|].
    by eapply rel_debit.
  - do 3 eexists. eapply lin_step_silent; [done..|by rewrite Ep|]. by eapply rel_credit.
  - silent_step Ep.
  - silent_step Ep.
Qed.

Lemma lin_init h calls : lin_inv h (cinit h calls) [] h [].
Proof.
  constructor; simpl; [done..|constructor| |].
  - intros i t Ht r. apply list_lookup_fmap_Some in Ht as (c & -> & Hc). simpl.
    split; [done|]. by intros []%not_elem_of_nil.
  - intros l. right. split; [|done]. intros i t Ht.
    apply list_lookup_fmap_Some in Ht as (c & -> & Hc). done.
Qed.

Lemma lin_reach h calls s : calls_ok h calls → rtc cstep (cinit h calls) s →
  lock_inv s ∧ ∃ order hs rs, lin_inv h s order hs rs.
Proof.
  intros Hok Hr.
  eapply (rtc_invariant cstep (fun s => lock_inv s ∧ ∃ order hs rs, lin_inv h s order hs rs));
    [|exact Hr|].
  - intros x y (Hx & order & hs & rs & Hl) Hxy. split.
    + destruct Hxy as [i Hi]. by eapply lock_inv_step_.
    + by eapply lin_step_.
  - split; [by apply lock_inv_init|]. exists [], h, []. apply lin_init.
Qed.

(** Steps never change the calls the threads execute. *)
Lemma threads_calls s s' : rtc cstep s s' →
  (fun t => (th_from t, th_to t, th_amt t)) <$> c_threads s' =
  (fun t => (th_from t, th_to t, th_amt t)) <$> c_threads s.
Proof.
  induction 1 as [|x y z [i Hi] _ IH]; [done|]. rewrite IH.
  apply tstep_rule in Hi as (t & l1 & l2 & p' & h' & lk' & Ht & _ & _ & ->). simpl.
  rewrite list_fmap_insert. simpl. apply list_insert_id. by rewrite list_lookup_fmap, Ht.
Qed.

Lemma run_seq_calls h ts ts' order :
  (fun t => (th_from t, th_to t, th_amt t)) <$> ts =
  (fun t => (th_from t, th_to t, th_amt t)) <$> ts' →
  run_seq h ts order = run_seq h ts' order.
Proof.
  intros He. induction order as [|i order IH]; simpl; [done|]. rewrite IH.
  apply (f_equal (fun l => l !! i)) in He. rewrite !list_lookup_fmap in He.
  destruct (run_seq h ts' order) as [[? ?]|]; [|done].
  by destruct (ts !! i) as [[]|], (ts' !! i) as [[]|]; simplify_eq/=.
Qed.

Lemma run_seq_lookup h ts order x i : run_seq h ts order = Some x → i ∈ order → is_Some (ts !! i).
Proof.
  revert x. induction order as [|j order IH]; intros x; simpl; [by intros _ []%not_elem_of_nil|].
  destruct (run_seq h ts order) as [[h' rs]|]; [|done].
  destruct (ts !! j) eqn:Ej; [|done]. intros _ [->|Hi]%elem_of_cons; eauto.
Qed.

(** A serial execution conserves money and well-formedness. *)
Lemma run_seq_wf h ts order h' rs : heap_wf h → Forall (fun t => th_amt t < 2 ^ 63) ts →
  run_seq h ts order = Some (h', rs) → total h' = total h ∧ heap_wf h'.
Proof.
  intros Hwf Hamt. revert h' rs. induction order as [|j order IH]; intros h' rs; simpl.
  { by intros [= <- <-]. }
  destruct (run_seq h ts order) as [[h1 rs1]|]; [|done].
  destruct (ts !! j) as [t|] eqn:Ej; [|done]. destruct (IH h1 rs1 eq_refl) as [<- Hwf1].
  destruct (Transfer h1 _ _ _) as [[h2 r]|] eqn:ET; [|done]. intros [= <- <-].
  eapply Transfer_wf; eauto. by apply (Forall_lookup_1 _ _ _ _ Hamt Ej).
Qed.

(** ** Properties *)

(** C5: concurrent transfers are deadlock free.  However any number of
[Transfer] calls are interleaved, a reachable state in which some call has not
returned always has an enabled step: the ascending ID order of the two [Lock]
calls rules out a cycle of waiting goroutines. *)
Theorem Transfer_deadlock_free h calls s :
  calls_ok h calls → rtc cstep (cinit h calls) s →
  Forall (fun t => is_done t = true) (c_threads s) ∨ ∃ s', cstep s s'.
Proof. intros Hok Hr. apply progress. by eapply lock_inv_reach. Qed.

(** C1: concurrent transfers are serializable.  When all calls have returned,
the heap and every returned error are those of executing the calls one after
the other, in some order, with the sequential [Transfer]. *)
Theorem Transfer_serializable h calls s :
  calls_ok h calls → rtc cstep (cinit h calls) s →
  Forall (fun t => is_done t = true) (c_threads s) →
  ∃ order rs, order ≡ₚ seq 0 (length calls) ∧
    run_seq h (c_threads (cinit h calls)) order = Some (c_heap s, rs) ∧
    ∀ i t, c_threads s !! i = Some t → ∃ r, th_pc t = PDone r ∧ (i, r) ∈ rs.
Proof.
  intros Hok Hr Hdone. pose proof (threads_calls _ _ Hr) as Hc.
  destruct (lin_reach _ _ _ Hok Hr) as (Hinv & order & hs & rs & [H1 H2 H3 H4 H5]).
  assert (∀ i t, c_threads s !! i = Some t → ∃ r, th_pc t = PDone r ∧ (i, r) ∈ rs) as Hres.
  { intros i t Ht. pose proof (Forall_lookup_1 _ _ _ _ Hdone Ht) as Hd. unfold is_done in Hd.
    destruct (th_pc t) as [| | | | | | |r] eqn:Ep; try done. exists r. split; [done|].
    apply (H4 i t Ht). by rewrite Ep. }
  assert (length (c_threads s) = length calls) as Hlen.
  { apply (f_equal length) in Hc. rewrite !length_fmap in Hc. simpl in Hc.
    by rewrite length_fmap in Hc. }
  exists order, rs. split_and!; [| |done].
  - apply NoDup_Permutation; [done|apply NoDup_seq|]. intros i. rewrite elem_of_seq. split.
    + rewrite <- H2. intros ([k q] & -> & Hq)%list_elem_of_fmap. simpl.
      assert (k ∈ order) as Hk by (rewrite <- H2; by apply (list_elem_of_fmap_2 fst) in Hq).
      destruct (run_seq_lookup _ _ _ _ _ H1 Hk) as [t Ht%lookup_lt_Some]. lia.
    + intros Hi. destruct (lookup_lt_is_Some_2 (c_threads s) i) as [t Ht]; [lia|].
      destruct (Hres i t Ht) as (r & _ & Hin). rewrite <- H2. by apply (list_elem_of_fmap_2 fst) in Hin.
  - rewrite <- (run_seq_calls _ _ _ _ Hc), H1. do 2 f_equal. apply map_eq. intros l.
    destruct (H5 l) as [(i & t & Ht & Hp & _)|[_ ?]]; [|done].
    destruct (Hres i t Ht) as (r & Hd & _). congruence.
Qed.

(** A sequential [Transfer] between accounts of a heap with non-negative
balances whose sum fits an int64 moves exactly [amt]: it fails, with the error
the code gives, on a negative amount, on equal IDs and on insufficient funds,
leaving the heap unchanged, and otherwise subtracts and adds the exact
(unwrapped) amount; total and well-formedness are preserved either way. *)
Theorem Transfer_correct h from to amt f t :
  heap_wf h → in_i64 amt → h !! from = Some f → h !! to = Some t →
  ∃ h' r, Transfer h from to amt = Some (h', r) ∧
    total h' = total h ∧ heap_wf h' ∧
    r = (if amt <? 0 then Some ErrNegativeAmount
         else if String.eqb (acc_ID f) (acc_ID t) then Some ErrSameAccount
         else if acc_balance f <? amt then Some ErrInsufficientFunds else None) ∧
    h' = (if r is None
          then <[to := mkAccount (acc_ID t) (acc_balance t + amt)]>
                 (<[from := mkAccount (acc_ID f) (acc_balance f - amt)]> h)
          else h).
Proof.
  intros Hwf [_ Hamt] Hf Ht.
  destruct (Transfer h from to amt) as [[h' r]|] eqn:ET;
    pose proof ET as EC; rewrite (Transfer_cases h Hwf from to amt f t) in EC by done;
    [|by repeat case_test].
  exists h', r. destruct (Transfer_wf h Hwf from to amt h' r Hamt ET) as [? ?].
  split_and!; try done; by repeat case_test; simplify_eq.
Qed.

(** Conservation under concurrency.  From a well-formed heap, when all
concurrent [Transfer] calls have returned, the total of the balances is the
initial one, no balance is negative and the total still fits an int64. *)
Theorem Transfer_concurrent_conservation h calls s :
  heap_wf h → calls_ok h calls → Forall (fun c => in_i64 c.2) calls →
  rtc cstep (cinit h calls) s → Forall (fun t => is_done t = true) (c_threads s) →
  total (c_heap s) = total h ∧ heap_wf (c_heap s).
Proof.
  intros Hwf Hok Hamt Hr Hdone. pose proof (threads_calls _ _ Hr) as Hc.
  destruct (lin_reach _ _ _ Hok Hr) as (Hinv & order & hs & rs & [H1 _ _ _ H5]).
  assert (hs = c_heap s) as <-.
  { apply map_eq. intros l. destruct (H5 l) as [(i & t & Ht & Hp & _)|[_ ?]]; [|done].
    pose proof (Forall_lookup_1 _ _ _ _ Hdone Ht) as Hd. unfold is_done in Hd. by rewrite Hp in Hd. }
  rewrite (run_seq_calls _ _ _ _ Hc) in H1. eapply run_seq_wf; [done| |exact H1].
  simpl. apply Forall_fmap. eapply Forall_impl; [exact Hamt|]. intros c [_ ?]. done.
Qed.

(** [Credit] does not check for overflow: crediting a valid positive amount
to a valid balance reports success and leaves a negative balance whenever the
exact sum exceeds the int64 range. *)
Theorem Account_Credit_overflow a amt :
  0 ≤ acc_balance a → in_i64 (acc_balance a) → 0 ≤ amt → in_i64 amt →
  2 ^ 63 ≤ acc_balance a + amt →
  ∃ a', Account_Credit a amt = (a', None) ∧ acc_balance a' = acc_balance a + amt - 2 ^ 64 ∧
        acc_balance a' < 0.
Proof.
  intros Hb Hbr Ha Har Hov. unfold Account_Credit, Paise_IsNegative.
  destruct (Z.ltb_spec amt 0); [lia|]. eexists. split; [done|]. simpl.
  unfold Paise_Add. width.
Qed.

(** ** Witnesses *)

Definition wheap : heap :=
  {[ 0%nat := mkAccount "alice" 100; 1%nat := mkAccount "bob" 50; 2%nat := mkAccount "carol" 7 ]}.
Definition wcalls : list (loc * loc * Paise) :=
  [(0%nat, 1%nat, 30); (1%nat, 0%nat, 60); (2%nat, 1%nat, 9)].

Lemma wcalls_ok : calls_ok wheap wcalls.
Proof. repeat constructor; vm_compute; eauto. Qed.

Lemma wheap_wf : heap_wf wheap.
Proof.
  split; [|vm_compute; done]. intros l a Hl. unfold wheap in Hl.
  repeat (apply lookup_insert_Some in Hl as [[<- <-]|[_ Hl]]; [vm_compute; done|]).
  apply lookup_singleton_Some in Hl as [<- <-]. vm_compute. done.
Qed.

(** A run: thread [i] takes the steps listed by [sched]. *)
Fixpoint run_sched (sched : list nat) (s : cstate) : option cstate :=
  match sched with
  | [] => Some s
  | i :: sched' => match tstep i s with Some s' => run_sched sched' s' | None => None end
  end.

Lemma run_sched_rtc sched s s' : run_sched sched s = Some s' → rtc cstep s s'.
Proof.
  revert s. induction sched as [|i sched IH]; intros s; simpl; [intros [= ->]; constructor|].
  destruct (tstep i s) as [s1|] eqn:E; [|done]. intros Hr. econstructor; [by exists i|eauto].
Qed.

(** Two transfers in opposite directions interleaved, and a third that fails. *)
Definition wsched : list nat :=
  [0; 1; 2; 0; 0; 0; 0; 0; 2; 0; 1; 2; 2; 2; 2; 1; 1; 1; 1; 1]%nat.

Definition wmid : cstate := default (cinit wheap wcalls) (run_sched (take 5 wsched) (cinit wheap wcalls)).
Definition wend : cstate := default (cinit wheap wcalls) (run_sched wsched (cinit wheap wcalls)).

Lemma wmid_reach : rtc cstep (cinit wheap wcalls) wmid.
Proof. apply (run_sched_rtc (take 5 wsched)). vm_compute. done. Qed.

Lemma wend_reach : rtc cstep (cinit wheap wcalls) wend.
Proof. apply (run_sched_rtc wsched). vm_compute. done. Qed.

Lemma wend_done : Forall (fun t => is_done t = true) (c_threads wend).
Proof. vm_compute. repeat constructor. Qed.

Lemma Transfer_deadlock_free_witness :
  Forall (fun t => is_done t = true) (c_threads wmid) ∨ ∃ s', cstep wmid s'.
Proof. apply (Transfer_deadlock_free wheap wcalls); [apply wcalls_ok|apply wmid_reach]. Defined.

Lemma Transfer_serializable_witness : ∃ order rs, order ≡ₚ seq 0 (length wcalls) ∧
    run_seq wheap (c_threads (cinit wheap wcalls)) order = Some (c_heap wend, rs) ∧
    ∀ i t, c_threads wend !! i = Some t → ∃ r, th_pc t = PDone r ∧ (i, r) ∈ rs.
Proof.
  apply (Transfer_serializable wheap wcalls wend);
    [apply wcalls_ok|apply wend_reach|apply wend_done].
Defined.

Lemma Transfer_correct_witness : ∃ h' r, Transfer wheap 0%nat 1%nat 30 = Some (h', r) ∧
    total h' = total wheap ∧ heap_wf h' ∧ r = None ∧
    h' = <[1%nat := mkAccount "bob" 80]> (<[0%nat := mkAccount "alice" 70]> wheap).
Proof.
  destruct (Transfer_correct wheap 0%nat 1%nat 30 (mkAccount "alice" 100) (mkAccount "bob" 50))
    as (h' & r & H1 & H2 & H3 & H4 & H5);
    [apply wheap_wf|split; vm_compute; done|reflexivity|reflexivity|].
  subst r. exists h', None. split_and!; done.
Defined.

Lemma Transfer_concurrent_conservation_witness :
  total (c_heap wend) = 157 ∧ heap_wf (c_heap wend).
Proof.
  change 157 with (total wheap).
  apply (Transfer_concurrent_conservation wheap wcalls);
    [apply wheap_wf|apply wcalls_ok|repeat constructor; vm_compute; done|apply wend_reach|apply wend_done].
Defined.

Lemma Account_Credit_overflow_witness :
  ∃ a', Account_Credit (mkAccount "a" max_i64) 1 = (a', None) ∧
        acc_balance a' = max_i64 + 1 - 2 ^ 64 ∧ acc_balance a' < 0.
Proof. apply Account_Credit_overflow; vm_compute; repeat split; done. Defined.
