(* ===== verification/Payment.v ===== *)
(** * fintech-ledger-go: idempotency store and the payment.Debit API

The interface [idempotency.Store] is the class [IdemStore]: its three
operations and the contract its comments state.  [MemStore] is an instance.
[payment.Debit] is modelled against the interface, one step per call it makes,
so that any number of requests (client retries included) may interleave. *)

From Stdlib Require Import ZArith Lia.
From stdpp Require Import base gmap strings list fin_maps relations.
From S2P Require Import Prelude Ledger.

Open Scope Z_scope.

(* [base] fintech-ledger-go/internal *)

(** ** idempotency *)

(* [go] idempotency/store.go:13-16 Record *)
Record idem_record : Type := mkRecord { rec_Key : string; rec_Body : string }.

(** The three outcomes of [Reserve]: the stored record, [ErrInProgress], or
[(nil, false, nil)]. *)
(* [go] idempotency/store.go:25-30 Store.Reserve *)
Inductive reserve_res : Type :=
| Found (r : idem_record)
| InProgress
| Owned.

Inductive key_status : Type :=
| KFree
| KPending
| KDone (r : idem_record).

(** The contract of [Store]: [status] is the abstract state of a key. *)
(* [go] idempotency/store.go:24-33 Store *)
Class IdemStore (S : Type) : Type := {
  Reserve : S → string → S * reserve_res;
  Complete : S → string → idem_record → S;
  Release : S → string → S;
  status : S → string → key_status;
  reserve_done : ∀ s k r, status s k = KDone r → Reserve s k = (s, Found r);
  reserve_pending : ∀ s k, status s k = KPending → Reserve s k = (s, InProgress);
  reserve_free : ∀ s k, status s k = KFree →
    (Reserve s k).2 = Owned ∧ status (Reserve s k).1 k = KPending;
  reserve_other : ∀ s k k', k' ≠ k → status (Reserve s k).1 k' = status s k';
  complete_key : ∀ s k r, status (Complete s k r) k = KDone r;
  complete_other : ∀ s k r k', k' ≠ k → status (Complete s k r) k' = status s k';
  release_key : ∀ s k, status s k = KPending → status (Release s k) k = KFree;
  release_other : ∀ s k k', k' ≠ k → status (Release s k) k' = status s k' }.

(* [go] idempotency/store.go:36-40 MemStore *)
Record MemStore : Type := mkMem {
  ms_done : gmap string idem_record;
  ms_pending : gset string }.

(* [go] idempotency/store.go:42-44 NewMemStore *)
Definition NewMemStore : MemStore := mkMem ∅ ∅.

(* [go] idempotency/store.go:46-57 MemStore.Reserve *)
Definition MemStore_Reserve (s : MemStore) (key : string) : MemStore * reserve_res :=
  match ms_done s !! key with
  | Some rec => (s, Found rec)
  | None =>
      if decide (key ∈ ms_pending s) then (s, InProgress)
      else (mkMem (ms_done s) ({[key]} ∪ ms_pending s), Owned)
  end.

(* [go] idempotency/store.go:59-65 MemStore.Complete *)
Definition MemStore_Complete (s : MemStore) (key : string) (rec : idem_record) : MemStore :=
  mkMem (<[key := rec]> (ms_done s)) (ms_pending s ∖ {[key]}).

(* [go] idempotency/store.go:67-72 MemStore.Release *)
Definition MemStore_Release (s : MemStore) (key : string) : MemStore :=
  mkMem (ms_done s) (ms_pending s ∖ {[key]}).

Definition MemStore_status (s : MemStore) (key : string) : key_status :=
  match ms_done s !! key with
  | Some rec => KDone rec
  | None => if decide (key ∈ ms_pending s) then KPending else KFree
  end.

(** ** payment.Debit *)

(* [go] payment/debit.go:13-16 ErrMissingIdempotencyKey, ErrUnknownAccount *)
Inductive pay_err : Type :=
| ErrMissingIdempotencyKey
| ErrUnknownAccount
| ErrInProgress
| ErrLedger (e : ledger_err).

(* [go] payment/debit.go:18-22 DebitRequest *)
Record DebitRequest : Type := mkReq {
  dr_IdempotencyKey : string; dr_AccountID : string; dr_Amount : Paise }.

(* [go] payment/debit.go:24-26 DebitResponse *)
Record DebitResponse : Type := mkResp { resp_Status : string }.

(** Program points of one call of [Debit], between the calls it makes. *)
Inductive dpc : Type :=
| DStart
| DOwned
| DComplete
| DRelease (e : pay_err)
| DDone (r : result pay_err DebitResponse).

Section debit.
Context {S : Type} `{IdemStore S}.

(** The accounts map holds pointers; [pw_log] is a ghost record of the debits
made, newest first. *)
Record pworld : Type := mkPW {
  pw_store : S;
  pw_accounts : gmap string loc;
  pw_heap : heap;
  pw_log : list DebitRequest }.

(* [go] payment/debit.go:35-62 Debit *)
Definition debit_step (req : DebitRequest) (w : pworld) (p : dpc) : option (pworld * dpc) :=
  let key := dr_IdempotencyKey req in
  match p with
  | DStart =>
      if String.eqb key "" then Some (w, DDone (Err ErrMissingIdempotencyKey)) else
      let '(st, r) := Reserve (pw_store w) key in
      let w' := mkPW st (pw_accounts w) (pw_heap w) (pw_log w) in
      match r with
      | InProgress => Some (w', DDone (Err ErrInProgress))
      | Found rec => Some (w', DDone (Ok (mkResp (rec_Body rec))))
      | Owned => Some (w', DOwned)
      end
  | DOwned =>
      match pw_accounts w !! dr_AccountID req with
      | None => Some (w, DRelease ErrUnknownAccount)
      | Some l =>
          match pw_heap w !! l with
          | None => None
          | Some acc =>
              match Account_Debit acc (dr_Amount req) with
              | (_, Some e) => Some (w, DRelease (ErrLedger e))
              | (acc', None) =>
                  Some (mkPW (pw_store w) (pw_accounts w) (<[l := acc']> (pw_heap w))
                          (req :: pw_log w), DComplete)
              end
          end
      end
  | DComplete =>
      Some (mkPW (Complete (pw_store w) key (mkRecord key "debited")) (pw_accounts w)
              (pw_heap w) (pw_log w), DDone (Ok (mkResp "debited")))
  | DRelease e =>
      Some (mkPW (Release (pw_store w) key) (pw_accounts w) (pw_heap w) (pw_log w), DDone (Err e))
  | DDone _ => None
  end.

(** A call run alone takes at most four steps. *)
(* [go] payment/debit.go:35-62 Debit *)
Fixpoint Debit_run (fuel : nat) (req : DebitRequest) (w : pworld) (p : dpc)
  : option (pworld * result pay_err DebitResponse) :=
  match p, fuel with
  | DDone r, _ => Some (w, r)
  | _, O => None
  | _, Datatypes.S fuel' =>
      match debit_step req w p with
      | Some (w', p') => Debit_run fuel' req w' p'
      | None => None
      end
  end.

Definition Debit (req : DebitRequest) (w : pworld) := Debit_run 4 req w DStart.

(** Concurrent requests. *)
Definition pstate : Type := pworld * list (DebitRequest * dpc).

Inductive pstep : relation pstate :=
| pstep_intro w ts i req p w' p' :
    ts !! i = Some (req, p) → debit_step req w p = Some (w', p') →
    pstep (w, ts) (w', <[i := (req, p')]> ts).

Definition pinit (w : pworld) (reqs : list DebitRequest) : pstate :=
  (w, (fun r => (r, DStart)) <$> reqs).

(** A call owns its key between [Reserve] and [Complete]/[Release]. *)
Definition owning (p : dpc) : bool :=
  match p with DOwned | DComplete | DRelease _ => true | _ => false end.

(** The amount debited from the account at [l] by the calls of a log. *)
Definition debited (accounts : gmap string loc) (l : loc) (log : list DebitRequest) : Z :=
  zsum (fun r => if decide (accounts !! dr_AccountID r = Some l) then dr_Amount r else 0) log.

(** The invariant of a run started with no key pending and an empty log:
[done0] are the keys completed before. *)
Record pinv (done0 : string → Prop) (h0 : heap) (s : pstate) : Prop := {
  pi_owner : ∀ i j ri pi rj pj, s.2 !! i = Some (ri, pi) → s.2 !! j = Some (rj, pj) →
    owning pi = true → owning pj = true → dr_IdempotencyKey ri = dr_IdempotencyKey rj → i = j;
  pi_status : ∀ i r p, s.2 !! i = Some (r, p) → owning p = true →
    status (pw_store s.1) (dr_IdempotencyKey r) = KPending;
  pi_log_nodup : NoDup (dr_IdempotencyKey <$> pw_log s.1);
  pi_log_status : ∀ r, r ∈ pw_log s.1 →
    (∃ rec, status (pw_store s.1) (dr_IdempotencyKey r) = KDone rec) ∨
    (∃ i, s.2 !! i = Some (r, DComplete));
  pi_complete : ∀ i r, s.2 !! i = Some (r, DComplete) → r ∈ pw_log s.1;
  pi_done : ∀ k rec, status (pw_store s.1) k = KDone rec →
    done0 k ∨ k ∈ dr_IdempotencyKey <$> pw_log s.1;
  pi_resp : ∀ i r v, s.2 !! i = Some (r, DDone (Ok v)) →
    done0 (dr_IdempotencyKey r) ∨ dr_IdempotencyKey r ∈ dr_IdempotencyKey <$> pw_log s.1;
  pi_heap : ∀ l a, h0 !! l = Some a → ∃ a', pw_heap s.1 !! l = Some a' ∧
    acc_balance a' = acc_balance a - debited (pw_accounts s.1) l (pw_log s.1) ∧
    0 ≤ acc_balance a' < 2 ^ 63;
  pi_dom : ∀ l, is_Some (pw_heap s.1 !! l) → is_Some (h0 !! l);
  pi_amt : ∀ i r p, s.2 !! i = Some (r, p) → in_i64 (dr_Amount r);
  pi_before : ∀ k, done0 k → ∃ rec, status (pw_store s.1) k = KDone rec;
  pi_fresh : ∀ r, r ∈ pw_log s.1 → ¬ done0 (dr_IdempotencyKey r) }.
End debit.

Arguments pworld S : clear implicits.
Arguments pstate S : clear implicits.

(** ** MemStore implements the contract *)

#[global] Program Instance MemStore_IdemStore : IdemStore MemStore := {
  Reserve := MemStore_Reserve; Complete := MemStore_Complete; Release := MemStore_Release;
  status := MemStore_status }.
Next Obligation.
  intros s k r. unfold MemStore_status, MemStore_Reserve.
  repeat case_match; naive_solver.
Qed.
Next Obligation.
  intros s k. unfold MemStore_status, MemStore_Reserve. repeat case_match; naive_solver.
Qed.
Next Obligation.
  intros s k. unfold MemStore_status, MemStore_Reserve.
  destruct (ms_done s !! k) eqn:Ed; [done|]. case_decide; [done|]. intros _. simpl.
  rewrite Ed. by rewrite decide_True by set_solver.
Qed.
Next Obligation.
  intros s k k' Hne. unfold MemStore_status, MemStore_Reserve.
  destruct (ms_done s !! k) eqn:Ed; [done|]. case_decide; [done|]. simpl.
  destruct (ms_done s !! k'); [done|]. apply decide_ext. set_solver.
Qed.
Next Obligation.
  intros s k r. unfold MemStore_status. simpl. by rewrite lookup_insert_eq.
Qed.
Next Obligation.
  intros s k r k' Hne. unfold MemStore_status. simpl. rewrite lookup_insert_ne by done.
  destruct (ms_done s !! k'); [done|]. apply decide_ext. set_solver.
Qed.
Next Obligation.
  intros s k. unfold MemStore_status. simpl. destruct (ms_done s !! k); [done|].
  intros _. by rewrite decide_False by set_solver.
Qed.
Next Obligation.
  intros s k k' Hne. unfold MemStore_status. simpl.
  destruct (ms_done s !! k'); [done|]. apply decide_ext. set_solver.
Qed.

(** ** The invariant of concurrent debits *)

Section debit_inv.
Context {S : Type} `{IdemStore S}.
Context (done0 : string → Prop) (h0 : heap).

(** A step that changes neither the store nor the log of other keys: only the
program point of thread [i] moves. *)
Lemma pinv_move w ts i req p p' : pinv done0 h0 (w, ts) → ts !! i = Some (req, p) →
  owning p' = owning p → p ≠ DComplete → p' ≠ DComplete → (∀ v, p' ≠ DDone (Ok v)) →
  pinv done0 h0 (w, <[i := (req, p')]> ts).
Proof.
  intros Hinv Hi Ho Hc Hc' Hd.
  assert (∀ j r q, <[i := (req, p')]> ts !! j = Some (r, q) →
    ∃ q', ts !! j = Some (r, q') ∧ owning q' = owning q ∧
      (q = q' ∨ q ≠ DComplete ∧ ∀ v, q ≠ DDone (Ok v))) as Hth.
  { intros j r q [(-> & [= <- <-] & _)|[? Hj]]%list_lookup_insert_Some; eauto 10. }
  destruct Hinv; constructor; simpl in *; try done.
  - intros a b ra pa rb pb (pa' & Ha & <- & _)%Hth (pb' & Hb & <- & _)%Hth. eauto.
  - intros a r q (q' & Ha & <- & _)%Hth. eauto.
  - intros r [?|[j Hj]]%pi_log_status0; [by left|]. right. exists j.
    rewrite list_lookup_insert_ne; [done|]. intros ->. congruence.
  - intros a r (q' & Ha & _ & [<-|[? _]])%Hth; [eauto|done].
  - intros a r v (q' & Ha & _ & [<-|[_ Hv]])%Hth; [eauto|]. by destruct (Hv v).
  - intros a r q (q' & Ha & _)%Hth. eauto.
Qed.

Lemma pinv_reserve_owned w ts i req st' : pinv done0 h0 (w, ts) →
  ts !! i = Some (req, DStart) → status (pw_store w) (dr_IdempotencyKey req) = KFree →
  status st' (dr_IdempotencyKey req) = KPending →
  (∀ k, k ≠ dr_IdempotencyKey req → status st' k = status (pw_store w) k) →
  pinv done0 h0 (mkPW st' (pw_accounts w) (pw_heap w) (pw_log w), <[i := (req, DOwned)]> ts).
Proof.
  intros Hinv Hi Hfree Hpend Hoth.
  assert (∀ j r q, <[i := (req, DOwned)]> ts !! j = Some (r, q) →
    (j = i ∧ r = req ∧ q = DOwned) ∨ (j ≠ i ∧ ts !! j = Some (r, q))) as Hth.
  { intros j r q [(-> & [= <- <-] & _)|[? Hj]]%list_lookup_insert_Some; eauto. }
  assert (∀ j r q, ts !! j = Some (r, q) → owning q = true →
    dr_IdempotencyKey r ≠ dr_IdempotencyKey req) as Hno.
  { intros j r q Hj Hq He. pose proof (pi_status _ _ _ Hinv j r q Hj Hq) as Hs.
    simpl in Hs. rewrite He in Hs. congruence. }
  assert (∀ k rec, status st' k = KDone rec ↔ status (pw_store w) k = KDone rec) as Hdone.
  { intros k rec. destruct (decide (k = dr_IdempotencyKey req)) as [->|]; [|by rewrite Hoth].
    rewrite Hfree, Hpend. done. }
  destruct Hinv; constructor; simpl in *; try done.
  - intros a b ra pa rb pb [(-> & -> & ->)|[? Ha]]%Hth [(-> & -> & ->)|[? Hb]]%Hth Hpa Hpb He;
      [done|by destruct (Hno b rb pb)|by destruct (Hno a ra pa)|eauto].
  - intros a r q [(-> & -> & ->)|[? Ha]]%Hth Hq; [done|]. rewrite Hoth; eauto.
  - intros r [[rec Hr]|[j Hj]]%pi_log_status0.
    + left. exists rec. by apply Hdone.
    + right. exists j. rewrite list_lookup_insert_ne; [done|]. congruence.
  - intros a r [(-> & -> & ?)|[? Ha]]%Hth; [done|eauto].
  - intros k rec Hk%Hdone. eauto.
  - intros a r v [(-> & -> & ?)|[? Ha]]%Hth; [done|eauto].
  - intros a r q [(-> & -> & ?)|[? Ha]]%Hth; eauto.
  - intros k [rec Hk]%pi_before0. exists rec. by apply Hdone.
Qed.

(** Other threads are untouched by an update of thread [i]. *)
Lemma thread_update (ts : list (DebitRequest * dpc)) i req p' j r q :
  <[i := (req, p')]> ts !! j = Some (r, q) →
  (j = i ∧ r = req ∧ q = p') ∨ (j ≠ i ∧ ts !! j = Some (r, q)).
Proof. intros [(-> & [= <- <-] & _)|[? Hj]]%list_lookup_insert_Some; eauto. Qed.

Lemma pinv_found w ts i req v : pinv done0 h0 (w, ts) → ts !! i = Some (req, DStart) →
  (∃ rec, status (pw_store w) (dr_IdempotencyKey req) = KDone rec) →
  pinv done0 h0 (w, <[i := (req, DDone (Ok v))]> ts).
Proof.
  intros Hinv Hi [rec Hrec]. destruct Hinv; constructor; simpl in *; try done.
  - intros a b ra pa rb pb [(-> & -> & ->)|[? Ha]]%thread_update
      [(-> & -> & ->)|[? Hb]]%thread_update; try done; eauto.
  - intros a r q [(-> & -> & ->)|[? Ha]]%thread_update; [done|eauto].
  - intros r [?|[j Hj]]%pi_log_status0; [by left|]. right. exists j.
    rewrite list_lookup_insert_ne; [done|]. congruence.
  - intros a r [(-> & -> & ?)|[? Ha]]%thread_update; [done|eauto].
  - intros a r u [(-> & -> & ?)|[? Ha]]%thread_update; [|eauto]. by apply (pi_done0 _ rec).
  - intros a r q [(-> & -> & ?)|[? Ha]]%thread_update; eauto.
Qed.

Lemma pinv_complete w ts i req st' rec v : pinv done0 h0 (w, ts) →
  ts !! i = Some (req, DComplete) →
  status st' (dr_IdempotencyKey req) = KDone rec →
  (∀ k, k ≠ dr_IdempotencyKey req → status st' k = status (pw_store w) k) →
  pinv done0 h0 (mkPW st' (pw_accounts w) (pw_heap w) (pw_log w), <[i := (req, DDone (Ok v))]> ts).
Proof.
  intros Hinv Hi Hdone Hoth.
  assert (∀ j r q, j ≠ i → ts !! j = Some (r, q) → owning q = true →
    dr_IdempotencyKey r ≠ dr_IdempotencyKey req) as Hno.
  { intros j r q Hj Ht Hq He. by apply Hj, (pi_owner _ _ _ Hinv j i r q req DComplete). }
  assert (dr_IdempotencyKey req ∈ dr_IdempotencyKey <$> pw_log w) as Hin.
  { apply list_elem_of_fmap_2. by apply (pi_complete _ _ _ Hinv i). }
  destruct Hinv; constructor; simpl in *; try done.
  - intros a b ra pa rb pb [(-> & -> & ->)|[? Ha]]%thread_update
      [(-> & -> & ->)|[? Hb]]%thread_update; try done; eauto.
  - intros a r q [(-> & -> & ->)|[? Ha]]%thread_update Hq; [done|]. rewrite Hoth; eauto.
  - intros r Hr. destruct (decide (dr_IdempotencyKey r = dr_IdempotencyKey req)) as [->|Hne]; [eauto|].
    destruct (pi_log_status0 r Hr) as [?|[j Hj]]; [left; by rewrite Hoth|].
    right. exists j. rewrite list_lookup_insert_ne; [done|]. congruence.
  - intros a r [(-> & -> & ?)|[? Ha]]%thread_update; [done|eauto].
  - intros k rec' Hk. destruct (decide (k = dr_IdempotencyKey req)) as [->|Hne]; [by right|].
    rewrite Hoth in Hk by done. eauto.
  - intros a r u [(-> & -> & ?)|[? Ha]]%thread_update; [by right|eauto].
  - intros a r q [(-> & -> & ?)|[? Ha]]%thread_update; eauto.
  - intros k Hk. destruct (decide (k = dr_IdempotencyKey req)) as [->|Hne]; [eauto|].
    rewrite Hoth by done. eauto.
Qed.

Lemma pinv_release w ts i req st' e : pinv done0 h0 (w, ts) →
  ts !! i = Some (req, DRelease e) →
  status st' (dr_IdempotencyKey req) = KFree →
  (∀ k, k ≠ dr_IdempotencyKey req → status st' k = status (pw_store w) k) →
  pinv done0 h0 (mkPW st' (pw_accounts w) (pw_heap w) (pw_log w), <[i := (req, DDone (Err e))]> ts).
Proof.
  intros Hinv Hi Hfree Hoth.
  assert (∀ j r q, j ≠ i → ts !! j = Some (r, q) → owning q = true →
    dr_IdempotencyKey r ≠ dr_IdempotencyKey req) as Hno.
  { intros j r q Hj Ht Hq He. by apply Hj, (pi_owner _ _ _ Hinv j i r q req (DRelease e)). }
  assert (status (pw_store w) (dr_IdempotencyKey req) = KPending) as Hp
    by (by eapply (pi_status _ _ _ Hinv i)).
  assert (∀ k rec, status st' k = KDone rec ↔ status (pw_store w) k = KDone rec) as Hdone.
  { intros k rec. destruct (decide (k = dr_IdempotencyKey req)) as [->|]; [|by rewrite Hoth].
    rewrite Hfree, Hp. done. }
  destruct Hinv; constructor; simpl in *; try done.
  - intros a b ra pa rb pb [(-> & -> & ->)|[? Ha]]%thread_update
      [(-> & -> & ->)|[? Hb]]%thread_update; try done; eauto.
  - intros a r q [(-> & -> & ->)|[? Ha]]%thread_update Hq; [done|]. rewrite Hoth; eauto.
  - intros r [[rec Hr]|[j Hj]]%pi_log_status0; [left; exists rec; by apply Hdone|].
    right. exists j. rewrite list_lookup_insert_ne; [done|]. congruence.
  - intros a r [(-> & -> & ?)|[? Ha]]%thread_update; [done|eauto].
  - intros k rec' Hk%Hdone. eauto.
  - intros a r u [(-> & -> & ?)|[? Ha]]%thread_update; [done|eauto].
  - intros a r q [(-> & -> & ?)|[? Ha]]%thread_update; eauto.
  - intros k [rec Hk]%pi_before0. exists rec. by apply Hdone.
Qed.

Lemma pinv_debit w ts i req l a a' : pinv done0 h0 (w, ts) → ts !! i = Some (req, DOwned) →
  pw_accounts w !! dr_AccountID req = Some l → pw_heap w !! l = Some a →
  Account_Debit a (dr_Amount req) = (a', None) →
  pinv done0 h0 (mkPW (pw_store w) (pw_accounts w) (<[l := a']> (pw_heap w)) (req :: pw_log w),
    <[i := (req, DComplete)]> ts).
Proof.
  intros Hinv Hi Hacc Hl Hd.
  assert (∀ r q, ts !! i = Some (r, q) → r = req) as Hsame by (intros; congruence).
  assert (status (pw_store w) (dr_IdempotencyKey req) = KPending) as Hp
    by (by eapply (pi_status _ _ _ Hinv i)).
  assert (dr_IdempotencyKey req ∉ dr_IdempotencyKey <$> pw_log w) as Hnew.
  { intros (r & He & Hr)%list_elem_of_fmap. destruct (pi_log_status _ _ _ Hinv r Hr) as [[rec Hs]|[j Hj]].
    - simpl in Hs. rewrite <- He in Hs. congruence.
    - assert (j = i) as -> by by apply (pi_owner _ _ _ Hinv j i r DComplete req DOwned).
      simpl in Hj. congruence. }
  destruct (pi_amt _ _ _ Hinv i req DOwned Hi) as [_ Hamt].
  unfold Account_Debit, Paise_IsNegative in Hd. destruct (Z.ltb_spec (dr_Amount req) 0); [done|].
  destruct (pi_dom _ _ _ Hinv l) as [b Hb]; [simpl; by rewrite Hl|].
  destruct (pi_heap _ _ _ Hinv l b Hb) as (a2 & Ha2 & Hbal & Hrange). simpl in *. simplify_eq.
  destruct (account_debit_ok a (dr_Amount req) a') as [Hle ->]; [done|lia|done|].
  destruct Hinv; constructor; simpl in *; try done.
  - intros x y rx px ry py [(-> & -> & ->)|[? Hx]]%thread_update
      [(-> & -> & ->)|[? Hy]]%thread_update; eauto.
  - intros x r q [(-> & -> & ->)|[? Hx]]%thread_update Hq; eauto.
  - by constructor.
  - intros r [->|Hr]%elem_of_cons.
    + right. exists i. by rewrite list_lookup_insert_eq by eauto using lookup_lt_Some.
    + destruct (pi_log_status0 r Hr) as [?|[j Hj]]; [by left|]. right. exists j.
      rewrite list_lookup_insert_ne; [done|]. congruence.
  - intros x r [(-> & -> & _)|[? Hx]]%thread_update; [left|right; eauto].
  - intros k rec [?|?]%pi_done0; [by left|right; by right].
  - intros x r v [(-> & -> & ?)|[? Hx]]%thread_update; [done|].
    destruct (pi_resp0 x r v Hx); [by left|right; by right].
  - intros m c Hm. destruct (decide (m = l)) as [->|Hne].
    + rewrite lookup_insert_eq. eexists. split; [done|]. unfold debited. simpl.
      rewrite decide_True by done. simplify_eq. unfold debited in Hbal. simpl. lia.
    + rewrite lookup_insert_ne by done. destruct (pi_heap0 m c Hm) as (c' & Hc' & ? & ?).
      exists c'. split; [done|]. split; [|done]. unfold debited in *. simpl.
      rewrite decide_False by congruence. lia.
  - intros m. rewrite lookup_insert_is_Some'. intros [<-|?]; eauto.
  - intros x r q [(-> & -> & ?)|[? Hx]]%thread_update; eauto.
  - intros r [->|Hr]%elem_of_cons; [|eauto]. intros [rec Hk]%pi_before0. congruence.
Qed.

Ltac pmove := eapply pinv_move; [eassumption|eassumption|done..].

Lemma pinv_step s s' : pinv done0 h0 s → pstep s s' → pinv done0 h0 s'.
Proof.
  intros Hinv Hst. revert Hinv. destruct Hst as [w ts i req p w' p' Hi Hs]. intros Hinv.
  unfold debit_step in Hs.
  destruct p as [| | |e|r]; [| | | |done].
  - destruct (String.eqb _ _); [simplify_eq; pmove|].
    destruct (status (pw_store w) (dr_IdempotencyKey req)) as [| |rec] eqn:Es.
    + destruct (reserve_free _ _ Es) as [Ho Hst].
      pose proof (fun k => reserve_other (pw_store w) (dr_IdempotencyKey req) k) as Hoth.
      destruct (Reserve _ _) as [st r]. simpl in *. subst r. simplify_eq.
      by apply pinv_reserve_owned.
    + rewrite (reserve_pending _ _ Es) in Hs. simplify_eq. destruct w. pmove.
    + rewrite (reserve_done _ _ _ Es) in Hs. simplify_eq. destruct w. apply pinv_found; eauto.
  - destruct (pw_accounts w !! dr_AccountID req) as [l|] eqn:Ea; [|simplify_eq; pmove].
    destruct (pw_heap w !! l) as [a|] eqn:El; [|done].
    destruct (Account_Debit a (dr_Amount req)) as [a' [e|]] eqn:Ed; simplify_eq;
      [pmove|by eapply pinv_debit].
  - simplify_eq. eapply pinv_complete; eauto using complete_key, complete_other.
  - simplify_eq. eapply pinv_release; eauto using release_other. apply release_key.
    by eapply (pi_status _ _ _ Hinv i).
Qed.
End debit_inv.

(** ** Properties *)

Section debit_props.
Context {S : Type} `{IdemStore S}.

(** A start state: no key in flight, accounts well-formed, no debit logged. *)
Definition start_ok (w : pworld S) (reqs : list DebitRequest) : Prop :=
  (∀ k, status (pw_store w) k ≠ KPending) ∧ pw_log w = [] ∧
  (∀ l a, pw_heap w !! l = Some a → 0 ≤ acc_balance a < 2 ^ 63) ∧
  Forall (fun r => in_i64 (dr_Amount r)) reqs.

Lemma pinv_init w reqs : start_ok w reqs →
  pinv (fun k => ∃ rec, status (pw_store w) k = KDone rec) (pw_heap w) (pinit w reqs).
Proof.
  intros (Hp & Hlog & Hh & Hamt).
  assert (∀ i r p, (pinit w reqs).2 !! i = Some (r, p) → p = DStart ∧ r ∈ reqs) as Hth.
  { intros i r p (x & [= -> ->] & Hx)%list_lookup_fmap_Some. eauto using list_elem_of_lookup_2. }
  constructor; simpl in *; rewrite ?Hlog; try (by intros ? ?%not_elem_of_nil).
  - intros i j ri pi rj pj [-> _]%Hth. done.
  - intros i r p [-> _]%Hth. done.
  - constructor.
  - intros i r [? _]%Hth. done.
  - eauto.
  - intros i r v [? _]%Hth. done.
  - intros l a Hl. exists a. unfold debited. simpl. split; [done|]. split; [lia|eauto].
  - done.
  - intros i r p [_ ?]%Hth. by eapply (proj1 (Forall_forall _ _) Hamt).
  - done.
Qed.

Lemma pinv_reach w reqs s : start_ok w reqs → rtc pstep (pinit w reqs) s →
  pinv (fun k => ∃ rec, status (pw_store w) k = KDone rec) (pw_heap w) s.
Proof.
  intros Hok Hr. eapply rtc_invariant; [|exact Hr|by apply pinv_init].
  intros x y Hx Hxy. by eapply pinv_step.
Qed.

(** C6: exactly-once debits.  However requests and their retries interleave,
for every idempotency key at most one debit is ever applied, none for a key
completed before, a request that returns a response has had exactly that one
debit applied (or replays an earlier completion), and every balance equals its
initial value less the debits logged for the account: no retry debits twice. *)
Theorem Debit_exactly_once (w : pworld S) reqs s :
  start_ok w reqs → rtc pstep (pinit w reqs) s →
  NoDup (dr_IdempotencyKey <$> pw_log s.1) ∧
  (∀ k rec, status (pw_store w) k = KDone rec → k ∉ dr_IdempotencyKey <$> pw_log s.1) ∧
  (∀ i r v, s.2 !! i = Some (r, DDone (Ok v)) →
     (∃ rec, status (pw_store w) (dr_IdempotencyKey r) = KDone rec) ∨
     dr_IdempotencyKey r ∈ dr_IdempotencyKey <$> pw_log s.1) ∧
  (∀ l a, pw_heap w !! l = Some a → ∃ a', pw_heap s.1 !! l = Some a' ∧
     acc_balance a' = acc_balance a - debited (pw_accounts s.1) l (pw_log s.1) ∧
     0 ≤ acc_balance a').
Proof.
  intros Hok Hr. pose proof (pinv_reach _ _ _ Hok Hr) as Hinv. split_and!.
  - apply (pi_log_nodup _ _ _ Hinv).
  - intros k rec Hk (r & -> & Hlog)%list_elem_of_fmap. apply (pi_fresh _ _ _ Hinv r Hlog). eauto.
  - intros i r v Hi. apply (pi_resp _ _ _ Hinv i r v Hi).
  - intros l a Hl. destruct (pi_heap _ _ _ Hinv l a Hl) as (a' & ? & ? & [? _]). eauto.
Qed.

(** A retry with the key of a completed request returns the stored status
and changes nothing, whatever account and amount it names. *)
Theorem Debit_replay (w : pworld S) req rec :
  dr_IdempotencyKey req ≠ ""%string →
  status (pw_store w) (dr_IdempotencyKey req) = KDone rec →
  Debit req w = Some (w, Ok (mkResp (rec_Body rec))).
Proof.
  intros Hk Hs. unfold Debit. simpl.
  destruct (String.eqb_spec (dr_IdempotencyKey req) ""); [done|].
  rewrite (reserve_done _ _ _ Hs). by destruct w.
Qed.

(** A [Debit] that fails on the account releases its key, so the client may
retry: the key is free again and no account changed. *)
Theorem Debit_failure_releases (w : pworld S) req w' e :
  status (pw_store w) (dr_IdempotencyKey req) = KFree →
  Debit req w = Some (w', Err e) →
  pw_heap w' = pw_heap w ∧ status (pw_store w') (dr_IdempotencyKey req) = KFree.
Proof.
  intros Hs. unfold Debit. simpl.
  destruct (String.eqb _ _); [by intros [= <- <-]|].
  destruct (reserve_free _ _ Hs) as [Ho Hst]. destruct (Reserve _ _) as [st r]. simpl in *. subst r.
  intros HD. repeat (case_match; simplify_eq/=); (split; [done|]; by apply release_key).
Qed.
End debit_props.

(** ** Witnesses, on MemStore *)

Definition ww : pworld MemStore :=
  mkPW NewMemStore {[ "acc" := 0%nat ]} {[ 0%nat := mkAccount "acc" 100 ]} [].
Definition wreqs : list DebitRequest := [mkReq "k1" "acc" 30; mkReq "k1" "acc" 30; mkReq "k2" "acc" 90].

Lemma ww_ok : start_ok ww wreqs.
Proof.
  split_and!; [done|done| |].
  - intros l a Hl. cbn [ww pw_heap] in Hl. apply lookup_singleton_Some in Hl as [<- <-]. simpl. lia.
  - repeat (constructor; [split; vm_compute; done|]). constructor.
Qed.

(** The first request is interrupted by its own retry, which is told to wait. *)
Definition wps : pstate MemStore :=
  (mkPW (mkMem {[ "k1" := mkRecord "k1" "debited" ]} ∅) {[ "acc" := 0%nat ]}
     {[ 0%nat := mkAccount "acc" 70 ]} [mkReq "k1" "acc" 30],
   [(mkReq "k1" "acc" 30, DDone (Ok (mkResp "debited")));
    (mkReq "k1" "acc" 30, DDone (Err ErrInProgress));
    (mkReq "k2" "acc" 90, DStart)]).

Lemma wps_reach : rtc pstep (pinit ww wreqs) wps.
Proof.
  eapply rtc_l. { by eapply (pstep_intro _ _ 0%nat). }
  eapply rtc_l. { by eapply (pstep_intro _ _ 1%nat). }
  eapply rtc_l. { by eapply (pstep_intro _ _ 0%nat). }
  eapply rtc_l. { by eapply (pstep_intro _ _ 0%nat). }
  apply rtc_refl.
Qed.

Lemma Debit_exactly_once_witness :
  NoDup (dr_IdempotencyKey <$> pw_log wps.1) ∧
  ∃ a', pw_heap wps.1 !! 0%nat = Some a' ∧
     acc_balance a' = 100 - debited (pw_accounts wps.1) 0%nat (pw_log wps.1) ∧ 0 ≤ acc_balance a'.
Proof.
  destruct (Debit_exactly_once ww wreqs wps ww_ok wps_reach) as (H1 & _ & _ & H4).
  split; [exact H1|]. exact (H4 0%nat (mkAccount "acc" 100) eq_refl).
Defined.

Lemma Debit_replay_witness :
  Debit (mkReq "k1" "acc" 30) wps.1 = Some (wps.1, Ok (mkResp "debited")).
Proof. apply (Debit_replay wps.1 (mkReq "k1" "acc" 30) (mkRecord "k1" "debited")); done. Defined.

Lemma Debit_failure_releases_witness :
  ∃ w', Debit (mkReq "k3" "acc" 900) ww = Some (w', Err (ErrLedger ErrInsufficientFunds)) ∧
    pw_heap w' = pw_heap ww ∧ status (pw_store w') "k3" = KFree.
Proof.
  eexists. split; [reflexivity|].
  apply (Debit_failure_releases ww (mkReq "k3" "acc" 900) _ (ErrLedger ErrInsufficientFunds));
    reflexivity.
Defined.
