(* ===== verification/Saga.v ===== *)
(** * fintech-ledger-go: withdrawal saga and retrying gateway client

[saga.WithdrawToBank] against an arbitrary bank client, and
[gateway.CallWithRetry] against an arbitrary remote call. *)

From Stdlib Require Import ZArith Lia.
From stdpp Require Import base gmap strings list fin_maps.
From S2P Require Import Prelude Ledger.

Open Scope Z_scope.

(* [base] fintech-ledger-go/internal *)

(** ** saga *)

(** The [BankClient] interface is implemented outside this repository: its state
[B], its errors [E] and its two methods are parameters. *)
(* [go] saga/withdraw.go:14-17 BankClient *)
Record BankClient (B E : Type) : Type := mkBank {
  Payout : B → string → string → Paise → B * option E;
  ReversePayout : B → string → B * option E }.
Arguments Payout {B E}.
Arguments ReversePayout {B E}.

Inductive saga_err (E : Type) : Type :=
| LedgerE (e : ledger_err)
| BankE (e : E)
| RolledBack (step : string) (e : saga_err E)
| CompensationFailed (step : string) (e : saga_err E) (comp : string) (ce : saga_err E).
Arguments LedgerE {E}.
Arguments BankE {E}.
Arguments RolledBack {E}.
Arguments CompensationFailed {E}.

Section saga.
Context {B E : Type}.

(** The world a saga acts on: the wallet account and the bank. *)
Definition world : Type := Account * B.

(* [go] saga/withdraw.go:19-23 step *)
Record saga_step : Type := mkStep {
  st_name : string;
  st_do : world → world * option (saga_err E);
  st_compensate : world → world * option (saga_err E) }.

(** The compensation loop [for i := len(completed)-1; i >= 0; i--]; [completed]
is kept newest first. *)
(* [go] saga/withdraw.go:58-63 WithdrawToBank *)
Fixpoint compensate_all (w : world) (name : string) (err : saga_err E) (completed : list saga_step)
  : world * saga_err E :=
  match completed with
  | [] => (w, RolledBack name err)
  | c :: rest =>
      match st_compensate c w with
      | (w', Some ce) => (w', CompensationFailed name err (st_name c) ce)
      | (w', None) => compensate_all w' name err rest
      end
  end.

(* [go] saga/withdraw.go:55-67 WithdrawToBank *)
Fixpoint run_steps (w : world) (steps completed : list saga_step) : world * option (saga_err E) :=
  match steps with
  | [] => (w, None)
  | s :: rest =>
      match st_do s w with
      | (w', Some err) =>
          let '(w'', e) := compensate_all w' (st_name s) err completed in (w'', Some e)
      | (w', None) => run_steps w' rest (s :: completed)
      end
  end.

Definition on_account (f : Account → Account * option ledger_err) (w : world)
  : world * option (saga_err E) :=
  let '(a, r) := f w.1 in ((a, w.2), LedgerE <$> r).

Definition on_bank (f : B → B * option E) (w : world) : world * option (saga_err E) :=
  let '(b, r) := f w.2 in ((w.1, b), BankE <$> r).

(* [go] saga/withdraw.go:37-53 WithdrawToBank *)
Definition withdraw_steps (bank : BankClient B E) (key bankAccountNo : string) (amt : Paise)
  : list saga_step :=
  [ mkStep "debit_wallet" (on_account (fun a => Account_Debit a amt))
      (on_account (fun a => Account_Credit a amt));
    mkStep "payout_to_bank" (on_bank (fun b => Payout bank b key bankAccountNo amt))
      (on_bank (fun b => ReversePayout bank b key)) ].

(* [go] saga/withdraw.go:37-68 WithdrawToBank *)
Definition WithdrawToBank (w : world) (bank : BankClient B E) (key bankAccountNo : string)
  (amt : Paise) : world * option (saga_err E) :=
  run_steps w (withdraw_steps bank key bankAccountNo amt) [].
End saga.
Arguments world B : clear implicits.
Arguments saga_step B E : clear implicits.

(** The worlds a list of compensations passes through, all succeeding. *)
Inductive compensates {B E} : list (saga_step B E) → world B → world B → Prop :=
| compensates_nil w : compensates [] w w
| compensates_cons c cs w w' w'' :
    st_compensate c w = (w', None) → compensates cs w' w'' → compensates (c :: cs) w w''.

(** The worlds a list of steps passes through, all succeeding. *)
Inductive performs {B E} : list (saga_step B E) → world B → world B → Prop :=
| performs_nil w : performs [] w w
| performs_cons s ss w w' w'' :
    st_do s w = (w', None) → performs ss w' w'' → performs (s :: ss) w w''.

(** ** gateway.CallWithRetry *)

(** Go errors as this package builds and inspects them. *)
Inductive gerr : Type :=
| GErr (msg : string)
| GRetryable (e : gerr)
| GWrap (msg : string) (e : gerr)
| GJoin (e1 e2 : gerr)
| ErrMaxRetriesExceeded
| ErrContext.

(** [errors.As(err, &re)] walks the Unwrap tree looking for a retryableError. *)
(* [go] gateway/client.go:71-74 isRetryable *)
Fixpoint isRetryable (e : gerr) : bool :=
  match e with
  | GRetryable _ => true
  | GWrap _ e' => isRetryable e'
  | GJoin e1 e2 => isRetryable e1 || isRetryable e2
  | _ => false
  end.

(* [go] gateway/client.go:69-69 Retryable *)
Definition Retryable (e : gerr) : gerr := GRetryable e.

(** Durations are int64 nanoseconds. *)
(* [go] gateway/client.go:14-18 RetryConfig *)
Record RetryConfig : Type := mkRetry {
  rc_MaxAttempts : Z; rc_BaseDelay : Z; rc_MaxDelay : Z }.

(* [go] gateway/client.go:20-22 DefaultRetryConfig *)
Definition DefaultRetryConfig : RetryConfig := mkRetry 5 (200 * 10 ^ 6) (5 * 10 ^ 9).

(** [rnd n] is the value drawn by [rand.Int63n(n)], which panics for [n <= 0]. *)
(* [go] gateway/client.go:53-59 backoff *)
Definition backoff (rnd : Z → Z) (cfg : RetryConfig) (attempt : Z) : option Z :=
  let d0 := i64 (Z.shiftl (rc_BaseDelay cfg) (attempt - 1)) in
  let d := if (d0 <=? 0) || (d0 >? rc_MaxDelay cfg) then rc_MaxDelay cfg else d0 in
  let n := i64 (Z.quot d 2 + 1) in
  if n <=? 0 then None else Some (i64 (Z.quot d 2 + rnd n)).

(** [call i] is the outcome of the i-th call and [cancelled i] tells whether the
context ends the i-th wait.  The loop runs [left] more attempts, [attempt] being
the loop counter; the result is paired with the number of calls made. *)
(* [go] gateway/client.go:32-51 CallWithRetry *)
Fixpoint retry_loop (call : nat → option gerr) (cancelled : nat → bool)
  (left attempt : nat) (lastErr : option gerr) : option gerr * nat :=
  match left with
  | O => (Some (match lastErr with
                | Some e => GJoin ErrMaxRetriesExceeded e
                | None => ErrMaxRetriesExceeded end), attempt)
  | S left' =>
      if (0 <? attempt)%nat && cancelled attempt then (Some ErrContext, attempt) else
      match call attempt with
      | None => (None, S attempt)
      | Some e => if isRetryable e then retry_loop call cancelled left' (S attempt) (Some e)
                  else (Some e, S attempt)
      end
  end.

(* [go] gateway/client.go:32-51 CallWithRetry *)
Definition CallWithRetry (call : nat → option gerr) (cancelled : nat → bool) (cfg : RetryConfig)
  : option gerr * nat :=
  retry_loop call cancelled (Z.to_nat (rc_MaxAttempts cfg)) 0 None.

(** A call outcome that ends the loop. *)
Definition stops (o : option gerr) : bool :=
  match o with None => true | Some e => negb (isRetryable e) end.

(** ** Saga lemmas *)

Section saga_lemmas.
Context {B E : Type}.

Lemma compensate_all_spec (w w' : world B) name (err : saga_err E) completed :
  compensates completed w w' → compensate_all w name err completed = (w', RolledBack name err).
Proof. induction 1; simpl; [done|]. by rewrite H. Qed.

Lemma run_steps_performs (w w' : world B) (ss rest completed : list (saga_step B E)) :
  performs ss w w' →
  run_steps w (ss ++ rest) completed = run_steps w' rest (reverse ss ++ completed).
Proof.
  intros Hp. revert completed. induction Hp as [|s ss w w1 w2 Hs Hp IH]; intros completed; [done|].
  simpl. rewrite Hs, IH, reverse_cons, <- app_assoc. done.
Qed.
End saga_lemmas.

(** ** Properties *)

(** A saga whose first steps succeed and whose next step fails undoes exactly
the completed steps, in reverse order: the final world is the one their
compensations produce, last completed first, from the state the failing step
left, and the error names the failing step and its cause. *)
Theorem saga_compensates_in_reverse {B E} (ss : list (saga_step B E)) s rest w w1 w2 w3 err :
  performs ss w w1 → st_do s w1 = (w2, Some err) → compensates (reverse ss) w2 w3 →
  run_steps w (ss ++ s :: rest) [] = (w3, Some (RolledBack (st_name s) err)).
Proof.
  intros Hp Hs Hc. rewrite (run_steps_performs _ _ _ _ _ Hp), app_nil_r. simpl. rewrite Hs.
  by rewrite (compensate_all_spec _ _ _ _ _ Hc).
Qed.

(** C34: [WithdrawToBank] on a valid wallet balance and amount.  It debits the
wallet exactly when the payout is accepted: an amount that is negative or above
the balance never reaches the bank, a refused payout leaves the balance as it
was, a compensation never fails, and [ReversePayout] is never called. *)
Theorem WithdrawToBank_correct {B E} (bank : BankClient B E) a b key no amt :
  0 ≤ acc_balance a < 2 ^ 63 → in_i64 amt →
  WithdrawToBank (a, b) bank key no amt =
    if amt <? 0 then ((a, b), Some (RolledBack "debit_wallet" (LedgerE ErrNegativeAmount)))
    else if acc_balance a <? amt
    then ((a, b), Some (RolledBack "debit_wallet" (LedgerE ErrInsufficientFunds)))
    else match Payout bank b key no amt with
         | (b', None) => ((mkAccount (acc_ID a) (acc_balance a - amt), b'), None)
         | (b', Some e) => ((a, b'), Some (RolledBack "payout_to_bank" (BankE e)))
         end.
Proof.
  intros Hb [_ Ha]. unfold WithdrawToBank, withdraw_steps. simpl. unfold on_account, on_bank. simpl.
  unfold Account_Debit, Account_Credit, Paise_IsNegative.
  destruct (Z.ltb_spec amt 0); simpl; [done|].
  destruct (account_debit a amt) as [a' [e|]] eqn:Ed; simpl.
  - destruct (account_debit_err a amt a' e) as (? & -> & ->); [done|lia|done|].
    by destruct (Z.ltb_spec (acc_balance a) amt); [|lia].
  - destruct (account_debit_ok a amt a') as [? ->]; [done|lia|done|].
    destruct (Z.ltb_spec (acc_balance a) amt); [lia|].
    destruct (Payout bank b key no amt) as [b' [e|]]; simpl; [|done].
    destruct (Z.ltb_spec amt 0); [lia|]. simpl. unfold account_credit, Paise_Add. simpl.
    replace (acc_balance a - amt + amt) with (acc_balance a) by lia.
    rewrite i64_small by width. by destruct a.
Qed.

(** While no call stops the loop, it goes on with the last error. *)
Lemma retry_loop_skip call cancelled k left attempt lastErr :
  (∀ i, cancelled i = false) →
  (∀ i, (attempt ≤ i < attempt + k)%nat → stops (call i) = false) →
  retry_loop call cancelled (k + left) attempt lastErr =
  retry_loop call cancelled left (attempt + k) (if k is S k' then call (attempt + k')%nat else lastErr).
Proof.
  intros Hc. revert attempt lastErr. induction k as [|k IH]; intros attempt lastErr Hk; simpl.
  { by rewrite Nat.add_0_r. }
  rewrite Hc, andb_false_r. pose proof (Hk attempt ltac:(lia)) as Hs. unfold stops in Hs.
  destruct (call attempt) as [e|] eqn:Ec; [|done]. apply negb_false_iff in Hs. rewrite Hs.
  rewrite IH by (intros; apply Hk; lia).
  replace (S attempt + k)%nat with (attempt + S k)%nat by lia. f_equal.
  destruct k as [|k]; [by rewrite Nat.add_0_r, Ec|].
  by replace (S attempt + k)%nat with (attempt + S k)%nat by lia.
Qed.

Lemma retry_loop_calls call cancelled left attempt lastErr :
  ((retry_loop call cancelled left attempt lastErr).2 ≤ attempt + left)%nat.
Proof.
  revert attempt lastErr. induction left as [|left IH]; intros attempt lastErr; simpl; [lia|].
  repeat case_match; simpl; try lia. etrans; [apply IH|lia].
Qed.

(** [CallWithRetry] makes at most [MaxAttempts] calls, cancelled or not.
Without cancellation, if the first call that succeeds or fails with a
non-retryable error is the k-th, its outcome is returned after exactly k+1
calls when k is below [MaxAttempts]; otherwise all [MaxAttempts] attempts are
made and the result is [ErrMaxRetriesExceeded] joined with the last error. *)
Theorem CallWithRetry_correct call cancelled cfg k :
  (∀ i, cancelled i = false) →
  (∀ i, (i < k)%nat → stops (call i) = false) → stops (call k) = true →
  CallWithRetry call cancelled cfg =
    (if Z.of_nat k <? rc_MaxAttempts cfg then (call k, S k)
     else (Some (match Z.to_nat (rc_MaxAttempts cfg) with
                 | S l => match call l with
                          | Some e => GJoin ErrMaxRetriesExceeded e
                          | None => ErrMaxRetriesExceeded end
                 | O => ErrMaxRetriesExceeded end), Z.to_nat (rc_MaxAttempts cfg))) ∧
  ∀ cancelled', ((CallWithRetry call cancelled' cfg).2 ≤ Z.to_nat (rc_MaxAttempts cfg))%nat.
Proof.
  intros Hc Hk Hs. unfold CallWithRetry. split; [|intros; apply retry_loop_calls].
  destruct (Z.ltb_spec (Z.of_nat k) (rc_MaxAttempts cfg)) as [Hlt|Hge].
  - replace (Z.to_nat (rc_MaxAttempts cfg)) with (k + S (Z.to_nat (rc_MaxAttempts cfg) - S k))%nat by lia.
    rewrite retry_loop_skip by (intros; try apply Hk; auto with lia). simpl.
    rewrite Hc, andb_false_r. unfold stops in Hs.
    destruct (call k) as [e|]; [|done]. apply negb_true_iff in Hs. by rewrite Hs.
  - set (n := Z.to_nat (rc_MaxAttempts cfg)). assert (n ≤ k)%nat by lia.
    rewrite <- (Nat.add_0_r n) at 1.
    rewrite retry_loop_skip by (intros; try apply Hk; auto with lia). simpl.
    destruct n as [|l]; [done|]. done.
Qed.

(** The back-off delay never panics and stays within [0, MaxDelay], for every
base delay and attempt, even when the shift overflows or wraps around. *)
Theorem backoff_bounds rnd cfg attempt :
  1 ≤ attempt → 0 < rc_MaxDelay cfg < 2 ^ 63 → (∀ n, 0 < n → 0 ≤ rnd n < n) →
  ∃ d, backoff rnd cfg attempt = Some d ∧ 0 ≤ d ≤ rc_MaxDelay cfg.
Proof.
  intros Hatt Hmax Hrnd. unfold backoff.
  set (d0 := i64 (Z.shiftl _ _)). set (d := if _ || _ then _ else _).
  assert (0 < d ≤ rc_MaxDelay cfg) as Hd.
  { unfold d. destruct (d0 <=? 0) eqn:E1, (d0 >? rc_MaxDelay cfg) eqn:E2; simpl; zbool; lia. }
  clearbody d. assert (Z.quot d 2 = d / 2) as -> by (apply Z.quot_div_nonneg; lia).
  assert (d = 2 * (d / 2) + d mod 2) by (apply Z.div_mod; lia).
  pose proof (Z.mod_pos_bound d 2 ltac:(lia)).
  rewrite (i64_small (d / 2 + 1)) by width.
  destruct (Z.leb_spec (d / 2 + 1) 0); [lia|].
  pose proof (Hrnd (d / 2 + 1) ltac:(lia)). rewrite i64_small by width.
  eexists. split; [done|]. lia.
Qed.

(** ** Witnesses *)

(** A bank that keeps the list of accepted payouts and refuses account "bad". *)
Definition wbank : BankClient (list (string * Paise)) string :=
  mkBank (list (string * Paise)) string
    (fun b key no amt => if String.eqb no "bad" then (b, Some "refused"%string)
                         else ((key, amt) :: b, None))
    (fun b key => (filter (fun p => p.1 ≠ key) b, None)).

Lemma saga_compensates_in_reverse_witness :
  run_steps (mkAccount "w" 100, []) (withdraw_steps wbank "k" "bad" 40) [] =
    ((mkAccount "w" 100, []), Some (RolledBack "payout_to_bank" (BankE "refused"%string))).
Proof.
  apply (saga_compensates_in_reverse (take 1 (withdraw_steps wbank "k" "bad" 40))
    (mkStep "payout_to_bank" (on_bank (fun b => Payout wbank b "k" "bad" 40))
       (on_bank (fun b => ReversePayout wbank b "k"))) []
    (mkAccount "w" 100, []) (mkAccount "w" 60, []) (mkAccount "w" 60, []) (mkAccount "w" 100, [])).
  - eapply performs_cons; [reflexivity|constructor].
  - reflexivity.
  - eapply compensates_cons; [reflexivity|constructor].
Defined.

Lemma WithdrawToBank_correct_witness :
  WithdrawToBank (mkAccount "w" 100, []) wbank "k" "123" 40 =
    ((mkAccount "w" 60, [("k"%string, 40)]), None).
Proof.
  rewrite (WithdrawToBank_correct wbank (mkAccount "w" 100) [] "k" "123" 40);
    [reflexivity|simpl; lia|split; vm_compute; done].
Defined.

Definition wcall (i : nat) : option gerr :=
  if (i <? 2)%nat then Some (Retryable (GErr "timeout")) else None.

Lemma CallWithRetry_correct_witness :
  CallWithRetry wcall (fun _ => false) DefaultRetryConfig = (None, 3%nat) ∧
  ((CallWithRetry wcall (fun i => (i =? 1)%nat) DefaultRetryConfig).2 ≤ 5)%nat.
Proof.
  destruct (CallWithRetry_correct wcall (fun _ => false) DefaultRetryConfig 2) as [H1 H2].
  - done.
  - intros [|[|i]] Hi; [reflexivity..|lia].
  - reflexivity.
  - split; [exact H1|exact (H2 (fun i => (i =? 1)%nat))].
Defined.

Lemma backoff_bounds_witness :
  ∃ d, backoff (fun n => n - 1) DefaultRetryConfig 40 = Some d ∧ 0 ≤ d ≤ 5 * 10 ^ 9.
Proof.
  apply (backoff_bounds (fun n => n - 1) DefaultRetryConfig 40); simpl; intros; lia.
Defined.
