(* ===== verification/Partition.v ===== *)
(** * fintech-ledger-go: account shards and the reconciliation worker pool

Both are goroutine systems over channels, modelled as step relations: the
shard's single owner goroutine with its 64-slot command channel, and the fixed
pool of reconciliation workers fed by one producer. *)

From Stdlib Require Import ZArith Lia.
From stdpp Require Import base gmap strings list fin_maps relations.
From S2P Require Import Prelude Ledger.

Open Scope Z_scope.

(* [base] fintech-ledger-go/internal *)

(** ** partition.Shard *)

(** [done] is the caller's reply channel, named by the index of the call. *)
(* [go] partition/shard.go:16-20 command *)
Record command : Type := mkCmd {
  cmd_accountID : string; cmd_fn : Account → Account; cmd_done : nat }.

(* [go] partition/shard.go:14-14 ErrUnknownAccount *)
Inductive shard_err : Type := ErrUnknownShardAccount.

(** [sh_replies] holds what was sent on each [done] channel before it was
closed: [Some err] or, for a plain close, [None]. *)
(* [go] partition/shard.go:31-34 Shard *)
Record Shard : Type := mkShard {
  sh_accounts : gmap string Account;
  sh_commands : list command;
  sh_replies : gmap nat (option shard_err) }.

(* [go] partition/shard.go:36-44 NewShard *)
Definition NewShard (accounts : list Account) : Shard :=
  mkShard (foldl (fun m a => <[acc_ID a := a]> m) ∅ accounts) [] ∅.

(** One iteration of the owner goroutine's loop. *)
(* [go] partition/shard.go:46-57 Shard.run *)
Definition Shard_run1 (s : Shard) : option Shard :=
  match sh_commands s with
  | [] => None
  | cmd :: rest =>
      match sh_accounts s !! cmd_accountID cmd with
      | None => Some (mkShard (sh_accounts s) rest
                        (<[cmd_done cmd := Some ErrUnknownShardAccount]> (sh_replies s)))
      | Some acc => Some (mkShard (<[cmd_accountID cmd := cmd_fn cmd acc]> (sh_accounts s)) rest
                            (<[cmd_done cmd := None]> (sh_replies s)))
      end
  end.

(** The send of [Do]: it blocks while the channel buffer is full. *)
(* [go] partition/shard.go:64-70 Shard.Do *)
Definition Shard_send (s : Shard) (cmd : command) : option Shard :=
  if (length (sh_commands s) <? 64)%nat
  then Some (mkShard (sh_accounts s) (sh_commands s ++ [cmd]) (sh_replies s)) else None.

(** The receive of [Do]: [None] while no reply has been sent. *)
(* [go] partition/shard.go:71-77 Shard.Do *)
Definition Shard_recv (s : Shard) (cmd : command) : option (option shard_err) :=
  sh_replies s !! cmd_done cmd.

(** Callers and the owner goroutine run concurrently; [sent] records the
commands in the order in which they entered the channel. *)
Inductive shard_step : relation (list command * Shard) :=
| shard_step_send sent s cmd s' : cmd_done cmd ∉ cmd_done <$> sent →
    Shard_send s cmd = Some s' → shard_step (sent, s) (sent ++ [cmd], s')
| shard_step_run sent s s' : Shard_run1 s = Some s' → shard_step (sent, s) (sent, s').

(** The sequential meaning of a list of commands. *)
Definition exec_cmd (m : gmap string Account) (cmd : command) : gmap string Account :=
  match m !! cmd_accountID cmd with
  | Some a => <[cmd_accountID cmd := cmd_fn cmd a]> m
  | None => m
  end.

(** The reply a command must get. *)
Definition expected_reply (m : gmap string Account) (cmd : command) : option shard_err :=
  if m !! cmd_accountID cmd is Some _ then None else Some ErrUnknownShardAccount.

(** ** partition.Ring *)

(* [go] partition/shard.go:89-95 Ring *)
Definition PRing : Type := list Shard.

(** Indexing with a zero length divides by zero: [None] is the panic. *)
(* [go] partition/shard.go:97-101 Ring.ShardFor *)
Definition ShardFor (ring_len : nat) (accountID : string) : option nat :=
  if (ring_len =? 0)%nat then None
  else Some (Z.to_nat (fnv32a accountID mod (u32 (Z.of_nat ring_len)))).

(** ** reconciliation.Reconcile *)

(* [go] reconciliation/worker.go:10-13 Transaction *)
Record Transaction : Type := mkTxn { txn_ID : string; txn_Amount : Z }.

Inductive rec_err : Type :=
| ErrProcess (msg : string)
| ErrCtx.

(* [go] reconciliation/worker.go:15-18 Result *)
Record RecResult : Type := mkRes { res_TxnID : string; res_Err : option rec_err }.

(** A worker: waiting for a job, holding a job it received, holding a result it
is about to send, or returned. *)
Inductive worker : Type :=
| WIdle
| WGot (t : Transaction)
| WSend (r : RecResult)
| WExited.

#[global] Instance Transaction_eq_dec : EqDecision Transaction.
Proof. solve_decision. Defined.
#[global] Instance rec_err_eq_dec : EqDecision rec_err.
Proof. solve_decision. Defined.
#[global] Instance RecResult_eq_dec : EqDecision RecResult.
Proof. solve_decision. Defined.
#[global] Instance worker_eq_dec : EqDecision worker.
Proof. solve_decision. Defined.

(** [rc_todo] is what the producer has still to send, [rc_closed] tells whether
[jobs] is closed, [rc_out] the results received, [rc_ctx] whether the context
is done. *)
Record rstate : Type := mkRS {
  rc_todo : list Transaction;
  rc_closed : bool;
  rc_workers : list worker;
  rc_out : list RecResult;
  rc_ctx : bool }.

Section reconcile.
Context (process : Transaction → option rec_err).

(* [go] reconciliation/worker.go:26-69 Reconcile *)
Inductive rstep : relation rstate :=
| R_handoff t todo ws i out c :         (** jobs <- t, received by worker i *)
    ws !! i = Some WIdle →
    rstep (mkRS (t :: todo) false ws out c) (mkRS todo false (<[i := WGot t]> ws) out c)
| R_stop todo ws out :                  (** <-ctx.Done(): the producer returns *)
    rstep (mkRS todo false ws out true) (mkRS todo true ws out true)
| R_close ws out c :                    (** the producer has sent everything *)
    rstep (mkRS [] false ws out c) (mkRS [] true ws out c)
| R_skip t todo cl ws i out :           (** ctx.Err() != nil *)
    ws !! i = Some (WGot t) →
    rstep (mkRS todo cl ws out true)
          (mkRS todo cl (<[i := WSend (mkRes (txn_ID t) (Some ErrCtx))]> ws) out true)
| R_process t todo cl ws i out :        (** process(ctx, txn) *)
    ws !! i = Some (WGot t) →
    rstep (mkRS todo cl ws out false)
          (mkRS todo cl (<[i := WSend (mkRes (txn_ID t) (process t))]> ws) out false)
| R_send r todo cl ws i out c :         (** results <- r, received by the caller *)
    ws !! i = Some (WSend r) →
    rstep (mkRS todo cl ws out c) (mkRS todo cl (<[i := WIdle]> ws) (out ++ [r]) c)
| R_exit todo ws i out c :              (** range over a closed channel ends *)
    ws !! i = Some WIdle →
    rstep (mkRS todo true ws out c) (mkRS todo true (<[i := WExited]> ws) out c)
| R_cancel todo cl ws out :             (** the caller cancels the context *)
    rstep (mkRS todo cl ws out false) (mkRS todo cl ws out true).

(** [workers < 1] is replaced by 1. *)
(* [go] reconciliation/worker.go:26-46 Reconcile *)
Definition Reconcile_init (txns : list Transaction) (workers : Z) (ctx : bool) : rstate :=
  mkRS txns false (replicate (Z.to_nat (if workers <? 1 then 1 else workers)) WIdle) [] ctx.

(** [wg.Wait] returns, [results] is closed and [Reconcile] returns [rc_out]. *)
Definition rfinal (s : rstate) : Prop :=
  rc_closed s = true ∧ Forall (eq WExited) (rc_workers s).

(** The jobs and results the workers hold. *)
Definition in_hand (ws : list worker) : list RecResult :=
  omap (fun w => match w with
                 | WGot t => Some (mkRes (txn_ID t) (process t))
                 | WSend r => Some r
                 | _ => None end) ws.

Definition hand_ids (ws : list worker) : list string :=
  omap (fun w => match w with WGot t => Some (txn_ID t) | WSend r => Some (res_TxnID r)
                            | _ => None end) ws.

(** Work left: strictly decreasing along every step. *)
Definition wweight (w : worker) : nat :=
  match w with WIdle => 1 | WGot _ => 3 | WSend _ => 2 | WExited => 0 end.
Definition rmeasure (s : rstate) : nat :=
  (4 * length (rc_todo s) + (if rc_closed s then 0 else 1) + (if rc_ctx s then 0 else 1) +
   sum_list (wweight <$> rc_workers s))%nat.
End reconcile.

(** ** Shard lemmas *)

Lemma exec_cmd_dom m cmd id : is_Some (exec_cmd m cmd !! id) ↔ is_Some (m !! id).
Proof.
  unfold exec_cmd. destruct (m !! cmd_accountID cmd) eqn:E; [|done].
  rewrite lookup_insert_is_Some'. naive_solver.
Qed.

Lemma exec_cmds_dom m cmds id : is_Some (foldl exec_cmd m cmds !! id) ↔ is_Some (m !! id).
Proof.
  revert m. induction cmds as [|c cmds IH]; intros m; simpl; [done|]. by rewrite IH, exec_cmd_dom.
Qed.

Lemma expected_reply_dom m m' cmd :
  (is_Some (m !! cmd_accountID cmd) ↔ is_Some (m' !! cmd_accountID cmd)) →
  expected_reply m cmd = expected_reply m' cmd.
Proof.
  unfold expected_reply. rewrite <- !not_eq_None_Some. intros H.
  destruct (m !! _), (m' !! _); naive_solver.
Qed.

Record shard_inv (m0 : gmap string Account) (processed : list command)
  (st : list command * Shard) : Prop := {
  si_fifo : st.1 = processed ++ sh_commands st.2;
  si_nodup : NoDup (cmd_done <$> st.1);
  si_accounts : sh_accounts st.2 = foldl exec_cmd m0 processed;
  si_replied : ∀ cmd, cmd ∈ processed → sh_replies st.2 !! cmd_done cmd = Some (expected_reply m0 cmd);
  si_pending : ∀ n, n ∉ cmd_done <$> processed → sh_replies st.2 !! n = None }.

Lemma shard_inv_send m0 processed sent s cmd s' :
  shard_inv m0 processed (sent, s) → cmd_done cmd ∉ cmd_done <$> sent →
  Shard_send s cmd = Some s' → shard_inv m0 processed (sent ++ [cmd], s').
Proof.
  intros [H1 H2 H3 H4 H5] Hn Hs. unfold Shard_send in Hs. case_test; [|done]. simplify_eq/=.
  constructor; simpl; try done.
  - by rewrite app_assoc.
  - rewrite fmap_app. apply NoDup_app. split_and!; [done| |apply NoDup_singleton].
    intros x Hx ->%list_elem_of_singleton. done.
Qed.

Lemma shard_inv_run m0 processed sent s s' :
  shard_inv m0 processed (sent, s) → Shard_run1 s = Some s' →
  ∃ cmd, shard_inv m0 (processed ++ [cmd]) (sent, s').
Proof.
  intros [H1 H2 H3 H4 H5] Hs. unfold Shard_run1 in Hs. simpl in *.
  destruct (sh_commands s) as [|cmd rest] eqn:Ec; [done|]. exists cmd.
  assert (cmd_done cmd ∉ cmd_done <$> processed) as Hnew.
  { rewrite H1, fmap_app in H2. apply NoDup_app in H2 as (_ & Hd & _). intros Hin.
    apply (Hd _ Hin). left. }
  assert (s' = mkShard (exec_cmd (sh_accounts s) cmd) rest
    (<[cmd_done cmd := expected_reply m0 cmd]> (sh_replies s))) as ->.
  { rewrite (expected_reply_dom m0 (sh_accounts s)) by (by rewrite H3, exec_cmds_dom).
    unfold exec_cmd, expected_reply. by destruct (sh_accounts s !! _); simplify_eq. }
  constructor; simpl.
  - by rewrite H1, <- app_assoc.
  - done.
  - by rewrite foldl_app, H3.
  - intros c [Hc| ->%list_elem_of_singleton]%elem_of_app; [|by rewrite lookup_insert_eq].
    rewrite lookup_insert_ne; [by apply H4|]. intros He. apply Hnew. rewrite He.
    by apply list_elem_of_fmap_2.
  - intros n. rewrite fmap_app, not_elem_of_app. intros [Hn1 Hn2].
    rewrite lookup_insert_ne; [by apply H5|]. intros <-. apply Hn2. left.
Qed.

(** ** Worker pool lemmas *)

Section pool.
Context (process : Transaction → option rec_err).

Lemma hand_update {A C} (f : A → option C) (l : list A) i x y rest : l !! i = Some x →
  option_list (f y) ++ omap f l ++ rest ≡ₚ option_list (f x) ++ omap f (<[i := y]> l) ++ rest.
Proof.
  intros Hi. rewrite <- (take_drop_middle l i x Hi) at 1.
  rewrite insert_take_drop by eauto using lookup_lt_Some. rewrite !omap_app. simpl.
  rewrite !app_assoc. apply Permutation_app_tail.
  destruct (f x), (f y); simpl; rewrite <- ?Permutation_middle; try done; apply perm_swap.
Qed.

Definition ids_inv (txns : list Transaction) (s : rstate) : Prop :=
  hand_ids (rc_workers s) ++ (res_TxnID <$> rc_out s) ++ (txn_ID <$> rc_todo s) ≡ₚ txn_ID <$> txns.

Definition full_inv (txns : list Transaction) (s : rstate) : Prop :=
  rc_ctx s = false →
  (rc_closed s = true → rc_todo s = []) ∧
  in_hand process (rc_workers s) ++ rc_out s ++
    ((fun t => mkRes (txn_ID t) (process t)) <$> rc_todo s) ≡ₚ
  (fun t => mkRes (txn_ID t) (process t)) <$> txns.

(** The bookkeeping of one worker changing state, for any labelling of workers. *)
Section labelled.
Context {C : Type} (f : worker → option C).
Context (ws : list worker) (i : nat) (out todo : list C) (T : list C).

Lemma take_job x y c : ws !! i = Some x → f x = None → f y = Some c →
  omap f ws ++ out ++ c :: todo ≡ₚ T → omap f (<[i := y]> ws) ++ out ++ todo ≡ₚ T.
Proof.
  intros Hi Hx Hy <-. pose proof (hand_update f ws i x y (out ++ todo) Hi) as Hp.
  rewrite Hx, Hy in Hp. simpl in Hp. rewrite <- Hp. by rewrite <- !Permutation_middle.
Qed.

Lemma keep_label x y : ws !! i = Some x → f x = f y →
  omap f ws ++ out ++ todo ≡ₚ T → omap f (<[i := y]> ws) ++ out ++ todo ≡ₚ T.
Proof.
  intros Hi Hxy <-. pose proof (hand_update f ws i x y (out ++ todo) Hi) as Hp.
  rewrite Hxy in Hp. by apply Permutation_app_inv_l in Hp.
Qed.

Lemma give_result x y c : ws !! i = Some x → f x = Some c → f y = None →
  omap f ws ++ out ++ todo ≡ₚ T → omap f (<[i := y]> ws) ++ (out ++ [c]) ++ todo ≡ₚ T.
Proof.
  intros Hi Hx Hy <-. pose proof (hand_update f ws i x y (out ++ todo) Hi) as Hp.
  rewrite Hx, Hy in Hp. simpl in Hp. rewrite Hp. rewrite <- app_assoc. simpl.
  by rewrite <- !Permutation_middle.
Qed.
End labelled.

Lemma ids_inv_step txns s s' : ids_inv txns s → rstep process s s' → ids_inv txns s'.
Proof.
  unfold ids_inv, hand_ids. intros Hinv Hst. revert Hinv.
  destruct Hst; cbn [rc_workers rc_out rc_todo]; try done; intros Hinv.
  - by eapply take_job.
  - by eapply keep_label.
  - by eapply keep_label.
  - rewrite fmap_app. by eapply give_result.
  - by eapply keep_label.
Qed.

Lemma full_inv_step txns s s' : full_inv txns s → rstep process s s' → full_inv txns s'.
Proof.
  unfold full_inv, in_hand. intros Hinv Hst. revert Hinv.
  destruct Hst; cbn [rc_workers rc_out rc_todo rc_ctx rc_closed]; intros Hinv Hc;
    try done; destruct (Hinv Hc) as [Hcl Hp]; (split; [by auto|]).
  - by eapply take_job.
  - done.
  - by eapply keep_label.
  - by eapply give_result.
  - by eapply keep_label.
Qed.

(** Workers only return after [jobs] is closed, and there is at least one. *)
Definition alive_inv (s : rstate) : Prop :=
  rc_workers s ≠ [] ∧ (rc_closed s = false → WExited ∉ rc_workers s).

Lemma alive_inv_step s s' : alive_inv s → rstep process s s' → alive_inv s'.
Proof.
  unfold alive_inv. intros Hinv Hst. revert Hinv.
  assert (∀ (ws : list worker) i w, ws ≠ [] → <[i := w]> ws ≠ []) as Hne.
  { intros ws i w H H'%length_zero_iff_nil. rewrite length_insert in H'.
    by apply length_zero_iff_nil in H'. }
  assert (∀ (ws : list worker) i w, WExited ∉ ws → w ≠ WExited → WExited ∉ <[i := w]> ws) as Hex.
  { intros ws i w H Hw (j & [(_ & ? & _)|[_ Hj]]%list_lookup_insert_Some)%list_elem_of_lookup; [done|].
    apply H. by eapply list_elem_of_lookup_2. }
  destruct Hst; simpl; intros [? ?]; split; auto.
Qed.

Lemma pool_progress s : alive_inv s → rfinal s ∨ ∃ s', rstep process s s'.
Proof.
  intros [Hne Hex]. destruct s as [todo cl ws out c]. simpl in *.
  assert ((∃ i w, ws !! i = Some w ∧ (∃ t, w = WGot t) ∨ ∃ i r, ws !! i = Some (WSend r)) ∨
    Forall (fun w => w = WIdle ∨ w = WExited) ws) as [Hbusy|Hidle].
  { destruct (decide (Exists (fun w => match w with WGot _ | WSend _ => true | _ => false end = true) ws))
      as [[w [[i Hi]%list_elem_of_lookup Hw]]%Exists_exists|Hn].
    - left. exists i, w. destruct w; try done; eauto.
    - right. apply not_Exists_Forall in Hn; [|apply _]. eapply Forall_impl; [exact Hn|].
      intros []; naive_solver. }
  { right. destruct Hbusy as (i & w & [(Hi & t & ->)|(j & r & Hj)]).
    - destruct c; eexists; [by eapply R_skip|by eapply R_process].
    - eexists. by eapply R_send. }
  destruct cl.
  - destruct (decide (Forall (eq WExited) ws)) as [Hall|Hall]; [left; done|right].
    apply not_Forall_Exists in Hall; [|apply _].
    apply Exists_exists in Hall as (w & Hin & Hw). pose proof (proj1 (Forall_forall _ _) Hidle w Hin) as Hw'.
    apply list_elem_of_lookup in Hin as [i Hi]. destruct Hw' as [->| ->]; [|by destruct Hw].
    eexists. by eapply R_exit.
  - right. destruct todo as [|t todo]; [eexists; apply R_close|].
    destruct ws as [|w ws]; [done|]. inversion Hidle as [|? ? [->| ->]]; subst.
    + eexists. by eapply (R_handoff _ _ _ _ 0%nat).
    + destruct Hex; [done|]. left.
Qed.

Lemma sum_insert (ws : list worker) i x y : ws !! i = Some x →
  (sum_list (wweight <$> <[i := y]> ws) + wweight x = sum_list (wweight <$> ws) + wweight y)%nat.
Proof.
  revert i. induction ws as [|w ws IH]; intros [|i] Hi; simplify_eq/=; [lia|].
  pose proof (IH i Hi). simpl. lia.
Qed.

Lemma rmeasure_step s s' : rstep process s s' → (rmeasure s' < rmeasure s)%nat.
Proof.
  destruct 1; unfold rmeasure; cbn [rc_workers rc_out rc_todo rc_ctx rc_closed]; simpl length; try lia;
    match goal with H : ?ws !! ?i = Some ?x |- context [<[?i := ?y]> ?ws] =>
      pose proof (sum_insert ws i x y H) as Hs; simpl in Hs; lia end.
Qed.
End pool.

(** ** Properties *)

(** A shard executes its commands one at a time in the order they entered
its channel.  In every interleaving of callers and the owner goroutine, the
accounts are those of running the already received commands sequentially,
every received command has been answered exactly once, [ErrUnknownAccount] for
an account the shard does not own and success otherwise, and the others are
still unanswered. *)
Theorem Shard_sequential accounts sent s :
  rtc shard_step ([], NewShard accounts) (sent, s) →
  let m0 := sh_accounts (NewShard accounts) in
  ∃ processed, sent = processed ++ sh_commands s ∧
    sh_accounts s = foldl exec_cmd m0 processed ∧
    (∀ cmd, cmd ∈ processed → Shard_recv s cmd = Some (expected_reply m0 cmd)) ∧
    (∀ cmd, cmd ∈ sh_commands s → Shard_recv s cmd = None).
Proof.
  intros Hr m0.
  assert (∃ processed, shard_inv m0 processed (sent, s)) as [processed [H1 H2 H3 H4 H5]].
  { eapply (rtc_invariant shard_step (fun st => ∃ processed, shard_inv m0 processed st)); [|exact Hr|].
    - intros x y [processed Hx] Hxy. revert Hx. destruct Hxy as [sent' s1 cmd s2 Hn Hs|sent' s1 s2 Hs].
      + intros Hx. exists processed. by eapply shard_inv_send.
      + intros Hx. destruct (shard_inv_run _ _ _ _ _ Hx Hs) as [cmd ?]. eauto.
    - exists []. constructor; try done; [constructor|]. by intros ? ?%not_elem_of_nil. }
  exists processed. split_and!; [done|done|exact H4|]. intros cmd Hc. apply H5. intros Hin.
  simpl in *. rewrite H1, fmap_app in H2. apply NoDup_app in H2 as (_ & Hd & _).
  apply (Hd _ Hin). by apply list_elem_of_fmap_2.
Qed.

Lemma ShardFor_range n id : (0 < n)%nat → Z.of_nat n < 2 ^ 32 →
  ∃ i, ShardFor n id = Some i ∧ (i < n)%nat.
Proof.
  intros Hn Hb. unfold ShardFor. destruct (Nat.eqb_spec n 0); [lia|]. eexists. split; [done|].
  unfold u32. rewrite (Z.mod_small (Z.of_nat n)) by lia.
  pose proof (Z.mod_pos_bound (fnv32a id) (Z.of_nat n)). lia.
Qed.

(** [Reconcile] reports every transaction exactly once: whatever the number
of workers and the scheduling, if the context is never cancelled the returned
slice is a permutation of the per-transaction results. *)
Theorem Reconcile_complete process txns workers s :
  rtc (rstep process) (Reconcile_init txns workers false) s → rfinal s → rc_ctx s = false →
  rc_out s ≡ₚ (fun t => mkRes (txn_ID t) (process t)) <$> txns.
Proof.
  intros Hr [Hcl Hw] Hc.
  assert (full_inv process txns s) as Hinv.
  { eapply rtc_invariant; [|exact Hr|]; [intros; by eapply full_inv_step|].
    intros _. split; [done|]. cbn [rc_workers rc_out rc_todo Reconcile_init].
    replace (in_hand process _) with (@nil RecResult); [done|].
    unfold in_hand. by generalize (Z.to_nat (if workers <? 1 then 1 else workers)) as n; induction n. }
  destruct (Hinv Hc) as [Htodo Hp]. rewrite (Htodo Hcl), app_nil_r in Hp.
  replace (in_hand process (rc_workers s)) with (@nil RecResult) in Hp; [done|].
  unfold in_hand. clear -Hw. induction Hw as [|w ws <- _ IH]; [done|]. done.
Qed.

(** Even when the context is cancelled at any moment, [Reconcile] never
reports a transaction twice nor invents one: the IDs returned, together with
those of the transactions the producer dropped, are exactly the input's. *)
Theorem Reconcile_at_most_once process txns workers ctx s :
  rtc (rstep process) (Reconcile_init txns workers ctx) s → rfinal s →
  (res_TxnID <$> rc_out s) ++ (txn_ID <$> rc_todo s) ≡ₚ txn_ID <$> txns.
Proof.
  intros Hr [Hcl Hw].
  assert (ids_inv txns s) as Hinv.
  { eapply rtc_invariant; [|exact Hr|]; [intros; by eapply ids_inv_step|].
    unfold ids_inv. cbn [rc_workers rc_out rc_todo Reconcile_init].
    replace (hand_ids _) with (@nil string); [done|].
    unfold hand_ids. by generalize (Z.to_nat (if workers <? 1 then 1 else workers)) as n; induction n. }
  unfold ids_inv in Hinv. replace (hand_ids (rc_workers s)) with (@nil string) in Hinv; [done|].
  unfold hand_ids. clear -Hw. induction Hw as [|w ws <- _ IH]; [done|]. done.
Qed.

(** The worker pool always terminates and never leaks: every reachable state
is final (all workers returned) or can step, and no execution is longer than
the work measure of its first state. *)
Theorem Reconcile_terminates process txns workers ctx s :
  rtc (rstep process) (Reconcile_init txns workers ctx) s →
  (rfinal s ∨ ∃ s', rstep process s s') ∧
  ∀ n s', nsteps (rstep process) n s s' → (n ≤ rmeasure s)%nat.
Proof.
  intros Hr. split.
  - apply pool_progress. eapply rtc_invariant; [|exact Hr|]; [intros; by eapply alive_inv_step|].
    unfold alive_inv, Reconcile_init. simpl. destruct (Z.ltb_spec workers 1) as [|H].
    + simpl. split; [done|]. intros _ Hin. apply list_elem_of_singleton in Hin. done.
    + destruct (Z.to_nat workers) as [|n] eqn:E; [lia|]. split; [done|].
      intros _ [? _]%elem_of_replicate. done.
  - intros n s' Hn. clear Hr. induction Hn as [|n x y z Hxy Hyz IH]; [lia|].
    pose proof (rmeasure_step process _ _ Hxy). lia.
Qed.

(** ** Witnesses *)

Definition wcredit (n : Z) (a : Account) : Account := account_credit a n.
Definition wcmd1 : command := mkCmd "alice" (wcredit 5) 0.
Definition wcmd2 : command := mkCmd "zoe" (wcredit 9) 1.

Lemma wshard_reach : ∃ s, rtc shard_step ([], NewShard [mkAccount "alice" 10]) ([wcmd1; wcmd2], s) ∧
  length (sh_commands s) = 1%nat.
Proof.
  eexists. split.
  - eapply rtc_l. { eapply (shard_step_send _ _ wcmd1); [by intros ?%not_elem_of_nil|reflexivity]. }
    eapply rtc_l. { apply shard_step_run. reflexivity. }
    eapply rtc_l. { eapply (shard_step_send _ _ wcmd2); [|reflexivity].
      by intros ?%list_elem_of_singleton. }
    apply rtc_refl.
  - reflexivity.
Qed.

Lemma Shard_sequential_witness : ∃ s processed,
  rtc shard_step ([], NewShard [mkAccount "alice" 10]) ([wcmd1; wcmd2], s) ∧
  [wcmd1; wcmd2] = processed ++ sh_commands s ∧
  sh_accounts s = foldl exec_cmd (sh_accounts (NewShard [mkAccount "alice" 10])) processed.
Proof.
  destruct wshard_reach as (s & Hr & _).
  destruct (Shard_sequential [mkAccount "alice" 10] [wcmd1; wcmd2] s Hr) as (pr & H1 & H2 & _).
  exists s, pr. auto.
Defined.

Definition wprocess (t : Transaction) : option rec_err :=
  if txn_Amount t <? 0 then Some (ErrProcess "negative") else None.
Definition wtxns : list Transaction := [mkTxn "a" 1; mkTxn "b" (-1)].
Definition wout : list RecResult := [mkRes "b" (Some (ErrProcess "negative")); mkRes "a" None].
Definition wfin : rstate := mkRS [] true [WExited; WExited] wout false.

Lemma wfin_reach : rtc (rstep wprocess) (Reconcile_init wtxns 2 false) wfin.
Proof.
  eapply rtc_l. { by eapply (R_handoff _ _ _ _ 0%nat). }
  eapply rtc_l. { by eapply (R_handoff _ _ _ _ 1%nat). }
  eapply rtc_l. { by eapply (R_process _ _ _ _ _ 1%nat). }
  eapply rtc_l. { by eapply (R_send _ _ _ _ _ 1%nat). }
  eapply rtc_l. { apply R_close. }
  eapply rtc_l. { by eapply (R_process _ _ _ _ _ 0%nat). }
  eapply rtc_l. { by eapply (R_send _ _ _ _ _ 0%nat). }
  eapply rtc_l. { by eapply (R_exit _ _ _ 0%nat). }
  eapply rtc_l. { by eapply (R_exit _ _ _ 1%nat). }
  apply rtc_refl.
Qed.

Lemma wfin_final : rfinal wfin.
Proof. split; [done|]. repeat constructor. Qed.

Lemma Reconcile_complete_witness :
  wout ≡ₚ (fun t => mkRes (txn_ID t) (wprocess t)) <$> wtxns.
Proof. apply (Reconcile_complete wprocess wtxns 2 wfin wfin_reach wfin_final eq_refl). Defined.

Lemma Reconcile_at_most_once_witness :
  (res_TxnID <$> wout) ++ [] ≡ₚ txn_ID <$> wtxns.
Proof. apply (Reconcile_at_most_once wprocess wtxns 2 false wfin wfin_reach wfin_final). Defined.

Lemma Reconcile_terminates_witness :
  (rfinal wfin ∨ ∃ s', rstep wprocess wfin s') ∧
  ∀ n s', nsteps (rstep wprocess) n wfin s' → (n ≤ rmeasure wfin)%nat.
Proof. apply (Reconcile_terminates wprocess wtxns 2 false wfin wfin_reach). Defined.
