(* ===== verification/Raft.v ===== *)
(** * distributed-primitives-go/raft: election, quorum and fencing

The cluster is a list of nodes plus the group counter and the fence line
[committedTrm]; [Elect], [Partition], [Heal] and [Write] are its transitions.
Every method runs under the cluster mutex, so each is one step. *)

From Stdlib Require Import ZArith Lia.
From stdpp Require Import base gmap strings list fin_maps relations.
From S2P Require Import Prelude.

Open Scope Z_scope.

(* [base] distributed-primitives-go/raft *)

(* [go] node.go:11-17 State *)
Inductive rstatus : Type := Follower | Candidate | Leader.

#[global] Instance rstatus_eq_dec : EqDecision rstatus.
Proof. solve_decision. Defined.

(* [go] node.go:19-28 State.String *)
Definition State_String (s : rstatus) : string :=
  match s with Follower => "Follower" | Candidate => "Candidate" | Leader => "Leader" end.

(* [go] node.go:33-38 Node *)
Record Node : Type := mkNode { nd_ID : nat; nd_Term : Z; nd_State : rstatus; nd_group : Z }.

(* [go] cluster.go:20-25 Cluster *)
Record Cluster : Type := mkCluster {
  cl_nodes : list Node; cl_nextGroup : Z; cl_committedTrm : Z }.

(* [go] cluster.go:8-17 ErrNoQuorum, ErrFenced *)
Inductive raft_err : Type := ErrNoQuorum | ErrFenced.

(* [go] cluster.go:29-35 NewCluster *)
Definition NewCluster (n : nat) : Cluster :=
  mkCluster ((fun i => mkNode i 0 Follower 0) <$> seq 0 n) 1 0.

(* [go] cluster.go:40-40 Cluster.majority *)
Definition majority (c : Cluster) : nat := (length (cl_nodes c) / 2 + 1)%nat.

(* [go] cluster.go:44-58 Cluster.Partition *)
Definition Partition (c : Cluster) (ids : list nat) : Cluster :=
  let g := cl_nextGroup c in
  mkCluster
    ((fun n => if decide (nd_ID n ∈ ids) then mkNode (nd_ID n) (nd_Term n) (nd_State n) g else n)
       <$> cl_nodes c)
    (i64 (g + 1)) (cl_committedTrm c).

(* [go] cluster.go:61-67 Cluster.Heal *)
Definition Heal (c : Cluster) : Cluster :=
  mkCluster ((fun n => mkNode (nd_ID n) (nd_Term n) (nd_State n) 0) <$> cl_nodes c)
    (cl_nextGroup c) (cl_committedTrm c).

(* [go] cluster.go:71-79 Cluster.reachable *)
Definition reachable (nodes : list Node) (candidate : Node) : nat :=
  length (filter (fun n => nd_group n = nd_group candidate) nodes).

(** The highest term in the cluster, as the loop of [Elect] computes it. *)
(* [go] cluster.go:92-97 Cluster.Elect *)
Definition max_term (nodes : list Node) : Z :=
  foldl (fun m n => if nd_Term n >? m then nd_Term n else m) 0 nodes.

(** [None] is the index-out-of-range panic of [c.nodes[id]]. *)
(* [go] cluster.go:85-116 Cluster.Elect *)
Definition Elect (c : Cluster) (id : nat) : option (Cluster * result raft_err nat) :=
  match cl_nodes c !! id with
  | None => None
  | Some cand0 =>
      let term := u64 (max_term (cl_nodes c) + 1) in
      let cand := mkNode (nd_ID cand0) term Candidate (nd_group cand0) in
      let nodes1 := <[id := cand]> (cl_nodes c) in
      if (reachable nodes1 cand <? majority c)%nat then
        let nodes2 := <[id := mkNode (nd_ID cand) term Follower (nd_group cand)]> nodes1 in
        Some (mkCluster nodes2 (cl_nextGroup c) (cl_committedTrm c), Err ErrNoQuorum)
      else
        let nodes2 := (fun n =>
          if decide (nd_group n = nd_group cand ∧ nd_ID n ≠ nd_ID cand)
          then mkNode (nd_ID n) term Follower (nd_group n) else n) <$> nodes1 in
        let nodes3 := <[id := mkNode (nd_ID cand) term Leader (nd_group cand)]> nodes2 in
        Some (mkCluster nodes3 (cl_nextGroup c) term, Ok id)
  end.

(** The fencing test of [Write]; the write itself is the caller's [apply]. *)
(* [go] fencing.go:13-23 Cluster.Write *)
Definition Write {A} (c : Cluster) (leaderID : nat) (apply : A → A) (st : A)
  : option (A * option raft_err) :=
  match cl_nodes c !! leaderID with
  | None => None
  | Some n =>
      if negb (bool_decide (nd_State n = Leader)) || (nd_Term n <? cl_committedTrm c)
      then Some (st, Some ErrFenced) else Some (apply st, None)
  end.

(* [go] cluster.go:121-126 NodeView *)
Record NodeView : Type := mkView {
  nv_ID : nat; nv_Term : Z; nv_State : string; nv_Group : Z }.

(* [go] cluster.go:130-137 Cluster.Snapshot *)
Definition Snapshot (c : Cluster) : list NodeView * Z :=
  ((fun n => mkView (nd_ID n) (nd_Term n) (State_String (nd_State n)) (nd_group n)) <$> cl_nodes c,
   cl_committedTrm c).

(* [go] cluster.go:142-152 Cluster.Leaders *)
Definition Leaders (c : Cluster) : list Node :=
  filter (fun n => nd_State n = Leader) (cl_nodes c).

(** One operation on the cluster; the counter is the number of elections held. *)
Inductive raft_step : relation (Cluster * nat) :=
| raft_partition c k ids : raft_step (c, k) (Partition c ids, k)
| raft_heal c k : raft_step (c, k) (Heal c, k)
| raft_elect c k id c' r : Elect c id = Some (c', r) → raft_step (c, k) (c', S k).

(** [Write] applies a write by node [i]. *)
Definition can_write (c : Cluster) (i : nat) : Prop :=
  Write c i (fun _ => true) false = Some (true, None).

(** IDs are positions; every term and the fence line is at most the number of
elections; no leader is above the fence line; two leaders of the same term are
the same node. *)
Record raft_inv (ck : Cluster * nat) : Prop := {
  ri_ids : ∀ i n, cl_nodes ck.1 !! i = Some n → nd_ID n = i;
  ri_terms : ∀ i n, cl_nodes ck.1 !! i = Some n → 0 ≤ nd_Term n ≤ Z.of_nat ck.2;
  ri_fence : 0 ≤ cl_committedTrm ck.1 ≤ Z.of_nat ck.2;
  ri_fence_max : cl_committedTrm ck.1 ≤ max_term (cl_nodes ck.1);
  ri_leader : ∀ i n, cl_nodes ck.1 !! i = Some n → nd_State n = Leader →
    nd_Term n ≤ cl_committedTrm ck.1;
  ri_unique : ∀ i j n m, cl_nodes ck.1 !! i = Some n → cl_nodes ck.1 !! j = Some m →
    nd_State n = Leader → nd_State m = Leader → nd_Term n = nd_Term m → i = j }.

(** ** Lemmas *)

Lemma max_term_from_ge nodes m0 :
  m0 ≤ foldl (fun m n => if nd_Term n >? m then nd_Term n else m) m0 nodes ∧
  ∀ n, n ∈ nodes → nd_Term n ≤ foldl (fun m n => if nd_Term n >? m then nd_Term n else m) m0 nodes.
Proof.
  revert m0. induction nodes as [|a nodes IH]; intros m0; simpl.
  { split; [lia|]. by intros n ?%not_elem_of_nil. }
  destruct (IH (if nd_Term a >? m0 then nd_Term a else m0)) as [H1 H2].
  split; [case_test; zbool; lia|]. intros n [->|Hn]%elem_of_cons; [|eauto].
  case_test; zbool; lia.
Qed.

Lemma max_term_ge nodes n : n ∈ nodes → nd_Term n ≤ max_term nodes.
Proof. apply max_term_from_ge. Qed.

Lemma max_term_nonneg nodes : 0 ≤ max_term nodes.
Proof. apply (max_term_from_ge nodes 0). Qed.

Lemma max_term_le nodes b : 0 ≤ b → (∀ n, n ∈ nodes → nd_Term n ≤ b) → max_term nodes ≤ b.
Proof.
  unfold max_term. generalize 0 as m0. induction nodes as [|a nodes IH]; intros m0 Hm Hb; simpl; [done|].
  apply IH; [|intros; apply Hb; by right].
  pose proof (Hb a ltac:(left)). case_test; zbool; lia.
Qed.

Lemma max_term_relabel f nodes :
  max_term ((fun n => mkNode (nd_ID n) (nd_Term n) (nd_State n) (f n)) <$> nodes) = max_term nodes.
Proof. unfold max_term. rewrite foldl_fmap. done. Qed.

(** Relabelling groups keeps the invariant. *)
Lemma raft_inv_relabel c k f nodes' ng : raft_inv (c, k) →
  nodes' = (fun n => mkNode (nd_ID n) (nd_Term n) (nd_State n) (f n)) <$> cl_nodes c →
  raft_inv (mkCluster nodes' ng (cl_committedTrm c), k).
Proof.
  intros [H1 H2 H3 H6 H4 H5] ->. constructor; cbn [fst snd cl_nodes cl_committedTrm] in *; try done;
    [| |by rewrite max_term_relabel|..].
  - intros i n (m & -> & Hm)%list_lookup_fmap_Some. simpl. eauto.
  - intros i n (m & -> & Hm)%list_lookup_fmap_Some. simpl. eauto.
  - intros i n (m & -> & Hm)%list_lookup_fmap_Some. simpl. eauto.
  - intros i j n m (n' & -> & Hn)%list_lookup_fmap_Some (m' & -> & Hm)%list_lookup_fmap_Some.
    simpl. eauto.
Qed.

Lemma Partition_relabel c ids :
  cl_nodes (Partition c ids) = (fun n => mkNode (nd_ID n) (nd_Term n) (nd_State n)
    (if decide (nd_ID n ∈ ids) then cl_nextGroup c else nd_group n)) <$> cl_nodes c.
Proof. simpl. apply list_fmap_ext. intros _ [] _. simpl. by case_decide. Qed.

(** What an election leaves: the candidate has the new term, every other node
either kept its record or follows with the new term. *)
Lemma Elect_nodes c id c' r : Elect c id = Some (c', r) →
  let term := u64 (max_term (cl_nodes c) + 1) in
  (∃ n, cl_nodes c' !! id = Some n ∧ nd_Term n = term ∧
     nd_State n = (if is_ok r then Leader else Follower) ∧
     ∃ n0, cl_nodes c !! id = Some n0 ∧ nd_ID n = nd_ID n0) ∧
  (∀ j n, j ≠ id → cl_nodes c' !! j = Some n → ∃ n0, cl_nodes c !! j = Some n0 ∧
     nd_ID n = nd_ID n0 ∧ (n = n0 ∨ nd_Term n = term ∧ nd_State n = Follower)) ∧
  cl_committedTrm c' = (if is_ok r then term else cl_committedTrm c) ∧
  length (cl_nodes c') = length (cl_nodes c).
Proof.
  unfold Elect. destruct (cl_nodes c !! id) as [n0|] eqn:E; [|done].
  pose proof (lookup_lt_Some _ _ _ E) as Hlt.
  destruct (_ <? _)%nat; intros [= <- <-]; cbn [cl_nodes cl_committedTrm is_ok]; split_and!.
  - eexists. rewrite list_lookup_insert_eq by (by rewrite length_insert). simpl. eauto 10.
  - intros j n Hj. rewrite !list_lookup_insert_ne by done. eauto.
  - done.
  - by rewrite !length_insert.
  - eexists. rewrite list_lookup_insert_eq by (by rewrite length_fmap, length_insert). simpl. eauto 10.
  - intros j n Hj. rewrite list_lookup_insert_ne by done. rewrite list_lookup_fmap.
    rewrite list_lookup_insert_ne by done. destruct (cl_nodes c !! j) as [m|]; [|done].
    simpl. intros [= <-]. case_decide; eauto 10.
  - done.
  - by rewrite length_insert, length_fmap, length_insert.
Qed.

Lemma raft_inv_elect c k id c' r : Z.of_nat (S k) < 2 ^ 64 →
  raft_inv (c, k) → Elect c id = Some (c', r) → raft_inv (c', S k).
Proof.
  intros Hk [H1 H2 H3 H6 H4 H5] He. cbn [fst snd] in *.
  destruct (Elect_nodes _ _ _ _ He) as ((n & Hn & Ht & Hs & n0 & Hn0 & Hid) & Hrest & Hc & _).
  assert (max_term (cl_nodes c) ≤ Z.of_nat k) as Hmax.
  { apply max_term_le; [lia|]. intros m [i Hi]%list_elem_of_lookup. by apply (H2 i m). }
  pose proof (max_term_nonneg (cl_nodes c)).
  rewrite u64_small in * by (unfold in_u64; lia).
  assert (∀ j m, cl_nodes c !! j = Some m → nd_Term m ≤ max_term (cl_nodes c)) as Hge.
  { intros j m Hm. apply max_term_ge. by eapply list_elem_of_lookup_2. }
  (* a node of the new cluster: the candidate, an untouched node, or a new follower *)
  assert (∀ j m, cl_nodes c' !! j = Some m →
    (j = id ∧ m = n) ∨ (j ≠ id ∧ cl_nodes c !! j = Some m) ∨
    (nd_Term m = max_term (cl_nodes c) + 1 ∧ nd_State m = Follower ∧ nd_ID m = j)) as Hcases.
  { intros j m Hm. destruct (decide (j = id)) as [->|Hne]; [left; naive_solver|right].
    destruct (Hrest j m Hne Hm) as (m0 & Hm0 & Hidm & [->|[? ?]]); [by left|right].
    rewrite Hidm. eauto. }
  constructor; cbn [fst snd].
  - intros j m [(-> & ->)|[(_ & Hm)|(_ & _ & ?)]]%Hcases; [by rewrite Hid; eauto|eauto|done].
  - intros j m [(-> & ->)|[(_ & Hm)|(-> & _)]]%Hcases; [lia| |lia].
    pose proof (H2 j m Hm). lia.
  - rewrite Hc. destruct r; simpl; lia.
  - assert (nd_Term n ≤ max_term (cl_nodes c')).
    { apply max_term_ge. by eapply list_elem_of_lookup_2. }
    rewrite Hc. destruct r; simpl; lia.
  - intros j m [(-> & ->)|[(_ & Hm)|(_ & ? & _)]]%Hcases HL; [| |congruence].
    + rewrite Hc, Ht. rewrite Hs in HL. by destruct r.
    + rewrite Hc. pose proof (H4 j m Hm HL). pose proof (Hge j m Hm). destruct r; simpl; lia.
  - intros j j' m m' [(-> & ->)|[(_ & Hm)|(_ & ? & _)]]%Hcases
      [(-> & ->)|[(_ & Hm')|(_ & ? & _)]]%Hcases HL HL' He'; try congruence; try done.
    + pose proof (Hge j' m' Hm'). lia.
    + pose proof (Hge j m Hm). lia.
    + by eapply H5.
Qed.

Lemma raft_inv_step ck ck' : Z.of_nat ck'.2 < 2 ^ 64 → raft_inv ck → raft_step ck ck' → raft_inv ck'.
Proof.
  intros Hk Hinv Hst. revert Hk Hinv. destruct Hst as [c k ids|c k|c k id c' r He]; intros Hk Hinv.
  - eapply (raft_inv_relabel c k); [done|]. apply Partition_relabel.
  - by eapply (raft_inv_relabel c k (fun _ => 0)).
  - by eapply raft_inv_elect.
Qed.

Lemma raft_inv_init n : raft_inv (NewCluster n, 0%nat).
Proof.
  constructor; cbn [fst snd NewCluster cl_nodes cl_committedTrm]; try (simpl; lia).
  - intros i m (x & -> & Hx)%list_lookup_fmap_Some. simpl. by apply lookup_seq in Hx as [? _].
  - intros i m (x & -> & Hx)%list_lookup_fmap_Some. simpl. lia.
  - apply max_term_nonneg.
  - intros i m (x & -> & Hx)%list_lookup_fmap_Some. done.
  - intros i j m m' (x & -> & Hx)%list_lookup_fmap_Some. done.
Qed.

Lemma elections_mono ck ck' : rtc raft_step ck ck' → (ck.2 ≤ ck'.2)%nat.
Proof. induction 1 as [|x y z Hxy _ IH]; [done|]. destruct Hxy; simpl in *; lia. Qed.

Lemma raft_inv_reach n ck : rtc raft_step (NewCluster n, 0%nat) ck →
  Z.of_nat ck.2 < 2 ^ 64 → raft_inv ck.
Proof.
  intros Hr. revert ck Hr. apply (rtc_ind_r (fun ck => Z.of_nat ck.2 < 2 ^ 64 → raft_inv ck)).
  { intros; apply raft_inv_init. }
  intros x y Hx Hxy IH Hk. eapply raft_inv_step; [done| |done]. apply IH.
  assert (x.2 ≤ y.2)%nat by (apply elections_mono, rtc_once, Hxy). lia.
Qed.

(** [Write] on a node that is there, and which nodes it accepts. *)
Lemma can_write_spec c i :
  can_write c i ↔ ∃ n, cl_nodes c !! i = Some n ∧ nd_State n = Leader ∧ cl_committedTrm c ≤ nd_Term n.
Proof.
  unfold can_write, Write. split.
  - destruct (cl_nodes c !! i) as [n|]; [|done]. intros H. exists n. split; [done|].
    destruct (decide (nd_State n = Leader)) as [HL|HL]; [|by rewrite bool_decide_false in H].
    rewrite bool_decide_true in H by done. simpl in H.
    destruct (Z.ltb_spec (nd_Term n) (cl_committedTrm c)); [done|]. by split.
  - intros (n & -> & HL & HT). rewrite bool_decide_true by done. simpl.
    by rewrite (proj2 (Z.ltb_ge _ _) HT).
Qed.

Lemma Write_cases c i n {A} (apply : A → A) st : cl_nodes c !! i = Some n →
  can_write c i ∧ Write c i apply st = Some (apply st, None) ∨
  ¬ can_write c i ∧ Write c i apply st = Some (st, Some ErrFenced).
Proof.
  intros Hn. unfold can_write, Write. rewrite Hn. destruct (_ || _); [right|left]; by split.
Qed.

#[local] Instance raft_err_eq_dec : EqDecision raft_err.
Proof. solve_decision. Defined.

#[local] Instance can_write_dec c i : Decision (can_write c i).
Proof. unfold can_write. apply _. Defined.

Lemma can_write_unique c k i j : raft_inv (c, k) → can_write c i → can_write c j → i = j.
Proof.
  intros Hinv (ni & Hi & Li & Ti)%can_write_spec (nj & Hj & Lj & Tj)%can_write_spec.
  pose proof (ri_leader _ Hinv i ni Hi Li). pose proof (ri_leader _ Hinv j nj Hj Lj).
  eapply (ri_unique _ Hinv); eauto. simpl in *. lia.
Qed.

(** ** Properties *)

(** C29: Split-brain safety.  After any history of partitions, heals and fewer
than 2^64 elections, there is at most one node [w] whose calls of [Write] run the
caller's function: [Write] by [w] applies it and returns no error, [Write] by every
other node of the cluster returns [ErrFenced] and changes nothing, however many of
them believe they lead.  The accepted node is a leader whose term is the fence
line. *)
Theorem Write_single_writer n c k :
  rtc raft_step (NewCluster n, 0%nat) (c, k) → Z.of_nat k < 2 ^ 64 →
  ∃ w : option nat,
    (∀ i A (apply : A → A) st, (i < length (cl_nodes c))%nat →
       Write c i apply st = Some (if decide (w = Some i) then (apply st, None) else (st, Some ErrFenced))) ∧
    (∀ i, w = Some i → ∃ m, cl_nodes c !! i = Some m ∧ nd_State m = Leader ∧ nd_Term m = cl_committedTrm c).
Proof.
  intros Hr Hk. pose proof (raft_inv_reach _ _ Hr Hk) as Hinv.
  assert ((∃ i, can_write c i) ∨ ∀ i, ¬ can_write c i) as [[w Hw]|Hno].
  { destruct (decide (Exists (can_write c) (seq 0 (length (cl_nodes c))))) as [H|H].
    - apply Exists_exists in H as (i & _ & ?). eauto.
    - right. intros i Hi. apply H, Exists_exists. exists i. split; [|done].
      apply can_write_spec in Hi as (m & ?%lookup_lt_Some & _). apply elem_of_seq. lia. }
  - exists (Some w). split.
    + intros i A apply st [m Hm]%lookup_lt_is_Some.
      destruct (Write_cases c i m apply st Hm) as [[Hc ->]|[Hc ->]].
      * by rewrite (can_write_unique _ _ _ _ Hinv Hw Hc), decide_True.
      * rewrite decide_False; [done|]. by intros [= ->].
    + intros i [= <-]. apply can_write_spec in Hw as (m & Hm & HL & HT). exists m. split_and!; [done..|].
      pose proof (ri_leader _ Hinv w m Hm HL). simpl in *. lia.
  - exists None. split; [|done]. intros i A apply st [m Hm]%lookup_lt_is_Some.
    destruct (Write_cases c i m apply st Hm) as [[Hc _]|[_ ->]]; [by destruct (Hno i)|done].
Qed.

(** An election that succeeds makes its candidate the only accepted writer:
it has a term above every earlier one, its own writes are applied, and a write
by any other node, in its group or not, is refused without effect. *)
Theorem Elect_fences n c k id c' r :
  rtc raft_step (NewCluster n, 0%nat) (c, k) → Z.of_nat (S k) < 2 ^ 64 →
  Elect c id = Some (c', Ok r) →
  r = id ∧ cl_committedTrm c < cl_committedTrm c' ∧
  (∀ A (apply : A → A) st, Write c' id apply st = Some (apply st, None)) ∧
  (∀ j A (apply : A → A) st, j ≠ id → (j < length (cl_nodes c'))%nat →
     Write c' j apply st = Some (st, Some ErrFenced)).
Proof.
  intros Hr Hk He.
  pose proof (raft_inv_reach _ _ Hr ltac:(simpl; lia)) as Hinv.
  pose proof (raft_inv_elect _ _ _ _ _ Hk Hinv He) as Hinv'.
  assert (r = id) as ->. { unfold Elect in He. by repeat case_match; simplify_eq. }
  destruct (Elect_nodes _ _ _ _ He) as ((m & Hm & Ht & Hs & _) & _ & Hc & _).
  simpl in Hs, Hc. split; [done|]. split_and!.
  - rewrite Hc. pose proof (ri_fence_max _ Hinv). pose proof (max_term_nonneg (cl_nodes c)).
    assert (max_term (cl_nodes c) ≤ Z.of_nat k).
    { apply max_term_le; [lia|]. intros x [i Hi]%list_elem_of_lookup. by apply (ri_terms _ Hinv i x). }
    simpl in *. rewrite u64_small by (unfold in_u64; lia). lia.
  - intros A apply st. unfold Write. rewrite Hm, Hs, bool_decide_true by done. simpl.
    rewrite Hc, Ht, Z.ltb_irrefl. done.
  - intros j A apply st Hj [nj Hnj]%lookup_lt_is_Some. unfold Write. rewrite Hnj.
    destruct (decide (nd_State nj = Leader)) as [HL|HL]; [|by rewrite bool_decide_false].
    rewrite bool_decide_true by done. simpl.
    destruct (Z.ltb_spec (nd_Term nj) (cl_committedTrm c')); [done|].
    destruct Hj. pose proof (ri_leader _ Hinv' j nj Hnj HL).
    eapply (ri_unique _ Hinv'); eauto. simpl in *. lia.
Qed.

(** The candidate's group in the cluster. *)
Definition group_size (c : Cluster) (g : Z) : nat :=
  length (filter (fun n => nd_group n = g) (cl_nodes c)).

Lemma group_size_insert (nodes : list Node) id n m g : nodes !! id = Some n → nd_group m = nd_group n →
  length (filter (fun x => nd_group x = g) (<[id := m]> nodes)) =
  length (filter (fun x => nd_group x = g) nodes).
Proof.
  intros Hn Hg. rewrite insert_take_drop by eauto using lookup_lt_Some.
  rewrite <- (take_drop_middle nodes id n Hn) at 3.
  rewrite !filter_app, !length_app, !filter_cons, Hg. by case_decide.
Qed.

Lemma groups_disjoint c g g' : g ≠ g' →
  (group_size c g + group_size c g' ≤ length (cl_nodes c))%nat.
Proof.
  intros Hne. unfold group_size. induction (cl_nodes c) as [|n l IH]; simpl; [lia|].
  rewrite !filter_cons. repeat case_decide; simpl; congruence || lia.
Qed.

(** Quorum.  [Elect] succeeds exactly when the candidate's network group is a
strict majority of the whole cluster; otherwise it returns [ErrNoQuorum], moves
no other node and leaves the fence line.  Hence candidates of two different
groups can never both be elected from the same cluster state. *)
Theorem Elect_quorum c id n :
  cl_nodes c !! id = Some n →
  (∃ c' r, Elect c id = Some (c', r) ∧
    (r = Ok id ∧ (length (cl_nodes c) < 2 * group_size c (nd_group n))%nat ∨
     r = Err ErrNoQuorum ∧ (2 * group_size c (nd_group n) ≤ length (cl_nodes c))%nat ∧
     cl_committedTrm c' = cl_committedTrm c ∧ ∀ j, j ≠ id → cl_nodes c' !! j = cl_nodes c !! j)) ∧
  (∀ id' n' c1 c2, cl_nodes c !! id' = Some n' → nd_group n' ≠ nd_group n →
     Elect c id = Some (c1, Ok id) → Elect c id' ≠ Some (c2, Ok id')).
Proof.
  assert (∀ id n c1 r, cl_nodes c !! id = Some n → Elect c id = Some (c1, r) →
    (r = Ok id ∧ (length (cl_nodes c) < 2 * group_size c (nd_group n))%nat ∨
     r = Err ErrNoQuorum ∧ (2 * group_size c (nd_group n) ≤ length (cl_nodes c))%nat ∧
     cl_committedTrm c1 = cl_committedTrm c ∧ ∀ j, j ≠ id → cl_nodes c1 !! j = cl_nodes c !! j)) as Hall.
  { intros i m c1 r Hi. unfold Elect. rewrite Hi. unfold reachable, majority, group_size.
    simpl nd_group. rewrite (group_size_insert _ _ _ _ _ Hi) by done.
    destruct (Nat.ltb_spec (length (filter (fun x => nd_group x = nd_group m) (cl_nodes c)))
      (length (cl_nodes c) / 2 + 1)); intros [= <- <-].
    - right. split_and!; [done| |done|].
      + pose proof (Nat.div_mod_eq (length (cl_nodes c)) 2). lia.
      + intros j Hj. simpl. by rewrite !list_lookup_insert_ne.
    - left. split; [done|]. pose proof (Nat.div_mod_eq (length (cl_nodes c)) 2).
      pose proof (Nat.mod_upper_bound (length (cl_nodes c)) 2). lia. }
  intros Hn. split.
  - destruct (Elect c id) as [[c' r]|] eqn:E; [exists c', r; eauto|].
    unfold Elect in E. rewrite Hn in E. by case_test.
  - intros id' n' c1 c2 Hn' Hg H1 H2.
    destruct (Hall _ _ _ _ Hn H1) as [[_ L1]|[? _]]; [|done].
    destruct (Hall _ _ _ _ Hn' H2) as [[_ L2]|[? _]]; [|done].
    pose proof (groups_disjoint c (nd_group n) (nd_group n') ltac:(done)). lia.
Qed.

(** ** Witnesses: a five-node cluster split 2/3 around its old leader *)

Definition wc0 : Cluster := NewCluster 5.
Definition wc1 : Cluster := match Elect wc0 0 with Some (c, _) => c | None => wc0 end.
Definition wc2 : Cluster := Partition wc1 [0; 1]%nat.
Definition wc3 : Cluster := match Elect wc2 3 with Some (c, _) => c | None => wc2 end.

Lemma wc2_reach : rtc raft_step (NewCluster 5, 0%nat) (wc2, 1%nat).
Proof.
  eapply rtc_l. { by apply (raft_elect _ _ 0%nat wc1 (Ok 0%nat)). }
  eapply rtc_l. { apply raft_partition. }
  apply rtc_refl.
Qed.

Lemma wc3_reach : rtc raft_step (NewCluster 5, 0%nat) (wc3, 2%nat).
Proof.
  eapply rtc_r; [apply wc2_reach|]. by apply (raft_elect _ _ 3%nat wc3 (Ok 3%nat)).
Qed.

(** Two nodes believe they lead; [Write] runs for node 3 and is refused for all the
others. *)
Lemma Write_single_writer_witness :
  nd_ID <$> Leaders wc3 = [0; 3]%nat ∧ Write wc3 3 S 7%nat = Some (8%nat, None) ∧
  ∀ i, (i < 5)%nat → i ≠ 3%nat → Write wc3 i S 7%nat = Some (7%nat, Some ErrFenced).
Proof.
  destruct (Write_single_writer 5 wc3 2 wc3_reach) as (w & Hw & _); [vm_compute; done|].
  split; [reflexivity|]. split; [reflexivity|]. intros i Hi Hne.
  rewrite (Hw i nat S 7%nat) by exact Hi. pose proof (Hw 3%nat nat S 7%nat ltac:(vm_compute; lia)) as H3.
  destruct (decide (w = Some i)) as [->|_]; [|reflexivity].
  rewrite decide_False in H3 by congruence. vm_compute in H3. congruence.
Defined.

Lemma Elect_fences_witness :
  Write wc3 3 S 0%nat = Some (1%nat, None) ∧ Write wc3 0 S 0%nat = Some (0%nat, Some ErrFenced).
Proof.
  destruct (Elect_fences 5 wc2 1 3 wc3 3 wc2_reach) as (_ & _ & H1 & H2);
    [vm_compute; done|reflexivity|].
  split; [exact (H1 nat S 0%nat)|]. apply H2; [done|vm_compute; lia].
Defined.

Lemma Elect_quorum_witness :
  ∃ c' r, Elect wc2 0 = Some (c', r) ∧ r = Err ErrNoQuorum.
Proof.
  destruct (Elect_quorum wc2 0 (mkNode 0 1 Leader 1) eq_refl) as [(c' & r & H & [[-> _]|[-> _]]) _].
  - vm_compute in H. discriminate H.
  - eauto.
Defined.
