(* ===== verification/Playground.v ===== *)
(** * distributed-primitives-go/cmd/playground: the cluster behind HTTP

Every handler of the playground locks the server, drives the cluster of [Raft] and
answers with its state; a panic of the cluster on an index that is out of range
ends the request, with both locks released by their deferred unlocks. *)

From Stdlib Require Import ZArith Lia Ascii.
From stdpp Require Import base gmap strings pretty list relations.
From S2P Require Import Prelude GoStrings Raft.

Open Scope string_scope.
Open Scope list_scope.
Open Scope Z_scope.

(* [base] distributed-primitives-go/cmd/playground *)

(* [go] main.go:22-27 server *)
Record server : Type := mkServer { sv_cluster : Cluster; sv_size : nat; sv_logs : list string }.

(** Newest line first, at most twelve. *)
(* [go] main.go:29-35 server.note *)
Definition note (line : string) (s : server) : server :=
  let logs := line :: sv_logs s in
  mkServer (sv_cluster s) (sv_size s) (if (12 <? length logs)%nat then take 12 logs else logs).

(* [go] main.go:37-41 stateResp *)
Record stateResp : Type := mkState { st_Nodes : list NodeView; st_CommittedTerm : Z; st_Logs : list string }.

(* [go] main.go:43-46 server.state *)
Definition state (s : server) : stateResp :=
  let '(nodes, ct) := Snapshot (sv_cluster s) in mkState nodes ct (sv_logs s).

Definition err_text (e : raft_err) : string :=
  match e with
  | ErrNoQuorum => "raft: no quorum — cannot elect a leader without a majority"
  | ErrFenced => "raft: leader is fenced — a newer term has taken over"
  end.

(** The number [strconv.Atoi] returns beside its error: 0 for text that is no number,
the nearest integer for one out of range. *)
Definition Atoi_value (s : string) : Z :=
  match signed s with Some z => Z.max min_i64 (Z.min max_i64 z) | None => 0 end.

(** A slice of ints, printed. *)
Fixpoint words (l : list Z) : string :=
  match l with [] => "" | [z] => Itoa z | z :: l' => Itoa z +:+ " " +:+ words l' end.

Definition ints_text (l : list Z) : string := "[" +:+ words l +:+ "]".

(** Nodes have positions as ids; an id that is no position selects none. *)
Definition positions (ids : list Z) : list nat := Z.to_nat <$> filter (fun z => 0 ≤ z) ids.

Inductive req : Type :=
| QState | QReset | QElect (id : string) | QPartition (ids : string) | QHeal | QWrite (id : string).

Definition set_cluster (c : Cluster) (s : server) : server := mkServer c (sv_size s) (sv_logs s).

(* [go] main.go:59-66 server.handleReset *)
Definition handleReset (s : server) : server :=
  note ("reset: fresh " +:+ Itoa (Z.of_nat (sv_size s)) +:+ "-node cluster") (mkServer (NewCluster (sv_size s)) (sv_size s) []).

(** [None] is a panic. *)
(* [go] main.go:68-79 server.handleElect *)
Definition handleElect (text : string) (s : server) : option server :=
  let id := Atoi_value text in
  if id <? 0 then None
  else match Elect (sv_cluster s) (Z.to_nat id) with
       | None => None
       | Some (c, Err e) => Some (note ("node " +:+ Itoa id +:+ " tried to elect → " +:+ err_text e) (set_cluster c s))
       | Some (c, Ok leader) =>
           let term := default 0 (nd_Term <$> cl_nodes c !! leader) in
           Some (note ("node " +:+ Itoa (Z.of_nat leader) +:+ " became LEADER at term " +:+ Itoa term) (set_cluster c s))
       end.

(* [go] main.go:84-93 server.handlePartition *)
Definition partition_ids (text : string) : list Z :=
  omap (fun p => if String.eqb p "" then None else ParseInt p) (split ","%char text).

(* [go] main.go:81-101 server.handlePartition *)
Definition handlePartition (text : string) (s : server) : server :=
  match partition_ids text with
  | [] => note "partition: no nodes selected" s
  | ids => note ("partitioned nodes " +:+ ints_text ids +:+ " into their own group")
             (set_cluster (Partition (sv_cluster s) (positions ids)) s)
  end.

(* [go] main.go:103-109 server.handleHeal *)
Definition handleHeal (s : server) : server :=
  note "network healed — all nodes reconnected" (set_cluster (Heal (sv_cluster s)) s).

(* [go] main.go:111-122 server.handleWrite *)
Definition handleWrite (text : string) (s : server) : option server :=
  let id := Atoi_value text in
  if id <? 0 then None
  else match Write (sv_cluster s) (Z.to_nat id) (fun u : unit => u) tt with
       | None => None
       | Some (_, Some e) => Some (note ("write via node " +:+ Itoa id +:+ " → REJECTED: " +:+ err_text e) s)
       | Some (_, None) => Some (note ("write via node " +:+ Itoa id +:+ " → committed ✓") s)
       end.

(** The answer of a request, [None] for one that panicked, and the server after it. *)
(* [go] main.go:48-57 server.writeState, handleState *)
Definition writeState (before : server) (after : option server) : option stateResp * server :=
  match after with Some s => (Some (state s), s) | None => (None, before) end.

(* [go] main.go:129-134 main *)
Definition serve (q : req) (s : server) : option stateResp * server :=
  writeState s (match q with
    | QState => Some s
    | QReset => Some (handleReset s)
    | QElect id => handleElect id s
    | QPartition ids => Some (handlePartition ids s)
    | QHeal => Some (handleHeal s)
    | QWrite id => handleWrite id s
    end).

(* [go] main.go:125-127 main *)
Definition start : server :=
  note "fresh 5-node cluster ready" (mkServer (NewCluster 5) 5 []).

(* [go] main.go:140-143 main *)
Definition listen_addr (port : string) : string := if negb (String.eqb port "") then ":" +:+ port else ":9100".

Definition play (qs : list req) : server := foldl (fun s q => (serve q s).2) start qs.

(** ** Lemmas *)

(** The cluster is one that elections, splits and heals make, with at most [n] of
them. *)
Definition playable (n : nat) (s : server) : Prop :=
  sv_size s = 5%nat ∧ (length (sv_logs s) ≤ 12)%nat ∧ length (cl_nodes (sv_cluster s)) = 5%nat ∧
  ∃ k, (k ≤ n)%nat ∧ rtc raft_step (NewCluster 5, 0%nat) (sv_cluster s, k).

Lemma note_logs line s : (length (sv_logs (note line s)) ≤ 12)%nat.
Proof.
  unfold note. cbn [sv_logs]. destruct (Nat.ltb_spec 12 (length (line :: sv_logs s))) as [H|H]; [|exact H].
  rewrite length_take. lia.
Qed.

Lemma playable_note n line s :
  sv_size s = 5%nat → length (cl_nodes (sv_cluster s)) = 5%nat →
  (∃ k, (k ≤ n)%nat ∧ rtc raft_step (NewCluster 5, 0%nat) (sv_cluster s, k)) → playable n (note line s).
Proof. intros H1 H2 H3. split_and!; [done|apply note_logs|done|done]. Qed.

Lemma Elect_length c id c' r : Elect c id = Some (c', r) → length (cl_nodes c') = length (cl_nodes c).
Proof.
  unfold Elect. destruct (cl_nodes c !! id); [|done]. case_test; intros [= <- <-]; simpl;
    by rewrite ?length_insert, ?length_fmap, ?length_insert.
Qed.

Lemma serve_playable n q s : playable n s → playable (S n) (serve q s).2.
Proof.
  intros (Hs & Hl & Hn & k & Hk & Hr).
  assert (∃ k, (k ≤ S n)%nat ∧ rtc raft_step (NewCluster 5, 0%nat) (sv_cluster s, k)) as Hr' by (exists k; split; [lia|done]).
  assert (playable (S n) s) as Hkeep by done. unfold serve, writeState. destruct q as [| |id|ids| |id]; simpl.
  - done.
  - apply playable_note; simpl; rewrite ?Hs; [done|by rewrite length_fmap|]. exists 0%nat. split; [lia|apply rtc_refl].
  - unfold handleElect. destruct (_ <? 0); [done|]. destruct (Elect (sv_cluster s) _) as [[c [l|e]]|] eqn:E; simpl; [| |done];
      (apply playable_note; simpl; [done|by rewrite (Elect_length _ _ _ _ E)|]; exists (S k); split; [lia|];
       eapply rtc_r; [exact Hr|by eapply raft_elect]).
  - unfold handlePartition. destruct (partition_ids ids) as [|z zs]; apply playable_note; try done; simpl.
    + by rewrite length_fmap.
    + exists k. split; [lia|]. eapply rtc_r; [exact Hr|apply raft_partition].
  - apply playable_note; simpl; [done|by rewrite length_fmap|]. exists k. split; [lia|].
    eapply rtc_r; [exact Hr|apply raft_heal].
  - unfold handleWrite. destruct (_ <? 0); [done|]. destruct (Write _ _ _ _) as [[u [e|]]|]; simpl; [by apply playable_note..|done].
Qed.

Lemma play_playable qs : playable (length qs) (play qs).
Proof.
  unfold play. induction qs as [|q qs IH] using rev_ind.
  - split_and!; [done|simpl; lia|done|]. exists 0%nat. split; [done|apply rtc_refl].
  - rewrite foldl_snoc, length_app, Nat.add_1_r. by apply serve_playable.
Qed.

(** A write commits exactly when its node passes the fence, and the rest is refused. *)
Lemma handleWrite_cases text s :
  let id := Atoi_value text in
  0 ≤ id → (Z.to_nat id < length (cl_nodes (sv_cluster s)))%nat →
  (can_write (sv_cluster s) (Z.to_nat id) ∧
     handleWrite text s = Some (note ("write via node " +:+ Itoa id +:+ " → committed ✓") s)) ∨
  (¬ can_write (sv_cluster s) (Z.to_nat id) ∧
     handleWrite text s = Some (note ("write via node " +:+ Itoa id +:+ " → REJECTED: " +:+ err_text ErrFenced) s)).
Proof.
  intros id H0 [n Hn]%lookup_lt_is_Some. unfold handleWrite. fold id.
  rewrite (proj2 (Z.ltb_ge id 0)) by done.
  destruct (Write_cases (sv_cluster s) (Z.to_nat id) n (fun u : unit => u) tt Hn) as [[Hc E]|[Hc E]];
    rewrite E; eauto.
Qed.

(** ** Properties *)

(** Whatever is clicked, in any order and with any text as ids, for fewer than 2^64
requests: the cluster keeps its five nodes and the log at most twelve lines, a
write on a node is answered committed exactly when the node passes the fence, and
at most one node does, also while several show themselves as leaders; and a
request that panics leaves everything as it was. *)
Theorem Playground_single_writer (qs : list req) :
  Z.of_nat (length qs) < 2 ^ 64 →
  let s := play qs in
  length (cl_nodes (sv_cluster s)) = 5%nat ∧ (length (sv_logs s) ≤ 12)%nat ∧
  (∀ i j, can_write (sv_cluster s) i → can_write (sv_cluster s) j → i = j) ∧
  (∀ text, let id := Atoi_value text in 0 ≤ id < 5 →
     (can_write (sv_cluster s) (Z.to_nat id) ∧
        (serve (QWrite text) s).2 = note ("write via node " +:+ Itoa id +:+ " → committed ✓") s) ∨
     (¬ can_write (sv_cluster s) (Z.to_nat id) ∧
        (serve (QWrite text) s).2 = note ("write via node " +:+ Itoa id +:+ " → REJECTED: " +:+ err_text ErrFenced) s)) ∧
  (∀ q, (serve q s).1 = None → (serve q s).2 = s).
Proof.
  intros Hlen. destruct (play_playable qs) as (_ & Hl & Hn & k & Hk & Hr). simpl. split_and!; [done|done| | |].
  - intros i j. eapply can_write_unique. apply (raft_inv_reach _ _ Hr). simpl. lia.
  - intros text Hid. destruct (handleWrite_cases text (play qs)) as [[H1 H2]|[H1 H2]]; [lia|rewrite Hn; lia| |];
      [left|right]; (split; [exact H1|]); unfold serve; by rewrite H2.
  - intros q. unfold serve, writeState. by case_match.
Qed.

(** A leader is cut off with one follower, the rest elects another, and both writes
are tried. *)
Definition clicks : list req :=
  [QElect "0"; QPartition "0,1,"; QElect "3"; QWrite "0"; QWrite "3"; QElect "9"].

Lemma Playground_single_writer_witness :
  length (Leaders (sv_cluster (play clicks))) = 2%nat ∧ can_write (sv_cluster (play clicks)) 3 ∧
  (∀ i, can_write (sv_cluster (play clicks)) i → i = 3%nat) ∧
  take 2 (sv_logs (play clicks)) =
    ["write via node 3 → committed ✓"; "write via node 0 → REJECTED: raft: leader is fenced — a newer term has taken over"].
Proof.
  assert (can_write (sv_cluster (play clicks)) 3) as H3.
  { vm_compute. reflexivity. }
  destruct (Playground_single_writer clicks ltac:(vm_compute; reflexivity)) as (_ & _ & H & _).
  split; [vm_compute; reflexivity|]. split; [exact H3|]. split; [intros i Hi; by apply H|vm_compute; reflexivity].
Defined.

(** Text that is no number selects node 0: a write without an id goes through the
leader 0, and an election with a mistyped id deposes the leader in favour of node
0. *)
Theorem bad_id_is_node_zero :
  head (sv_logs (play [QElect "0"; QWrite ""])) = Some "write via node 0 → committed ✓" ∧
  head (sv_logs (play [QElect "2"; QElect "x3"])) = Some "node 0 became LEADER at term 2".
Proof. vm_compute. done. Qed.
