(* ===== verification/Clocks.v ===== *)
(** * distributed-primitives-go/clocks: Lamport, vector and hybrid logical clocks

The three clocks, and the executions they stamp: a system of processes whose
events are local events (or sends) and receipts of the stamp of an earlier
event.  [happens_before] is Lamport's relation on the events of an execution.
The class [LogicalClock] states what a scalar clock promises; the clock
condition is proved once against it and holds for Lamport and HLC. *)

From Stdlib Require Import ZArith Lia.
From stdpp Require Import base gmap strings fin_maps relations functions list.
From S2P Require Import Prelude.

Open Scope Z_scope.

(* [base] distributed-primitives-go/clocks *)

(** ** Lamport *)

(* [go] lamport.go:13-15 Lamport *)
Definition Lamport : Type := Z.

(* [go] lamport.go:19-22 Lamport.Tick *)
Definition Lamport_Tick (t : Lamport) : Lamport * Z :=
  let t' := u64 (t + 1) in (t', t').

(* [go] lamport.go:27-33 Lamport.Update *)
Definition Lamport_Update (t : Lamport) (recv : Z) : Lamport * Z :=
  let t1 := if recv >? t then recv else t in
  let t2 := u64 (t1 + 1) in (t2, t2).

(* [go] lamport.go:36-36 Lamport.Now *)
Definition Lamport_Now (t : Lamport) : Z := t.

(** ** Vector clocks *)

(* [go] vector.go:4-11 Ordering *)
Inductive Ordering : Type := Equal | Before | After | Concurrent.

(* [go] vector.go:13-24 Ordering.String *)
Definition Ordering_String (o : Ordering) : string :=
  match o with
  | Equal => "Equal" | Before => "Before" | After => "After" | Concurrent => "Concurrent"
  end.

(* [go] vector.go:31-34 VectorClock *)
Record VectorClock : Type := mkVC { vc_node : string; vc_vec : gmap string Z }.

(* [go] vector.go:36-38 NewVectorClock *)
Definition NewVectorClock (node : string) : VectorClock := mkVC node ∅.

(* [go] vector.go:41-43 VectorClock.Tick *)
Definition VectorClock_Tick (v : VectorClock) : VectorClock :=
  mkVC (vc_node v) (<[vc_node v := u64 (zget (vc_vec v) (vc_node v) + 1)]> (vc_vec v)).

(** The loop of [Merge], over the entries of the received map in the order
[l] in which the range statement happens to visit them. *)
(* [go] vector.go:48-52 VectorClock.Merge *)
Fixpoint merge_entries (l : list (string * Z)) (m : gmap string Z) : gmap string Z :=
  match l with
  | [] => m
  | (node, c) :: l' => merge_entries l' (if c >? zget m node then <[node := c]> m else m)
  end.

(* [go] vector.go:47-54 VectorClock.Merge *)
Definition VectorClock_Merge (v : VectorClock) (other : gmap string Z) : VectorClock :=
  VectorClock_Tick (mkVC (vc_node v) (merge_entries (map_to_list other) (vc_vec v))).

(* [go] vector.go:57-63 VectorClock.Snapshot *)
Definition VectorClock_Snapshot (v : VectorClock) : gmap string Z := vc_vec v.

(** [Compare] walks the union of the keys, setting the two flags. *)
(* [go] vector.go:67-94 Compare *)
Definition Compare (a b : gmap string Z) : Ordering :=
  let seen := elements (dom a ∪ dom b) in
  let aGreater := existsb (fun k => zget a k >? zget b k) seen in
  let bGreater := existsb (fun k => zget a k <? zget b k) seen in
  if aGreater && bGreater then Concurrent
  else if aGreater then After
  else if bGreater then Before
  else Equal.

(** ** Hybrid logical clock *)

(** The injected [now] function is the [wall] argument of each operation. *)
(* [go] hlc.go:13-17 HLC *)
Record HLC : Type := mkHLC { hlc_physical : Z; hlc_logical : Z }.

(* [go] hlc.go:21-23 NewHLC *)
Definition NewHLC : HLC := mkHLC 0 0.

(* [go] hlc.go:28-37 HLC.Now *)
Definition HLC_Now (wall : Z) (h : HLC) : HLC * (Z * Z) :=
  let h' := if wall >? hlc_physical h then mkHLC wall 0
            else mkHLC (hlc_physical h) (u64 (hlc_logical h + 1)) in
  (h', (hlc_physical h', hlc_logical h')).

(* [go] hlc.go:41-65 HLC.Update *)
Definition HLC_Update (wall : Z) (h : HLC) (rp rl : Z) : HLC * (Z * Z) :=
  let m0 := hlc_physical h in
  let m1 := if rp >? m0 then rp else m0 in
  let max := if wall >? m1 then wall else m1 in
  let logical :=
    if (max =? hlc_physical h) && (max =? rp)
    then u64 ((if rl >? hlc_logical h then rl else hlc_logical h) + 1)
    else if max =? hlc_physical h then u64 (hlc_logical h + 1)
    else if max =? rp then u64 (rl + 1)
    else 0 in
  (mkHLC max logical, (max, logical)).

(** ** Executions *)

(** An event of process [p]: a local event (a send included) or the receipt of
the message stamped at event [src]; [e] is the environment's input (a wall
clock reading). *)
Inductive event (Env : Type) : Type :=
| ELocal (p : string) (e : Env)
| ERecv (p : string) (src : nat) (e : Env).
Arguments ELocal {Env}.
Arguments ERecv {Env}.

Definition ev_proc {Env} (x : event Env) : string :=
  match x with ELocal p _ => p | ERecv p _ _ => p end.

Definition ev_src {Env} (x : event Env) : option nat :=
  match x with ELocal _ _ => None | ERecv _ s _ => Some s end.

(** Messages are received after they were sent. *)
Definition wf_trace {Env} (evs : list (event Env)) : Prop :=
  ∀ j x s, evs !! j = Some x → ev_src x = Some s → (s < j)%nat.

(** The two immediate causes of event [j]: an earlier event of its process, and
the event whose message it receives. *)
Definition causes {Env} (evs : list (event Env)) (i j : nat) : Prop :=
  (i < j)%nat ∧ ∃ x y, evs !! i = Some x ∧ evs !! j = Some y ∧
    (ev_proc x = ev_proc y ∨ ev_src y = Some i).

Definition happens_before {Env} (evs : list (event Env)) : relation nat := tc (causes evs).

(** What a clock promises: [cur] is the stamp a state stands for, [room n t]
that [n] more steps from stamp [t] do not overflow. *)
Class LogicalClock (St Stamp Env : Type) : Type := {
  lc_init : St;
  lc_cur : St → Stamp;
  lc_tick : Env → St → St * Stamp;
  lc_recv : Env → Stamp → St → St * Stamp;
  lc_lt : Stamp → Stamp → Prop;
  lc_room : nat → Stamp → Prop;
  lc_lt_trans : ∀ a b c, lc_lt a b → lc_lt b c → lc_lt a c;
  lc_room_mono : ∀ n a, lc_room (S n) a → lc_room n a;
  lc_tick_ok : ∀ e s n, lc_room (S n) (lc_cur s) →
    let '(s', t) := lc_tick e s in lc_cur s' = t ∧ lc_lt (lc_cur s) t ∧ lc_room n t;
  lc_recv_ok : ∀ e m s n, lc_room (S n) (lc_cur s) → lc_room (S n) m →
    let '(s', t) := lc_recv e m s in
    lc_cur s' = t ∧ lc_lt (lc_cur s) t ∧ lc_lt m t ∧ lc_room n t }.

Section run.
Context {St Stamp Env : Type} `{LogicalClock St Stamp Env}.

(** One event: the clock of its process advances and stamps it. *)
Definition lc_step (r : (string → St) * list Stamp) (x : event Env) : (string → St) * list Stamp :=
  let '(sts, stamps) := r in
  let '(s', t) :=
    match x with
    | ELocal p e => lc_tick e (sts p)
    | ERecv p s e =>
        match stamps !! s with
        | Some m => lc_recv e m (sts p)
        | None => (sts p, lc_cur (sts p))
        end
    end in
  (<[ev_proc x := s']> sts, stamps ++ [t]).

Definition lc_run (evs : list (event Env)) : (string → St) * list Stamp :=
  foldl lc_step (fun _ => lc_init, []) evs.
End run.

(** ** Lemmas on executions *)

Section trace.
Context {Env : Type}.
Implicit Types evs : list (event Env).

Lemma hb_lt evs i j : happens_before evs i j → (i < j)%nat.
Proof. induction 1 as [i j [? _]|i k j [? _] _ IH]; lia. Qed.

Lemma causes_snoc evs x i j : causes (evs ++ [x]) i j →
  (j < length evs)%nat ∧ causes evs i j ∨
  j = length evs ∧ ∃ y, evs !! i = Some y ∧ (ev_proc y = ev_proc x ∨ ev_src x = Some i).
Proof.
  intros (Hlt & y & z & Hy & Hz & Hc).
  assert (j < length (evs ++ [x]))%nat as Hj by eauto using lookup_lt_Some.
  rewrite length_app in Hj. simpl in Hj. rewrite lookup_app_l in Hy by lia.
  destruct (decide (j = length evs)) as [->|Hne].
  - right. rewrite list_lookup_middle in Hz by done. simplify_eq. eauto.
  - left. rewrite lookup_app_l in Hz by lia. split; [lia|]. split; [done|]. eauto.
Qed.

Lemma causes_weaken evs x i j : causes evs i j → causes (evs ++ [x]) i j.
Proof.
  intros (Hlt & y & z & Hy & Hz & Hc). split; [done|]. exists y, z.
  rewrite !lookup_app_l by eauto using lookup_lt_Some. done.
Qed.

Lemma hb_weaken evs x i j : happens_before evs i j → happens_before (evs ++ [x]) i j.
Proof. induction 1; [apply tc_once|eapply tc_l]; eauto using causes_weaken. Qed.

(** The last cause of a chain. *)
Lemma hb_last evs i j : happens_before evs i j →
  ∃ k, (i = k ∨ happens_before evs i k) ∧ causes evs k j.
Proof.
  induction 1 as [i j Hc|i k j Hc Hk (m & [->|Hm] & IH)]; [eauto| |].
  - exists m. split; [right; by apply tc_once|done].
  - exists m. split; [right; by eapply tc_l|done].
Qed.

Lemma hb_old evs x i j : (j < length evs)%nat →
  happens_before (evs ++ [x]) i j → happens_before evs i j.
Proof.
  intros Hj Hh. induction Hh as [i j Hc|i k j Hc Hk IH].
  - apply tc_once. destruct (causes_snoc _ _ _ _ Hc) as [[_ ?]|[-> _]]; [done|lia].
  - apply hb_lt in Hk as ?. destruct (causes_snoc _ _ _ _ Hc) as [[_ ?]|[-> _]]; [|lia].
    eapply tc_l; [done|]. by apply IH.
Qed.
End trace.

(** ** The clock condition *)

Section clock_condition.
Context {St Stamp Env : Type} `{LogicalClock St Stamp Env}.

Lemma lc_room_weaken n m a : (m ≤ n)%nat → lc_room n a → lc_room m a.
Proof. induction 1; eauto using lc_room_mono. Qed.

(** What holds of the result [r] of the events [evs], [n] more being possible. *)
Record lc_inv (evs : list (event Env)) (r : (string → St) * list Stamp) (n : nat) : Prop := {
  lci_len : length r.2 = length evs;
  lci_state : ∀ p, lc_room n (lc_cur (r.1 p));
  lci_room : ∀ i t, r.2 !! i = Some t → lc_room n t;
  lci_proc : ∀ i x t, evs !! i = Some x → r.2 !! i = Some t →
    t = lc_cur (r.1 (ev_proc x)) ∨ lc_lt t (lc_cur (r.1 (ev_proc x)));
  lci_causes : ∀ i j a b, causes evs i j → r.2 !! i = Some a → r.2 !! j = Some b → lc_lt a b }.

(** The stamp given to one more event is above its causes. *)
Lemma lc_step_ok evs r x n : wf_trace (evs ++ [x]) → lc_inv evs r (S n) →
  ∃ s' t, lc_step r x = (<[ev_proc x := s']> r.1, r.2 ++ [t]) ∧
    lc_cur s' = t ∧ lc_lt (lc_cur (r.1 (ev_proc x))) t ∧ lc_room n t ∧
    (∀ k m, ev_src x = Some k → r.2 !! k = Some m → lc_lt m t).
Proof.
  intros Hwf [Hlen Hst Hroom _ _]. destruct r as [sts stamps]. simpl in *.
  destruct x as [q e|q k e]; simpl.
  - pose proof (lc_tick_ok e (sts q) n (Hst q)). destruct (lc_tick e (sts q)) as [s' t].
    exists s', t. naive_solver.
  - assert (k < length evs)%nat as Hk.
    { apply (Hwf (length evs) (ERecv q k e)); [by rewrite list_lookup_middle|done]. }
    destruct (lookup_lt_is_Some_2 stamps k) as [m Hm]; [lia|]. rewrite Hm.
    pose proof (lc_recv_ok e m (sts q) n (Hst q) (Hroom k m Hm)).
    destruct (lc_recv e m (sts q)) as [s' t]. exists s', t. naive_solver.
Qed.

Lemma lc_inv_snoc evs r x n : wf_trace (evs ++ [x]) → lc_inv evs r (S n) →
  lc_inv (evs ++ [x]) (lc_step r x) n.
Proof.
  intros Hwf Hinv. destruct (lc_step_ok evs r x n Hwf Hinv) as (s' & t & -> & Hc & Hl & Hr & Hs).
  destruct Hinv as [Hlen Hst Hroom Hproc Hca].
  assert (∀ i a, (r.2 ++ [t]) !! i = Some a →
    (i < length evs)%nat ∧ r.2 !! i = Some a ∨ i = length evs ∧ a = t) as Hlk.
  { intros i a Hi. apply lookup_app_Some in Hi as [Hi|[? Hi]].
    - left. split; [|done]. rewrite <- Hlen. by eapply lookup_lt_Some.
    - right. apply list_lookup_singleton_Some in Hi as [? <-]. split; [lia|done]. }
  assert (∀ i y a, evs !! i = Some y → r.2 !! i = Some a → ev_proc y = ev_proc x → lc_lt a t) as Hpt.
  { intros i y a Hy Ha Hp. destruct (Hproc i y a Hy Ha) as [->|Ha']; rewrite ?Hp in *;
      eauto using lc_lt_trans. }
  constructor; cbn [fst snd].
  - by rewrite !length_app, Hlen.
  - intros p. destruct (decide (p = ev_proc x)) as [->|Hne].
    + rewrite fn_lookup_insert. by rewrite Hc.
    + rewrite fn_lookup_insert_ne by done. apply lc_room_mono, Hst.
  - intros i a [[_ Ha]|[_ ->]]%Hlk; [|done]. by apply lc_room_mono, (Hroom i).
  - intros i y a Hy [[Hi Ha]|[-> ->]]%Hlk.
    + rewrite lookup_app_l in Hy by done. destruct (decide (ev_proc y = ev_proc x)) as [Hp|Hp].
      * rewrite Hp, fn_lookup_insert, Hc. right. eauto.
      * rewrite fn_lookup_insert_ne by done. eauto.
    + rewrite list_lookup_middle in Hy by done. simplify_eq.
      left. by rewrite fn_lookup_insert.
  - intros i j a b Hcs Ha Hb.
    destruct (causes_snoc _ _ _ _ Hcs) as [[Hj Hold]|(-> & y & Hy & Hyc)].
    + destruct Hold as (Hij & ?). destruct (Hlk _ _ Ha) as [[_ Ha']|[-> _]]; [|lia].
      destruct (Hlk _ _ Hb) as [[_ Hb']|[-> _]]; [|lia]. eapply Hca; eauto. by split.
    + destruct (Hlk _ _ Hb) as [[? _]|[_ ->]]; [lia|].
      destruct (Hlk _ _ Ha) as [[_ Ha']|[-> _]]; [|by apply lookup_lt_Some in Hy; lia].
      destruct Hyc; eauto.
Qed.

Lemma wf_trace_prefix evs (x : event Env) : wf_trace (evs ++ [x]) → wf_trace evs.
Proof. intros Hwf j y s Hj. apply Hwf. by apply lookup_app_l_Some. Qed.

Lemma lc_inv_run evs n : wf_trace evs → lc_room (length evs + n) (lc_cur lc_init) →
  lc_inv evs (lc_run evs) n.
Proof.
  revert n. induction evs as [|x evs IH] using rev_ind; intros n Hwf Hr.
  - constructor; simpl; done.
  - unfold lc_run. rewrite foldl_app. simpl. apply lc_inv_snoc; [done|].
    apply IH; [by eapply wf_trace_prefix|]. rewrite length_app in Hr. simpl in Hr.
    eapply lc_room_weaken; [|exact Hr]. lia.
Qed.

(** The clock condition, for every implementation of the interface. *)
Lemma clock_condition evs i j a b :
  wf_trace evs → lc_room (length evs) (lc_cur lc_init) →
  happens_before evs i j → (lc_run evs).2 !! i = Some a → (lc_run evs).2 !! j = Some b → lc_lt a b.
Proof.
  intros Hwf Hr Hh. pose proof (lc_inv_run evs 0 Hwf) as Hinv. rewrite Nat.add_0_r in Hinv.
  destruct (Hinv Hr) as [Hlen _ _ _ Hca]. clear Hinv.
  revert a. induction Hh as [i j Hc|i k j Hc Hk IH]; intros a Ha Hb; [by eapply Hca|].
  assert (∃ c, (lc_run evs).2 !! k = Some c) as [c Hc'].
  { apply lookup_lt_is_Some_2. rewrite Hlen. destruct Hc as (_ & ? & ? & _ & H' & _).
    by eapply lookup_lt_Some. }
  eapply lc_lt_trans; [by eapply Hca|eauto].
Qed.
End clock_condition.

(** ** Lamport and HLC implement the interface *)

#[global] Program Instance Lamport_clock : LogicalClock Lamport Z unit := {
  lc_init := 0; lc_cur := Lamport_Now; lc_tick := fun _ => Lamport_Tick;
  lc_recv := fun _ m t => Lamport_Update t m; lc_lt := Z.lt;
  lc_room := fun n t => 0 ≤ t ∧ t + Z.of_nat n < 2 ^ 64 }.
Next Obligation. intros; lia. Qed.
Next Obligation. simpl. intros; lia. Qed.
Next Obligation.
  intros _ s n [? ?]. unfold Lamport_Tick, Lamport_Now in *.
  rewrite u64_small by (unfold in_u64; lia). lia.
Qed.
Next Obligation.
  intros _ m s n [? ?] [? ?]. unfold Lamport_Update, Lamport_Now in *.
  case_test; zbool; (rewrite u64_small by (unfold in_u64; lia)); lia.
Qed.

(** Timestamps are compared by physical, then logical component. *)
Definition hlc_lt (a b : Z * Z) : Prop := a.1 < b.1 ∨ a.1 = b.1 ∧ a.2 < b.2.

#[global] Program Instance HLC_clock : LogicalClock HLC (Z * Z) Z := {
  lc_init := NewHLC; lc_cur := fun h => (hlc_physical h, hlc_logical h); lc_tick := HLC_Now;
  lc_recv := fun wall m h => HLC_Update wall h m.1 m.2; lc_lt := hlc_lt;
  lc_room := fun n t => 0 ≤ t.2 ∧ t.2 + Z.of_nat n < 2 ^ 64 }.
Next Obligation. unfold hlc_lt. intros; lia. Qed.
Next Obligation. simpl. intros; lia. Qed.
Next Obligation.
  intros wall h n [? ?]. unfold HLC_Now, hlc_lt in *. simpl in *.
  case_test; zbool; simpl; rewrite ?u64_small by (unfold in_u64; lia);
    split_and!; first [done|lia].
Qed.
Next Obligation.
  intros wall [rp rl] h n [? ?] [? ?]. unfold HLC_Update, hlc_lt in *. simpl in *.
  repeat case_test; zbool; simpl; rewrite ?u64_small by (unfold in_u64; lia); split_and!;
    first [done|lia].
Qed.

(** ** Compare *)

Definition vle (a b : gmap string Z) : Prop := ∀ k, zget a k ≤ zget b k.

Lemma existsb_union (f : Z → Z → bool) (a b : gmap string Z) : f 0 0 = false →
  existsb (fun k => f (zget a k) (zget b k)) (elements (dom a ∪ dom b)) = true ↔
  ∃ k, f (zget a k) (zget b k) = true.
Proof.
  intros Hf. rewrite existsb_exists. split; [naive_solver|]. intros [k Hk]. exists k.
  split; [|done]. apply list_elem_of_In, elem_of_elements.
  destruct (decide (k ∈ dom a ∪ dom b)) as [|Hn]; [done|].
  apply not_elem_of_union in Hn as [Ha Hb].
  rewrite (zget_dom a), (zget_dom b), Hf in Hk by done. done.
Qed.

Lemma Compare_spec a b : match Compare a b with
  | Equal => vle a b ∧ vle b a
  | Before => vle a b ∧ ∃ k, zget a k < zget b k
  | After => vle b a ∧ ∃ k, zget b k < zget a k
  | Concurrent => (∃ k, zget a k < zget b k) ∧ ∃ k, zget b k < zget a k end.
Proof.
  unfold Compare, vle.
  destruct (existsb (fun k => zget a k >? zget b k) _) eqn:Ea;
  destruct (existsb (fun k => zget a k <? zget b k) _) eqn:Eb; simpl.
  all: try (apply (existsb_union Z.gtb a b eq_refl) in Ea as [ka Ha]; zbool).
  all: try (apply (existsb_union Z.ltb a b eq_refl) in Eb as [kb Hb]; zbool).
  all: try (assert (∀ k, zget a k ≤ zget b k) by (intros k; destruct (Z.leb_spec (zget a k) (zget b k));
    [done|]; rewrite (proj2 (existsb_union Z.gtb a b eq_refl)) in Ea; [done|]; exists k;
    by rewrite Z.gtb_ltb, Z.ltb_lt)).
  all: try (assert (∀ k, zget b k ≤ zget a k) by (intros k; destruct (Z.leb_spec (zget b k) (zget a k));
    [done|]; rewrite (proj2 (existsb_union Z.ltb a b eq_refl)) in Eb; [done|]; exists k;
    by rewrite Z.ltb_lt)).
  all: eauto.
Qed.

Lemma Compare_Before a b : Compare a b = Before ↔ vle a b ∧ ∃ k, zget a k < zget b k.
Proof.
  unfold vle. pose proof (Compare_spec a b) as H. destruct (Compare a b); split; try done;
    intros [Hle [k Hk]]; exfalso; unfold vle in *.
  - pose proof (proj2 H k). lia.
  - pose proof (proj1 H k). lia.
  - destruct H as [_ [k' Hk']]. pose proof (Hle k'). lia.
Qed.

Lemma Compare_Concurrent a b : Compare a b = Concurrent ↔ ¬ vle a b ∧ ¬ vle b a.
Proof.
  unfold vle. pose proof (Compare_spec a b) as H. destruct (Compare a b); split; try done;
    unfold vle in *; try (intros [? ?]; naive_solver).
  destruct H as [[k Hk] [k' Hk']]. intros _. split; intros Hle.
  - pose proof (Hle k'). lia.
  - pose proof (Hle k). lia.
Qed.

(** ** Merge: element-wise maximum, whatever the iteration order *)

Lemma merge_entries_get l m k : NoDup l.*1 →
  zget (merge_entries l m) k =
    match (list_to_map l : gmap string Z) !! k with
    | Some c => Z.max (zget m k) c
    | None => zget m k
    end.
Proof.
  revert m. induction l as [|[node c] l IH]; intros m Hnd; simpl in *; [done|].
  apply NoDup_cons in Hnd as [Hnin Hnd]. rewrite IH by done.
  rewrite lookup_insert. case_decide as Hk; subst.
  - rewrite (not_elem_of_list_to_map_1 l k) by done. case_test; rewrite ?zget_insert; zbool;
      rewrite ?decide_True by done; lia.
  - case_test; rewrite ?zget_insert, ?decide_False by done; done.
Qed.

Lemma merge_entries_order l (other m : gmap string Z) k : l ≡ₚ map_to_list other →
  (∀ q, 0 ≤ zget other q) → (∀ q, 0 ≤ zget m q) →
  zget (merge_entries l m) k = Z.max (zget m k) (zget other k).
Proof.
  intros Hl Ho Hm. assert (NoDup l.*1) as Hnd by (rewrite Hl; apply NoDup_fst_map_to_list).
  rewrite merge_entries_get by done.
  rewrite (list_to_map_proper l (map_to_list other)) by done. rewrite list_to_map_to_list.
  specialize (Ho k). specialize (Hm k). unfold zget in *. destruct (other !! k); simpl in *; lia.
Qed.

(** ** Vector clocks characterize causality *)

Section vector.
Implicit Types evs : list (event unit).

(** A step of process [p]: [Tick] for a local event, [Merge] on receipt. *)
Definition vc_step (r : (string → VectorClock) * list (gmap string Z)) (x : event unit)
  : (string → VectorClock) * list (gmap string Z) :=
  let '(vcs, stamps) := r in
  let v := vcs (ev_proc x) in
  let v' := match ev_src x with
            | None => VectorClock_Tick v
            | Some s => VectorClock_Merge v (default ∅ (stamps !! s))
            end in
  (<[ev_proc x := v']> vcs, stamps ++ [VectorClock_Snapshot v']).

Definition vc_run evs : (string → VectorClock) * list (gmap string Z) :=
  foldl vc_step (NewVectorClock, []) evs.

(** The vector the process of [x] has when [x] happens, and the one received. *)
Record vc_inv evs (r : (string → VectorClock) * list (gmap string Z)) : Prop := {
  vi_len : length r.2 = length evs;
  vi_node : ∀ p, vc_node (r.1 p) = p;
  vi_range : ∀ p k, 0 ≤ zget (vc_vec (r.1 p)) k ≤ Z.of_nat (length evs);
  vi_own : ∀ p q, zget (vc_vec (r.1 q)) p ≤ zget (vc_vec (r.1 p)) p;
  vi_known : ∀ j b, r.2 !! j = Some b → ∃ q, vle b (vc_vec (r.1 q)) ∧ ∀ k, 0 ≤ zget b k;
  vi_last : ∀ p, (∀ k, zget (vc_vec (r.1 p)) k = 0) ∨
    ∃ i x, evs !! i = Some x ∧ ev_proc x = p ∧ r.2 !! i = Some (vc_vec (r.1 p));
  vi_proc : ∀ i x a, evs !! i = Some x → r.2 !! i = Some a → vle a (vc_vec (r.1 (ev_proc x)));
  vi_pos : ∀ i x a, evs !! i = Some x → r.2 !! i = Some a → 1 ≤ zget a (ev_proc x);
  vi_mono : ∀ i j a b, happens_before evs i j → r.2 !! i = Some a → r.2 !! j = Some b → vle a b;
  vi_exact : ∀ i j x a b, evs !! i = Some x → r.2 !! i = Some a → r.2 !! j = Some b →
    zget a (ev_proc x) ≤ zget b (ev_proc x) → i = j ∨ happens_before evs i j }.

(** The entries of the vector of one more event. *)
Lemma vc_step_get evs r x : wf_trace (evs ++ [x]) → Z.of_nat (length evs) + 1 < 2 ^ 64 →
  vc_inv evs r →
  ∃ v', vc_step r x = (<[ev_proc x := v']> r.1, r.2 ++ [vc_vec v']) ∧
    vc_node v' = ev_proc x ∧
    ∃ m : gmap string Z, (∀ k, 0 ≤ zget m k) ∧
      (∀ s, ev_src x = Some s → r.2 !! s = Some m) ∧ (ev_src x = None → m = ∅) ∧
      (∀ k, zget (vc_vec v') k = Z.max (zget (vc_vec (r.1 (ev_proc x))) k) (zget m k) +
         (if decide (k = ev_proc x) then 1 else 0)) ∧
      zget m (ev_proc x) ≤ zget (vc_vec (r.1 (ev_proc x))) (ev_proc x).
Proof.
  intros Hwf Hb Hinv. destruct r as [vcs stamps]. set (p := ev_proc x).
  destruct (ev_src x) as [s|] eqn:Es.
  - assert (s < length evs)%nat as Hs.
    { apply (Hwf (length evs) x); [by rewrite list_lookup_middle|done]. }
    destruct (lookup_lt_is_Some_2 stamps s) as [m Hm].
    { rewrite (vi_len _ _ Hinv : length stamps = _). done. }
    destruct (vi_known _ _ Hinv s m Hm) as (q & Hq & Hpos). simpl in *.
    assert (∀ k, zget (merge_entries (map_to_list m) (vc_vec (vcs p))) k =
      Z.max (zget (vc_vec (vcs p)) k) (zget m k)) as Hmerge.
    { intros k. apply merge_entries_order; [done..|]. intros k'. apply (vi_range _ _ Hinv p k'). }
    assert (zget m p ≤ zget (vc_vec (vcs p)) p) as Hmp.
    { etrans; [apply Hq|]. apply (vi_own _ _ Hinv p q). }
    exists (VectorClock_Merge (vcs p) m). unfold vc_step. fold p. rewrite Es, Hm. split; [done|].
    unfold VectorClock_Merge, VectorClock_Tick. simpl. split; [apply (vi_node _ _ Hinv p)|].
    exists m. split_and!; [done|by intros ? [= <-]|done| |done]. intros k. rewrite zget_insert.
    pose proof (vi_node _ _ Hinv p : vc_node (vcs p) = p) as Hn. rewrite Hn, !Hmerge.
    pose proof (vi_range _ _ Hinv p p : 0 ≤ zget (vc_vec (vcs p)) p ≤ _).
    repeat case_decide; subst; try congruence; [|lia].
    rewrite u64_small by (unfold in_u64; lia). done.
  - exists (VectorClock_Tick (vcs p)). unfold vc_step. fold p. rewrite Es. split; [done|].
    unfold VectorClock_Tick. simpl. split; [apply (vi_node _ _ Hinv p)|].
    exists ∅. pose proof (zget_empty (K := string)) as He.
    pose proof (vi_range _ _ Hinv p p : 0 ≤ zget (vc_vec (vcs p)) p ≤ _).
    split_and!; [intros k; by rewrite He|done|done| |rewrite He; lia].
    intros k. rewrite zget_insert, He.
    pose proof (vi_node _ _ Hinv p : vc_node (vcs p) = p) as Hn. rewrite Hn.
    pose proof (vi_range _ _ Hinv p k : 0 ≤ zget (vc_vec (vcs p)) k ≤ _).
    repeat case_decide; subst; try congruence; [|lia].
    rewrite u64_small by (unfold in_u64; lia). lia.
Qed.

(** The chains that reach the new event. *)
Lemma hb_new evs x i : happens_before (evs ++ [x]) i (length evs) →
  ∃ k y, (i = k ∨ happens_before evs i k) ∧ evs !! k = Some y ∧
    (ev_proc y = ev_proc x ∨ ev_src x = Some k).
Proof.
  intros (k & Hik & Hc)%hb_last. destruct (causes_snoc _ _ _ _ Hc) as [[? _]|(_ & y & Hy & Hyc)]; [lia|].
  exists k, y. split_and!; [|done|done]. destruct Hik as [->|Hik]; [by left|right].
  eapply hb_old; [|done]. by eapply lookup_lt_Some.
Qed.

Lemma hb_into_new evs x i k y : (i = k ∨ happens_before evs i k) → evs !! k = Some y →
  ev_proc y = ev_proc x ∨ ev_src x = Some k → happens_before (evs ++ [x]) i (length evs).
Proof.
  intros Hik Hy Hc. pose proof (lookup_lt_Some _ _ _ Hy).
  assert (causes (evs ++ [x]) k (length evs)) as Hck.
  { split; [done|]. exists y, x. rewrite lookup_app_l by done. by rewrite list_lookup_middle. }
  destruct Hik as [->|Hik]; [by apply tc_once|].
  eapply tc_r; [|done]. by apply hb_weaken.
Qed.

Section vc_snoc.
Context (evs : list (event unit)) (r : (string → VectorClock) * list (gmap string Z)).
Context (x : event unit) (Hinv : vc_inv evs r).
Context (v' : VectorClock) (m : gmap string Z).
Context (Hm0 : ∀ k, 0 ≤ zget m k).
Context (Hsrc : ∀ s, ev_src x = Some s → r.2 !! s = Some m) (Hnosrc : ev_src x = None → m = ∅).
Context (Hget : ∀ k, zget (vc_vec v') k = Z.max (zget (vc_vec (r.1 (ev_proc x))) k) (zget m k) +
         (if decide (k = ev_proc x) then 1 else 0)).
Context (Hmp : zget m (ev_proc x) ≤ zget (vc_vec (r.1 (ev_proc x))) (ev_proc x)).

Lemma prev_le : vle (vc_vec (r.1 (ev_proc x))) (vc_vec v').
Proof. intros k. rewrite Hget. case_decide; lia. Qed.

Lemma msg_le : vle m (vc_vec v').
Proof. intros k. rewrite Hget. case_decide; lia. Qed.

Lemma new_own : zget (vc_vec v') (ev_proc x) = zget (vc_vec (r.1 (ev_proc x))) (ev_proc x) + 1.
Proof. rewrite Hget, decide_True by done. lia. Qed.

(** Nobody knows more about a process than the process itself. *)
Lemma known_own j b p : r.2 !! j = Some b → zget b p ≤ zget (vc_vec (r.1 p)) p.
Proof.
  intros (q & Hq & _)%(vi_known _ _ Hinv). etrans; [apply Hq|]. apply (vi_own _ _ Hinv).
Qed.

(** Stamps of the causes of the new event are below its vector. *)
Lemma cause_le k y a : evs !! k = Some y → r.2 !! k = Some a →
  ev_proc y = ev_proc x ∨ ev_src x = Some k → vle a (vc_vec v').
Proof.
  intros Hy Ha [Hp|Hs] q.
  - etrans; [|apply prev_le]. rewrite <- Hp. by apply (vi_proc _ _ Hinv k y a).
  - apply Hsrc in Hs. assert (a = m) as -> by congruence. apply msg_le.
Qed.

(** An event the new vector knows about is in its causal past. *)
Lemma known_past i y a : evs !! i = Some y → r.2 !! i = Some a →
  zget a (ev_proc y) ≤ zget (vc_vec v') (ev_proc y) → happens_before (evs ++ [x]) i (length evs).
Proof.
  intros Hy Ha Hle. destruct (decide (ev_proc y = ev_proc x)) as [Hp|Hp].
  { eapply hb_into_new; eauto. }
  rewrite Hget, decide_False, Z.add_0_r in Hle by done.
  pose proof (vi_pos _ _ Hinv i y a Hy Ha) as Hpos.
  destruct (Z.max_spec (zget (vc_vec (r.1 (ev_proc x))) (ev_proc y)) (zget m (ev_proc y)))
    as [[_ Hmax]|[_ Hmax]]; rewrite Hmax in Hle.
  - destruct (ev_src x) as [s|] eqn:Es; [|rewrite (Hnosrc eq_refl), zget_empty in Hle; lia].
    pose proof (vi_exact _ _ Hinv i s y a m Hy Ha (Hsrc s eq_refl) Hle) as Hc.
    assert (s < length evs)%nat as [z Hz]%lookup_lt_is_Some_2.
    { rewrite <- (vi_len _ _ Hinv). eapply lookup_lt_Some. by apply Hsrc. }
    eapply hb_into_new; eauto.
  - destruct (vi_last _ _ Hinv (ev_proc x)) as [H0|(k & z & Hz & Hpz & Hst)].
    { rewrite H0 in Hle. lia. }
    eapply hb_into_new; [by eapply (vi_exact _ _ Hinv i k)|done|]. by left.
Qed.
(** A stamp of the longer trace is an old one or the new one. *)
Lemma stamp_cases i a : (r.2 ++ [vc_vec v']) !! i = Some a →
  (i < length evs)%nat ∧ r.2 !! i = Some a ∨ i = length evs ∧ a = vc_vec v'.
Proof.
  intros Hi. rewrite <- (vi_len _ _ Hinv). apply lookup_app_Some in Hi as [Hi|[? Hi]].
  - left. eauto using lookup_lt_Some.
  - right. apply list_lookup_singleton_Some in Hi as [? <-]. split; [lia|done].
Qed.

Lemma msg_range k : zget m k ≤ Z.of_nat (length evs) ∧ zget m k ≤ zget (vc_vec (r.1 k)) k.
Proof.
  pose proof (vi_range _ _ Hinv k k). destruct (ev_src x) as [s|] eqn:Es.
  - pose proof (known_own s m k (Hsrc s eq_refl)). lia.
  - rewrite (Hnosrc eq_refl), zget_empty. lia.
Qed.

Lemma snoc_mono i j a b : happens_before (evs ++ [x]) i j →
  (r.2 ++ [vc_vec v']) !! i = Some a → (r.2 ++ [vc_vec v']) !! j = Some b → vle a b.
Proof.
  intros Hh Ha Hb. apply hb_lt in Hh as Hij.
  destruct (stamp_cases _ _ Hb) as [[Hj Hbo]|[-> ->]], (stamp_cases _ _ Ha) as [[_ Hao]|[-> _]]; try lia.
  - eapply (vi_mono _ _ Hinv i j); eauto using hb_old.
  - apply hb_new in Hh as (k & y & Hik & Hy & Hyc).
    destruct (lookup_lt_is_Some_2 r.2 k) as [c Hc]; [rewrite (vi_len _ _ Hinv); by eapply lookup_lt_Some|].
    pose proof (cause_le k y c Hy Hc Hyc) as Hle. destruct Hik as [->|Hik]; [by simplify_eq|].
    intros q. etrans; [by apply (vi_mono _ _ Hinv i k a c)|apply Hle].
Qed.

Lemma snoc_exact i j y a b : (evs ++ [x]) !! i = Some y →
  (r.2 ++ [vc_vec v']) !! i = Some a → (r.2 ++ [vc_vec v']) !! j = Some b →
  zget a (ev_proc y) ≤ zget b (ev_proc y) → i = j ∨ happens_before (evs ++ [x]) i j.
Proof.
  intros Hy Ha Hb Hle.
  destruct (stamp_cases _ _ Ha) as [[Hi Hao]|[-> ->]], (stamp_cases _ _ Hb) as [[Hj Hbo]|[-> ->]].
  - rewrite lookup_app_l in Hy by done.
    destruct (vi_exact _ _ Hinv i j y a b Hy Hao Hbo Hle); [by left|right]. by apply hb_weaken.
  - rewrite lookup_app_l in Hy by done. right. by eapply known_past.
  - exfalso. rewrite list_lookup_middle in Hy by done. injection Hy as <-.
    pose proof (known_own j b (ev_proc x) Hbo). pose proof new_own. lia.
  - by left.
Qed.
End vc_snoc.

Lemma vc_inv_snoc evs r x : wf_trace (evs ++ [x]) → Z.of_nat (length evs) + 1 < 2 ^ 64 →
  vc_inv evs r → vc_inv (evs ++ [x]) (vc_step r x).
Proof.
  intros Hwf Hb Hinv.
  destruct (vc_step_get evs r x Hwf Hb Hinv) as (v' & -> & Hnode & m & Hm0 & Hsrc & Hno & Hget & Hmp).
  set (p := ev_proc x) in *.
  pose proof (prev_le r x v' m Hget : vle (vc_vec (r.1 p)) (vc_vec v')) as Hprev.
  pose proof (new_own r x v' m Hget Hmp : zget (vc_vec v') p = _) as Hown. fold p in Hown.
  assert (∀ q, <[p := v']> r.1 q = if decide (q = p) then v' else r.1 q) as Hst.
  { intros q. case_decide; subst; [apply fn_lookup_insert|by apply fn_lookup_insert_ne]. }
  pose proof (stamp_cases evs r Hinv v') as Hlk. pose proof (msg_range evs r x Hinv m Hsrc Hno) as Hmr.
  constructor; cbn [fst snd].
  - by rewrite !length_app, (vi_len _ _ Hinv).
  - intros q. rewrite Hst. case_decide; subst; [done|]. apply (vi_node _ _ Hinv).
  - intros q k. rewrite Hst, length_app. simpl. pose proof (vi_range _ _ Hinv q k).
    case_decide; subst; [|lia]. rewrite Hget. pose proof (Hmr k). case_decide; lia.
  - intros q q'. rewrite !Hst. pose proof (vi_own _ _ Hinv q q').
    repeat case_decide; subst; try lia.
    rewrite Hget, decide_False by done. pose proof (vi_own _ _ Hinv q p). pose proof (Hmr q). lia.
  - intros j b [[Hj Hb']|[-> ->]]%Hlk.
    + destruct (vi_known _ _ Hinv j b Hb') as (q & Hq & ?). exists q. split; [|done].
      rewrite Hst. case_decide; subst; [|done]. intros k. etrans; [apply Hq|apply Hprev].
    + exists p. rewrite Hst, decide_True by done. split; [by intros k|]. intros k.
      pose proof (vi_range _ _ Hinv p k). pose proof (Hprev k). lia.
  - intros q. rewrite Hst. case_decide; subst.
    + right. exists (length evs), x. rewrite list_lookup_middle by done. split_and!; [done|done|].
      rewrite lookup_app_r by (by rewrite (vi_len _ _ Hinv)). by rewrite (vi_len _ _ Hinv), Nat.sub_diag.
    + destruct (vi_last _ _ Hinv q) as [?|(i & y & Hy & Hp & Ha)]; [by left|right].
      exists i, y. rewrite !lookup_app_l; eauto using lookup_lt_Some.
  - intros i y a Hy [[Hi Ha]|[-> ->]]%Hlk; rewrite Hst.
    + rewrite lookup_app_l in Hy by done. pose proof (vi_proc _ _ Hinv i y a Hy Ha) as Hle. case_decide as Hp; [|done].
      rewrite Hp in Hle. intros k. etrans; [apply Hle|apply Hprev].
    + rewrite list_lookup_middle in Hy by done. injection Hy as <-. rewrite decide_True by done. by intros k.
  - intros i y a Hy [[Hi Ha]|[-> ->]]%Hlk; [rewrite lookup_app_l in Hy by done; by eapply (vi_pos _ _ Hinv)|].
    rewrite list_lookup_middle in Hy by done. injection Hy as <-. fold p. pose proof (vi_range _ _ Hinv p p). lia.
  - intros i j a b. by eapply snoc_mono.
  - intros i j y a b. by eapply snoc_exact.
Qed.

Lemma vc_inv_run evs : wf_trace evs → Z.of_nat (length evs) < 2 ^ 64 → vc_inv evs (vc_run evs).
Proof.
  induction evs as [|x evs IH] using rev_ind; intros Hwf Hb.
  - constructor; simpl; try done. intros; by left.
  - unfold vc_run. rewrite foldl_app. simpl. rewrite length_app in Hb. simpl in Hb.
    apply vc_inv_snoc; [done|lia|]. apply IH; [by eapply wf_trace_prefix|lia].
Qed.

(** A stamp is below another exactly when it is the same event or its past. *)
Lemma stamp_vle evs i j a b : wf_trace evs → Z.of_nat (length evs) < 2 ^ 64 →
  (vc_run evs).2 !! i = Some a → (vc_run evs).2 !! j = Some b →
  vle a b ↔ i = j ∨ happens_before evs i j.
Proof.
  intros Hwf Hb Ha Hbj. pose proof (vc_inv_run evs Hwf Hb) as Hinv.
  assert (i < length evs)%nat as [x Hx]%lookup_lt_is_Some_2.
  { rewrite <- (vi_len _ _ Hinv). by eapply lookup_lt_Some. }
  split.
  - intros Hle. by apply (vi_exact _ _ Hinv i j x a b).
  - intros [->|Hh]; [by simplify_eq; intros k|]. by apply (vi_mono _ _ Hinv i j).
Qed.

Lemma vle_dec_lt a b : Compare a b = Before ↔ vle a b ∧ ¬ vle b a.
Proof.
  rewrite Compare_Before. split; intros [Hle H]; (split; [done|]).
  - destruct H as [k Hk]. intros Hba. specialize (Hba k). lia.
  - pose proof (Compare_spec a b) as Hs. destruct (Compare a b); naive_solver.
Qed.
End vector.

(** ** Main results *)

(** C30: Vector clocks characterize causality: in every execution of fewer
than 2^64 events, [Compare] of the stamps of two events answers [Before]
exactly when the first happens before the second, and [Concurrent] exactly
when neither happens before the other (and they are different events). *)
Theorem VectorClock_characterizes_causality (evs : list (event unit)) i j a b :
  wf_trace evs → Z.of_nat (length evs) < 2 ^ 64 →
  (vc_run evs).2 !! i = Some a → (vc_run evs).2 !! j = Some b →
  (Compare a b = Before ↔ happens_before evs i j) ∧
  (Compare a b = Concurrent ↔ i ≠ j ∧ ¬ happens_before evs i j ∧ ¬ happens_before evs j i).
Proof.
  intros Hwf Hb Ha Hbj.
  pose proof (stamp_vle evs i j a b Hwf Hb Ha Hbj) as Hij.
  pose proof (stamp_vle evs j i b a Hwf Hb Hbj Ha) as Hji.
  assert (∀ u v, happens_before evs u v → (u < v)%nat) as Hlt by eauto using hb_lt.
  rewrite vle_dec_lt, Compare_Concurrent, Hij, Hji.
  pose proof (Hlt i j). pose proof (Hlt j i). split; split.
  - intros [[->|Hh] Hn]; [|done]. exfalso. apply Hn. by left.
  - intros Hh. split; [by right|]. intros [->|Hh']; [specialize (Hlt _ _ Hh); lia|].
    specialize (H Hh). specialize (H0 Hh'). lia.
  - naive_solver.
  - naive_solver.
Qed.

Definition demo_trace {Env} (e : Env) : list (event Env) :=
  [ELocal "a" e; ERecv "b" 0 e; ELocal "c" e].

Lemma demo_trace_wf {Env} (e : Env) : wf_trace (demo_trace e).
Proof.
  intros j x s Hj Hs. destruct j as [|[|[|j]]]; simplify_eq/=; try done. lia.
Defined.

Lemma demo_trace_hb {Env} (e : Env) : happens_before (demo_trace e) 0%nat 1%nat.
Proof.
  apply tc_once. split; [lia|]. do 2 eexists. split_and!; [done|done|]. by right.
Defined.

Lemma VectorClock_characterizes_causality_witness :
  Compare {["a" := 1]} {["a" := 1; "b" := 1]} = Before ∧
  Compare {["a" := 1; "b" := 1]} {["c" := 1]} = Concurrent ∧
  happens_before (demo_trace ()) 0%nat 1%nat ∧ ¬ happens_before (demo_trace ()) 1%nat 2%nat.
Proof.
  split_and!; [by vm_compute..| |].
  - apply (VectorClock_characterizes_causality (demo_trace ()) 0%nat 1%nat {["a" := 1]} {["a" := 1; "b" := 1]});
      [apply demo_trace_wf|done|by vm_compute..].
  - apply (VectorClock_characterizes_causality (demo_trace ()) 1%nat 2%nat {["a" := 1; "b" := 1]} {["c" := 1]});
      [apply demo_trace_wf|done|by vm_compute..].
Defined.

(** The Lamport clock condition: when event [i] happens before event [j]
in an execution of fewer than 2^64 events, its timestamp is smaller. *)
Theorem Lamport_clock_condition (evs : list (event unit)) i j a b :
  wf_trace evs → Z.of_nat (length evs) < 2 ^ 64 → happens_before evs i j →
  (lc_run (H := Lamport_clock) evs).2 !! i = Some a →
  (lc_run (H := Lamport_clock) evs).2 !! j = Some b → a < b.
Proof.
  intros Hwf Hb Hh Ha Hbj. apply (clock_condition (H := Lamport_clock) evs i j a b Hwf); [|done..].
  simpl. unfold Lamport_Now. lia.
Qed.

Lemma Lamport_clock_condition_witness :
  (lc_run (H := Lamport_clock) (demo_trace ())).2 = [1; 2; 1] ∧ 1 < 2.
Proof.
  split; [by vm_compute|].
  apply (Lamport_clock_condition (demo_trace ()) 0%nat 1%nat); [apply demo_trace_wf|done|apply demo_trace_hb|by vm_compute..].
Defined.

(** The hybrid clock keeps the clock condition whatever the wall clocks
of the processes read (skewed, stopped or going backwards), timestamps being
compared by physical and then logical component. *)
Theorem HLC_clock_condition (evs : list (event Z)) i j a b :
  wf_trace evs → Z.of_nat (length evs) < 2 ^ 64 → happens_before evs i j →
  (lc_run (H := HLC_clock) evs).2 !! i = Some a →
  (lc_run (H := HLC_clock) evs).2 !! j = Some b → hlc_lt a b.
Proof.
  intros Hwf Hb Hh Ha Hbj. apply (clock_condition (H := HLC_clock) evs i j a b Hwf); [|done..].
  simpl. lia.
Qed.

Lemma HLC_clock_condition_witness :
  (lc_run (H := HLC_clock) [ELocal "a" 9; ERecv "b" 0 5; ELocal "b" 4]).2 = [(9, 0); (9, 1); (9, 2)] ∧
  hlc_lt (9, 0) (9, 1).
Proof.
  split; [by vm_compute|].
  apply (HLC_clock_condition [ELocal "a" 9; ERecv "b" 0 5; ELocal "b" 4] 0%nat 1%nat);
    [|done| |by vm_compute..].
  - intros j x s Hj Hs. destruct j as [|[|[|j]]]; simplify_eq/=; try done. lia.
  - apply tc_once. split; [lia|]. do 2 eexists. split_and!; [done|done|]. by right.
Defined.
