(* ===== verification/Replication.v ===== *)
(** * distributed-primitives-go/replication: G-Counter and LWW register

The grow-only counter and the last-writer-wins register.  Counters are
compared by what they read ([gc_equiv], a counter with an explicit zero slot
reads like one without it), and [Merge] and [Value] respect it.  A replicated
system of counters is a run of increments, sends and receipts; registers are
compared by timestamp and node. *)

From Stdlib Require Import ZArith Lia.
From stdpp Require Import base gmap strings fin_maps fin_map_dom relations functions list.
From S2P Require Import Prelude Clocks.

Open Scope Z_scope.

(* [base] distributed-primitives-go/replication *)

(** ** G-Counter *)

(* [go] gcounter.go:11-13 GCounter *)
Definition GCounter : Type := gmap string Z.

(* [go] gcounter.go:15-17 NewGCounter *)
Definition NewGCounter : GCounter := ∅.

(* [go] gcounter.go:20-22 GCounter.Inc *)
Definition GCounter_Inc (g : GCounter) (node : string) (n : Z) : GCounter :=
  <[node := u64 (zget g node + n)]> g.

(** The loop of [Value] over the entries in the order [l] of the range. *)
(* [go] gcounter.go:26-29 GCounter.Value *)
Fixpoint value_entries (l : list (string * Z)) (sum : Z) : Z :=
  match l with
  | [] => sum
  | (_, c) :: l' => value_entries l' (u64 (sum + c))
  end.

(* [go] gcounter.go:25-31 GCounter.Value *)
Definition GCounter_Value (g : GCounter) : Z := value_entries (map_to_list g) 0.

(** The loop of [Merge] is the loop of [VectorClock.Merge]. *)
(* [go] gcounter.go:35-41 GCounter.Merge *)
Definition GCounter_Merge (g other : GCounter) : GCounter :=
  merge_entries (map_to_list other) g.

(** ** LWW register *)

(* [go] lww.go:15-19 LWWRegister *)
Record LWWRegister : Type := mkLWW { lww_value : string; lww_ts : Z; lww_node : string }.

(* [go] lww.go:22-24 LWWRegister.Set *)
Definition LWWRegister_Set (r : LWWRegister) (value : string) (ts : Z) (node : string) : LWWRegister :=
  mkLWW value ts node.

(** The guard of [Merge]: [other] is a later write. *)
Definition lww_newer (r other : LWWRegister) : bool :=
  (lww_ts other >? lww_ts r) || ((lww_ts other =? lww_ts r) && str_lt (lww_node r) (lww_node other)).

(* [go] lww.go:29-35 LWWRegister.Merge *)
Definition LWWRegister_Merge (r other : LWWRegister) : LWWRegister * bool :=
  if lww_newer r other then (other, true) else (r, false).

(** ** Outcomes *)

(* [go] multileader.go:12-16 LWWOutcome *)
Definition LWWOutcome (a b : LWWRegister) : LWWRegister := (LWWRegister_Merge a b).1.

(* [go] multileader.go:21-26 CRDTOutcome *)
Definition CRDTOutcome (a b : GCounter) : Z :=
  GCounter_Value (GCounter_Merge (GCounter_Merge NewGCounter a) b).

(** ** Replicated counters *)

(** What happens in a replicated system: node [p] increments its own slot,
sends its state, or merges the [k]-th message sent so far (again, or late, or
out of order). *)
Inductive rop : Type :=
| RInc (p : string) (n : Z)
| RSend (p : string)
| RRecv (p : string) (k : nat).

Definition rstate : Type := (string → GCounter) * list GCounter.

Definition rstep (st : rstate) (o : rop) : rstate :=
  match o with
  | RInc p n => (<[p := GCounter_Inc (st.1 p) p n]> st.1, st.2)
  | RSend p => (st.1, st.2 ++ [st.1 p])
  | RRecv p k =>
      match st.2 !! k with
      | Some m => (<[p := GCounter_Merge (st.1 p) m]> st.1, st.2)
      | None => st
      end
  end.

Definition rrun (ops : list rop) : rstate := foldl rstep (fun _ => NewGCounter, []) ops.

(** The increments made by node [q], and by all nodes. *)
Definition incs (ops : list rop) (q : string) : Z :=
  zsum (fun o => match o with RInc p n => if decide (p = q) then n else 0 | _ => 0 end) ops.

Definition total (ops : list rop) : Z :=
  zsum (fun o => match o with RInc _ n => n | _ => 0 end) ops.

(** Increments are [uint64] arguments. *)
Definition inc_nonneg (o : rop) : Prop := match o with RInc _ n => 0 ≤ n | _ => True end.

(** ** Counters up to what they read *)

#[global] Instance gc_equiv : Equiv GCounter := fun a b => ∀ k, zget a k = zget b k.

#[global] Instance gc_equivalence : Equivalence (≡@{GCounter}).
Proof. split; [by intros a k|by intros a b H k|]. intros a b c H1 H2 k. by rewrite (H1 k). Qed.

Definition gc_wf (g : GCounter) : Prop := ∀ k, 0 ≤ zget g k.

Lemma Merge_get g other k : gc_wf g → gc_wf other →
  zget (GCounter_Merge g other) k = Z.max (zget g k) (zget other k).
Proof. intros Hg Ho. by apply merge_entries_order. Qed.

Lemma Merge_wf g other : gc_wf g → gc_wf other → gc_wf (GCounter_Merge g other).
Proof. intros Hg Ho k. rewrite Merge_get by done. specialize (Hg k). lia. Qed.

Lemma zget_NewGCounter k : zget NewGCounter k = 0.
Proof. apply zget_empty. Qed.

Lemma zget_Inc g node n k : zget (GCounter_Inc g node n) k =
  if decide (node = k) then u64 (zget g node + n) else zget g k.
Proof. apply zget_insert. Qed.

Lemma gc_wf_empty : gc_wf NewGCounter.
Proof. intros k. by rewrite zget_NewGCounter. Qed.

#[export] Hint Resolve Merge_wf gc_wf_empty : go.

Lemma value_entries_sum l acc : in_u64 acc →
  value_entries l acc = u64 (acc + zsum snd l).
Proof.
  revert acc. induction l as [|[k c] l IH]; intros acc Hacc; simpl.
  - rewrite Z.add_0_r. by rewrite u64_small.
  - rewrite IH by apply u64_range. rewrite u64_add_l. f_equal. lia.
Qed.

(** The value is the sum of the slots, over any set of nodes that has them. *)
Lemma Value_sum g (X : gset string) : dom g ⊆ X →
  GCounter_Value g = u64 (zsum (zget g) (elements X)).
Proof.
  intros HX. unfold GCounter_Value. rewrite value_entries_sum by (unfold in_u64; lia).
  f_equal. rewrite Z.add_0_l.
  assert (elements X ≡ₚ (map_to_list g).*1 ++ elements (X ∖ dom g)) as ->.
  { apply NoDup_Permutation; [apply NoDup_elements| |].
    - apply NoDup_app. split_and!; [apply NoDup_fst_map_to_list| |apply NoDup_elements].
      intros k ([? v] & -> & Hk%elem_of_map_to_list)%list_elem_of_fmap Hx%elem_of_elements.
      apply elem_of_difference in Hx as [_ []]. by apply elem_of_dom_2 in Hk.
    - intros k. rewrite elem_of_app, !elem_of_elements, elem_of_difference. split.
      + intros Hk. destruct (decide (k ∈ dom g)) as [[v Hv]%elem_of_dom|]; [left|by right].
        apply list_elem_of_fmap. exists (k, v). split; [done|by apply elem_of_map_to_list].
      + intros [([? v] & -> & Hk%elem_of_map_to_list)%list_elem_of_fmap|[? _]]; [|done].
        apply HX. by eapply elem_of_dom_2. }
  rewrite zsum_app, (zsum_ext (zget g) (fun _ => 0) (elements _)).
  2:{ intros k [_ ?]%elem_of_elements%elem_of_difference. by apply zget_dom. }
  rewrite zsum_zero, Z.add_0_r. assert (∀ p, p ∈ map_to_list g → zget g p.1 = p.2) as Hp.
  { intros [k v] Hk%elem_of_map_to_list. unfold zget. simpl. by rewrite Hk. }
  revert Hp. generalize (map_to_list g). intros l Hl. induction l as [|p l IH]; simpl; [done|].
  rewrite IH by (intros; apply Hl; by right). by rewrite (Hl p) by left.
Qed.

#[global] Instance Value_proper : Proper ((≡) ==> (=)) GCounter_Value.
Proof.
  intros a b Hab. rewrite (Value_sum a (dom a ∪ dom b)), (Value_sum b (dom a ∪ dom b)) by set_solver.
  f_equal. apply zsum_ext. intros k _. apply Hab.
Qed.

(** The join-semilattice laws, which hold up to [≡]. *)
Lemma Merge_idemp g : gc_wf g → GCounter_Merge g g ≡ g.
Proof. intros Hg k. rewrite Merge_get by done. lia. Qed.

Lemma Merge_comm a b : gc_wf a → gc_wf b → GCounter_Merge a b ≡ GCounter_Merge b a.
Proof. intros Ha Hb k. rewrite !Merge_get by done. lia. Qed.

Lemma Merge_assoc a b c : gc_wf a → gc_wf b → gc_wf c →
  GCounter_Merge (GCounter_Merge a b) c ≡ GCounter_Merge a (GCounter_Merge b c).
Proof. intros Ha Hb Hc k. rewrite !Merge_get by eauto with go. lia. Qed.

(** Merging a list of states, in its order. *)
Lemma merge_all g l : gc_wf g → Forall gc_wf l →
  gc_wf (foldl GCounter_Merge g l) ∧ ∀ k,
    zget g k ≤ zget (foldl GCounter_Merge g l) k ∧
    (∀ m, m ∈ l → zget m k ≤ zget (foldl GCounter_Merge g l) k) ∧
    (∀ b, zget g k ≤ b → (∀ m, m ∈ l → zget m k ≤ b) → zget (foldl GCounter_Merge g l) k ≤ b).
Proof.
  intros Hg Hl. revert g Hg. induction Hl as [|m l Hm Hl IH]; intros g Hg; simpl.
  { split; [done|]. intros k. split_and!; [lia|by intros ? ?%elem_of_nil|done]. }
  destruct (IH (GCounter_Merge g m)) as [Hwf Hk]; [eauto with go|]. split; [done|].
  intros k. destruct (Hk k) as (H1 & H2 & H3). rewrite Merge_get in H1, H3 by done.
  split_and!; [lia| |].
  - intros m' [->|Hm']%elem_of_cons; [lia|eauto].
  - intros b Hb Hbl. apply H3.
    + assert (zget m k ≤ b) by (apply Hbl; left). lia.
    + intros m' Hm'. apply Hbl. by right.
Qed.

(** ** The replicated system *)

Lemma incs_snoc ops o q : incs (ops ++ [o]) q =
  incs ops q + match o with RInc p n => if decide (p = q) then n else 0 | _ => 0 end.
Proof. unfold incs. rewrite zsum_app. simpl. lia. Qed.

Lemma incs_bounds ops q : Forall inc_nonneg ops → 0 ≤ incs ops q ≤ total ops.
Proof.
  unfold incs, total. induction 1 as [|o l Ho Hl IH]; simpl; [lia|].
  destruct o; simpl in *; [case_decide|..]; lia.
Qed.

(** Every state and every message knows at most what each node did, and a node
knows exactly what it did. *)
Record rinv (ops : list rop) (st : rstate) : Prop := {
  ri_own : ∀ q, zget (st.1 q) q = incs ops q;
  ri_node : ∀ p q, 0 ≤ zget (st.1 p) q ≤ incs ops q;
  ri_msg : ∀ m q, m ∈ st.2 → 0 ≤ zget m q ≤ incs ops q }.

Lemma rinv_step ops st o : Forall inc_nonneg (ops ++ [o]) → total (ops ++ [o]) < 2 ^ 64 →
  rinv ops st → rinv (ops ++ [o]) (rstep st o).
Proof.
  intros Hnn Htot [Hown Hnode Hmsg].
  pose proof (incs_bounds (ops ++ [o])) as Hbd. setoid_rewrite incs_snoc in Hbd.
  specialize (λ q, Hbd q Hnn).
  destruct o as [p n|p|p k]; simpl.
  - apply Forall_app in Hnn as [_ Hn]. inversion_clear Hn as [|? ? Hn' _]. simpl in Hn'.
    assert (∀ r q, zget (<[p := GCounter_Inc (st.1 p) p n]> st.1 r) q =
      zget (st.1 r) q + (if decide (r = p ∧ q = p) then n else 0)) as Hget.
    { intros r q. destruct (decide (r = p)) as [->|Hr].
      - rewrite fn_lookup_insert, zget_Inc.
        specialize (Hbd p). rewrite decide_True in Hbd by done.
        pose proof (Hnode p p). pose proof (Hown p).
        destruct (decide (p = q)) as [<-|]; [|by rewrite decide_False by naive_solver; lia].
        rewrite decide_True by done. apply u64_small. unfold in_u64. lia.
      - rewrite fn_lookup_insert_ne by done. rewrite decide_False by naive_solver. lia. }
    constructor; cbn [fst snd]; setoid_rewrite incs_snoc; intros.
    + rewrite Hget, Hown. repeat case_decide; naive_solver lia.
    + rewrite Hget. pose proof (Hnode p0 q). repeat case_decide; naive_solver lia.
    + pose proof (Hmsg m q H). case_decide; lia.
  - constructor; cbn [fst snd]; setoid_rewrite incs_snoc; intros; rewrite Z.add_0_r; [done..|].
    apply elem_of_app in H as [?| ->%list_elem_of_singleton]; auto.
  - assert (∀ st', rinv ops st' → rinv (ops ++ [RRecv p k]) st') as Hsame.
    { intros st' [? ? ?]. constructor; setoid_rewrite incs_snoc; intros; rewrite Z.add_0_r; auto. }
    apply Hsame. destruct (st.2 !! k) as [m|] eqn:Hk; [|done]. apply list_elem_of_lookup_2 in Hk.
    assert (∀ r q, zget (<[p := GCounter_Merge (st.1 p) m]> st.1 r) q =
      if decide (r = p) then Z.max (zget (st.1 p) q) (zget m q) else zget (st.1 r) q) as Hget.
    { intros r q. case_decide; subst; [|by rewrite fn_lookup_insert_ne].
      rewrite fn_lookup_insert. apply Merge_get; intros q'; [apply Hnode|by apply Hmsg]. }
    constructor; cbn [fst snd]; intros; rewrite ?Hget; [| |by apply Hmsg].
    + pose proof (Hmsg m q Hk). pose proof (Hown q). case_decide; subst; lia.
    + pose proof (Hmsg m q Hk). pose proof (Hnode p0 q). case_decide; subst; lia.
Qed.

Lemma rinv_run ops : Forall inc_nonneg ops → total ops < 2 ^ 64 → rinv ops (rrun ops).
Proof.
  induction ops as [|o ops IH] using rev_ind; intros Hnn Htot.
  - constructor; simpl; intros; rewrite ?zget_NewGCounter; try done. by apply elem_of_nil in H.
  - unfold rrun. rewrite foldl_app. apply rinv_step; [done..|]. apply IH.
    + by apply Forall_app in Hnn as [? _].
    + unfold total in *. rewrite zsum_app in Htot. simpl in Htot.
      apply Forall_app in Hnn as [_ Hn]. inversion_clear Hn as [|? ? Hn' _].
      destruct o; simpl in *; lia.
Qed.

(** Summing the increments per node gives all increments. *)
Lemma incs_total ops (X : gset string) : (∀ p n, RInc p n ∈ ops → p ∈ X) →
  zsum (incs ops) (elements X) = total ops.
Proof.
  assert (∀ (l : list string) p n, NoDup l → p ∈ l →
    zsum (fun q => if decide (p = q) then n else 0) l = n) as Hone.
  { induction l as [|a l IH]; intros p n Hnd Hp; [by apply elem_of_nil in Hp|].
    apply NoDup_cons in Hnd as [Ha Hnd]. simpl. case_decide as He; subst.
    - rewrite (zsum_ext _ (fun _ => 0)); [|intros q Hq; rewrite decide_False; [done|by intros <-]].
      rewrite zsum_zero. lia.
    - apply elem_of_cons in Hp as [?|Hp]; [done|]. rewrite (IH p n) by done. lia. }
  induction ops as [|o ops IH]; intros HX; simpl.
  - apply zsum_zero.
  - rewrite <- IH by (intros p n Hp; apply (HX p n); by right).
    unfold incs at 1. simpl. rewrite zsum_add. fold (incs ops). f_equal.
    destruct o as [p n|p|p k]; [|apply zsum_zero..].
    apply Hone; [apply NoDup_elements|]. apply elem_of_elements, (HX p n). left.
Qed.

(** ** Last-writer-wins *)

Lemma lww_newer_irrefl r : lww_newer r r = false.
Proof. unfold lww_newer. rewrite str_lt_irrefl, andb_false_r, orb_false_r. lia. Qed.

Lemma lww_newer_true r o : lww_newer r o = true ↔
  lww_ts r < lww_ts o ∨ lww_ts r = lww_ts o ∧ str_lt (lww_node r) (lww_node o) = true.
Proof. unfold lww_newer. rewrite orb_true_iff, andb_true_iff, Z.gtb_ltb, Z.ltb_lt, Z.eqb_eq. naive_solver. Qed.

Lemma lww_newer_trans a b c : lww_newer a b = true → lww_newer b c = true → lww_newer a c = true.
Proof.
  rewrite !lww_newer_true. intros [?|[? ?]] [?|[? ?]]; try (left; lia).
  right. split; [lia|]. by eapply str_lt_trans.
Qed.

Lemma lww_newer_total a b : lww_newer a b = false → lww_newer b a = false →
  lww_ts a = lww_ts b ∧ lww_node a = lww_node b.
Proof.
  intros Ha Hb. assert (lww_ts a = lww_ts b) as Ht.
  { destruct (Z.lt_trichotomy (lww_ts a) (lww_ts b)) as [|[|]]; [|done|].
    - rewrite (proj2 (lww_newer_true a b)) in Ha by auto. done.
    - rewrite (proj2 (lww_newer_true b a)) in Hb by auto. done. }
  split; [done|]. destruct (decide (lww_node a = lww_node b)) as [|Hn]; [done|].
  destruct (str_lt (lww_node a) (lww_node b)) eqn:E.
  - rewrite (proj2 (lww_newer_true a b)) in Ha by auto. done.
  - apply str_lt_total in E; [|done]. rewrite (proj2 (lww_newer_true b a)) in Hb by auto. done.
Qed.

(** The replica after merging the states [l] in order. *)
Definition lww_merge_all (r : LWWRegister) (l : list LWWRegister) : LWWRegister :=
  foldl (fun r o => (LWWRegister_Merge r o).1) r l.

Lemma lww_merge_all_max r l :
  lww_merge_all r l ∈ r :: l ∧ ∀ o, o ∈ r :: l → lww_newer (lww_merge_all r l) o = false.
Proof.
  unfold lww_merge_all. revert r. induction l as [|a l IH]; intros r; simpl.
  { split; [left|]. intros o ->%list_elem_of_singleton. apply lww_newer_irrefl. }
  specialize (IH (LWWRegister_Merge r a).1) as [Hin Hmax]. set (w := foldl _ _ l) in *.
  clearbody w. unfold LWWRegister_Merge in *. destruct (lww_newer r a) eqn:E; cbn [fst] in *.
  - split; [by right|]. intros o [->|Ho]%elem_of_cons; [|eauto].
    destruct (lww_newer w r) eqn:E'; [|done].
    rewrite <- (Hmax a) by left. symmetry. by eapply lww_newer_trans.
  - split; [apply elem_of_cons in Hin as [->|]; [left|by do 2 right]|].
    intros o [->|[->|Ho]%elem_of_cons]%elem_of_cons; [apply Hmax; left| |apply Hmax; by right].
    destruct (lww_newer w a) eqn:E'; [|done].
    assert (lww_newer w r = false) as Hwr by (apply Hmax; left).
    destruct (lww_newer r w) eqn:Erw; [by rewrite (lww_newer_trans r w a) in E|].
    destruct (lww_newer_total w r Hwr Erw) as [Ht Hn].
    rewrite <- E. revert E'. unfold lww_newer. by rewrite Ht, Hn.
Qed.

(** ** Main results *)

(** A replicated G-Counter loses no increment.  After any run of
increments, sends and receipts (messages lost, late, repeated or out of
order), a replica that merges any list of states of the system, in any order
and with repetitions, among which is the current state of every node that
incremented, reads exactly the sum of all increments made (which fits
[uint64]). *)
Theorem GCounter_converges (ops : list rop) (r : string) (l : list GCounter) :
  Forall inc_nonneg ops → total ops < 2 ^ 64 →
  (∀ m, m ∈ l → m ∈ (rrun ops).2 ∨ ∃ q, m = (rrun ops).1 q) →
  (∀ p n, RInc p n ∈ ops → (rrun ops).1 p ∈ l) →
  GCounter_Value (foldl GCounter_Merge ((rrun ops).1 r) l) = total ops.
Proof.
  intros Hnn Htot Hl Hall. destruct (rinv_run ops Hnn Htot) as [Hown Hnode Hmsg].
  assert (∀ m, m ∈ l → ∀ q, 0 ≤ zget m q ≤ incs ops q) as Hbd.
  { intros m [?|[p ->]]%Hl q; auto. }
  destruct (merge_all ((rrun ops).1 r) l) as [Hwf Hk].
  { intros q. apply Hnode. }
  { apply Forall_forall. intros m Hm q. by apply Hbd. }
  set (w := foldl _ _ _) in *.
  assert (∀ q, zget w q = incs ops q) as Hw.
  { intros q. destruct (Hk q) as (_ & Hge & Hle). apply Z.le_antisymm.
    - apply Hle; [apply Hnode|]. intros m Hm. by apply Hbd.
    - destruct (decide (incs ops q = 0)) as [->|Hne]; [apply Hwf|].
      assert (∃ n, RInc q n ∈ ops) as [n Hn].
      { clear -Hne. unfold incs in Hne. induction ops as [|[p n|p|p k] ops IH]; simpl in Hne; [done| | |].
        - case_decide; subst; [exists n; left|]. destruct IH as [n' ?]; [done|]. exists n'. by right.
        - destruct IH as [n' ?]; [done|]. exists n'. by right.
        - destruct IH as [n' ?]; [done|]. exists n'. by right. }
      rewrite <- Hown. apply Hge. eauto. }
  assert (∃ Y : gset string, ∀ p n, RInc p n ∈ ops → p ∈ Y) as [Y HY].
  { exists (list_to_set (omap (fun o => match o with RInc p _ => Some p | _ => None end) ops)).
    intros p n Hp. apply elem_of_list_to_set, list_elem_of_omap. eauto. }
  rewrite (Value_sum w (dom w ∪ Y)) by set_solver.
  rewrite (zsum_ext _ (incs ops)) by auto. rewrite (incs_total ops); [|set_solver].
  apply u64_small. unfold in_u64. pose proof (incs_bounds ops "" Hnn). lia.
Qed.

Definition demo_ops : list rop :=
  [RInc "us" 3; RSend "us"; RInc "eu" 4; RRecv "eu" 0; RInc "us" 2; RRecv "us" 0].

Lemma GCounter_converges_witness :
  GCounter_Value (foldl GCounter_Merge ((rrun demo_ops).1 "ap")
    [(rrun demo_ops).1 "eu"; (rrun demo_ops).1 "us"; (rrun demo_ops).1 "eu"]) = 9.
Proof.
  apply (GCounter_converges demo_ops "ap"
    [(rrun demo_ops).1 "eu"; (rrun demo_ops).1 "us"; (rrun demo_ops).1 "eu"]).
  - repeat constructor; simpl; lia.
  - by vm_compute.
  - intros m Hm. right. repeat (apply elem_of_cons in Hm as [->|Hm]; [by eexists|]).
    by apply elem_of_nil in Hm.
  - intros p n Hp. unfold demo_ops in Hp.
    repeat (apply elem_of_cons in Hp as [Hp|Hp];
      [first [discriminate Hp|injection Hp as -> ->];
       eauto using list_elem_of_here, list_elem_of_further|]).
    by apply elem_of_nil in Hp.
Defined.

(** LWW replicas converge: two replicas that saw the same writes, each in
its own order and with its own repetitions, hold the same register, which no
write it saw is newer than, provided a timestamp and node name one write. *)
Theorem LWW_converges (a b : LWWRegister) (l1 l2 : list LWWRegister) :
  (∀ o, o ∈ a :: l1 ↔ o ∈ b :: l2) →
  (∀ x y, x ∈ a :: l1 → y ∈ a :: l1 → lww_ts x = lww_ts y → lww_node x = lww_node y → x = y) →
  lww_merge_all a l1 = lww_merge_all b l2 ∧
  lww_merge_all a l1 ∈ a :: l1 ∧ ∀ o, o ∈ a :: l1 → lww_newer (lww_merge_all a l1) o = false.
Proof.
  intros Hsame Hkey. destruct (lww_merge_all_max a l1) as [H1 M1].
  destruct (lww_merge_all_max b l2) as [H2 M2]. split; [|done].
  destruct (lww_newer_total (lww_merge_all a l1) (lww_merge_all b l2)) as [Ht Hn].
  - apply M1. by apply Hsame.
  - apply M2. by apply Hsame.
  - apply Hkey; [done|by apply Hsame|done..].
Qed.

Lemma LWW_converges_witness :
  let x := mkLWW "x" 5 "a" in let y := mkLWW "y" 5 "b" in
  lww_merge_all x [y] = lww_merge_all y [x; x].
Proof.
  intros x y. apply (LWW_converges x y [y] [x; x]).
  - intros o. rewrite !elem_of_cons, elem_of_nil. tauto.
  - intros u v [->| ->%list_elem_of_singleton]%elem_of_cons
      [->| ->%list_elem_of_singleton]%elem_of_cons; done.
Defined.

(** Two writes of one node within one tick of its clock: the tie-breaker does
not tell them apart, and replicas that saw them in different orders stay
different however often they exchange their states. *)
Lemma LWW_same_node_tie_diverges v w ts node : v ≠ w →
  let a := mkLWW v ts node in let b := mkLWW w ts node in
  LWWRegister_Merge a b = (a, false) ∧ LWWRegister_Merge b a = (b, false) ∧
  LWWOutcome a b ≠ LWWOutcome b a.
Proof.
  intros Hne a b. assert (∀ c d, lww_newer (mkLWW c ts node) (mkLWW d ts node) = false) as H.
  { intros c d. apply (lww_newer_irrefl (mkLWW c ts node)). }
  unfold LWWOutcome, LWWRegister_Merge. subst a b. rewrite !H. simpl. naive_solver.
Qed.
