(* ===== verification/Breaker.v ===== *)
(** * fintech-gateway-go/internal/breaker: the circuit breaker

[Breaker] has the atomic fields of the struct.  [Allow], [Success] and
[Failure] are modelled twice: as functions, each call running alone, and as
threads whose steps are the single atomic accesses of the code ([bstep]), with
the mutex explicit.  The clock is the [now] argument of the calls that read
it, in nanoseconds. *)

From Stdlib Require Import ZArith Lia.
From stdpp Require Import base gmap strings relations list.
From S2P Require Import Prelude.

Open Scope Z_scope.

(* [base] fintech-gateway-go/internal/breaker *)

(* [go] breaker.go:18-24 state *)
Inductive bstate : Type := closed | open | halfOpen.

#[global] Instance bstate_eq_dec : EqDecision bstate.
Proof. solve_decision. Defined.

(* [go] breaker.go:27-44 Config *)
Record Config : Type := mkConfig {
  FailureThreshold : Z; OpenDuration : Z; HalfOpenSuccessThreshold : Z; MaxHalfOpenRequests : Z }.

(* [go] breaker.go:46-53 DefaultConfig *)
Definition DefaultConfig : Config := mkConfig 5 (10 * 1000000000) 2 5.

(* [go] breaker.go:58-71 Breaker *)
Record Breaker : Type := mkBreaker {
  b_state : bstate; consecutiveFail : Z; consecutiveOK : Z; halfOpenIssued : Z; openedAt : Z }.

(** The configuration [newWithClock] stores, and the zero breaker. *)
(* [go] breaker.go:73-82 newWithClock *)
Definition newWithClock (cfg : Config) : Config * Breaker :=
  let cfg' := if MaxHalfOpenRequests cfg <? HalfOpenSuccessThreshold cfg
    then mkConfig (FailureThreshold cfg) (OpenDuration cfg) (HalfOpenSuccessThreshold cfg)
           (HalfOpenSuccessThreshold cfg)
    else cfg in
  (cfg', mkBreaker closed 0 0 0 0).

Section ops.
Context (cfg : Config).

(* [go] breaker.go:102-112 Breaker.tryTransitionToHalfOpen *)
Definition tryTransitionToHalfOpen (b : Breaker) : Breaker * bool :=
  match b_state b with
  | open => (mkBreaker halfOpen (consecutiveFail b) 0 1 (openedAt b), true)
  | _ => (b, false)
  end.

(* [go] breaker.go:86-100 Breaker.Allow *)
Definition Allow (now : Z) (b : Breaker) : Breaker * bool :=
  match b_state b with
  | closed => (b, true)
  | halfOpen =>
      let n := i32 (halfOpenIssued b + 1) in
      (mkBreaker halfOpen (consecutiveFail b) (consecutiveOK b) n (openedAt b),
       n <=? i32 (MaxHalfOpenRequests cfg))
  | open =>
      if now <? i64 (openedAt b + OpenDuration cfg) then (b, false)
      else tryTransitionToHalfOpen b
  end.

(* [go] breaker.go:114-128 Breaker.Success *)
Definition Success (b : Breaker) : Breaker :=
  match b_state b with
  | closed => mkBreaker closed 0 (consecutiveOK b) (halfOpenIssued b) (openedAt b)
  | halfOpen =>
      let n := i32 (consecutiveOK b + 1) in
      if i32 (HalfOpenSuccessThreshold cfg) <=? n
      then mkBreaker closed 0 n (halfOpenIssued b) (openedAt b)
      else mkBreaker halfOpen (consecutiveFail b) n (halfOpenIssued b) (openedAt b)
  | open => b
  end.

(* [go] breaker.go:141-147 Breaker.trip *)
Definition trip (now : Z) (b : Breaker) : Breaker :=
  mkBreaker open 0 (consecutiveOK b) (halfOpenIssued b) now.

(* [go] breaker.go:130-139 Breaker.Failure *)
Definition Failure (now : Z) (b : Breaker) : Breaker :=
  match b_state b with
  | closed =>
      let n := i32 (consecutiveFail b + 1) in
      let b' := mkBreaker closed n (consecutiveOK b) (halfOpenIssued b) (openedAt b) in
      if i32 (FailureThreshold cfg) <=? n then trip now b' else b'
  | halfOpen => trip now b
  | open => b
  end.

(** ** Sequences of calls *)

Inductive bop : Type := OAllow (now : Z) | OSuccess | OFailure (now : Z).

(** The breaker after the calls, and the answers of the [Allow]s among them. *)
Fixpoint brun (ops : list bop) (b : Breaker) : Breaker * list bool :=
  match ops with
  | [] => (b, [])
  | OAllow now :: ops' =>
      let '(b', r) := Allow now b in let '(b'', rs) := brun ops' b' in (b'', r :: rs)
  | OSuccess :: ops' => brun ops' (Success b)
  | OFailure now :: ops' => brun ops' (Failure now b)
  end.

(** ** Clients: every granted call reports its outcome once *)

(** The breaker and the number of granted calls that have not reported yet. *)
Definition csys : Type := Breaker * Z.

Inductive cev : Type := CCall (now : Z) | CReport (now : Z) (ok : bool).

Definition cstep (c : csys) (e : cev) : csys :=
  let '(b, out) := c in
  match e with
  | CCall now => let '(b', r) := Allow now b in (b', if r then out + 1 else out)
  | CReport now ok =>
      if 0 <? out then (if ok then Success b else Failure now b, out - 1) else (b, out)
  end.

Definition crun (evs : list cev) (c : csys) : csys := foldl cstep c evs.

(** A call and, at once, its successful outcome, at time [now]. *)
Definition healthy_call (now : Z) : list cev := [CCall now; CReport now true].
End ops.

(** ** Threads: one step per atomic access *)

(** What remains of a call: the constructors name the next access. *)
Inductive bpc : Type :=
| PAllow (now : Z)              (* state.Load of Allow *)
| PAllowAdd                     (* halfOpenIssued.Add *)
| PAllowTime (now : Z)          (* openedAt.Load and the comparison *)
| PTryLock | PTryCheck          (* tryTransitionToHalfOpen *)
| PTryOK | PTryIssued | PTryState | PTryUnlock (r : bool)
| PSuccess | PSuccessStore | PSuccessAdd
| PCloseLock | PCloseCheck | PCloseState | PCloseFail | PCloseUnlock
| PFailure (now : Z) | PFailureAdd (now : Z)
| PTripLock (now : Z) | PTripState (now : Z) | PTripOpened (now : Z) | PTripFail | PTripUnlock
| PDone (r : option bool).

Definition set_state (s : bstate) (b : Breaker) : Breaker :=
  mkBreaker s (consecutiveFail b) (consecutiveOK b) (halfOpenIssued b) (openedAt b).

(** One access of a thread; the [bool] is whether the mutex is held by anyone. *)
(* [go] breaker.go:86-147 Breaker *)
Definition bstep (cfg : Config) (p : bpc) (b : Breaker) (locked : bool)
  : option (bpc * Breaker * bool) :=
  match p with
  | PAllow now => Some (match b_state b with
      | closed => PDone (Some true) | halfOpen => PAllowAdd | open => PAllowTime now end, b, locked)
  | PAllowAdd => let n := i32 (halfOpenIssued b + 1) in
      Some (PDone (Some (n <=? i32 (MaxHalfOpenRequests cfg))),
            mkBreaker (b_state b) (consecutiveFail b) (consecutiveOK b) n (openedAt b), locked)
  | PAllowTime now => Some (if now <? i64 (openedAt b + OpenDuration cfg)
      then PDone (Some false) else PTryLock, b, locked)
  | PTryLock => if locked then None else Some (PTryCheck, b, true)
  | PTryCheck => Some (if decide (b_state b = open) then PTryOK else PTryUnlock false, b, locked)
  | PTryOK => Some (PTryIssued, mkBreaker (b_state b) (consecutiveFail b) 0 (halfOpenIssued b) (openedAt b), locked)
  | PTryIssued => Some (PTryState, mkBreaker (b_state b) (consecutiveFail b) (consecutiveOK b) 1 (openedAt b), locked)
  | PTryState => Some (PTryUnlock true, set_state halfOpen b, locked)
  | PTryUnlock r => Some (PDone (Some r), b, false)
  | PSuccess => Some (match b_state b with
      | closed => PSuccessStore | halfOpen => PSuccessAdd | open => PDone None end, b, locked)
  | PSuccessStore => Some (PDone None, mkBreaker (b_state b) 0 (consecutiveOK b) (halfOpenIssued b) (openedAt b), locked)
  | PSuccessAdd => let n := i32 (consecutiveOK b + 1) in
      Some (if i32 (HalfOpenSuccessThreshold cfg) <=? n then PCloseLock else PDone None,
            mkBreaker (b_state b) (consecutiveFail b) n (halfOpenIssued b) (openedAt b), locked)
  | PCloseLock => if locked then None else Some (PCloseCheck, b, true)
  | PCloseCheck => Some (if decide (b_state b = halfOpen) then PCloseState else PCloseUnlock, b, locked)
  | PCloseState => Some (PCloseFail, set_state closed b, locked)
  | PCloseFail => Some (PCloseUnlock, mkBreaker (b_state b) 0 (consecutiveOK b) (halfOpenIssued b) (openedAt b), locked)
  | PCloseUnlock => Some (PDone None, b, false)
  | PFailure now => Some (match b_state b with
      | closed => PFailureAdd now | halfOpen => PTripLock now | open => PDone None end, b, locked)
  | PFailureAdd now => let n := i32 (consecutiveFail b + 1) in
      Some (if i32 (FailureThreshold cfg) <=? n then PTripLock now else PDone None,
            mkBreaker (b_state b) n (consecutiveOK b) (halfOpenIssued b) (openedAt b), locked)
  | PTripLock now => if locked then None else Some (PTripState now, b, true)
  | PTripState now => Some (PTripOpened now, set_state open b, locked)
  | PTripOpened now => Some (PTripFail, mkBreaker (b_state b) (consecutiveFail b) (consecutiveOK b) (halfOpenIssued b) now, locked)
  | PTripFail => Some (PTripUnlock, mkBreaker (b_state b) 0 (consecutiveOK b) (halfOpenIssued b) (openedAt b), locked)
  | PTripUnlock => Some (PDone None, b, false)
  | PDone _ => None
  end.

(** Threads, by index, take steps in any order. *)
Definition tsys : Type := list bpc * Breaker * bool.

Definition tsched (cfg : Config) (s : tsys) (i : nat) : tsys :=
  let '(ps, b, locked) := s in
  match ps !! i with
  | Some p => match bstep cfg p b locked with
              | Some (p', b', l') => (<[i := p']> ps, b', l')
              | None => s
              end
  | None => s
  end.

Definition trun (cfg : Config) (s : tsys) (sched : list nat) : tsys := foldl (tsched cfg) s sched.

(** A thread running alone, with the fuel of its longest path. *)
Fixpoint bsolo (cfg : Config) (fuel : nat) (p : bpc) (b : Breaker) (locked : bool)
  : bpc * Breaker * bool :=
  match fuel with
  | O => (p, b, locked)
  | S f => match bstep cfg p b locked with
           | Some (p', b', l') => bsolo cfg f p' b' l'
           | None => (p, b, locked)
           end
  end.

(** ** Lemmas *)

Lemma i32_small z : - 2 ^ 31 ≤ z < 2 ^ 31 → i32 z = z.
Proof. unfold i32. intros. rewrite Z.mod_small; lia. Qed.

(** The values of a configuration: positive thresholds that fit [int32], and
no deadline overflow. *)
Record good_config (cfg : Config) : Prop := {
  gc_fail : 1 ≤ FailureThreshold cfg < 2 ^ 31;
  gc_ok : 1 ≤ HalfOpenSuccessThreshold cfg < 2 ^ 31;
  gc_max : HalfOpenSuccessThreshold cfg ≤ MaxHalfOpenRequests cfg < 2 ^ 31 }.

(** A call running alone makes the transition of the function. *)
Lemma bsolo_Allow cfg now b : bsolo cfg 8 (PAllow now) b false =
  (PDone (Some (Allow cfg now b).2), (Allow cfg now b).1, false).
Proof.
  destruct b as [[] f k n o]; simpl; try done.
  unfold Allow; simpl. by destruct (now <? _).
Qed.

Lemma bsolo_Success cfg b : bsolo cfg 8 PSuccess b false = (PDone None, Success cfg b, false).
Proof.
  destruct b as [[] f k n o]; simpl; try done.
  unfold Success; simpl. by destruct (_ <=? _).
Qed.

Lemma bsolo_Failure cfg now b : bsolo cfg 8 (PFailure now) b false = (PDone None, Failure cfg now b, false).
Proof.
  destruct b as [[] f k n o]; simpl; try done.
  unfold Failure; simpl. by destruct (_ <=? _).
Qed.

(** *** Closed: consecutive failures *)

(** [trips thr f ops]: counting from [f], some run of consecutive failures in
[ops] reaches [thr]. *)
Fixpoint trips (thr f : Z) (ops : list bop) : bool :=
  match ops with
  | [] => false
  | OAllow _ :: ops' => trips thr f ops'
  | OSuccess :: ops' => trips thr 0 ops'
  | OFailure _ :: ops' => (thr <=? f + 1) || trips thr (f + 1) ops'
  end.

Lemma closed_run cfg ops b : good_config cfg →
  b_state b = closed → 0 ≤ consecutiveFail b < FailureThreshold cfg →
  trips (FailureThreshold cfg) (consecutiveFail b) ops = false →
  let '(b', rs) := brun cfg ops b in
  b_state b' = closed ∧ 0 ≤ consecutiveFail b' < FailureThreshold cfg ∧ Forall (eq true) rs.
Proof.
  intros [Hf _ _]. revert b. induction ops as [|[now| |now] ops IH]; intros b Hs Hc Ht; simpl in *.
  - done.
  - unfold Allow. rewrite Hs. specialize (IH b Hs Hc Ht). destruct (brun cfg ops b).
    naive_solver.
  - unfold Success. rewrite Hs. apply IH; simpl; [done|lia|done].
  - unfold Failure. rewrite Hs. apply orb_false_iff in Ht as [Hn Ht]. zbool.
    rewrite (i32_small (consecutiveFail b + 1)), (i32_small (FailureThreshold cfg)) by lia.
    rewrite (proj2 (Z.leb_gt _ _) Hn). apply IH; simpl; [done|lia|done].
Qed.

(** *** Open: everything is refused until the deadline *)

(** No [Allow] of [ops] is at or after [t]. *)
Definition allows_before (t : Z) (o : bop) : Prop :=
  match o with OAllow now => now < t | _ => True end.

Lemma open_run cfg ops b : b_state b = open →
  Forall (allows_before (i64 (openedAt b + OpenDuration cfg))) ops →
  (brun cfg ops b).1 = b ∧ Forall (eq false) (brun cfg ops b).2.
Proof.
  intros Hs Hops. induction Hops as [|[now| |now] ops Ho Hops IH]; simpl in *.
  - by split.
  - assert (Allow cfg now b = (b, false)) as ->.
    { unfold Allow. rewrite Hs. by rewrite (proj2 (Z.ltb_lt _ _) Ho). }
    destruct (brun cfg ops b). naive_solver.
  - unfold Success. by rewrite Hs.
  - unfold Failure. by rewrite Hs.
Qed.

(** *** HalfOpen: trials *)

(** Between calls: the counters of a half-open breaker; the trials granted are
outstanding or have succeeded. *)
Record cinv (cfg : Config) (n : Z) (c : csys) : Prop := {
  ci_out : 0 ≤ c.2;
  ci_fail : b_state c.1 = closed → 0 ≤ consecutiveFail c.1 < FailureThreshold cfg;
  ci_half : b_state c.1 = halfOpen →
    0 ≤ consecutiveOK c.1 < HalfOpenSuccessThreshold cfg ∧
    1 ≤ halfOpenIssued c.1 ≤ n ∧
    Z.min (halfOpenIssued c.1) (MaxHalfOpenRequests cfg) ≤ c.2 + consecutiveOK c.1 }.

Lemma cinv_step cfg n c e : good_config cfg → 0 ≤ n → n + 1 < 2 ^ 31 →
  cinv cfg n c → cinv cfg (n + 1) (cstep cfg c e).
Proof.
  intros [Hf Ho Hm] Hn0 Hn [Hout Hfail Hhalf]. destruct c as [b out], e as [now|now ok]; simpl in *.
  - unfold Allow. destruct (b_state b) eqn:Hs.
    + constructor; simpl; rewrite ?Hs; naive_solver lia.
    + case_test; simpl; [constructor; simpl; rewrite ?Hs; naive_solver lia|].
      unfold tryTransitionToHalfOpen. rewrite Hs. constructor; simpl; intros; first [done|lia].
    + destruct (Hhalf eq_refl) as (? & ? & ?).
      rewrite (i32_small (_ + 1)), (i32_small (MaxHalfOpenRequests cfg)) by lia.
      constructor; simpl; intros; [case_test; lia|done|]. split_and!; try lia. case_test; zbool; lia.
  - case_test; zbool; [|constructor; simpl; naive_solver lia].
    destruct ok; [unfold Success|unfold Failure]; destruct (b_state b) eqn:Hs.
    + constructor; simpl; intros; first [done|lia].
    + constructor; simpl; rewrite ?Hs; intros; first [done|lia].
    + destruct (Hhalf eq_refl) as (? & ? & ?).
      rewrite (i32_small (_ + 1)), (i32_small (HalfOpenSuccessThreshold cfg)) by lia.
      case_test; zbool; constructor; simpl; intros; try (split_and!; lia); first [done|lia].
    + specialize (Hfail eq_refl).
      rewrite (i32_small (_ + 1)), (i32_small (FailureThreshold cfg)) by lia.
      case_test; zbool; constructor; simpl; intros; first [done|lia].
    + constructor; simpl; rewrite ?Hs; intros; first [done|lia].
    + constructor; simpl; intros; first [done|lia].
Qed.

Lemma cinv_run cfg evs n c : good_config cfg → 0 ≤ n → n + Z.of_nat (length evs) < 2 ^ 31 →
  cinv cfg n c → cinv cfg (n + Z.of_nat (length evs)) (crun cfg evs c).
Proof.
  intros Hg. revert n c. induction evs as [|e evs IH]; intros n c H0 Hn Hc; simpl in *.
  - by rewrite Z.add_0_r.
  - replace (n + Z.of_nat (S (length evs))) with (n + 1 + Z.of_nat (length evs)) by lia.
    apply IH; [lia|lia|]. apply cinv_step; [done|lia|lia|done].
Qed.

(** *** Recovery *)

(** With nothing outstanding, [k] successful calls at time [now] close it. *)
Definition ready (cfg : Config) (now : Z) (k : Z) (c : csys) : Prop :=
  c.2 = 0 ∧
  match b_state c.1 with
  | closed => True
  | open => i64 (openedAt c.1 + OpenDuration cfg) ≤ now ∧ HalfOpenSuccessThreshold cfg ≤ k
  | halfOpen => 0 ≤ consecutiveOK c.1 < HalfOpenSuccessThreshold cfg ∧
      0 ≤ halfOpenIssued c.1 ≤ consecutiveOK c.1 ∧
      HalfOpenSuccessThreshold cfg - consecutiveOK c.1 ≤ k
  end.

Lemma healthy_call_ready cfg now k c : good_config cfg → ready cfg now (k + 1) c →
  ready cfg now k (crun cfg (healthy_call now) c).
Proof.
  intros [Hf Ho Hm] [Hout Hr]. destruct c as [b out]. simpl in *. subst out.
  unfold Allow. destruct (b_state b) eqn:Hs; simpl.
  - unfold Success. rewrite Hs. by split.
  - destruct Hr as [Hd Hk]. rewrite (proj2 (Z.ltb_ge _ _) Hd).
    unfold tryTransitionToHalfOpen. rewrite Hs. simpl. unfold Success. cbn [b_state consecutiveOK].
    rewrite (i32_small (HalfOpenSuccessThreshold cfg)), (i32_small (0 + 1)) by lia.
    case_test; zbool; split; simpl; first [done|lia].
  - destruct Hr as (Hk & Hi & Hle).
    rewrite (i32_small (_ + 1)), (i32_small (MaxHalfOpenRequests cfg)) by lia.
    rewrite (proj2 (Z.leb_le (halfOpenIssued b + 1) (MaxHalfOpenRequests cfg))) by lia. simpl.
    unfold Success. cbn [b_state consecutiveOK].
    rewrite (i32_small (consecutiveOK b + 1)), (i32_small (HalfOpenSuccessThreshold cfg)) by lia.
    case_test; zbool; split; simpl; first [done|lia].
Qed.

Fixpoint healthy_calls (now : Z) (k : nat) : list cev :=
  match k with O => [] | S k' => healthy_call now ++ healthy_calls now k' end.

Lemma healthy_calls_close cfg now k c : good_config cfg → ready cfg now (Z.of_nat k) c →
  b_state (crun cfg (healthy_calls now k) c).1 = closed.
Proof.
  intros Hg. revert c. induction k as [|k IH]; intros c Hr.
  - destruct Hg as [_ Ho _], Hr as [_ Hr]. simpl. destruct (b_state c.1); [done|lia|lia].
  - cbn [healthy_calls]. unfold crun. rewrite foldl_app. apply IH.
    apply healthy_call_ready; [done|]. by replace (Z.of_nat k + 1) with (Z.of_nat (S k)) by lia.
Qed.

Lemma cinv_new cfg : good_config cfg → cinv cfg 0 ((newWithClock cfg).2, 0).
Proof. intros [? ? ?]. constructor; simpl; intros; first [done|lia]. Qed.

(** *** Threads *)

(** The mutex is held between its lock and its unlock. *)
Definition in_crit (p : bpc) : bool :=
  match p with
  | PTryCheck | PTryOK | PTryIssued | PTryState | PTryUnlock _
  | PCloseCheck | PCloseState | PCloseFail | PCloseUnlock
  | PTripState _ | PTripOpened _ | PTripFail | PTripUnlock => true
  | _ => false
  end.

(** What a thread in its critical section knows of the state. *)
Definition knows (p : bpc) (b : Breaker) : Prop :=
  match p with
  | PTryOK | PTryIssued | PTryState => b_state b = open
  | PCloseState => b_state b = halfOpen
  | _ => True
  end.

Record tinv (s : tsys) : Prop := {
  ti_free : s.2 = false → ∀ i p, s.1.1 !! i = Some p → in_crit p = false;
  ti_mutex : ∀ i j p q, s.1.1 !! i = Some p → s.1.1 !! j = Some q →
    in_crit p = true → in_crit q = true → i = j;
  ti_knows : ∀ i p, s.1.1 !! i = Some p → knows p s.1.2 }.

(** One access: how it moves in and out of the critical section, and that only
the holder of the mutex writes the state. *)
Lemma bstep_inv cfg p b l p' b' l' : bstep cfg p b l = Some (p', b', l') →
  (in_crit p = false → in_crit p' = true → l = false ∧ l' = true) ∧
  (in_crit p = true → in_crit p' = false → l' = false) ∧
  (in_crit p = in_crit p' → l' = l) ∧
  (in_crit p = false → b_state b' = b_state b) ∧
  (knows p b → knows p' b').
Proof.
  destruct p; simpl; intros H; repeat case_match; simplify_eq; simpl; split_and!; try done;
    intros; repeat case_decide; done.
Qed.

Lemma tinv_sched cfg s i : tinv s → tinv (tsched cfg s i).
Proof.
  intros Hinv. destruct s as [[ps b] l]. simpl.
  destruct (ps !! i) as [p|] eqn:Hp; [|done].
  destruct (bstep cfg p b l) as [[[p' b'] l']|] eqn:Hst; [|done].
  destruct Hinv as [Hfree Hmut Hk]. simpl in *.
  apply bstep_inv in Hst as (Hin & Hout & Hsame & Hwr & Hkn).
  assert (∀ j q, <[i:=p']> ps !! j = Some q → j = i ∧ q = p' ∨ j ≠ i ∧ ps !! j = Some q) as Hlk.
  { intros j q Hj. apply list_lookup_insert_Some in Hj as [(-> & -> & _)|[? ?]]; auto. }
  assert (in_crit p' = true → ∀ j q, j ≠ i → ps !! j = Some q → in_crit q = false) as Halone.
  { intros Hc j q Hne Hj. destruct (in_crit q) eqn:Eq; [|done]. destruct (in_crit p) eqn:Ep.
    - by destruct Hne; eapply Hmut.
    - destruct (Hin eq_refl Hc) as [-> _]. rewrite (Hfree eq_refl j q Hj) in Eq. done. }
  constructor; simpl.
  - intros -> j q [[-> ->]|[Hne Hj]]%Hlk.
    + destruct (in_crit p') eqn:Ep'; [|done]. destruct (in_crit p) eqn:Ep.
      * rewrite <- Ep. apply (Hfree (eq_sym (Hsame eq_refl)) i p Hp).
      * by destruct (Hin eq_refl eq_refl).
    + destruct (in_crit q) eqn:Eq; [|done]. destruct (in_crit p) eqn:Ep.
      * by destruct Hne; eapply Hmut.
      * destruct (in_crit p') eqn:Ep'; [by destruct (Hin eq_refl eq_refl)|].
        rewrite (Hfree (eq_sym (Hsame eq_refl)) j q Hj) in Eq. done.
  - intros j k q r [[-> ->]|[Hj Hq]]%Hlk [[-> ->]|[Hk' Hr]]%Hlk Hcq Hcr; [done| | |by eapply Hmut].
    + by rewrite (Halone Hcq k r) in Hcr.
    + by rewrite (Halone Hcr j q) in Hcq.
  - intros j q [[-> ->]|[Hne Hj]]%Hlk; [eauto|]. pose proof (Hk j q Hj) as Hq.
    destruct (in_crit p) eqn:Ep.
    + destruct (in_crit q) eqn:Eq; [by destruct Hne; eapply Hmut|]. by destruct q.
    + destruct q; simpl in *; rewrite ?Hwr; done.
Qed.

(** The steps of the state that the design allows. *)
Definition legal_transition (s s' : bstate) : Prop :=
  s = s' ∨ s = open ∧ s' = halfOpen ∨ s = halfOpen ∧ s' = closed ∨ s' = open.

Lemma tsched_legal cfg s i : tinv s → legal_transition (b_state s.1.2) (b_state (tsched cfg s i).1.2).
Proof.
  intros Hinv. destruct s as [[ps b] l]. simpl. unfold legal_transition.
  destruct (ps !! i) as [p|] eqn:Hp; [|by left].
  destruct (bstep cfg p b l) as [[[p' b'] l']|] eqn:Hst; [|by left]. simpl.
  pose proof (ti_knows _ Hinv i p Hp) as Hk. simpl in Hk.
  destruct p; simpl in Hst, Hk; repeat case_match; simplify_eq; simpl; auto.
Qed.

(** Threads at the start of a call. *)
Definition starting (p : bpc) : Prop :=
  match p with PAllow _ | PSuccess | PFailure _ => True | _ => False end.

Lemma tinv_start ps b : Forall starting ps → tinv (ps, b, false).
Proof.
  intros Hps. assert (∀ i p, ps !! i = Some p → starting p) as Hst.
  { intros i p Hi. by eapply Forall_lookup_1. }
  constructor; simpl.
  - intros _ i p Hi%Hst. by destruct p.
  - intros i j p q Hi%Hst _. by destruct p.
  - intros i p Hi%Hst. by destruct p.
Qed.

Lemma tinv_trun cfg s sched : tinv s → tinv (trun cfg s sched).
Proof. revert s. induction sched as [|i sched IH]; intros s Hs; simpl; eauto using tinv_sched. Qed.

(** The calls before the breaker first opens. *)
Lemma trips_opens cfg ops b : good_config cfg →
  b_state b = closed → 0 ≤ consecutiveFail b < FailureThreshold cfg →
  trips (FailureThreshold cfg) (consecutiveFail b) ops = true →
  ∃ k, b_state (brun cfg (take k ops) b).1 = open.
Proof.
  intros [Hf Ho Hm]. revert b. induction ops as [|[now| |now] ops IH]; intros b Hs Hc Ht; simpl in *.
  - done.
  - destruct (IH b Hs Hc Ht) as [k Hk]. exists (S k). simpl. unfold Allow. rewrite Hs.
    by destruct (brun cfg (take k ops) b).
  - destruct (IH (Success cfg b)) as [k Hk]; unfold Success; rewrite ?Hs; simpl; [done|lia|done|].
    exists (S k). simpl. unfold Success in *. by rewrite Hs in *.
  - destruct (FailureThreshold cfg <=? consecutiveFail b + 1) eqn:E; simpl in Ht; zbool.
    + exists 1%nat. simpl. unfold Failure. rewrite Hs.
      rewrite !i32_small by lia. by rewrite (proj2 (Z.leb_le _ _) E).
    + assert (Failure cfg now b = mkBreaker closed (consecutiveFail b + 1) (consecutiveOK b)
        (halfOpenIssued b) (openedAt b)) as HF.
      { unfold Failure. rewrite Hs. rewrite !i32_small by lia. by rewrite (proj2 (Z.leb_gt _ _) E). }
      destruct (IH (Failure cfg now b)) as [k Hk]; rewrite ?HF; simpl; [done|lia|done|].
      exists (S k). done.
Qed.

(** ** Main results *)

(** A new breaker opens exactly when the calls reported on it contain
[FailureThreshold] consecutive failures: otherwise it stays closed through
every prefix and grants every call. *)
Theorem Breaker_trips_iff (cfg : Config) (ops : list bop) : good_config cfg →
  (trips (FailureThreshold cfg) 0 ops = false →
    b_state (brun cfg ops (newWithClock cfg).2).1 = closed ∧
    Forall (eq true) (brun cfg ops (newWithClock cfg).2).2) ∧
  (trips (FailureThreshold cfg) 0 ops = true →
    ∃ k, b_state (brun cfg (take k ops) (newWithClock cfg).2).1 = open).
Proof.
  intros Hg. pose proof (gc_fail _ Hg). split; intros Ht.
  - pose proof (closed_run cfg ops (newWithClock cfg).2 Hg eq_refl) as Hr.
    destruct (brun _ _ _). simpl in Hr. destruct Hr as (? & _ & ?); [lia|done|done].
  - apply trips_opens; [done|done|simpl; lia|done].
Qed.

Lemma DefaultConfig_good : good_config DefaultConfig.
Proof. split; simpl; lia. Defined.

Lemma Breaker_trips_iff_witness :
  trips 5 0 (replicate 5 (OFailure 7)) = true ∧
  ∃ k, b_state (brun DefaultConfig (take k (replicate 5 (OFailure 7))) (newWithClock DefaultConfig).2).1 = open.
Proof.
  split; [done|]. apply (Breaker_trips_iff DefaultConfig (replicate 5 (OFailure 7)) DefaultConfig_good).
  done.
Defined.

(** Fail fast: once a failure reported at time [t] has opened the breaker,
every [Allow] before [t + OpenDuration] is refused, whatever outcomes of
earlier calls are still reported meanwhile, and the breaker does not move. *)
Theorem Breaker_fail_fast (cfg : Config) (b : Breaker) (t : Z) (ops : list bop) :
  b_state b ≠ open → b_state (Failure cfg t b) = open →
  in_i64 (t + OpenDuration cfg) → Forall (allows_before (t + OpenDuration cfg)) ops →
  let '(b', rs) := brun cfg ops (Failure cfg t b) in
  b' = Failure cfg t b ∧ Forall (eq false) rs.
Proof.
  intros Hn Ho Hd Hops. assert (openedAt (Failure cfg t b) = t) as Ht.
  { revert Ho. unfold Failure. destruct (b_state b); [|done|done]. by case_test. }
  pose proof (open_run cfg ops (Failure cfg t b) Ho) as Hr.
  rewrite Ht, i64_small in Hr by done. destruct (brun _ _ _). by apply Hr.
Qed.

Lemma Breaker_fail_fast_witness :
  let b := mkBreaker closed 4 0 0 0 in
  let '(b', rs) := brun DefaultConfig [OAllow 8; OSuccess; OAllow 9] (Failure DefaultConfig 7 b) in
  b' = Failure DefaultConfig 7 b ∧ Forall (eq false) rs.
Proof.
  apply (Breaker_fail_fast DefaultConfig (mkBreaker closed 4 0 0 0) 7 [OAllow 8; OSuccess; OAllow 9]);
    [done|by vm_compute|vm_compute; by split|]. repeat constructor.
Defined.

(** Recovery: after any history of calls in which every granted call has
reported its outcome, once the open period (if any) is over, exactly
[HalfOpenSuccessThreshold] successful calls close the breaker; it can never
be stuck half-open with its trial budget used up. *)
Theorem Breaker_recovers (cfg : Config) (evs : list cev) (now : Z) :
  good_config cfg → Z.of_nat (length evs) < 2 ^ 31 →
  let c := crun cfg evs ((newWithClock cfg).2, 0) in
  c.2 = 0 → i64 (openedAt c.1 + OpenDuration cfg) ≤ now →
  b_state (crun cfg (healthy_calls now (Z.to_nat (HalfOpenSuccessThreshold cfg))) c).1 = closed.
Proof.
  intros Hg Hl c Hout Hnow. apply healthy_calls_close; [done|]. split; [done|].
  destruct (cinv_run cfg evs 0 _ Hg ltac:(lia) ltac:(lia) (cinv_new cfg Hg)) as [_ _ Hh].
  fold c in Hh. pose proof (gc_ok _ Hg). pose proof (gc_max _ Hg).
  destruct (b_state c.1); [done|lia|]. specialize (Hh eq_refl). lia.
Qed.

Lemma Breaker_recovers_witness :
  let evs := concat (replicate 5 [CCall 7; CReport 7 false]) in
  b_state (crun DefaultConfig evs ((newWithClock DefaultConfig).2, 0)).1 = open ∧
  b_state (crun DefaultConfig (healthy_calls 10000000007 2)
    (crun DefaultConfig evs ((newWithClock DefaultConfig).2, 0))).1 = closed.
Proof.
  split; [by vm_compute|].
  apply (Breaker_recovers DefaultConfig (concat (replicate 5 [CCall 7; CReport 7 false])) 10000000007
    DefaultConfig_good); [done|done|by vm_compute].
Defined.

(** The mutex makes the transitions exact under concurrency: in every
interleaving of the atomic accesses of concurrent calls, the state only moves
from open to half-open, from half-open to closed, or to open; a breaker is
never closed from open nor half-opened from closed. *)
Theorem Breaker_transitions_legal (cfg : Config) (ps : list bpc) (b : Breaker) (sched : list nat) (i : nat) :
  Forall starting ps →
  let s := trun cfg (ps, b, false) sched in
  legal_transition (b_state s.1.2) (b_state (tsched cfg s i).1.2).
Proof. intros Hps s. apply tsched_legal, tinv_trun, tinv_start, Hps. Qed.

Lemma Breaker_transitions_legal_witness :
  legal_transition open halfOpen.
Proof.
  apply (Breaker_transitions_legal DefaultConfig [PAllow 10000000007; PAllow 10000000008]
    (mkBreaker open 0 0 0 7) [0; 1; 0; 0; 0; 0; 0; 1]%nat 0%nat). repeat constructor.
Defined.

(** [trip] publishes the open state before the time it opened at: an
[Allow] that reads both in between compares the clock with the previous
opening (0 for a new breaker), waits for the mutex and then half-opens the
breaker that has just tripped, although not a tenth of [OpenDuration] passed. *)
Theorem Breaker_trip_race :
  ∃ (t t' : Z) (sched : list nat),
    t ≤ t' < t + OpenDuration DefaultConfig / 10 ∧
    let '(ps, b, locked) :=
      trun DefaultConfig ([PFailure t; PAllow t'], mkBreaker closed 4 0 0 0, false) sched in
    ps = [PDone None; PDone (Some true)] ∧ locked = false ∧ b_state b = halfOpen ∧ openedAt b = t.
Proof.
  exists 1700000000000000000, 1700000000000000100, [0;0;0;0;1;1;0;0;0;1;1;1;1;1;1]%nat.
  split; [split; by vm_compute|]. by vm_compute.
Qed.
