(* ===== verification/TTLCache.v ===== *)
(** * fintech-gateway-go/internal/cache: the sharded LRU cache with TTL

A shard has the map of entries and the [container/list] of the source: list
elements carry an identity, and an entry points to its element.  The abstract
cache [lru] is a list of (key, value, expiry), most recent first; the shard
operations refine it.  [Cache] routes keys to 256 shards. *)

From Stdlib Require Import ZArith Lia.
From stdpp Require Import base gmap strings fin_maps relations functions list.
From S2P Require Import Prelude.

Open Scope Z_scope.

(* [base] fintech-gateway-go/internal/cache *)

Section cache.
Context {V E : Type}.

(** ** container/list *)

(** A list element: its identity and the key of the entry it points to. *)
Definition elem : Type := nat * string.

Definition list_Remove (id : nat) (l : list elem) : list elem :=
  filter (fun x => x.1 ≠ id) l.

Definition list_MoveToFront (id : nat) (l : list elem) : list elem :=
  match list_find (fun x => x.1 = id) l with
  | Some (_, x) => x :: list_Remove id l
  | None => l
  end.

Definition list_Back (l : list elem) : option elem := last l.

(** ** Shards *)

(* [go] cache.go:19-24 entry *)
Record entry : Type := mkEntry { e_value : V; e_expiresAt : Z; e_elem : nat }.

(** [sh_next] is the next fresh element identity. *)
(* [go] cache.go:26-31 shard *)
Record shard : Type := mkShard {
  sh_items : gmap string entry; sh_order : list elem; sh_capacity : Z; sh_next : nat }.

(* [go] cache.go:50-54 newWithClock *)
Definition new_shard (capacityPerShard : Z) : shard := mkShard ∅ [] capacityPerShard 0.

(* [go] cache.go:66-84 Cache.Get *)
Definition shard_Get (now : Z) (key : string) (s : shard) : shard * option V :=
  match sh_items s !! key with
  | None => (s, None)
  | Some e =>
      if e_expiresAt e <? now
      then (mkShard (delete key (sh_items s)) (list_Remove (e_elem e) (sh_order s))
              (sh_capacity s) (sh_next s), None)
      else (mkShard (sh_items s) (list_MoveToFront (e_elem e) (sh_order s))
              (sh_capacity s) (sh_next s), Some (e_value e))
  end.

(** The update of an entry that is present, shared by [Set] and [GetOrLoad]. *)
(* [go] cache.go:95-100 Cache.Set *)
Definition shard_update (key : string) (value : V) (expiresAt : Z) (e : entry) (s : shard) : shard :=
  mkShard (<[key := mkEntry value expiresAt (e_elem e)]> (sh_items s))
    (list_MoveToFront (e_elem e) (sh_order s)) (sh_capacity s) (sh_next s).

(** The insertion of a new entry with the eviction of the oldest one. *)
(* [go] cache.go:102-113 Cache.Set *)
Definition shard_insert (key : string) (value : V) (expiresAt : Z) (s : shard) : shard :=
  let order := (sh_next s, key) :: sh_order s in
  let items := <[key := mkEntry value expiresAt (sh_next s)]> (sh_items s) in
  if (0 <? sh_capacity s) && (sh_capacity s <? Z.of_nat (size items)) then
    match list_Back order with
    | Some oldest =>
        mkShard (delete oldest.2 items) (list_Remove oldest.1 order) (sh_capacity s) (S (sh_next s))
    | None => mkShard items order (sh_capacity s) (S (sh_next s))
    end
  else mkShard items order (sh_capacity s) (S (sh_next s)).

(* [go] cache.go:88-114 Cache.Set *)
Definition shard_Set (ttl now : Z) (key : string) (value : V) (s : shard) : shard :=
  match sh_items s !! key with
  | Some e => shard_update key value (now + ttl) e s
  | None => shard_insert key value (now + ttl) s
  end.

(** The second critical section of [GetOrLoad]; the last component tells
whether [load] (whose result is [load]) was called. *)
(* [go] cache.go:130-165 Cache.GetOrLoad *)
Definition shard_load (ttl now : Z) (key : string) (load : result E V) (s : shard)
  : shard * result E V * bool :=
  let miss :=
    match load with
    | Err err => (s, Err err, true)
    | Ok value => (shard_Set ttl now key value s, Ok value, true)
    end in
  match sh_items s !! key with
  | Some e =>
      if now <? e_expiresAt e
      then (mkShard (sh_items s) (list_MoveToFront (e_elem e) (sh_order s))
              (sh_capacity s) (sh_next s), Ok (e_value e), false)
      else miss
  | None => miss
  end.

(** A call with no other goroutine in between: [now1] and [now2] are the two
readings of the clock. *)
(* [go] cache.go:125-165 Cache.GetOrLoad *)
Definition shard_GetOrLoad (ttl now1 now2 : Z) (key : string) (load : result E V) (s : shard)
  : shard * result E V * bool :=
  match shard_Get now1 key s with
  | (s', Some v) => (s', Ok v, false)
  | (s', None) => shard_load ttl now2 key load s'
  end.

(** ** The sharded cache *)

(* [go] cache.go:34-38 Cache *)
Record Cache : Type := mkCache { c_shards : list shard; c_ttl : Z }.

(* [go] cache.go:17-17 defaultShardCount *)
Definition defaultShardCount : nat := 256.

(* [go] cache.go:43-57 newWithClock *)
Definition newCache (capacityPerShard ttl : Z) : Cache :=
  mkCache (replicate defaultShardCount (new_shard capacityPerShard)) ttl.

(** The index of the shard of a key. *)
(* [go] cache.go:59-63 Cache.shardFor *)
Definition shardFor (c : Cache) (key : string) : nat :=
  Z.to_nat (fnv32a key mod Z.of_nat (length (c_shards c))).

(** A critical section on the shard of [key]. *)
Definition on_shard {R} (c : Cache) (key : string) (f : shard → shard * R) : Cache * option R :=
  match c_shards c !! shardFor c key with
  | Some s => let '(s', r) := f s in (mkCache (<[shardFor c key := s']> (c_shards c)) (c_ttl c), Some r)
  | None => (c, None)
  end.

(* [go] cache.go:66-84 Cache.Get *)
Definition Cache_Get (now : Z) (key : string) (c : Cache) : Cache * option V :=
  let '(c', r) := on_shard c key (shard_Get now key) in (c', mjoin r).

(* [go] cache.go:88-114 Cache.Set *)
Definition Cache_Set (now : Z) (key : string) (value : V) (c : Cache) : Cache :=
  (on_shard c key (fun s => (shard_Set (c_ttl c) now key value s, ()))).1.

(** ** The abstract LRU cache *)

Local Notation item := (string * V * Z)%type.
Local Notation lru := (list (string * V * Z)).

Definition item_key (x : item) : string := x.1.1.

Definition lru_remove (key : string) (l : lru) : lru := filter (fun x => item_key x ≠ key) l.

Definition lru_find (key : string) (l : lru) : option item :=
  snd <$> list_find (fun x => item_key x = key) l.

Definition lru_Get (now : Z) (key : string) (l : lru) : lru * option V :=
  match lru_find key l with
  | None => (l, None)
  | Some (k, v, exp) =>
      if exp <? now then (lru_remove key l, None) else ((k, v, exp) :: lru_remove key l, Some v)
  end.

(** The oldest entries are cut when the list is over capacity. *)
Definition lru_Set (cap ttl now : Z) (key : string) (v : V) (l : lru) : lru :=
  let l' := (key, v, now + ttl) :: lru_remove key l in
  if 0 <? cap then take (Z.to_nat cap) l' else l'.

Definition lru_load (cap ttl now : Z) (key : string) (load : result E V) (l : lru)
  : lru * result E V * bool :=
  let miss := match load with
              | Err err => (l, Err err, true)
              | Ok v => (lru_Set cap ttl now key v l, Ok v, true)
              end in
  match lru_find key l with
  | Some (k, v, exp) => if now <? exp then ((k, v, exp) :: lru_remove key l, Ok v, false) else miss
  | None => miss
  end.

(** The simulation relation: map and list describe the entries of [l]. *)
Record repr (s : shard) (l : lru) : Prop := {
  rp_order : (sh_order s).*2 = item_key <$> l;
  rp_items : ∀ k v x, (∃ i, sh_items s !! k = Some (mkEntry v x i)) ↔ (k, v, x) ∈ l;
  rp_elem : ∀ k e, sh_items s !! k = Some e → (e_elem e, k) ∈ sh_order s;
  rp_keys : NoDup (sh_order s).*2;
  rp_ids : NoDup (sh_order s).*1;
  rp_fresh : ∀ x, x ∈ sh_order s → (x.1 < sh_next s)%nat }.

(** A non-positive capacity does not bound the shard. *)
Definition cap_ok (cap : Z) (l : lru) : Prop := 0 < cap → Z.of_nat (length l) ≤ cap.
End cache.
Arguments entry : clear implicits.
Arguments shard : clear implicits.
Arguments Cache : clear implicits.
Notation lru V := (list (string * V * Z)).

Section refinement.
Context {V E : Type}.
Implicit Types (s : shard V) (l : lru V).

(** Lengths of abstract caches, whatever the name of their type. *)
Ltac lru_lia := unfold cap_ok in *; simpl in *; lia.

(** ** Lists with unique identities and keys *)

Lemma NoDup_fmap_inj {A B} (f : A → B) (l : list A) x y :
  NoDup (f <$> l) → x ∈ l → y ∈ l → f x = f y → x = y.
Proof.
  intros Hnd Hx Hy Hf. apply list_elem_of_lookup in Hx as [a Ha], Hy as [b Hb].
  assert (a = b) as ->; [|by simplify_eq].
  eapply (NoDup_lookup (f <$> l)); [done|..]; rewrite list_lookup_fmap; [by rewrite Ha|].
  by rewrite Hb, Hf.
Qed.

(** Removing by identity is removing by key. *)
Lemma Remove_by_key (o : list elem) i k : NoDup o.*1 → NoDup o.*2 → (i, k) ∈ o →
  list_Remove i o = filter (fun x => x.2 ≠ k) o.
Proof.
  intros Hi Hk Hin. apply filter_ext_in. intros [j q] Hj. simpl.
  split; intros Hne Heq; subst; apply Hne.
  - by assert ((j, k) = (i, k)) as [= <-] by by apply (NoDup_fmap_inj snd o).
  - by assert ((i, q) = (i, k)) as [= <-] by by apply (NoDup_fmap_inj fst o).
Qed.

Lemma MoveToFront_by_key (o : list elem) i k : NoDup o.*1 → NoDup o.*2 → (i, k) ∈ o →
  list_MoveToFront i o = (i, k) :: filter (fun x => x.2 ≠ k) o.
Proof.
  intros Hi Hk Hin. unfold list_MoveToFront.
  destruct (list_find (fun x => x.1 = i) o) as [[n x]|] eqn:Hf.
  - apply list_find_Some in Hf as (Hx & Hxi & _). apply list_elem_of_lookup_2 in Hx.
    assert (x = (i, k)) as -> by (by apply (NoDup_fmap_inj fst o)). by rewrite (Remove_by_key o i k).
  - apply list_find_None in Hf. rewrite Forall_forall in Hf. by destruct (Hf _ Hin).
Qed.

Lemma remove_keys_order (o : list elem) k :
  (filter (fun x => x.2 ≠ k) o).*2 = filter (fun q => q ≠ k) o.*2.
Proof. by rewrite filter_fmap. Qed.

Lemma remove_keys_lru l k : item_key <$> lru_remove k l = filter (fun q => q ≠ k) (item_key <$> l).
Proof. unfold lru_remove. by rewrite filter_fmap. Qed.

Lemma elem_of_lru_remove l k x : x ∈ lru_remove k l ↔ item_key x ≠ k ∧ x ∈ l.
Proof. unfold lru_remove. by rewrite list_elem_of_filter. Qed.

(** ** The simulation *)

Lemma repr_nodup s l : repr s l → NoDup (item_key <$> l).
Proof. intros H. rewrite <- (rp_order _ _ H). apply (rp_keys _ _ H). Qed.

Lemma repr_lookup s l k e : repr s l → sh_items s !! k = Some e → (k, e_value e, e_expiresAt e) ∈ l.
Proof. intros H Hk. apply (rp_items _ _ H). exists (e_elem e). by destruct e. Qed.

Lemma repr_find s l k : repr s l →
  lru_find k l = (fun e => (k, e_value e, e_expiresAt e)) <$> sh_items s !! k.
Proof.
  intros H. unfold lru_find. destruct (list_find _ l) as [[n [[q v] x]]|] eqn:Hf; simpl.
  - apply list_find_Some in Hf as (Hx & Hq & _). unfold item_key in Hq. simpl in Hq. subst q.
    apply list_elem_of_lookup_2, (rp_items _ _ H) in Hx as [i ->]. done.
  - destruct (sh_items s !! k) as [e|] eqn:Hk; [|done].
    apply list_find_None in Hf. rewrite Forall_forall in Hf.
    by destruct (Hf _ (repr_lookup s l k e H Hk)).
Qed.

Lemma repr_absent s l k : repr s l → sh_items s !! k = None → k ∉ item_key <$> l.
Proof.
  intros H Hk ([[q v] x] & -> & Hin)%list_elem_of_fmap.
  apply (rp_items _ _ H) in Hin as [i Hi]. unfold item_key in Hk. simpl in Hk. by rewrite Hk in Hi.
Qed.

Lemma repr_size s l : repr s l → size (sh_items s) = length l.
Proof.
  intros H. rewrite <- size_dom, <- (length_fmap item_key l).
  rewrite <- (size_list_to_set (C := gset string)) by by eapply repr_nodup.
  f_equal. apply set_eq. intros k. rewrite elem_of_dom, elem_of_list_to_set. split.
  - intros [e He]. apply list_elem_of_fmap. eexists. split; [|by eapply repr_lookup]. done.
  - intros Hin. destruct (sh_items s !! k) eqn:Hk; [done|]. by destruct (repr_absent s l k).
Qed.

Lemma repr_remove s l k e : repr s l → sh_items s !! k = Some e →
  repr (mkShard (delete k (sh_items s)) (list_Remove (e_elem e) (sh_order s)) (sh_capacity s) (sh_next s))
    (lru_remove k l).
Proof.
  intros H Hk. pose proof (rp_elem _ _ H k e Hk) as Hin.
  rewrite (Remove_by_key _ _ k) by (done || apply H). constructor; cbn [sh_items sh_order sh_next].
  - by rewrite remove_keys_order, remove_keys_lru, (rp_order _ _ H).
  - intros q v x. rewrite elem_of_lru_remove, <- (rp_items _ _ H). setoid_rewrite lookup_delete_Some.
    unfold item_key. simpl. naive_solver.
  - intros q e' [Hne He]%lookup_delete_Some. apply list_elem_of_filter. simpl.
    split; [done|]. by apply (rp_elem _ _ H).
  - rewrite remove_keys_order. apply NoDup_filter, (rp_keys _ _ H).
  - eapply sublist_NoDup; [apply (rp_ids _ _ H)|]. apply fmap_sublist, sublist_filter.
  - intros x [_ Hx]%list_elem_of_filter. by apply (rp_fresh _ _ H).
Qed.

Lemma repr_touch s l k e v x : repr s l → sh_items s !! k = Some e →
  repr (mkShard (<[k := mkEntry v x (e_elem e)]> (sh_items s)) (list_MoveToFront (e_elem e) (sh_order s))
          (sh_capacity s) (sh_next s))
    ((k, v, x) :: lru_remove k l).
Proof.
  intros H Hk. pose proof (rp_elem _ _ H k e Hk) as Hin.
  rewrite (MoveToFront_by_key _ _ k) by (done || apply H). constructor; cbn [sh_items sh_order sh_next].
  - rewrite !fmap_cons, remove_keys_order, remove_keys_lru, (rp_order _ _ H). done.
  - intros q w y. rewrite elem_of_cons, elem_of_lru_remove, <- (rp_items _ _ H).
    setoid_rewrite lookup_insert_Some. unfold item_key. simpl. naive_solver.
  - intros q e' [[<- <-]|[Hne He]]%lookup_insert_Some; [left|right].
    apply list_elem_of_filter. simpl. split; [done|]. by apply (rp_elem _ _ H).
  - rewrite fmap_cons, remove_keys_order. apply NoDup_cons. split; [|apply NoDup_filter, (rp_keys _ _ H)].
    by intros [? _]%list_elem_of_filter.
  - rewrite fmap_cons. apply NoDup_cons. split.
    + intros ([j q] & Hj & [Hne Hq]%list_elem_of_filter)%list_elem_of_fmap. simpl in *. subst j.
      by assert ((e_elem e, q) = (e_elem e, k)) as [= ->] by by apply (NoDup_fmap_inj fst _ _ _ (rp_ids _ _ H)).
    + eapply sublist_NoDup; [apply (rp_ids _ _ H)|]. apply fmap_sublist, sublist_filter.
  - intros y [->|[_ Hy]%list_elem_of_filter]%elem_of_cons; by apply (rp_fresh _ _ H).
Qed.

Lemma repr_push s l k v x : repr s l → sh_items s !! k = None →
  repr (mkShard (<[k := mkEntry v x (sh_next s)]> (sh_items s)) ((sh_next s, k) :: sh_order s)
          (sh_capacity s) (S (sh_next s)))
    ((k, v, x) :: l).
Proof.
  intros H Hk. pose proof (repr_absent s l k H Hk) as Hnin.
  constructor; cbn [sh_items sh_order sh_next].
  - by rewrite !fmap_cons, (rp_order _ _ H).
  - intros q w y. rewrite elem_of_cons, <- (rp_items _ _ H). setoid_rewrite lookup_insert_Some.
    naive_solver.
  - intros q e' [[<- <-]|[Hne He]]%lookup_insert_Some; [left|right]. by apply (rp_elem _ _ H).
  - rewrite fmap_cons, (rp_order _ _ H). apply NoDup_cons. split; [done|by eapply repr_nodup].
  - rewrite fmap_cons. apply NoDup_cons. split; [|apply (rp_ids _ _ H)].
    intros ([j q] & Hj & Hq%(rp_fresh _ _ H))%list_elem_of_fmap. simpl in *. lia.
  - intros y [->|Hy%(rp_fresh _ _ H)]%elem_of_cons; simpl; lia.
Qed.

Lemma lru_remove_absent l k : k ∉ item_key <$> l → lru_remove k l = l.
Proof.
  intros H. apply filter_all_in. intros x Hx <-. apply H. apply list_elem_of_fmap. eauto.
Qed.

Lemma length_lru_remove l k : (length (lru_remove k l) ≤ length l)%nat.
Proof. apply length_filter. Qed.

(** Evicting the element at the back cuts the abstract list. *)
Lemma repr_evict s m y : repr s (m ++ [y]) →
  ∃ oldest, last (sh_order s) = Some oldest ∧
    repr (mkShard (delete oldest.2 (sh_items s)) (list_Remove oldest.1 (sh_order s))
            (sh_capacity s) (sh_next s)) m.
Proof.
  intros H. assert (last (sh_order s).*2 = Some (item_key y)) as Hlast.
  { rewrite (rp_order _ _ H), fmap_app. simpl. by rewrite last_snoc. }
  rewrite fmap_last in Hlast. apply fmap_Some in Hlast as ([i q] & Hl & Hq). simpl in Hq. subst q.
  exists (i, item_key y). split; [done|]. simpl. destruct y as [[k v] x]. unfold item_key in *. simpl in *.
  assert ((i, k) ∈ sh_order s) as Hin.
  { apply last_Some in Hl as [o' ->]. apply elem_of_app. right. by left. }
  assert ((k, v, x) ∈ m ++ [(k, v, x)]) as [j Hj]%(rp_items _ _ H) by (apply elem_of_app; right; by left).
  assert (j = i) as ->.
  { pose proof (rp_elem _ _ H _ _ Hj) as Hj'. simpl in Hj'.
    by assert ((j, k) = (i, k)) as [= ->] by by apply (NoDup_fmap_inj snd _ _ _ (rp_keys _ _ H)). }
  pose proof (repr_remove s _ k _ H Hj) as Hr. simpl in Hr.
  assert (lru_remove k (m ++ [(k, v, x)]) = m) as Heq; [|exact (eq_ind _ (repr _) Hr _ Heq)].
  pose proof (repr_nodup _ _ H) as Hnd. rewrite fmap_app in Hnd. apply NoDup_app in Hnd as (_ & Hd & _).
  unfold lru_remove. rewrite filter_app.
  rewrite filter_singleton_False by (done || (unfold item_key; simpl; naive_solver)).
  rewrite app_nil_r. apply filter_all_in. intros z Hz Hzk. apply (Hd k); [|by left].
  rewrite <- Hzk. by apply list_elem_of_fmap_2.
Qed.

(** ** Each operation of a shard simulates the abstract one *)

Lemma Get_sim s l now key : repr s l → cap_ok (sh_capacity s) l →
  let '(s', r) := shard_Get now key s in let '(l', r') := lru_Get now key l in
  r = r' ∧ repr s' l' ∧ cap_ok (sh_capacity s') l' ∧ sh_capacity s' = sh_capacity s.
Proof.
  intros H Hc. unfold shard_Get, lru_Get. rewrite (repr_find s l key H).
  destruct (sh_items s !! key) as [e|] eqn:Hk; simpl; [|done].
  pose proof (length_lru_remove l key) as Hlen. case_test; simpl; split_and!; try done.
  - by apply repr_remove.
  - intros Hp. specialize (Hc Hp). lia.
  - pose proof (repr_touch s l key e (e_value e) (e_expiresAt e) H Hk) as Ht.
    rewrite insert_id in Ht; [done|]. by destruct e.
  - intros Hp. specialize (Hc Hp). simpl.
    assert (length (lru_remove key l) < length l)%nat; [|lia].
    apply (length_filter_lt _ l (key, e_value e, e_expiresAt e)); [by apply (repr_lookup s)|].
    unfold item_key. simpl. naive_solver.
Qed.

Lemma Set_sim s l ttl now key v : repr s l → cap_ok (sh_capacity s) l →
  let s' := shard_Set ttl now key v s in let l' := lru_Set (sh_capacity s) ttl now key v l in
  repr s' l' ∧ cap_ok (sh_capacity s') l' ∧ sh_capacity s' = sh_capacity s.
Proof.
  intros H Hc. unfold shard_Set, lru_Set. destruct (sh_items s !! key) as [e|] eqn:Hk.
  - assert (length (lru_remove key l) < length l)%nat as Hlen.
    { apply (length_filter_lt _ l (key, e_value e, e_expiresAt e)); [by apply (repr_lookup s)|].
      unfold item_key. simpl. naive_solver. }
    pose proof (repr_touch s l key e v (now + ttl) H Hk) as Ht. unfold shard_update.
    case_test; zbool; [|simpl; split_and!; [done|lru_lia|done]].
    specialize (Hc ltac:(lia)). rewrite take_ge by lru_lia.
    split_and!; [done|lru_lia|done].
  - pose proof (repr_absent s l key H Hk) as Hnin. rewrite lru_remove_absent by done.
    pose proof (repr_push s l key v (now + ttl) H Hk) as Hp.
    unfold shard_insert. pose proof (repr_size _ _ Hp) as Hsz. cbn [sh_items] in Hsz.
    rewrite Hsz. simpl length.
    destruct (0 <? sh_capacity s) eqn:E0; simpl; zbool; [|split_and!; [done|lru_lia|done]].
    specialize (Hc ltac:(lia)). case_test; zbool.
    + destruct (exists_last (l := (key, v, now + ttl) :: l)) as (m & y & Hm); [done|].
      assert (take (Z.to_nat (sh_capacity s)) ((key, v, now + ttl) :: l) = m) as ->.
      { rewrite Hm. apply take_app_length'. apply (f_equal length) in Hm.
        rewrite length_app in Hm. lru_lia. }
      rewrite Hm in Hp. destruct (repr_evict _ m y Hp) as (oldest & Hl & He).
      cbn [sh_order] in Hl. unfold list_Back. rewrite Hl. cbn [sh_capacity].
      split_and!; [exact He| |done]. intros _. apply (f_equal length) in Hm.
      rewrite length_app in Hm. lru_lia.
    + rewrite take_ge by lru_lia. split_and!; [done|lru_lia|done].
Qed.

Lemma load_sim s l ttl now key (load : result E V) : repr s l → cap_ok (sh_capacity s) l →
  let '(s', r, b) := shard_load ttl now key load s in
  let '(l', r', b') := lru_load (sh_capacity s) ttl now key load l in
  r = r' ∧ b = b' ∧ repr s' l' ∧ cap_ok (sh_capacity s') l' ∧ sh_capacity s' = sh_capacity s.
Proof.
  intros H Hc. unfold shard_load, lru_load. rewrite (repr_find s l key H).
  destruct load as [v|err]; pose proof (λ v, Set_sim s l ttl now key v H Hc) as Hs;
    destruct (sh_items s !! key) as [e|] eqn:Hk; simpl; try (destruct (now <? e_expiresAt e));
    try (split_and!; first [done|apply Hs]).
  all: pose proof (repr_touch s l key e (e_value e) (e_expiresAt e) H Hk) as Ht.
  all: rewrite insert_id in Ht by (by destruct e).
  all: split_and!; try done.
  all: assert (length (lru_remove key l) < length l)%nat as Hlen
    by (apply (length_filter_lt _ l (key, e_value e, e_expiresAt e)); [by apply (repr_lookup s)|];
        unfold item_key; simpl; naive_solver); lru_lia.
Qed.
End refinement.

(** ** Sequences of operations on the whole cache *)

Section ops.
Context {V E : Type}.

(** The critical sections of the cache: [Get], [Set], and the second one of
[GetOrLoad] with the result its [load] would have. *)
Inductive cop : Type :=
| CGet (now : Z) (key : string)
| CSet (now : Z) (key : string) (v : V)
| CLoad (now : Z) (key : string) (load : result E V).

Inductive cres : Type :=
| RGet (o : option V)
| RSet
| RLoad (r : result E V) (called : bool).

Definition cop_key (o : cop) : string :=
  match o with CGet _ k | CSet _ k _ | CLoad _ k _ => k end.

Definition shard_op (ttl : Z) (o : cop) (s : shard V) : shard V * cres :=
  match o with
  | CGet now k => let '(s', r) := shard_Get now k s in (s', RGet r)
  | CSet now k v => (shard_Set ttl now k v s, RSet)
  | CLoad now k load => let '(s', r, b) := shard_load ttl now k load s in (s', RLoad r b)
  end.

Definition Cache_op (o : cop) (c : Cache V) : Cache V * option cres :=
  on_shard c (cop_key o) (shard_op (c_ttl c) o).

Fixpoint Cache_run (ops : list cop) (c : Cache V) : Cache V * list (option cres) :=
  match ops with
  | [] => (c, [])
  | o :: ops' => let '(c', r) := Cache_op o c in let '(c'', rs) := Cache_run ops' c' in (c'', r :: rs)
  end.

(** The abstract cache: one LRU list per shard. *)
Definition route (key : string) : nat := Z.to_nat (fnv32a key mod Z.of_nat defaultShardCount).

Definition lru_op (cap ttl : Z) (o : cop) (l : lru V) : lru V * cres :=
  match o with
  | CGet now k => let '(l', r) := lru_Get now k l in (l', RGet r)
  | CSet now k v => (lru_Set cap ttl now k v l, RSet)
  | CLoad now k load => let '(l', r, b) := lru_load cap ttl now k load l in (l', RLoad r b)
  end.

Definition spec_op (cap ttl : Z) (o : cop) (a : nat → lru V) : (nat → lru V) * cres :=
  let i := route (cop_key o) in
  let '(l', r) := lru_op cap ttl o (a i) in (<[i := l']> a, r).

Fixpoint spec_run (cap ttl : Z) (ops : list cop) (a : nat → lru V) : (nat → lru V) * list cres :=
  match ops with
  | [] => (a, [])
  | o :: ops' =>
      let '(a', r) := spec_op cap ttl o a in
      let '(a'', rs) := spec_run cap ttl ops' a' in (a'', r :: rs)
  end.

Definition csim (cap ttl : Z) (c : Cache V) (a : nat → lru V) : Prop :=
  length (c_shards c) = defaultShardCount ∧ c_ttl c = ttl ∧
  ∀ i s, c_shards c !! i = Some s → repr s (a i) ∧ cap_ok cap (a i) ∧ sh_capacity s = cap.

Lemma route_lt k : (route k < defaultShardCount)%nat.
Proof.
  unfold route, defaultShardCount.
  pose proof (Z.mod_pos_bound (fnv32a k) (Z.of_nat 256)). lia.
Qed.

Lemma csim_op cap ttl c a o : csim cap ttl c a →
  let '(c', r) := Cache_op o c in let '(a', r') := spec_op cap ttl o a in
  r = Some r' ∧ csim cap ttl c' a'.
Proof.
  intros (Hlen & Httl & Hsh). unfold Cache_op, on_shard, spec_op.
  assert (shardFor c (cop_key o) = route (cop_key o)) as -> by (unfold shardFor; by rewrite Hlen).
  set (i := route (cop_key o)).
  destruct (lookup_lt_is_Some_2 (c_shards c) i) as [s Hs]; [rewrite Hlen; apply route_lt|].
  rewrite Hs, Httl. destruct (Hsh i s Hs) as (Hr & Hc & Hcap).
  assert (let '(s', r) := shard_op ttl o s in let '(l', r') := lru_op cap ttl o (a i) in
    r = r' ∧ repr s' l' ∧ cap_ok cap l' ∧ sh_capacity s' = cap) as Hop.
  { subst cap. destruct o as [now k|now k v|now k load]; simpl.
    - pose proof (Get_sim s (a i) now k Hr Hc) as Hg.
      destruct (shard_Get now k s), (lru_Get now k (a i)).
      destruct Hg as (-> & ? & Hc' & Heq). by rewrite Heq in *.
    - destruct (Set_sim s (a i) ttl now k v Hr Hc) as (? & Hc' & Heq). by rewrite Heq in *.
    - pose proof (load_sim s (a i) ttl now k load Hr Hc) as Hl.
      destruct (shard_load ttl now k load s) as [[? ?] ?], (lru_load _ ttl now k load (a i)) as [[? ?] ?].
      destruct Hl as (-> & -> & ? & Hc' & Heq). by rewrite Heq in *. }
  destruct (shard_op ttl o s) as [s' r], (lru_op cap ttl o (a i)) as [l' r'].
  destruct Hop as (-> & Hr' & Hc' & Hcap'). split; [done|]. split_and!; simpl.
  - by rewrite length_insert.
  - done.
  - intros j s1 Hj. apply list_lookup_insert_Some in Hj as [(-> & -> & _)|[Hne Hj]].
    + by rewrite fn_lookup_insert.
    + rewrite fn_lookup_insert_ne by done. by apply Hsh.
Qed.

Lemma csim_run cap ttl ops c a : csim cap ttl c a →
  let '(c', rs) := Cache_run ops c in let '(a', rs') := spec_run cap ttl ops a in
  rs = Some <$> rs' ∧ csim cap ttl c' a'.
Proof.
  revert c a. induction ops as [|o ops IH]; intros c a H; simpl; [by split|].
  pose proof (csim_op cap ttl c a o H) as Ho.
  destruct (Cache_op o c) as [c1 r], (spec_op cap ttl o a) as [a1 r'], Ho as [-> H1].
  specialize (IH c1 a1 H1). destruct (Cache_run ops c1), (spec_run cap ttl ops a1).
  by destruct IH as [-> ?].
Qed.

Lemma csim_new cap ttl : csim cap ttl (newCache cap ttl) (fun _ => []).
Proof.
  split; [done|]. split; [done|]. intros i s Hi. apply lookup_replicate in Hi as [-> _].
  split_and!; [|unfold cap_ok; simpl; lia|done]. constructor; simpl; try done.
  - intros k v x. split; [by intros [? ?]|by intros ?%elem_of_nil].
  - constructor.
  - constructor.
  - by intros x ?%elem_of_nil.
Qed.

(** ** Retention *)

(** [k] is stored with [v] until [x], and only keys of [X] are more recent. *)
Definition retained (k : string) (v : V) (x : Z) (X : gset string) (l : lru V) : Prop :=
  NoDup (item_key <$> l) ∧
  ∃ pre post, l = pre ++ (k, v, x) :: post ∧ ∀ y, y ∈ pre → item_key y ∈ X.

Lemma retained_find k v x X l : retained k v x X l → lru_find k l = Some (k, v, x).
Proof.
  intros (Hnd & pre & post & -> & _). unfold lru_find. rewrite fmap_app in Hnd.
  apply NoDup_app in Hnd as (_ & Hd & _).
  rewrite list_find_app_r; [|apply list_find_None, Forall_forall; intros y Hy Hk;
    apply (Hd k); [rewrite <- Hk; by apply list_elem_of_fmap_2|by left]].
  simpl. unfold item_key. simpl. by rewrite decide_True.
Qed.

(** Removing or moving to the front another key keeps it. *)
Lemma retained_remove k v x X q l : q ≠ k → retained k v x X l → retained k v x X (lru_remove q l).
Proof.
  intros Hne (Hnd & pre & post & -> & Hpre). split.
  - rewrite remove_keys_lru. by apply NoDup_filter.
  - exists (lru_remove q pre), (lru_remove q post). split.
    + unfold lru_remove. rewrite filter_app, filter_cons_True; [done|]. by apply not_eq_sym.
    + intros y [_ Hy]%elem_of_lru_remove. auto.
Qed.

Lemma retained_push k v x X q w y l : q ≠ k → retained k v x X l →
  retained k v x ({[q]} ∪ X) ((q, w, y) :: lru_remove q l).
Proof.
  intros Hne H. destruct (retained_remove k v x X q l Hne H) as (Hnd & pre & post & Heq & Hpre).
  split.
  - rewrite fmap_cons. apply NoDup_cons. split; [|done]. rewrite remove_keys_lru.
    by intros [? _]%list_elem_of_filter.
  - exists ((q, w, y) :: pre), post. rewrite Heq. split; [done|].
    intros z [->|Hz]%elem_of_cons; [unfold item_key; simpl|]; set_solver.
Qed.

Lemma retained_take k v x X n l : (size X < n)%nat → retained k v x X l → retained k v x X (take n l).
Proof.
  intros Hn (Hnd & pre & post & -> & Hpre).
  assert (length pre < n)%nat as Hlen.
  { rewrite fmap_app in Hnd. apply NoDup_app in Hnd as (Hndp & _ & _).
    eapply Nat.le_lt_trans; [|exact Hn]. rewrite <- (length_fmap item_key pre).
    rewrite <- (size_list_to_set (C := gset string)) by done. apply subseteq_size.
    intros z ([[z' ?] ?] & -> & Hz)%elem_of_list_to_set%list_elem_of_fmap. by apply Hpre. }
  split.
  - rewrite fmap_take. eapply sublist_NoDup; [exact Hnd|]. apply sublist_take.
  - exists pre, (take (n - S (length pre)) post). split; [|done].
    rewrite take_app_ge by lia. f_equal. replace (n - length pre)%nat with (S (n - S (length pre))) by lia.
    done.
Qed.

Lemma retained_mono k v x X Y l : X ⊆ Y → retained k v x X l → retained k v x Y l.
Proof. intros HXY (Hnd & pre & post & -> & Hpre). split; [done|]. exists pre, post. set_solver. Qed.

Lemma retained_Set k v x X cap ttl now q w l : q ≠ k → (0 < cap → Z.of_nat (size ({[q]} ∪ X)) < cap) →
  retained k v x X l → retained k v x ({[q]} ∪ X) (lru_Set cap ttl now q w l).
Proof.
  intros Hne Hcap H. pose proof (retained_push k v x X q w (now + ttl) l Hne H) as Hp.
  unfold lru_Set. case_test; zbool; [|done]. apply retained_take; [|done]. specialize (Hcap ltac:(lia)). lia.
Qed.

Lemma retained_op k v x X cap ttl o l : cop_key o ≠ k →
  (0 < cap → Z.of_nat (size ({[cop_key o]} ∪ X)) < cap) →
  retained k v x X l → retained k v x ({[cop_key o]} ∪ X) (lru_op cap ttl o l).1.
Proof.
  intros Hne Hcap H. pose proof (retained_mono k v x X ({[cop_key o]} ∪ X) l ltac:(set_solver) H) as Hm.
  destruct o as [now q|now q w|now q load]; simpl in *.
  - unfold lru_Get. destruct (lru_find q l) as [[[k' w] y]|] eqn:Hf; [|done].
    assert (k' = q) as ->.
    { unfold lru_find in Hf. apply fmap_Some in Hf as ([n z] & Hz & Heq). simpl in Heq. subst z.
      by apply list_find_Some in Hz as (_ & Hz & _). }
    case_test; simpl; [by apply retained_remove|by apply retained_push].
  - by apply retained_Set.
  - assert (retained k v x ({[q]} ∪ X) (match load with
      | Err err => (l, Err err, true) | Ok w => (lru_Set cap ttl now q w l, Ok w, true) end
      : lru V * result E V * bool).1.1) as Hmiss.
    { destruct load; simpl; [by apply retained_Set|done]. }
    unfold lru_load. destruct (lru_find q l) as [[[k' w] y]|] eqn:Hf; [|by destruct load].
    assert (k' = q) as ->.
    { unfold lru_find in Hf. apply fmap_Some in Hf as ([n z] & Hz & Heq). simpl in Heq. subst z.
      by apply list_find_Some in Hz as (_ & Hz & _). }
    case_test; simpl; [by apply retained_push|by destruct load].
Qed.

(** The keys of the operations that go to the shard [i]. *)
Definition shard_keys (i : nat) (ops : list cop) : gset string :=
  list_to_set (filter (fun q => route q = i) (cop_key <$> ops)).

Lemma retained_run k v x cap ttl ops X a :
  Forall (fun o => cop_key o ≠ k) ops →
  (0 < cap → Z.of_nat (size (shard_keys (route k) ops ∪ X)) < cap) →
  retained k v x X (a (route k)) →
  retained k v x (shard_keys (route k) ops ∪ X) ((spec_run cap ttl ops a).1 (route k)).
Proof.
  intros Hne. revert X a. induction Hne as [|o ops Ho Hops IH]; intros X a Hcap H; simpl.
  { eapply retained_mono; [|exact H]. set_solver. }
  unfold spec_op. pose proof (retained_op k v x X cap ttl o (a (route (cop_key o))) Ho) as Hop.
  destruct (lru_op cap ttl o (a (route (cop_key o)))) as [l' r].
  destruct (decide (route (cop_key o) = route k)) as [He|He].
  - assert (shard_keys (route k) (o :: ops) ∪ X = shard_keys (route k) ops ∪ ({[cop_key o]} ∪ X)) as Heq.
    { unfold shard_keys. rewrite fmap_cons, filter_cons_True by done. set_solver. }
    rewrite Heq in *. specialize (IH ({[cop_key o]} ∪ X) (<[route (cop_key o) := l']> a) Hcap).
    destruct (spec_run cap ttl ops _) as [a' rs]. apply IH. rewrite He, fn_lookup_insert.
    apply Hop; [|by rewrite He]. intros Hp. specialize (Hcap Hp).
    pose proof (subseteq_size ({[cop_key o]} ∪ X) (shard_keys (route k) ops ∪ ({[cop_key o]} ∪ X))
      ltac:(set_solver)). lia.
  - assert (shard_keys (route k) (o :: ops) = shard_keys (route k) ops) as Heq.
    { unfold shard_keys. by rewrite fmap_cons, filter_cons_False. }
    rewrite Heq in *. specialize (IH X (<[route (cop_key o) := l']> a) Hcap).
    destruct (spec_run cap ttl ops _) as [a' rs]. apply IH. by rewrite fn_lookup_insert_ne.
Qed.

(** Keys are unique in a list that a shard represents. *)
Lemma retained_new cap ttl t k v c a : csim cap ttl c a →
  retained k v (t + ttl) ∅ (lru_Set cap ttl t k v (a (route k))).
Proof.
  intros (Hlen & _ & Hsh).
  destruct (lookup_lt_is_Some_2 (c_shards c) (route k)) as [s Hs]; [rewrite Hlen; apply route_lt|].
  destruct (Hsh _ s Hs) as (Hr & _ & _).
  assert (retained k v (t + ttl) ∅ ((k, v, t + ttl) :: lru_remove k (a (route k)))) as H.
  { split.
    - rewrite fmap_cons, remove_keys_lru. apply NoDup_cons.
      split; [by intros [? _]%list_elem_of_filter|]. apply NoDup_filter. by eapply repr_nodup.
    - exists [], (lru_remove k (a (route k))). split; [done|]. by intros y ?%elem_of_nil. }
  unfold lru_Set. case_test; zbool; [|done]. apply retained_take; [rewrite size_empty; lia|done].
Qed.
End ops.
Arguments cop : clear implicits.
Arguments cres : clear implicits.

(** ** Main results *)

Section theorems.
Context {V E : Type}.

(** C31: The sharded cache (maps, linked lists and eviction) implements 256
independent LRU lists with expiry: every sequence of operations on a new
cache gives the results of the abstract caches, and every shard holds at most
its capacity. *)
Theorem Cache_refines_LRU (cap ttl : Z) (ops : list (cop V E)) :
  let '(c, rs) := Cache_run ops (newCache cap ttl) in
  rs = Some <$> (spec_run cap ttl ops (fun _ => [])).2 ∧
  ∀ i s, c_shards c !! i = Some s → 0 < cap → Z.of_nat (size (sh_items s)) ≤ cap.
Proof.
  pose proof (csim_run cap ttl ops _ _ (csim_new cap ttl)) as H.
  destruct (Cache_run _ _) as [c rs], (spec_run _ _ _ _) as [a rs']. destruct H as [-> (_ & _ & Hsh)].
  split; [done|]. intros i s Hs Hp. destruct (Hsh i s Hs) as (Hr & Hc & _).
  rewrite (repr_size s _ Hr). by apply Hc.
Qed.

(** Retention: after [Set k v], whatever happened before, a [Get] of [k]
returns [v] until it expires, and a concurrent [GetOrLoad] returns it without
calling [load], as long as the other operations since then touched fewer than
[capacity] distinct keys of its shard. *)
Theorem Cache_retains (cap ttl : Z) (hist ops : list (cop V E)) (t now : Z) (k : string) (v : V)
    (load : result E V) :
  Forall (fun o => cop_key o ≠ k) ops →
  (0 < cap → Z.of_nat (size (shard_keys (route k) ops)) < cap) → now < t + ttl →
  let c := (Cache_run ops (Cache_run [CSet t k v : cop V E] (Cache_run hist (newCache cap ttl)).1).1).1 in
  (Cache_op (E := E) (CGet now k) c).2 = Some (RGet (E := E) (Some v)) ∧
  (Cache_op (CLoad now k load) c).2 = Some (RLoad (Ok v) false).
Proof.
  intros Hne Hcap Hnow.
  pose proof (csim_run cap ttl hist _ _ (csim_new cap ttl)) as H0.
  destruct (Cache_run hist _) as [c0 rs0], (spec_run _ _ hist _) as [a0 rs0'], H0 as [_ H0].
  pose proof (retained_new cap ttl t k v c0 a0 H0) as Hret.
  pose proof (csim_run cap ttl [CSet t k v : cop V E] _ _ H0) as H1. cbn [fst] in *.
  destruct (Cache_run [_ : cop V E] c0) as [c1 rs1], (spec_run _ _ [_ : cop V E] _) as [a1 rs1'] eqn:E1, H1 as [_ H1].
  simpl in E1. unfold spec_op in E1. simpl in E1. injection E1 as <- _. cbn [fst].
  pose proof (retained_run k v (t + ttl) cap ttl ops ∅
    (<[route k := lru_Set cap ttl t k v (a0 (route k))]> a0) Hne) as Hrun.
  rewrite fn_lookup_insert, union_empty_r_L in Hrun. specialize (Hrun Hcap Hret).
  pose proof (csim_run cap ttl ops _ _ H1) as H2.
  destruct (Cache_run ops c1) as [c2 rs2], (spec_run _ _ ops _) as [a2 rs2'], H2 as [_ H2]. cbn [fst] in *.
  apply retained_find in Hrun.
  pose proof (csim_op cap ttl c2 a2 (CGet now k : cop V E) H2) as Hg.
  pose proof (csim_op cap ttl c2 a2 (CLoad now k load) H2) as Hl.
  unfold spec_op in Hg, Hl. simpl in Hg, Hl. unfold lru_Get in Hg. unfold lru_load in Hl.
  rewrite Hrun in Hg, Hl. rewrite (proj2 (Z.ltb_ge _ _)) in Hg by lia.
  rewrite (proj2 (Z.ltb_lt _ _)) in Hl by lia.
  destruct (Cache_op (CGet now k : cop V E) c2), (Cache_op (CLoad now k load) c2). naive_solver.
Qed.
End theorems.

Lemma Cache_retains_witness :
  let c := (Cache_run (E := unit) [CSet 2 "b" 7; CGet 3 "c"]
    (Cache_run (E := unit) [CSet 1 "a" 5] (Cache_run (E := unit) [CSet 0 "z" 1] (newCache 3 10)).1).1).1 in
  (Cache_op (CGet 9 "a") c).2 = Some (RGet (E := unit) (Some 5)) ∧
  (Cache_op (CLoad 9 "a" (Err ())) c).2 = Some (RLoad (Ok 5) false).
Proof.
  apply (Cache_retains 3 10 [CSet 0 "z" 1] [CSet 2 "b" 7; CGet 3 "c"] 1 9 "a" 5 (Err ())).
  - repeat constructor; done.
  - intros _. by vm_compute.
  - done.
Defined.
