(* ===== verification/LoadBalancer.v ===== *)
(** * fintech-gateway-go/internal/loadbalancer: pools, strategies, hash ring

A pool owns its backends (the pointers of the source are indices into the
pool's slice).  Each strategy is the loop of the source; an out-of-range slice
index is the panic it is in Go.  [rand.Intn] is the argument [rnd]; the ring
is any result [sort.Slice] may give: a sorted permutation of the virtual
nodes. *)

From Stdlib Require Import ZArith Lia.
From stdpp Require Import base gmap strings pretty sorting functions list.
From S2P Require Import Prelude.

Open Scope Z_scope.

(* [base] fintech-gateway-go/internal/loadbalancer *)

(** ** Backends *)

(* [go] backend.go:12-19 Backend *)
Record Backend : Type := mkBackend {
  ID : string; Address : string; Weight : Z; healthy : bool; activeConns : Z }.

(* [go] backend.go:21-28 NewBackend *)
Definition NewBackend (id address : string) (weight : Z) : Backend :=
  mkBackend id address (if weight <? 1 then 1 else weight) true 0.

(* [go] backend.go:30-30 Backend.SetHealthy *)
Definition SetHealthy (b : Backend) (v : bool) : Backend :=
  mkBackend (ID b) (Address b) (Weight b) v (activeConns b).

(* [go] backend.go:31-31 Backend.Healthy *)
Definition Healthy (b : Backend) : bool := healthy b.

(* [go] backend.go:32-32 Backend.ActiveConnections *)
Definition ActiveConnections (b : Backend) : Z := activeConns b.

Definition add_conns (d : Z) (b : Backend) : Backend :=
  mkBackend (ID b) (Address b) (Weight b) (healthy b) (i64 (activeConns b + d)).

(** ** Hash ring *)

(* [go] ring.go:9-9 virtualNodesPerBackend *)
Definition virtualNodesPerBackend : nat := 100.

(* [go] ring.go:11-14 ringNode *)
Record ringNode : Type := mkNode { rn_hash : Z; rn_backend : nat }.

(* [go] ring.go:37-41 hashKey *)
Definition hashKey (key : string) : Z := fnv32a key.

(** The virtual nodes before sorting. *)
(* [go] ring.go:27-32 newHashRing *)
Definition ring_nodes (backends : list Backend) : list ringNode :=
  mjoin (imap (fun j b =>
    (fun i => mkNode (hashKey (ID b +:+ "#" +:+ pretty i)) j) <$> seq 0 virtualNodesPerBackend) backends).

Definition node_le (a b : ringNode) : Prop := rn_hash a ≤ rn_hash b.

#[global] Instance node_le_dec a b : Decision (node_le a b).
Proof. unfold node_le. apply _. Defined.

(** What [sort.Slice], which is not stable, guarantees of its result. *)
Definition sorted_ring (backends : list Backend) (ring : list ringNode) : Prop :=
  StronglySorted node_le ring ∧ ring ≡ₚ ring_nodes backends.

(* [go] ring.go:26-35 newHashRing *)
Definition newHashRing (backends : list Backend) : list ringNode :=
  merge_sort node_le (ring_nodes backends).

(** [sort.Search]: the binary search of the Go library; [fuel] is the number of
halvings, at most the length. *)
Fixpoint search_loop (fuel : nat) (f : nat → bool) (i j : nat) : nat :=
  match fuel with
  | O => i
  | S n => if (i <? j)%nat
           then let h := ((i + j) / 2)%nat in
                if f h then search_loop n f i h else search_loop n f (S h) j
           else i
  end.

Definition sort_Search (n : nat) (f : nat → bool) : nat := search_loop n f 0 n.

(** The first of the [len] elements from [start] on, cyclically, whose backend
is healthy: the loop shared by [pickRoundRobin] and [hashRing.get].  [at]
reads a slice element, [None] being the panic. *)
Fixpoint scan (rd : Z → option nat) (ok : nat → bool) (n start : Z) (i : Z) (k : nat)
  : option (option nat) :=
  match k with
  | O => Some None
  | S k' => match rd (Z.rem (start + i) n) with
            | None => None
            | Some b => if ok b then Some (Some b) else scan rd ok n start (i + 1) k'
            end
  end.

(** [xs[i]] of a slice: a panic out of range. *)
Definition slice_get {A} (xs : list A) (i : Z) : option A :=
  if (0 <=? i) && (i <? Z.of_nat (length xs)) then xs !! Z.to_nat i else None.

Definition is_healthy (backends : list Backend) (j : nat) : bool :=
  match backends !! j with Some b => Healthy b | None => false end.

(* [go] ring.go:46-59 hashRing.get *)
Definition ring_get (backends : list Backend) (ring : list ringNode) (key : string)
  : option (option nat) :=
  if (length ring =? 0)%nat then Some None
  else
    let h := hashKey key in
    let start := sort_Search (length ring)
      (fun i => match ring !! i with Some n => h <=? rn_hash n | None => true end) in
    scan (fun i => rn_backend <$> slice_get ring i) (is_healthy backends)
      (Z.of_nat (length ring)) (Z.of_nat start) 0 (length ring).

(** ** Pools *)

(* [go] pool.go:12-19 Strategy *)
Inductive Strategy : Type := RoundRobin | LeastConnections | WeightedRandom | ConsistentHash.

#[global] Instance Strategy_eq_dec : EqDecision Strategy.
Proof. solve_decision. Defined.

(* [go] pool.go:26-31 Pool *)
Record Pool : Type := mkPool {
  strategy : Strategy; backends : list Backend; rrCounter : Z; ring : list ringNode }.

(** Errors of [NewPool] and [Pick], and the panic of a slice access. *)
(* [go] pool.go:10-10 ErrNoHealthyBackends *)
Inductive lb_error : Type := ErrEmptyPool | ErrNoHealthyBackends | IndexPanic.

(** [r] is the ring [sort.Slice] produced. *)
(* [go] pool.go:33-42 NewPool *)
Definition NewPool (st : Strategy) (bs : list Backend) (r : list ringNode) : result lb_error Pool :=
  if (length bs =? 0)%nat then Err ErrEmptyPool
  else Ok (mkPool st bs 0 (if decide (st = ConsistentHash) then r else [])).

(* [go] pool.go:81-91 Pool.pickRoundRobin *)
Definition pickRoundRobin (p : Pool) : Pool * option (option nat) :=
  let n := Z.of_nat (length (backends p)) in
  let c := u64 (rrCounter p + 1) in
  let start := Z.rem (i64 c) n in
  (mkPool (strategy p) (backends p) c (ring p),
   scan (fun i => match slice_get (backends p) i with Some _ => Some (Z.to_nat i) | None => None end)
     (is_healthy (backends p)) n start 0 (length (backends p))).

(** The loop of [pickLeastConnections], from index [j] on. *)
(* [go] pool.go:96-104 Pool.pickLeastConnections *)
Fixpoint least_loop (bs : list Backend) (j : nat) (best : option nat) (bestConns : Z) : option nat :=
  match bs with
  | [] => best
  | b :: bs' =>
      if negb (Healthy b) then least_loop bs' (S j) best bestConns
      else let c := ActiveConnections b in
           if (match best with None => true | Some _ => false end) || (c <? bestConns)
           then least_loop bs' (S j) (Some j) c
           else least_loop bs' (S j) best bestConns
  end.

(* [go] pool.go:93-106 Pool.pickLeastConnections *)
Definition pickLeastConnections (p : Pool) : option nat := least_loop (backends p) 0 None (-1).

(** The healthy candidates, by index, and their total weight. *)
(* [go] pool.go:114-121 Pool.pickWeightedRandom *)
Definition candidates (bs : list Backend) : list (nat * Z) :=
  omap (fun x : nat * Backend => if Healthy x.2 then Some (x.1, Weight x.2) else None)
    (imap (fun j b => (j, b)) bs).

Definition total_weight (cs : list (nat * Z)) : Z := zsum snd cs.

(* [go] pool.go:126-131 Pool.pickWeightedRandom *)
Fixpoint weighted_loop (cs : list (nat * Z)) (r : Z) : option nat :=
  match cs with
  | [] => None
  | (j, w) :: cs' => if r <? w then Some j else weighted_loop cs' (r - w)
  end.

(** [rnd n] is [rand.Intn(n)].  The sum is taken without wrap-around. *)
(* [go] pool.go:113-133 Pool.pickWeightedRandom *)
Definition pickWeightedRandom (rnd : Z → Z) (p : Pool) : option nat :=
  let cs := candidates (backends p) in
  let total := total_weight cs in
  if total =? 0 then None
  else match weighted_loop cs (rnd total) with
       | Some j => Some j
       | None => fst <$> last cs
       end.

Definition with_backends (bs : list Backend) (p : Pool) : Pool :=
  mkPool (strategy p) bs (rrCounter p) (ring p).

(* [go] pool.go:48-67 Pool.Pick *)
Definition Pick (rnd : Z → Z) (key : string) (p : Pool) : Pool * result lb_error nat :=
  let '(p', b) :=
    match strategy p with
    | RoundRobin => pickRoundRobin p
    | LeastConnections => (p, Some (pickLeastConnections p))
    | WeightedRandom => (p, Some (pickWeightedRandom rnd p))
    | ConsistentHash => (p, ring_get (backends p) (ring p) key)
    end in
  match b with
  | None => (p', Err IndexPanic)
  | Some None => (p', Err ErrNoHealthyBackends)
  | Some (Some j) => (with_backends (alter (add_conns 1) j (backends p')) p', Ok j)
  end.

(* [go] pool.go:71-73 Pool.Release *)
Definition Release (j : nat) (p : Pool) : Pool :=
  with_backends (alter (add_conns (-1)) j (backends p)) p.

(** ** Health checks *)

(** One tick of the checker's loop. *)
(* [go] health.go:28-31 HealthChecker.run *)
Definition health_tick (probe : Backend → bool) (p : Pool) : Pool :=
  with_backends ((fun b => SetHealthy b (probe b)) <$> backends p) p.

(** ** sort.Search *)

Lemma search_loop_spec f fuel i j : (j - i ≤ fuel)%nat → (i ≤ j)%nat →
  (∀ a b, (a ≤ b)%nat → f a = true → f b = true) →
  let r := search_loop fuel f i j in
  (i ≤ r ≤ j)%nat ∧ (∀ a, (i ≤ a < r)%nat → f a = false) ∧ ((r < j)%nat → f r = true).
Proof.
  intros Hf Hij Hmono. revert i j Hf Hij. induction fuel as [|n IH]; intros i j Hf Hij; cbn [search_loop]; cbv zeta.
  - split_and!; intros; lia.
  - destruct (i <? j)%nat eqn:E; [|apply Nat.ltb_ge in E; split_and!; intros; lia].
    apply Nat.ltb_lt in E. pose proof (Nat.div_lt (i + j) 2) as _.
    assert (i ≤ (i + j) / 2 < j)%nat as Hh.
    { split; [apply Nat.div_le_lower_bound; lia|apply Nat.div_lt_upper_bound; lia]. }
    set (h := ((i + j) / 2)%nat) in *. destruct (f h) eqn:Efh.
    + destruct (IH i h ltac:(lia) ltac:(lia)) as (? & Hlt & Hge). split_and!; [lia|lia|done|].
      intros _. destruct (decide (search_loop n f i h = h)) as [->|]; [done|]. apply Hge. lia.
    + destruct (IH (S h) j ltac:(lia) ltac:(lia)) as (? & Hlt & Hge). split_and!; [lia|lia| |done].
      intros a Ha. destruct (decide (a ≤ h)%nat); [|apply Hlt; lia].
      destruct (f a) eqn:Ea; [|done]. by rewrite (Hmono a h) in Efh.
Qed.

(** ** The cyclic scan *)

Lemma scan_spec rd ok n start i k :
  0 < n → 0 ≤ start → 0 ≤ i → (∀ z, 0 ≤ z < n → is_Some (rd z)) →
  (∃ d b, 0 ≤ d < Z.of_nat k ∧ rd ((start + i + d) mod n) = Some b ∧ ok b = true ∧
     scan rd ok n start i k = Some (Some b) ∧
     ∀ e, 0 ≤ e < d → ∃ b', rd ((start + i + e) mod n) = Some b' ∧ ok b' = false) ∨
  (scan rd ok n start i k = Some None ∧
   ∀ e, 0 ≤ e < Z.of_nat k → ∃ b', rd ((start + i + e) mod n) = Some b' ∧ ok b' = false).
Proof.
  intros Hn Hs Hi Hrd. revert i Hi. induction k as [|k IH]; intros i Hi; simpl.
  { right. split; [done|]. intros; lia. }
  rewrite Z.rem_mod_nonneg by lia. destruct (Hrd ((start + i) mod n)) as [b Hb].
  { by apply Z.mod_pos_bound. }
  rewrite Hb. destruct (ok b) eqn:Eok.
  - left. exists 0, b. rewrite Z.add_0_r. split_and!; try done; [lia..|]. intros; lia.
  - assert (∀ e P, (∃ b', rd ((start + (i + 1) + (e - 1)) mod n) = Some b' ∧ P b') →
      ∃ b', rd ((start + i + e) mod n) = Some b' ∧ P b') as Hsh.
    { intros e P. by replace (start + (i + 1) + (e - 1)) with (start + i + e) by lia. }
    destruct (IH (i + 1) ltac:(lia)) as [(d & b2 & Hd & Hrd2 & Hok2 & Hsc & Hbefore)|[Hsc Hnone]].
    + left. exists (d + 1), b2. split_and!; [lia|lia| |done|done|].
      { by replace (start + i + (d + 1)) with (start + (i + 1) + d) by lia. }
      intros e He. destruct (decide (e = 0)) as [->|]; [rewrite Z.add_0_r; eauto|].
      apply Hsh, Hbefore. lia.
    + right. split; [done|]. intros e He. destruct (decide (e = 0)) as [->|]; [rewrite Z.add_0_r; eauto|].
      apply Hsh, Hnone. lia.
Qed.

(** The [n] offsets from [start] reach every index. *)
Lemma cyclic_surj n start z : 0 ≤ z < n → ∃ e, 0 ≤ e < n ∧ (start + e) mod n = z.
Proof.
  intros Hz. exists ((z - start) mod n). split; [apply Z.mod_pos_bound; lia|].
  rewrite Zplus_mod_idemp_r. replace (start + (z - start)) with z by lia. apply Z.mod_small. lia.
Qed.

Lemma slice_get_Some {A} (xs : list A) z : 0 ≤ z < Z.of_nat (length xs) → slice_get xs z = xs !! Z.to_nat z.
Proof. intros. unfold slice_get. by rewrite (proj2 (Z.leb_le _ _)), (proj2 (Z.ltb_lt _ _)) by lia. Qed.

Lemma slice_get_is_Some {A} (xs : list A) z : 0 ≤ z < Z.of_nat (length xs) → is_Some (slice_get xs z).
Proof. intros H. rewrite slice_get_Some by done. apply lookup_lt_is_Some_2. lia. Qed.

(** ** Each strategy picks a healthy backend, if there is one *)

(** What a pick promises: an index of a healthy backend, or none is healthy. *)
Definition pick_ok (bs : list Backend) (r : option nat) : Prop :=
  match r with
  | Some j => is_healthy bs j = true
  | None => ∀ j, is_healthy bs j = false
  end.

Lemma is_healthy_lt bs j : is_healthy bs j = true → (j < length bs)%nat.
Proof. unfold is_healthy. destruct (bs !! j) eqn:E; [|done]. intros _. by eapply lookup_lt_Some. Qed.

Lemma roundrobin_scan bs start : (0 < length bs)%nat → 0 ≤ start →
  let n := Z.of_nat (length bs) in
  ∃ r, scan (fun i => match slice_get bs i with Some _ => Some (Z.to_nat i) | None => None end)
     (is_healthy bs) n start 0 (length bs) = Some r ∧ pick_ok bs r ∧
   (is_healthy bs (Z.to_nat (start mod n)) = true → r = Some (Z.to_nat (start mod n))).
Proof.
  intros Hl Hs n. assert (0 < n) as Hn by lia.
  set (rd := fun i => match slice_get bs i with Some _ => Some (Z.to_nat i) | None => None end).
  assert (∀ z, 0 ≤ z < n → rd z = Some (Z.to_nat z)) as Hrd.
  { intros z Hz. unfold rd. destruct (slice_get_is_Some bs z Hz) as [b ->]. done. }
  assert (∀ e, rd ((start + 0 + e) mod n) = Some (Z.to_nat ((start + e) mod n))) as Hrd'.
  { intros e. rewrite Z.add_0_r. apply Hrd. by apply Z.mod_pos_bound. }
  destruct (scan_spec rd (is_healthy bs) n start 0 (length bs)) as
    [(d & b & Hd & Hb & Hok & -> & Hbefore)|[-> Hnone]]; try lia.
  { intros z Hz. rewrite Hrd by done. eauto. }
  - exists (Some b). split; [done|]. split; [done|]. intros Hh.
    destruct (decide (d = 0)) as [->|Hd0].
    + by rewrite Hrd', Z.add_0_r in Hb.
    + destruct (Hbefore 0 ltac:(lia)) as (b' & Hb' & Hf). rewrite Hrd', Z.add_0_r in Hb'.
      injection Hb' as <-. by rewrite Hh in Hf.
  - exists None. split; [done|]. assert (∀ j, is_healthy bs j = false) as Hall.
    { intros j. destruct (is_healthy bs j) eqn:Ej; [|done]. pose proof (is_healthy_lt bs j Ej) as Hj.
      destruct (cyclic_surj n start (Z.of_nat j)) as (e & He & Heq); [lia|].
      destruct (Hnone e He) as (b' & Hb' & Hf). rewrite Hrd', Heq, Nat2Z.id in Hb'. congruence. }
    split; [done|]. intros Hh. by rewrite Hall in Hh.
Qed.

(** Least connections: the best so far is the healthy minimum of the prefix. *)
Definition least_inv (pre : list Backend) (best : option nat) (c : Z) : Prop :=
  match best with
  | None => ∀ j, is_healthy pre j = false
  | Some m => ∃ b, pre !! m = Some b ∧ healthy b = true ∧ c = activeConns b ∧
      ∀ j b', pre !! j = Some b' → healthy b' = true → c ≤ activeConns b'
  end.

Lemma least_loop_spec pre bs best c : least_inv pre best c →
  ∃ c', least_inv (pre ++ bs) (least_loop bs (length pre) best c) c'.
Proof.
  revert pre best c. induction bs as [|b bs IH]; intros pre best c Hinv; simpl.
  { exists c. by rewrite app_nil_r. }
  assert (∀ best' c', least_inv (pre ++ [b]) best' c' →
    ∃ c'', least_inv (pre ++ b :: bs) (least_loop bs (S (length pre)) best' c') c'') as Hnext.
  { intros best' c' H. destruct (IH (pre ++ [b]) best' c' H) as [c'' H''].
    rewrite <- app_assoc, length_app, Nat.add_comm in H''. eauto. }
  assert (∀ j b', (pre ++ [b]) !! j = Some b' → pre !! j = Some b' ∨ j = length pre ∧ b' = b) as Hlk.
  { intros j b' [?|[? Hj]]%lookup_app_Some; [by left|right].
    apply list_lookup_singleton_Some in Hj as [? ->]. split; [lia|done]. }
  assert (∀ j b', pre !! j = Some b' → (pre ++ [b]) !! j = Some b') as Hold.
  { intros. by apply lookup_app_l_Some. }
  unfold Healthy, ActiveConnections. destruct (healthy b) eqn:Hb; simpl.
  - assert (least_inv (pre ++ [b]) (Some (length pre)) (activeConns b) ∨
      ∃ m, best = Some m ∧ c ≤ activeConns b) as Hcase.
    { destruct best as [m|]; simpl in Hinv.
      - destruct (decide (c ≤ activeConns b)); [eauto|left]. destruct Hinv as (b0 & Hb0 & ? & -> & Hmin).
        exists b. rewrite list_lookup_middle by done. split_and!; try done.
        intros j b' [Hj|[-> ->]]%Hlk Hh; [|lia]. specialize (Hmin j b' Hj Hh). lia.
      - left. exists b. rewrite list_lookup_middle by done. split_and!; try done.
        intros j b' [Hj|[-> ->]]%Hlk Hh; [|lia]. specialize (Hinv j). unfold is_healthy in Hinv.
        rewrite Hj in Hinv. unfold Healthy in Hinv. congruence. }
    destruct best as [m|]; simpl; [|apply Hnext; by destruct Hcase as [|(m & ? & _)]].
    destruct (activeConns b <? c) eqn:E; zbool; apply Hnext.
    + destruct Hcase as [|(m' & _ & Hle)]; [done|lia].
    + simpl in Hinv |- *. destruct Hinv as (b0 & Hb0 & ? & -> & Hmin). exists b0. split_and!; eauto.
      intros j b' [Hj|[-> ->]]%Hlk Hh; [eauto|lia].
  - apply Hnext. destruct best as [m|]; simpl in *.
    + destruct Hinv as (b0 & Hb0 & ? & -> & Hmin). exists b0. split_and!; eauto.
      intros j b' [Hj|[-> ->]]%Hlk Hh; [eauto|congruence].
    + intros j. unfold is_healthy. destruct ((pre ++ [b]) !! j) as [b'|] eqn:Hj; [|done].
      destruct (Hlk j b' Hj) as [Hj'|[-> ->]]; [|done].
      specialize (Hinv j). unfold is_healthy in Hinv. by rewrite Hj' in Hinv.
Qed.

Lemma least_spec bs : match least_loop bs 0 None (-1) with
  | Some j => is_healthy bs j = true ∧ ∃ b, bs !! j = Some b ∧
      ∀ i b', bs !! i = Some b' → healthy b' = true → activeConns b ≤ activeConns b'
  | None => ∀ j, is_healthy bs j = false end.
Proof.
  destruct (least_loop_spec [] bs None (-1)) as [c Hc]; [done|]. simpl in Hc.
  destruct (least_loop bs 0 None (-1)) as [j|]; simpl in Hc; [|done].
  destruct Hc as (b & Hb & Hh & -> & Hmin). unfold is_healthy. rewrite Hb. eauto.
Qed.

(** *** Weighted choice *)

Lemma imap_pair_lookup (bs : list Backend) i x :
  imap (fun j b => (j, b)) bs !! i = Some x ↔ x.1 = i ∧ bs !! i = Some x.2.
Proof.
  rewrite list_lookup_imap. destruct (bs !! i) as [b|]; simpl; [|naive_solver].
  destruct x as [j b']. naive_solver.
Qed.

Lemma elem_of_candidates bs j w : (j, w) ∈ candidates bs ↔
  ∃ b, bs !! j = Some b ∧ healthy b = true ∧ w = Weight b.
Proof.
  unfold candidates. rewrite list_elem_of_omap. split.
  - intros ([i b] & Hin & Hx). apply list_elem_of_lookup in Hin as [n Hn].
    apply imap_pair_lookup in Hn as [Hi Hb]. simpl in *. subst n. unfold Healthy in Hx.
    destruct (healthy b) eqn:Hh; [|done]. simplify_eq. eauto.
  - intros (b & Hb & Hh & ->). exists (j, b). split; [|by unfold Healthy; simpl; rewrite Hh].
    apply list_elem_of_lookup. exists j. by apply imap_pair_lookup.
Qed.

Lemma weighted_loop_spec cs r : (∀ j w, (j, w) ∈ cs → 0 < w) → 0 ≤ r < total_weight cs →
  ∃ pre j w post, cs = pre ++ (j, w) :: post ∧ weighted_loop cs r = Some j ∧
    total_weight pre ≤ r < total_weight pre + w.
Proof.
  unfold total_weight. revert r. induction cs as [|[j w] cs IH]; intros r Hpos Hr; simpl in *; [lia|].
  destruct (r <? w) eqn:E; zbool.
  - exists [], j, w, cs. simpl. split_and!; first [done|lia].
  - destruct (IH (r - w)) as (pre & j' & w' & post & -> & -> & Hb).
    + intros j' w' Hin. eapply Hpos. by right.
    + lia.
    + exists ((j, w) :: pre), j', w', post. simpl. split_and!; first [done|lia].
Qed.

Definition weights_ok (bs : list Backend) : Prop := ∀ j b, bs !! j = Some b → 1 ≤ Weight b.

Lemma candidates_pos bs j w : weights_ok bs → (j, w) ∈ candidates bs → 0 < w.
Proof. intros Hw (b & Hb & _ & ->)%elem_of_candidates. specialize (Hw j b Hb). lia. Qed.

(** *** Hash ring *)

Lemma ring_nodes_backend bs n : n ∈ ring_nodes bs → (rn_backend n < length bs)%nat.
Proof.
  unfold ring_nodes. intros (l & Hl & Hn)%list_elem_of_join.
  apply list_elem_of_lookup in Hn as [j Hj]. rewrite list_lookup_imap in Hj.
  apply fmap_Some in Hj as (b & Hb & ->).
  apply list_elem_of_fmap in Hl as (i & -> & _). simpl. by eapply lookup_lt_Some.
Qed.

Lemma ring_nodes_has bs j : (j < length bs)%nat → ∃ h, mkNode h j ∈ ring_nodes bs.
Proof.
  intros [b Hb]%lookup_lt_is_Some_2. exists (hashKey (ID b +:+ "#" +:+ pretty 0%nat)).
  unfold ring_nodes. apply list_elem_of_join.
  exists ((fun i => mkNode (hashKey (ID b +:+ "#" +:+ pretty i)) j) <$> seq 0 virtualNodesPerBackend). split.
  - apply list_elem_of_fmap. exists 0%nat. split; [done|]. apply elem_of_seq. unfold virtualNodesPerBackend. lia.
  - apply list_elem_of_lookup. exists j. by rewrite list_lookup_imap, Hb.
Qed.

Definition ring_start (ring : list ringNode) (key : string) : nat :=
  sort_Search (length ring) (fun i => match ring !! i with Some n => hashKey key <=? rn_hash n | None => true end).

Lemma sorted_lookup (ring : list ringNode) a b na nb : StronglySorted node_le ring →
  (a < b)%nat → ring !! a = Some na → ring !! b = Some nb → rn_hash na ≤ rn_hash nb.
Proof.
  intros Hs. revert a b. induction Hs as [|n ring Hs IH Hall]; intros a b Hab Ha Hb; [done|].
  destruct a as [|a], b as [|b]; simplify_eq/=; try lia.
  - rewrite Forall_lookup in Hall. by apply (Hall b).
  - apply (IH a b); [lia|done..].
Qed.

(** The ring is scanned from the first node whose hash is not below the key's. *)
Lemma ring_start_spec bs ring key : sorted_ring bs ring →
  (ring_start ring key ≤ length ring)%nat ∧
  (∀ i n, ring !! i = Some n → (i < ring_start ring key)%nat ↔ rn_hash n < hashKey key).
Proof.
  intros [Hsort _]. set (f := fun i => match ring !! i with Some n => hashKey key <=? rn_hash n | None => true end).
  assert (∀ a b, (a ≤ b)%nat → f a = true → f b = true) as Hmono.
  { intros a b Hab. unfold f. destruct (ring !! b) as [nb|] eqn:Hb; [|done].
    destruct (ring !! a) as [na|] eqn:Ha.
    - intros ?. zbool. apply Z.leb_le. destruct (decide (a = b)) as [->|]; [simplify_eq; lia|].
      pose proof (sorted_lookup ring a b na nb Hsort ltac:(lia) Ha Hb). lia.
    - apply lookup_ge_None in Ha. apply lookup_lt_Some in Hb. lia. }
  destruct (search_loop_spec f (length ring) 0 (length ring) ltac:(lia) ltac:(lia) Hmono) as (Hb & Hlt & Hge).
  fold (sort_Search (length ring) f) in *. change (sort_Search (length ring) f) with (ring_start ring key) in *.
  split; [lia|]. intros i n Hi. pose proof (lookup_lt_Some _ _ _ Hi). split.
  - intros Hl. specialize (Hlt i ltac:(lia)). unfold f in Hlt. rewrite Hi in Hlt. zbool. lia.
  - intros Hn. destruct (decide (i < ring_start ring key)%nat); [done|].
    assert (f i = true) as Hfi by (apply (Hmono (ring_start ring key) i); [lia|apply Hge; lia]).
    unfold f in Hfi. rewrite Hi in Hfi. zbool. lia.
Qed.

(** Where the scan of the ring ends: the first node, clockwise from the key,
whose backend is healthy. *)
Lemma ring_get_spec bs ring key : sorted_ring bs ring → (0 < length bs)%nat →
  ∃ r, ring_get bs ring key = Some r ∧ pick_ok bs r ∧
    match r with
    | None => True
    | Some j => ∃ d, 0 ≤ d < Z.of_nat (length ring) ∧
        (let nth e := rn_backend <$> ring !! Z.to_nat ((Z.of_nat (ring_start ring key) + e) mod Z.of_nat (length ring)) in
         nth d = Some j ∧ ∀ e, 0 ≤ e < d → ∃ j', nth e = Some j' ∧ is_healthy bs j' = false)
    end.
Proof.
  intros [Hsort Hperm] Hl.
  assert (∀ j, (j < length bs)%nat → ∃ i h, ring !! i = Some (mkNode h j)) as Hhas.
  { intros j [h Hh]%ring_nodes_has. rewrite <- Hperm in Hh. apply list_elem_of_lookup in Hh as [i ?]. eauto. }
  assert (0 < length ring)%nat as Hr.
  { destruct (Hhas 0%nat Hl) as (i & h & Hi). apply lookup_lt_Some in Hi. lia. }
  set (n := Z.of_nat (length ring)). assert (0 < n) as Hn by lia.
  unfold ring_get. destruct (length ring =? 0)%nat eqn:E0; [apply Nat.eqb_eq in E0; lia|].
  fold (ring_start ring key) n. set (start := Z.of_nat (ring_start ring key)).
  set (rd := fun i => rn_backend <$> slice_get ring i).
  assert (∀ z, rd (z mod n) = rn_backend <$> ring !! Z.to_nat (z mod n)) as Hrd.
  { intros z. unfold rd. rewrite slice_get_Some; [done|]. by apply Z.mod_pos_bound. }
  destruct (scan_spec rd (is_healthy bs) n start 0 (length ring)) as
    [(d & b & Hd & Hb & Hok & -> & Hbefore)|[-> Hnone]]; try lia.
  { intros z Hz. unfold rd. destruct (slice_get_is_Some ring z Hz) as [x ->]. eauto. }
  - exists (Some b). split_and!; [done..|]. exists d. rewrite Z.add_0_r, Hrd in Hb. split; [lia|].
    split; [done|]. intros e He. destruct (Hbefore e He) as (j' & Hj' & ?).
    rewrite Z.add_0_r, Hrd in Hj'. eauto.
  - exists None. split_and!; [done| |done]. intros j. destruct (is_healthy bs j) eqn:Ej; [|done].
    destruct (Hhas j (is_healthy_lt bs j Ej)) as (i & h & Hi). pose proof (lookup_lt_Some _ _ _ Hi).
    destruct (cyclic_surj n start (Z.of_nat i)) as (e & He & Heq); [lia|].
    destruct (Hnone e ltac:(lia)) as (j' & Hj' & Hf).
    rewrite Z.add_0_r, Hrd, Heq, Nat2Z.id, Hi in Hj'. simplify_eq/=. congruence.
Qed.

Lemma newHashRing_sorted bs : sorted_ring bs (newHashRing bs).
Proof.
  split; [|apply merge_sort_Permutation]. apply StronglySorted_merge_sort.
  - intros a b c. unfold node_le. lia.
  - intros a b. unfold node_le. lia.
Qed.

(** ** Main results *)

(** The pools [NewPool] makes, and what [rand.Intn] promises. *)
Record pool_ok (p : Pool) : Prop := {
  po_nonempty : (0 < length (backends p))%nat;
  po_counter : 0 ≤ rrCounter p < 2 ^ 63 - 1;
  po_weights : weights_ok (backends p);
  po_ring : strategy p = ConsistentHash → sorted_ring (backends p) (ring p) }.

Definition intn_ok (rnd : Z → Z) : Prop := ∀ n, 0 < n → 0 ≤ rnd n < n.

Lemma weighted_ok rnd p : intn_ok rnd → weights_ok (backends p) →
  pick_ok (backends p) (pickWeightedRandom rnd p).
Proof.
  intros Hrnd Hw. unfold pickWeightedRandom.
  assert (∀ j w, (j, w) ∈ candidates (backends p) → 0 < w) as Hpos by eauto using candidates_pos.
  assert (0 ≤ total_weight (candidates (backends p))) as H0.
  { apply zsum_nonneg. intros [j w] Hin%Hpos. simpl. lia. }
  case_test; zbool; simpl.
  - intros j. unfold is_healthy. destruct (backends p !! j) as [b|] eqn:Hb; [|done].
    unfold Healthy. destruct (healthy b) eqn:Hh; [|done]. exfalso.
    assert ((j, Weight b) ∈ candidates (backends p)) as Hin by (apply elem_of_candidates; eauto).
    pose proof (Hpos _ _ Hin). apply list_elem_of_split in Hin as (l1 & l2 & Hl).
    unfold total_weight in *. rewrite Hl, zsum_app in E. simpl in E.
    assert (0 ≤ zsum snd l1 ∧ 0 ≤ zsum snd l2) as [? ?]; [|lia].
    split; apply zsum_nonneg; intros [j' w'] Hin'; simpl;
      (assert (0 < w'); [|lia]); apply (Hpos j' w'); rewrite Hl, elem_of_app, elem_of_cons; auto.
  - destruct (weighted_loop_spec _ (rnd (total_weight (candidates (backends p)))) Hpos) as
      (pre & j & w & post & Hcs & -> & _); [apply Hrnd; lia|]. simpl.
    assert ((j, w) ∈ candidates (backends p)) as (b & Hb & Hh & _)%elem_of_candidates.
    { rewrite Hcs. apply elem_of_app. right. left. }
    unfold is_healthy. by rewrite Hb.
Qed.

(** The outcome of a pick, on the backends and on the rest of the pool. *)
Lemma Pick_sound (rnd : Z → Z) (key : string) (p : Pool) : pool_ok p → intn_ok rnd →
  let '(p', r) := Pick rnd key p in
  strategy p' = strategy p ∧ ring p' = ring p ∧ rrCounter p ≤ rrCounter p' ≤ rrCounter p + 1 ∧
  match r with
  | Ok j => is_healthy (backends p) j = true ∧ backends p' = alter (add_conns 1) j (backends p)
  | Err e => e = ErrNoHealthyBackends ∧ (∀ j, is_healthy (backends p) j = false) ∧
      backends p' = backends p
  end.
Proof.
  intros [Hne Hc Hw Hring] Hrnd. unfold Pick. destruct (strategy p) eqn:Hst.
  - unfold pickRoundRobin. rewrite u64_small, i64_small by (unfold in_u64, in_i64; lia).
    rewrite Z.rem_mod_nonneg by lia.
    destruct (roundrobin_scan (backends p) ((rrCounter p + 1) mod Z.of_nat (length (backends p))))
      as ([j|] & -> & Hok & _); [done|apply Z.mod_pos_bound; lia| |]; simpl; split_and!;
      first [done|lia].
  - pose proof (least_spec (backends p)) as Hl. fold (pickLeastConnections p) in Hl.
    destruct (pickLeastConnections p) as [j|]; simpl; split_and!; first [done|lia|apply Hl].
  - pose proof (weighted_ok rnd p Hrnd Hw) as Hl.
    destruct (pickWeightedRandom rnd p); simpl; split_and!; first [done|lia].
  - destruct (ring_get_spec (backends p) (ring p) key (Hring eq_refl) Hne) as ([j|] & -> & Hok & _);
      simpl; split_and!; first [done|lia].
Qed.

(** [Pick] under every strategy returns a healthy backend of the pool and
counts one more connection on it and on no other; it fails exactly when no
backend is healthy, leaving the backends as they are.  Under
[LeastConnections] no healthy backend has fewer connections. *)
Theorem Pick_correct (rnd : Z → Z) (key : string) (p : Pool) : pool_ok p → intn_ok rnd →
  match Pick rnd key p with
  | (p', Ok j) => is_healthy (backends p) j = true ∧
      backends p' = alter (add_conns 1) j (backends p) ∧ ring p' = ring p ∧
      (strategy p = LeastConnections → ∃ b, backends p !! j = Some b ∧
        ∀ i b', backends p !! i = Some b' → healthy b' = true → activeConns b ≤ activeConns b')
  | (p', Err e) => e = ErrNoHealthyBackends ∧ (∀ j, is_healthy (backends p) j = false) ∧
      backends p' = backends p
  end.
Proof.
  intros Hp Hrnd. pose proof (Pick_sound rnd key p Hp Hrnd) as Hs.
  destruct (Pick rnd key p) as [p' [j|e]] eqn:Ep; destruct Hs as (_ & Hr & _ & Hs); [|done].
  destruct Hs as [Hh Hb]. split_and!; [done..|]. intros Hst. unfold Pick in Ep. rewrite Hst in Ep.
  pose proof (least_spec (backends p)) as Hl. fold (pickLeastConnections p) in Hl.
  destruct (pickLeastConnections p) as [j'|]; [|done]. injection Ep as _ ->. apply Hl.
Qed.

Definition demo_backends : list Backend :=
  [NewBackend "b0" "h0" 1; SetHealthy (NewBackend "b1" "h1" 2) false; NewBackend "b2" "h2" 3].

Definition demo_pool (st : Strategy) : Pool := mkPool st demo_backends 0 (newHashRing demo_backends).

Lemma demo_pool_ok st : pool_ok (demo_pool st).
Proof.
  split; [simpl; lia|simpl; lia| |intros _; apply newHashRing_sorted].
  intros j b Hb. destruct j as [|[|[|j]]]; simplify_eq/=; lia.
Defined.

Lemma Pick_correct_witness :
  (Pick (fun _ => 0) "k" (demo_pool RoundRobin)).2 = Ok 2%nat ∧
  is_healthy demo_backends 2 = true.
Proof.
  split; [by vm_compute|].
  pose proof (Pick_correct (fun _ => 0) "k" (demo_pool RoundRobin) (demo_pool_ok RoundRobin)) as H.
  assert (intn_ok (fun _ => 0)) as Hr by (intros n; lia). specialize (H Hr).
  destruct (Pick (fun _ => 0) "k" (demo_pool RoundRobin)) as [p' r] eqn:Ep.
  assert (r = Ok 2%nat) as -> by (change r with ((p', r).2); rewrite <- Ep; by vm_compute).
  apply H.
Defined.

(** [k] consecutive picks. *)
Fixpoint picks (rnd : Z → Z) (key : string) (k : nat) (p : Pool) : list (result lb_error nat) :=
  match k with
  | O => []
  | S k' => let '(p', r) := Pick rnd key p in r :: picks rnd key k' p'
  end.

Lemma alter_healthy bs j k d : is_healthy (alter (add_conns d) j bs) k = is_healthy bs k.
Proof.
  unfold is_healthy. rewrite list_lookup_alter. case_decide; subst; [|done].
  by destruct (bs !! k).
Qed.

Lemma roundrobin_picks rnd key k p : strategy p = RoundRobin → (0 < length (backends p))%nat →
  (∀ j, (j < length (backends p))%nat → is_healthy (backends p) j = true) →
  0 ≤ rrCounter p → rrCounter p + Z.of_nat k < 2 ^ 63 →
  picks rnd key k p = (fun i => Ok (Z.to_nat ((rrCounter p + 1 + Z.of_nat i) mod Z.of_nat (length (backends p)))))
    <$> seq 0 k.
Proof.
  revert p. induction k as [|k IH]; intros p Hst Hne Hall Hc Hk; [done|].
  cbn [picks]. unfold Pick. rewrite Hst. unfold pickRoundRobin.
  rewrite u64_small, i64_small by (unfold in_u64, in_i64; lia). rewrite Z.rem_mod_nonneg by lia.
  destruct (roundrobin_scan (backends p) ((rrCounter p + 1) mod Z.of_nat (length (backends p))))
    as (r & -> & _ & Hr); [done|apply Z.mod_pos_bound; lia|].
  set (n := Z.of_nat (length (backends p))) in *. assert (0 < n) as Hn by lia.
  rewrite Z.mod_mod in Hr by lia.
  pose proof (Z.mod_pos_bound (rrCounter p + 1) n Hn) as Hm.
  rewrite (Hr ltac:(apply Hall; lia)). cbn [seq fmap list_fmap]. f_equal; [by rewrite Z.add_0_r|].
  rewrite IH; cbn [strategy backends rrCounter with_backends]; try done; rewrite ?length_alter; try done; try lia.
  - fold n. rewrite <- (fmap_S_seq 0 k), <- list_fmap_compose. apply list_fmap_ext. intros _ i _. simpl.
    f_equal. f_equal. f_equal. lia.
  - intros j Hj. rewrite alter_healthy. by apply Hall.
Qed.

(** Round robin is fair: when all [n] backends are healthy, any [n]
consecutive picks choose every backend exactly once. *)
Theorem RoundRobin_fair (rnd : Z → Z) (key : string) (p : Pool) :
  strategy p = RoundRobin → (0 < length (backends p))%nat →
  (∀ j, (j < length (backends p))%nat → is_healthy (backends p) j = true) →
  0 ≤ rrCounter p → rrCounter p + Z.of_nat (length (backends p)) < 2 ^ 63 →
  picks rnd key (length (backends p)) p ≡ₚ Ok <$> seq 0 (length (backends p)).
Proof.
  intros Hst Hne Hall Hc Hk. rewrite roundrobin_picks by done.
  set (m := length (backends p)) in *.
  assert (∀ c, (fun i => Z.to_nat ((c + Z.of_nat i) mod Z.of_nat m)) <$> seq 0 m ≡ₚ seq 0 m) as Hperm.
  { intros c. apply submseteq_length_Permutation; [apply NoDup_submseteq|by rewrite length_fmap].
    - apply NoDup_fmap_2_strong; [|apply NoDup_seq]. intros i j Hi%elem_of_seq Hj%elem_of_seq Heq.
      apply Z2Nat.inj in Heq; try (apply Z.mod_pos_bound; lia).
      assert ((Z.of_nat i - Z.of_nat j) mod Z.of_nat m = 0) as Hd.
      { replace (Z.of_nat i - Z.of_nat j) with (c + Z.of_nat i - (c + Z.of_nat j)) by lia.
        rewrite Zminus_mod, Heq, Z.sub_diag. apply Z.mod_0_l. lia. }
      apply Z.mod_divide in Hd as [q Hq]; [|lia]. assert (q = 0) by nia. lia.
    - intros x (i & -> & Hi%elem_of_seq)%list_elem_of_fmap. apply elem_of_seq.
      pose proof (Z.mod_pos_bound (c + Z.of_nat i) (Z.of_nat m)). lia. }
  rewrite <- (Hperm (rrCounter p + 1)) at 2. by rewrite <- list_fmap_compose.
Qed.

Definition healthy_pool : Pool :=
  mkPool RoundRobin [NewBackend "b0" "h0" 1; NewBackend "b1" "h1" 1; NewBackend "b2" "h2" 1] 7 [].

Lemma RoundRobin_fair_witness :
  picks (fun _ => 0) "k" 3 healthy_pool ≡ₚ [Ok 0%nat; Ok 1%nat; Ok 2%nat].
Proof.
  apply (RoundRobin_fair (fun _ => 0) "k" healthy_pool); [done|simpl; lia| |simpl; lia|simpl; lia].
  intros j Hj. simpl in Hj. destruct j as [|[|[|j]]]; [done..|lia].
Defined.

(** Weighted choice is exact: the values [rand.Intn] may return are split
among the healthy backends, each getting as many of them as its weight, at
consecutive values in the order of the pool. *)
Theorem WeightedRandom_exact (p : Pool) (r : Z) : weights_ok (backends p) →
  0 ≤ r < total_weight (candidates (backends p)) →
  ∃ pre j w post, candidates (backends p) = pre ++ (j, w) :: post ∧
    total_weight pre ≤ r < total_weight pre + w ∧
    (∃ b, backends p !! j = Some b ∧ healthy b = true ∧ w = Weight b) ∧
    pickWeightedRandom (fun _ => r) p = Some j.
Proof.
  intros Hw Hr. destruct (weighted_loop_spec (candidates (backends p)) r) as
    (pre & j & w & post & Hcs & Hl & Hb); [eauto using candidates_pos|done|].
  exists pre, j, w, post. split_and!; [done|lia|lia| |].
  - apply elem_of_candidates. rewrite Hcs. apply elem_of_app. right. left.
  - unfold pickWeightedRandom. rewrite (proj2 (Z.eqb_neq _ _)) by lia. by rewrite Hl.
Qed.

Lemma WeightedRandom_exact_witness :
  ∃ pre j w post, candidates demo_backends = pre ++ (j, w) :: post ∧
    total_weight pre ≤ 2 < total_weight pre + w ∧
    (∃ b, demo_backends !! j = Some b ∧ healthy b = true ∧ w = Weight b) ∧
    pickWeightedRandom (fun _ => 2) (demo_pool WeightedRandom) = Some j.
Proof.
  apply (WeightedRandom_exact (demo_pool WeightedRandom) 2); [apply (po_weights _ (demo_pool_ok WeightedRandom))|].
  vm_compute. by split.
Defined.

(** Consistent hashing disturbs only the keys of the backend that went
down: a key whose backend stays healthy keeps it, when any other backends
become unhealthy. *)
Theorem ring_minimal_disruption (bs bs' : list Backend) (r : list ringNode) (key : string) (j : nat) :
  sorted_ring bs r → (0 < length bs)%nat →
  ring_get bs r key = Some (Some j) →
  (∀ i, is_healthy bs' i = true → is_healthy bs i = true) → is_healthy bs' j = true →
  ring_get bs' r key = Some (Some j).
Proof.
  intros Hr Hl Hget Hsub Hj.
  destruct (ring_get_spec bs r key Hr Hl) as (x & Hx & _ & Hfirst). rewrite Hget in Hx. simplify_eq.
  destruct Hfirst as (d & Hd & Hnth & Hbefore). unfold ring_get.
  destruct (length r =? 0)%nat eqn:E0; [apply Nat.eqb_eq in E0; lia|].
  fold (ring_start r key). set (n := Z.of_nat (length r)) in *.
  set (start := Z.of_nat (ring_start r key)) in *.
  set (rd := fun i => rn_backend <$> slice_get r i).
  assert (∀ z, rd (z mod n) = rn_backend <$> r !! Z.to_nat (z mod n)) as Hrd.
  { intros z. unfold rd. rewrite slice_get_Some; [done|]. apply Z.mod_pos_bound. lia. }
  destruct (scan_spec rd (is_healthy bs') n start 0 (length r)) as
    [(d' & b & Hd' & Hb & Hok & -> & Hbefore')|[-> Hnone]]; try lia.
  { intros z Hz. unfold rd. destruct (slice_get_is_Some r z Hz) as [y ->]. eauto. }
  - do 2 f_equal. rewrite Z.add_0_r, Hrd in Hb.
    destruct (Z.lt_trichotomy d d') as [Hlt|[->|Hlt]]; [| |].
    + destruct (Hbefore' d ltac:(lia)) as (j' & Hj' & Hf). rewrite Z.add_0_r, Hrd in Hj'. congruence.
    + congruence.
    + destruct (Hbefore d' ltac:(lia)) as (j' & Hj' & Hf). rewrite Hj' in Hb. simplify_eq.
      apply Hsub in Hok. congruence.
  - destruct (Hnone d ltac:(lia)) as (j' & Hj' & Hf). rewrite Z.add_0_r, Hrd in Hj'. congruence.
Qed.

Lemma ring_minimal_disruption_witness :
  let bs := [NewBackend "b0" "h0" 1; NewBackend "b1" "h1" 1; NewBackend "b2" "h2" 1] in
  let bs' := [NewBackend "b0" "h0" 1; NewBackend "b1" "h1" 1; SetHealthy (NewBackend "b2" "h2" 1) false] in
  ring_get bs' (newHashRing bs) "acct-1" = ring_get bs (newHashRing bs) "acct-1".
Proof.
  intros bs bs'. assert (ring_get bs (newHashRing bs) "acct-1" = Some (Some 0%nat)) as H by by vm_compute.
  rewrite H. apply (ring_minimal_disruption bs bs' (newHashRing bs) "acct-1" 0%nat);
    [apply newHashRing_sorted|simpl; lia|exact H| |done].
  intros i. destruct i as [|[|[|i]]]; done.
Defined.

(** The round-robin counter is converted to a signed [int]: the pick that
takes it to 2^63 indexes the backends with a negative number and panics,
although every backend is healthy. *)
Theorem RoundRobin_counter_panics :
  (Pick (fun _ => 0) "k" (mkPool RoundRobin (backends healthy_pool) (2 ^ 63 - 1) [])).2 = Err IndexPanic ∧
  ∀ j, (j < 3)%nat → is_healthy (backends healthy_pool) j = true.
Proof. split; [by vm_compute|]. intros [|[|[|j]]] Hj; [done..|lia]. Qed.
