(* ===== verification/Gateway.v ===== *)
(** * fintech-gateway-go/internal/{gateway,waf,auth,pool}: the request pipeline

WAF, routing, rate limit, authentication, and the cached or direct proxying
with retries.  The pipeline is composed from the load balancer, the breaker
and the cache of the other files.  What leaves the process is a parameter: the
reply of a backend to an attempt ([proxy]), the compiled regular expressions
of the WAF, the token verification, the rate limiter, and the clock. *)

From Stdlib Require Import ZArith Lia.
From stdpp Require Import base gmap strings fin_maps functions list.
From S2P Require Import Prelude Breaker TTLCache LoadBalancer.

Open Scope Z_scope.

(* [base] fintech-gateway-go/internal *)

(** ** Responses and recorders *)

(* [go] gateway/gateway.go:169-173 cachedResponse *)
Record cachedResponse : Type := mkResp {
  r_status : Z; r_header : list (string * list string); r_body : string }.

(** [rec_body] is [None] once the buffer went back to the pool. *)
(* [go] gateway/recorder.go:15-20 responseRecorder *)
Record responseRecorder : Type := mkRec {
  rec_header : list (string * list string); rec_status : Z; rec_body : option string;
  rec_wroteHeader : bool }.

(** [live] counts the buffers taken from the pool and not returned. *)
(* [go] gateway/recorder.go:22-24 newResponseRecorder *)
Definition newResponseRecorder (live : Z) : responseRecorder * Z :=
  (mkRec [] 200 (Some "") false, live + 1).

(* [go] gateway/recorder.go:28-33 responseRecorder.WriteHeader *)
Definition WriteHeader (code : Z) (r : responseRecorder) : responseRecorder :=
  if rec_wroteHeader r then r else mkRec (rec_header r) code (rec_body r) true.

(* [go] gateway/recorder.go:35-40 responseRecorder.Write *)
Definition Write (b : string) (r : responseRecorder) : responseRecorder :=
  let r' := if rec_wroteHeader r then r else WriteHeader 200 r in
  mkRec (rec_header r') (rec_status r') ((fun s => s +:+ b) <$> rec_body r') (rec_wroteHeader r').

(* [go] gateway/recorder.go:45-50 responseRecorder.release *)
Definition rec_release (r : responseRecorder) (live : Z) : responseRecorder * Z :=
  match rec_body r with
  | Some _ => (mkRec (rec_header r) (rec_status r) None (rec_wroteHeader r), live - 1)
  | None => (r, live)
  end.

(** The reverse proxy writes the reply of the backend into the recorder: its
headers, its status and its body; a backend that cannot be reached is the
error handler's 502 with an empty body. *)
(* [go] gateway/gateway.go:74-87 ReverseProxy *)
Definition serve_into (reply : option cachedResponse) (r : responseRecorder) : responseRecorder :=
  match reply with
  | Some resp => Write (r_body resp) (WriteHeader (r_status resp)
      (mkRec (rec_header r ++ r_header resp) (rec_status r) (rec_body r) (rec_wroteHeader r)))
  | None => WriteHeader 502 r
  end.

(** ** Routes *)

(* [go] gateway/gateway.go:26-31 Route *)
Record Route : Type := mkRoute { PathPrefix : string; Cacheable : bool; RequireAuth : bool }.

(** The route's own state: its pool and one breaker per backend ID. *)
(* [go] gateway/gateway.go:45-49 compiledRoute *)
Record compiledRoute : Type := mkCompiled {
  cr_route : Route; cr_pool : Pool; cr_breakers : gmap string Breaker }.

(* [go] gateway/gateway.go:102-105 New *)
Definition compile_route (cfg : Config) (r : Route) (p : Pool) : compiledRoute :=
  mkCompiled r p (list_to_map ((fun b => (ID b, (newWithClock cfg).2)) <$> backends p)).

(** The checks [New] makes of a route before compiling it. *)
(* [go] gateway/gateway.go:91-100 New *)
Definition route_error (has_verifier has_cache : bool) (r : Route) : option string :=
  if RequireAuth r && negb has_verifier then Some "requires auth but Config.Verifier is nil"
  else if Cacheable r && negb has_cache then Some "is cacheable but Config.Cache is nil"
  else None.

(* [go] gateway/gateway.go:91-116 New *)
Fixpoint New (cfg : Config) (has_verifier has_cache : bool) (routes : list (Route * Pool))
  : result string (list compiledRoute) :=
  match routes with
  | [] => Ok []
  | (r, p) :: routes' =>
      match route_error has_verifier has_cache r with
      | Some e => Err e
      | None => match New cfg has_verifier has_cache routes' with
                | Ok crs => Ok (compile_route cfg r p :: crs)
                | Err e => Err e
                end
      end
  end.

(* [go] gateway/gateway.go:142-146 Gateway.matchRoute *)
Fixpoint match_loop (path : string) (routes : list compiledRoute) (i : nat)
    (best : option nat) (bestLen : Z) : option nat :=
  match routes with
  | [] => best
  | r :: routes' =>
      let pre := PathPrefix (cr_route r) in
      if String.prefix pre path && (bestLen <? Z.of_nat (String.length pre))
      then match_loop path routes' (S i) (Some i) (Z.of_nat (String.length pre))
      else match_loop path routes' (S i) best bestLen
  end.

(* [go] gateway/gateway.go:138-148 Gateway.matchRoute *)
Definition matchRoute (path : string) (routes : list compiledRoute) : option nat :=
  match_loop path routes 0 None (-1).

(** ** fetch: pick, breaker, proxy, retry *)

Inductive gw_error : Type :=
| ENoBackend (e : lb_error)
| EBreakerOpen
| EBackendStatus (id : string) (status : Z)
| ENoAttempt.

(** What the loop may end with; a panic unwinds the request. *)
Inductive fetched : Type := FRec (r : responseRecorder) | FErr (e : gw_error) | FPanic.

(* [go] gateway/gateway.go:220-220 maxProxyAttempts *)
Definition maxProxyAttempts : nat := 3.

Section fetch.
(** The configuration of the breakers, the reply of the [a]-th attempt's
backend, the clock at the [a]-th attempt, [rand.Intn], and the client key. *)
Context (cfg : Config) (proxy : nat → Backend → option cachedResponse) (clock : nat → Z).
Context (rnd : Z → Z) (key : string).

(** The loop from attempt [a] on, [k] attempts being left.  The last component
counts the requests sent to backends. *)
(* [go] gateway/gateway.go:234-265 Gateway.fetch *)
Fixpoint fetch_loop (k a : nat) (cr : compiledRoute) (live : Z) (lastErr : option gw_error)
  : compiledRoute * Z * fetched * nat :=
  match k with
  | O => (cr, live, FErr (default ENoAttempt lastErr), O)
  | S k' =>
      match Pick rnd key (cr_pool cr) with
      | (p, Err IndexPanic) => (mkCompiled (cr_route cr) p (cr_breakers cr), live, FPanic, O)
      | (p, Err e) => (mkCompiled (cr_route cr) p (cr_breakers cr), live, FErr (ENoBackend e), O)
      | (p, Ok j) =>
          match backends p !! j with
          | None => (mkCompiled (cr_route cr) p (cr_breakers cr), live, FPanic, O)
          | Some backend =>
              match cr_breakers cr !! ID backend with
              | None => (mkCompiled (cr_route cr) p (cr_breakers cr), live, FPanic, O)
              | Some br =>
                  let '(br1, allowed) := Allow cfg (clock a) br in
                  if negb allowed then
                    fetch_loop k' (S a)
                      (mkCompiled (cr_route cr) (Release j p) (<[ID backend := br1]> (cr_breakers cr)))
                      live (Some EBreakerOpen)
                  else
                    let '(rec0, live1) := newResponseRecorder live in
                    let rec := serve_into (proxy a backend) rec0 in
                    let p' := Release j p in
                    if rec_status rec <? 500 then
                      (mkCompiled (cr_route cr) p' (<[ID backend := Success cfg br1]> (cr_breakers cr)),
                       live1, FRec rec, 1%nat)
                    else
                      let cr' := mkCompiled (cr_route cr) p'
                        (<[ID backend := Failure cfg (clock a) br1]> (cr_breakers cr)) in
                      if (a <? maxProxyAttempts - 1)%nat then
                        let '(_, live2) := rec_release rec live1 in
                        let '(out, n) := fetch_loop k' (S a) cr' live2
                          (Some (EBackendStatus (ID backend) (rec_status rec))) in
                        (out, S n)
                      else (cr', live1, FRec rec, 1%nat)
              end
          end
      end
  end.

(* [go] gateway/gateway.go:230-274 Gateway.fetch *)
Definition fetch (cr : compiledRoute) (live : Z) : compiledRoute * Z * fetched * nat :=
  fetch_loop maxProxyAttempts 0 cr live None.
End fetch.

(** ** WAF *)

(* [go] waf/waf.go:23-27 Config *)
Record WAFConfig : Type := mkWAF { MaxBodyBytes : Z; MaxURLLength : Z; MaxHeaders : Z }.

(* [go] waf/waf.go:29-31 DefaultConfig *)
Definition DefaultWAFConfig : WAFConfig := mkWAF (Z.shiftl 1 20) 2048 100.

(** A request, as far as the pipeline reads it. *)
Record Request : Type := mkReq {
  q_method : string; q_url : string; q_path : string; q_query : list (string * list string);
  q_headers : Z; q_auth : string }.

(** [strings.Contains]. *)
Fixpoint contains (s sub : string) : bool :=
  String.prefix sub s || match s with EmptyString => false | String _ s' => contains s' sub end.

(* [go] waf/waf.go:78-80 containsPathTraversal *)
Definition containsPathTraversal (path : string) : bool := contains path "..".

Section waf.
(** The compiled regular expressions, as the predicates they decide. *)
Context (injectionPatterns : list (string → bool)).

(* [go] waf/waf.go:82-92 matchesInjectionPattern *)
Definition matchesInjectionPattern (s : string) : bool :=
  if String.eqb s "" then false else existsb (fun re => re s) injectionPatterns.

(* [go] waf/waf.go:98-110 queryContainsInjectionPattern *)
Definition queryContainsInjectionPattern (values : list (string * list string)) : bool :=
  existsb (fun kv => matchesInjectionPattern kv.1 || existsb matchesInjectionPattern kv.2) values.

(** The status of a rejection, if the request is rejected. *)
(* [go] waf/waf.go:49-73 Middleware *)
Definition waf_check (cfg : WAFConfig) (r : Request) : option Z :=
  if MaxURLLength cfg <? Z.of_nat (String.length (q_url r)) then Some 414
  else if MaxHeaders cfg <? q_headers r then Some 400
  else if containsPathTraversal (q_path r) then Some 400
  else if matchesInjectionPattern (q_path r) || queryContainsInjectionPattern (q_query r) then Some 400
  else None.
End waf.

(** ** Authentication middleware *)

(** [strings.CutPrefix]. *)
Definition cut_prefix (s pre : string) : option string :=
  if String.prefix pre s then Some (String.substring (String.length pre) (String.length s - String.length pre) s)
  else None.

(** The claims put in the context of the next handler, or the text of the 401. *)
(* [go] auth/middleware.go:19-37 Middleware *)
Definition auth_check {C} (verify : string → option C) (r : Request) : result string C :=
  match cut_prefix (q_auth r) "Bearer " with
  | None => Err "missing bearer token"
  | Some token =>
      if String.eqb token "" then Err "missing bearer token"
      else match verify token with Some c => Ok c | None => Err "invalid token" end
  end.

(** ** The gateway *)

(** The process state: routes with their pools and breakers, the cache, the
rate limiter and the live buffers. *)
(* [go] gateway/gateway.go:51-57 Gateway *)
Record Gateway (L : Type) : Type := mkGateway {
  g_routes : list compiledRoute; g_cache : Cache cachedResponse; g_limiter : option L; g_live : Z }.
Arguments mkGateway {L}. Arguments g_routes {L}. Arguments g_cache {L}.
Arguments g_limiter {L}. Arguments g_live {L}.

(** What the environment provides while a request runs. *)
Record Env (L C : Type) : Type := mkEnv {
  e_breakers : Config; e_waf : WAFConfig; e_patterns : list (string → bool);
  e_verify : string → option C; e_limit : string → L → L * bool;
  e_clientKey : Request → string;
  e_proxy : nat → Backend → option cachedResponse; e_clock : nat → Z; e_rnd : Z → Z;
  e_now : Z; e_now2 : Z }.
Arguments e_breakers {L C}. Arguments e_waf {L C}. Arguments e_patterns {L C}.
Arguments e_verify {L C}. Arguments e_limit {L C}. Arguments e_clientKey {L C}.
Arguments e_proxy {L C}. Arguments e_clock {L C}. Arguments e_rnd {L C}.
Arguments e_now {L C}. Arguments e_now2 {L C}.

(** What the client sees: a response, or a broken connection after a panic. *)
Inductive reply : Type := Reply (r : cachedResponse) | Crash.

(** [http.Error]. *)
Definition http_Error (status : Z) (msg : string) : reply := Reply (mkResp status [] msg).

Section gateway.
Context {L C : Type} (env : Env L C).

(* [go] gateway/gateway.go:209-218 writeResponse *)
Definition writeResponse (status : Z) (header : list (string * list string)) (body : string) : reply :=
  Reply (mkResp status header body).

Definition run_fetch (key : string) (cr : compiledRoute) (live : Z) :=
  fetch (e_breakers env) (e_proxy env) (e_clock env) (e_rnd env) key cr live.

(** The [load] function of [serveCacheable]; the recorder is released. *)
(* [go] gateway/gateway.go:176-186 Gateway.serveCacheable *)
Definition load_response (key : string) (cr : compiledRoute) (live : Z)
  : compiledRoute * Z * option (result gw_error cachedResponse) :=
  match run_fetch key cr live with
  | (cr', live', FPanic, _) => (cr', live', None)
  | (cr', live', FErr e, _) => (cr', live', Some (Err e))
  | (cr', live', FRec rec, _) =>
      let '(_, live'') := rec_release rec live' in
      (cr', live'',
       Some (if 500 <=? rec_status rec then Err (EBackendStatus "" (rec_status rec))
             else Ok (mkResp (rec_status rec) (rec_header rec) (default "" (rec_body rec)))))
  end.

(* [go] gateway/gateway.go:175-193 Gateway.serveCacheable *)
Definition serveCacheable (r : Request) (key : string) (cr : compiledRoute)
    (cache : Cache cachedResponse) (live : Z)
  : compiledRoute * Cache cachedResponse * Z * reply :=
  let ck := q_url r in
  match Cache_Get (e_now env) ck cache with
  | (cache1, Some resp) =>
      (cr, cache1, live, writeResponse (r_status resp) (r_header resp) (r_body resp))
  | (cache1, None) =>
      match load_response key cr live with
      | (cr', live', None) => (cr', cache1, live', Crash)
      | (cr', live', Some res) =>
          match Cache_op (CLoad (e_now2 env) ck res) cache1 with
          | (cache2, Some (RLoad (Ok resp) called)) =>
              (if called then cr' else cr, cache2, if called then live' else live,
               writeResponse (r_status resp) (r_header resp) (r_body resp))
          | (cache2, Some (RLoad (Err _) called)) =>
              (if called then cr' else cr, cache2, if called then live' else live,
               http_Error 502 "bad gateway")
          | (cache2, _) => (cr, cache2, live, Crash)
          end
      end
  end.

(* [go] gateway/gateway.go:199-207 Gateway.proxyDirect *)
Definition proxyDirect (key : string) (cr : compiledRoute) (live : Z)
  : compiledRoute * Z * reply :=
  match run_fetch key cr live with
  | (cr', live', FPanic, _) => (cr', live', Crash)
  | (cr', live', FErr _, _) => (cr', live', http_Error 502 "bad gateway")
  | (cr', live', FRec rec, _) =>
      let '(_, live'') := rec_release rec live' in
      (cr', live'', writeResponse (rec_status rec) (rec_header rec) (default "" (rec_body rec)))
  end.

(* [go] gateway/gateway.go:158-167 Gateway.makeRouteHandler *)
Definition route_handler (r : Request) (cr : compiledRoute) (cache : Cache cachedResponse) (live : Z)
  : compiledRoute * Cache cachedResponse * Z * reply :=
  let key := e_clientKey env r in
  if String.eqb (q_method r) "GET" && Cacheable (cr_route cr)
  then serveCacheable r key cr cache live
  else let '(cr', live', rep) := proxyDirect key cr live in (cr', cache, live', rep).

(* [go] gateway/gateway.go:123-136 Gateway.serveHTTP *)
Definition serveHTTP (r : Request) (g : Gateway L) : Gateway L * reply :=
  match matchRoute (q_path r) (g_routes g) with
  | None => (g, http_Error 404 "404 page not found")
  | Some i =>
      let '(lim, ok) :=
        match g_limiter g with
        | None => (None, true)
        | Some l => let '(l', ok) := e_limit env (e_clientKey env r) l in (Some l', ok)
        end in
      let g1 := mkGateway (g_routes g) (g_cache g) lim (g_live g) in
      if negb ok then (g1, http_Error 429 "rate limit exceeded")
      else match g_routes g !! i with
           | None => (g1, Crash)
           | Some cr =>
               match (if RequireAuth (cr_route cr)
                      then match auth_check (e_verify env) r with Ok _ => None | Err m => Some m end
                      else None) with
               | Some msg => (g1, http_Error 401 msg)
               | None =>
                   let '(cr', cache', live', rep) := route_handler r cr (g_cache g) (g_live g) in
                   (mkGateway (<[i := cr']> (g_routes g)) cache' lim live', rep)
               end
           end
  end.

(* [go] gateway/gateway.go:119-121 Gateway.Handler *)
Definition Handler (r : Request) (g : Gateway L) : Gateway L * reply :=
  match waf_check (e_patterns env) (e_waf env) r with
  | Some status => (g, http_Error status "request rejected")
  | None => serveHTTP r g
  end.
End gateway.

(** ** Invariants *)

(** A route whose pool can serve [k] more picks without the round-robin counter
overflowing, whose connection counts are in range, and which has a breaker
for every backend. *)
Record route_ok (k : Z) (cr : compiledRoute) : Prop := {
  ro_nonempty : (0 < length (backends (cr_pool cr)))%nat;
  ro_counter : 0 ≤ rrCounter (cr_pool cr) ∧ rrCounter (cr_pool cr) + k < 2 ^ 63;
  ro_weights : weights_ok (backends (cr_pool cr));
  ro_ring : strategy (cr_pool cr) = ConsistentHash → sorted_ring (backends (cr_pool cr)) (ring (cr_pool cr));
  ro_conns : ∀ j b, backends (cr_pool cr) !! j = Some b → 0 ≤ activeConns b < 2 ^ 63 - 1;
  ro_breakers : ∀ j b, backends (cr_pool cr) !! j = Some b → is_Some (cr_breakers cr !! ID b) }.

Lemma route_pool_ok k cr : 0 < k → route_ok k cr → pool_ok (cr_pool cr).
Proof. intros Hk [Hn Hc Hw Hr _ _]. split; [done|lia|done|done]. Qed.

Lemma Release_Pick (j : nat) (bs : list Backend) b : bs !! j = Some b → 0 ≤ activeConns b < 2 ^ 63 - 1 →
  alter (add_conns (-1)) j (alter (add_conns 1) j bs) = bs.
Proof.
  intros Hb Hc. apply list_eq. intros i. rewrite !list_lookup_alter.
  destruct (decide (j = i)) as [->|]; [|done]. rewrite decide_True, Hb by done. simpl. destruct b as [id ad w h c]. unfold add_conns. simpl in *.
  rewrite (i64_small (c + 1)), i64_small by (unfold in_i64; lia). do 2 f_equal. lia.
Qed.

(** The recorder of a proxied attempt owns its buffer. *)
Lemma serve_into_body reply live : is_Some (rec_body (serve_into reply (newResponseRecorder live).1)).
Proof. destruct reply; simpl; eauto. Qed.

Section fetch_proof.
Context (cfg : Config) (proxy : nat → Backend → option cachedResponse) (clock : nat → Z).
Context (rnd : Z → Z) (key : string) (Hrnd : intn_ok rnd).

(** What the loop guarantees from attempt [a] on: connections are returned,
buffers balance, and only a reply below 500 or the last attempt's is kept. *)
Definition fetch_post (k a : nat) (cr : compiledRoute) (live : Z)
    (res : compiledRoute * Z * fetched * nat) : Prop :=
  let '(cr', live', out, n) := res in
  cr_route cr' = cr_route cr ∧ backends (cr_pool cr') = backends (cr_pool cr) ∧
  strategy (cr_pool cr') = strategy (cr_pool cr) ∧ ring (cr_pool cr') = ring (cr_pool cr) ∧
  rrCounter (cr_pool cr) ≤ rrCounter (cr_pool cr') ≤ rrCounter (cr_pool cr) + Z.of_nat k ∧
  (∀ id, is_Some (cr_breakers cr !! id) → is_Some (cr_breakers cr' !! id)) ∧ (n ≤ k)%nat ∧
  match out with
  | FPanic => False
  | FErr _ => live' = live
  | FRec rec => live' = live + 1 ∧ is_Some (rec_body rec) ∧ (1 ≤ n)%nat ∧
      (500 ≤ rec_status rec → ∃ b, b ∈ backends (cr_pool cr) ∧
        rec = serve_into (proxy (maxProxyAttempts - 1)%nat (add_conns 1 b)) (newResponseRecorder 0).1)
  end.

Lemma fetch_post_next k a cr cr1 live lastErr :
  route_ok (Z.of_nat (S k)) cr →
  cr_route cr1 = cr_route cr → backends (cr_pool cr1) = backends (cr_pool cr) →
  strategy (cr_pool cr1) = strategy (cr_pool cr) → ring (cr_pool cr1) = ring (cr_pool cr) →
  rrCounter (cr_pool cr) ≤ rrCounter (cr_pool cr1) ≤ rrCounter (cr_pool cr) + 1 →
  (∀ id, is_Some (cr_breakers cr !! id) → is_Some (cr_breakers cr1 !! id)) →
  (∀ cr live lastErr, route_ok (Z.of_nat k) cr →
    fetch_post k (S a) cr live (fetch_loop cfg proxy clock rnd key k (S a) cr live lastErr)) →
  fetch_post (S k) a cr live (fetch_loop cfg proxy clock rnd key k (S a) cr1 live lastErr) ∧
  fetch_post (S k) a cr live
    (let '(out, n) := fetch_loop cfg proxy clock rnd key k (S a) cr1 live lastErr in (out, S n)).
Proof.
  intros [Hn Hc Hw Hr Hconn Hbr] Hcr Hbs Hst Hrg Hcnt Hdom IH.
  assert (route_ok (Z.of_nat k) cr1) as Hok1.
  { constructor; rewrite ?Hbs, ?Hst, ?Hrg; try done; [lia|]. intros j b Hb. apply Hdom. eauto. }
  specialize (IH cr1 live lastErr Hok1).
  destruct (fetch_loop cfg proxy clock rnd key k (S a) cr1 live lastErr) as [[[cr' live'] out] n].
  destruct IH as (H1 & H2 & H3 & H4 & H5 & H6 & H7 & H8).
  rewrite Hcr, Hbs, Hst, Hrg in *.
  split; (split_and!; [done|done|done|done|lia|lia|by eauto|lia|]); destruct out; try done;
    destruct H8 as (? & ? & ? & ?); split_and!; first [done|lia].
Qed.

Lemma fetch_loop_ok k a cr live lastErr : (k + a = maxProxyAttempts)%nat →
  route_ok (Z.of_nat k) cr →
  fetch_post k a cr live (fetch_loop cfg proxy clock rnd key k a cr live lastErr).
Proof.
  revert a cr live lastErr. induction k as [|k IH]; intros a cr live lastErr Hka Hok.
  { simpl. split_and!; first [done|lia|eauto]. }
  pose proof (Pick_sound rnd key (cr_pool cr) (route_pool_ok (Z.of_nat (S k)) cr ltac:(lia) Hok) Hrnd) as Hp.
  cbn [fetch_loop]. destruct (Pick rnd key (cr_pool cr)) as [p [j|e]].
  2:{ destruct Hp as (? & ? & ? & -> & _ & ?). simpl. split_and!; first [done|lia|eauto]. }
  destruct Hp as (Hst & Hrg & Hcnt & Hh & Hbs).
  destruct (backends (cr_pool cr) !! j) as [b|] eqn:Hb; [|by unfold is_healthy in Hh; rewrite Hb in Hh].
  assert (backends p !! j = Some (add_conns 1 b)) as Hbp.
  { by rewrite Hbs, list_lookup_alter, decide_True, Hb. }
  rewrite Hbp. cbn [ID add_conns].
  destruct (ro_breakers _ _ Hok j b Hb) as [br Hbr]. rewrite Hbr.
  assert (backends (Release j p) = backends (cr_pool cr)) as Hrel.
  { simpl. rewrite Hbs. eapply Release_Pick; [done|]. by eapply (ro_conns _ _ Hok). }
  assert (∀ v id, is_Some (cr_breakers cr !! id) → is_Some (<[ID b := v]> (cr_breakers cr) !! id)) as Hdom.
  { intros v id. rewrite lookup_insert_is_Some. destruct (decide (ID b = id)); eauto. }
  assert (∀ cr live lastErr, route_ok (Z.of_nat k) cr →
    fetch_post k (S a) cr live (fetch_loop cfg proxy clock rnd key k (S a) cr live lastErr)) as IH'.
  { intros. apply IH; [lia|done]. }
  destruct (Allow cfg (clock a) br) as [br1 [|]] eqn:Ea; cbn [negb].
  2:{ eapply fetch_post_next; simpl; eauto. }
  cbn [newResponseRecorder]. set (rec0 := mkRec [] 200 (Some "") false).
  set (rec := serve_into (proxy a (add_conns 1 b)) rec0).
  pose proof (serve_into_body (proxy a (add_conns 1 b)) live) as Hbody.
  change (is_Some (rec_body rec)) in Hbody.
  destruct (rec_status rec <? 500) eqn:E500; zbool.
  { simpl. split_and!; try first [done|lia|eauto]. }
  destruct (a <? maxProxyAttempts - 1)%nat eqn:Elast.
  - unfold rec_release. destruct Hbody as [s Hs]. rewrite Hs.
    replace (live + 1 - 1) with live by lia. eapply fetch_post_next; simpl; eauto.
  - apply Nat.ltb_ge in Elast. simpl. split_and!; try first [done|lia|eauto]. intros _.
    exists b. split; [by eapply list_elem_of_lookup_2|]. 
    assert (a = 2)%nat as -> by (unfold maxProxyAttempts in *; lia). done.
Qed.
End fetch_proof.

(** ** Longest prefix *)

Lemma match_loop_spec path pre routes best bestLen :
  (match best with
   | None => bestLen = -1 ∧ ∀ j r, pre !! j = Some r → String.prefix (PathPrefix (cr_route r)) path = false
   | Some i => ∃ r, pre !! i = Some r ∧ String.prefix (PathPrefix (cr_route r)) path = true ∧
       bestLen = Z.of_nat (String.length (PathPrefix (cr_route r))) ∧
       ∀ j r', pre !! j = Some r' → String.prefix (PathPrefix (cr_route r')) path = true →
         (Z.of_nat (String.length (PathPrefix (cr_route r'))) < bestLen ∨
          Z.of_nat (String.length (PathPrefix (cr_route r'))) = bestLen ∧ (i ≤ j)%nat)
   end) →
  match match_loop path routes (length pre) best bestLen with
  | None => ∀ j r, (pre ++ routes) !! j = Some r → String.prefix (PathPrefix (cr_route r)) path = false
  | Some i => ∃ r, (pre ++ routes) !! i = Some r ∧ String.prefix (PathPrefix (cr_route r)) path = true ∧
       ∀ j r', (pre ++ routes) !! j = Some r' → String.prefix (PathPrefix (cr_route r')) path = true →
         (String.length (PathPrefix (cr_route r')) < String.length (PathPrefix (cr_route r)) ∨
          String.length (PathPrefix (cr_route r')) = String.length (PathPrefix (cr_route r)) ∧ i ≤ j)%nat
  end.
Proof.
  revert pre best bestLen. induction routes as [|r routes IH]; intros pre best bestLen Hinv.
  - simpl. rewrite app_nil_r. destruct best as [i|]; [|naive_solver].
    destruct Hinv as (r & ? & ? & -> & H). exists r. split_and!; [done..|].
    intros j r' Hj Hp. specialize (H j r' Hj Hp). lia.
  - cbn [match_loop]. replace (pre ++ r :: routes) with ((pre ++ [r]) ++ routes) by by rewrite <- app_assoc.
    replace (S (length pre)) with (length (pre ++ [r])) by (rewrite length_app; simpl; lia).
    assert (∀ j x, (pre ++ [r]) !! j = Some x → pre !! j = Some x ∨ j = length pre ∧ x = r) as Hlk.
    { intros j x [?|[? Hj]]%lookup_app_Some; [by left|right].
      apply list_lookup_singleton_Some in Hj as [? ->]. split; [lia|done]. }
    destruct (String.prefix (PathPrefix (cr_route r)) path) eqn:Ep; simpl;
      [destruct (bestLen <? Z.of_nat (String.length (PathPrefix (cr_route r)))) eqn:El|]; zbool; apply IH.
    + exists r. rewrite list_lookup_middle by done. split_and!; [done..|].
      intros j r' [Hj|[-> ->]]%Hlk Hp; [|right; split; [done|lia]]. left. destruct best as [i|].
      * destruct Hinv as (x & _ & _ & -> & H). specialize (H j r' Hj Hp). lia.
      * destruct Hinv as [_ H]. by rewrite (H j r' Hj) in Hp.
    + destruct best as [i|]; [|lia]. destruct Hinv as (x & Hx & ? & -> & H). exists x.
      split_and!; [by apply lookup_app_l_Some|done..|]. intros j r' [Hj|[-> ->]]%Hlk Hp; [eauto|].
      apply lookup_lt_Some in Hx. lia.
    + destruct best as [i|].
      * destruct Hinv as (x & Hx & ? & -> & H). exists x.
        split_and!; [by apply lookup_app_l_Some|done..|]. intros j r' [Hj|[-> ->]]%Hlk Hp; [eauto|congruence].
      * destruct Hinv as [-> H]. split; [done|]. intros j x [Hj|[-> ->]]%Hlk; eauto.
Qed.

(** ** Cached responses *)

(** Every value stored in the cache satisfies [P]. *)
Definition cache_all {V} (P : V → Prop) (c : Cache V) : Prop :=
  length (c_shards c) = defaultShardCount ∧
  ∀ s k e, s ∈ c_shards c → sh_items s !! k = Some e → P (e_value e).

Section cache_all.
Context {V E : Type} (P : V → Prop).

Lemma shard_Set_all ttl now k v (s : shard V) : P v →
  (∀ q e, sh_items s !! q = Some e → P (e_value e)) →
  ∀ q e, sh_items (shard_Set ttl now k v s) !! q = Some e → P (e_value e).
Proof.
  intros Hv Hs q e. unfold shard_Set, shard_update, shard_insert.
  repeat case_match; cbn [sh_items]; rewrite ?lookup_delete_Some, ?lookup_insert_Some; naive_solver.
Qed.

Lemma shard_op_all ttl (o : cop V E) (s : shard V) :
  (match o with CSet _ _ v | CLoad _ _ (Ok v) => P v | _ => True end) →
  (∀ q e, sh_items s !! q = Some e → P (e_value e)) →
  (∀ q e, sh_items (shard_op ttl o s).1 !! q = Some e → P (e_value e)) ∧
  match (shard_op ttl o s).2 with RGet (Some v) | RLoad (Ok v) _ => P v | _ => True end.
Proof.
  intros Ho Hs. pose proof (λ ttl now k v Hv, shard_Set_all ttl now k v s Hv Hs) as Hset.
  destruct o as [now k|now k v|now k load]; simpl.
  - unfold shard_Get. destruct (sh_items s !! k) as [e0|] eqn:Ek; [|by split].
    case_test; cbn [fst snd sh_items]; (split; [|eauto]); intros q e; rewrite ?lookup_delete_Some; naive_solver.
  - split; [by apply Hset|done].
  - unfold shard_load. destruct (sh_items s !! k) as [e0|] eqn:Ek; [case_test|].
    + cbn [fst snd sh_items]. eauto.
    + destruct load; simpl; [split; [by apply Hset|done]|by split].
    + destruct load; simpl; [split; [by apply Hset|done]|by split].
Qed.

Lemma Cache_op_all (o : cop V E) (c : Cache V) :
  (match o with CSet _ _ v | CLoad _ _ (Ok v) => P v | _ => True end) → cache_all P c →
  cache_all P (Cache_op o c).1 ∧
  ∃ r, (Cache_op o c).2 = Some r ∧
    match r with RGet (Some v) | RLoad (Ok v) _ => P v | _ => True end ∧
    match o, r with CGet _ _, RGet _ | CSet _ _ _, RSet | CLoad _ _ _, RLoad _ _ => True | _, _ => False end.
Proof.
  intros Ho [Hlen Hall]. unfold Cache_op, on_shard.
  assert (shardFor c (cop_key o) = route (cop_key o)) as -> by (unfold shardFor; by rewrite Hlen).
  destruct (lookup_lt_is_Some_2 (c_shards c) (route (cop_key o))) as [s Hs]; [rewrite Hlen; apply route_lt|].
  rewrite Hs. assert (s ∈ c_shards c) as Hin by (by eapply list_elem_of_lookup_2).
  destruct (shard_op_all (c_ttl c) o s Ho (λ q e, Hall s q e Hin)) as [Hs' Hr].
  assert (match o, (shard_op (c_ttl c) o s).2 with
    CGet _ _, RGet _ | CSet _ _ _, RSet | CLoad _ _ _, RLoad _ _ => True | _, _ => False end) as Hkind.
  { destruct o; simpl; [by destruct (shard_Get _ _ _)|done|by destruct (shard_load _ _ _ _ _) as [[??]?]]. }
  destruct (shard_op (c_ttl c) o s) as [s' r]. cbn [fst snd] in *. split; [|eauto].
  split; [simpl; by rewrite length_insert|]. intros s1 k e Hs1. simpl in Hs1.
  apply list_elem_of_lookup in Hs1 as [i Hi].
  apply list_lookup_insert_Some in Hi as [(_ & <- & _)|[_ Hi]]; [apply Hs'|].
  apply Hall. by eapply list_elem_of_lookup_2.
Qed.
End cache_all.

Definition below_500 (r : cachedResponse) : Prop := r_status r < 500.

(** ** The state of a gateway between requests *)

Record gateway_ok {L} (g : Gateway L) : Prop := {
  go_routes : ∀ i cr, g_routes g !! i = Some cr → route_ok 3 cr;
  go_cache : cache_all below_500 (g_cache g) }.

Section gateway_proof.
Context {L C : Type} (env : Env L C) (Hrnd : intn_ok (e_rnd env)).

(** A handler leaves no connection and no buffer behind and does not panic. *)
Definition clean (cr cr' : compiledRoute) (live live' : Z) (rep : reply) : Prop :=
  live' = live ∧ backends (cr_pool cr') = backends (cr_pool cr) ∧ cr_route cr' = cr_route cr ∧ rep ≠ Crash.

Lemma run_fetch_ok key cr live : route_ok 3 cr →
  fetch_post (e_proxy env) 3 0 cr live (run_fetch env key cr live).
Proof. intros Hok. by apply fetch_loop_ok. Qed.

Lemma rec_release_live rec live : is_Some (rec_body rec) → (rec_release rec (live + 1)).2 = live.
Proof. intros [s Hs]. unfold rec_release. rewrite Hs. simpl. lia. Qed.

Lemma proxyDirect_clean key cr live : route_ok 3 cr →
  let '(cr', live', rep) := proxyDirect env key cr live in clean cr cr' live live' rep.
Proof.
  intros Hok. pose proof (run_fetch_ok key cr live Hok) as H. unfold proxyDirect.
  destruct (run_fetch env key cr live) as [[[cr' live'] [rec|e|]] n];
    destruct H as (Hr & Hb & _ & _ & _ & _ & _ & H); [| |done].
  - destruct H as (-> & Hbody & _). pose proof (rec_release_live rec live Hbody).
    destruct (rec_release rec (live + 1)). by split_and!.
  - by split_and!.
Qed.

Lemma load_response_clean key cr live : route_ok 3 cr →
  match load_response env key cr live with
  | (cr', live', Some res) => clean cr cr' live live' (http_Error 502 "") ∧
      match res with Ok resp => below_500 resp | Err _ => True end
  | (_, _, None) => False
  end.
Proof.
  intros Hok. pose proof (run_fetch_ok key cr live Hok) as H. unfold load_response.
  destruct (run_fetch env key cr live) as [[[cr' live'] [rec|e|]] n];
    destruct H as (Hr & Hb & _ & _ & _ & _ & _ & H); [| |done].
  - destruct H as (-> & Hbody & _). pose proof (rec_release_live rec live Hbody).
    destruct (rec_release rec (live + 1)). simpl in *. split; [by split_and!|].
    case_test; zbool; unfold below_500; simpl; [done|lia].
  - split; [by split_and!|done].
Qed.

Lemma serveCacheable_clean r key cr cache live : route_ok 3 cr → cache_all below_500 cache →
  let '(cr', cache', live', rep) := serveCacheable env r key cr cache live in
  clean cr cr' live live' rep ∧ cache_all below_500 cache' ∧
  ∃ resp, rep = Reply resp ∧ (below_500 resp ∨ r_status resp = 502).
Proof.
  intros Hok Hc. unfold serveCacheable.
  destruct (Cache_op_all (E := gw_error) below_500 (CGet (e_now env) (q_url r)) cache I Hc)
    as (Hc1 & res & Hres & HP & Hk).
  assert (∃ c1 o, Cache_Get (e_now env) (q_url r) cache = (c1, o) ∧ cache_all below_500 c1 ∧
    match o with Some v => below_500 v | None => True end) as (c1 & o & -> & Hc1' & Ho).
  { unfold Cache_op in *. unfold Cache_Get, on_shard in *. cbn [cop_key shard_op] in *.
    destruct (c_shards cache !! shardFor cache (q_url r)) as [s|]; [|done].
    destruct (shard_Get (e_now env) (q_url r) s) as [s' x]. cbn [fst snd] in *. simplify_eq.
    by eexists _, _. }
  destruct o as [resp|].
  { split_and!; [by split_and!|done|]. eexists. split; [done|]. by left. }
  pose proof (load_response_clean key cr live Hok) as Hload.
  destruct (load_response env key cr live) as [[cr' live'] [lres|]]; [|done].
  destruct Hload as [Hcl Hb].
  destruct (Cache_op_all below_500 (CLoad (e_now2 env) (q_url r) lres) c1) as (Hc2 & res2 & Hres2 & HP2 & Hk2);
    [by destruct lres|done|].
  destruct (Cache_op (CLoad (e_now2 env) (q_url r) lres) c1) as [c2 x]. cbn [fst snd] in *. subst x.
  destruct res2 as [?| |[resp|e] called]; [done|done| |].
  - split_and!; [|done|eexists; split; [done|by left]]. destruct called, Hcl as (-> & ? & ? & ?); by split_and!.
  - split_and!; [|done|eexists; split; [done|by right]]. destruct called, Hcl as (-> & ? & ? & ?); by split_and!.
Qed.
End gateway_proof.

(** ** Main results *)

(** [fetch] returns every connection it picked, sends at most three
requests, keeps exactly one pooled buffer when it returns a recorder and none
otherwise, and the recorder it returns has a status below 500 or is the third
attempt's; it does not panic. *)
Theorem fetch_correct (cfg : Config) (proxy : nat → Backend → option cachedResponse) (clock : nat → Z)
    (rnd : Z → Z) (key : string) (cr : compiledRoute) (live : Z) :
  intn_ok rnd → route_ok 3 cr →
  let '(cr', live', out, n) := fetch cfg proxy clock rnd key cr live in
  backends (cr_pool cr') = backends (cr_pool cr) ∧ (n ≤ 3)%nat ∧
  match out with
  | FPanic => False
  | FErr _ => live' = live
  | FRec rec => live' = live + 1 ∧ is_Some (rec_body rec) ∧ (1 ≤ n)%nat ∧
      (500 ≤ rec_status rec → ∃ b, b ∈ backends (cr_pool cr) ∧
        rec = serve_into (proxy 2%nat (add_conns 1 b)) (newResponseRecorder 0).1)
  end.
Proof.
  intros Hrnd Hok. pose proof (fetch_loop_ok cfg proxy clock rnd key Hrnd 3 0 cr live None eq_refl Hok) as H.
  unfold fetch. destruct (fetch_loop _ _ _ _ _ _ _ _ _ _) as [[[cr' live'] out] n].
  by destruct H as (_ & ? & _ & _ & _ & _ & ? & ?).
Qed.

Definition demo_route : compiledRoute :=
  compile_route DefaultConfig (mkRoute "/pay" false false)
    (mkPool RoundRobin [NewBackend "b0" "h0" 1; NewBackend "b1" "h1" 1] 0 []).

Lemma demo_route_ok : route_ok 3 demo_route.
Proof.
  split; simpl; try lia; try done.
  - intros [|[|j]] b Hb; simplify_eq/=; lia.
  - intros [|[|j]] b Hb; simplify_eq/=; lia.
  - intros [|[|j]] b Hb; simplify_eq/=; by eexists.
Defined.

(** Two failing backends: three requests, and the third reply is kept. *)
Lemma fetch_correct_witness :
  let '(cr', live', out, n) :=
    fetch DefaultConfig (fun a b => Some (mkResp 503 [] "x")) (fun _ => 0) (fun _ => 0) "k" demo_route 0 in
  n = 3%nat ∧ live' = 1 ∧ backends (cr_pool cr') = backends (cr_pool demo_route).
Proof.
  pose proof (fetch_correct DefaultConfig (fun a b => Some (mkResp 503 [] "x")) (fun _ => 0) (fun _ => 0)
    "k" demo_route 0 ltac:(intros n; lia) demo_route_ok) as H.
  destruct (fetch _ _ _ _ _ _ _) as [[[cr' live'] out] n] eqn:Ef.
  assert (n = (fetch DefaultConfig (fun a b => Some (mkResp 503 [] "x")) (fun _ => 0) (fun _ => 0) "k" demo_route 0).2) as Hn by by rewrite Ef.
  assert (live' = (fetch DefaultConfig (fun a b => Some (mkResp 503 [] "x")) (fun _ => 0) (fun _ => 0) "k" demo_route 0).1.1.2) as Hl by by rewrite Ef.
  split_and!; [by rewrite Hn; vm_compute|by rewrite Hl; vm_compute|apply H].
Defined.

(** Routing takes the longest matching prefix, the first of equal ones,
and answers not found exactly when no prefix matches. *)
Theorem matchRoute_longest (path : string) (routes : list compiledRoute) :
  match matchRoute path routes with
  | None => ∀ j r, routes !! j = Some r → String.prefix (PathPrefix (cr_route r)) path = false
  | Some i => ∃ r, routes !! i = Some r ∧ String.prefix (PathPrefix (cr_route r)) path = true ∧
       ∀ j r', routes !! j = Some r' → String.prefix (PathPrefix (cr_route r')) path = true →
         (String.length (PathPrefix (cr_route r')) < String.length (PathPrefix (cr_route r)) ∨
          String.length (PathPrefix (cr_route r')) = String.length (PathPrefix (cr_route r)) ∧ i ≤ j)%nat
  end.
Proof. apply (match_loop_spec path [] routes None (-1)). split; [done|]. by intros j r Hj. Qed.

(** What a request that changes anything has passed. *)
Lemma Handler_passed {L C : Type} (env : Env L C) (r : Request) (g : Gateway L) :
  let g' := (Handler env r g).1 in
  (g_routes g', g_cache g', g_live g') ≠ (g_routes g, g_cache g, g_live g) →
  waf_check (e_patterns env) (e_waf env) r = None ∧
  ∃ i cr, matchRoute (q_path r) (g_routes g) = Some i ∧ g_routes g !! i = Some cr ∧
    (∀ l, g_limiter g = Some l → (e_limit env (e_clientKey env r) l).2 = true) ∧
    (RequireAuth (cr_route cr) = true → ∃ c, auth_check (e_verify env) r = Ok c).
Proof.
  intros g'. unfold g', Handler. destruct (waf_check _ _ r); [done|]. unfold serveHTTP.
  destruct (matchRoute (q_path r) (g_routes g)) as [i|]; [|done].
  destruct (g_limiter g) as [l|].
  - destruct (e_limit env (e_clientKey env r) l) as [l' [|]] eqn:El; [|done]. simpl.
    destruct (g_routes g !! i) as [cr|] eqn:Hi; [|done].
    destruct (RequireAuth (cr_route cr)) eqn:Ea; [destruct (auth_check _ r) as [c|] eqn:Ec; [|done]|];
      intros _; (split; [done|]); exists i, cr; split_and!; try done; intros; simplify_eq; try done;
      try (by rewrite El); try congruence; eauto.
  - simpl. destruct (g_routes g !! i) as [cr|] eqn:Hi; [|done].
    destruct (RequireAuth (cr_route cr)) eqn:Ea; [destruct (auth_check _ r) as [c|] eqn:Ec; [|done]|];
      intros _; (split; [done|]); exists i, cr; split_and!; try done; intros; try congruence; eauto.
Qed.

(** The guards hold: a request changes the routes, the cache or the
buffers only if the WAF passed it, a route matched, the rate limiter granted
it and, on a protected route, its token was verified. *)
Theorem Handler_guards {L C : Type} (env : Env L C) (r : Request) (g : Gateway L) :
  let g' := (Handler env r g).1 in
  (g_routes g', g_cache g', g_live g') ≠ (g_routes g, g_cache g, g_live g) →
  waf_check (e_patterns env) (e_waf env) r = None ∧
  ∃ i cr, matchRoute (q_path r) (g_routes g) = Some i ∧ g_routes g !! i = Some cr ∧
    (∀ l, g_limiter g = Some l → (e_limit env (e_clientKey env r) l).2 = true) ∧
    (RequireAuth (cr_route cr) = true → ∃ c, auth_check (e_verify env) r = Ok c).
Proof. apply Handler_passed. Qed.

Definition demo_env (ok : bool) : Env unit unit :=
  mkEnv _ _ DefaultConfig DefaultWAFConfig [] (fun t => if String.eqb t "good" then Some () else None)
    (fun _ l => (l, ok)) (fun _ => "client") (fun _ _ => Some (mkResp 200 [] "hi")) (fun _ => 0) (fun _ => 0) 0 0.

Definition demo_gateway (auth : bool) : Gateway unit :=
  mkGateway [compile_route DefaultConfig (mkRoute "/pay" false auth) (cr_pool demo_route)]
    (newCache 10 60) (Some ()) 0.

Definition demo_request : Request := mkReq "POST" "/pay/1" "/pay/1" [] 2 "Bearer good".

Lemma Handler_guards_witness :
  ∃ i cr, matchRoute "/pay/1" (g_routes (demo_gateway true)) = Some i ∧
    g_routes (demo_gateway true) !! i = Some cr ∧
    (RequireAuth (cr_route cr) = true → ∃ c, auth_check (e_verify (demo_env true)) demo_request = Ok c).
Proof.
  cut ((g_routes (Handler (demo_env true) demo_request (demo_gateway true)).1,
        g_cache (Handler (demo_env true) demo_request (demo_gateway true)).1,
        g_live (Handler (demo_env true) demo_request (demo_gateway true)).1) ≠
       (g_routes (demo_gateway true), g_cache (demo_gateway true), g_live (demo_gateway true))).
  { intros Hne. destruct (Handler_guards (demo_env true) demo_request (demo_gateway true) Hne)
      as (_ & i & cr & ? & ? & _ & ?). by exists i, cr. }
  intros Heq. apply (f_equal (fun t => rrCounter <$> (cr_pool <$> t.1.1))) in Heq.
  by vm_compute in Heq.
Defined.

(** No request leaks: on a gateway in order every request is answered
without a panic, all connections and buffers are back afterwards, upstream
errors are never cached, and a cacheable GET is answered with a reply below
500 or the gateway's own 502. *)
Theorem Handler_no_leak {L C : Type} (env : Env L C) (r : Request) (g : Gateway L) :
  intn_ok (e_rnd env) → gateway_ok g →
  let '(g', rep) := Handler env r g in
  rep ≠ Crash ∧ g_live g' = g_live g ∧ cache_all below_500 (g_cache g') ∧
  (∀ i cr, g_routes g !! i = Some cr → ∃ cr', g_routes g' !! i = Some cr' ∧
    cr_route cr' = cr_route cr ∧ backends (cr_pool cr') = backends (cr_pool cr)) ∧
  (∀ i cr resp, matchRoute (q_path r) (g_routes g) = Some i → g_routes g !! i = Some cr →
    q_method r = "GET" → Cacheable (cr_route cr) = true → rep = Reply resp →
    r_status resp < 500 ∨ r_status resp = 502).
Proof.
  intros Hrnd [Hroutes Hcache]. unfold Handler.
  assert (∀ (g' : Gateway L) rep, g_routes g' = g_routes g → g_cache g' = g_cache g → g_live g' = g_live g →
    (∃ resp, rep = Reply resp ∧ r_status resp < 500) →
    rep ≠ Crash ∧ g_live g' = g_live g ∧ cache_all below_500 (g_cache g') ∧
    (∀ i cr, g_routes g !! i = Some cr → ∃ cr', g_routes g' !! i = Some cr' ∧
      cr_route cr' = cr_route cr ∧ backends (cr_pool cr') = backends (cr_pool cr)) ∧
    (∀ i cr resp, matchRoute (q_path r) (g_routes g) = Some i → g_routes g !! i = Some cr →
      q_method r = "GET" → Cacheable (cr_route cr) = true → rep = Reply resp →
      r_status resp < 500 ∨ r_status resp = 502)) as Hearly.
  { intros g' rep -> -> -> (resp & -> & Hlt). split_and!; try done; [by eauto|].
    intros ? ? ? _ _ _ _ [= <-]. by left. }
  destruct (waf_check _ _ r) as [st|] eqn:Ew.
  { apply Hearly; try done. eexists. split; [done|]. unfold waf_check in Ew.
    repeat case_test; simplify_eq; simpl; lia. }
  unfold serveHTTP. pose proof (match_loop_spec (q_path r) [] (g_routes g) None (-1)
    ltac:(split; [done|by intros j x Hj])) as Hm.
  change (match_loop (q_path r) (g_routes g) (length []) None (-1)) with (matchRoute (q_path r) (g_routes g)) in Hm.
  destruct (matchRoute (q_path r) (g_routes g)) as [i|] eqn:Em; [|apply Hearly; try done; by eexists].
  destruct Hm as (cr & Hi & _ & _). simpl in Hi. pose proof (Hroutes i cr Hi) as Hok.
  destruct (match g_limiter g with None => _ | Some l => _ end) as [lim ok].
  destruct ok; simpl; [|apply Hearly; try done; by eexists]. rewrite Hi.
  destruct (if RequireAuth (cr_route cr) then _ else _) as [msg|]; [apply Hearly; try done; by eexists|].
  assert (let '(cr', cache', live', rep) := route_handler env r cr (g_cache g) (g_live g) in
    clean cr cr' (g_live g) live' rep ∧ cache_all below_500 cache' ∧
    (q_method r = "GET" → Cacheable (cr_route cr) = true →
      ∃ resp, rep = Reply resp ∧ (below_500 resp ∨ r_status resp = 502))) as Hh.
  { unfold route_handler. destruct (String.eqb (q_method r) "GET" && Cacheable (cr_route cr)) eqn:Ec.
    - pose proof (serveCacheable_clean env Hrnd r (e_clientKey env r) cr (g_cache g) (g_live g) Hok Hcache) as H.
      destruct (serveCacheable _ _ _ _ _ _) as [[[cr' c'] l'] rep]. by destruct H as (? & ? & ?).
    - pose proof (proxyDirect_clean env Hrnd (e_clientKey env r) cr (g_live g) Hok) as H.
      destruct (proxyDirect _ _ _ _) as [[cr' l'] rep]. split_and!; [done..|]. intros HG Hc.
      by rewrite HG, Hc in Ec. }
  destruct (route_handler _ _ _ _ _) as [[[cr' c'] l'] rep].
  destruct Hh as ((-> & Hb & Hr & Hnc) & Hc & Hget). split_and!; [done|done|done| |].
  - intros j x Hj. simpl. destruct (decide (i = j)) as [->|Hne].
    + simplify_eq. exists cr'. split; [|done]. rewrite list_lookup_insert_eq; [done|]. by eapply lookup_lt_Some.
    + exists x. by rewrite list_lookup_insert_ne.
  - intros j x resp [= <-] Hx HG Hca ->. simplify_eq. destruct (Hget HG Hca) as (y & [= <-] & Hy). done.
Qed.

Lemma Handler_no_leak_witness :
  let '(g', rep) := Handler (demo_env true) demo_request (demo_gateway true) in
  rep = Reply (mkResp 200 [] "hi") ∧ g_live g' = 0.
Proof.
  assert (intn_ok (e_rnd (demo_env true))) as Hr by (intros n; simpl; lia).
  assert (gateway_ok (demo_gateway true)) as Hg.
  { split.
    - intros [|i] cr Hi; simplify_eq/=. pose proof demo_route_ok as [? ? ? ? ? ?]. by split.
    - split; [done|]. intros s k e Hs.
      cbn [demo_gateway g_cache newCache c_shards] in Hs. apply elem_of_replicate in Hs as [-> _]. done. }
  pose proof (Handler_no_leak (demo_env true) demo_request (demo_gateway true) Hr Hg) as H.
  destruct (Handler (demo_env true) demo_request (demo_gateway true)) as [g' rep] eqn:Eh.
  split; [|apply H]. change rep with ((g', rep).2). rewrite <- Eh. by vm_compute.
Defined.
