(* ===== verification/BufferPool.v ===== *)
(** * fintech-gateway-go/internal/pool: the shared body buffers

[Gateway] gives each response recorder a body of its own.  The code shares
[bytes.Buffer] objects through a [sync.Pool].  Here the buffers live on a heap
that all requests share, recorders hold pointers into it, and the steps of all
requests interleave; a simulation shows that the recorders of [Gateway] are
what every request observes. *)

From Stdlib Require Import ZArith Lia Ascii String.
From stdpp Require Import base gmap strings list relations.
From S2P Require Import Prelude Gateway.
Open Scope string_scope.
Open Scope Z_scope.

(* [base] fintech-gateway-go/internal *)

(** A buffer: the bytes written since its last reset, and its capacity. *)
Record buffer : Type := mkBuf { b_data : string; b_cap : Z }.

(* [go] pool/buffer.go:14-14 defaultBufferCapacity *)
Definition defaultBufferCapacity : Z := 4096.

(* [go] pool/buffer.go:33-33 maxPooledCapacity *)
Definition maxPooledCapacity : Z := 64 * 1024.

(** The heap, the pointers in the pool, and the next pointer to allocate. *)
(* [go] pool/buffer.go:16-20 bufPool *)
Record pool : Type := mkPool { heap : gmap nat buffer; pooled : gset nat; fresh : nat }.

(** [sync.Pool.Get] hands out any pooled buffer, or a new one; [choice] says
which. *)
(* [go] pool/buffer.go:24-26 Get *)
Definition Get (choice : option nat) (p : pool) : nat * pool :=
  match choice with
  | Some l => (l, mkPool (heap p) (pooled p ∖ {[l]}) (fresh p))
  | None => (fresh p, mkPool (<[fresh p := mkBuf "" defaultBufferCapacity]> (heap p)) (pooled p) (S (fresh p)))
  end.

(* [go] pool/buffer.go:32-39 Put *)
Definition Put (l : nat) (p : pool) : pool :=
  match heap p !! l with
  | None => p
  | Some b =>
      if maxPooledCapacity <? b_cap b then p
      else mkPool (<[l := mkBuf "" (b_cap b)]> (heap p)) ({[l]} ∪ pooled p) (fresh p)
  end.

(** [bytes.Buffer.Write]: the bytes are appended, in a larger array if need be. *)
Definition buf_write (s : string) (grown : Z) (b : buffer) : buffer :=
  let data := b_data b +:+ s in
  mkBuf data (if Z.of_nat (String.length data) <=? b_cap b then b_cap b
              else Z.max grown (Z.of_nat (String.length data))).

(** The recorders of all requests: each its pointer, [None] once released, and
the recorder of [Gateway] it stands for. *)
Record system : Type := mkSystem { sy_pool : pool; sy_recs : gmap nat (option nat * responseRecorder) }.

(** [i] is the request; a released recorder is not written. *)
Inductive bstep : system → system → Prop :=
| b_new p rs i choice l p' :
    rs !! i = None → (∀ l, choice = Some l → l ∈ pooled p) → Get choice p = (l, p') →
    bstep (mkSystem p rs) (mkSystem p' (<[i := (Some l, (newResponseRecorder 0).1)]> rs))
| b_header p rs i o r code :
    rs !! i = Some (o, r) → bstep (mkSystem p rs) (mkSystem p (<[i := (o, WriteHeader code r)]> rs))
| b_write p rs i l r s grown :
    rs !! i = Some (Some l, r) →
    bstep (mkSystem p rs)
      (mkSystem (mkPool (alter (buf_write s grown) l (heap p)) (pooled p) (fresh p)) (<[i := (Some l, Write s r)]> rs))
| b_release p rs i o r :
    rs !! i = Some (o, r) →
    bstep (mkSystem p rs)
      (mkSystem (match o with Some l => Put l p | None => p end) (<[i := (None, (rec_release r 0).1)]> rs))
| b_collect p rs ls : bstep (mkSystem p rs) (mkSystem (mkPool (heap p) (pooled p ∖ ls) (fresh p)) rs).

Definition start : system := mkSystem (mkPool ∅ ∅ 0) ∅.

(** ** Invariant *)

Record binv (s : system) : Prop := {
  bi_heap : ∀ l, is_Some (heap (sy_pool s) !! l) ↔ (l < fresh (sy_pool s))%nat;
  bi_pooled : ∀ l, l ∈ pooled (sy_pool s) →
    ∃ b, heap (sy_pool s) !! l = Some b ∧ b_data b = "" ∧ b_cap b ≤ maxPooledCapacity;
  bi_held : ∀ i l r, sy_recs s !! i = Some (Some l, r) → l ∉ pooled (sy_pool s) ∧
    ∃ b, heap (sy_pool s) !! l = Some b ∧ rec_body r = Some (b_data b);
  bi_excl : ∀ i j l r r', sy_recs s !! i = Some (Some l, r) → sy_recs s !! j = Some (Some l, r') → i = j;
  bi_done : ∀ i r, sy_recs s !! i = Some (None, r) → rec_body r = None }.

Lemma WriteHeader_body code r : rec_body (WriteHeader code r) = rec_body r.
Proof. unfold WriteHeader. by case_test. Qed.

Lemma Write_body s r : rec_body (Write s r) = (fun t => t +:+ s) <$> rec_body r.
Proof. unfold Write. simpl. f_equal. case_test; [done|apply WriteHeader_body]. Qed.

Lemma release_body r n : rec_body (rec_release r n).1 = None.
Proof. unfold rec_release. by destruct (rec_body r) eqn:E. Qed.

(** Splits the lookup of a recorder after one was replaced. *)
Ltac split_rec H := apply lookup_insert_Some in H as [[? ?]|[? H]]; simplify_eq.

Lemma new_binv p rs i choice l p' : binv (mkSystem p rs) → rs !! i = None →
  (∀ l, choice = Some l → l ∈ pooled p) → Get choice p = (l, p') →
  binv (mkSystem p' (<[i := (Some l, (newResponseRecorder 0).1)]> rs)).
Proof.
  intros [Hh Hp Hl Hx Hd] Hi Hc He. cbn [sy_pool sy_recs] in *.
  assert (l ∉ pooled p' ∧ (∃ b, heap p' !! l = Some b ∧ b_data b = "") ∧ (∀ j r, rs !! j ≠ Some (Some l, r)) ∧
    pooled p' ⊆ pooled p ∧ (∀ j b, heap p !! j = Some b → heap p' !! j = Some b) ∧
    (∀ j, is_Some (heap p' !! j) ↔ (j < fresh p')%nat)) as (H1 & (b & Hb & Hb0) & H3 & H4 & H5 & H6).
  { destruct choice as [l0|]; simplify_eq/=.
    - pose proof (Hc _ eq_refl) as Hin. destruct (Hp _ Hin) as (b & Hb & ? & _).
      split_and!; [set_solver|eauto| |set_solver|done|done]. intros j r Hj. by destruct (Hl _ _ _ Hj).
    - assert (heap p !! fresh p = None) as Hn by (apply eq_None_not_Some; rewrite Hh; lia).
      assert (fresh p ∉ pooled p) as Hnp by (intros Hin; destruct (Hp _ Hin) as (? & Hb & _); congruence).
      split_and!; [done|exists (mkBuf "" defaultBufferCapacity); by rewrite lookup_insert_eq| |done| |].
      + intros j r Hj. destruct (Hl _ _ _ Hj) as (_ & b & Hb & _). congruence.
      + intros j b Hb. rewrite lookup_insert_ne; [done|congruence].
      + intros j. rewrite lookup_insert. case_decide as Hj; [subst; split; [lia|by eexists]|]. rewrite Hh. lia. }
  constructor; cbn [sy_pool sy_recs].
  - done.
  - intros j Hj. destruct (Hp j) as (b' & Hb' & ?); [set_solver|]. exists b'. auto.
  - intros j m r Hj. split_rec Hj.
    + split; [done|]. exists b. split; [done|]. by rewrite Hb0.
    + destruct (Hl _ _ _ Hj) as (Hnp & b' & Hb' & ?). split; [set_solver|]. exists b'. auto.
  - intros j k m r r' Hj Hk. split_rec Hj; split_rec Hk; [done|by destruct (H3 k r')|by destruct (H3 j r)|by eapply Hx].
  - intros j r Hj. split_rec Hj. by eapply Hd.
Qed.

Lemma write_binv p rs i l r s grown : binv (mkSystem p rs) → rs !! i = Some (Some l, r) →
  binv (mkSystem (mkPool (alter (buf_write s grown) l (heap p)) (pooled p) (fresh p)) (<[i := (Some l, Write s r)]> rs)).
Proof.
  intros [Hh Hp Hl Hx Hd] Hi. cbn [sy_pool sy_recs] in *. destruct (Hl _ _ _ Hi) as (Hnp & b & Hb & Hr).
  constructor; cbn [sy_pool sy_recs heap pooled fresh].
  - intros j. rewrite <- Hh. destruct (decide (l = j)) as [<-|Hne];
      [rewrite lookup_alter_eq, Hb; by split; eexists|by rewrite lookup_alter_ne].
  - intros j Hj. rewrite lookup_alter_ne; [by apply Hp|congruence].
  - intros j m r' Hj. split_rec Hj.
    + split; [done|]. exists (buf_write s grown b). rewrite lookup_alter_eq, Hb. split; [done|].
      by rewrite Write_body, Hr.
    + destruct (Hl _ _ _ Hj) as (Hnp' & b' & Hb' & ?). split; [done|]. exists b'. split; [|done].
      rewrite lookup_alter_ne; [done|]. intros <-. apply H. by eapply Hx.
  - intros j k m r1 r2 Hj Hk. split_rec Hj; split_rec Hk; eauto.
  - intros j r' Hj. split_rec Hj. by eapply Hd.
Qed.

Lemma Put_cases l p b : heap p !! l = Some b →
  (∀ j, j ≠ l → heap (Put l p) !! j = heap p !! j) ∧ fresh (Put l p) = fresh p ∧ is_Some (heap (Put l p) !! l) ∧
  (pooled (Put l p) = pooled p ∨
   pooled (Put l p) = {[l]} ∪ pooled p ∧ ∃ b', heap (Put l p) !! l = Some b' ∧ b_data b' = "" ∧ b_cap b' ≤ maxPooledCapacity).
Proof.
  intros Hb. unfold Put. rewrite Hb. case_test; zbool; [by split_and!; [done..|eexists|left]|].
  cbn [heap pooled fresh]. split_and!; [intros j Hj; by rewrite lookup_insert_ne|done|by rewrite lookup_insert_eq|].
  right. split; [done|]. eexists. by rewrite lookup_insert_eq.
Qed.

Lemma release_binv p rs i o r : binv (mkSystem p rs) → rs !! i = Some (o, r) →
  binv (mkSystem (match o with Some l => Put l p | None => p end) (<[i := (None, (rec_release r 0).1)]> rs)).
Proof.
  intros [Hh Hp Hl Hx Hd] Hi. cbn [sy_pool sy_recs] in *. destruct o as [l|].
  - destruct (Hl _ _ _ Hi) as (Hnp & b & Hb & Hr). destruct (Put_cases l p b Hb) as (Hoth & Hf & Hsome & Hpl).
    constructor; cbn [sy_pool sy_recs].
    + intros j. rewrite Hf. destruct (decide (j = l)) as [->|Hne]; [|by rewrite Hoth].
      split; [intros _; apply Hh; by eexists|done].
    + intros j Hj. destruct (decide (j = l)) as [->|Hne].
      * destruct Hpl as [Hpl|[_ ?]]; [by rewrite Hpl in Hj|done].
      * rewrite Hoth by done. apply Hp. destruct Hpl as [Hpl|[Hpl _]]; rewrite Hpl in Hj; set_solver.
    + intros j m r' Hj. split_rec Hj. destruct (Hl _ _ _ Hj) as (Hnp' & b' & ? & ?).
      assert (m ≠ l) as Hne by (intros ->; apply H; by eapply Hx). rewrite Hoth by done. split; [|eauto].
      destruct Hpl as [Hpl|[Hpl _]]; rewrite Hpl; set_solver.
    + intros j k m r1 r2 Hj Hk. split_rec Hj; split_rec Hk. by eapply Hx.
    + intros j r' Hj. split_rec Hj; [apply release_body|by eapply Hd].
  - constructor; cbn [sy_pool sy_recs]; [done|done| | |].
    + intros j m r' Hj. split_rec Hj. by eapply Hl.
    + intros j k m r1 r2 Hj Hk. split_rec Hj; split_rec Hk. by eapply Hx.
    + intros j r' Hj. split_rec Hj; [apply release_body|by eapply Hd].
Qed.

Lemma bstep_binv s s' : binv s → bstep s s' → binv s'.
Proof.
  intros Hinv Hs. destruct Hs as [p rs i choice l p' Hi Hc He|p rs i o r code Hi|p rs i l r t grown Hi|p rs i o r Hi|p rs ls].
  - by eapply new_binv.
  - destruct Hinv as [Hh Hp Hl Hx Hd]. constructor; cbn [sy_pool sy_recs] in *; [done|done| | |].
    + intros j m r' Hj. split_rec Hj; [rewrite WriteHeader_body|]; by eapply Hl.
    + intros j k m r1 r2 Hj Hk. split_rec Hj; split_rec Hk; eauto.
    + intros j r' Hj. split_rec Hj; [rewrite WriteHeader_body|]; by eapply Hd.
  - by apply write_binv.
  - by apply release_binv.
  - destruct Hinv as [Hh Hp Hl Hx Hd]. constructor; cbn [sy_pool sy_recs heap pooled fresh] in *; try done.
    + intros l Hl'. apply Hp. set_solver.
    + intros i l r Hi. destruct (Hl _ _ _ Hi) as [? ?]. split; [set_solver|done].
Qed.

Lemma start_binv : binv start.
Proof.
  constructor; cbn; intros; try set_solver; try by rewrite lookup_empty in *.
  rewrite lookup_empty. split; [by intros []|lia].
Qed.

(** C11: Sharing the buffers cannot be observed.  However the requests interleave,
and whatever the runtime drops from the pool: the buffer a recorder holds
contains exactly what [Gateway]'s recorder of that request holds, no other
recorder holds it and it is not in the pool, a released recorder has no body,
and a buffer in the pool is empty and at most 64 KiB large. *)
Theorem Recorders_isolated (s : system) : rtc bstep start s →
  (∀ i l r, sy_recs s !! i = Some (Some l, r) →
     l ∉ pooled (sy_pool s) ∧ (∃ b, heap (sy_pool s) !! l = Some b ∧ rec_body r = Some (b_data b)) ∧
     ∀ j r', sy_recs s !! j = Some (Some l, r') → j = i) ∧
  (∀ i r, sy_recs s !! i = Some (None, r) → rec_body r = None) ∧
  (∀ l, l ∈ pooled (sy_pool s) → ∃ b, heap (sy_pool s) !! l = Some b ∧ b_data b = "" ∧ b_cap b ≤ maxPooledCapacity).
Proof.
  intros Hs. assert (binv s) as [Hh Hp Hl Hx Hd].
  { eapply rtc_invariant; [apply bstep_binv|exact Hs|apply start_binv]. }
  split_and!; [|done|done]. intros i l r Hi. destruct (Hl _ _ _ Hi). split_and!; [done..|].
  intros j r' Hj. by eapply Hx.
Qed.

(** ** Witness: the second request gets the buffer of the first *)

Definition demo_rec : responseRecorder := (newResponseRecorder 0).1.

Definition demo1 : system := mkSystem (mkPool {[0%nat := mkBuf "" 4096]} ∅ 1) {[0%nat := (Some 0%nat, demo_rec)]}.
Definition demo2 : system :=
  mkSystem (mkPool {[0%nat := mkBuf "secret" 4096]} ∅ 1) {[0%nat := (Some 0%nat, Write "secret" demo_rec)]}.
Definition demo3 : system :=
  mkSystem (mkPool {[0%nat := mkBuf "" 4096]} {[0%nat]} 1) {[0%nat := (None, (rec_release (Write "secret" demo_rec) 0).1)]}.
Definition demo4 : system :=
  mkSystem (mkPool {[0%nat := mkBuf "" 4096]} ∅ 1)
    {[0%nat := (None, (rec_release (Write "secret" demo_rec) 0).1); 1%nat := (Some 0%nat, demo_rec)]}.

Lemma demo_run : rtc bstep start demo4.
Proof.
  eapply (rtc_l _ _ demo1); [by apply (b_new _ _ 0%nat None)|].
  eapply (rtc_l _ _ demo2).
  { assert (demo2 = mkSystem (mkPool (alter (buf_write "secret" 0) 0%nat (heap (sy_pool demo1))) ∅ 1)
      (<[0%nat := (Some 0%nat, Write "secret" demo_rec)]> (sy_recs demo1))) as -> by (vm_compute; reflexivity).
    by apply (b_write (sy_pool demo1) (sy_recs demo1) 0%nat 0%nat demo_rec). }
  eapply (rtc_l _ _ demo3).
  { assert (demo3 = mkSystem (Put 0%nat (sy_pool demo2))
      (<[0%nat := (None, (rec_release (Write "secret" demo_rec) 0).1)]> (sy_recs demo2))) as -> by (vm_compute; reflexivity).
    by apply (b_release (sy_pool demo2) (sy_recs demo2) 0%nat (Some 0%nat)). }
  apply rtc_once.
  assert (demo4 = mkSystem (Get (Some 0%nat) (sy_pool demo3)).2
    (<[1%nat := (Some 0%nat, demo_rec)]> (sy_recs demo3))) as -> by (vm_compute; reflexivity).
  apply (b_new (sy_pool demo3) (sy_recs demo3) 1%nat (Some 0%nat)); [done| |done].
  intros l [= <-]. cbn. set_solver.
Qed.

Lemma Recorders_isolated_witness :
  sy_recs demo4 !! 1%nat = Some (Some 0%nat, demo_rec) ∧
  ∃ b, heap (sy_pool demo4) !! 0%nat = Some b ∧ rec_body demo_rec = Some (b_data b).
Proof.
  split; [done|]. destruct (Recorders_isolated demo4 demo_run) as [H _].
  destruct (H 1%nat 0%nat demo_rec) as (_ & Hb & _); [done|exact Hb].
Defined.
