(* ===== verification/RateLimit.v ===== *)
(** * fintech-gateway-go/internal/ratelimit: the sharded token bucket

[limiter.go]: buckets in shards chosen by FNV-1a, refilled by elapsed time, with a
sweeper that evicts idle buckets shard by shard.  The rate is the fraction
[l_num / l_den] tokens per second and levels are kept exactly, in units of
[1 / (l_den * 10 ^ 9)] of a token; the source computes them in float64. *)

From Stdlib Require Import ZArith Lia.
From stdpp Require Import base gmap strings list fin_maps.
From S2P Require Import Prelude.

Open Scope Z_scope.

(* [base] fintech-gateway-go/internal/ratelimit *)

(* [go] limiter.go:20-23 bucket *)
Record bucket : Type := mkBucket { b_tokens : Z; b_lastSeen : Z }.

(* [go] limiter.go:39-48 Limiter *)
Record Limiter : Type := mkLimiter {
  l_num : Z; l_den : Z; l_burst : Z; l_idleTTL : Z; l_shards : list (gmap string bucket) }.

(* [go] limiter.go:18-18 defaultShardCount *)
Definition defaultShardCount : nat := 256.

Definition second : Z := 10 ^ 9.
Definition minute : Z := 60 * second.

(** One token, in the unit of the levels. *)
Definition token (l : Limiter) : Z := l_den l * second.

(* [go] limiter.go:62-82 newWithClock *)
Definition newWithClock (num den burst : Z) : Limiter :=
  let idleTTL := i64 (Z.quot (burst * 4 * den) num * second) in
  let idleTTL := if idleTTL <? minute then minute else idleTTL in
  mkLimiter num den burst idleTTL (replicate defaultShardCount ∅).

(* [go] limiter.go:121-125 shardFor *)
Definition shardFor (key : string) (l : Limiter) : nat :=
  Z.to_nat (fnv32a key mod Z.of_nat (length (l_shards l))).

(** The level of a bucket at [now]. *)
Definition level (l : Limiter) (now : Z) (b : bucket) : Z :=
  Z.min (l_burst l * token l) (b_tokens b + (now - b_lastSeen b) * l_num l).

(** The decision on a bucket and its new state. *)
(* [go] limiter.go:136-153 Allow *)
Definition take_token (l : Limiter) (now : Z) (b : option bucket) : bool * bucket :=
  match b with
  | None => (true, mkBucket ((l_burst l - 1) * token l) now)
  | Some b =>
      let tokens := level l now b in
      if tokens <? token l then (false, mkBucket tokens now) else (true, mkBucket (tokens - token l) now)
  end.

Definition with_shards (sh : list (gmap string bucket)) (l : Limiter) : Limiter :=
  mkLimiter (l_num l) (l_den l) (l_burst l) (l_idleTTL l) sh.

(* [go] limiter.go:129-153 Allow *)
Definition Allow (now : Z) (key : string) (l : Limiter) : bool * Limiter :=
  let i := shardFor key l in
  let s := default ∅ (l_shards l !! i) in
  let '(ok, b) := take_token l now (s !! key) in
  (ok, with_shards (<[i := <[key := b]> s]> (l_shards l)) l).

(** The sweep of one shard; [now] is the time at which the sweep began. *)
(* [go] limiter.go:101-112 sweep *)
Definition sweep_shard (now : Z) (i : nat) (l : Limiter) : Limiter :=
  with_shards (alter (fun s => filter (fun p => ¬ b_lastSeen p.2 < now - l_idleTTL l) s) i (l_shards l)) l.

(** ** The bucket of a key *)

Definition bucket_of (key : string) (l : Limiter) : option bucket := (l_shards l !! shardFor key l) ≫= lookup key.

(** What never changes, and at least one shard. *)
Definition same_params (l l' : Limiter) : Prop :=
  l_num l' = l_num l ∧ l_den l' = l_den l ∧ l_burst l' = l_burst l ∧ l_idleTTL l' = l_idleTTL l ∧
  length (l_shards l') = length (l_shards l).

Lemma shardFor_lt key l : l_shards l ≠ [] → (shardFor key l < length (l_shards l))%nat.
Proof.
  intros Hne. unfold shardFor. assert (0 < Z.of_nat (length (l_shards l))) as Hl by (destruct (l_shards l); [done|simpl; lia]).
  pose proof (Z.mod_pos_bound (fnv32a key) _ Hl). lia.
Qed.

Lemma shardFor_same key l l' : same_params l l' → shardFor key l' = shardFor key l.
Proof. intros (_ & _ & _ & _ & Hl). unfold shardFor. by rewrite Hl. Qed.

Lemma take_token_same l l' now b : same_params l l' → take_token l' now b = take_token l now b.
Proof. intros (H1 & H2 & H3 & H4 & H5). unfold take_token, level, token. by rewrite H1, H2, H3. Qed.

(** [Allow] decides by the key's own bucket and changes only that one. *)
Lemma Allow_spec now key l ok l' :
  l_shards l ≠ [] → Allow now key l = (ok, l') →
  same_params l l' ∧ ok = (take_token l now (bucket_of key l)).1 ∧
  ∀ k, bucket_of k l' = if decide (k = key) then Some (take_token l now (bucket_of key l)).2 else bucket_of k l.
Proof.
  intros Hne. pose proof (shardFor_lt key l Hne) as Hlt. unfold Allow.
  destruct (lookup_lt_is_Some_2 _ _ Hlt) as [s Hs]. rewrite Hs. simpl.
  assert (bucket_of key l = s !! key) as Hb by (unfold bucket_of; by rewrite Hs).
  destruct (take_token l now (s !! key)) as [ok0 b] eqn:E. intros [= <- <-].
  assert (same_params l (with_shards (<[shardFor key l:=<[key:=b]> s]> (l_shards l)) l)) as Hp.
  { split_and!; try done. simpl. apply length_insert. }
  split_and!; [exact Hp|by rewrite Hb, E|]. intros k. unfold bucket_of at 1. rewrite (shardFor_same _ _ _ Hp). simpl.
  destruct (decide (shardFor k l = shardFor key l)) as [Heq|Hneq].
  - rewrite Heq, list_lookup_insert_eq by done. simpl. rewrite lookup_insert. unfold bucket_of. rewrite Heq, Hs. simpl.
    rewrite E. simpl. repeat case_decide; congruence.
  - rewrite list_lookup_insert_ne by done. rewrite decide_False by congruence. done.
Qed.

Lemma sweep_spec now i l k :
  same_params l (sweep_shard now i l) ∧
  (bucket_of k (sweep_shard now i l) = bucket_of k l ∨
   bucket_of k (sweep_shard now i l) = None ∧ ∃ b, bucket_of k l = Some b ∧ b_lastSeen b < now - l_idleTTL l).
Proof.
  assert (same_params l (sweep_shard now i l)) as Hp by (split_and!; try done; simpl; apply length_alter).
  split; [done|]. unfold bucket_of. rewrite (shardFor_same _ _ _ Hp). simpl.
  destruct (decide (i = shardFor k l)) as [->|Hne].
  - rewrite list_lookup_alter_eq. destruct (l_shards l !! shardFor k l) as [s|]; [|by left]. simpl.
    destruct (s !! k) as [b|] eqn:Hk.
    + destruct (decide (b_lastSeen b < now - l_idleTTL l)) as [Hlt|Hge].
      * right. split; [|eauto]. apply map_lookup_filter_None. right. intros x Hx. simplify_eq. simpl. lia.
      * left. by apply map_lookup_filter_Some.
    + left. apply map_lookup_filter_None. by left.
  - rewrite list_lookup_alter_ne by done. by left.
Qed.

(** ** The limiter without the sweeper *)

(** Calls, and sweeps of single shards that began at their time. *)
Inductive lim_op : Type := LAllow (now : Z) (key : string) | LSweep (now : Z) (shard : nat).

Fixpoint lim_run (ops : list lim_op) (l : Limiter) : list bool :=
  match ops with
  | [] => []
  | LAllow now key :: ops => let '(ok, l') := Allow now key l in ok :: lim_run ops l'
  | LSweep now i :: ops => lim_run ops (sweep_shard now i l)
  end.

(** The reference: one map of buckets, and no eviction. *)
Fixpoint bucket_run (l : Limiter) (ops : list lim_op) (m : gmap string bucket) : list bool :=
  match ops with
  | [] => []
  | LAllow now key :: ops =>
      let '(ok, b) := take_token l now (m !! key) in ok :: bucket_run l ops (<[key := b]> m)
  | LSweep _ _ :: ops => bucket_run l ops m
  end.

(** The clock does not go back between calls. *)
Fixpoint in_time (now : Z) (ops : list lim_op) : Prop :=
  match ops with
  | [] => True
  | LAllow t _ :: ops => now ≤ t ∧ in_time t ops
  | LSweep t _ :: ops => in_time (Z.max now t) ops
  end.

(** A positive rate and burst, and an idle time in which a bucket refills. *)
Definition sane (l : Limiter) : Prop :=
  0 < l_num l ∧ 0 < l_den l ∧ 1 ≤ l_burst l ∧ l_burst l * token l ≤ l_idleTTL l * l_num l ∧ l_shards l ≠ [].

(** From [now] on, the bucket is as good as a new one. *)
Definition full_at (l : Limiter) (now : Z) (b : bucket) : Prop :=
  l_burst l * token l ≤ b_tokens b + (now - b_lastSeen b) * l_num l.

Definition agrees (now : Z) (l : Limiter) (m : gmap string bucket) : Prop :=
  ∀ k, bucket_of k l = m !! k ∨ (bucket_of k l = None ∧ ∃ b, m !! k = Some b ∧ full_at l now b).

Definition nonneg (m : gmap string bucket) : Prop := ∀ k b, m !! k = Some b → 0 ≤ b_tokens b.

Lemma full_later l now now' b : sane l → now ≤ now' → full_at l now b → full_at l now' b.
Proof. intros (Hn & _) Hle. unfold full_at. nia. Qed.

(** A full bucket and a missing one decide alike and become equal. *)
Lemma take_full l now b : sane l → full_at l now b → take_token l now (Some b) = take_token l now None.
Proof.
  intros (Hn & Hd & Hb & _). unfold full_at, take_token, level. intros Hf. rewrite Z.min_l by lia.
  assert (0 < token l) by (unfold token, second; lia).
  assert (token l ≤ l_burst l * token l) by nia. rewrite (proj2 (Z.ltb_ge _ _)) by lia. f_equal. f_equal. lia.
Qed.

Lemma take_nonneg l now b : sane l → (∀ x, b = Some x → 0 ≤ b_tokens x ∧ b_lastSeen x ≤ now) →
  0 ≤ b_tokens (take_token l now b).2.
Proof.
  intros (Hn & Hd & Hb & _) Hx. assert (0 < token l) by (unfold token, second; lia).
  unfold take_token. destruct b as [x|]; simpl; [|nia].
  destruct (Hx x eq_refl) as [H1 H2]. assert (0 ≤ level l now x) by (unfold level; apply Z.min_glb; nia).
  destruct (level l now x <? token l) eqn:E; zbool; simpl; lia.
Qed.

Lemma sane_same l l' : same_params l l' → sane l → sane l'.
Proof.
  intros (H1 & H2 & H3 & H4 & H5) (S1 & S2 & S3 & S4 & S5). unfold sane, token in *. rewrite H1, H2, H3, H4.
  split_and!; try done. intros E. rewrite E in H5. by destruct (l_shards l).
Qed.

Lemma agrees_same l l' now b : same_params l l' → full_at l now b → full_at l' now b.
Proof. intros (H1 & H2 & H3 & _). unfold full_at, token. by rewrite H1, H2, H3. Qed.

Definition dated (now : Z) (m : gmap string bucket) : Prop :=
  ∀ k b, m !! k = Some b → 0 ≤ b_tokens b ∧ b_lastSeen b ≤ now.

Lemma run_agrees ops now l l0 m :
  sane l → same_params l0 l → agrees now l m → dated now m → in_time now ops →
  lim_run ops l = bucket_run l0 ops m.
Proof.
  revert now l m. induction ops as [|[t key|t i] ops IH]; intros now l m Hs Hp Ha Hd Ho; [done|..]; cbn [lim_run bucket_run in_time] in *.
  - destruct Ho as [Hle Ho]. destruct (Allow t key l) as [ok l'] eqn:E.
    destruct (Allow_spec _ _ _ _ _ (proj2 (proj2 (proj2 (proj2 Hs)))) E) as (Hp' & -> & Hb).
    assert (take_token l t (bucket_of key l) = take_token l0 t (m !! key)) as Htake.
    { rewrite <- (take_token_same l0 l) by done. destruct (Ha key) as [->|(-> & b & -> & Hf)]; [done|].
      symmetry. apply take_full; [done|]. by eapply full_later. }
    destruct (take_token l0 t (m !! key)) as [ok b] eqn:Et. rewrite Htake in *. simpl in *. f_equal.
    assert (b_lastSeen b = t) as Hlast.
    { revert Et. unfold take_token. destruct (m !! key); [case_test|]; by intros [= <- <-]. }
    assert (0 ≤ b_tokens b) as Htok.
    { change b with (ok, b).2. rewrite <- Htake. apply take_nonneg; [done|].
      intros x Hx. destruct (Ha key) as [Hk|(Hk & _)]; rewrite Hx in Hk; [|done]. symmetry in Hk. destruct (Hd _ _ Hk). lia. }
    apply (IH t); [by eapply sane_same|destruct Hp as (?&?&?&?&?), Hp' as (?&?&?&?&?); split_and!; congruence| | |done].
    + intros k. rewrite Hb, lookup_insert. case_decide as Hk; [subst; left; by rewrite decide_True|].
      rewrite decide_False by done. destruct (Ha k) as [?|(? & x & ? & ?)]; [by left|right].
      split; [done|]. exists x. split; [done|]. eapply agrees_same; [done|]. by eapply full_later.
    + intros k x. rewrite lookup_insert. case_decide; [intros [= <-]; lia|]. intros Hx. destruct (Hd _ _ Hx). lia.
  - apply (IH (Z.max now t)); [eapply sane_same; [apply (proj1 (sweep_spec t i l ""))|done]| | | |done].
    + destruct (sweep_spec t i l "") as [(?&?&?&?&?) _], Hp as (?&?&?&?&?). split_and!; congruence.
    + intros k. destruct (sweep_spec t i l k) as [Hp' [->|(-> & b & Hb & Hlt)]].
      * destruct (Ha k) as [?|(? & x & ? & ?)]; [by left|right]. split; [done|]. exists x. split; [done|].
        eapply agrees_same; [done|]. eapply full_later; [done| |done]. lia.
      * right. split; [done|]. destruct (Ha k) as [Hk|(Hk & _)]; [|congruence]. rewrite Hb in Hk. symmetry in Hk.
        exists b. split; [done|]. eapply agrees_same; [done|]. destruct (Hd _ _ Hk), Hs as (? & ? & ? & ? & _).
        unfold full_at. nia.
    + intros k x Hx. destruct (Hd _ _ Hx). lia.
Qed.

(** C23: The limiter decides as one map of buckets that are never evicted: neither the
shards nor the sweeper change a decision, for any calls in time and any
interleaving with the sweeps of the shards. *)
Theorem Limiter_refines_buckets ops now l :
  sane l → (∀ k, bucket_of k l = None) → in_time now ops → lim_run ops l = bucket_run l ops ∅.
Proof.
  intros Hs Hn Ho. eapply run_agrees; [done|done| | |done]; [intros k; left; by rewrite Hn, lookup_empty|].
  intros k b. by rewrite lookup_empty.
Qed.

Lemma new_shards num den burst i s : l_shards (newWithClock num den burst) !! i = Some s → s = ∅.
Proof. unfold newWithClock. cbn [l_shards]. by intros [-> _]%lookup_replicate. Qed.

Lemma new_empty key num den burst : bucket_of key (newWithClock num den burst) = None.
Proof.
  unfold bucket_of. destruct (l_shards _ !! _) as [s|] eqn:E; [|done]. apply new_shards in E as ->. apply lookup_empty.
Qed.

(** A new limiter is sane: the idle time covers the time to refill. *)
Lemma new_sane num den burst :
  0 < num → 0 < den → 1 ≤ burst → 0 ≤ Z.quot (burst * 4 * den) num * second < 2 ^ 63 →
  sane (newWithClock num den burst) ∧ ∀ k, bucket_of k (newWithClock num den burst) = None.
Proof.
  intros Hn Hd Hb Hfit. split; [|intros k; apply new_empty].
  unfold newWithClock. rewrite i64_small by (unfold in_i64; lia).
  - unfold sane, token. cbn [l_num l_den l_burst l_idleTTL l_shards]. split_and!; try done.
    pose proof (Z.quot_rem' (burst * 4 * den) num). pose proof (Z.rem_bound_pos (burst * 4 * den) num ltac:(nia) Hn).
    set (q := Z.quot (burst * 4 * den) num) in *. assert (0 ≤ q) by nia.
    destruct (q * second <? minute) eqn:E; zbool; unfold minute, second in *; [|nia].
    assert (q < 60) by lia. nia.
Qed.

(** ** The rate *)

(** How many calls for [key] are admitted. *)
Fixpoint admitted (key : string) (ops : list lim_op) (l : Limiter) : Z :=
  match ops with
  | [] => 0
  | LAllow now k :: ops =>
      let '(ok, l') := Allow now k l in
      (if ok && bool_decide (k = key) then 1 else 0) + admitted key ops l'
  | LSweep now i :: ops => admitted key ops (sweep_shard now i l)
  end.

Definition ends_by (upto : Z) (o : lim_op) : Prop := match o with LAllow t _ | LSweep t _ => t ≤ upto end.

(** What a key may still draw at [now]; a missing bucket counts as full. *)
Definition balance (l : Limiter) (now : Z) (b : option bucket) : Z :=
  match b with None => l_burst l * token l | Some b => level l now b end.

Definition in_order (l : Limiter) (now : Z) : Prop :=
  ∀ k b, bucket_of k l = Some b → 0 ≤ b_tokens b ∧ b_lastSeen b ≤ now.

Lemma balance_later l now now' b : sane l → now ≤ now' → balance l now' b ≤ balance l now b + (now' - now) * l_num l.
Proof. intros (Hn & _) Hle. destruct b as [b|]; simpl; [|nia]. unfold level. nia. Qed.

Lemma balance_same l l' now b : same_params l l' → balance l' now b = balance l now b.
Proof. intros (H1 & H2 & H3 & _). unfold balance, level, token. by rewrite H1, H2, H3. Qed.

Lemma take_balance l now b : sane l → balance l now (Some (take_token l now b).2) =
  balance l now b - (if (take_token l now b).1 then token l else 0).
Proof.
  intros (Hn & Hd & Hb & _). assert (0 < token l) by (unfold token, second; lia). unfold take_token, balance.
  destruct b as [b|]; simpl.
  - set (lv := level l now b). assert (lv ≤ l_burst l * token l) by (unfold lv, level; lia).
    destruct (lv <? token l) eqn:E; zbool; unfold level; simpl; nia.
  - unfold level. simpl. nia.
Qed.

Lemma Allow_in_order now t key l ok l' : sane l → in_order l now → now ≤ t → Allow t key l = (ok, l') → in_order l' t.
Proof.
  intros Hs Ho Hle E. destruct (Allow_spec _ _ _ _ _ (proj2 (proj2 (proj2 (proj2 Hs)))) E) as (_ & _ & Hb).
  intros k b. rewrite Hb. case_decide; [|intros Hk; destruct (Ho _ _ Hk); lia]. intros [= <-]. split.
  - apply take_nonneg; [done|]. intros x Hx. destruct (Ho _ _ Hx). lia.
  - unfold take_token. destruct (bucket_of key l); [case_test|]; simpl; lia.
Qed.

Lemma admitted_balance ops key l now upto :
  sane l → in_order l now → in_time now ops → Forall (ends_by upto) ops → now ≤ upto →
  admitted key ops l * token l ≤ balance l now (bucket_of key l) + (upto - now) * l_num l.
Proof.
  revert l now. induction ops as [|[t k|t i] ops IH]; intros l now Hs Ho Ht He Hle; cbn [admitted in_time] in *.
  - assert (0 ≤ balance l now (bucket_of key l)); [|destruct Hs as (? & _); nia]. destruct Hs as (? & ? & ? & _).
    assert (0 < token l) by (unfold token, second; lia). unfold balance.
    destruct (bucket_of key l) as [b|] eqn:E; [|nia]. destruct (Ho _ _ E). unfold level. apply Z.min_glb; nia.
  - destruct Ht as [Hnt Ht]. apply Forall_cons in He as [Hu He]. simpl in Hu.
    destruct (Allow t k l) as [ok l'] eqn:E. pose proof (Allow_in_order _ _ _ _ _ _ Hs Ho Hnt E) as Ho'.
    destruct (Allow_spec _ _ _ _ _ (proj2 (proj2 (proj2 (proj2 Hs)))) E) as (Hp & -> & Hb).
    specialize (IH l' t (sane_same _ _ Hp Hs) Ho' Ht He Hu). rewrite (balance_same _ _ _ _ Hp) in IH.
    assert (token l' = token l ∧ l_num l' = l_num l) as [Htk Hnum] by (destruct Hp as (? & E2 & _); unfold token; by rewrite E2).
    rewrite Htk, Hnum, Hb in IH. pose proof (balance_later l now t (bucket_of key l) Hs Hnt).
    case_decide as Hk.
    + subst k. rewrite bool_decide_eq_true_2, andb_true_r by done. rewrite take_balance in IH by done.
      destruct (take_token l t (bucket_of key l)).1; nia.
    + rewrite bool_decide_eq_false_2, andb_false_r by congruence. nia.
  - apply Forall_cons in He as [Hu He]. simpl in Hu. destruct (sweep_spec t i l key) as [Hp Hb].
    assert (in_order (sweep_shard t i l) (Z.max now t)) as Ho'.
    { intros k b. destruct (sweep_spec t i l k) as [_ [->|(-> & _)]]; [|done]. intros Hk. destruct (Ho _ _ Hk). lia. }
    specialize (IH _ _ (sane_same _ _ Hp Hs) Ho' Ht He ltac:(lia)). rewrite (balance_same _ _ _ _ Hp) in IH.
    change (token (sweep_shard t i l)) with (token l) in IH. change (l_num (sweep_shard t i l)) with (l_num l) in IH.
    pose proof (balance_later l now (Z.max now t) (bucket_of key l) Hs ltac:(lia)).
    destruct Hb as [Hb|(Hb & b & Hk & Hlt)]; rewrite Hb in IH; [nia|].
    rewrite Hk in *. destruct (Ho _ _ Hk), Hs as (? & ? & ? & ? & _).
    assert (balance l (Z.max now t) (Some b) = l_burst l * token l) as Hfull by (simpl; unfold level; nia).
    simpl in IH. nia.
Qed.

Lemma rate_bound ops key l t1 t2 :
  sane l → in_order l t1 → in_time t1 ops → Forall (ends_by t2) ops → t1 ≤ t2 →
  admitted key ops l * token l ≤ l_burst l * token l + (t2 - t1) * l_num l.
Proof.
  intros Hs Ho Ht He Hle. pose proof (admitted_balance ops key l t1 t2 Hs Ho Ht He Hle).
  assert (balance l t1 (bucket_of key l) ≤ l_burst l * token l); [|lia].
  unfold balance, level. destruct (bucket_of key l); lia.
Qed.

(** Whatever the calls and the sweeps, in any window of time at most
[burst + rate * length] calls of one key are admitted. *)
Theorem Limiter_rate_bound ops key l t1 t2 :
  sane l → in_order l t1 → in_time t1 ops → Forall (ends_by t2) ops → t1 ≤ t2 →
  admitted key ops l * token l ≤ l_burst l * token l + (t2 - t1) * l_num l.
Proof. apply rate_bound. Qed.

Definition lim_exec (l : Limiter) (o : lim_op) : Limiter :=
  match o with LAllow t k => (Allow t k l).2 | LSweep t i => sweep_shard t i l end.

(** Operations on other keys leave the bucket or evict it. *)
Lemma others_keep ops key l :
  l_shards l ≠ [] → Forall (fun o => match o with LAllow _ k => k ≠ key | LSweep _ _ => True end) ops →
  same_params l (foldl lim_exec l ops) ∧
  (bucket_of key (foldl lim_exec l ops) = bucket_of key l ∨ bucket_of key (foldl lim_exec l ops) = None).
Proof.
  revert l. induction ops as [|o ops IH]; intros l Hne Ho; [split; [done|by left]|].
  apply Forall_cons in Ho as [Ho Hos]. cbn [foldl].
  assert (same_params l (lim_exec l o) ∧ (bucket_of key (lim_exec l o) = bucket_of key l ∨ bucket_of key (lim_exec l o) = None)) as [Hp Hb].
  { destruct o as [t k|t i]; simpl.
    - destruct (Allow t k l) as [ok l'] eqn:E. destruct (Allow_spec _ _ _ _ _ Hne E) as (Hp & _ & Hb). split; [done|].
      left. by rewrite Hb, decide_False by congruence.
    - destruct (sweep_spec t i l key) as [Hp [?|[? _]]]; auto. }
  destruct (IH (lim_exec l o)) as [Hp' Hb']; [|done|].
  { intros E. destruct Hp as (_ & _ & _ & _ & Hl). rewrite E in Hl. by destruct (l_shards l). }
  split; [destruct Hp as (?&?&?&?&?), Hp' as (?&?&?&?&?); split_and!; congruence|].
  destruct Hb' as [->|?]; auto.
Qed.

(** A caller is admitted once it has waited, since its last call, for the time in
which one token accrues, whatever other callers and the sweeper do meanwhile. *)
Theorem Limiter_admits now key l t ok l' ops u :
  sane l → in_order l now → now ≤ t → Allow t key l = (ok, l') →
  Forall (fun o => match o with LAllow _ k => k ≠ key | LSweep _ _ => True end) ops →
  token l ≤ (u - t) * l_num l →
  (Allow u key (foldl lim_exec l' ops)).1 = true.
Proof.
  intros Hs Ho Hle E Hops Hwait. pose proof (Allow_in_order _ _ _ _ _ _ Hs Ho Hle E) as Ho'.
  destruct (Allow_spec _ _ _ _ _ (proj2 (proj2 (proj2 (proj2 Hs)))) E) as (Hp & _ & Hb).
  specialize (Hb key). rewrite decide_True in Hb by done. pose proof (sane_same _ _ Hp Hs) as Hs'.
  destruct (others_keep ops key l' (proj2 (proj2 (proj2 (proj2 Hs')))) Hops) as [Hp2 Hb2].
  pose proof (sane_same _ _ Hp2 Hs') as Hs2. set (l2 := foldl lim_exec l' ops) in *. clearbody l2.
  destruct (Allow u key l2) as [ok2 l3] eqn:E2.
  destruct (Allow_spec _ _ _ _ _ (proj2 (proj2 (proj2 (proj2 Hs2)))) E2) as (_ & -> & _). simpl.
  destruct Hb2 as [Hb2|Hb2]; rewrite Hb2; [|done]. rewrite Hb.
  destruct (Ho' _ _ Hb) as [Htok _]. set (b := (take_token l t (bucket_of key l)).2) in *.
  assert (b_lastSeen b = t) as Hlast by (unfold b, take_token; destruct (bucket_of key l); [case_test|]; done).
  assert (token l2 = token l ∧ l_num l2 = l_num l ∧ l_burst l2 = l_burst l) as (T1 & T2 & T3).
  { destruct Hp as (?&E3&?&_), Hp2 as (?&E4&?&_). unfold token. by rewrite E4, E3; split_and!; congruence. }
  destruct Hs as (? & ? & ? & _). assert (0 < token l) by (unfold token, second; lia).
  unfold take_token. rewrite (proj2 (Z.ltb_ge _ _)); [done|]. unfold level. rewrite T1, T2, T3, Hlast. apply Z.min_glb; nia.
Qed.

(** ** Instances *)

(** Two requests per second, burst 3. *)
Definition lim0 : Limiter := newWithClock 2 1 3.

Lemma lim0_sane : sane lim0 ∧ ∀ k, bucket_of k lim0 = None.
Proof. apply new_sane; [lia|lia|lia|]. vm_compute. split; congruence. Qed.

Lemma lim0_in_order t : in_order lim0 t.
Proof. intros k b. by rewrite (proj2 lim0_sane k). Qed.

Lemma Limiter_refines_buckets_witness :
  lim_run [LAllow 0 "a"; LSweep (100 * second) 5; LAllow (100 * second) "a"] lim0 =
  bucket_run lim0 [LAllow 0 "a"; LSweep (100 * second) 5; LAllow (100 * second) "a"] ∅.
Proof.
  apply (Limiter_refines_buckets _ 0); [apply lim0_sane|apply lim0_sane|]. simpl. unfold second. lia.
Defined.

Lemma Limiter_rate_bound_witness :
  admitted "a" [LAllow 0 "a"; LAllow 1 "a"; LAllow 2 "a"; LAllow 3 "a"] lim0 * token lim0 ≤ 3 * token lim0 + (3 - 0) * 2.
Proof.
  apply (Limiter_rate_bound _ _ lim0); [apply lim0_sane|apply lim0_in_order|simpl; lia|repeat constructor; simpl; lia|lia].
Defined.

Lemma Limiter_admits_witness : (Allow second "a" (foldl lim_exec (Allow 0 "a" lim0).2 [LAllow 5 "b"])).1 = true.
Proof.
  apply (Limiter_admits 0 "a" lim0 0 (Allow 0 "a" lim0).1 (Allow 0 "a" lim0).2);
    [apply lim0_sane|apply lim0_in_order|lia|by destruct (Allow 0 "a" lim0)|repeat constructor; done|vm_compute; congruence].
Defined.

(** A bucket of burst 0 admits the first call of every key all the same. *)
Theorem Zero_burst_admits key now : (Allow now key (newWithClock 2 1 0)).1 = true.
Proof.
  destruct (Allow _ _ _) as [ok l'] eqn:E. apply Allow_spec in E as (_ & -> & _); [|done].
  by rewrite new_empty.
Qed.
