(* ===== verification/Auth.v ===== *)
(** * Bearer tokens and sealed records

[encoding/base64] as the sources use it, [fintech-gateway-go/internal/auth/jwt.go]
and its place in the gateway, and [secure-multitenant-go/internal/cryptox].
HMAC-SHA256, AES-GCM and [encoding/json] are parameters. *)

From Stdlib Require Import ZArith Lia Ascii.
From stdpp Require Import base gmap strings list.
From S2P Require Import Prelude GoStrings Breaker TTLCache LoadBalancer Gateway RateLimit.

Open Scope Z_scope.

(** ** encoding/base64 *)

Module Base64.
Local Open Scope N_scope.

(** An alphabet, and whether the last group is padded with ['=']. *)
Record Encoding : Type := mkEncoding { alphabet : string; padded : bool }.

Definition upper_lower_digits : string := "ABCDEFGHIJKLMNOPQRSTUVWXYZabcdefghijklmnopqrstuvwxyz0123456789".
Definition StdEncoding : Encoding := mkEncoding (upper_lower_digits +:+ "+/") true.
Definition RawURLEncoding : Encoding := mkEncoding (upper_lower_digits +:+ "-_") false.

Definition pad : ascii := "="%char.

Definition enc_char (e : Encoding) (i : N) : ascii := default pad (String.get (N.to_nat i) (alphabet e)).

Fixpoint index_from (c : ascii) (i : N) (s : string) : option N :=
  match s with
  | EmptyString => None
  | String a s' => if Ascii.eqb a c then Some i else index_from c (i + 1) s'
  end.

Definition dec_char (e : Encoding) (c : ascii) : option N := index_from c 0 (alphabet e).

Definition padding (e : Encoding) (n : nat) : string :=
  if padded e then match n with 1%nat => String pad "" | _ => String pad (String pad "") end else "".

(** [EncodeToString]: three bytes give four characters. *)
Fixpoint EncodeToString (e : Encoding) (s : string) : string :=
  match s with
  | String a (String b (String c s')) =>
      let v := N_of_ascii a * 65536 + N_of_ascii b * 256 + N_of_ascii c in
      String (enc_char e (v / 262144)) (String (enc_char e (v / 4096 mod 64))
        (String (enc_char e (v / 64 mod 64)) (String (enc_char e (v mod 64)) (EncodeToString e s'))))
  | String a (String b EmptyString) =>
      let v := N_of_ascii a * 65536 + N_of_ascii b * 256 in
      String (enc_char e (v / 262144)) (String (enc_char e (v / 4096 mod 64))
        (String (enc_char e (v / 64 mod 64)) (padding e 1)))
  | String a EmptyString =>
      let v := N_of_ascii a * 65536 in
      String (enc_char e (v / 262144)) (String (enc_char e (v / 4096 mod 64)) (padding e 2))
  | EmptyString => EmptyString
  end.

Definition is_newline (a : ascii) : bool := Ascii.eqb a "010"%char || Ascii.eqb a "013"%char.

(** The decoder skips line breaks wherever they are. *)
Fixpoint skip_newlines (s : string) : string :=
  match s with
  | EmptyString => EmptyString
  | String a s' => if is_newline a then skip_newlines s' else String a (skip_newlines s')
  end.

(** The bytes of a group of two, three or four characters; bits that are left
over are dropped. *)
Definition group2 (x y : N) : string := String (ascii_of_N ((x * 64 + y) / 16)) EmptyString.
Definition group3 (x y z : N) : string :=
  let v := (x * 64 + y) * 64 + z in
  String (ascii_of_N (v / 1024)) (String (ascii_of_N (v / 4 mod 256)) EmptyString).
Definition group4 (x y z t : N) (r : string) : string :=
  let v := ((x * 64 + y) * 64 + z) * 64 + t in
  String (ascii_of_N (v / 65536)) (String (ascii_of_N (v / 256 mod 256)) (String (ascii_of_N (v mod 256)) r)).

(** The group that ends the input, [None] when it is corrupt. *)
Definition last_group (e : Encoding) (s : string) : option string :=
  match s with
  | String a (String b EmptyString) =>
      if padded e then None else x ← dec_char e a; y ← dec_char e b; Some (group2 x y)
  | String a (String b (String c EmptyString)) =>
      if padded e then None
      else x ← dec_char e a; y ← dec_char e b; z ← dec_char e c; Some (group3 x y z)
  | String a (String b (String c (String d EmptyString))) =>
      if padded e && Ascii.eqb d pad then
        if Ascii.eqb c pad then x ← dec_char e a; y ← dec_char e b; Some (group2 x y)
        else x ← dec_char e a; y ← dec_char e b; z ← dec_char e c; Some (group3 x y z)
      else None
  | _ => None
  end.

Fixpoint decode (e : Encoding) (s : string) : option string :=
  match s with
  | EmptyString => Some EmptyString
  | String a (String b (String c (String d s'))) =>
      match dec_char e a, dec_char e b, dec_char e c, dec_char e d with
      | Some x, Some y, Some z, Some t => r ← decode e s'; Some (group4 x y z t r)
      | _, _, _, _ => last_group e s
      end
  | _ => last_group e s
  end.

Definition DecodeString (e : Encoding) (s : string) : option string := decode e (skip_newlines s).

(** What the two encodings satisfy, by evaluation. *)
Definition char_ok (e : Encoding) (i : nat) : bool :=
  let c := enc_char e (N.of_nat i) in
  bool_decide (dec_char e c = Some (N.of_nat i)) && negb (is_newline c) && negb (Ascii.eqb c ".") &&
  negb (Ascii.eqb c pad).

Definition enc_ok (e : Encoding) : bool :=
  forallb (char_ok e) (seq 0 64) && bool_decide (dec_char e pad = None).

Lemma StdEncoding_ok : enc_ok StdEncoding = true.
Proof. by vm_compute. Qed.

Lemma RawURLEncoding_ok : enc_ok RawURLEncoding = true.
Proof. by vm_compute. Qed.

Section laws.
Context (e : Encoding) (He : enc_ok e = true).

Lemma enc_char_ok i : i < 64 →
  dec_char e (enc_char e i) = Some i ∧ is_newline (enc_char e i) = false ∧ enc_char e i ≠ "."%char ∧
  Ascii.eqb (enc_char e i) pad = false.
Proof.
  intros Hi. unfold enc_ok in He. apply andb_prop in He as [Hf _]. rewrite forallb_forall in Hf.
  specialize (Hf (N.to_nat i)). unfold char_ok in Hf. rewrite N2Nat.id in Hf.
  destruct (andb_prop _ _ (Hf ltac:(apply in_seq; lia))) as [[[H1 H2]%andb_prop H3]%andb_prop H4].
  apply bool_decide_eq_true in H1. apply negb_true_iff in H2, H3, H4.
  split_and!; [done|done| |done]. intros Heq. rewrite Heq in H3. done.
Qed.

Lemma dec_pad : dec_char e pad = None.
Proof. unfold enc_ok in He. apply andb_prop in He as [_ Hp]. by apply bool_decide_eq_true in Hp. Qed.

Lemma byte_bound a : N_of_ascii a < 256.
Proof. apply N_ascii_bounded. Qed.

Lemma byte_eq a v : v = N_of_ascii a → ascii_of_N v = a.
Proof. intros ->. apply ascii_N_embedding. Qed.

Lemma group2_split a : let v := N_of_ascii a * 65536 in group2 (v / 262144) (v / 4096 mod 64) = String a "".
Proof.
  intros v. unfold group2. pose proof (byte_bound a). f_equal. apply byte_eq. subst v.
  zify. Z.to_euclidean_division_equations. lia.
Qed.

Lemma group3_split a b :
  let v := N_of_ascii a * 65536 + N_of_ascii b * 256 in
  group3 (v / 262144) (v / 4096 mod 64) (v / 64 mod 64) = String a (String b "").
Proof.
  intros v. unfold group3. pose proof (byte_bound a). pose proof (byte_bound b).
  f_equal; [|f_equal]; apply byte_eq; subst v; zify; Z.to_euclidean_division_equations; lia.
Qed.

Lemma group4_split a b c r :
  let v := N_of_ascii a * 65536 + N_of_ascii b * 256 + N_of_ascii c in
  group4 (v / 262144) (v / 4096 mod 64) (v / 64 mod 64) (v mod 64) r = String a (String b (String c r)).
Proof.
  intros v. unfold group4. pose proof (byte_bound a). pose proof (byte_bound b). pose proof (byte_bound c).
  f_equal; [|f_equal; [|f_equal]]; apply byte_eq; subst v; zify; Z.to_euclidean_division_equations; lia.
Qed.

Lemma sextet_bounds v : v < 16777216 → v / 262144 < 64 ∧ v / 4096 mod 64 < 64 ∧ v / 64 mod 64 < 64 ∧ v mod 64 < 64.
Proof. intros Hv. split_and!; zify; Z.to_euclidean_division_equations; lia. Qed.

(** Strings go by three. *)
Lemma string_ind3 (P : string → Prop) :
  P "" → (∀ a, P (String a "")) → (∀ a b, P (String a (String b ""))) →
  (∀ a b c s, P s → P (String a (String b (String c s)))) → ∀ s, P s.
Proof.
  intros H0 H1 H2 H3. fix IH 1. intros [|a [|b [|c s]]]; [done|apply H1|apply H2|apply H3, IH].
Qed.

Ltac sextets v :=
  let H1 := fresh in let H2 := fresh in let H3 := fresh in let H4 := fresh in
  destruct (sextet_bounds v) as (H1 & H2 & H3 & H4); [subst v; lia|];
  apply enc_char_ok in H1, H2, H3, H4;
  destruct H1 as (? & ? & ? & ?), H2 as (? & ? & ? & ?), H3 as (? & ? & ? & ?), H4 as (? & ? & ? & ?).

Ltac use_chars :=
  repeat match goal with
  | H : is_newline _ = false |- _ => rewrite H
  | H : dec_char _ _ = Some _ |- _ => rewrite H
  | H : Ascii.eqb _ pad = false |- _ => rewrite H
  end.

(** Encoded text has no line break to skip. *)
Lemma encode_no_newlines s : skip_newlines (EncodeToString e s) = EncodeToString e s.
Proof.
  induction s as [|a|a b|a b c s IH] using string_ind3; [done|..]; cbn [EncodeToString]; pose proof (byte_bound a);
    try pose proof (byte_bound b); try pose proof (byte_bound c).
  - set (v := N_of_ascii a * 65536). sextets v. cbn [skip_newlines]. use_chars.
    unfold padding. by destruct (padded e).
  - set (v := N_of_ascii a * 65536 + N_of_ascii b * 256). sextets v. cbn [skip_newlines]. use_chars.
    unfold padding. by destruct (padded e).
  - set (v := N_of_ascii a * 65536 + N_of_ascii b * 256 + N_of_ascii c). sextets v. cbn [skip_newlines].
    use_chars. by rewrite IH.
Qed.

Lemma encode_lacks_dot s : lacks "." (EncodeToString e s).
Proof.
  assert (∀ n, lacks "." (padding e n)) as Hp by (intros [|[|n]]; unfold padding; by destruct (padded e)).
  induction s as [|a|a b|a b c s IH] using string_ind3; [done|..]; cbn [EncodeToString]; pose proof (byte_bound a);
    try pose proof (byte_bound b); try pose proof (byte_bound c).
  - set (v := N_of_ascii a * 65536). sextets v. repeat (apply lacks_cons; split; [done|]). apply Hp.
  - set (v := N_of_ascii a * 65536 + N_of_ascii b * 256). sextets v.
    repeat (apply lacks_cons; split; [done|]). apply Hp.
  - set (v := N_of_ascii a * 65536 + N_of_ascii b * 256 + N_of_ascii c). sextets v.
    by repeat (apply lacks_cons; split; [done|]).
Qed.

(** Decoding gives back the bytes that were encoded. *)
Lemma Decode_Encode s : DecodeString e (EncodeToString e s) = Some s.
Proof.
  unfold DecodeString. rewrite encode_no_newlines.
  induction s as [|a|a b|a b c s IH] using string_ind3; [done|..]; cbn [EncodeToString]; pose proof (byte_bound a);
    try pose proof (byte_bound b); try pose proof (byte_bound c).
  - set (v := N_of_ascii a * 65536). sextets v. unfold padding. destruct (padded e) eqn:Ep; cbn [decode].
    + use_chars. rewrite dec_pad. unfold last_group. rewrite Ep. simpl. use_chars. simpl. f_equal. apply group2_split.
    + unfold last_group. rewrite Ep. use_chars. simpl. f_equal. apply group2_split.
  - set (v := N_of_ascii a * 65536 + N_of_ascii b * 256). sextets v. unfold padding.
    destruct (padded e) eqn:Ep; cbn [decode].
    + use_chars. rewrite dec_pad. unfold last_group. rewrite Ep. simpl. use_chars. simpl. f_equal. apply group3_split.
    + unfold last_group. rewrite Ep. use_chars. simpl. f_equal. apply group3_split.
  - set (v := N_of_ascii a * 65536 + N_of_ascii b * 256 + N_of_ascii c). sextets v. cbn [decode]. use_chars.
    rewrite IH. simpl. f_equal. apply group4_split.
Qed.
End laws.
End Base64.

Import Base64.

(* [base] fintech-gateway-go/internal/auth *)

(* [go] jwt.go:24-31 ErrMalformedToken *)
Inductive jwt_error : Type :=
| ErrMalformedToken | ErrBadSignature | ErrUnsupportedAlg | ErrMissingExpiry | ErrExpired | ErrEmptySecret.

(** A decoded JSON value: a number by its conversion to int64, a string, or
anything else. *)
Inductive value : Type := VNumber (n : Z) | VString (s : string) | VOther.

(** Instants are seconds since the epoch. *)
(* [go] jwt.go:33-38 Claims *)
Record JwtClaims : Type := mkJwtClaims {
  Subject : string; ExpiresAt : Z; IssuedAt : option Z; Raw : gmap string value }.

(* [go] jwt.go:56-61 newVerifierWithClock *)
Definition newVerifier (secret : string) : result jwt_error string :=
  if Nat.eqb (String.length secret) 0 then Err ErrEmptySecret else Ok secret.

(** [time.Unix(sec, 0)]: seconds are kept since year 1, in an int64. *)
Definition unixToInternal : Z := 62135596800.
Definition time_Unix (sec : Z) : Z := i64 (sec + unixToInternal) - unixToInternal.

Lemma split_lacks c s x : x ∈ split c s → lacks c x.
Proof.
  revert x. induction s as [|a s IH]; intros x; simpl; [intros ->%list_elem_of_singleton; done|].
  destruct (Ascii.eqb a c) eqn:E.
  - intros [->|Hx]%elem_of_cons; [done|auto].
  - pose proof (split_nonempty c s) as Hne. destruct (split c s) as [|y l] eqn:Es; [done|].
    intros [->|Hx]%elem_of_cons; [|by apply IH, elem_of_cons; right].
    apply lacks_cons. split; [by intros ->; rewrite Ascii.eqb_refl in E|]. apply IH, elem_of_cons. by left.
Qed.

Section jwt.
(** HMAC-SHA256; the [alg] of a JSON header; the members of a JSON object. *)
Context (mac : string → string → string) (json_header : string → option string)
  (json_claims : string → option (gmap string value)).

(** The claims of a token whose expiry is [exp]. *)
(* [go] jwt.go:121-128 Verifier.Verify *)
Definition claims_of (raw : gmap string value) (expiresAt : Z) : JwtClaims :=
  mkJwtClaims (match raw !! "sub" with Some (VString s) => s | _ => "" end) expiresAt
    (match raw !! "iat" with Some (VNumber n) => Some (time_Unix n) | _ => None end) raw.

(** [now] is in nanoseconds since the epoch. *)
(* [go] jwt.go:103-128 Verifier.Verify *)
Definition verify_payload (payloadB64 : string) (now : Z) : result jwt_error JwtClaims :=
  match DecodeString RawURLEncoding payloadB64 with
  | None => Err ErrMalformedToken
  | Some payloadJSON =>
      match json_claims payloadJSON with
      | None => Err ErrMalformedToken
      | Some raw =>
          match raw !! "exp" with
          | Some (VNumber expUnix) =>
              let expiresAt := time_Unix expUnix in
              if negb (now <? expiresAt * second) then Err ErrExpired else Ok (claims_of raw expiresAt)
          | _ => Err ErrMissingExpiry
          end
      end
  end.

(* [go] jwt.go:71-129 Verifier.Verify *)
Definition Verify (secret token : string) (now : Z) : result jwt_error JwtClaims :=
  match split "." token with
  | [headerB64; payloadB64; sigB64] =>
      match DecodeString RawURLEncoding headerB64 with
      | None => Err ErrMalformedToken
      | Some headerJSON =>
          match json_header headerJSON with
          | None => Err ErrMalformedToken
          | Some alg =>
              if negb (String.eqb alg "HS256") then Err ErrUnsupportedAlg
              else match DecodeString RawURLEncoding sigB64 with
                   | None => Err ErrMalformedToken
                   | Some gotSig =>
                       if negb (String.eqb gotSig (mac secret (headerB64 +:+ "." +:+ payloadB64)))
                       then Err ErrBadSignature
                       else verify_payload payloadB64 now
                   end
          end
      end
  | _ => Err ErrMalformedToken
  end.

(** What an accepted token is. *)
Record accepted (secret token : string) (now : Z) (c : JwtClaims) : Prop := mkAccepted {
  acc_parts : ∃ h p s hb pb, token = join "." [h; p; s] ∧ lacks "." h ∧ lacks "." p ∧ lacks "." s ∧
    DecodeString RawURLEncoding h = Some hb ∧ json_header hb = Some "HS256" ∧
    DecodeString RawURLEncoding s = Some (mac secret (h +:+ "." +:+ p)) ∧
    DecodeString RawURLEncoding p = Some pb ∧ json_claims pb = Some (Raw c);
  acc_exp : ∃ n, Raw c !! "exp" = Some (VNumber n) ∧ ExpiresAt c = time_Unix n ∧ now < ExpiresAt c * second;
  acc_claims : c = claims_of (Raw c) (ExpiresAt c) }.

Lemma Verify_accepted secret token now c : Verify secret token now = Ok c ↔ accepted secret token now c.
Proof.
  split.
  - unfold Verify. intros H. pose proof (join_split "." token) as Hj.
    destruct (split "." token) as [|h [|p [|s [|]]]] eqn:Es; try done.
    assert (∀ x, x ∈ [h; p; s] → lacks "." x) as Hl by (intros x; rewrite <- Es; apply split_lacks).
    destruct (DecodeString _ h) as [hb|] eqn:Eh; [|done]. destruct (json_header hb) as [alg|] eqn:Ej; [|done].
    destruct (String.eqb_spec alg "HS256") as [->|]; [|done]. simpl in H.
    destruct (DecodeString _ s) as [sb|] eqn:Esb; [|done].
    destruct (String.eqb_spec sb (mac secret (h +:+ "." +:+ p))) as [->|]; [|done]. simpl in H.
    unfold verify_payload in H. destruct (DecodeString _ p) as [pb|] eqn:Ep; [|done].
    destruct (json_claims pb) as [raw|] eqn:Er; [|done].
    destruct (raw !! "exp") as [[n| |]|] eqn:En; [|done..].
    destruct (now <? time_Unix n * second) eqn:Et; [|done]. simpl in H. injection H as <-. zbool. split; simpl.
    + exists h, p, s, hb, pb. split_and!; try done; [apply Hl; set_solver..].
    + by exists n.
    + done.
  - intros [(h & p & s & hb & pb & -> & Hh & Hp & Hs & Dh & Jh & Ds & Dp & Jp) (n & Hn & He & Ht) Hc].
    unfold Verify. rewrite split_join by (by repeat constructor). rewrite Dh, Jh. simpl. rewrite Ds.
    rewrite String.eqb_refl. simpl. unfold verify_payload. rewrite Dp, Jp, Hn, <- He.
    rewrite (proj2 (Z.ltb_lt _ _)) by done. simpl. by rewrite Hc at 3.
Qed.
End jwt.

(** A compact token over a header and a payload (RFC 7515). *)
Definition issue (mac : string → string → string) (secret header payload : string) : string :=
  let h := EncodeToString RawURLEncoding header in
  let p := EncodeToString RawURLEncoding payload in
  join "." [h; p; EncodeToString RawURLEncoding (mac secret (h +:+ "." +:+ p))].

(** ** The gateway with its verifier and its limiter *)

(** The environment of a request at [now]. *)
Definition with_auth (mac : string → string → string) (json_header : string → option string)
    (json_claims : string → option (gmap string value)) (secret : string) (now : Z)
    {L C : Type} (env : Env L C) : Env Limiter JwtClaims :=
  mkEnv _ _ (e_breakers env) (e_waf env) (e_patterns env)
    (fun tok => match Verify mac json_header json_claims secret tok now with Ok c => Some c | Err _ => None end)
    (fun key l => let '(ok, l') := Allow now key l in (l', ok))
    (e_clientKey env) (e_proxy env) (e_clock env) (e_rnd env) (e_now env) (e_now2 env).

Lemma auth_check_token {C} (verify : string → option C) r c :
  auth_check verify r = Ok c → ∃ tok, q_auth r = "Bearer " +:+ tok ∧ verify tok = Some c.
Proof.
  unfold auth_check, cut_prefix. destruct (String.prefix "Bearer " (q_auth r)) eqn:Ep; [|done].
  change (String.substring _ _ _) with (slice_from (String.length "Bearer ") (q_auth r)).
  destruct (String.eqb _ ""); [done|]. destruct (verify _) as [x|] eqn:Ev; [|done]. intros [= ->].
  eexists. split; [|exact Ev]. by apply prefix_split.
Qed.

Lemma in_time_earlier now now' ops : now ≤ now' → in_time now' ops → in_time now ops.
Proof.
  revert now now'. induction ops as [|[t k|t i] ops IH]; intros now now' Hle; simpl; [done| |].
  - intros [? ?]. split; [lia|done].
  - apply IH. lia.
Qed.

Section pipeline.
Context (mac : string → string → string) (json_header : string → option string)
  (json_claims : string → option (gmap string value)) (secret : string) {L C : Type} (base : Env L C).

Notation env_at now := (with_auth mac json_header json_claims secret now base).

(** The request reached the limiter and was granted. *)
Definition granted (now : Z) (r : Request) (g : Gateway Limiter) : bool :=
  match waf_check (e_patterns base) (e_waf base) r, matchRoute (q_path r) (g_routes g) with
  | None, Some _ => match g_limiter g with Some l => (Allow now (e_clientKey base r) l).1 | None => true end
  | _, _ => false
  end.

(** Requests served one after another, and the number of those of [key] that
were granted. *)
Fixpoint granted_count (key : string) (reqs : list (Z * Request)) (g : Gateway Limiter) : Z :=
  match reqs with
  | [] => 0
  | (now, r) :: reqs =>
      (if granted now r g && bool_decide (e_clientKey base r = key) then 1 else 0) +
      granted_count key reqs (Handler (env_at now) r g).1
  end.

(** What a request does to the limiter. *)
Lemma Handler_limiter now r g l : g_limiter g = Some l →
  g_limiter (Handler (env_at now) r g).1 = Some l ∧ granted now r g = false ∨
  g_limiter (Handler (env_at now) r g).1 = Some (Allow now (e_clientKey base r) l).2 ∧
    granted now r g = (Allow now (e_clientKey base r) l).1.
Proof.
  intros Hl. unfold Handler, granted. cbn [e_patterns e_waf with_auth].
  destruct (waf_check _ _ r); [by left|]. unfold serveHTTP.
  destruct (matchRoute (q_path r) (g_routes g)) as [i|]; [|by left]. right. rewrite Hl.
  cbn [e_limit e_clientKey with_auth]. destruct (Allow now (e_clientKey base r) l) as [ok l'].
  destruct ok; [|done]. simpl. destruct (g_routes g !! i) as [cr|]; [|done].
  destruct (RequireAuth (cr_route cr)); [destruct (auth_check _ _)|];
    try destruct (route_handler _ _ _ _ _) as [[[? ?] ?] ?]; done.
Qed.

(** The calls of the limiter that a run of requests makes. *)
Lemma granted_admitted key reqs g l now upto :
  g_limiter g = Some l → in_time now (map (fun q => LAllow q.1 "") reqs) → Forall (fun q => q.1 ≤ upto) reqs →
  now ≤ upto → ∃ ops, in_time now ops ∧ Forall (ends_by upto) ops ∧ granted_count key reqs g = admitted key ops l.
Proof.
  revert g l now. induction reqs as [|[t r] reqs IH]; intros g l now Hl Ht Hu Hn; [by exists []|].
  cbn [map in_time fst granted_count] in *. destruct Ht as [Hle Ht]. apply Forall_cons in Hu as [Hu Hus]. cbn [fst] in Hu.
  destruct (Handler_limiter t r g l Hl) as [[Hl' ->]|[Hl' ->]];
    destruct (IH _ _ t Hl' Ht Hus Hu) as (ops & Ho & He & Hc).
  - exists ops. split_and!; [exact (in_time_earlier _ _ _ Hle Ho)|done|simpl; lia].
  - exists (LAllow t (e_clientKey base r) :: ops). split_and!; [by split|by constructor|]. cbn [admitted].
    destruct (Allow t (e_clientKey base r) l) as [ok l']. simpl in *. lia.
Qed.
End pipeline.

(** ** Main results *)

(** Base64 is a faithful code: with the alphabets the sources use, decoding the
encoded text gives back the bytes, also after line breaks were put in. *)
Theorem Base64_roundtrip (e : Encoding) (s t : string) :
  e = StdEncoding ∨ e = RawURLEncoding → skip_newlines t = EncodeToString e s → DecodeString e t = Some s.
Proof.
  intros He Ht. assert (enc_ok e = true) as Hok
    by (destruct He as [->| ->]; [apply StdEncoding_ok|apply RawURLEncoding_ok]).
  rewrite <- (Decode_Encode e Hok s). unfold DecodeString. by rewrite Ht, encode_no_newlines.
Qed.

(** A token is accepted exactly when it has three parts, its header names HS256,
its signature decodes to the MAC of the first two parts as they were sent, and
its payload has a numeric expiry in the future; a token that is issued with such
a header and payload verifies to the payload's claims until it expires, and is
refused as expired from then on. *)
Theorem Jwt_correct (mac : string → string → string) (json_header : string → option string)
    (json_claims : string → option (gmap string value)) (secret : string) (now : Z) :
  (∀ token c, Verify mac json_header json_claims secret token now = Ok c ↔
     accepted mac json_header json_claims secret token now c) ∧
  (∀ header payload raw n, json_header header = Some "HS256" → json_claims payload = Some raw →
     raw !! "exp" = Some (VNumber n) →
     Verify mac json_header json_claims secret (issue mac secret header payload) now =
       if now <? time_Unix n * second then Ok (claims_of raw (time_Unix n)) else Err ErrExpired).
Proof.
  split; [intros; apply Verify_accepted|]. intros header payload raw n Hh Hp Hn. unfold Verify, issue.
  pose proof (encode_lacks_dot _ RawURLEncoding_ok) as Hl. pose proof (Decode_Encode _ RawURLEncoding_ok) as Hd.
  cbv zeta. rewrite split_join by (done || (repeat constructor; apply Hl)). rewrite !Hd, Hh. simpl. rewrite String.eqb_refl. simpl.
  unfold verify_payload. rewrite Hd, Hp, Hn. by destruct (now <? time_Unix n * second).
Qed.


(** However many requests arrive between [t1] and [t2], those granted to one client are at
most the burst plus what the rate allows in that time, for a limiter that keeps its
levels exactly.  The code keeps them in float64, where a refill may round up: with
a rate of a third and a burst of one, a call at each of the seconds 0 to 3 is granted
twice. *)
Theorem Gateway_rate (mac : string → string → string) (json_header : string → option string)
    (json_claims : string → option (gmap string value)) (secret : string) {L C : Type} (base : Env L C)
    key reqs g l t1 t2 :
  g_limiter g = Some l → sane l → in_order l t1 →
  in_time t1 (map (fun q => LAllow q.1 "") reqs) → Forall (fun q => q.1 ≤ t2) reqs → t1 ≤ t2 →
  granted_count mac json_header json_claims secret base key reqs g * token l ≤
    l_burst l * token l + (t2 - t1) * l_num l.
Proof.
  intros Hl Hs Ho Ht Hu Hle.
  destruct (granted_admitted mac json_header json_claims secret base key reqs g l t1 t2) as (ops & Hot & He & ->);
    [done..|]. by apply rate_bound.
Qed.

(** ** secure-multitenant-go/internal/cryptox *)

(* [base] secure-multitenant-go/internal/cryptox *)

(** Errors keep the step that failed. *)
(* [go] aes.go:19-26 ErrInvalidKeySize *)
Inductive crypt_error : Type := ErrInvalidKeySize | ErrCiphertextShort | ErrEmptyPlaintext | EDecode | EOpen | ENonce.

(* [go] aes.go:17-17 KeySize *)
Definition KeySize : nat := 32.

(** AES-GCM as [cipher.AEAD]: the sealed bytes of a key, a nonce, a plaintext and
associated data, and their opening. *)
Class AEAD : Type := {
  NonceSize : nat;
  Seal : string → string → string → string → string;
  Open : string → string → string → string → option string }.

(** Opening inverts sealing, and nothing opens but what was sealed with the
plaintext it opens to. *)
Class AEADLaws `{AEAD} : Prop := {
  open_seal key nonce p aad : Open key nonce (Seal key nonce p aad) aad = Some p;
  open_only key nonce c aad p : Open key nonce c aad = Some p → c = Seal key nonce p aad }.

Section cipher.
Context `{AEAD}.

(** A cipher is its key; [aes.NewCipher] accepts 32 bytes. *)
(* [go] aes.go:34-47 NewCipher *)
Definition NewCipher (key : string) : result crypt_error string :=
  if negb (Nat.eqb (String.length key) KeySize) then Err ErrInvalidKeySize else Ok key.

(** [rand] is what the random source gives. *)
(* [go] aes.go:52-63 Cipher.Encrypt *)
Definition Encrypt (c : string) (rand : option string) (plaintext aad : string) : result crypt_error string :=
  if Nat.eqb (String.length plaintext) 0 then Err ErrEmptyPlaintext
  else match rand with
       | None => Err ENonce
       | Some nonce => Ok (EncodeToString StdEncoding (nonce +:+ Seal c nonce plaintext aad))
       end.

(* [go] aes.go:67-82 Cipher.Decrypt *)
Definition Decrypt (c encoded aad : string) : result crypt_error string :=
  match DecodeString StdEncoding encoded with
  | None => Err EDecode
  | Some raw =>
      if Nat.ltb (String.length raw) NonceSize then Err ErrCiphertextShort
      else match Open c (slice_to NonceSize raw) (slice_from NonceSize raw) aad with
           | None => Err EOpen
           | Some plaintext => Ok plaintext
           end
  end.

(* [go] aes.go:85-91 NewKey *)
Definition NewKey (rand : option string) : result crypt_error string :=
  match rand with None => Err ENonce | Some key => Ok key end.
End cipher.

Lemma slice_parts n s : slice_to n s +:+ slice_from n s = s.
Proof.
  revert n. induction s as [|a s IH]; intros n; [by destruct n|]. destruct n as [|n].
  { unfold slice_to, slice_from. rewrite Nat.sub_0_r, substring_all. done. }
  unfold slice_to, slice_from. simpl. rewrite str_app_cons. f_equal. apply IH.
Qed.

Lemma length_str_app (x y : string) : String.length (x +:+ y) = (String.length x + String.length y)%nat.
Proof. induction x as [|c x IH]; [done|]. rewrite str_app_cons. simpl. by rewrite IH. Qed.

(** Sealed text opens to the plaintext under the key and the associated data it was
sealed with; and whatever opens is, after decoding, a nonce
followed by the sealing of the result under the same associated data.  So text
that was sealed for one tenant opens for another one only if the two sealings
coincide. *)
Theorem Cipher_correct `{AEADLaws} (c nonce p aad sealed : string) :
  String.length nonce = NonceSize → Encrypt c (Some nonce) p aad = Ok sealed →
  Decrypt c sealed aad = Ok p ∧
  (∀ text aad' q, Decrypt c text aad' = Ok q → ∃ nonce',
     DecodeString StdEncoding text = Some (nonce' +:+ Seal c nonce' q aad')) ∧
  (∀ aad' q, Decrypt c sealed aad' = Ok q → Seal c nonce q aad' = Seal c nonce p aad).
Proof.
  intros Hn. unfold Encrypt. destruct (Nat.eqb _ 0); [done|]. intros [= <-].
  assert (∀ aad', Decrypt c (EncodeToString StdEncoding (nonce +:+ Seal c nonce p aad)) aad' =
    match Open c nonce (Seal c nonce p aad) aad' with None => Err EOpen | Some q => Ok q end) as Hdec.
  { intros aad'. unfold Decrypt. rewrite (Decode_Encode _ StdEncoding_ok), length_str_app, Hn.
    rewrite (proj2 (Nat.ltb_ge _ _)) by lia. by rewrite <- Hn, slice_to_app, slice_from_app. }
  split_and!.
  - by rewrite Hdec, open_seal.
  - intros text aad' q. unfold Decrypt. destruct (DecodeString StdEncoding text) as [raw|]; [|done].
    destruct (Nat.ltb _ _); [done|]. destruct (Open _ _ _ _) eqn:E; [|done]. intros [= ->].
    apply open_only in E. exists (slice_to NonceSize raw). by rewrite <- E, slice_parts.
  - intros aad' q. rewrite Hdec. destruct (Open _ _ _ _) eqn:E; [|done]. intros [= ->]. symmetry. by apply open_only in E.
Qed.

(** ** Instances *)

(** A toy code in place of the cryptography: the key or the data precede the text. *)
Definition toy_mac (key text : string) : string := key +:+ text.
Definition toy_header (b : string) : option string := if String.eqb b "H" then Some "HS256" else None.
Definition toy_claims (b : string) : option (gmap string value) :=
  if String.eqb b "P" then Some {["exp" := VNumber 100; "sub" := VString "ana"]} else None.

#[local] Instance toy_AEAD : AEAD := {|
  NonceSize := 1;
  Seal _ _ p aad := Itoa (Z.of_nat (String.length aad)) +:+ "." +:+ aad +:+ p;
  Open _ _ c aad :=
    let pre := Itoa (Z.of_nat (String.length aad)) +:+ "." +:+ aad in
    if String.prefix pre c then Some (slice_from (String.length pre) c) else None |}.

#[local] Instance toy_AEAD_laws : AEADLaws.
Proof.
  split; simpl.
  - intros _ _ p aad. rewrite <- !str_app_assoc. rewrite prefix_app. f_equal. apply slice_from_app.
  - intros _ _ c aad p. destruct (String.prefix _ c) eqn:E; [|done]. intros [= <-].
    rewrite (prefix_split _ _ E) at 1. by rewrite !str_app_assoc.
Qed.

Lemma Base64_roundtrip_witness :
  DecodeString StdEncoding (EncodeToString StdEncoding "Go!?" +:+ String "010" "") = Some "Go!?" ∧
  EncodeToString RawURLEncoding "Go!?" = "R28hPw".
Proof. split; [apply Base64_roundtrip; [by left|by vm_compute]|by vm_compute]. Defined.

Lemma Jwt_correct_witness :
  Verify toy_mac toy_header toy_claims "k" (issue toy_mac "k" "H" "P") (99 * second) =
    Ok (mkJwtClaims "ana" 100 None {["exp" := VNumber 100; "sub" := VString "ana"]}) ∧
  Verify toy_mac toy_header toy_claims "k" (issue toy_mac "k" "H" "P") (100 * second) = Err ErrExpired ∧
  Verify toy_mac toy_header toy_claims "k" (issue toy_mac "x" "H" "P") 0 = Err ErrBadSignature.
Proof.
  split_and!.
  - etransitivity; [eapply (proj2 (Jwt_correct toy_mac toy_header toy_claims "k" _) "H" "P" _ 100); by vm_compute|by vm_compute].
  - etransitivity; [eapply (proj2 (Jwt_correct toy_mac toy_header toy_claims "k" _) "H" "P" _ 100); by vm_compute|by vm_compute].
  - by vm_compute.
Defined.

Definition toy_gateway : Gateway Limiter :=
  mkGateway [compile_route DefaultConfig (mkRoute "/pay" false true) (cr_pool demo_route)] (newCache 10 60) (Some lim0) 0.

Definition toy_request : Request := mkReq "POST" "/pay/1" "/pay/1" [] 2 ("Bearer " +:+ issue toy_mac "k" "H" "P").


Lemma Gateway_rate_witness :
  granted_count toy_mac toy_header toy_claims "k" (demo_env true) "client" (replicate 5 (0, toy_request)) toy_gateway
    * second ≤ 3 * second + (0 - 0) * 2.
Proof.
  apply (Gateway_rate toy_mac toy_header toy_claims "k" (demo_env true) "client" _ toy_gateway lim0);
    [done|apply lim0_sane|apply lim0_in_order| |repeat constructor; done|lia]. simpl. lia.
Defined.

Lemma Cipher_correct_witness :
  Decrypt "k" "eDEuQWhp" "A" = Ok "hi" ∧ Decrypt "k" "eDEuQWhp" "B" = Err EOpen.
Proof. split; [apply (Cipher_correct "k" "x" "hi" "A" "eDEuQWhp"); by vm_compute|by vm_compute]. Defined.
