(* ===== verification/GatewayMain.v ===== *)
(** * fintech-gateway-go/cmd/gateway: the gateway as it is started

[main] puts the pools, the limiter, the cache, the verifier and the two routes
together; the theorems follow the started gateway through any sequence of requests
and health ticks.  The hosts of the backends, HMAC-SHA256 and [encoding/json] are
parameters, as in [Auth]; what else a request meets (replies, clocks, random
numbers) is its environment. *)

From Stdlib Require Import ZArith Lia Ascii.
From stdpp Require Import base gmap strings list.
From S2P Require Import Prelude GoStrings Breaker TTLCache LoadBalancer Gateway RateLimit Auth.

Open Scope string_scope.
Open Scope list_scope.
Open Scope Z_scope.

(* [base] fintech-gateway-go/cmd/gateway *)

Definition payments_route : Route := mkRoute "/api/payments" false true.
Definition rates_route : Route := mkRoute "/api/rates" true false.
Definition demo_secret : string := "demo-signing-secret-do-not-use-in-prod".

(* [go] main.go:48-54 main *)
Definition payments_pool (host1 host2 : string) : result lb_error Pool :=
  NewPool LeastConnections [NewBackend "payments-1" host1 1; NewBackend "payments-2" host2 1] [].

(* [go] main.go:55-60 main *)
Definition rates_pool (host : string) : result lb_error Pool := NewPool RoundRobin [NewBackend "rates-1" host 1] [].

(** The gateway and the verifier's secret, or the first error, which ends the
process. *)
(* [go] main.go:40-92 main *)
Definition gateway_main (host1 host2 host3 : string) : result string (Gateway Limiter * string) :=
  match payments_pool host1 host2 with
  | Err _ => Err "payments pool"
  | Ok payments =>
      match rates_pool host3 with
      | Err _ => Err "rates pool"
      | Ok rates =>
          let limiter := newWithClock 500 1 50 in
          let rateCache := newCache 1000 (30 * second) in
          match newVerifier demo_secret with
          | Err _ => Err "verifier"
          | Ok secret =>
              match New DefaultConfig true true [(payments_route, payments); (rates_route, rates)] with
              | Err e => Err e
              | Ok routes => Ok (mkGateway routes rateCache (Some limiter) 0, secret)
              end
          end
      end
  end.

(* [go] main.go:94-97 main *)
Definition gateway_addr (port : string) : string := if negb (String.eqb port "") then ":" +:+ port else ":8080".

(** The demonstration's probe calls every backend healthy. *)
(* [go] main.go:62-67 main *)
Definition gateway_tick (g : Gateway Limiter) : Gateway Limiter :=
  mkGateway ((fun cr => mkCompiled (cr_route cr) (health_tick (fun _ => true) (cr_pool cr)) (cr_breakers cr)) <$> g_routes g)
    (g_cache g) (g_limiter g) (g_live g).

Section process.
Context (mac : string → string → string) (json_header : string → option string)
  (json_claims : string → option (gmap string value)).

(** What happens to the process: a request at a time in its environment, a health
tick, and a sweep of the limiter. *)
Inductive happening : Type :=
| HRequest (now : Z) (base : Env unit unit) (r : Request)
| HTick
| HSweep (now : Z) (shard : nat).

(** The environment of a request, with the settings of [main]. *)
(* [go] main.go:84-88 main *)
Definition main_env (secret : string) (now : Z) (base : Env unit unit) : Env Limiter JwtClaims :=
  with_auth mac json_header json_claims secret now
    (mkEnv unit unit DefaultConfig DefaultWAFConfig (e_patterns base) (e_verify base) (e_limit base) (e_clientKey base)
       (e_proxy base) (e_clock base) (e_rnd base) (e_now base) (e_now2 base)).

Definition gateway_step (secret : string) (g : Gateway Limiter) (h : happening) : Gateway Limiter :=
  match h with
  | HRequest now base r => (Handler (main_env secret now base) r g).1
  | HTick => gateway_tick g
  | HSweep now i => mkGateway (g_routes g) (g_cache g) (sweep_shard now i <$> g_limiter g) (g_live g)
  end.

Definition gateway_run (secret : string) (g : Gateway Limiter) (hs : list happening) : Gateway Limiter :=
  foldl (gateway_step secret) g hs.

(** ** Lemmas *)

(** No request changes what the routes are. *)
Lemma fetch_loop_route cfg proxy clock rnd key k a cr live e :
  cr_route (fetch_loop cfg proxy clock rnd key k a cr live e).1.1.1 = cr_route cr.
Proof.
  revert a cr live e. induction k as [|k IH]; intros a cr live e; [done|]. cbn [fetch_loop].
  destruct (Pick rnd key (cr_pool cr)) as [p [j|[]]]; try done. destruct (backends p !! j) as [b|]; [|done].
  destruct (cr_breakers cr !! ID b) as [br|]; [|done]. destruct (Breaker.Allow cfg (clock a) br) as [br1 []]; simpl.
  - destruct (_ <? 500); [done|]. destruct (a <? _)%nat; [|done].
    destruct (rec_release _ _) as [r2 l2]. match goal with |- context [fetch_loop ?a1 ?a2 ?a3 ?a4 ?a5 ?a6 ?a7 ?a8 ?a9 ?a10] =>
      specialize (IH a7 a8 a9 a10); destruct (fetch_loop a1 a2 a3 a4 a5 a6 a7 a8 a9 a10) as [[[cr' lv] out] n] end.
    exact IH.
  - by rewrite IH.
Qed.

Lemma route_handler_route {L C} (env : Env L C) r cr cache live :
  cr_route (route_handler env r cr cache live).1.1.1 = cr_route cr.
Proof.
  assert (∀ key, cr_route (run_fetch env key cr live).1.1.1 = cr_route cr) as Hf by (intros; apply fetch_loop_route).
  unfold route_handler. destruct (_ && _).
  - unfold serveCacheable. destruct (Cache_Get _ _ _) as [c1 [resp|]]; [done|]. unfold load_response.
    specialize (Hf (e_clientKey env r)). destruct (run_fetch env _ cr live) as [[[cr' lv] [rec|err|]] n]; simpl in Hf; [| |done].
    + destruct (rec_release rec lv) as [? lv']. destruct (Cache_op _ _) as [c2 [[?| |[?|?] []]|]]; done.
    + destruct (Cache_op _ _) as [c2 [[?| |[?|?] []]|]]; done.
  - unfold proxyDirect. specialize (Hf (e_clientKey env r)).
    destruct (run_fetch env _ cr live) as [[[cr' lv] [rec|err|]] n]; simpl in Hf; try done.
    by destruct (rec_release rec lv).
Qed.

Lemma Handler_routes {L C} (env : Env L C) r g :
  cr_route <$> g_routes (Handler env r g).1 = cr_route <$> g_routes g.
Proof.
  unfold Handler. destruct (waf_check _ _ r); [done|]. unfold serveHTTP.
  destruct (matchRoute (q_path r) (g_routes g)) as [i|]; [|done].
  destruct (match g_limiter g with Some l => _ | None => _ end) as [lim ok]. destruct (negb ok); [done|].
  destruct (g_routes g !! i) as [cr|] eqn:Hi; [|done].
  destruct (if RequireAuth (cr_route cr) then _ else _); [done|].
  pose proof (route_handler_route env r cr (g_cache g) (g_live g)) as Hr.
  destruct (route_handler env r cr (g_cache g) (g_live g)) as [[[cr' c'] l'] rep]. simpl in *.
  rewrite list_fmap_insert, Hr. apply list_insert_id. by rewrite list_lookup_fmap, Hi.
Qed.

Lemma gateway_run_routes secret g hs : cr_route <$> g_routes (gateway_run secret g hs) = cr_route <$> g_routes g.
Proof.
  unfold gateway_run. revert g. induction hs as [|h hs IH]; intros g; [done|]. simpl. rewrite IH.
  destruct h; simpl; [apply Handler_routes| |done]. by rewrite <- list_fmap_compose.
Qed.

(** The two routes and their paths. *)
Lemma main_routes (g : Gateway Limiter) path : cr_route <$> g_routes g = [payments_route; rates_route] →
  (String.prefix "/api/payments" path = true →
     matchRoute path (g_routes g) = Some 0%nat ∧ ∃ cr, g_routes g !! 0%nat = Some cr ∧ cr_route cr = payments_route) ∧
  (String.prefix "/api/rates" path = true →
     matchRoute path (g_routes g) = Some 1%nat ∧ ∃ cr, g_routes g !! 1%nat = Some cr ∧ cr_route cr = rates_route).
Proof.
  destruct (g_routes g) as [|c1 [|c2 [|? ?]]]; simpl; try done. intros [= H1 H2]. split; intros Hp; (split; [|eauto]);
    unfold matchRoute; cbn [match_loop]; rewrite H1, H2; cbn [PathPrefix payments_route rates_route].
  - rewrite Hp. by destruct (String.prefix "/api/rates" path).
  - assert (String.prefix "/api/payments" path = false) as ->; [|by rewrite Hp].
    rewrite (prefix_split _ _ Hp). reflexivity.
Qed.

(** What the chain answers: the firewall's refusal, 429, 401 for a missing or refused
token on a protected route, or what the route's handler gives. *)
Lemma Handler_answer (env : Env Limiter JwtClaims) r g i cr :
  matchRoute (q_path r) (g_routes g) = Some i → g_routes g !! i = Some cr →
  let '(g', rep) := Handler env r g in
  ((∃ code msg, rep = http_Error code msg ∧ (waf_check (e_patterns env) (e_waf env) r = Some code ∨ code = 429 ∨
        code = 401 ∧ RequireAuth (cr_route cr) = true)) ∧
     (g_routes g', g_cache g', g_live g') = (g_routes g, g_cache g, g_live g)) ∨
  ((RequireAuth (cr_route cr) = true → ∃ c, auth_check (e_verify env) r = Ok c) ∧
     rep = (route_handler env r cr (g_cache g) (g_live g)).2).
Proof.
  intros Hm Hi. unfold Handler. destruct (waf_check (e_patterns env) (e_waf env) r) as [st|] eqn:Hw.
  { left. split; [|done]. eexists _, _. split; [done|by left]. }
  unfold serveHTTP. rewrite Hm. destruct (match g_limiter g with Some l => _ | None => _ end) as [lim ok].
  destruct (negb ok); [left; split; [|done]; eexists _, _; split; [done|right; by left]|]. rewrite Hi.
  destruct (RequireAuth (cr_route cr)) eqn:Ha.
  - destruct (auth_check (e_verify env) r) as [c|m] eqn:Hc.
    + destruct (route_handler env r cr (g_cache g) (g_live g)) as [[[? ?] ?] rep]. right. split; [eauto|done].
    + left. split; [|done]. eexists _, _. split; [done|right; by right].
  - destruct (route_handler env r cr (g_cache g) (g_live g)) as [[[? ?] ?] rep]. right. split; [done|done].
Qed.

(** ** Properties *)

(** The started gateway protects payments and leaves rates open, after any
requests, health ticks and sweeps: it starts whatever the hosts are; a request
under [/api/payments] without a bearer token that the verifier accepts at that
time gets a refusal of the firewall, of the limiter or a 401 and reaches no
backend, cache or buffer; and a request under [/api/rates] is refused by the
firewall or the limiter only, with or without a token. *)
Theorem Payments_guarded (host1 host2 host3 : string) :
  ∃ g0, gateway_main host1 host2 host3 = Ok (g0, demo_secret) ∧
  ∀ hs now base r,
    let g := gateway_run demo_secret g0 hs in
    let env := main_env demo_secret now base in
    let '(g', rep) := Handler env r g in
    (String.prefix "/api/payments" (q_path r) = true →
     (∀ tok c, q_auth r = "Bearer " +:+ tok → ¬ accepted mac json_header json_claims demo_secret tok now c) →
     (∃ code msg, rep = http_Error code msg ∧
        (waf_check (e_patterns base) DefaultWAFConfig r = Some code ∨ code = 429 ∨ code = 401)) ∧
     (g_routes g', g_cache g', g_live g') = (g_routes g, g_cache g, g_live g)) ∧
    (String.prefix "/api/rates" (q_path r) = true →
     (∃ code msg, rep = http_Error code msg ∧ (waf_check (e_patterns base) DefaultWAFConfig r = Some code ∨ code = 429)) ∨
     (∃ cr, g_routes g !! 1%nat = Some cr ∧ rep = (route_handler env r cr (g_cache g) (g_live g)).2)).
Proof.
  eexists. split; [reflexivity|]. intros hs now base r.
  match goal with |- context [gateway_run _ ?g hs] => set (g0 := g) end. cbv zeta.
  pose proof (gateway_run_routes demo_secret g0 hs) as Hr. change (cr_route <$> g_routes g0) with [payments_route; rates_route] in Hr.
  set (g := gateway_run demo_secret g0 hs) in *. clearbody g. set (env := main_env demo_secret now base).
  destruct (main_routes g (q_path r) Hr) as [Hpay Hrate].
  destruct (Handler env r g) as [g' rep] eqn:EH. split.
  - intros Hp Hno. destruct (Hpay Hp) as (Hm & cr & Hi & Hcr).
    pose proof (Handler_answer env r g _ _ Hm Hi) as Ha. rewrite EH, Hcr in Ha.
    destruct Ha as [[(code & msg & Hrep & Hc) Hsame]|[Hauth _]].
    + split; [|done]. exists code, msg. split; [done|]. destruct Hc as [?|[?|[? _]]]; auto.
    + destruct (Hauth eq_refl) as [c Hc]. apply auth_check_token in Hc as (tok & Htok & Hv). exfalso.
      apply (Hno tok c Htok). apply Verify_accepted. simpl in Hv.
      by destruct (Verify mac json_header json_claims demo_secret tok now); simplify_eq.
  - intros Hp. destruct (Hrate Hp) as (Hm & cr & Hi & Hcr).
    pose proof (Handler_answer env r g _ _ Hm Hi) as Ha. rewrite EH in Ha.
    destruct Ha as [[(code & msg & Hrep & Hc) _]|[_ Hrep]]; [left|right; eauto].
    exists code, msg. split; [done|]. rewrite Hcr in Hc. destruct Hc as [?|[?|[_ ?]]]; [auto|auto|done].
Qed.
End process.

(** A request without a token on the started gateway, and one for a rate. *)
Definition anonymous (path : string) : Request := mkReq "GET" path path [] 2 "".

Example anonymous_payment_refused :
  match gateway_main "h1" "h2" "h3" with
  | Ok (g, secret) => (Handler (main_env toy_mac toy_header toy_claims secret 0 (demo_env true)) (anonymous "/api/payments/1") g).2
  | Err _ => Crash
  end = http_Error 401 "missing bearer token".
Proof. vm_compute. reflexivity. Qed.

Lemma Payments_guarded_witness :
  ∃ g0, gateway_main "h1" "h2" "h3" = Ok (g0, demo_secret) ∧
    ∃ code msg, (Handler (main_env toy_mac toy_header toy_claims demo_secret 0 (demo_env true)) (anonymous "/api/payments/1")
      (gateway_run toy_mac toy_header toy_claims demo_secret g0
         [HRequest 0 (demo_env true) (anonymous "/api/rates/usd-inr"); HTick])).2 = http_Error code msg.
Proof.
  destruct (Payments_guarded toy_mac toy_header toy_claims "h1" "h2" "h3") as (g0 & H0 & H). exists g0. split; [exact H0|].
  specialize (H [HRequest 0 (demo_env true) (anonymous "/api/rates/usd-inr"); HTick] 0 (demo_env true) (anonymous "/api/payments/1")).
  simpl in H. destruct (Handler _ _ _) as [g' rep]. destruct H as [Hp _]. destruct (Hp eq_refl) as [(code & msg & Hr & _) _].
  - intros tok c Htok. discriminate Htok.
  - exists code, msg. exact Hr.
Defined.
