(* ===== verification/Subscription.v ===== *)
(** * subscription-core: domain, stores, webhooks, reconciliation, entitlements

The domain (statuses, transitions, entitlements), the ports of [store] as the
class [Repo] with the laws the processor relies on and the in-memory store as
its instance, the webhook processor and its HTTP ingress, the reconciler, and
the cache-aside entitlement service.  Times are integers (nanoseconds).  The
billing provider is a record of its two operations; [fake] implements it. *)

From Stdlib Require Import ZArith Lia.
From stdpp Require Import base gmap strings fin_maps relations list.
From S2P Require Import Prelude.

Open Scope Z_scope.

(* [base] subscription-core *)

(** ** domain: subscriptions *)

(* [go] domain/subscription.go:9-9 Status *)
Definition Status : Type := string.

(* [go] domain/subscription.go:12-12 StatusTrialing *)
Definition StatusTrialing : Status := "trialing".
(* [go] domain/subscription.go:13-13 StatusActive *)
Definition StatusActive : Status := "active".
(* [go] domain/subscription.go:14-14 StatusPastDue *)
Definition StatusPastDue : Status := "past_due".
(* [go] domain/subscription.go:15-15 StatusCanceled *)
Definition StatusCanceled : Status := "canceled".
(* [go] domain/subscription.go:16-16 StatusPaused *)
Definition StatusPaused : Status := "paused".

(* [go] domain/subscription.go:20-36 Subscription *)
Record Subscription : Type := mkSub {
  s_ID : string; CustomerID : string; ProviderSubID : string; PlanID : string;
  s_Status : Status; SeatCount : Z; CurrentPeriodStart : Z; CurrentPeriodEnd : Z;
  CancelAtPeriodEnd : bool; TrialEnd : Z; ProviderUpdatedAt : Z }.

#[global] Instance Subscription_eq_dec : EqDecision Subscription.
Proof. solve_decision. Defined.

Definition with_status (to : Status) (s : Subscription) : Subscription :=
  mkSub (s_ID s) (CustomerID s) (ProviderSubID s) (PlanID s) to (SeatCount s)
    (CurrentPeriodStart s) (CurrentPeriodEnd s) (CancelAtPeriodEnd s) (TrialEnd s) (ProviderUpdatedAt s).

(** ** domain: state machine *)

(* [go] domain/statemachine.go:13-19 transitions *)
Definition transitions : list (Status * list Status) :=
  [ (StatusTrialing, [StatusActive; StatusPastDue; StatusCanceled; StatusPaused]);
    (StatusActive, [StatusPastDue; StatusCanceled; StatusPaused]);
    (StatusPastDue, [StatusActive; StatusCanceled]);
    (StatusPaused, [StatusActive; StatusCanceled]);
    (StatusCanceled, []) ].

(* [go] domain/statemachine.go:22-31 CanTransition *)
Definition CanTransition (from to : Status) : bool :=
  if String.eqb from to then true
  else match (list_to_map transitions : gmap string (list Status)) !! from with
       | None => false
       | Some targets => existsb (String.eqb to) targets
       end.

(* [go] domain/statemachine.go:35-41 ApplyTransition *)
Definition ApplyTransition (s : Subscription) (to : Status) : result string Subscription :=
  if negb (CanTransition (s_Status s) to)
  then Err ("illegal subscription state transition: " +:+ s_Status s +:+ " -> " +:+ to)
  else Ok (with_status to s).

(** ** domain: events *)

(* [go] domain/event.go:6-14 EventType *)
Definition EventType : Type := string.
Definition EventSubscriptionCreated : EventType := "subscription.created".
Definition EventSubscriptionUpdated : EventType := "subscription.updated".
Definition EventSubscriptionCanceled : EventType := "subscription.canceled".
Definition EventPaymentFailed : EventType := "payment.failed".
Definition EventPaymentSucceeded : EventType := "payment.succeeded".

(* [go] domain/event.go:18-23 Event *)
Record Event : Type := mkEvent {
  ProviderEventID : string; ev_Type : EventType; ev_Subscription : Subscription; OccurredAt : Z }.

(* [go] domain/event.go:27-43 Event.TargetStatus *)
Definition TargetStatus (e : Event) : Status :=
  if String.eqb (ev_Type e) EventSubscriptionCanceled then StatusCanceled
  else if String.eqb (ev_Type e) EventPaymentFailed then StatusPastDue
  else if String.eqb (ev_Type e) EventPaymentSucceeded then StatusActive
  else if String.eqb (ev_Type e) EventSubscriptionCreated
          || String.eqb (ev_Type e) EventSubscriptionUpdated then
    if negb (String.eqb (s_Status (ev_Subscription e)) "") then s_Status (ev_Subscription e)
    else StatusActive
  else s_Status (ev_Subscription e).

(** ** domain: plans and entitlements *)

(* [go] domain/entitlement.go:8-13 Plan *)
Record Plan : Type := mkPlan { p_ID : string; Tier : string; Features : gmap string Z; SeatIncluded : Z }.

(* [go] domain/entitlement.go:17-23 Entitlement *)
Record Entitlement : Type := mkEnt {
  SubscriptionID : string; e_Tier : string; e_Features : gmap string Z; Seats : Z; e_Active : bool }.

(* [go] domain/entitlement.go:26-34 DecisionReason *)
Inductive DecisionReason : Type :=
| ReasonAllowed | ReasonNotActive | ReasonFeatureOff | ReasonQuotaExceeded | ReasonUnknownFeature.

(* [go] domain/entitlement.go:37-41 Decision *)
Record Decision : Type := mkDec { dec_Allow : bool; Reason : DecisionReason; Limit : Z }.

(* [go] domain/entitlement.go:45-52 StatusGrantsAccess *)
Definition StatusGrantsAccess (s : Status) : bool :=
  String.eqb s StatusActive || String.eqb s StatusTrialing || String.eqb s StatusPastDue.

(* [go] domain/entitlement.go:56-68 DeriveEntitlement *)
Definition DeriveEntitlement (sub : Subscription) (plan : Plan) : Entitlement :=
  let seats := if SeatCount sub <? SeatIncluded plan then SeatIncluded plan else SeatCount sub in
  mkEnt (s_ID sub) (Tier plan) (Features plan) seats (StatusGrantsAccess (s_Status sub)).

(* [go] domain/entitlement.go:72-84 Entitlement.Evaluate *)
Definition Evaluate (e : Entitlement) (f : string) : Decision :=
  if negb (e_Active e) then mkDec false ReasonNotActive 0
  else match e_Features e !! f with
       | None => mkDec false ReasonUnknownFeature 0
       | Some limit => if limit =? 0 then mkDec false ReasonFeatureOff 0
                       else mkDec true ReasonAllowed limit
       end.

(** ** store: the ports *)

(** A store call either answers, finds nothing, or fails. *)
(* [go] store/store.go:13-13 ErrNotFound *)
Inductive store_err : Type := ErrNotFound | ErrStore.

(** The operations of [SubscriptionRepo], [WebhookEventRepo] and [PlanRepo] on a
store state, with the laws their clients rely on.  A failed write leaves the
store as it was. *)
(* [go] store/store.go:16-33 SubscriptionRepo *)
Class Repo (St : Type) : Type := {
  GetByProviderID : string → St → result store_err Subscription;
  GetBySubject : string → St → result store_err Subscription;
  Upsert : Subscription → St → result store_err St;
  MarkProcessed : string → St → result store_err (St * bool);
  GetPlan : string → St → result store_err Plan;
  processed : string → St → bool;
  upsert_get : ∀ s st st' id, Upsert s st = Ok st' →
    GetByProviderID id st' = if decide (id = ProviderSubID s) then Ok s else GetByProviderID id st;
  upsert_subject : ∀ s st st' subj, Upsert s st = Ok st' →
    GetBySubject subj st' = if decide (subj = CustomerID s) then Ok s else GetBySubject subj st;
  upsert_frame : ∀ s st st', Upsert s st = Ok st' →
    (∀ id, processed id st' = processed id st) ∧ ∀ p, GetPlan p st' = GetPlan p st;
  mark_ok : ∀ id st st' b, MarkProcessed id st = Ok (st', b) →
    b = negb (processed id st) ∧ (processed id st = true → st' = st) ∧
    (∀ i, processed i st' = bool_decide (i = id) || processed i st) ∧
    (∀ i, GetByProviderID i st' = GetByProviderID i st) ∧
    (∀ i, GetBySubject i st' = GetBySubject i st) ∧ (∀ p, GetPlan p st' = GetPlan p st) }.

(** ** store/memory *)

(* [go] store/memory/memory.go:14-20 Store *)
Record Store : Type := mkStore {
  byProv : gmap string Subscription; bySubj : gmap string Subscription;
  events : gmap string bool; plans : gmap string Plan }.

(* [go] store/memory/memory.go:23-30 New *)
Definition New : Store := mkStore ∅ ∅ ∅ ∅.

(* [go] store/memory/memory.go:33-37 Store.SeedPlan *)
Definition SeedPlan (p : Plan) (s : Store) : Store :=
  mkStore (byProv s) (bySubj s) (events s) (<[p_ID p := p]> (plans s)).

Definition found {A} (o : option A) : result store_err A :=
  match o with Some a => Ok a | None => Err ErrNotFound end.

(* [go] store/memory/memory.go:39-47 Store.GetByProviderID *)
Definition mem_GetByProviderID (id : string) (s : Store) : result store_err Subscription :=
  found (byProv s !! id).

(* [go] store/memory/memory.go:49-57 Store.GetBySubject *)
Definition mem_GetBySubject (subject : string) (s : Store) : result store_err Subscription :=
  found (bySubj s !! subject).

(* [go] store/memory/memory.go:59-65 Store.Upsert *)
Definition mem_Upsert (sub : Subscription) (s : Store) : result store_err Store :=
  Ok (mkStore (<[ProviderSubID sub := sub]> (byProv s)) (<[CustomerID sub := sub]> (bySubj s))
        (events s) (plans s)).

Definition seen (id : string) (s : Store) : bool := default false (events s !! id).

(* [go] store/memory/memory.go:67-75 Store.MarkProcessed *)
Definition mem_MarkProcessed (id : string) (s : Store) : result store_err (Store * bool) :=
  if seen id s then Ok (s, false)
  else Ok (mkStore (byProv s) (bySubj s) (<[id := true]> (events s)) (plans s), true).

(* [go] store/memory/memory.go:77-85 Store.Get *)
Definition mem_Get (planID : string) (s : Store) : result store_err Plan := found (plans s !! planID).

#[global] Program Instance Store_Repo : Repo Store := {
  GetByProviderID := mem_GetByProviderID; GetBySubject := mem_GetBySubject;
  Upsert := mem_Upsert; MarkProcessed := mem_MarkProcessed; GetPlan := mem_Get; processed := seen }.
Next Obligation.
  intros s st st' id [= <-]. unfold mem_GetByProviderID. simpl. rewrite lookup_insert.
  repeat case_decide; subst; done.
Qed.
Next Obligation.
  intros s st st' subj [= <-]. unfold mem_GetBySubject. simpl. rewrite lookup_insert.
  repeat case_decide; subst; done.
Qed.
Next Obligation. by intros s st st' [= <-]. Qed.
Next Obligation.
  intros id st st' b. unfold mem_MarkProcessed. destruct (seen id st) eqn:E; intros [= <- <-].
  - split_and!; try done. intros i. unfold bool_decide. case_decide; subst; simpl; [done|done].
  - split_and!; try done. intros i. unfold seen. simpl. rewrite lookup_insert.
    unfold bool_decide. repeat case_decide; subst; simpl; congruence.
Qed.

(** ** cache *)

(* [go] cache/cache.go:22-26 Memory *)
Record Memory : Type := mkMemory { mc_data : gmap string Entitlement; mc_down : bool }.

(* [go] cache/cache.go:29-31 NewMemory *)
Definition NewMemory : Memory := mkMemory ∅ false.

(* [go] cache/cache.go:34-38 Memory.SetDown *)
Definition SetDown (down : bool) (m : Memory) : Memory := mkMemory (mc_data m) down.

(* [go] cache/cache.go:40-48 Memory.Get *)
Definition cache_Get (subject : string) (m : Memory) : option Entitlement :=
  if mc_down m then None else mc_data m !! subject.

(* [go] cache/cache.go:50-57 Memory.Set *)
Definition cache_Set (subject : string) (e : Entitlement) (m : Memory) : Memory :=
  if mc_down m then m else mkMemory (<[subject := e]> (mc_data m)) (mc_down m).

(* [go] cache/cache.go:59-63 Memory.Bust *)
Definition cache_Bust (subject : string) (m : Memory) : Memory :=
  mkMemory (delete subject (mc_data m)) (mc_down m).

(** ** provider *)

(* [go] provider/provider.go:14-14 ErrInvalidSignature *)
Inductive prov_err : Type := ErrInvalidSignature | ErrProvider.

(* [go] provider/provider.go:17-24 BillingProvider *)
Record BillingProvider : Type := mkProvider {
  VerifyAndParse : string → string → result prov_err Event;
  FetchSubscription : string → result prov_err Subscription }.

(* [go] provider/fake/fake.go:17-21 Provider *)
Record FakeProvider : Type := mkFake { f_subs : gmap string Subscription; f_events : gmap string Event }.

(* [go] provider/fake/fake.go:24-29 New *)
Definition NewFake : FakeProvider := mkFake ∅ ∅.

(* [go] provider/fake/fake.go:32-36 Provider.StageEvent *)
Definition StageEvent (signature : string) (e : Event) (p : FakeProvider) : FakeProvider :=
  mkFake (f_subs p) (<[signature := e]> (f_events p)).

(* [go] provider/fake/fake.go:39-43 Provider.SetSubscription *)
Definition SetSubscription (s : Subscription) (p : FakeProvider) : FakeProvider :=
  mkFake (<[ProviderSubID s := s]> (f_subs p)) (f_events p).

(* [go] provider/fake/fake.go:45-63 Provider *)
Definition fake_provider (p : FakeProvider) : BillingProvider := mkProvider
  (fun _ sig => match f_events p !! sig with Some e => Ok e | None => Err ErrInvalidSignature end)
  (fun id => match f_subs p !! id with Some s => Ok s | None => Err ErrProvider end).

(** ** webhook *)

(* [go] webhook/processor.go:16-23 Result *)
Inductive Result : Type := ResultProcessed | ResultDuplicate | ResultStale | ResultIllegal.

Inductive handle_err : Type := HProvider (e : prov_err) | HStore (e : store_err).

(** The state the services share: the store and the cache. *)
(* [go] webhook/processor.go:27-32 Processor *)
Record world (St : Type) : Type := mkWorld { w_store : St; w_cache : Memory }.
Arguments mkWorld {St}. Arguments w_store {St}. Arguments w_cache {St}.

(** The snapshot fields an event carries into an existing subscription. *)
(* [go] webhook/processor.go:86-91 Processor.Handle *)
Definition carry_forward (updated snapshot : Subscription) : Subscription :=
  mkSub (s_ID updated) (CustomerID updated) (ProviderSubID updated) (PlanID snapshot) (s_Status updated)
    (SeatCount snapshot) (CurrentPeriodStart updated) (CurrentPeriodEnd snapshot)
    (CancelAtPeriodEnd snapshot) (TrialEnd updated) (ProviderUpdatedAt snapshot).

Section services.
Context {St : Type} `{Repo St}.
Implicit Types w : world St.

(** The write at the end of both branches: upsert, then bust the cache. *)
(* [go] webhook/processor.go:93-97 Processor.Handle *)
Definition persist (sub : Subscription) w : world St * result handle_err Result :=
  match Upsert sub (w_store w) with
  | Err e => (w, Err (HStore e))
  | Ok st => (mkWorld st (cache_Bust (CustomerID sub) (w_cache w)), Ok ResultProcessed)
  end.

(** What [Handle] makes of the record it reads: an answer, or the record to be
persisted. *)
(* [go] webhook/processor.go:60-91 Processor.Handle *)
Definition handle_decide (evt : Event) (st : St) : result handle_err Result + Subscription :=
  match GetByProviderID (ProviderSubID (ev_Subscription evt)) st with
  | Err ErrNotFound => inr (with_status (TargetStatus evt) (ev_Subscription evt))
  | Err e => inl (Err (HStore e))
  | Ok existing =>
      if ProviderUpdatedAt (ev_Subscription evt) <? ProviderUpdatedAt existing
      then inl (Ok ResultStale)
      else match ApplyTransition existing (TargetStatus evt) with
           | Err _ => inl (Ok ResultIllegal)
           | Ok updated => inr (carry_forward updated (ev_Subscription evt))
           end
  end.

(** [Handle] up to its write. *)
(* [go] webhook/processor.go:52-91 Processor.Handle *)
Definition handle_read (evt : Event) w : world St * (result handle_err Result + Subscription) :=
  match MarkProcessed (ProviderEventID evt) (w_store w) with
  | Err e => (w, inl (Err (HStore e)))
  | Ok (st, first) =>
      let w1 := mkWorld st (w_cache w) in
      if negb first then (w1, inl (Ok ResultDuplicate)) else (w1, handle_decide evt st)
  end.

(** [Handle] of an event whose signature was verified. *)
(* [go] webhook/processor.go:52-98 Processor.Handle *)
Definition handle_event (evt : Event) w : world St * result handle_err Result :=
  match handle_read evt w with
  | (w1, inl r) => (w1, r)
  | (w1, inr sub) => persist sub w1
  end.

(* [go] webhook/processor.go:46-98 Processor.Handle *)
Definition Handle (prov : BillingProvider) (payload signature : string) w
  : world St * result handle_err Result :=
  match VerifyAndParse prov payload signature with
  | Err e => (w, Err (HProvider e))
  | Ok evt => handle_event evt w
  end.

(* [go] webhook/ingress.go:33-58 Ingress.ServeHTTP *)
Definition Ingress_ServeHTTP (prov : BillingProvider) (method body signature : string) w
  : world St * Z * option Result :=
  if negb (String.eqb method "POST") then (w, 405, None)
  else match Handle prov body signature w with
       | (w', Ok res) => (w', 200, Some res)
       | (w', Err (HProvider ErrInvalidSignature)) => (w', 400, None)
       | (w', Err _) => (w', 500, None)
       end.

(** ** reconcile *)

(* [go] reconcile/reconciler.go:19-26 Outcome *)
Inductive Outcome : Type := OutcomeInSync | OutcomeRepaired | OutcomeAdopted | OutcomeStale.

(* [go] reconcile/reconciler.go:95-100 drifted *)
Definition drifted (local truth : Subscription) : bool :=
  negb (String.eqb (s_Status local) (s_Status truth)) ||
  negb (String.eqb (PlanID local) (PlanID truth)) ||
  negb (SeatCount local =? SeatCount truth) ||
  negb (Bool.eqb (CancelAtPeriodEnd local) (CancelAtPeriodEnd truth)).

(* [go] reconcile/reconciler.go:43-76 Reconciler.ReconcileOne *)
Definition ReconcileOne (prov : BillingProvider) (providerSubID : string) w
  : world St * result handle_err Outcome :=
  match FetchSubscription prov providerSubID with
  | Err e => (w, Err (HProvider e))
  | Ok truth =>
      let write o :=
        match Upsert truth (w_store w) with
        | Err e => (w, Err (HStore e))
        | Ok st => (mkWorld st (cache_Bust (CustomerID truth) (w_cache w)), Ok o)
        end in
      match GetByProviderID providerSubID (w_store w) with
      | Err ErrNotFound => write OutcomeAdopted
      | Err e => (w, Err (HStore e))
      | Ok local =>
          if ProviderUpdatedAt truth <? ProviderUpdatedAt local then (w, Ok OutcomeStale)
          else if negb (drifted local truth) then (w, Ok OutcomeInSync)
          else write OutcomeRepaired
      end
  end.

(* [go] reconcile/reconciler.go:81-91 Reconciler.ReconcileAll *)
Fixpoint ReconcileAll (prov : BillingProvider) (ids : list string) (out : gmap string Outcome) w
  : world St * gmap string Outcome * option handle_err :=
  match ids with
  | [] => (w, out, None)
  | id :: ids' =>
      match ReconcileOne prov id w with
      | (w', Err e) => (w', out, Some e)
      | (w', Ok res) => ReconcileAll prov ids' (<[id := res]> out) w'
      end
  end.

(** ** entitlements *)

(* [go] entitlements/service.go:43-53 Service.derive *)
Definition derive (subjectID : string) (st : St) : result store_err Entitlement :=
  match GetBySubject subjectID st with
  | Err e => Err e
  | Ok sub => match GetPlan (PlanID sub) st with
              | Err e => Err e
              | Ok plan => Ok (DeriveEntitlement sub plan)
              end
  end.

(** [Entitlement] up to its cache write: a hit, or what was derived. *)
(* [go] entitlements/service.go:32-38 Service.Entitlement *)
Definition ent_read (subjectID : string) w : Entitlement + result store_err Entitlement :=
  match cache_Get subjectID (w_cache w) with
  | Some e => inl e
  | None => inr (derive subjectID (w_store w))
  end.

(* [go] entitlements/service.go:39-40 Service.Entitlement *)
Definition ent_write (subjectID : string) (e : Entitlement) w : world St :=
  mkWorld (w_store w) (cache_Set subjectID e (w_cache w)).

(* [go] entitlements/service.go:31-41 Service.Entitlement *)
Definition Service_Entitlement (subjectID : string) w : world St * result store_err Entitlement :=
  match ent_read subjectID w with
  | inl e => (w, Ok e)
  | inr (Err e) => (w, Err e)
  | inr (Ok e) => (ent_write subjectID e w, Ok e)
  end.

(** [used] is what the meter reads for the subject and feature. *)
(* [go] entitlements/service.go:57-74 Service.Check *)
Definition Check_entitlement (used : string → string → result store_err Z) (subjectID feature : string) w
  : world St * result store_err Decision :=
  match Service_Entitlement subjectID w with
  | (w', Err e) => (w', Err e)
  | (w', Ok e) =>
      let d := Evaluate e feature in
      if negb (dec_Allow d) || (Limit d <? 0) then (w', Ok d)
      else match used subjectID feature with
           | Err e => (w', Err e)
           | Ok n => if Limit d <=? n then (w', Ok (mkDec false ReasonQuotaExceeded (Limit d)))
                     else (w', Ok d)
           end
  end.
End services.

(** ** Sequences of calls *)

(** The calls that touch the shared state, each running to its end. *)
Inductive sop : Type :=
| OHandle (evt : Event)
| OReconcile (prov : BillingProvider) (id : string)
| OEntitle (subject : string)
| OSetDown (down : bool).

Section runs.
Context {St : Type} `{Repo St}.
Implicit Types w : world St.

Definition sstep w (o : sop) : world St :=
  match o with
  | OHandle evt => (handle_event evt w).1
  | OReconcile prov id => (ReconcileOne prov id w).1
  | OEntitle subj => (Service_Entitlement subj w).1
  | OSetDown d => mkWorld (w_store w) (SetDown d (w_cache w))
  end.

Definition srun (ops : list sop) w : world St := foldl sstep w ops.

(** ** The state machine *)

Lemma canceled_terminal to : CanTransition StatusCanceled to = true → to = StatusCanceled.
Proof.
  unfold CanTransition. destruct (String.eqb StatusCanceled to) eqn:E; [by zbool|done].
Qed.

(** A status reachable by legal transitions. *)
Definition reaches : relation Status := rtc (fun a b => CanTransition a b = true).

Lemma reaches_canceled to : reaches StatusCanceled to → to = StatusCanceled.
Proof.
  intros Hr. apply (rtc_invariant _ (fun x => x = StatusCanceled) _ _) in Hr; [done| |done].
  intros x y -> Hxy. by apply canceled_terminal.
Qed.

Lemma ApplyTransition_Ok s to s' : ApplyTransition s to = Ok s' ↔
  CanTransition (s_Status s) to = true ∧ s' = with_status to s.
Proof.
  unfold ApplyTransition. destruct (CanTransition (s_Status s) to); simpl; split; naive_solver.
Qed.

(** ** Frames: what a call leaves unchanged *)

(** Records are stored under their own provider id. *)
Definition ids_ok (st : St) : Prop := ∀ id s, GetByProviderID id st = Ok s → ProviderSubID s = id.

(** What one handled event may do to the record of [id]. *)
Definition advances (s s' : Subscription) : Prop :=
  s' = s ∨ ProviderUpdatedAt s ≤ ProviderUpdatedAt s' ∧
    CanTransition (s_Status s) (s_Status s') = true ∧ CustomerID s' = CustomerID s ∧ s_ID s' = s_ID s.

Lemma persist_store sub w w' r : persist sub w = (w', r) →
  (w' = w ∨ ∃ st, Upsert sub (w_store w) = Ok st ∧ w' = mkWorld st (cache_Bust (CustomerID sub) (w_cache w))).
Proof. unfold persist. destruct (Upsert sub (w_store w)); intros [= <- <-]; eauto. Qed.

Lemma handle_read_store evt w w1 out : handle_read evt w = (w1, out) →
  w_cache w1 = w_cache w ∧
  (∀ id, GetByProviderID id (w_store w1) = GetByProviderID id (w_store w)) ∧
  (∀ x, GetBySubject x (w_store w1) = GetBySubject x (w_store w)) ∧
  (∀ p, GetPlan p (w_store w1) = GetPlan p (w_store w)) ∧
  (∀ i, processed i (w_store w) = true → processed i (w_store w1) = true) ∧
  match out with
  | inl (Err (HStore _)) => True
  | inl (Err (HProvider _)) => False
  | inl (Ok ResultDuplicate) => processed (ProviderEventID evt) (w_store w) = true ∧ w1 = w
  | _ => processed (ProviderEventID evt) (w_store w1) = true ∧
         processed (ProviderEventID evt) (w_store w) = false
  end ∧
  match out with
  | inr sub =>
      match GetByProviderID (ProviderSubID (ev_Subscription evt)) (w_store w) with
      | Ok s => advances s sub ∧ ProviderSubID sub = ProviderSubID s
      | Err ErrNotFound => ProviderSubID sub = ProviderSubID (ev_Subscription evt)
      | Err ErrStore => False
      end
  | inl _ => True
  end.
Proof.
  unfold handle_read. destruct (MarkProcessed _ _) as [[st first]|e] eqn:Em;
    [|intros [= <- <-]; by split_and!].
  apply mark_ok in Em as (-> & Hsame & Hp & Hg & Hs & Hpl).
  assert (∀ i, processed i (w_store w) = true → processed i st = true) as Hmono.
  { intros i Hi. rewrite Hp, Hi. by rewrite orb_true_r. }
  assert (processed (ProviderEventID evt) st = true) as Hev.
  { rewrite Hp, bool_decide_eq_true_2 by done. done. }
  destruct (processed (ProviderEventID evt) (w_store w)) eqn:Epr; simpl.
  { intros [= <- <-]. rewrite Hsame by done. by destruct w; split_and!. }
  unfold handle_decide. destruct (GetByProviderID (ProviderSubID (ev_Subscription evt)) st) as [s|[]] eqn:Eg.
  - rewrite Hg in Eg. destruct (_ <? _) eqn:Ew; [intros [= <- <-]; by split_and!|].
    destruct (ApplyTransition s (TargetStatus evt)) as [u|] eqn:Ea; intros [= <- <-]; split_and!; try done.
    rewrite Eg. apply ApplyTransition_Ok in Ea as [Hc ->]. zbool. split; [right|done]. by split_and!.
  - rewrite Hg in Eg. intros [= <- <-]; split_and!; try done. by rewrite Eg.
  - intros [= <- <-]. by split_and!.
Qed.

Lemma ids_ok_upsert sub st st' : Upsert sub st = Ok st' → ids_ok st → ids_ok st'.
Proof. intros Hu Hi id s. rewrite (upsert_get _ _ _ id Hu). case_decide; naive_solver. Qed.

(** One handled event advances every stored record or leaves it. *)
Lemma handle_event_advances evt w id s : ids_ok (w_store w) →
  GetByProviderID id (w_store w) = Ok s →
  ids_ok (w_store (handle_event evt w).1) ∧
  ∃ s', GetByProviderID id (w_store (handle_event evt w).1) = Ok s' ∧ advances s s'.
Proof.
  intros Hids Hs. unfold handle_event. destruct (handle_read evt w) as [w1 out] eqn:Er.
  apply handle_read_store in Er as (_ & Hg & _ & _ & _ & _ & Hadv).
  assert (ids_ok (w_store w1)) as Hids1 by (intros i x; rewrite Hg; apply Hids).
  assert (GetByProviderID id (w_store w1) = Ok s) as Hs1 by by rewrite Hg.
  destruct out as [r|sub]; [split; [done|]; exists s; split; [done|by left]|].
  destruct (persist sub w1) as [w' r] eqn:Ep.
  destruct (persist_store _ _ _ _ Ep) as [->|(st & Hu & ->)]; simpl.
  { split; [done|]. exists s. split; [done|by left]. }
  split; [by eapply ids_ok_upsert|]. rewrite (upsert_get _ _ _ id Hu).
  case_decide as Hd; [|exists s; split; [done|by left]]. exists sub. split; [done|].
  subst id. destruct (GetByProviderID (ProviderSubID (ev_Subscription evt)) (w_store w)) as [x|[]] eqn:Ex;
    [|congruence|done].
  destruct Hadv as [Ha Hp]. apply Hids in Ex as Hid. rewrite Hp, Hid in Hs. congruence.
Qed.

(** ** Deliveries side by side

The processor serves deliveries concurrently, and each of its calls on the store and
the cache is a step of its own: marking the event, reading the record, writing it,
busting the cache.  A delivery may also be dropped at any point, by a crash or an
error.  [d_read] carries the one condition: no delivery reads a subscription that
another one has read and not yet written or given up. *)
Inductive delivery : Type :=
| DMark (evt : Event) | DRead (evt : Event) | DWrite (sub : Subscription) | DBust (customer : string).

Definition writes_to (id : string) (d : delivery) : Prop :=
  match d with DWrite sub => ProviderSubID sub = id | _ => False end.

Inductive dstep : world St * list delivery → world St * list delivery → Prop :=
| d_arrive w ds evt : dstep (w, ds) (w, ds ++ [DMark evt])
| d_drop w ds i : dstep (w, ds) (w, delete i ds)
| d_mark w ds i evt st : ds !! i = Some (DMark evt) → MarkProcessed (ProviderEventID evt) (w_store w) = Ok (st, true) →
    dstep (w, ds) (mkWorld st (w_cache w), <[i := DRead evt]> ds)
| d_duplicate w ds i evt st : ds !! i = Some (DMark evt) → MarkProcessed (ProviderEventID evt) (w_store w) = Ok (st, false) →
    dstep (w, ds) (mkWorld st (w_cache w), delete i ds)
| d_read w ds i evt sub : ds !! i = Some (DRead evt) →
    Forall (fun d => ¬ writes_to (ProviderSubID (ev_Subscription evt)) d) ds →
    handle_decide evt (w_store w) = inr sub → dstep (w, ds) (w, <[i := DWrite sub]> ds)
| d_answer w ds i evt r : ds !! i = Some (DRead evt) → handle_decide evt (w_store w) = inl r →
    dstep (w, ds) (w, delete i ds)
| d_write w ds i sub st : ds !! i = Some (DWrite sub) → Upsert sub (w_store w) = Ok st →
    dstep (w, ds) (mkWorld st (w_cache w), <[i := DBust (CustomerID sub)]> ds)
| d_bust w ds i customer : ds !! i = Some (DBust customer) →
    dstep (w, ds) (mkWorld (w_store w) (cache_Bust customer (w_cache w)), delete i ds).

(** What a record may become. *)
Definition follows (s s' : Subscription) : Prop :=
  ProviderUpdatedAt s ≤ ProviderUpdatedAt s' ∧ reaches (s_Status s) (s_Status s') ∧
  CustomerID s' = CustomerID s ∧ s_ID s' = s_ID s.

Lemma follows_advances s s1 s2 : follows s s1 → advances s1 s2 → follows s s2.
Proof.
  intros (H1 & H2 & H3 & H4) [->|(? & ? & ? & ?)]; [done|]. split_and!; [lia| |congruence..]. by eapply rtc_r.
Qed.

Lemma handle_decide_advances evt st sub s : ids_ok st → handle_decide evt st = inr sub →
  ProviderSubID sub = ProviderSubID (ev_Subscription evt) ∧
  (GetByProviderID (ProviderSubID (ev_Subscription evt)) st = Ok s → advances s sub).
Proof.
  intros Hids. unfold handle_decide. destruct (GetByProviderID _ st) as [x|[]] eqn:Eg; [|by intros [= <-]|done].
  destruct (_ <? _) eqn:Ew; [done|]. destruct (ApplyTransition x (TargetStatus evt)) as [u|] eqn:Ea; [|done].
  intros [= <-]. apply ApplyTransition_Ok in Ea as [Hc ->]. zbool. pose proof (Hids _ _ Eg) as Hid.
  split; [done|]. intros [= <-]. right. by split_and!.
Qed.

(** The record of [id] follows [s], and the delivery about to write it, of which there is
at most one, would advance it. *)
Record dinv (id : string) (s : Subscription) (x : world St * list delivery) : Prop := {
  di_ids : ids_ok (w_store x.1);
  di_record : ∃ s', GetByProviderID id (w_store x.1) = Ok s' ∧ follows s s' ∧
    ∀ i sub, x.2 !! i = Some (DWrite sub) → ProviderSubID sub = id → advances s' sub;
  di_one : ∀ i j sub sub', x.2 !! i = Some (DWrite sub) → x.2 !! j = Some (DWrite sub') →
    ProviderSubID sub = id → ProviderSubID sub' = id → i = j }.

(** Steps that leave the records alone and put no new write on the way. *)
Lemma dinv_frame id s w w' ds ds' (f : nat → nat) : dinv id s (w, ds) →
  (∀ k, GetByProviderID k (w_store w') = GetByProviderID k (w_store w)) →
  (∀ i sub, ds' !! i = Some (DWrite sub) → ds !! f i = Some (DWrite sub)) → Inj (=) (=) f → dinv id s (w', ds').
Proof.
  intros [Hids (s' & Hs' & Hf & Hw) Ho] Hg Hd Hinj. split; simpl in *.
  - intros k x. rewrite Hg. apply Hids.
  - exists s'. rewrite Hg. split_and!; eauto.
  - intros i j x y Hi Hj Hx Hy. apply (inj f). eauto.
Qed.

Lemma insert_write (ds : list delivery) (i : nat) d (k : nat) sub : (∀ sub, d ≠ DWrite sub) →
  <[i := d]> ds !! k = Some (DWrite sub) → ds !! k = Some (DWrite sub).
Proof. intros Hd [(_ & Heq & _)|[_ Hk]]%list_lookup_insert_Some; [by destruct (Hd sub)|done]. Qed.

Definition skip (i k : nat) : nat := if decide (k < i)%nat then k else S k.

Lemma skip_inj i : Inj (=) (=) (skip i).
Proof. intros a b. unfold skip. repeat case_decide; lia. Qed.

Lemma delete_skip (ds : list delivery) i k : delete i ds !! k = ds !! skip i k.
Proof. unfold skip. rewrite list_lookup_delete. by case_decide. Qed.

Lemma dinv_delete id s w w' ds i : dinv id s (w, ds) →
  (∀ k, GetByProviderID k (w_store w') = GetByProviderID k (w_store w)) → dinv id s (w', delete i ds).
Proof.
  intros Hinv Hg. eapply (dinv_frame id s w w' ds _ (skip i)); [done|done| |apply skip_inj].
  intros k sub. by rewrite delete_skip.
Qed.

Lemma dinv_insert id s w w' ds i d : dinv id s (w, ds) → (∀ sub, d ≠ DWrite sub) →
  (∀ k, GetByProviderID k (w_store w') = GetByProviderID k (w_store w)) → dinv id s (w', <[i := d]> ds).
Proof.
  intros Hinv Hd Hg. eapply (dinv_frame id s w w' ds _ (fun k => k)); [done|done| |by intros ?].
  intros k sub. by apply insert_write.
Qed.

Lemma dinv_read id s w ds i evt sub : dinv id s (w, ds) → ds !! i = Some (DRead evt) →
  Forall (fun d => ¬ writes_to (ProviderSubID (ev_Subscription evt)) d) ds →
  handle_decide evt (w_store w) = inr sub → dinv id s (w, <[i := DWrite sub]> ds).
Proof.
  intros [Hids (s' & Hs' & Hf & Hw) Ho] Hi Hex Hd. simpl in *.
  destruct (handle_decide_advances evt (w_store w) sub s' Hids Hd) as [Hid Hadv].
  assert (∀ j x, ds !! j = Some (DWrite x) → ProviderSubID x = id → ProviderSubID sub ≠ id) as Hnone.
  { intros j x Hj Hx Hs. rewrite Forall_lookup in Hex. apply (Hex j _ Hj). simpl. congruence. }
  split; simpl; [done| |].
  - exists s'. split_and!; [done|done|]. intros j x [(_ & [= <-] & _)|[_ Hj]]%list_lookup_insert_Some Hx; [|eauto].
    apply Hadv. congruence.
  - intros j j' x x' [(-> & [= <-] & _)|[Hne Hj]]%list_lookup_insert_Some
      [(-> & [= <-] & _)|[Hne' Hj']]%list_lookup_insert_Some Hx Hx'; [done| | |eauto].
    + by destruct (Hnone _ _ Hj' Hx').
    + by destruct (Hnone _ _ Hj Hx).
Qed.

Lemma dinv_write id s w ds i sub st : dinv id s (w, ds) → ds !! i = Some (DWrite sub) →
  Upsert sub (w_store w) = Ok st → dinv id s (mkWorld st (w_cache w), <[i := DBust (CustomerID sub)]> ds).
Proof.
  intros [Hids (s' & Hs' & Hf & Hw) Ho] Hi Hu. simpl in *.
  assert (∀ j x, <[i := DBust (CustomerID sub)]> ds !! j = Some (DWrite x) → ds !! j = Some (DWrite x) ∧ j ≠ i) as Hins.
  { intros j x [(_ & ? & _)|[? ?]]%list_lookup_insert_Some; [done|by split]. }
  split; simpl; [by eapply ids_ok_upsert| |].
  - rewrite (upsert_get _ _ _ id Hu). case_decide as Hd.
    + exists sub. split_and!; [done|by eapply follows_advances, Hw|].
      intros j x [Hj Hne]%Hins Hx. destruct Hne. by eapply Ho.
    + exists s'. split_and!; [done|done|]. intros j x [Hj _]%Hins. by apply (Hw j).
  - intros j j' x x' [Hj _]%Hins [Hj' _]%Hins. by apply Ho.
Qed.

Lemma dinv_step id s x y : dinv id s x → dstep x y → dinv id s y.
Proof.
  intros Hinv Hs. destruct Hs as [w ds evt|w ds i|w ds i evt st Hi Hm|w ds i evt st Hi Hm|w ds i evt sub Hi Hex Hd
    |w ds i evt r Hi Hd|w ds i sub st Hi Hu|w ds i customer Hi].
  - eapply (dinv_frame id s w w ds _ (fun k => k)); [done|done| |by intros ?].
    intros k sub [H1|[_ H1]]%lookup_app_Some; [done|]. by apply list_lookup_singleton_Some in H1 as [_ ?].
  - by eapply dinv_delete.
  - apply mark_ok in Hm as (_ & _ & _ & Hg & _). by eapply dinv_insert.
  - apply mark_ok in Hm as (_ & _ & _ & Hg & _). by eapply dinv_delete.
  - by eapply dinv_read.
  - by eapply dinv_delete.
  - by eapply dinv_write.
  - by eapply dinv_delete.
Qed.

(** A processed event stays processed. *)
Lemma sstep_processed o w i : processed i (w_store w) = true → processed i (w_store (sstep w o)) = true.
Proof.
  intros Hp. destruct o as [evt|prov id|subj|d]; simpl; try done.
  - unfold handle_event. destruct (handle_read evt w) as [w1 out] eqn:Er.
    apply handle_read_store in Er as (_ & _ & _ & _ & Hm & _). destruct out as [r|sub]; [by apply Hm|].
    destruct (persist sub w1) as [w' r] eqn:Ep.
    destruct (persist_store _ _ _ _ Ep) as [->|(st & Hu & ->)]; simpl; [by apply Hm|].
    apply upsert_frame in Hu as [Hf _]. rewrite Hf. by apply Hm.
  - unfold ReconcileOne. destruct (FetchSubscription prov id) as [truth|]; [|done].
    assert (∀ o, processed i (w_store (match Upsert truth (w_store w) with
      | Err e => (w, Err (HStore e))
      | Ok st => (mkWorld st (cache_Bust (CustomerID truth) (w_cache w)), Ok o) end
      : world St * result handle_err Outcome).1) = true) as Hw.
    { intros o. destruct (Upsert truth (w_store w)) eqn:Hu; [|done]. simpl.
      apply upsert_frame in Hu as [Hf _]. by rewrite Hf. }
    destruct (GetByProviderID id (w_store w)) as [local|[]]; [|apply (Hw OutcomeAdopted)|done].
    destruct (_ <? _); [done|]. destruct (negb _); [done|]. apply (Hw OutcomeRepaired).
  - unfold Service_Entitlement. repeat case_match; done.
Qed.

Lemma srun_processed ops w i : processed i (w_store w) = true → processed i (w_store (srun ops w)) = true.
Proof. unfold srun. revert w. induction ops as [|o ops IH]; intros w Hp; simpl; eauto using sstep_processed. Qed.

(** ** Cache coherence *)

(** Every cached entitlement is what the store derives. *)
Definition coherent w : Prop :=
  ∀ subj e, mc_data (w_cache w) !! subj = Some e → derive subj (w_store w) = Ok e.

Lemma derive_ext subj st st' : GetBySubject subj st' = GetBySubject subj st →
  (∀ p, GetPlan p st' = GetPlan p st) → derive subj st' = derive subj st.
Proof. intros Hs Hp. unfold derive. rewrite Hs. destruct (GetBySubject subj st); by rewrite ?Hp. Qed.

(** Upserting a record and busting its customer keeps the cache coherent. *)
Lemma coherent_write sub w st : Upsert sub (w_store w) = Ok st → coherent w →
  coherent (mkWorld st (cache_Bust (CustomerID sub) (w_cache w))).
Proof.
  intros Hu Hc subj e. simpl. intros [Hne He]%lookup_delete_Some. rewrite <- (Hc subj e He).
  apply derive_ext; [|apply (upsert_frame _ _ _ Hu)].
  rewrite (upsert_subject _ _ _ subj Hu). by rewrite decide_False.
Qed.

Lemma sstep_coherent o w : coherent w → coherent (sstep w o).
Proof.
  intros Hc. destruct o as [evt|prov id|subj|d]; simpl.
  - unfold handle_event. destruct (handle_read evt w) as [w1 out] eqn:Er.
    apply handle_read_store in Er as (Hca & _ & Hsub & Hpl & _).
    assert (coherent w1) as Hc1.
    { intros subj e. rewrite Hca. intros He. rewrite <- (Hc subj e He). by apply derive_ext. }
    destruct out as [r|sub]; [done|]. destruct (persist sub w1) as [w' r] eqn:Ep.
    destruct (persist_store _ _ _ _ Ep) as [->|(st & Hu & ->)]; simpl; [done|]. by apply coherent_write.
  - unfold ReconcileOne. destruct (FetchSubscription prov id) as [truth|]; [|done].
    destruct (Upsert truth (w_store w)) eqn:Hu; repeat case_match; simpl; try done; by apply coherent_write.
  - unfold Service_Entitlement, ent_read.
    destruct (cache_Get subj (w_cache w)); [done|]. destruct (derive subj (w_store w)) as [e|] eqn:Ed; [|done].
    intros x e'. simpl. unfold cache_Set. destruct (mc_down (w_cache w)); [apply Hc|].
    simpl. intros [[<- <-]|[_ He]]%lookup_insert_Some; [done|by apply Hc].
  - exact Hc.
Qed.

Lemma srun_coherent ops w : coherent w → coherent (srun ops w).
Proof. unfold srun. revert w. induction ops as [|o ops IH]; intros w Hc; simpl; eauto using sstep_coherent. Qed.

Lemma Service_Entitlement_derive subj w : coherent w →
  (Service_Entitlement subj w).2 = derive subj (w_store w).
Proof.
  intros Hc. unfold Service_Entitlement, ent_read, cache_Get.
  destruct (mc_down (w_cache w)); [by destruct (derive subj (w_store w))|].
  destruct (mc_data (w_cache w) !! subj) as [e|] eqn:He; [by rewrite (Hc subj e He)|].
  by destruct (derive subj (w_store w)).
Qed.
End runs.

(** ** Main results *)

Section theorems.
Context {St : Type} `{Repo St}.
Implicit Types w : world St.

(** Webhooks are idempotent: once an event was answered, every later
delivery of it, after any other calls, is answered as a duplicate (unless the
store fails) and changes nothing. *)
Theorem Handle_idempotent (evt evt' : Event) (ops : list sop) w r r' :
  (handle_event evt w).2 = Ok r → ProviderEventID evt' = ProviderEventID evt →
  let w2 := srun ops (handle_event evt w).1 in
  (handle_event evt' w2).2 = Ok r' → r' = ResultDuplicate ∧ (handle_event evt' w2).1 = w2.
Proof.
  intros Hr Hid w2 Hr'. assert (processed (ProviderEventID evt) (w_store w2) = true) as Hp.
  { apply srun_processed. unfold handle_event in *. destruct (handle_read evt w) as [w1 out] eqn:Er.
    apply handle_read_store in Er as (_ & _ & _ & _ & Hm & Hout & _).
    destruct out as [[[]|[]]|sub]; simpl in *; try done; try apply Hout; [apply Hm, Hout|].
    destruct (persist sub w1) as [w' x] eqn:Ep.
    destruct (persist_store _ _ _ _ Ep) as [->|(st & Hu & ->)]; simpl; [apply Hout|].
    apply upsert_frame in Hu as [Hf _]. rewrite Hf. apply Hout. }
  rewrite <- Hid in Hp. unfold handle_event in *. destruct (handle_read evt' w2) as [w3 out] eqn:Er.
  apply handle_read_store in Er as (_ & _ & _ & _ & _ & Hout & _).
  destruct out as [[[]|[]]|sub]; simpl in *; try done; try (destruct Hout; congruence).
  injection Hr' as <-. by destruct Hout as [_ ->].
Qed.

(** C28: Ordering and the state machine.  Webhooks are delivered in any order, any number
of times and side by side, their store calls interleaved and any of them dropped
half-way, under one condition: while one delivery has read a subscription and not yet
written it, no other delivery reads the same subscription.  Then a stored
subscription keeps its identity, its provider watermark never goes back, its status
only follows declared transitions, and a cancelled one stays cancelled.  Without the
condition an update is lost ([Handle_lost_update]). *)
Theorem Handle_ordered w id s w' ds : ids_ok (w_store w) → GetByProviderID id (w_store w) = Ok s →
  rtc dstep (w, []) (w', ds) →
  ∃ s', GetByProviderID id (w_store w') = Ok s' ∧
    ProviderUpdatedAt s ≤ ProviderUpdatedAt s' ∧ reaches (s_Status s) (s_Status s') ∧
    CustomerID s' = CustomerID s ∧ s_ID s' = s_ID s ∧
    (s_Status s = StatusCanceled → s_Status s' = StatusCanceled).
Proof.
  intros Hids Hs Hr. assert (dinv id s (w', ds)) as [_ (s' & Hs' & (H1 & H2 & H3 & H4) & _) _].
  { eapply rtc_invariant; [apply dinv_step|exact Hr|]. split; simpl; [done| |done].
    exists s. split_and!; try done. }
  exists s'. split_and!; try done. intros Hc. rewrite Hc in H2. by apply reaches_canceled.
Qed.

(** The entitlement service answers from the source of truth: after any
sequence of complete webhook, reconciliation and entitlement calls, with the
cache going down and up in between, a decision is the one of the stored
subscription and plan, whether or not the cache had the entitlement. *)
Theorem Check_correct (ops : list sop) w used subj f :
  coherent w →
  let w' := srun ops w in
  (Check_entitlement used subj f w').2 =
    match derive subj (w_store w') with
    | Err e => Err e
    | Ok e =>
        if negb (e_Active e) then Ok (mkDec false ReasonNotActive 0)
        else match e_Features e !! f with
             | None => Ok (mkDec false ReasonUnknownFeature 0)
             | Some limit =>
                 if limit =? 0 then Ok (mkDec false ReasonFeatureOff 0)
                 else if limit <? 0 then Ok (mkDec true ReasonAllowed limit)
                 else match used subj f with
                      | Err e => Err e
                      | Ok n => if n <? limit then Ok (mkDec true ReasonAllowed limit)
                                else Ok (mkDec false ReasonQuotaExceeded limit)
                      end
             end
    end.
Proof.
  intros Hc w'. pose proof (Service_Entitlement_derive subj w' (srun_coherent ops w Hc)) as He.
  unfold Check_entitlement. destruct (Service_Entitlement subj w') as [w'' r]. simpl in He. subst r.
  destruct (derive subj (w_store w')) as [e|]; [|done]. unfold Evaluate.
  destruct (negb (e_Active e)); [done|]. destruct (e_Features e !! f) as [limit|]; [|done].
  destruct (limit =? 0); [done|]. simpl. destruct (limit <? 0); [done|].
  destruct (used subj f) as [n|]; [|done].
  destruct (limit <=? n) eqn:E1, (n <? limit) eqn:E2; zbool; try done; lia.
Qed.

(** Reconciliation repairs drift: when it reports [adopted] or [repaired]
the stored record is the provider's; [in_sync] means the billing fields
agree, [stale] that the local record is newer, and nothing changed; a second
run with the same provider state repairs nothing. *)
Theorem ReconcileOne_repairs (prov : BillingProvider) (id : string) w w' o truth :
  FetchSubscription prov id = Ok truth → ProviderSubID truth = id →
  ReconcileOne prov id w = (w', Ok o) →
  match o with
  | OutcomeAdopted => GetByProviderID id (w_store w) = Err ErrNotFound ∧
      GetByProviderID id (w_store w') = Ok truth
  | OutcomeRepaired => GetByProviderID id (w_store w') = Ok truth
  | OutcomeInSync => w' = w ∧ ∃ local, GetByProviderID id (w_store w) = Ok local ∧ drifted local truth = false
  | OutcomeStale => w' = w ∧ ∃ local, GetByProviderID id (w_store w) = Ok local ∧
      ProviderUpdatedAt truth < ProviderUpdatedAt local
  end ∧
  (o = OutcomeStale ∨ ReconcileOne prov id w' = (w', Ok OutcomeInSync)).
Proof.
  intros Ht Hid Hrun.
  assert (drifted truth truth = false) as Hself.
  { unfold drifted. by rewrite !String.eqb_refl, Z.eqb_refl, Bool.eqb_reflx. }
  assert (∀ w1 l, GetByProviderID id (w_store w1) = Ok l →
    (ProviderUpdatedAt truth <? ProviderUpdatedAt l) = false → drifted l truth = false →
    ReconcileOne prov id w1 = (w1, Ok OutcomeInSync)) as Hagain.
  { intros w1 l Hl Hle Hd. unfold ReconcileOne. by rewrite Ht, Hl, Hle, Hd. }
  assert (∀ st, Upsert truth (w_store w) = Ok st → GetByProviderID id st = Ok truth) as Hup.
  { intros st Hu. by rewrite (upsert_get _ _ _ id Hu), decide_True. }
  assert ((ProviderUpdatedAt truth <? ProviderUpdatedAt truth) = false) as Hirr by (apply Z.ltb_ge; lia).
  unfold ReconcileOne in Hrun. rewrite Ht in Hrun.
  destruct (GetByProviderID id (w_store w)) as [local|[]] eqn:Eg; [| |done].
  - destruct (_ <? _) eqn:Ew; [injection Hrun as <- <-; zbool; eauto 7|].
    destruct (drifted local truth) eqn:Ed; simpl in Hrun; [|injection Hrun as <- <-; eauto 7].
    destruct (Upsert truth (w_store w)) as [st|] eqn:Hu; [|done]. injection Hrun as <- <-.
    split; [by apply Hup|]. right. apply (Hagain _ truth); [by apply Hup|done|done].
  - destruct (Upsert truth (w_store w)) as [st|] eqn:Hu; [|done]. injection Hrun as <- <-.
    split; [split; [done|by apply Hup]|]. right. apply (Hagain _ truth); [by apply Hup|done|done].
Qed.
End theorems.

(** ** Concrete states *)

Definition demo_plan : Plan := mkPlan "pro" "pro" {[ "api" := 10 ]} 3.
Definition demo_sub (st : Status) (t : Z) : Subscription :=
  mkSub "s1" "cust" "psub" "pro" st 1 0 0 false 0 t.
Definition demo_event (id : string) (ty : EventType) (t : Z) : Event :=
  mkEvent id ty (demo_sub StatusActive t) t.

(** A store with one active subscription whose watermark is 5, and no cache. *)
Definition demo_world : world Store :=
  srun [OHandle (demo_event "e0" EventSubscriptionCreated 5)] (mkWorld (SeedPlan demo_plan New) NewMemory).

Lemma demo_ids : ids_ok (w_store demo_world).
Proof.
  intros id s.
  change (GetByProviderID id (w_store demo_world)) with
    (found (({[ "psub" := demo_sub StatusActive 5 ]} : gmap string Subscription) !! id)).
  rewrite lookup_singleton. case_decide as Hd; [|done]. intros Heq. unfold found in Heq.
  assert (s = demo_sub StatusActive 5) as -> by congruence. exact Hd.
Defined.

Lemma demo_coherent : coherent demo_world.
Proof. intros subj e He. change (mc_data (w_cache demo_world)) with (∅ : gmap string Entitlement) in He. done. Defined.

Lemma Handle_idempotent_witness :
  let w1 := (handle_event (demo_event "e1" EventPaymentFailed 6) demo_world).1 in
  (handle_event (demo_event "e1" EventPaymentFailed 6) w1).1 = w1.
Proof.
  apply (Handle_idempotent (demo_event "e1" EventPaymentFailed 6) (demo_event "e1" EventPaymentFailed 6)
    [] demo_world ResultProcessed ResultDuplicate); by vm_compute.
Defined.

(** Two deliveries for the subscription: the second one is marked before the first one
reads, and reads after the first one wrote; by then it is out of date. *)
Definition ev_cancel : Event := demo_event "e2" EventSubscriptionCanceled 9.
Definition ev_failed : Event := demo_event "e1" EventPaymentFailed 6.

Lemma Handle_ordered_witness :
  ∃ w' ds s', rtc dstep (demo_world, []) (w', ds) ∧ ds = [DBust "cust"] ∧
    GetByProviderID "psub" (w_store w') = Ok s' ∧ s_Status s' = StatusCanceled ∧ 5 ≤ ProviderUpdatedAt s'.
Proof.
  eassert (rtc dstep (demo_world, []) (_, _)) as Hr.
  { eapply rtc_l; [apply (d_arrive _ _ ev_cancel)|]. eapply rtc_l; [apply (d_arrive _ _ ev_failed)|].
    eapply rtc_l; [eapply (d_mark _ _ 0 ev_cancel); by vm_compute|].
    eapply rtc_l; [eapply (d_mark _ _ 1 ev_failed); by vm_compute|].
    eapply rtc_l; [eapply (d_read _ _ 0 ev_cancel); [reflexivity|repeat constructor; auto|by vm_compute]|].
    eapply rtc_l; [eapply (d_write _ _ 0); by vm_compute|].
    eapply rtc_l; [eapply (d_answer _ _ 1 ev_failed); by vm_compute|]. apply rtc_refl. }
  destruct (Handle_ordered demo_world "psub" (demo_sub StatusActive 5) _ _ demo_ids ltac:(by vm_compute) Hr)
    as (s' & Hs' & Hw & _).
  eexists _, _, s'. split; [exact Hr|]. split; [reflexivity|]. split; [exact Hs'|]. split; [|exact Hw].
  vm_compute in Hs'. injection Hs' as <-. reflexivity.
Defined.

Lemma Check_correct_witness :
  (Check_entitlement (fun _ _ => Ok 10) "cust" "api"
    (srun [OEntitle "cust"; OHandle (demo_event "e2" EventSubscriptionCanceled 9)] demo_world)).2 =
  Ok (mkDec false ReasonNotActive 0).
Proof.
  etrans; [apply (Check_correct [OEntitle "cust"; OHandle (demo_event "e2" EventSubscriptionCanceled 9)]
    demo_world (fun _ _ => Ok 10) "cust" "api" demo_coherent)|]. by vm_compute.
Defined.

Lemma ReconcileOne_repairs_witness :
  let prov := fake_provider (SetSubscription (demo_sub StatusPastDue 7) NewFake) in
  GetByProviderID "psub" (w_store (ReconcileOne prov "psub" demo_world).1) = Ok (demo_sub StatusPastDue 7).
Proof.
  apply (ReconcileOne_repairs (fake_provider (SetSubscription (demo_sub StatusPastDue 7) NewFake)) "psub"
    demo_world _ OutcomeRepaired (demo_sub StatusPastDue 7)); by vm_compute.
Defined.

(** The entitlement service writes what it read before: when a
cancellation is processed between the read of the store and the write of the
cache, the stale entitlement is cached after the bust, and (entries have no
expiry) later checks keep granting access to the cancelled customer. *)
Theorem Entitlement_stale_cache :
  ∃ (w0 w1 w2 : world Store) (e : Entitlement),
    ent_read "cust" w0 = inr (Ok e) ∧
    handle_event (demo_event "e2" EventSubscriptionCanceled 9) w0 = (w1, Ok ResultProcessed) ∧
    w2 = ent_write "cust" e w1 ∧
    (s_Status <$> (byProv (w_store w2) !! "psub")) = Some StatusCanceled ∧
    (Check_entitlement (fun _ _ => Ok 0) "cust" "api" w2).2 = Ok (mkDec true ReasonAllowed 10).
Proof.
  exists demo_world, (handle_event (demo_event "e2" EventSubscriptionCanceled 9) demo_world).1.
  eexists _, _. split_and!; by vm_compute.
Qed.

(** Two concurrent deliveries can undo each other: both read the record
before either writes it, and the older event, written last, takes the
watermark back although the guard compared it with the stored one. *)
Theorem Handle_lost_update :
  ∃ (w1 w2 w3 w4 : world Store) (newer older : Subscription),
    handle_read (demo_event "e9" EventSubscriptionCanceled 9) demo_world = (w1, inr newer) ∧
    handle_read (demo_event "e6" EventPaymentFailed 6) w1 = (w2, inr older) ∧
    persist newer w2 = (w3, Ok ResultProcessed) ∧ persist older w3 = (w4, Ok ResultProcessed) ∧
    ProviderUpdatedAt <$> (byProv (w_store w3) !! "psub") = Some 9 ∧
    ProviderUpdatedAt <$> (byProv (w_store w4) !! "psub") = Some 6 ∧
    s_Status <$> (byProv (w_store w4) !! "psub") = Some StatusPastDue.
Proof. eexists _, _, _, _, _, _. split_and!; by vm_compute. Qed.
