(* ===== verification/Usage.v ===== *)
(** * subscription-core/usage: meter, counters and the ledger flusher

The in-memory counter, the meter's keys, and [Flusher.FlushOnce] over the
snapshot in the order the range statement visits it.  The ledger sink answers
each [Append] with an error or not, as the environment decides; the month of
the clock is the argument [period]. *)

From Stdlib Require Import ZArith Lia.
From stdpp Require Import base gmap strings fin_maps relations list.
From S2P Require Import Prelude GoStrings.

Open Scope Z_scope.

(* [base] subscription-core/usage *)

(** ** Counters *)

(* [go] counter.go:24-27 MemoryCounter *)
Definition MemoryCounter : Type := gmap string Z.

(* [go] counter.go:30-32 NewMemoryCounter *)
Definition NewMemoryCounter : MemoryCounter := ∅.

(* [go] counter.go:34-39 MemoryCounter.Incr *)
Definition Incr (key : string) (n : Z) (c : MemoryCounter) : MemoryCounter * Z :=
  let c' := <[key := i64 (zget c key + n)]> c in (c', zget c' key).

(* [go] counter.go:41-45 MemoryCounter.Value *)
Definition Value (key : string) (c : MemoryCounter) : Z := zget c key.

(* [go] counter.go:48-56 MemoryCounter.Snapshot *)
Definition Snapshot (c : MemoryCounter) : MemoryCounter := c.

(** ** Meter *)

(* [go] meter.go:22-25 Meter.key *)
Definition meter_key (period subject feature : string) : string :=
  "usage:" +:+ subject +:+ ":" +:+ feature +:+ ":" +:+ period.

(* [go] meter.go:28-30 Meter.Record *)
Definition Meter_Record (period subject feature : string) (n : Z) (c : MemoryCounter)
  : MemoryCounter * Z := Incr (meter_key period subject feature) n c.

(* [go] meter.go:33-35 Meter.Used *)
Definition Meter_Used (period subject feature : string) (c : MemoryCounter) : Z :=
  Value (meter_key period subject feature) c.

Definition colon : Ascii.ascii := Ascii.ascii_of_nat 58.

(** ** Ledger *)

(* [go] flusher.go:12-17 LedgerEntry *)
Record LedgerEntry : Type := mkEntry { Subject : string; Feature : string; Period : string; Amount : Z }.

(* [go] flusher.go:88-105 parseUsageKey *)
Definition parseUsageKey (key : string) : option (string * string * string) :=
  if negb (String.prefix "usage:" key) then None
  else
    let rest := slice_from 6 key in
    match reverse (split colon rest) with
    | period :: feature :: subj :: more =>
        let subject := join colon (reverse (subj :: more)) in
        if String.eqb subject "" || String.eqb feature "" || String.eqb period "" then None
        else Some (subject, feature, period)
    | _ => None
    end.

(** The sink: what was appended, and how it will answer the next calls ([true]
is success, also when the list is exhausted). *)
(* [go] flusher.go:21-23 LedgerSink *)
Record Sink : Type := mkSink { sk_ledger : list LedgerEntry; sk_answers : list bool }.

Definition sink_Append (e : LedgerEntry) (s : Sink) : Sink * bool :=
  match sk_answers s with
  | false :: rest => (mkSink (sk_ledger s) rest, false)
  | true :: rest => (mkSink (sk_ledger s ++ [e]) rest, true)
  | [] => (mkSink (sk_ledger s ++ [e]) [], true)
  end.

(** The loop of [FlushOnce] over the snapshot's entries, in the order [l]. *)
(* [go] flusher.go:47-64 Flusher.FlushOnce *)
Fixpoint flush_loop (l : list (string * Z)) (flushed : gmap string Z) (sink : Sink) (written : Z)
  : gmap string Z * Sink * Z * bool :=
  match l with
  | [] => (flushed, sink, written, true)
  | (key, total) :: l' =>
      let delta := i64 (total - zget flushed key) in
      if delta =? 0 then flush_loop l' flushed sink written
      else match parseUsageKey key with
           | None => flush_loop l' flushed sink written
           | Some (subject, feature, period) =>
               match sink_Append (mkEntry subject feature period delta) sink with
               | (sink', false) => (flushed, sink', written, false)
               | (sink', true) => flush_loop l' (<[key := total]> flushed) sink' (written + 1)
               end
           end
  end.

(** The flusher: what it already persisted per key, and the sink. *)
(* [go] flusher.go:29-33 Flusher *)
Record Flusher : Type := mkFlusher { fl_flushed : gmap string Z; fl_sink : Sink }.

(* [go] flusher.go:36-38 NewFlusher *)
Definition NewFlusher (sink : Sink) : Flusher := mkFlusher ∅ sink.

(* [go] flusher.go:42-65 Flusher.FlushOnce *)
Definition FlushOnce (order : list (string * Z)) (f : Flusher) : Flusher * Z * bool :=
  let '(flushed, sink, written, ok) := flush_loop order (fl_flushed f) (fl_sink f) 0 in
  (mkFlusher flushed sink, written, ok).

(** ** Histories *)

(** Usage is recorded and flushed in any order; a flush visits the snapshot in
some order, and the sink answers as it likes. *)
Inductive uop : Type :=
| UIncr (key : string) (n : Z)
| UFlush (order : list (string * Z)) (answers : list bool).

Definition ustate : Type := MemoryCounter * Flusher.

Definition ustep (s : ustate) (o : uop) : ustate :=
  match o with
  | UIncr key n => ((Incr key n s.1).1, s.2)
  | UFlush order answers =>
      let f := mkFlusher (fl_flushed s.2) (mkSink (sk_ledger (fl_sink s.2)) answers) in
      (s.1, (FlushOnce order f).1.1)
  end.

(** Each flush visits the snapshot taken at its start. *)
Fixpoint ulegal (ops : list uop) (s : ustate) : Prop :=
  match ops with
  | [] => True
  | o :: ops' =>
      match o with UFlush order _ => order ≡ₚ map_to_list (Snapshot s.1) | UIncr _ _ => True end ∧
      ulegal ops' (ustep s o)
  end.

Definition urun (ops : list uop) (s : ustate) : ustate := foldl ustep s ops.

(** What the ledger holds for one subject, feature and period. *)
Definition billed (ledger : list LedgerEntry) (k : string * string * string) : Z :=
  zsum (fun e => if decide ((Subject e, Feature e, Period e) = k) then Amount e else 0) ledger.

(** ** Keys *)

(** No colon occurs in the string. *)
Notation no_colon := (lacks colon).

(** A parsed key is the meter's key of what it parses to. *)
Lemma parse_key key s f p : parseUsageKey key = Some (s, f, p) → key = meter_key p s f.
Proof.
  unfold parseUsageKey. destruct (String.prefix "usage:" key) eqn:Hp; simpl; [|done].
  apply prefix_split in Hp. set (rest := slice_from 6 key).
  change (slice_from (String.length "usage:") key) with rest in Hp.
  destruct (reverse (split colon rest)) as [|p' [|f' [|x more]]] eqn:Er; try done.
  intros Hs. repeat case_match; simplify_eq.
  apply (f_equal reverse) in Er. rewrite reverse_involutive in Er.
  rewrite Hp. unfold meter_key. f_equal. rewrite <- (join_split colon rest), Er.
  rewrite !reverse_cons, join_snoc, join_snoc, str_app_assoc.
  - done.
  - intros Hn. apply app_eq_nil in Hn as [_ ?]. done.
  - intros Hn. apply app_eq_nil in Hn as [_ ?]. done.
Qed.

Lemma parse_meter_key s f p : s ≠ "" → f ≠ "" → p ≠ "" → no_colon f → no_colon p →
  parseUsageKey (meter_key p s f) = Some (s, f, p).
Proof.
  intros Hs Hf Hp Hcf Hcp. unfold parseUsageKey, meter_key. rewrite prefix_app. simpl negb. cbv iota.
  change 6%nat with (String.length "usage:"). rewrite slice_from_app.
  change (s +:+ ":" +:+ f +:+ ":" +:+ p) with (s +:+ String colon (f +:+ String colon p)).
  rewrite !split_app, Hcf, Hcp, !reverse_app. simpl.
  destruct (reverse (split colon s)) as [|x more] eqn:Er.
  { apply (f_equal reverse) in Er. rewrite reverse_involutive in Er. by destruct (split_nonempty colon s). }
  rewrite <- Er, reverse_involutive, join_split.
  by rewrite (proj2 (String.eqb_neq _ _) Hs), (proj2 (String.eqb_neq _ _) Hf), (proj2 (String.eqb_neq _ _) Hp).
Qed.

(** ** Flushing *)

Lemma billed_snoc l e k : billed (l ++ [e]) k =
  billed l k + (if decide ((Subject e, Feature e, Period e) = k) then Amount e else 0).
Proof. unfold billed. rewrite zsum_app. simpl. lia. Qed.

(** What has been flushed for a key is what the ledger billed for it, modulo
the width of the counters. *)
Record finv (flushed : gmap string Z) (ledger : list LedgerEntry) : Prop := {
  fi_billed : ∀ key k, parseUsageKey key = Some k → i64 (billed ledger k) = zget flushed key;
  fi_range : ∀ key, in_i64 (zget flushed key) }.

Lemma parse_inj key key' k : parseUsageKey key = Some k → parseUsageKey key' = Some k → key = key'.
Proof. destruct k as [[s f] p]. intros ->%parse_key ->%parse_key. done. Qed.

Lemma finv_append flushed ledger key s f p total :
  parseUsageKey key = Some (s, f, p) → in_i64 total → finv flushed ledger →
  finv (<[key := total]> flushed) (ledger ++ [mkEntry s f p (i64 (total - zget flushed key))]).
Proof.
  intros Hp Ht [Hb Hr]. assert (∀ q, zget (<[key := total]> flushed) q =
    if decide (key = q) then total else zget flushed q) as Hget.
  { intros q. unfold zget. rewrite lookup_insert. by case_decide. }
  constructor.
  - intros q k Hq. rewrite billed_snoc, Hget. simpl. destruct (decide (key = q)) as [<-|Hne].
    + assert (k = (s, f, p)) as -> by congruence. rewrite decide_True by done.
      rewrite i64_add_r, <- i64_add_l, (Hb key (s, f, p)) by done.
      replace (zget flushed key + (total - zget flushed key)) with total by lia. by apply i64_small.
    + rewrite decide_False by (intros <-; apply Hne; by eapply parse_inj). rewrite Z.add_0_r. auto.
  - intros q. rewrite Hget. by case_decide.
Qed.

(** The loop keeps the invariant; when it ends without an error every visited
usage key is flushed up to its total. *)
Lemma flush_loop_spec l flushed sink written : (∀ key t, (key, t) ∈ l → in_i64 t) → NoDup l.*1 →
  finv flushed (sk_ledger sink) →
  let '(flushed', sink', written', ok) := flush_loop l flushed sink written in
  finv flushed' (sk_ledger sink') ∧
  (∀ key, key ∉ l.*1 → zget flushed' key = zget flushed key) ∧
  (ok = true → ∀ key t k, (key, t) ∈ l → parseUsageKey key = Some k → zget flushed' key = t).
Proof.
  revert flushed sink written. induction l as [|[key total] l IH]; intros flushed sink written Hl Hnd Hf.
  { simpl. split_and!; [done|done|]. by intros _ key t k ?%elem_of_nil. }
  simpl in Hnd. apply NoDup_cons in Hnd as [Hnin Hnd].
  assert (∀ k t, (k, t) ∈ l → in_i64 t) as Hl' by (intros k t Hk; eapply Hl; by right).
  assert (in_i64 total) as Ht by (eapply Hl; left). cbn [flush_loop].
  assert (∀ flushed1 sink1 written1, finv flushed1 (sk_ledger sink1) →
    (∀ q, q ≠ key → zget flushed1 q = zget flushed q) →
    (∀ k, parseUsageKey key = Some k → zget flushed1 key = total) →
    let '(flushed', sink', written', ok) := flush_loop l flushed1 sink1 written1 in
    finv flushed' (sk_ledger sink') ∧
    (∀ q, q ∉ key :: l.*1 → zget flushed' q = zget flushed q) ∧
    (ok = true → ∀ q t k, (q, t) ∈ (key, total) :: l → parseUsageKey q = Some k → zget flushed' q = t)) as Hnext.
  { intros flushed1 sink1 written1 Hf1 Hsame Hkey. specialize (IH flushed1 sink1 written1 Hl' Hnd Hf1).
    destruct (flush_loop l flushed1 sink1 written1) as [[[flushed' sink'] written'] ok].
    destruct IH as (H1 & H2 & H3). split_and!; [done| |].
    - intros q [Hq1 Hq2]%not_elem_of_cons. by rewrite H2, Hsame.
    - intros Hok q t k [[= -> ->]|Hq]%elem_of_cons Hp; [rewrite H2 by done; eauto|eauto]. }
  destruct (i64 (total - zget flushed key) =? 0) eqn:E0; zbool.
  { apply Hnext; [done|done|]. intros k _. pose proof (fi_range _ _ Hf key) as Hr.
    unfold i64 in E0. unfold in_i64 in *. Z.div_mod_to_equations. lia. }
  destruct (parseUsageKey key) as [[[s f] p]|] eqn:Ep; [|by apply Hnext].
  unfold sink_Append. assert (∀ rest, let '(flushed', sink', written', ok) :=
      flush_loop l (<[key := total]> flushed)
        (mkSink (sk_ledger sink ++ [mkEntry s f p (i64 (total - zget flushed key))]) rest) (written + 1) in
    finv flushed' (sk_ledger sink') ∧
    (∀ q, q ∉ key :: l.*1 → zget flushed' q = zget flushed q) ∧
    (ok = true → ∀ q t k, (q, t) ∈ (key, total) :: l → parseUsageKey q = Some k → zget flushed' q = t)) as Happ.
  { intros rest. apply Hnext.
    - by apply finv_append.
    - intros q Hq. unfold zget. by rewrite lookup_insert_ne.
    - intros k _. unfold zget. by rewrite lookup_insert_eq. }
  destruct (sk_answers sink) as [|[] rest]; [apply Happ|apply Happ|]. split_and!; [done|done|done].
Qed.

(** The invariant of a history, with counters in range. *)
Definition uinv (s : ustate) : Prop :=
  (∀ key, in_i64 (zget s.1 key)) ∧ finv (fl_flushed s.2) (sk_ledger (fl_sink s.2)).

Lemma snapshot_entries (c : MemoryCounter) order : (∀ key, in_i64 (zget c key)) → order ≡ₚ map_to_list c →
  (∀ key t, (key, t) ∈ order → in_i64 t) ∧ NoDup order.*1.
Proof.
  intros Hc Ho. split.
  - intros key t. rewrite Ho. intros Hk%elem_of_map_to_list. specialize (Hc key). unfold zget in Hc.
    by rewrite Hk in Hc.
  - rewrite Ho. apply NoDup_fst_map_to_list.
Qed.

Lemma uinv_step s o : (match o with UFlush order _ => order ≡ₚ map_to_list s.1 | _ => True end) →
  uinv s → uinv (ustep s o).
Proof.
  intros Ho [Hc Hf]. destruct o as [key n|order answers]; cbn [ustep].
  - split; [|done]. intros q.
    change (in_i64 (zget (<[key := i64 (zget s.1 key + n)]> (s.1 : gmap string Z)) q)).
    rewrite zget_insert. case_decide; [apply i64_range|apply Hc].
  - destruct (snapshot_entries s.1 order Hc Ho) as [Hr Hnd].
    pose proof (flush_loop_spec order (fl_flushed s.2) (mkSink (sk_ledger (fl_sink s.2)) answers) 0 Hr Hnd Hf) as H.
    unfold FlushOnce. simpl. destruct (flush_loop _ _ _ _) as [[[flushed' sink'] w] ok].
    split; [done|]. apply H.
Qed.

Lemma uinv_run ops s : ulegal ops s → uinv s → uinv (urun ops s).
Proof.
  unfold urun. revert s. induction ops as [|o ops IH]; intros s Hl Hi; simpl in *; [done|].
  destruct Hl as [Ho Hl]. apply IH; [done|]. apply uinv_step; [by destruct o|done].
Qed.

Lemma uinv_init : uinv (NewMemoryCounter, NewFlusher (mkSink [] [])).
Proof.
  split; [intros key; change (in_i64 (zget (∅ : gmap string Z) key)); rewrite zget_empty; unfold in_i64; lia|].
  constructor; simpl; intros; rewrite zget_empty; [done|unfold in_i64; lia].
Qed.

(** ** Main results *)

(** Usage is billed exactly once: through any history of increments and
flushes, with [Append] failing at any moment and flushes retried, a flush that
ends without an error leaves the ledger with exactly the counter's total for
every usage key (as an [int64]), and no flush ever bills a key beyond the
totals it saw. *)
Theorem FlushOnce_exact (ops : list uop) (order : list (string * Z)) (answers : list bool) :
  let s := urun ops (NewMemoryCounter, NewFlusher (mkSink [] [])) in
  ulegal (ops ++ [UFlush order answers]) (NewMemoryCounter, NewFlusher (mkSink [] [])) →
  let f := mkFlusher (fl_flushed s.2) (mkSink (sk_ledger (fl_sink s.2)) answers) in
  let '(f', written, ok) := FlushOnce order f in
  (∀ key k, parseUsageKey key = Some k →
    i64 (billed (sk_ledger (fl_sink f')) k) = zget (fl_flushed f') key) ∧
  (ok = true → ∀ key k, parseUsageKey key = Some k →
    is_Some (s.1 !! key) → i64 (billed (sk_ledger (fl_sink f')) k) = Value key s.1).
Proof.
  intros s Hl f. assert (∀ s0, ulegal (ops ++ [UFlush order answers]) s0 →
    ulegal ops s0 ∧ order ≡ₚ map_to_list (urun ops s0).1) as Hsplit.
  { unfold urun. clear. induction ops as [|o ops IH]; intros s0 Hl; simpl in *; [by destruct Hl as [? _]|].
    destruct Hl as [Ho Hl]. apply IH in Hl as [? ?]. done. }
  destruct (Hsplit _ Hl) as [Hops Horder].
  destruct (uinv_run ops _ Hops uinv_init) as [Hc Hf]. fold s in Hc, Hf, Horder.
  destruct (snapshot_entries s.1 order Hc Horder) as [Hr Hnd].
  pose proof (flush_loop_spec order (fl_flushed f) (fl_sink f) 0 Hr Hnd Hf) as H.
  unfold FlushOnce. destruct (flush_loop _ _ _ _) as [[[flushed' sink'] w] ok].
  destruct H as ([Hb _] & _ & Hok). cbn [fl_sink fl_flushed]. split; [done|].
  intros -> key k Hp [t Ht]. rewrite (Hb key k Hp).
  assert (Value key s.1 = t) as -> by (change (default 0 (s.1 !! key) = t); by rewrite Ht).
  apply (Hok eq_refl key t k); [|done]. rewrite Horder. by apply elem_of_map_to_list.
Qed.

Definition demo_key : string := meter_key "2026-07" "acme:eu" "api".

Definition demo_usage : list uop :=
  [UIncr demo_key 5; UFlush [(demo_key, 5)] [false]; UIncr demo_key 2].

Lemma FlushOnce_exact_witness :
  let s := urun demo_usage (NewMemoryCounter, NewFlusher (mkSink [] [])) in
  let '(f', written, ok) := FlushOnce [(demo_key, 7)] (mkFlusher (fl_flushed s.2) (mkSink (sk_ledger (fl_sink s.2)) [])) in
  ok = true ∧ billed (sk_ledger (fl_sink f')) ("acme:eu", "api", "2026-07") = 7 ∧
  ∀ key k, parseUsageKey key = Some k → i64 (billed (sk_ledger (fl_sink f')) k) = zget (fl_flushed f') key.
Proof.
  pose proof (FlushOnce_exact demo_usage [(demo_key, 7)] []) as H. cbv zeta in H |- *.
  assert (ulegal (demo_usage ++ [UFlush [(demo_key, 7)] []]) (NewMemoryCounter, NewFlusher (mkSink [] []))) as Hl.
  { split_and!; try done. }
  specialize (H Hl).
  set (r := FlushOnce [(demo_key, 7)] _) in *.
  assert (r.2 = true) as Hr by by vm_compute.
  assert (billed (sk_ledger (fl_sink r.1.1)) ("acme:eu", "api", "2026-07") = 7) as Hb by by vm_compute.
  destruct r as [[f' written] ok]. simpl in *. split_and!; [done|done|apply H].
Defined.

(** Keys round trip: the key the meter writes parses back to its subject,
feature and period, whatever the subject contains, when feature and period
are not empty and have no colon; and a key that parses is the meter's key of
what it parses to. *)
Theorem parseUsageKey_roundtrip (s f p : string) :
  s ≠ "" → f ≠ "" → p ≠ "" → no_colon f → no_colon p →
  parseUsageKey (meter_key p s f) = Some (s, f, p) ∧
  ∀ key, parseUsageKey key = Some (s, f, p) → key = meter_key p s f.
Proof. intros. split; [by apply parse_meter_key|]. intros key. apply parse_key. Qed.

Lemma parseUsageKey_roundtrip_witness :
  parseUsageKey demo_key = Some ("acme:eu", "api", "2026-07").
Proof. apply (parseUsageKey_roundtrip "acme:eu" "api" "2026-07"); done. Defined.

(** A colon in a feature makes the keys of two subjects the same counter. *)
Lemma meter_key_collision p : meter_key p "acme" "eu:api" = meter_key p "acme:eu" "api".
Proof. done. Qed.

(** A restart bills twice: the totals already persisted are kept in the
process only, so a new flusher over the counters that survived the crash
appends the whole totals again. *)
Theorem Flusher_restart_double_bills :
  let counter := (Incr demo_key 7 NewMemoryCounter).1 in
  let '(f1, n1, ok1) := FlushOnce (map_to_list counter) (NewFlusher (mkSink [] [])) in
  let '(f2, n2, ok2) := FlushOnce (map_to_list counter) (NewFlusher (fl_sink f1)) in
  ok1 = true ∧ ok2 = true ∧ Value demo_key counter = 7 ∧
  billed (sk_ledger (fl_sink f1)) ("acme:eu", "api", "2026-07") = 7 ∧
  billed (sk_ledger (fl_sink f2)) ("acme:eu", "api", "2026-07") = 14.
Proof. by vm_compute. Qed.
