(* ===== verification/Subscriptiond.v ===== *)
(** * subscription-core: the configuration and the daemon

[config] and [cmd/subscriptiond]: the process that wires the webhook ingress,
the entitlement service and the usage meter over the in-memory adapters, and
what its clients observe. *)

From Stdlib Require Import ZArith Lia Ascii String.
From stdpp Require Import base gmap strings list.
From S2P Require Import Prelude GoTime Subscription Usage.
Open Scope string_scope.
Open Scope Z_scope.

(* [base] subscription-core *)

(* [go] config/config.go:13-17 Config *)
Record Config : Type := mkConfig { HTTPAddr : string; WebhookSecret : string; ReconcileInterval : Z }.

Section config.
Context (os_Getenv : string → string).

(* [go] config/config.go:33-38 getenv *)
Definition getenv (key def : string) : string :=
  if String.eqb (os_Getenv key) "" then def else os_Getenv key.

(* [go] config/config.go:40-47 getdur *)
Definition getdur (key : string) (def : Z) : Z :=
  if String.eqb (os_Getenv key) "" then def else default def (ParseDuration (os_Getenv key)).

(** [None]: the secret is missing. *)
(* [go] config/config.go:21-31 Load *)
Definition Load : option Config :=
  let c := mkConfig (getenv "HTTP_ADDR" ":8080") (os_Getenv "WEBHOOK_SECRET") (getdur "RECONCILE_INTERVAL" Hour) in
  if String.eqb (WebhookSecret c) "" then None else Some c.
End config.

(** The zero value of [time.Time], in nanoseconds. *)
Definition zero_time : Z := -62135596800000000000.

(* [go] cmd/subscriptiond/main.go:37-45 main *)
Definition pro_plan : Plan :=
  mkPlan "price_pro" "pro" (<["api_calls" := 10000]> (<["exports" := -1]> ∅)) 3.

(** The event staged under the secret; [t0] is the time of the start. *)
(* [go] cmd/subscriptiond/main.go:52-62 main *)
Definition demo_evt (t0 : Z) : Event :=
  mkEvent "evt_demo_1" EventSubscriptionCreated
    (mkSub "" "user_1" "sub_1" "price_pro" StatusActive 0 zero_time zero_time false zero_time t0) zero_time.

(** How the start ends early; both tickers panic on an interval that is not
positive. *)
Inductive start_error : Type := MissingSecret | TickerPanics.

Record daemon : Type := mkDaemon { d_cfg : Config; d_prov : FakeProvider; d_world : world Store }.

(* [go] cmd/subscriptiond/main.go:29-95 main *)
Definition main (os_Getenv : string → string) (t0 : Z) : result start_error daemon :=
  match Load os_Getenv with
  | None => Err MissingSecret
  | Some cfg =>
      if ReconcileInterval cfg <=? 0 then Err TickerPanics
      else Ok (mkDaemon cfg (StageEvent (WebhookSecret cfg) (demo_evt t0) NewFake)
                 (mkWorld (SeedPlan pro_plan New) NewMemory))
  end.

(** The answer of the entitlement endpoint. *)
Inductive ent_answer : Type := EntBadRequest | EntNotFound | EntOK (d : Decision).

(** [period] is the period of the meter's clock; the daemon itself records no
usage, so its counter stays as it was made. *)
(* [go] cmd/subscriptiond/main.go:116-137 entitlementHandler *)
Definition entitlementHandler (period subject feature : string) (w : world Store) : world Store * ent_answer :=
  if String.eqb subject "" || String.eqb feature "" then (w, EntBadRequest)
  else match Check_entitlement (fun s f => Ok (Meter_Used period s f NewMemoryCounter)) subject feature w with
       | (w', Err _) => (w', EntNotFound)
       | (w', Ok d) => (w', EntOK d)
       end.

Inductive request : Type :=
| Webhook (method body signature : string)
| Entitlement (period subject feature : string).

(* [go] cmd/subscriptiond/main.go:72-78 main *)
Definition serve (d : daemon) (rq : request) : daemon :=
  mkDaemon (d_cfg d) (d_prov d)
    (match rq with
     | Webhook method body signature =>
         (Ingress_ServeHTTP (fake_provider (d_prov d)) method body signature (d_world d)).1.1
     | Entitlement period subject feature => (entitlementHandler period subject feature (d_world d)).1
     end).

(** ** What the clients observe *)

(** The demo event was delivered: a POST that carried the secret. *)
Definition delivers (secret : string) (rq : request) : bool :=
  match rq with Webhook method _ signature => String.eqb method "POST" && String.eqb signature secret | _ => false end.

Definition store0 : Store := SeedPlan pro_plan New.

Definition store1 (t0 : Z) : Store :=
  let s := ev_Subscription (demo_evt t0) in
  mkStore {[ "sub_1" := s ]} {[ "user_1" := s ]} {[ "evt_demo_1" := true ]} (plans store0).

Record dinv (cfg : Config) (t0 : Z) (active : bool) (d : daemon) : Prop := {
  di_cfg : d_cfg d = cfg;
  di_prov : d_prov d = StageEvent (WebhookSecret cfg) (demo_evt t0) NewFake;
  di_store : w_store (d_world d) = if active then store1 t0 else store0;
  di_coh : coherent (d_world d) }.

Lemma deliver_store (active : bool) t0 c :
  w_store (handle_event (demo_evt t0) (mkWorld (if active then store1 t0 else store0) c)).1 = store1 t0.
Proof. by destruct active. Qed.

Lemma Service_store subj (w : world Store) : w_store (Service_Entitlement subj w).1 = w_store w.
Proof. unfold Service_Entitlement. by destruct (ent_read subj w) as [|[]]. Qed.

(** A check moves the state as the entitlement call inside it does. *)
Lemma Check_state used subj f (w : world Store) :
  (Check_entitlement used subj f w).1 = (Service_Entitlement subj w).1.
Proof.
  unfold Check_entitlement. destruct (Service_Entitlement subj w) as [w' [e|]]; [|done]. cbv zeta.
  case_test; [done|]. destruct (used subj f); [|done]. by case_test.
Qed.

Lemma serve_dinv cfg t0 active d rq : dinv cfg t0 active d →
  dinv cfg t0 (active || delivers (WebhookSecret cfg) rq) (serve d rq).
Proof.
  intros [Hc Hp Hs Hco]. destruct rq as [method body signature|period subject feature]; simpl.
  - constructor; [done|done| |]; cbn [serve d_world];
      unfold Ingress_ServeHTTP, Handle; rewrite Hp; cbn [StageEvent fake_provider VerifyAndParse f_events NewFake].
    + destruct (String.eqb method "POST"); cbn [negb andb]; [|by rewrite orb_false_r].
      rewrite lookup_insert. case_decide as Hsig.
      * subst. rewrite String.eqb_refl, orb_true_r.
        pose proof (deliver_store active t0 (w_cache (d_world d))) as Hd. rewrite <- Hs in Hd.
        destruct (d_world d) as [st c]. cbn [w_store w_cache] in *.
        destruct (handle_event _ _) as [w' [|[[]|]]]; exact Hd.
      * rewrite (proj2 (String.eqb_neq _ _)) by congruence. by rewrite orb_false_r.
    + destruct (String.eqb method "POST"); cbn [negb andb]; [|done]. rewrite lookup_insert.
      case_decide; [|done]. pose proof (sstep_coherent (OHandle (demo_evt t0)) (d_world d) Hco) as Hcc. simpl in Hcc.
      destruct (handle_event _ _) as [w' [|[[]|]]]; exact Hcc.
  - rewrite orb_false_r. constructor; [done|done| |]; cbn [serve d_world]; unfold entitlementHandler;
      (case_test; [done|]); pose proof (Check_state (fun s f => Ok (Meter_Used period s f NewMemoryCounter))
        subject feature (d_world d)) as Hst; destruct (Check_entitlement _ _ _ _) as [w' r]; cbn [fst] in Hst; subst w'.
    + destruct r; cbn [fst]; by rewrite Service_store.
    + destruct r; apply (sstep_coherent (OEntitle subject) (d_world d) Hco).
Qed.

Lemma run_dinv cfg t0 active d rqs : dinv cfg t0 active d →
  dinv cfg t0 (active || existsb (delivers (WebhookSecret cfg)) rqs) (foldl serve d rqs).
Proof.
  revert active d. induction rqs as [|rq rqs IH]; intros active d Hd; simpl; [by rewrite orb_false_r|].
  rewrite orb_assoc. apply IH, serve_dinv, Hd.
Qed.

Lemma main_dinv os_Getenv t0 d : main os_Getenv t0 = Ok d → dinv (d_cfg d) t0 false d.
Proof.
  unfold main. destruct (Load os_Getenv) as [cfg|]; [|done]. case_test; [done|]. intros [= <-].
  constructor; [done|done|done|]. intros subj e He. cbn in He. by rewrite lookup_empty in He.
Qed.

Lemma Check_daemon period active t0 c subject feature :
  let w := mkWorld (if active : bool then store1 t0 else store0) c in coherent w →
  (Check_entitlement (fun s f => Ok (Meter_Used period s f NewMemoryCounter)) subject feature w).2 =
  if active && String.eqb subject "user_1" then
    Ok (if String.eqb feature "api_calls" then mkDec true ReasonAllowed 10000
        else if String.eqb feature "exports" then mkDec true ReasonAllowed (-1)
        else mkDec false ReasonUnknownFeature 0)
  else Err ErrNotFound.
Proof.
  intros w Hc. pose proof (Service_Entitlement_derive subject w Hc) as He. unfold Check_entitlement.
  destruct (Service_Entitlement subject w) as [w' r]. cbn [snd] in He. subst r w. cbn [w_store].
  destruct active; cbn [andb]; [|done]. unfold derive, GetBySubject, Store_Repo, mem_GetBySubject.
  cbn [store1 bySubj]. rewrite lookup_singleton. case_decide as Hsub.
  2: { rewrite (proj2 (String.eqb_neq _ _)) by congruence. done. }
  subst. rewrite String.eqb_refl.
  change (match found (Some _) with Ok _ => _ | Err _ => _ end) with
    (Ok (E := store_err) (DeriveEntitlement (ev_Subscription (demo_evt t0)) pro_plan)).
  unfold Evaluate. cbn [DeriveEntitlement e_Active e_Features pro_plan Features].
  replace (StatusGrantsAccess _) with true by done. cbn [negb].
  rewrite lookup_insert. case_decide as Hf; [by subst|]. rewrite (proj2 (String.eqb_neq feature "api_calls")) by congruence.
  rewrite lookup_insert. case_decide as Hf2; [by subst|]. rewrite (proj2 (String.eqb_neq feature "exports")) by congruence.
  by rewrite lookup_empty.
Qed.

(** The daemon end to end.  Once it has started, and after any sequence of
requests to both endpoints, a subject has an entitlement exactly when it is the
customer of the staged event and a POST with the configured secret came before:
without it nobody is granted anything, and with it that customer may use the
two features of the plan, within the metered limit or without limit, and no
other; the cache in between changes no answer. *)
Theorem Daemon_answers (os_Getenv : string → string) (t0 : Z) (d : daemon) (rqs : list request)
    (period subject feature : string) :
  main os_Getenv t0 = Ok d → subject ≠ "" → feature ≠ "" →
  (entitlementHandler period subject feature (d_world (foldl serve d rqs))).2 =
  if existsb (delivers (os_Getenv "WEBHOOK_SECRET")) rqs && String.eqb subject "user_1" then
    EntOK (if String.eqb feature "api_calls" then mkDec true ReasonAllowed 10000
           else if String.eqb feature "exports" then mkDec true ReasonAllowed (-1)
           else mkDec false ReasonUnknownFeature 0)
  else EntNotFound.
Proof.
  intros Hm Hs Hf. pose proof (run_dinv _ t0 false d rqs (main_dinv _ _ _ Hm)) as [Hc Hp Hst Hco]. cbn [orb] in *.
  assert (WebhookSecret (d_cfg d) = os_Getenv "WEBHOOK_SECRET") as Hsec.
  { unfold main, Load in Hm. repeat case_test; simplify_eq; done. }
  rewrite Hsec in Hst. unfold entitlementHandler.
  rewrite (proj2 (String.eqb_neq subject "") Hs), (proj2 (String.eqb_neq feature "") Hf). cbn [orb].
  set (a := existsb _ rqs) in *. destruct (d_world (foldl serve d rqs)) as [st c]. cbn [w_store] in Hst. subst st.
  pose proof (Check_daemon period a t0 c subject feature Hco) as Hch.
  destruct (Check_entitlement _ _ _ _) as [w' r]. cbn [snd] in Hch. subst r. by case_test.
Qed.

(** Every configuration [Load] returns has a secret, and [main] starts with no
other. *)
Theorem Load_complete (os_Getenv : string → string) : 
  match Load os_Getenv with
  | Some c => WebhookSecret c = os_Getenv "WEBHOOK_SECRET" ∧ WebhookSecret c ≠ "" ∧ HTTPAddr c ≠ "" ∧
      in_i64 (ReconcileInterval c)
  | None => os_Getenv "WEBHOOK_SECRET" = ""
  end.
Proof.
  unfold Load. cbn [WebhookSecret]. case_test; zbool; [done|]. cbn. split_and!; [done|done| |].
  - unfold getenv. case_test; zbool; done.
  - unfold getdur. case_test; [vm_compute; by split|]. destruct (ParseDuration _) eqn:Ep; cbn [default].
    + by eapply ParseDuration_range.
    + vm_compute. by split.
Qed.

(** ** Witness *)

Definition demo_env (k : string) : string := if String.eqb k "WEBHOOK_SECRET" then "whsec" else "".

Definition demo_daemon : daemon :=
  mkDaemon (mkConfig ":8080" "whsec" Hour) (StageEvent "whsec" (demo_evt 7) NewFake) (mkWorld store0 NewMemory).

Definition demo_rqs : list request :=
  [Entitlement "2026-07" "user_1" "api_calls"; Webhook "POST" "{}" "forged"; Webhook "POST" "{}" "whsec";
   Webhook "POST" "{}" "whsec"].

Lemma Daemon_answers_witness :
  main demo_env 7 = Ok demo_daemon ∧
  (entitlementHandler "2026-07" "user_1" "api_calls" (d_world (foldl serve demo_daemon (take 2 demo_rqs)))).2 = EntNotFound ∧
  (entitlementHandler "2026-07" "user_1" "api_calls" (d_world (foldl serve demo_daemon demo_rqs))).2 =
    EntOK (mkDec true ReasonAllowed 10000).
Proof.
  assert (main demo_env 7 = Ok demo_daemon) as Hm by by vm_compute.
  split; [done|]. split.
  - exact (Daemon_answers demo_env 7 demo_daemon (take 2 demo_rqs) "2026-07" "user_1" "api_calls" Hm
      ltac:(done) ltac:(done)).
  - exact (Daemon_answers demo_env 7 demo_daemon demo_rqs "2026-07" "user_1" "api_calls" Hm ltac:(done) ltac:(done)).
Defined.

(** An interval of zero is well-formed and is not replaced by the default: the
tickers panic after the start. *)
Theorem Interval_zero_panics :
  main (fun k => if String.eqb k "RECONCILE_INTERVAL" then "0s" else demo_env k) 7 = Err TickerPanics.
Proof. by vm_compute. Qed.
