(* ===== verification/Order.v ===== *)
(** * microservice/order: order placement with a transactional outbox

The orders, the outbox and the in-memory store with its transactions and
leases; [Place]; the dispatcher's handlers.  [osys] is a running system: the
store and the deliveries in the hands of any number of dispatchers, each of
which reads its order, calls a remote gateway (whose answer is arbitrary) and
then writes under its lease; [ostep] interleaves them with placements, claims,
lease expiries and crashes.  [newID] draws from a supply [fresh] of distinct
non-empty identifiers; the request digest is the function [hash]. *)

From Stdlib Require Import ZArith Lia.
From stdpp Require Import base gmap strings pretty fin_maps sorting relations list.
From S2P Require Import Prelude.

Open Scope Z_scope.

(* [base] microservice/order *)

(** ** domain *)

(* [go] domain.go:10-15 Side *)
Definition Side : Type := string.
Definition Buy : Side := "BUY".
Definition Sell : Side := "SELL".

(* [go] domain.go:17-25 OrderStatus *)
Inductive OrderStatus : Type :=
| PendingMargin | PendingRoute | Accepted | Rejected | ReconciliationRequired.

(* [go] domain.go:27-34 MarginState *)
Inductive MarginState : Type := MarginNone | MarginReserved | MarginReleasePending | MarginReleased.

(* [go] domain.go:36-42 EventKind *)
Inductive EventKind : Type := ReserveMargin | RouteExchange | ReleaseMargin | OtherKind (s : string).

(* [go] domain.go:44-52 EventState *)
Inductive EventState : Type := EventPending | EventRetry | EventProcessing | EventDelivered | EventDead.

#[global] Instance OrderStatus_eq_dec : EqDecision OrderStatus.
Proof. solve_decision. Defined.
#[global] Instance MarginState_eq_dec : EqDecision MarginState.
Proof. solve_decision. Defined.
#[global] Instance EventKind_eq_dec : EqDecision EventKind.
Proof. solve_decision. Defined.
#[global] Instance EventState_eq_dec : EqDecision EventState.
Proof. solve_decision. Defined.

(* [go] domain.go:54-70 Order *)
Record Order : Type := mkOrder {
  o_ID : string; AccountID : string; IdempotencyKey : string; RequestHash : string;
  Instrument : string; o_Side : Side; Quantity : Z; LimitPrice : Z;
  o_Status : OrderStatus; Margin : MarginState; ReservationID : string; ExchangeOrderID : string;
  FailureReason : string; CreatedAt : Z; UpdatedAt : Z }.

(** The zero [time.Time]. *)
Definition zero_time : Z := -62135596800 * 1000000000.

(* [go] domain.go:72-84 OutboxEvent *)
Record OutboxEvent : Type := mkOEvent {
  e_ID : string; OrderID : string; Kind : EventKind; State : EventState; Attempts : Z;
  AvailableAt : Z; LeaseToken : string; LeaseUntil : Z; LastError : string;
  e_CreatedAt : Z; DeliveredAt : Z }.

(* [go] domain.go:94-94 idempotencyIndex *)
Definition idempotencyIndex (accountID key : string) : string :=
  accountID +:+ String (Ascii.ascii_of_nat 0) key.

(** Field updates. *)
Definition set_order (s : OrderStatus) (m : MarginState) (res exch reason : string) (t : Z) (o : Order) : Order :=
  mkOrder (o_ID o) (AccountID o) (IdempotencyKey o) (RequestHash o) (Instrument o) (o_Side o)
    (Quantity o) (LimitPrice o) s m res exch reason (CreatedAt o) t.

Definition set_event (s : EventState) (att avail : Z) (tok : string) (until : Z) (err : string) (del : Z)
    (e : OutboxEvent) : OutboxEvent :=
  mkOEvent (e_ID e) (OrderID e) (Kind e) s att avail tok until err (e_CreatedAt e) del.

(** ** errors *)

(* [go] errors.go:8-13 errors *)
Inductive order_err : Type :=
| ErrInvalidOrder (msg : string) | ErrIdempotencyConflict | ErrOrderNotFound | ErrLeaseLost | ErrContext.

#[global] Instance order_err_eq_dec : EqDecision order_err.
Proof. solve_decision. Defined.

(** A remote failure: its text and whether it is transient. *)
(* [go] errors.go:17-33 isTransient *)
Record remote_err : Type := mkRemoteErr { re_text : string; isTransient : bool }.

(** ** store *)

(* [go] store.go:34-38 memoryState *)
Record memoryState : Type := mkState {
  orders : gmap string Order; byIdempotency : gmap string string; events : gmap string OutboxEvent }.

(* [go] store.go:40-44 NewMemoryStore *)
Definition NewMemoryStore : memoryState := mkState ∅ ∅ ∅.

(** A transaction works on a copy of the state, which replaces it only when the
body succeeds; a cancelled context does nothing. *)
(* [go] store.go:62-81 MemoryStore.Transaction *)
Definition Transaction {R} (cancelled : bool) (apply : memoryState → result order_err (memoryState * R))
    (s : memoryState) : memoryState * result order_err R :=
  if cancelled then (s, Err ErrContext)
  else match apply s with
       | Err e => (s, Err e)
       | Ok (next, r) => (next, Ok r)
       end.

(* [go] store.go:83-90 memoryTx.OrderByIdempotency *)
Definition OrderByIdempotency (accountID key : string) (s : memoryState) : option Order :=
  match byIdempotency s !! idempotencyIndex accountID key with
  | None => None
  | Some id => orders s !! id
  end.

(* [go] store.go:92-95 memoryTx.Order *)
Definition tx_Order (id : string) (s : memoryState) : option Order := orders s !! id.

(* [go] store.go:97-107 memoryTx.PutOrder *)
Definition PutOrder (o : Order) (s : memoryState) : result order_err memoryState :=
  match orders s !! o_ID o with
  | Some _ => Ok (mkState (<[o_ID o := o]> (orders s)) (byIdempotency s) (events s))
  | None =>
      let key := idempotencyIndex (AccountID o) (IdempotencyKey o) in
      match byIdempotency s !! key with
      | Some other => if negb (String.eqb other (o_ID o)) then Err ErrIdempotencyConflict
          else Ok (mkState (<[o_ID o := o]> (orders s)) (<[key := o_ID o]> (byIdempotency s)) (events s))
      | None =>
          Ok (mkState (<[o_ID o := o]> (orders s)) (<[key := o_ID o]> (byIdempotency s)) (events s))
      end
  end.

(** [id] is the identifier [newID] gives. *)
(* [go] store.go:109-117 memoryTx.Enqueue *)
Definition Enqueue (id orderID : string) (kind : EventKind) (availableAt : Z) (s : memoryState) : memoryState :=
  let e := mkOEvent id orderID kind EventPending 0 availableAt "" zero_time "" availableAt zero_time in
  mkState (orders s) (byIdempotency s) (<[id := e]> (events s)).

(** Which events [ClaimDue] selects, and in which order. *)
(* [go] store.go:129-135 MemoryStore.ClaimDue *)
Definition claimable (now : Z) (e : OutboxEvent) : bool :=
  (bool_decide (State e = EventPending ∨ State e = EventRetry) && negb (now <? AvailableAt e)) ||
  (bool_decide (State e = EventProcessing) && negb (now <? LeaseUntil e)).

(* [go] store.go:136-142 MemoryStore.ClaimDue *)
Definition claim_le (a b : OutboxEvent) : Prop :=
  AvailableAt a < AvailableAt b ∨ AvailableAt a = AvailableAt b ∧ str_lt (e_ID b) (e_ID a) = false.

#[global] Instance claim_le_dec a b : Decision (claim_le a b).
Proof. unfold claim_le. apply _. Defined.

Section ids.
Context (fresh : nat → string).

(** Each claimed event gets its own token. *)
(* [go] store.go:146-156 MemoryStore.ClaimDue *)
Fixpoint claim_loop (now leaseFor : Z) (due : list OutboxEvent) (n : nat) (evs : gmap string OutboxEvent)
  : gmap string OutboxEvent * list OutboxEvent * nat :=
  match due with
  | [] => (evs, [], n)
  | e :: due' =>
      let e' := set_event EventProcessing (Attempts e) (AvailableAt e) (fresh n) (now + leaseFor)
                  (LastError e) (DeliveredAt e) e in
      let '(evs', claimed, n') := claim_loop now leaseFor due' (S n) (<[e_ID e := e']> evs) in
      (evs', e' :: claimed, n')
  end.

(* [go] store.go:119-158 MemoryStore.ClaimDue *)
Definition ClaimDue (cancelled : bool) (now leaseFor limit : Z) (n : nat) (s : memoryState)
  : memoryState * result order_err (list OutboxEvent) * nat :=
  if cancelled then (s, Err ErrContext, n)
  else if limit <=? 0 then (s, Ok [], n)
  else
    let ids := filter (fun e => claimable now e = true) ((map_to_list (events s)).*2) in
    let due := take (Z.to_nat limit) (merge_sort claim_le ids) in
    let '(evs, claimed, n') := claim_loop now leaseFor due n (events s) in
    (mkState (orders s) (byIdempotency s) evs, Ok claimed, n').
End ids.

(** The event a lease token still holds. *)
Definition leased (eventID token : string) (s : memoryState) : option OutboxEvent :=
  match events s !! eventID with
  | Some e => if bool_decide (State e = EventProcessing) && String.eqb (LeaseToken e) token
              then Some e else None
  | None => None
  end.

(** After the handler's own writes, the event is closed in the same transaction. *)
Definition close_event (eventID : string) (f : OutboxEvent → OutboxEvent) (s : memoryState) : memoryState :=
  mkState (orders s) (byIdempotency s)
    (match events s !! eventID with Some e => <[eventID := f e]> (events s) | None => events s end).

(* [go] store.go:160-177 MemoryStore.Finalize *)
Definition Finalize (cancelled : bool) (eventID token : string) (tnow : Z)
    (apply : memoryState → result order_err memoryState) (s : memoryState)
  : memoryState * result order_err unit :=
  match leased eventID token s with
  | None => (s, Err ErrLeaseLost)
  | Some _ => Transaction cancelled (fun s =>
      match apply s with
      | Err e => Err e
      | Ok s1 => Ok (close_event eventID (fun e => set_event EventDelivered (Attempts e) (AvailableAt e) ""
                       zero_time (LastError e) tnow e) s1, ())
      end) s
  end.

(* [go] store.go:179-193 MemoryStore.Retry *)
Definition Retry (cancelled : bool) (eventID token : string) (availableAt : Z) (reason : string)
    (s : memoryState) : memoryState * result order_err unit :=
  if cancelled then (s, Err ErrContext)
  else match leased eventID token s with
       | None => (s, Err ErrLeaseLost)
       | Some e => (mkState (orders s) (byIdempotency s)
           (<[eventID := set_event EventRetry (Attempts e + 1) availableAt "" zero_time reason (DeliveredAt e) e]>
             (events s)), Ok ())
       end.

(* [go] store.go:195-213 MemoryStore.Abandon *)
Definition Abandon (cancelled : bool) (eventID token reason : string)
    (apply : memoryState → result order_err memoryState) (s : memoryState)
  : memoryState * result order_err unit :=
  match leased eventID token s with
  | None => (s, Err ErrLeaseLost)
  | Some _ => Transaction cancelled (fun s =>
      match apply s with
      | Err e => Err e
      | Ok s1 => Ok (close_event eventID (fun e => set_event EventDead (Attempts e + 1) (AvailableAt e) ""
                       zero_time reason (DeliveredAt e) e) s1, ())
      end) s
  end.

(** ** service *)

(* [go] service.go:11-18 PlaceOrderRequest *)
Record PlaceOrderRequest : Type := mkPlace {
  pr_AccountID : string; pr_Key : string; pr_Instrument : string; pr_Side : Side;
  pr_Quantity : Z; pr_LimitPrice : Z }.

(* [go] service.go:71-91 validate *)
Definition validate (r : PlaceOrderRequest) : option order_err :=
  if String.eqb (pr_AccountID r) "" then Some (ErrInvalidOrder "account ID is required")
  else if String.eqb (pr_Key r) "" then Some (ErrInvalidOrder "idempotency key is required")
  else if String.eqb (pr_Instrument r) "" then Some (ErrInvalidOrder "instrument is required")
  else if negb (String.eqb (pr_Side r) Buy) && negb (String.eqb (pr_Side r) Sell)
  then Some (ErrInvalidOrder "side must be BUY or SELL")
  else if pr_Quantity r <=? 0 then Some (ErrInvalidOrder "quantity must be positive")
  else if pr_LimitPrice r <=? 0 then Some (ErrInvalidOrder "limit price must be positive")
  else None.

Section service.
(** The hexadecimal SHA-256 digest of a string. *)
Context (hash : string → string) (fresh : nat → string).

(* [go] service.go:93-97 requestFingerprint *)
Definition requestFingerprint (r : PlaceOrderRequest) : string :=
  hash (pr_Instrument r +:+ "|" +:+ pr_Side r +:+ "|" +:+ pretty (pr_Quantity r) +:+ "|" +:+ pretty (pr_LimitPrice r)).

Definition new_order (id : string) (now : Z) (r : PlaceOrderRequest) : Order :=
  mkOrder id (pr_AccountID r) (pr_Key r) (requestFingerprint r) (pr_Instrument r) (pr_Side r)
    (pr_Quantity r) (pr_LimitPrice r) PendingMargin MarginNone "" "" "" now now.

(** [n] is the next identifier of the supply; two are drawn for a new order. *)
(* [go] service.go:37-69 OrderService.Place *)
Definition Place (cancelled : bool) (now : Z) (r : PlaceOrderRequest) (n : nat) (s : memoryState)
  : memoryState * result order_err (Order * bool) * nat :=
  match validate r with
  | Some e => (s, Err e, n)
  | None =>
      let res := Transaction cancelled (fun s =>
        match OrderByIdempotency (pr_AccountID r) (pr_Key r) s with
        | Some existing =>
            if negb (String.eqb (RequestHash existing) (requestFingerprint r)) then Err ErrIdempotencyConflict
            else Ok (s, (existing, true))
        | None =>
            let o := new_order (fresh n) now r in
            match PutOrder o s with
            | Err e => Err e
            | Ok s1 => Ok (Enqueue (fresh (S n)) (o_ID o) ReserveMargin now s1, (o, false))
            end
        end) s in
      (res, S (S n))
  end.
End service.

(** ** dispatcher *)

(* [go] dispatcher.go:19-23 RetryPolicy *)
Record RetryPolicy : Type := mkRetry { MaxAttempts : Z; BaseBackoff : Z; MaxBackoff : Z }.

(** The loop of [delay], [k] iterations being left. *)
(* [go] dispatcher.go:30-35 RetryPolicy.delay *)
Fixpoint delay_loop (maxBackoff : Z) (k : nat) (delay : Z) : Z + Z :=
  match k with
  | O => inr delay
  | S k' => if Z.quot maxBackoff 2 <=? delay then inl maxBackoff
            else delay_loop maxBackoff k' (i64 (delay * 2))
  end.

(* [go] dispatcher.go:25-40 RetryPolicy.delay *)
Definition delay (p : RetryPolicy) (attempt : Z) : Z :=
  if BaseBackoff p <=? 0 then 0
  else match delay_loop (MaxBackoff p) (Z.to_nat (attempt - 1)) (BaseBackoff p) with
       | inl d => d
       | inr d => if MaxBackoff p <? d then MaxBackoff p else d
       end.

(* [go] dispatcher.go:51-65 NewDispatcher *)
Definition default_policy (p : RetryPolicy) : RetryPolicy :=
  mkRetry (if MaxAttempts p <=? 0 then 8 else MaxAttempts p)
    (if BaseBackoff p <=? 0 then 1000000000 else BaseBackoff p)
    (if MaxBackoff p <=? 0 then 2 * 60 * 1000000000 else MaxBackoff p).

(** What a gateway answers to a call: the approval or acceptance with its
identifier, the refusal with its reason, or an error. *)
(* [go] dispatcher.go:10-17 MarginGateway *)
Inductive remote : Type :=
| RApproved (id : string) | RDenied (reason : string) | RFailed (e : remote_err).

Section dispatcher.
Context (fresh : nat → string) (policy : RetryPolicy) (cancelled : bool).

(** The body of a [Finalize]: the order is read again inside the transaction,
written, and a successor event may be enqueued. *)
Definition update_order (orderID : string) (f : Order → Order) (succ : option (EventKind * string)) (now : Z)
    (s : memoryState) : result order_err memoryState :=
  match tx_Order orderID s with
  | None => Err ErrOrderNotFound
  | Some current =>
      match PutOrder (f current) s with
      | Err e => Err e
      | Ok s1 => Ok (match succ with
                     | None => s1
                     | Some (kind, id) => Enqueue id (o_ID (f current)) kind now s1
                     end)
      end
  end.

(* [go] dispatcher.go:191-201 Dispatcher.abandon *)
Definition abandon (ev : OutboxEvent) (cause : string) (now : Z) (s : memoryState)
  : memoryState * result order_err unit :=
  Abandon cancelled (e_ID ev) (LeaseToken ev) cause
    (update_order (OrderID ev) (fun o =>
       set_order ReconciliationRequired (Margin o) (ReservationID o) (ExchangeOrderID o) cause now o) None now) s.

(* [go] dispatcher.go:181-189 Dispatcher.handleRemoteError *)
Definition handleRemoteError (ev : OutboxEvent) (e : remote_err) (now : Z) (s : memoryState)
  : memoryState * result order_err unit :=
  if negb (isTransient e) then abandon ev (re_text e) now s
  else if MaxAttempts policy <=? Attempts ev + 1 then abandon ev (re_text e) now s
  else Retry cancelled (e_ID ev) (LeaseToken ev) (now + delay policy (Attempts ev + 1)) (re_text e) s.

(** The handlers after the remote call: [order] is what [orderFor] read, [n]
the next identifier. *)
(* [go] dispatcher.go:96-121 Dispatcher.reserve *)
Definition reserve (ev : OutboxEvent) (order : Order) (out : remote) (now : Z) (n : nat) (s : memoryState)
  : memoryState * result order_err unit :=
  match out with
  | RFailed e => handleRemoteError ev e now s
  | RDenied reason => Finalize cancelled (e_ID ev) (LeaseToken ev) now
      (update_order (o_ID order) (fun o =>
         set_order Rejected (Margin o) (ReservationID o) (ExchangeOrderID o) reason now o) None now) s
  | RApproved id => Finalize cancelled (e_ID ev) (LeaseToken ev) now
      (update_order (o_ID order) (fun o =>
         set_order PendingRoute MarginReserved id (ExchangeOrderID o) (FailureReason o) now o)
         (Some (RouteExchange, fresh n)) now) s
  end.

(* [go] dispatcher.go:123-148 Dispatcher.route *)
Definition route (ev : OutboxEvent) (order : Order) (out : remote) (now : Z) (n : nat) (s : memoryState)
  : memoryState * result order_err unit :=
  match out with
  | RFailed e => handleRemoteError ev e now s
  | RApproved id => Finalize cancelled (e_ID ev) (LeaseToken ev) now
      (update_order (o_ID order) (fun o =>
         set_order Accepted (Margin o) (ReservationID o) id (FailureReason o) now o) None now) s
  | RDenied reason => Finalize cancelled (e_ID ev) (LeaseToken ev) now
      (update_order (o_ID order) (fun o =>
         set_order Rejected MarginReleasePending (ReservationID o) (ExchangeOrderID o) reason now o)
         (Some (ReleaseMargin, fresh n)) now) s
  end.

(** A release has no refusal: it succeeds or fails. *)
(* [go] dispatcher.go:150-166 Dispatcher.release *)
Definition release (ev : OutboxEvent) (order : Order) (out : remote) (now : Z) (s : memoryState)
  : memoryState * result order_err unit :=
  match out with
  | RFailed e => handleRemoteError ev e now s
  | _ => Finalize cancelled (e_ID ev) (LeaseToken ev) now
      (update_order (o_ID order) (fun o =>
         set_order (o_Status o) MarginReleased (ReservationID o) (ExchangeOrderID o) (FailureReason o) now o)
         None now) s
  end.

(* [go] dispatcher.go:168-179 Dispatcher.orderFor *)
Definition orderFor (ev : OutboxEvent) (s : memoryState) : result order_err Order :=
  (Transaction cancelled (fun s =>
     match tx_Order (OrderID ev) s with Some o => Ok (s, o) | None => Err ErrOrderNotFound end) s).2.

(** The verb q of a text without characters to escape. *)
Definition quoted (k : string) : string :=
  let q := String (Ascii.ascii_of_nat 34) "" in q +:+ k +:+ q.

(** [deliver] from the answer of the gateway on. *)
(* [go] dispatcher.go:83-94 Dispatcher.deliver *)
Definition deliver (ev : OutboxEvent) (order : Order) (out : remote) (now : Z) (n : nat) (s : memoryState)
  : memoryState * result order_err unit :=
  match Kind ev with
  | ReserveMargin => reserve ev order out now n s
  | RouteExchange => route ev order out now n s
  | ReleaseMargin => release ev order out now s
  | OtherKind k => abandon ev ("unknown event kind " +:+ quoted k) now s
  end.
End dispatcher.

(** ** The running system *)

(** The store, the identifiers drawn so far, and the deliveries dispatchers
hold: the event as claimed and, once read, its order. *)
Record osys : Type := mkSys {
  sy_store : memoryState; sy_next : nat; sy_flight : list (OutboxEvent * option Order) }.

Inductive oop : Type :=
| OPlace (cancelled : bool) (now : Z) (r : PlaceOrderRequest)
| OClaim (cancelled : bool) (now leaseFor limit : Z)
| ORead (i : nat)
| ODeliver (i : nat) (cancelled : bool) (out : remote) (now : Z)
| OCrash (i : nat).

Section system.
Context (hash : string → string) (fresh : nat → string) (policy : RetryPolicy).

Definition ostep (y : osys) (op : oop) : osys :=
  match op with
  | OPlace c now r =>
      let '(s, _, n) := Place hash fresh c now r (sy_next y) (sy_store y) in mkSys s n (sy_flight y)
  | OClaim c now leaseFor limit =>
      let '(s, r, n) := ClaimDue fresh c now leaseFor limit (sy_next y) (sy_store y) in
      mkSys s n (sy_flight y ++ match r with Ok evs => (fun e => (e, None)) <$> evs | Err _ => [] end)
  | ORead i =>
      match sy_flight y !! i with
      | Some (ev, None) =>
          match orderFor false ev (sy_store y) with
          | Ok o => mkSys (sy_store y) (sy_next y) (<[i := (ev, Some o)]> (sy_flight y))
          | Err _ => mkSys (sy_store y) (sy_next y) (delete i (sy_flight y))
          end
      | _ => y
      end
  | ODeliver i c out now =>
      match sy_flight y !! i with
      | Some (ev, Some o) =>
          let '(s, _) := deliver fresh policy c ev o out now (sy_next y) (sy_store y) in
          mkSys s (S (sy_next y)) (delete i (sy_flight y))
      | _ => y
      end
  | OCrash i => mkSys (sy_store y) (sy_next y) (delete i (sy_flight y))
  end.

Definition orun (ops : list oop) : osys := foldl ostep (mkSys NewMemoryStore 0 []) ops.

(** The calls the gateways receive. A handler calls its gateway once, after it read the
order and before it writes the outcome, with the identifier of the event as operation
id; a dispatcher that crashes with the order read is taken to have made the call. *)
(* [go] dispatcher.go:96-101 Dispatcher.reserve *)
Record gateway_call : Type := mkCall {
  gc_op : string; gc_kind : EventKind; gc_order : string; gc_end : option (result order_err unit) }.

(** An event of another kind is abandoned without a call. *)
Definition has_gateway (k : EventKind) : bool := match k with OtherKind _ => false | _ => true end.

(** What [deliver] returned after the call, [None] for a crash. *)
(* [go] dispatcher.go:123-154 Dispatcher.route *)
Definition calls_of (y : osys) (op : oop) : list gateway_call :=
  match op with
  | ODeliver i c out now =>
      match sy_flight y !! i with
      | Some (ev, Some o) =>
          if has_gateway (Kind ev)
          then [mkCall (e_ID ev) (Kind ev) (o_ID o)
                  (Some (deliver fresh policy c ev o out now (sy_next y) (sy_store y)).2)]
          else []
      | _ => []
      end
  | OCrash i =>
      match sy_flight y !! i with
      | Some (ev, Some o) => if has_gateway (Kind ev) then [mkCall (e_ID ev) (Kind ev) (o_ID o) None] else []
      | _ => []
      end
  | _ => []
  end.

Fixpoint calls_from (y : osys) (ops : list oop) : list gateway_call :=
  match ops with [] => [] | op :: ops' => calls_of y op ++ calls_from (ostep y op) ops' end.

Definition calls (ops : list oop) : list gateway_call := calls_from (mkSys NewMemoryStore 0 []) ops.

(** The calls of an operation id, those whose outcome was written, and those whose
outcome was not: the dispatcher crashed, its context was cancelled, or its lease had
been taken over. *)
Definition calls_with (op : string) (log : list gateway_call) : list gateway_call :=
  filter (fun c => gc_op c = op) log.

Definition interruption (r : option (result order_err unit)) : bool :=
  match r with None | Some (Err ErrContext) | Some (Err ErrLeaseLost) => true | _ => false end.

Definition settled_calls (op : string) (log : list gateway_call) : list gateway_call :=
  filter (fun c => interruption (gc_end c) = false) (calls_with op log).

Definition interrupted_calls (op : string) (log : list gateway_call) : list gateway_call :=
  filter (fun c => interruption (gc_end c) = true) (calls_with op log).
End system.

(** ** The invariant of the saga *)

Definition live (e : OutboxEvent) : bool :=
  match State e with EventPending | EventRetry | EventProcessing => true | _ => false end.

(** The event an order waits for, if it waits. *)
Definition expected (o : Order) : option EventKind :=
  match o_Status o, Margin o with
  | PendingMargin, MarginNone => Some ReserveMargin
  | PendingRoute, MarginReserved => Some RouteExchange
  | Rejected, MarginReleasePending => Some ReleaseMargin
  | _, _ => None
  end.

(** The states an order may be in. *)
Definition valid (o : Order) : Prop :=
  match o_Status o, Margin o with
  | PendingMargin, MarginNone | PendingRoute, MarginReserved | Accepted, MarginReserved
  | Rejected, (MarginNone | MarginReleasePending | MarginReleased)
  | ReconciliationRequired, (MarginNone | MarginReserved | MarginReleasePending) => True
  | _, _ => False
  end.

(** An event of kind [k] exists only once the order got so far. *)
Definition kind_ok (k : EventKind) (o : Order) : Prop :=
  match k with
  | ReserveMargin => True
  | RouteExchange => Margin o ≠ MarginNone
  | ReleaseMargin => Margin o = MarginReleasePending ∨ Margin o = MarginReleased
  | OtherKind _ => False
  end.

Definition order_key (o : Order) : string := idempotencyIndex (AccountID o) (IdempotencyKey o).

Record oinv (s : memoryState) : Prop := {
  oi_id : ∀ id o, orders s !! id = Some o → o_ID o = id;
  oi_key : ∀ id o, orders s !! id = Some o → byIdempotency s !! order_key o = Some id;
  oi_idem : ∀ k id, byIdempotency s !! k = Some id → ∃ o, orders s !! id = Some o ∧ order_key o = k;
  oi_valid : ∀ id o, orders s !! id = Some o → valid o;
  oi_eid : ∀ id e, events s !! id = Some e → e_ID e = id;
  oi_event : ∀ id e, events s !! id = Some e → ∃ o, orders s !! OrderID e = Some o ∧ kind_ok (Kind e) o;
  oi_live : ∀ id e o, events s !! id = Some e → live e = true →
    orders s !! OrderID e = Some o → expected o = Some (Kind e);
  oi_has : ∀ oid o k, orders s !! oid = Some o → expected o = Some k →
    ∃ id e, events s !! id = Some e ∧ OrderID e = oid ∧ Kind e = k ∧ live e = true;
  oi_uniq : ∀ id id' e e', events s !! id = Some e → events s !! id' = Some e' →
    OrderID e = OrderID e' → Kind e = Kind e' → id = id' }.

Lemma oinv_new : oinv NewMemoryStore.
Proof. constructor; simpl; try done. Qed.

(** Same event, except for its delivery state. *)
Definition same_event (e e' : OutboxEvent) : Prop :=
  e_ID e' = e_ID e ∧ OrderID e' = OrderID e ∧ Kind e' = Kind e.

(** Claiming or retrying an event keeps the invariant. *)
Lemma oinv_touch s id e e' : oinv s → events s !! id = Some e → same_event e e' → live e' = live e →
  oinv (mkState (orders s) (byIdempotency s) (<[id := e']> (events s))).
Proof.
  intros [Hid Hkey Hidem Hval Heid Hev Hlive Hhas Huniq] He (H1 & H2 & H3) Hl.
  assert (∀ i x, <[id := e']> (events s) !! i = Some x →
    ∃ x0, events s !! i = Some x0 ∧ same_event x0 x ∧ live x = live x0) as Hold.
  { intros i x [[<- <-]|[_ Hx]]%lookup_insert_Some; [by exists e|by exists x]. }
  constructor; cbn [orders byIdempotency events]; try done.
  - intros i x (x0 & Hx & (-> & _ & _) & _)%Hold. eauto.
  - intros i x (x0 & Hx & (_ & -> & ->) & _)%Hold. eauto.
  - intros i x o (x0 & Hx & (_ & -> & ->) & ->)%Hold. eauto.
  - intros oid o k Ho Hk. destruct (Hhas oid o k Ho Hk) as (i & x & Hx & ? & ? & ?).
    destruct (decide (i = id)) as [->|Hne].
    + simplify_eq. exists id, e'. rewrite lookup_insert_eq. split_and!; congruence.
    + exists i, x. by rewrite lookup_insert_ne.
  - intros i i' x x' (x0 & Hx & (_ & -> & ->) & _)%Hold (y0 & Hy & (_ & -> & ->) & _)%Hold. eauto.
Qed.

(** The successor event a handler enqueues with the order it writes. *)
Definition enqueue_opt (succ : option (EventKind * string)) (oid : string) (now : Z) (s : memoryState) : memoryState :=
  match succ with None => s | Some (k, id) => Enqueue id oid k now s end.

(** Closing the live event [e] of an order, moving the order on to [o'], and enqueueing
what it waits for next. *)
Section close.
Context (s : memoryState) (eid oid : string) (e e' : OutboxEvent) (o o' : Order) (succ : option (EventKind * string)) (now : Z).
Context (Hinv : oinv s) (He : events s !! eid = Some e) (Hl : live e = true) (Hoid : OrderID e = oid).
Context (Ho : orders s !! oid = Some o) (Hsame : same_event e e') (Hl' : live e' = false).
Context (HidO : o_ID o' = o_ID o) (HkeyO : order_key o' = order_key o) (Hv : valid o').
Context (Hmono : ∀ k, kind_ok k o → kind_ok k o').
Context (Hsucc : match succ with
  | None => expected o' = None
  | Some (k, nid) => expected o' = Some k ∧ events s !! nid = None ∧ ¬ kind_ok k o ∧ kind_ok k o'
  end).

Definition closed_events : gmap string OutboxEvent :=
  <[eid := e']> (match succ with None => events s
    | Some (k, nid) => <[nid := mkOEvent nid oid k EventPending 0 now "" zero_time "" now zero_time]> (events s) end).

Lemma close_eq :
  close_event eid (fun _ => e') (enqueue_opt succ oid now (mkState (<[oid := o']> (orders s)) (byIdempotency s) (events s))) =
  mkState (<[oid := o']> (orders s)) (byIdempotency s) closed_events.
Proof.
  unfold close_event, enqueue_opt, Enqueue, closed_events. destruct succ as [[k nid]|]; cbn [events orders byIdempotency].
  - destruct Hsucc as (_ & Hn & _). rewrite lookup_insert_ne by (intros ->; congruence). by rewrite He.
  - by rewrite He.
Qed.

(** An event of the new state is the closed one, the successor, or an old one. *)
Lemma closed_cases i x : closed_events !! i = Some x →
  (i = eid ∧ x = e') ∨
  (∃ k nid, succ = Some (k, nid) ∧ i = nid ∧ OrderID x = oid ∧ Kind x = k ∧ e_ID x = nid ∧ live x = true) ∨
  (i ≠ eid ∧ events s !! i = Some x).
Proof.
  unfold closed_events. intros [[<- <-]|[Hne Hx]]%lookup_insert_Some; [by left|]. right.
  destruct succ as [[k nid]|]; [|by right]. apply lookup_insert_Some in Hx as [[<- <-]|[_ Hx]]; [left|by right]. by exists k, nid.
Qed.

Lemma closed_keeps i x : i ≠ eid → events s !! i = Some x → closed_events !! i = Some x.
Proof.
  intros Hne Hx. unfold closed_events. rewrite lookup_insert_ne by done. destruct succ as [[k nid]|]; [|done].
  rewrite lookup_insert_ne; [done|]. intros ->. destruct Hsucc as (_ & Hn & _). congruence.
Qed.

Lemma closed_orders q x : <[oid := o']> (orders s) !! q = Some x → (q = oid ∧ x = o') ∨ (q ≠ oid ∧ orders s !! q = Some x).
Proof. intros [[<- <-]|[? ?]]%lookup_insert_Some; auto. Qed.

Lemma closed_event_ok i x : closed_events !! i = Some x →
  ∃ y, <[oid := o']> (orders s) !! OrderID x = Some y ∧ kind_ok (Kind x) y.
Proof.
  destruct Hsame as (Hs1 & Hs2 & Hs3).
  intros [[-> ->]|[(k & nid & Hsu & -> & -> & -> & _)|[_ Hx]]]%closed_cases.
  - rewrite Hs2, Hs3, Hoid, lookup_insert_eq. exists o'. split; [done|].
    destruct (oi_event _ Hinv eid e He) as (x & Hx & Hko). rewrite Hoid in Hx. simplify_eq. by apply Hmono.
  - rewrite lookup_insert_eq. exists o'. split; [done|]. rewrite Hsu in Hsucc. apply Hsucc.
  - destruct (oi_event _ Hinv i x Hx) as (y & Hy & Hko). rewrite lookup_insert. case_decide as Hd; [|eauto].
    exists o'. split; [done|]. apply Hmono. rewrite <- Hd in Hy. by simplify_eq.
Qed.

Lemma closed_live i x y : closed_events !! i = Some x → live x = true →
  <[oid := o']> (orders s) !! OrderID x = Some y → expected y = Some (Kind x).
Proof.
  intros [[-> ->]|[(k & nid & Hsu & -> & Hx1 & Hx2 & _ & _)|[Hne Hx]]]%closed_cases Hlx; [congruence| |].
  - rewrite Hx1, lookup_insert_eq. intros [= <-]. rewrite Hx2. rewrite Hsu in Hsucc. apply Hsucc.
  - intros [[Hd ->]|[_ Hy]]%closed_orders; [|by eapply (oi_live _ Hinv)]. exfalso. apply Hne.
    apply (oi_uniq _ Hinv i eid x e Hx He); [congruence|].
    assert (expected o = Some (Kind x)) as Hk1 by (apply (oi_live _ Hinv i x o Hx Hlx); by rewrite Hd).
    assert (expected o = Some (Kind e)) as Hk2 by (apply (oi_live _ Hinv eid e o He Hl); by rewrite Hoid).
    congruence.
Qed.

Lemma closed_has q x k : <[oid := o']> (orders s) !! q = Some x → expected x = Some k →
  ∃ id y, closed_events !! id = Some y ∧ OrderID y = q ∧ Kind y = k ∧ live y = true.
Proof.
  intros [[-> ->]|[Hd Hx]]%closed_orders Hk.
  - destruct succ as [[k' nid]|] eqn:Hsu; [|congruence]. destruct Hsucc as (Hk' & Hn & _ & _). exists nid. eexists.
    split; [unfold closed_events; rewrite Hsu, lookup_insert_ne by (intros ->; congruence); apply lookup_insert_eq|].
    split_and!; [done|simpl; congruence|done].
  - destruct (oi_has _ Hinv q x k Hx Hk) as (i & y & Hy & Hyo & Hyk & Hyl). exists i, y. split; [|done].
    apply closed_keeps; [|done]. intros ->. simplify_eq.
Qed.

(** An event has the kind of an old one of its order, or is the successor. *)
Lemma closed_kinds i x : closed_events !! i = Some x →
  (∃ y, events s !! i = Some y ∧ OrderID y = OrderID x ∧ Kind y = Kind x) ∨
  (∃ k nid, succ = Some (k, nid) ∧ i = nid ∧ OrderID x = oid ∧ Kind x = k ∧
     ∀ j y, events s !! j = Some y → OrderID y = oid → Kind y ≠ k).
Proof.
  destruct Hsame as (Hs1 & Hs2 & Hs3).
  intros [[-> ->]|[(k & nid & Hsu & -> & Hx1 & Hx2 & _)|[_ Hy]]]%closed_cases; [left; eauto|right|left; eauto].
  exists k, nid. split_and!; try done. intros j y Hj Hoy Hky. rewrite Hsu in Hsucc. destruct Hsucc as (_ & _ & Hnk & _).
  apply Hnk. destruct (oi_event _ Hinv j y Hj) as (z & Hz & Hko). rewrite Hoy in Hz. simplify_eq. congruence.
Qed.

Lemma oinv_close :
  oinv (close_event eid (fun _ => e')
    (enqueue_opt succ oid now (mkState (<[oid := o']> (orders s)) (byIdempotency s) (events s)))).
Proof.
  rewrite close_eq. constructor; cbn [orders byIdempotency events].
  - intros q x [[-> ->]|[_ Hx]]%closed_orders; [rewrite HidO|]; by apply (oi_id _ Hinv).
  - intros q x [[-> ->]|[_ Hx]]%closed_orders; [rewrite HkeyO|]; by apply (oi_key _ Hinv).
  - intros k q Hq. destruct (oi_idem _ Hinv k q Hq) as (x & Hx & ?). rewrite lookup_insert. case_decide; [|eauto].
    exists o'. split; [done|]. congruence.
  - intros q x [[-> ->]|[_ Hx]]%closed_orders; [done|by eapply (oi_valid _ Hinv)].
  - intros i x [[-> ->]|[(k & nid & _ & -> & _ & _ & ? & _)|[_ Hx]]]%closed_cases; [|done|by apply (oi_eid _ Hinv)].
    destruct Hsame as (-> & _). by apply (oi_eid _ Hinv).
  - apply closed_event_ok.
  - apply closed_live.
  - apply closed_has.
  - intros i i' x x' Hx Hx' Ho12 Hk12.
    destruct (closed_kinds _ _ Hx) as [(y & Hy & Hy1 & Hy2)|(k & nid & Hsu & -> & Hy1 & Hy2 & Hno)],
      (closed_kinds _ _ Hx') as [(z & Hz & Hz1 & Hz2)|(k2 & nid2 & Hsu2 & -> & Hz1 & Hz2 & Hno2)].
    + apply (oi_uniq _ Hinv _ _ _ _ Hy Hz); congruence.
    + exfalso. eapply (Hno2 _ y); eauto; congruence.
    + exfalso. eapply (Hno _ z); eauto; congruence.
    + congruence.
Qed.
End close.

(** ** The invariant of the system *)

Section system_inv.
Context (hash : string → string) (fresh : nat → string) `{!Inj (=) (=) fresh}.
Context (policy : RetryPolicy) (Hpolicy : 1 ≤ MaxAttempts policy).

Definition drawn (n : nat) (id : string) : Prop := ∃ m, (m < n)%nat ∧ id = fresh m.

Lemma drawn_S n id : drawn n id → drawn (S n) id.
Proof. intros (m & ? & ->). exists m. split; [lia|done]. Qed.

Lemma drawn_fresh n : ¬ drawn n (fresh n).
Proof. intros (m & ? & Heq%(inj fresh)). lia. Qed.

#[local] Hint Resolve drawn_S : core.

(** A held delivery: its event is in the store, the token is old, and if the
lease still holds the store has the event as it was claimed. *)
Definition held (s : memoryState) (n : nat) (x : OutboxEvent * option Order) : Prop :=
  ∃ e, events s !! e_ID x.1 = Some e ∧ same_event e x.1 ∧ drawn n (LeaseToken x.1) ∧
    (State e = EventProcessing → LeaseToken e = LeaseToken x.1 → e = x.1) ∧
    match x.2 with Some o => o_ID o = OrderID x.1 | None => True end.

Definition attempts_ok (e : OutboxEvent) : Prop :=
  0 ≤ Attempts e ≤ MaxAttempts policy ∧ (live e = true → Attempts e < MaxAttempts policy).

Record yinv (y : osys) : Prop := {
  yi_store : oinv (sy_store y);
  yi_order : ∀ id o, orders (sy_store y) !! id = Some o → drawn (sy_next y) id;
  yi_event : ∀ id e, events (sy_store y) !! id = Some e → drawn (sy_next y) id;
  yi_flight : ∀ x, x ∈ sy_flight y → held (sy_store y) (sy_next y) x;
  yi_att : ∀ id e, events (sy_store y) !! id = Some e → attempts_ok e }.

(** Writing one event, whose lease is not the one of a held delivery. *)
Lemma held_write s ords idx n id e e' x : events s !! id = Some e → same_event e e' →
  (State e' = EventProcessing → ¬ drawn n (LeaseToken e')) → held s n x →
  held (mkState ords idx (<[id := e']> (events s))) (S n) x.
Proof.
  intros He Hsame Hst (e0 & He0 & Hs0 & Hd & Hl & Ho). unfold held. simpl.
  destruct (decide (id = e_ID x.1)) as [->|Hne].
  - rewrite He in He0. injection He0 as <-. exists e'. rewrite lookup_insert_eq.
    assert (same_event e' x.1) as Hs by (destruct Hsame as (? & ? & ?), Hs0 as (? & ? & ?); split_and!; congruence).
    split_and!; try done; [by apply drawn_S|].
    intros Hp Ht. rewrite Ht in Hst. by destruct (Hst Hp).
  - exists e0. rewrite lookup_insert_ne by done. by split_and!; [..|apply drawn_S|done|done].
Qed.

Lemma held_enqueue s ords idx n id e x : events s !! id = None → held s n x →
  held (mkState ords idx (<[id := e]> (events s))) (S n) x.
Proof.
  intros Hn (e0 & He0 & Hs0 & Hd & Hl & Ho). exists e0. simpl.
  rewrite lookup_insert_ne by (intros ->; congruence). split_and!; try done. by apply drawn_S.
Qed.

Lemma held_S s n x : held s n x → held s (S n) x.
Proof. intros (e & ? & ? & ? & ? & ?). exists e. split_and!; try done. by apply drawn_S. Qed.

(** Claiming one event. *)
Lemma yinv_claim1 s n fl e now leaseFor : yinv (mkSys s n fl) → events s !! e_ID e = Some e → live e = true →
  let e' := set_event EventProcessing (Attempts e) (AvailableAt e) (fresh n) (now + leaseFor)
              (LastError e) (DeliveredAt e) e in
  yinv (mkSys (mkState (orders s) (byIdempotency s) (<[e_ID e := e']> (events s))) (S n) (fl ++ [(e', None)])).
Proof.
  intros [Hst Hor Hev Hfl Hat] He Hl e'. assert (same_event e e') as Hsame by done.
  constructor; cbn [sy_store sy_next sy_flight orders events] in *.
  - by apply (oinv_touch s (e_ID e) e e').
  - eauto.
  - intros id x [[<- <-]|[_ Hx]]%lookup_insert_Some; eauto.
  - intros x [Hx|Hx]%elem_of_app.
    + apply (held_write s (orders s) (byIdempotency s) n _ e e'); try done; [|eauto]. intros _. apply drawn_fresh.
    + apply list_elem_of_singleton in Hx as ->. exists e'. simpl. rewrite lookup_insert_eq.
      split_and!; try done. exists n. split; [lia|done].
  - intros id x [[<- <-]|[_ Hx]]%lookup_insert_Some; [|eauto].
    destruct (Hat _ _ He) as [? ?]. split; [done|]. intros _. by apply H0.
Qed.

Lemma claim_loop_inv due now leaseFor s n fl : yinv (mkSys s n fl) →
  NoDup (e_ID <$> due) → (∀ e, e ∈ due → events s !! e_ID e = Some e ∧ live e = true) →
  let '(evs, claimed, n') := claim_loop fresh now leaseFor due n (events s) in
  yinv (mkSys (mkState (orders s) (byIdempotency s) evs) n' (fl ++ ((fun e => (e, None)) <$> claimed))).
Proof.
  revert s n fl. induction due as [|e due IH]; intros s n fl Hy Hnd Hdue; simpl.
  { rewrite app_nil_r. by destruct s. }
  apply NoDup_cons in Hnd as [Hnin Hnd]. destruct (Hdue e) as [He Hl]; [left|].
  pose proof (yinv_claim1 s n fl e now leaseFor Hy He Hl) as Hy'. cbv zeta in Hy'.
  specialize (IH _ _ _ Hy' Hnd). cbn [events] in IH.
  destruct (claim_loop fresh now leaseFor due (S n) _) as [[evs claimed] n'].
  rewrite fmap_cons. rewrite <- app_assoc in IH. apply IH.
  intros x Hx. destruct (Hdue x) as [Hxe Hxl]; [by right|]. split; [|done].
  rewrite lookup_insert_ne; [done|]. intros Heq. apply Hnin. rewrite Heq. by apply list_elem_of_fmap_2.
Qed.

(** What a claim takes: distinct live events of the store. *)
Lemma due_ok s now limit : oinv s →
  let due := take limit (merge_sort claim_le (filter (fun e => claimable now e = true) ((map_to_list (events s)).*2))) in
  NoDup (e_ID <$> due) ∧ ∀ e, e ∈ due → events s !! e_ID e = Some e ∧ live e = true.
Proof.
  intros Hst due. split.
  - unfold due. rewrite fmap_take. eapply sublist_NoDup; [|apply sublist_take].
    rewrite merge_sort_Permutation. eapply sublist_NoDup; [|apply fmap_sublist, sublist_filter].
    assert (e_ID <$> (map_to_list (events s)).*2 = (map_to_list (events s)).*1) as ->; [|apply NoDup_fst_map_to_list].
    assert (∀ id e, (id, e) ∈ map_to_list (events s) → e_ID e = id) as Hid.
    { intros id e Hi%elem_of_map_to_list. by apply (oi_eid _ Hst). }
    revert Hid. generalize (map_to_list (events s)). clear.
    intros l Hid. induction l as [|[id e] l IH]; [done|]. rewrite !fmap_cons. simpl. f_equal.
    + apply (Hid id e). left.
    + apply IH. intros i x Hx. apply Hid. by right.
  - intros e He. apply elem_of_take in He as (i & Hi & _). apply list_elem_of_lookup_2 in Hi.
    rewrite merge_sort_Permutation in Hi. apply list_elem_of_filter in Hi as [Hc Hi].
    apply list_elem_of_fmap in Hi as ([id e1] & -> & Hi%elem_of_map_to_list). simpl in *.
    rewrite (oi_eid _ Hst id e1 Hi). split; [done|]. unfold claimable in Hc.
    apply orb_true_iff in Hc as [Hc|Hc]; zbool; unfold live; [destruct H as [-> | ->]|rewrite H]; done.
Qed.
Lemma yinv_ClaimDue y c now leaseFor limit : yinv y → yinv (ostep hash fresh policy y (OClaim c now leaseFor limit)).
Proof.
  intros Hy. simpl. unfold ClaimDue. destruct y as [s n fl]. cbn [sy_store sy_next sy_flight] in *.
  destruct c; [by rewrite app_nil_r|]. destruct (limit <=? 0); [by rewrite app_nil_r|].
  destruct (due_ok s now (Z.to_nat limit) (yi_store _ Hy)) as [Hnd Hdue]. set (due := take (Z.to_nat limit) _) in *.
  pose proof (claim_loop_inv due now leaseFor s n fl Hy Hnd Hdue) as Hl.
  by destruct (claim_loop fresh now leaseFor due n (events s)) as [[evs claimed] n'].
Qed.

(** *** Placing an order *)

Lemma yinv_new_order s n fl now r : yinv (mkSys s n fl) → validate r = None →
  OrderByIdempotency (pr_AccountID r) (pr_Key r) s = None →
  ∃ s1, PutOrder (new_order hash (fresh n) now r) s = Ok s1 ∧
    yinv (mkSys (Enqueue (fresh (S n)) (fresh n) ReserveMargin now s1) (S (S n)) fl).
Proof.
  intros [Hst Hor Hev Hfl Hat] Hv Hnone. cbn [sy_store sy_next sy_flight] in *.
  set (o := new_order hash (fresh n) now r). set (key := idempotencyIndex (pr_AccountID r) (pr_Key r)).
  assert (orders s !! fresh n = None) as Hon.
  { apply eq_None_not_Some. intros [x Hx]. by eapply drawn_fresh, Hor. }
  assert (byIdempotency s !! key = None) as Hkn.
  { unfold OrderByIdempotency in Hnone. fold key in Hnone. destruct (byIdempotency s !! key) as [id|] eqn:Hk; [|done].
    destruct (oi_idem _ Hst _ _ Hk) as (x & Hx & _). congruence. }
  assert (∀ m, (n ≤ m)%nat → events s !! fresh m = None) as Hen.
  { intros m Hm. apply eq_None_not_Some. intros [x Hx]. destruct (Hev _ _ Hx) as (k & Hk & Heq%(inj fresh)). lia. }
  exists (mkState (<[fresh n := o]> (orders s)) (<[key := fresh n]> (byIdempotency s)) (events s)).
  split; [unfold PutOrder; simpl; rewrite Hon; fold key; by rewrite Hkn|].
  unfold Enqueue. set (e := mkOEvent _ _ _ _ _ _ _ _ _ _ _).
  destruct Hst as [Hid Hkey Hidem Hval Heid Hevt Hlive Hhas Huniq].
  assert (∀ i x, <[fresh (S n) := e]> (events s) !! i = Some x →
    i = fresh (S n) ∧ x = e ∨ i ≠ fresh (S n) ∧ events s !! i = Some x ∧ OrderID x ≠ fresh n) as Hcase.
  { intros i x [[<- <-]|[Hne Hx]]%lookup_insert_Some; [by left|right]. split_and!; try done.
    destruct (Hevt i x Hx) as (y & Hy & _). intros Heq. rewrite Heq in Hy. congruence. }
  assert (∀ q x, <[fresh n := o]> (orders s) !! q = Some x → q = fresh n ∧ x = o ∨ q ≠ fresh n ∧ orders s !! q = Some x) as Hoc.
  { intros q x [[<- <-]|[Hne Hx]]%lookup_insert_Some; [by left|right]. done. }
  assert (∀ q x, orders s !! q = Some x → <[fresh n := o]> (orders s) !! q = Some x) as Hok.
  { intros q x Hx. rewrite lookup_insert_ne; [done|]. intros Heq. rewrite <- Heq in Hx. congruence. }
  constructor; cbn [sy_store sy_next sy_flight orders events byIdempotency].
  - constructor; cbn [orders events byIdempotency].
    + intros q x [[-> ->]|[_ Hx]]%Hoc; [done|eauto].
    + intros q x [[-> ->]|[_ Hx]]%Hoc; [by rewrite lookup_insert_eq|].
      rewrite lookup_insert_ne; [eauto|]. intros Heq. rewrite Heq, (Hkey q x Hx) in Hkn. done.
    + intros k q [[<- <-]|[_ Hk]]%lookup_insert_Some; [exists o; by rewrite lookup_insert_eq|].
      destruct (Hidem k q Hk) as (x & Hx & ?). exists x. eauto.
    + intros q x [[-> ->]|[_ Hx]]%Hoc; [done|eauto].
    + intros i x [[-> ->]|(_ & Hx & _)]%Hcase; [done|eauto].
    + intros i x [[-> ->]|(_ & Hx & _)]%Hcase; [exists o; by rewrite lookup_insert_eq|].
      destruct (Hevt i x Hx) as (y & Hy & ?). exists y. eauto.
    + intros i x y [[-> ->]|(_ & Hx & Hne)]%Hcase Hl [[Hq ->]|[Hq Hy]]%Hoc; try done; eauto.
    + intros q x k [[-> ->]|[Hq Hx]]%Hoc Hk.
      * exists (fresh (S n)), e. rewrite lookup_insert_eq. injection Hk as <-. done.
      * destruct (Hhas q x k Hx Hk) as (i & y & Hy & ?). exists i, y. split; [|done].
        rewrite lookup_insert_ne; [done|]. intros <-. rewrite Hen in Hy by lia. done.
    + intros i i' x x' [[-> ->]|(_ & Hx & Hne)]%Hcase [[-> ->]|(_ & Hx' & Hne')]%Hcase; try done; eauto.
  - intros q x [[-> ->]|[_ Hx]]%Hoc; [exists n; split; [lia|done]|]. eauto.
  - intros i x [[-> ->]|(_ & Hx & _)]%Hcase; [exists (S n); split; [lia|done]|]. eauto.
  - intros x Hx. apply held_S. apply (held_enqueue s); [apply Hen; lia|]. auto.
  - intros i x [[-> ->]|(_ & Hx & _)]%Hcase; [|eauto]. split; simpl; [lia|]. intros _. lia.
Qed.

Lemma yinv_skip s n fl : yinv (mkSys s n fl) → yinv (mkSys s (S n) fl).
Proof.
  intros [Hst Hor Hev Hfl Hat]. constructor; cbn [sy_store sy_next sy_flight] in *; eauto.
  intros x Hx. apply held_S. auto.
Qed.

Lemma yinv_Place y c now r : yinv y → yinv (ostep hash fresh policy y (OPlace c now r)).
Proof.
  intros Hy. simpl. unfold Place. destruct y as [s n fl]. cbn [sy_store sy_next sy_flight] in *.
  destruct (validate r) eqn:Hv; [done|]. unfold Transaction. destruct c; [by do 2 apply yinv_skip|].
  destruct (OrderByIdempotency (pr_AccountID r) (pr_Key r) s) as [o|] eqn:Ho.
  - destruct (negb _); by do 2 apply yinv_skip.
  - destruct (yinv_new_order s n fl now r Hy Hv Ho) as (s1 & -> & Hy1). done.
Qed.

(** *** Writing under a lease *)

Lemma leased_Some id tok s e : leased id tok s = Some e →
  events s !! id = Some e ∧ State e = EventProcessing ∧ LeaseToken e = tok.
Proof.
  unfold leased. destruct (events s !! id) as [x|]; [|done]. destruct (_ && _) eqn:E; [|done].
  intros [= ->]. zbool. done.
Qed.

(** A handler's transaction on the order of the event it holds a lease of. *)
Lemma yinv_close s n fl ev (f : Order → Order) (g : OutboxEvent → OutboxEvent) succ now :
  yinv (mkSys s n fl) → leased (e_ID ev) (LeaseToken ev) s = Some ev →
  same_event ev (g ev) → live (g ev) = false → State (g ev) ≠ EventProcessing → attempts_ok (g ev) →
  (∀ o, orders s !! OrderID ev = Some o → valid o → expected o = Some (Kind ev) →
    o_ID (f o) = o_ID o ∧ order_key (f o) = order_key o ∧ valid (f o) ∧
    (∀ k, kind_ok k o → kind_ok k (f o)) ∧
    match succ with
    | None => expected (f o) = None
    | Some k => expected (f o) = Some k ∧ ¬ kind_ok k o ∧ kind_ok k (f o)
    end) →
  match update_order (OrderID ev) f ((fun k => (k, fresh n)) <$> succ) now s with
  | Err _ => False
  | Ok s1 => yinv (mkSys (close_event (e_ID ev) g s1) (S n) fl)
  end.
Proof.
  intros [Hst Hor Hev Hfl Hat] Hle Hsame Hl Hnp Hatt Hf. cbn [sy_store sy_next sy_flight] in *.
  apply leased_Some in Hle as (He & Hp & _).
  assert (live ev = true) as Hlv by (unfold live; by rewrite Hp).
  destruct (oi_event _ Hst _ _ He) as (o & Ho & _).
  pose proof (oi_live _ Hst _ _ _ He Hlv Ho) as Hex.
  pose proof (oi_id _ Hst _ _ Ho) as Hoid.
  destruct (Hf o Ho (oi_valid _ Hst _ _ Ho) Hex) as (H1 & H2 & H3 & H4 & H5).
  unfold update_order, tx_Order, PutOrder. rewrite Ho, H1, Hoid, Ho.
  assert (events s !! fresh n = None) as Hen.
  { apply eq_None_not_Some. intros [x Hx]. by eapply drawn_fresh, Hev. }
  set (s0 := mkState (<[OrderID ev := f o]> (orders s)) (byIdempotency s) (events s)).
  set (s1 := enqueue_opt ((fun k => (k, fresh n)) <$> succ) (OrderID ev) now s0).
  assert (match (fun k => (k, fresh n)) <$> succ with
    | Some (kind, id) => Enqueue id (OrderID ev) kind now s0 | None => s0 end = s1) as ->.
  { unfold s1, enqueue_opt. by destruct succ. }
  assert (events s1 !! e_ID ev = Some ev) as He1.
  { unfold s1, enqueue_opt. destruct succ as [k|]; simpl; [|done].
    rewrite lookup_insert_ne; [done|]. intros Heq. rewrite Heq in Hen. congruence. }
  assert (close_event (e_ID ev) g s1 = close_event (e_ID ev) (fun _ => g ev) s1) as ->.
  { unfold close_event. by rewrite He1. }
  assert (oinv (close_event (e_ID ev) (fun _ => g ev) s1)) as Hinv.
  { eapply oinv_close; try done. destruct succ as [k|]; simpl; [|done]. naive_solver. }
  assert (close_event (e_ID ev) (fun _ => g ev) s1 =
    mkState (<[OrderID ev := f o]> (orders s)) (byIdempotency s) (<[e_ID ev := g ev]> (events s1))) as Heq.
  { unfold close_event. rewrite He1. unfold s1, enqueue_opt. by destruct succ. }
  rewrite Heq in *.
  assert (∀ i x, <[e_ID ev := g ev]> (events s1) !! i = Some x →
    i = e_ID ev ∧ x = g ev ∨ events s !! i = Some x ∨
    i = fresh n ∧ Attempts x = 0 ∧ live x = true) as Hcase.
  { intros i x [[<- <-]|[_ Hx]]%lookup_insert_Some; [by left|right]. unfold s1, enqueue_opt in Hx.
    destruct succ as [k|]; simpl in Hx; [|by left].
    apply lookup_insert_Some in Hx as [[<- <-]|[_ Hx]]; [by right|by left]. }
  constructor; cbn [sy_store sy_next sy_flight orders events].
  - done.
  - intros q x [[<- <-]|[_ Hx]]%lookup_insert_Some; eauto.
  - intros i x [[-> ->]|[Hx|(-> & _ & _)]]%Hcase; [eauto|eauto|]. exists n. split; [lia|done].
  - intros x Hx. specialize (Hfl x Hx).
    assert (held (mkState (<[OrderID ev := f o]> (orders s)) (byIdempotency s) (<[e_ID ev := g ev]> (events s))) (S n) x)
      as Hw by (by eapply (held_write s)).
    unfold s1, enqueue_opt. destruct succ as [k|]; simpl; [|done].
    destruct Hw as (e0 & He0 & ?). exists e0. split; [|done]. simpl in *.
    apply lookup_insert_Some in He0 as [[Hid <-]|[Hid He0]].
    + rewrite Hid. by rewrite lookup_insert_eq.
    + rewrite lookup_insert_ne by done. rewrite lookup_insert_ne; [done|]. intros Hq. rewrite <- Hq in He0. congruence.
  - intros i x [[-> ->]|[Hx|(_ & Ha & _)]]%Hcase; [done|eauto|]. unfold attempts_ok. rewrite Ha. lia.
Qed.

(** A held delivery whose lease was not lost is the event as claimed. *)
Lemma held_leased s n ev oo e : held s n (ev, oo) → leased (e_ID ev) (LeaseToken ev) s = Some e → e = ev.
Proof.
  intros (e0 & He0 & _ & _ & Hl & _) (He & Hp & Ht)%leased_Some. simpl in *. rewrite He in He0. simplify_eq. auto.
Qed.

Section deliver.
Context (s : memoryState) (n : nat) (fl : list (OutboxEvent * option Order)).
Context (ev : OutboxEvent) (o : Order) (c : bool) (now : Z).
Context (Hy : yinv (mkSys s n fl)) (Hheld : held s n (ev, Some o)).

Lemma held_order : o_ID o = OrderID ev.
Proof. by destruct Hheld as (e & _ & _ & _ & _ & Ho). Qed.

Lemma held_attempts : leased (e_ID ev) (LeaseToken ev) s = Some ev → 0 ≤ Attempts ev < MaxAttempts policy.
Proof.
  intros (He & Hp & _)%leased_Some. destruct (yi_att _ Hy _ _ He) as [H1 H2].
  unfold live in H2. rewrite Hp in H2. specialize (H2 eq_refl). lia.
Qed.

(** [Finalize] with a handler's update. *)
Lemma yinv_Finalize f succ :
  (∀ o, valid o → expected o = Some (Kind ev) →
    o_ID (f o) = o_ID o ∧ order_key (f o) = order_key o ∧ valid (f o) ∧
    (∀ k, kind_ok k o → kind_ok k (f o)) ∧
    match succ with
    | None => expected (f o) = None
    | Some k => expected (f o) = Some k ∧ ¬ kind_ok k o ∧ kind_ok k (f o)
    end) →
  yinv (mkSys (Finalize c (e_ID ev) (LeaseToken ev) now
    (update_order (OrderID ev) f ((fun k => (k, fresh n)) <$> succ) now) s).1 (S n) fl).
Proof.
  intros Hf. unfold Finalize. destruct (leased _ _ s) as [e|] eqn:Hle; [|by apply yinv_skip].
  assert (e = ev) as -> by by eapply held_leased. unfold Transaction. destruct c; [by apply yinv_skip|].
  pose proof (held_attempts Hle) as Ha.
  pose proof (yinv_close s n fl ev f (fun e => set_event EventDelivered (Attempts e) (AvailableAt e) ""
    zero_time (LastError e) now e) succ now Hy Hle) as Hc.
  destruct (update_order (OrderID ev) f _ now s) as [s1|err]; simpl.
  - apply Hc; try done; [split; simpl; [lia|done]|]. intros o' _. apply Hf.
  - destruct Hc; try done; [split; simpl; [lia|done]|]. intros o' _. apply Hf.
Qed.

Lemma yinv_abandon cause : yinv (mkSys (abandon c ev cause now s).1 (S n) fl).
Proof.
  unfold abandon, Abandon. destruct (leased _ _ s) as [e|] eqn:Hle; [|by apply yinv_skip].
  assert (e = ev) as -> by by eapply held_leased. unfold Transaction. destruct c; [by apply yinv_skip|].
  pose proof (held_attempts Hle) as Ha.
  pose proof (yinv_close s n fl ev (fun o => set_order ReconciliationRequired (Margin o) (ReservationID o)
      (ExchangeOrderID o) cause now o) (fun e => set_event EventDead (Attempts e + 1) (AvailableAt e) ""
    zero_time cause (DeliveredAt e) e) None now Hy Hle) as Hc. simpl in Hc.
  assert (∀ o0, orders s !! OrderID ev = Some o0 → valid o0 → expected o0 = Some (Kind ev) →
    let o1 := set_order ReconciliationRequired (Margin o0) (ReservationID o0) (ExchangeOrderID o0) cause now o0 in
    o_ID o1 = o_ID o0 ∧ order_key o1 = order_key o0 ∧ valid o1 ∧
    (∀ k, kind_ok k o0 → kind_ok k o1) ∧ expected o1 = None) as Hf.
  { intros o0 _ Hv Hx. unfold valid, expected in *. destruct o0 as [? ? ? ? ? ? ? ? st m ? ? ? ? ?]. simpl in *.
    by destruct st, m. }
  destruct (update_order (OrderID ev) _ None now s) as [s1|err]; simpl.
  - apply Hc; try done. split; simpl; [lia|done].
  - destruct Hc; try done. split; simpl; [lia|done].
Qed.

Lemma yinv_handleRemoteError e : yinv (mkSys (handleRemoteError policy c ev e now s).1 (S n) fl).
Proof.
  unfold handleRemoteError. destruct (negb _); [apply yinv_abandon|].
  destruct (MaxAttempts policy <=? Attempts ev + 1) eqn:Em; [apply yinv_abandon|]. zbool.
  unfold Retry. destruct c; [by apply yinv_skip|].
  destruct (leased _ _ s) as [x|] eqn:Hle; [|by apply yinv_skip].
  assert (x = ev) as -> by by eapply held_leased. pose proof (held_attempts Hle) as Ha.
  apply leased_Some in Hle as (He & Hp & _). destruct Hy as [Hst Hor Hev Hfl Hat]. cbn [sy_store sy_next sy_flight] in *.
  constructor; cbn [fst sy_store sy_next sy_flight orders events].
  - apply (oinv_touch s (e_ID ev) ev); try done. unfold live. simpl. by rewrite Hp.
  - eauto.
  - intros i x [[<- <-]|[_ Hx]]%lookup_insert_Some; eauto.
  - intros x Hx. apply (held_write s _ _ n _ ev); try done. auto.
  - intros i x [[<- <-]|[_ Hx]]%lookup_insert_Some; [|eauto]. split; simpl; [lia|]. intros _. lia.
Qed.

(** The side conditions of one transition of the saga, by cases on the state. *)
Ltac saga_case Hk :=
  rewrite Hk; intros [? ? ? ? ? ? ? ? st m ? ? ? ? ?] Hv Hx; unfold valid, expected in *; simpl in *;
  destruct st, m; try done; split_and!; try done; simpl;
  first [by intros []; simpl; naive_solver|naive_solver].

Lemma yinv_deliver out : yinv (mkSys (deliver fresh policy c ev o out now n s).1 (S n) fl).
Proof.
  unfold deliver, reserve, route, release. rewrite held_order.
  destruct (Kind ev) eqn:Hk; [| | |apply yinv_abandon].
  - destruct out; [| |apply yinv_handleRemoteError].
    + apply (yinv_Finalize _ (Some RouteExchange)). saga_case Hk.
    + apply (yinv_Finalize _ None). saga_case Hk.
  - destruct out; [| |apply yinv_handleRemoteError].
    + apply (yinv_Finalize _ None). saga_case Hk.
    + apply (yinv_Finalize _ (Some ReleaseMargin)). saga_case Hk.
  - assert (yinv (mkSys (Finalize c (e_ID ev) (LeaseToken ev) now
      (update_order (OrderID ev) (fun o =>
         set_order (o_Status o) MarginReleased (ReservationID o) (ExchangeOrderID o) (FailureReason o) now o)
         None now) s).1 (S n) fl)) as Hrel.
    { apply (yinv_Finalize _ None). saga_case Hk. }
    destruct out; [done|done|apply yinv_handleRemoteError].
Qed.
End deliver.

Lemma yinv_drop y i : yinv y → yinv (mkSys (sy_store y) (sy_next y) (delete i (sy_flight y))).
Proof.
  intros [Hst Hor Hev Hfl Hat]. constructor; cbn [sy_store sy_next sy_flight]; try done.
  intros x Hx. apply Hfl. by eapply list_elem_of_delete_inv.
Qed.

Lemma yinv_step y op : yinv y → yinv (ostep hash fresh policy y op).
Proof.
  intros Hy. destruct op as [c now r|c now leaseFor limit|i|i c out now|i].
  - by apply yinv_Place.
  - by apply yinv_ClaimDue.
  - simpl. destruct (sy_flight y !! i) as [[ev [o|]]|] eqn:Hi; [done| |done].
    destruct (orderFor false ev (sy_store y)) as [o|] eqn:Ho; [|by apply yinv_drop].
    unfold orderFor, Transaction, tx_Order in Ho. destruct (orders (sy_store y) !! OrderID ev) as [o'|] eqn:Ho'; [|done].
    simpl in Ho. injection Ho as ->. destruct Hy as [Hst Hor Hev Hfl Hat].
    constructor; cbn [sy_store sy_next sy_flight]; try done. intros x Hx.
    apply list_elem_of_lookup in Hx as [j Hj]. apply list_lookup_insert_Some in Hj as [(-> & <- & _)|[_ Hj]].
    + destruct (Hfl (ev, None)) as (e & ? & ? & ? & ? & _); [by eapply list_elem_of_lookup_2|].
      exists e. split_and!; try done. simpl. by apply (oi_id _ Hst).
    + apply Hfl. by eapply list_elem_of_lookup_2.
  - simpl. destruct (sy_flight y !! i) as [[ev [o|]]|] eqn:Hi; [|done|done].
    pose proof (yi_flight _ Hy (ev, Some o) ltac:(by eapply list_elem_of_lookup_2)) as Hh.
    pose proof (yinv_deliver (sy_store y) (sy_next y) (delete i (sy_flight y)) ev o c now
      (yinv_drop y i Hy) Hh out) as Hd.
    by destruct (deliver _ _ _ _ _ _ _ _ _).
  - by apply yinv_drop.
Qed.

Lemma yinv_run ops : yinv (orun hash fresh policy ops).
Proof.
  unfold orun. assert (yinv (mkSys NewMemoryStore 0 [])) as H0.
  { constructor; simpl; try done; first [apply oinv_new|by intros x ?%elem_of_nil]. }
  revert H0. generalize (mkSys NewMemoryStore 0 []). induction ops as [|op ops IH]; intros y Hy; simpl; [done|].
  apply IH. by apply yinv_step.
Qed.

(** *** The calls of a run *)

(** An event in a later state: the same event, never reopened, and as often attempted as
long as it is live. *)
Definition keeps (e e' : OutboxEvent) : Prop :=
  same_event e e' ∧ (live e' = true → live e = true ∧ Attempts e' = Attempts e).

Definition keeps_all (m m' : gmap string OutboxEvent) : Prop :=
  ∀ i x, m !! i = Some x → ∃ x', m' !! i = Some x' ∧ keeps x x'.

#[local] Instance keeps_all_refl : Reflexive keeps_all.
Proof. intros m i x Hx. by exists x. Qed.

Lemma keeps_all_insert m i x : m !! i = None → keeps_all m (<[i := x]> m).
Proof. intros Hn j y Hy. exists y. rewrite lookup_insert_ne by congruence. done. Qed.

Lemma claim_loop_keeps due now leaseFor n evs evs' claimed n' :
  NoDup (e_ID <$> due) → (∀ e, e ∈ due → evs !! e_ID e = Some e ∧ live e = true) →
  claim_loop fresh now leaseFor due n evs = (evs', claimed, n') → keeps_all evs evs'.
Proof.
  revert n evs claimed. induction due as [|e due IH]; intros n evs claimed Hnd Hdue; simpl; [by intros [= <- _ _]|].
  apply NoDup_cons in Hnd as [Hnin Hnd]. destruct (Hdue e) as [He Hl]; [left|].
  destruct (claim_loop _ _ _ _ _ _) as [[evs1 cl1] n1] eqn:Hr. intros [= -> _ ->].
  set (e' := set_event _ _ _ _ _ _ _ e) in Hr. intros i x Hx.
  destruct (λ H, IH _ _ _ Hnd H Hr i (if decide (e_ID e = i) then e' else x)) as (x' & Hx' & Hk).
  - intros y Hy. destruct (Hdue y) as [Hye Hyl]; [by right|]. split; [|done].
    rewrite lookup_insert_ne; [done|]. intros Heq. apply Hnin. rewrite Heq. by apply list_elem_of_fmap_2.
  - rewrite lookup_insert. by case_decide.
  - exists x'. split; [done|]. case_decide as Hd; [|done]. subst i. rewrite He in Hx. injection Hx as <-.
    destruct Hk as [Hs Hk]. split; [done|]. intros Hlx. split; [done|]. by destruct (Hk Hlx).
Qed.


(** How a delivery ends: interrupted, writing nothing, or settled, which closes its event
or counts one more attempt, and changes no other event. *)
Definition delivery_end (ev : OutboxEvent) (s s' : memoryState) (r : result order_err unit) : Prop :=
  (s' = s ∧ interruption (Some r) = true) ∨
  (r = Ok () ∧ leased (e_ID ev) (LeaseToken ev) s = Some ev ∧
   (∃ e', events s' !! e_ID ev = Some e' ∧ same_event ev e' ∧ (live e' = true → Attempts e' = Attempts ev + 1)) ∧
   ∀ i x, i ≠ e_ID ev → events s !! i = Some x → events s' !! i = Some x).

(** A handler's transaction cannot fail: the order is there, under its own key. *)
Lemma update_order_writes s oid f succ now o : orders s !! oid = Some o → o_ID o = oid → o_ID (f o) = o_ID o →
  ∃ s1, update_order oid f succ now s = Ok s1 ∧
    ∀ i x, events s !! i = Some x → (∀ k id, succ = Some (k, id) → i ≠ id) → events s1 !! i = Some x.
Proof.
  intros Ho Hid Hf. unfold update_order, tx_Order, PutOrder. rewrite Ho, Hf, Hid, Ho.
  eexists. split; [done|]. intros i x Hx Hn. destruct succ as [[k id]|]; [|done]. simpl.
  rewrite lookup_insert_ne; [done|]. intros ->. by eapply Hn.
Qed.

Section ends.
Context (s : memoryState) (n : nat) (fl : list (OutboxEvent * option Order)).
Context (ev : OutboxEvent) (o : Order) (c : bool) (now : Z).
Context (Hy : yinv (mkSys s n fl)) (Hheld : held s n (ev, Some o)).

Lemma closing_ends (f : Order → Order) (g : OutboxEvent → OutboxEvent) succ :
  (∀ o, o_ID (f o) = o_ID o) → same_event ev (g ev) → live (g ev) = false →
  let r := match leased (e_ID ev) (LeaseToken ev) s with
    | None => (s, Err ErrLeaseLost)
    | Some _ => Transaction c (fun s =>
        match update_order (OrderID ev) f ((fun k => (k, fresh n)) <$> succ) now s with
        | Err e => Err e
        | Ok s1 => Ok (close_event (e_ID ev) g s1, ())
        end) s
    end in
  delivery_end ev s r.1 r.2.
Proof.
  intros Hf Hs Hl. destruct (leased _ _ s) as [e|] eqn:Hle; [|by left].
  assert (e = ev) as -> by by eapply held_leased. unfold Transaction. destruct c; [by left|]. cbv zeta.
  apply leased_Some in Hle as Hl3. destruct Hl3 as (He & _ & _).
  destruct (oi_event _ (yi_store _ Hy) _ _ He) as (o1 & Ho1 & _).
  pose proof (oi_id _ (yi_store _ Hy) _ _ Ho1) as Hid.
  destruct (update_order_writes s (OrderID ev) f ((fun k => (k, fresh n)) <$> succ) now o1 Ho1 Hid (Hf o1))
    as (s1 & -> & Hev).
  assert (∀ i x, events s !! i = Some x → events s1 !! i = Some x) as Hev1.
  { intros i x Hx. apply Hev; [done|]. intros k id Hsu ->. destruct succ; simplify_eq/=.
    by eapply drawn_fresh, (yi_event _ Hy). }
  right. simpl. rewrite (Hev1 _ _ He). split_and!; try done.
  - exists (g ev). rewrite lookup_insert_eq. split_and!; try done. by rewrite Hl.
  - intros i x Hne Hx. rewrite lookup_insert_ne by done. auto.
Qed.

Lemma abandon_ends cause : delivery_end ev s (abandon c ev cause now s).1 (abandon c ev cause now s).2.
Proof. by apply (closing_ends _ (fun e => set_event EventDead _ _ _ _ _ _ e) None). Qed.

Lemma handleRemoteError_ends e :
  delivery_end ev s (handleRemoteError policy c ev e now s).1 (handleRemoteError policy c ev e now s).2.
Proof.
  unfold handleRemoteError. destruct (negb _); [apply abandon_ends|].
  destruct (_ <=? _); [apply abandon_ends|]. unfold Retry. destruct c; [by left|].
  destruct (leased _ _ s) as [x|] eqn:Hle; [|by left]. assert (x = ev) as -> by by eapply held_leased.
  right. simpl. split_and!; try done.
  - eexists. rewrite lookup_insert_eq. by split_and!.
  - intros i x Hne Hx. by rewrite lookup_insert_ne.
Qed.

Lemma deliver_ends out :
  delivery_end ev s (deliver fresh policy c ev o out now n s).1 (deliver fresh policy c ev o out now n s).2.
Proof.
  unfold deliver, reserve, route, release. rewrite (held_order s n ev o Hheld).
  destruct (Kind ev); [destruct out as [id|reason|e]..|]; try apply handleRemoteError_ends; try apply abandon_ends.
  - by apply (closing_ends _ (fun e => set_event EventDelivered _ _ _ _ _ _ e) (Some RouteExchange)).
  - by apply (closing_ends _ (fun e => set_event EventDelivered _ _ _ _ _ _ e) None).
  - by apply (closing_ends _ (fun e => set_event EventDelivered _ _ _ _ _ _ e) None).
  - by apply (closing_ends _ (fun e => set_event EventDelivered _ _ _ _ _ _ e) (Some ReleaseMargin)).
  - by apply (closing_ends _ (fun e => set_event EventDelivered _ _ _ _ _ _ e) None).
  - by apply (closing_ends _ (fun e => set_event EventDelivered _ _ _ _ _ _ e) None).
Qed.
End ends.

(** The log of calls against the store: every call names an event with its order and its
kind, and the settled calls of an event are at most its attempts while it is live. *)
Record linv (s : memoryState) (log : list gateway_call) : Prop := {
  li_call : ∀ g, g ∈ log → ∃ e, events s !! gc_op g = Some e ∧ OrderID e = gc_order g ∧ Kind e = gc_kind g;
  li_settled : ∀ id e, events s !! id = Some e →
    Z.of_nat (length (settled_calls id log)) ≤ (if live e then Attempts e else MaxAttempts policy) }.

Lemma settled_nil s log id : linv s log → events s !! id = None → settled_calls id log = [].
Proof.
  intros [Hc _] Hn. unfold settled_calls, calls_with.
  assert (filter (fun c => gc_op c = id) log = []) as ->; [|done].
  destruct (filter _ log) as [|g l] eqn:Hf; [done|]. exfalso.
  assert (g ∈ filter (fun c => gc_op c = id) log) as Hg by (rewrite Hf; left).
  apply list_elem_of_filter in Hg as [Hg1 Hg2]. destruct (Hc g Hg2) as (e & He & _). congruence.
Qed.

Lemma settled_app id l l' : settled_calls id (l ++ l') = settled_calls id l ++ settled_calls id l'.
Proof. unfold settled_calls, calls_with. by rewrite !filter_app. Qed.

Lemma settled_interrupted id log :
  length (calls_with id log) = (length (settled_calls id log) + length (interrupted_calls id log))%nat.
Proof.
  unfold settled_calls, interrupted_calls. induction (calls_with id log) as [|g l IH]; [done|].
  rewrite !filter_cons. destruct (interruption (gc_end g)) eqn:E; simpl; rewrite IH; lia.
Qed.

(** A step that settles no call keeps the log's invariant. *)
Lemma linv_keeps s s' n fl n' fl' log l : yinv (mkSys s n fl) → yinv (mkSys s' n' fl') → linv s log → keeps_all (events s) (events s') →
  (∀ g, g ∈ l → interruption (gc_end g) = true ∧
     ∃ e, events s !! gc_op g = Some e ∧ OrderID e = gc_order g ∧ Kind e = gc_kind g) →
  linv s' (log ++ l).
Proof.
  intros Hy0 Hy Hli Hk Hl. constructor.
  - intros g Hg. assert (∃ e, events s !! gc_op g = Some e ∧ OrderID e = gc_order g ∧ Kind e = gc_kind g)
      as (e & He & Ho & Hki).
    { apply elem_of_app in Hg as [Hg|Hg]; [by eapply li_call|by apply Hl]. }
    destruct (Hk _ _ He) as (e' & He' & (_ & H1 & H2) & _). exists e'. split_and!; congruence.
  - intros id e He. rewrite settled_app.
    assert (settled_calls id l = []) as ->.
    { unfold settled_calls. destruct (filter _ _) as [|g t] eqn:Hf; [done|]. exfalso.
      assert (g ∈ g :: t) as Hg by left. rewrite <- Hf in Hg. apply list_elem_of_filter in Hg as [Hg1 Hg2].
      apply list_elem_of_filter in Hg2 as [_ Hg2]. destruct (Hl g Hg2) as [? _]. congruence. }
    rewrite app_nil_r. destruct (yi_att _ Hy id e He) as [Ha Hb].
    destruct (events s !! id) as [e0|] eqn:He0.
    + destruct (Hk _ _ He0) as (e' & He' & _ & Hlv). simpl in *. simplify_eq.
      pose proof (li_settled _ _ Hli _ _ He0) as Hs. destruct (live e) eqn:El.
      * destruct (Hlv eq_refl) as [El0 Ea]. rewrite El0 in Hs. lia.
      * destruct (yi_att _ Hy0 id e0 He0) as [? _]. destruct (live e0); lia.
    + rewrite (settled_nil s log id Hli He0). destruct (live e); simpl; lia.
Qed.

(** A settled call of the event [ev]. *)
Lemma linv_settled s s' n fl n' fl' log l ev : yinv (mkSys s n fl) → yinv (mkSys s' n' fl') → linv s log →
  leased (e_ID ev) (LeaseToken ev) s = Some ev →
  (∃ e', events s' !! e_ID ev = Some e' ∧ same_event ev e' ∧ (live e' = true → Attempts e' = Attempts ev + 1)) →
  (∀ i x, i ≠ e_ID ev → events s !! i = Some x → events s' !! i = Some x) →
  (length l ≤ 1)%nat →
  (∀ g, g ∈ l → gc_op g = e_ID ev ∧ gc_order g = OrderID ev ∧ gc_kind g = Kind ev) →
  linv s' (log ++ l).
Proof.
  intros Hy Hy' Hli (He & Hp & _)%leased_Some (e' & He' & (Hs1 & Hs2 & Hs3) & Ha') Hev Hlen Hl. constructor.
  - intros g [Hg|Hg]%elem_of_app.
    + destruct (li_call _ _ Hli g Hg) as (x & Hx & Ho & Hk).
      destruct (decide (gc_op g = e_ID ev)) as [Hq|Hq]; [|exists x; auto].
      rewrite Hq in *. exists e'. simplify_eq. split_and!; congruence.
    + destruct (Hl g Hg) as (-> & -> & ->). exists e'. by split_and!.
  - intros id x Hx. rewrite settled_app, length_app.
    destruct (yi_att _ Hy' id x Hx) as [Hxa Hxl]. destruct (decide (id = e_ID ev)) as [->|Hne].
    + simpl in Hx. rewrite He' in Hx. injection Hx as <-. pose proof (li_settled _ _ Hli _ _ He) as Hs.
      destruct (yi_att _ Hy _ _ He) as [_ Hv]. unfold live in Hs, Hv. rewrite Hp in Hs, Hv. specialize (Hv eq_refl).
      assert (length (settled_calls (e_ID ev) l) ≤ length l)%nat as Hle.
      { unfold settled_calls, calls_with. etrans; apply length_filter. }
      destruct (live e'); [rewrite Ha' by done|]; lia.
    + assert (settled_calls id l = []) as ->.
      { unfold settled_calls, calls_with. destruct l as [|g [|]]; simpl in Hlen; [done| |lia].
        destruct (Hl g) as (Hg & _); [left|]. rewrite filter_cons, decide_False by congruence. done. }
      rewrite Nat.add_0_r. destruct (events s !! id) as [x0|] eqn:Hx0.
      * rewrite (Hev _ _ Hne Hx0) in Hx. injection Hx as <-. by apply (li_settled _ _ Hli).
      * rewrite (settled_nil s log id Hli Hx0). destruct (live x); simpl; lia.
Qed.

Lemma Place_keeps s n fl c now r s' res n' : yinv (mkSys s n fl) →
  Place hash fresh c now r n s = (s', res, n') → keeps_all (events s) (events s').
Proof.
  intros Hy. unfold Place. destruct (validate r) eqn:Hv; [by intros [= <- _ _]|].
  unfold Transaction. destruct c; [by intros [= <- _ _]|].
  destruct (OrderByIdempotency _ _ s) as [x|] eqn:Hx; [destruct (negb _); by intros [= <- _ _]|].
  destruct (PutOrder _ s) as [s1|] eqn:Hp; [|by intros [= <- _ _]]. intros [= <- _ _]. simpl.
  assert (events s1 = events s) as -> by (unfold PutOrder in Hp; repeat case_match; by simplify_eq).
  apply keeps_all_insert. apply eq_None_not_Some. intros [e He].
  destruct (yi_event _ Hy _ _ He) as (m & Hm & Heq%(inj fresh)). simpl in Hm. lia.
Qed.

(** The call a delivery makes names its event. *)
Lemma call_names s n i fl ev o e g : yinv (mkSys s n fl) → fl !! i = Some (ev, Some o) →
  gc_op g = e_ID ev → gc_order g = o_ID o → gc_kind g = Kind ev → events s !! e_ID ev = Some e →
  OrderID e = gc_order g ∧ Kind e = gc_kind g.
Proof.
  intros Hy Hi H1 H2 H3 He. destruct (yi_flight _ Hy (ev, Some o)) as (e0 & He0 & (_ & Ho & Hk) & _ & _ & Hoi).
  { by eapply list_elem_of_lookup_2. } simpl in *. simplify_eq. split; congruence.
Qed.

Lemma linv_step y op log : yinv y → linv (sy_store y) log →
  linv (sy_store (ostep hash fresh policy y op)) (log ++ calls_of fresh policy y op).
Proof.
  intros Hy Hli. pose proof (yinv_step y op Hy) as Hy'. destruct y as [s n fl].
  destruct op as [c now r|c now leaseFor limit|i|i c out now|i]; cbn [sy_store calls_of] in *.
  - simpl in *. destruct (Place _ _ _ _ _ _ _) as [[s' res] n'] eqn:Hp.
    apply (linv_keeps s s' n fl n' fl); try done; [by eapply Place_keeps|by intros g ?%elem_of_nil].
  - simpl in *. unfold ClaimDue in *. destruct c; [by rewrite !app_nil_r|]. destruct (limit <=? 0); [by rewrite !app_nil_r|].
    destruct (due_ok s now (Z.to_nat limit) (yi_store _ Hy)) as [Hnd Hdue].
    destruct (claim_loop _ _ _ _ _ _) as [[evs cl] n'] eqn:Hc.
    eapply (linv_keeps s _ n fl); [done|exact Hy'|done|by eapply claim_loop_keeps|by intros g ?%elem_of_nil].
  - rewrite app_nil_r. simpl. by repeat case_match.
  - simpl in *. destruct (fl !! i) as [[ev [o|]]|] eqn:Hi; [|by rewrite app_nil_r..].
    pose proof (yi_flight _ Hy (ev, Some o) ltac:(by eapply list_elem_of_lookup_2)) as Hh.
    pose proof (deliver_ends s n fl ev o c now Hy Hh out) as Hd.
    assert (∀ l, l = (if has_gateway (Kind ev) then [mkCall (e_ID ev) (Kind ev) (o_ID o)
      (Some (deliver fresh policy c ev o out now n s).2)] else []) →
      (length l ≤ 1)%nat ∧ ∀ g, g ∈ l → gc_op g = e_ID ev ∧ gc_order g = o_ID o ∧ gc_kind g = Kind ev ∧
        gc_end g = Some (deliver fresh policy c ev o out now n s).2) as Hl.
    { intros l ->. destruct (has_gateway _); split; simpl; try lia; [|by intros g ?%elem_of_nil].
      by intros g ->%list_elem_of_singleton. }
    specialize (Hl _ eq_refl). set (l := if has_gateway _ then _ else _) in *. clearbody l.
    destruct Hl as [Hlen Hl]. destruct (deliver _ _ _ _ _ _ _ _ _) as [s' r]. simpl in *.
    destruct Hd as [[-> Hr]|(-> & Hle & He' & Hev)].
    + apply (linv_keeps s s n fl (S n) (delete i fl)); try done. intros g Hg. destruct (Hl g Hg) as (H1 & H2 & H3 & H4).
      rewrite H4. split; [done|]. pose proof Hh as (e & He & _). simpl in He. exists e. rewrite H1. split; [done|].
      by apply (call_names s n i fl ev o).
    + apply (linv_settled s s' n fl (S n) (delete i fl) log l ev); try done.
      intros g Hg. destruct (Hl g Hg) as (H1 & H2 & H3 & _). rewrite H2, (held_order s n ev o Hh). done.
  - simpl in *. apply (linv_keeps s s n fl n (delete i fl)); try done. intros g Hg.
    destruct (fl !! i) as [[ev [o|]]|] eqn:Hi; [|by apply elem_of_nil in Hg..].
    destruct (has_gateway _); [|by apply elem_of_nil in Hg]. apply list_elem_of_singleton in Hg as ->. split; [done|].
    pose proof (yi_flight _ Hy (ev, Some o) ltac:(by eapply list_elem_of_lookup_2)) as (e & He & _).
    exists e. split; [done|]. by eapply (call_names s n i fl ev o e (mkCall _ _ _ None)).
Qed.

Lemma linv_from ops y log : yinv y → linv (sy_store y) log →
  linv (sy_store (foldl (ostep hash fresh policy) y ops)) (log ++ calls_from hash fresh policy y ops).
Proof.
  revert y log. induction ops as [|op ops IH]; intros y log Hy Hli; simpl; [by rewrite app_nil_r|].
  rewrite app_assoc. apply IH; [by apply yinv_step|by apply linv_step].
Qed.

Lemma linv_run ops : linv (sy_store (orun hash fresh policy ops)) (calls hash fresh policy ops).
Proof.
  apply (linv_from ops (mkSys NewMemoryStore 0 []) []); [apply (yinv_run [])|].
  constructor; simpl; [by intros g ?%elem_of_nil|done].
Qed.
End system_inv.

(** ** Main results *)

Section theorems.
Context (hash : string → string) (fresh : nat → string).
Context (Hfresh : ∀ a b, fresh a = fresh b → a = b).
Context (policy : RetryPolicy) (Hpolicy : 1 ≤ MaxAttempts policy).

Local Instance fresh_inj : Inj (=) (=) fresh.
Proof. exact Hfresh. Qed.

(** C7: The saga is consistent under any interleaving of placements,
dispatchers, lease expiries, lost leases, gateway failures and crashes: an
order is always in one of the states of the design (an accepted order has its
margin reserved, margin is released only for a rejected order), it waits for
exactly one outbox event as long as it is not final, of the kind that moves it
on, and a final order has none, so no order is stranded and no step is done
twice. *)
Theorem Order_saga_consistent (ops : list oop) (oid : string) (o : Order) :
  let s := sy_store (orun hash fresh policy ops) in
  orders s !! oid = Some o →
  valid o ∧
  match expected o with
  | Some k => ∃ id e, events s !! id = Some e ∧ OrderID e = oid ∧ Kind e = k ∧ live e = true ∧
      ∀ id' e', events s !! id' = Some e' → OrderID e' = oid → live e' = true → id' = id
  | None => ∀ id e, events s !! id = Some e → OrderID e = oid → live e = false
  end.
Proof.
  intros s Ho. pose proof (yi_store _ _ _ (yinv_run hash fresh policy Hpolicy ops)) as Hinv.
  fold s in Hinv. destruct Hinv as [Hid Hkey Hidem Hval Heid Hev Hlive Hhas Huniq].
  split; [eauto|]. destruct (expected o) as [k|] eqn:Hk.
  - destruct (Hhas oid o k Ho Hk) as (id & e & He & Heo & Hek & Hel). exists id, e. split_and!; try done.
    intros id' e' He' Heo' Hel'. apply (Huniq id' id e' e He' He); [congruence|].
    rewrite <- Heo' in Ho. pose proof (Hlive id' e' o He' Hel' Ho). congruence.
  - intros id e He Heo. destruct (live e) eqn:Hl; [|done]. rewrite <- Heo in Ho.
    rewrite (Hlive id e o He Hl Ho) in Hk. done.
Qed.

(** C33: Retries are safe and bounded, counting the calls the gateways receive in any
run of placements, dispatchers, expired and lost leases, cancelled contexts and
crashes: every call carries the identifier of an outbox event of its kind and its order
as operation id; two calls of the same kind for the same order carry the same
operation id, so that a gateway can recognise the repetition; and of the calls with one
operation id at most [MaxAttempts] are settled, all others having been interrupted (the
dispatcher crashed, its context was cancelled, or its lease had been taken over), so
the number of calls is at most [MaxAttempts] plus the interruptions. *)
Theorem Order_retries_safe (ops : list oop) (g g' : gateway_call) :
  let s := sy_store (orun hash fresh policy ops) in
  let log := calls hash fresh policy ops in
  g ∈ log → g' ∈ log →
  (∃ e, events s !! gc_op g = Some e ∧ OrderID e = gc_order g ∧ Kind e = gc_kind g) ∧
  (gc_order g = gc_order g' → gc_kind g = gc_kind g' → gc_op g = gc_op g') ∧
  Z.of_nat (length (settled_calls (gc_op g) log)) ≤ MaxAttempts policy ∧
  Z.of_nat (length (calls_with (gc_op g) log)) ≤
    MaxAttempts policy + Z.of_nat (length (interrupted_calls (gc_op g) log)).
Proof.
  intros s log Hg Hg'. pose proof (yinv_run hash fresh policy Hpolicy ops) as Hy.
  pose proof (linv_run hash fresh policy Hpolicy ops) as Hli. fold s log in Hy, Hli.
  destruct (li_call _ _ _ Hli g Hg) as (e & He & Ho & Hk).
  destruct (li_call _ _ _ Hli g' Hg') as (e' & He' & Ho' & Hk').
  assert (Z.of_nat (length (settled_calls (gc_op g) log)) ≤ MaxAttempts policy) as Hs.
  { pose proof (li_settled _ _ _ Hli _ _ He) as Hs. destruct (yi_att _ _ _ Hy _ _ He) as [? _]. destruct (live e); lia. }
  split_and!; [by exists e| |done|].
  - intros Hoo Hkk. apply (oi_uniq _ (yi_store _ _ _ Hy) _ _ e e' He He'); congruence.
  - rewrite (settled_interrupted (gc_op g) log). lia.
Qed.

(** Placing is idempotent: a second request with the account and key of
an existing order returns that order and writes nothing, if it asks for the
same order, and is refused as a conflict, writing nothing, if its fingerprint
differs; a refused request of any kind writes nothing. *)
Theorem Place_idempotent (ops : list oop) (now now' : Z) (r r' : PlaceOrderRequest) (n' : nat) :
  let y := orun hash fresh policy ops in
  let '(s1, res, _) := Place hash fresh false now r (sy_next y) (sy_store y) in
  validate r' = None → pr_AccountID r' = pr_AccountID r → pr_Key r' = pr_Key r →
  match res with
  | Err _ => s1 = sy_store y
  | Ok (o, _) =>
      RequestHash o = requestFingerprint hash r ∧
      (Place hash fresh false now' r' n' s1).1 =
        (s1, if String.eqb (RequestHash o) (requestFingerprint hash r')
             then Ok (o, true) else Err ErrIdempotencyConflict)
  end.
Proof.
  intros y. pose proof (yinv_run hash fresh policy Hpolicy ops) as Hy. fold y in Hy.
  destruct y as [s n fl]. cbn [sy_store sy_next] in *. unfold Place at 1. unfold Transaction.
  destruct (validate r) eqn:Hv; [done|].
  assert (∀ s1 o, OrderByIdempotency (pr_AccountID r) (pr_Key r) s1 = Some o → validate r' = None →
    pr_AccountID r' = pr_AccountID r → pr_Key r' = pr_Key r →
    (Place hash fresh false now' r' n' s1).1 =
        (s1, if String.eqb (RequestHash o) (requestFingerprint hash r')
             then Ok (o, true) else Err ErrIdempotencyConflict)) as Hagain.
  { intros s1 o Ho Hv' Ha Hk. unfold Place, Transaction. rewrite Hv', Ha, Hk, Ho. simpl.
    by destruct (String.eqb (RequestHash o) (requestFingerprint hash r')). }
  destruct (OrderByIdempotency (pr_AccountID r) (pr_Key r) s) as [o|] eqn:Ho.
  - destruct (String.eqb (RequestHash o) (requestFingerprint hash r)) eqn:Eh; simpl; [|done].
    zbool. split; [done|]. by apply Hagain.
  - destruct (yinv_new_order hash fresh policy Hpolicy s n fl now r Hy Hv Ho) as (s1 & Hp & Hy1).
    rewrite Hp. split; [done|]. apply Hagain; [|done..].
    destruct Hy1 as [Hst _ _ _ _]. cbn [sy_store] in Hst.
    assert (orders s1 !! fresh n = Some (new_order hash (fresh n) now r)) as Hn.
    { unfold PutOrder in Hp. repeat case_match; simplify_eq; simpl; by rewrite lookup_insert_eq. }
    unfold OrderByIdempotency. pose proof (oi_key _ Hst (fresh n) (new_order hash (fresh n) now r)) as Hk.
    unfold Enqueue in *. cbn [orders byIdempotency] in *. specialize (Hk Hn). unfold order_key in Hk. simpl in Hk.
    by rewrite Hk.
Qed.
End theorems.

(** ** Back-off *)

Lemma delay_loop_bounds mx k d : 0 < mx < 2 ^ 63 → 0 < d →
  match delay_loop mx k d with
  | inl r => r = mx
  | inr r => (k = O ∧ r = d) ∨ (0 < r < mx ∧ d ≤ r)
  end.
Proof.
  intros Hmx. revert d. induction k as [|k IH]; intros d Hd; simpl; [by left|].
  destruct (Z.quot mx 2 <=? d) eqn:E; [done|]. zbool.
  rewrite Z.quot_div_nonneg in E by lia.
  assert (d * 2 < mx) by (pose proof (Z.div_mod mx 2); pose proof (Z.mod_pos_bound mx 2); lia).
  rewrite i64_small by (unfold in_i64; lia). specialize (IH (d * 2) ltac:(lia)).
  destruct (delay_loop mx k (d * 2)); [done|]. right. destruct IH as [[_ ->]|[? ?]]; lia.
Qed.

(** The back-off is bounded: with the policy a dispatcher is made with,
the delay before any attempt is positive, at most [MaxBackoff], at least the
base delay unless that already exceeds the maximum, and never overflows. *)
Theorem RetryPolicy_delay_bounds (p : RetryPolicy) (attempt : Z) :
  0 < BaseBackoff p → 0 < MaxBackoff p < 2 ^ 63 →
  0 < delay p attempt ≤ MaxBackoff p ∧ Z.min (BaseBackoff p) (MaxBackoff p) ≤ delay p attempt.
Proof.
  intros Hb Hm. unfold delay. rewrite (proj2 (Z.leb_gt _ _)) by lia.
  pose proof (delay_loop_bounds (MaxBackoff p) (Z.to_nat (attempt - 1)) (BaseBackoff p) Hm Hb) as H.
  destruct (delay_loop _ _ _) as [r|r]; [subst; lia|].
  destruct (MaxBackoff p <? r) eqn:E; zbool; [lia|]. destruct H as [[_ ->]|[? ?]]; lia.
Qed.

Lemma RetryPolicy_delay_bounds_witness :
  delay (default_policy (mkRetry 0 0 0)) 5 = 16 * 1000000000 ∧
  0 < delay (default_policy (mkRetry 0 0 0)) 5 ≤ 2 * 60 * 1000000000.
Proof.
  split; [by vm_compute|].
  apply (RetryPolicy_delay_bounds (default_policy (mkRetry 0 0 0)) 5); [done|vm_compute; by split].
Defined.

(** ** A concrete history *)

Definition demo_fresh (n : nat) : string := "id" +:+ pretty n.
Definition demo_hash (s : string) : string := "h" +:+ s.
Definition demo_policy : RetryPolicy := default_policy (mkRetry 2 0 0).
Definition demo_place : PlaceOrderRequest := mkPlace "acc" "key" "TCS" Buy 10 500.

(** Two dispatchers: the first one's lease expires, the second reserves. *)
Definition demo_ops : list oop :=
  [OPlace false 0 demo_place; OClaim false 1 30 5; ORead 0; OClaim false 40 30 5; ORead 1;
   ODeliver 1 false (RApproved "r1") 41; ODeliver 0 false (RDenied "late") 42].

Lemma demo_fresh_inj a b : demo_fresh a = demo_fresh b → a = b.
Proof. unfold demo_fresh. intros Heq. injection Heq as Heq. by apply (inj pretty). Defined.

Lemma Order_saga_consistent_witness :
  ∃ o, orders (sy_store (orun demo_hash demo_fresh demo_policy demo_ops)) !! "id0" = Some o ∧
    o_Status o = PendingRoute ∧ Margin o = MarginReserved ∧ valid o.
Proof.
  eexists. split; [by vm_compute|]. split_and!; [done|done|].
  apply (Order_saga_consistent demo_hash demo_fresh demo_fresh_inj demo_policy ltac:(vm_compute; discriminate)
    demo_ops "id0"). by vm_compute.
Defined.

(** A transient failure, a crash with the call out, a dispatcher whose lease is taken over
by a second one: four calls with one operation id, two of them settled, with
[MaxAttempts] two. *)
Definition retry_ops : list oop :=
  [OPlace false 0 demo_place; OClaim false 1 30 5; ORead 0; ODeliver 0 false (RFailed (mkRemoteErr "t" true)) 2;
   OClaim false 2000000000 30 5; ORead 0; OCrash 0; OClaim false 3000000000 30 5; ORead 0;
   OClaim false 4000000000 30 5; ORead 1; ODeliver 1 false (RApproved "r1") 4000000001;
   ODeliver 0 false (RDenied "late") 4000000002].

Lemma Order_retries_safe_witness :
  let log := calls demo_hash demo_fresh demo_policy retry_ops in
  (gc_op <$> log) = ["id1"; "id1"; "id1"; "id1"] ∧
  length (settled_calls "id1" log) = 2%nat ∧
  Z.of_nat (length (calls_with "id1" log)) ≤ 2 + Z.of_nat (length (interrupted_calls "id1" log)).
Proof.
  intros log. split; [by vm_compute|]. split; [by vm_compute|].
  pose proof (Order_retries_safe demo_hash demo_fresh demo_fresh_inj demo_policy ltac:(vm_compute; discriminate)
    retry_ops) as H. cbv zeta in H. fold log in H.
  destruct log as [|g l] eqn:El; [by vm_compute in El|]. 
  assert (gc_op g = "id1") as Hop.
  { assert (Some (gc_op g) = Some "id1") as Hq; [|by injection Hq].
    transitivity (gc_op <$> head log); [by rewrite El|]. by vm_compute. }
  specialize (H g g ltac:(left) ltac:(left)). rewrite Hop in H. apply H.
Defined.

Lemma Place_idempotent_witness :
  let y := orun demo_hash demo_fresh demo_policy [] in
  let '(s1, res, _) := Place demo_hash demo_fresh false 0 demo_place (sy_next y) (sy_store y) in
  (Place demo_hash demo_fresh false 9 (mkPlace "acc" "key" "TCS" Sell 10 500) 7 s1).1 =
    (s1, Err ErrIdempotencyConflict).
Proof.
  pose proof (Place_idempotent demo_hash demo_fresh demo_fresh_inj demo_policy ltac:(vm_compute; discriminate)
    [] 0 9 demo_place (mkPlace "acc" "key" "TCS" Sell 10 500) 7 ) as H. cbv zeta in H |- *.
  destruct (Place demo_hash demo_fresh false 0 demo_place _ _) as [[s1 res] n1] eqn:Ep.
  specialize (H eq_refl eq_refl eq_refl).
  assert (∃ o, res = Ok (o, false) ∧ RequestHash o = requestFingerprint demo_hash demo_place) as (o & -> & Ho).
  { change res with ((s1, res).2). change (s1, res) with ((s1, res, n1).1). rewrite <- Ep.
    eexists. split; [by vm_compute|done]. }
  destruct H as [_ ->]. rewrite Ho. done.
Defined.
