(* ===== verification/OrderDemo.v ===== *)
(** * microservice/cmd/order-demo: the operator console of the order saga

The demo server wires the order service, the dispatcher and two in-process
gateways behind five HTTP routes.  [DispatchOnce] runs the dispatcher of
[Order] over a batch, with a gateway that keeps its own state [G]; the
exchange of the demo keeps the behaviour selected for its next call.  A
request sees the clock and the cancellation of its context at each call
([env]); a run-time panic in a handler is the response [None], after which the
server goes on.

[demo_refines] embeds every history of requests in a run of the saga of
[Order]; [demo_drains] is the liveness of the workflow. *)

From Stdlib Require Import ZArith Lia Ascii.
From stdpp Require Import base gmap strings pretty fin_maps sorting relations list.
From S2P Require Import Prelude GoStrings Order.

Open Scope string_scope.
Open Scope Z_scope.

(** ** The dispatcher over a stateful gateway *)

(* [base] microservice/order *)

(** What one delivery sees: whether its context is cancelled when the order is
read and when the result is written, and the clock after the remote call. *)
Record tick : Type := mkTick { tk_read : bool; tk_write : bool; tk_now : Z }.

Section dispatch.
Context {G : Type} (fresh : nat → string) (policy : RetryPolicy).
Context (gateway : EventKind → Order → G → option remote * G).

(** The outcome [None] is a panic of the gateway. *)
(* [go] dispatcher.go:83-166 Dispatcher.deliver *)
Definition deliver_event (tk : tick) (ev : OutboxEvent) (n : nat) (s : memoryState) (g : G)
  : memoryState * option (result order_err unit) * nat * G :=
  match Kind ev with
  | OtherKind k =>
      let '(s', r) := abandon (tk_write tk) ev ("unknown event kind " +:+ quoted k) (tk_now tk) s in
      (s', Some r, S n, g)
  | kind =>
      match orderFor (tk_read tk) ev s with
      | Err e => (s, Some (Err e), n, g)
      | Ok o =>
          match gateway kind o g with
          | (None, g') => (s, None, n, g')
          | (Some out, g') =>
              let '(s', r) := deliver fresh policy (tk_write tk) ev o out (tk_now tk) n s in
              (s', Some r, S n, g')
          end
      end
  end.

Inductive dispatched : Type := DCount (n : Z) | DErr (e : order_err) | DPanic.

(** The loop over the claimed events: a lost lease is skipped, another error ends it. *)
(* [go] dispatcher.go:75-80 Dispatcher.DispatchOnce *)
Fixpoint dispatch_loop (total : Z) (evs : list OutboxEvent) (ticks : list tick) (n : nat) (s : memoryState) (g : G)
  : memoryState * dispatched * nat * G :=
  match evs, ticks with
  | ev :: evs', tk :: ticks' =>
      let '(s', r, n', g') := deliver_event tk ev n s g in
      match r with
      | None => (s', DPanic, n', g')
      | Some (Ok _) | Some (Err ErrLeaseLost) => dispatch_loop total evs' ticks' n' s' g'
      | Some (Err e) => (s', DErr e, n', g')
      end
  | _, _ => (s, DCount total, n, g)
  end.

(* [go] dispatcher.go:64-64 NewDispatcher *)
Definition leaseFor : Z := 30 * 1000000000.

(** [ticks] has an entry for each event the limit allows. *)
(* [go] dispatcher.go:69-81 Dispatcher.DispatchOnce *)
Definition DispatchOnce (cancelled : bool) (now limit : Z) (ticks : list tick) (n : nat) (s : memoryState) (g : G)
  : memoryState * dispatched * nat * G :=
  match ClaimDue fresh cancelled now leaseFor limit n s with
  | (s', Err e, n') => (s', DErr e, n', g)
  | (s', Ok evs, n') => dispatch_loop (Z.of_nat (length evs)) evs ticks n' s' g
  end.
End dispatch.

Definition id_le {A} (id : A → string) (a b : A) : Prop := str_lt (id b) (id a) = false.

#[global] Instance id_le_dec {A} (id : A → string) a b : Decision (id_le id a b).
Proof. unfold id_le. apply _. Defined.

(* [go] store.go:215-230 MemoryStore.Snapshot *)
Definition Snapshot (s : memoryState) : list Order * list OutboxEvent :=
  (merge_sort (id_le o_ID) ((map_to_list (orders s)).*2),
   merge_sort (id_le e_ID) ((map_to_list (events s)).*2)).

(* [go] errors.go:8-13 errors *)
Definition err_text (e : order_err) : string :=
  match e with
  | ErrInvalidOrder msg => "invalid order: " +:+ msg
  | ErrIdempotencyConflict => "idempotency key was used for a different order"
  | ErrOrderNotFound => "order not found"
  | ErrLeaseLost => "outbox event lease was lost"
  | ErrContext => "context canceled"
  end.

(** ** The gateways of the demo *)

(* [base] microservice/cmd/order-demo *)

(* [go] main.go:26-30 behaviorAccept *)
Definition behaviorAccept : string := "ACCEPT".
(* [go] main.go:26-30 behaviorReject *)
Definition behaviorReject : string := "REJECT".
(* [go] main.go:26-30 behaviorTimeout *)
Definition behaviorTimeout : string := "TIMEOUT".

(** [order.ID[:8]] panics for a shorter identifier. *)
Definition id8 (o : Order) : option string :=
  if (8 <=? String.length (o_ID o))%nat then Some (slice_to 8 (o_ID o)) else None.

(* [go] main.go:34-36 demoMargin.Reserve *)
Definition margin_Reserve (o : Order) : option remote :=
  match id8 o with Some p => Some (RApproved ("margin-" +:+ p)) | None => None end.

(** A release never fails; its success carries no identifier. *)
(* [go] main.go:38-38 demoMargin.Release *)
Definition margin_Release : remote := RApproved "".

(* [go] main.go:59-73 demoExchange.Route *)
Definition exchange_Route (o : Order) (behavior : string) : option remote * string :=
  (if String.eqb behavior behaviorReject then Some (RDenied "exchange rejected: price-band protection")
   else if String.eqb behavior behaviorTimeout
   then Some (RFailed (mkRemoteErr "exchange gateway timed out; outcome is being retried" true))
   else match id8 o with Some p => Some (RApproved ("EXCH-" +:+ p)) | None => None end,
   behaviorAccept).

Definition demo_gateway (kind : EventKind) (o : Order) (behavior : string) : option remote * string :=
  match kind with
  | ReserveMargin => (margin_Reserve o, behavior)
  | RouteExchange => exchange_Route o behavior
  | _ => (Some margin_Release, behavior)
  end.

(** ** The server *)

(** The store with the identifiers drawn so far, and the exchange's behaviour. *)
(* [go] main.go:75-80 server *)
Record server : Type := mkServer { d_store : memoryState; d_next : nat; d_behavior : string }.

(* [go] main.go:87-89 newServer *)
Definition demo_retry : RetryPolicy := default_policy (mkRetry 3 1000000000 (5 * 1000000000)).

(* [go] main.go:82-92 newServer *)
Definition newServer : server := mkServer NewMemoryStore 0 behaviorAccept.

(* [go] main.go:111-118 placeOrderInput *)
Record placeOrderInput : Type := mkInput {
  in_AccountID : string; in_IdempotencyKey : string; in_Instrument : string; in_Side : string;
  in_Quantity : Z; in_LimitPrice : Z }.

(** What the JSON decoder does with the first MiB of a body: the value or the
text of its error, and whether more input follows. *)
Record decoded (A : Type) : Type := mkDecoded { dec_value : result string A; dec_more : bool }.
Arguments mkDecoded {A} _ _.
Arguments dec_value {A} _.
Arguments dec_more {A} _.

(* [go] main.go:184-195 decodeJSON *)
Definition decodeJSON {A} (b : decoded A) : result string A :=
  match dec_value b with
  | Err e => Err ("invalid JSON: " +:+ e)
  | Ok v => if dec_more b then Err "request must contain one JSON object" else Ok v
  end.

Inductive payload : Type :=
| BError (e : string) | BOrder (o : Order) (replayed : bool) | BProcessed (n : Z) (message : string)
| BState (os : list Order) (es : list OutboxEvent) (next : string) | BAsset (name : string).

Record response : Type := mkResp { r_status : Z; r_body : payload }.

(** The environment of a request. *)
Record env : Type := mkEnv { en_cancelled : bool; en_now : Z; en_tick : tick }.

(** The body of a request, as the two handlers that read one decode it, and a
request. *)
Record request : Type := mkRequest {
  rq_method : string; rq_path : string; rq_order : decoded placeOrderInput; rq_behavior : decoded string }.

Section handlers.
Context (hash : string → string) (fresh : nat → string).

(* [go] main.go:120-143 server.placeOrder *)
Definition placeOrder (e : env) (b : decoded placeOrderInput) (d : server) : server * response :=
  match decodeJSON b with
  | Err msg => (d, mkResp 400 (BError msg))
  | Ok input =>
      let '(s, res, n) := Place hash fresh (en_cancelled e) (en_now e)
        (mkPlace (in_AccountID input) (in_IdempotencyKey input) (in_Instrument input) (in_Side input)
           (in_Quantity input) (in_LimitPrice input)) (d_next d) (d_store d) in
      let d' := mkServer s n (d_behavior d) in
      match res with
      | Err err => (d', mkResp (if bool_decide (err = ErrIdempotencyConflict) then 409 else 400) (BError (err_text err)))
      | Ok (o, replayed) => (d', mkResp (if replayed : bool then 200 else 201) (BOrder o replayed))
      end
  end.

(* [go] main.go:145-156 server.dispatch *)
Definition dispatch (e : env) (d : server) : server * option response :=
  let '(s, res, n, g) := DispatchOnce fresh demo_retry demo_gateway (en_cancelled e) (en_now e) 1 [en_tick e]
                           (d_next d) (d_store d) (d_behavior d) in
  let d' := mkServer s n g in
  match res with
  | DPanic => (d', None)
  | DErr err => (d', Some (mkResp 500 (BError (err_text err))))
  | DCount count =>
      (d', Some (mkResp 200 (BProcessed count
        (if count =? 1 then "Processed one durable workflow event."
         else "No ready work. A retried event may still be in its back-off window."))))
  end.

(* [go] main.go:177-182 server.writeState *)
Definition writeState (d : server) : response :=
  let '(os, es) := Snapshot (d_store d) in mkResp 200 (BState os es (d_behavior d)).

(** [strings.ToUpper], exact as far as the comparison with ASCII words goes:
besides the ASCII letters, the dotless i (C4 B1) and the long s (C5 BF) have an
ASCII capital; any other character keeps a form that is not ASCII. *)
Fixpoint ToUpper (s : string) : string :=
  match s with
  | EmptyString => ""
  | String a s' =>
      let n := nat_of_ascii a in
      if (97 <=? n)%nat && (n <=? 122)%nat then String (ascii_of_nat (n - 32)) (ToUpper s')
      else match s' with
           | String b s'' =>
               if (n =? 196)%nat && (nat_of_ascii b =? 177)%nat then String "I" (ToUpper s'')
               else if (n =? 197)%nat && (nat_of_ascii b =? 191)%nat then String "S" (ToUpper s'')
               else String a (ToUpper s')
           | EmptyString => String a ""
           end
  end.

(* [go] main.go:162-175 server.setRouteBehavior *)
Definition setRouteBehavior (b : decoded string) (d : server) : server * response :=
  match decodeJSON b with
  | Err msg => (d, mkResp 400 (BError msg))
  | Ok input =>
      let behavior := ToUpper input in
      if negb (String.eqb behavior behaviorAccept) && negb (String.eqb behavior behaviorReject)
         && negb (String.eqb behavior behaviorTimeout)
      then (d, mkResp 400 (BError "behavior must be ACCEPT, REJECT, or TIMEOUT"))
      else let d' := mkServer (d_store d) (d_next d) behavior in (d', writeState d')
  end.

(* [go] main.go:94-109 server.ServeHTTP *)
Definition ServeHTTP (e : env) (r : request) (d : server) : server * option response :=
  let on m p := String.eqb (rq_method r) m && String.eqb (rq_path r) p in
  if on "GET" "/" then (d, Some (mkResp 200 (BAsset "static/index.html")))
  else if on "GET" "/api/state" then (d, Some (writeState d))
  else if on "POST" "/api/orders" then let '(d', resp) := placeOrder e (rq_order r) d in (d', Some resp)
  else if on "POST" "/api/dispatch" then dispatch e d
  else if on "POST" "/api/route-behavior" then
    let '(d', resp) := setRouteBehavior (rq_behavior r) d in (d', Some resp)
  else (d, Some (mkResp 404 (BError "not found"))).

Definition serve (d : server) (x : env * request) : server := (ServeHTTP x.1 x.2 d).1.

Definition serve_all (l : list (env * request)) : server := foldl serve newServer l.
End handlers.

(* [go] main.go:203-213 main *)
Definition demo_address (PORT : string) : string :=
  let port := TrimSpace PORT in ":" +:+ (if String.eqb port "" then "18090" else port).

(** ** What was ordered never changes *)

Definition ident (o : Order) :=
  (o_ID o, AccountID o, IdempotencyKey o, RequestHash o, Instrument o, o_Side o, Quantity o, LimitPrice o, CreatedAt o).

Definition extends (s s' : memoryState) : Prop :=
  ∀ id o, orders s !! id = Some o → ∃ o', orders s' !! id = Some o' ∧ ident o' = ident o.

#[global] Instance extends_preorder : PreOrder extends.
Proof.
  split; [intros s id o H; eauto|]. intros s1 s2 s3 H12 H23 id o H.
  destruct (H12 id o H) as (o2 & H2 & E2). destruct (H23 id o2 H2) as (o3 & H3 & E3). exists o3. split; [done|congruence].
Qed.

Lemma extends_orders s s' : orders s' = orders s → extends s s'.
Proof. intros Heq id o H. exists o. by rewrite Heq. Qed.

Lemma update_order_extends s oid f succ now s1 : oinv s → (∀ o, ident (f o) = ident o) →
  update_order oid f succ now s = Ok s1 → extends s s1.
Proof.
  intros Hi Hf. unfold update_order, tx_Order. destruct (orders s !! oid) as [o|] eqn:Ho; [|done].
  assert (o_ID (f o) = oid) as Hid by (rewrite <- (oi_id _ Hi oid o Ho); pose proof (Hf o) as E; by injection E).
  unfold PutOrder. rewrite Hid, Ho. intros H id x Hx.
  assert (orders s1 = <[oid := f o]> (orders s)) as -> by (destruct succ as [[k i]|]; by injection H as <-).
  destruct (decide (id = oid)) as [->|Hne]; [|rewrite lookup_insert_ne; eauto].
  rewrite lookup_insert_eq. simplify_eq. eauto.
Qed.

Lemma Transaction_extends {R} c (f : memoryState → result order_err (memoryState * R)) s :
  (∀ s1 r, f s = Ok (s1, r) → extends s s1) → extends s (Transaction c f s).1.
Proof. intros H. unfold Transaction. destruct c; [done|]. destruct (f s) as [[s1 r]|] eqn:E; [by eapply H|done]. Qed.

(** [Finalize] and [Abandon] around an update of the order. *)
Lemma closing_extends c s oid f succ now eid g : oinv s → (∀ o, ident (f o) = ident o) →
  extends s (Transaction c (fun s => match update_order oid f succ now s with
                                     | Err e => Err e | Ok s1 => Ok (close_event eid g s1, ()) end) s).1.
Proof.
  intros Hi Hf. apply Transaction_extends. intros s1 r.
  destruct (update_order oid f succ now s) as [s2|] eqn:E; [|done]. intros [= <- <-].
  apply (update_order_extends _ _ _ _ _ _ Hi Hf) in E. etransitivity; [exact E|]. by apply extends_orders.
Qed.

Lemma abandon_extends c ev cause now s : oinv s → extends s (abandon c ev cause now s).1.
Proof. intros Hi. unfold abandon, Abandon. destruct (leased _ _ s); [|done]. by apply closing_extends. Qed.

Lemma Finalize_extends c eid tok t oid f succ now s : oinv s → (∀ o, ident (f o) = ident o) →
  extends s (Finalize c eid tok t (update_order oid f succ now) s).1.
Proof. intros Hi Hf. unfold Finalize. destruct (leased _ _ s); [|done]. by apply closing_extends. Qed.

Lemma deliver_extends fresh policy c ev o out now n s : oinv s →
  extends s (deliver fresh policy c ev o out now n s).1.
Proof.
  intros Hi. unfold deliver, reserve, route, release, handleRemoteError, Retry.
  destruct (Kind ev); [destruct out as [| |e]..|]; try (by apply Finalize_extends || by apply abandon_extends).
  all: repeat (case_match; try (by apply abandon_extends)); try done; by apply extends_orders.
Qed.

Section identity.
Context (hash : string → string) (fresh : nat → string) (Hfresh : ∀ a b, fresh a = fresh b → a = b).

Local Instance fresh_inj3 : Inj (=) (=) fresh.
Proof. exact Hfresh. Qed.

Lemma Place_extends c now r n s s' res n' : yinv fresh demo_retry (mkSys s n []) →
  Place hash fresh c now r n s = (s', res, n') → extends s s'.
Proof.
  intros Hy. unfold Place. destruct (validate r); [by intros [= <- <- <-]|].
  set (f := fun s => _). pose proof (Transaction_extends c f s) as H. intros Heq.
  replace s' with (Transaction c f s).1 by (by injection Heq as -> _). apply H.
  intros s1 [x b]. unfold f. destruct (OrderByIdempotency _ _ s) as [ex|].
  { destruct (negb _); [done|]. by intros [= <- <- <-]. }
  destruct (PutOrder _ s) as [s2|] eqn:Hp; [|done]. intros [= <- <- <-].
  assert (orders s !! fresh n = None) as Hn.
  { destruct (orders s !! fresh n) eqn:E; [|done].
    destruct (yi_order _ _ _ Hy _ _ E) as (m & Hm & Heq2%Hfresh). simpl in Hm. lia. }
  assert (orders s2 = <[fresh n := new_order hash (fresh n) now r]> (orders s)) as Ho.
  { unfold PutOrder in Hp. simpl in Hp. rewrite Hn in Hp. repeat case_match; by simplify_eq. }
  intros id o Hid. simpl. rewrite Ho. exists o. split; [|done]. rewrite lookup_insert_ne; [done|congruence].
Qed.

Lemma ostep_extends s n op s' n' fl fl' : yinv fresh demo_retry (mkSys s n fl) →
  ostep hash fresh demo_retry (mkSys s n fl) op = mkSys s' n' fl' → extends s s'.
Proof.
  intros Hy. destruct op as [c now r|c now lf limit|i|i c out now|i]; simpl.
  - destruct (Place _ _ _ _ _ _ _) as [[s1 res] n1] eqn:Hp. intros [= <- <- <-].
    eapply Place_extends; [|exact Hp]. destruct Hy as [H1 H2 H3 _ H5]. constructor; try done. by intros x ?%elem_of_nil.
  - unfold ClaimDue. destruct c; [by intros [= <- <- <-]|]. destruct (limit <=? 0); [by intros [= <- <- <-]|].
    destruct (claim_loop _ _ _ _ _ _) as [[evs cl] n1]. intros [= <- <- <-]. by apply extends_orders.
  - repeat case_match; by intros [= <- <- <-].
  - destruct (fl !! i) as [[ev [o|]]|]; try (by intros [= <- <- <-]).
    pose proof (deliver_extends fresh demo_retry c ev o out now n s (yi_store _ _ _ Hy)) as H.
    destruct (deliver _ _ _ _ _ _ _ _ _) as [s1 r1]. by intros [= <- <- <-].
  - by intros [= <- <- <-].
Qed.
End identity.

(** ** The demo is a run of the saga *)

Section refinement.
Context (hash : string → string) (fresh : nat → string) (Hfresh : ∀ a b, fresh a = fresh b → a = b).

Local Instance fresh_inj' : Inj (=) (=) fresh.
Proof. exact Hfresh. Qed.

(** The saga reaches the store of the demo with the deliveries [fl] in hand, the
orders of an earlier store [s0] being kept. *)
Context (s0 : memoryState).

Definition reaches (s : memoryState) (n : nat) (fl : list (OutboxEvent * option Order)) : Prop :=
  (∃ ops, orun hash fresh demo_retry ops = mkSys s n fl) ∧ extends s0 s.

Lemma reaches_inv s n fl : reaches s n fl → yinv fresh demo_retry (mkSys s n fl).
Proof. intros [[ops <-] _]. apply yinv_run; [apply _|]. unfold demo_retry. simpl. lia. Qed.

Lemma reaches_step s n fl op s' n' fl' : reaches s n fl →
  ostep hash fresh demo_retry (mkSys s n fl) op = mkSys s' n' fl' → reaches s' n' fl'.
Proof.
  intros H Hs. pose proof (ostep_extends hash fresh Hfresh _ _ _ _ _ _ _ (reaches_inv _ _ _ H) Hs) as He.
  destruct H as [[ops Hops] H0]. split; [|by etransitivity].
  exists (ops ++ [op])%list. unfold orun in *. rewrite foldl_snoc, Hops. exact Hs.
Qed.

(** A delivery that is given up. *)
Lemma reaches_drop s n x fl : reaches s n (x :: fl) → reaches s n fl.
Proof. intros H. by apply (reaches_step _ _ _ (OCrash 0) _ _ _ H). Qed.

Lemma reaches_drops s n fl : reaches s n fl → reaches s n [].
Proof. induction fl; [done|]. eauto using reaches_drop. Qed.

Lemma kind_claimed s n ev oo fl k : reaches s n ((ev, oo) :: fl) → Kind ev ≠ OtherKind k.
Proof.
  intros H%reaches_inv. destruct (yi_flight _ _ _ H (ev, oo)) as (e & He & (_ & _ & Hk) & _); [set_solver|].
  destruct (oi_event _ (yi_store _ _ _ H) _ _ He) as (o & _ & Hok). simpl in *. rewrite Hk.
  intros Heq. by rewrite Heq in Hok.
Qed.

Lemma reaches_deliver tk ev n s g fl s' r n' g' : reaches s n ((ev, None) :: fl) →
  deliver_event fresh demo_retry demo_gateway tk ev n s g = (s', r, n', g') → reaches s' n' fl.
Proof.
  intros H. unfold deliver_event.
  destruct (Kind ev) as [| | |k] eqn:Hk; [| | |by apply (kind_claimed _ _ _ _ _ k) in H].
  all: destruct (orderFor (tk_read tk) ev s) as [o|e] eqn:Ho;
    [|intros [= <- <- <- <-]; by eapply reaches_drop].
  all: destruct (demo_gateway _ o g) as [[out|] g1] eqn:Hg; [|intros [= <- <- <- <-]; by eapply reaches_drop].
  all: destruct (deliver _ _ _ _ _ _ _ _ _) as [s1 r1] eqn:Hd; intros [= <- <- <- <-].
  all: assert (orderFor false ev s = Ok o) as Ho' by (unfold orderFor, Transaction in *; by destruct (tk_read tk)).
  all: assert (reaches s n ((ev, Some o) :: fl)) as H1
    by (apply (reaches_step _ _ _ (ORead 0) _ _ _ H); simpl; by rewrite Ho').
  all: apply (reaches_step _ _ _ (ODeliver 0 (tk_write tk) out (tk_now tk)) _ _ _ H1); simpl; by rewrite Hd.
Qed.

Lemma reaches_loop total evs ticks n s g s' r n' g' :
  reaches s n ((fun e => (e, None)) <$> evs) →
  dispatch_loop fresh demo_retry demo_gateway total evs ticks n s g = (s', r, n', g') → reaches s' n' [].
Proof.
  revert ticks n s g. induction evs as [|ev evs IH]; intros ticks n s g H; simpl.
  { intros [= <- <- <- <-]. done. }
  destruct ticks as [|tk ticks]; [intros [= <- <- <- <-]; by eapply reaches_drops|].
  destruct (deliver_event _ _ _ _ _ _ _ _) as [[[s1 r1] n1] g1] eqn:Hd.
  pose proof (reaches_deliver _ _ _ _ _ _ _ _ _ _ H Hd) as H1.
  destruct r1 as [[[]|e]|]; [by apply IH| |intros [= <- <- <- <-]; by eapply reaches_drops].
  destruct e; try (intros [= <- <- <- <-]; by eapply reaches_drops). by apply IH.
Qed.

Lemma reaches_DispatchOnce c now limit ticks n s g s' r n' g' : reaches s n [] →
  DispatchOnce fresh demo_retry demo_gateway c now limit ticks n s g = (s', r, n', g') → reaches s' n' [].
Proof.
  intros H. unfold DispatchOnce.
  destruct (ClaimDue fresh c now leaseFor limit n s) as [[s1 res] n1] eqn:Hc.
  assert (reaches s1 n1 (match res with Ok evs => (fun e => (e, None)) <$> evs | Err _ => [] end)) as H1
    by (apply (reaches_step _ _ _ (OClaim c now leaseFor limit) _ _ _ H); simpl; by rewrite Hc).
  destruct res as [evs|e]; [by apply reaches_loop|by intros [= <- <- <- <-]].
Qed.

Lemma reaches_ServeHTTP e r d : reaches (d_store d) (d_next d) [] →
  let d' := (ServeHTTP hash fresh e r d).1 in reaches (d_store d') (d_next d') [].
Proof.
  intros H. unfold ServeHTTP. repeat (destruct (String.eqb _ _ && String.eqb _ _); [try done|]); try done.
  - unfold placeOrder. destruct (decodeJSON _) as [input|]; [|done].
    set (p := mkPlace _ _ _ _ _ _).
    destruct (Place _ _ _ _ p _ _) as [[s res] n] eqn:Hp.
    assert (reaches s n []) by (apply (reaches_step _ _ _ (OPlace (en_cancelled e) (en_now e) p) _ _ _ H); simpl; by rewrite Hp).
    by destruct res as [[o b]|].
  - unfold dispatch. destruct (DispatchOnce _ _ _ _ _ _ _ _ _ _) as [[[s res] n] g] eqn:Hd.
    apply (reaches_DispatchOnce _ _ _ _ _ _ _ _ _ _ _ H) in Hd. by destruct res.
  - unfold setRouteBehavior. destruct (decodeJSON _); [|done]. by destruct (negb _ && negb _ && negb _).
Qed.

Lemma reaches_serves l d : reaches (d_store d) (d_next d) [] →
  let d' := foldl (serve hash fresh) d l in reaches (d_store d') (d_next d') [].
Proof. revert d. induction l as [|x l IH]; intros d H; simpl; [done|]. apply IH. by apply reaches_ServeHTTP. Qed.
End refinement.

Lemma reaches_serve_all hash fresh (Hfresh : ∀ a b : nat, fresh a = fresh b → a = b) l :
  let d := serve_all hash fresh l in reaches hash fresh NewMemoryStore (d_store d) (d_next d) [].
Proof. apply reaches_serves; [done|]. split; [by exists []|done]. Qed.

Lemma reaches_from hash fresh s0 s n fl : reaches hash fresh s0 s n fl → reaches hash fresh s s n fl.
Proof. intros [H _]. split; [done|reflexivity]. Qed.

(** ** Work left *)

(** The dispatches an event can still cause: itself and its successors. *)
Definition weight (e : OutboxEvent) : Z :=
  if live e then match Kind e with ReserveMargin => 3 | RouteExchange => 2 | _ => 1 end else 0.

Definition workload (m : gmap string OutboxEvent) : Z := msum weight m.

Lemma weight_nonneg e : 0 ≤ weight e ≤ 3.
Proof. unfold weight. destruct (live e); [destruct (Kind e)|]; lia. Qed.

Lemma weight_live e : live e = true → 1 ≤ weight e.
Proof. unfold weight. intros ->. destruct (Kind e); lia. Qed.

Lemma workload_nonneg m : 0 ≤ workload m.
Proof. apply msum_nonneg. intros. apply weight_nonneg. Qed.

Lemma workload_zero m i e : workload m ≤ 0 → m !! i = Some e → live e = false.
Proof.
  intros Hz He. destruct (live e) eqn:Hl; [|done]. apply weight_live in Hl.
  pose proof (msum_ge weight m i e ltac:(intros; apply weight_nonneg) He). unfold workload in Hz. lia.
Qed.

(** A pending timeout costs one more dispatch. *)
Definition work (d : server) : Z :=
  workload (events (d_store d)) + (if String.eqb (d_behavior d) behaviorTimeout then 1 else 0).

(** Every waiting event may be claimed at [t]. *)
Definition ready (t : Z) (s : memoryState) : Prop :=
  ∀ id e, events s !! id = Some e → live e = true →
    AvailableAt e ≤ t ∧ (State e = EventProcessing → LeaseUntil e ≤ t).

Lemma ready_claimable t s id e : ready t s → events s !! id = Some e → live e = true → claimable t e = true.
Proof.
  intros Hr He Hl. destruct (Hr id e He Hl) as [Ha Hp]. unfold claimable, live in *.
  destruct (State e) eqn:Hst; try done; rewrite ?bool_decide_true by auto; simpl.
  - destruct (Z.ltb_spec t (AvailableAt e)); [lia|done].
  - destruct (Z.ltb_spec t (AvailableAt e)); [lia|done].
  - specialize (Hp eq_refl). destruct (Z.ltb_spec t (LeaseUntil e)); [lia|done].
Qed.

Lemma claimable_live t e : claimable t e = true → live e = true.
Proof.
  unfold claimable, live. intros [H|H]%orb_true_iff; apply andb_true_iff in H as [H%bool_decide_eq_true _].
  - by destruct H as [-> | ->].
  - by rewrite H.
Qed.

(** A claim of one event, when work is left. *)
Lemma claim_one fresh now lease n s : oinv s →
  (ClaimDue fresh false now lease 1 n s = (s, Ok [], n) ∧ ∀ id e, events s !! id = Some e → claimable now e = false) ∨
  ∃ e, events s !! e_ID e = Some e ∧ claimable now e = true ∧
    let e' := set_event EventProcessing (Attempts e) (AvailableAt e) (fresh n) (now + lease)
                (LastError e) (DeliveredAt e) e in
    ClaimDue fresh false now lease 1 n s =
      (mkState (orders s) (byIdempotency s) (<[e_ID e := e']> (events s)), Ok [e'], S n).
Proof.
  intros Hi. unfold ClaimDue. simpl.
  set (l := filter _ _).
  assert (∀ e, e ∈ l ↔ claimable now e = true ∧ ∃ id, events s !! id = Some e) as Hl.
  { intros e. unfold l. rewrite list_elem_of_filter, list_elem_of_fmap. split.
    - intros (Hc & [id x] & -> & Hx%elem_of_map_to_list). eauto.
    - intros (Hc & id & He). split; [done|]. exists (id, e). split; [done|]. by apply elem_of_map_to_list. }
  destruct (merge_sort claim_le l) as [|e rest] eqn:Hs.
  - left. split; [by destruct s|]. intros id e He. destruct (claimable now e) eqn:Hc; [|done].
    assert (e ∈ merge_sort claim_le l) as Hin by (rewrite merge_sort_Permutation; apply Hl; eauto).
    rewrite Hs in Hin. by apply elem_of_nil in Hin.
  - right. exists e.
    assert (e ∈ l) as He by (rewrite <- (merge_sort_Permutation claim_le l), Hs; set_solver).
    apply Hl in He as (Hc & id & He). rewrite <- (oi_eid _ Hi id e He) in He. done.
Qed.

(** What a delivery under a valid lease does to the outbox. *)
Inductive delivered (ev : OutboxEvent) (out : remote) (now : Z) (n : string)
  : gmap string OutboxEvent → gmap string OutboxEvent → Prop :=
| D_close m ev' : live ev' = false → delivered ev out now n m (<[e_ID ev := ev']> m)
| D_next m ev' e2 : live ev' = false → live e2 = true → AvailableAt e2 = now → State e2 = EventPending →
    (Kind ev = ReserveMargin ∧ Kind e2 = RouteExchange ∨ Kind ev = RouteExchange ∧ Kind e2 = ReleaseMargin) →
    delivered ev out now n m (<[e_ID ev := ev']> (<[n := e2]> m))
| D_retry m ev' e : out = RFailed e → State ev' = EventRetry → Kind ev' = Kind ev →
    Attempts ev + 1 < MaxAttempts demo_retry →
    AvailableAt ev' = now + Order.delay demo_retry (Attempts ev + 1) →
    delivered ev out now n m (<[e_ID ev := ev']> m).

Lemma update_order_ok s orderID o f succ now : orders s !! orderID = Some o → o_ID (f o) = orderID →
  update_order orderID f succ now s =
  Ok (enqueue_opt succ orderID now (mkState (<[orderID := f o]> (orders s)) (byIdempotency s) (events s))).
Proof.
  intros Ho Hid. unfold update_order, tx_Order. rewrite Ho. unfold PutOrder. rewrite Hid, Ho.
  by destruct succ as [[k id]|].
Qed.

Lemma Finalize_delivered (fresh : nat → string) ev o out f succ now n s : leased (e_ID ev) (LeaseToken ev) s = Some ev →
  events s !! fresh n = None → orders s !! OrderID ev = Some o → o_ID (f o) = OrderID ev →
  match succ with
  | Some (k, id) => id = fresh n ∧
      (Kind ev = ReserveMargin ∧ k = RouteExchange ∨ Kind ev = RouteExchange ∧ k = ReleaseMargin)
  | None => True
  end →
  ∃ s', Finalize false (e_ID ev) (LeaseToken ev) now (update_order (OrderID ev) f succ now) s = (s', Ok ()) ∧
    delivered ev out now (fresh n) (events s) (events s').
Proof.
  intros Hl Hn Ho Hid Hsucc. destruct (leased_Some _ _ _ _ Hl) as (He & _).
  unfold Finalize. rewrite Hl. unfold Transaction. rewrite (update_order_ok s _ o f succ now Ho Hid).
  eexists. split; [reflexivity|]. unfold close_event. simpl.
  destruct succ as [[k id]|]; simpl.
  - destruct Hsucc as [-> Hk].
    rewrite lookup_insert_ne, He by (intros Heq; congruence).
    apply D_next; simpl; try done.
  - rewrite He. by apply D_close.
Qed.

Lemma deliver_delivered (fresh : nat → string) ev o out now n s : leased (e_ID ev) (LeaseToken ev) s = Some ev →
  events s !! fresh n = None → orders s !! OrderID ev = Some o → o_ID o = OrderID ev →
  (∀ k, Kind ev ≠ OtherKind k) →
  ∃ s', deliver fresh demo_retry false ev o out now n s = (s', Ok ()) ∧
    delivered ev out now (fresh n) (events s) (events s').
Proof.
  intros Hl Hn Ho Hid Hk. destruct (leased_Some _ _ _ _ Hl) as (He & _).
  assert (∃ s', abandon false ev (match out with RFailed e => re_text e | _ => "" end) now s = (s', Ok ()) ∧
    delivered ev out now (fresh n) (events s) (events s')) as Hab.
  { unfold abandon, Abandon, Transaction. rewrite Hl, (update_order_ok s _ o _ _ _ Ho) by done.
    eexists. split; [reflexivity|]. unfold close_event. simpl. rewrite He. by apply D_close. }
  assert (∀ e, out = RFailed e → ∃ s', handleRemoteError demo_retry false ev e now s = (s', Ok ()) ∧
    delivered ev out now (fresh n) (events s) (events s')) as Hre.
  { intros e ->. unfold handleRemoteError. destruct (negb (isTransient e)); [done|].
    destruct (Z.leb_spec (MaxAttempts demo_retry) (Attempts ev + 1)); [done|].
    unfold Retry. rewrite Hl. eexists. split; [reflexivity|]. simpl. by eapply D_retry. }
  unfold deliver, reserve, route, release. rewrite Hid.
  destruct (Kind ev) as [| | |k] eqn:Hkind; [| | |by destruct (Hk k)];
    destruct out as [id|reason|e]; try (by apply Hre); eapply Finalize_delivered; eauto.
Qed.

(** The measure decreases, and what is left is due within the longest back-off. *)
Definition second : Z := 1000000000.

Lemma demo_delay a : 0 ≤ a → a + 1 < MaxAttempts demo_retry → Order.delay demo_retry (a + 1) ≤ 5 * second.
Proof.
  intros H0 H1. change (MaxAttempts demo_retry) with 3 in H1.
  assert (a = 0 ∨ a = 1) as [-> | ->] by lia; vm_compute; congruence.
Qed.

Lemma delivered_work ev out now n m m' g g' : delivered ev out now n m m' →
  m !! e_ID ev = Some ev → m !! n = None → live ev = true → 0 ≤ Attempts ev →
  (∀ e, out = RFailed e → g = behaviorTimeout ∧ g' = behaviorAccept) → (g' = g ∨ g' = behaviorAccept) →
  workload m' + (if String.eqb g' behaviorTimeout then 1 else 0) < workload m + (if String.eqb g behaviorTimeout then 1 else 0).
Proof.
  intros Hd Hev Hn Hl Ha Hf Hg. pose proof (weight_live ev Hl) as Hw.
  assert ((if String.eqb g' behaviorTimeout then 1 else 0) ≤ (if String.eqb g behaviorTimeout then 1 else 0)) as Hle
    by (destruct Hg as [-> | ->]; [lia|simpl; destruct (String.eqb g behaviorTimeout); lia]).
  destruct Hd as [m ev' Hl'|m ev' e2 Hl' Hl2 _ _ Hk|m ev' e Ho Hst Hk _ _].
  - unfold workload. rewrite (msum_insert _ _ _ _ ev Hev).
    assert (weight ev' = 0) as -> by (unfold weight; by rewrite Hl'). lia.
  - unfold workload. rewrite (msum_insert _ _ _ ev' ev) by (rewrite lookup_insert_ne by congruence; done).
    rewrite msum_insert_new by done. assert (weight ev' = 0) as -> by (unfold weight; by rewrite Hl').
    assert (weight e2 < weight ev); [|lia]. unfold weight. rewrite Hl2, Hl. destruct Hk as [[-> ->]|[-> ->]]; lia.
  - unfold workload. rewrite (msum_insert _ _ _ _ ev Hev). destruct (Hf e Ho) as [-> ->]. simpl.
    replace (weight ev') with (weight ev); [lia|]. unfold weight. rewrite Hk, Hl. unfold live. by rewrite Hst.
Qed.

Lemma delivered_ready ev out now n m m' t : delivered ev out now n m m' →
  (∀ id e, m !! id = Some e → id ≠ e_ID ev → live e = true → AvailableAt e ≤ t ∧ (State e = EventProcessing → LeaseUntil e ≤ t)) →
  now + 5 * second ≤ t → 0 ≤ Attempts ev →
  ∀ id e, m' !! id = Some e → live e = true → AvailableAt e ≤ t ∧ (State e = EventProcessing → LeaseUntil e ≤ t).
Proof.
  intros Hd Hm Ht Ha id e He Hl.
  destruct Hd as [m ev' Hl'|m ev' e2 Hl' Hl2 Hav Hst Hk|m ev' x Ho Hst Hk Hmax Hav].
  - destruct (decide (id = e_ID ev)) as [->|Hne]; [rewrite lookup_insert_eq in He; simplify_eq; congruence|].
    rewrite lookup_insert_ne in He by done. eauto.
  - destruct (decide (id = e_ID ev)) as [->|Hne]; [rewrite lookup_insert_eq in He; simplify_eq; congruence|].
    rewrite lookup_insert_ne in He by done.
    destruct (decide (id = n)) as [->|Hne2]; [|rewrite lookup_insert_ne in He by done; eauto].
    rewrite lookup_insert_eq in He. simplify_eq. rewrite Hst. unfold second in *. split; [lia|done].
  - destruct (decide (id = e_ID ev)) as [->|Hne]; [|rewrite lookup_insert_ne in He by done; eauto].
    rewrite lookup_insert_eq in He. simplify_eq. rewrite Hst, Hav. split; [|done].
    pose proof (demo_delay _ Ha Hmax). lia.
Qed.

Section liveness.
Context (hash : string → string) (fresh : nat → string) (Hfresh : ∀ a b, fresh a = fresh b → a = b).
Context (Hlen : ∀ n, (8 ≤ String.length (fresh n))%nat).

(** A request whose context lives and whose clock reads [t] at the claim and at
most [t'] after the remote call. *)
Definition calm (e : env) (t t' : Z) : Prop :=
  en_cancelled e = false ∧ tk_read (en_tick e) = false ∧ tk_write (en_tick e) = false ∧
  en_now e = t ∧ t ≤ t' ∧ tk_now (en_tick e) = t'.

Lemma gateway_answers kind o g : (8 ≤ String.length (o_ID o))%nat → ∃ out g',
  demo_gateway kind o g = (Some out, g') ∧ (∀ e, out = RFailed e → g = behaviorTimeout ∧ g' = behaviorAccept) ∧
  (g' = g ∨ g' = behaviorAccept).
Proof.
  intros H. unfold demo_gateway, margin_Reserve, exchange_Route, id8. rewrite (proj2 (Nat.leb_le _ _) H).
  destruct kind; try (eexists _, _; split_and!; [done|by intros|by left]).
  destruct (String.eqb_spec g behaviorReject); [eexists _, _; split_and!; [done|by intros|by right]|].
  destruct (String.eqb_spec g behaviorTimeout); eexists _, _; split_and!; try done; by right.
Qed.

Lemma dispatch_step e d t t' : reaches hash fresh NewMemoryStore (d_store d) (d_next d) [] → ready t (d_store d) → calm e t t' →
  let '(d', resp) := dispatch fresh e d in
  (∀ t2, t' + 5 * second ≤ t2 → ready t2 (d_store d')) ∧ resp ≠ None ∧
  (work d' < work d ∨ d' = d ∧ ∀ id x, events (d_store d) !! id = Some x → live x = false).
Proof.
  intros Hr Hready (Hc & Htr & Htw & Hnow & Htt & Htick). pose proof (reaches_inv hash fresh Hfresh _ _ _ _ Hr) as Hy.
  assert (oinv (d_store d)) as Hi by exact (yi_store _ _ _ Hy). unfold dispatch, DispatchOnce. rewrite Hc, Hnow.
  destruct (claim_one fresh t leaseFor (d_next d) (d_store d) Hi) as [[-> Hno]|(x & Hx & Hcl & Hclaim)].
  { simpl. split; [|split; [done|right]].
    - intros t2 Ht2 id y Hyy Hl. destruct (Hready id y Hyy Hl) as [H1 H2]. unfold second in *.
      split; [lia|intros Hp; specialize (H2 Hp); lia].
    - split; [by destruct d|]. intros id y Hyy. destruct (live y) eqn:Hl; [|done].
      by rewrite <- (Hno id y Hyy), (ready_claimable t (d_store d) id y). }
  rewrite Hclaim. set (ev := set_event _ _ _ _ _ _ _ x). set (s1 := mkState _ _ _).
  pose proof (claimable_live _ _ Hcl) as Hlive.
  assert (events s1 !! e_ID ev = Some ev) as Hev by (apply lookup_insert_eq).
  assert (leased (e_ID ev) (LeaseToken ev) s1 = Some ev) as Hleased.
  { unfold leased. rewrite Hev. simpl. by rewrite String.eqb_refl. }
  destruct (oi_event _ Hi _ _ Hx) as (o & Ho & Hkind).
  assert (∀ k, Kind ev ≠ OtherKind k) as Hk by (intros k Heq; change (Kind ev) with (Kind x) in Heq; by rewrite Heq in Hkind).
  pose proof (oi_id _ Hi _ _ Ho) as Hid.
  destruct (yi_order _ _ _ Hy _ _ Ho) as (m & _ & Hm).
  destruct (gateway_answers (Kind ev) o (d_behavior d)) as (out & g' & Hg & Hgf & Hgb).
  { rewrite Hid. simpl in Hm. rewrite Hm. apply Hlen. }
  destruct (yi_att _ _ _ Hy _ _ Hx) as [[Ha _] _].
  assert (events (d_store d) !! fresh (S (d_next d)) = None) as Hfr.
  { destruct (events (d_store d) !! fresh (S (d_next d))) eqn:Hfr; [|done].
    destruct (yi_event _ _ _ Hy _ _ Hfr) as (m2 & Hm2 & Heq%Hfresh). simpl in Hm2. lia. }
  assert (events s1 !! fresh (S (d_next d)) = None) as Hfr1.
  { simpl. rewrite lookup_insert_ne; [done|]. intros Heq. rewrite <- Heq in Hfr. simpl in Hfr. congruence. }
  destruct (deliver_delivered fresh ev o out t' (S (d_next d)) s1) as (s2 & Hd2 & Hdel); try done.
  assert (∀ t2, t' + 5 * second ≤ t2 → ready t2 s2) as Hrdy.
  { intros t2 Ht2. refine (delivered_ready ev out t' _ _ _ t2 Hdel _ Ht2 Ha).
    intros id y Hyy Hne Hl. unfold s1 in Hyy. cbn [events] in Hyy.
    rewrite lookup_insert_ne in Hyy by (intros Heq; by apply Hne).
    destruct (Hready id y Hyy Hl) as [H1 H2]. unfold second in *. split; [lia|intros Hp; specialize (H2 Hp); lia]. }
  assert (workload (events s2) + (if String.eqb g' behaviorTimeout then 1 else 0) < work d) as Hw.
  { pose proof (delivered_work ev out t' _ _ _ (d_behavior d) g' Hdel Hev Hfr1 eq_refl Ha Hgf Hgb) as Hw.
    change (events s1) with (<[e_ID x := ev]> (events (d_store d))) in Hw.
    unfold workload in Hw. rewrite (msum_insert _ _ _ _ x) in Hw by done.
    assert (weight ev = weight x) as Hwx by (unfold weight; rewrite Hlive; reflexivity).
    unfold work, workload. lia. }
  simpl dispatch_loop. unfold deliver_event. rewrite Htr, Htw, Htick.
  unfold orderFor, Transaction, tx_Order. change (orders s1) with (orders (d_store d)).
  change (OrderID ev) with (OrderID x) in *. rewrite Ho.
  destruct (Kind ev) as [| | |k] eqn:Hke; [| | |by destruct (Hk k)].
  all: simpl snd; cbv iota beta; rewrite Hg, Hd2; simpl; split; [exact Hrdy|split; [done|left; exact Hw]].
Qed.

(** The clocks of a run of dispatches: each starts at least the longest back-off
after the one before it ended. *)
Fixpoint paced (t : Z) (es : list env) : Prop :=
  match es with
  | [] => True
  | e :: es' => t ≤ en_now e ∧ calm e (en_now e) (tk_now (en_tick e)) ∧
                paced (tk_now (en_tick e) + 5 * second) es'
  end.

Definition dispatches (d : server) (es : list env) : server := foldl (fun d e => (dispatch fresh e d).1) d es.

Lemma dispatch_reaches e d : reaches hash fresh NewMemoryStore (d_store d) (d_next d) [] →
  reaches hash fresh NewMemoryStore (d_store (dispatch fresh e d).1) (d_next (dispatch fresh e d).1) [].
Proof.
  intros H. unfold dispatch. destruct (DispatchOnce _ _ _ _ _ _ _ _ _ _) as [[[s res] n] g] eqn:Hd.
  apply (reaches_DispatchOnce hash fresh Hfresh _ _ _ _ _ _ _ _ _ _ _ _ H) in Hd. by destruct res.
Qed.

Lemma work_nonneg d : 0 ≤ work d.
Proof. unfold work. pose proof (workload_nonneg (events (d_store d))). destruct (String.eqb _ _); lia. Qed.

Lemma work_load d : workload (events (d_store d)) ≤ work d ≤ workload (events (d_store d)) + 1.
Proof. unfold work. destruct (String.eqb _ _); lia. Qed.

Lemma workload_dead m : (∀ id x, m !! id = Some x → live x = false) → workload m = 0.
Proof.
  intros H. unfold workload, msum. rewrite (zsum_ext _ (fun _ => 0)).
  { induction (map_to_list m) as [|p ps IH]; [done|]. exact IH. }
  intros [id x] Hin%elem_of_map_to_list. unfold weight. simpl. by rewrite (H id x).
Qed.

Lemma drain es : ∀ d t, reaches hash fresh NewMemoryStore (d_store d) (d_next d) [] → ready t (d_store d) → paced t es →
  workload (events (d_store d)) ≤ 0 ∨ work d ≤ Z.of_nat (length es) →
  reaches hash fresh NewMemoryStore (d_store (dispatches d es)) (d_next (dispatches d es)) [] ∧
  ∀ id x, events (d_store (dispatches d es)) !! id = Some x → live x = false.
Proof.
  induction es as [|e es IH]; intros d t Hr Hready Hp Hw; simpl in *.
  - split; [done|]. intros id x. apply workload_zero. pose proof (work_load d). lia.
  - destruct Hp as (Ht & Hcalm & Hp). assert (ready (en_now e) (d_store d)) as Hready'.
    { intros id x Hx Hl. destruct (Hready id x Hx Hl) as [H1 H2].
      split; [lia|intros Hpr; specialize (H2 Hpr); lia]. }
    pose proof (dispatch_step e d _ _ Hr Hready' Hcalm) as Hstep.
    pose proof (dispatch_reaches e d Hr) as Hr'. destruct (dispatch fresh e d) as [d' resp]. simpl in *.
    destruct Hstep as (Hrd & _ & Hdec). apply (IH d' (tk_now (en_tick e) + 5 * second)); auto; [apply Hrd; lia|].
    pose proof (work_load d). pose proof (work_load d').
    destruct Hdec as [Hlt|[-> Hall]]; [lia|]. left. by rewrite (workload_dead _ Hall).
Qed.

Lemma workload_bound m : workload m ≤ 3 * Z.of_nat (size m).
Proof.
  induction m as [|i x m Hi IH] using map_ind; [done|].
  unfold workload in *. rewrite msum_insert_new, map_size_insert_None by done. pose proof (weight_nonneg x). lia.
Qed.

(** The end states of an order. *)
Definition settled (o : Order) : Prop :=
  match o_Status o, Margin o with
  | Accepted, MarginReserved | Rejected, (MarginNone | MarginReleased) | ReconciliationRequired, _ => True
  | _, _ => False
  end.

Lemma quiet_settled s n id o : reaches hash fresh NewMemoryStore s n [] → (∀ i x, events s !! i = Some x → live x = false) →
  orders s !! id = Some o → settled o.
Proof.
  intros Hr%reaches_inv Hq Ho; [|done]. pose proof (yi_store _ _ _ Hr) as Hi. simpl in Hi.
  pose proof (oi_valid _ Hi id o Ho) as Hv. unfold settled, valid in *.
  destruct (expected o) as [k|] eqn:Hk.
  - destruct (oi_has _ Hi id o k Ho Hk) as (i & x & Hx & _ & _ & Hl). by rewrite (Hq i x Hx) in Hl.
  - unfold expected in Hk. by destruct (o_Status o), (Margin o).
Qed.

(** C10: The workflow comes to rest: after any history of requests, once every
waiting event is due, three dispatches per outbox event and one more for a
selected timeout, spaced by the longest back-off, settle every order (accepted
with its margin reserved, rejected without a margin or with it released, or
handed to reconciliation) and leave no work in the outbox, whatever behaviour
was selected for the exchange. *)
Theorem demo_drains (l : list (env * request)) (t : Z) (es : list env) :
  let d := serve_all hash fresh l in
  let d' := dispatches d es in
  ready t (d_store d) → paced t es → 3 * Z.of_nat (size (events (d_store d))) + 1 ≤ Z.of_nat (length es) →
  (∀ id x, events (d_store d') !! id = Some x → live x = false) ∧
  ∀ id o, orders (d_store d') !! id = Some o → settled o.
Proof.
  intros d d' Hready Hp Hlen'. pose proof (reaches_serve_all hash fresh Hfresh l) as Hr. fold d in Hr.
  pose proof (workload_bound (events (d_store d))). pose proof (work_load d).
  destruct (drain es d t Hr Hready Hp) as [Hr' Hq]; [right; lia|].
  split; [done|]. intros id o. by apply (quiet_settled _ (d_next d')).
Qed.
End liveness.

(** ** Placement over HTTP *)

Definition request_of (input : placeOrderInput) : PlaceOrderRequest :=
  mkPlace (in_AccountID input) (in_IdempotencyKey input) (in_Instrument input) (in_Side input)
    (in_Quantity input) (in_LimitPrice input).

Section placement.
Context (hash : string → string) (fresh : nat → string) (Hfresh : ∀ a b, fresh a = fresh b → a = b).

Local Instance fresh_inj4 : Inj (=) (=) fresh.
Proof. exact Hfresh. Qed.

(** An order that [Place] returned is in the store, under the index key and the
digest of its request. *)
Lemma Place_stored c now r n s s' o b n' : yinv fresh demo_retry (mkSys s n []) →
  Place hash fresh c now r n s = (s', Ok (o, b), n') →
  orders s' !! o_ID o = Some o ∧ order_key o = idempotencyIndex (pr_AccountID r) (pr_Key r) ∧
  RequestHash o = requestFingerprint hash r.
Proof.
  intros Hy. unfold Place, Transaction. destruct (validate r); [done|]. destruct c; [done|].
  destruct (OrderByIdempotency _ _ s) as [ex|] eqn:Hex.
  - destruct (String.eqb_spec (RequestHash ex) (requestFingerprint hash r)); simpl; [|done].
    intros [= <- <- <- <-]. unfold OrderByIdempotency in Hex.
    destruct (byIdempotency s !! _) as [id|] eqn:Hb; [|done].
    pose proof (yi_store _ _ _ Hy) as Hi. simpl in Hi. rewrite (oi_id _ Hi id ex Hex).
    destruct (oi_idem _ Hi _ id Hb) as (x & Hx & Hkey). simplify_eq. done.
  - destruct (PutOrder _ s) as [s2|] eqn:Hp; [|done]. intros [= <- <- <- <-]. split; [|done].
    unfold PutOrder in Hp. repeat case_match; simplify_eq; simpl; apply lookup_insert_eq.
Qed.

(** The order is found again as long as it is in a store of the saga. *)
Lemma found_again s n fl o r : yinv fresh demo_retry (mkSys s n fl) → orders s !! o_ID o = Some o →
  order_key o = idempotencyIndex (pr_AccountID r) (pr_Key r) →
  OrderByIdempotency (pr_AccountID r) (pr_Key r) s = Some o.
Proof.
  intros Hy Ho Hk. assert (oinv s) as Hi by exact (yi_store _ _ _ Hy).
  unfold OrderByIdempotency. rewrite <- Hk. by rewrite (oi_key _ Hi _ _ Ho).
Qed.

(** An idempotency key stands for one order for good: once a placement was
answered with an order, then after any further requests (dispatches that
advance or fail it, other placements, cancelled ones) a valid placement with
the same account and key is answered 200 with that order (what was ordered
unchanged) when its digest is the same and 409 when it is not, and in both
cases the server's orders and events stay as they are. *)
Theorem demo_place_once (l l2 : list (env * request)) (e e2 : env) (input input2 : placeOrderInput)
    (o : Order) (replayed : bool) :
  let d := serve_all hash fresh l in
  let '(d1, resp) := placeOrder hash fresh e (mkDecoded (Ok input) false) d in
  let d2 := foldl (serve hash fresh) d1 l2 in
  let '(d3, resp2) := placeOrder hash fresh e2 (mkDecoded (Ok input2) false) d2 in
  r_body resp = BOrder o replayed →
  in_AccountID input2 = in_AccountID input → in_IdempotencyKey input2 = in_IdempotencyKey input →
  validate (request_of input2) = None → en_cancelled e2 = false →
  d_store d3 = d_store d2 ∧
  if String.eqb (requestFingerprint hash (request_of input)) (requestFingerprint hash (request_of input2))
  then ∃ o', resp2 = mkResp 200 (BOrder o' true) ∧ ident o' = ident o
  else resp2 = mkResp 409 (BError (err_text ErrIdempotencyConflict)).
Proof.
  intros d. unfold placeOrder at 1. cbn [decodeJSON dec_value dec_more]. fold (request_of input).
  pose proof (reaches_serve_all hash fresh Hfresh l) as Hr. fold d in Hr. pose proof Hr as Hy%reaches_inv; [|done].
  destruct (Place _ _ _ _ (request_of input) _ _) as [[s1 res] n1] eqn:Hp.
  assert (reaches hash fresh s1 s1 n1 []) as Hr1.
  { apply reaches_from with NewMemoryStore.
    apply (reaches_step hash fresh Hfresh _ _ _ _ (OPlace (en_cancelled e) (en_now e) (request_of input)) _ _ _ Hr).
    simpl. by rewrite Hp. }
  destruct res as [[o1 b1]|err].
  2: { destruct (placeOrder _ _ _ _ _). intros Hb. discriminate Hb. }
  set (d1 := mkServer s1 n1 _). pose proof (reaches_serves hash fresh Hfresh s1 l2 d1 Hr1) as Hr2. simpl in Hr2.
  destruct (foldl (serve hash fresh) d1 l2) as [s2 n2 g2]. cbn [d_store d_next] in Hr2.
  pose proof Hr2 as Hy2%reaches_inv; [|done]. destruct Hr2 as [_ Hext].
  unfold placeOrder. cbn [decodeJSON dec_value dec_more d_store d_next d_behavior]. fold (request_of input2).
  destruct (Place _ _ _ _ (request_of input2) _ _) as [[s3 res3] n3] eqn:Hp3.
  destruct (match res3 with Ok _ => _ | Err _ => _ end) as [d3 resp2] eqn:Hresp.
  intros [= -> ->] Hacc Hkey Hv Hc2.
  destruct (Place_stored _ _ _ _ _ _ _ _ _ Hy Hp) as (Ho & Hok & Hhash).
  destruct (Hext _ _ Ho) as (o2 & Ho2 & Hid2). pose proof Hid2 as Hid3. injection Hid3 as E1 E2 E3 E4 _ _ _ _ _.
  rewrite <- E1 in Ho2.
  assert (OrderByIdempotency (pr_AccountID (request_of input2)) (pr_Key (request_of input2)) s2 = Some o2) as Hfound.
  { apply (found_again _ _ _ _ _ Hy2 Ho2). unfold order_key in *. rewrite E2, E3, Hok. simpl. congruence. }
  unfold Place, Transaction in Hp3. rewrite Hv, Hc2, Hfound, E4, Hhash in Hp3.
  destruct (String.eqb _ _); cbn [negb] in Hp3; injection Hp3 as <- <- <-; injection Hresp as <- <-; split; try done.
  exists o2. done.
Qed.
End placement.

(** Every history of the demo is a run of the saga, so that what holds of the
saga under all interleavings holds of the demo's orders and outbox. *)
Theorem demo_refines (hash : string → string) (fresh : nat → string) (l : list (env * request)) :
  (∀ a b, fresh a = fresh b → a = b) →
  ∃ ops, orun hash fresh demo_retry ops =
    mkSys (d_store (serve_all hash fresh l)) (d_next (serve_all hash fresh l)) [].
Proof. intros Hfresh. by destruct (reaches_serve_all hash fresh Hfresh l) as [H _]. Qed.

(** ** A concrete server *)

Definition id_of (n : nat) : string := "order-id" +:+ pretty n.

Lemma id_of_inj a b : id_of a = id_of b → a = b.
Proof. unfold id_of. intros H. by apply (inj (String.append "order-id")), (inj pretty) in H. Qed.

Lemma id_of_length n : (8 ≤ String.length (id_of n))%nat.
Proof. unfold id_of. simpl. lia. Qed.

Definition readyb (t : Z) (s : memoryState) : bool :=
  forallb (fun p => negb (live p.2) || ((AvailableAt p.2 <=? t) && (LeaseUntil p.2 <=? t))) (map_to_list (events s)).

Lemma readyb_ready t s : readyb t s = true → ready t s.
Proof.
  intros H id e He Hl. unfold readyb in H. rewrite forallb_forall in H.
  specialize (H (id, e) (proj1 (list_elem_of_In _ _) (proj2 (elem_of_map_to_list _ _ _) He))). simpl in H.
  rewrite Hl in H. simpl in H. zbool. split; [lia|intros; lia].
Qed.

Definition at_time (t : Z) : env := mkEnv false (t * second) (mkTick false false (t * second)).

Definition buy (account key : string) : placeOrderInput := mkInput account key "TCS" "BUY" 10 500.

Definition nothing {A} : decoded A := mkDecoded (Err "EOF") false.

Definition post_order (i : placeOrderInput) : request := mkRequest "POST" "/api/orders" (mkDecoded (Ok i) false) nothing.

Definition post_behavior (b : string) : request :=
  mkRequest "POST" "/api/route-behavior" nothing (mkDecoded (Ok b) false).

(** An order is placed and the exchange is told to time out once. *)
Definition demo_history : list (env * request) :=
  [(at_time 1, post_order (buy "acc" "key")); (at_time 2, post_behavior "timeout")].

Lemma demo_drains_witness :
  map (fun o => (o_Status o, Margin o))
    (Snapshot (d_store (dispatches id_of (serve_all (fun s => s) id_of demo_history) (map at_time [10; 20; 30; 40])))).1
    = [(Accepted, MarginReserved)] ∧
  (∀ id x, events (d_store (dispatches id_of (serve_all (fun s => s) id_of demo_history)
     (map at_time [10; 20; 30; 40]))) !! id = Some x → live x = false).
Proof.
  split; [vm_compute; reflexivity|].
  apply (demo_drains (fun s => s) id_of id_of_inj id_of_length demo_history (5 * second) (map at_time [10; 20; 30; 40])).
  - apply readyb_ready. vm_compute. reflexivity.
  - unfold calm, at_time; simpl; unfold second. repeat split; lia.
  - vm_compute. congruence.
Defined.

Lemma demo_place_once_witness :
  ∃ o', (placeOrder (fun s => s) id_of (at_time 9) (mkDecoded (Ok (buy "acc" "key")) false)
    (foldl (serve (fun s => s) id_of)
      (placeOrder (fun s => s) id_of (at_time 1) (mkDecoded (Ok (buy "acc" "key")) false) newServer).1
      [(at_time 5, mkRequest "POST" "/api/dispatch" nothing nothing)])).2 = mkResp 200 (BOrder o' true) ∧
    ident o' = ident (new_order (fun s => s) (id_of 0) second (request_of (buy "acc" "key"))).
Proof.
  pose proof (demo_place_once (fun s => s) id_of id_of_inj []
    [(at_time 5, mkRequest "POST" "/api/dispatch" nothing nothing)] (at_time 1) (at_time 9)
    (buy "acc" "key") (buy "acc" "key")
    (new_order (fun s => s) (id_of 0) second (request_of (buy "acc" "key"))) false) as H.
  vm_compute in H. vm_compute. exact (proj2 (H eq_refl eq_refl eq_refl eq_refl eq_refl)).
Defined.

Lemma demo_refines_witness :
  ∃ ops, orun (fun s => s) id_of demo_retry ops =
    mkSys (d_store (serve_all (fun s => s) id_of demo_history)) 2 [].
Proof. exact (demo_refines (fun s => s) id_of demo_history id_of_inj). Defined.

(** The index of idempotency keys separates account and key by a NUL, which a
JSON string may contain: the digest leaves the account out, so a placement of
another account can be answered with an order that is not its own. *)
Theorem demo_key_crosses_accounts :
  let nul := String (ascii_of_nat 0) "" in
  let d := (placeOrder (fun s => s) id_of (at_time 1) (mkDecoded (Ok (buy "a" ("b" +:+ nul +:+ "c"))) false) newServer).1 in
  match (placeOrder (fun s => s) id_of (at_time 2) (mkDecoded (Ok (buy ("a" +:+ nul +:+ "b") "c")) false) d).2 with
  | mkResp status (BOrder o true) => status = 200 ∧ AccountID o = "a"
  | _ => False
  end.
Proof. vm_compute. split; reflexivity. Qed.
