(* ===== verification/Devices.v ===== *)
(** * livescale-control-plane/internal/concurrency: device limits per account

[Sharded] is the power-of-two array of locked maps that the device manager and
the session store share; [Manager] is the exact per-account device table and
[Estimator] the registers of the HyperLogLog sketch.  Every operation of the
manager is one critical section of one shard, so an interleaving of calls is a
sequence of operations ([mrun]). *)

From Stdlib Require Import ZArith Lia.
From stdpp Require Import base gmap strings fin_maps relations list.
From S2P Require Import Prelude.

Open Scope Z_scope.

(* [base] livescale-control-plane/internal/concurrency *)

(** ** Sharded maps

[mh] is [maphash.String] with the seed of the container: an unknown function
to uint64 that is fixed for the life of the process. *)

Record Sharded (A : Type) : Type := mkSharded { sd_shards : list (gmap string A); sd_mask : Z }.
Arguments mkSharded {A} _ _.
Arguments sd_shards {A} _.
Arguments sd_mask {A} _.

Section sharded.
Context {A : Type} (mh : string → Z).

(** A count that is not a positive power of two becomes 256. *)
(* [go] manager.go:51-53 New *)
Definition shard_count (n : Z) : Z :=
  if (n <? 1) || negb (Z.land n (n - 1) =? 0) then 256 else n.

(* [go] manager.go:54-63 New *)
Definition new_sharded (n : Z) : Sharded A :=
  mkSharded (replicate (Z.to_nat (shard_count n)) ∅) (u64 (shard_count n - 1)).

Definition shard_ix (id : string) (s : Sharded A) : nat := Z.to_nat (Z.land (mh id) (sd_mask s)).

(** The shard of a key; [shard_ix_lt] shows that the index is in range. *)
(* [go] manager.go:66-69 Manager.shardFor *)
Definition shardFor (id : string) (s : Sharded A) : gmap string A :=
  default ∅ (sd_shards s !! shard_ix id s).

(** The write-back of the shard of a key at the end of a critical section. *)
Definition set_shard (id : string) (sh : gmap string A) (s : Sharded A) : Sharded A :=
  mkSharded (<[shard_ix id s := sh]> (sd_shards s)) (sd_mask s).

(** A pass over all shards that keeps, changes or drops each value. *)
Definition omap_shards (f : A → option A) (s : Sharded A) : Sharded A :=
  mkSharded (omap (M:=gmap string) f <$> sd_shards s) (sd_mask s).

(** The container as one map: the value of a key in its shard. *)
Definition peek (s : Sharded A) (id : string) : option A := shardFor id s !! id.

Definition shards_ok (s : Sharded A) : Prop :=
  0 ≤ sd_mask s ∧ Z.of_nat (length (sd_shards s)) = sd_mask s + 1.

Hypothesis mh_nonneg : ∀ id, 0 ≤ mh id.

Lemma land_le a b : 0 ≤ a → 0 ≤ b → 0 ≤ Z.land a b ≤ b.
Proof.
  intros Ha Hb. split; [apply Z.land_nonneg; lia|].
  pose proof (Z.add_nocarry_lxor (Z.land a b) (Z.ldiff b a)) as Hadd.
  assert (Z.land (Z.land a b) (Z.ldiff b a) = 0) as Hz.
  { apply Z.bits_inj'. intros i Hi.
    rewrite !Z.land_spec, Z.ldiff_spec, Z.bits_0. by destruct (Z.testbit a i), (Z.testbit b i). }
  assert (Z.lxor (Z.land a b) (Z.ldiff b a) = b) as Hx.
  { apply Z.bits_inj'. intros i Hi.
    rewrite Z.lxor_spec, Z.land_spec, Z.ldiff_spec. by destruct (Z.testbit a i), (Z.testbit b i). }
  rewrite Hx in Hadd. specialize (Hadd Hz).
  assert (0 ≤ Z.ldiff b a); [apply Z.ldiff_nonneg; lia|lia].
Qed.

Lemma shard_ix_lt id s : shards_ok s → (shard_ix id s < length (sd_shards s))%nat.
Proof.
  intros [Hm Hl]. unfold shard_ix. pose proof (land_le (mh id) (sd_mask s) (mh_nonneg id) Hm). lia.
Qed.

Lemma shards_ok_new n : n < 2 ^ 63 → shards_ok (new_sharded n).
Proof.
  intros Hn. unfold shards_ok, new_sharded. cbn [sd_shards sd_mask]. rewrite length_replicate.
  assert (0 < shard_count n < 2 ^ 63).
  { unfold shard_count. case_test; [lia|]. zbool. lia. }
  rewrite u64_small; [lia|]. unfold in_u64. lia.
Qed.

Lemma shards_ok_set id sh s : shards_ok s → shards_ok (set_shard id sh s).
Proof. unfold shards_ok, set_shard. cbn [sd_shards sd_mask]. by rewrite length_insert. Qed.

Lemma shards_ok_omap f s : shards_ok s → shards_ok (omap_shards f s).
Proof. unfold shards_ok, omap_shards. cbn [sd_shards sd_mask]. by rewrite length_fmap. Qed.

Lemma peek_new n id : peek (new_sharded n) id = None.
Proof.
  unfold peek, shardFor, new_sharded. cbn [sd_shards].
  destruct (replicate _ _ !! _) as [sh|] eqn:E; simpl; [|apply lookup_empty].
  apply lookup_replicate in E as [-> _]. apply lookup_empty.
Qed.

Lemma shardFor_set id sh s id' : shards_ok s →
  shardFor id' (set_shard id sh s) = if decide (shard_ix id s = shard_ix id' s) then sh else shardFor id' s.
Proof.
  intros Hok. unfold shardFor, set_shard. cbn [sd_shards].
  change (shard_ix id' (mkSharded _ _)) with (shard_ix id' s). case_decide as Hix.
  - rewrite <- Hix, list_lookup_insert_eq by (by apply shard_ix_lt). done.
  - by rewrite list_lookup_insert_ne.
Qed.

(** Writing one key of its shard changes the container at that key only. *)
Lemma peek_insert id v s id' : shards_ok s →
  peek (set_shard id (<[id := v]> (shardFor id s)) s) id' = if decide (id = id') then Some v else peek s id'.
Proof.
  intros Hok. unfold peek. rewrite shardFor_set by done. case_decide as Hix.
  - rewrite lookup_insert. case_decide as Hid; [done|]. unfold shardFor. by rewrite Hix.
  - rewrite decide_False; [done|]. congruence.
Qed.

Lemma peek_delete id s id' : shards_ok s →
  peek (set_shard id (delete id (shardFor id s)) s) id' = if decide (id = id') then None else peek s id'.
Proof.
  intros Hok. unfold peek. rewrite shardFor_set by done. case_decide as Hix.
  - rewrite lookup_delete. case_decide as Hid; [done|]. unfold shardFor. by rewrite Hix.
  - rewrite decide_False; [done|]. congruence.
Qed.

Lemma peek_same id s id' : shards_ok s → peek (set_shard id (shardFor id s) s) id' = peek s id'.
Proof.
  intros Hok. unfold peek. rewrite shardFor_set by done. case_decide as Hix; [|done].
  unfold shardFor. by rewrite Hix.
Qed.

Lemma peek_omap f s id : peek (omap_shards f s) id = peek s id ≫= f.
Proof.
  unfold peek, shardFor, omap_shards. cbn [sd_shards].
  change (shard_ix id (mkSharded _ _)) with (shard_ix id s). rewrite list_lookup_fmap.
  destruct (sd_shards s !! shard_ix id s) as [sh|]; simpl; [|by rewrite lookup_empty].
  apply lookup_omap.
Qed.

(** Every key is in its own shard. *)
Definition placed (s : Sharded A) : Prop :=
  ∀ i m id v, sd_shards s !! i = Some m → m !! id = Some v → i = shard_ix id s.

Lemma placed_new n : placed (new_sharded n).
Proof.
  intros i m id v Hm Hv. unfold new_sharded in Hm. cbn [sd_shards] in Hm.
  apply lookup_replicate in Hm as [-> _]. by rewrite lookup_empty in Hv.
Qed.

(** A write of the shard of [id] that adds no key but [id] keeps the placement. *)
Lemma placed_set id m s : placed s →
  (∀ id' v, m !! id' = Some v → id' = id ∨ is_Some (shardFor id s !! id')) → placed (set_shard id m s).
Proof.
  intros Hp Hm i m' id' v Hi Hv. unfold set_shard in Hi |- *. cbn [sd_shards] in Hi.
  change (shard_ix id' (mkSharded _ _)) with (shard_ix id' s).
  apply list_lookup_insert_Some in Hi as [(<- & -> & _)|[_ Hi]]; [|by eapply Hp].
  destruct (Hm id' v Hv) as [->|[w Hw]]; [done|]. unfold shardFor in Hw.
  destruct (sd_shards s !! shard_ix id s) as [m0|] eqn:E; simpl in Hw; [|by rewrite lookup_empty in Hw].
  by eapply Hp.
Qed.

Lemma placed_insert id v s : placed s → placed (set_shard id (<[id := v]> (shardFor id s)) s).
Proof.
  intros Hp. apply placed_set; [done|]. intros id' w [[<- _]|[_ ?]]%lookup_insert_Some; eauto.
Qed.

Lemma placed_delete id s : placed s → placed (set_shard id (delete id (shardFor id s)) s).
Proof. intros Hp. apply placed_set; [done|]. intros id' w [_ ?]%lookup_delete_Some; eauto. Qed.

Lemma placed_omap f s : placed s → placed (omap_shards f s).
Proof.
  intros Hp i m id v Hi Hv. unfold omap_shards in Hi. cbn [sd_shards] in Hi.
  apply list_lookup_fmap_Some in Hi as (m0 & -> & Hi). rewrite lookup_omap in Hv.
  apply bind_Some in Hv as (w & Hw & _). by eapply Hp.
Qed.

(** The values of all shards are the values of the container. *)
Lemma placed_values s v : placed s →
  v ∈ mjoin ((fun m => (map_to_list m).*2) <$> sd_shards s) → ∃ id, peek s id = Some v.
Proof.
  intros Hp. rewrite list_elem_of_join. intros (l & Hv & Hl).
  apply list_elem_of_fmap in Hl as (m & -> & Hm). apply list_elem_of_lookup in Hm as [i Hi].
  apply list_elem_of_fmap in Hv as ([id w] & -> & Hw%elem_of_map_to_list). exists id.
  unfold peek, shardFor. by rewrite <- (Hp i m id w Hi Hw), Hi.
Qed.
End sharded.

#[export] Hint Resolve shards_ok_set shards_ok_omap : go.

(** ** The HyperLogLog registers *)

(* [go] hll.go:18-24 Estimator *)
Record Estimator : Type := mkEstimator { regs : list Z; hll_p : Z }.

(* [go] hll.go:31-39 NewEstimator *)
Definition NewEstimator : Estimator := mkEstimator (replicate (Z.to_nat (Z.shiftl 1 14)) 0) 14.

(** [math/bits.LeadingZeros64]. *)
Definition LeadingZeros64 (w : Z) : Z := if w =? 0 then 64 else 63 - Z.log2 w.

(** The atomic maximum of a register: the compare-and-swap loop of the source
ends with the larger of the two values. *)
(* [go] hll.go:48-56 Estimator.Add *)
Definition reg_max (r cur : Z) : Z := if r <=? cur then cur else r.

(* [go] hll.go:43-46 Estimator.Add *)
Definition hll_index (p h : Z) : Z := Z.shiftr h (64 - p).

Definition hll_rank (p h : Z) : Z :=
  LeadingZeros64 (Z.lor (u64 (Z.shiftl h p)) (Z.shiftl 1 (p - 1))) + 1.

(* [go] hll.go:42-57 Estimator.Add *)
Definition Estimator_Add (hh : string → Z) (key : string) (e : Estimator) : Estimator :=
  let h := hh key in
  mkEstimator (alter (reg_max (hll_rank (hll_p e) h)) (Z.to_nat (hll_index (hll_p e) h)) (regs e)) (hll_p e).

(* [go] hll.go:80-90 Estimator.Merge *)
Definition Estimator_Merge (o e : Estimator) : Estimator :=
  mkEstimator (zip_with (fun r cur => reg_max r cur) (regs o) (regs e)) (hll_p e).

(** ** The device manager *)

(* [go] manager.go:33-36 device *)
Record device : Type := mkDevice { d_expiresAt : Z; d_sessionID : string }.

(* [go] manager.go:28-31 account *)
Record account : Type := mkAccount { a_limit : Z; a_devices : gmap string device }.

(* [go] manager.go:16-26 Manager *)
Record Manager : Type := mkManager { m_shards : Sharded account; m_hll : Estimator }.

(* [go] manager.go:49-64 New *)
Definition Manager_New (shardCount : Z) : Manager := mkManager (new_sharded shardCount) NewEstimator.

(* [go] manager.go:38-47 account.reapExpiredLocked *)
Definition reapExpiredLocked (nowNano : Z) (a : account) : account :=
  mkAccount (a_limit a) (filter (fun p => nowNano < d_expiresAt p.2) (a_devices a)).

Section manager.
Context (mh hh : string → Z).

(* [go] manager.go:77-101 Manager.Admit *)
Definition Admit (accountID deviceID : string) (limit nowNano expiresAtNano : Z) (newSessionID : string)
    (m : Manager) : Manager * (string * bool) :=
  let s := shardFor mh accountID (m_shards m) in
  let a := default (mkAccount limit ∅) (s !! accountID) in
  let a := reapExpiredLocked nowNano (mkAccount limit (a_devices a)) in
  let write ds := set_shard mh accountID (<[accountID := mkAccount limit ds]> s) (m_shards m) in
  match a_devices a !! deviceID with
  | Some d =>
      (mkManager (write (<[deviceID := mkDevice expiresAtNano (d_sessionID d)]> (a_devices a))) (m_hll m),
       (d_sessionID d, true))
  | None =>
      if a_limit a <=? Z.of_nat (size (a_devices a))
      then (mkManager (write (a_devices a)) (m_hll m), ("", false))
      else (mkManager (write (<[deviceID := mkDevice expiresAtNano newSessionID]> (a_devices a)))
              (Estimator_Add hh accountID (m_hll m)), (newSessionID, true))
  end.

(* [go] manager.go:105-119 Manager.Refresh *)
Definition Refresh (accountID deviceID : string) (expiresAtNano : Z) (m : Manager) : Manager * bool :=
  let s := shardFor mh accountID (m_shards m) in
  match s !! accountID with
  | None => (m, false)
  | Some a =>
      match a_devices a !! deviceID with
      | None => (m, false)
      | Some d =>
          let a' := mkAccount (a_limit a) (<[deviceID := mkDevice expiresAtNano (d_sessionID d)]> (a_devices a)) in
          (mkManager (set_shard mh accountID (<[accountID := a']> s) (m_shards m)) (m_hll m), true)
      end
  end.

(* [go] manager.go:122-132 Manager.Release *)
Definition Release (accountID deviceID : string) (m : Manager) : Manager :=
  let s := shardFor mh accountID (m_shards m) in
  match s !! accountID with
  | None => m
  | Some a =>
      let ds := delete deviceID (a_devices a) in
      let s' := if decide (size ds = 0%nat) then delete accountID s
                else <[accountID := mkAccount (a_limit a) ds]> s in
      mkManager (set_shard mh accountID s' (m_shards m)) (m_hll m)
  end.

(** One account in the sweep: its expired devices go, and the account with
them if none is left. *)
(* [go] manager.go:140-150 Manager.ReapExpired *)
Definition reap_account (nowNano : Z) (a : account) : option account :=
  let a' := reapExpiredLocked nowNano a in
  if decide (size (a_devices a') = 0%nat) then None else Some a'.

Definition reclaimed_in (nowNano : Z) (a : account) : Z :=
  Z.of_nat (size (a_devices a)) - Z.of_nat (size (a_devices (reapExpiredLocked nowNano a))).

(* [go] manager.go:134-154 Manager.ReapExpired *)
Definition ReapExpired (nowNano : Z) (m : Manager) : Manager * Z :=
  (mkManager (omap_shards (reap_account nowNano) (m_shards m)) (m_hll m),
   zsum (msum (reclaimed_in nowNano)) (sd_shards (m_shards m))).

(* [go] manager.go:157-165 Manager.CountFor *)
Definition CountFor (accountID : string) (m : Manager) : Z :=
  match shardFor mh accountID (m_shards m) !! accountID with
  | Some a => Z.of_nat (size (a_devices a))
  | None => 0
  end.

(** The devices of an account; none when the account is absent. *)
Definition devices_of (m : Manager) (a : string) : gmap string device :=
  match peek mh (m_shards m) a with Some acc => a_devices acc | None => ∅ end.

Definition manager_ok (m : Manager) : Prop := shards_ok (m_shards m).

(** ** Sequences of operations: the calls of all handlers and of the sweeper
in the order of their critical sections.  [MReapShard i] is the sweep of one
shard; the sweeper does one after the other and other calls come between. *)

Inductive mop : Type :=
| MAdmit (accountID deviceID : string) (limit nowNano expiresAtNano : Z) (sid : string)
| MRefresh (accountID deviceID : string) (expiresAtNano : Z)
| MRelease (accountID deviceID : string)
| MReapShard (i : nat) (nowNano : Z).

Definition mstep (m : Manager) (o : mop) : Manager :=
  match o with
  | MAdmit a d l now exp sid => (Admit a d l now exp sid m).1
  | MRefresh a d exp => (Refresh a d exp m).1
  | MRelease a d => Release a d m
  | MReapShard i now =>
      mkManager (mkSharded (alter (omap (M:=gmap string) (reap_account now)) i (sd_shards (m_shards m)))
        (sd_mask (m_shards m))) (m_hll m)
  end.

Definition mrun (ops : list mop) (m : Manager) : Manager := foldl mstep m ops.
End manager.

(** ** The manager as one map of device tables *)

(** The devices that have not expired at [now]. *)
Notation alive now ds := (filter (fun p => now < d_expiresAt p.2) ds).

Section laws.
Context (mh hh : string → Z) (mh_nonneg : ∀ id, 0 ≤ mh id).
Implicit Types m : Manager.

Lemma Manager_New_ok n : n < 2 ^ 63 → manager_ok (Manager_New n).
Proof. apply shards_ok_new. Qed.

Lemma devices_New n a : devices_of mh (Manager_New n) a = ∅.
Proof. unfold devices_of, Manager_New. cbn [m_shards]. by rewrite peek_new. Qed.

(** What [Admit] makes of the devices of its account. *)
Definition admitted (d : string) (limit now exp : Z) (sid : string) (ds : gmap string device)
    : gmap string device * (string * bool) :=
  match alive now ds !! d with
  | Some dev => (<[d := mkDevice exp (d_sessionID dev)]> (alive now ds), (d_sessionID dev, true))
  | None =>
      if Z.of_nat (size (alive now ds)) <? limit
      then (<[d := mkDevice exp sid]> (alive now ds), (sid, true))
      else (alive now ds, ("", false))
  end.

(** [Admit] on the sharded table is [admitted] on the devices of its account
and leaves the other accounts alone. *)
Lemma Admit_spec a d limit now exp sid m : manager_ok m →
  let '(m', r) := Admit mh hh a d limit now exp sid m in
  let '(ds, r') := admitted d limit now exp sid (devices_of mh m a) in
  r = r' ∧ manager_ok m' ∧
  ∀ a', devices_of mh m' a' = if decide (a = a') then ds else devices_of mh m a'.
Proof.
  intros Hok. unfold Admit, admitted, reapExpiredLocked. cbn [a_devices a_limit].
  assert (a_devices (default (mkAccount limit ∅) (shardFor mh a (m_shards m) !! a)) = devices_of mh m a) as ->.
  { unfold devices_of, peek. by destruct (_ !! a). }
  assert (∀ ds h, manager_ok (mkManager (set_shard mh a (<[a := mkAccount limit ds]>
      (shardFor mh a (m_shards m))) (m_shards m)) h) ∧
    ∀ a', devices_of mh (mkManager (set_shard mh a (<[a := mkAccount limit ds]>
      (shardFor mh a (m_shards m))) (m_shards m)) h) a' = if decide (a = a') then ds else devices_of mh m a') as Hw.
  { intros ds h. split; [by apply shards_ok_set|]. intros a'. unfold devices_of. cbn [m_shards].
    rewrite peek_insert by done. by case_decide. }
  destruct (_ !! d) as [dev|]; [split; [done|apply Hw]|].
  rewrite Z.ltb_antisym. destruct (limit <=? _); simpl; (split; [done|apply Hw]).
Qed.

Lemma Refresh_spec a d exp m : manager_ok m →
  let '(m', r) := Refresh mh a d exp m in
  r = bool_decide (is_Some (devices_of mh m a !! d)) ∧ manager_ok m' ∧
  ∀ a', devices_of mh m' a' =
    if decide (a = a') then alter (fun dev => mkDevice exp (d_sessionID dev)) d (devices_of mh m a)
    else devices_of mh m a'.
Proof.
  intros Hok. unfold Refresh.
  assert (Hds : devices_of mh m a =
    match shardFor mh a (m_shards m) !! a with Some acc => a_devices acc | None => ∅ end) by done.
  destruct (shardFor mh a (m_shards m) !! a) as [acc|] eqn:Ha; rewrite Hds.
  - destruct (a_devices acc !! d) as [dev|] eqn:Hd.
    + split_and!; [by rewrite bool_decide_true by eauto|by apply shards_ok_set|]. intros a'.
      unfold devices_of at 1. cbn [m_shards]. rewrite peek_insert by done. case_decide; [|done].
      cbn [a_devices]. symmetry. apply map_eq. intros d'. rewrite lookup_insert. case_decide; subst.
      * by rewrite lookup_alter_eq, Hd.
      * by rewrite lookup_alter_ne.
    + split_and!; [by rewrite bool_decide_false by (intros [? ?]; done)|done|]. intros a'.
      case_decide; [|done]. subst a'. rewrite Hds. symmetry. apply map_eq. intros d'.
      destruct (decide (d = d')) as [<-|]; [by rewrite lookup_alter_eq, Hd|by rewrite lookup_alter_ne].
  - split_and!; [by rewrite lookup_empty, bool_decide_false by (intros [? ?]; done)|done|]. intros a'.
    case_decide; [|done]. subst a'. rewrite Hds. symmetry. apply map_eq. intros d'.
    destruct (decide (d = d')) as [<-|]; [by rewrite lookup_alter_eq, lookup_empty|by rewrite lookup_alter_ne].
Qed.

Lemma Release_spec a d m : manager_ok m →
  manager_ok (Release mh a d m) ∧
  ∀ a', devices_of mh (Release mh a d m) a' =
    if decide (a = a') then delete d (devices_of mh m a) else devices_of mh m a'.
Proof.
  intros Hok. unfold Release.
  assert (Hds : devices_of mh m a =
    match shardFor mh a (m_shards m) !! a with Some acc => a_devices acc | None => ∅ end) by done.
  destruct (shardFor mh a (m_shards m) !! a) as [acc|] eqn:Ha; rewrite Hds.
  - split; [by apply shards_ok_set|]. intros a'. unfold devices_of at 1. cbn [m_shards].
    destruct (decide (size _ = _)) as [Hsz|Hsz].
    + rewrite peek_delete by done. case_decide; [|done]. apply map_size_empty_inv in Hsz. done.
    + rewrite peek_insert by done. by case_decide.
  - split; [done|]. intros a'. case_decide; [|done]. subst a'. rewrite Hds. by rewrite delete_empty.
Qed.

Lemma reap_account_devices now (o : option account) :
  match o ≫= reap_account now with Some acc => a_devices acc | None => ∅ end =
  alive now (match o with Some acc => a_devices acc | None => ∅ end).
Proof.
  destruct o as [acc|]; simpl; [|by rewrite map_filter_empty].
  unfold reap_account. case_decide as Hsz; [|done].
  apply map_size_empty_inv in Hsz. by rewrite <- Hsz.
Qed.

Lemma ReapExpired_spec now m : manager_ok m →
  manager_ok (ReapExpired now m).1 ∧
  ∀ a, devices_of mh (ReapExpired now m).1 a = alive now (devices_of mh m a).
Proof.
  intros Hok. unfold ReapExpired. simpl. split; [by apply shards_ok_omap|]. intros a.
  unfold devices_of. cbn [m_shards]. rewrite peek_omap. apply reap_account_devices.
Qed.

Lemma ReapShard_spec i now m : manager_ok m →
  manager_ok (mstep mh hh m (MReapShard i now)) ∧
  ∀ a, devices_of mh (mstep mh hh m (MReapShard i now)) a =
    if decide (i = shard_ix mh a (m_shards m)) then alive now (devices_of mh m a) else devices_of mh m a.
Proof.
  intros Hok. split.
  { unfold manager_ok, shards_ok, mstep. cbn [m_shards sd_shards sd_mask]. by rewrite length_alter. }
  intros a. unfold devices_of, mstep, peek, shardFor. cbn [m_shards sd_shards sd_mask].
  change (shard_ix mh a (mkSharded _ _)) with (shard_ix mh a (m_shards m)). case_decide as Hi.
  - subst i. rewrite list_lookup_alter_eq, <- reap_account_devices.
    destruct (sd_shards (m_shards m) !! _) as [sh|]; simpl; [by rewrite lookup_omap|by rewrite lookup_empty].
  - by rewrite list_lookup_alter_ne.
Qed.
End laws.

(** ** The device limit *)

Section limit.
Context (mh hh : string → Z) (mh_nonneg : ∀ id, 0 ≤ mh id).

(** The operation admits devices of [a] under a limit of at most [L]. *)
Definition within_limit (a : string) (L : Z) (o : mop) : Prop :=
  match o with MAdmit a' _ l _ _ _ => a' = a → l ≤ L | _ => True end.

Lemma size_filter_le {A} (P : string * A → Prop) `{!∀ x, Decision (P x)} (ds : gmap string A) :
  (size (filter P ds) ≤ size ds)%nat.
Proof. apply map_subseteq_size. apply map_filter_subseteq. Qed.

Lemma admitted_size d l now exp sid ds L : l ≤ L → Z.of_nat (size ds) ≤ L →
  Z.of_nat (size (admitted d l now exp sid ds).1) ≤ L.
Proof.
  intros Hl Hds. pose proof (size_filter_le (fun p => now < d_expiresAt p.2) ds). unfold admitted.
  destruct (alive now ds !! d) as [dev|] eqn:Hd; simpl.
  - rewrite map_size_insert_Some by eauto. lia.
  - case_test; simpl; [|lia]. rewrite map_size_insert_None by done. zbool. lia.
Qed.

Lemma mstep_ok m o : manager_ok m → manager_ok (mstep mh hh m o).
Proof.
  intros Hok. destruct o as [a d l now exp sid|a d exp|a d|i now]; simpl.
  - pose proof (Admit_spec mh hh mh_nonneg a d l now exp sid m Hok).
    destruct (Admit _ _ _ _ _ _ _ _ m), (admitted _ _ _ _ _ _). tauto.
  - pose proof (Refresh_spec mh mh_nonneg a d exp m Hok). destruct (Refresh _ _ _ _ m). tauto.
  - by apply Release_spec.
  - by apply (ReapShard_spec mh hh i now m).
Qed.

Lemma mstep_size m o a L : manager_ok m → within_limit a L o →
  Z.of_nat (size (devices_of mh m a)) ≤ L → Z.of_nat (size (devices_of mh (mstep mh hh m o) a)) ≤ L.
Proof.
  intros Hok Hw HL. destruct o as [a' d l now exp sid|a' d exp|a' d|i now]; cbn [mstep].
  - pose proof (Admit_spec mh hh mh_nonneg a' d l now exp sid m Hok) as Hs.
    destruct (Admit _ _ _ _ _ _ _ _ m) as [m' r], (admitted _ _ _ _ _ _) as [ds r'] eqn:Ea.
    destruct Hs as (_ & _ & Hds). cbn [fst]. rewrite Hds. case_decide; [subst a'|done].
    change ds with (ds, r').1. rewrite <- Ea. apply admitted_size; [by apply Hw|done].
  - pose proof (Refresh_spec mh mh_nonneg a' d exp m Hok) as Hs.
    destruct (Refresh _ _ _ _ m) as [m' r]. destruct Hs as (_ & _ & Hds). cbn [fst]. rewrite Hds.
    case_decide; [subst a'|done]. by rewrite <- (size_dom (alter _ _ _)), dom_alter_L, size_dom.
  - destruct (Release_spec mh mh_nonneg a' d m Hok) as [_ ->]. case_decide; [subst a'|done].
    pose proof (map_subseteq_size _ _ (delete_subseteq (devices_of mh m a) d)). lia.
  - destruct (ReapShard_spec mh hh i now m Hok) as [_ ->]. case_decide; [|done].
    pose proof (size_filter_le (fun p => now < d_expiresAt p.2) (devices_of mh m a)). lia.
Qed.

Lemma mrun_size ops m a L : manager_ok m → Forall (within_limit a L) ops →
  Z.of_nat (size (devices_of mh m a)) ≤ L →
  manager_ok (mrun mh hh ops m) ∧ Z.of_nat (size (devices_of mh (mrun mh hh ops m) a)) ≤ L.
Proof.
  revert m. induction ops as [|o ops IH]; intros m Hok Hall HL; [done|].
  apply Forall_cons in Hall as [Ho Hall]. apply (IH (mstep mh hh m o)); [by apply mstep_ok|done|by apply mstep_size].
Qed.

Lemma CountFor_devices m a : CountFor mh a m = Z.of_nat (size (devices_of mh m a)).
Proof. unfold CountFor, devices_of, peek. destruct (_ !! a); [done|]. by rewrite map_size_empty. Qed.

(** The device limit is exact.  Whatever the handlers and the sweeper do
and in whatever order their critical sections come, an account whose tokens
never allow more than [L] devices never has more than [L] in the table; and in
every such state an admission answers by the live devices of the account: a
live device keeps its session, a new one is admitted under the new session id
exactly when fewer than the limit are live, and a refusal admits nobody. *)
Theorem Admit_limit_exact (n : Z) (ops : list mop) (a : string) (L : Z)
    (d : string) (limit now exp : Z) (sid : string) :
  n < 2 ^ 63 → 0 ≤ L → Forall (within_limit a L) ops →
  let m := mrun mh hh ops (Manager_New n) in
  let live := alive now (devices_of mh m a) in
  let '(m', (sid', ok)) := Admit mh hh a d limit now exp sid m in
  CountFor mh a m ≤ L ∧
  (∀ a', a' ≠ a → devices_of mh m' a' = devices_of mh m a') ∧
  match live !! d with
  | Some dev => ok = true ∧ sid' = d_sessionID dev ∧
      devices_of mh m' a = <[d := mkDevice exp (d_sessionID dev)]> live
  | None =>
      ok = (Z.of_nat (size live) <? limit) ∧ sid' = (if ok then sid else "") ∧
      devices_of mh m' a = if ok then <[d := mkDevice exp sid]> live else live
  end.
Proof.
  intros Hn HL Hall m live.
  destruct (mrun_size ops (Manager_New n) a L (Manager_New_ok n Hn) Hall) as [Hok Hsz].
  { rewrite devices_New, map_size_empty. lia. }
  fold m in Hok, Hsz. pose proof (Admit_spec mh hh mh_nonneg a d limit now exp sid m Hok) as Hs.
  destruct (Admit mh hh a d limit now exp sid m) as [m' [sid' ok]]. unfold admitted in Hs. fold live in Hs.
  destruct (live !! d) as [dev|]; [|destruct (Z.of_nat (size live) <? limit)];
    destruct Hs as (Hr & _ & Hds); simplify_eq; (split; [by rewrite CountFor_devices|]);
    (split; [intros a' Ha'; rewrite Hds; by rewrite decide_False by done|]);
    rewrite Hds, decide_True by done; done.
Qed.
End limit.

(** ** Mergeability of the sketch *)

Section hll.
Context (hh : string → Z).

Lemma reg_max_max r c : reg_max r c = Z.max r c.
Proof. unfold reg_max. case_test; zbool; lia. Qed.

Definition hll_of (keys : list string) (e : Estimator) : Estimator := foldl (fun e k => Estimator_Add hh k e) e keys.

(** The register [i] after [keys]: the largest rank of the keys of [i]. *)
Definition reg_after (p : Z) (i : nat) (keys : list string) (r : Z) : Z :=
  foldl (fun r k => if decide (Z.to_nat (hll_index p (hh k)) = i) then reg_max (hll_rank p (hh k)) r else r) r keys.

Lemma hll_of_spec keys e : hll_p (hll_of keys e) = hll_p e ∧
  ∀ i, regs (hll_of keys e) !! i = reg_after (hll_p e) i keys <$> regs e !! i.
Proof.
  revert e. induction keys as [|k keys IH]; intros e; [split; [done|]; intros i; cbn; by destruct (regs e !! i)|].
  destruct (IH (Estimator_Add hh k e)) as [Hp Hr]. split; [done|]. intros i. etransitivity; [apply Hr|].
  unfold Estimator_Add. cbn [regs hll_p].
  destruct (decide (Z.to_nat (hll_index (hll_p e) (hh k)) = i)) as [<-|Hi].
  - rewrite list_lookup_alter_eq. destruct (regs e !! _); [|done]. cbn. by rewrite decide_True.
  - rewrite list_lookup_alter_ne by done. destruct (regs e !! i); [|done]. cbn. by rewrite decide_False.
Qed.

Lemma reg_after_max p i keys r s : reg_after p i keys (Z.max r s) = Z.max (reg_after p i keys r) s.
Proof.
  revert r. induction keys as [|k keys IH]; intros r; [done|]. cbn. case_decide; [|apply IH].
  rewrite !reg_max_max, Z.max_assoc. apply IH.
Qed.

Lemma reg_after_0 p i keys r : 0 ≤ r → reg_after p i keys r = Z.max (reg_after p i keys 0) r.
Proof. intros Hr. rewrite <- reg_after_max. by rewrite Z.max_r by lia. Qed.

Lemma reg_after_ge p i keys r : r ≤ reg_after p i keys r.
Proof.
  revert r. induction keys as [|k keys IH]; intros r; [done|]. cbn. case_decide; [|done].
  etransitivity; [|apply IH]. rewrite reg_max_max. lia.
Qed.

Lemma reg_after_app p i k1 k2 r : reg_after p i (k1 ++ k2) r = reg_after p i k2 (reg_after p i k1 r).
Proof. apply foldl_app. Qed.

(** A key that was folded in has a rank below its register. *)
Lemma reg_after_in p k keys r : k ∈ keys →
  hll_rank p (hh k) ≤ reg_after p (Z.to_nat (hll_index p (hh k))) keys r.
Proof.
  revert r. induction keys as [|k' keys IH]; intros r; [by intros ?%elem_of_nil|].
  intros [<-|Hk]%elem_of_cons; cbn; [|by apply IH]. rewrite decide_True by done.
  etransitivity; [|apply reg_after_ge]. rewrite reg_max_max. lia.
Qed.

Lemma regs_New i r : regs NewEstimator !! i = Some r → r = 0.
Proof. unfold NewEstimator. cbn [regs]. by intros [-> _]%lookup_replicate. Qed.

Lemma estimator_eq e e' : hll_p e = hll_p e' → (∀ i, regs e !! i = regs e' !! i) → e = e'.
Proof. destruct e, e'. simpl. intros -> H%list_eq. by subst. Qed.

(** Sketches merge exactly: merging the registers of two nodes gives the
registers of one node that saw the keys of both, whatever the order, and
adding a key again changes nothing. *)
Theorem Estimator_mergeable (k1 k2 : list string) (k : string) :
  Estimator_Merge (hll_of k1 NewEstimator) (hll_of k2 NewEstimator) = hll_of (k1 ++ k2) NewEstimator ∧
  hll_of (k1 ++ k2) NewEstimator = hll_of (k2 ++ k1) NewEstimator ∧
  Estimator_Add hh k (hll_of (k :: k1) NewEstimator) = hll_of (k :: k1) NewEstimator.
Proof.
  assert (∀ l1 l2 i, reg_after 14 i (l1 ++ l2) 0 = Z.max (reg_after 14 i l1 0) (reg_after 14 i l2 0)) as Happ.
  { intros l1 l2 i. rewrite reg_after_app, reg_after_0 by apply reg_after_ge. lia. }
  split_and!.
  - apply estimator_eq; [cbn [Estimator_Merge hll_p]; by rewrite !(proj1 (hll_of_spec _ _))|].
    intros i. cbn [Estimator_Merge regs]. rewrite lookup_zip_with, !(proj2 (hll_of_spec _ _)).
    destruct (regs NewEstimator !! i) as [r|] eqn:Er; [|done]. apply regs_New in Er as ->. simpl.
    by rewrite reg_max_max, Happ.
  - apply estimator_eq; [by rewrite !(proj1 (hll_of_spec _ _))|]. intros i.
    rewrite !(proj2 (hll_of_spec _ _)).
    destruct (regs NewEstimator !! i) as [r|] eqn:Er; [|done]. apply regs_New in Er as ->. simpl.
    by rewrite !Happ, Z.max_comm.
  - apply estimator_eq; [done|]. intros i. unfold Estimator_Add. cbn [regs].
    rewrite (proj1 (hll_of_spec _ _)). set (j := Z.to_nat _).
    destruct (decide (j = i)) as [<-|]; [|by rewrite list_lookup_alter_ne].
    rewrite list_lookup_alter_eq, (proj2 (hll_of_spec _ _)).
    destruct (regs NewEstimator !! j) as [r|]; [|done]. cbn [fmap option_fmap option_map]. f_equal.
    rewrite reg_max_max. apply Z.max_r. apply reg_after_in. left.
Qed.
End hll.

(** ** Witnesses *)

Definition demo_hash (id : string) : Z := fnv32a id * 4294967291.

Definition demo_mops : list mop :=
  [MAdmit "acc" "tv" 2 0 30 "s1"; MAdmit "acc" "phone" 2 1 31 "s2"; MAdmit "acc" "tab" 2 2 32 "s3";
   MRefresh "acc" "tv" 60; MReapShard 0 35].

Lemma Admit_limit_exact_witness :
  let m := mrun demo_hash demo_hash demo_mops (Manager_New 1) in
  CountFor demo_hash "acc" m ≤ 2 ∧ (Admit demo_hash demo_hash "acc" "tab" 2 40 70 "s4" m).2 = ("s4", true).
Proof.
  cbv zeta. split; [|by vm_compute].
  assert (∀ id, 0 ≤ demo_hash id) as Hnn.
  { intros id. unfold demo_hash. pose proof (fnv32a_range id). lia. }
  pose proof (Admit_limit_exact demo_hash demo_hash Hnn 1 demo_mops "acc" 2 "tab" 2 40 70 "s4"
    ltac:(lia) ltac:(lia) ltac:(repeat (apply Forall_cons_2; [simpl; intros; first [lia|done]|]); apply Forall_nil_2)) as H. cbv zeta in H.
  destruct (Admit _ _ _ _ _ _ _ _ _) as [m' [sid ok]]. exact (proj1 H).
Defined.
