(* ===== verification/Token.v ===== *)
(** * livescale-control-plane/internal/token: signed playback tokens

[Sign] and [Verify] on the dot-joined token.  HMAC-SHA256 is the function
[mac] from a key and a payload to the bytes of the digest; its hexadecimal
rendering is modelled. *)

From Stdlib Require Import ZArith Lia Ascii.
From stdpp Require Import base strings list.
From S2P Require Import Prelude GoStrings.

Open Scope Z_scope.

(* [base] livescale-control-plane/internal/token *)

(* [go] token.go:16-20 ErrMalformed *)
Inductive token_error : Type := ErrMalformed | ErrBadSig | ErrExpired.

(* [go] token.go:22-28 Claims *)
Record Claims : Type := mkClaims { AccountID : string; DeviceLimit : Z; Exp : Z; AssetScope : string }.

(* [go] token.go:32-32 sep *)
Definition sep : ascii := "."%char.

(** [hex.EncodeToString]. *)
Definition hex_digit (n : N) : ascii :=
  ascii_of_N (if (n <? 10)%N then 48 + n else 87 + n).

Fixpoint hex (s : string) : string :=
  match s with
  | EmptyString => ""
  | String a s' => String (hex_digit (N_of_ascii a / 16)) (String (hex_digit (N_of_ascii a mod 16)) (hex s'))
  end.

Section token.
Context (mac : string → string → string).

(* [go] token.go:83-87 sign *)
Definition sign (key payload : string) : string := hex (mac key payload).

(* [go] token.go:37-42 Sign *)
Definition token_payload (c : Claims) : string :=
  join sep [AccountID c; Itoa (DeviceLimit c); Itoa (Exp c); AssetScope c].

(* [go] token.go:34-44 Sign *)
Definition Sign (key : string) (c : Claims) : string :=
  token_payload c +:+ String sep (sign key (token_payload c)).

(** The fields of a payload whose signature matched. *)
(* [go] token.go:61-80 Verify *)
Definition parse_claims (payload : string) (now : Z) : result token_error Claims :=
  match split sep payload with
  | [acc; lim; ex; scope] =>
      match ParseInt lim with
      | None => Err ErrMalformed
      | Some limit =>
          match ParseInt ex with
          | None => Err ErrMalformed
          | Some exp =>
              if String.eqb acc "" || (limit <? 1) then Err ErrMalformed
              else if exp <=? now then Err ErrExpired
              else Ok (mkClaims acc limit exp scope)
          end
      end
  | _ => Err ErrMalformed
  end.

(* [go] token.go:46-81 Verify *)
Definition Verify (key tok : string) (now : Z) : result token_error Claims :=
  match last_index sep tok with
  | None => Err ErrMalformed
  | Some i =>
      if Nat.eqb i 0 || Nat.eqb i (String.length tok - 1) then Err ErrMalformed
      else
        let payload := slice_to i tok in
        let gotSig := slice_from (S i) tok in
        if negb (String.eqb gotSig (sign key payload)) then Err ErrBadSig
        else parse_claims payload now
  end.

(** ** Lemmas *)

Lemma hex_digit_not_sep n : (n < 16)%N → hex_digit n ≠ sep.
Proof.
  intros Hn. by assert (n = 0 ∨ n = 1 ∨ n = 2 ∨ n = 3 ∨ n = 4 ∨ n = 5 ∨ n = 6 ∨ n = 7 ∨ n = 8 ∨ n = 9 ∨
    n = 10 ∨ n = 11 ∨ n = 12 ∨ n = 13 ∨ n = 14 ∨ n = 15)%N
    as [->|[->|[->|[->|[->|[->|[->|[->|[->|[->|[->|[->|[->|[->|[->| ->]]]]]]]]]]]]]]] by lia.
Qed.

Lemma hex_lacks s : lacks sep (hex s).
Proof.
  induction s as [|a s IH]; [done|]. cbn [hex].
  pose proof (N_ascii_bounded a) as Hb.
  apply lacks_cons. split; [apply hex_digit_not_sep; apply N.Div0.div_lt_upper_bound; lia|].
  apply lacks_cons. split; [apply hex_digit_not_sep; apply N.mod_lt; lia|done].
Qed.

(** What [Verify] does with a token cut at its last separator. *)
Lemma Verify_cut key payload sig now : lacks sep sig →
  Verify key (payload +:+ String sep sig) now =
    if String.eqb payload "" || String.eqb sig "" then Err ErrMalformed
    else if String.eqb sig (sign key payload) then parse_claims payload now else Err ErrBadSig.
Proof.
  intros Hs. unfold Verify. rewrite last_index_app by done.
  assert (∀ x y : string, String.length (x +:+ y) = (String.length x + String.length y)%nat) as Hlen.
  { intros x y. induction x as [|c x IH]; [done|]. rewrite str_app_cons. simpl. by rewrite IH. }
  rewrite Hlen, slice_to_app.
  assert (slice_from (S (String.length payload)) (payload +:+ String sep sig) = sig) as ->.
  { assert (payload +:+ String sep sig = (payload +:+ String sep "") +:+ sig) as -> by (by rewrite str_app_assoc).
    replace (S (String.length payload)) with (String.length (payload +:+ String sep "")) by (rewrite Hlen; simpl; lia).
    apply slice_from_app. }
  assert (Nat.eqb (String.length payload) 0 = String.eqb payload "") as -> by (by destruct payload).
  assert (Nat.eqb (String.length payload) (String.length payload + String.length (String sep sig) - 1) =
    String.eqb sig "") as ->.
  { destruct sig as [|a sig]; simpl; [apply Nat.eqb_eq; lia|]. apply Nat.eqb_neq. lia. }
  destruct (String.eqb payload "" || String.eqb sig ""); [done|]. by destruct (String.eqb sig (sign key payload)).
Qed.

Lemma split_payload c : lacks sep (AccountID c) → lacks sep (AssetScope c) →
  split sep (token_payload c) = [AccountID c; Itoa (DeviceLimit c); Itoa (Exp c); AssetScope c].
Proof.
  intros Ha Hs. unfold token_payload. rewrite !join_cons by done. cbn [join].
  rewrite !split_app, Ha, Hs, !(Itoa_lacks sep) by done. done.
Qed.

Hypothesis mac_nonempty : ∀ key payload, mac key payload ≠ "".

Lemma sign_nonempty key payload : sign key payload ≠ "".
Proof. unfold sign. pose proof (mac_nonempty key payload). by destruct (mac key payload). Qed.

(** C40: Tokens are sound and round trip.  A token that [Verify] accepts is a
payload followed by the signature of that very payload under the key, its
claims are the four fields of the payload, with an account, a limit of at
least one and an expiry in the future; and the token [Sign] makes from claims
without dots in their text verifies back to those claims until they expire. *)
Theorem Verify_correct (key tok : string) (now : Z) (c : Claims) :
  (Verify key tok now = Ok c → ∃ payload lim ex,
     tok = payload +:+ String sep (sign key payload) ∧
     split sep payload = [AccountID c; lim; ex; AssetScope c] ∧
     ParseInt lim = Some (DeviceLimit c) ∧ ParseInt ex = Some (Exp c) ∧
     AccountID c ≠ "" ∧ 1 ≤ DeviceLimit c ∧ now < Exp c) ∧
  (in_i64 (DeviceLimit c) → in_i64 (Exp c) → lacks sep (AccountID c) → lacks sep (AssetScope c) →
   AccountID c ≠ "" → 1 ≤ DeviceLimit c →
     Verify key (Sign key c) now = if Exp c <=? now then Err ErrExpired else Ok c).
Proof.
  split.
  - destruct (last_index sep tok) as [i|] eqn:Ei; [|unfold Verify; by rewrite Ei].
    apply last_index_Some in Ei as (payload & sig & -> & _ & Hsig). rewrite Verify_cut by done.
    destruct (String.eqb payload "" || String.eqb sig ""); [done|].
    destruct (String.eqb sig (sign key payload)) eqn:E; [|done]. zbool. subst sig. unfold parse_claims.
    destruct (split sep payload) as [|acc [|lim [|ex [|scope []]]]] eqn:Ep; try done.
    destruct (ParseInt lim) as [limit|] eqn:El; [|done]. destruct (ParseInt ex) as [exp|] eqn:Ex; [|done].
    destruct (String.eqb acc "" || (limit <? 1)) eqn:Eb; [done|]. destruct (exp <=? now) eqn:En; [done|].
    intros [= <-]. zbool. exists payload, lim, ex. simpl. split_and!; done || lia.
  - intros Hl He Ha Hs Hacc Hlim. unfold Sign. rewrite Verify_cut by apply hex_lacks.
    assert (String.eqb (token_payload c) "" = false) as ->.
    { apply String.eqb_neq. unfold token_payload. rewrite join_cons by done. by destruct (AccountID c). }
    rewrite (proj2 (String.eqb_neq _ _) (sign_nonempty key (token_payload c))), String.eqb_refl. simpl.
    unfold parse_claims. rewrite split_payload, !ParseInt_Itoa by done.
    rewrite (proj2 (String.eqb_neq _ _) Hacc), (proj2 (Z.ltb_ge _ _) Hlim). simpl. by destruct c.
Qed.
End token.

(** ** Witness *)

Definition demo_mac (key payload : string) : string := String "#" (key +:+ payload).

Lemma Verify_correct_witness :
  Verify demo_mac "k" (Sign demo_mac "k" (mkClaims "acc" 3 100 "match")) 99 = Ok (mkClaims "acc" 3 100 "match") ∧
  (∃ payload lim ex, Sign demo_mac "k" (mkClaims "acc" 3 100 "match") =
     payload +:+ String sep (sign demo_mac "k" payload) ∧ split sep payload = ["acc"; lim; ex; "match"]).
Proof.
  destruct (Verify_correct demo_mac ltac:(done) "k" (Sign demo_mac "k" (mkClaims "acc" 3 100 "match")) 99
    (mkClaims "acc" 3 100 "match")) as [H1 H2].
  split; [by apply H2|]. destruct H1 as (p & l & e & Hp & Hsp & _); [by vm_compute|]. by exists p, l, e.
Defined.

(** A dot in the asset scope makes a signed token that never verifies. *)
Lemma Sign_dotted_scope_rejected :
  Verify demo_mac "k" (Sign demo_mac "k" (mkClaims "acc" 3 100 "cup.final")) 99 = Err ErrMalformed.
Proof. by vm_compute. Qed.
