(* ===== verification/Playback.v ===== *)
(** * livescale-control-plane: sessions, handlers, sweeper and admission

The sharded session store, the handlers of [httpx] over the device manager and
the store, the token check in front of them, the sweeper of [cmd/livescale],
and the in-flight limiter.  A handler is one step here; the two places where
the code releases the locks in the middle and that matters are stated on the
parts of the handlers.  The metrics counters and the JSON encoding are left
out: a request carries its decoded body ([None] when decoding failed). *)

From Stdlib Require Import ZArith Lia.
From stdpp Require Import base gmap strings fin_maps fin_sets relations list.
From S2P Require Import Prelude GoStrings Devices Token.

Open Scope Z_scope.

(* [base] livescale-control-plane/internal/session *)

(** ** The session store *)

(* [go] store.go:13-18 Session *)
Record Session : Type := mkSession {
  s_AccountID : string; s_DeviceID : string; s_AssetID : string; s_ExpiresAt : Z }.

#[global] Instance Session_eq_dec : EqDecision Session.
Proof. solve_decision. Defined.

(* [go] memory.go:8-19 Memory *)
Definition Memory : Type := Sharded Session.

(* [go] memory.go:21-35 NewMemory *)
Definition NewMemory (shardCount : Z) : Memory := new_sharded shardCount.

Section store.
Context (sh : string → Z).

(* [go] memory.go:41-46 Memory.Put *)
Definition Put (sessionID : string) (sess : Session) (s : Memory) : Memory :=
  set_shard sh sessionID (<[sessionID := sess]> (shardFor sh sessionID s)) s.

(* [go] memory.go:48-59 Memory.Extend *)
Definition Extend (sessionID : string) (newExpiry : Z) (s : Memory) : Memory * option Session :=
  match shardFor sh sessionID s !! sessionID with
  | None => (s, None)
  | Some sess =>
      let sess' := mkSession (s_AccountID sess) (s_DeviceID sess) (s_AssetID sess) newExpiry in
      (Put sessionID sess' s, Some sess')
  end.

(* [go] memory.go:61-70 Memory.Get *)
Definition Get (sessionID : string) (nowNano : Z) (s : Memory) : option Session :=
  match shardFor sh sessionID s !! sessionID with
  | Some sess => if s_ExpiresAt sess <=? nowNano then None else Some sess
  | None => None
  end.

(* [go] memory.go:72-81 Memory.Delete *)
Definition Delete (sessionID : string) (s : Memory) : Memory * option Session :=
  match shardFor sh sessionID s !! sessionID with
  | Some sess => (set_shard sh sessionID (delete sessionID (shardFor sh sessionID s)) s, Some sess)
  | None => (s, None)
  end.

(** What the sweep of the store removes and keeps; the expired sessions are
returned in the order of the map iteration, which Go leaves open. *)
(* [go] memory.go:86-97 Memory.ReapExpired *)
Definition expired_sessions (nowNano : Z) (s : Memory) : list Session :=
  filter (fun x => s_ExpiresAt x ≤ nowNano) (mjoin ((fun m => (map_to_list m).*2) <$> sd_shards s)).

(* [go] memory.go:85-98 Memory.ReapExpired *)
Definition store_ReapExpired (nowNano : Z) (s : Memory) : Memory :=
  omap_shards (fun x => if s_ExpiresAt x <=? nowNano then None else Some x) s.
End store.

(* [base] livescale-control-plane/internal/httpx *)

(** ** The handlers *)

(** The parts of [Server] with state, and of the configuration the session TTL. *)
(* [go] handlers.go:18-25 Server *)
Record Server : Type := mkServer { sv_mgr : Manager; sv_store : Memory }.

(* [go] handlers.go:27-35 NewServer *)
Definition NewServer (shardCount : Z) : Server := mkServer (Manager_New shardCount) (NewMemory shardCount).

(* [go] handlers.go:49-56 authorizeReq *)
Record authorizeReq : Type := mkAuthorizeReq { AssetID : string; DeviceID : string }.

Inductive response : Type :=
| BadRequest | DeviceLimitReached | SessionExpired | NoToken | Unauthorized
| Authorized (sessionID : string) | BeatOK | StopOK.

Section server.
Context (mh hh sh : string → Z) (mac : string → string → string) (hmacKey : string) (ttl : Z).

(** [cand] is the id that [newID] draws. *)
(* [go] handlers.go:58-81 Server.authorize *)
Definition authorize (req : option authorizeReq) (c : Claims) (now : Z) (cand : string) (sv : Server)
    : Server * response :=
  match req with
  | None => (sv, BadRequest)
  | Some r =>
      if String.eqb (DeviceID r) "" then (sv, BadRequest)
      else
        let exp := now + ttl in
        let '(mgr, (sid, ok)) := Admit mh hh (AccountID c) (DeviceID r) (DeviceLimit c) now exp cand (sv_mgr sv) in
        if negb ok then (mkServer mgr (sv_store sv), DeviceLimitReached)
        else
          let sess := mkSession (AccountID c) (DeviceID r) (AssetID r) exp in
          let store := if String.eqb sid cand then Put sh sid sess (sv_store sv)
                       else (Extend sh sid exp (sv_store sv)).1 in
          (mkServer mgr store, Authorized sid)
  end.

(* [go] handlers.go:87-104 Server.heartbeat *)
Definition heartbeat (req : option string) (c : Claims) (now : Z) (sv : Server) : Server * response :=
  match req with
  | None => (sv, BadRequest)
  | Some sid =>
      if String.eqb sid "" then (sv, BadRequest)
      else match Get sh sid now (sv_store sv) with
           | None => (sv, SessionExpired)
           | Some sess =>
               if negb (String.eqb (s_AccountID sess) (AccountID c)) then (sv, SessionExpired)
               else
                 let exp := now + ttl in
                 let store := (Extend sh sid exp (sv_store sv)).1 in
                 let mgr := (Refresh mh (AccountID c) (s_DeviceID sess) exp (sv_mgr sv)).1 in
                 (mkServer mgr store, BeatOK)
           end
  end.

(* [go] handlers.go:106-116 Server.stop *)
Definition stop (req : option string) (c : Claims) (sv : Server) : Server * response :=
  match req with
  | None => (sv, BadRequest)
  | Some sid =>
      if String.eqb sid "" then (sv, BadRequest)
      else
        let '(store, del) := Delete sh sid (sv_store sv) in
        let mgr := match del with
                   | Some sess =>
                       if String.eqb (s_AccountID sess) (AccountID c)
                       then Release mh (AccountID c) (s_DeviceID sess) (sv_mgr sv) else sv_mgr sv
                   | None => sv_mgr sv
                   end in
        (mkServer mgr store, StopOK)
  end.

(** The routes behind [authed], with their decoded bodies. *)
(* [go] handlers.go:38-43 Server.Handler *)
Inductive call : Type :=
| CAuthorize (req : option authorizeReq)
| CHeartbeat (req : option string)
| CStop (req : option string).

(* [go] middleware.go:86-91 bearer *)
Definition bearer (authorization playbackToken : string) : string :=
  if Nat.ltb 7 (String.length authorization) && String.eqb (slice_to 7 authorization) "Bearer "
  then slice_from 7 authorization else playbackToken.

Record Request : Type := mkRequest { rq_Authorization : string; rq_Token : string; rq_call : call }.

(** The route a verified request takes. *)
Definition dispatch (rq : call) (c : Claims) (now : Z) (cand : string) (sv : Server) : Server * response :=
  match rq with
  | CAuthorize req => authorize req c now cand sv
  | CHeartbeat req => heartbeat req c now sv
  | CStop req => stop req c sv
  end.

(** [tsec] is the clock of the token check in seconds, [now] the clock of the
handler in nanoseconds. *)
(* [go] middleware.go:70-84 Admission.authed *)
Definition serve (rq : Request) (tsec now : Z) (cand : string) (sv : Server) : Server * response :=
  let tok := bearer (rq_Authorization rq) (rq_Token rq) in
  if String.eqb tok "" then (sv, NoToken)
  else match Verify mac hmacKey tok tsec with
       | Err _ => (sv, Unauthorized)
       | Ok c => dispatch (rq_call rq) c now cand sv
       end.

(* [base] livescale-control-plane/cmd/livescale *)

(** One tick of the sweeper; [order] is the order in which the store's sweep
returned the expired sessions. *)
(* [go] main.go:76-85 sweep *)
Definition sweep (now : Z) (order : list Session) (sv : Server) : Server :=
  let store := store_ReapExpired now (sv_store sv) in
  let mgr := foldl (fun m s => Release mh (s_AccountID s) (s_DeviceID s) m) (sv_mgr sv) order in
  mkServer (ReapExpired now mgr).1 store.

(** ** Reachable states of the service

The clock does not go back, ids drawn are new, and [L] bounds the limit that
the valid tokens of each account carry.  [settled] says of an authorization
that no expired session of its device waits for the sweeper. *)

Definition settled (rq : Request) (tsec now : Z) (sv : Server) : Prop :=
  ∀ c r sid s, rq_call rq = CAuthorize (Some r) →
    Verify mac hmacKey (bearer (rq_Authorization rq) (rq_Token rq)) tsec = Ok c →
    peek sh (sv_store sv) sid = Some s → s_AccountID s = AccountID c → s_DeviceID s = DeviceID r →
    now < s_ExpiresAt s.

Inductive reach (shards : Z) (L : string → Z) : Z → gset string → Server → Prop :=
| reach_init : reach shards L 0 ∅ (NewServer shards)
| reach_serve t used sv rq tsec now cand :
    reach shards L t used sv → t ≤ now → cand ∉ used →
    (∀ c, Verify mac hmacKey (bearer (rq_Authorization rq) (rq_Token rq)) tsec = Ok c →
      DeviceLimit c ≤ L (AccountID c)) →
    settled rq tsec now sv →
    reach shards L now ({[cand]} ∪ used) (serve rq tsec now cand sv).1
| reach_sweep t used sv now order :
    reach shards L t used sv → t ≤ now → order ≡ₚ expired_sessions now (sv_store sv) →
    reach shards L now used (sweep now order sv).

(** The session [sid] is live at [now] and belongs to account [a]. *)
Definition live_session (a : string) (now : Z) (sv : Server) (sid : string) : Prop :=
  match Get sh sid now (sv_store sv) with Some s => s_AccountID s = a | None => False end.
End server.

(* [base] livescale-control-plane/internal/httpx *)

(** ** Admission control *)

(* [go] middleware.go:16-21 priority *)
Inductive priority : Type := low | high.

(** The requests inside the guard: each has its priority and whether its
handler runs ([true]) or it was shed and has not left yet. *)
(* [go] middleware.go:23-33 Admission *)
Record Admission : Type := mkAdmission {
  inflight : Z; softMax : Z; hardMax : Z; inside : list (priority * bool) }.

(* [go] middleware.go:31-33 NewAdmission *)
Definition NewAdmission (soft hard : Z) : Admission := mkAdmission 0 soft hard [].

(** A request enters: the counter is incremented, and it is shed when the new
count is above the limit of its class. *)
(* [go] middleware.go:49-62 Admission.guard *)
Definition guard_enter (p : priority) (a : Admission) : Admission * bool :=
  let n := inflight a + 1 in
  let limit := match p with low => softMax a | high => hardMax a end in
  let run := negb (limit <? n) in
  (mkAdmission n (softMax a) (hardMax a) ((p, run) :: inside a), run).

(** The deferred decrement, on return, after a shed and after a panic. *)
(* [go] middleware.go:41-50 Admission.guard *)
Definition guard_exit (i : nat) (a : Admission) : Admission :=
  mkAdmission (inflight a - 1) (softMax a) (hardMax a) (delete i (inside a)).

Inductive gop : Type := GEnter (p : priority) | GExit (i : nat).

(** Requests enter at any time; only a request inside leaves. *)
Definition gstep (a : Admission) (o : gop) : Admission :=
  match o with
  | GEnter p => (guard_enter p a).1
  | GExit i => if decide (i < length (inside a))%nat then guard_exit i a else a
  end.

Definition running (a : Admission) : Z := Z.of_nat (length (filter (fun x => x.2 = true) (inside a))).

(** ** The store as one map of sessions *)

Section store_laws.
Context (sh : string → Z) (sh_nonneg : ∀ id, 0 ≤ sh id).

Definition store_ok (s : Memory) : Prop := shards_ok s ∧ placed sh s.

Lemma NewMemory_ok n : n < 2 ^ 63 → store_ok (NewMemory n).
Proof. intros Hn. split; [by apply shards_ok_new|apply placed_new]. Qed.

Lemma Put_spec sid x s : store_ok s →
  store_ok (Put sh sid x s) ∧ ∀ k, peek sh (Put sh sid x s) k = if decide (sid = k) then Some x else peek sh s k.
Proof.
  intros [Hok Hp]. split; [split; [by apply shards_ok_set|by apply placed_insert]|].
  intros k. by apply peek_insert.
Qed.

(** A session with a new expiry. *)
Definition with_expiry (e : Z) (x : Session) : Session :=
  mkSession (s_AccountID x) (s_DeviceID x) (s_AssetID x) e.

Lemma Extend_spec sid e s : store_ok s →
  store_ok (Extend sh sid e s).1 ∧
  ∀ k, peek sh (Extend sh sid e s).1 k = if decide (sid = k) then with_expiry e <$> peek sh s k else peek sh s k.
Proof.
  intros Hok. unfold Extend. assert (Hpk : peek sh s sid = shardFor sh sid s !! sid) by done.
  destruct (shardFor sh sid s !! sid) as [x|] eqn:E; cbn [fst].
  - destruct (Put_spec sid (with_expiry e x) s Hok) as [Hok' Hk]. split; [done|]. intros k.
    etransitivity; [apply Hk|]. case_decide; [subst k|done]. by rewrite Hpk.
  - split; [done|]. intros k. case_decide; [subst k|done]. by rewrite Hpk.
Qed.

Lemma Get_spec sid now s : Get sh sid now s =
  match peek sh s sid with Some x => if s_ExpiresAt x <=? now then None else Some x | None => None end.
Proof. done. Qed.

Lemma Delete_spec sid s : store_ok s →
  store_ok (Delete sh sid s).1 ∧ (Delete sh sid s).2 = peek sh s sid ∧
  ∀ k, peek sh (Delete sh sid s).1 k = if decide (sid = k) then None else peek sh s k.
Proof.
  intros Hok. unfold Delete. assert (Hpk : peek sh s sid = shardFor sh sid s !! sid) by done.
  destruct (shardFor sh sid s !! sid) as [x|] eqn:E; cbn [fst snd].
  - destruct Hok as [Hok Hp]. split_and!; [split; [by apply shards_ok_set|by apply placed_delete]|done|].
    intros k. by apply peek_delete.
  - split_and!; [done..|]. intros k. case_decide; [by subst k|done].
Qed.

Lemma store_Reap_spec now s : store_ok s →
  store_ok (store_ReapExpired now s) ∧
  ∀ k x, peek sh (store_ReapExpired now s) k = Some x ↔ peek sh s k = Some x ∧ now < s_ExpiresAt x.
Proof.
  intros [Hok Hp]. split; [split; [by apply shards_ok_omap|by apply placed_omap]|]. intros k x.
  unfold store_ReapExpired. rewrite peek_omap. destruct (peek sh s k) as [y|]; simpl; [|naive_solver].
  destruct (s_ExpiresAt y <=? now) eqn:E; zbool; split; [done| |intros [= <-]; done|by intros [? _]].
  intros [[= <-] ?]. lia.
Qed.

Lemma expired_in_store now s x : store_ok s → x ∈ expired_sessions now s →
  s_ExpiresAt x ≤ now ∧ ∃ k, peek sh s k = Some x.
Proof.
  intros [_ Hp] [? Hx]%list_elem_of_filter. split; [done|]. by apply placed_values.
Qed.
End store_laws.

(** ** Sessions and device slots

The invariant and what each kind of write does to it, on the device tables [D]
and the sessions [S] as functions. *)

Section slots.
Context (L : string → Z).
Implicit Types (D : string → gmap string device) (S : string → option Session).

(** Sessions that live beyond [t] hold the slot of their device, with the same
expiry; the store has one session per device; the ids in use were drawn; and
no account has more devices than its limit. *)
Record slots (t : Z) (used : gset string) D S : Prop := {
  sl_backed : ∀ sid s, S sid = Some s → t < s_ExpiresAt s →
    D (s_AccountID s) !! s_DeviceID s = Some (mkDevice (s_ExpiresAt s) sid);
  sl_owner : ∀ a d dev s, D a !! d = Some dev → S (d_sessionID dev) = Some s →
    s_AccountID s = a ∧ s_DeviceID s = d;
  sl_uniq : ∀ sid sid' s s', S sid = Some s → S sid' = Some s' →
    s_AccountID s = s_AccountID s' → s_DeviceID s = s_DeviceID s' → sid = sid';
  sl_used_s : ∀ sid s, S sid = Some s → sid ∈ used;
  sl_used_d : ∀ a d dev, D a !! d = Some dev → d_sessionID dev ∈ used;
  sl_limit : ∀ a, Z.of_nat (size (D a)) ≤ L a;
}.

Lemma slots_mono t t' used used' D S : t ≤ t' → used ⊆ used' → slots t used D S → slots t' used' D S.
Proof.
  intros Ht Hu []. constructor; try done.
  - intros sid s Hs Hlt. apply sl_backed0; [done|lia].
  - intros. apply Hu. eauto.
  - intros. apply Hu. eauto.
Qed.

(** Devices that expired may go. *)
Lemma slots_reap t used D D' S : slots t used D S → (∀ a, D' a ⊆ D a) →
  (∀ a d dev, D a !! d = Some dev → t < d_expiresAt dev → D' a !! d = Some dev) → slots t used D' S.
Proof.
  intros [] Hsub Hkeep.
  assert (∀ a d dev, D' a !! d = Some dev → D a !! d = Some dev) as Hin.
  { intros a. apply map_subseteq_spec. apply Hsub. }
  constructor; try done.
  - intros sid s Hs Hlt. apply Hkeep; [by apply sl_backed0|done].
  - intros a d dev s Hd. apply sl_owner0. by apply Hin.
  - intros a d dev Hd. eapply sl_used_d0. by apply Hin.
  - intros a. etransitivity; [|apply (sl_limit0 a)]. apply inj_le. by apply map_subseteq_size.
Qed.

(** Sessions may go. *)
Lemma slots_forget t used D S S' : slots t used D S → (∀ k x, S' k = Some x → S k = Some x) →
  slots t used D S'.
Proof. intros [] Hin. constructor; try done; eauto. Qed.

(** The device of an expired session of the store may go. *)
Lemma slots_release t used D D' S k x : slots t used D S → S k = Some x → s_ExpiresAt x ≤ t →
  (∀ a, D' a = if decide (s_AccountID x = a) then delete (s_DeviceID x) (D (s_AccountID x)) else D a) →
  slots t used D' S.
Proof.
  intros Hs Hk Hx HD. pose proof Hs as []. assert (∀ a, D' a ⊆ D a) as Hsub.
  { intros a. rewrite HD. case_decide; [subst a; apply delete_subseteq|done]. }
  assert (∀ a d dev, D' a !! d = Some dev → D a !! d = Some dev) as Hin.
  { intros a. apply map_subseteq_spec. apply Hsub. }
  constructor; try done; eauto.
  - intros sid s Hss Hlt. rewrite HD. case_decide as Ha; [|by apply sl_backed0].
    destruct (decide (s_DeviceID x = s_DeviceID s)) as [Hd|Hd].
    + rewrite (sl_uniq0 k sid x s) in Hk by done. simplify_eq. lia.
    + rewrite lookup_delete_ne, Ha by done. by apply sl_backed0.
  - intros a. etransitivity; [|apply (sl_limit0 a)]. apply inj_le. by apply map_subseteq_size.
Qed.

(** The device of a session may go together with the session. *)
Lemma slots_stop t used D D' S S' k x : slots t used D S → S k = Some x →
  (∀ a, D' a = if decide (s_AccountID x = a) then delete (s_DeviceID x) (D (s_AccountID x)) else D a) →
  (∀ k', S' k' = if decide (k = k') then None else S k') → slots t used D' S'.
Proof.
  intros Hs Hk HD HS. pose proof Hs as []. assert (∀ a, D' a ⊆ D a) as Hsub.
  { intros a. rewrite HD. case_decide; [subst a; apply delete_subseteq|done]. }
  assert (∀ a d dev, D' a !! d = Some dev → D a !! d = Some dev) as Hin.
  { intros a. apply map_subseteq_spec. apply Hsub. }
  assert (∀ k' x', S' k' = Some x' → k ≠ k' ∧ S k' = Some x') as HS'.
  { intros k' x'. rewrite HS. by case_decide. }
  constructor.
  - intros sid s [Hne Hss]%HS' Hlt. rewrite HD. case_decide as Ha; [|by apply sl_backed0].
    destruct (decide (s_DeviceID x = s_DeviceID s)) as [Hd|Hd].
    + by destruct Hne; apply (sl_uniq0 k sid x s).
    + rewrite lookup_delete_ne, Ha by done. by apply sl_backed0.
  - intros a d dev s Hd [_ Hss]%HS'. eauto.
  - intros sid sid' s s' [_ H1]%HS' [_ H2]%HS'. eauto.
  - intros sid s [_ Hss]%HS'. eauto.
  - eauto.
  - intros a. etransitivity; [|apply (sl_limit0 a)]. apply inj_le. by apply map_subseteq_size.
Qed.

(** A device and its session get the same new expiry. *)
Lemma slots_refresh t used D D' S S' a d dev e : slots t used D S → D a !! d = Some dev →
  (∀ a', D' a' = if decide (a = a') then <[d := mkDevice e (d_sessionID dev)]> (D a) else D a') →
  (∀ k, S' k = if decide (d_sessionID dev = k) then with_expiry e <$> S k else S k) →
  slots t used D' S'.
Proof.
  intros [] Hdev HD HS.
  assert (∀ k x, S' k = Some x → ∃ y, S k = Some y ∧ s_AccountID y = s_AccountID x ∧
    s_DeviceID y = s_DeviceID x ∧ (if decide (d_sessionID dev = k) then s_ExpiresAt x = e else y = x)) as HS'.
  { intros k x. rewrite HS. case_decide; [|by exists x]. intros (y & Hy & ->)%fmap_Some. by exists y. }
  assert (∀ a' d' x, D' a' !! d' = Some x → ∃ y, D a' !! d' = Some y ∧ d_sessionID y = d_sessionID x) as HD'.
  { intros a' d' x. rewrite HD. case_decide; [subst a'|by exists x].
    intros [[<- <-]|[_ ?]]%lookup_insert_Some; eauto. }
  constructor.
  - intros sid s Hs Hlt. destruct (HS' sid s Hs) as (y & Hy & Ha & Hd & Hcase). rewrite HD.
    destruct (decide (d_sessionID dev = sid)) as [<-|Hne].
    + destruct (sl_owner0 a d dev y Hdev Hy) as [? ?]. rewrite decide_True by congruence.
      rewrite <- Hd. replace (s_DeviceID y) with d. rewrite lookup_insert_eq. by rewrite Hcase.
    + subst y. pose proof (sl_backed0 sid s Hy Hlt) as Hb. case_decide as Haa; [|done]. subst a.
      destruct (decide (d = s_DeviceID s)) as [->|]; [|by rewrite lookup_insert_ne].
      rewrite Hb in Hdev. by simplify_eq.
  - intros a' d' x s (y & Hy & Hsid)%HD' Hs. destruct (HS' _ s Hs) as (z & Hz & <- & <- & _).
    eapply sl_owner0; [done|]. by rewrite Hsid.
  - intros sid sid' s s' (y & Hy & <- & <- & _)%HS' (y' & Hy' & <- & <- & _)%HS'. eauto.
  - intros sid s (y & Hy & _)%HS'. eauto.
  - intros a' d' x (y & Hy & <-)%HD'. eauto.
  - intros a'. rewrite HD. case_decide; [subst a'|done]. rewrite map_size_insert_Some by eauto. done.
Qed.

(** A new session takes a free slot. *)
Lemma slots_new t used D D' S S' a d e asset sid : slots t used D S → D a !! d = None →
  (∀ k x, S k = Some x → s_AccountID x = a → s_DeviceID x = d → False) → sid ∉ used →
  Z.of_nat (size (D a)) < L a →
  (∀ a', D' a' = if decide (a = a') then <[d := mkDevice e sid]> (D a) else D a') →
  (∀ k, S' k = if decide (sid = k) then Some (mkSession a d asset e) else S k) →
  slots t ({[sid]} ∪ used) D' S'.
Proof.
  intros [] Hfree Hnone Hnew Hroom HD HS.
  assert (∀ k x, S' k = Some x → (k = sid ∧ x = mkSession a d asset e) ∨ (k ≠ sid ∧ S k = Some x)) as HS'.
  { intros k x. rewrite HS. case_decide; naive_solver. }
  assert (∀ a' d' x, D' a' !! d' = Some x → (a' = a ∧ d' = d ∧ x = mkDevice e sid) ∨ D a' !! d' = Some x) as HD'.
  { intros a' d' x. rewrite HD. case_decide; [subst a'|by right].
    intros [[<- <-]|[_ ?]]%lookup_insert_Some; auto. }
  constructor.
  - intros k x [[-> ->]|[Hk Hx]]%HS' Hlt; rewrite HD; simpl.
    + rewrite decide_True by done. apply lookup_insert_eq.
    + pose proof (sl_backed0 k x Hx Hlt) as Hb. case_decide as Ha; [subst a|done].
      rewrite lookup_insert_ne; [done|]. intros ->. congruence.
  - intros a' d' dev s [(-> & -> & ->)|Hd]%HD' [[Hk ->]|[Hk Hs]]%HS'; simpl in *; try done; eauto.
    destruct Hnew. rewrite <- Hk. eauto.
  - intros k k' x x' [[-> ->]|[Hk Hx]]%HS' [[-> ->]|[Hk' Hx']]%HS'; simpl; try done; intros; eauto;
      exfalso; eauto.
  - intros k x [[-> ->]|[Hk Hx]]%HS'; [set_solver|]. apply elem_of_union_r. eauto.
  - intros a' d' x [(-> & -> & ->)|Hd]%HD'; [set_solver|]. apply elem_of_union_r. eauto.
  - intros a'. rewrite HD. case_decide; [subst a'|done]. rewrite map_size_insert_None by done. lia.
Qed.
End slots.

(** ** The handlers keep the invariant *)

Section service.
Context (mh hh sh : string → Z) (mh_nonneg : ∀ id, 0 ≤ mh id) (sh_nonneg : ∀ id, 0 ≤ sh id).
Context (mac : string → string → string) (hmacKey : string) (ttl : Z) (L : string → Z).
Implicit Types sv : Server.

Notation devs sv := (devices_of mh (sv_mgr sv)).
Notation sess sv := (peek sh (sv_store sv)).

Definition pinv (t : Z) (used : gset string) (sv : Server) : Prop :=
  manager_ok (sv_mgr sv) ∧ store_ok sh (sv_store sv) ∧ slots L t used (devs sv) (sess sv).

Lemma service_mono t t' used used' sv : t ≤ t' → used ⊆ used' → pinv t used sv → pinv t' used' sv.
Proof. intros Ht Hu (? & ? & ?). split_and!; [done..|]. by eapply slots_mono. Qed.

Lemma service_init n : n < 2 ^ 63 → (∀ a, 0 ≤ L a) → pinv 0 ∅ (NewServer n).
Proof.
  intros Hn HL. assert (∀ a, devs (NewServer n) a = ∅) as Hd by (intros; apply devices_New).
  assert (∀ k, sess (NewServer n) k = None) as Hs by (intros; apply peek_new).
  split_and!; [by apply Manager_New_ok|by apply NewMemory_ok|].
  constructor; intros; repeat match goal with
    | H : sess _ _ = _ |- _ => rewrite Hs in H
    | H : devs _ _ !! _ = _ |- _ => rewrite Hd, lookup_empty in H
    end; try done. rewrite Hd, map_size_empty. apply HL.
Qed.

(** What [Admit] reaps first. *)
Lemma slots_alive now used D S a : slots L now used D S →
  slots L now used (fun a' => if decide (a = a') then alive now (D a) else D a') S.
Proof.
  intros Hs. eapply slots_reap; [exact Hs| |].
  - intros a'. simpl. case_decide; [subst a'; apply map_filter_subseteq|done].
  - intros a' d dev Hd Hlt. simpl. case_decide; [subst a'; by apply map_lookup_filter_Some|done].
Qed.

Lemma authorize_inv used sv req c now cand : pinv now used sv → cand ∉ used →
  DeviceLimit c ≤ L (AccountID c) →
  (∀ r sid s, req = Some r → sess sv sid = Some s → s_AccountID s = AccountID c →
     s_DeviceID s = DeviceID r → now < s_ExpiresAt s) →
  pinv now ({[cand]} ∪ used) (authorize mh hh sh ttl req c now cand sv).1.
Proof.
  intros Hinv Hcand HL Hset. assert (Hmono : pinv now ({[cand]} ∪ used) sv).
  { eapply service_mono; [| |exact Hinv]; [done|set_solver]. }
  unfold authorize. destruct req as [r|]; [|done]. destruct (String.eqb (DeviceID r) ""); [done|].
  destruct Hinv as (Hm & Hst & Hsl). set (a := AccountID c) in *. set (d := DeviceID r) in *.
  pose proof (Admit_spec mh hh mh_nonneg a d (DeviceLimit c) now (now + ttl) cand (sv_mgr sv) Hm) as Hs.
  pose proof (slots_alive now used _ _ a Hsl) as Hal.
  destruct (Admit _ _ _ _ _ _ _ _ _) as [mgr [sid ok]]. unfold admitted in Hs.
  destruct (alive now (devs sv a) !! d) as [dev|] eqn:Ed.
  - destruct Hs as ([= -> ->] & Hm' & HD). simpl.
    assert (d_sessionID dev ∈ used) as Hu.
    { eapply (sl_used_d _ _ _ _ _ Hal a d). simpl. by rewrite decide_True. }
    rewrite (proj2 (String.eqb_neq _ _)) by (intros Heq; rewrite Heq in Hu; done).
    destruct (Extend_spec sh sh_nonneg (d_sessionID dev) (now + ttl) (sv_store sv) Hst) as [Hst' HS].
    split_and!; [done|done|]. eapply slots_mono; [reflexivity|apply union_subseteq_r|].
    eapply (slots_refresh _ _ _ _ _ _ _ a d dev (now + ttl) Hal); simpl.
    + by rewrite decide_True.
    + intros a'. rewrite HD, (decide_True _ _ (eq_refl a)). by repeat case_decide.
    + apply HS.
  - assert (∀ mgr', manager_ok mgr' → (∀ a', devices_of mh mgr' a' =
      if decide (a = a') then alive now (devs sv a) else devs sv a') →
      pinv now ({[cand]} ∪ used) (mkServer mgr' (sv_store sv))) as Hdeny.
    { intros mgr' Hm' HD. split_and!; [done|done|]. simpl. eapply slots_mono; [reflexivity|apply union_subseteq_r|].
      eapply slots_reap; [exact Hal|intros a'; by rewrite HD|]. intros a' d' dev. by rewrite HD. }
    destruct (Z.of_nat _ <? DeviceLimit c) eqn:Elim; destruct Hs as ([= -> ->] & Hm' & HD); simpl; [|by apply Hdeny].
    rewrite String.eqb_refl.
    destruct (Put_spec sh sh_nonneg cand (mkSession a d (AssetID r) (now + ttl)) (sv_store sv) Hst) as [Hst' HS].
    split_and!; [done|done|].
    eapply (slots_new _ _ _ _ _ _ _ a d (now + ttl) (AssetID r) cand Hal); simpl; [..|apply HS].
    + by rewrite decide_True.
    + intros k x Hx Ha Hd. pose proof (Hset r k x eq_refl Hx Ha Hd) as Hlt.
      pose proof (sl_backed _ _ _ _ _ Hal k x Hx Hlt) as Hb. simpl in Hb.
      rewrite decide_True in Hb by done. rewrite Hd in Hb. congruence.
    + done.
    + rewrite decide_True by done. zbool. lia.
    + intros a'. rewrite HD, (decide_True _ _ (eq_refl a)). by repeat case_decide.
Qed.

Lemma heartbeat_inv used sv req c now : pinv now used sv →
  pinv now used (heartbeat mh sh ttl req c now sv).1.
Proof.
  intros Hinv. unfold heartbeat. destruct req as [sid|]; [|done]. destruct (String.eqb sid ""); [done|].
  rewrite Get_spec. destruct (sess sv sid) as [x|] eqn:Ex; [|done].
  destruct (s_ExpiresAt x <=? now) eqn:Ee; [done|]. destruct (String.eqb _ _) eqn:Ea; [|done]. simpl. zbool.
  destruct Hinv as (Hm & Hst & Hsl). pose proof (sl_backed _ _ _ _ _ Hsl sid x Ex Ee) as Hb.
  destruct (Extend_spec sh sh_nonneg sid (now + ttl) (sv_store sv) Hst) as [Hst' HS].
  pose proof (Refresh_spec mh mh_nonneg (AccountID c) (s_DeviceID x) (now + ttl) (sv_mgr sv) Hm) as Hr.
  destruct (Refresh _ _ _ _ _) as [mgr ok]. destruct Hr as (_ & Hm' & HD). simpl.
  split_and!; [done|done|]. rewrite Ea in Hb.
  eapply (slots_refresh _ _ _ _ _ _ _ (AccountID c) (s_DeviceID x) _ (now + ttl) Hsl Hb); simpl; [|apply HS].
  intros a'. rewrite HD. case_decide; [|done]. apply map_eq. intros d'.
  destruct (decide (s_DeviceID x = d')) as [<-|];
    [by rewrite lookup_alter_eq, lookup_insert_eq, Hb|by rewrite lookup_alter_ne, lookup_insert_ne].
Qed.

Lemma stop_inv used sv req c now : pinv now used sv → pinv now used (stop mh sh req c sv).1.
Proof.
  intros Hinv. unfold stop. destruct req as [sid|]; [|done]. destruct (String.eqb sid ""); [done|].
  destruct Hinv as (Hm & Hst & Hsl). destruct (Delete_spec sh sh_nonneg sid (sv_store sv) Hst) as (Hst' & Hdel & HS).
  destruct (Delete sh sid (sv_store sv)) as [store del]. simpl in Hst', Hdel, HS. subst del.
  assert (pinv now used (mkServer (sv_mgr sv) store)) as Hkeep.
  { split_and!; [done|done|]. eapply slots_forget; [exact Hsl|]. intros k x. simpl. rewrite HS. by case_decide. }
  destruct (sess sv sid) as [x|] eqn:Ex; [|done]. destruct (String.eqb _ _) eqn:Ea; [|done]. zbool.
  destruct (Release_spec mh mh_nonneg (AccountID c) (s_DeviceID x) (sv_mgr sv) Hm) as [Hm' HD].
  split_and!; [done|done|]. rewrite <- Ea in HD. eapply slots_stop; [exact Hsl|exact Ex|..]; simpl; [|apply HS].
  rewrite <- Ea. exact HD.
Qed.

Lemma sweep_releases used now order m S : manager_ok m → slots L now used (devices_of mh m) S →
  (∀ x, x ∈ order → s_ExpiresAt x ≤ now ∧ ∃ k, S k = Some x) →
  let m' := foldl (fun m s => Release mh (s_AccountID s) (s_DeviceID s) m) m order in
  manager_ok m' ∧ slots L now used (devices_of mh m') S.
Proof.
  revert m. induction order as [|x order IH]; intros m Hm Hsl Hall; [done|]. simpl.
  destruct (Hall x ltac:(left)) as [Hx [k Hk]].
  destruct (Release_spec mh mh_nonneg (s_AccountID x) (s_DeviceID x) m Hm) as [Hm' HD].
  apply IH; [done| |intros y Hy; apply Hall; by right]. by eapply slots_release.
Qed.

Lemma sweep_inv used sv now order : pinv now used sv → order ≡ₚ expired_sessions now (sv_store sv) →
  pinv now used (sweep mh now order sv).
Proof.
  intros (Hm & Hst & Hsl) Hord. unfold sweep.
  destruct (sweep_releases used now order (sv_mgr sv) (sess sv) Hm Hsl) as [Hm1 Hsl1].
  { intros x Hx. rewrite Hord in Hx. by apply (expired_in_store sh). }
  set (m1 := foldl _ _ _) in *. destruct (ReapExpired_spec mh now m1 Hm1) as [Hm2 HD].
  destruct (store_Reap_spec sh now (sv_store sv) Hst) as [Hst' HS].
  split_and!; [done|done|]. simpl. eapply slots_forget; [|intros k x Hk; by apply HS in Hk as [? _]].
  eapply slots_reap; [exact Hsl1| |].
  - intros a. change (devices_of mh (mkManager _ _) a) with (devices_of mh (ReapExpired now m1).1 a).
    rewrite HD. apply map_filter_subseteq.
  - intros a d dev Hd Hlt. change (devices_of mh (mkManager _ _) a) with (devices_of mh (ReapExpired now m1).1 a).
    rewrite HD. by apply map_lookup_filter_Some.
Qed.

Lemma reach_pinv shards t used sv : shards < 2 ^ 63 → (∀ a, 0 ≤ L a) →
  reach mh hh sh mac hmacKey ttl shards L t used sv → pinv t used sv.
Proof.
  intros Hn HL Hr. induction Hr as [|t used sv rq tsec now cand Hr IH Ht Hc Hlim Hset
    |t used sv now order Hr IH Ht Hord].
  - by apply service_init.
  - eapply service_mono in IH; [|exact Ht|reflexivity].
    assert (pinv now ({[cand]} ∪ used) sv) as Hsame.
    { eapply service_mono; [| |exact IH]; [done|set_solver]. }
    unfold serve. destruct (String.eqb _ ""); [done|].
    destruct (Verify _ _ _ _) as [c|e] eqn:Ev; [|done]. destruct (rq_call rq) as [req|req|req] eqn:Ec; simpl.
    + apply authorize_inv; [done|done|by apply Hlim|]. intros r sid s -> Hs Ha Hd.
      by apply (Hset c r sid s).
    + by apply heartbeat_inv.
    + by apply stop_inv.
  - apply sweep_inv; [|done]. by eapply service_mono.
Qed.
End service.

(** ** Properties *)

Section properties.
Context (mh hh sh : string → Z) (mh_nonneg : ∀ id, 0 ≤ mh id) (sh_nonneg : ∀ id, 0 ≤ sh id).
Context (mac : string → string → string) (hmacKey : string) (ttl : Z).

(** The sessions a heartbeat would accept fit the limit, each in the slot of its device. *)
Lemma reach_live_bounded (shards : Z) (L : string → Z) (t now : Z) (used : gset string) (sv : Server)
    (a : string) (l : list string) :
  shards < 2 ^ 63 → (∀ a, 0 ≤ L a) →
  reach mh hh sh mac hmacKey ttl shards L t used sv → t ≤ now →
  NoDup l → (∀ sid, sid ∈ l → live_session sh a now sv sid) →
  Z.of_nat (length l) ≤ L a ∧
  ∀ sid, sid ∈ l → ∃ s, Get sh sid now (sv_store sv) = Some s ∧
    devices_of mh (sv_mgr sv) a !! s_DeviceID s = Some (mkDevice (s_ExpiresAt s) sid).
Proof.
  intros Hn HL Hr Ht Hnd Hlive.
  destruct (reach_pinv mh hh sh mh_nonneg sh_nonneg mac hmacKey ttl L shards t used sv Hn HL Hr) as (_ & _ & Hsl).
  assert (∀ sid, sid ∈ l → ∃ s, Get sh sid now (sv_store sv) = Some s ∧
    devices_of mh (sv_mgr sv) a !! s_DeviceID s = Some (mkDevice (s_ExpiresAt s) sid)) as Hb.
  { intros sid Hsid. pose proof (Hlive sid Hsid) as Hls. unfold live_session in Hls.
    rewrite Get_spec in *. destruct (peek sh (sv_store sv) sid) as [s|] eqn:Es; [|done].
    destruct (s_ExpiresAt s <=? now) eqn:Ee; [done|]. zbool. exists s. split; [done|].
    rewrite <- Hls. apply (sl_backed _ _ _ _ _ Hsl); [done|lia]. }
  split; [|done]. etransitivity; [|apply (sl_limit _ _ _ _ _ Hsl a)]. apply inj_le.
  rewrite <- length_map_to_list, <- (length_fmap (fun p : string * device => d_sessionID p.2)).
  apply submseteq_length, NoDup_submseteq; [done|]. intros sid Hsid.
  destruct (Hb sid Hsid) as (s & _ & Hd). apply list_elem_of_fmap.
  eexists (_, _). split; [|by apply elem_of_map_to_list]. done.
Qed.

(** The device limit bounds the sessions.  In every state the service
reaches through its handlers and its sweeper, with a clock that does not go
back and new session ids, an account whose tokens allow at most [L] devices
has at most [L] sessions that a heartbeat would accept, provided that no
device is authorized again while an expired session of it waits for the
sweeper; and each of those sessions holds the slot of its device, under its
own id and until its own expiry. *)
Theorem Sessions_within_limit (shards : Z) (L : string → Z) (t now : Z) (used : gset string) (sv : Server)
    (a : string) (l : list string) :
  shards < 2 ^ 63 → (∀ a, 0 ≤ L a) →
  reach mh hh sh mac hmacKey ttl shards L t used sv → t ≤ now →
  NoDup l → (∀ sid, sid ∈ l → live_session sh a now sv sid) →
  Z.of_nat (length l) ≤ L a ∧
  ∀ sid, sid ∈ l → ∃ s, Get sh sid now (sv_store sv) = Some s ∧
    devices_of mh (sv_mgr sv) a !! s_DeviceID s = Some (mkDevice (s_ExpiresAt s) sid).
Proof. apply reach_live_bounded. Qed.
End properties.

(** The limiter counts the requests inside, and no more handlers run than the
hard limit. *)
Definition ginv (a : Admission) : Prop :=
  inflight a = Z.of_nat (length (inside a)) ∧ running a ≤ Z.max 0 (hardMax a).

Lemma gstep_limits a o : softMax (gstep a o) = softMax a ∧ hardMax (gstep a o) = hardMax a.
Proof. destruct o; simpl; [done|]. by case_decide. Qed.

Lemma running_le a : running a ≤ Z.of_nat (length (inside a)).
Proof. unfold running. apply inj_le. apply length_filter. Qed.

Lemma gstep_inv a o : softMax a ≤ hardMax a → ginv a → ginv (gstep a o).
Proof.
  intros Hsh [Hn Hr]. destruct o as [p|i]; simpl.
  - unfold ginv, guard_enter. cbn [fst inflight hardMax inside length]. split; [lia|].
    destruct (negb _) eqn:E; zbool.
    + etransitivity; [apply running_le|]. cbn [inside length]. destruct p; lia.
    + unfold running in *. cbn [inside]. by rewrite filter_cons_False.
  - case_decide as Hi; [|done]. apply lookup_lt_is_Some_2 in Hi as [x Hx].
    unfold ginv, guard_exit. cbn [inflight hardMax inside]. split.
    + rewrite length_delete by eauto. apply lookup_lt_Some in Hx. lia.
    + etransitivity; [|exact Hr]. unfold running. cbn [inside]. apply inj_le.
      rewrite (delete_Permutation (inside a) i x Hx) at 2. rewrite filter_cons. case_decide; simpl; lia.
Qed.

Lemma grun_inv ops a : softMax a ≤ hardMax a → ginv a →
  ginv (foldl gstep a ops) ∧ softMax (foldl gstep a ops) = softMax a ∧ hardMax (foldl gstep a ops) = hardMax a.
Proof.
  revert a. induction ops as [|o ops IH]; intros a Hsh Hinv; [done|]. simpl.
  destruct (gstep_limits a o) as [H1 H2]. destruct (IH (gstep a o)) as (? & ? & ?);
    [lia|by apply gstep_inv|]. split_and!; [done|congruence|congruence].
Qed.

(** Admission control is exact.  After any sequence of requests entering
and leaving, also by shedding and by panics, the counter is the number of
requests inside, at most [hard] handlers run, a playback request is shed only
when [hard] requests are inside, and a stats request exactly when [soft] are. *)
Theorem Admission_exact (soft hard : Z) (ops : list gop) :
  soft ≤ hard → 0 ≤ hard →
  let a := foldl gstep (NewAdmission soft hard) ops in
  inflight a = Z.of_nat (length (inside a)) ∧ running a ≤ hard ∧
  (guard_enter high a).2 = (Z.of_nat (length (inside a)) <? hard) ∧
  (guard_enter low a).2 = (Z.of_nat (length (inside a)) <? soft).
Proof.
  intros Hsh Hh a.
  destruct (grun_inv ops (NewAdmission soft hard)) as ([Hn Hr] & Hs & Hd);
    [done|split; [done|]; unfold running; simpl; lia|]. fold a in Hn, Hr, Hs, Hd. cbn in Hs, Hd.
  split_and!; [done|lia| |]; unfold guard_enter; cbn [snd];
    rewrite Hn; rewrite ?Hs, ?Hd; apply eq_true_iff_eq; rewrite negb_true_iff, Z.ltb_ge, Z.ltb_lt; lia.
Qed.

(** ** Witnesses and behaviours outside the conditions *)

Definition demo_claims (acc : string) : Claims := mkClaims acc 1 100 "cup".

Definition demo_rq (acc : string) (k : call) : Request :=
  mkRequest ("Bearer " +:+ Sign demo_mac "k" (demo_claims acc)) "" k.

Definition demo_auth (dev : string) : call := CAuthorize (Some (mkAuthorizeReq "cup" dev)).

Definition demo_serve (rq : Request) (now : Z) (cand : string) (sv : Server) : Server * response :=
  serve demo_hash demo_hash demo_hash demo_mac "k" 30 rq 0 now cand sv.

(** Account "acc", limit one: a device is authorized, beats, and expires; the
sweeper runs; then another device gets the slot. *)
Definition demo_s1 : Server := (demo_serve (demo_rq "acc" (demo_auth "tv")) 1 "s1" (NewServer 1)).1.
Definition demo_s2 : Server := (demo_serve (demo_rq "acc" (CHeartbeat (Some "s1"))) 20 "x1" demo_s1).1.
Definition demo_s3 : Server := sweep demo_hash 55 (expired_sessions 55 (sv_store demo_s2)) demo_s2.
Definition demo_s4 : Server := (demo_serve (demo_rq "acc" (demo_auth "phone")) 56 "s2" demo_s3).1.

Lemma demo_hash_nonneg id : 0 ≤ demo_hash id.
Proof. unfold demo_hash. pose proof (fnv32a_range id). lia. Qed.

Lemma demo_verify k c : Verify demo_mac "k" (bearer (rq_Authorization (demo_rq "acc" k)) (rq_Token (demo_rq "acc" k))) 0
  = Ok c → c = demo_claims "acc".
Proof. destruct k; vm_compute; by intros [= <-]. Qed.

Lemma demo_reach : ∃ used,
  reach demo_hash demo_hash demo_hash demo_mac "k" 30 1 (fun _ => 1) 56 used demo_s4.
Proof.
  eexists. unfold demo_s4, demo_serve. eapply (reach_serve _ _ _ _ _ _ _ _ 55).
  - eapply (reach_sweep _ _ _ _ _ _ _ _ 20); [|lia|reflexivity].
    unfold demo_s2, demo_serve. eapply (reach_serve _ _ _ _ _ _ _ _ 1).
    + unfold demo_s1, demo_serve. eapply (reach_serve _ _ _ _ _ _ _ _ 0); [apply reach_init|lia|set_solver| |].
      * intros c ->%demo_verify. done.
      * intros c r sid s _ _ Hs. cbn [NewServer sv_store] in Hs. unfold NewMemory in Hs. by rewrite peek_new in Hs.
    + lia.
    + set_solver.
    + intros c ->%demo_verify. done.
    + intros c r sid s Hc. done.
  - lia.
  - set_solver.
  - intros c ->%demo_verify. done.
  - intros c r sid s _ _ Hs _ _. exfalso.
    revert Hs. unfold peek, shardFor. assert (sd_shards (sv_store demo_s3) = [∅]) as -> by by vm_compute.
    destruct (shard_ix _ _ _) as [|[]]; simpl; by rewrite lookup_empty.
Qed.

Lemma Sessions_within_limit_witness :
  live_session demo_hash "acc" 60 demo_s4 "s2" ∧ Z.of_nat (length ["s2"]) ≤ 1 ∧
  ∃ s, Get demo_hash "s2" 60 (sv_store demo_s4) = Some s ∧
    devices_of demo_hash (sv_mgr demo_s4) "acc" !! s_DeviceID s = Some (mkDevice (s_ExpiresAt s) "s2").
Proof.
  assert (live_session demo_hash "acc" 60 demo_s4 "s2") as Hl by by vm_compute.
  destruct demo_reach as [used Hr]. split; [done|].
  destruct (Sessions_within_limit demo_hash demo_hash demo_hash demo_hash_nonneg demo_hash_nonneg demo_mac "k" 30
    1 (fun _ => 1) 56 60 used demo_s4 "acc" ["s2"] ltac:(lia) ltac:(lia) Hr ltac:(lia) ltac:(apply NoDup_singleton)
    ltac:(intros sid ->%list_elem_of_singleton; exact Hl)) as [H1 H2].
  split; [exact H1|]. apply H2. left.
Defined.

Lemma Admission_exact_witness :
  let a := foldl gstep (NewAdmission 1 2) [GEnter high; GEnter low; GEnter high; GEnter high; GExit 2] in
  inflight a = 3 ∧ running a ≤ 2.
Proof.
  cbv zeta. split; [by vm_compute|].
  apply (Admission_exact 1 2 [GEnter high; GEnter low; GEnter high; GEnter high; GExit 2]); lia.
Defined.

(** The sweeper frees a slot that is in use.  With a limit of one, a device
whose session ran out is authorized again before the sweeper came; the sweeper
then finds the old session expired and releases the device of the new one, so
that a second device is admitted while the session of the first still beats:
the account has two live sessions. *)
Theorem sweep_frees_live_slot :
  let sv1 := (demo_serve (demo_rq "acc" (demo_auth "tv")) 1 "s1" (NewServer 1)).1 in
  let '(sv2, r2) := demo_serve (demo_rq "acc" (demo_auth "tv")) 32 "s2" sv1 in
  let sv3 := sweep demo_hash 33 (expired_sessions 33 (sv_store sv2)) sv2 in
  let '(sv4, r4) := demo_serve (demo_rq "acc" (demo_auth "phone")) 34 "s3" sv3 in
  let '(sv5, r5) := demo_serve (demo_rq "acc" (CHeartbeat (Some "s2"))) 35 "x" sv4 in
  r2 = Authorized "s2" ∧ r4 = Authorized "s3" ∧ r5 = BeatOK ∧
  live_session demo_hash "acc" 36 sv5 "s2" ∧ live_session demo_hash "acc" 36 sv5 "s3" ∧
  CountFor demo_hash "acc" (sv_mgr sv5) = 1.
Proof. vm_compute. by split_and!. Qed.

(** A heartbeat that straddles the expiry of its device keeps a session without
a slot: between its [Extend] and its [Refresh] another device takes the slot,
and the handler does not look at what [Refresh] answers. *)
Theorem heartbeat_race :
  let sv1 := (demo_serve (demo_rq "acc" (demo_auth "tv")) 1 "s1" (NewServer 1)).1 in
  let store2 := (Extend demo_hash "s1" (30 + 30) (sv_store sv1)).1 in
  let '(sv3, r3) := demo_serve (demo_rq "acc" (demo_auth "phone")) 31 "s2" (mkServer (sv_mgr sv1) store2) in
  let '(mgr4, found) := Refresh demo_hash "acc" "tv" (30 + 30) (sv_mgr sv3) in
  let sv4 := mkServer mgr4 (sv_store sv3) in
  Get demo_hash "s1" 30 (sv_store sv1) ≠ None ∧ r3 = Authorized "s2" ∧ found = false ∧
  live_session demo_hash "acc" 40 sv4 "s1" ∧ live_session demo_hash "acc" 40 sv4 "s2".
Proof. vm_compute. by split_and!. Qed.

(** [stop] deletes before it checks the owner: the token of another account
removes the session, the slot stays taken, and the owner's device is
authorized again under a session id that no heartbeat accepts. *)
Theorem stop_foreign_session :
  let sv1 := (demo_serve (demo_rq "acc" (demo_auth "tv")) 1 "s1" (NewServer 1)).1 in
  let '(sv2, r2) := demo_serve (demo_rq "eve" (CStop (Some "s1"))) 2 "x" sv1 in
  let '(sv3, r3) := demo_serve (demo_rq "acc" (demo_auth "tv")) 3 "s2" sv2 in
  let '(sv4, r4) := demo_serve (demo_rq "acc" (CHeartbeat (Some "s1"))) 4 "y" sv3 in
  r2 = StopOK ∧ r3 = Authorized "s1" ∧ r4 = SessionExpired ∧ CountFor demo_hash "acc" (sv_mgr sv4) = 1.
Proof. vm_compute. by split_and!. Qed.
