(* ===== verification/Livescale.v ===== *)
(** * livescale-control-plane: configuration, counters and the whole process

[internal/config], [internal/obs], the admission guard around the handlers and
[cmd/livescale], over the handlers of [Playback].  A request enters the guard,
its handler runs section by section, and it leaves; the critical sections of all
requests and of the sweeper interleave.  [handle] is a handler that runs without others
in between. *)

From Stdlib Require Import ZArith Lia Ascii String.
From stdpp Require Import base gmap strings list.
From S2P Require Import Prelude GoStrings GoTime Devices Token Playback.
Open Scope string_scope.
Open Scope Z_scope.

(* [base] livescale-control-plane/internal/config *)

(* [go] config.go:14-14 devHMACKey *)
Definition devHMACKey : string := "livescale-dev-secret-change-me".

(* [go] config.go:31-52 Config *)
Record Config : Type := mkConfig {
  Addr : string; ShardCount : Z; SoftMaxInflight : Z; HardMaxInflight : Z;
  SessionTTL : Z; SweepInterval : Z; HMACKey : string; ShutdownGrace : Z }.

(* [go] config.go:55-66 Default *)
Definition Default : Config :=
  mkConfig ":8080" 256 8000 20000 (30 * Second) (5 * Second) "livescale-dev-secret-change-me" (10 * Second).

(* [go] config.go:87-95 Config.normalized *)
Definition normalized (c : Config) : Config :=
  let shards := if (ShardCount c <? 1) || negb (Z.land (ShardCount c) (ShardCount c - 1) =? 0) then 256
                else ShardCount c in
  let hard := if HardMaxInflight c <? SoftMaxInflight c then i64 (SoftMaxInflight c * 2) else HardMaxInflight c in
  mkConfig (Addr c) shards (SoftMaxInflight c) hard (SessionTTL c) (SweepInterval c) (HMACKey c) (ShutdownGrace c).

Section config.
Context (getenv : string → string).

(* [go] config.go:17-17 Config.Env *)
Definition Env : string := getenv "LS_ENV".

(** [true] when the process refuses to start. *)
(* [go] config.go:21-27 Config.Validate *)
Definition Validate (c : Config) : bool :=
  String.eqb (HMACKey c) devHMACKey && negb (String.eqb Env "") && negb (String.eqb Env "dev").

(* [go] config.go:97-104 envInt *)
Definition envInt (key : string) (def : Z) : Z :=
  if String.eqb (getenv key) "" then def else default def (ParseInt (getenv key)).

(* [go] config.go:106-113 envDur *)
Definition envDur (key : string) (def : Z) : Z :=
  if String.eqb (getenv key) "" then def else default def (ParseDuration (getenv key)).

(* [go] config.go:70-84 FromEnv *)
Definition FromEnv : Config :=
  let c := Default in
  let or k def := if String.eqb (getenv k) "" then def else getenv k in
  normalized (mkConfig (or "LS_ADDR" (Addr c)) (envInt "LS_SHARDS" (ShardCount c))
    (envInt "LS_SOFT_MAX" (SoftMaxInflight c)) (envInt "LS_HARD_MAX" (HardMaxInflight c))
    (envDur "LS_SESSION_TTL" (SessionTTL c)) (envDur "LS_SWEEP" (SweepInterval c))
    (or "LS_HMAC_KEY" (HMACKey c)) (ShutdownGrace c)).
End config.

(* [base] livescale-control-plane/internal/obs *)

(** The counters of events do not reach the width of their type; the sum of
the latencies can. *)
(* [go] obs.go:16-25 Metrics *)
Record Metrics : Type := mkMetrics {
  mAuthorized : Z; mDenied : Z; mHeartbeats : Z; mShed : Z; mReaped : Z; latNanos : Z; latCount : Z }.

(* [go] obs.go:30-39 New *)
Definition NewMetrics : Metrics := mkMetrics 0 0 0 0 0 0 0.

(* [go] obs.go:53-56 Metrics.Observe *)
Definition Observe (d : Z) (m : Metrics) : Metrics :=
  mkMetrics (mAuthorized m) (mDenied m) (mHeartbeats m) (mShed m) (mReaped m) (i64 (latNanos m + d)) (latCount m + 1).

(* [go] obs.go:59-65 Metrics.MeanLatency *)
Definition MeanLatency (m : Metrics) : Z :=
  if latCount m =? 0 then 0 else Z.quot (latNanos m) (latCount m).

(* [base] livescale-control-plane/internal/httpx *)

(* [go] handlers.go:19-25 Server *)
Record process : Type := mkProcess {
  p_cfg : Config; p_server : Server; p_adm : Admission; p_metrics : Metrics }.

(* [go] handlers.go:27-35 NewServer *)
Definition new_process (cfg : Config) : process :=
  mkProcess cfg (NewServer (ShardCount cfg)) (NewAdmission (SoftMaxInflight cfg) (HardMaxInflight cfg)) NewMetrics.

(** What happens to the counters besides the latencies. *)
Definition add_counts (a d h s r : Z) (m : Metrics) : Metrics :=
  mkMetrics (mAuthorized m + a) (mDenied m + d) (mHeartbeats m + h) (mShed m + s) (mReaped m + r)
    (latNanos m) (latCount m).

(** A request enters the guard; a shed one is counted and answered 503. *)
(* [go] middleware.go:49-63 Admission.guard *)
Definition enter (pr : priority) (p : process) : process :=
  let '(adm, run) := guard_enter pr (p_adm p) in
  mkProcess (p_cfg p) (p_server p) adm (if run then p_metrics p else add_counts 0 0 0 1 0 (p_metrics p)).

(** A request leaves, by return or by panic: the counter goes down, then the
latency is recorded. *)
(* [go] middleware.go:40-50 Admission.guard *)
Definition leave (i : nat) (d : Z) (p : process) : process :=
  mkProcess (p_cfg p) (p_server p) (guard_exit i (p_adm p)) (Observe d (p_metrics p)).

(** The counters a handler moves: [Authorized] only for a session it creates. *)
(* [go] handlers.go:68-79 Server.authorize *)
Definition count_reply (cand : string) (r : response) (m : Metrics) : Metrics :=
  match r with
  | DeviceLimitReached => add_counts 0 1 0 0 0 m
  | Authorized sid => if String.eqb sid cand then add_counts 1 0 0 0 0 m else m
  | BeatOK => add_counts 0 0 1 0 0 m
  | _ => m
  end.

Section process.
Context (mh hh sh : string → Z) (mac : string → string → string).

Definition serve_with (cfg : Config) := serve mh hh sh mac (HMACKey cfg) (SessionTTL cfg).

(* [go] handlers.go:38-47 Server.Handler *)
Definition handle (rq : Request) (tsec now : Z) (cand : string) (p : process) : process * response :=
  let '(sv, r) := serve_with (p_cfg p) rq tsec now cand (p_server p) in
  (mkProcess (p_cfg p) sv (p_adm p) (count_reply cand r (p_metrics p)), r).

(** The fields of the answer but the estimate of the device count. *)
(* [go] handlers.go:118-125 Server.stats *)
Definition stats (p : process) : Z * Z * Z :=
  (mShed (p_metrics p), mAuthorized (p_metrics p), Z.quot (MeanLatency (p_metrics p)) Microsecond).

(** *** The handlers by their critical sections

The manager and the store lock one shard at a time and the counters are atomic, so that
the handlers of concurrent requests interleave at these calls; between them a handler
keeps what it has read. *)
(* [go] handlers.go:58-116 Server.authorize *)
Inductive hstate : Type :=
| HServe (rq : Request)                                   (* before the token check *)
| HAdmit (c : Claims) (r : authorizeReq)                  (* before mgr.Admit *)
| HStore (sid cand : string) (sess : Session)             (* admitted, before store.Put or Extend *)
| HCount (sid : string)                                   (* stored, before Authorized.Add *)
| HGet (c : Claims) (sid : string)                        (* before store.Get *)
| HExtend (c : Claims) (sid dev : string) (exp : Z)       (* before store.Extend *)
| HRefresh (c : Claims) (dev : string) (exp : Z)          (* before mgr.Refresh *)
| HBeat                                                   (* before Heartbeats.Add *)
| HDelete (c : Claims) (sid : string)                     (* before store.Delete *)
| HRelease (acc dev : string)                             (* before mgr.Release *)
| HDone (r : response).

Definition with_mgr (m : Manager) (p : process) : process :=
  mkProcess (p_cfg p) (mkServer m (sv_store (p_server p))) (p_adm p) (p_metrics p).
Definition with_store (st : Memory) (p : process) : process :=
  mkProcess (p_cfg p) (mkServer (sv_mgr (p_server p)) st) (p_adm p) (p_metrics p).
Definition with_counts (a d h s r : Z) (p : process) : process :=
  mkProcess (p_cfg p) (p_server p) (p_adm p) (add_counts a d h s r (p_metrics p)).

(** The handler a verified request with its decoded body goes on to. *)
(* [go] handlers.go:58-63 Server.authorize *)
Definition begin_call (rq : call) (c : Claims) : hstate :=
  match rq with
  | CAuthorize (Some r) => if String.eqb (DeviceID r) "" then HDone BadRequest else HAdmit c r
  | CHeartbeat (Some sid) => if String.eqb sid "" then HDone BadRequest else HGet c sid
  | CStop (Some sid) => if String.eqb sid "" then HDone BadRequest else HDelete c sid
  | _ => HDone BadRequest
  end.

(** The next section of a handler; [now] is its clock and [cand] the id it draws. *)
(* [go] handlers.go:58-116 Server.authorize *)
Definition section (tsec now : Z) (cand : string) (h : hstate) (p : process) : process * hstate :=
  let exp := now + SessionTTL (p_cfg p) in
  match h with
  | HServe rq =>
      let tok := bearer (rq_Authorization rq) (rq_Token rq) in
      (p, if String.eqb tok "" then HDone NoToken
          else match Verify mac (HMACKey (p_cfg p)) tok tsec with
               | Err _ => HDone Unauthorized
               | Ok c => begin_call (rq_call rq) c
               end)
  | HAdmit c r =>
      let '(m, (sid, ok)) := Admit mh hh (AccountID c) (DeviceID r) (DeviceLimit c) now exp cand (sv_mgr (p_server p)) in
      if negb ok then (with_counts 0 1 0 0 0 (with_mgr m p), HDone DeviceLimitReached)
      else (with_mgr m p, HStore sid cand (mkSession (AccountID c) (DeviceID r) (AssetID r) exp))
  | HStore sid cand sess =>
      if String.eqb sid cand then (with_store (Put sh sid sess (sv_store (p_server p))) p, HCount sid)
      else (with_store (Extend sh sid (s_ExpiresAt sess) (sv_store (p_server p))).1 p, HDone (Authorized sid))
  | HCount sid => (with_counts 1 0 0 0 0 p, HDone (Authorized sid))
  | HGet c sid =>
      (p, match Get sh sid now (sv_store (p_server p)) with
          | None => HDone SessionExpired
          | Some sess => if negb (String.eqb (s_AccountID sess) (AccountID c)) then HDone SessionExpired
                         else HExtend c sid (s_DeviceID sess) exp
          end)
  | HExtend c sid dev e => (with_store (Extend sh sid e (sv_store (p_server p))).1 p, HRefresh c dev e)
  | HRefresh c dev e => (with_mgr (Refresh mh (AccountID c) dev e (sv_mgr (p_server p))).1 p, HBeat)
  | HBeat => (with_counts 0 0 1 0 0 p, HDone BeatOK)
  | HDelete c sid =>
      let '(st, del) := Delete sh sid (sv_store (p_server p)) in
      (with_store st p, match del with
                        | Some sess => if String.eqb (s_AccountID sess) (AccountID c)
                                       then HRelease (AccountID c) (s_DeviceID sess) else HDone StopOK
                        | None => HDone StopOK
                        end)
  | HRelease acc dev => (with_mgr (Release mh acc dev (sv_mgr (p_server p))) p, HDone StopOK)
  | HDone r => (p, HDone r)
  end.

(* [base] livescale-control-plane/cmd/livescale *)

(** *** The sweeper by its critical sections: the shards of the store one after the other,
the release of each session found, the shards of the manager, the counter. *)
(* [go] main.go:68-87 sweep *)
Inductive sweeper : Type :=
| SIdle
| SStore (now : Z) (i : nat) (expired : list Session)
| SRelease (now : Z) (todo : list Session) (n : Z)
| SManager (now : Z) (i : nat) (found n : Z).

(* [base] livescale-control-plane/internal/session *)

(** The sweep of one shard of the store. *)
(* [go] memory.go:88-95 Memory.ReapExpired *)
Definition reap_store_shard (now : Z) (i : nat) (s : Memory) : Memory :=
  mkSharded (alter (omap (M := gmap string) (fun x => if s_ExpiresAt x <=? now then None else Some x)) i (sd_shards s))
    (sd_mask s).

Definition expired_in_shard (now : Z) (i : nat) (s : Memory) : list Session :=
  filter (fun x => s_ExpiresAt x ≤ now) (map_to_list (default ∅ (sd_shards s !! i))).*2.

(* [base] livescale-control-plane/cmd/livescale *)

(** The next section of the sweeper; [order] is the order in which the map iteration
returned the expired sessions of a shard. *)
(* [go] main.go:76-85 sweep *)
Definition sweep_section (now : Z) (order : list Session) (w : sweeper) (p : process) : process * sweeper :=
  let shards := length (sd_shards (sv_store (p_server p))) in
  match w with
  | SIdle => (p, SStore now 0 [])
  | SStore t i expired =>
      if decide (i < shards)%nat
      then (with_store (reap_store_shard t i (sv_store (p_server p))) p, SStore t (S i) (expired ++ order))
      else (p, SRelease t expired (Z.of_nat (length expired)))
  | SRelease t (s :: todo) n =>
      (with_mgr (Release mh (s_AccountID s) (s_DeviceID s) (sv_mgr (p_server p))) p, SRelease t todo n)
  | SRelease t [] n => (p, SManager t 0 n 0)
  | SManager t i found n =>
      let m := sv_mgr (p_server p) in
      match sd_shards (m_shards m) !! i with
      | Some sh => (with_mgr (mstep mh hh m (MReapShard i t)) p, SManager t (S i) found (n + msum (reclaimed_in t) sh))
      | None => (if (0 <? n) || (0 <? found) then with_counts 0 0 0 0 (found + n) p else p, SIdle)
      end
  end.

(** How the start ends early: exit code 1, or the panic of [time.NewTicker] on
an interval that is not positive, in the sweeper's goroutine. *)
Inductive start_error : Type := InvalidConfig | TickerPanics.

Context (getenv : string → string).

(* [go] main.go:22-46 main *)
Definition start : result start_error process :=
  let cfg := FromEnv getenv in
  if Validate getenv cfg then Err InvalidConfig
  else if SweepInterval cfg <=? 0 then Err TickerPanics
  else Ok (new_process cfg).

(** The process with the handlers of the requests inside the guard ([None] for a shed
request and for the stats, which change nothing), the sweeper, and the number of
requests so far. *)
Record running_process : Type := mkRunning {
  r_proc : process; r_handlers : list (option hstate); r_sweeper : sweeper; r_requests : Z }.

(** A handler that has stored a session and not counted it. *)
Definition uncounted (h : option hstate) : bool := match h with Some (HCount _) => true | _ => false end.

(** Requests enter, run section by section and leave, also by a panic, with the sweeper in
between, in any order and with any clocks; [L] bounds the limits that the valid tokens
of each account carry. *)
Inductive rstep (L : string → Z) (r : running_process) : running_process → Prop :=
| r_enter pr rq :
    rstep L r (mkRunning (enter pr (r_proc r))
      ((if (guard_enter pr (p_adm (r_proc r))).2 then match pr with high => Some (HServe rq) | low => None end else None)
         :: r_handlers r) (r_sweeper r) (r_requests r + 1))
| r_section i h tsec now cand p' h' :
    r_handlers r !! i = Some (Some h) →
    (∀ rq c, h = HServe rq → Verify mac (HMACKey (p_cfg (r_proc r))) (bearer (rq_Authorization rq) (rq_Token rq)) tsec = Ok c →
      DeviceLimit c ≤ L (AccountID c)) →
    section tsec now cand h (r_proc r) = (p', h') →
    rstep L r (mkRunning p' (<[i := Some h']> (r_handlers r)) (r_sweeper r) (r_requests r))
| r_leave i h d :
    r_handlers r !! i = Some h → uncounted h = false →
    rstep L r (mkRunning (leave i d (r_proc r)) (delete i (r_handlers r)) (r_sweeper r) (r_requests r))
| r_sweep now order p' w' :
    (∀ t i acc, r_sweeper r = SStore t i acc → order ≡ₚ expired_in_shard t i (sv_store (p_server (r_proc r)))) →
    sweep_section now order (r_sweeper r) (r_proc r) = (p', w') →
    rstep L r (mkRunning p' (r_handlers r) w' (r_requests r)).

Definition runs_to (L : string → Z) (r : running_process) : Prop :=
  ∃ p, start = Ok p ∧ rtc (rstep L) (mkRunning p [] SIdle 0) r.
End process.

(** ** Configuration *)

(** The test of [normalized] and of [concurrency.New] accepts exactly powers of two. *)
Lemma land_pred_pow2 n : 1 ≤ n → Z.land n (n - 1) = 0 → n = 2 ^ Z.log2 n.
Proof.
  intros Hn Hl. destruct (Z.log2_spec n ltac:(lia)) as [Hlo Hhi].
  destruct (decide (n = 2 ^ Z.log2 n)) as [|Hne]; [done|]. exfalso.
  assert (Z.log2 (n - 1) = Z.log2 n) as Hp by (apply Z.log2_unique; [apply Z.log2_nonneg|lia]).
  assert (1 ≤ 2 ^ Z.log2 n) by (pose proof (Z.pow_pos_nonneg 2 (Z.log2 n)); pose proof (Z.log2_nonneg n); lia).
  assert (Z.testbit (Z.land n (n - 1)) (Z.log2 n) = true) as Ht.
  { rewrite Z.land_spec, (Z.bit_log2 n) by lia. rewrite <- Hp at 1. rewrite Z.bit_log2; [done|lia]. }
  by rewrite Hl, Z.bits_0 in Ht.
Qed.

Lemma ParseInt_range s z : ParseInt s = Some z → in_i64 z.
Proof.
  unfold ParseInt, in_i64. destruct (signed s); [|done]. case_test; [|done]. intros [= <-]. zbool. width.
Qed.

Lemma envInt_range getenv k def : in_i64 def → in_i64 (envInt getenv k def).
Proof.
  intros. unfold envInt. case_test; [done|]. destruct (ParseInt _) eqn:Ez; simpl; [by eapply ParseInt_range|done].
Qed.

Lemma FromEnv_shards getenv : let n := ShardCount (FromEnv getenv) in ∃ k, 0 ≤ k ≤ 62 ∧ n = 2 ^ k.
Proof.
  cbv zeta. unfold FromEnv, normalized. cbn [ShardCount Default].
  pose proof (envInt_range getenv "LS_SHARDS" 256 ltac:(unfold in_i64; lia)) as Hr.
  set (n := envInt getenv "LS_SHARDS" 256) in *. case_test; [by exists 8|]. zbool.
  exists (Z.log2 n). split; [|by apply land_pred_pow2]. split; [apply Z.log2_nonneg|].
  enough (Z.log2 n < 63) by lia. apply Z.log2_lt_pow2; [lia|]. unfold in_i64 in Hr. lia.
Qed.

Lemma FromEnv_limits getenv : let c := FromEnv getenv in
  0 ≤ SoftMaxInflight c < 2 ^ 62 → SoftMaxInflight c ≤ HardMaxInflight c.
Proof.
  cbv zeta. unfold FromEnv, normalized. cbn [SoftMaxInflight HardMaxInflight]. intros Hs.
  case_test; zbool; [|done]. rewrite i64_small; [lia|unfold in_i64; lia].
Qed.

(** Whatever the environment holds, the configuration keeps what the rest of
the code relies on: the shard count is a power of two between 1 and 2^62, so
both tables use it unchanged; with a soft limit that is not negative and below
2^62 the hard limit is not smaller; and the process starts only with a positive
sweep interval and, outside development, only with a key of its own. *)
Theorem Config_sound (getenv : string → string) : let c := FromEnv getenv in
  (∃ k, 0 ≤ k ≤ 62 ∧ ShardCount c = 2 ^ k) ∧ shard_count (ShardCount c) = ShardCount c ∧
  (0 ≤ SoftMaxInflight c < 2 ^ 62 → SoftMaxInflight c ≤ HardMaxInflight c) ∧
  ∀ p, start getenv = Ok p →
    0 < SweepInterval (p_cfg p) ∧ (getenv "LS_ENV" ∉ [""; "dev"] → HMACKey (p_cfg p) ≠ devHMACKey).
Proof.
  cbv zeta. split_and!; [apply FromEnv_shards| |apply FromEnv_limits|].
  - destruct (FromEnv_shards getenv) as (k & Hk & ->). unfold shard_count.
    assert (0 < 2 ^ k) by (apply Z.pow_pos_nonneg; lia). rewrite (proj2 (Z.ltb_ge _ _)) by lia.
    assert (Z.land (2 ^ k) (2 ^ k - 1) = 0) as ->; [|done].
    rewrite Z.sub_1_r, <- Z.ones_equiv, Z.land_ones, Z_mod_same_full; lia.
  - unfold start, Validate, Env. intros p Hp. repeat case_test; simplify_eq. cbn [new_process p_cfg]. zbool.
    split; [lia|]. intros He Hk. rewrite Hk, String.eqb_refl in E. cbn [andb] in E.
    apply He. destruct (String.eqb (getenv "LS_ENV") "") eqn:E1, (String.eqb (getenv "LS_ENV") "dev") eqn:E2;
      zbool; set_solver.
Qed.

(** ** The running process *)

#[global] Instance response_eq_dec : EqDecision response.
Proof. solve_decision. Defined.

(** *** Sections *)

(** A handler whose sections run without others in between is the handler of [Playback],
with its counter. *)
Theorem handle_alone mh hh sh mac (rq : Request) (tsec now : Z) (cand : string) (p : process) :
  Nat.iter 5 (fun x => section mh hh sh mac tsec now cand x.2 x.1) (p, HServe rq) =
  let '(p', r) := handle mh hh sh mac rq tsec now cand p in (p', HDone r).
Proof.
  unfold handle, serve_with, serve. simpl. destruct p as [cfg [mgr st] adm m]. simpl.
  destruct (String.eqb (bearer _ _) ""); [done|]. destruct (Verify _ _ _ _) as [c|]; [|done].
  destruct (rq_call rq) as [[r|]|[sid|]|[sid|]]; simpl; try done.
  - destruct (String.eqb (DeviceID r) ""); [done|]. simpl. destruct (Admit _ _ _ _ _ _ _ _ _) as [mgr' [sid ok]].
    destruct ok; simpl; [|done]. destruct (String.eqb sid cand) eqn:E; simpl; rewrite ?E; done.
  - destruct (String.eqb sid ""); [done|]. simpl. destruct (Get _ _ _ _) as [x|]; [|done].
    by destruct (negb _).
  - destruct (String.eqb sid ""); [done|]. simpl. destruct (Delete _ _ _) as [st' [x|]]; [|done]. simpl.
    by destruct (String.eqb _ _).
Qed.

Section running.
Context (mh hh sh : string → Z) (mh_nonneg : ∀ id, 0 ≤ mh id) (sh_nonneg : ∀ id, 0 ≤ sh id).
Context (mac : string → string → string) (getenv : string → string) (L : string → Z) (L_nonneg : ∀ a, 0 ≤ L a).

Notation stored p := (peek sh (sv_store (p_server p))).
Notation slots p a := (Z.of_nat (size (devices_of mh (sv_mgr (p_server p)) a))).

(** The sweep of a shard keeps the placement and adds no session. *)
Lemma reap_store_shard_spec now i s : store_ok sh s → store_ok sh (reap_store_shard now i s) ∧
  ∀ k x, peek sh (reap_store_shard now i s) k = Some x → is_Some (peek sh s k).
Proof.
  intros [Hok Hp]. split; [split|].
  - unfold shards_ok in *. cbn [reap_store_shard sd_shards sd_mask]. by rewrite length_alter.
  - intros j m id v Hj Hv. cbn [reap_store_shard sd_shards] in Hj.
    change (shard_ix sh id (reap_store_shard now i s)) with (shard_ix sh id s).
    destruct (decide (i = j)) as [<-|Hne]; [|rewrite list_lookup_alter_ne in Hj by done; by eapply Hp].
    rewrite list_lookup_alter_eq in Hj. apply fmap_Some in Hj as (m0 & Hm & ->). rewrite lookup_omap in Hv. apply bind_Some in Hv as (w & Hw & _). by eapply Hp.
  - intros k x. unfold peek, shardFor. cbn [reap_store_shard sd_shards].
    change (shard_ix sh k (mkSharded _ _)) with (shard_ix sh k s). destruct (decide (i = shard_ix sh k s)) as [->|Hne].
    + rewrite list_lookup_alter_eq. destruct (sd_shards s !! _) as [m|]; simpl; [|by rewrite lookup_empty].
      rewrite lookup_omap. intros (w & -> & _)%bind_Some. eauto.
    + rewrite list_lookup_alter_ne by done. eauto.
Qed.

(** What a section of a handler or of the sweeper may change: one operation of the
manager, within the limits; sessions of the store, of which at most [new] is new; the
counters, [Authorized] by [counted]. *)
Record effect (p p' : process) (new : option string) (counted : Z) : Prop := {
  ef_cfg : p_cfg p' = p_cfg p;
  ef_adm : p_adm p' = p_adm p;
  ef_lat : latCount (p_metrics p') = latCount (p_metrics p);
  ef_auth : mAuthorized (p_metrics p') = mAuthorized (p_metrics p) + counted;
  ef_mgr : manager_ok (sv_mgr (p_server p)) →
    manager_ok (sv_mgr (p_server p')) ∧ ∀ a, slots p a ≤ L a → slots p' a ≤ L a;
  ef_store : store_ok sh (sv_store (p_server p)) → store_ok sh (sv_store (p_server p')) ∧
    ∀ k x, stored p' k = Some x → is_Some (stored p k) ∨ new = Some k }.

Lemma effect_mop p op a d h r s : (∀ a, within_limit a (L a) op) → a = 0 →
  effect p (with_counts a d h s r (with_mgr (mstep mh hh (sv_mgr (p_server p)) op) p)) None 0.
Proof.
  intros Hw ->. split; simpl; try done; [|by eauto]. intros Hok. split; [by apply mstep_ok|].
  intros a Ha. by apply mstep_size.
Qed.

Lemma effect_mgr p op : (∀ a, within_limit a (L a) op) → effect p (with_mgr (mstep mh hh (sv_mgr (p_server p)) op) p) None 0.
Proof.
  intros Hw. split; simpl; try done; [lia| |by eauto]. intros Hok. split; [by apply mstep_ok|].
  intros a Ha. by apply mstep_size.
Qed.

Lemma effect_refl p : effect p p None 0.
Proof. split; try done; [lia|eauto]. Qed.

Lemma effect_counts p a d h s r : effect p (with_counts a d h s r p) None a.
Proof. split; simpl; try done; eauto. Qed.

Lemma effect_store p st new : (store_ok sh (sv_store (p_server p)) → store_ok sh st ∧
    ∀ k x, peek sh st k = Some x → is_Some (stored p k) ∨ new = Some k) → effect p (with_store st p) new 0.
Proof. intros H. split; simpl; try done. lia. Qed.

Lemma Extend_keeps p sid e : effect p (with_store (Extend sh sid e (sv_store (p_server p))).1 p) None 0.
Proof.
  apply effect_store. intros Hok. destruct (Extend_spec sh sh_nonneg sid e _ Hok) as [H1 H2]. split; [done|].
  intros k x. rewrite H2. case_decide; [|by left; eexists]. destruct (stored p k); [by left; eexists|done].
Qed.

(** The session a handler is about to store, and whether it is about to count. *)
Definition creates (h : hstate) : option string :=
  match h with HStore sid cand _ => if String.eqb sid cand then Some sid else None | _ => None end.
Definition counts (h : hstate) : Z := if uncounted (Some h) then 1 else 0.

Lemma section_effect tsec now cand h p p' h' :
  (∀ c r, h = HAdmit c r → DeviceLimit c ≤ L (AccountID c)) →
  section mh hh sh mac tsec now cand h p = (p', h') →
  effect p p' (creates h) (counts h) ∧ counts h' = (if creates h then 1 else 0) ∧
  ∀ c r, h' = HAdmit c r → ∃ rq, h = HServe rq ∧
    Verify mac (HMACKey (p_cfg p)) (bearer (rq_Authorization rq) (rq_Token rq)) tsec = Ok c.
Proof.
  intros Hlim. destruct h as [rq|c r|sid cand' x|sid|c sid|c sid dev e|c dev e| |c sid|acc dev|r]; cbn [section].
  - intros [= <- <-]. split; [apply effect_refl|]. simpl. case_test; [done|].
    destruct (Verify _ _ _ _) as [c|] eqn:Ev; [|done].
    destruct (rq_call rq) as [[r|]|[sid|]|[sid|]]; simpl; try done; case_test; try done.
    split; [done|]. intros c0 r0 [= <- <-]. by exists rq.
  - pose proof (effect_mop p (MAdmit (AccountID c) (DeviceID r) (DeviceLimit c) now (now + SessionTTL (p_cfg p)) cand) 0 1 0 0 0) as H1.
    pose proof (effect_mgr p (MAdmit (AccountID c) (DeviceID r) (DeviceLimit c) now (now + SessionTTL (p_cfg p)) cand)) as H2.
    simpl in H1, H2. destruct (Admit _ _ _ _ _ _ _ _ _) as [m [sid ok]]. simpl in *.
    assert (∀ a, AccountID c = a → DeviceLimit c ≤ L a) as Hw by (intros a <-; by eapply Hlim).
    destruct ok; simpl; intros [= <- <-]; (split; [auto|done]).
  - simpl. case_test; intros [= <- <-]; (split; [|done]); [|apply Extend_keeps]. zbool. subst cand'.
    apply effect_store. intros Hok. destruct (Put_spec sh sh_nonneg sid x _ Hok) as [H1 H2]. split; [done|].
    intros k y. rewrite H2. case_decide; [by right; subst|by left; eexists].
  - intros [= <- <-]. split; [apply effect_counts|done].
  - intros [= <- <-]. split; [apply effect_refl|]. destruct (Get _ _ _ _); [|done]. by case_test.
  - intros [= <- <-]. split; [apply Extend_keeps|done].
  - intros [= <- <-]. split; [by apply (effect_mgr p (MRefresh (AccountID c) dev e))|done].
  - intros [= <- <-]. split; [apply effect_counts|done].
  - destruct (Delete sh sid (sv_store (p_server p))) as [st del] eqn:Ed. intros [= <- <-]. split.
    + apply effect_store. intros Hok. destruct (Delete_spec sh sh_nonneg sid _ Hok) as (H1 & _ & H2).
      rewrite Ed in H1, H2. split; [done|]. simpl in H2. intros k x. rewrite H2. case_decide; [done|by left; eexists].
    + destruct del; [|done]. by case_test.
  - intros [= <- <-]. split; [by apply (effect_mgr p (MRelease acc dev))|done].
  - intros [= <- <-]. split; [apply effect_refl|done].
Qed.

Lemma sweep_effect now order w p p' w' : sweep_section mh hh now order w p = (p', w') → effect p p' None 0.
Proof.
  destruct w as [|t i acc|t [|x todo] n|t i found n]; cbn [sweep_section].
  - intros [= <- _]. apply effect_refl.
  - case_decide; intros [= <- _]; [|apply effect_refl]. apply effect_store. intros Hok.
    destruct (reap_store_shard_spec t i _ Hok) as [H1 H2]. split; [done|]. eauto.
  - intros [= <- _]. apply effect_refl.
  - intros [= <- _]. by apply (effect_mgr p (MRelease (s_AccountID x) (s_DeviceID x))).
  - destruct (_ !! i); intros [= <- _]; [by apply (effect_mgr p (MReapShard i t))|].
    case_test; [apply effect_counts|apply effect_refl].
Qed.

(** [created] holds the ids of the sessions ever stored. *)
Record rinv (r : running_process) : Prop := {
  ri_cfg : p_cfg (r_proc r) = FromEnv getenv;
  ri_limits : softMax (p_adm (r_proc r)) = SoftMaxInflight (p_cfg (r_proc r)) ∧
    hardMax (p_adm (r_proc r)) = HardMaxInflight (p_cfg (r_proc r));
  ri_guard : SoftMaxInflight (p_cfg (r_proc r)) ≤ HardMaxInflight (p_cfg (r_proc r)) → ginv (p_adm (r_proc r));
  ri_len : length (r_handlers r) = length (inside (p_adm (r_proc r)));
  ri_count : r_requests r = latCount (p_metrics (r_proc r)) + inflight (p_adm (r_proc r));
  ri_mgr : manager_ok (sv_mgr (p_server (r_proc r))) ∧ ∀ a, slots (r_proc r) a ≤ L a;
  ri_store : store_ok sh (sv_store (p_server (r_proc r)));
  ri_admit : ∀ i c q, r_handlers r !! i = Some (Some (HAdmit c q)) → DeviceLimit c ≤ L (AccountID c);
  ri_created : ∃ created : gset string, (∀ k x, stored (r_proc r) k = Some x → k ∈ created) ∧
    Z.of_nat (size created) ≤ mAuthorized (p_metrics (r_proc r)) + Z.of_nat (length (filter uncounted (r_handlers r))) }.

Lemma filter_insert (l : list (option hstate)) i h h' : l !! i = Some h →
  Z.of_nat (length (filter uncounted (<[i := h']> l))) =
  Z.of_nat (length (filter uncounted l)) - (if uncounted h then 1 else 0) + (if uncounted h' then 1 else 0).
Proof.
  revert i. induction l as [|x l IH]; intros [|i] Hi; simplify_eq/=; rewrite !filter_cons.
  - destruct (uncounted h), (uncounted h'); simpl; lia.
  - specialize (IH i Hi). destruct (uncounted x); simpl; lia.
Qed.

Lemma filter_delete (l : list (option hstate)) i h : l !! i = Some h → uncounted h = false →
  length (filter uncounted (delete i l)) = length (filter uncounted l).
Proof.
  revert i. induction l as [|x l IH]; intros [|i] Hi Hh; simplify_eq/=; rewrite ?filter_cons, ?Hh; [done|].
  specialize (IH i Hi Hh). destruct (uncounted x); simpl; lia.
Qed.

(** An effect, with the handlers and the sweeper as they are afterwards. *)
Lemma rinv_effect r p' hs w new counted : rinv r → effect (r_proc r) p' new counted →
  length hs = length (r_handlers r) →
  (∀ i c q, hs !! i = Some (Some (HAdmit c q)) → DeviceLimit c ≤ L (AccountID c)) →
  Z.of_nat (length (filter uncounted hs)) =
    Z.of_nat (length (filter uncounted (r_handlers r))) - counted + (if new then 1 else 0) →
  rinv (mkRunning p' hs w (r_requests r)).
Proof.
  intros [Hc [Hs Hh] Hg Hl Hn [Hm Hd] Hst Ha (cr & Hcr & Hsz)] [E1 E2 E3 E4 E5 E6] Hlen Hadm Hun.
  destruct (E5 Hm) as [Hm' Hd']. destruct (E6 Hst) as [Hst' Hk].
  constructor; cbn [r_proc r_handlers r_requests]; rewrite ?E1, ?E2, ?E3; try done; [by rewrite Hlen|auto|].
  exists (match new with Some k => {[k]} ∪ cr | None => cr end). split.
  - intros k x Hx. destruct (Hk k x Hx) as [[y Hy]| ->]; [|set_solver]. destruct new; [|by eapply Hcr].
    apply elem_of_union_r. by eapply Hcr.
  - rewrite E4. destruct new as [k|]; [|lia].
    assert (size ({[k]} ∪ cr) ≤ 1 + size cr)%nat; [|lia].
    rewrite size_union_alt, size_singleton. pose proof (subseteq_size (cr ∖ {[k]}) cr ltac:(set_solver)). lia.
Qed.

Lemma running_step r r' : rinv r → rstep mh hh sh mac L r r' → rinv r'.
Proof.
  intros Hr Hs. destruct Hs as [pr rq|i h tsec now cand p' h' Hi Hv Hs|i h d Hi Hu|now order p' w' Ho Hs].
  - destruct Hr as [Hc [Hs Hh] Hg Hl Hn Hm Hst Ha (cr & Hcr & Hsz)]. unfold enter. cbn [guard_enter].
    assert (∀ (a b : Metrics), latCount a = latCount b → mAuthorized a = mAuthorized b → ∀ t : bool,
      latCount (if t then b else a) = latCount b ∧ mAuthorized (if t then b else a) = mAuthorized b) as Hif by by intros ???? [].
    destruct (Hif (add_counts 0 0 0 1 0 (p_metrics (r_proc r))) (p_metrics (r_proc r)) eq_refl ltac:(simpl; lia)
      (negb ((match pr with low => softMax (p_adm (r_proc r)) | high => hardMax (p_adm (r_proc r)) end) <?
        inflight (p_adm (r_proc r)) + 1))) as [Hif1 Hif2].
    constructor; cbn [r_proc r_handlers r_requests p_cfg p_server p_adm p_metrics softMax hardMax inflight inside]; try done.
    + intros Hle. apply (gstep_inv (p_adm (r_proc r)) (GEnter pr)); [by rewrite Hs, Hh|by apply Hg].
    + simpl. by rewrite Hl.
    + rewrite Hif1, Hn. lia.
    + intros [|j] c q Hj; [|by eapply (Ha j)]. simpl in Hj. by destruct (negb _), pr.
    + exists cr. split; [done|]. rewrite Hif2. rewrite filter_cons, decide_False; [done|]. destruct (guard_enter _ _).2, pr; exact (fun x => x).
  - assert (∀ c q, h = HAdmit c q → DeviceLimit c ≤ L (AccountID c)) as Hadm.
    { intros c q ->. by eapply (ri_admit _ Hr i). }
    destruct (section_effect tsec now cand h (r_proc r) p' h' Hadm Hs) as (He & Hcnt & Hnew).
    eapply (rinv_effect r p' _ _ _ _ Hr He); [by rewrite length_insert| |].
    + intros j c q [(-> & [= ->] & _)|[_ Hj]]%list_lookup_insert_Some; [|by eapply (ri_admit _ Hr j)].
      destruct (Hnew c q eq_refl) as (rq & -> & Hver). by eapply Hv.
    + rewrite (filter_insert _ i (Some h) (Some h') Hi). unfold counts in Hcnt at 1. rewrite Hcnt. done.
  - destruct Hr as [Hc [Hs Hh] Hg Hl Hn Hm Hst Ha (cr & Hcr & Hsz)].
    pose proof (lookup_lt_Some _ _ _ Hi) as Hlt.
    constructor; cbn [leave r_proc r_handlers r_requests p_cfg p_server p_adm p_metrics softMax hardMax inflight inside guard_exit]; try done.
    + intros Hle. pose proof (gstep_inv (p_adm (r_proc r)) (GExit i)) as Hgi. simpl in Hgi.
      rewrite decide_True in Hgi by lia. apply Hgi; [by rewrite Hs, Hh|by apply Hg].
    + rewrite !length_delete; [by rewrite Hl|by apply lookup_lt_is_Some; lia|by eexists].
    + rewrite Hn. simpl. lia.
    + intros j c q Hj. destruct (decide (j < i)%nat).
      * rewrite list_lookup_delete_lt in Hj by done. by eapply (Ha j).
      * rewrite list_lookup_delete_ge in Hj by lia. by eapply (Ha (S j)).
    + exists cr. split; [done|]. by rewrite (filter_delete _ i h Hi Hu).
  - eapply (rinv_effect r p' _ _ None 0 Hr); [by eapply sweep_effect|done|apply Hr|lia].
Qed.

Lemma shards_bound : ShardCount (FromEnv getenv) < 2 ^ 63.
Proof.
  destruct (FromEnv_shards getenv) as (k & Hk & ->).
  apply Z.pow_lt_mono_r; lia.
Qed.

Lemma rinv_start p : start getenv = Ok p → rinv (mkRunning p [] SIdle 0).
Proof.
  unfold start. intros H. repeat case_test; simplify_eq. constructor; try done.
  - intros _. split; [done|]. unfold running. simpl. lia.
  - cbn. split; [apply Manager_New_ok, shards_bound|]. intros a. rewrite devices_New, map_size_empty. apply L_nonneg.
  - cbn. apply NewMemory_ok, shards_bound.
  - exists ∅. split; [|done]. intros sid s. cbn. unfold NewMemory. by rewrite peek_new.
Qed.

Lemma runs_rinv r : runs_to mh hh sh mac getenv L r → rinv r.
Proof.
  intros (p & Hp & Hr). eapply (rtc_invariant _ rinv); [|exact Hr|by apply rinv_start].
  intros x y. apply running_step.
Qed.

End running.

(** ** The mean latency *)

(** While the sum of the latencies fits 64 bits, the reported mean lies between
the smallest and the largest of them. *)
Theorem Mean_latency_within (ds : list Z) (lo hi : Z) :
  ds ≠ [] → 0 ≤ lo → Forall (fun d => lo ≤ d ≤ hi) ds → hi * Z.of_nat (length ds) < 2 ^ 63 →
  lo ≤ MeanLatency (foldl (fun m d => Observe d m) NewMetrics ds) ≤ hi.
Proof.
  intros Hne Hlo Hds Hsum.
  assert (∀ m n, 0 ≤ latCount m → latCount m = Z.of_nat n → lo * latCount m ≤ latNanos m ≤ hi * latCount m →
    hi * Z.of_nat (n + length ds) < 2 ^ 63 → let m' := foldl (fun m d => Observe d m) m ds in
    latCount m' = Z.of_nat (n + length ds) ∧ lo * latCount m' ≤ latNanos m' ≤ hi * latCount m') as Hgen.
  { clear Hne Hsum. induction Hds as [|d ds Hd Hds IH]; intros m n Hc Hn Hb Hs; simpl in *.
    - split; [lia|done].
    - destruct (IH (Observe d m) (S n)) as [IH1 IH2].
      + simpl. lia.
      + simpl. lia.
      + cbn [Observe latCount latNanos]. rewrite i64_small; [lia|]. unfold in_i64. split; [nia|]. nia.
      + by replace (S n + length ds)%nat with (n + S (length ds))%nat by lia.
      + split; [rewrite IH1; lia|done]. }
  destruct (Hgen NewMetrics 0%nat) as [Hc Hb]; [done|done|simpl; lia|done|]. cbv zeta in *.
  set (m := foldl _ NewMetrics ds) in *. assert (0 < latCount m).
  { rewrite Hc. destruct ds; [done|]. simpl. lia. }
  unfold MeanLatency. rewrite (proj2 (Z.eqb_neq _ _)) by lia. rewrite Z.quot_div_nonneg by nia.
  split; [apply Z.div_le_lower_bound; lia|apply Z.div_le_upper_bound; lia].
Qed.

(** ** Witnesses and behaviours outside the conditions *)

Definition env_from (l : list (string * string)) (k : string) : string :=
  default "" ((list_to_map l : gmap string string) !! k).

Definition demo_env : string → string :=
  env_from [("LS_ENV", "prod"); ("LS_HMAC_KEY", "k"); ("LS_SHARDS", "1"); ("LS_SESSION_TTL", "30ns")].

(** Two devices of an account with one slot: the second one's [Admit] runs between the
[Admit] and the [Put] of the first and is refused; the first has stored its session and
has not counted it. *)
Definition demo_section := section demo_hash demo_hash demo_hash demo_mac 0 1.
Definition demo_start : process := new_process (FromEnv demo_env).

(** Runs a section of the handler [i], drawing the id [cand]. *)
Definition run_section (r : running_process) (ic : nat * string) : running_process :=
  match r_handlers r !! ic.1 with
  | Some (Some h) => let '(p, h') := demo_section ic.2 h (r_proc r) in
                     mkRunning p (<[ic.1 := Some h']> (r_handlers r)) (r_sweeper r) (r_requests r)
  | _ => r
  end.

Definition demo_r2 : running_process :=
  mkRunning (enter high (enter high demo_start))
    [Some (HServe (demo_rq "acc" (demo_auth "phone"))); Some (HServe (demo_rq "acc" (demo_auth "tv")))] SIdle 2.
Definition demo_r7 : running_process :=
  foldl run_section demo_r2 [(0%nat, ""); (1%nat, ""); (1%nat, "s1"); (0%nat, "s2"); (1%nat, "")].

Lemma run_section_rtc r ic : p_cfg (r_proc r) = FromEnv demo_env →
  (∀ rq, r_handlers r !! ic.1 = Some (Some (HServe rq)) → ∃ k, rq = demo_rq "acc" k) →
  rtc (rstep demo_hash demo_hash demo_hash demo_mac (fun _ => 1)) r (run_section r ic).
Proof.
  intros Hcfg Hrq. unfold run_section. destruct (r_handlers r !! ic.1) as [[h|]|] eqn:Hi; [|done|done].
  destruct (demo_section _ _ _) as [p h'] eqn:Hs. apply rtc_once.
  eapply (r_section _ _ _ _ _ _ ic.1 h 0 1 ic.2); [done| |exact Hs].
  intros rq c ->. destruct (Hrq rq eq_refl) as [k ->]. rewrite Hcfg.
  replace (HMACKey (FromEnv demo_env)) with "k" by by vm_compute. intros ->%demo_verify. done.
Qed.

Lemma demo_runs : runs_to demo_hash demo_hash demo_hash demo_mac demo_env (fun _ => 1) demo_r7.
Proof.
  exists demo_start. split; [by vm_compute|].
  assert (∀ r rq s n, (r_sweeper r = s ∧ r_requests r + 1 = n) → (guard_enter high (p_adm (r_proc r))).2 = true →
    rstep demo_hash demo_hash demo_hash demo_mac (fun _ => 1) r
      (mkRunning (enter high (r_proc r)) (Some (HServe rq) :: r_handlers r) s n)) as Henter.
  { intros r rq s n [<- <-] Hg. pose proof (r_enter demo_hash demo_hash demo_hash demo_mac (fun _ => 1) r high rq) as H.
    by rewrite Hg in H. }
  eapply rtc_l; [by apply (Henter _ (demo_rq "acc" (demo_auth "tv")) SIdle 1)|].
  eapply rtc_l; [by apply (Henter _ (demo_rq "acc" (demo_auth "phone")) SIdle 2)|].
  unfold demo_r7. cbn [foldl].
  do 3 (etrans; [|apply run_section_rtc; [by vm_compute|intros rq H; vm_compute in H; discriminate]]).
  assert (r_handlers (run_section demo_r2 (0%nat, "")) !! 1%nat = Some (Some (HServe (demo_rq "acc" (demo_auth "tv")))))
    as Htv by by vm_compute.
  etrans; [|apply run_section_rtc; [by vm_compute|intros rq; cbn [fst]; rewrite Htv; intros [= <-]; by eexists]].
  apply run_section_rtc; [by vm_compute|]. intros rq [= <-]. by eexists.
Qed.

Lemma demo_r7_stored sid : sid ∈ ["s1"] → is_Some (peek demo_hash (sv_store (p_server (r_proc demo_r7))) sid).
Proof. intros ->%list_elem_of_singleton. vm_compute. by eexists. Qed.


Lemma Mean_latency_within_witness :
  MeanLatency (foldl (fun m d => Observe d m) NewMetrics [3; 5; 8]) = 5 ∧
  3 ≤ MeanLatency (foldl (fun m d => Observe d m) NewMetrics [3; 5; 8]) ≤ 8.
Proof.
  split; [done|]. apply Mean_latency_within; [done|lia| |simpl; lia].
  repeat constructor; lia.
Defined.

(** A soft limit of 2^62 with a smaller hard limit: the doubling wraps, the hard
limit becomes the smallest integer, and the first playback request on the idle
server is shed.  With negative limits the hard limit stays below the soft one. *)
Theorem Hard_limit_wraps :
  let env1 := env_from [("LS_SOFT_MAX", "4611686018427387904"); ("LS_HARD_MAX", "1")] in
  let env2 := env_from [("LS_SOFT_MAX", "-1"); ("LS_HARD_MAX", "-5")] in
  match start env1, start env2 with
  | Ok p1, Ok p2 =>
      HardMaxInflight (p_cfg p1) = min_i64 ∧ (guard_enter high (p_adm p1)).2 = false ∧
      HardMaxInflight (p_cfg p2) < SoftMaxInflight (p_cfg p2)
  | _, _ => False
  end.
Proof. vm_compute. done. Qed.

(** A sweep interval of zero is a well-formed duration, so it does not fall
back to the default: the sweeper's goroutine panics and the process ends. *)
Theorem Sweep_zero_panics :
  start (env_from [("LS_SWEEP", "0s")]) = Err TickerPanics ∧
  SweepInterval (FromEnv (env_from [("LS_SWEEP", "5")])) = SweepInterval Default.
Proof. by vm_compute. Qed.

(** The sum of the latencies wraps: two requests of 2^62 nanoseconds in all
give a negative mean.  At the default hard limit, with every slot busy, that
much latency adds up in less than six days. *)
Theorem Mean_latency_wraps :
  MeanLatency (Observe (2 ^ 62) (Observe (2 ^ 62) NewMetrics)) < 0 ∧
  2 ^ 63 < HardMaxInflight Default * (6 * 24 * Hour).
Proof. by vm_compute. Qed.
