(* ===== verification/Holds.v ===== *)
(** * ttd/internal/queue: holds and bookings of queue slots

The hold service over Redis and the booking file.  Redis is an interface
([RedisDB] with [RedisLaws], the documented effect of each command on what the
other commands read); the Lua scripts of the source are functions on it, each
one atomic step.  The methods of [Service] are programs that issue commands
one at a time, so that any number of requests and workers interleave between
the commands; a command may fail without effect, or take effect and lose its
reply.  The clock is read by a command of its own. *)

From Stdlib Require Import ZArith Lia Ascii.
From stdpp Require Import base gmap strings fin_maps fin_sets relations list pretty.
From S2P Require Import Prelude GoStrings.

Open Scope Z_scope.

(* [base] ttd/internal/queue *)

(** ** Redis *)

(** The commands the service uses; integers stored as strings are integers. *)
(* [go] redis.go:14-18 Redis *)
Class RedisDB (R : Type) : Type := {
  r_get : string → R → option Z;
  r_hgetall : string → R → gmap string string;
  r_zscore : string → string → R → option Z;
  r_volatile : string → R → bool;
  r_zrangebyscore : string → Z → R → list string;
  r_zrange : string → nat → R → list string;
  r_set : string → Z → R → R;
  r_incrby : string → Z → R → R;
  r_hset : string → list (string * string) → R → R;
  r_zadd : string → Z → string → R → R;
  r_zrem : string → string → R → R;
  r_expire : string → R → R;
  r_evict : string → R → R;
}.

(** What each write changes of what the reads see. *)
Class RedisLaws (R : Type) `{RedisDB R} : Prop := {
  get_set k v r k' : r_get k' (r_set k v r) = if decide (k = k') then Some v else r_get k' r;
  get_incrby k d r k' :
    r_get k' (r_incrby k d r) = if decide (k = k') then Some (default 0 (r_get k r) + d) else r_get k' r;
  get_hset k fs r k' : r_get k' (r_hset k fs r) = r_get k' r;
  get_zadd k s m r k' : r_get k' (r_zadd k s m r) = r_get k' r;
  get_zrem k m r k' : r_get k' (r_zrem k m r) = r_get k' r;
  get_expire k r k' : r_get k' (r_expire k r) = r_get k' r;
  get_evict k r k' : r_get k' (r_evict k r) = r_get k' r;
  hash_set k v r k' : r_hgetall k' (r_set k v r) = r_hgetall k' r;
  hash_incrby k d r k' : r_hgetall k' (r_incrby k d r) = r_hgetall k' r;
  hash_hset k fs r k' :
    r_hgetall k' (r_hset k fs r) = if decide (k = k') then list_to_map fs ∪ r_hgetall k r else r_hgetall k' r;
  hash_zadd k s m r k' : r_hgetall k' (r_zadd k s m r) = r_hgetall k' r;
  hash_zrem k m r k' : r_hgetall k' (r_zrem k m r) = r_hgetall k' r;
  hash_expire k r k' : r_hgetall k' (r_expire k r) = r_hgetall k' r;
  hash_evict k r k' : r_hgetall k' (r_evict k r) = if decide (k = k') then ∅ else r_hgetall k' r;
  vol_set k v r k' : r_volatile k' (r_set k v r) = if decide (k = k') then false else r_volatile k' r;
  vol_incrby k d r k' : r_volatile k' (r_incrby k d r) = r_volatile k' r;
  vol_hset k fs r k' : r_volatile k' (r_hset k fs r) = r_volatile k' r;
  vol_zadd k s m r k' : r_volatile k' (r_zadd k s m r) = r_volatile k' r;
  vol_zrem k m r k' : r_volatile k' (r_zrem k m r) = r_volatile k' r;
  vol_expire k r k' : r_volatile k' (r_expire k r) = if decide (k = k') then true else r_volatile k' r;
  vol_evict k r k' : r_volatile k' (r_evict k r) = if decide (k = k') then false else r_volatile k' r;
}.

(** ** Data *)

(* [go] types.go:5-12 Hold *)
Record Hold : Type := mkHold {
  h_ID : string; h_Slot : string; h_VisitorID : string; h_Status : string; h_ExpiresAt : Z; h_ConfirmedAt : Z }.

(* [go] types.go:14-20 Booking *)
Record Booking : Type := mkBooking {
  b_ID : string; b_HoldID : string; b_Slot : string; b_VisitorID : string; b_Confirmed : Z }.

#[global] Instance Booking_eq_dec : EqDecision Booking.
Proof. solve_decision. Defined.

(** The zero [time.Time] in nanoseconds of the Unix clock. *)
Definition zero_time : Z := -62135596800000000000.

(* [go] service.go:12-16 ErrSlotFull *)
Inductive queue_error : Type := ErrSlotFull | ErrHoldMissing | ErrHoldInactive | ErrOther.

(* [go] service.go:28-28 capacityKey *)
Definition capacityKey (slot : string) : string := "ttd:queue:slot:" +:+ slot +:+ ":capacity".

(* [go] service.go:29-29 usedKey *)
Definition usedKey (slot : string) : string := "ttd:queue:slot:" +:+ slot +:+ ":used".

(* [go] service.go:30-30 holdKey *)
Definition holdKey (id : string) : string := "ttd:queue:hold:" +:+ id.

(* [go] service.go:31-31 timerKey *)
Definition timerKey : string := "ttd:queue:hold-deadlines".

(* [go] service.go:32-32 confirmKey *)
Definition confirmKey : string := "ttd:queue:pending-confirmations".

(** [time.Time.UnixMilli]. *)
Definition UnixMilli (t : Z) : Z := t / 1000000.

(** ** The Lua scripts *)

Section scripts.
Context {R : Type} `{RedisDB R}.
(** [time.Time.Format] with [RFC3339Nano]. *)
Context (fmtT : Z → string).

(* [go] service.go:53-61 CreateHold *)
Definition eval_create (id slot visitor : string) (expires : Z) (r : R) : R * Z :=
  let capacity := default (-1) (r_get (capacityKey slot) r) in
  let used := default 0 (r_get (usedKey slot) r) in
  if capacity <? 0 then (r, -2)
  else if capacity <=? used then (r, 0)
  else
    let r := r_hset (holdKey id) [("id", id); ("slot", slot); ("visitor_id", visitor); ("status", "held");
                                  ("expires_at", fmtT expires)] r in
    let r := r_incrby (usedKey slot) 1 r in
    (r_zadd timerKey (UnixMilli expires) id r, 1).

(* [go] service.go:91-97 ConfirmHold *)
Definition eval_confirm (id : string) (nowMilli confirmedAt : Z) (r : R) : R * Z :=
  if negb (bool_decide (r_hgetall (holdKey id) r !! "status" = Some "held")) then (r, 0)
  else if default 0 (r_zscore timerKey id r) <=? nowMilli then (r, 0)
  else
    let r := r_hset (holdKey id) [("status", "confirming"); ("confirmed_at", fmtT confirmedAt)] r in
    let r := r_zrem timerKey id r in
    (r_zadd confirmKey nowMilli id r, 1).

(* [go] service.go:131-135 persistAndFinalize *)
Definition eval_finalize (id : string) (r : R) : R * Z :=
  if negb (bool_decide (r_hgetall (holdKey id) r !! "status" = Some "confirming")) then (r, 0)
  else (r_zrem confirmKey id (r_hset (holdKey id) [("status", "confirmed")] r), 1).

(** Without a slot field the concatenation raises an error after the first
write. *)
(* [go] service.go:194-201 ReleaseExpiredHolds *)
Definition eval_expire (id : string) (r : R) : R * option Z :=
  let slot := r_hgetall (holdKey id) r !! "slot" in
  if negb (bool_decide (r_hgetall (holdKey id) r !! "status" = Some "held"))
  then (r_zrem timerKey id r, Some 0)
  else
    let r := r_hset (holdKey id) [("status", "expired")] r in
    match slot with
    | None => (r, None)
    | Some slot =>
        let r := r_incrby (usedKey slot) (-1) r in
        (r_expire (holdKey id) (r_zrem timerKey id r), Some 1)
    end.
End scripts.

(** ** Commands, replies and programs *)

Inductive cmd : Type :=
| CNow
| CSetCapacity (slot : string) (capacity : Z)
| CCreate (slot visitor : string) (expires : Z)
| CConfirm (id : string) (nowMilli confirmedAt : Z)
| CFinalize (id : string)
| CHGetAll (id : string)
| CTimers (nowMilli : Z)
| CExpire (id : string)
| CPending
| CRecord (b : Booking).

(** [RCreated] carries the id that was drawn for the hold. *)
Inductive reply : Type :=
| RErr | ROK | RAlready | RTime (t : Z) | RInt (z : Z) | RCreated (id : string) (z : Z)
| RHash (h : gmap string string) | RList (l : list string).

(** What a request returns to its caller. *)
Inductive outcome : Type :=
| OHold (h : Hold) | OBooking (b : Booking) | OCount (n : Z) | OCountErr (n : Z) | ODone | OErr (e : queue_error).

Inductive prog : Type :=
| Ret (o : outcome)
| Cmd (c : cmd) (k : reply → prog).

Section service.
Context (parseT : string → option Z).

(* [go] service.go:34-40 SetCapacity *)
Definition SetCapacity (slot : string) (capacity : Z) : prog :=
  if String.eqb slot "" || (capacity <? 0) then Ret (OErr ErrOther)
  else Cmd (CSetCapacity slot capacity) (fun rep => match rep with RErr => Ret (OErr ErrOther) | _ => Ret ODone end).

(** The id is drawn with the script's call; [randOK] is false when the random
source fails. *)
(* [go] service.go:43-78 CreateHold *)
Definition CreateHold (randOK : bool) (slot visitorID : string) (ttl : Z) : prog :=
  if String.eqb slot "" || String.eqb visitorID "" || (ttl <=? 0) then Ret (OErr ErrOther)
  else if negb randOK then Ret (OErr ErrOther)
  else Cmd CNow (fun rep =>
    match rep with
    | RTime now =>
        let expires := now + ttl in
        Cmd (CCreate slot visitorID expires) (fun rep =>
          match rep with
          | RCreated id value =>
              if value =? 1 then Ret (OHold (mkHold id slot visitorID "held" expires zero_time))
              else if value =? 0 then Ret (OErr ErrSlotFull) else Ret (OErr ErrOther)
          | _ => Ret (OErr ErrOther)
          end)
    | _ => Ret (OErr ErrOther)
    end).

(** The hold in the reply of [HGETALL]. *)
(* [go] service.go:151-174 GetHold *)
Definition parse_hold (rep : reply) : result queue_error Hold :=
  match rep with
  | RHash fields =>
      if decide (fields = ∅) then Err ErrHoldMissing
      else
        let field k := default "" (fields !! k) in
        match parseT (field "expires_at") with
        | None => Err ErrOther
        | Some expiresAt =>
            let hold c := mkHold (field "id") (field "slot") (field "visitor_id") (field "status") expiresAt c in
            if String.eqb (field "confirmed_at") "" then Ok (hold zero_time)
            else match parseT (field "confirmed_at") with
                 | Some c => Ok (hold c)
                 | None => Err ErrOther
                 end
        end
  | _ => Err ErrOther
  end.

(* [go] service.go:146-175 GetHold *)
Definition GetHold (id : string) (k : result queue_error Hold → prog) : prog :=
  Cmd (CHGetAll id) (fun rep => k (parse_hold rep)).

(* [go] service.go:124-124 persistAndFinalize *)
Definition booking_of (h : Hold) : Booking :=
  mkBooking ("booking-" +:+ h_ID h) (h_ID h) (h_Slot h) (h_VisitorID h) (h_ConfirmedAt h).

(* [go] service.go:118-144 persistAndFinalize *)
Definition persistAndFinalize (h : Hold) (k : result queue_error Booking → prog) : prog :=
  if h_ConfirmedAt h =? zero_time then k (Err ErrOther)
  else
    let finalize :=
      if String.eqb (h_Status h) "confirmed" then k (Ok (booking_of h))
      else Cmd (CFinalize (h_ID h)) (fun rep =>
        match rep with
        | RInt z => k (if z =? 1 then Ok (booking_of h) else Err ErrHoldInactive)
        | _ => k (Err ErrOther)
        end) in
    Cmd (CRecord (booking_of h)) (fun rep =>
      match rep with ROK | RAlready => finalize | _ => k (Err ErrOther) end).

Definition ret_booking (r : result queue_error Booking) : prog :=
  Ret (match r with Ok b => OBooking b | Err e => OErr e end).

Definition locked_status (s : string) : bool := String.eqb s "confirmed" || String.eqb s "confirming".

(* [go] service.go:80-116 ConfirmHold *)
Definition ConfirmHold (id : string) : prog :=
  GetHold id (fun res =>
    match res with
    | Err e => Ret (OErr e)
    | Ok hold =>
        if locked_status (h_Status hold) then persistAndFinalize hold ret_booking
        else if negb (String.eqb (h_Status hold) "held") then Ret (OErr ErrHoldInactive)
        else Cmd CNow (fun rep =>
          match rep with
          | RTime t1 =>
              if h_ExpiresAt hold <=? t1 then Ret (OErr ErrHoldInactive)
              else Cmd CNow (fun rep =>
                match rep with
                | RTime confirmedAt =>
                    Cmd CNow (fun rep =>
                      match rep with
                      | RTime t3 =>
                          Cmd (CConfirm id (UnixMilli t3) confirmedAt) (fun rep =>
                            match rep with
                            | RInt z =>
                                if z =? 1 then
                                  persistAndFinalize (mkHold (h_ID hold) (h_Slot hold) (h_VisitorID hold)
                                    "confirming" (h_ExpiresAt hold) confirmedAt) ret_booking
                                else GetHold id (fun res =>
                                  match res with
                                  | Err e => Ret (OErr e)
                                  | Ok latest =>
                                      if locked_status (h_Status latest) then persistAndFinalize latest ret_booking
                                      else Ret (OErr ErrHoldInactive)
                                  end)
                            | _ => Ret (OErr ErrOther)
                            end)
                      | _ => Ret (OErr ErrOther)
                      end)
                | _ => Ret (OErr ErrOther)
                end)
          | _ => Ret (OErr ErrOther)
          end)
    end).

(* [go] service.go:189-210 ReleaseExpiredHolds *)
Fixpoint release_loop (ids : list string) (released : Z) : prog :=
  match ids with
  | [] => Ret (OCount released)
  | id :: ids' =>
      Cmd (CExpire id) (fun rep =>
        match rep with
        | RInt z => release_loop ids' (if z =? 1 then released + 1 else released)
        | _ => Ret (OCountErr released)
        end)
  end.

(* [go] service.go:178-211 ReleaseExpiredHolds *)
Definition ReleaseExpiredHolds : prog :=
  Cmd CNow (fun rep =>
    match rep with
    | RTime now =>
        Cmd (CTimers (UnixMilli now)) (fun rep =>
          match rep with RList ids => release_loop ids 0 | _ => Ret (OCountErr 0) end)
    | _ => Ret (OCountErr 0)
    end).

(* [go] service.go:243-252 RecoverPendingConfirmations *)
Fixpoint recover_loop (ids : list string) : prog :=
  match ids with
  | [] => Ret ODone
  | id :: ids' =>
      GetHold id (fun res =>
        match res with
        | Ok hold =>
            if String.eqb (h_Status hold) "confirming" then persistAndFinalize hold (fun _ => recover_loop ids')
            else recover_loop ids'
        | Err _ => recover_loop ids'
        end)
  end.

(* [go] service.go:234-253 RecoverPendingConfirmations *)
Definition RecoverPendingConfirmations : prog :=
  Cmd CPending (fun rep => match rep with RList ids => recover_loop ids | _ => Ret ODone end).
End service.

(** ** Execution of a command *)

(** The booking file, the holds the store has seen, the clock, and the ids
drawn so far. *)
(* [go] booking_store.go:21-25 FileBookingStore *)
Record qstate (R : Type) : Type := mkQ {
  q_redis : R; q_file : list Booking; q_seen : gset string; q_clock : Z; q_ids : gset string }.
Arguments mkQ {R} _ _ _ _ _.
Arguments q_redis {R} _.
Arguments q_file {R} _.
Arguments q_seen {R} _.
Arguments q_clock {R} _.
Arguments q_ids {R} _.

(** The command succeeds, fails without effect, or takes effect and fails: for
Redis the reply is lost, for the file the line is written but not synced. *)
Inductive fate : Type := Fine | Failed | Lost.

Section exec.
Context {R : Type} `{RedisDB R}.
Context (fmtT : Z → string).

(** [FileBookingStore.Record]: a hold seen before is refused; otherwise the
line is appended, and the hold counts as seen only after the sync. *)
(* [go] booking_store.go:49-75 Record *)
Definition Record_booking (b : Booking) (f : fate) (st : qstate R) : qstate R * reply :=
  if decide (b_HoldID b ∈ q_seen st) then (st, RAlready)
  else match f with
       | Failed => (st, RErr)
       | Lost => (mkQ (q_redis st) (q_file st ++ [b]) (q_seen st) (q_clock st) (q_ids st), RErr)
       | Fine => (mkQ (q_redis st) (q_file st ++ [b]) ({[b_HoldID b]} ∪ q_seen st) (q_clock st) (q_ids st), ROK)
       end.

(** The store after a restart knows the holds of the file. *)
(* [go] booking_store.go:27-47 NewFileBookingStore *)
Definition reload (st : qstate R) : qstate R :=
  mkQ (q_redis st) (q_file st) (list_to_set (b_HoldID <$> q_file st)) (q_clock st) (q_ids st).

Definition with_redis (r : R) (st : qstate R) : qstate R :=
  mkQ r (q_file st) (q_seen st) (q_clock st) (q_ids st).

(** A command that Redis executes: its effect and its reply. *)
Definition redis_exec (c : cmd) (id : string) (r : R) : R * reply :=
  match c with
  | CSetCapacity slot n => (r_set (capacityKey slot) n r, ROK)
  | CCreate slot visitor expires => let '(r', z) := eval_create fmtT id slot visitor expires r in (r', RCreated id z)
  | CConfirm id now t => let '(r', z) := eval_confirm fmtT id now t r in (r', RInt z)
  | CFinalize id => let '(r', z) := eval_finalize id r in (r', RInt z)
  | CHGetAll id => (r, RHash (r_hgetall (holdKey id) r))
  | CTimers now => (r, RList (r_zrangebyscore timerKey now r))
  | CExpire id => let '(r', z) := eval_expire id r in (r', match z with Some z => RInt z | None => RErr end)
  | CPending => (r, RList (r_zrange confirmKey 100 r))
  | _ => (r, RErr)
  end.

(** [id] is the id drawn if the command creates a hold. *)
Definition exec (c : cmd) (f : fate) (id : string) (st : qstate R) : qstate R * reply :=
  match c with
  | CNow => (st, RTime (q_clock st))
  | CRecord b => Record_booking b f st
  | _ =>
      let st' := match c with
                 | CCreate _ _ _ => mkQ (q_redis st) (q_file st) (q_seen st) (q_clock st) ({[id]} ∪ q_ids st)
                 | _ => st
                 end in
      let '(r, rep) := redis_exec c id (q_redis st) in
      match f with
      | Failed => (st', RErr)
      | Lost => (with_redis r st', RErr)
      | Fine => (with_redis r st', rep)
      end
  end.
End exec.

(** ** The system: requests, workers, time, eviction and restarts *)

Section system.
Context {R : Type} `{RedisDB R}.
Context (fmtT : Z → string) (parseT : string → option Z).
(** The largest capacity that is ever configured for a slot. *)
Context (Cmax : string → Z).

Inductive api : prog → Prop :=
| api_capacity slot c : c ≤ Cmax slot → api (SetCapacity slot c)
| api_create ok slot visitor ttl : api (CreateHold ok slot visitor ttl)
| api_confirm id : api (ConfirmHold parseT id)
| api_get id : api (GetHold parseT id (fun r => Ret (match r with Ok h => OHold h | Err e => OErr e end)))
| api_release : api ReleaseExpiredHolds
| api_recover : api (RecoverPendingConfirmations parseT).

Record qsys : Type := mkSys { sy_st : qstate R; sy_threads : list prog }.

Inductive qstep : qsys → qsys → Prop :=
| q_spawn st ts p : api p → qstep (mkSys st ts) (mkSys st (ts ++ [p]))
| q_run st ts i c k f id st' rep :
    ts !! i = Some (Cmd c k) → id ∉ q_ids st → exec fmtT c f id st = (st', rep) →
    qstep (mkSys st ts) (mkSys st' (<[i := k rep]> ts))
| q_tick st ts t : q_clock st ≤ t →
    qstep (mkSys st ts) (mkSys (mkQ (q_redis st) (q_file st) (q_seen st) t (q_ids st)) ts)
| q_evict st ts key : r_volatile key (q_redis st) = true →
    qstep (mkSys st ts) (mkSys (with_redis (r_evict key (q_redis st)) st) ts)
| q_restart st ts : qstep (mkSys st ts) (mkSys (reload st) []).

(** The database before the service runs. *)
Definition q_init (r : R) : Prop :=
  (∀ k, r_get k r = None) ∧ (∀ k, r_hgetall k r = ∅) ∧ (∀ k, r_volatile k r = false).

(** The hash of a hold, and the holds of a slot that take up its capacity. *)
Definition hash (st : qstate R) (id : string) : gmap string string := r_hgetall (holdKey id) (q_redis st).

Definition active (slot : string) (h : gmap string string) : Prop :=
  h !! "slot" = Some slot ∧
  (h !! "status" = Some "held" ∨ h !! "status" = Some "confirming" ∨ h !! "status" = Some "confirmed").

#[global] Instance active_dec slot h : Decision (active slot h).
Proof. unfold active. apply _. Defined.

Definition active_count (slot : string) (st : qstate R) : Z :=
  Z.of_nat (size (filter (fun id => active slot (hash st id)) (q_ids st))).

Definition used (slot : string) (st : qstate R) : Z := default 0 (r_get (usedKey slot) (q_redis st)).

(** What a client may know about a hold for good: its slot and visitor, and
when it was confirmed. *)
Record fact : Type := mkFact { f_id : string; f_slot : string; f_visitor : string; f_confirmed : option Z }.

Definition of_slot (h : gmap string string) (slot visitor : string) : Prop :=
  h !! "slot" = Some slot ∧ h !! "visitor_id" = Some visitor.

Definition confirmed_at (h : gmap string string) (t : Z) : Prop :=
  (h !! "status" = Some "confirming" ∨ h !! "status" = Some "confirmed") ∧ h !! "confirmed_at" = Some (fmtT t).

Definition fact_ok (st : qstate R) (f : fact) : Prop :=
  f_id f ∈ q_ids st ∧
  match f_confirmed f with
  | None => hash st (f_id f) = ∅ ∨ of_slot (hash st (f_id f)) (f_slot f) (f_visitor f)
  | Some t => of_slot (hash st (f_id f)) (f_slot f) (f_visitor f) ∧ confirmed_at (hash st (f_id f)) t
  end.

Definition booking_fact (b : Booking) : fact :=
  mkFact (b_HoldID b) (b_Slot b) (b_VisitorID b) (Some (b_Confirmed b)).

(** ** The invariant of the store *)

(** A stored hold is complete and in one of its four states. *)
Definition hold_ok (id : string) (h : gmap string string) : Prop :=
  h !! "id" = Some id ∧ is_Some (h !! "slot") ∧ is_Some (h !! "visitor_id") ∧
  (h !! "status" = Some "held" ∨ h !! "status" = Some "expired" ∨ ∃ t, confirmed_at h t).

Record qinv (st : qstate R) : Prop := {
  qi_fresh : ∀ id, id ∉ q_ids st → hash st id = ∅;
  qi_hash : ∀ id, hash st id = ∅ ∨ hold_ok id (hash st id);
  qi_used : ∀ slot, used slot st = active_count slot st;
  qi_cap : ∀ slot, default (-1) (r_get (capacityKey slot) (q_redis st)) ≤ Cmax slot;
  qi_limit : ∀ slot, active_count slot st ≤ Cmax slot;
  qi_vol : ∀ k, r_volatile k (q_redis st) = true →
    ∃ id, k = holdKey id ∧ id ∈ q_ids st ∧ (hash st id = ∅ ∨ hash st id !! "status" = Some "expired");
  qi_file : ∀ b, b ∈ q_file st → fact_ok st (booking_fact b) ∧ b_ID b = "booking-" +:+ b_HoldID b;
  qi_seen : ∀ id, id ∈ q_seen st → ∃ b, b ∈ q_file st ∧ b_HoldID b = id;
}.
End system.

(** ** Keys *)

#[global] Instance holdKey_inj : Inj (=) (=) holdKey.
Proof. intros a b Hab. unfold holdKey in Hab. by injection Hab. Qed.

#[global] Instance usedKey_inj : Inj (=) (=) usedKey.
Proof. intros a b Hab. unfold usedKey in Hab. injection Hab as Hab. exact (str_app_inj_suffix a b ":used" Hab). Qed.

Fixpoint last_char (s : string) : option Ascii.ascii :=
  match s with
  | EmptyString => None
  | String a s' => match last_char s' with Some c => Some c | None => Some a end
  end.

Lemma last_char_app a s c : last_char s = Some c → last_char (a +:+ s) = Some c.
Proof. intros Hs. induction a as [|x a IH]; [done|]. rewrite str_app_cons. simpl. by rewrite IH. Qed.

(** The keys of the two counters of slots, of the holds and of the two queues
never meet, so that no command sees a value of the wrong type. *)
Lemma keys_disjoint slot slot' id :
  capacityKey slot ≠ usedKey slot' ∧ capacityKey slot ≠ holdKey id ∧ usedKey slot ≠ holdKey id ∧
  timerKey ≠ holdKey id ∧ timerKey ≠ confirmKey ∧ timerKey ≠ capacityKey slot ∧ timerKey ≠ usedKey slot ∧
  confirmKey ≠ holdKey id ∧ confirmKey ≠ capacityKey slot ∧ confirmKey ≠ usedKey slot.
Proof.
  split_and!; try done. unfold capacityKey, usedKey. intros Heq.
  apply (f_equal last_char) in Heq.
  rewrite (last_char_app _ (slot +:+ ":capacity") "y"%char) in Heq by by apply last_char_app.
  by rewrite (last_char_app _ (slot' +:+ ":used") "d"%char) in Heq by by apply last_char_app.
Qed.

(** ** One hold changes at a time *)

(** Counting over a set when membership changes at one element only. *)
Lemma size_filter_change (X : gset string) (P Q : string → Prop) `{!∀ x, Decision (P x)} `{!∀ x, Decision (Q x)} id :
  (∀ x, x ∈ X → x ≠ id → (P x ↔ Q x)) → (id ∉ X → ¬ P id) →
  Z.of_nat (size (filter Q ({[id]} ∪ X))) =
    Z.of_nat (size (filter P X)) + (if decide (Q id) then 1 else 0) - (if decide (P id) then 1 else 0).
Proof.
  intros Hext Hid.
  assert (∀ (S : string → Prop) `{!∀ x, Decision (S x)} (Y : gset string), (id ∈ Y ∨ ¬ S id) →
    Z.of_nat (size (filter S Y)) = Z.of_nat (size (filter S (Y ∖ {[id]}))) + (if decide (S id) then 1 else 0)) as Hsplit.
  { intros S HS Y HY. case_decide as Hs.
    - destruct HY as [HY|?]; [|done].
      assert (filter S Y = {[id]} ∪ filter S (Y ∖ {[id]})) as ->.
      { apply set_eq. intros x. rewrite elem_of_union, !elem_of_filter, elem_of_difference, elem_of_singleton.
        destruct (decide (x = id)) as [->|]; naive_solver. }
      rewrite size_union, size_singleton by (apply disjoint_singleton_l; rewrite elem_of_filter; set_solver). lia.
    - rewrite Z.add_0_r. do 2 f_equal. apply set_eq. intros x. rewrite !elem_of_filter, elem_of_difference,
        elem_of_singleton. split; [|tauto]. intros [? ?]. split_and!; [done|done|]. by intros ->. }
  rewrite (Hsplit Q _ ({[id]} ∪ X)) by set_solver.
  rewrite (Hsplit P _ X); [|destruct (decide (id ∈ X)); [by left|right; by apply Hid]].
  assert (filter Q (({[id]} ∪ X) ∖ {[id]}) = filter P (X ∖ {[id]})) as ->; [|lia].
  apply set_eq. intros x. rewrite !elem_of_filter, !elem_of_difference, elem_of_union, elem_of_singleton.
  naive_solver.
Qed.

Section one.
Context {R : Type} `{RedisDB R}.
Context (fmtT : Z → string) (Cmax : string → Z).
Implicit Types st : qstate R.

(** The changes of a stored hold that clients may rely on. *)
Definition evolves (h h' : gmap string string) : Prop :=
  (h = ∅ → h' = ∅) ∧ (∀ s v, of_slot h s v → h' = ∅ ∨ of_slot h' s v) ∧
  ∀ s v t, of_slot h s v → confirmed_at fmtT h t → of_slot h' s v ∧ confirmed_at fmtT h' t.

Lemma evolves_refl h : evolves h h.
Proof. split_and!; auto. Qed.

Lemma confirmed_live h t : confirmed_at fmtT h t → h ≠ ∅.
Proof. intros [_ Hc] ->. done. Qed.

(** The hash of [id] becomes [h'] and the rest of the holds stays. *)
Definition changes (id : string) (h' : gmap string string) st st' : Prop :=
  (∀ j, hash st' j = if decide (id = j) then h' else hash st j) ∧
  q_ids st' = {[id]} ∪ q_ids st ∧ q_file st' = q_file st ∧ q_seen st' = q_seen st ∧
  (id ∉ q_ids st ∨ evolves (hash st id) h').

Lemma changes_fact id h' st st' f : changes id h' st st' → fact_ok fmtT st f → fact_ok fmtT st' f.
Proof.
  intros (Hh & Hids & _ & _ & Hev) [Hin Hf]. split; [rewrite Hids; set_solver|]. rewrite Hh.
  case_decide as Hid; [|done]. subst id. destruct Hev as [|(He & Hs & Hc)]; [done|].
  destruct (f_confirmed f) as [t|]; [by apply Hc; apply Hf|].
  destruct Hf as [Hf|Hf]; [left; by apply He|by apply Hs].
Qed.

Lemma changes_count id h' st st' slot : (∀ j, j ∉ q_ids st → hash st j = ∅) → changes id h' st st' →
  active_count slot st' = active_count slot st + (if decide (active slot h') then 1 else 0) -
    (if decide (active slot (hash st id)) then 1 else 0).
Proof.
  intros Hfresh (Hh & Hids & _). unfold active_count. rewrite Hids.
  rewrite (size_filter_change (q_ids st) (fun j => active slot (hash st j)) (fun j => active slot (hash st' j)) id).
  - assert (hash st' id = h') as -> by (by rewrite Hh, decide_True). done.
  - intros x _ Hx. rewrite Hh. by rewrite decide_False.
  - intros Hni. rewrite Hfresh by done. intros [Ha _]. by rewrite lookup_empty in Ha.
Qed.

Lemma changes_inv id h' st st' : qinv fmtT Cmax st → changes id h' st st' →
  (h' = ∅ ∨ hold_ok fmtT id h') →
  (∀ slot, used slot st' = used slot st + (if decide (active slot h') then 1 else 0) -
     (if decide (active slot (hash st id)) then 1 else 0)) →
  (∀ slot, r_get (capacityKey slot) (q_redis st') = r_get (capacityKey slot) (q_redis st)) →
  (∀ slot, active slot h' → active slot (hash st id) ∨ active_count slot st < Cmax slot) →
  (∀ k, r_volatile k (q_redis st') = true →
     (r_volatile k (q_redis st) = true ∨ k = holdKey id) ∧
     (k = holdKey id → h' = ∅ ∨ h' !! "status" = Some "expired")) →
  qinv fmtT Cmax st'.
Proof.
  intros Hinv Hch Hok Hused Hcap Hlim Hvol. pose proof Hinv as [].
  pose proof (fun slot => changes_count id h' st st' slot qi_fresh0 Hch) as Hcount.
  pose proof Hch as (Hh & Hids & Hfile & Hseen & Hev). constructor.
  - intros j Hj. rewrite Hh. rewrite Hids in Hj. rewrite decide_False by set_solver. apply qi_fresh0. set_solver.
  - intros j. rewrite Hh. case_decide; [by subst j|done].
  - intros slot. by rewrite Hused, Hcount, qi_used0.
  - intros slot. by rewrite Hcap.
  - intros slot. rewrite Hcount. specialize (Hlim slot). specialize (qi_limit0 slot).
    destruct (decide (active slot h')) as [Ha|]; [|case_decide; lia].
    destruct (Hlim Ha) as [Ho|]; [rewrite (decide_True _ _ Ho); lia|case_decide; lia].
  - intros k Hk. destruct (Hvol k Hk) as [Hold Hnew].
    destruct (decide (k = holdKey id)) as [->|Hne].
    + exists id. split_and!; [done|rewrite Hids; set_solver|]. rewrite Hh, decide_True by done. by apply Hnew.
    + destruct Hold as [Hold|?]; [|done]. destruct (qi_vol0 k Hold) as (j & -> & Hin & Hj). exists j.
      split_and!; [done|rewrite Hids; set_solver|]. rewrite Hh. rewrite decide_False by congruence. done.
  - intros b. rewrite Hfile. intros Hb. destruct (qi_file0 b Hb) as [Hf Hbid]. split; [|done].
    by eapply changes_fact.
  - intros j. rewrite Hseen, Hfile. apply qi_seen0.
Qed.
End one.

(** ** The scripts keep the invariant *)

(** Evaluates the reads after writes by the laws of the database. *)
Ltac redis :=
  repeat first
    [ rewrite get_set | rewrite get_incrby | rewrite get_hset | rewrite get_zadd | rewrite get_zrem
    | rewrite get_expire | rewrite get_evict | rewrite hash_set | rewrite hash_incrby | rewrite hash_hset
    | rewrite hash_zadd | rewrite hash_zrem | rewrite hash_expire | rewrite hash_evict | rewrite vol_set
    | rewrite vol_incrby | rewrite vol_hset | rewrite vol_zadd | rewrite vol_zrem | rewrite vol_expire
    | rewrite vol_evict ].

Section scripts_inv.
Context {R : Type} `{RedisLaws R}.
Context (fmtT : Z → string) (Cmax : string → Z).
Implicit Types st : qstate R.

Notation qinv := (qinv fmtT Cmax).
Notation fact_ok := (fact_ok fmtT).

(** The state keeps what the clients know. *)
Definition keeps st st' : Prop := qinv st' ∧ ∀ f, fact_ok st f → fact_ok st' f.

Lemma keeps_refl st : qinv st → keeps st st.
Proof. by split. Qed.

Lemma with_redis_id st : with_redis (q_redis st) st = st.
Proof. by destruct st. Qed.

Lemma set_fields1 k v (h : gmap string string) : list_to_map [(k, v)] ∪ h = <[k := v]> h.
Proof. simpl. by rewrite <- insert_union_l, map_empty_union. Qed.

Lemma set_fields2 k v k' v' (h : gmap string string) :
  list_to_map [(k, v); (k', v')] ∪ h = <[k := v]> (<[k' := v']> h).
Proof. simpl. by rewrite <- !insert_union_l, map_empty_union. Qed.

Lemma stored_drawn st id k v : qinv st → hash st id !! k = Some v → id ∈ q_ids st.
Proof.
  intros Hinv Hk. destruct (decide (id ∈ q_ids st)) as [|Hn]; [done|].
  by rewrite (qi_fresh _ _ _ Hinv id Hn), lookup_empty in Hk.
Qed.

Lemma stored_ok st id k v : qinv st → hash st id !! k = Some v → hold_ok fmtT id (hash st id).
Proof.
  intros Hinv Hk. destruct (qi_hash _ _ _ Hinv id) as [He|]; [|done]. by rewrite He, lookup_empty in Hk.
Qed.

Lemma ids_same st id : id ∈ q_ids st → q_ids st = {[id]} ∪ q_ids st.
Proof. intros Hid. apply set_eq. set_solver. Qed.

Lemma active_frame slot h h' : h' !! "slot" = h !! "slot" → h' !! "status" = h !! "status" →
  active slot h' ↔ active slot h.
Proof. unfold active. by intros -> ->. Qed.

(** A status write to a stored hold. *)
Lemma status_inv st r id h' s0 s1 : qinv st →
  hash st id !! "status" = Some s0 → h' !! "status" = Some s1 →
  h' !! "slot" = hash st id !! "slot" → h' !! "visitor_id" = hash st id !! "visitor_id" →
  hold_ok fmtT id h' → (∀ t, confirmed_at fmtT (hash st id) t → confirmed_at fmtT h' t) →
  (∀ j, r_hgetall (holdKey j) r = if decide (id = j) then h' else hash st j) →
  (∀ slot, default 0 (r_get (usedKey slot) r) = used slot st + (if decide (active slot h') then 1 else 0) -
     (if decide (active slot (hash st id)) then 1 else 0)) →
  (∀ slot, r_get (capacityKey slot) r = r_get (capacityKey slot) (q_redis st)) →
  (∀ slot, active slot h' → active slot (hash st id)) →
  (∀ k, r_volatile k r = true → (r_volatile k (q_redis st) = true ∨ k = holdKey id) ∧
     (k = holdKey id → h' !! "status" = Some "expired")) →
  keeps st (with_redis r st).
Proof.
  intros Hinv Hs0 Hs1 Hsl Hvi Hok Hconf Hh Hu Hc Hact Hv.
  pose proof (stored_drawn st id _ _ Hinv Hs0) as Hin.
  assert (changes fmtT id h' st (with_redis r st)) as Hch.
  { split_and!; [exact Hh|exact (ids_same st id Hin)|done|done|]. right. split_and!.
    - intros He. by rewrite He, lookup_empty in Hs0.
    - intros s v [? ?]. right. split; congruence.
    - intros s v t [? ?] Ht. split; [split; congruence|by apply Hconf]. }
  split; [|intros f; by eapply changes_fact].
  eapply changes_inv; [exact Hinv|exact Hch|by right|exact Hu|exact Hc| |].
  - intros slot Ha. left. by apply Hact.
  - intros k Hk. destruct (Hv k Hk) as [? Hx]. split; [done|]. intros ->. right. by apply Hx.
Qed.

(** Writes that leave holds, counters and expirations alone. *)
Lemma frame_inv st r : qinv st → (∀ j, r_hgetall (holdKey j) r = hash st j) →
  (∀ slot, r_get (usedKey slot) r = r_get (usedKey slot) (q_redis st)) →
  (∀ slot, default (-1) (r_get (capacityKey slot) r) ≤ Cmax slot) →
  (∀ k, r_volatile k r = true → r_volatile k (q_redis st) = true) → keeps st (with_redis r st).
Proof.
  intros [] Hh Hu Hc Hv. assert (∀ f, fact_ok st f → fact_ok (with_redis r st) f) as Hf.
  { intros f [Hin Hf]. split; [done|]. unfold hash in *. simpl. by rewrite Hh. }
  split; [|done]. assert (∀ slot, active_count slot (with_redis r st) = active_count slot st) as Hcount.
  { intros slot. unfold active_count. do 2 f_equal. apply set_eq. intros x. rewrite !elem_of_filter.
    unfold hash at 1. simpl. by rewrite Hh. }
  constructor.
  - intros id Hid. unfold hash. simpl. rewrite Hh. by apply qi_fresh0.
  - intros id. unfold hash. simpl. rewrite Hh. apply qi_hash0.
  - intros slot. rewrite Hcount, <- qi_used0. unfold used. simpl. by rewrite Hu.
  - done.
  - intros slot. by rewrite Hcount.
  - intros k Hk%Hv. destruct (qi_vol0 k Hk) as (id & -> & Hin & Hid). exists id. split_and!; [done|done|].
    unfold hash. simpl. by rewrite Hh.
  - intros b Hb. destruct (qi_file0 b Hb). split; auto.
  - done.
Qed.

(** The state with one more id drawn. *)
Definition draw (id : string) st : qstate R :=
  mkQ (q_redis st) (q_file st) (q_seen st) (q_clock st) ({[id]} ∪ q_ids st).

Lemma active_empty slot : ¬ active slot ∅.
Proof. intros [Ha _]. by rewrite lookup_empty in Ha. Qed.

Lemma draw_inv st id : qinv st → id ∉ q_ids st → keeps st (draw id st).
Proof.
  intros Hinv Hid. pose proof (qi_fresh _ _ _ Hinv id Hid) as He.
  assert (changes fmtT id ∅ st (draw id st)) as Hch.
  { split_and!; [|done|done|done|by left]. intros j. case_decide; [by subst j|done]. }
  split; [|intros f; by eapply changes_fact].
  eapply changes_inv; [exact Hinv|exact Hch|by left| |done| |].
  - intros slot. rewrite He, decide_False by apply active_empty. unfold used. simpl. lia.
  - intros slot Ha. by destruct (active_empty slot).
  - intros k Hk. split; [by left|by left].
Qed.

Lemma create_inv st id slot visitor expires : qinv st → id ∉ q_ids st →
  keeps st (with_redis (eval_create fmtT id slot visitor expires (q_redis st)).1 (draw id st)).
Proof.
  intros Hinv Hid. pose proof (qi_fresh _ _ _ Hinv id Hid) as He. unfold eval_create.
  destruct (_ <? 0) eqn:Ec; [exact (draw_inv st id Hinv Hid)|].
  destruct (_ <=? _) eqn:Eu; [exact (draw_inv st id Hinv Hid)|]. cbn [fst].
  set (hnew := list_to_map [("id", id); ("slot", slot); ("visitor_id", visitor); ("status", "held");
    ("expires_at", fmtT expires)] : gmap string string).
  set (r := r_zadd _ _ _ _).
  assert (Hh : ∀ j, r_hgetall (holdKey j) r = if decide (id = j) then hnew else hash st j).
  { intros j. unfold r. redis. destruct (decide (id = j)) as [<-|Hne].
    - rewrite decide_True by done. unfold hash in He. rewrite He. apply map_union_empty.
    - rewrite decide_False by (intros ?%(inj holdKey); done). done. }
  assert (changes fmtT id hnew st (with_redis r (draw id st))) as Hch.
  { split_and!; [exact Hh|done|done|done|by left]. }
  assert (∀ s, active s hnew ↔ s = slot) as Hact.
  { intros s. unfold active, hnew. simpl. rewrite !lookup_insert_ne, !lookup_insert_eq by done. naive_solver. }
  split; [|intros f; by eapply changes_fact].
  eapply changes_inv; [exact Hinv|exact Hch| | | | |].
  - right. unfold hold_ok, hnew. simpl. repeat (rewrite lookup_insert_ne by done || rewrite lookup_insert_eq). eauto.
  - intros s. rewrite He, (decide_False (P := active s ∅)) by apply active_empty. unfold used, r. simpl. redis.
    destruct (decide (s = slot)) as [->|Hne].
    + rewrite decide_True by done. rewrite decide_True by by apply Hact. simpl. lia.
    + rewrite decide_False by (intros ?%(inj usedKey); congruence).
      rewrite decide_False by (intros ?%Hact; done). lia.
  - intros s. unfold r. simpl. redis. rewrite decide_False; [done|].
    intros Heq. destruct (keys_disjoint s slot id) as [Hk _]. by destruct Hk.
  - intros s ->%Hact. right. pose proof (qi_cap _ _ _ Hinv slot). pose proof (qi_used _ _ _ Hinv slot) as Hus.
    unfold used in Hus. rewrite <- Hus. zbool. lia.
  - intros k. unfold r. simpl. redis. intros Hk. split; [by left|]. intros ->.
    destruct (qi_vol _ _ _ Hinv _ Hk) as (j & Hj%(inj holdKey) & Hin & _). by subst j.
Qed.

Lemma confirm_inv st id now t : qinv st →
  let '(r, z) := eval_confirm fmtT id now t (q_redis st) in
  keeps st (with_redis r st) ∧
  (z = 1 → ∀ slot visitor, fact_ok st (mkFact id slot visitor None) →
     fact_ok (with_redis r st) (mkFact id slot visitor (Some t))).
Proof.
  intros Hinv. unfold eval_confirm. destruct (bool_decide _) eqn:Es; simpl; [|rewrite with_redis_id; by split; [apply keeps_refl|]].
  destruct (_ <=? _); [rewrite with_redis_id; by split; [apply keeps_refl|]|]. zbool. change (r_hgetall _ _) with (hash st id) in Es.
  set (h' := <["status" := "confirming"]> (<["confirmed_at" := fmtT t]> (hash st id))). set (r := r_zadd _ _ _ _).
  assert (Hh : ∀ j, r_hgetall (holdKey j) r = if decide (id = j) then h' else hash st j).
  { intros j. unfold r. redis. destruct (decide (id = j)) as [<-|Hne].
    - rewrite decide_True by done. apply set_fields2.
    - by rewrite decide_False by (intros ?%(inj holdKey); done). }
  destruct (stored_ok st id _ _ Hinv Es) as (Hi & Hs & Hv & _).
  assert (h' !! "status" = Some "confirming") as Hs' by apply lookup_insert_eq.
  assert (h' !! "slot" = hash st id !! "slot") as Hsl by (unfold h'; by rewrite !lookup_insert_ne).
  assert (h' !! "visitor_id" = hash st id !! "visitor_id") as Hvi by (unfold h'; by rewrite !lookup_insert_ne).
  assert (confirmed_at fmtT h' t) as Hc.
  { split; [by left|]. unfold h'. by rewrite lookup_insert_ne, lookup_insert_eq. }
  assert (∀ slot, active slot h' ↔ active slot (hash st id)) as Hact.
  { intros slot. unfold active. rewrite Hs', Hsl, Es. naive_solver. }
  assert (keeps st (with_redis r st)) as Hk.
  { eapply (status_inv st r id h'); [exact Hinv|exact Es|exact Hs'|exact Hsl|exact Hvi| | |exact Hh| | | |].
    - split_and!; [unfold h'; by rewrite !lookup_insert_ne|congruence|congruence|]. right. right. by exists t.
    - intros t' [[?|?] _]; congruence.
    - intros slot. unfold r. redis. rewrite (decide_ext (active slot h') (active slot (hash st id))) by done.
      unfold used. case_decide; lia.
    - intros slot. unfold r. by redis.
    - intros slot. apply Hact.
    - intros k. unfold r. redis. intros Hk. split; [by left|]. intros ->.
      destruct (qi_vol _ _ _ Hinv _ Hk) as (j & ?%(inj holdKey) & _ & [Hj|Hj]); subst j; [|congruence].
      by rewrite Hj, lookup_empty in Es. }
  split; [done|]. intros _ slot visitor [Hin Hf]. split; [done|]. simpl in *. unfold hash at 1 2. simpl.
  rewrite Hh, decide_True by done. split; [|done].
  destruct Hf as [Hf|[? ?]]; [by rewrite Hf, lookup_empty in Es|]. split; congruence.
Qed.

Lemma finalize_inv st id : qinv st → keeps st (with_redis (eval_finalize id (q_redis st)).1 st).
Proof.
  intros Hinv. unfold eval_finalize. destruct (bool_decide _) eqn:Es; simpl; [|rewrite with_redis_id; by apply keeps_refl].
  zbool. change (r_hgetall _ _) with (hash st id) in Es.
  set (h' := <["status" := "confirmed"]> (hash st id)). set (r := r_zrem _ _ _).
  assert (Hh : ∀ j, r_hgetall (holdKey j) r = if decide (id = j) then h' else hash st j).
  { intros j. unfold r. redis. destruct (decide (id = j)) as [<-|Hne].
    - rewrite decide_True by done. apply set_fields1.
    - by rewrite decide_False by (intros ?%(inj holdKey); done). }
  destruct (stored_ok st id _ _ Hinv Es) as (Hi & Hs & Hv & Hst).
  assert (h' !! "status" = Some "confirmed") as Hs' by apply lookup_insert_eq.
  assert (h' !! "slot" = hash st id !! "slot") as Hsl by (unfold h'; by rewrite !lookup_insert_ne).
  assert (h' !! "visitor_id" = hash st id !! "visitor_id") as Hvi by (unfold h'; by rewrite !lookup_insert_ne).
  assert (∀ t, confirmed_at fmtT (hash st id) t → confirmed_at fmtT h' t) as Hc.
  { intros t [_ Ht]. split; [by right|]. unfold h'. by rewrite lookup_insert_ne. }
  assert (∀ slot, active slot h' ↔ active slot (hash st id)) as Hact.
  { intros slot. unfold active. rewrite Hs', Hsl, Es. naive_solver. }
  eapply (status_inv st r id h'); [exact Hinv|exact Es|exact Hs'|exact Hsl|exact Hvi| |exact Hc|exact Hh| | | |].
  - split_and!; [unfold h'; by rewrite !lookup_insert_ne|congruence|congruence|]. right. right.
    destruct Hst as [?|[?|[t Ht]]]; [congruence|congruence|]. exists t. by apply Hc.
  - intros slot. unfold r. redis. rewrite (decide_ext (active slot h') (active slot (hash st id))) by done.
    unfold used. case_decide; lia.
  - intros slot. unfold r. by redis.
  - intros slot. apply Hact.
  - intros k. unfold r. redis. intros Hk. split; [by left|]. intros ->.
    destruct (qi_vol _ _ _ Hinv _ Hk) as (j & ?%(inj holdKey) & _ & [Hj|Hj]); subst j; [|congruence].
    by rewrite Hj, lookup_empty in Es.
Qed.

Lemma expire_inv st id : qinv st → keeps st (with_redis (eval_expire id (q_redis st)).1 st).
Proof.
  intros Hinv. unfold eval_expire. destruct (bool_decide _) eqn:Es; simpl.
  2: { apply frame_inv; [done|..]; intros; redis; try done. apply (qi_cap _ _ _ Hinv). by revert H1; redis. }
  zbool. change (r_hgetall _ _) with (hash st id) in *.
  destruct (stored_ok st id _ _ Hinv Es) as (Hi & [slot Hs] & Hv & _). rewrite Hs. cbn [fst].
  set (h' := <["status" := "expired"]> (hash st id)). set (r := r_expire _ _).
  assert (Hh : ∀ j, r_hgetall (holdKey j) r = if decide (id = j) then h' else hash st j).
  { intros j. unfold r. redis. destruct (decide (id = j)) as [<-|Hne].
    - rewrite decide_True by done. apply set_fields1.
    - by rewrite decide_False by (intros ?%(inj holdKey); done). }
  assert (h' !! "status" = Some "expired") as Hs' by apply lookup_insert_eq.
  assert (h' !! "slot" = hash st id !! "slot") as Hsl by (unfold h'; by rewrite !lookup_insert_ne).
  assert (h' !! "visitor_id" = hash st id !! "visitor_id") as Hvi by (unfold h'; by rewrite !lookup_insert_ne).
  assert (∀ s, ¬ active s h') as Hna.
  { intros s [_ Ha]. rewrite Hs' in Ha. naive_solver. }
  eapply (status_inv st r id h'); [exact Hinv|exact Es|exact Hs'|exact Hsl|exact Hvi| | |exact Hh| | | |].
  - split_and!; [unfold h'; by rewrite !lookup_insert_ne|rewrite Hsl; eauto|congruence|]. right. by left.
  - intros t' [[?|?] _]; congruence.
  - intros s. unfold r. redis. rewrite (decide_False (P := active s h')) by done. unfold used.
    destruct (decide (s = slot)) as [->|Hne].
    + rewrite decide_True by done. rewrite decide_True by (split; [done|by left]). simpl. lia.
    + rewrite decide_False by (intros ?%(inj usedKey); congruence).
      rewrite decide_False by (intros [? _]; congruence). lia.
  - intros s. unfold r. redis. rewrite decide_False; [done|]. intros Heq.
    destruct (keys_disjoint s slot id) as [Hk _]. by destruct Hk.
  - intros s Ha. by destruct (Hna s).
  - intros k. unfold r. redis. case_decide as Hk; [by subst k; split; [right|]|]. intros Hv'. split; [by left|done].
Qed.
End scripts_inv.

(** ** What a program may rely on *)

Section logic.
Context {R : Type} `{RedisLaws R}.
Context (fmtT : Z → string) (parseT : string → option Z) (parse_fmt : ∀ t, parseT (fmtT t) = Some t).
Context (Cmax : string → Z).
Implicit Types (st : qstate R) (K : list fact).

(** What a program must know to issue a command: bookings are recorded for
holds known to be confirmed, and capacities stay below the bound. *)
Definition cmd_ok K (c : cmd) : Prop :=
  match c with
  | CSetCapacity slot n => n ≤ Cmax slot
  | CRecord b => booking_fact b ∈ K ∧ b_ID b = "booking-" +:+ b_HoldID b
  | _ => True
  end.

(** What a reply tells: a hash that was read is a hold with its slot and
visitor, and its confirmation if it has one; a confirm script that answered 1
confirmed the hold. *)
Definition justified K K' (c : cmd) (rep : reply) : Prop :=
  match c, rep with
  | CHGetAll id, RHash h =>
      h = ∅ ∨ h !! "id" = Some id ∧ ∃ slot visitor, of_slot h slot visitor ∧ mkFact id slot visitor None ∈ K' ∧
        (locked_status (default "" (h !! "status")) = true →
           ∃ t, h !! "confirmed_at" = Some (fmtT t) ∧ mkFact id slot visitor (Some t) ∈ K')
  | CConfirm id _ t, RInt z =>
      z = 1 → ∀ slot visitor, mkFact id slot visitor None ∈ K → mkFact id slot visitor (Some t) ∈ K'
  | _, _ => True
  end.

Fixpoint good K (p : prog) : Prop :=
  match p with
  | Ret _ => True
  | Cmd c k => cmd_ok K c ∧ ∀ rep K', K ⊆ K' → justified K K' c rep → good K' (k rep)
  end.

Notation qinv := (qinv fmtT Cmax).
Notation fact_ok := (fact_ok fmtT).

Lemma justified_trivial K c : (match c with CHGetAll _ => False | CConfirm _ _ _ => False | _ => True end) →
  ∀ rep, justified K K c rep.
Proof. destruct c; done. Qed.

Lemma justified_err K c : justified K K c RErr.
Proof. destruct c; done. Qed.

(** Recording a booking of a confirmed hold. *)
Lemma record_inv st b f : qinv st → fact_ok st (booking_fact b) → b_ID b = "booking-" +:+ b_HoldID b →
  keeps fmtT Cmax st (Record_booking b f st).1.
Proof.
  intros Hinv Hf Hb. unfold Record_booking. case_decide as Hs; [by apply keeps_refl|].
  destruct f; simpl; [| by apply keeps_refl|]; split; try done;
    destruct Hinv; constructor; simpl; try done.
  - intros b' [Hb'| ->%list_elem_of_singleton]%elem_of_app; [by apply qi_file0|by split].
  - intros id [ ->%elem_of_singleton|Hid]%elem_of_union.
    + exists b. split; [apply elem_of_app; right; by apply list_elem_of_singleton|done].
    + destruct (qi_seen0 id Hid) as (b' & ? & ?). exists b'. split; [apply elem_of_app; by left|done].
  - intros b' [Hb'| ->%list_elem_of_singleton]%elem_of_app; [by apply qi_file0|by split].
  - intros id Hid. destruct (qi_seen0 id Hid) as (b' & ? & ?). exists b'. split; [apply elem_of_app; by left|done].
Qed.

(** What a command may do: keep the invariant and what clients know, and give a reply
that is justified by what they may know afterwards. *)
Definition lawful (K : list fact) (c : cmd) st st' (rep : reply) : Prop :=
  keeps fmtT Cmax st st' ∧ ∃ K', K ⊆ K' ∧ (∀ g, g ∈ K' → fact_ok st' g) ∧ justified K K' c rep.

Lemma lawful_same K c st st' rep : (∀ g, g ∈ K → fact_ok st g) →
  keeps fmtT Cmax st st' → justified K K c rep → lawful K c st st' rep.
Proof.
  intros HK Hk Hj. split; [done|]. exists K. split_and!; [done| |done]. intros g Hg. apply Hk. by apply HK.
Qed.

(** A confirmation that took effect: who knew the hold now knows it confirmed. *)
Lemma confirm_lawful K st st' j now t z : (∀ g, g ∈ K → fact_ok st g) → keeps fmtT Cmax st st' →
  (z = 1 → ∀ slot visitor, fact_ok st (mkFact j slot visitor None) → fact_ok st' (mkFact j slot visitor (Some t))) →
  lawful K (CConfirm j now t) st st' (RInt z).
Proof.
  intros HK Hk Hfact. split; [done|].
  destruct (decide (z = 1)) as [->|Hz]; [|exists K; split_and!; [done|intros g Hg; apply Hk; by apply HK|by intros ?]].
  exists (K ++ ((fun g => mkFact (f_id g) (f_slot g) (f_visitor g) (Some t)) <$>
    filter (fun g => f_id g = j ∧ f_confirmed g = None) K)). split_and!.
  - intros g Hg. apply elem_of_app. by left.
  - intros g [Hg|Hg]%elem_of_app; [apply Hk; by apply HK|].
    apply list_elem_of_fmap in Hg as (g0 & -> & [[<- Hn] Hg0]%list_elem_of_filter).
    apply Hfact; [done|]. specialize (HK g0 Hg0). destruct g0. simpl in *. by subst.
  - intros _ slot visitor Hin. apply elem_of_app. right. apply list_elem_of_fmap.
    exists (mkFact j slot visitor None). split; [done|]. by apply list_elem_of_filter.
Qed.

(** Reading a hold teaches its slot and visitor, and when it was confirmed. *)
Lemma fetch_lawful K st j : qinv st → (∀ g, g ∈ K → fact_ok st g) → lawful K (CHGetAll j) st st (RHash (hash st j)).
Proof.
  intros Hinv HK. split; [by apply keeps_refl|]. destruct (qi_hash _ _ _ Hinv j) as [He|Hok].
  { exists K. split_and!; [done|done|by left]. }
  pose proof Hok as (Hi & [slot Hs] & [visitor Hv] & Hst). pose proof (stored_drawn _ _ st j _ _ Hinv Hi) as Hin.
  destruct Hst as [Hst|[Hst|[t Ht]]].
  1, 2: exists (mkFact j slot visitor None :: K); split_and!;
    [by right|intros g [->|Hg]%elem_of_cons; [by split; [|right]|by apply HK]|];
    right; split; [done|]; exists slot, visitor; split_and!; [done|left|]; rewrite Hst; done.
  exists (mkFact j slot visitor None :: mkFact j slot visitor (Some t) :: K). split_and!.
  - intros g Hg. right. by right.
  - intros g [->|[->|Hg]%elem_of_cons]%elem_of_cons; [by split; [|right]|done|by apply HK].
  - right. split; [done|]. exists slot, visitor. split_and!; [done|left|]. intros _. exists t. split; [apply Ht|right; left].
Qed.

Lemma set_capacity_keeps st slot n : qinv st → n ≤ Cmax slot →
  keeps fmtT Cmax st (with_redis (r_set (capacityKey slot) n (q_redis st)) st).
Proof.
  intros Hinv Hc. apply frame_inv; [done|..]; intros; redis; try done.
  - rewrite decide_False; [done|]. by apply (keys_disjoint slot slot0 "").
  - case_decide as Hs; [|apply (qi_cap _ _ _ Hinv)]. simpl. unfold capacityKey in Hs.
    injection Hs as Hs. rewrite <- (str_app_inj_suffix slot slot0 ":capacity" Hs). done.
  - revert H1. redis. by case_decide.
Qed.

(** Every command keeps the invariant and what clients know, and its reply is
justified by what they may know afterwards. *)
Lemma exec_inv c f id st st' rep K : qinv st → id ∉ q_ids st → cmd_ok K c → (∀ g, g ∈ K → fact_ok st g) →
  exec fmtT c f id st = (st', rep) → lawful K c st st' rep.
Proof.
  intros Hinv Hid Hc HK He. pose proof (keeps_refl fmtT Cmax st Hinv) as Hrefl.
  assert (∀ st' rep, keeps fmtT Cmax st st' → justified K K c rep → lawful K c st st' rep) as Hsame
    by (intros; by apply lawful_same).
  destruct c as [|slot n|slot visitor expires|j now t|j|j|now|j| |b]; simpl in He, Hc.
  - simplify_eq. by apply Hsame.
  - pose proof (set_capacity_keeps st slot n Hinv Hc). destruct f; simplify_eq; by apply Hsame.
  - pose proof (create_inv fmtT Cmax st id slot visitor expires Hinv Hid) as Hcr.
    pose proof (draw_inv fmtT Cmax st id Hinv Hid) as Hdr.
    destruct (eval_create _ _ _ _ _ _) as [r z]. destruct f; simplify_eq; by apply Hsame.
  - pose proof (confirm_inv fmtT Cmax st j now t Hinv) as Hcf. destruct (eval_confirm _ _ _ _ _) as [r z].
    destruct Hcf as [Hk Hfact]. destruct f; simplify_eq; [by apply confirm_lawful|by apply Hsame..].
  - pose proof (finalize_inv fmtT Cmax st j Hinv) as Hfi.
    destruct (eval_finalize _ _) as [r z]. destruct f; simplify_eq; by apply Hsame.
  - rewrite with_redis_id in He. destruct f; simplify_eq; [by apply fetch_lawful|by apply Hsame..].
  - rewrite with_redis_id in He. destruct f; simplify_eq; by apply Hsame.
  - pose proof (expire_inv fmtT Cmax st j Hinv) as Hex.
    destruct (eval_expire _ _) as [r z]. destruct f; simplify_eq; by apply Hsame.
  - rewrite with_redis_id in He. destruct f; simplify_eq; by apply Hsame.
  - destruct Hc as [Hin Hb]. pose proof (record_inv st b f Hinv (HK _ Hin) Hb) as Hr. rewrite He in Hr. by apply Hsame.
Qed.

(** ** The methods of the service only do what they may *)

(** What a parsed hold tells its reader. *)
Definition knows K (id : string) (h : Hold) : Prop :=
  h_ID h = id ∧ mkFact id (h_Slot h) (h_VisitorID h) None ∈ K ∧
  (locked_status (h_Status h) = true → h_ConfirmedAt h ≠ zero_time →
     mkFact id (h_Slot h) (h_VisitorID h) (Some (h_ConfirmedAt h)) ∈ K).

Lemma good_GetHold K id k :
  (∀ K' e, K ⊆ K' → good K' (k (Err e))) →
  (∀ K' h, K ⊆ K' → knows K' id h → good K' (k (Ok h))) → good K (GetHold parseT id k).
Proof.
  intros Herr Hok. split; [done|]. intros rep K' HK Hj.
  destruct rep as [| | | | | |fields|]; try by apply Herr. unfold parse_hold.
  case_decide as Hf; [by apply Herr|]. destruct Hj as [|(Hi & slot & visitor & [Hs Hv] & Hin & Hconf)]; [done|].
  destruct (parseT _) as [expiresAt|]; [|by apply Herr]. rewrite Hi, Hs, Hv. simpl.
  assert (∀ c, (locked_status (default "" (fields !! "status")) = true → c ≠ zero_time →
    mkFact id slot visitor (Some c) ∈ K') →
    good K' (k (Ok (mkHold id slot visitor (default "" (fields !! "status")) expiresAt c)))) as Hgo.
  { intros c Hc. apply Hok; [done|]. by split_and!. }
  destruct (fields !! "confirmed_at") as [cs|] eqn:Ec; simpl; [|by apply Hgo].
  destruct (String.eqb cs "") eqn:Ecs; [by apply Hgo|]. destruct (parseT cs) as [c|] eqn:Ep; [|by apply Herr].
  apply Hgo. intros Hl _. destruct (Hconf Hl) as (t & Ht & Hfact). simplify_eq.
  rewrite parse_fmt in Ep. by simplify_eq.
Qed.

Lemma good_persist K h k :
  (h_ConfirmedAt h ≠ zero_time → mkFact (h_ID h) (h_Slot h) (h_VisitorID h) (Some (h_ConfirmedAt h)) ∈ K) →
  (∀ K' r, K ⊆ K' → good K' (k r)) → good K (persistAndFinalize h k).
Proof.
  intros Hf Hk. unfold persistAndFinalize. destruct (_ =? zero_time) eqn:Ez; [by apply Hk|]. zbool.
  split; [split; [by apply Hf|done]|]. intros rep K1 HK1 _.
  assert (good K1 (if String.eqb (h_Status h) "confirmed" then k (Ok (booking_of h))
    else Cmd (CFinalize (h_ID h)) (fun rep =>
        match rep with
        | RInt z => k (if z =? 1 then Ok (booking_of h) else Err ErrHoldInactive)
        | _ => k (Err ErrOther)
        end))) as Hfin.
  { destruct (String.eqb _ _); [by apply Hk|]. split; [done|]. intros rep' K2 HK2 _.
    assert (K ⊆ K2) by (by etransitivity). destruct rep'; by apply Hk. }
  destruct rep; first [exact Hfin|by apply Hk].
Qed.

Lemma good_ret_booking K r : good K (ret_booking r).
Proof. by destruct r. Qed.

Lemma good_ConfirmHold K id : good K (ConfirmHold parseT id).
Proof.
  apply good_GetHold; [done|]. intros K0 h HK0 (<- & Hid & Hl).
  destruct (locked_status (h_Status h)) eqn:El; [apply good_persist; [auto|intros; apply good_ret_booking]|].
  destruct (negb _); [done|]. split; [done|]. intros [| | |t1| | | |] K1 HK1 _; try done.
  destruct (_ <=? t1); [done|]. split; [done|]. intros [| | |c| | | |] K2 HK2 _; try done.
  split; [done|]. intros [| | |t3| | | |] K3 HK3 _; try done.
  split; [done|]. intros [| | | |z| | |] K4 HK4 Hj; try done.
  destruct (z =? 1) eqn:Ez; zbool.
  - apply good_persist; [|intros; apply good_ret_booking]. intros _. apply Hj; [done|]. by apply HK3, HK2, HK1.
  - apply good_GetHold; [done|]. intros K5 latest _ (Hlid & _ & Hll).
    destruct (locked_status (h_Status latest)) eqn:El'; [|done].
    apply good_persist; [|intros; apply good_ret_booking]. rewrite Hlid. auto.
Qed.

Lemma good_release K ids n : good K (release_loop ids n).
Proof.
  revert K n. induction ids as [|id ids IH]; intros K n; [done|]. split; [done|].
  by intros [] K' _ _.
Qed.

Lemma good_recover K ids : good K (recover_loop parseT ids).
Proof.
  revert K. induction ids as [|id ids IH]; intros K; [done|]. apply good_GetHold; [by intros|].
  intros K1 h _ (<- & _ & Hl). destruct (String.eqb (h_Status h) "confirming") eqn:Es; [|done].
  apply good_persist; [|by intros]. apply Hl. unfold locked_status. rewrite Es. apply orb_true_r.
Qed.

Lemma good_api p : api parseT Cmax p → good [] p.
Proof.
  intros Hp. destruct Hp as [slot c Hc|ok slot visitor ttl|id|id| |].
  - unfold SetCapacity. destruct (_ || _); [done|]. split; [done|]. by intros [] K' _ _.
  - unfold CreateHold. destruct (_ || _); [done|]. destruct (negb ok); [done|]. split; [done|].
    intros [| | |now| | | |] K' _ _; try done. split; [done|].
    intros [| | | | |id z| |] K2 _ _; try done. by destruct (z =? 1), (z =? 0).
  - apply good_ConfirmHold.
  - by apply good_GetHold.
  - split; [done|]. intros [| | |now| | | |] K' _ _; try done. split; [done|].
    intros [| | | | | | |ids] K2 _ _; try done. apply good_release.
  - split; [done|]. intros [| | | | | | |ids] K2 _ _; try done. apply good_recover.
Qed.

(** ** Reachable states *)

Definition sys_ok (s : qsys) : Prop :=
  qinv (sy_st s) ∧ ∀ p, p ∈ sy_threads s → ∃ K, (∀ f, f ∈ K → fact_ok (sy_st s) f) ∧ good K p.

Lemma sys_ok_init r : (∀ slot, 0 ≤ Cmax slot) → q_init r → sys_ok (mkSys (mkQ r [] ∅ 0 ∅) []).
Proof.
  intros HC (Hg & Hh & Hv). split; [|by intros p ?%elem_of_nil].
  assert (∀ slot, active_count slot (mkQ r [] ∅ 0 ∅) = 0) as Hn.
  { intros slot. unfold active_count. replace (size _) with 0%nat; [done|]. symmetry. apply size_empty_iff. set_solver. }
  constructor; simpl.
  - intros id _. apply Hh.
  - intros id. left. apply Hh.
  - intros slot. rewrite Hn. unfold used. simpl. by rewrite Hg.
  - intros slot. rewrite Hg. simpl. specialize (HC slot). lia.
  - intros slot. by rewrite Hn.
  - intros k Hk. by rewrite Hv in Hk.
  - by intros b ?%elem_of_nil.
  - by intros id ?%elem_of_empty.
Qed.

Lemma threads_keep st st' (ts : list prog) : keeps fmtT Cmax st st' →
  (∀ p, p ∈ ts → ∃ K, (∀ f, f ∈ K → fact_ok st f) ∧ good K p) →
  ∀ p, p ∈ ts → ∃ K, (∀ f, f ∈ K → fact_ok st' f) ∧ good K p.
Proof. intros [_ Hk] Hts p Hp. destruct (Hts p Hp) as (K & HK & Hg). exists K. eauto. Qed.

Lemma evict_inv st k : qinv st → r_volatile k (q_redis st) = true →
  keeps fmtT Cmax st (with_redis (r_evict k (q_redis st)) st).
Proof.
  intros Hinv Hk. destruct (qi_vol _ _ _ Hinv k Hk) as (id & -> & Hin & Hst).
  set (r := r_evict _ _). assert (∀ slot, ¬ active slot (hash st id)) as Hna.
  { intros slot [Ha Hs]. destruct Hst as [Hst|Hst]; [by rewrite Hst, lookup_empty in Ha|].
    rewrite Hst in Hs. naive_solver. }
  assert (changes fmtT id ∅ st (with_redis r st)) as Hch.
  { split_and!; [|simpl; apply set_eq; set_solver|done|done|].
    - intros j. unfold hash, r. simpl. redis. destruct (decide (id = j)) as [<-|Hne]; [by rewrite decide_True|].
      by rewrite decide_False by (intros ?%(inj holdKey); done).
    - right. split_and!; [done|by left|]. intros s v t [Hs Hv] [Hc _]. exfalso.
      destruct Hst as [Hst|Hst]; [by rewrite Hst, lookup_empty in Hs|]. rewrite Hst in Hc. naive_solver. }
  split; [|intros f; by eapply changes_fact].
  eapply changes_inv; [exact Hinv|exact Hch|by left| | | |].
  - intros slot. rewrite decide_False by apply active_empty. rewrite decide_False by done.
    unfold used, r. simpl. redis. lia.
  - intros slot. unfold r. simpl. by redis.
  - intros slot Ha. by destruct (active_empty slot).
  - intros k. unfold r. simpl. redis. case_decide as Hk'; [done|]. intros Hv. split; [by left|by left].
Qed.

Lemma sys_ok_step s s' : sys_ok s → qstep fmtT parseT Cmax s s' → sys_ok s'.
Proof.
  intros [Hinv Hts] Hstep.
  destruct Hstep as [st ts p Hp|st ts i c k f id st' rep Hi Hid He|st ts t Ht|st ts key Hk|st ts]; simpl in *.
  - split; [done|]. simpl. intros q [Hq| ->%list_elem_of_singleton]%elem_of_app; [by apply Hts|].
    exists []. split; [by intros f ?%elem_of_nil|by apply good_api].
  - destruct (Hts (Cmd c k)) as (K & HK & Hc & Hg); [by eapply list_elem_of_lookup_2|].
    destruct (exec_inv c f id st st' rep K Hinv Hid Hc HK He) as (Hkeep & K' & HKK & HK' & Hj).
    split; [apply Hkeep|]. simpl. intros q Hq. apply list_elem_of_lookup in Hq as [j Hq].
    apply list_lookup_insert_Some in Hq as [(_ & <- & _)|[_ Hq]].
    + exists K'. split; [done|]. by apply Hg.
    + eapply threads_keep; [exact Hkeep|exact Hts|by eapply list_elem_of_lookup_2].
  - split; [|exact Hts]. simpl. destruct Hinv. by constructor.
  - pose proof (evict_inv st key Hinv Hk) as Hkeep. split; [apply Hkeep|]. by apply (threads_keep st).
  - split; [|by intros p ?%elem_of_nil]. simpl. destruct Hinv. constructor; try done. simpl.
    intros id Hid. apply elem_of_list_to_set, list_elem_of_fmap in Hid as (b & -> & Hb). by exists b.
Qed.

Lemma sys_ok_reach r s : (∀ slot, 0 ≤ Cmax slot) → q_init r →
  rtc (qstep fmtT parseT Cmax) (mkSys (mkQ r [] ∅ 0 ∅) []) s → sys_ok s.
Proof. intros HC Hr Hs. eapply rtc_invariant; [apply sys_ok_step|exact Hs|by apply sys_ok_init]. Qed.
End logic.

(** ** Properties *)

Section properties.
Context {R : Type} `{RedisLaws R}.
Context (fmtT : Z → string) (parseT : string → option Z) (parse_fmt : ∀ t, parseT (fmtT t) = Some t).
Context (Cmax : string → Z) (Cmax_nonneg : ∀ slot, 0 ≤ Cmax slot).

(** C2: No slot is overbooked.  Whatever requests, expiry workers and recovery
workers run at the same time, however their commands interleave, fail or lose
their replies, and across restarts, the counter of a slot is the number of its
holds that are held, confirming or confirmed, and never exceeds the largest
capacity configured for the slot. *)
Theorem Holds_never_overbooked (r0 : R) (s : qsys) (slot : string) :
  q_init r0 → rtc (qstep fmtT parseT Cmax) (mkSys (mkQ r0 [] ∅ 0 ∅) []) s →
  used slot (sy_st s) = active_count slot (sy_st s) ∧ active_count slot (sy_st s) ≤ Cmax slot.
Proof.
  intros Hr Hs. destruct (sys_ok_reach fmtT parseT parse_fmt Cmax r0 s Cmax_nonneg Hr Hs) as [Hinv _].
  split; [apply (qi_used _ _ _ Hinv)|apply (qi_limit _ _ _ Hinv)].
Qed.

(** C8: Bookings are sound.  Every line of the booking file is the booking of a
hold that is confirmed or being confirmed, with the slot, visitor and
confirmation time of that hold, so that no booked hold is ever released; two
lines for one hold are the same booking; and the distinct bookings of a slot
are at most its capacity. *)
Theorem Bookings_sound (r0 : R) (s : qsys) :
  q_init r0 → rtc (qstep fmtT parseT Cmax) (mkSys (mkQ r0 [] ∅ 0 ∅) []) s →
  let st := sy_st s in
  (∀ b, b ∈ q_file st → of_slot (hash st (b_HoldID b)) (b_Slot b) (b_VisitorID b) ∧
     confirmed_at fmtT (hash st (b_HoldID b)) (b_Confirmed b)) ∧
  (∀ b b', b ∈ q_file st → b' ∈ q_file st → b_HoldID b = b_HoldID b' → b = b') ∧
  (∀ slot l, NoDup l → (∀ b, b ∈ l → b ∈ q_file st ∧ b_Slot b = slot) → Z.of_nat (length l) ≤ Cmax slot).
Proof.
  intros Hr Hs st. destruct (sys_ok_reach fmtT parseT parse_fmt Cmax r0 s Cmax_nonneg Hr Hs) as [Hinv _].
  fold st in Hinv.
  assert (∀ b, b ∈ q_file st → of_slot (hash st (b_HoldID b)) (b_Slot b) (b_VisitorID b) ∧
     confirmed_at fmtT (hash st (b_HoldID b)) (b_Confirmed b)) as Hb.
  { intros b Hb. destruct (qi_file _ _ _ Hinv b Hb) as [[_ Hf] _]. exact Hf. }
  assert (∀ b b', b ∈ q_file st → b' ∈ q_file st → b_HoldID b = b_HoldID b' → b = b') as Huniq.
  { intros b b' H1 H2 Hid. destruct (Hb b H1) as [[Hs1 Hv1] [_ Hc1]]. destruct (Hb b' H2) as [[Hs2 Hv2] [_ Hc2]].
    destruct (qi_file _ _ _ Hinv b H1) as [_ Hi1]. destruct (qi_file _ _ _ Hinv b' H2) as [_ Hi2].
    rewrite <- Hid in *. rewrite Hc1 in Hc2. injection Hc2 as Hc2. apply (f_equal parseT) in Hc2.
    rewrite !parse_fmt in Hc2. destruct b, b'. simpl in *. congruence. }
  split_and!; [done|done|]. intros slot l Hnd Hl. etransitivity; [|apply (qi_limit _ _ _ Hinv slot)].
  unfold active_count. apply inj_le. rewrite <- (length_fmap b_HoldID).
  rewrite <- (size_list_to_set (C := gset string)).
  2: { apply NoDup_fmap_2_strong; [|done]. intros b b' H1 H2. apply Huniq; by apply Hl. }
  apply subseteq_size. intros id Hid. apply elem_of_list_to_set, list_elem_of_fmap in Hid as (b & -> & Hbl).
  destruct (Hl b Hbl) as [Hf <-]. destruct (Hb b Hf) as [[Hslot _] [Hst _]]. apply elem_of_filter. split.
  - split; [done|by right].
  - by eapply stored_drawn.
Qed.
End properties.

(** ** A database that satisfies the laws *)

Record db : Type := mkDb {
  db_int : gmap string Z; db_hash : gmap string (gmap string string);
  db_zset : gmap string (gmap string Z); db_vol : gset string }.

Definition zset_of (k : string) (r : db) : gmap string Z := default ∅ (db_zset r !! k).

#[global] Instance db_redis : RedisDB db := {
  r_get k r := db_int r !! k;
  r_hgetall k r := default ∅ (db_hash r !! k);
  r_zscore k m r := zset_of k r !! m;
  r_volatile k r := bool_decide (k ∈ db_vol r);
  r_zrangebyscore k x r := (filter (fun p => p.2 ≤ x) (map_to_list (zset_of k r))).*1;
  r_zrange k n r := take n (map_to_list (zset_of k r)).*1;
  r_set k v r := mkDb (<[k := v]> (db_int r)) (db_hash r) (db_zset r) (db_vol r ∖ {[k]});
  r_incrby k d r := mkDb (<[k := default 0 (db_int r !! k) + d]> (db_int r)) (db_hash r) (db_zset r) (db_vol r);
  r_hset k fs r := mkDb (db_int r) (<[k := list_to_map fs ∪ default ∅ (db_hash r !! k)]> (db_hash r))
    (db_zset r) (db_vol r);
  r_zadd k s m r := mkDb (db_int r) (db_hash r) (<[k := <[m := s]> (zset_of k r)]> (db_zset r)) (db_vol r);
  r_zrem k m r := mkDb (db_int r) (db_hash r) (<[k := delete m (zset_of k r)]> (db_zset r)) (db_vol r);
  r_expire k r := mkDb (db_int r) (db_hash r) (db_zset r) ({[k]} ∪ db_vol r);
  r_evict k r := mkDb (db_int r) (delete k (db_hash r)) (db_zset r) (db_vol r ∖ {[k]});
}.

#[global] Instance db_laws : RedisLaws db.
Proof.
  constructor; intros; simpl; rewrite ?lookup_insert, ?lookup_delete; try done; try (by case_decide).
  all: apply eq_bool_prop_intro; case_decide; subst; rewrite ?Is_true_true, !bool_decide_eq_true; set_solver.
Qed.

Definition db0 : db := mkDb ∅ ∅ ∅ ∅.

Lemma db0_init : q_init db0.
Proof. by split_and!. Qed.

(** ** Schedules *)

Inductive action : Type := ASpawn (p : prog) | ARun (i : nat) (f : fate) (id : string).

Definition act (s : qsys) (a : action) : qsys :=
  match a with
  | ASpawn p => mkSys (sy_st s) (sy_threads s ++ [p])
  | ARun i f id =>
      match sy_threads s !! i with
      | Some (Cmd c k) =>
          if decide (id ∈ q_ids (sy_st s)) then s
          else let '(st', rep) := exec Itoa c f id (sy_st s) in mkSys st' (<[i := k rep]> (sy_threads s))
      | _ => s
      end
  end.

Definition demo_Cmax (slot : string) : Z := 1.

Definition demo_api (p : prog) : Prop := api signed demo_Cmax p.

Lemma act_sound (l : list action) (s : qsys) :
  (∀ p, ASpawn p ∈ l → demo_api p) → rtc (qstep Itoa signed demo_Cmax) s (foldl act s l).
Proof.
  revert s. induction l as [|a l IH]; intros s Hl; [apply rtc_refl|]. simpl.
  assert (rtc (qstep Itoa signed demo_Cmax) s (act s a)) as Ha.
  { destruct s as [st ts], a as [p|i f id]; simpl.
    - apply rtc_once. constructor. apply Hl. left.
    - destruct (ts !! i) as [[o|c k]|] eqn:Ei; [apply rtc_refl| |apply rtc_refl].
      case_decide as Hid; [apply rtc_refl|]. destruct (exec _ _ _ _ _) as [st' rep] eqn:Ee.
      apply rtc_once. by econstructor. }
  etransitivity; [exact Ha|]. apply IH. intros p Hp. apply Hl. by right.
Qed.

(** Capacity one: the first visitor gets the hold and confirms it; the reply to
the finalization is lost; a second visitor asks in between and is refused. *)
Definition demo_actions : list action :=
  [ASpawn (SetCapacity "dawn" 1); ARun 0 Fine "x"; ASpawn (CreateHold true "dawn" "ravi" 5000000);
   ASpawn (CreateHold true "dawn" "sita" 5000000); ARun 1 Fine "x"; ARun 2 Fine "x"; ARun 1 Fine "h1";
   ARun 2 Fine "h2"; ASpawn (ConfirmHold signed "h1"); ARun 3 Fine "x"; ARun 3 Fine "x"; ARun 3 Fine "x";
   ARun 3 Fine "x"; ARun 3 Fine "x"; ARun 3 Fine "x"; ARun 3 Lost "x"].

Definition demo_sys : qsys := foldl act (mkSys (mkQ db0 [] ∅ 0 ∅) []) demo_actions.

Lemma demo_sys_reach : rtc (qstep Itoa signed demo_Cmax) (mkSys (mkQ db0 [] ∅ 0 ∅) []) demo_sys.
Proof.
  apply act_sound. intros p Hp. unfold demo_actions in Hp.
  repeat match goal with
  | H : _ ∈ _ :: _ |- _ => apply elem_of_cons in H as [H|H]; [simplify_eq; by constructor|]
  end. by apply elem_of_nil in Hp.
Qed.

Lemma Holds_never_overbooked_witness :
  used "dawn" (sy_st demo_sys) = 1 ∧ used "dawn" (sy_st demo_sys) = active_count "dawn" (sy_st demo_sys) ∧
  active_count "dawn" (sy_st demo_sys) ≤ 1.
Proof.
  split; [by vm_compute|].
  apply (Holds_never_overbooked Itoa signed signed_Itoa demo_Cmax ltac:(done) db0 demo_sys "dawn" db0_init demo_sys_reach).
Defined.

Lemma Bookings_sound_witness :
  q_file (sy_st demo_sys) = [mkBooking "booking-h1" "h1" "dawn" "ravi" 0] ∧
  confirmed_at Itoa (hash (sy_st demo_sys) "h1") 0.
Proof.
  assert (q_file (sy_st demo_sys) = [mkBooking "booking-h1" "h1" "dawn" "ravi" 0]) as Hf by by vm_compute.
  split; [done|].
  destruct (Bookings_sound Itoa signed signed_Itoa demo_Cmax ltac:(done) db0 demo_sys db0_init demo_sys_reach) as [Hb _].
  destruct (Hb (mkBooking "booking-h1" "h1" "dawn" "ravi" 0)) as [_ Hc]; [|exact Hc].
  rewrite Hf. left.
Defined.

(** A failed sync makes the next attempt write the booking again: the line is
in the file but the hold does not count as seen. *)
Theorem Record_sync_failure_duplicates :
  let b := mkBooking "booking-h1" "h1" "dawn" "ravi" 0 in
  let '(st1, rep1) := Record_booking b Lost (mkQ db0 [] ∅ 0 {["h1"]}) in
  let '(st2, rep2) := Record_booking b Fine st1 in
  rep1 = RErr ∧ rep2 = ROK ∧ q_file st2 = [b; b].
Proof. by vm_compute. Qed.
