(* ===== verification/Resp.v ===== *)
(** * ttd/internal/queue/redis.go: the Redis wire protocol

The client that [Holds] and [HoldsApi] leave behind their [RedisDB] interface:
[Do] writes a command as an array of bulk strings and [readRESP] reads one
reply.  The reader is the string of bytes still to come on the connection; a
reply is one of the Go values the type [any] holds here.  [readRESP] recurses
through arrays; each call consumes at least two bytes, so [fuel] larger than
the number of bytes left is enough ([readRESP_total]).  Memory and stack are as
large as a reply needs: only the lengths [make] itself refuses panic.

[reply_bytes] is the documented RESP encoding of a reply; the round trips show
that the reader inverts it, that the bytes [Do] sends are themselves such an
encoding whatever bytes the arguments hold, and that [GetHold]'s loop over the
flat reply of [HGETALL] computes the hash that [Holds.parse_hold] reads. *)

From Stdlib Require Import ZArith Lia Ascii.
From stdpp Require Import base gmap strings pretty list.
From S2P Require Import Prelude GoStrings Holds.

Open Scope string_scope.
Open Scope Z_scope.

(* [base] ttd/internal/queue *)

Definition CR : ascii := "013"%char.
Definition LF : ascii := "010"%char.
Definition CRLF : string := String CR (String LF "").

(** ** Values and errors *)

Inductive value : Type :=
| VNil | VStr (s : string) | VInt (z : Z) | VArr (l : list value).

Inductive resp_err : Type :=
| EIO                                 (* dial, deadline, write, or a read cut short *)
| EReply (line : string)              (* errors.New of a '-' reply *)
| ENumber (line : string)             (* strconv's error for a ':' reply *)
| EBulkLength (line : string)
| EArrayLength (line : string)
| EPrefix (p : ascii).

(** [Panicked] is the run-time panic of [make] for a length it cannot allocate;
[NoFuel] is the bound of the model and is never reached. *)
Inductive read (A : Type) : Type :=
| Got (a : A) (rest : string) | Failed (e : resp_err) | Panicked | NoFuel.
Arguments Got {A} a rest.
Arguments Failed {A} e.
Arguments Panicked {A}.
Arguments NoFuel {A}.

(** ** bufio, strings and make *)

(** [reader.ReadString('\n')]: the bytes up to and including the line feed. *)
Fixpoint ReadString (s : string) : option (string * string) :=
  match s with
  | EmptyString => None
  | String a s' =>
      if Ascii.eqb a LF then Some (String a "", s')
      else match ReadString s' with Some (l, r) => Some (String a l, r) | None => None end
  end.

(** [strings.TrimSuffix] with a suffix of one byte. *)
Fixpoint TrimSuffix (c : ascii) (s : string) : string :=
  match s with
  | EmptyString => ""
  | String a EmptyString => if Ascii.eqb a c then "" else s
  | String a s' => String a (TrimSuffix c s')
  end.

(** [make] panics for a negative length and for one whose bytes exceed the
address space of the run time (2^48 on the 64-bit platforms). *)
Definition make_ok (elem len : Z) : bool := (0 <=? len) && (len * elem <=? 2 ^ 48).

(** [io.ReadFull] of [n] bytes. *)
Definition ReadFull (n : Z) (s : string) : option (string * string) :=
  if n <=? Z.of_nat (String.length s) then Some (slice_to (Z.to_nat n) s, slice_from (Z.to_nat n) s) else None.

(** ** readRESP *)

(* [go] redis.go:51-59 readRESP *)
Definition read_line (s : string) : option (ascii * string * string) :=
  match s with
  | EmptyString => None
  | String prefix s1 =>
      match ReadString s1 with
      | None => None
      | Some (line, rest) => Some (prefix, TrimSuffix CR (TrimSuffix LF line), rest)
      end
  end.

(* [go] redis.go:67-79 readRESP *)
Definition read_bulk (line rest : string) : read value :=
  match ParseInt line with
  | None => Failed (EBulkLength line)
  | Some length =>
      if length <? -1 then Failed (EBulkLength line)
      else if length =? -1 then Got VNil rest
      else if negb (make_ok 1 (i64 (length + 2))) then Panicked
      else match ReadFull (length + 2) rest with
           | None => Failed EIO
           | Some (data, rest') => Got (VStr (slice_to (Z.to_nat length) data)) rest'
           end
  end.

(** The loop over the elements of an array, [rd] reading one. *)
(* [go] redis.go:88-93 readRESP *)
Fixpoint read_elems (rd : string → read value) (fuel : nat) (n : Z) (s : string) : read (list value) :=
  match fuel with
  | O => NoFuel
  | S f =>
      if n <=? 0 then Got [] s
      else match rd s with
           | Got v s1 =>
               match read_elems rd f (n - 1) s1 with
               | Got l s2 => Got (v :: l) s2
               | Failed e => Failed e
               | Panicked => Panicked
               | NoFuel => NoFuel
               end
           | Failed e => Failed e
           | Panicked => Panicked
           | NoFuel => NoFuel
           end
  end.

(* [go] redis.go:80-94 readRESP *)
Definition read_array (rd : string → read value) (fuel : nat) (line rest : string) : read value :=
  match ParseInt line with
  | None => Failed (EArrayLength line)
  | Some length =>
      if length <? -1 then Failed (EArrayLength line)
      else if length =? -1 then Got VNil rest
      else if negb (make_ok 16 length) then Panicked
      else match read_elems rd fuel length rest with
           | Got l rest' => Got (VArr l) rest'
           | Failed e => Failed e
           | Panicked => Panicked
           | NoFuel => NoFuel
           end
  end.

(* [go] redis.go:50-98 readRESP *)
Fixpoint readRESP (fuel : nat) (s : string) : read value :=
  match fuel with
  | O => NoFuel
  | S f =>
      match read_line s with
      | None => Failed EIO
      | Some (prefix, line, rest) =>
          if Ascii.eqb prefix "+" then Got (VStr line) rest
          else if Ascii.eqb prefix "-" then Failed (EReply line)
          else if Ascii.eqb prefix ":" then
            match ParseInt line with Some z => Got (VInt z) rest | None => Failed (ENumber line) end
          else if Ascii.eqb prefix "$" then read_bulk line rest
          else if Ascii.eqb prefix "*" then read_array (readRESP f) f line rest
          else Failed (EPrefix prefix)
      end
  end.

Definition read_reply (s : string) : read value := readRESP (S (String.length s)) s.

(** ** Do *)

(* [go] redis.go:43-43 Do *)
Definition frame (part : string) : string :=
  "$" +:+ Itoa (Z.of_nat (String.length part)) +:+ CRLF +:+ part +:+ CRLF.

(** The writes of one command, in order. *)
(* [go] redis.go:38-46 Do *)
Definition writes (parts : list string) : list string :=
  ("*" +:+ Itoa (Z.of_nat (length parts)) +:+ CRLF) :: map frame parts.

(** All the bytes of a command. *)
Definition wire (parts : list string) : string := foldr String.append "" (writes parts).

(** What the environment does with a call: whether the dial and the deadline
succeed, the first write that fails, and the bytes the peer answers with. *)
Record conn : Type := mkConn {
  c_dial : bool; c_deadline : bool; c_failAt : option nat; c_answer : string }.

(** The bytes that reached the connection and the result of the call. *)
(* [go] redis.go:29-48 Do *)
Definition Do (c : conn) (command : string) (args : list string) : string * read value :=
  if negb (c_dial c) then ("", Failed EIO)
  else if negb (c_deadline c) then ("", Failed EIO)
  else
    let ws := writes (command :: args) in
    match c_failAt c with
    | Some i => if (i <? length ws)%nat then (foldr String.append "" (take i ws), Failed EIO)
                else (wire (command :: args), read_reply (c_answer c))
    | None => (wire (command :: args), read_reply (c_answer c))
    end.

(** ** The client of the service *)

(** The loop of [GetHold] over the flat array. *)
(* [go] service.go:155-162 GetHold *)
Fixpoint fields_of (values : list value) (fields : gmap string string) : gmap string string :=
  match values with
  | k :: v :: values' =>
      fields_of values'
        (match k, v with VStr key, VStr value => <[key := value]> fields | _, _ => fields end)
  | _ => fields
  end.

(** [GetHold] from the reply value on: [parseT] is [time.Parse] at RFC3339Nano. *)
(* [go] service.go:151-174 GetHold *)
Definition hold_of_reply (parseT : string → option Z) (v : value) : result queue_error Hold :=
  match v with
  | VArr [] => Err ErrHoldMissing
  | VArr values =>
      let fields := fields_of values ∅ in
      let field k := default "" (fields !! k) in
      match parseT (field "expires_at") with
      | None => Err ErrOther
      | Some expiresAt =>
          let hold c := mkHold (field "id") (field "slot") (field "visitor_id") (field "status") expiresAt c in
          if String.eqb (field "confirmed_at") "" then Ok (hold zero_time)
          else match parseT (field "confirmed_at") with
               | Some c => Ok (hold c)
               | None => Err ErrOther
               end
      end
  | _ => Err ErrHoldMissing
  end.

(** [ids] of a sorted-set reply: elements that are not strings are skipped. *)
(* [go] service.go:184-193 ReleaseExpiredHolds *)
Definition ids_of_reply (v : value) : option (list string) :=
  match v with
  | VArr l => Some (omap (fun x => match x with VStr s => Some s | _ => None end) l)
  | _ => None
  end.

(* [go] service.go:213-216 StartExpiryWorker *)
Definition worker_interval (interval : Z) : Z := if interval <=? 0 then 1000000000 else interval.

(** ** The documented encoding of replies *)

Definition bulk (s : string) : string := frame s.

Fixpoint reply_bytes (v : value) : string :=
  match v with
  | VNil => "$-1" +:+ CRLF
  | VStr s => bulk s
  | VInt z => ":" +:+ Itoa z +:+ CRLF
  | VArr l => "*" +:+ Itoa (Z.of_nat (length l)) +:+ CRLF
              +:+ (fix go l := match l with [] => "" | x :: l' => reply_bytes x +:+ go l' end) l
  end.

Fixpoint replies_bytes (l : list value) : string :=
  match l with [] => "" | x :: l' => reply_bytes x +:+ replies_bytes l' end.

(** Values a server can send and the process can hold: int64 integers, strings
and arrays below the allocation limit. *)
Inductive sendable : value → Prop :=
| S_nil : sendable VNil
| S_str s : Z.of_nat (String.length s) + 2 ≤ 2 ^ 48 → sendable (VStr s)
| S_int z : in_i64 z → sendable (VInt z)
| S_arr l : Z.of_nat (length l) * 16 ≤ 2 ^ 48 → Forall sendable l → sendable (VArr l).

(** ** Lemmas *)

Lemma value_rect' (P : value → Prop) :
  P VNil → (∀ s, P (VStr s)) → (∀ z, P (VInt z)) → (∀ l, Forall P l → P (VArr l)) → ∀ v, P v.
Proof.
  intros Hn Hs Hi Ha. fix IH 1. intros [ |s|z|l]; [done|apply Hs|apply Hi|].
  apply Ha. induction l; constructor; auto.
Qed.

Lemma reply_bytes_arr l :
  reply_bytes (VArr l) = "*" +:+ Itoa (Z.of_nat (length l)) +:+ CRLF +:+ replies_bytes l.
Proof.
  reflexivity.
Qed.

Lemma str_length_app (a b : string) : String.length (a +:+ b) = (String.length a + String.length b)%nat.
Proof. induction a; [done|]. rewrite str_app_cons. simpl. by rewrite IHa. Qed.

Lemma lacks_app c (a b : string) : lacks c a → lacks c b → lacks c (a +:+ b).
Proof.
  induction a as [|x a IH]; [done|]. intros [Hx Ha]%lacks_cons Hb.
  rewrite str_app_cons. apply lacks_cons. auto.
Qed.

Lemma ReadString_app line rest : lacks LF line →
  ReadString (line +:+ String LF rest) = Some (line +:+ String LF "", rest).
Proof.
  induction line as [|a line IH]; intros H; [reflexivity|].
  apply lacks_cons in H as [Ha Hl]. rewrite !str_app_cons. simpl.
  destruct (Ascii.eqb_spec a LF); [done|]. by rewrite (IH Hl).
Qed.


Lemma TrimSuffix_app c s : TrimSuffix c (s +:+ String c "") = s.
Proof.
  induction s as [|a s IH]; [simpl; by rewrite Ascii.eqb_refl|].
  rewrite str_app_cons. destruct s as [|b s]; [simpl in *; by rewrite Ascii.eqb_refl|].
  rewrite str_app_cons in *. simpl in *. by rewrite IH.
Qed.

(** A line of the protocol is read back, with the bytes behind it untouched. *)
Lemma read_line_app p line rest : lacks LF line →
  read_line (String p (line +:+ CRLF +:+ rest)) = Some (p, line, rest).
Proof.
  intros H. unfold read_line.
  replace (line +:+ CRLF +:+ rest) with ((line +:+ String CR "") +:+ String LF rest)
    by (rewrite str_app_assoc; reflexivity).
  rewrite ReadString_app by (apply lacks_app; [done|]; apply lacks_cons; split; [discriminate|reflexivity]).
  by rewrite !TrimSuffix_app.
Qed.

Lemma ReadString_split s line rest : ReadString s = Some (line, rest) → s = line +:+ rest.
Proof.
  revert line rest. induction s as [|a s IH]; [done|]. intros line rest. simpl.
  case_match; [by intros [= <- <-]|].
  destruct (ReadString s) as [[l r]|]; [|done]. intros [= <- <-]. by rewrite (IH _ _ eq_refl), str_app_cons.
Qed.

Lemma read_line_split s p line rest : read_line s = Some (p, line, rest) → ∃ raw, s = String p (raw +:+ rest).
Proof.
  unfold read_line. destruct s as [|a s]; [done|].
  destruct (ReadString s) as [[l r]|] eqn:E; [|done]. intros [= <- <- <-].
  apply ReadString_split in E as ->. by exists l.
Qed.

Lemma slice_from_split n s : (n ≤ String.length s)%nat → ∃ a, s = a +:+ slice_from n s.
Proof.
  unfold slice_from. revert n. induction s as [|c s IH]; intros [|n] Hn; simpl in *; try lia; [by exists ""..| |].
  - exists "". change ("" +:+ ?x) with x. by rewrite substring_all.
  - destruct (IH n ltac:(lia)) as [a Ha]. exists (String c a). by rewrite str_app_cons, <- Ha.
Qed.

Lemma ReadFull_split n s a b : 0 ≤ n → ReadFull n s = Some (a, b) → ∃ x, s = x +:+ b.
Proof.
  intros Hn. unfold ReadFull. destruct (Z.leb_spec n (Z.of_nat (String.length s))); [|done].
  intros [= <- <-]. apply slice_from_split. lia.
Qed.

Lemma ReadFull_app a b : ReadFull (Z.of_nat (String.length a)) (a +:+ b) = Some (a, b).
Proof.
  unfold ReadFull. rewrite Nat2Z.id, slice_to_app, slice_from_app.
  destruct (Z.leb_spec (Z.of_nat (String.length a)) (Z.of_nat (String.length (a +:+ b)))); [done|].
  rewrite str_length_app in *. lia.
Qed.

Lemma Itoa_no_LF z : lacks LF (Itoa z).
Proof. apply Itoa_lacks; [reflexivity|discriminate]. Qed.

(** *** Termination: the bytes left bound the recursion *)

(** Somewhere in the bytes there is a header of kind [p] that announces [n] bytes or
elements, and [make] refuses that length. *)
Definition announces (s : string) (p : ascii) (n : Z) : Prop :=
  ∃ before s' line rest, s = before +:+ s' ∧ read_line s' = Some (p, line, rest) ∧ ParseInt line = Some n.

Definition oversized (p : ascii) (n : Z) : Prop :=
  (p = "$"%char ∧ 2 ^ 48 < n + 2) ∨ (p = "*"%char ∧ 2 ^ 48 < 16 * n).

(** A reply that was read is a part of [s] that is not empty, and the bytes behind it are
left; only an oversized length panics; the fuel is enough. *)
Definition consumes {A} (s : string) (r : read A) : Prop :=
  match r with
  | Got _ rest => ∃ c a, s = String c (a +:+ rest)
  | Failed _ => True
  | Panicked => ∃ p n, announces s p n ∧ oversized p n
  | NoFuel => False
  end.

Lemma announces_after a s p n : announces s p n → announces (a +:+ s) p n.
Proof.
  intros (b & s' & line & rest & -> & Hl & Hn). exists (a +:+ b), s', line, rest. by rewrite str_app_assoc.
Qed.

Lemma announces_here s p line rest n : read_line s = Some (p, line, rest) → ParseInt line = Some n → announces s p n.
Proof. intros Hl Hn. by exists "", s, line, rest. Qed.

Lemma read_bulk_consumes s line rest : read_line s = Some ("$"%char, line, rest) → consumes s (read_bulk line rest).
Proof.
  intros Hl. destruct (read_line_split _ _ _ _ Hl) as [raw Hs]. unfold read_bulk.
  destruct (ParseInt line) as [n|] eqn:En; [|done].
  destruct (Z.ltb_spec n (-1)); [done|]. destruct (Z.eqb_spec n (-1)); [simpl; eauto|].
  destruct (make_ok 1 (i64 (n + 2))) eqn:Em; simpl.
  - destruct (ReadFull (n + 2) rest) as [[data rest']|] eqn:Ef; [|done]. simpl.
    destruct (ReadFull_split (n + 2) _ _ _ ltac:(lia) Ef) as [x ->]. exists "$"%char, (raw +:+ x). by rewrite str_app_assoc.
  - exists "$"%char, n. split; [by eapply announces_here|]. left. split; [done|].
    destruct (Z.leb_spec (n + 2) (2 ^ 48)); [|lia]. rewrite i64_small in Em by (unfold in_i64; lia).
    unfold make_ok in Em. apply andb_false_iff in Em as [Em|Em]; zbool; lia.
Qed.

Lemma read_elems_consumes rd f fuel n s :
  (∀ t, (String.length t < f)%nat → consumes t (rd t)) →
  (String.length s < f)%nat → (String.length s < fuel)%nat →
  match read_elems rd fuel n s with
  | Got _ rest => ∃ a, s = a +:+ rest
  | Failed _ => True
  | Panicked => ∃ p n, announces s p n ∧ oversized p n
  | NoFuel => False
  end.
Proof.
  intros Hrd. revert n s. induction fuel as [|fuel IH]; intros n s Hf Hs; [lia|]. simpl.
  destruct (n <=? 0); [by exists ""|]. specialize (Hrd s Hf).
  destruct (rd s) as [v s1|e| |]; simpl in *; try done. destruct Hrd as (c & a & ->).
  simpl in Hf, Hs. rewrite str_length_app in Hf, Hs. specialize (IH (n - 1) s1 ltac:(lia) ltac:(lia)).
  destruct (read_elems rd fuel (n - 1) s1); simpl in *; try done.
  - destruct IH as [x ->]. exists (String c (a +:+ x)). by rewrite str_app_cons, str_app_assoc.
  - destruct IH as (p & m & Ha & Ho). exists p, m. split; [|done]. rewrite <- str_app_cons. by apply announces_after.
Qed.

Lemma read_array_consumes rd f s line rest :
  (∀ t, (String.length t < f)%nat → consumes t (rd t)) → (String.length s ≤ f)%nat →
  read_line s = Some ("*"%char, line, rest) → consumes s (read_array rd f line rest).
Proof.
  intros Hrd Hf Hl. destruct (read_line_split _ _ _ _ Hl) as [raw Hs]. unfold read_array.
  destruct (ParseInt line) as [n|] eqn:En; [|done].
  destruct (Z.ltb_spec n (-1)); [done|]. destruct (Z.eqb_spec n (-1)); [simpl; eauto|].
  assert (String.length rest < f)%nat as Hr by (subst s; simpl in Hf; rewrite str_length_app in Hf; lia).
  destruct (make_ok 16 n) eqn:Em; simpl.
  - pose proof (read_elems_consumes rd f f n rest Hrd Hr Hr) as He.
    destruct (read_elems rd f n rest) as [l rest'|e| |]; simpl in *; try done.
    + destruct He as [x ->]. exists "*"%char, (raw +:+ x). by rewrite str_app_assoc.
    + destruct He as (p & m & Ha & Ho). exists p, m. split; [|done]. rewrite Hs, <- str_app_cons. by apply announces_after.
  - exists "*"%char, n. split; [by eapply announces_here|]. right. split; [done|].
    unfold make_ok in Em. apply andb_false_iff in Em as [Em|Em]; zbool; lia.
Qed.

Lemma readRESP_consumes fuel s : (String.length s < fuel)%nat → consumes s (readRESP fuel s).
Proof.
  revert s. induction fuel as [|f IH]; intros s Hs; [lia|]. simpl.
  destruct (read_line s) as [[[p line] rest]|] eqn:E; [|done].
  destruct (read_line_split _ _ _ _ E) as [raw Hraw].
  destruct (Ascii.eqb p "+"); [simpl; eauto|]. destruct (Ascii.eqb p "-"); [done|].
  destruct (Ascii.eqb p ":"); [destruct (ParseInt line); simpl; eauto|].
  destruct (Ascii.eqb_spec p "$") as [->|_]; [by apply read_bulk_consumes|].
  destruct (Ascii.eqb_spec p "*") as [->|_]; [|done]. apply read_array_consumes; [exact IH|lia|done].
Qed.

(** More fuel than bytes changes nothing. *)
Lemma read_elems_fuel rd1 rd2 f n s f1 f2 :
  (∀ t, (String.length t < f)%nat → rd1 t = rd2 t ∧ consumes t (rd1 t)) →
  (String.length s < f)%nat → (String.length s < f1)%nat → (String.length s < f2)%nat →
  read_elems rd1 f1 n s = read_elems rd2 f2 n s.
Proof.
  intros Hrd. revert f2 n s. induction f1 as [|f1 IH]; intros [|f2] n s Hf H1 H2; try lia. simpl.
  destruct (n <=? 0); [done|]. destruct (Hrd s Hf) as [<- Hc].
  destruct (rd1 s) as [v s1|e| |]; try done. destruct Hc as (c & a & ->).
  simpl in *. rewrite str_length_app in *. by rewrite (IH f2 (n - 1) s1) by lia.
Qed.

Lemma readRESP_fuel f1 f2 s : (String.length s < f1)%nat → (String.length s < f2)%nat →
  readRESP f1 s = readRESP f2 s.
Proof.
  revert f2 s. induction f1 as [|f1 IH]; intros [|f2] s H1 H2; try lia. simpl.
  destruct (read_line s) as [[[p line] rest]|] eqn:E; [|done].
  destruct (read_line_split _ _ _ _ E) as [raw Hraw].
  repeat (case_match; [done|]). case_match; [|done]. unfold read_array.
  destruct (ParseInt line) as [n|]; [|done]. repeat (case_match; [done|]).
  rewrite (read_elems_fuel (readRESP f1) (readRESP f2) (Nat.min f1 f2) n rest f1 f2); [done| |..].
  - intros t Ht. split; [apply IH; lia|apply readRESP_consumes; lia].
  - subst s. simpl in *. rewrite str_length_app in *. lia.
  - subst s. simpl in *. rewrite str_length_app in *. lia.
  - subst s. simpl in *. rewrite str_length_app in *. lia.
Qed.

(** *** Round trip *)

Lemma read_bulk_app part rest : Z.of_nat (String.length part) + 2 ≤ 2 ^ 48 →
  read_bulk (Itoa (Z.of_nat (String.length part))) (part +:+ CRLF +:+ rest) = Got (VStr part) rest.
Proof.
  intros Hlen. unfold read_bulk. rewrite ParseInt_Itoa by (unfold in_i64; lia).
  destruct (Z.ltb_spec (Z.of_nat (String.length part)) (-1)); [lia|].
  destruct (Z.eqb_spec (Z.of_nat (String.length part)) (-1)); [lia|].
  rewrite i64_small by (unfold in_i64; lia). unfold make_ok.
  rewrite (proj2 (Z.leb_le 0 _)) by lia. rewrite (proj2 (Z.leb_le _ (2 ^ 48))) by lia. simpl negb.
  replace (Z.of_nat (String.length part) + 2) with (Z.of_nat (String.length (part +:+ CRLF)))
    by (rewrite str_length_app; simpl; lia).
  rewrite <- str_app_assoc, ReadFull_app, Nat2Z.id, slice_to_app. done.
Qed.

(** One line and its dispatch. *)
Definition dispatch (f : nat) (p : ascii) (line rest : string) : read value :=
  if Ascii.eqb p "+" then Got (VStr line) rest
  else if Ascii.eqb p "-" then Failed (EReply line)
  else if Ascii.eqb p ":" then
    match ParseInt line with Some z => Got (VInt z) rest | None => Failed (ENumber line) end
  else if Ascii.eqb p "$" then read_bulk line rest
  else if Ascii.eqb p "*" then read_array (readRESP f) f line rest
  else Failed (EPrefix p).

Lemma readRESP_line f p line rest : lacks LF line →
  readRESP (S f) (String p (line +:+ CRLF +:+ rest)) = dispatch f p line rest.
Proof. intros H. cbn [readRESP]. by rewrite read_line_app. Qed.

Lemma readRESP_frame f s rest : Z.of_nat (String.length s) + 2 ≤ 2 ^ 48 →
  readRESP (S f) (frame s +:+ rest) = Got (VStr s) rest.
Proof.
  intros H. unfold frame. rewrite !str_app_assoc.
  etransitivity; [apply (readRESP_line f "$"), Itoa_no_LF|]. by apply read_bulk_app.
Qed.

Lemma read_elems_replies rd b l :
  (∀ v, v ∈ l → ∀ rest, (String.length (reply_bytes v +:+ rest) < b)%nat → rd (reply_bytes v +:+ rest) = Got v rest) →
  ∀ f rest, (length l < f)%nat → (String.length (replies_bytes l +:+ rest) < b)%nat →
  read_elems rd f (Z.of_nat (length l)) (replies_bytes l +:+ rest) = Got l rest.
Proof.
  induction l as [|v l IH]; intros H [|f] rest Hf Hb; simpl in Hf; try lia; [reflexivity|].
  cbn [read_elems replies_bytes length] in *. rewrite str_app_assoc in *.
  destruct (Z.leb_spec (Z.of_nat (S (length l))) 0); [lia|]. rewrite H; [|set_solver|done].
  replace (Z.of_nat (S (length l)) - 1) with (Z.of_nat (length l)) by lia.
  rewrite IH; [done| |lia|].
  - intros. apply H; [set_solver|done].
  - rewrite str_length_app in Hb. lia.
Qed.

Lemma replies_bytes_length l : (length l ≤ String.length (replies_bytes l))%nat.
Proof.
  induction l as [|v l IH]; simpl; [lia|]. rewrite str_length_app.
  assert (1 ≤ String.length (reply_bytes v))%nat by (destruct v; simpl; lia). lia.
Qed.

(** Enough fuel for the reply and what is behind it. *)
Lemma readRESP_reply v : sendable v → ∀ fuel rest,
  (String.length (reply_bytes v +:+ rest) < fuel)%nat → readRESP fuel (reply_bytes v +:+ rest) = Got v rest.
Proof.
  induction v as [|s|z|l IH] using value_rect'; intros Hv [|f] rest Hf; try lia.
  - exact (readRESP_line f "$" "-1" rest eq_refl).
  - inversion_clear Hv. by apply readRESP_frame.
  - inversion_clear Hv. cbn [reply_bytes]. rewrite !str_app_assoc.
    etransitivity; [apply (readRESP_line f ":"), Itoa_no_LF|]. unfold dispatch. simpl. by rewrite ParseInt_Itoa.
  - inversion Hv as [| | |? Hn Hl]; subst. rewrite reply_bytes_arr, !str_app_assoc in *.
    etransitivity; [apply (readRESP_line f "*"), Itoa_no_LF|].
    rewrite !str_length_app in Hf. pose proof (replies_bytes_length l). change (String.length "*") with 1%nat in Hf.
    unfold dispatch, read_array. simpl. rewrite ParseInt_Itoa by (unfold in_i64; lia).
    destruct (Z.ltb_spec (Z.of_nat (length l)) (-1)); [lia|].
    destruct (Z.eqb_spec (Z.of_nat (length l)) (-1)); [lia|]. unfold make_ok.
    rewrite (proj2 (Z.leb_le 0 _)) by lia. rewrite (proj2 (Z.leb_le _ (2 ^ 48))) by lia. simpl negb. cbv iota.
    rewrite (read_elems_replies (readRESP f) f); [done| |lia|rewrite str_length_app; lia].
    rewrite Forall_forall in IH, Hl. intros v Hv'. apply IH; auto.
Qed.

(** A command is the encoding of the array of its parts. *)
Lemma wire_reply parts : wire parts = reply_bytes (VArr (map VStr parts)).
Proof.
  rewrite reply_bytes_arr, length_map. unfold wire, writes. simpl. rewrite !str_app_assoc. do 3 f_equal.
  induction parts as [|p parts IH]; [reflexivity|]. simpl. by rewrite IH.
Qed.

(** Parts a command can carry: together below the allocation limit of the reader. *)
Definition part_ok (p : string) : Prop := Z.of_nat (String.length p) + 2 ≤ 2 ^ 48.

Lemma parts_sendable parts : Z.of_nat (length parts) * 16 ≤ 2 ^ 48 → Forall part_ok parts →
  sendable (VArr (map VStr parts)).
Proof.
  intros Hn Hp. constructor; [by rewrite length_map|]. apply Forall_map.
  eapply Forall_impl; [exact Hp|]. intros p H. by constructor.
Qed.

Lemma map_VStr_inj l l' : map VStr l = map VStr l' → l' = l.
Proof. revert l'. induction l; intros [|]; simpl; intros; simplify_eq; f_equal; auto. Qed.

Lemma read_reply_app v rest : sendable v → read_reply (reply_bytes v +:+ rest) = Got v rest.
Proof. intros H. apply readRESP_reply; [done|lia]. Qed.

Lemma Do_sends c command args : c_dial c = true → c_deadline c = true → c_failAt c = None →
  (Do c command args).1 = wire (command :: args).
Proof. intros Hd Hl Hf. unfold Do. by rewrite Hd, Hl, Hf. Qed.

(** *** HGETALL *)

Definition flat (l : list (string * string)) : list value := concat (map (fun kv => [VStr kv.1; VStr kv.2]) l).

Lemma fields_of_flat l m : fields_of (flat l) m = foldl (fun (m : gmap string string) kv => <[kv.1 := kv.2]> m) m l.
Proof. revert m. induction l as [|[k v] l IH]; intros m; [reflexivity|]. simpl. apply IH. Qed.

Lemma foldl_insert_lookup (l : list (string * string)) (m : gmap string string) k : NoDup l.*1 →
  foldl (fun (m : gmap string string) kv => <[kv.1 := kv.2]> m) m l !! k =
  match (list_to_map l : gmap string string) !! k with Some v => Some v | None => m !! k end.
Proof.
  revert m. induction l as [|[k' v'] l IH]; intros m Hd; [reflexivity|].
  inversion_clear Hd as [|? ? Hnot Hd']. simpl. rewrite IH by done.
  destruct (decide (k = k')) as [->|Hne].
  - rewrite lookup_insert_eq. rewrite not_elem_of_list_to_map_1 by done. by rewrite lookup_insert_eq.
  - by rewrite !lookup_insert_ne.
Qed.

Lemma fields_of_hash (h : gmap string string) l : l ≡ₚ map_to_list h → fields_of (flat l) ∅ = h.
Proof.
  intros Hl. apply map_eq. intros k. rewrite fields_of_flat, foldl_insert_lookup.
  - replace (list_to_map l : gmap string string) with h; [destruct (h !! k); [done|apply lookup_empty]|].
    rewrite <- (list_to_map_to_list h). symmetry. apply list_to_map_proper; [|done].
    rewrite Hl. apply NoDup_fst_map_to_list.
  - rewrite Hl. apply NoDup_fst_map_to_list.
Qed.

(** ** Properties *)

(** C21: Reading a reply comes to an end whatever bytes the peer sends: the recursion
and the loop over array elements never need more steps than there are bytes, and
more steps change nothing.  It ends in one of three ways.  A value was read: then it
used up at least one byte, and what is left is exactly the bytes behind it, so that
the encoding of any value the protocol can carry is read back.  Or an error is
returned.  Or [make] panics: then the bytes hold a bulk or array header whose length
exceeds what can be allocated. *)
Theorem readRESP_total (s : string) :
  (∀ extra, readRESP (S (String.length s) + extra) s = read_reply s) ∧
  match read_reply s with
  | Got v rest => ∃ c used, s = String c (used +:+ rest)
  | Failed _ => True
  | Panicked => ∃ p n, announces s p n ∧ oversized p n
  | NoFuel => False
  end ∧
  (∀ v rest, s = reply_bytes v +:+ rest → sendable v → read_reply s = Got v rest).
Proof.
  split_and!.
  - intros extra. apply readRESP_fuel; lia.
  - exact (readRESP_consumes (S (String.length s)) s ltac:(lia)).
  - intros v rest -> Hv. by apply read_reply_app.
Qed.

Lemma readRESP_total_witness :
  read_reply (reply_bytes (VArr [VStr "a"; VInt (-7); VNil]) +:+ "more") = Got (VArr [VStr "a"; VInt (-7); VNil]) "more" ∧
  ∃ p n, announces ("*2" +:+ CRLF +:+ ":1" +:+ CRLF +:+ "$9223372036854775806" +:+ CRLF) p n ∧ oversized p n.
Proof.
  split.
  - apply (readRESP_total (reply_bytes (VArr [VStr "a"; VInt (-7); VNil]) +:+ "more")); [reflexivity|].
    repeat constructor; simpl; try done; unfold in_i64; lia.
  - exact (proj1 (proj2 (readRESP_total ("*2" +:+ CRLF +:+ ":1" +:+ CRLF +:+ "$9223372036854775806" +:+ CRLF)))).
Defined.

(** Reading inverts the protocol's encoding for every value a server can
send, nested arrays included, and leaves the bytes behind the reply untouched. *)
Theorem readRESP_roundtrip (v : value) (rest : string) :
  sendable v → read_reply (reply_bytes v +:+ rest) = Got v rest.
Proof. apply read_reply_app. Qed.

(** No argument can change the command it is part of: whatever bytes the
parts hold (line ends and RESP prefixes included), a peer that decodes the
bytes [Do] wrote recovers exactly the parts, and two commands with the same
bytes are the same command. *)
Theorem Do_command_framed (c : conn) (command : string) (args : list string) (rest : string) :
  c_dial c = true → c_deadline c = true → c_failAt c = None →
  Z.of_nat (length (command :: args)) * 16 ≤ 2 ^ 48 → Forall part_ok (command :: args) →
  read_reply ((Do c command args).1 +:+ rest) = Got (VArr (map VStr (command :: args))) rest ∧
  ∀ command' args', (Do c command' args').1 = (Do c command args).1 →
    Z.of_nat (length (command' :: args')) * 16 ≤ 2 ^ 48 → Forall part_ok (command' :: args') →
    command' = command ∧ args' = args.
Proof.
  intros Hd Hl Hf Hn Hp. rewrite Do_sends, wire_reply by done.
  split; [by apply read_reply_app, parts_sendable|]. intros command' args' Heq Hn' Hp'.
  rewrite Do_sends, wire_reply in Heq by done.
  pose proof (read_reply_app _ "" (parts_sendable _ Hn Hp)) as H1.
  pose proof (read_reply_app _ "" (parts_sendable _ Hn' Hp')) as H2.
  rewrite Heq, H1 in H2. injection H2 as H2 H3. split; [done|]. by apply map_VStr_inj.
Qed.

Lemma Do_command_framed_witness :
  read_reply ((Do (mkConn true true None "") "HGETALL" ["k" +:+ CRLF +:+ "*1" +:+ CRLF]).1 +:+ "+OK") =
    Got (VArr [VStr "HGETALL"; VStr ("k" +:+ CRLF +:+ "*1" +:+ CRLF)]) "+OK".
Proof.
  apply (Do_command_framed (mkConn true true None "") "HGETALL" ["k" +:+ CRLF +:+ "*1" +:+ CRLF]);
    [reflexivity|reflexivity|reflexivity|simpl; lia|].
  repeat constructor; unfold part_ok; simpl; lia.
Defined.

Lemma readRESP_roundtrip_witness :
  read_reply (reply_bytes (VArr [VInt (-7); VNil; VArr [VStr ""]]) +:+ "x") =
    Got (VArr [VInt (-7); VNil; VArr [VStr ""]]) "x".
Proof.
  apply readRESP_roundtrip. repeat constructor; unfold in_i64; simpl; lia.
Defined.

(** C20: [GetHold] over the wire computes what the service's model reads from
the hash: the server may send the fields of the hash in any order, and the
client's parsing of the flat array yields the same hold, or the same error, as
[parse_hold] of the hash itself; a missing hold is the empty array. *)
Theorem GetHold_wire (parseT : string → option Z) (c : conn) (id : string)
    (h : gmap string string) (l : list (string * string)) :
  c_dial c = true → c_deadline c = true → c_failAt c = None →
  l ≡ₚ map_to_list h → sendable (VArr (flat l)) → c_answer c = reply_bytes (VArr (flat l)) →
  ∃ v, (Do c "HGETALL" [holdKey id]).2 = Got v "" ∧ hold_of_reply parseT v = parse_hold parseT (RHash h).
Proof.
  intros Hd Hl Hf Hp Hs Ha. exists (VArr (flat l)). split.
  - unfold Do. rewrite Hd, Hl, Hf, Ha, <- (str_app_nil (reply_bytes _)). by apply read_reply_app.
  - pose proof (fields_of_hash h l Hp) as Hfields. unfold hold_of_reply, parse_hold.
    destruct (decide (h = ∅)) as [->|Hne].
    + rewrite map_to_list_empty in Hp. apply Permutation_nil_r in Hp as ->. done.
    + destruct (flat l) eqn:E; [by rewrite <- Hfields in Hne|]. by rewrite <- E, Hfields in *.
Qed.

Definition demo_hash : gmap string string :=
  list_to_map [("id", "a"); ("slot", "s"); ("visitor_id", "v"); ("status", "held"); ("expires_at", "9")].

Lemma GetHold_wire_witness :
  ∃ v, (Do (mkConn true true None (reply_bytes (VArr (flat (map_to_list demo_hash))))) "HGETALL" [holdKey "a"]).2
         = Got v "" ∧ hold_of_reply signed v = Ok (mkHold "a" "s" "v" "held" 9 zero_time).
Proof.
  destruct (GetHold_wire signed (mkConn true true None (reply_bytes (VArr (flat (map_to_list demo_hash))))) "a"
    demo_hash (map_to_list demo_hash)) as (v & H1 & H2); try reflexivity.
  - vm_compute. repeat constructor; simpl; lia.
  - exists v. split; [exact H1|]. rewrite H2. vm_compute. reflexivity.
Defined.

(** The length a peer announces is allocated before a byte of it is read: a
bulk header near the end of int64 makes the allocation panic. *)
Theorem readRESP_length_panics :
  read_reply ("$9223372036854775806" +:+ CRLF) = Panicked ∧
  read_reply ("*9223372036854775807" +:+ CRLF) = Panicked.
Proof. split; vm_compute; reflexivity. Qed.
