(* ===== verification/HoldsApi.v ===== *)
(** * ttd: the HTTP routes over the queue service

[internal/queue/http.go] on top of the interleaved programs of [Holds], and the
start of [cmd/queue-server].  Each request runs as a thread of the system of
[Holds]; what a status code promises to the client is stated about the booking
file and the holds at that moment and at every later one. *)

From Stdlib Require Import ZArith Lia Ascii String.
From stdpp Require Import base gmap strings list relations.
From S2P Require Import Prelude GoStrings GoTime Holds.
Open Scope string_scope.
Open Scope Z_scope.

(* [base] ttd/internal/queue *)

(** A request with its decoded body; [None] is a body that is no JSON of the
route's shape.  The last two are the jobs of the expiry worker. *)
(* [go] http.go:12-17 Handler *)
Inductive request : Type :=
| PutCapacity (slot : string) (body : option Z)
| PostHold (body : option (string * string * Z))
| GetHoldRq (id : string)
| PostConfirm (id : string)
| WorkerRelease
| WorkerRecover.

Section routes.
Context (parseT : string → option Z).

(** [time.Duration(input.HoldSeconds)*time.Second], in 64 bits. *)
(* [go] http.go:41-41 Handler *)
Definition hold_ttl (seconds : Z) : Z := i64 (seconds * Second).

(** What a request runs; [None] when its body is refused. *)
(* [go] http.go:17-75 Handler *)
Definition Handler (randOK : bool) (rq : request) : option prog :=
  match rq with
  | PutCapacity slot body => SetCapacity slot <$> body
  | PostHold body => (fun '(slot, visitor, seconds) => CreateHold randOK slot visitor (hold_ttl seconds)) <$> body
  | GetHoldRq id => Some (GetHold parseT id (fun r => Ret (match r with Ok h => OHold h | Err e => OErr e end)))
  | PostConfirm id => Some (ConfirmHold parseT id)
  | WorkerRelease => Some ReleaseExpiredHolds
  | WorkerRecover => Some (RecoverPendingConfirmations parseT)
  end.

(** The status of the answer; the workers answer nobody. *)
(* [go] http.go:21-73 Handler *)
Definition status (rq : request) (o : outcome) : Z :=
  match rq, o with
  | PutCapacity _ _, ODone => 204
  | PutCapacity _ _, _ => 400
  | PostHold _, OHold _ => 201
  | PostHold _, OErr ErrSlotFull => 409
  | PostHold _, _ => 400
  | GetHoldRq _, OHold _ => 200
  | GetHoldRq _, OErr ErrHoldMissing => 404
  | GetHoldRq _, _ => 500
  | PostConfirm _, OBooking _ => 201
  | PostConfirm _, OErr ErrHoldInactive => 409
  | PostConfirm _, OErr ErrHoldMissing => 409
  | PostConfirm _, _ => 500
  | _, _ => 0
  end.
End routes.

(* [base] ttd/cmd/queue-server *)

(* [go] main.go:33-38 env *)
Definition env (getenv : string → string) (name fallback : string) : string :=
  if String.eqb (getenv name) "" then fallback else getenv name.

(** The poll interval of the expiry worker; [None] ends the process. *)
(* [go] main.go:15-18 main *)
Definition poll_interval (getenv : string → string) : option Z :=
  ParseDuration (env getenv "TIMER_POLL_INTERVAL" "1s").

(** ** The system of requests *)

Section system.
Context {R : Type} `{RedisDB R}.
Context (fmtT : Z → string) (parseT : string → option Z) (Cmax : string → Z).

Record asys : Type := mkA { a_st : qstate R; a_threads : list (request * prog) }.

(** The system of [Holds] that runs underneath. *)
Definition proj (s : asys) : qsys := mkSys (a_st s) (a_threads s).*2.

Definition admissible (rq : request) : Prop :=
  match rq with PutCapacity slot (Some c) => c ≤ Cmax slot | _ => True end.

Inductive astep : asys → asys → Prop :=
| a_request st ts rq ok p : admissible rq → Handler parseT ok rq = Some p →
    astep (mkA st ts) (mkA st (ts ++ [(rq, p)]))
| a_run st ts i rq c k f id st' rep :
    ts !! i = Some (rq, Cmd c k) → id ∉ q_ids st → exec fmtT c f id st = (st', rep) →
    astep (mkA st ts) (mkA st' (<[i := (rq, k rep)]> ts))
| a_tick st ts t : q_clock st ≤ t →
    astep (mkA st ts) (mkA (mkQ (q_redis st) (q_file st) (q_seen st) t (q_ids st)) ts)
| a_evict st ts key : r_volatile key (q_redis st) = true →
    astep (mkA st ts) (mkA (with_redis (r_evict key (q_redis st)) st) ts)
| a_restart st ts : astep (mkA st ts) (mkA (reload st) []).

Definition a_init (r : R) : asys := mkA (mkQ r [] ∅ 0 ∅) [].

Lemma astep_qstep s s' : astep s s' → qstep fmtT parseT Cmax (proj s) (proj s').
Proof.
  intros [st ts rq ok p Hadm Hp|st ts i rq c k f id st' rep Hi Hid He|st ts t Ht|st ts key Hk|st ts];
    unfold proj; cbn [a_st a_threads].
  - rewrite fmap_app. apply q_spawn.
    destruct rq as [slot [c|]|[[[slot visitor] secs]|]|id|id| |]; simplify_eq/=; by constructor.
  - rewrite list_fmap_insert. eapply q_run; [|done|exact He]. by rewrite list_lookup_fmap, Hi.
  - by apply q_tick.
  - by apply q_evict.
  - apply q_restart.
Qed.
End system.

(** ** What an answer rests on

[promises Q E p]: whatever plausible replies [p] gets, the outcome it returns
satisfies [Q] of the commands and replies it has seen. *)

Definition evidence : Type := list (cmd * reply).

Definition plausible (c : cmd) (rep : reply) : Prop :=
  match c, rep with
  | CHGetAll id, RHash h => h = ∅ ∨ h !! "id" = Some id
  | _, _ => True
  end.

Fixpoint promises (Q : evidence → outcome → Prop) (E : evidence) (p : prog) : Prop :=
  match p with
  | Ret o => Q E o
  | Cmd c k => ∀ rep, plausible c rep → promises Q ((c, rep) :: E) (k rep)
  end.

(** A booking that is returned was recorded, by this request or before. *)
Definition recorded (E : evidence) (b : Booking) : Prop := (CRecord b, ROK) ∈ E ∨ (CRecord b, RAlready) ∈ E.

(** The hold was seen confirmed: the finalize script answered 1, or the hash that was
read had that status. *)
Definition finalized (E : evidence) (id : string) : Prop :=
  (CFinalize id, RInt 1) ∈ E ∨ ∃ h, (CHGetAll id, RHash h) ∈ E ∧ h !! "status" = Some "confirmed".

Definition promise (rq : request) (E : evidence) (o : outcome) : Prop :=
  match rq, o with
  | PostConfirm id, OBooking b => b_HoldID b = id ∧ recorded E b ∧ finalized E id
  | PostHold (Some (slot, visitor, seconds)), OHold h =>
      h_Slot h = slot ∧ h_VisitorID h = visitor ∧ h_Status h = "held" ∧
      (CCreate slot visitor (h_ExpiresAt h), RCreated (h_ID h) 1) ∈ E
  | PostHold None, _ => False
  | _, _ => True
  end.

Section promises.
Context (parseT : string → option Z).

Lemma promises_GetHold Q E id k :
  (∀ e rep, promises Q ((CHGetAll id, rep) :: E) (k (Err e))) →
  (∀ h rep, h_ID h = id → (h_Status h = "confirmed" → finalized ((CHGetAll id, rep) :: E) id) →
     promises Q ((CHGetAll id, rep) :: E) (k (Ok h))) → promises Q E (GetHold parseT id k).
Proof.
  intros He Hk rep Hp. destruct (parse_hold parseT rep) as [h|e] eqn:Ep; [|apply He].
  destruct rep as [| | | | | |f|]; try done. simpl in Ep, Hp. case_decide as Hf; [done|].
  destruct Hp as [|Hid]; [done|]. rewrite Hid in Ep. simpl in Ep.
  assert (∀ e c, h = mkHold id (default "" (f !! "slot")) (default "" (f !! "visitor_id"))
    (default "" (f !! "status")) e c → promises Q ((CHGetAll id, RHash f) :: E) (k (Ok h))) as Hgo.
  { intros e c ->. apply Hk; [done|]. simpl. intros Hs. right. exists f. split; [left|].
    destruct (f !! "status"); simpl in Hs; congruence. }
  destruct (parseT _); [|done]. case_test; [simplify_eq; by eapply Hgo|]. destruct (parseT _); simplify_eq; by eapply Hgo.
Qed.

Lemma finalized_grows E e id : finalized E id → finalized (e :: E) id.
Proof. intros [H|(h & H & Hs)]; [left; by right|right; exists h; split; [by right|done]]. Qed.

Lemma recorded_grows E e b : recorded E b → recorded (e :: E) b.
Proof. intros [H|H]; [left|right]; by right. Qed.

Lemma promises_persist id E h : h_ID h = id → (h_Status h = "confirmed" → finalized E id) →
  promises (promise (PostConfirm id)) E (persistAndFinalize h ret_booking).
Proof.
  intros Hid Hcf. unfold persistAndFinalize. case_test; [done|]. intros rep _.
  assert (∀ rep E', (rep = ROK ∨ rep = RAlready) → (CRecord (booking_of h), rep) ∈ E' →
    (h_Status h = "confirmed" → finalized E' id) →
    promises (promise (PostConfirm id)) E'
      (if String.eqb (h_Status h) "confirmed" then ret_booking (Ok (booking_of h))
       else Cmd (CFinalize (h_ID h)) (fun rep =>
         match rep with
         | RInt z => ret_booking (if z =? 1 then Ok (booking_of h) else Err ErrHoldInactive)
         | _ => ret_booking (Err ErrOther)
         end))) as Hfin.
  { intros r E' Hr Hin Hcf'.
    assert (recorded E' (booking_of h)) as Hrec by (destruct Hr as [-> | ->]; [by left|by right]).
    destruct (String.eqb_spec (h_Status h) "confirmed") as [Hs|_]; [by split_and!; [| |apply Hcf']|].
    intros [| | | |z| | |] _; try done. destruct (Z.eqb_spec z 1) as [->|_]; [|done].
    split_and!; [done|by apply recorded_grows|]. rewrite Hid. left. left. }
  destruct rep; try done; [apply (Hfin ROK)|apply (Hfin RAlready)]; auto using list_elem_of_here, finalized_grows.
Qed.

Lemma promises_Confirm id : promises (promise (PostConfirm id)) [] (ConfirmHold parseT id).
Proof.
  apply promises_GetHold; [done|]. intros h rep0 Hid Hcf.
  destruct (locked_status (h_Status h)); [by apply promises_persist|]. destruct (negb _); [done|].
  intros [| | |t1| | | |] _; try done. destruct (_ <=? t1); [done|].
  intros [| | |c| | | |] _; try done. intros [| | |t3| | | |] _; try done.
  intros [| | | |z| | |] _; try done. destruct (z =? 1); [by apply promises_persist|].
  apply promises_GetHold; [done|]. intros latest rep1 Hl Hcf'.
  destruct (locked_status (h_Status latest)); [by apply promises_persist|done].
Qed.

Lemma promises_Create ok slot visitor seconds :
  promises (promise (PostHold (Some (slot, visitor, seconds)))) [] (CreateHold ok slot visitor (hold_ttl seconds)).
Proof.
  unfold CreateHold. case_test; [done|]. case_test; [done|]. intros [| | |now| | | |] _; try done.
  intros [| | | | |id z| |] _; try done. destruct (z =? 1) eqn:Ez; zbool; [|by destruct (z =? 0)].
  subst. split_and!; [done..|]. left.
Qed.

Lemma promises_true E p : promises (fun _ _ => True) E p.
Proof. revert E. induction p as [o|c k IH]; [done|]. intros E rep _. apply IH. Qed.

Lemma promises_weaken (Q Q' : evidence → outcome → Prop) E p :
  (∀ E o, Q E o → Q' E o) → promises Q E p → promises Q' E p.
Proof. intros HQ. revert E. induction p as [o|c k IH]; intros E Hp; [by apply HQ|]. intros rep Hr. apply IH, Hp, Hr. Qed.

(** Every route keeps its promise. *)
Lemma Handler_promises ok rq p : Handler parseT ok rq = Some p → promises (promise rq) [] p.
Proof.
  intros Hp. destruct rq as [slot [c|]|[[[slot visitor] secs]|]|id|id| |];
    cbn [Handler fmap option_fmap option_map] in Hp; simplify_eq.
  2: apply promises_Create. 3: apply promises_Confirm.
  all: eapply promises_weaken; [|apply promises_true]; intros ? []; done.
Qed.
End promises.

(** ** The evidence is true of the store, for good *)

Section truth.
Context {R : Type} `{RedisLaws R}.
Context (fmtT : Z → string) (parseT : string → option Z) (parse_fmt : ∀ t, parseT (fmtT t) = Some t).
Context (Cmax : string → Z) (Cmax_nonneg : ∀ slot, 0 ≤ Cmax slot).
Implicit Types st : qstate R.

Definition is_confirmed st (id : string) : Prop := hash st id !! "status" = Some "confirmed".

Definition true_of st (e : cmd * reply) : Prop :=
  match e with
  | (CRecord b, ROK) | (CRecord b, RAlready) => b ∈ q_file st
  | (CCreate slot visitor _, RCreated id z) => z = 1 → fact_ok fmtT st (mkFact id slot visitor None)
  | (CFinalize id, RInt z) => z = 1 → is_confirmed st id
  | (CHGetAll id, RHash h) => h !! "status" = Some "confirmed" → is_confirmed st id
  | _ => True
  end.

(** A store that grew: what was known stays known, the file is longer, and a confirmed
hold stays confirmed. *)
Definition grown st st' : Prop :=
  (∀ f, fact_ok fmtT st f → fact_ok fmtT st' f) ∧ q_file st ⊆ q_file st' ∧
  (∀ id, is_confirmed st id → is_confirmed st' id).

Lemma true_of_grown st st' e : grown st st' → true_of st e → true_of st' e.
Proof. intros (Hf & Hb & Hc). destruct e as [[] []]; simpl; auto. Qed.

(** A script that writes to another hold, or finds this one in another state, leaves a
confirmed hold alone. *)
Lemma redis_exec_confirmed c id st j : qinv fmtT Cmax st → id ∉ q_ids st → is_confirmed st j →
  r_hgetall (holdKey j) (redis_exec fmtT c id (q_redis st)).1 !! "status" = Some "confirmed".
Proof.
  intros Hinv Hid Hj. unfold is_confirmed, hash in Hj.
  assert (∀ i fs (r : R) s, r_hgetall (holdKey i) (q_redis st) !! "status" ≠ Some "confirmed" →
    r_hgetall (holdKey j) r !! "status" = s → r_hgetall (holdKey j) (r_hset (holdKey i) fs r) !! "status" = s) as Hne.
  { intros i fs r s Hi <-. redis. rewrite decide_False; [done|]. intros <-%(inj holdKey). done. }
  destruct c as [|slot n|slot visitor expires|i now t|i|i|now|i| |b]; simpl; try done.
  - by redis.
  - unfold eval_create. repeat case_test; simpl; try done. redis. rewrite decide_False; [done|].
    intros <-%(inj holdKey). pose proof (qi_fresh _ _ _ Hinv id Hid) as Hf. unfold hash in Hf. by rewrite Hf in Hj.
  - unfold eval_confirm. repeat case_test; simpl; try done. zbool. rewrite hash_zadd, hash_zrem. apply Hne; congruence.
  - unfold eval_finalize. repeat case_test; simpl; try done. zbool. rewrite hash_zrem. apply Hne; congruence.
  - unfold eval_expire. case_test; simpl; [by redis|]. zbool.
    destruct (_ !! "slot"); simpl; [rewrite hash_expire, hash_zrem, hash_incrby|]; apply Hne; congruence.
Qed.

Lemma exec_confirmed c f id st j : qinv fmtT Cmax st → id ∉ q_ids st → is_confirmed st j →
  is_confirmed (exec fmtT c f id st).1 j.
Proof.
  intros Hinv Hid Hj. pose proof (redis_exec_confirmed c id st j Hinv Hid Hj) as Hr.
  destruct c; simpl in *; try done; try (unfold Record_booking; case_decide; [done|]; by destruct f).
  all: repeat match goal with |- context [let '(_, _) := ?e in _] => destruct e; simpl in * end.
  all: by destruct f.
Qed.

Lemma exec_file c f id st : q_file st ⊆ q_file (exec fmtT c f id st).1.
Proof.
  destruct c; simpl; try done; repeat first [done|case_match; simpl].
  all: try by (destruct f; simpl).
  all: unfold Record_booking; case_decide; [done|]; destruct f; simpl; try done; set_solver.
Qed.

(** Two bookings of one hold, one in the file and one about to be recorded, are
the same. *)
Lemma booking_unique st b b' : qinv fmtT Cmax st → b' ∈ q_file st → b_HoldID b' = b_HoldID b →
  fact_ok fmtT st (booking_fact b) → b_ID b = "booking-" +:+ b_HoldID b → b' = b.
Proof.
  intros Hinv Hin Hid [_ [[Hs Hv] [_ Hc]]] Hb. destruct (qi_file _ _ _ Hinv b' Hin) as [[_ [[Hs' Hv'] [_ Hc']]] Hb'].
  cbn [booking_fact f_id f_slot f_visitor f_confirmed] in *. rewrite Hid in *. rewrite Hc in Hc'.
  injection Hc' as Hc'. apply (f_equal parseT) in Hc'. rewrite !parse_fmt in Hc'. destruct b, b'. simpl in *. congruence.
Qed.

Lemma create_fact st id slot visitor expires r : 
  eval_create fmtT id slot visitor expires (q_redis st) = (r, 1) → hash st id = ∅ →
  of_slot (r_hgetall (holdKey id) r) slot visitor.
Proof.
  unfold eval_create, hash. intros He Hh. repeat case_test; simplify_eq. redis.
  rewrite decide_True by done. rewrite Hh, map_union_empty. by split.
Qed.

Lemma finalize_sets st id r : eval_finalize id (q_redis st) = (r, 1) → is_confirmed (with_redis r st) id.
Proof.
  unfold eval_finalize. case_test; [done|]. intros [= <-]. unfold is_confirmed, hash. simpl. redis.
  rewrite decide_True by done. simpl. by rewrite insert_union_singleton_l, lookup_union_l'.
Qed.

Lemma exec_true c f id st st' rep K : qinv fmtT Cmax st → id ∉ q_ids st → cmd_ok Cmax K c →
  (∀ g, g ∈ K → fact_ok fmtT st g) → exec fmtT c f id st = (st', rep) →
  plausible c rep ∧ true_of st' (c, rep) ∧ grown st st'.
Proof.
  intros Hinv Hid Hc HK He.
  destruct (exec_inv fmtT Cmax c f id st st' rep K Hinv Hid Hc HK He) as ((Hinv' & Hkeep) & K' & _ & _ & Hj).
  assert (grown st st') as Hg.
  { pose proof (exec_file c f id st) as Hf. pose proof (fun j => exec_confirmed c f id st j Hinv Hid) as Hcf.
    rewrite He in Hf, Hcf. by split_and!. }
  split_and!; [| |done].
  - destruct c; try done. destruct rep; try done. destruct Hj as [->|[? _]]; [by left|by right].
  - destruct c as [| |slot visitor expires| |j|j| | | |b]; try done; simpl in He.
    + destruct rep as [| | | | |j z| |]; try done. intros ->.
      destruct (eval_create _ _ _ _ _ _) as [r z] eqn:Ec. destruct f; simplify_eq. split; [set_solver|].
      right. apply (create_fact st j slot visitor expires); [done|]. by apply (qi_fresh _ _ _ Hinv).
    + destruct rep as [| | | |z| | |]; try done. intros ->.
      destruct (eval_finalize j (q_redis st)) as [r z] eqn:Ec. destruct f; simplify_eq. by apply (finalize_sets st j).
    + destruct rep as [| | | | | |h|]; try done. intros Hs. destruct f; by simplify_eq.
    + destruct Hc as [Hbk Hb]. unfold Record_booking in He. case_decide as Hseen.
      * simplify_eq. simpl. destruct (qi_seen _ _ _ Hinv' _ Hseen) as (b' & Hin & Hbid).
        by rewrite <- (booking_unique st' b b' Hinv Hin Hbid (HK _ Hbk) Hb).
      * destruct f; simplify_eq; simpl; try done. set_solver.
Qed.

Lemma astep_grown s s' : astep fmtT parseT Cmax s s' → sys_ok fmtT Cmax (proj s) → grown (a_st s) (a_st s').
Proof.
  intros Hs [Hinv Hts].
  destruct Hs as [st ts rq ok p Hadm Hp|st ts i rq c k f id st' rep Hi Hid He|st ts t Ht|st ts key Hk|st ts];
    cbn [proj a_st sy_st sy_threads a_threads] in *; try by split.
  - destruct (Hts (Cmd c k)) as (K & HK & Hc & _).
    { apply list_elem_of_fmap. exists (rq, Cmd c k). split; [done|]. by eapply list_elem_of_lookup_2. }
    by eapply exec_true.
  - split_and!; [by apply (evict_inv fmtT parseT parse_fmt Cmax st key Hinv)|done|].
    intros id Hc. unfold is_confirmed, hash in *. simpl. rewrite hash_evict. case_decide as Hd; [|done].
    destruct (qi_vol _ _ _ Hinv _ Hk) as (j & -> & _ & Hj). apply (inj holdKey) in Hd as ->.
    unfold hash in Hj. destruct Hj as [Hj|Hj]; congruence.
Qed.

(** Every request knows only true things, and will keep its promise. *)
Definition keeps_promise st (t : request * prog) : Prop :=
  ∃ E, (∀ e, e ∈ E → true_of st e) ∧ promises (promise t.1) E t.2.

Definition api_ok (s : asys) : Prop :=
  sys_ok fmtT Cmax (proj s) ∧ ∀ t, t ∈ a_threads s → keeps_promise (a_st s) t.

Lemma api_ok_step s s' : api_ok s → astep fmtT parseT Cmax s s' → api_ok s'.
Proof.
  intros [Hsys Hts] Hs. pose proof (astep_grown s s' Hs Hsys) as Hg.
  split; [by eapply sys_ok_step, astep_qstep|].
  assert (∀ t, t ∈ a_threads s → keeps_promise (a_st s') t) as Hold.
  { intros t Ht. destruct (Hts t Ht) as (E & HE & Hp). exists E. split; [|done].
    intros e He. eapply true_of_grown; [exact Hg|by apply HE]. }
  destruct Hs as [st ts rq ok p Hadm Hp|st ts i rq c k f id st' rep Hi Hid He|st ts t Ht|st ts key Hk|st ts];
    cbn [a_st a_threads] in *; try done.
  - intros t [Ht| ->%list_elem_of_singleton]%elem_of_app; [by apply Hold|].
    exists []. split; [by intros e ?%elem_of_nil|by eapply Handler_promises].
  - intros t Ht. apply list_elem_of_lookup in Ht as [j Hj].
    apply list_lookup_insert_Some in Hj as [(_ & <- & _)|[_ Hj]]; [|apply Hold; by eapply list_elem_of_lookup_2].
    destruct (Hts (rq, Cmd c k)) as (E & HE & Hp); [by eapply list_elem_of_lookup_2|].
    destruct Hsys as [Hinv Hth]. destruct (Hth (Cmd c k)) as (K & HK & Hc & _).
    { apply list_elem_of_fmap. exists (rq, Cmd c k). split; [done|]. by eapply list_elem_of_lookup_2. }
    destruct (exec_true c f id st st' rep K Hinv Hid Hc HK He) as (Hpl & Htr & _).
    exists ((c, rep) :: E). split; [|by apply Hp].
    intros e [->|He']%elem_of_cons; [done|]. eapply true_of_grown; [exact Hg|by apply HE].
  - by intros t ?%elem_of_nil.
Qed.

Lemma api_ok_reach r s : q_init r → rtc (astep fmtT parseT Cmax) (a_init r) s → api_ok s.
Proof.
  intros Hr Hs. eapply rtc_invariant; [apply api_ok_step|exact Hs|].
  split; [by apply sys_ok_init|by intros t ?%elem_of_nil].
Qed.

Lemma grown_rtc s s' : api_ok s → rtc (astep fmtT parseT Cmax) s s' → grown (a_st s) (a_st s') ∧ api_ok s'.
Proof.
  intros Hok Hs. induction Hs as [s|s1 s2 s3 H12 _ IH]; [done|].
  pose proof (astep_grown _ _ H12 (proj1 Hok)) as (Hf & Hb & Hc).
  destruct (IH (api_ok_step _ _ Hok H12)) as [(Hf' & Hb' & Hc') ?]. split; [|done].
  split_and!; [auto|by etransitivity|auto].
Qed.

(** C26: A 201 is a promise kept for good.  In every state the server reaches, with
concurrent requests and workers, failures, lost replies and restarts: when a
confirmation was answered 201, the booking of the answer is for the hold asked
for and is in the booking file, and so it is in every later state, where the hold
has the slot, visitor and time of the booking and the final status "confirmed", no
longer "confirming"; when a request for a hold
was answered 201, the hold of the answer is for the slot and visitor asked for
and was drawn for it, and later it is either gone or still theirs. *)
Theorem Created_is_durable r0 s s' rq o :
  q_init r0 → rtc (astep fmtT parseT Cmax) (a_init r0) s → (rq, Ret o) ∈ a_threads s → status rq o = 201 →
  rtc (astep fmtT parseT Cmax) s s' →
  (∃ id b, rq = PostConfirm id ∧ o = OBooking b ∧ b_HoldID b = id ∧ b ∈ q_file (a_st s') ∧
     of_slot (hash (a_st s') id) (b_Slot b) (b_VisitorID b) ∧
     hash (a_st s') id !! "status" = Some "confirmed" ∧
     hash (a_st s') id !! "confirmed_at" = Some (fmtT (b_Confirmed b))) ∨
  (∃ slot visitor seconds h, rq = PostHold (Some (slot, visitor, seconds)) ∧ o = OHold h ∧
     h_Slot h = slot ∧ h_VisitorID h = visitor ∧ h_ID h ∈ q_ids (a_st s') ∧
     (hash (a_st s') (h_ID h) = ∅ ∨ of_slot (hash (a_st s') (h_ID h)) slot visitor)).
Proof.
  intros Hr Hs Ht Hst Hs'. pose proof (api_ok_reach r0 s Hr Hs) as Hok. destruct (grown_rtc s s' Hok Hs') as [Hg Hok'].
  destruct (proj2 Hok _ Ht) as (E & HE & Hp). cbn [fst snd promises] in Hp.
  assert (∀ e, e ∈ E → true_of (a_st s') e) as HE' by (intros e He; eapply true_of_grown; [exact Hg|by apply HE]).
  destruct rq as [slot body|[[[slot visitor] secs]|]|id|id| |].
  5: { left. destruct o as [|b| | | |e]; [done| |done..|by destruct e]. destruct Hp as (Hid & Hrec & Hfin).
    assert (is_confirmed (a_st s') id) as Hcf.
    { destruct Hfin as [Hfin|(h & Hfin & Hh)]; [by apply (HE' _ Hfin)|by apply (HE' _ Hfin)]. }
    assert (b ∈ q_file (a_st s')) as Hb by (destruct Hrec as [Hrec|Hrec]; by apply (HE' _ Hrec)).
    exists id, b. destruct (qi_file _ _ _ (proj1 (proj1 Hok')) b Hb) as [[_ Hf] _]. subst id.
    cbn [booking_fact f_id f_slot f_visitor f_confirmed proj sy_st a_st] in Hf.
    destruct Hf as [Hsl [_ Hat]]. by split_and!. }
  2: { right. destruct o as [h| | | | |e]; [|done..|by destruct e]. destruct Hp as (Hs1 & Hv1 & _ & Hin).
    apply HE' in Hin. destruct (Hin eq_refl) as [Hids Hh]. by exists slot, visitor, secs, h. }
  all: try done; by destruct o as [| | | | |[]].
Qed.
End truth.

(** ** Witness and behaviours outside the conditions *)

Inductive aaction : Type := QSpawn (rq : request) | QRun (i : nat) (f : fate) (id : string).

Definition aact (s : asys) (a : aaction) : asys :=
  match a with
  | QSpawn rq => match Handler signed true rq with Some p => mkA (a_st s) (a_threads s ++ [(rq, p)]) | None => s end
  | QRun i f id =>
      match a_threads s !! i with
      | Some (rq, Cmd c k) =>
          if decide (id ∈ q_ids (a_st s)) then s
          else let '(st', rep) := exec Itoa c f id (a_st s) in mkA st' (<[i := (rq, k rep)]> (a_threads s))
      | _ => s
      end
  end.

Lemma aact_sound (l : list aaction) (s : asys (R := db)) :
  (∀ rq, QSpawn rq ∈ l → admissible demo_Cmax rq) → rtc (astep Itoa signed demo_Cmax) s (foldl aact s l).
Proof.
  revert s. induction l as [|a l IH]; intros s Hl; [apply rtc_refl|]. simpl.
  transitivity (aact s a); [|apply IH; intros rq Hrq; apply Hl; by right].
  destruct s as [st ts], a as [rq|i f id]; simpl.
  - destruct (Handler signed true rq) eqn:Eh; [|apply rtc_refl]. apply rtc_once. eapply a_request; [|exact Eh].
    apply Hl. left.
  - destruct (ts !! i) as [[rq [o|c k]]|] eqn:Ei; [apply rtc_refl| |apply rtc_refl].
    case_decide; [apply rtc_refl|]. destruct (exec _ _ _ _ _) as [st' rep] eqn:Ee. apply rtc_once. by econstructor.
Qed.

(** Capacity one; a hold for five seconds; its confirmation, with the reply to
the first attempt's recording lost and the request repeated. *)
Definition demo_requests : list aaction :=
  [QSpawn (PutCapacity "dawn" (Some 1)); QRun 0 Fine "x"; QSpawn (PostHold (Some ("dawn", "ravi", 5)));
   QRun 1 Fine "x"; QRun 1 Fine "h1"; QSpawn (PostConfirm "h1");
   QRun 2 Fine "x"; QRun 2 Fine "x"; QRun 2 Fine "x"; QRun 2 Fine "x"; QRun 2 Fine "x"; QRun 2 Lost "x";
   QRun 2 Fine "x"; QSpawn (PostConfirm "h1"); QRun 3 Fine "x"; QRun 3 Fine "x"; QRun 3 Fine "x"].

Definition demo_asys : asys := foldl aact (a_init db0) demo_requests.

Lemma demo_asys_reach : rtc (astep Itoa signed demo_Cmax) (a_init db0) demo_asys.
Proof.
  apply aact_sound. intros rq Hrq. unfold demo_requests in Hrq.
  repeat match goal with
  | H : _ ∈ _ :: _ |- _ => apply elem_of_cons in H as [H|H]; [simplify_eq; done|]
  end. by apply elem_of_nil in Hrq.
Qed.

Lemma Created_is_durable_witness :
  a_threads demo_asys !! 3%nat = Some (PostConfirm "h1", Ret (OBooking (mkBooking "booking-h1" "h1" "dawn" "ravi" 0))) ∧
  mkBooking "booking-h1" "h1" "dawn" "ravi" 0 ∈ q_file (reload (a_st demo_asys)) ∧
  hash (reload (a_st demo_asys)) "h1" !! "status" = Some "confirmed".
Proof.
  assert (a_threads demo_asys !! 3%nat =
    Some (PostConfirm "h1", Ret (OBooking (mkBooking "booking-h1" "h1" "dawn" "ravi" 0)))) as Ht by by vm_compute.
  split; [done|].
  assert (rtc (astep Itoa signed demo_Cmax) demo_asys (mkA (reload (a_st demo_asys)) [])) as Hre.
  { apply rtc_once. destruct demo_asys. apply a_restart. }
  destruct (Created_is_durable Itoa signed signed_Itoa demo_Cmax ltac:(done) db0 demo_asys
    (mkA (reload (a_st demo_asys)) []) (PostConfirm "h1") (OBooking (mkBooking "booking-h1" "h1" "dawn" "ravi" 0))
    db0_init demo_asys_reach (list_elem_of_lookup_2 _ _ _ Ht) eq_refl Hre)
    as [(id & b & Hid & Hb & _ & Hin & _ & Hcf & _)|(? & ? & ? & ? & Hbad & _)]; [|discriminate Hbad].
  injection Hb as <-. injection Hid as <-. split; [exact Hin|exact Hcf].
Defined.

(** The seconds of a hold are multiplied in 64 bits: a request for 18446744074
seconds is granted a hold of under a third of a second, and one for 10^10
seconds is refused as if it had asked for a negative duration. *)
Theorem Hold_seconds_wrap :
  hold_ttl 18446744074 = 290448384 ∧ hold_ttl (10 ^ 10) < 0 ∧
  match Handler signed true (PostHold (Some ("dawn", "ravi", 10 ^ 10))) with
  | Some (Ret o) => status (PostHold None) o = 400
  | _ => False
  end.
Proof. by vm_compute. Qed.

(** A store that cannot be reached is reported to the client of a hold or of a
capacity as a bad request, while the other routes answer 500. *)
Theorem Outage_is_bad_request :
  let down (p : option prog) := match p with Some (Cmd _ k) => Some (k RErr) | _ => None end in
  ∀ rq, rq ∈ [PutCapacity "dawn" (Some 1); GetHoldRq "h1"; PostConfirm "h1"] →
  match down (Handler signed true rq) with
  | Some (Ret o) => status rq o = match rq with PutCapacity _ _ => 400 | _ => 500 end
  | _ => False
  end.
Proof.
  intros down rq Hrq. repeat (apply elem_of_cons in Hrq as [->|Hrq]; [by vm_compute|]). by apply elem_of_nil in Hrq.
Qed.
