(* ===== verification/Tenant.v ===== *)
(** * secure-multitenant-go: tenant scoping, role-based access and the stores

[internal/rbac], [internal/tenant], the Postgres store of [internal/pgstore]
and the handler of [cmd/server].  [Repository] is the interface both stores
implement; [Isolated] is what tenant isolation means for it, and
non-interference is proved against that interface.  The records table is a list of
rows, and the statements of the store are what their SQL says: the WHERE clause, the
row-level security policy of the migration over the transaction's setting, and the
columns that are scanned.  Encryption is left to the handler's argument. *)

From Stdlib Require Import ZArith Lia Ascii.
From stdpp Require Import base gmap strings fin_maps fin_sets relations list sorting.
From S2P Require Import Prelude GoStrings.

Open Scope Z_scope.

(* [base] secure-multitenant-go/internal/rbac *)

(** ** Roles and permissions *)

(* [go] rbac.go:10-15 PermViewBilling *)
Definition PermViewBilling : string := "billing:view".
Definition PermManageBilling : string := "billing:manage".
Definition PermManageUsers : string := "users:manage".
Definition PermDeleteTenant : string := "tenant:delete".

(* [go] rbac.go:20-24 RoleOwner *)
Definition RoleOwner : string := "owner".
Definition RoleAdmin : string := "admin".
Definition RoleBillingViewer : string := "billing_viewer".

(* [go] rbac.go:26-31 ErrForbidden *)
Inductive rbac_error : Type := ErrForbidden | ErrUnknownRole.

(* [go] rbac.go:33-50 rolePermissions *)
Definition rolePermissions : gmap string (gset string) :=
  <[RoleOwner := {[PermViewBilling; PermManageBilling; PermManageUsers; PermDeleteTenant]}]>
  (<[RoleAdmin := {[PermViewBilling; PermManageBilling; PermManageUsers]}]>
  (<[RoleBillingViewer := {[PermViewBilling]}]> ∅)).

(* [go] rbac.go:52-60 Can *)
Definition Can (role perm : string) : bool :=
  match rolePermissions !! role with
  | None => false
  | Some perms => bool_decide (perm ∈ perms)
  end.

(* [go] rbac.go:62-72 Authorize *)
Definition Authorize (role perm : string) : option rbac_error :=
  match rolePermissions !! role with
  | None => Some ErrUnknownRole
  | Some _ => if negb (Can role perm) then Some ErrForbidden else None
  end.

(* [base] secure-multitenant-go/internal/tenant *)

(** ** Contexts *)

(** The values the two middlewares put into a request context. *)
Record context : Type := mkCtx { c_tenant : option string; c_role : option string }.

(* [go] repository.go:8-12 Repository *)
Inductive store_error : Type := ErrMissingTenant | ErrNotFound | ErrDB.

(* [go] tenant.go:30-37 FromContext *)
Definition FromContext (ctx : context) : result store_error string :=
  match c_tenant ctx with
  | None => Err ErrMissingTenant
  | Some id => if String.eqb id "" then Err ErrMissingTenant else Ok id
  end.

(* [go] store.go:14-19 Record *)
Record TRecord : Type := mkRecord { r_ID : string; r_TenantID : string; r_Data : string }.

#[global] Instance TRecord_eq_dec : EqDecision TRecord.
Proof. solve_decision. Defined.

(** A call of the repository, and how the database behaves during it: it works,
it fails and the transaction is rolled back, or the commit takes effect and
its acknowledgement is lost. *)
Inductive top : Type := TPut (id payload : string) | TGet (id : string) | TList.

Inductive dbfate : Type := DBFine | DBFail | DBLost.

Definition tresult : Type := result store_error (list TRecord).

(** A store: one call of [Put], [Get] or [List] under a context. *)
Class Repository (S : Type) : Type := do_op : context → top → dbfate → S → S * tresult.

(** ** The in-memory store *)

(* [go] store.go:25-33 Store *)
Record Store : Type := mkStore { st_data : gmap string TRecord }.

(* [go] store.go:36-46 Store.Put *)
Definition Store_Put (ctx : context) (id payload : string) (s : Store) : Store * tresult :=
  match FromContext ctx with
  | Err e => (s, Err e)
  | Ok tid =>
      let rec := mkRecord id tid payload in
      (mkStore (<[id := rec]> (st_data s)), Ok [rec])
  end.

(* [go] store.go:49-61 Store.Get *)
Definition Store_Get (ctx : context) (id : string) (s : Store) : tresult :=
  match FromContext ctx with
  | Err e => Err e
  | Ok tid =>
      match st_data s !! id with
      | None => Err ErrNotFound
      | Some rec => if negb (String.eqb (r_TenantID rec) tid) then Err ErrNotFound else Ok [rec]
      end
  end.

(* [go] store.go:64-78 Store.List *)
Definition Store_List (ctx : context) (s : Store) : tresult :=
  match FromContext ctx with
  | Err e => Err e
  | Ok tid => Ok (filter (fun rec => r_TenantID rec = tid) (map_to_list (st_data s)).*2)
  end.

#[global] Instance Store_repo : Repository Store := fun ctx o _ s =>
  match o with
  | TPut id payload => Store_Put ctx id payload s
  | TGet id => (s, Store_Get ctx id s)
  | TList => (s, Store_List ctx s)
  end.

(* [base] secure-multitenant-go/internal/pgstore *)

(** ** The Postgres store *)

(** A row of the table [records]. *)
Record row : Type := mkRow { w_tenant : string; w_id : string; w_data : string }.

Abbreviation pgdb := (list row).

(** A transaction: the setting [app.current_tenant] as [current_setting] with missing_ok
reads it, and the rows it sees. *)
Record pgtx : Type := mkPgTx { tx_setting : option string; tx_rows : pgdb }.

(** Whether the role of the connection is subject to row-level security (superusers and
roles with BYPASSRLS are not, even with FORCE), and the collation of ORDER BY. *)
Section pg.
Context (rls : bool) (collate : string → string → bool).

(** The policy [tenant_isolation], for USING and for WITH CHECK. *)
Definition tenant_isolation (x : pgtx) (r : row) : bool :=
  negb rls || bool_decide (tx_setting x = Some (w_tenant r)).

(** SELECT with a WHERE clause: the rows that the policy shows and the clause keeps. *)
Definition sql_select (where_ : row → bool) (x : pgtx) : list row :=
  filter (fun r => tenant_isolation x r = true ∧ where_ r = true) (tx_rows x).

(** ORDER BY id. *)
Definition id_le (a b : row) : Prop := collate (w_id a) (w_id b) = true.

#[global] Instance id_le_dec a b : Decision (id_le a b).
Proof. unfold id_le. apply _. Defined.

Definition order_by_id (l : list row) : list row := merge_sort id_le l.

Definition same_key (a b : row) : bool := String.eqb (w_tenant a) (w_tenant b) && String.eqb (w_id a) (w_id b).

(** INSERT ... ON CONFLICT (tenant_id, id) DO UPDATE SET data = EXCLUDED.data RETURNING;
[None] when the policy refuses the new row or the row in conflict. *)
Definition sql_upsert (new : row) (x : pgtx) : option (pgtx * row) :=
  if negb (tenant_isolation x new) then None
  else match filter (fun r => same_key new r = true) (tx_rows x) with
       | [] => Some (mkPgTx (tx_setting x) (tx_rows x ++ [new]), new)
       | old :: _ =>
           if negb (tenant_isolation x old) then None
           else let upd r := if same_key new r then mkRow (w_tenant r) (w_id r) (w_data new) else r in
                Some (mkPgTx (tx_setting x) (upd <$> tx_rows x), upd old)
       end.

(** The columns of a row as they are scanned. *)
Definition scan (r : row) : TRecord := mkRecord (w_id r) (w_tenant r) (w_data r).

(** SELECT set_config('app.current_tenant', $1, true). *)
Definition set_config (tid : string) (x : pgtx) : pgtx := mkPgTx (Some tid) (tx_rows x).

(** The tenant is resolved first; the transaction begins without the setting, which is
local to it, binds it and runs [fn], and its writes take effect only if the commit
does.  The database may fail at any of the steps. *)
(* [go] pgstore.go:59-84 withTenant *)
Definition withTenant (ctx : context) (f : dbfate) (fn : string → pgtx → result store_error (pgtx * list TRecord))
    (t : pgdb) : pgdb * tresult :=
  match FromContext ctx with
  | Err e => (t, Err e)
  | Ok tid =>
      match f with
      | DBFail => (t, Err ErrDB)
      | _ => match fn tid (set_config tid (mkPgTx None t)) with
             | Err e => (t, Err e)
             | Ok (x, recs) => (tx_rows x, match f with DBLost => Err ErrDB | _ => Ok recs end)
             end
      end
  end.

(* [go] pgstore.go:86-104 Store.Put *)
Definition pg_Put (ctx : context) (id payload : string) (f : dbfate) (t : pgdb) : pgdb * tresult :=
  withTenant ctx f (fun tid x =>
    match sql_upsert (mkRow tid id payload) x with
    | None => Err ErrDB
    | Some (x', r) => Ok (x', [scan r])
    end) t.

(* [go] pgstore.go:106-127 Store.Get *)
Definition pg_Get (ctx : context) (id : string) (f : dbfate) (t : pgdb) : pgdb * tresult :=
  withTenant ctx f (fun tid x =>
    match sql_select (fun r => String.eqb (w_tenant r) tid && String.eqb (w_id r) id) x with
    | [] => Err ErrNotFound
    | r :: _ => Ok (x, [scan r])
    end) t.

(* [go] pgstore.go:129-154 Store.List *)
Definition pg_List (ctx : context) (f : dbfate) (t : pgdb) : pgdb * tresult :=
  withTenant ctx f (fun tid x =>
    Ok (x, scan <$> order_by_id (sql_select (fun r => String.eqb (w_tenant r) tid) x))) t.

Definition pg_repo : Repository pgdb := fun ctx o f t =>
  match o with
  | TPut id payload => pg_Put ctx id payload f t
  | TGet id => pg_Get ctx id f t
  | TList => pg_List ctx f t
  end.
End pg.

(** ** Requests *)

(** A request: the tenant header, the role header, the permission the route
requires, and what the handler does. *)

Inductive http_status : Type := Created | OK | BadRequest | Unauthorized | Forbidden | InternalError.

(* [base] secure-multitenant-go/internal/tenant *)

(* [go] tenant.go:39-51 Middleware *)
Definition tenant_Middleware {S} (next : context → S → S * http_status) (tenantHeader : string)
    (ctx : context) (s : S) : S * http_status :=
  let raw := TrimSpace tenantHeader in
  if String.eqb raw "" then (s, BadRequest)
  else next (mkCtx (Some raw) (c_role ctx)) s.

(* [base] secure-multitenant-go/internal/rbac *)

(* [go] middleware.go:25-31 Extract *)
Definition Extract {S} (next : context → S → S * http_status) (roleHeader : string)
    (ctx : context) (s : S) : S * http_status :=
  next (mkCtx (c_tenant ctx) (Some roleHeader)) s.

(* [go] middleware.go:33-50 Require *)
Definition Require_perm {S} (perm : string) (next : context → S → S * http_status)
    (ctx : context) (s : S) : S * http_status :=
  match c_role ctx with
  | None => (s, Unauthorized)
  | Some role =>
      if String.eqb role "" then (s, Unauthorized)
      else match Authorize role perm with
           | Some _ => (s, Forbidden)
           | None => next ctx s
           end
  end.

(* [base] secure-multitenant-go/cmd/server *)

(** The handler of [/records]; [enc] is the outcome of the encryption, and [f]
the behaviour of the database. *)
(* [go] main.go:40-58 main *)
Definition records_handler {S} `{Repository S} (enc : string → option string) (f : dbfate)
    (ctx : context) (s : S) : S * http_status :=
  match FromContext ctx with
  | Err _ => (s, BadRequest)
  | Ok tid =>
      match enc tid with
      | None => (s, InternalError)
      | Some e =>
          match do_op ctx (TPut ("rec-" +:+ tid) e) f s with
          | (s', Ok _) => (s', Created)
          | (s', Err _) => (s', InternalError)
          end
      end
  end.

(* [go] main.go:35-61 main *)
Definition server {S} `{Repository S} (enc : string → option string) (f : dbfate)
    (tenantHeader roleHeader : string) (s : S) : S * http_status :=
  tenant_Middleware
    (Extract (Require_perm PermManageBilling (records_handler enc f)) roleHeader)
    tenantHeader (mkCtx None None) s.

(** ** Isolation *)

#[global] Instance store_error_eq_dec : EqDecision store_error.
Proof. solve_decision. Defined.

(** What tenant isolation asks of a store: states are compared as one tenant
sees them, a call of the tenant depends on nothing else, and no call under
another tenant, or none, changes it. *)
Class Isolated (S : Type) `{Repository S} : Type := {
  same_for : string → S → S → Prop;
  same_equiv t :: Equivalence (same_for t);
  iso_own ctx o f s s' t : FromContext ctx = Ok t → same_for t s s' →
    (do_op ctx o f s).2 = (do_op ctx o f s').2 ∧ same_for t (do_op ctx o f s).1 (do_op ctx o f s').1;
  iso_other ctx o f s t : FromContext ctx ≠ Ok t → same_for t s (do_op ctx o f s).1;
}.

Section isolation.
Context {S : Type} `{Repository S}.

(** What the calls of tenant [t] return in a sequence of calls. *)
Fixpoint outputs (t : string) (ops : list (context * top * dbfate)) (s : S) : list tresult :=
  match ops with
  | [] => []
  | (ctx, o, f) :: ops' =>
      let '(s', r) := do_op ctx o f s in
      if decide (FromContext ctx = Ok t) then r :: outputs t ops' s' else outputs t ops' s'
  end.

(** The calls of tenant [t] alone. *)
Definition purge (t : string) (ops : list (context * top * dbfate)) : list (context * top * dbfate) :=
  filter (fun p => FromContext p.1.1 = Ok t) ops.

(** An isolated store is non-interfering: removing the calls of all other
tenants changes nothing of what a tenant is told. *)
Lemma noninterference `{!Isolated S} t ops s s' : same_for t s s' → outputs t ops s = outputs t (purge t ops) s'.
Proof.
  revert s s'. induction ops as [|[[ctx o] f] ops IH]; intros s s' Hs; [done|].
  unfold purge. rewrite filter_cons. simpl. destruct (do_op ctx o f s) as [s1 r] eqn:E. case_decide as Hc.
  - destruct (iso_own ctx o f s s' t Hc Hs) as [Hr Hs']. rewrite E in Hr, Hs'. simpl.
    destruct (do_op ctx o f s') as [s1' r'] eqn:E'. rewrite decide_True by done. simpl in *. subst r'. f_equal. by apply IH.
  - apply IH. pose proof (iso_other ctx o f s t Hc) as Ho. rewrite E in Ho. simpl in Ho.
    etransitivity; [symmetry; exact Ho|exact Hs].
Qed.
End isolation.

Section pg_isolated.
Context (rls : bool) (collate : string → string → bool).

#[local] Existing Instance pg_repo.
#[local] Instance the_repo : Repository pgdb := pg_repo rls collate.

(** The rows of the tenant. *)
Definition rows_of (tid : string) (t : pgdb) : list row := filter (fun r => w_tenant r = tid) t.
Definition same_rows (tid : string) (t t' : pgdb) : Prop := rows_of tid t = rows_of tid t'.

#[global] Instance same_rows_equiv tid : Equivalence (same_rows tid).
Proof. unfold same_rows. split; repeat intro; congruence. Qed.

(** Under the setting of a tenant the policy refuses none of its rows. *)
Lemma policy_own tid t r : w_tenant r = tid → tenant_isolation rls (set_config tid (mkPgTx None t)) r = true.
Proof. intros <-. unfold tenant_isolation. simpl. rewrite bool_decide_eq_true_2 by done. by rewrite orb_true_r. Qed.

(** A SELECT whose clause asks for the tenant reads the tenant's rows. *)
Lemma select_own tid t w : (∀ r, w r = true → w_tenant r = tid) →
  sql_select rls w (set_config tid (mkPgTx None t)) = filter (fun r => w r = true) (rows_of tid t).
Proof.
  intros Hw. unfold sql_select, rows_of. cbn [tx_rows set_config]. rewrite list_filter_filter.
  apply list_filter_iff. intros r. split.
  - intros [_ Hr]. auto.
  - intros [Hr Ht]. split; [by apply policy_own|done].
Qed.

Lemma same_key_tenant new r : same_key new r = true → w_tenant r = w_tenant new ∧ w_id r = w_id new.
Proof. unfold same_key. intros H. zbool. done. Qed.

(** The upsert of a tenant's row is one on the tenant's rows, and leaves the others. *)
Lemma upsert_own tid t new : w_tenant new = tid →
  ∃ t' r, sql_upsert rls new (set_config tid (mkPgTx None t)) = Some (mkPgTx (Some tid) t', r) ∧
    scan r = mkRecord (w_id new) tid (w_data new) ∧
    rows_of tid t' = (match filter (fun r => same_key new r = true) (rows_of tid t) with
      | [] => rows_of tid t ++ [new]
      | _ => (fun r => if same_key new r then mkRow (w_tenant r) (w_id r) (w_data new) else r) <$> rows_of tid t
      end) ∧
    ∀ tid', tid' ≠ tid → rows_of tid' t' = rows_of tid' t.
Proof.
  intros Ht. unfold sql_upsert. rewrite policy_own by done. cbn [negb tx_rows tx_setting set_config].
  assert (filter (fun r => same_key new r = true) t = filter (fun r => same_key new r = true) (rows_of tid t)) as Hf.
  { unfold rows_of. rewrite list_filter_filter. apply list_filter_iff. intros r. split; [|by intros [? _]].
    intros Hk. split; [done|]. apply same_key_tenant in Hk as [-> _]. done. }
  rewrite <- Hf. destruct (filter _ t) as [|old l] eqn:Hold.
  - exists (t ++ [new])%list, new. split_and!; [done|by destruct new; simplify_eq/=| |].
    + unfold rows_of. rewrite filter_app, filter_cons, decide_True by done. done.
    + intros tid' Hne. unfold rows_of. rewrite filter_app, filter_cons, decide_False by congruence. apply app_nil_r.
  - assert (old ∈ filter (fun r => same_key new r = true) t) as Hin by (rewrite Hold; left).
    apply list_elem_of_filter in Hin as [Hk _]. destruct (same_key_tenant _ _ Hk) as [Hot Hoi].
    rewrite policy_own by congruence. cbn [negb]. eexists _, _. split; [done|]. rewrite Hk.
    set (upd := fun r => if same_key new r then mkRow (w_tenant r) (w_id r) (w_data new) else r).
    assert (∀ r, w_tenant (upd r) = w_tenant r) as Hu by (intros r; unfold upd; by case_match).
    assert (∀ q, rows_of q (upd <$> t) = upd <$> rows_of q t) as Hq.
    { intros q. unfold rows_of. clear -Hu. induction t as [|r t IH]; [done|]. rewrite fmap_cons, !filter_cons, Hu, IH.
      by case_decide. }
    split_and!; [unfold scan; simpl; congruence|by rewrite Hq|].
    intros q Hne. rewrite Hq. unfold rows_of. clear -Hne Ht. induction t as [|r t IH]; [done|].
    rewrite filter_cons. case_decide as Hr; [|done]. rewrite fmap_cons, IH. f_equal. unfold upd.
    destruct (same_key new r) eqn:Ek; [|done]. apply same_key_tenant in Ek as [Ek _]. congruence.
Qed.

(** A call of a tenant, on its own rows. *)
Lemma pg_spec ctx o f t tid : FromContext ctx = Ok tid →
  (∀ t', same_rows tid t t' → (do_op ctx o f t).2 = (do_op ctx o f t').2 ∧
     same_rows tid (do_op ctx o f t).1 (do_op ctx o f t').1) ∧
  (∀ q, q ≠ tid → same_rows q t (do_op ctx o f t).1) ∧
  (∀ recs rec, (do_op ctx o f t).2 = Ok recs → rec ∈ recs → r_TenantID rec = tid).
Proof.
  intros Hc. unfold do_op, the_repo, pg_repo, pg_Put, pg_Get, pg_List, withTenant. rewrite Hc.
  destruct o as [id d|id|].
  - destruct (upsert_own tid t (mkRow tid id d) eq_refl) as (t1 & r1 & Hu & Hs & Hr & Ho). rewrite Hu, Hs. split_and!.
    + intros t' Ht. destruct (upsert_own tid t' (mkRow tid id d) eq_refl) as (t2 & r2 & Hu2 & Hs2 & Hr2 & _).
      rewrite Hu2, Hs2. unfold same_rows in *. destruct f; simpl; try done; rewrite Hr, Hr2, Ht; done.
    + intros q Hq. unfold same_rows. destruct f; simpl; try done; by rewrite Ho.
    + intros recs rec. destruct f; simpl; try done. intros [= <-] ->%list_elem_of_singleton. done.
  - assert (∀ t, sql_select rls (fun r => String.eqb (w_tenant r) tid && String.eqb (w_id r) id) (set_config tid (mkPgTx None t)) =
      filter (fun r => String.eqb (w_tenant r) tid && String.eqb (w_id r) id = true) (rows_of tid t)) as Hsel.
    { intros t0. apply select_own. intros r Hr. by zbool. }
    split_and!.
    + intros t' Ht. rewrite !Hsel. unfold same_rows in *. rewrite Ht. destruct (filter _ _); destruct f; done.
    + intros q _. destruct f; simpl; try done; rewrite Hsel; by destruct (filter _ _).
    + intros recs rec. rewrite Hsel. destruct (filter _ _) as [|r l] eqn:Hl; destruct f; simpl; try done.
      intros [= <-] ->%list_elem_of_singleton. assert (r ∈ r :: l) as Hin by left. rewrite <- Hl in Hin.
      apply list_elem_of_filter in Hin as [Hin _]. simpl. by zbool.
  - assert (∀ t, sql_select rls (fun r => String.eqb (w_tenant r) tid) (set_config tid (mkPgTx None t)) =
      filter (fun r => String.eqb (w_tenant r) tid = true) (rows_of tid t)) as Hsel.
    { intros t0. apply select_own. intros r Hr. by zbool. }
    split_and!.
    + intros t' Ht. rewrite !Hsel. unfold same_rows in *. rewrite Ht. by destruct f.
    + intros q _. by destruct f.
    + intros recs rec. rewrite Hsel. destruct f; simpl; try done. intros [= <-] (r & -> & Hr)%list_elem_of_fmap.
      unfold order_by_id in Hr. rewrite merge_sort_Permutation in Hr. apply list_elem_of_filter in Hr as [Hr _].
      simpl. by zbool.
Qed.

#[local] Instance pg_isolated : Isolated pgdb.
Proof.
  refine {| same_for := same_rows |}.
  - intros ctx o f t t' tid Hc Ht. by apply (pg_spec ctx o f t tid Hc).
  - intros ctx o f t tid Hc. destruct (FromContext ctx) as [q|e] eqn:Hq.
    + apply (pg_spec ctx o f t q Hq). congruence.
    + unfold do_op, the_repo, pg_repo, pg_Put, pg_Get, pg_List, withTenant. rewrite Hq. by destruct o.
Qed.

(** C36: The Postgres store isolates tenants, by the predicates of its statements alone: with
a role that row-level security binds and with one that it does not, under any
collation and in any sequence of calls by any tenants, with any failures of the
database, what the calls of one tenant return, records and errors, is what they would
return had the other tenants made no call at all, and the tenant column of every
returned record is the tenant of the call. *)
Theorem Pg_noninterference (tid : string) (ops : list (context * top * dbfate)) (t : pgdb) :
  outputs tid ops t = outputs tid (purge tid ops) t ∧
  ∀ recs rec, Ok recs ∈ outputs tid ops t → rec ∈ recs → r_TenantID rec = tid.
Proof.
  split; [apply noninterference; reflexivity|]. revert t.
  induction ops as [|[[ctx o] f] ops IH]; intros t recs rec; simpl; [by intros ?%elem_of_nil|].
  destruct (do_op ctx o f t) as [t' r] eqn:E. case_decide as Hc; [|apply IH].
  intros [Hr|Hr]%elem_of_cons; [|by apply (IH t')]. intros Hin.
  apply (pg_spec ctx o f t tid Hc) with (recs := recs); [|done]. by rewrite E.
Qed.

(** What is put is what is got, and is in the list. *)
Theorem Pg_get_put (ctx : context) (tid id d : string) (t : pgdb) : FromContext ctx = Ok tid →
  let '(t', r) := do_op ctx (TPut id d) DBFine t in
  r = Ok [mkRecord id tid d] ∧ (do_op ctx (TGet id) DBFine t').2 = Ok [mkRecord id tid d].
Proof.
  intros Hc. unfold do_op, the_repo, pg_repo, pg_Put, pg_Get, withTenant. rewrite Hc.
  destruct (upsert_own tid t (mkRow tid id d) eq_refl) as (t1 & r1 & Hu & Hs & Hr & _). rewrite Hu, Hs. split; [done|].
  cbn [tx_rows]. rewrite select_own by (intros r ?; by zbool).
  assert (∃ l, filter (fun r => String.eqb (w_tenant r) tid && String.eqb (w_id r) id = true) (rows_of tid t1) = mkRow tid id d :: l)
    as [l ->]; [|done].
  rewrite Hr. clear. generalize (rows_of tid t). intros l0. set (new := mkRow tid id d).
  assert (∀ r, (String.eqb (w_tenant r) tid && String.eqb (w_id r) id = true) ↔ same_key new r = true) as Hk.
  { intros r. unfold same_key. simpl. by rewrite (String.eqb_sym tid), (String.eqb_sym id). }
  rewrite (list_filter_iff _ (fun r => same_key new r = true) _ Hk). destruct (filter _ l0) as [|old l] eqn:Hf.
  - rewrite filter_app, Hf, filter_cons, decide_True by (apply Hk; apply andb_true_iff; split; apply String.eqb_refl). by eexists.
  - clear Hk. revert old l Hf. induction l0 as [|r l0 IH]; intros old l Hf; [done|]. rewrite fmap_cons, !filter_cons in *.
    destruct (same_key new r) eqn:Ek.
    + apply same_key_tenant in Ek as [E1 E2]. rewrite E1, E2. rewrite decide_True; [by eexists|].
      unfold same_key. simpl. by rewrite !String.eqb_refl.
    + rewrite decide_False in Hf by congruence. rewrite decide_False by congruence. by eapply IH.
Qed.
End pg_isolated.

(** The backstop: under row-level security a statement of a tenant's transaction that forgets its
predicate still reads no row of another tenant, and a transaction that did not bind a
tenant reads none. *)
Theorem Rls_backstop (w : row → bool) (setting : option string) (t : pgdb) (r : row) :
  r ∈ sql_select true w (mkPgTx setting t) → setting = Some (w_tenant r).
Proof. intros [[Hp _] _]%list_elem_of_filter. unfold tenant_isolation in Hp. simpl in Hp. by zbool. Qed.

(** Reads of the in-memory store stay inside the tenant: what [Get] and
[List] return belongs to the tenant of the context, [List] returns all of it,
a record of another tenant is answered exactly as one that does not exist, and
without a tenant nothing is read or written. *)
Theorem Store_reads_isolated (ctx : context) (f : dbfate) (s : Store) :
  (∀ o s' recs tid, do_op ctx o f s = (s', Ok recs) → FromContext ctx = Ok tid →
     (∀ rec, rec ∈ recs → r_TenantID rec = tid) ∧
     (o = TList → ∀ id rec, st_data s !! id = Some rec → r_TenantID rec = tid → rec ∈ recs)) ∧
  (∀ id rec, st_data s !! id = Some rec → FromContext ctx ≠ Ok (r_TenantID rec) →
     (do_op ctx (TGet id) f s).2 = (do_op ctx (TGet id) f (mkStore (delete id (st_data s)))).2) ∧
  (∀ o e, FromContext ctx = Err e → do_op ctx o f s = (s, Err e)).
Proof.
  unfold do_op, Store_repo, Store_Put, Store_Get, Store_List. split_and!.
  - intros o s' recs tid Hd Hc. rewrite Hc in Hd. destruct o as [id p|id|]; simplify_eq.
    + split; [|done]. by intros rec ->%list_elem_of_singleton.
    + destruct (st_data s' !! id) as [rec|]; [|done]. destruct (String.eqb _ _) eqn:E; simplify_eq/=. zbool.
      split; [|done]. by intros rec' ->%list_elem_of_singleton.
    + split; [by intros rec [? _]%list_elem_of_filter|]. intros _ id rec Hr Ht.
      apply list_elem_of_filter. split; [done|]. apply list_elem_of_fmap. exists (id, rec).
      split; [done|]. by apply elem_of_map_to_list.
  - intros id rec Hr Hc. simpl. rewrite Hr, lookup_delete_eq. destruct (FromContext ctx) as [tid|]; [|done].
    rewrite (proj2 (String.eqb_neq _ _)); [done|]. congruence.
  - intros o e ->. by destruct o.
Qed.

(** The server writes only for callers that may manage billing.  The chain
of middlewares answers 400 without a tenant, 401 without a role and 403 to a
role without the permission, and the store is unchanged in these cases; the
roles let through are the owner and the admin; and a call let through writes,
as the tenant of the trimmed header, the record of that tenant. *)
Theorem Server_authorization {S} `{Repository S} (enc : string → option string) (f : dbfate)
    (tenantHeader roleHeader : string) (s : S) :
  let tid := TrimSpace tenantHeader in
  let ctx := mkCtx (Some tid) (Some roleHeader) in
  server enc f tenantHeader roleHeader s =
    if String.eqb tid "" then (s, BadRequest)
    else if String.eqb roleHeader "" then (s, Unauthorized)
    else if String.eqb roleHeader "owner" || String.eqb roleHeader "admin" then
      match enc tid with
      | None => (s, InternalError)
      | Some e =>
          let '(s', r) := do_op ctx (TPut ("rec-" +:+ tid) e) f s in
          (s', if is_ok r then Created else InternalError)
      end
    else (s, Forbidden).
Proof.
  intros tid ctx. unfold server, tenant_Middleware, Extract, Require_perm, records_handler. fold tid. simpl.
  destruct (String.eqb tid "") eqn:Et; [done|]. destruct (String.eqb roleHeader "") eqn:Er; [done|].
  assert (Authorize roleHeader PermManageBilling =
    if String.eqb roleHeader "owner" || String.eqb roleHeader "admin" then None
    else Some (if String.eqb roleHeader "billing_viewer" then ErrForbidden else ErrUnknownRole)) as ->.
  { unfold Authorize, Can, rolePermissions.
    destruct (String.eqb roleHeader "owner") eqn:E1; [apply String.eqb_eq in E1 as ->; by vm_compute|].
    destruct (String.eqb roleHeader "admin") eqn:E2; [apply String.eqb_eq in E2 as ->; by vm_compute|].
    destruct (String.eqb roleHeader "billing_viewer") eqn:E3; [apply String.eqb_eq in E3 as ->; by vm_compute|].
    zbool. rewrite !lookup_insert_ne by done. done. }
  destruct (String.eqb roleHeader "owner" || String.eqb roleHeader "admin"); [|done]. fold ctx.
  assert (FromContext ctx = Ok tid) as -> by (unfold FromContext; simpl; by rewrite Et).
  destruct (enc tid) as [e|]; [|done]. by destruct (do_op _ _ _ _) as [s' [r|e']].
Qed.

(** ** A run, and what the in-memory store does not keep apart *)

Definition as_tenant (t : string) : context := mkCtx (Some t) (Some "admin").

Definition demo_calls : list (context * top * dbfate) :=
  [(as_tenant "a", TPut "x" "1", DBFine); (as_tenant "b", TPut "x" "2", DBLost);
   (as_tenant "a", TGet "x", DBFine); (as_tenant "a", TList, DBFine)].

(** Without row-level security: the predicates keep the rows of b from a. *)
Lemma Pg_noninterference_witness :
  outputs (H := pg_repo false String.leb) "a" demo_calls [] =
    [Ok [mkRecord "x" "a" "1"]; Ok [mkRecord "x" "a" "1"]; Ok [mkRecord "x" "a" "1"]] ∧
  outputs (H := pg_repo false String.leb) "a" demo_calls [] =
    outputs (H := pg_repo false String.leb) "a" (purge "a" demo_calls) [] ∧
  ∀ rec, rec ∈ [mkRecord "x" "a" "1"] → r_TenantID rec = "a".
Proof.
  destruct (Pg_noninterference false String.leb "a" demo_calls []) as [H1 H2].
  split; [vm_compute; reflexivity|]. split; [exact H1|]. intros rec. apply H2. vm_compute. left.
Defined.

(** The in-memory store is keyed by the record id alone: a tenant that puts a
record under an id in use takes it away from its owner. *)
Theorem Store_Put_takes_over :
  let s1 := (do_op (as_tenant "a") (TPut "x" "1") DBFine (mkStore ∅)).1 in
  let '(s2, r2) := do_op (as_tenant "b") (TPut "x" "2") DBFine s1 in
  (do_op (as_tenant "a") (TGet "x") DBFine s1).2 = Ok [mkRecord "x" "a" "1"] ∧
  is_ok r2 = true ∧
  (do_op (as_tenant "a") (TGet "x") DBFine s2).2 = Err ErrNotFound.
Proof. by vm_compute. Qed.
