(* ===== verification/Stadium.v ===== *)
(** * cricket-stadium-booking: seat holds over Postgres

The store's hold path at the granularity of its SQL statements: each call of
[PlaceHold] is a program counter over the statements of [holds.go], calls
interleave between statements, any statement may fail and a commit may take
effect and lose its reply.  [ConfirmHold] and [ReleaseHold] are transactions of
one statement.  The tables are instances of [PgTable].  On top: the read of the
seat map, the retry loop and its back-off, the seat cache, the service methods
and the handlers' validation and error mapping. *)

From Stdlib Require Import ZArith Lia Ascii.
From stdpp Require Import base gmap strings fin_maps fin_sets relations list.
From S2P Require Import Prelude GoStrings Pg.

Open Scope Z_scope.

(* [base] cricket-stadium-booking-main/cricket-stadium-booking/internal *)

(** ** Data *)

(** The check constraint of the column [status]. *)
Inductive status : Type := Held | Confirmed | Expired | Cancelled.

#[global] Instance status_eq_dec : EqDecision status.
Proof. solve_decision. Defined.

(** A row of [bookings]; the clock of the database counts microseconds. *)
Record brow : Type := mkBrow {
  b_match : string; b_seat : string; b_buyer : string; b_status : status;
  b_expires : option Z; b_confirmed : option Z; b_cancelled : option Z }.

Record BookingRow : Type := mkRow {
  r_ID : Z; r_MatchID : string; r_SeatID : string; r_BuyerID : string;
  r_Status : status; r_HoldExpiresAt : option Z; r_ConfirmedAt : option Z }.

(** Errors the store returns: the sentinels, an error of Postgres with its code
(seen through [%w] by [errors.As]), and any other error. *)
(* [go] booking/errors.go:7-12 ErrSeatUnavailable *)
Inductive err : Type :=
| ErrSeatUnavailable | ErrHoldExpired | ErrNotFound | ErrIdempotencyKeyReuse
| EPg (code : string)
| ECtx (lastErr : option err)
| EOther.

(* [go] store/holds.go:276-279 isUniqueViolation *)
Definition isUniqueViolation (e : err) : bool :=
  match e with EPg c => bool_decide (c = "23505") | _ => false end.

(** The arguments of a call of [placeHold]. *)
Record hold_args : Type := mkArgs {
  a_match : string; a_seat : string; a_buyer : string; a_ttl : Z; a_key : string }.

(* [go] store/holds.go:190-198 idemState *)
Inductive idemState : Type := idemMiss | idemLive | idemDead | idemMismatch.

(** What happens to a round trip to the database: it works, it fails without
effect, or its effect takes place and the reply is an error. *)
Inductive fault : Type := Fine | Fails (e : err) | Lost (e : err).

(** ** SQL expressions *)

Definition is_held (r : brow) : bool := bool_decide (b_status r = Held).
Definition is_active (r : brow) : bool := bool_decide (b_status r = Held) || bool_decide (b_status r = Confirmed).

(** A comparison with NULL is not true. *)
Definition expires_after (r : brow) (now : Z) : bool :=
  match b_expires r with Some e => now <? e | None => false end.
Definition expires_before (r : brow) (now : Z) : bool :=
  match b_expires r with Some e => e <? now | None => false end.

Definition same_seat (r r' : brow) : bool :=
  bool_decide (b_match r = b_match r') && bool_decide (b_seat r = b_seat r').
Definition same_buyer (r r' : brow) : bool :=
  bool_decide (b_match r = b_match r') && bool_decide (b_buyer r = b_buyer r').

(** The partial unique indexes [ux_bookings_active_seat] and
[ux_bookings_one_held_seat_per_buyer]. *)
Definition index_clash (r r' : brow) : bool :=
  (is_active r && is_active r' && same_seat r r') || (is_held r && is_held r' && same_buyer r r').

Definition set_cancelled (now : Z) (r : brow) : brow :=
  mkBrow (b_match r) (b_seat r) (b_buyer r) Cancelled (b_expires r) (b_confirmed r) (Some now).
Definition set_expired (r : brow) : brow :=
  mkBrow (b_match r) (b_seat r) (b_buyer r) Expired (b_expires r) (b_confirmed r) (b_cancelled r).
Definition set_confirmed (now : Z) (r : brow) : brow :=
  mkBrow (b_match r) (b_seat r) (b_buyer r) Confirmed None (Some now) (b_cancelled r).

(** ** The store *)

(** The statements of the transaction of [placeHold], in order. *)
Inductive stage : Type :=
| SLock | SClear | SCancel | SExpire | SInsert | SKey (r : BookingRow) | SCommit (r : BookingRow).

(** Where a call of [placeHold] stands; [now] is the time its transaction began. *)
Inductive pc : Type :=
| PStart
| PBegin (stale : Z)
| PTx (now stale : Z) (s : stage)
| PReplay
| PDone (res : result err BookingRow).

Section store.
Context {TB TK : Type} `{!PgTable TB Z brow} `{!PgTable TK string Z}.
(** The rows of [seats], and the 64-bit hash that keys the advisory lock. *)
Context (seat_exists : string → string → bool) (hash : string → string → Z).

(* [go] store/holds.go:14-20 Store *)
Record db : Type := mkDb {
  d_book : TB; d_keys : TK; d_locks : gmap Z nat; d_next : Z }.

Definition with_book (x : TB) (d : db) : db := mkDb x (d_keys d) (d_locks d) (d_next d).
Definition with_keys (x : TK) (d : db) : db := mkDb (d_book d) x (d_locks d) (d_next d).

Definition drop_locks (t : nat) (l : gmap Z nat) : gmap Z nat := filter (fun p => p.2 ≠ t) l.

Definition tx_commit (t : nat) (d : db) : db :=
  mkDb (t_commit t (d_book d)) (t_commit t (d_keys d)) (drop_locks t (d_locks d)) (d_next d).
Definition tx_rollback (t : nat) (d : db) : db :=
  mkDb (t_rollback t (d_book d)) (t_rollback t (d_keys d)) (drop_locks t (d_locks d)) (d_next d).

Definition row_of (id : Z) (r : brow) : BookingRow :=
  mkRow id (b_match r) (b_seat r) (b_buyer r) (b_status r) (b_expires r) (b_confirmed r).

(* [go] store/holds.go:208-231 lookupIdempotentHold *)
Definition lookupIdempotentHold (now : Z) (a : hold_args) (d : db) : option BookingRow * idemState :=
  match t_com (d_keys d) !! a_key a ≫= (fun id => (id,.) <$> t_com (d_book d) !! id) with
  | None => (None, idemMiss)
  | Some (id, r) =>
      let live := bool_decide (b_status r = Confirmed) || (is_held r && expires_after r now) in
      if negb (bool_decide (b_match r = a_match a) && bool_decide (b_seat r = a_seat a)
               && bool_decide (b_buyer r = a_buyer a))
      then (None, idemMismatch)
      else if negb live then (Some (row_of id r), idemDead) else (Some (row_of id r), idemLive)
  end.

(* [go] store/holds.go:79-84 placeHold *)
Definition stmt_lock (t : nat) (a : hold_args) (d : db) : outcome db :=
  let h := hash (a_match a) (a_buyer a) in
  match d_locks d !! h with
  | Some t' => if decide (t' = t) then Done d else Blocked
  | None => Done (mkDb (d_book d) (d_keys d) (<[h := t]> (d_locks d)) (d_next d))
  end.

Definition lift {X} (put : X → db → db) (d : db) (o : outcome X) : outcome db :=
  match o with Blocked => Blocked | Violation => Violation | Done x => Done (put x d) end.

(* [go] store/holds.go:86-96 placeHold *)
Definition stmt_clear (t : nat) (stale : Z) (a : hold_args) (d : db) : outcome db :=
  lift with_keys d
    (stmt_delete t (fun k id => bool_decide (k = a_key a) && (id =? stale)) (d_keys d)).

(** The WHERE clauses of the two updates. *)
Definition replaced (a : hold_args) (r : brow) : bool :=
  bool_decide (b_match r = a_match a) && bool_decide (b_buyer r = a_buyer a)
  && is_held r && negb (bool_decide (b_seat r = a_seat a)).
Definition lapsed (now : Z) (a : hold_args) (r : brow) : bool :=
  bool_decide (b_match r = a_match a) && bool_decide (b_seat r = a_seat a)
  && is_held r && expires_before r now.

(* [go] store/holds.go:104-110 placeHold *)
Definition stmt_cancel (t : nat) (now : Z) (a : hold_args) (d : db) : outcome db :=
  lift with_book d
    (stmt_update t (fun _ => replaced a) (set_cancelled now) (d_book d)).

(* [go] store/holds.go:112-118 placeHold *)
Definition stmt_expire (t : nat) (now : Z) (a : hold_args) (d : db) : outcome db :=
  lift with_book d
    (stmt_update t (fun _ => lapsed now a) set_expired (d_book d)).

(** The row of the INSERT; the TTL is bound in microseconds. *)
(* [go] store/holds.go:120-131 placeHold *)
Definition new_row (now : Z) (a : hold_args) : brow :=
  mkBrow (a_match a) (a_seat a) (a_buyer a) Held (Some (now + Z.quot (a_ttl a) 1000)) None None.

(** The identity column takes its number also when the row is refused. *)
Definition take_id (d : db) : db := mkDb (d_book d) (d_keys d) (d_locks d) (d_next d + 1).

Definition stmt_book (t : nat) (now : Z) (a : hold_args) (d : db) : outcome db :=
  lift with_book (take_id d)
    (stmt_insert t (d_next d) (new_row now a) (fun _ r => index_clash (new_row now a) r) (d_book d)).

(* [go] store/holds.go:160-163 placeHold *)
Definition stmt_key (t : nat) (id : Z) (a : hold_args) (d : db) : outcome db :=
  lift with_keys d (stmt_insert t (a_key a) id (fun k _ => bool_decide (k = a_key a)) (d_keys d)).

(** A statement of the transaction fails: the transaction is rolled back.  A
unique violation of one of the two inserts is resolved by the key. *)
(* [go] store/holds.go:132-158 placeHold *)
Definition tx_error (t : nat) (a : hold_args) (s : stage) (e : err) (d : db) : pc * db :=
  let d' := tx_rollback t d in
  match s with
  | SInsert | SKey _ =>
      if isUniqueViolation e
      then (if bool_decide (a_key a = "") then PDone (Err ErrSeatUnavailable) else PReplay, d')
      else (PDone (Err e), d')
  | _ => (PDone (Err e), d')
  end.

Definition tx_next (t : nat) (a : hold_args) (s : stage) (d : db) (o : outcome db)
    (k : db → pc * db) : option (pc * db) :=
  match o with
  | Blocked => None
  | Violation => Some (tx_error t a s (EPg "23505") d)
  | Done d' => Some (k d')
  end.

(** One statement of the transaction. *)
(* [go] store/holds.go:68-188 placeHold *)
Definition tx_exec (t : nat) (now stale : Z) (f : fault) (a : hold_args) (s : stage) (d : db)
    : option (pc * db) :=
  match f, s with
  | Lost e, SCommit r => Some (PDone (Err e), tx_commit t d)
  | Fails e, _ | Lost e, _ => Some (tx_error t a s e d)
  | Fine, SLock =>
      tx_next t a s d (stmt_lock t a d)
        (fun d' => (PTx now stale (if stale =? 0 then SCancel else SClear), d'))
  | Fine, SClear => tx_next t a s d (stmt_clear t stale a d) (fun d' => (PTx now stale SCancel, d'))
  | Fine, SCancel => tx_next t a s d (stmt_cancel t now a d) (fun d' => (PTx now stale SExpire, d'))
  | Fine, SExpire => tx_next t a s d (stmt_expire t now a d) (fun d' => (PTx now stale SInsert, d'))
  | Fine, SInsert =>
      tx_next t a s (take_id d) (stmt_book t now a d) (fun d' =>
        if seat_exists (a_match a) (a_seat a)
        then let r := row_of (d_next d) (new_row now a) in
             (PTx now stale (if bool_decide (a_key a = "") then SCommit r else SKey r), d')
        else tx_error t a s (EPg "23503") d')
  | Fine, SKey r => tx_next t a s d (stmt_key t (r_ID r) a d) (fun d' => (PTx now stale (SCommit r), d'))
  | Fine, SCommit r => Some (PDone (Ok r), tx_commit t d)
  end.

(** The next round trip of a call, [None] when it waits for a lock or is done. *)
(* [go] store/holds.go:43-72 placeHold *)
Definition hold_exec (t : nat) (now : Z) (f : fault) (a : hold_args) (p : pc) (d : db) : option (pc * db) :=
  match p with
  | PStart =>
      if bool_decide (a_key a = "") then Some (PBegin 0, d) else
      match f with
      | Fails e | Lost e => Some (PDone (Err e), d)
      | Fine =>
          match lookupIdempotentHold now a d with
          | (_, idemMismatch) => Some (PDone (Err ErrIdempotencyKeyReuse), d)
          | (Some r, idemLive) => Some (PDone (Ok r), d)
          | (Some r, idemDead) => Some (PBegin (r_ID r), d)
          | _ => Some (PBegin 0, d)
          end
      end
  | PBegin stale =>
      match f with
      | Fails e | Lost e => Some (PDone (Err e), d)
      | Fine => Some (PTx now stale SLock, d)
      end
  | PTx txnow stale s => tx_exec t txnow stale f a s d
  | PReplay =>
      match f with
      | Fails e | Lost e => Some (PDone (Err e), d)
      | Fine =>
          match lookupIdempotentHold now a d with
          | (_, idemMismatch) => Some (PDone (Err ErrIdempotencyKeyReuse), d)
          | (Some r, idemLive) => Some (PDone (Ok r), d)
          | _ => Some (PDone (Err ErrSeatUnavailable), d)
          end
      end
  | PDone _ => None
  end.

(** A transaction of one UPDATE by primary key: the row it returned, if any. *)
Definition update_row (t : nat) (id : Z) (P : brow → bool) (f : brow → brow) (d : db)
    : option (option brow * db) :=
  let s := stmt_update t (fun i r => (i =? id) && P r) f in
  match autocommit t s (d_book d) with
  | Done x => Some (f <$> matched t (fun i r => (i =? id) && P r) (d_book d) !! id, with_book x d)
  | _ => None
  end.

(** A round trip of its own transaction. *)
Definition round_trip {B} (f : fault) (d : db) (run : option (result err B * db)) : option (result err B * db) :=
  match f with
  | Fails e => Some (Err e, d)
  | Lost e => match run with Some (_, d') => Some (Err e, d') | None => None end
  | Fine => run
  end.

(* [go] store/holds.go:237-254 ConfirmHold *)
Definition ConfirmHold (t : nat) (now : Z) (f : fault) (holdID : Z) (buyerID : string) (d : db)
    : option (result err BookingRow * db) :=
  round_trip f d
    (match update_row t holdID (fun r => bool_decide (b_buyer r = buyerID) && is_held r && expires_after r now)
             (set_confirmed now) d with
     | Some (Some r, d') => Some (Ok (mkRow holdID (b_match r) (b_seat r) buyerID Confirmed None (b_confirmed r)), d')
     | Some (None, d') => Some (Err ErrHoldExpired, d')
     | None => None
     end).

(* [go] store/holds.go:260-274 ReleaseHold *)
Definition ReleaseHold (t : nat) (now : Z) (f : fault) (holdID : Z) (buyerID : string) (d : db)
    : option (result err string * db) :=
  round_trip f d
    (match update_row t holdID (fun r => bool_decide (b_buyer r = buyerID) && is_held r) (set_cancelled now) d with
     | Some (Some r, d') => Some (Ok (b_match r), d')
     | Some (None, d') => Some (Err ErrNotFound, d')
     | None => None
     end).

(** ** Interleaved calls *)

Record sys : Type := mkSys { s_db : db; s_calls : gmap nat (hold_args * pc) }.

(** Transaction numbers are not used twice. *)
Inductive sstep : sys → sys → Prop :=
| St_call t a d cs : cs !! t = None → sstep (mkSys d cs) (mkSys d (<[t := (a, PStart)]> cs))
| St_exec t now f a p p' d d' cs :
    cs !! t = Some (a, p) → hold_exec t now f a p d = Some (p', d') →
    sstep (mkSys d cs) (mkSys d' (<[t := (a, p')]> cs))
| St_confirm t now f id buyer res d d' cs :
    cs !! t = None → ConfirmHold t now f id buyer d = Some (res, d') →
    sstep (mkSys d cs) (mkSys d' cs)
| St_release t now f id buyer res d d' cs :
    cs !! t = None → ReleaseHold t now f id buyer d = Some (res, d') →
    sstep (mkSys d cs) (mkSys d' cs).

(** ** Effects of a step *)

Context `{!PgLaws TB Z brow} `{!PgLaws TK string Z}.

(** What a round trip of call [t] does to the database, in terms of what the
tables show. *)
Inductive effect (t : nat) (a : hold_args) (d : db) : pc → pc → db → Prop :=
| E_read p p' :
    (∀ now stale s, p ≠ PTx now stale s) →
    (∀ r, p' = PDone (Ok r) → ∃ now, lookupIdempotentHold now a d = (Some r, idemLive)) →
    (∀ now stale s, p' = PTx now stale s → s = SLock) →
    effect t a d p p' d
| E_rollback now stale s p' d' :
    t_com (d_book d') = t_com (d_book d) →
    (∀ k v, t_pend (d_book d') !! k = Some v ↔ t_pend (d_book d) !! k = Some v ∧ v.1 ≠ t) →
    t_com (d_keys d') = t_com (d_keys d) →
    (∀ k v, t_pend (d_keys d') !! k = Some v ↔ t_pend (d_keys d) !! k = Some v ∧ v.1 ≠ t) →
    d_locks d' = drop_locks t (d_locks d) → d_next d ≤ d_next d' →
    (p' = PReplay ∨ ∃ e, p' = PDone (Err e)) →
    effect t a d (PTx now stale s) p' d'
| E_commit now stale r p' :
    (p' = PDone (Ok r) ∨ ∃ e, p' = PDone (Err e)) →
    effect t a d (PTx now stale (SCommit r)) p' (tx_commit t d)
| E_lock now stale s' d' :
    stmt_lock t a d = Done d' → s' = (if stale =? 0 then SCancel else SClear) →
    effect t a d (PTx now stale SLock) (PTx now stale s') d'
| E_clear now stale d' :
    stmt_clear t stale a d = Done d' →
    effect t a d (PTx now stale SClear) (PTx now stale SCancel) d'
| E_cancel now stale d' :
    stmt_cancel t now a d = Done d' →
    effect t a d (PTx now stale SCancel) (PTx now stale SExpire) d'
| E_expire now stale d' :
    stmt_expire t now a d = Done d' →
    effect t a d (PTx now stale SExpire) (PTx now stale SInsert) d'
| E_book now stale s' d' :
    stmt_book t now a d = Done d' →
    s' = (let r := row_of (d_next d) (new_row now a) in
          if bool_decide (a_key a = "") then SCommit r else SKey r) →
    effect t a d (PTx now stale SInsert) (PTx now stale s') d'
| E_key now stale r d' :
    stmt_key t (r_ID r) a d = Done d' →
    effect t a d (PTx now stale (SKey r)) (PTx now stale (SCommit r)) d'.

Lemma lift_done {X} (put : X → db → db) d o d' :
  lift put d o = Done d' → ∃ x, o = Done x ∧ d' = put x d.
Proof. destruct o; simpl; intros; simplify_eq; eauto. Qed.

Lemma tx_error_effect t a now stale s e d0 d p' d' :
  d_book d0 = d_book d → d_keys d0 = d_keys d → d_locks d0 = d_locks d → d_next d ≤ d_next d0 →
  tx_error t a s e d0 = (p', d') → effect t a d (PTx now stale s) p' d'.
Proof.
  intros Eb Ek El En E.
  assert (d' = tx_rollback t d0 ∧ (p' = PReplay ∨ ∃ e, p' = PDone (Err e))) as [-> Hp].
  { unfold tx_error in E. destruct s; repeat case_match; simplify_eq; eauto. }
  apply E_rollback; simpl; rewrite ?Eb, ?Ek, ?El; auto using com_rollback, pend_rollback.
Qed.

(** A failing insert of the seat: the row it wrote is rolled back too. *)
Lemma book_error_effect t a now stale e d d1 p' d' :
  t_pend (d_book d) !! d_next d = None →
  stmt_book t now a d = Done d1 → tx_error t a SInsert e d1 = (p', d') →
  effect t a d (PTx now stale SInsert) p' d'.
Proof.
  intros Hfresh (x & (Hc & Hp & _)%stmt_insert_spec & ->)%lift_done E.
  assert (d' = tx_rollback t (with_book x (take_id d)) ∧ (p' = PReplay ∨ ∃ e, p' = PDone (Err e))) as [-> Hpc].
  { unfold tx_error in E. repeat case_match; simplify_eq; eauto. }
  apply E_rollback; simpl; auto using com_rollback, pend_rollback with lia; [by rewrite com_rollback|].
  intros k v. rewrite pend_rollback, Hp. case_decide as Hk; [subst|done].
  rewrite Hfresh. by split; [intros [[= <-] []]|intros []].
Qed.

Lemma tx_effect t a now stale s f d p' d' :
  t_pend (d_book d) !! d_next d = None →
  tx_exec t now stale f a s d = Some (p', d') → effect t a d (PTx now stale s) p' d'.
Proof.
  intros Hfresh E.
  assert (∀ e d0, d_book d0 = d_book d → d_keys d0 = d_keys d → d_locks d0 = d_locks d → d_next d ≤ d_next d0 →
            tx_error t a s e d0 = (p', d') → effect t a d (PTx now stale s) p' d') as Herr
    by eauto using tx_error_effect.
  unfold tx_exec, tx_next in E.
  destruct f, s; repeat case_match; simplify_eq; try (by eapply Herr);
    eauto using effect, book_error_effect, surjective_pairing.
  - eapply E_lock; [done|]. by case_match.
  - eapply E_lock; [done|]. by case_match.
  - apply (Herr (EPg "23505") (take_id d)); simpl; auto with lia.
  - eapply E_book; [done|]. simpl. by case_match.
  - eapply E_book; [done|]. simpl. by case_match.
Qed.

Lemma exec_effect t a now p f d p' d' :
  t_pend (d_book d) !! d_next d = None →
  hold_exec t now f a p d = Some (p', d') → effect t a d p p' d'.
Proof.
  intros Hfresh. destruct p as [|stale|txnow stale s| |]; simpl; [..|done].
  1,2,4: intros E; repeat case_match; simplify_eq; apply E_read; intros; simplify_eq; eauto.
  by apply tx_effect.
Qed.

(** ** Invariants *)

Definition bpend (s : sys) : gmap Z (version brow) := t_pend (d_book (s_db s)).
Definition bcom (s : sys) : gmap Z brow := t_com (d_book (s_db s)).
Definition kpend (s : sys) : gmap string (version Z) := t_pend (d_keys (s_db s)).
Definition kcom (s : sys) : gmap string Z := t_com (d_keys (s_db s)).

(** Call [t] has a transaction open. *)
Definition intx (cs : gmap nat (hold_args * pc)) (t : nat) : Prop :=
  ∃ a now stale s, cs !! t = Some (a, PTx now stale s).

(** Row identities, and the owners of pending versions and locks. *)
Record owned (s : sys) : Prop := {
  o_next : 1 ≤ d_next (s_db s);
  o_com : ∀ i r, bcom s !! i = Some r → 1 ≤ i < d_next (s_db s);
  o_pend : ∀ i v, bpend s !! i = Some v → 1 ≤ i < d_next (s_db s);
  o_book : ∀ i v, bpend s !! i = Some v → intx (s_calls s) v.1;
  o_keys : ∀ k v, kpend s !! k = Some v → intx (s_calls s) v.1;
  o_lock : ∀ h t, d_locks (s_db s) !! h = Some t → intx (s_calls s) t;
}.

Lemma intx_other cs t c t' : t' ≠ t → intx cs t' → intx (<[t := c]> cs) t'.
Proof. intros Hne (a & now & stale & st & Ht). exists a, now, stale, st. by rewrite lookup_insert_ne. Qed.

Lemma intx_self cs t a now stale st : intx (<[t := (a, PTx now stale st)]> cs) t.
Proof. exists a, now, stale, st. by rewrite lookup_insert_eq. Qed.

Lemma intx_fresh cs t : cs !! t = None → ¬ intx cs t.
Proof. intros Hn (a & now & stale & st & Ht). congruence. Qed.

Lemma index_clash_true r r' :
  index_clash r r' = true ↔
  (is_active r = true ∧ is_active r' = true ∧ same_seat r r' = true) ∨
  (is_held r = true ∧ is_held r' = true ∧ same_buyer r r' = true).
Proof. unfold index_clash. rewrite orb_true_iff, !andb_true_iff. tauto. Qed.

Lemma index_clash_sym r r' : index_clash r r' = index_clash r' r.
Proof.
  unfold index_clash, same_seat, same_buyer.
  rewrite (andb_comm (is_active r)), (andb_comm (is_held r)).
  repeat f_equal; apply bool_decide_ext; split; congruence.
Qed.

Lemma inactive_clash r b : b_status r = Cancelled ∨ b_status r = Expired → index_clash r b = false.
Proof.
  unfold index_clash, is_active, is_held. by intros [-> | ->]; rewrite !bool_decide_eq_false_2 by done.
Qed.

(** A pending version after an update is of the update or was there before. *)
Lemma update_pend t P f (x x' : TB) i v :
  stmt_update t P f x = Done x' → t_pend x' !! i = Some v →
  (v.1 = t ∧ ∃ r, tview t x !! i = Some r ∧ P i r = true ∧ v.2 = Some (f r)) ∨ t_pend x !! i = Some v.
Proof.
  intros [_ Hp]%stmt_update_spec. rewrite (proj1 (Hp i)).
  destruct (matched t P x !! i) as [r|] eqn:E; [|by right].
  intros [= <-]. apply lookup_matched in E as [??]. left. eauto.
Qed.

(** A transaction sees a row that is committed or that it wrote. *)
Lemma tview_cases {T K A} `{PgTable T K A} t (x : T) (k : K) (r : A) :
  tview t x !! k = Some r → t_com x !! k = Some r ∨ t_pend x !! k = Some (t, Some r).
Proof.
  rewrite lookup_tview. unfold settle. destruct (t_pend x !! k) as [[t' v]|]; [|auto].
  case_decide; intros; simplify_eq; auto.
Qed.

Lemma drop_locks_Some t l h t' : drop_locks t l !! h = Some t' ↔ l !! h = Some t' ∧ t' ≠ t.
Proof. unfold drop_locks. by rewrite map_lookup_filter_Some. Qed.

(** A statement of an open transaction adds versions, keys and locks of its own. *)
Lemma owned_write t a now stale st d d' cs :
  t_com (d_book d') = t_com (d_book d) → d_next d ≤ d_next d' →
  (∀ i v, t_pend (d_book d') !! i = Some v →
     t_pend (d_book d) !! i = Some v ∨ (v.1 = t ∧ 1 ≤ i < d_next d')) →
  (∀ k v, t_pend (d_keys d') !! k = Some v → t_pend (d_keys d) !! k = Some v ∨ v.1 = t) →
  (∀ h t', d_locks d' !! h = Some t' → d_locks d !! h = Some t' ∨ t' = t) →
  owned (mkSys d cs) → owned (mkSys d' (<[t := (a, PTx now stale st)]> cs)).
Proof.
  intros Ec En Hb Hk Hl [On Oc Op Ob Ok' Ol]. unfold bcom, bpend, kpend in *; simpl in *.
  assert (∀ t', intx cs t' → intx (<[t := (a, PTx now stale st)]> cs) t') as Hall
    by (intros t'; destruct (decide (t' = t)) as [->|]; eauto using intx_self, intx_other).
  split; unfold bcom, bpend, kpend; simpl; rewrite ?Ec; [lia| | | | |].
  - intros i r Hi%Oc. lia.
  - intros i v [Hi%Op|[_ ?]]%Hb; lia.
  - intros i v [Hi%Ob|[-> _]]%Hb; eauto using intx_self.
  - intros i v [Hi%Ok'| ->]%Hk; eauto using intx_self.
  - intros h t' [Hi%Ol| ->]%Hl; eauto using intx_self.
Qed.

Lemma update_owned_write t a now stale st P f d x cs :
  stmt_update t P f (d_book d) = Done x →
  owned (mkSys d cs) → owned (mkSys (with_book x d) (<[t := (a, PTx now stale st)]> cs)).
Proof.
  intros E HO. pose proof (o_com _ HO) as Oc. pose proof (o_pend _ HO) as Op.
  pose proof (stmt_update_spec _ _ _ _ _ E) as [Hc _].
  apply (owned_write t a now stale st d); simpl; auto; [lia|].
  intros i v Hv. destruct (update_pend _ _ _ _ _ _ _ E Hv) as [(Hv1 & r & Hr & _)|]; [right|by left].
  split; [done|]. apply tview_cases in Hr as [Hr|Hr]; [apply Oc in Hr | apply Op in Hr]; done.
Qed.

Lemma owned_effect t a p p' d d' cs :
  cs !! t = Some (a, p) → effect t a d p p' d' →
  owned (mkSys d cs) → owned (mkSys d' (<[t := (a, p')]> cs)).
Proof.
  intros Ht E HO. pose proof HO as [On Oc Op Ob Ok' Ol].
  unfold bcom, bpend, kpend in *; simpl in *.
  assert (∀ t', t' ≠ t → intx cs t' → intx (<[t := (a, p')]> cs) t') as Hoth by eauto using intx_other.
  destruct E as [p p' Hp _ _|now stale s p' d' Eb Pb Ek Pk El En _|now stale r p' _|now stale s' d' E _
    |now stale d' E|now stale d' E|now stale d' E|now stale s' d' E _|now stale r d' E].
  - assert (¬ intx cs t) as Hnt by (intros (?&?&?&?&?); simplify_eq; by eapply Hp).
    split; simpl; eauto; intros ??.
    all: intros Hv; (apply Hoth; [intros <-; apply Hnt; by eauto | by eauto]).
  - split; simpl; unfold bcom, bpend, kpend; simpl; rewrite ?Eb; [lia| | | | |].
    + intros i r Hi%Oc. lia.
    + intros i v [Hi%Op _]%Pb. lia.
    + intros i v [Hi%Ob Hne]%Pb. auto.
    + intros k v [Hi%Ok' Hne]%Pk. auto.
    + intros h t'. rewrite El. intros [Hi%Ol Hne]%drop_locks_Some. auto.
  - split; simpl; unfold bcom, bpend, kpend; simpl; [lia| | | | |].
    + intros i r0. rewrite com_commit. unfold settle. destruct (t_pend (d_book d) !! i) as [v|] eqn:E; [|eauto].
      intros _. eauto.
    + intros i v [Hi%Op _]%pend_commit. lia.
    + intros i v [Hi%Ob Hne]%pend_commit. auto.
    + intros k v [Hi%Ok' Hne]%pend_commit. auto.
    + intros h t' [Hi%Ol Hne]%drop_locks_Some. auto.
  - unfold stmt_lock in E. apply (owned_write t a now stale s' d); try done;
      repeat case_match; simplify_eq; simpl; auto; [lia..|].
    intros h t'. rewrite lookup_insert. case_decide; intros; simplify_eq; auto.
  - apply lift_done in E as (x & [_ Hp]%stmt_delete_spec & ->).
    apply (owned_write t a now stale SCancel d); simpl; auto; [lia|].
    intros k v. rewrite (proj1 (Hp k)). case_match; intros; simplify_eq; auto.
  - apply lift_done in E as (x & E & ->). by eapply update_owned_write.
  - apply lift_done in E as (x & E & ->). by eapply update_owned_write.
  - apply lift_done in E as (x & (Hc & Hp & _)%stmt_insert_spec & ->).
    apply (owned_write t a now stale s' d); simpl; auto; [lia|].
    intros i v. rewrite Hp. case_decide; intros; simplify_eq; [right; simpl; lia | auto].
  - apply lift_done in E as (x & (Hc & Hp & _)%stmt_insert_spec & ->).
    apply (owned_write t a now stale (SCommit r) d); simpl; auto; [lia|].
    intros k v. rewrite Hp. case_decide; intros; simplify_eq; auto.
Qed.

Lemma owned_fresh d cs :
  owned (mkSys d cs) → t_pend (d_book d) !! d_next d = None ∧ t_com (d_book d) !! d_next d = None.
Proof.
  intros HO. split; apply eq_None_not_Some; intros [v Hv].
  - apply (o_pend _ HO) in Hv. simpl in Hv. lia.
  - apply (o_com _ HO) in Hv. simpl in Hv. lia.
Qed.

Lemma stmt_lock_spec t a d d' :
  stmt_lock t a d = Done d' →
  d_book d' = d_book d ∧ d_keys d' = d_keys d ∧ d_next d' = d_next d ∧
  (∀ h, d_locks d' !! h = if decide (h = hash (a_match a) (a_buyer a)) then Some t else d_locks d !! h) ∧
  (∀ t', d_locks d !! hash (a_match a) (a_buyer a) = Some t' → t' = t).
Proof.
  unfold stmt_lock. destruct (d_locks d !! _) as [t'|] eqn:E; repeat case_decide; intros; simplify_eq; simpl.
  - repeat split; auto; [|congruence]. intros h. case_decide; by subst.
  - repeat split; auto; [|congruence]. intros h. rewrite lookup_insert. repeat case_decide; by subst.
Qed.

Lemma indexed_effect t a p p' d d' cs :
  owned (mkSys d cs) → effect t a d p p' d' →
  indexed index_clash (d_book d) → indexed index_clash (d_book d').
Proof.
  intros HO E HI. destruct E as [| | |? ? ? ? E|? ? ? E|? ? ? E|? ? ? E|? ? ? ? E|? ? ? ? E]; simpl; auto.
  - by eapply (indexed_drop _ index_clash_sym t (d_book d)).
  - apply indexed_commit; auto using index_clash_sym.
  - unfold stmt_lock in E. repeat case_match; by simplify_eq.
  - by apply lift_done in E as (x & _ & ->).
  - apply lift_done in E as (x & E & ->). eapply indexed_update; eauto using index_clash_sym.
    intros. apply inactive_clash. by left.
  - apply lift_done in E as (x & E & ->). eapply indexed_update; eauto using index_clash_sym.
    intros. apply inactive_clash. by right.
  - apply lift_done in E as (x & E & ->). eapply indexed_insert; eauto using index_clash_sym.
    + by eapply owned_fresh.
    + by eapply owned_fresh.
  - by apply lift_done in E as (x & _ & ->).
Qed.

(** One committed row replaced, everything else as it was. *)
Record row_set (id : Z) (r : brow) (d d' : db) : Prop := {
  rs_com : t_com (d_book d') = <[id := r]> (t_com (d_book d));
  rs_pend : t_pend (d_book d') = t_pend (d_book d);
  rs_free : t_pend (d_book d) !! id = None;
  rs_keys : d_keys d' = d_keys d;
  rs_locks : d_locks d' = d_locks d;
  rs_next : d_next d' = d_next d;
}.

Lemma update_row_spec t id P f d o d' :
  (∀ k v, t_pend (d_book d) !! k = Some v → v.1 ≠ t) → update_row t id P f d = Some (o, d') →
  match o with
  | Some r' => ∃ r, t_com (d_book d) !! id = Some r ∧ P r = true ∧ r' = f r ∧ row_set id r' d d'
  | None => t_com (d_book d') = t_com (d_book d) ∧ t_pend (d_book d') = t_pend (d_book d) ∧
            d_keys d' = d_keys d ∧ d_locks d' = d_locks d ∧ d_next d' = d_next d
  end.
Proof.
  intros Hn. unfold update_row. destruct (autocommit _ _ _) as [| |x] eqn:E; try done. intros [= <- <-].
  apply autocommit_update_spec in E as (Hc & Hp & Hm); [|done].
  assert (∀ k, k ≠ id → matched t (fun i r => (i =? id) && P r) (d_book d) !! k = None) as Hother.
  { intros k Hk. destruct (matched t _ _ !! k) eqn:E; [|done]. apply lookup_matched in E as [_ E]. zbool. done. }
  assert (t_pend x = t_pend (d_book d)) by (by apply map_eq).
  destruct (matched t _ (d_book d) !! id) as [r|] eqn:E; simpl.
  - destruct (Hm _ _ E) as (Hr & HP & Hnone). zbool. exists r. repeat split; try done. simpl.
    apply map_eq. intros k. rewrite Hc, lookup_insert. case_decide as Hk; [by subst; rewrite E|].
    by rewrite Hother.
  - split; [|done]. apply map_eq. intros k. rewrite Hc.
    destruct (decide (k = id)) as [->|Hk]; [by rewrite E | by rewrite Hother].
Qed.

(** What a one-statement transaction does. *)
Inductive small_effect (d d' : db) : Prop :=
| SE_none :
    t_com (d_book d') = t_com (d_book d) → t_pend (d_book d') = t_pend (d_book d) →
    d_keys d' = d_keys d → d_locks d' = d_locks d → d_next d' = d_next d → small_effect d d'
| SE_row id r r' :
    t_com (d_book d) !! id = Some r → is_held r = true →
    (r' = set_cancelled (default 0 (b_cancelled r')) r ∨ r' = set_confirmed (default 0 (b_confirmed r')) r) →
    row_set id r' d d' → small_effect d d'.

Lemma Confirm_effect t now f id buyer d res d' :
  (∀ k v, t_pend (d_book d) !! k = Some v → v.1 ≠ t) →
  ConfirmHold t now f id buyer d = Some (res, d') → small_effect d d'.
Proof.
  intros Hn. unfold ConfirmHold, round_trip.
  destruct (update_row _ _ _ _ _) as [[o d1]|] eqn:E.
  - apply update_row_spec in E; [|done].
    destruct f, o; intros; simplify_eq; try by apply SE_none.
    all: try (destruct E as (r & Hr & HP & -> & Hs); zbool; eapply SE_row; eauto; by right).
    all: destruct E as (?&?&?&?&?); by apply SE_none.
  - destruct f; intros; simplify_eq. by apply SE_none.
Qed.

Lemma Release_effect t now f id buyer d res d' :
  (∀ k v, t_pend (d_book d) !! k = Some v → v.1 ≠ t) →
  ReleaseHold t now f id buyer d = Some (res, d') → small_effect d d'.
Proof.
  intros Hn. unfold ReleaseHold, round_trip.
  destruct (update_row _ _ _ _ _) as [[o d1]|] eqn:E.
  - apply update_row_spec in E; [|done].
    destruct f, o; intros; simplify_eq; try by apply SE_none.
    all: try (destruct E as (r & Hr & HP & -> & Hs); zbool; eapply SE_row; eauto; by left).
    all: destruct E as (?&?&?&?&?); by apply SE_none.
  - destruct f; intros; simplify_eq. by apply SE_none.
Qed.

Lemma owned_small d d' cs :
  small_effect d d' → owned (mkSys d cs) → owned (mkSys d' cs).
Proof.
  intros E [On Oc Op Ob Ok' Ol]. unfold bcom, bpend, kpend in *. simpl in *.
  destruct E as [Ec Ep Ek El En | id r r' Hr _ _ [Ec Ep _ Ek El En]];
    split; unfold bcom, bpend, kpend; simpl; rewrite ?Ec, ?Ep, ?Ek, ?El, ?En; eauto.
  intros i r0. rewrite lookup_insert. case_decide; intros; simplify_eq; eauto.
Qed.

Lemma indexed_small d d' :
  small_effect d d' → indexed index_clash (d_book d) → indexed index_clash (d_book d').
Proof.
  intros [Ec Ep _ _ _ | id r r' Hr Hh Hr' [Ec Ep Hnone _ _ _]] HI.
  - destruct HI. split; rewrite ?Ec, ?Ep; eauto.
  - eapply indexed_set; eauto using index_clash_sym. intros b. unfold is_held in Hh. zbool.
    destruct Hr' as [-> | ->]; [by rewrite inactive_clash by auto|].
    rewrite !index_clash_true. intros [(_ & Hb & Hs)|(Hb & _)]; [|done]. left.
    split; [|done]. unfold is_active. by rewrite Hh.
Qed.

(** ** Provenance of rows, keys and results *)

Definition same_params (r : brow) (m st b : string) : Prop := b_match r = m ∧ b_seat r = st ∧ b_buyer r = b.

Record traced (s : sys) : Prop := {
  (* bookings are never deleted and keep match, seat and buyer *)
  tr_live : ∀ i t v, bpend s !! i = Some (t, v) → ∃ r, v = Some r;
  tr_params : ∀ i t r r', bpend s !! i = Some (t, Some r) → bcom s !! i = Some r' →
                same_params r (b_match r') (b_seat r') (b_buyer r');
  (* after its insert a call owns the new row *)
  tr_mine : ∀ t a now stale r, s_calls s !! t = Some (a, PTx now stale (SKey r)) ∨
                               s_calls s !! t = Some (a, PTx now stale (SCommit r)) →
              bpend s !! r_ID r = Some (t, Some (new_row now a)) ∧ r = row_of (r_ID r) (new_row now a);
  (* a result names a committed booking of the requested seat *)
  tr_done : ∀ t a r, s_calls s !! t = Some (a, PDone (Ok r)) →
              (∃ row, bcom s !! r_ID r = Some row ∧ same_params row (a_match a) (a_seat a) (a_buyer a)) ∧
              r_MatchID r = a_match a ∧ r_SeatID r = a_seat a ∧ r_BuyerID r = a_buyer a;
  (* recorded keys refer to bookings *)
  tr_key : ∀ k id, kcom s !! k = Some id → is_Some (bcom s !! id);
  tr_keyp : ∀ k t id, kpend s !! k = Some (t, Some id) → ∃ v, bpend s !! id = Some (t, v);
}.

(** A statement of an open transaction of [t]. *)
Lemma traced_write t a now stale st d d' cs :
  t_com (d_book d') = t_com (d_book d) → t_com (d_keys d') = t_com (d_keys d) →
  (∀ i v, t_pend (d_book d') !! i = Some v → t_pend (d_book d) !! i = Some v ∨
     (v.1 = t ∧ ∃ r, v.2 = Some r ∧
      ∀ r', t_com (d_book d) !! i = Some r' → same_params r (b_match r') (b_seat r') (b_buyer r'))) →
  (∀ i t' v, t_pend (d_book d) !! i = Some (t', v) →
     if decide (t' = t) then ∃ v', t_pend (d_book d') !! i = Some (t, v')
     else t_pend (d_book d') !! i = Some (t', v)) →
  (∀ k t' id, t_pend (d_keys d') !! k = Some (t', Some id) → t_pend (d_keys d) !! k = Some (t', Some id) ∨
     (t' = t ∧ ∃ v, t_pend (d_book d') !! id = Some (t, v))) →
  (∀ r, st = SKey r ∨ st = SCommit r →
     t_pend (d_book d') !! r_ID r = Some (t, Some (new_row now a)) ∧ r = row_of (r_ID r) (new_row now a)) →
  traced (mkSys d cs) → traced (mkSys d' (<[t := (a, PTx now stale st)]> cs)).
Proof.
  intros Ec Ek Hb Hkeep Hkey Hmine [T1 T2 T3 T4 T5 T6].
  unfold bpend, bcom, kpend, kcom in *. simpl in *.
  split; unfold bpend, bcom, kpend, kcom; simpl; rewrite ?Ec, ?Ek; eauto.
  - intros i t' v [Hi|(_ & r & Hr & _)]%Hb; eauto.
  - intros i t' r r' [Hi|(_ & r1 & Hr & Hp)]%Hb; [eauto|]. simpl in Hr. simplify_eq. eauto.
  - intros t' a' now' stale' r. rewrite lookup_insert. case_decide as Ht.
    + subst t'. intros [?|?]; simplify_eq; auto.
    + intros Hr. apply T3 in Hr as [Hr ->]. apply Hkeep in Hr. by rewrite decide_False in Hr.
  - intros t' a' r. rewrite lookup_insert. case_decide; intros; simplify_eq; eauto.
  - intros k t' id [Hi|[-> Hv]]%Hkey; [|done].
    apply T6 in Hi as [v Hv]. pose proof (Hkeep _ _ _ Hv) as Hv'. case_decide; subst; eauto.
Qed.

Lemma update_keeps t P f (x x' : TB) i t' v :
  stmt_update t P f x = Done x' → t_pend x !! i = Some (t', v) →
  if decide (t' = t) then ∃ v', t_pend x' !! i = Some (t, v') else t_pend x' !! i = Some (t', v).
Proof.
  intros [_ Hp]%stmt_update_spec Hi. rewrite (proj1 (Hp i)).
  destruct (matched t P x !! i) as [r|] eqn:E.
  - assert (locked t x i = false) as Hl by (apply (Hp i); rewrite E; eauto).
    apply locked_false with (t' := t') (v := v) in Hl; [|done]. rewrite decide_True by done. eauto.
  - rewrite Hi. case_decide; subst; eauto.
Qed.

Lemma update_traced t a now stale st P f d x cs :
  (∀ r, same_params (f r) (b_match r) (b_seat r) (b_buyer r)) → (∀ r, st ≠ SKey r ∧ st ≠ SCommit r) →
  stmt_update t P f (d_book d) = Done x →
  traced (mkSys d cs) → traced (mkSys (with_book x d) (<[t := (a, PTx now stale st)]> cs)).
Proof.
  intros Hf Hst E HT. pose proof (stmt_update_spec _ _ _ _ _ E) as [Hc _].
  apply (traced_write t a now stale st d); simpl; auto.
  - intros i v Hv. destruct (update_pend _ _ _ _ _ _ _ E Hv) as [(Hv1 & r & Hr & _ & Hv2)|]; [right|by left].
    split; [done|]. exists (f r). split; [done|]. intros r' Hr'.
    apply tview_cases in Hr as [Hr|Hr]; [simplify_eq; apply Hf|].
    pose proof (tr_params _ HT _ _ _ _ Hr Hr') as (<-&<-&<-). apply Hf.
  - intros i t' v. by eapply update_keeps.
  - intros r [Hr|Hr]; by destruct (Hst r).
Qed.

Lemma lookup_live now a d r :
  lookupIdempotentHold now a d = (Some r, idemLive) →
  ∃ row, t_com (d_keys d) !! a_key a = Some (r_ID r) ∧ t_com (d_book d) !! r_ID r = Some row ∧
    same_params row (a_match a) (a_seat a) (a_buyer a) ∧ r = row_of (r_ID r) row ∧
    (b_status row = Confirmed ∨ (b_status row = Held ∧ expires_after row now = true)).
Proof.
  unfold lookupIdempotentHold. destruct (t_com (d_keys d) !! a_key a) as [id|] eqn:Ek; simpl; [|done].
  destruct (t_com (d_book d) !! id) as [row|] eqn:Er; simpl; [|done].
  repeat case_match; intros; simplify_eq. exists row. simpl. zbool.
  repeat split; try done. apply orb_true_iff in H0 as [?|?]; zbool; [by left|].
  right. unfold is_held in *. zbool. done.
Qed.

(** A call leaves its transaction without commit. *)
Lemma traced_rollback t a p' d d' cs :
  t_com (d_book d') = t_com (d_book d) →
  (∀ k v, t_pend (d_book d') !! k = Some v ↔ t_pend (d_book d) !! k = Some v ∧ v.1 ≠ t) →
  t_com (d_keys d') = t_com (d_keys d) →
  (∀ k v, t_pend (d_keys d') !! k = Some v ↔ t_pend (d_keys d) !! k = Some v ∧ v.1 ≠ t) →
  (p' = PReplay ∨ ∃ e, p' = PDone (Err e)) →
  traced (mkSys d cs) → traced (mkSys d' (<[t := (a, p')]> cs)).
Proof.
  intros Ec Pb Ek Pk Hp [T1 T2 T3 T4 T5 T6]. unfold bpend, bcom, kpend, kcom in *. simpl in *.
  split; unfold bpend, bcom, kpend, kcom; simpl; rewrite ?Ec, ?Ek; eauto.
  - intros i t' v [Hi _]%Pb. eauto.
  - intros i t' r r' [Hi _]%Pb. eauto.
  - intros t' a' now' stale' r. rewrite lookup_insert. case_decide as Ht.
    + destruct Hp as [->|[e ->]]; intros [?|?]; simplify_eq.
    + intros Hr. apply T3 in Hr as [Hr ->]. split; [|done]. by apply Pb.
  - intros t' a' r. rewrite lookup_insert. case_decide as Ht; [|eauto].
    destruct Hp as [->|[e ->]]; intros; simplify_eq.
  - intros k t' id [Hi Hne]%Pk. apply T6 in Hi as [v Hv]. exists v. by apply Pb.
Qed.

Lemma commit_com_is_Some t (x : TB) i r :
  (∀ i t v, t_pend x !! i = Some (t, v) → ∃ r, v = Some r) →
  (∀ i t r r', t_pend x !! i = Some (t, Some r) → t_com x !! i = Some r' →
     same_params r (b_match r') (b_seat r') (b_buyer r')) →
  t_com x !! i = Some r →
  ∃ r', t_com (t_commit t x) !! i = Some r' ∧ same_params r' (b_match r) (b_seat r) (b_buyer r).
Proof.
  intros Hl Hp Hi. rewrite com_commit. unfold settle. destruct (t_pend x !! i) as [[t' v]|] eqn:E.
  - case_decide; [|by exists r; rewrite Hi].
    destruct (Hl _ _ _ E) as [r' ->]. exists r'. split; [done|]. eauto.
  - by exists r; rewrite Hi.
Qed.

Lemma traced_commit t a now stale r p' d cs :
  cs !! t = Some (a, PTx now stale (SCommit r)) → (p' = PDone (Ok r) ∨ ∃ e, p' = PDone (Err e)) →
  traced (mkSys d cs) → traced (mkSys (tx_commit t d) (<[t := (a, p')]> cs)).
Proof.
  intros Ht Hp [T1 T2 T3 T4 T5 T6]. unfold bpend, bcom, kpend, kcom in *. simpl in *.
  destruct (T3 t a now stale r (or_intror Ht)) as [Hmine Hr].
  assert (∀ i row m st b, t_com (d_book d) !! i = Some row → same_params row m st b →
    ∃ row', t_com (t_commit t (d_book d)) !! i = Some row' ∧ same_params row' m st b) as Hkeep.
  { intros i row m st b Hi (<-&<-&<-). by eapply commit_com_is_Some. }
  split; unfold bpend, bcom, kpend, kcom; simpl.
  - intros i t' v [Hi _]%pend_commit. eauto.
  - intros i t' r1 r2 [Hi Hne]%pend_commit. rewrite com_commit, Hi. simpl in *.
    rewrite decide_False by done. eauto.
  - intros t' a' now' stale' r1. rewrite lookup_insert. case_decide as Htt.
    + destruct Hp as [->|[e ->]]; intros [?|?]; simplify_eq.
    + intros Hr1. apply T3 in Hr1 as [Hr1 ->]. split; [|done]. by apply pend_commit.
  - intros t' a' r1. rewrite lookup_insert. case_decide as Htt.
    + destruct Hp as [->|[e ->]]; intros; simplify_eq. rewrite Hr. simpl. split; [|done].
      exists (new_row now a'). rewrite com_commit, Hmine. simpl. by rewrite decide_True.
    + intros Hd. apply T4 in Hd as [(row & Hrow & Hpar) ?]. split; [|done]. eauto.
  - intros k id. rewrite com_commit. unfold settle. intros Hk.
    assert (is_Some (t_com (d_book d) !! id) ∨ ∃ v, t_pend (d_book d) !! id = Some (t, v)) as [[row Hrow]|[v Hv]].
    { destruct (t_pend (d_keys d) !! k) as [[t' v]|] eqn:E; [|left; eauto].
      case_decide; [|left; eauto]. subst. right. eauto. }
    + destruct (Hkeep id row _ _ _ Hrow (conj eq_refl (conj eq_refl eq_refl))) as (row' & ? & _). eauto.
    + rewrite com_commit, Hv. simpl. rewrite decide_True by done. by destruct (T1 _ _ _ Hv) as [r1 ->].
  - intros k t' id [Hi Hne]%pend_commit. apply T6 in Hi as [v Hv]. exists v. by apply pend_commit.
Qed.

(** Reads outside a transaction. *)
Lemma traced_read t a p' d cs :
  (∀ r, p' = PDone (Ok r) → ∃ now, lookupIdempotentHold now a d = (Some r, idemLive)) →
  (∀ now stale s, p' = PTx now stale s → s = SLock) →
  traced (mkSys d cs) → traced (mkSys d (<[t := (a, p')]> cs)).
Proof.
  intros Hok Hlk [T1 T2 T3 T4 T5 T6].
  split; simpl; auto; intros t' a'; [intros now stale r|intros r]; rewrite lookup_insert; case_decide; eauto.
  - intros [?|?]; simplify_eq; by specialize (Hlk _ _ _ eq_refl).
  - intros ?; simplify_eq. destruct (Hok _ eq_refl) as [now Hl].
    apply lookup_live in Hl as (row & _ & Hrow & Hpar & Hr & _). split; [by exists row|].
    destruct Hpar as (<-&<-&<-). by rewrite Hr.
Qed.

Lemma traced_effect t a p p' d d' cs :
  cs !! t = Some (a, p) → owned (mkSys d cs) → effect t a d p p' d' →
  traced (mkSys d cs) → traced (mkSys d' (<[t := (a, p')]> cs)).
Proof.
  intros Ht HO E HT.
  destruct E as [p p' Hp Hok Hlk|now stale s p' d' Eb Pb Ek Pk El En Hp|now stale r p' Hp|now stale s' d' E Hs
    |now stale d' E|now stale d' E|now stale d' E|now stale s' d' E Hs|now stale r d' E].
  - by eapply traced_read.
  - by eapply traced_rollback.
  - by eapply traced_commit.
  - apply stmt_lock_spec in E as (Eb & Ek & _).
    apply (traced_write t a now stale s' d); rewrite ?Eb, ?Ek; auto.
    + intros i t' v Hi. case_decide; subst; eauto.
    + intros r [?|?]; simplify_eq; case_match; simplify_eq.
  - apply lift_done in E as (x & [Hc Hpd]%stmt_delete_spec & ->).
    apply (traced_write t a now stale SCancel d); simpl; auto.
    + intros i t' v Hi. case_decide; subst; eauto.
    + intros k t' id. rewrite (proj1 (Hpd k)). case_match; intros; simplify_eq; auto.
    + by intros r [?|?].
  - apply lift_done in E as (x & E & ->). eapply update_traced; eauto; done.
  - apply lift_done in E as (x & E & ->). eapply update_traced; eauto; done.
  - apply lift_done in E as (x & (Hc & Hpi & _)%stmt_insert_spec & ->).
    assert (t_pend (d_book d) !! d_next d = None ∧ t_com (d_book d) !! d_next d = None) as [Hf1 Hf2]
      by (by eapply owned_fresh).
    apply (traced_write t a now stale s' d); simpl; auto.
    + intros i v. rewrite Hpi. destruct (decide (d_next d = i)) as [Hi|_]; [subst i; intros [= <-]; right | auto].
      split; [done|]. exists (new_row now a). rewrite Hf2. by split.
    + intros i t' v Hi. rewrite Hpi. destruct (decide (d_next d = i)) as [<-|_]; [congruence|]. destruct (decide (t' = t)); subst; eauto.
    + intros r Hr. subst s'. simpl in Hr. destruct (bool_decide _), Hr; simplify_eq; simpl; by rewrite Hpi, decide_True.
  - apply lift_done in E as (x & (Hc & Hpi & _)%stmt_insert_spec & ->).
    destruct (tr_mine _ HT t a now stale r (or_introl Ht)) as [Hm Hr].
    apply (traced_write t a now stale (SCommit r) d); simpl; auto.
    + intros i t' v Hi. case_decide; subst; eauto.
    + intros k t' id. rewrite Hpi. case_decide; intros; simplify_eq; eauto.
    + intros r' [?|?]; simplify_eq. auto.
Qed.

Lemma traced_small d d' cs : small_effect d d' → traced (mkSys d cs) → traced (mkSys d' cs).
Proof.
  intros E [T1 T2 T3 T4 T5 T6]. unfold bpend, bcom, kpend, kcom in *. simpl in *.
  destruct E as [Ec Ep Ek _ _ | id r r' Hr _ Hr' [Ec Ep Hf Ek _ _]];
    split; unfold bpend, bcom, kpend, kcom; simpl; rewrite ?Ec, ?Ep, ?Ek; eauto.
  - intros i t r1 r2 Hi. rewrite lookup_insert. case_decide; intros; simplify_eq; eauto.
  - intros t a r1 (( row & Hrow & Hpar) & ?)%T4. split; [|done]. rewrite lookup_insert.
    case_decide; [|eauto]. subst. exists r'. split; [done|]. simplify_eq. by destruct Hr' as [-> | ->].
  - intros k i Hk%T5. rewrite lookup_insert. case_decide; eauto.
Qed.

(** ** The advisory lock *)

(** A transaction past its first statement holds the lock of its buyer and match;
held rows are written only under that lock; after the cancellation the buyer has
no hold on another seat of the match. *)
Record locking (s : sys) : Prop := {
  lk_own : ∀ t a now stale st, s_calls s !! t = Some (a, PTx now stale st) → st ≠ SLock →
             d_locks (s_db s) !! hash (a_match a) (a_buyer a) = Some t;
  lk_held : ∀ i t r, bpend s !! i = Some (t, Some r) → is_held r = true →
              ∃ a now stale st, s_calls s !! t = Some (a, PTx now stale st) ∧ st ≠ SLock ∧
                b_match r = a_match a ∧ b_buyer r = a_buyer a;
  lk_only : ∀ t a now stale st, s_calls s !! t = Some (a, PTx now stale st) → st = SExpire ∨ st = SInsert →
              ∀ i r, tview t (d_book (s_db s)) !! i = Some r → is_held r = true →
                b_match r = a_match a → b_buyer r = a_buyer a → b_seat r = a_seat a;
}.

(** Statements and the end of another transaction do not change what [t'] sees. *)
Lemma tview_other t t' (x x' : TB) :
  t' ≠ t → t_com x' = t_com x →
  (∀ i, t_pend x' !! i = t_pend x !! i ∨
        ((∀ v, t_pend x !! i = Some v → v.1 = t) ∧ (∀ v, t_pend x' !! i = Some v → v.1 = t))) →
  tview t' x' = tview t' x.
Proof.
  intros Hne Hc Hp. apply map_eq. intros i. rewrite !lookup_tview, Hc. unfold settle.
  destruct (Hp i) as [->|[H1 H2]]; [done|].
  destruct (t_pend x' !! i) as [[t1 v1]|] eqn:E1; [pose proof (H2 _ eq_refl); simpl in *; subst|];
    (destruct (t_pend x !! i) as [[t2 v2]|] eqn:E2; [pose proof (H1 _ eq_refl); simpl in *; subst|]);
    rewrite ?decide_False by done; done.
Qed.

(** A statement of [t] as seen by the others. *)
Lemma update_tview_other t t' P f (x x' : TB) :
  t' ≠ t → stmt_update t P f x = Done x' → tview t' x' = tview t' x.
Proof.
  intros Hne [Hc Hp]%stmt_update_spec. apply (tview_other t); try done. intros i.
  destruct (Hp i) as [-> Hl]. destruct (matched t P x !! i) eqn:E; [right|by left].
  split; [|by intros v [= <-]]. intros [t2 v] Hi. by eapply (proj1 (locked_false t x i)); eauto.
Qed.

(** A statement of [t] that writes no held row, or only of its buyer and match. *)
Lemma locking_write t a now stale st st' d d' cs :
  cs !! t = Some (a, PTx now stale st) → st' ≠ SLock →
  (∀ h t', d_locks d !! h = Some t' → d_locks d' !! h = Some t') →
  d_locks d' !! hash (a_match a) (a_buyer a) = Some t →
  (∀ i v, t_pend (d_book d') !! i = Some v → t_pend (d_book d) !! i = Some v ∨
     (v.1 = t ∧ ∀ r, v.2 = Some r → is_held r = true → b_match r = a_match a ∧ b_buyer r = a_buyer a)) →
  (∀ t', t' ≠ t → tview t' (d_book d') = tview t' (d_book d)) →
  (st' = SExpire ∨ st' = SInsert → ∀ i r, tview t (d_book d') !! i = Some r → is_held r = true →
                b_match r = a_match a → b_buyer r = a_buyer a → b_seat r = a_seat a) →
  locking (mkSys d cs) → locking (mkSys d' (<[t := (a, PTx now stale st')]> cs)).
Proof.
  intros Ht Hst Hl Hown Hb Hv Honly [L1 L2 L3]. unfold bpend in *. simpl in *.
  split; unfold bpend; simpl.
  - intros t' a' now' stale' s1. rewrite lookup_insert. case_decide; intros; simplify_eq; eauto.
  - intros i t' r Hi Hh. apply Hb in Hi as [Hi|[Ht' Hr]].
    + destruct (L2 _ _ _ Hi Hh) as (a' & now' & stale' & s1 & Hc & ?).
      destruct (decide (t' = t)) as [->|Hne]; [|rewrite lookup_insert_ne by done; eauto 10].
      rewrite lookup_insert_eq. simplify_eq. naive_solver.
    + simpl in Ht'. subst t'. rewrite lookup_insert_eq. exists a, now, stale, st'. destruct (Hr r); auto.
  - intros t' a' now' stale' s1. rewrite lookup_insert. case_decide as Hd.
    + intros ?; simplify_eq. auto.
    + rewrite Hv by done. eauto.
Qed.

(** The end of a transaction of [t], whose effect on the others is [Hv]. *)
Lemma locking_end t a p' d d' cs :
  (∀ now stale st, p' ≠ PTx now stale st) →
  (∀ k v, t_pend (d_book d') !! k = Some v ↔ t_pend (d_book d) !! k = Some v ∧ v.1 ≠ t) →
  d_locks d' = drop_locks t (d_locks d) →
  (∀ t' a' now stale st, t' ≠ t → cs !! t' = Some (a', PTx now stale st) → st = SExpire ∨ st = SInsert →
    ∀ i r, tview t' (d_book d') !! i = Some r → is_held r = true →
      b_match r = a_match a' → b_buyer r = a_buyer a' →
      tview t' (d_book d) !! i = Some r ∨ b_seat r = a_seat a') →
  locking (mkSys d cs) → locking (mkSys d' (<[t := (a, p')]> cs)).
Proof.
  intros Hp Pb El Hv [L1 L2 L3]. unfold bpend in *. simpl in *.
  split; unfold bpend; simpl.
  - intros t' a' now' stale' s1. rewrite lookup_insert. case_decide as Hd.
    + intros ?; simplify_eq. by destruct (Hp now' stale' s1).
    + intros Ht' Hs. rewrite El. apply drop_locks_Some. eauto.
  - intros i t' r [Hi Hne]%Pb Hh. destruct (L2 _ _ _ Hi Hh) as (a' & now' & stale' & s1 & Hc & ?).
    simpl in Hne. rewrite lookup_insert_ne by done. eauto 10.
  - intros t' a' now' stale' s1. rewrite lookup_insert. case_decide as Hd.
    + intros ?; simplify_eq. by destruct (Hp now' stale' s1).
    + intros Ht' Hs i r Hi Hh Hm Hb.
      destruct (Hv _ _ _ _ _ (not_eq_sym Hd) Ht' Hs _ _ Hi Hh Hm Hb) as [Hi'|]; [|done]. eauto.
Qed.

Lemma drop_tview_other t t' (x x' : TB) :
  t' ≠ t → t_com x' = t_com x →
  (∀ k v, t_pend x' !! k = Some v ↔ t_pend x !! k = Some v ∧ v.1 ≠ t) → tview t' x' = tview t' x.
Proof.
  intros Hne Hc Hp. apply (tview_other t); try done. intros i.
  destruct (t_pend x !! i) as [v|] eqn:E.
  - destruct (decide (v.1 = t)) as [Hv|Hv]; [right|left; by apply Hp].
    split; [by intros ? [= <-]|]. intros v' [Hv' Hne']%Hp. simplify_eq.
  - left. apply eq_None_not_Some. intros [v [Hv _]%Hp]. congruence.
Qed.

Lemma locking_commit t a now stale r p' d cs :
  cs !! t = Some (a, PTx now stale (SCommit r)) → (∀ now stale st, p' ≠ PTx now stale st) →
  locking (mkSys d cs) → locking (mkSys (tx_commit t d) (<[t := (a, p')]> cs)).
Proof.
  intros Ht Hp HL. pose proof HL as [L1 L2 L3]. unfold bpend in *. simpl in *.
  apply (locking_end t a p' d); auto; simpl; [intros; apply pend_commit|].
  intros t' a' now' stale' st Hne Ht' Hst i r0. rewrite !lookup_tview, com_commit.
  destruct (t_pend (d_book d) !! i) as [[t2 v]|] eqn:E.
  - destruct (decide (t2 = t)) as [->|Hne2].
    + assert (t_pend (t_commit t (d_book d)) !! i = None) as ->.
      { apply pend_commit_none. rewrite E. by intros ? [= <-]. }
      simpl. rewrite decide_True by done. intros -> Hh Hm Hb.
      destruct (L2 _ _ _ E Hh) as (a2 & now2 & stale2 & s2 & Hc2 & Hs2 & Hm2 & Hb2).
      pose proof (L1 _ _ _ _ _ Hc2 Hs2) as Hl2.
      assert (d_locks d !! hash (a_match a') (a_buyer a') = Some t') as Hl1
        by (apply (L1 _ _ _ _ _ Ht'); destruct Hst; by subst).
      rewrite <- Hm, <- Hb, Hm2, Hb2 in Hl1. congruence.
    + assert (t_pend (t_commit t (d_book d)) !! i = Some (t2, v)) as -> by (by apply pend_commit).
      simpl. rewrite (decide_False (P := t2 = t)) by done. auto.
  - assert (t_pend (t_commit t (d_book d)) !! i = None) as -> by (apply pend_commit_none; by rewrite E).
    simpl. auto.
Qed.

(** The statements UPDATE of a call: the rows they write are no longer held. *)
Lemma update_locking t a now stale st st' P f d x cs :
  cs !! t = Some (a, PTx now stale st) → st ≠ SLock → st' ≠ SLock → (∀ r, is_held (f r) = false) →
  stmt_update t P f (d_book d) = Done x →
  (st' = SExpire ∨ st' = SInsert → ∀ i r, tview t (d_book d) !! i = Some r → P i r = false → is_held r = true →
                b_match r = a_match a → b_buyer r = a_buyer a → b_seat r = a_seat a) →
  locking (mkSys d cs) → locking (mkSys (with_book x d) (<[t := (a, PTx now stale st')]> cs)).
Proof.
  intros Ht Hst Hst' Hf E Honly HL.
  apply (locking_write t a now stale st st' d); simpl; auto.
  - by eapply (lk_own _ HL).
  - intros i v Hv. destruct (update_pend _ _ _ _ _ _ _ E Hv) as [(Hv1 & r & Hr & _ & Hv2)|]; [right|by left].
    split; [done|]. rewrite Hv2. intros r0 [= <-]. by rewrite Hf.
  - intros t' Hne. by eapply update_tview_other.
  - intros Hs i r Hi Hh. pose proof E as [Hc Hp]%stmt_update_spec.
    rewrite lookup_tview, Hc, (proj1 (Hp i)) in Hi.
    destruct (matched t P (d_book d) !! i) as [r0|] eqn:Em.
    + simpl in Hi. rewrite decide_True in Hi by done. simplify_eq. by rewrite Hf in Hh.
    + rewrite <- lookup_tview in Hi. apply Honly with (i := i); try done.
      destruct (P i r) eqn:EP; [|done].
      assert (matched t P (d_book d) !! i = Some r) by (by apply lookup_matched). congruence.
Qed.

Lemma locking_read t a p p' d cs :
  cs !! t = Some (a, p) ∨ cs !! t = None → (∀ now stale s, p ≠ PTx now stale s) →
  (∀ now stale s, p' = PTx now stale s → s = SLock) →
  locking (mkSys d cs) → locking (mkSys d (<[t := (a, p')]> cs)).
Proof.
  intros Ht Hp Hlk [L1 L2 L3]. unfold bpend in *. simpl in *. split; unfold bpend; simpl.
  - intros t' a' now' stale' s1. rewrite lookup_insert. case_decide; [|eauto].
    intros ? Hs; simplify_eq. by destruct Hs; eapply Hlk.
  - intros i t' r Hi Hh. destruct (L2 _ _ _ Hi Hh) as (a' & now' & stale' & s1 & Hc & ?).
    rewrite lookup_insert_ne; [eauto 10|]. intros <-.
    destruct Ht as [Ht|Ht]; simplify_eq. by destruct (Hp now' stale' s1).
  - intros t' a' now' stale' s1. rewrite lookup_insert. case_decide; [|eauto].
    intros ? Hs; simplify_eq. specialize (Hlk _ _ _ eq_refl) as ->. by destruct Hs.
Qed.

Lemma insert_locking t a now stale s' d d' cs :
  cs !! t = Some (a, PTx now stale SInsert) → owned (mkSys d cs) → stmt_book t now a d = Done d' →
  (∃ r, s' = SKey r ∨ s' = SCommit r) →
  locking (mkSys d cs) → locking (mkSys d' (<[t := (a, PTx now stale s')]> cs)).
Proof.
  intros Ht HO E [r Hs] HL. apply lift_done in E as (x & (Hc & Hpi & _)%stmt_insert_spec & ->).
  pose proof (owned_fresh _ _ HO) as [Hf1 Hf2].
  apply (locking_write t a now stale SInsert s' d); simpl; auto.
  - by destruct Hs; subst.
  - by eapply (lk_own _ HL).
  - intros i v. rewrite Hpi. case_decide; [|auto]. intros [= <-]. right. split; [done|]. by intros r0 [= <-].
  - intros t' Hne. apply (tview_other t); try done. intros i. rewrite Hpi. case_decide; [right|by left].
    subst. rewrite Hf1. split; [done|]. by intros v [= <-].
  - intros [?|?]; destruct Hs; by subst.
Qed.

Lemma locking_effect t a p p' d d' cs :
  cs !! t = Some (a, p) → owned (mkSys d cs) → effect t a d p p' d' →
  locking (mkSys d cs) → locking (mkSys d' (<[t := (a, p')]> cs)).
Proof.
  intros Ht HO E HL.
  destruct E as [p p' Hp _ Hlk|now stale s p' d' Eb Pb Ek Pk El En Hp|now stale r p' Hp|now stale s' d' E Hs
    |now stale d' E|now stale d' E|now stale d' E|now stale s' d' E Hs|now stale r d' E].
  - by eapply locking_read; eauto.
  - apply (locking_end t a p' d); auto; [by destruct Hp as [->|[? ->]]|].
    intros t' a' now' stale' st Hne _ _ i r Hi _ _ _. left. by rewrite <- (drop_tview_other t t' (d_book d) (d_book d')).
  - eapply locking_commit; eauto. by destruct Hp as [->|[? ->]].
  - apply stmt_lock_spec in E as (Eb & _ & _ & El & Hfree).
    apply (locking_write t a now stale SLock s' d); rewrite ?Eb; auto.
    + rewrite Hs. by case_match.
    + intros h t' Hh. rewrite El. case_decide; [|done]. subst h. by rewrite (Hfree _ Hh).
    + rewrite El. by rewrite decide_True.
    + intros [?|?]; subst; case_match; simplify_eq.
  - apply lift_done in E as (x & _ & ->).
    apply (locking_write t a now stale SClear SCancel d); simpl; auto; try done; [by eapply (lk_own _ HL)|].
    by intros [?|?].
  - apply lift_done in E as (x & E & ->). eapply update_locking; eauto; [done|].
    intros _ i r _ HP Hh Hm Hb. unfold replaced in HP. rewrite Hm, Hb, Hh, !bool_decide_eq_true_2 in HP by done. simpl in HP. by zbool.
  - apply lift_done in E as (x & E & ->). eapply update_locking; eauto; [done|].
    intros _ i r Hi _. eapply (lk_only _ HL); eauto.
  - eapply insert_locking; eauto. subst s'. simpl. case_match; eauto.
  - apply lift_done in E as (x & _ & ->).
    apply (locking_write t a now stale (SKey r) (SCommit r) d); simpl; auto; try done; [by eapply (lk_own _ HL)|].
    by intros [?|?].
Qed.

Lemma locking_small d d' cs : small_effect d d' → locking (mkSys d cs) → locking (mkSys d' cs).
Proof.
  intros E [L1 L2 L3]. unfold bpend in *. simpl in *.
  destruct E as [Ec Ep Ek El _ | id r r' Hr _ Hr' [Ec Ep Hf Ek El _]];
    split; unfold bpend; simpl; rewrite ?Ec, ?Ep, ?El; eauto.
  - intros t a now stale st Ht Hst i r. rewrite lookup_tview, Ec, Ep, <- lookup_tview. eauto.
  - intros t a now stale st Ht Hst i r0. rewrite lookup_tview, Ec, Ep, lookup_insert. case_decide.
    + subst. rewrite Hf. simpl. intros [= <-]. by destruct Hr' as [-> | ->].
    + rewrite <- lookup_tview. eauto.
Qed.

(** ** What an open transaction has written *)

(** The version [r'] that a call with arguments [a] has written over the committed
row [c]: its own booking, a hold of the buyer on another seat, cancelled, or a
lapsed hold on the seat, expired. *)
Definition written (a : hold_args) (now : Z) (c : option brow) (r' : brow) : Prop :=
  match c with
  | None => r' = new_row now a
  | Some r => is_held r = true ∧ b_match r = a_match a ∧
      ((r' = set_cancelled now r ∧ b_buyer r = a_buyer a ∧ b_seat r ≠ a_seat a) ∨
       (r' = set_expired r ∧ b_seat r = a_seat a ∧ expires_before r now = true))
  end.

(** The stages after the insert of the booking. *)
Definition booked (st : stage) : bool := match st with SKey _ | SCommit _ => true | _ => false end.

Record scripted (s : sys) : Prop := {
  sc_row : ∀ i t r', bpend s !! i = Some (t, Some r') →
    ∃ a now stale st, s_calls s !! t = Some (a, PTx now stale st) ∧ written a now (bcom s !! i) r' ∧
      (bcom s !! i = None → booked st = true);
  sc_key : ∀ k t v, kpend s !! k = Some (t, v) →
    ∃ a now stale st, s_calls s !! t = Some (a, PTx now stale st) ∧ k = a_key a;
  sc_commit : ∀ t a now stale r, s_calls s !! t = Some (a, PTx now stale (SCommit r)) → a_key a ≠ "" →
    kpend s !! a_key a = Some (t, Some (r_ID r));
}.

(** A statement of [t]. *)
Lemma scripted_write t a now stale st st' d d' cs :
  cs !! t = Some (a, PTx now stale st) → t_com (d_book d') = t_com (d_book d) →
  (∀ i t' r', t_pend (d_book d') !! i = Some (t', Some r') →
     t_pend (d_book d) !! i = Some (t', Some r') ∨ (t' = t ∧ written a now (t_com (d_book d) !! i) r' ∧ (t_com (d_book d) !! i = None → booked st' = true))) →
  (booked st = true → booked st' = true) →
  (∀ k t' v, t_pend (d_keys d') !! k = Some (t', v) →
     (∃ v', t_pend (d_keys d) !! k = Some (t', v')) ∨ (t' = t ∧ k = a_key a)) →
  (∀ k t' v, t' ≠ t → t_pend (d_keys d) !! k = Some (t', v) → t_pend (d_keys d') !! k = Some (t', v)) →
  (∀ r, st' = SCommit r → a_key a ≠ "" → t_pend (d_keys d') !! a_key a = Some (t, Some (r_ID r))) →
  scripted (mkSys d cs) → scripted (mkSys d' (<[t := (a, PTx now stale st')]> cs)).
Proof.
  intros Ht Ec Hb Hbk Hk Hkeep Hst' [S1 S2 S3]. unfold bpend, bcom, kpend in *. simpl in *.
  split; unfold bpend, bcom, kpend; simpl; rewrite ?Ec.
  - intros i t' r' Hi. apply Hb in Hi as [Hi|[-> Hw]]; [|by rewrite lookup_insert_eq; eauto 10].
    destruct (S1 _ _ _ Hi) as (a1 & now1 & stale1 & st1 & Hc & Hw & Hn). rewrite lookup_insert.
    case_decide; subst; simplify_eq; eauto 10.
  - intros k t' v Hi. apply Hk in Hi as [[v' Hi]|[-> Hw]]; [|by rewrite lookup_insert_eq; eauto 10].
    destruct (S2 _ _ _ Hi) as (a1 & now1 & stale1 & st1 & Hc & Hw). rewrite lookup_insert.
    case_decide; subst; simplify_eq; eauto 10.
  - intros t' a' now' stale' r. rewrite lookup_insert. case_decide; intros; simplify_eq; eauto.
Qed.

(** The end of a transaction: its versions are gone, and the committed rows under
the versions of the others are what they were. *)
Lemma scripted_end t a p' d d' cs :
  (∀ now stale st, p' ≠ PTx now stale st) →
  (∀ k v, t_pend (d_book d') !! k = Some v ↔ t_pend (d_book d) !! k = Some v ∧ v.1 ≠ t) →
  (∀ k v, t_pend (d_keys d') !! k = Some v ↔ t_pend (d_keys d) !! k = Some v ∧ v.1 ≠ t) →
  (∀ k t' v, t_pend (d_book d) !! k = Some (t', v) → t' ≠ t → t_com (d_book d') !! k = t_com (d_book d) !! k) →
  scripted (mkSys d cs) → scripted (mkSys d' (<[t := (a, p')]> cs)).
Proof.
  intros Hp Pb Pk Hc [S1 S2 S3]. unfold bpend, bcom, kpend in *. simpl in *.
  split; unfold bpend, bcom, kpend; simpl.
  - intros i t' r' [Hi Hne]%Pb. simpl in Hne. rewrite lookup_insert_ne by done.
    rewrite (Hc _ _ _ Hi Hne). eauto.
  - intros k t' v [Hi Hne]%Pk. simpl in Hne. rewrite lookup_insert_ne by done. eauto.
  - intros t' a' now' stale' r. rewrite lookup_insert. case_decide as Hd.
    + intros ?; simplify_eq. by destruct (Hp now' stale' (SCommit r)).
    + intros Ht' Hk. apply Pk. eauto.
Qed.

(** Reads outside a transaction, and new calls. *)
Lemma scripted_read t a p p' d cs :
  cs !! t = Some (a, p) ∨ cs !! t = None → (∀ now stale s, p ≠ PTx now stale s) →
  (∀ now stale s, p' = PTx now stale s → s = SLock) →
  scripted (mkSys d cs) → scripted (mkSys d (<[t := (a, p')]> cs)).
Proof.
  intros Ht Hp Hlk [S1 S2 S3]. unfold bpend, bcom, kpend in *. simpl in *.
  assert (∀ t' a1 now stale st, cs !! t' = Some (a1, PTx now stale st) → t' ≠ t) as Hne.
  { intros t' a1 now stale st Hc ->. destruct Ht as [Ht|Ht]; simplify_eq. by eapply Hp. }
  split; unfold bpend, bcom, kpend; simpl.
  - intros i t' r' Hi. destruct (S1 _ _ _ Hi) as (a1 & now1 & stale1 & st1 & Hc & Hw).
    rewrite lookup_insert_ne by (intros ->; by eapply Hne). eauto 10.
  - intros k t' v Hi. destruct (S2 _ _ _ Hi) as (a1 & now1 & stale1 & st1 & Hc & Hw).
    rewrite lookup_insert_ne by (intros ->; by eapply Hne). eauto 10.
  - intros t' a' now' stale' r. rewrite lookup_insert. case_decide; [|eauto].
    intros ?; simplify_eq. by specialize (Hlk _ _ _ eq_refl).
Qed.

Lemma update_scripted t a now stale st st' P f d x cs :
  cs !! t = Some (a, PTx now stale st) → booked st = false → booked st' = false →
  (∀ i r, P i r = true → is_held r = true ∧ written a now (Some r) (f r)) →
  stmt_update t P f (d_book d) = Done x →
  scripted (mkSys d cs) → scripted (mkSys (with_book x d) (<[t := (a, PTx now stale st')]> cs)).
Proof.
  intros Ht Hst Hst' HP E HS. pose proof E as [Hc _]%stmt_update_spec.
  apply (scripted_write t a now stale st st' d); simpl; eauto; [|congruence|].
  - intros i t' r' Hi. destruct (update_pend _ _ _ _ _ _ _ E Hi) as [(Hv1 & r & Hr & Hp & Hv2)|]; [right|by left].
    simpl in *. simplify_eq. split; [done|]. destruct (HP _ _ Hp) as [Hh Hw].
    apply tview_cases in Hr as [Hr|Hr]; [by rewrite Hr|].
    destruct (sc_row _ HS _ _ _ Hr) as (a1 & now1 & stale1 & st1 & Hc1 & Hw1 & Hn).
    simpl in *. unfold bcom in *. simpl in *. simplify_eq.
    destruct (t_com (d_book d) !! i) as [c|]; [|by rewrite Hn in Hst].
    destruct Hw1 as (_ & _ & [(-> & _)|(-> & _)]); done.
  - intros r ->. done.
Qed.

Lemma scripted_effect t a p p' d d' cs :
  cs !! t = Some (a, p) → owned (mkSys d cs) → effect t a d p p' d' →
  scripted (mkSys d cs) → scripted (mkSys d' (<[t := (a, p')]> cs)).
Proof.
  intros Ht HO E HS.
  destruct E as [p p' Hp _ Hlk|now stale s p' d' Eb Pb Ek Pk El En Hp|now stale r p' Hp|now stale s' d' E Hs
    |now stale d' E|now stale d' E|now stale d' E|now stale s' d' E Hs|now stale r d' E].
  - by eapply scripted_read; eauto.
  - apply (scripted_end t a p' d); auto; [by destruct Hp as [->|[? ->]] | by rewrite Eb].
  - apply (scripted_end t a p' d); try done; [by destruct Hp as [->|[? ->]] | intros; apply pend_commit..|].
    intros k t' v Hk Hne. simpl. rewrite com_commit, Hk. simpl. by rewrite decide_False.
  - apply stmt_lock_spec in E as (Eb & Ek & _).
    apply (scripted_write t a now stale SLock s' d); rewrite ?Eb, ?Ek; eauto; try done.
    intros r ->. by case_match.
  - apply lift_done in E as (x & [_ Hpd]%stmt_delete_spec & ->).
    apply (scripted_write t a now stale SClear SCancel d); simpl; auto; try done.
    + intros k t' v. rewrite (proj1 (Hpd k)). case_match eqn:Em; [|eauto].
      apply lookup_matched in Em as [_ Em]. intros [= <- <-]. zbool. auto.
    + intros k t' v Hne Hk. destruct (Hpd k) as [-> Hl]. case_match eqn:Em; [|done].
      by destruct Hne; eapply (proj1 (locked_false _ _ _) (Hl ltac:(eauto))).
  - apply lift_done in E as (x & E & ->). eapply update_scripted; eauto.
    intros i r HP. unfold replaced, lapsed in HP. zbool. repeat split; auto.
  - apply lift_done in E as (x & E & ->). eapply update_scripted; eauto.
    intros i r HP. unfold replaced, lapsed in HP. zbool. repeat split; auto.
  - apply lift_done in E as (x & (Hc & Hpi & _)%stmt_insert_spec & ->).
    pose proof (owned_fresh _ _ HO) as [Hf1 Hf2].
    apply (scripted_write t a now stale SInsert s' d); simpl; eauto; try done.
    + intros i t' r'. rewrite Hpi. destruct (decide (d_next d = i)) as [<-|]; [|auto].
      intros [= <- <-]. right. rewrite Hf2. repeat split. intros _. subst s'. simpl. by case_match.
    + intros r Hr Hkey. subst s'. simpl in Hr. by rewrite bool_decide_eq_false_2 in Hr.
  - apply lift_done in E as (x & (Hc & Hpi & _ & _ & Hl)%stmt_insert_spec & ->).
    apply (scripted_write t a now stale (SKey r) (SCommit r) d); simpl; auto.
    + intros k t' v. rewrite Hpi. case_decide; [|eauto]. intros; simplify_eq; auto.
    + intros k t' v Hne Hk. rewrite Hpi. case_decide; [|done]. subst k.
      by destruct Hne; eapply (proj1 (locked_false _ _ _) Hl).
    + intros r' [= ->] _. by rewrite Hpi, decide_True.
Qed.

Lemma scripted_small d d' cs : small_effect d d' → scripted (mkSys d cs) → scripted (mkSys d' cs).
Proof.
  intros E [S1 S2 S3]. unfold bpend, bcom, kpend in *. simpl in *.
  destruct E as [Ec Ep Ek _ _ | id r r' Hr _ Hr' [Ec Ep Hf Ek _ _]];
    split; unfold bpend, bcom, kpend; simpl; rewrite ?Ec, ?Ep, ?Ek; eauto.
  intros i t r1 Hi. rewrite lookup_insert_ne by (intros <-; congruence). eauto.
Qed.

(** ** Reachable states *)

Definition invariant (s : sys) : Prop :=
  owned s ∧ indexed index_clash (d_book (s_db s)) ∧ traced s ∧ locking s ∧ scripted s.

(** A call that is not open has no pending version. *)
Lemma owned_not_mine d cs t :
  owned (mkSys d cs) → cs !! t = None → ∀ k v, t_pend (d_book d) !! k = Some v → v.1 ≠ t.
Proof.
  intros HO Hn k v Hv Hvt. apply (o_book _ HO) in Hv. simpl in Hv. rewrite Hvt in Hv. by eapply intx_fresh.
Qed.

(** What a commit makes of the tables. *)
Lemma commit_rows t a txnow stale r d cs :
  cs !! t = Some (a, PTx txnow stale (SCommit r)) →
  indexed index_clash (d_book d) → traced (mkSys d cs) → scripted (mkSys d cs) →
  t_com (d_book d) !! r_ID r = None ∧
  t_com (t_commit t (d_book d)) !! r_ID r = Some (new_row txnow a) ∧
  (∀ i, i ≠ r_ID r → t_com (t_commit t (d_book d)) !! i = t_com (d_book d) !! i ∨
     ∃ c r', t_com (d_book d) !! i = Some c ∧ t_com (t_commit t (d_book d)) !! i = Some r' ∧
             written a txnow (Some c) r') ∧
  (∀ k, k ≠ a_key a → t_com (t_commit t (d_keys d)) !! k = t_com (d_keys d) !! k) ∧
  (a_key a ≠ "" → t_com (t_commit t (d_keys d)) !! a_key a = Some (r_ID r)).
Proof.
  intros Ht HI HT HS. destruct (tr_mine _ HT t a txnow stale r (or_intror Ht)) as [Hm Hr].
  unfold bpend in Hm. simpl in Hm.
  assert (∀ i r', t_pend (d_book d) !! i = Some (t, Some r') → written a txnow (t_com (d_book d) !! i) r') as Hw.
  { intros i r' Hi. destruct (sc_row _ HS _ _ _ Hi) as (a1 & now1 & stale1 & st1 & Hc & Hw & _).
    simpl in Hc. by simplify_eq. }
  split_and!.
  - pose proof (Hw _ _ Hm) as Hn. destruct (t_com (d_book d) !! r_ID r); [|done].
    by destruct Hn as (_ & _ & [(? & _)|(? & _)]).
  - rewrite com_commit, Hm. simpl. by rewrite decide_True.
  - intros i Hi. rewrite com_commit. destruct (t_pend (d_book d) !! i) as [[t' v]|] eqn:E; [|by left].
    simpl. case_decide; [|by left]. subst t'. destruct (tr_live _ HT _ _ _ E) as [r' ->].
    pose proof (Hw _ _ E) as Hn. destruct (t_com (d_book d) !! i) as [c|] eqn:Ec; [right; eauto|].
    pose proof (ix_pend _ _ HI _ _ _ _ _ _ E Hm Hi) as Hcl. simpl in Hn. subst r'.
    assert (index_clash (new_row txnow a) (new_row txnow a) = true); [|congruence].
    apply index_clash_true. left. unfold same_seat. by rewrite !bool_decide_eq_true_2.
  - intros k Hk. rewrite com_commit. destruct (t_pend (d_keys d) !! k) as [[t' v]|] eqn:E; [|done].
    simpl. case_decide; [|done]. subst t'.
    destruct (sc_key _ HS _ _ _ E) as (a1 & now1 & stale1 & st1 & Hc & ->). simpl in Hc. by simplify_eq.
  - intros Hk. pose proof (sc_commit _ HS _ _ _ _ _ Ht Hk) as Hkp. unfold kpend in Hkp. simpl in Hkp.
    rewrite com_commit, Hkp. simpl. by rewrite decide_True.
Qed.

Lemma invariant_step s s' : invariant s → sstep s s' → invariant s'.
Proof.
  intros Hinv Hs. destruct Hs as [t a d cs Hn | t now f a p p' d d' cs Ht E
    | t now f id buyer res d d' cs Hn E | t now f id buyer res d d' cs Hn E];
    destruct Hinv as (HO & HI & HT & HL & HS); simpl in HI.
  - split; [|split; [exact HI|split; [|split]]].
    + destruct HO as [On Oc Op Ob Ok' Ol]. split; simpl; auto; intros ? ? Hv; (eapply intx_other; [|by eauto]);
        intros Heq; eapply (intx_fresh cs t Hn); rewrite <- Heq; eauto.
    + apply traced_read; auto; intros; simplify_eq.
    + eapply (locking_read t a PStart); eauto; intros; simplify_eq.
    + eapply (scripted_read t a PStart); eauto; intros; simplify_eq.
  - assert (effect t a d p p' d') by (by eapply exec_effect; [eapply owned_fresh|]).
    unfold invariant; split_and!; eauto using owned_effect, indexed_effect, traced_effect, locking_effect, scripted_effect.
  - assert (small_effect d d') by (eapply Confirm_effect; [by eapply owned_not_mine | done]).
    unfold invariant; split_and!; eauto using owned_small, indexed_small, traced_small, locking_small, scripted_small.
  - assert (small_effect d d') by (eapply Release_effect; [by eapply owned_not_mine | done]).
    unfold invariant; split_and!; eauto using owned_small, indexed_small, traced_small, locking_small, scripted_small.
Qed.

(** Empty tables, no transaction open. *)
Definition empty_db (d : db) : Prop :=
  t_com (d_book d) = ∅ ∧ t_pend (d_book d) = ∅ ∧ t_com (d_keys d) = ∅ ∧ t_pend (d_keys d) = ∅ ∧
  d_locks d = ∅ ∧ d_next d = 1.

Definition reachable (s : sys) : Prop := ∃ d, empty_db d ∧ rtc sstep (mkSys d ∅) s.

Lemma reachable_invariant s : reachable s → invariant s.
Proof.
  intros (d & (Eb & Ep & Ek & Eq & El & En) & Hr).
  eapply (rtc_invariant sstep invariant); [by eauto using invariant_step | done|].
  unfold invariant. split_and!; split; unfold bcom, bpend, kcom, kpend; simpl;
    rewrite ?Eb, ?Ep, ?Ek, ?Eq, ?El, ?En; try lia; intros *; rewrite ?lookup_empty; try done;
    by intros [?|?].
Qed.

(** C4: Two committed bookings that are held or confirmed never name the same seat,
and a buyer never has two holds in one match. *)
Theorem Seats_never_double_booked s i j r r' :
  reachable s → bcom s !! i = Some r → bcom s !! j = Some r' → b_match r = b_match r' →
  (is_active r = true ∧ is_active r' = true ∧ b_seat r = b_seat r') ∨
  (is_held r = true ∧ is_held r' = true ∧ b_buyer r = b_buyer r') → i = j.
Proof.
  intros (_ & HI & _)%reachable_invariant Hi Hj Hm Hc. destruct (decide (i = j)) as [|Hne]; [done|].
  pose proof (ix_com _ _ HI i j r r' Hi Hj Hne) as Hf.
  assert (index_clash r r' = true); [|congruence]. apply index_clash_true. unfold same_seat, same_buyer.
  destruct Hc as [(?&?&Hs)|(?&?&Hs)]; [left|right]; rewrite Hm, Hs, !bool_decide_eq_true_2 by done; auto.
Qed.

(** C9: A round trip of [PlaceHold] leaves the committed tables alone, unless it is
the commit: then the new booking appears, every other row is as it was except
the buyer's hold on another seat, now cancelled, and the lapsed hold on the seat,
now expired; no key but the call's changes, and it names the new booking. *)
Theorem PlaceHold_atomic s t a p now f p' d' :
  reachable s → s_calls s !! t = Some (a, p) → hold_exec t now f a p (s_db s) = Some (p', d') →
  (t_com (d_book d') = bcom s ∧ t_com (d_keys d') = kcom s) ∨
  ∃ txnow stale r, p = PTx txnow stale (SCommit r) ∧ bcom s !! r_ID r = None ∧
    t_com (d_book d') !! r_ID r = Some (new_row txnow a) ∧
    (∀ i, i ≠ r_ID r → t_com (d_book d') !! i = bcom s !! i ∨
       ∃ c r', bcom s !! i = Some c ∧ t_com (d_book d') !! i = Some r' ∧ written a txnow (Some c) r') ∧
    (∀ k, k ≠ a_key a → t_com (d_keys d') !! k = kcom s !! k) ∧
    (a_key a ≠ "" → t_com (d_keys d') !! a_key a = Some (r_ID r)).
Proof.
  intros (HO & HI & HT & HL & HS)%reachable_invariant Ht E. destruct s as [d cs]. simpl in *.
  apply exec_effect in E; [|by eapply owned_fresh].
  destruct E as [| ? ? ? ? ? Eb ? Ek| txnow stale r p' Hp|? ? ? ? E|? ? ? E|? ? ? E|? ? ? E|? ? ? ? E|? ? ? ? E].
  3: right; exists txnow, stale, r; split; [done|]; by eapply commit_rows.
  all: left; unfold bcom, kcom; simpl; try done.
  - by apply stmt_lock_spec in E as (-> & -> & _).
  - by apply lift_done in E as (x & [Hc _]%stmt_delete_spec & ->).
  - by apply lift_done in E as (x & [Hc _]%stmt_update_spec & ->).
  - by apply lift_done in E as (x & [Hc _]%stmt_update_spec & ->).
  - by apply lift_done in E as (x & [Hc _]%stmt_insert_spec & ->).
  - by apply lift_done in E as (x & [Hc _]%stmt_insert_spec & ->).
Qed.

(** A call that returns a booking returns one that is committed and that is of
the match, the seat and the buyer it asked for, whether it made the booking or
replayed it under its key. *)
Theorem PlaceHold_result_sound s t a r :
  reachable s → s_calls s !! t = Some (a, PDone (Ok r)) →
  r_MatchID r = a_match a ∧ r_SeatID r = a_seat a ∧ r_BuyerID r = a_buyer a ∧
  ∃ row, bcom s !! r_ID r = Some row ∧ same_params row (a_match a) (a_seat a) (a_buyer a).
Proof.
  intros (_ & _ & HT & _)%reachable_invariant Ht. destruct (tr_done _ HT _ _ _ Ht) as (? & ? & ? & ?). auto.
Qed.

(** When the insert of a call is refused, the seat itself has a committed booking
that is held or confirmed: the buyer's own holds on other seats never cause a
refusal. *)
Theorem Refusal_means_taken s t a now stale :
  reachable s → s_calls s !! t = Some (a, PTx now stale SInsert) →
  stmt_book t now a (s_db s) = Violation →
  ∃ i r, bcom s !! i = Some r ∧ is_active r = true ∧ b_match r = a_match a ∧ b_seat r = a_seat a.
Proof.
  intros (HO & HI & HT & HL & HS)%reachable_invariant Ht E.
  assert (clash_seen t (fun _ r => index_clash (new_row now a) r) (d_book (s_db s)) = true) as Hs.
  { revert E. unfold stmt_book, stmt_insert. by repeat case_match. }
  apply clash_seen_true in Hs as (i & r & Hi & Hc). exists i, r.
  assert (is_active r = true ∧ b_match r = a_match a ∧ b_seat r = a_seat a) as (Ha & Hm & Hseat).
  { apply index_clash_true in Hc as [(_ & Ha & Hs)|(_ & Hh & Hs)]; unfold same_seat, same_buyer in Hs; zbool.
    - by simpl in *.
    - simpl in *. split; [unfold is_active, is_held in *; zbool; by rewrite Hh|]. split; [done|].
      eapply (lk_only _ HL); eauto. }
  split; [|done]. apply tview_cases in Hi as [Hi|Hi]; [done|].
  destruct (sc_row _ HS _ _ _ Hi) as (a1 & now1 & stale1 & st1 & Hc1 & Hw & Hn). simplify_eq.
  destruct (bcom s !! i) as [c|]; [|by specialize (Hn eq_refl)].
  by destruct Hw as (_ & _ & [(-> & _)|(-> & _)]).
Qed.

Lemma small_confirmed d d' i r :
  small_effect d d' → t_com (d_book d) !! i = Some r → b_status r = Confirmed →
  t_com (d_book d') !! i = Some r.
Proof.
  intros [Ec _ _ _ _ | id r1 r' Hr Hh _ [Ec _ _ _ _ _]] Hi Hst; rewrite Ec; [done|].
  rewrite lookup_insert_ne; [done|]. intros <-. unfold is_held in Hh. zbool. congruence.
Qed.

Lemma confirmed_step s s' i r :
  invariant s → sstep s s' → bcom s !! i = Some r → b_status r = Confirmed → bcom s' !! i = Some r.
Proof.
  intros Hinv Hs. destruct Hs as [t a d cs Hn | t now f a p p' d d' cs Ht E
    | t now f id buyer res d d' cs Hn E | t now f id buyer res d d' cs Hn E];
    destruct Hinv as (HO & HI & HT & HL & HS); unfold bcom; simpl; try done.
  - apply exec_effect in E; [|by eapply owned_fresh].
    destruct E as [| ? ? ? ? ? Eb ? Ek| txnow stale r0 p' Hp|? ? ? ? E|? ? ? E|? ? ? E|? ? ? E|? ? ? ? E|? ? ? ? E];
      try done.
    + by rewrite Eb.
    + intros Hi Hst. destruct (commit_rows t a txnow stale r0 d cs Ht HI HT HS) as (Hnone & _ & Hrows & _). simpl.
      destruct (Hrows i) as [->|(c & r' & Hc & _ & Hh & _)]; [congruence|done|].
      simplify_eq. unfold is_held in Hh. zbool. congruence.
    + by apply stmt_lock_spec in E as (-> & _).
    + by apply lift_done in E as (x & [Hc _]%stmt_delete_spec & ->).
    + apply lift_done in E as (x & [Hc _]%stmt_update_spec & ->). simpl. by rewrite Hc.
    + apply lift_done in E as (x & [Hc _]%stmt_update_spec & ->). simpl. by rewrite Hc.
    + apply lift_done in E as (x & [Hc _]%stmt_insert_spec & ->). simpl. by rewrite Hc.
    + by apply lift_done in E as (x & _ & ->).
  - apply Confirm_effect in E; [|by eapply owned_not_mine]. by eapply small_confirmed.
  - apply Release_effect in E; [|by eapply owned_not_mine]. by eapply small_confirmed.
Qed.

(** A confirmed booking stays as it is, and its seat is not sold again. *)
Theorem Confirmed_final s s' i r :
  reachable s → bcom s !! i = Some r → b_status r = Confirmed → rtc sstep s s' →
  bcom s' !! i = Some r ∧
  ∀ j r', bcom s' !! j = Some r' → is_active r' = true → b_match r' = b_match r → b_seat r' = b_seat r → j = i.
Proof.
  intros Hreach Hi Hst Hr. pose proof (reachable_invariant _ Hreach) as Hinv.
  assert (invariant s' ∧ bcom s' !! i = Some r) as [(_ & HI & _) Hi'].
  { eapply (rtc_invariant sstep (fun s => invariant s ∧ bcom s !! i = Some r)); [|done|done].
    intros x y [Hx Hix] Hxy. split; [by eapply invariant_step | by eapply confirmed_step]. }
  split; [done|]. intros j r' Hj Ha Hm Hseat. destruct (decide (j = i)) as [|Hne]; [done|].
  pose proof (ix_com _ _ HI j i r' r Hj Hi' Hne) as Hf.
  assert (index_clash r' r = true); [|congruence]. apply index_clash_true. left.
  unfold same_seat. rewrite Hm, Hseat, !bool_decide_eq_true_2 by done. unfold is_active at 2. by rewrite Hst.
Qed.

(** A call whose commit took effect, even when the reply was lost, is repeated
without effect: a retry with the same key and arguments that comes before the
hold lapses returns the same booking at once. *)
Theorem Retry_returns_original s t a txnow stale r f now p' d' t' now' :
  reachable s → s_calls s !! t = Some (a, PTx txnow stale (SCommit r)) → a_key a ≠ "" →
  (∀ e, f ≠ Fails e) → hold_exec t now f a (PTx txnow stale (SCommit r)) (s_db s) = Some (p', d') →
  now' < txnow + Z.quot (a_ttl a) 1000 →
  hold_exec t' now' Fine a PStart d' = Some (PDone (Ok r), d').
Proof.
  intros (HO & HI & HT & HL & HS)%reachable_invariant Ht Hk Hf E Hnow. destruct s as [d cs]. simpl in *.
  assert (d' = tx_commit t d) as -> by (destruct f; simplify_eq; naive_solver).
  destruct (commit_rows t a txnow stale r d cs Ht HI HT HS) as (_ & Hrow & _ & _ & Hkey).
  destruct (tr_mine _ HT t a txnow stale r (or_intror Ht)) as [_ Hr].
  unfold lookupIdempotentHold. rewrite bool_decide_eq_false_2 by done. simpl.
  rewrite (Hkey Hk). simpl. rewrite Hrow. simpl.
  rewrite !bool_decide_eq_true_2 by done. simpl. unfold expires_after. simpl.
  destruct (now' <? txnow + Z.quot (a_ttl a) 1000) eqn:El; [|zbool; lia]. by rewrite Hr.
Qed.

(** ** A call that runs alone *)

Fixpoint run_hold (n : nat) (t : nat) (now : Z) (a : hold_args) (p : pc) (d : db) : pc * db :=
  match n with
  | O => (p, d)
  | S n => match hold_exec t now Fine a p d with
           | Some (p', d') => run_hold n t now a p' d'
           | None => (p, d)
           end
  end.

(** The seat has a booking that is confirmed, or held and not lapsed at [now]. *)
Definition seat_taken (now : Z) (a : hold_args) (c : gmap Z brow) : Prop :=
  ∃ i r, c !! i = Some r ∧ b_match r = a_match a ∧ b_seat r = a_seat a ∧ is_active r = true ∧
         (is_held r && expires_before r now) = false.

(** A row the updates leave active conflicts exactly when it takes the seat. *)
Lemma kept_clash now a r :
  index_clash (new_row now a)
    (if replaced a r then set_cancelled now r else if lapsed now a r then set_expired r else r) = true ↔
  b_match r = a_match a ∧ b_seat r = a_seat a ∧ is_active r = true ∧ (is_held r && expires_before r now) = false.
Proof.
  destruct (replaced a r) eqn:Er.
  { rewrite index_clash_sym, inactive_clash by auto. split; [done|]. intros (_ & Hs & _).
    unfold replaced in Er. zbool. by rewrite Hs in *. }
  destruct (lapsed now a r) eqn:El.
  { rewrite index_clash_sym, inactive_clash by auto. split; [done|]. intros (_ & _ & _ & Hf).
    apply andb_true_iff in El as [[_ Hh]%andb_true_iff Hx]. by rewrite Hh, Hx in Hf. }
  assert (b_match r = a_match a → b_seat r = a_seat a → (is_held r && expires_before r now) = false) as Hl.
  { intros Hm Hs. unfold lapsed in El. by rewrite Hm, Hs, !bool_decide_eq_true_2 in El by done. }
  rewrite index_clash_true. unfold same_seat, same_buyer. split.
  - intros [(_ & Ha & Hs)|(_ & Hh & Hs)]; zbool; simpl in *; [auto|].
    assert (b_seat r = a_seat a) as Hseat.
    { unfold replaced in Er. rewrite Hh, !bool_decide_eq_true_2 in Er by done. simpl in Er. by zbool. }
    split_and!; auto. unfold is_active, is_held in *. zbool. by rewrite Hh.
  - intros (Hm & Hs & Ha & _). left. simpl. by rewrite Hm, Hs, !bool_decide_eq_true_2 by done.
Qed.

(** The two updates of a call, as its transaction sees them. *)
Lemma seen_after_updates t now a d :
  alone t (d_book d) →
  ∃ d1 d2, stmt_cancel t now a d = Done d1 ∧ stmt_expire t now a d1 = Done d2 ∧
    alone t (d_book d2) ∧ t_com (d_book d2) = t_com (d_book d) ∧
    d_next d2 = d_next d ∧
    (clash_seen t (fun _ r => index_clash (new_row now a) r) (d_book d2) = true ↔
     seat_taken now a (tview t (d_book d))).
Proof.
  intros Ha. unfold stmt_cancel, stmt_expire.
  destruct (stmt_update_alone t (fun _ => replaced a) (set_cancelled now) (d_book d) Ha)
    as (x1 & E1 & Ha1 & Hc1 & Hv1). rewrite E1. simpl.
  destruct (stmt_update_alone t (fun _ => lapsed now a) set_expired x1 Ha1) as (x2 & E2 & Ha2 & Hc2 & Hv2).
  exists (with_book x1 d), (with_book x2 (with_book x1 d)). simpl. rewrite E2. split_and!; try done; [congruence|].
  assert (∀ k, tview t x2 !! k = (fun r => if replaced a r then set_cancelled now r
            else if lapsed now a r then set_expired r else r) <$> tview t (d_book d) !! k) as Hv.
  { intros k. rewrite Hv2, Hv1. destruct (tview t (d_book d) !! k) as [r|]; [|done]. simpl. f_equal.
    destruct (replaced a r); [|done]. unfold lapsed, is_held. simpl.
    by rewrite andb_false_r. }
  split.
  - intros (k & r' & Hk & Hc)%clash_seen_true. rewrite Hv in Hk.
    apply fmap_Some in Hk as (r & Hr & ->). exists k, r. split; [done|]. by apply kept_clash.
  - intros (k & r & Hk & Ht). apply not_false_iff_true. intros Hf.
    apply kept_clash in Ht. eapply clash_seen_false in Hf; [|by rewrite Hv, Hk]. cbv beta in Hf. congruence.
Qed.

(** Alone, a call for an existing seat runs to its end in seven round trips.  It
is refused exactly when the seat has a booking that is confirmed or held and not
lapsed, and then nothing is committed; otherwise it returns a booking. *)
Theorem PlaceHold_alone t now a d :
  t_pend (d_book d) = ∅ → d_locks d = ∅ → a_key a = "" → seat_exists (a_match a) (a_seat a) = true →
  (seat_taken now a (t_com (d_book d)) ∧
     ∃ d', run_hold 7 t now a PStart d = (PDone (Err ErrSeatUnavailable), d') ∧
           t_com (d_book d') = t_com (d_book d)) ∨
  (¬ seat_taken now a (t_com (d_book d)) ∧
     ∃ d', run_hold 7 t now a PStart d = (PDone (Ok (row_of (d_next d) (new_row now a))), d') ∧
           t_com (d_book d') !! d_next d = Some (new_row now a)).
Proof.
  intros Hp Hl Hk Hs.
  set (dl := mkDb (d_book d) (d_keys d) (<[hash (a_match a) (a_buyer a) := t]> (d_locks d)) (d_next d)).
  assert (stmt_lock t a d = Done dl) as El by (unfold stmt_lock; by rewrite Hl, lookup_empty; subst dl; rewrite Hl).
  assert (alone t (d_book dl)) as Ha by (intros k v; simpl; by rewrite Hp, lookup_empty).
  assert (tview t (d_book dl) = t_com (d_book d)) as Hv
    by (apply tview_none; intros k v; simpl; by rewrite Hp, lookup_empty).
  destruct (seen_after_updates t now a dl Ha) as (d1 & d2 & E1 & E2 & Ha2 & Hc2 & Hn2 & Hiff).
  rewrite Hv in Hiff. simpl in Hc2, Hn2.
  pose proof (stmt_insert_alone t (d_next d2) (new_row now a) (fun _ r => index_clash (new_row now a) r)
    (d_book d2) Ha2) as Hins.
  do 3 (cbn [run_hold hold_exec tx_exec]; rewrite ?Hk, ?(bool_decide_eq_true_2 _ eq_refl)).
  rewrite El. cbn [tx_next Z.eqb].
  do 2 (cbn [run_hold hold_exec tx_exec]; rewrite ?E1, ?E2; cbn [tx_next]).
  cbn [run_hold hold_exec tx_exec]. unfold stmt_book at 1 2.
  rewrite Hs, Hk. destruct Hins as [[Hc E]|[Hc [x E]]]; rewrite E; cbn [lift tx_next].
  - left. split; [by apply Hiff|]. unfold tx_error. rewrite Hk. simpl. eexists. split; [done|].
    simpl. by rewrite com_rollback.
  - right. split; [by rewrite <- Hiff, Hc|]. rewrite (bool_decide_eq_true_2 _ eq_refl). simpl. rewrite Hn2.
    eexists. split; [done|]. apply stmt_insert_spec in E as (_ & Hpi & _).
    simpl. rewrite com_commit, Hpi, decide_True by done. simpl. by rewrite decide_True.
Qed.

(** ** Confirm and release *)

(** Without faults [ConfirmHold] confirms exactly the buyer's own hold that has not
lapsed, and otherwise reports [ErrHoldExpired] and commits nothing. *)
Theorem ConfirmHold_spec s t now id buyer res d' :
  reachable s → s_calls s !! t = None → ConfirmHold t now Fine id buyer (s_db s) = Some (res, d') →
  match res with
  | Ok b => ∃ r e, bcom s !! id = Some r ∧ b_buyer r = buyer ∧ b_status r = Held ∧ b_expires r = Some e ∧ now < e ∧
      b = mkRow id (b_match r) (b_seat r) buyer Confirmed None (Some now) ∧
      t_com (d_book d') = <[id := set_confirmed now r]> (bcom s)
  | Err e => e = ErrHoldExpired ∧ t_com (d_book d') = bcom s ∧
      ∀ r e, bcom s !! id = Some r → b_buyer r = buyer → b_status r = Held → b_expires r = Some e → e ≤ now
  end.
Proof.
  intros (HO & _)%reachable_invariant Hn E. destruct s as [d cs]. unfold bcom. simpl in *.
  pose proof (owned_not_mine _ _ _ HO Hn) as Hmine.
  unfold ConfirmHold in E. simpl in E. destruct (update_row _ _ _ _ _) as [[[r'|] d1]|] eqn:Eu; simplify_eq.
  - apply update_row_spec in Eu as (r & Hr & HP & -> & Hset); [|done]. zbool. unfold expires_after, is_held in *.
    destruct (b_expires r) as [e|] eqn:Ee; zbool; [|done]. exists r, e. split_and!; try done. by apply (rs_com _ _ _ _ Hset).
  - pose proof Eu as Hnone. apply update_row_spec in Eu as (Hc & _); [|done]. split_and!; try done.
    intros r e Hr Hb Hst He. unfold update_row in Hnone. case_match; simplify_eq.
    destruct (decide (now < e)) as [Hlt|]; [exfalso|lia].
    destruct (matched _ _ _ !! id) eqn:Em; [done|].
    apply eq_None_not_Some in Em. apply Em. exists r. apply lookup_matched.
    rewrite tview_none by done. split; [done|]. unfold expires_after, is_held.
    rewrite Hst, He, Z.eqb_refl, !bool_decide_eq_true_2 by done. simpl. by apply Z.ltb_lt.
Qed.

(** ** The seat map *)

Record SeatStatus : Type := mkSeat {
  ss_SeatID : string; ss_Section : string; ss_Status : option status; ss_HoldExpiresAt : option Z }.

(** The rows of [bookings] that join a seat. *)
Definition joins (now : Z) (matchID seat : string) (p : Z * brow) : bool :=
  bool_decide (b_match p.2 = matchID) && bool_decide (b_seat p.2 = seat) && is_active p.2 &&
  (bool_decide (b_status p.2 = Confirmed) || expires_after p.2 now).

(** The rows of one seat in the outer join; without a status it is available. *)
Definition seat_rows (now : Z) (matchID : string) (d : db) (s : string * string) : list SeatStatus :=
  match List.filter (joins now matchID s.1) (map_to_list (t_com (d_book d))) with
  | [] => [mkSeat s.1 s.2 None None]
  | l => (fun p => mkSeat s.1 s.2 (Some (b_status p.2)) (b_expires p.2)) <$> l
  end.

(** [seats] are the seats of the match with their sections, in the order of the
query. *)
(* [go] store/seats.go:11-40 ListSeats *)
Definition ListSeats (now : Z) (matchID : string) (seats : list (string * string)) (d : db) : list SeatStatus :=
  flat_map (seat_rows now matchID d) seats.

Lemma joins_unique now m seat s :
  reachable s → ∀ p q, p ∈ List.filter (joins now m seat) (map_to_list (bcom s)) →
  q ∈ List.filter (joins now m seat) (map_to_list (bcom s)) → p.1 = q.1.
Proof.
  intros (_ & HI & _)%reachable_invariant [i r] [j r'].
  rewrite !list_elem_of_In, !filter_In, <- !list_elem_of_In, !elem_of_map_to_list.
  intros [Hi Hp] [Hj Hq]. simpl. destruct (decide (i = j)) as [|Hne]; [done|].
  pose proof (ix_com _ _ HI i j r r' Hi Hj Hne) as Hf. unfold joins in *. simpl in *. zbool.
  assert (index_clash r r' = true); [|congruence]. apply index_clash_true. left. unfold same_seat.
  by rewrite !bool_decide_eq_true_2 by congruence.
Qed.

Lemma joins_at_most_one now m seat s :
  reachable s → (length (List.filter (joins now m seat) (map_to_list (bcom s))) ≤ 1)%nat.
Proof.
  intros Hr. pose proof (joins_unique now m seat s Hr) as Hu.
  assert (NoDup (List.filter (joins now m seat) (map_to_list (bcom s))).*1) as Hnd.
  { assert (NoDup (map_to_list (bcom s)).*1) as Hn by apply NoDup_fst_map_to_list. revert Hn.
    generalize (map_to_list (bcom s)). intros l. induction l as [|p l IH]; simpl; [done|].
    rewrite NoDup_cons. intros [Hp Hn]. case_match; simpl; [|auto]. apply NoDup_cons. split; [|auto].
    contradict Hp. apply list_elem_of_fmap in Hp as (q & -> & Hq). apply list_elem_of_fmap. exists q.
    split; [done|]. revert Hq. rewrite !list_elem_of_In, filter_In. tauto. }
  destruct (List.filter _ _) as [|p [|q l]]; simpl; try lia.
  exfalso. assert (p.1 = q.1) as Heq by (apply Hu; set_solver).
  simpl in Hnd. rewrite Heq in Hnd. apply NoDup_cons in Hnd as [Hnd _]. set_solver.
Qed.

Lemma seat_rows_single s now m seat :
  reachable s → ∃ e, seat_rows now m (s_db s) seat = [e] ∧ ss_SeatID e = seat.1 ∧
    (ss_Status e = None ↔ ∀ i r, bcom s !! i = Some r → joins now m seat.1 (i, r) = false).
Proof.
  intros Hr. unfold seat_rows. fold (bcom s).
  pose proof (joins_at_most_one now m seat.1 s Hr) as Hone.
  assert (∀ p, p ∈ List.filter (joins now m seat.1) (map_to_list (bcom s)) ↔
               bcom s !! p.1 = Some p.2 ∧ joins now m seat.1 p = true) as Hin.
  { intros [i r]. by rewrite list_elem_of_In, filter_In, <- list_elem_of_In, elem_of_map_to_list. }
  destruct (List.filter _ _) as [|[i r] [|q l]]; simpl in *; [| |lia]; eexists; (split; [done|]); (split; [done|]).
  - split; [|done]. intros _ i r Hi. apply not_true_iff_false. intros Hj.
    destruct (not_elem_of_nil (i, r)). by apply Hin.
  - split; [done|]. intros Hall. destruct (proj1 (Hin (i, r))) as [Hi Hj]; [left|].
    simpl in Hi. specialize (Hall _ _ Hi). congruence.
Qed.

(** The seat map has exactly one entry per seat, in order; a seat reads as
available exactly when it has no booking that is confirmed or held beyond [now]. *)
Theorem ListSeats_exact s now m seats :
  reachable s →
  ss_SeatID <$> ListSeats now m seats (s_db s) = seats.*1 ∧
  ∀ e, e ∈ ListSeats now m seats (s_db s) →
    (ss_Status e = None ↔ ∀ i r, bcom s !! i = Some r → joins now m (ss_SeatID e) (i, r) = false).
Proof.
  intros Hr. unfold ListSeats. induction seats as [|seat seats [IH1 IH2]].
  { split; [done|]. intros e He. by apply elem_of_nil in He. }
  destruct (seat_rows_single s now m seat Hr) as (e0 & E & Hid & Hst).
  cbn [flat_map]. rewrite E. cbn [app]. rewrite !fmap_cons, IH1, Hid. split; [done|].
  intros e [->|He]%elem_of_cons; [by rewrite Hid | by apply IH2].
Qed.

End store.

(** ** Witnesses on a concrete database *)

Module StadiumWitness.

Definition exists_seat (m s : string) : bool := true.
Definition h (m b : string) : Z := 0.

Notation pdb := (db (TB := ptable Z brow) (TK := ptable string Z)).
Notation psys := (sys (TB := ptable Z brow) (TK := ptable string Z)).

Definition d0 : pdb := mkDb (mkPtable ∅ ∅) (mkPtable ∅ ∅) ∅ 1.
Definition ann : hold_args := mkArgs "m" "A1" "ann" 300000000000 "k1".
Definition bob : hold_args := mkArgs "m" "A1" "bob" 300000000000 "".

(** Executes a list of round trips (call, time, fault). *)
Definition go (s : psys) (x : nat * Z * fault) : psys :=
  match x with
  | (t, now, f) =>
      match s_calls s !! t with
      | Some (a, p) =>
          match hold_exec exists_seat h t now f a p (s_db s) with
          | Some (p', d') => mkSys d' (<[t := (a, p')]> (s_calls s))
          | None => s
          end
      | None => s
      end
  end.

Definition call (s : psys) (t : nat) (a : hold_args) : psys := mkSys (s_db s) (<[t := (a, PStart)]> (s_calls s)).

Lemma go_rtc s x : rtc (sstep exists_seat h) s (go s x).
Proof.
  destruct x as [[t now] f]. unfold go. destruct (s_calls s !! t) as [[a p]|] eqn:E; [|done].
  destruct (hold_exec _ _ _ _ _ _ _ _) as [[p' d']|] eqn:E'; [|done].
  destruct s as [d cs]. apply rtc_once. by eapply St_exec.
Qed.

Lemma call_rtc s t a : s_calls s !! t = None → rtc (sstep exists_seat h) s (call s t a).
Proof. intros Hn. destruct s as [d cs]. apply rtc_once. by apply St_call. Qed.

Lemma go_list_rtc xs s : rtc (sstep exists_seat h) s (fold_left go xs s).
Proof.
  revert s. induction xs as [|x xs IH]; intros s; [done|]. simpl. etrans; [apply go_rtc | apply IH].
Qed.

(** Ann's call up to its commit, and after it. *)
Definition s_begin : psys := call (mkSys d0 ∅) 1%nat ann.
Definition s_commit : psys := fold_left go (replicate 7 (1%nat, 10, Fine)) s_begin.
Definition s_done : psys := go s_commit (1%nat, 10, Fine).

Lemma s_begin_reachable : reachable exists_seat h s_begin.
Proof. exists d0. split; [done|]. by apply call_rtc. Qed.

Lemma reachable_rtc s s' : reachable exists_seat h s → rtc (sstep exists_seat h) s s' → reachable exists_seat h s'.
Proof. intros (d & Hd & Hr) Hr'. exists d. split; [done|]. by etrans. Qed.

Lemma s_commit_reachable : reachable exists_seat h s_commit.
Proof. eapply reachable_rtc; [apply s_begin_reachable | apply go_list_rtc]. Qed.

Lemma s_done_reachable : reachable exists_seat h s_done.
Proof. eapply reachable_rtc; [apply s_commit_reachable | apply go_rtc]. Qed.

Definition ann_row : BookingRow := mkRow 1 "m" "A1" "ann" Held (Some 300000010) None.
Definition ann_brow : brow := mkBrow "m" "A1" "ann" Held (Some 300000010) None None.

Lemma Seats_never_double_booked_witness :
  reachable exists_seat h s_done ∧ (1 = 1)%Z.
Proof.
  split; [apply s_done_reachable|].
  apply (Seats_never_double_booked exists_seat h s_done 1 1 ann_brow ann_brow);
    [apply s_done_reachable | vm_compute; reflexivity | vm_compute; reflexivity | reflexivity | left; split; [|split]; reflexivity].
Defined.

Lemma PlaceHold_atomic_witness :
  ∃ d', t_com (d_book d') !! 1 = Some (new_row 10 ann) ∧ t_com (d_keys d') !! "k1" = Some 1.
Proof.
  destruct (PlaceHold_atomic exists_seat h s_commit 1%nat ann (PTx 10 0 (SCommit ann_row)) 10 Fine
    (PDone (Ok ann_row)) (tx_commit 1%nat (s_db s_commit)))
    as [[_ Hk]|(txnow & stale & r & Hp & _ & Hr & _ & _ & Hk)];
    [apply s_commit_reachable | vm_compute; reflexivity | reflexivity | |].
  - exfalso. vm_compute in Hk. discriminate.
  - injection Hp as <- <- <-. exists (tx_commit 1%nat (s_db s_commit)). split; [exact Hr | apply Hk; discriminate].
Defined.

Lemma PlaceHold_result_sound_witness :
  ∃ row, bcom s_done !! 1 = Some row ∧ same_params row "m" "A1" "ann".
Proof.
  apply (PlaceHold_result_sound exists_seat h s_done 1%nat ann ann_row);
    [apply s_done_reachable | vm_compute; reflexivity].
Defined.

(** Bob asks for the seat Ann holds. *)
Definition s_bob : psys := fold_left go (replicate 5 (2%nat, 20, Fine)) (call s_done 2%nat bob).

Lemma s_bob_reachable : reachable exists_seat h s_bob.
Proof.
  eapply reachable_rtc; [apply s_done_reachable|]. etrans; [|apply go_list_rtc].
  apply call_rtc. vm_compute. reflexivity.
Qed.

Lemma Refusal_means_taken_witness :
  ∃ i r, bcom s_bob !! i = Some r ∧ is_active r = true ∧ b_match r = "m" ∧ b_seat r = "A1".
Proof.
  apply (Refusal_means_taken exists_seat h s_bob 2%nat bob 20 0);
    [apply s_bob_reachable | vm_compute; reflexivity | vm_compute; reflexivity].
Defined.

(** Ann confirms. *)
Definition s_conf : psys :=
  match ConfirmHold 9%nat 30 Fine 1 "ann" (s_db s_done) with
  | Some (_, d') => mkSys d' (s_calls s_done)
  | None => s_done
  end.

Lemma s_conf_step : sstep exists_seat h s_done s_conf.
Proof.
  unfold s_conf. destruct (ConfirmHold 9%nat 30 Fine 1 "ann" (s_db s_done)) as [[res d']|] eqn:E;
    [|vm_compute in E; discriminate].
  destruct s_done as [d cs] eqn:Es. eapply St_confirm; [|exact E].
  replace cs with (s_calls s_done) by (by rewrite Es). vm_compute. reflexivity.
Qed.

Lemma s_conf_reachable : reachable exists_seat h s_conf.
Proof. eapply reachable_rtc; [apply s_done_reachable | apply rtc_once, s_conf_step]. Qed.

Definition ann_conf : brow := mkBrow "m" "A1" "ann" Confirmed None (Some 30) None.

Lemma Confirmed_final_witness :
  bcom (fold_left go (replicate 9 (2%nat, 900000000, Fine)) (call s_conf 2%nat bob)) !! 1 = Some ann_conf.
Proof.
  apply (Confirmed_final exists_seat h s_conf);
    [apply s_conf_reachable | vm_compute; reflexivity | reflexivity |].
  transitivity (call s_conf 2%nat bob); [apply call_rtc; vm_compute; reflexivity | apply go_list_rtc].
Defined.

Lemma ConfirmHold_spec_witness :
  ∃ r e, bcom s_done !! 1 = Some r ∧ b_buyer r = "ann" ∧ b_status r = Held ∧ b_expires r = Some e ∧ 30 < e.
Proof.
  destruct (ConfirmHold 9%nat 30 Fine 1 "ann" (s_db s_done)) as [[res d']|] eqn:E;
    [|vm_compute in E; discriminate].
  pose proof (ConfirmHold_spec exists_seat h s_done 9%nat 30 1 "ann" res d' s_done_reachable
    ltac:(vm_compute; reflexivity) E) as H.
  destruct res as [b|e]; [|vm_compute in E; discriminate].
  destruct H as (r & e & ? & ? & ? & ? & ? & _). exists r, e. split_and!; assumption.
Defined.

Lemma Retry_returns_original_witness :
  hold_exec exists_seat h 5%nat 1000 Fine ann PStart (tx_commit 1%nat (s_db s_commit)) =
  Some (PDone (Ok ann_row), tx_commit 1%nat (s_db s_commit)).
Proof.
  apply (Retry_returns_original exists_seat h s_commit 1%nat ann 10 0 ann_row (Lost EOther) 10 (PDone (Err EOther)));
    [apply s_commit_reachable | vm_compute; reflexivity | discriminate | discriminate | reflexivity |
     vm_compute; reflexivity].
Defined.

Lemma PlaceHold_alone_witness :
  ∃ d', run_hold exists_seat h 7 3%nat 10 bob PStart d0 = (PDone (Ok (row_of 1 (new_row 10 bob))), d').
Proof.
  destruct (PlaceHold_alone exists_seat h 3%nat 10 bob d0) as [[(i & r & Hi & _) _]|[_ (d' & Hd & _)]];
    [reflexivity | reflexivity | reflexivity | reflexivity | vm_compute in Hi; discriminate | exists d'; exact Hd].
Defined.

Lemma ListSeats_exact_witness :
  ss_SeatID <$> ListSeats 20 "m" [("A1", "north"); ("A2", "north")] (s_db s_done) = ["A1"; "A2"].
Proof.
  apply (ListSeats_exact exists_seat h s_done 20 "m" [("A1", "north"); ("A2", "north")]), s_done_reachable.
Defined.

(** At the very microsecond at which a hold lapses, the seat map lists the seat
as available and the hold can no longer be confirmed, but the seat cannot be
held: the hold is expired only when [hold_expires_at < now()]. *)
Theorem Boundary_seat_listed_but_refused :
  ListSeats 300000010 "m" [("A1", "north")] (s_db s_done) = [mkSeat "A1" "north" None None] ∧
  (∃ d', ConfirmHold 9%nat 300000010 Fine 1 "ann" (s_db s_done) = Some (Err ErrHoldExpired, d')) ∧
  (run_hold exists_seat h 7 3%nat 300000010 bob PStart (s_db s_done)).1 = PDone (Err ErrSeatUnavailable).
Proof.
  split; [vm_compute; reflexivity|]. split; [|vm_compute; reflexivity].
  eexists. vm_compute. reflexivity.
Qed.

(** Two buyers that swap seats wait for each other: each has cancelled its own
hold and inserts the seat of the other.  Postgres reports the deadlock to one of
them, with a code for which the service retries. *)
Definition ann2 : hold_args := mkArgs "m" "B2" "ann" 300000000000 "".
Definition bob1 : hold_args := mkArgs "m" "B2" "bob" 300000000000 "".
Definition h2 (m b : string) : Z := if bool_decide (b = "ann") then 1 else 2.

Definition go2 (s : psys) (x : nat * Z * fault) : psys :=
  match x with
  | (t, now, f) =>
      match s_calls s !! t with
      | Some (a, p) =>
          match hold_exec exists_seat h2 t now f a p (s_db s) with
          | Some (p', d') => mkSys d' (<[t := (a, p')]> (s_calls s))
          | None => s
          end
      | None => s
      end
  end.

Definition s_swap : psys :=
  let s := fold_left go2 (replicate 9 (1%nat, 10, Fine)) s_begin in
  let s := fold_left go2 (replicate 9 (2%nat, 10, Fine)) (call s 2%nat bob1) in
  fold_left go2 (replicate 5 (3%nat, 20, Fine) ++ replicate 5 (4%nat, 20, Fine)) (call (call s 3%nat ann2) 4%nat bob).

Example Swap_waits :
  snd <$> s_calls s_swap !! 3%nat = Some (PTx 20 0 SInsert) ∧
  hold_exec exists_seat h2 3%nat 30 Fine ann2 (PTx 20 0 SInsert) (s_db s_swap) = None ∧
  snd <$> s_calls s_swap !! 4%nat = Some (PTx 20 0 SInsert) ∧
  hold_exec exists_seat h2 4%nat 30 Fine bob (PTx 20 0 SInsert) (s_db s_swap) = None.
Proof. vm_compute. auto. Qed.

End StadiumWitness.
