(* ===== verification/StadiumService.v ===== *)
(** * cricket-stadium-booking: service, seat cache, handlers, limiter, configuration

The layers above the store of [Stadium]: the bounded retry loop with its full
jitter back-off, the service methods that retry and invalidate, the seat cache,
the handlers with their validation and the table of status codes, the
per-address rate limiter with its janitor, and the validation of the
configuration.  The functions of the store that are not part of the sources
([CancelBooking]) are arguments, as are the random draw, the decoded body and
the token bucket of [golang.org/x/time/rate]. *)

From Stdlib Require Import ZArith Lia.
From stdpp Require Import base gmap strings fin_maps list relations sorting.
From S2P Require Import Prelude GoStrings GoTime Pg Stadium.

Open Scope list_scope.
Open Scope Z_scope.

(* [base] cricket-stadium-booking-main/cricket-stadium-booking/internal *)

(** ** Retries *)

Definition ms : Z := 1000000.

(* [go] booking/service.go:21-27 baseBackoff *)
Definition baseBackoff : Z := 10 * ms.
Definition maxBackoff : Z := 1000 * ms.
Definition maxBackoffShift : Z := 20.

(** [x << uint(n)] on [int64]. *)
Definition shl64 (x n : Z) : Z := if 64 <=? u64 n then 0 else i64 (Z.shiftl x (u64 n)).

(** The random draw of [rand.Int64N], which panics unless its bound is positive. *)
(* [go] booking/service.go:107-119 backoffFor *)
Definition backoffFor (Int64N : Z → Z) (attempt : Z) : option Z :=
  let attempt := if attempt >? maxBackoffShift then maxBackoffShift else attempt in
  let ceiling := shl64 baseBackoff attempt in
  let ceiling := if (ceiling <=? 0) || (ceiling >? maxBackoff) then maxBackoff else ceiling in
  if i64 (ceiling + 1) <=? 0 then None else Some (Int64N (i64 (ceiling + 1))).

(* [go] booking/service.go:164-170 isRetryable *)
Definition isRetryable (e : err) : bool :=
  match e with EPg c => bool_decide (c = "40001") || bool_decide (c = "40P01") | _ => false end.

(** The context's error, with the retried failure attached when there is one. *)
(* [go] booking/service.go:127-132 retryCtxErr *)
Definition retryCtxErr (lastErr : option err) : err := ECtx lastErr.

Section retry.
Context {S B : Type} (zero : B) (fn : S → result err B * S).
(** Whether the context is done when attempt [k] starts, and whether it is done
before the timer of the back-off after attempt [k] fires. *)
Context (ctx_done asleep_done : Z → bool).

(** The loop; [n] counts the attempts that are left, and the result carries the
number of calls of [fn]. *)
(* [go] booking/service.go:73-98 withRetry *)
Fixpoint retry_loop (maxRetries : Z) (n : nat) (attempt : Z) (lastErr : option err) (s : S)
    : result err B * S * nat :=
  match n with
  | O => (match lastErr with Some e => Err e | None => Ok zero end, s, O)
  | Datatypes.S n =>
      if ctx_done attempt then (Err (retryCtxErr lastErr), s, O) else
      match fn s with
      | (Ok v, s') => (Ok v, s', 1%nat)
      | (Err e, s') =>
          if negb (isRetryable e) then (Err e, s', 1%nat)
          else if attempt =? maxRetries then (Err e, s', 1%nat)
          else if asleep_done attempt then (Err (retryCtxErr (Some e)), s', 1%nat)
          else match retry_loop maxRetries n (attempt + 1) (Some e) s' with
               | (r, s'', k) => (r, s'', Datatypes.S k)
               end
      end
  end.

(* [go] booking/service.go:62-99 withRetry *)
Definition withRetry (maxRetries : Z) (s : S) : result err B * S * nat :=
  let maxRetries := if maxRetries <? 0 then 0 else maxRetries in
  retry_loop maxRetries (Z.to_nat (maxRetries + 1)) 0 None s.

(** [k] calls of [fn] in a row fail with errors that are retried. *)
Inductive failed : nat → S → option err → S → Prop :=
| failed_0 s : failed 0 s None s
| failed_S k s o s' e s'' :
    failed k s o s' → fn s' = (Err e, s'') → isRetryable e = true → failed (Datatypes.S k) s (Some e) s''.

Lemma failed_front k s o s' e s1 :
  fn s = (Err e, s1) → isRetryable e = true → failed k s1 o s' →
  failed (Datatypes.S k) s (Some (default e o)) s'.
Proof.
  intros Hf Hr H. induction H as [s1|k s1 o s2 e' s3 H IH Hf' Hr'].
  - econstructor; [constructor|..]; done.
  - simpl. econstructor; [by apply IH|..]; done.
Qed.

(** How a run of the loop ends after [k] calls. *)
Inductive ended (maxRetries : Z) (att : Z) (lastErr : option err) (s : S) : result err B → S → nat → Prop :=
| end_ok k o s' v s'' : failed k s o s' → fn s' = (Ok v, s'') → ended maxRetries att lastErr s (Ok v) s'' (Datatypes.S k)
| end_err k o s' e s'' :
    failed k s o s' → fn s' = (Err e, s'') →
    isRetryable e = false ∨ att + Z.of_nat k = maxRetries → ended maxRetries att lastErr s (Err e) s'' (Datatypes.S k)
| end_ctx k o s' :
    failed k s o s' → ended maxRetries att lastErr s (Err (ECtx (match o with Some e => Some e | None => lastErr end))) s' k.

Lemma retry_loop_ended maxRetries n att lastErr s r s' k :
  Z.of_nat n = maxRetries + 1 - att → (0 < n)%nat →
  retry_loop maxRetries n att lastErr s = (r, s', k) →
  ended maxRetries att lastErr s r s' k ∧ Z.of_nat k ≤ maxRetries + 1 - att.
Proof.
  revert att lastErr s r s' k. induction n as [|n IH]; intros att lastErr s r s' k Hn Hpos; [lia|].
  simpl. destruct (ctx_done att).
  { intros [= <- <- <-]. split; [apply (end_ctx maxRetries att lastErr s 0 None s); constructor | lia]. }
  destruct (fn s) as [[v|e] s1] eqn:Ef.
  { intros [= <- <- <-]. split; [eapply end_ok; [constructor | done] | lia]. }
  destruct (isRetryable e) eqn:Er; simpl; [|intros [= <- <- <-]; split; [eapply end_err; [constructor|done|by left] | lia]].
  destruct (att =? maxRetries) eqn:Ea; zbool.
  { intros [= <- <- <-]. split; [eapply end_err; [constructor|done|right; simpl; lia] | lia]. }
  destruct (asleep_done att).
  { intros [= <- <- <-]. split; [|lia]. apply (end_ctx maxRetries att lastErr s 1 (Some e) s1).
    econstructor; [constructor|done..]. }
  destruct (retry_loop maxRetries n (att + 1) (Some e) s1) as [[r1 s2] k1] eqn:El. intros [= <- <- <-].
  apply IH in El as [El Hk]; [|lia..]. split; [|lia].
  destruct El as [k o s3 v s4 Hf Hv | k o s3 e1 s4 Hf Hv He | k o s3 Hf].
  - eapply end_ok; [by eapply failed_front | done].
  - eapply end_err; [by eapply failed_front | done|]. destruct He as [?|?]; [by left | right; lia].
  - pose proof (end_ctx maxRetries att lastErr s _ _ _ (failed_front _ _ _ _ _ _ Ef Er Hf)) as H.
    by destruct o.
Qed.
End retry.

Arguments ended {S B} fn maxRetries att lastErr s _ _ _.

(** [withRetry] calls the function at most [maxRetries + 1] times (once for a
negative bound) and ends in one of three ways: with the first success, after
failures that were all retryable; with the error of the last attempt, which is not
retryable or is the last one allowed; or with the context's error, which carries
the retryable failure before it.  It never reports success without a call. *)
Theorem withRetry_ends {S B} (zero : B) (fn : S → result err B * S) ctx_done asleep_done maxRetries s :
  ∃ r s' k, withRetry zero fn ctx_done asleep_done maxRetries s = (r, s', k) ∧
    Z.of_nat k ≤ Z.max 0 maxRetries + 1 ∧ ended fn (Z.max 0 maxRetries) 0 None s r s' k.
Proof.
  unfold withRetry. set (m := if maxRetries <? 0 then 0 else maxRetries).
  assert (m = Z.max 0 maxRetries ∧ 0 ≤ m) as [<- Hm] by (subst m; case_test; zbool; lia).
  destruct (retry_loop zero fn ctx_done asleep_done m (Z.to_nat (m + 1)) 0 None s) as [[r s'] k] eqn:E.
  exists r, s', k. split; [done|].
  apply retry_loop_ended in E as [? ?]; [split; [lia|done]|lia..].
Qed.

(** The first ceilings, up to 640 ms. *)
Lemma shl64_small a :
  0 ≤ a ≤ 6 → shl64 baseBackoff a = baseBackoff * 2 ^ a ∧ baseBackoff * 2 ^ a ≤ maxBackoff.
Proof.
  intros Ha.
  assert (a = 0 ∨ a = 1 ∨ a = 2 ∨ a = 3 ∨ a = 4 ∨ a = 5 ∨ a = 6) as H by lia.
  destruct H as [->|[->|[->|[->|[->|[-> | ->]]]]]]; vm_compute; split; congruence.
Qed.

(** The back-off never panics and lies between 0 and the ceiling, which doubles
from 10 ms and stays at most one second, for every attempt number. *)
Theorem backoffFor_bounds Int64N attempt :
  in_i64 attempt → (∀ n, 0 < n → 0 ≤ Int64N n < n) →
  ∃ b, backoffFor Int64N attempt = Some b ∧ 0 ≤ b ≤ maxBackoff ∧
       (0 ≤ attempt ≤ 6 → b ≤ baseBackoff * 2 ^ attempt).
Proof.
  intros Hatt Hdraw. unfold backoffFor.
  set (att := if attempt >? maxBackoffShift then maxBackoffShift else attempt).
  set (c := shl64 baseBackoff att).
  set (ceil := if (c <=? 0) || (c >? maxBackoff) then maxBackoff else c).
  assert (0 < ceil ≤ maxBackoff ∧ (0 ≤ attempt ≤ 6 → ceil ≤ baseBackoff * 2 ^ attempt)) as [Hc Hc'].
  { split.
    - subst ceil. destruct ((c <=? 0) || (c >? maxBackoff)) eqn:E; [unfold maxBackoff, ms; lia|]. zbool. lia.
    - intros Ha. destruct (shl64_small attempt Ha) as [Hc Hle].
      assert (att = attempt) as Eatt
        by (subst att; destruct (attempt >? maxBackoffShift) eqn:E; zbool; unfold maxBackoffShift in *; lia).
      subst ceil c. rewrite Eatt, Hc. destruct (_ || _) eqn:E; [|lia].
      assert (0 < baseBackoff * 2 ^ attempt) by (unfold baseBackoff, ms; lia).
      apply orb_true_iff in E as [E|E]; zbool; lia. }
  clearbody ceil. assert (i64 (ceil + 1) = ceil + 1) as ->
    by (apply i64_small; unfold in_i64, maxBackoff, ms in *; lia).
  destruct (ceil + 1 <=? 0) eqn:E; zbool; [lia|]. exists (Int64N (ceil + 1)).
  specialize (Hdraw (ceil + 1)). split; [done|]. split; [lia|]. intros Ha. specialize (Hc' Ha). lia.
Qed.

(** ** The seat cache *)

(* [go] booking/model.go:22-27 Seat *)
Record Seat : Type := mkSeatV {
  s_SeatID : string; s_Section : string; s_Status : option status; s_HoldExpiresAt : option Z }.

(* [go] booking/seatcache.go:16-34 seatCache *)
Record seatCache : Type := mkCache { sc_ttl : Z; sc_items : gmap string (list Seat * Z) }.

(* [go] booking/seatcache.go:36-38 newSeatCache *)
Definition newSeatCache (ttl : Z) : seatCache := mkCache ttl ∅.

Definition seatCacheTTL : Z := 1000 * ms.

(* [go] booking/seatcache.go:40-48 get *)
Definition cache_get (now : Z) (matchID : string) (c : seatCache) : option (list Seat) :=
  match sc_items c !! matchID with
  | Some (seats, expiresAt) => if expiresAt <? now then None else Some seats
  | None => None
  end.

(* [go] booking/seatcache.go:50-54 put *)
Definition cache_put (now : Z) (matchID : string) (seats : list Seat) (c : seatCache) : seatCache :=
  mkCache (sc_ttl c) (<[matchID := (seats, now + sc_ttl c)]> (sc_items c)).

(* [go] booking/seatcache.go:60-64 invalidate *)
Definition cache_invalidate (matchID : string) (c : seatCache) : seatCache :=
  mkCache (sc_ttl c) (delete matchID (sc_items c)).

(** The function of the flight: one caller runs it, at the times [t1] of its own
look-up and [t2] of its put. *)
(* [go] booking/seatcache.go:79-91 load *)
Definition flight (t1 t2 : Z) (matchID : string) (loader : result err (list Seat)) (c : seatCache)
    : result err (list Seat) * seatCache :=
  match cache_get t1 matchID c with
  | Some seats => (Ok seats, c)
  | None => match loader with
            | Err e => (Err e, c)
            | Ok seats => (Ok seats, cache_put t2 matchID seats c)
            end
  end.

(** A call that starts or joins the flight; [ctx_done] tells whether its context
ends before the flight. *)
(* [go] booking/seatcache.go:75-101 load *)
Definition load (now t1 t2 : Z) (ctx_done : bool) (matchID : string) (loader : result err (list Seat))
    (c : seatCache) : result err (list Seat) * seatCache :=
  match cache_get now matchID c with
  | Some seats => (Ok seats, c)
  | None => let '(res, c') := flight t1 t2 matchID loader c in
            (if ctx_done then Err (ECtx None) else res, c')
  end.

(* [go] booking/service.go:138-162 ListSeats *)
Definition svc_ListSeats (now t1 t2 : Z) (ctx_done : bool) (matchID : string)
    (rows : result err (list SeatStatus)) (c : seatCache) : result err (list Seat) * seatCache :=
  load now t1 t2 ctx_done matchID
    (match rows with
     | Ok rows => Ok ((fun r => mkSeatV (ss_SeatID r) (ss_Section r) (ss_Status r) (ss_HoldExpiresAt r)) <$> rows)
     | Err e => Err e
     end) c.

(** The operations on a cache over time. *)
Inductive cache_op : Type :=
| CPut (at_ : Z) (m : string) (seats : list Seat)
| CInvalidate (m : string)
| CLoad (now t1 t2 : Z) (ctx_done : bool) (m : string) (loader : result err (list Seat)).

Definition cache_exec (c : seatCache) (o : cache_op) : seatCache :=
  match o with
  | CPut t m seats => cache_put t m seats c
  | CInvalidate m => cache_invalidate m c
  | CLoad now t1 t2 done m loader => (load now t1 t2 done m loader c).2
  end.

(** Where an entry comes from: a put, or the put of a flight. *)
Definition stores (m : string) (seats : list Seat) (p : Z) (o : cache_op) : Prop :=
  match o with
  | CPut t m' s => m' = m ∧ s = seats ∧ t = p
  | CLoad _ _ t2 _ m' (Ok s) => m' = m ∧ s = seats ∧ t2 = p
  | _ => False
  end.

Lemma load_items now t1 t2 done m loader c m' :
  sc_items (load now t1 t2 done m loader c).2 !! m' = sc_items c !! m' ∨
  ∃ seats, loader = Ok seats ∧ m' = m ∧
           sc_items (load now t1 t2 done m loader c).2 !! m' = Some (seats, t2 + sc_ttl c).
Proof.
  unfold load, flight. destruct (cache_get now m c); [by left|]. destruct (cache_get t1 m c); [by left|].
  destruct loader as [seats|e]; simpl; [|by left].
  destruct (decide (m = m')) as [->|]; [right; rewrite lookup_insert_eq; eauto | left; by rewrite lookup_insert_ne].
Qed.

Lemma cache_exec_ttl c o : sc_ttl (cache_exec c o) = sc_ttl c.
Proof. destruct o; simpl; try done. unfold load, flight. by repeat case_match; simplify_eq. Qed.

(** An entry of the cache was stored by one of the operations and has not been
invalidated since. *)
Lemma cache_entry_origin ops c m seats x :
  sc_items c = ∅ → sc_items (fold_left cache_exec ops c) !! m = Some (seats, x) →
  ∃ before o after p, ops = before ++ o :: after ∧ stores m seats p o ∧ x = p + sc_ttl c ∧
    CInvalidate m ∉ after.
Proof.
  intros Hc. revert x. induction ops as [|o ops IH] using rev_ind; intros x; [by simpl; rewrite Hc|].
  rewrite fold_left_app. simpl. intros H.
  assert (sc_ttl (fold_left cache_exec ops c) = sc_ttl c) as Httl.
  { clear. revert c. induction ops as [|o ops IH]; intros c; simpl; [done|]. by rewrite IH, cache_exec_ttl. }
  assert (o ≠ CInvalidate m → sc_items (fold_left cache_exec ops c) !! m = Some (seats, x) →
    ∃ before o' after p, ops ++ [o] = before ++ o' :: after ∧ stores m seats p o' ∧ x = p + sc_ttl c ∧
      CInvalidate m ∉ after) as Hkeep.
  { intros Hq Hx. destruct (IH _ Hx) as (before & o' & after & p & -> & Hst & Hp & Hni).
    exists before, o', (after ++ [o]), p. split_and!; try done; [by rewrite <- app_assoc|].
    rewrite elem_of_app, list_elem_of_singleton. by intros [?|?]. }
  assert (∀ p, stores m seats p o → x = p + sc_ttl c →
    ∃ before o' after p, ops ++ [o] = before ++ o' :: after ∧ stores m seats p o' ∧ x = p + sc_ttl c ∧
      CInvalidate m ∉ after) as Hnew.
  { intros p Hst Hx. exists ops, o, [], p. split_and!; try done. apply not_elem_of_nil. }
  destruct o as [t m' s'|m'|now t1 t2 done m' loader]; simpl in H.
  - destruct (decide (m' = m)) as [->|Hne]; [|rewrite lookup_insert_ne in H by done; by apply Hkeep].
    rewrite lookup_insert_eq in H. simplify_eq. by apply (Hnew t); [|rewrite Httl].
  - destruct (decide (m' = m)) as [->|Hne]; [by rewrite lookup_delete_eq in H|].
    rewrite lookup_delete_ne in H by done. apply Hkeep; [congruence|done].
  - destruct (load_items now t1 t2 done m' loader (fold_left cache_exec ops c) m) as [E|(s & -> & -> & E)].
    + rewrite E in H. by apply Hkeep.
    + rewrite E in H. simplify_eq. by apply (Hnew t2); [|rewrite Httl].
Qed.

(** What a look-up serves was read by a loader and stored at most one TTL ago, and
the match has not been invalidated since. *)
Theorem Seat_map_staleness ops now m seats :
  cache_get now m (fold_left cache_exec ops (newSeatCache seatCacheTTL)) = Some seats →
  ∃ before o after p, ops = before ++ o :: after ∧ stores m seats p o ∧ now ≤ p + seatCacheTTL ∧
    CInvalidate m ∉ after.
Proof.
  unfold cache_get. destruct (sc_items _ !! m) as [[s x]|] eqn:E; [|done].
  destruct (x <? now) eqn:Ex; [done|]. intros [= <-]. zbool.
  apply cache_entry_origin in E as (before & o & after & p & ? & ? & -> & ?); [|done].
  exists before, o, after, p. split_and!; try done.
Qed.

Lemma Seat_map_staleness_witness :
  ∃ before o after p, [CLoad 0 0 5 true "m" (Ok []); CInvalidate "n"] = before ++ o :: after ∧
    stores "m" [] p o ∧ 900000000 ≤ p + seatCacheTTL ∧ CInvalidate "m" ∉ after.
Proof. apply Seat_map_staleness. vm_compute. reflexivity. Defined.

(** ** Service methods *)

(* [go] booking/model.go:5-12 Hold *)
Record Hold : Type := mkHoldV {
  h_ID : Z; h_MatchID : string; h_SeatID : string; h_BuyerID : string; h_Status : status; h_HoldExpiresAt : option Z }.

(* [go] booking/model.go:14-20 Booking *)
Record Booking : Type := mkBookingV {
  k_ID : Z; k_MatchID : string; k_SeatID : string; k_Status : status; k_ConfirmedAt : option Z }.

Definition hold_of (r : BookingRow) : Hold :=
  mkHoldV (r_ID r) (r_MatchID r) (r_SeatID r) (r_BuyerID r) (r_Status r) (r_HoldExpiresAt r).
Definition booking_of (r : BookingRow) : Booking :=
  mkBookingV (r_ID r) (r_MatchID r) (r_SeatID r) (r_Status r) (r_ConfirmedAt r).

Definition map_ok {A B} (f : A → B) (r : result err A) : result err B :=
  match r with Ok a => Ok (f a) | Err e => Err e end.

Section service.
(** [S] is the state of the store; the calls of the store are arguments. *)
Context {S : Type}.
Context (ctx_done asleep_done : Z → bool) (maxRetries : Z).

Definition zero_hold : Hold := mkHoldV 0 "" "" "" Expired None.
Definition zero_booking : Booking := mkBookingV 0 "" "" Expired None.

(** A write retried by [withRetry], and the invalidation after a success. *)
Definition write_retried {A B} (zero : B) (conv : A → B) (match_of : B → string)
    (call : S → result err A * S) (s : S) (c : seatCache) : result err B * S * seatCache :=
  let '(res, s', _) := withRetry zero (fun s => let '(r, s') := call s in (map_ok conv r, s'))
                         ctx_done asleep_done maxRetries s in
  (res, s', match res with Ok b => cache_invalidate (match_of b) c | Err _ => c end).

(* [go] booking/hold.go:18-41 placeHold *)
Definition svc_placeHold (matchID : string) (call : S → result err BookingRow * S) :=
  write_retried zero_hold hold_of (fun _ => matchID) call.

(* [go] booking/confirm.go:5-22 ConfirmHold *)
Definition svc_ConfirmHold (call : S → result err BookingRow * S) :=
  write_retried zero_booking booking_of k_MatchID call.

(** The store's [CancelBooking] is an argument; the confirmation time is left out
of its result. *)
(* [go] booking/cancel.go:8-26 CancelBooking *)
Definition svc_CancelBooking (call : S → result err BookingRow * S) :=
  write_retried zero_booking
    (fun r => mkBookingV (r_ID r) (r_MatchID r) (r_SeatID r) (r_Status r) None) k_MatchID call.

(* [go] booking/hold.go:43-54 ReleaseHold *)
Definition svc_ReleaseHold (call : S → result err string * S) (s : S) (c : seatCache)
    : result err unit * S * seatCache :=
  match call s with
  | (Ok matchID, s') => (Ok tt, s', cache_invalidate matchID c)
  | (Err e, s') => (Err e, s', c)
  end.

(** After a hold is placed the seat map of its match is read afresh, those of the
other matches stay cached; a failed call leaves the cache alone. *)
Theorem placeHold_invalidates matchID call s c res s' c' :
  svc_placeHold matchID call s c = (res, s', c') →
  (∀ now m, m ≠ matchID → cache_get now m c' = cache_get now m c) ∧
  match res with
  | Ok _ => ∀ now, cache_get now matchID c' = None
  | Err _ => c' = c
  end.
Proof.
  unfold svc_placeHold, write_retried. destruct (withRetry _ _ _ _ _ _) as [[r s1] k].
  intros [= <- <- <-]. unfold cache_get. destruct r as [h|e]; simpl; [|done].
  split; [|intros now; by rewrite lookup_delete_eq]. intros now m Hm. by rewrite lookup_delete_ne.
Qed.
End service.

(** ** Handlers *)

(** A response: the status code and, for errors, the text in the body. *)
Record response : Type := mkResp { code : Z; error_text : option string }.

Definition maxBuyerIDLen : nat := 255.
Definition maxIdempotencyKeyLen : nat := 255.

(* [go] httpapi/render.go:37-39 validBuyerID *)
Definition validBuyerID (id : string) : bool :=
  negb (bool_decide (id = "")) && (String.length id <=? maxBuyerIDLen)%nat.

(* [go] httpapi/render.go:43-45 validIdempotencyKey *)
Definition validIdempotencyKey (key : string) : bool := (String.length key <=? maxIdempotencyKeyLen)%nat.

(* [go] httpapi/errors.go:13-28 writeError *)
Definition writeError (e : err) : response :=
  match e with
  | ErrSeatUnavailable => mkResp 409 (Some "seat_unavailable")
  | ErrHoldExpired => mkResp 409 (Some "hold_expired")
  | ErrNotFound => mkResp 404 (Some "not_found")
  | ErrIdempotencyKeyReuse => mkResp 422 (Some "idempotency_key_reuse")
  | _ => mkResp 500 (Some "internal_error")
  end.

(** The body is the decoded buyer, [None] when it is not valid JSON or too long; an
absent body decodes to the empty buyer. *)
(* [go] httpapi/render.go:23-35 parseIDAndBuyer *)
Definition parseIDAndBuyer (path : string) (body : option string) : result response (Z * string) :=
  match ParseInt path with
  | None => Err (mkResp 400 (Some "invalid id"))
  | Some id =>
      match body with
      | Some b => if validBuyerID b then Ok (id, b) else Err (mkResp 400 (Some "buyer_id required"))
      | None => Err (mkResp 400 (Some "buyer_id required"))
      end
  end.

Section handlers.
Context {X : Type}.

(* [go] httpapi/holds.go:10-35 handleHold *)
Definition handleHold (body : option string) (key : string)
    (place : string → string → X → result err Hold * X) (x : X) : response * X :=
  match body with
  | Some buyer =>
      if negb (validBuyerID buyer) then (mkResp 400 (Some "buyer_id required"), x)
      else if negb (validIdempotencyKey key) then (mkResp 400 (Some "invalid idempotency key"), x)
      else match place buyer key x with
           | (Ok _, x') => (mkResp 201 None, x')
           | (Err e, x') => (writeError e, x')
           end
  | None => (mkResp 400 (Some "buyer_id required"), x)
  end.

(** The handlers of a path id and a buyer, with their success code. *)
Definition handle_id {B} (ok : Z) (path : string) (body : option string)
    (op : Z → string → X → result err B * X) (x : X) : response * X :=
  match parseIDAndBuyer path body with
  | Err r => (r, x)
  | Ok (id, buyer) =>
      match op id buyer x with
      | (Ok _, x') => (mkResp ok None, x')
      | (Err e, x') => (writeError e, x')
      end
  end.

(* [go] httpapi/holds.go:37-51 handleConfirm *)
Definition handleConfirm := handle_id (B := Booking) 200.

(* [go] httpapi/holds.go:53-64 handleRelease *)
Definition handleRelease := handle_id (B := unit) 204.

(* [go] httpapi/cancel.go:5-17 handleCancel *)
Definition handleCancel := handle_id (B := Booking) 200.

(* [go] httpapi/bookings.go:13-26 handleListBookings *)
Definition handleListBookings {B} (buyerID : string) (list_ : X → result err B * X) (x : X) : response * X :=
  if negb (validBuyerID buyerID) then (mkResp 400 (Some "buyer_id required"), x)
  else match list_ x with
       | (Ok _, x') => (mkResp 200 None, x')
       | (Err e, x') => (writeError e, x')
       end.

(** The response of the hold handler decides what happened: 400 without a call of
the service, 201 exactly for a hold, and for the errors of the store the code of
the contract: 409 for a conflict, 422 for a reused key, and 500 for what is not a
domain error. *)
Theorem handleHold_codes body key place x r x' :
  handleHold body key place x = (r, x') →
  (code r = 400 ∧ x' = x ∧
     (body = None ∨ validIdempotencyKey key = false ∨ ∃ b, body = Some b ∧ validBuyerID b = false)) ∨
  ∃ buyer, body = Some buyer ∧ validBuyerID buyer = true ∧ validIdempotencyKey key = true ∧
    match place buyer key x with
    | (Ok _, y) => code r = 201 ∧ x' = y
    | (Err e, y) => x' = y ∧
        (e = ErrSeatUnavailable ∨ e = ErrHoldExpired ↔ code r = 409) ∧ (e = ErrNotFound ↔ code r = 404) ∧
        (e = ErrIdempotencyKeyReuse ↔ code r = 422) ∧
        ((∃ c, e = EPg c) ∨ (∃ l, e = ECtx l) ∨ e = EOther ↔ code r = 500)
    end.
Proof.
  unfold handleHold. destruct body as [buyer|]; [|intros [= <- <-]; left; auto].
  destruct (validBuyerID buyer) eqn:Eb; simpl; [|intros [= <- <-]; left; eauto 8].
  destruct (validIdempotencyKey key) eqn:Ek; simpl; [|intros [= <- <-]; left; auto].
  intros E. right. exists buyer. split_and!; try done.
  destruct (place buyer key x) as [[h|e] y]; [by simplify_eq|].
  injection E as <- <-. destruct e; simpl; split_and!; try done; naive_solver.
Qed.
End handlers.

Lemma handleHold_codes_witness :
  code (handleHold (X := unit) (Some "ann") "" (fun _ _ x => (Err ErrSeatUnavailable, x)) tt).1 = 409.
Proof.
  destruct (handleHold_codes (X := unit) (Some "ann") "" (fun _ _ x => (Err ErrSeatUnavailable, x)) tt
    (mkResp 409 (Some "seat_unavailable")) tt eq_refl) as [[H _]|(b & Hb & _ & _ & H)]; [discriminate H|].
  destruct H as (_ & H & _). apply H. left. reflexivity.
Defined.

Lemma placeHold_invalidates_witness :
  ∀ now, cache_get now "m" (cache_invalidate "m" (cache_put 0 "m" [] (newSeatCache 5))) = None.
Proof.
  apply (placeHold_invalidates (S := unit) (fun _ => false) (fun _ => false) 3 "m"
    (fun s => (Ok (mkRow 1 "m" "A1" "ann" Held None None), s)) tt (cache_put 0 "m" [] (newSeatCache 5))
    (Ok (mkHoldV 1 "m" "A1" "ann" Held None)) tt _ eq_refl).
Defined.

Lemma backoffFor_bounds_witness :
  ∃ b, backoffFor (fun n => n - 1) 3 = Some b ∧ 0 ≤ b ≤ maxBackoff ∧ (0 ≤ 3 ≤ 6 → b ≤ baseBackoff * 2 ^ 3).
Proof. apply backoffFor_bounds; [unfold in_i64; lia | intros; lia]. Defined.

(** ** The rate limiter *)

(* [go] httpapi/ratelimit.go:18-18 limiterIdleTTL *)
Definition limiterIdleTTL : Z := 600000 * ms.

Section limiter.
(** The token bucket of [golang.org/x/time/rate]: a new one, and [Allow] at a time. *)
Context {L : Type} (newLimiter : L) (Allow : Z → L → bool * L).

(** The entries: a bucket and when it was last used. *)
Abbreviation limiters := (gmap string (L * Z)).

(* [go] httpapi/ratelimit.go:34-38 newIPRateLimiter *)
Definition newIPRateLimiter : limiters := ∅.

(** The clock readings of one call are taken as one. *)
(* [go] httpapi/ratelimit.go:40-51 allow *)
Definition allow (now : Z) (ip : string) (m : limiters) : bool * limiters :=
  let l := match m !! ip with Some (l, _) => l | None => newLimiter end in
  let '(ok, l') := Allow now l in
  (ok, <[ip := (l', now)]> m).

(* [go] httpapi/ratelimit.go:60-69 cleanupLoop *)
Definition cleanup (now : Z) (m : limiters) : limiters :=
  let cutoff := now - limiterIdleTTL in
  filter (fun p => ¬ p.2.2 < cutoff) m.

(** A request passes the middleware: reads are not limited. *)
(* [go] httpapi/ratelimit.go:79-97 rateLimitMiddleware *)
Definition rate_limited (SplitHostPort : string → option string) (now : Z) (is_get : bool) (remote : string)
    (next : response) (m : limiters) : response * limiters :=
  if is_get then (next, m)
  else
    let ip := match SplitHostPort remote with Some ip => ip | None => remote end in
    match allow now ip m with
    | (false, m') => (mkResp 429 (Some "rate_limited"), m')
    | (true, m') => (next, m')
    end.

(** Requests and ticks of the janitor, each with its time. *)
Inductive lim_op : Type := LReq (now : Z) (ip : string) | LTick (now : Z).
Definition op_time (o : lim_op) : Z := match o with LReq now _ | LTick now => now end.

Fixpoint lim_run (ops : list lim_op) (m : limiters) : list bool :=
  match ops with
  | [] => []
  | LReq now ip :: ops => let '(ok, m') := allow now ip m in ok :: lim_run ops m'
  | LTick now :: ops => lim_run ops (cleanup now m)
  end.

(** The same requests without a janitor. *)
Definition is_req (o : lim_op) : Prop := match o with LReq _ _ => True | LTick _ => False end.
#[global] Instance is_req_dec o : Decision (is_req o).
Proof. destruct o; simpl; apply _. Defined.

(** A bucket that has been idle for longer than the TTL answers like a new one. *)
Hypothesis idle_refills : ∀ l t0 t1, limiterIdleTTL < t1 - t0 → Allow t1 (Allow t0 l).2 = Allow t1 newLimiter.

(** The limiters of two runs agree, up to entries that have gone idle. *)
Definition agree (now : Z) (m m' : limiters) : Prop :=
  ∀ ip, match m' !! ip with
        | Some (l', seen) => (∃ l, l' = (Allow seen l).2) ∧ seen ≤ now ∧
            (m !! ip = Some (l', seen) ∨ (m !! ip = None ∧ seen < now - limiterIdleTTL))
        | None => m !! ip = None
        end.

Lemma agree_later now now' m m' : now ≤ now' → agree now m m' → agree now' m m'.
Proof.
  intros Hle Ha ip. specialize (Ha ip). destruct (m' !! ip) as [[l' seen]|]; [|done].
  destruct Ha as (? & ? & [?|[? ?]]); split_and!; try done; try lia; [by left|right; split; [done|lia]].
Qed.

Lemma agree_allow now ip m m' :
  agree now m m' → (allow now ip m).1 = (allow now ip m').1 ∧ agree now (allow now ip m).2 (allow now ip m').2.
Proof.
  intros Ha. unfold allow.
  assert (Allow now (match m !! ip with Some (l, _) => l | None => newLimiter end) =
          Allow now (match m' !! ip with Some (l, _) => l | None => newLimiter end)) as ->.
  { specialize (Ha ip). destruct (m' !! ip) as [[l' seen]|]; [|by rewrite Ha].
    destruct Ha as ([l ->] & _ & [-> | [-> ?]]); [done|]. symmetry. apply idle_refills. lia. }
  destruct (Allow now _) as [ok l'] eqn:E. simpl. split; [done|]. intros ip'. rewrite !lookup_insert.
  case_decide; [|apply Ha]. split_and!; [eexists; by rewrite E | lia | by left].
Qed.

Lemma agree_cleanup now m m' : agree now m m' → agree now (cleanup now m) m'.
Proof.
  intros Ha ip. specialize (Ha ip). unfold cleanup.
  destruct (m' !! ip) as [[l' seen]|].
  - destruct Ha as (? & ? & [Hm|[Hm Hs]]); split_and!; try done.
    + destruct (decide (seen < now - limiterIdleTTL)).
      * right. split; [|done]. apply map_lookup_filter_None. right. intros x Hx. simplify_eq. simpl. lia.
      * left. apply map_lookup_filter_Some. done.
    + right. split; [|done]. apply map_lookup_filter_None. by left.
  - apply map_lookup_filter_None. by left.
Qed.

(** Evicting idle entries changes no decision: for requests and ticks at times
that do not go back, the limiter answers as it would without the janitor. *)
Theorem Janitor_changes_no_decision ops m :
  StronglySorted (fun o o' => op_time o ≤ op_time o') ops → m = ∅ →
  lim_run ops m = lim_run (filter is_req ops) m.
Proof.
  intros Hs ->.
  assert (∀ now m m', agree now m m' → Forall (fun o => now ≤ op_time o) ops →
            lim_run ops m = lim_run (filter is_req ops) m') as Hsim.
  { induction Hs as [|o ops Hs IH Ho]; intros now m m' Ha Hn; [done|].
    apply Forall_cons in Hn as [Hn _]. pose proof (agree_later _ _ _ _ Hn Ha) as Ha'.
    destruct o as [t ip|t]; rewrite filter_cons; simpl in Hn, Ha'.
    - rewrite decide_True by done. simpl. destruct (agree_allow t ip m m' Ha') as [H1 H2].
      destruct (allow t ip m) as [ok m1], (allow t ip m') as [ok' m1']. simpl in *. subst. f_equal. eauto.
    - rewrite decide_False by (intros []). eapply IH; [by apply agree_cleanup | done]. }
  destruct ops as [|o ops]; [done|].
  apply (Hsim (op_time o)); [by intros ip; rewrite lookup_empty|]. apply Forall_cons. split; [lia|].
  by apply StronglySorted_inv in Hs as [_ Hs].
Qed.
End limiter.

(** A token bucket over the integers: one token each 100 ms, at most 20. *)
Definition bucket : Type := Z * option Z.
Definition bucket_allow (now : Z) (b : bucket) : bool * bucket :=
  let tokens := match b with
                | (_, None) => 20
                | (n, Some last) => Z.max 0 (Z.min 20 (n + (now - last) / (100 * ms)))
                end in
  if 1 <=? tokens then (true, (tokens - 1, Some now)) else (false, (tokens, Some now)).

Lemma bucket_refills (b : bucket) t0 t1 :
  limiterIdleTTL < t1 - t0 → bucket_allow t1 (bucket_allow t0 b).2 = bucket_allow t1 (0, None).
Proof.
  intros Ht. assert (∃ n, 0 ≤ n ∧ (bucket_allow t0 b).2 = (n, Some t0)) as (n & Hn & ->).
  { unfold bucket_allow. destruct b as [n [last|]]; case_test; zbool; simpl; eexists; (split; [|done]); lia. }
  unfold bucket_allow. assert (Z.max 0 (Z.min 20 (n + (t1 - t0) / (100 * ms))) = 20) as ->; [|done].
  unfold limiterIdleTTL, ms in *. assert (20 ≤ (t1 - t0) / (100 * 1000000)) by (apply Z.div_le_lower_bound; lia). lia.
Qed.

Lemma Janitor_changes_no_decision_witness :
  lim_run (0, None) bucket_allow [LReq 0 "a"; LTick (700000 * ms); LReq (700000 * ms) "a"] ∅ =
  lim_run (0, None) bucket_allow (filter is_req [LReq 0 "a"; LTick (700000 * ms); LReq (700000 * ms) "a"]) ∅.
Proof.
  apply Janitor_changes_no_decision; [intros; apply bucket_refills; assumption | | reflexivity].
  repeat (constructor; [|repeat constructor; vm_compute; discriminate]). constructor.
Defined.

(** ** Configuration *)

(* [go] config/config.go:13-21 Config *)
Record Config : Type := mkConfig {
  c_DatabaseURL : string; c_HoldTTL : Z; c_PoolMaxConns : Z; c_RequestTimeout : Z;
  c_OutboxBatchSize : Z; c_MaxRetries : Z; c_RateLimitEnabled : bool }.

Definition second : Z := 1000 * ms.
Definition minute : Z := 60 * second.
Definition hour : Z := 60 * minute.

(** Which check of [Validate] fails. *)
(* [go] config/config.go:48-68 Validate *)
Definition Validate (c : Config) : result string unit :=
  if c_HoldTTL c <=? 0 then Err "HOLD_TTL must be > 0"
  else if c_HoldTTL c >? hour then Err "HOLD_TTL exceeds sane upper bound (1h)"
  else if c_PoolMaxConns c <=? 0 then Err "POOL_MAX_CONNS must be > 0"
  else if c_RequestTimeout c <=? 0 then Err "REQUEST_TIMEOUT must be > 0"
  else if c_OutboxBatchSize c <=? 0 then Err "OUTBOX_BATCH_SIZE must be > 0"
  else if c_MaxRetries c <? 0 then Err "MAX_RETRIES must be >= 0"
  else Ok tt.

Section environment.
(** The environment, empty for unset variables. *)
Context (env : string → string).

(* [go] config/config.go:70-75 getEnv *)
Definition getEnv (key fallback : string) : string := if bool_decide (env key = "") then fallback else env key.

Definition get_parsed {A} (parse : string → option A) (key : string) (fallback : A) : A :=
  if bool_decide (env key = "") then fallback
  else match parse (env key) with Some v => v | None => fallback end.

(* [go] config/config.go:77-84 getDuration *)
Definition getDuration := get_parsed ParseDuration.

(* [go] config/config.go:86-93 getBool *)
Definition getBool := get_parsed ParseBool.

(* [go] config/config.go:95-102 getInt *)
Definition getInt := get_parsed ParseInt.

(* [go] config/config.go:23-44 Load *)
Definition Load : result string Config :=
  let c := mkConfig (getEnv "DATABASE_URL" "postgres:///cricket_stadium_booking?host=/tmp")
             (getDuration "HOLD_TTL" (5 * minute)) (i32 (getInt "POOL_MAX_CONNS" 20))
             (getDuration "REQUEST_TIMEOUT" (2 * second)) (getInt "OUTBOX_BATCH_SIZE" 100)
             (getInt "MAX_RETRIES" 3) (getBool "RATE_LIMIT_ENABLED" false) in
  match Validate c with Ok _ => Ok c | Err e => Err e end.

(** Without variables the defaults load. *)
Theorem Load_defaults :
  (∀ k, env k = "") →
  Load = Ok (mkConfig "postgres:///cricket_stadium_booking?host=/tmp" (5 * minute) 20 (2 * second) 100 3 false).
Proof.
  intros He. unfold Load, getEnv, getDuration, getBool, getInt, get_parsed.
  rewrite !He. vm_compute. reflexivity.
Qed.
End environment.

(** A value that does not parse is replaced by the default without a word; one that
parses out of range is refused; and a pool size beyond 32 bits wraps. *)
Example Load_values :
  (fun v => c_HoldTTL <$> match Load v with Ok c => Some c | Err _ => None end) (fun k => if String.eqb k "HOLD_TTL" then "soon" else "") = Some (5 * minute) ∧
  Load (fun k => if String.eqb k "HOLD_TTL" then "61m" else "") = Err "HOLD_TTL exceeds sane upper bound (1h)" ∧
  (fun v => c_PoolMaxConns <$> match Load v with Ok c => Some c | Err _ => None end) (fun k => if String.eqb k "POOL_MAX_CONNS" then "4294967297" else "") = Some 1.
Proof. vm_compute. repeat split. Qed.

