(* ===== verification/Rides.v ===== *)
(** * kafkaeda: ride requests, dispatch, projections, outbox and consumers

The event-driven ride service.  A transaction is one step on the tables ([RidesDispatch]
takes those of the dispatch service apart): it
takes effect, fails without effect, or takes effect and loses its reply; the
rows that concurrent transactions hold locked are the sets that FOR UPDATE SKIP
LOCKED skips.  Statements inside a transaction are run in the error monad [tx],
so that an error rolls everything back.  The outbox relay appends to the log of
its topics before its transaction commits; the consumers read the log, process
each event in a transaction with its idempotency record, and commit offsets;
both may stop anywhere.  Coordinates, the distance order and the identifiers that
[id.New] draws are arguments. *)

From Stdlib Require Import ZArith Lia.
From stdpp Require Import base gmap strings fin_maps fin_sets relations list.
From S2P Require Import Prelude GoStrings.

Open Scope Z_scope.

(* [base] kafkaeda/internal *)

(** ** Events *)

Section rides.
(** Coordinates, and whether one is a number between [-b] and [b]. *)
Context {F : Type} (inside : Z → F → bool).

Definition RideRequestedTopic : string := "ride.requested.v1".
Definition DriverLocationTopic : string := "driver.location.updated.v1".
Definition RideAssignedTopic : string := "ride.assigned.v1".
Definition RideDispatchDeferredTopic : string := "ride.dispatch.deferred.v1".
Definition RideStatusChangedTopic : string := "ride.status.changed.v1".

(** The payloads of the five topics. *)
(* [go] events/events.go:46-80 RideRequested *)
Inductive payload : Type :=
| RideRequested (RideID RiderName : string) (PickupLatitude PickupLongitude : F) (Destination : string)
| DriverLocationUpdated (DriverID : string) (Latitude Longitude : F)
| RideAssigned (RideID AssignmentID DriverID DriverName DriverPhone VehicleLabel Color : string)
| RideDispatchDeferred (RideID Reason : string)
| RideStatusChanged (RideID Previous Current DriverID : string).

(* [go] events/events.go:18-27 Envelope *)
Record Envelope : Type := mkEnvelope {
  EventID : string; EventType : string; SchemaVersion : Z; OccurredAt : Z; Producer : string;
  CorrelationID : string; CausationID : string; Data : payload }.

(* [go] events/events.go:29-44 New *)
Definition New (id : string) (now : Z) (eventType producer correlationID causationID : string) (data : payload)
    : Envelope :=
  mkEnvelope id eventType 1 now producer correlationID causationID data.

(** ** Tables *)

Definition StatusRequested : string := "REQUESTED".
Definition StatusSearching : string := "SEARCHING_DRIVER".
Definition StatusAssigned : string := "DRIVER_ASSIGNED".

Record ride_row : Type := mkRide {
  rd_rider : string; rd_lat : F; rd_long : F; rd_dest : string; rd_status : string;
  rd_corr : string; rd_requested : Z; rd_updated : Z }.

(** The driver of a ride, as [ride.ride_drivers] and the events carry it. *)
(* [go] ride/service.go:104-110 Driver *)
Record Driver : Type := mkDriver {
  dv_ID : string; dv_Name : string; dv_Phone : string; dv_VehicleLabel : string; dv_Color : string }.

Record avail_row : Type := mkAvail {
  av_name : string; av_phone : string; av_vehicle : string; av_color : string;
  av_lat : F; av_long : F; av_free : bool; av_updated : Z }.

Record pending_row : Type := mkPending {
  pn_rider : string; pn_lat : F; pn_long : F; pn_dest : string; pn_requested : Z }.

Record assignment : Type := mkAsg { as_ride : string; as_driver : Driver; as_lat : F; as_long : F }.

Record out_row : Type := mkOut {
  o_topic : string; o_key : string; o_env : Envelope; o_created : Z;
  o_published : option Z; o_attempts : Z; o_error : bool }.

Record act_row : Type := mkAct { ac_ride : string; ac_kind : string; ac_title : string; ac_at : Z; ac_data : payload }.

Record db : Type := mkDb {
  rides : gmap string ride_row;
  ride_drivers : gmap string Driver;
  drivers : gmap string (F * F);
  avail : gmap string avail_row;
  pending : gmap string pending_row;
  assignments : gmap string assignment;
  processed : gset (string * string);
  outbox : gmap string out_row;
  ride_activity : gmap string act_row }.

Definition with_rides x d := mkDb x (ride_drivers d) (drivers d) (avail d) (pending d) (assignments d) (processed d) (outbox d) (ride_activity d).
Definition with_ride_drivers x d := mkDb (rides d) x (drivers d) (avail d) (pending d) (assignments d) (processed d) (outbox d) (ride_activity d).
Definition with_drivers x d := mkDb (rides d) (ride_drivers d) x (avail d) (pending d) (assignments d) (processed d) (outbox d) (ride_activity d).
Definition with_avail x d := mkDb (rides d) (ride_drivers d) (drivers d) x (pending d) (assignments d) (processed d) (outbox d) (ride_activity d).
Definition with_pending x d := mkDb (rides d) (ride_drivers d) (drivers d) (avail d) x (assignments d) (processed d) (outbox d) (ride_activity d).
Definition with_assignments x d := mkDb (rides d) (ride_drivers d) (drivers d) (avail d) (pending d) x (processed d) (outbox d) (ride_activity d).
Definition with_processed x d := mkDb (rides d) (ride_drivers d) (drivers d) (avail d) (pending d) (assignments d) x (outbox d) (ride_activity d).
Definition with_outbox x d := mkDb (rides d) (ride_drivers d) (drivers d) (avail d) (pending d) (assignments d) (processed d) x (ride_activity d).
Definition with_activity x d := mkDb (rides d) (ride_drivers d) (drivers d) (avail d) (pending d) (assignments d) (processed d) (outbox d) x.

(** ** Transactions

A transaction body returns an error, after which nothing of it remains, or a value
and the new tables. *)

Inductive terr : Type := EDecode | EConflict | ENoRows | EInvalid (what : string) | EFault.

Definition tx (A : Type) : Type := db → result terr (A * db).
Definition ret {A} (a : A) : tx A := fun d => Ok (a, d).
Definition fail {A} (e : terr) : tx A := fun _ => Err e.
Definition bind {A B} (m : tx A) (k : A → tx B) : tx B :=
  fun d => match m d with Ok (a, d') => k a d' | Err e => Err e end.
Definition read {A} (f : db → A) : tx A := fun d => Ok (f d, d).
Definition modify (f : db → db) : tx unit := fun d => Ok (tt, f d).

Local Notation "x <- m ;; k" := (bind m (fun x => k)) (at level 100, m at next level, k at level 200, right associativity).
Local Notation "m ;;; k" := (bind m (fun _ => k)) (at level 100, k at level 200, right associativity).

(* [go] platform/outbox/outbox.go:16-28 Add *)
Definition outbox_Add (now : Z) (topic key : string) (event : Envelope) : tx unit :=
  o <- read outbox ;;
  match o !! EventID event with
  | Some _ => fail EConflict
  | None => modify (with_outbox (<[EventID event := mkOut topic key event now None 0 false]> o))
  end.

(** ** Ride API *)

(* [go] ride/service.go:25-30 CreateCommand *)
Record CreateCommand : Type := mkCommand {
  RiderName : string; PickupLatitude : F; PickupLongitude : F; Destination : string }.

(* [go] ride/service.go:74-90 validate *)
Definition validate (c : CreateCommand) : option terr :=
  let name := TrimSpace (RiderName c) in
  let dest := TrimSpace (Destination c) in
  if bool_decide (name = "") || (80 <? String.length name)%nat then Some (EInvalid "rider_name")
  else if bool_decide (dest = "") || (200 <? String.length dest)%nat then Some (EInvalid "destination")
  else if negb (inside 90 (PickupLatitude c)) then Some (EInvalid "pickup_latitude")
  else if negb (inside 180 (PickupLongitude c)) then Some (EInvalid "pickup_longitude")
  else None.

(** The identifiers [rideID], [corr] and [eventID] are drawn by [id.New]. *)
(* [go] ride/service.go:36-72 Create *)
Definition Create (now : Z) (rideID corr eventID : string) (c : CreateCommand) : tx ride_row :=
  let c := mkCommand (TrimSpace (RiderName c)) (PickupLatitude c) (PickupLongitude c) (TrimSpace (Destination c)) in
  match validate c with
  | Some e => fail e
  | None =>
      let row := mkRide (RiderName c) (PickupLatitude c) (PickupLongitude c) (Destination c) StatusRequested corr now now in
      rs <- read rides ;;
      match rs !! rideID with
      | Some _ => fail EConflict
      | None =>
          modify (with_rides (<[rideID := row]> rs)) ;;;
          outbox_Add now RideRequestedTopic rideID
            (New eventID now "ride.requested" "ride-api" corr ""
               (RideRequested rideID (RiderName c) (PickupLatitude c) (PickupLongitude c) (Destination c))) ;;;
          ret row
      end
  end.

(** A ride and its driver, as the API shows it. *)
(* [go] ride/service.go:112-134 Get *)
Definition Get (rideID : string) (d : db) : result terr (ride_row * option Driver) :=
  match rides d !! rideID with
  | Some r => Ok (r, ride_drivers d !! rideID)
  | None => Err ENoRows
  end.

(** ** Driver API *)

(* [go] driver/http.go:74-100 recordLocation *)
Definition recordLocation (now : Z) (eventID driverID : string) (lat long : F) : tx unit :=
  if bool_decide (driverID = "") then fail (EInvalid "driver id")
  else if negb (inside 90 lat) then fail (EInvalid "latitude")
  else if negb (inside 180 long) then fail (EInvalid "longitude")
  else
    ds <- read drivers ;;
    match ds !! driverID with
    | None => fail ENoRows
    | Some _ =>
        modify (with_drivers (<[driverID := (lat, long)]> ds)) ;;;
        outbox_Add now DriverLocationTopic driverID
          (New eventID now "driver.location.updated" "driver-api" "" "" (DriverLocationUpdated driverID lat long))
    end.

(** ** Dispatch *)

(** The orders of the two ORDER BY clauses, with any way to break ties. *)
Context (closer : F → F → string * avail_row → string * avail_row → bool).
Context (older : string * pending_row → string * pending_row → bool).

(** ORDER BY with LIMIT 1. *)
Definition first_by {A} (lt : string * A → string * A → bool) (m : gmap string A) : option (string * A) :=
  foldr (fun p best => match best with
                       | Some q => if lt q p then Some q else Some p
                       | None => Some p
                       end) None (map_to_list m).

Definition driver_of (p : string * avail_row) : Driver :=
  mkDriver p.1 (av_name p.2) (av_phone p.2) (av_vehicle p.2) (av_color p.2).

Definition set_busy (now : Z) (r : avail_row) : avail_row :=
  mkAvail (av_name r) (av_phone r) (av_vehicle r) (av_color r) (av_lat r) (av_long r) false now.

(** The available drivers that no concurrent transaction holds locked. *)
Definition candidates (skip : gset string) (d : db) : gmap string avail_row :=
  filter (fun p => av_free p.2 = true ∧ p.1 ∉ skip) (avail d).

(* [go] dispatch/service.go:101-147 reserveDriver *)
Definition reserveDriver (now : Z) (skip : gset string) (assignmentID eventID : string) (env : Envelope)
    (rideID : string) (lat long : F) : tx bool :=
  c <- read (fun d => first_by (closer lat long) (candidates skip d)) ;;
  match c with
  | None => ret false
  | Some (id, row) =>
      let driver := driver_of (id, row) in
      av <- read avail ;;
      if negb (bool_decide (av_free <$> av !! id = Some true)) then ret false else
      modify (with_avail (<[id := set_busy now row]> av)) ;;;
      asg <- read assignments ;;
      (if bool_decide (is_Some (asg !! assignmentID)) || existsb (fun p => bool_decide (as_ride p.2 = rideID)) (map_to_list asg)
       then fail EConflict
       else modify (with_assignments (<[assignmentID := mkAsg rideID driver lat long]> asg))) ;;;
      pn <- read pending ;;
      modify (with_pending (delete rideID pn)) ;;;
      outbox_Add now RideAssignedTopic rideID
        (New eventID now "ride.assigned" "dispatch-service" (CorrelationID env) (EventID env)
           (RideAssigned rideID assignmentID (dv_ID driver) (dv_Name driver) (dv_Phone driver)
                         (dv_VehicleLabel driver) (dv_Color driver))) ;;;
      ret true
  end.

(** The tables are read by [reserveDriver] with the rows it may not skip; [skip] are
the drivers and rides that concurrent transactions hold locked. *)
(* [go] dispatch/service.go:31-60 handleRideRequested *)
Definition handleRideRequested (now : Z) (skip : gset string) (id1 id2 : string) (env : Envelope) : tx unit :=
  match Data env with
  | RideRequested rideID rider lat long dest =>
      pn <- read pending ;;
      match pn !! rideID with
      | Some _ => ret tt
      | None =>
          modify (with_pending (<[rideID := mkPending rider lat long dest now]> pn)) ;;;
          matched <- reserveDriver now skip id1 id2 env rideID lat long ;;
          if negb matched
          then outbox_Add now RideDispatchDeferredTopic rideID
                 (New id2 now "ride.dispatch.deferred" "dispatch-service" (CorrelationID env) (EventID env)
                    (RideDispatchDeferred rideID "no driver currently available"))
          else ret tt
      end
  | _ => fail EDecode
  end.

(* [go] dispatch/service.go:78-95 matchOldestPending *)
Definition matchOldestPending (now : Z) (skip : gset string) (id1 id2 : string) (env : Envelope) : tx unit :=
  c <- read (fun d => first_by older (filter (fun p => p.1 ∉ skip) (pending d))) ;;
  match c with
  | None => ret tt
  | Some (rideID, row) =>
      _ <- reserveDriver now skip id1 id2 env rideID (pn_lat row) (pn_long row) ;;
      ret tt
  end.

(* [go] dispatch/service.go:62-76 handleDriverLocation *)
Definition handleDriverLocation (now : Z) (skip : gset string) (id1 id2 : string) (env : Envelope) : tx unit :=
  match Data env with
  | DriverLocationUpdated driverID lat long =>
      av <- read avail ;;
      (match av !! driverID with
       | Some r => modify (with_avail (<[driverID := mkAvail (av_name r) (av_phone r) (av_vehicle r) (av_color r)
                                                       lat long (av_free r) now]> av))
       | None => ret tt
       end) ;;;
      matchOldestPending now skip id1 id2 env
  | _ => fail EDecode
  end.

(** ** The ride projection *)

Definition set_status (status : string) (now : Z) (r : ride_row) : ride_row :=
  mkRide (rd_rider r) (rd_lat r) (rd_long r) (rd_dest r) status (rd_corr r) (rd_requested r) now.

(** UPDATE rides SET status WHERE id and [P]; whether a row was affected. *)
Definition update_status (now : Z) (rideID status : string) (P : string → bool) : tx bool :=
  rs <- read rides ;;
  match rs !! rideID with
  | Some r => if P (rd_status r)
              then modify (with_rides (<[rideID := set_status status now r]> rs)) ;;; ret true
              else ret false
  | None => ret false
  end.

(* [go] ride/projector.go:30-60 applyAssigned *)
Definition applyAssigned (now : Z) (skip : gset string) (id1 id2 : string) (env : Envelope) : tx unit :=
  match Data env with
  | RideAssigned rideID _ driverID name phone vehicle color =>
      affected <- update_status now rideID StatusAssigned (fun s => negb (bool_decide (s = StatusAssigned))) ;;
      if negb affected then ret tt
      else
        rds <- read ride_drivers ;;
        modify (with_ride_drivers (<[rideID := mkDriver driverID name phone vehicle color]> rds)) ;;;
        outbox_Add now RideStatusChangedTopic rideID
          (New id1 now "ride.status.changed" "ride-projection" (CorrelationID env) (EventID env)
             (RideStatusChanged rideID StatusRequested StatusAssigned driverID))
  | _ => fail EDecode
  end.

(* [go] ride/projector.go:62-83 applyDeferred *)
Definition applyDeferred (now : Z) (skip : gset string) (id1 id2 : string) (env : Envelope) : tx unit :=
  match Data env with
  | RideDispatchDeferred rideID _ =>
      affected <- update_status now rideID StatusSearching (fun s => bool_decide (s = StatusRequested)) ;;
      if negb affected then ret tt
      else outbox_Add now RideStatusChangedTopic rideID
             (New id1 now "ride.status.changed" "ride-projection" (CorrelationID env) (EventID env)
                (RideStatusChanged rideID StatusRequested StatusSearching ""))
  | _ => fail EDecode
  end.

(** ** The activity timeline *)

(* [go] activity/service.go:49-70 details *)
Definition details (env : Envelope) : result terr (string * string * string) :=
  if bool_decide (EventType env = "ride.requested") then
    match Data env with RideRequested r _ _ _ _ => Ok (r, "requested", "Ride request received") | _ => Err EDecode end
  else if bool_decide (EventType env = "ride.dispatch.deferred") then
    match Data env with
    | RideDispatchDeferred r _ => Ok (r, "dispatch_deferred", "Looking for an available captain")
    | _ => Err EDecode
    end
  else if bool_decide (EventType env = "ride.assigned") then
    match Data env with
    | RideAssigned r _ _ name _ _ _ => Ok (r, "assigned", "Captain " +:+ name +:+ " is assigned")
    | _ => Err EDecode
    end
  else if bool_decide (EventType env = "ride.status.changed") then
    match Data env with
    | RideStatusChanged r _ cur _ => Ok (r, "status_changed", "Ride status: " +:+ cur)
    | _ => Err EDecode
    end
  else Err (EInvalid "unexpected activity event type").

(* [go] activity/service.go:34-47 record *)
Definition record (now : Z) (skip : gset string) (id1 id2 : string) (env : Envelope) : tx unit :=
  match details env with
  | Err e => fail e
  | Ok (rideID, kind, title) =>
      ac <- read ride_activity ;;
      match ac !! EventID env with
      | Some _ => ret tt
      | None => modify (with_activity (<[EventID env := mkAct rideID kind title (OccurredAt env) (Data env)]> ac))
      end
  end.

(** ** Transactions and consumers *)

(** How a transaction whose body succeeds ends: it commits, it fails without
effect, or it commits and the reply is lost. *)
Inductive fate : Type := Commits | Fails | LostReply.

(* [go] platform/postgres/postgres.go:23-36 InTx *)
Definition InTx {A} (f : fate) (body : tx A) (d : db) : result terr A * db :=
  match body d with
  | Err e => (Err e, d)
  | Ok (a, d') => match f with
                  | Commits => (Ok a, d')
                  | Fails => (Err EFault, d)
                  | LostReply => (Err EFault, d')
                  end
  end.

(* [go] platform/consumer/consumer.go:80-102 process *)
Definition process_body (consumerName : string) (env : Envelope) (handler : Envelope → tx unit) : tx unit :=
  ps <- read processed ;;
  if bool_decide ((consumerName, EventID env) ∈ ps) then ret tt
  else modify (with_processed ({[ (consumerName, EventID env) ]} ∪ ps)) ;;; handler env.

Definition process (f : fate) (consumerName : string) (env : Envelope) (handler : Envelope → tx unit) (d : db)
    : result terr unit * db :=
  InTx f (process_body consumerName env handler) d.

(** The consumers: name, topic and handler. *)
(* [go] activity/service.go:14-20 Run *)
Definition consumers : list (string * string * (Z → gset string → string → string → Envelope → tx unit)) :=
  [ ("dispatch-service.requested-v1", RideRequestedTopic, handleRideRequested);
    ("dispatch-service.location-v1", DriverLocationTopic, handleDriverLocation);
    ("ride-projection.assigned-v1", RideAssignedTopic, applyAssigned);
    ("ride-projection.deferred-v1", RideDispatchDeferredTopic, applyDeferred);
    ("activity-service.requested-v1", RideRequestedTopic, record);
    ("activity-service.deferred-v1", RideDispatchDeferredTopic, record);
    ("activity-service.assigned-v1", RideAssignedTopic, record);
    ("activity-service.status-v1", RideStatusChangedTopic, record) ].

(** ** The outbox relay *)

(** The log: the messages of each partition of each topic. *)
Abbreviation klog := (gmap (string * nat) (list Envelope)).

(** The partition of a key, and the order of ORDER BY created_at. *)
Context (part : string → nat) (by_created : list (string * out_row) → list (string * out_row)).

Definition append (l : klog) (p : string * out_row) : klog :=
  let k := (o_topic p.2, part (o_key p.2)) in
  <[k := default [] (l !! k) ++ [o_env p.2]]> l.

Definition batchSize : nat := 50.

Definition unpublished (skip : gset string) (d : db) : list (string * out_row) :=
  take batchSize (by_created (map_to_list (filter (fun p => o_published p.2 = None ∧ p.1 ∉ skip) (outbox d)))).

Definition mark_published (now : Z) (r : out_row) : out_row :=
  mkOut (o_topic r) (o_key r) (o_env r) (o_created r) (Some now) (o_attempts r + 1) false.
Definition mark_failed (r : out_row) : out_row :=
  mkOut (o_topic r) (o_key r) (o_env r) (o_created r) (o_published r) (o_attempts r + 1) true.

(** How a batch goes: all is written and the transaction ends with [f], or the
batch stops after [k] messages, and the failure of row [failed] is recorded by a
statement of its own. *)
Inductive batch_run : Type := RAll (f : fate) | RStops (k : nat) (failed : option string).

(* [go] platform/outbox/outbox.go:77-138 publishBatch *)
Definition publishBatch (now : Z) (skip : gset string) (run : batch_run) (d : db) (l : klog) : db * klog :=
  let batch := unpublished skip d in
  let marked := foldr (fun p o => <[p.1 := mark_published now p.2]> o) (outbox d) batch in
  match run with
  | RAll Fails => (d, foldl append l batch)
  | RAll _ => (with_outbox marked d, foldl append l batch)
  | RStops k failed =>
      (match failed with
       | Some id => with_outbox (alter mark_failed id (outbox d)) d
       | None => d
       end, foldl append l (take k batch))
  end.

(** ** The consumer loop *)

(** What a consumer of one partition is doing; [cs_pos] is the offset it fetches
next and [cs_committed] the one it would restart from. *)
Inductive cphase : Type := Idle | Fetched (env : Envelope) | Processed.
Record cstate : Type := mkCs { cs_committed : nat; cs_pos : nat; cs_phase : cphase }.

Definition valid_event (env : Envelope) : bool :=
  negb (bool_decide (EventID env = "")) && negb (bool_decide (EventType env = "")) && (SchemaVersion env =? 1).

Record sys : Type := mkSys { s_db : db; s_log : klog; s_cons : gmap (string * nat) cstate }.

Definition consumer_at (s : sys) (k : string * nat) : cstate := default (mkCs 0 0 Idle) (s_cons s !! k).
Definition set_consumer (k : string * nat) (c : cstate) (s : sys) : sys := mkSys (s_db s) (s_log s) (<[k := c]> (s_cons s)).

(** The loop of a consumer, one round trip at a time: fetch the next message,
process it in a transaction, commit the offset.  When processing fails, the loop
goes on to fetch without committing. *)
(* [go] platform/consumer/consumer.go:27-78 Run *)
Inductive cstep : sys → sys → Prop :=
| C_fetch s name topic h p env c :
    (name, topic, h) ∈ consumers → c = consumer_at s (name, p) → cs_phase c = Idle →
    default [] (s_log s !! (topic, p)) !! cs_pos c = Some env → valid_event env = true →
    cstep s (set_consumer (name, p) (mkCs (cs_committed c) (S (cs_pos c)) (Fetched env)) s)
| C_process s name topic h p env c f now skip id1 id2 res d' :
    (name, topic, h) ∈ consumers → c = consumer_at s (name, p) → cs_phase c = Fetched env →
    process f name env (h now skip id1 id2) (s_db s) = (res, d') →
    cstep s (set_consumer (name, p)
               (mkCs (cs_committed c) (cs_pos c) (if is_ok res then Processed else Idle))
               (mkSys d' (s_log s) (s_cons s)))
| C_commit s name topic h p c :
    (name, topic, h) ∈ consumers → c = consumer_at s (name, p) → cs_phase c = Processed →
    cstep s (set_consumer (name, p) (mkCs (cs_pos c) (cs_pos c) Idle) s)
| C_restart s name topic h p c :
    (name, topic, h) ∈ consumers → c = consumer_at s (name, p) →
    cstep s (set_consumer (name, p) (mkCs (cs_committed c) (cs_committed c) Idle) s).

(** The whole system: requests of riders and drivers, the relay, the consumers. *)
Inductive step : sys → sys → Prop :=
| S_create s now rideID corr eventID c f res d' :
    InTx f (Create now rideID corr eventID c) (s_db s) = (res, d') →
    step s (mkSys d' (s_log s) (s_cons s))
| S_location s now eventID driverID lat long f res d' :
    InTx f (recordLocation now eventID driverID lat long) (s_db s) = (res, d') →
    step s (mkSys d' (s_log s) (s_cons s))
| S_relay s now skip run d' l' :
    publishBatch now skip run (s_db s) (s_log s) = (d', l') → step s (mkSys d' l' (s_cons s))
| S_consumer s s' : cstep s s' → step s s'.

(** ** Invariants of the tables *)

(** An event that has been put into the outbox. *)
Definition sent (d : db) (env : Envelope) : Prop := ∃ id row, outbox d !! id = Some row ∧ o_env row = env.

Record good (d : db) : Prop := {
  (* an assigned driver is busy, and drives one ride *)
  g_busy : ∀ i a, assignments d !! i = Some a →
    ∃ r, avail d !! dv_ID (as_driver a) = Some r ∧ av_free r = false;
  g_driver : ∀ i j a b, assignments d !! i = Some a → assignments d !! j = Some b →
    dv_ID (as_driver a) = dv_ID (as_driver b) → i = j;
  g_ride : ∀ i j a b, assignments d !! i = Some a → assignments d !! j = Some b → as_ride a = as_ride b → i = j;
  (* an assignment event tells an assignment *)
  g_event : ∀ env ride i drv name phone vehicle color, sent d env →
    Data env = RideAssigned ride i drv name phone vehicle color →
    ∃ lat long, assignments d !! i = Some (mkAsg ride (mkDriver drv name phone vehicle color) lat long);
  (* the projected driver is the assigned one *)
  g_proj : ∀ ride drv, ride_drivers d !! ride = Some drv →
    (∃ row, rides d !! ride = Some row ∧ rd_status row = StatusAssigned) ∧
    ∃ i lat long, assignments d !! i = Some (mkAsg ride drv lat long);
  g_assigned : ∀ ride row, rides d !! ride = Some row → rd_status row = StatusAssigned →
    is_Some (ride_drivers d !! ride);
}.

(** The order of the states of a ride. *)
Definition rank (status : string) : Z :=
  if bool_decide (status = StatusAssigned) then 2 else if bool_decide (status = StatusSearching) then 1 else 0.

Lemma rank_max status : rank status ≤ rank StatusAssigned.
Proof. change (rank StatusAssigned) with 2. unfold rank. repeat case_match; lia. Qed.

(** What never goes back: events, assignments, the state and the driver of a ride,
and the record of processed events. *)
Record evolves (d d' : db) : Prop := {
  ev_out : ∀ id row, outbox d !! id = Some row → ∃ row', outbox d' !! id = Some row' ∧ o_env row' = o_env row;
  ev_asg : ∀ i a, assignments d !! i = Some a → assignments d' !! i = Some a;
  ev_ride : ∀ r row, rides d !! r = Some row →
    ∃ row', rides d' !! r = Some row' ∧ rank (rd_status row) ≤ rank (rd_status row');
  ev_drv : ∀ r drv, ride_drivers d !! r = Some drv → ride_drivers d' !! r = Some drv;
  ev_proc : processed d ⊆ processed d';
  ev_pub : ∀ id row, outbox d' !! id = Some row → o_published row ≠ None → outbox d !! id = Some row;
}.

#[local] Instance evolves_preorder : PreOrder evolves.
Proof.
  split.
  - intros d. split; eauto with lia; set_solver.
  - intros d1 d2 d3 [O1 A1 R1 D1 P1 U1] [O2 A2 R2 D2 P2 U2]. split; eauto.
    + intros id row (row' & H & E)%O1. apply O2 in H as (row'' & ? & E'). exists row''. split; [done|congruence].
    + intros r row (row' & H & E)%R1. apply R2 in H as (row'' & ? & E'). exists row''. split; [done|lia].
    + set_solver.
Qed.

Lemma sent_evolves d d' env : evolves d d' → sent d env → sent d' env.
Proof. intros HE (id & row & H & <-). apply (ev_out _ _ HE) in H as (row' & ? & ?). by exists id, row'. Qed.

Lemma bind_Ok {A B} (m : tx A) (k : A → tx B) d b d' :
  bind m k d = Ok (b, d') → ∃ a d1, m d = Ok (a, d1) ∧ k a d1 = Ok (b, d').
Proof. unfold bind. destruct (m d) as [[a d1]|]; [eauto|done]. Qed.

(** Opens the statements of a transaction body that has succeeded. *)
Ltac open_tx :=
  repeat match goal with
  | H : bind _ _ _ = Ok _ |- _ => apply bind_Ok in H as (?a & ?d1 & ?H1 & H)
  | H : read _ _ = Ok _ |- _ => unfold read in H; injection H as ? ?; subst
  | H : modify _ _ = Ok _ |- _ => unfold modify in H; injection H as ? ?; subst
  | H : ret _ _ = Ok _ |- _ => unfold ret in H; injection H as ? ?; subst
  | H : fail _ _ = Ok _ |- _ => discriminate H
  end.

Lemma outbox_Add_Ok now topic key ev d u d' :
  outbox_Add now topic key ev d = Ok (u, d') →
  outbox d !! EventID ev = None ∧
  d' = with_outbox (<[EventID ev := mkOut topic key ev now None 0 false]> (outbox d)) d.
Proof. unfold outbox_Add. intros H. open_tx. destruct (outbox d1 !! EventID ev) eqn:E; open_tx; auto. Qed.

(** Adding an event that tells no assignment, or an existing one. *)
Lemma outbox_Add_good now topic key ev d u d' :
  (∀ ride i drv name phone vehicle color, Data ev = RideAssigned ride i drv name phone vehicle color →
     ∃ lat long, assignments d !! i = Some (mkAsg ride (mkDriver drv name phone vehicle color) lat long)) →
  outbox_Add now topic key ev d = Ok (u, d') → good d → good d' ∧ evolves d d'.
Proof.
  intros Hev (Hnone & ->)%outbox_Add_Ok [G1 G2 G3 G4 G5 G6]. split.
  - split; simpl; eauto. intros env ride i drv name phone vehicle color (id & row & Hrow & <-) HD. simpl in *.
    destruct (decide (EventID ev = id)) as [<-|Hne].
    + rewrite lookup_insert_eq in Hrow. injection Hrow as <-. eauto.
    + rewrite lookup_insert_ne in Hrow by done. eapply G4; [|done]. exists id, row. auto.
  - split; simpl; eauto with lia.
    + intros id row Hrow. exists row. rewrite lookup_insert_ne by congruence. auto.
    + intros id row. rewrite lookup_insert. case_decide; [|auto]. intros [= <-]. done.
Qed.

Definition tells_assignment (p : payload) : bool :=
  match p with RideAssigned _ _ _ _ _ _ _ => true | _ => false end.

Lemma outbox_Add_other now topic key ev d u d' :
  outbox_Add now topic key ev d = Ok (u, d') → tells_assignment (Data ev) = false → good d → good d' ∧ evolves d d'.
Proof. intros H Ht. eapply outbox_Add_good; [|done]. intros * HD. by rewrite HD in Ht. Qed.

Lemma first_by_elem {A} (lt : string * A → string * A → bool) m p :
  first_by lt m = Some p → m !! p.1 = Some p.2.
Proof.
  intros H. apply elem_of_map_to_list. rewrite <- surjective_pairing. revert p H.
  unfold first_by. induction (map_to_list m) as [|q l IH]; intros p; simpl; [done|].
  destruct (foldr _ _ l) as [r|] eqn:E; [|intros [= ->]; left].
  destruct (lt r q); intros [= <-]; [right; by apply IH | left].
Qed.

Lemma candidates_Some skip d id r :
  candidates skip d !! id = Some r → avail d !! id = Some r ∧ av_free r = true ∧ id ∉ skip.
Proof. unfold candidates. rewrite map_lookup_filter_Some. simpl. tauto. Qed.

(** The tables after a reservation, before its event. *)
Definition reserved (now : Z) (id : string) (row : avail_row) (i ride : string) (lat long : F) (d : db) : db :=
  with_pending (delete ride (pending d))
    (with_assignments (<[i := mkAsg ride (driver_of (id, row)) lat long]> (assignments d))
       (with_avail (<[id := set_busy now row]> (avail d)) d)).

Lemma reserved_good now id row i ride lat long d :
  avail d !! id = Some row → av_free row = true → assignments d !! i = None →
  (∀ j a, assignments d !! j = Some a → as_ride a ≠ ride) →
  good d → good (reserved now id row i ride lat long d) ∧ evolves d (reserved now id row i ride lat long d).
Proof.
  intros Hav Hfree Hi Hride [G1 G2 G3 G4 G5 G6].
  assert (∀ j a, assignments d !! j = Some a → dv_ID (as_driver a) ≠ id) as Hnew.
  { intros j a Ha Heq. destruct (G1 _ _ Ha) as (r & Hr & Hf). rewrite Heq in Hr. congruence. }
  assert (∀ j a, assignments d !! j = Some a →
    <[i := mkAsg ride (driver_of (id, row)) lat long]> (assignments d) !! j = Some a) as Hkeep.
  { intros j a Ha. rewrite lookup_insert_ne; [done|]. congruence. }
  split; [split|split]; simpl.
  - intros j a. rewrite lookup_insert. case_decide.
    + intros [= <-]. exists (set_busy now row). simpl. by rewrite lookup_insert_eq.
    + intros Ha. rewrite lookup_insert_ne; [by apply G1 in Ha|]. symmetry. by eapply Hnew.
  - intros j k a b. rewrite !lookup_insert. repeat case_decide; intros; simplify_eq; eauto; exfalso.
    + by eapply (Hnew k b).
    + by eapply (Hnew j a).
  - intros j k a b. rewrite !lookup_insert. repeat case_decide; intros; simplify_eq; eauto; exfalso.
    + by eapply (Hride k b).
    + by eapply (Hride j a).
  - intros env ride' j drv name phone vehicle color Hs HD.
    destruct (G4 env ride' j drv name phone vehicle color Hs HD) as (la & lo & Ha). eauto.
  - intros r drv Hr. destruct (G5 _ _ Hr) as (? & j & la & lo & Ha). eauto 8.
  - eauto.
  - intros j r Hr. eauto.
  - eauto.
  - intros r row' Hr. eauto with lia.
  - eauto.
  - done.
  - done.
Qed.

Lemma reserveDriver_good now skip id1 id2 env ride lat long d b d' :
  reserveDriver now skip id1 id2 env ride lat long d = Ok (b, d') → good d → good d' ∧ evolves d d'.
Proof.
  unfold reserveDriver. intros H HG. open_tx.
  destruct (first_by _ _) as [[id row]|] eqn:Ef; [|open_tx; done].
  apply first_by_elem in Ef. apply candidates_Some in Ef as (Hav & Hfree & _). simpl in *. open_tx.
  case_match; [by open_tx|]. open_tx.
  case_match eqn:Ea; [by open_tx|]. open_tx. zbool. simpl in *.
  match goal with H : outbox_Add _ _ _ _ _ = _ |- _ => rename H into Hadd end.
  destruct (reserved_good now id row id1 ride lat long d0) as [HG1 HE1]; try done.
  { by apply eq_None_not_Some. }
  { intros j a Ha Hr. match goal with H : existsb _ _ = false |- _ => rename H into Hex end.
    apply not_true_iff_false in Hex. apply Hex, existsb_exists. exists (j, a).
    split; [by apply list_elem_of_In, elem_of_map_to_list | by apply bool_decide_eq_true_2]. }
  apply (outbox_Add_good _ _ _ _ (reserved now id row id1 ride lat long d0)) in Hadd as [HG2 HE2]; try done.
  - split; [done|]. by etrans.
  - intros ride0 i drv name phone vehicle color [= <- <- <- <- <- <- <-]. exists lat, long. simpl.
    by rewrite lookup_insert_eq.
Qed.

(** The tables that the invariants do not read. *)
Lemma good_ext d d' :
  assignments d' = assignments d → avail d' = avail d → outbox d' = outbox d → ride_drivers d' = ride_drivers d →
  rides d' = rides d → processed d ⊆ processed d' → good d → good d' ∧ evolves d d'.
Proof.
  intros Ea Ev Eo Ed Er Ep [G1 G2 G3 G4 G5 G6]. split; split; rewrite ?Ea, ?Ev, ?Ed, ?Er, ?Eo; eauto with lia.
  intros env ride i drv name phone vehicle color (id & row & Hrow & He). rewrite Eo in Hrow.
  apply G4. by exists id, row.
Qed.

(** Updates of the position of a driver. *)
Lemma good_avail d av :
  (∀ id r, avail d !! id = Some r → ∃ r', av !! id = Some r' ∧ av_free r' = av_free r) →
  good d → good (with_avail av d) ∧ evolves d (with_avail av d).
Proof.
  intros Hav [G1 G2 G3 G4 G5 G6]. split; split; simpl; eauto with lia.
  intros i a Ha. destruct (G1 _ _ Ha) as (r & Hr & Hf). destruct (Hav _ _ Hr) as (r' & ? & ?).
  exists r'. split; [done|congruence].
Qed.

(** Composition of invariants along a transaction. *)
Lemma good_trans d d1 d2 :
  good d1 ∧ evolves d d1 → (good d1 → good d2 ∧ evolves d1 d2) → good d2 ∧ evolves d d2.
Proof. intros [H1 E1] H. destruct (H H1) as [H2 E2]. split; [done|by etrans]. Qed.

Lemma matchOldestPending_good now skip id1 id2 env d u d' :
  matchOldestPending now skip id1 id2 env d = Ok (u, d') → good d → good d' ∧ evolves d d'.
Proof.
  unfold matchOldestPending. intros H HG. open_tx. destruct (first_by _ _) as [[ride row]|]; open_tx; [|done].
  by eapply reserveDriver_good.
Qed.

Lemma handleRideRequested_good now skip id1 id2 env d u d' :
  handleRideRequested now skip id1 id2 env d = Ok (u, d') → good d → good d' ∧ evolves d d'.
Proof.
  unfold handleRideRequested. intros H HG. destruct (Data env) as [ride rider lat long dest| | | |]; try done.
  open_tx. case_match; open_tx; [done|].
  match goal with H : reserveDriver _ _ _ _ _ _ _ _ ?x = _ |- _ => rename H into Hres; set (dp := x) in * end.
  apply (good_trans _ dp); [by apply good_ext|]. intros HG1.
  eapply good_trans; [by eapply reserveDriver_good|]. intros HG2.
  destruct (negb _); [|by open_tx]. by eapply outbox_Add_other.
Qed.

Lemma handleDriverLocation_good now skip id1 id2 env d u d' :
  handleDriverLocation now skip id1 id2 env d = Ok (u, d') → good d → good d' ∧ evolves d d'.
Proof.
  unfold handleDriverLocation. intros H HG. destruct (Data env) as [|drv lat long| | |]; try done. open_tx.
  case_match eqn:Ed; open_tx; [|by eapply matchOldestPending_good].
  eapply good_trans; [|intros; by eapply matchOldestPending_good].
  apply good_avail; [|done]. intros id r Hr. rewrite lookup_insert.
  case_decide; subst; simplify_eq; eauto.
Qed.

Lemma update_status_Ok now ride status P d b d' :
  update_status now ride status P d = Ok (b, d') →
  (b = false ∧ d' = d) ∨
  ∃ r, b = true ∧ rides d !! ride = Some r ∧ P (rd_status r) = true ∧
       d' = with_rides (<[ride := set_status status now r]> (rides d)) d.
Proof.
  unfold update_status. intros H. open_tx. destruct (rides d1 !! ride) as [r|] eqn:Er; [|open_tx; auto].
  destruct (P (rd_status r)) eqn:EP; open_tx; eauto 10.
Qed.

Lemma applyDeferred_good now skip id1 id2 env d u d' :
  applyDeferred now skip id1 id2 env d = Ok (u, d') → good d → good d' ∧ evolves d d'.
Proof.
  unfold applyDeferred. intros H HG. destruct (Data env) as [| | |ride reason|]; try done. open_tx.
  apply update_status_Ok in H1 as [[-> ->]|(r & -> & Hr & HP & ->)]; simpl in H; [by open_tx|].
  zbool. eapply good_trans; [|intros; by eapply outbox_Add_other].
  destruct HG as [G1 G2 G3 G4 G5 G6]. split; split; simpl; eauto.
  - intros r' drv Hd. destruct (G5 _ _ Hd) as [(row & Hrow & Hst) ?]. split; [|done].
    rewrite lookup_insert_ne; [eauto|]. intros <-. simplify_eq. by rewrite HP in Hst.
  - intros r' row. rewrite lookup_insert. case_decide; [|eauto]. by intros [= <-].
  - intros r' row Hrow. rewrite lookup_insert. case_decide; [|eauto with lia]. subst. simplify_eq.
    eexists. split; [done|]. rewrite HP. vm_compute. discriminate.
Qed.

Lemma applyAssigned_good now skip id1 id2 env d u d' :
  sent d env → applyAssigned now skip id1 id2 env d = Ok (u, d') → good d → good d' ∧ evolves d d'.
Proof.
  unfold applyAssigned. intros Hs H HG. destruct (Data env) as [| |ride i drv name phone vehicle color| |] eqn:ED; try done.
  open_tx. apply update_status_Ok in H1 as [[-> ->]|(r & -> & Hr & HP & ->)]; simpl in H; [by open_tx|].
  open_tx. zbool. eapply good_trans; [|intros; by eapply outbox_Add_other].
  pose proof HG as [G1 G2 G3 G4 G5 G6].
  destruct (G4 env ride i drv name phone vehicle color Hs ED) as (lat & long & Hi).
  assert (ride_drivers d !! ride = None) as Hnone.
  { apply eq_None_not_Some. intros [x Hx]. apply G5 in Hx as [(row & ? & ?) _]. by simplify_eq. }
  split; split; simpl; eauto.
  - intros r' x. rewrite lookup_insert. case_decide.
    + intros [= <-]. subst. rewrite lookup_insert_eq. split; [eauto|eauto].
    + intros Hx. rewrite lookup_insert_ne by done. eauto.
  - intros r' row. rewrite !lookup_insert. case_decide; eauto.
  - intros r' row Hrow. rewrite lookup_insert. case_decide; [|eauto with lia]. subst. simplify_eq.
    eexists. split; [done|]. apply rank_max.
  - intros r' x Hx. rewrite lookup_insert_ne; [done|]. intros <-. congruence.
Qed.

Lemma record_good now skip id1 id2 env d u d' :
  record now skip id1 id2 env d = Ok (u, d') → good d → good d' ∧ evolves d d'.
Proof.
  unfold record. intros H HG. destruct (details env) as [[[ride kind] title]|]; [|done]. open_tx.
  case_match; open_tx; [done|]. by apply good_ext.
Qed.

Lemma Create_good now rideID corr eventID c d r d' :
  Create now rideID corr eventID c d = Ok (r, d') → good d → good d' ∧ evolves d d'.
Proof.
  unfold Create. intros H HG. destruct (validate _); [done|]. open_tx. case_match eqn:Er; open_tx.
  eapply good_trans; [|intros; by eapply outbox_Add_other].
  destruct HG as [G1 G2 G3 G4 G5 G6]. split; split; simpl; eauto.
  - intros r' drv Hd. destruct (G5 _ _ Hd) as [(row & Hrow & Hst) ?]. split; [|done].
    rewrite lookup_insert_ne; [eauto|]. intros <-. by simplify_eq.
  - intros r' row. rewrite lookup_insert. case_decide; [|eauto]. by intros [= <-].
  - intros r' row Hrow. rewrite lookup_insert_ne; [eauto with lia|]. intros <-. by simplify_eq.
Qed.

Lemma recordLocation_good now eventID drv lat long d u d' :
  recordLocation now eventID drv lat long d = Ok (u, d') → good d → good d' ∧ evolves d d'.
Proof.
  unfold recordLocation. intros H HG. repeat (case_match; [done|]). open_tx. case_match; open_tx.
  eapply good_trans; [|intros; by eapply outbox_Add_other]. by apply good_ext.
Qed.

Lemma handlers_good name topic h now skip id1 id2 env d u d' :
  (name, topic, h) ∈ consumers → sent d env →
  h now skip id1 id2 env d = Ok (u, d') → good d → good d' ∧ evolves d d'.
Proof.
  unfold consumers. rewrite !elem_of_cons. intros Hin Hs.
  destruct Hin as [[= -> -> ->]|[[= -> -> ->]|[[= -> -> ->]|[[= -> -> ->]|[[= -> -> ->]|[[= -> -> ->]|
    [[= -> -> ->]|[[= -> -> ->]|Hin]]]]]]]]; try apply record_good.
  - apply handleRideRequested_good.
  - apply handleDriverLocation_good.
  - by apply applyAssigned_good.
  - apply applyDeferred_good.
  - by apply elem_of_nil in Hin.
Qed.

Lemma process_good name topic h f env now skip id1 id2 d res d' :
  (name, topic, h) ∈ consumers → sent d env →
  process f name env (h now skip id1 id2) d = (res, d') → good d → good d' ∧ evolves d d'.
Proof.
  intros Hin Hs H HG. unfold process, InTx in H.
  destruct (process_body _ _ _ d) as [[u d1]|e] eqn:E; [|by simplify_eq].
  assert (good d1 ∧ evolves d d1) as Hd1; [|destruct f; simplify_eq; done].
  unfold process_body in E. open_tx. case_match; open_tx; [done|].
  match goal with H : h _ _ _ _ _ ?x = _ |- _ => set (dp := x) in * end.
  apply (good_trans _ dp); [apply good_ext; try done; set_solver|]. intros HG1.
  eapply handlers_good; eauto.
Qed.

(** ** The relay *)

Context (by_created_perm : ∀ l, by_created l ≡ₚ l).

Lemma unpublished_rows skip d p : p ∈ unpublished skip d → outbox d !! p.1 = Some p.2 ∧ o_published p.2 = None.
Proof.
  unfold unpublished. intros H%elem_of_take. destruct H as (i & H & _). apply list_elem_of_lookup_2 in H.
  rewrite by_created_perm in H. destruct p as [id row]. apply elem_of_map_to_list in H.
  apply map_lookup_filter_Some in H. simpl in *. tauto.
Qed.

(** The outbox after a batch: rows keep their event, and a row that is published
was so before or is of the batch. *)
Definition rewritten (batch : list (string * out_row)) (o o' : gmap string out_row) : Prop :=
  ∀ id, match o !! id, o' !! id with
        | Some r, Some r' => o_env r' = o_env r ∧ o_topic r' = o_topic r ∧ o_key r' = o_key r ∧
                             (o_published r' = None ∨ o_published r ≠ None ∨ (id, r) ∈ batch)
        | None, None => True
        | _, _ => False
        end.

Lemma marked_rewritten now (o : gmap string out_row) batch :
  (∀ p, p ∈ batch → o !! p.1 = Some p.2) →
  rewritten batch o (foldr (fun p o => <[p.1 := mark_published now p.2]> o) o batch).
Proof.
  intros Hb id. assert (∀ b, (∀ p, p ∈ b → p ∈ batch) →
    match o !! id, foldr (fun p o => <[p.1 := mark_published now p.2]> o) o b !! id with
    | Some r, Some r' => o_env r' = o_env r ∧ o_topic r' = o_topic r ∧ o_key r' = o_key r ∧
                         (o_published r' = None ∨ o_published r ≠ None ∨ (id, r) ∈ batch)
    | None, None => True
    | _, _ => False
    end) as H; [|by apply H].
  intros b. induction b as [|[i r] b IH]; intros Hsub; simpl.
  - destruct (o !! id) as [r|]; [|done]. split_and!; try done. destruct (o_published r); auto.
  - destruct (decide (i = id)) as [->|Hne].
    + rewrite lookup_insert_eq. assert ((id, r) ∈ batch) as Hin by (apply Hsub; left).
      pose proof (Hb _ Hin) as Ho. simpl in Ho. rewrite Ho. simpl. auto 10.
    + rewrite lookup_insert_ne by done. apply IH. intros p Hp. apply Hsub. by right.
Qed.

Lemma failed_rewritten id (o : gmap string out_row) batch : rewritten batch o (alter mark_failed id o).
Proof.
  intros i. destruct (decide (i = id)) as [->|Hne].
  - rewrite lookup_alter_eq. destruct (o !! id) as [r|]; [|done]. simpl. split_and!; try done.
    destruct (o_published r); auto.
  - rewrite lookup_alter_ne by done. destruct (o !! i) as [r|]; [|done]. split_and!; try done.
    destruct (o_published r); auto.
Qed.

Lemma publishBatch_rewritten now skip run d l d' l' :
  publishBatch now skip run d l = (d', l') →
  (∃ batch, (∀ p, p ∈ batch → outbox d !! p.1 = Some p.2) ∧ l' = foldl append l batch ∧
            rewritten batch (outbox d) (outbox d')) ∧ d' = with_outbox (outbox d') d.
Proof.
  unfold publishBatch. intros H.
  assert (∀ p, p ∈ unpublished skip d → outbox d !! p.1 = Some p.2) as Hrows
    by (intros p Hp; by apply unpublished_rows in Hp as [? _]).
  assert (∀ batch, rewritten batch (outbox d) (outbox d)) as Hid.
  { intros batch i. destruct (outbox d !! i) as [r|]; [|done]. split_and!; try done. destruct (o_published r); auto. }
  destruct run as [[]|k [id|]]; injection H as <- <-; simpl; (split; [|by destruct d]).
  - exists (unpublished skip d). auto using marked_rewritten.
  - exists (unpublished skip d). auto.
  - exists (unpublished skip d). auto using marked_rewritten.
  - exists (take k (unpublished skip d)). split_and!; try done; [|apply failed_rewritten].
    intros p (i & Hp & _)%elem_of_take. by eapply Hrows, list_elem_of_lookup_2.
  - exists (take k (unpublished skip d)). split_and!; try done.
    intros p (i & Hp & _)%elem_of_take. by eapply Hrows, list_elem_of_lookup_2.
Qed.

Lemma rewritten_sent batch d d' env :
  rewritten batch (outbox d) (outbox d') → sent d' env ↔ sent d env.
Proof.
  intros Hr. split; intros (id & row & Hrow & <-); specialize (Hr id); rewrite Hrow in Hr.
  - destruct (outbox d !! id) as [r|] eqn:E; [|done]. exists id, r. split; [done|]. symmetry. apply Hr.
  - destruct (outbox d' !! id) as [r|] eqn:E; [|done]. exists id, r. split; [done|]. apply Hr.
Qed.

Lemma rewritten_good batch o d :
  rewritten batch (outbox d) o → good d → good (with_outbox o d).
Proof.
  intros Hr [G1 G2 G3 G4 G5 G6]. split; simpl; eauto.
  intros env ride i drv name phone vehicle color Hs. eapply G4. by eapply (rewritten_sent batch d (with_outbox o d)).
Qed.

Lemma append_lookup batch l k env :
  env ∈ default [] (foldl append l batch !! k) ↔
  env ∈ default [] (l !! k) ∨ ∃ p, p ∈ batch ∧ o_env p.2 = env ∧ k = (o_topic p.2, part (o_key p.2)).
Proof.
  revert l. induction batch as [|p batch IH]; intros l; simpl.
  - split; [auto|]. intros [?|(p & Hp & _)]; [done|]. by apply elem_of_nil in Hp.
  - rewrite IH. unfold append. rewrite lookup_insert. case_decide as Hk.
    + subst k. simpl. rewrite elem_of_app, list_elem_of_singleton. split.
      * intros [[?| ->]|(q & Hq & ?)]; [auto | right; exists p; split; [left|auto] | right; exists q; split; [by right|auto]].
      * intros [?|(q & [->|Hq]%elem_of_cons & He & Hk)]; [auto | auto | right; eauto].
    + split.
      * intros [?|(q & Hq & ?)]; [auto | right; exists q; split; [by right|auto]].
      * intros [?|(q & [->|Hq]%elem_of_cons & He & Hk')]; [auto | by destruct Hk | right; eauto].
Qed.

(** ** Invariants of the system *)

Definition messages (l : klog) (k : string * nat) : list Envelope := default [] (l !! k).

Record sinv (s : sys) : Prop := {
  si_good : good (s_db s);
  si_log : ∀ k env, env ∈ messages (s_log s) k → sent (s_db s) env;
  si_cons : ∀ k env, cs_phase (consumer_at s k) = Fetched env → sent (s_db s) env;
  si_pub : ∀ id row, outbox (s_db s) !! id = Some row → o_published row ≠ None →
    o_env row ∈ messages (s_log s) (o_topic row, part (o_key row));
}.

(** What a step of the system keeps. *)
Record advances (s s' : sys) : Prop := {
  ad_ride : ∀ r row, rides (s_db s) !! r = Some row →
    ∃ row', rides (s_db s') !! r = Some row' ∧ rank (rd_status row) ≤ rank (rd_status row');
  ad_drv : ∀ r drv, ride_drivers (s_db s) !! r = Some drv → ride_drivers (s_db s') !! r = Some drv;
  ad_proc : processed (s_db s) ⊆ processed (s_db s');
  ad_sent : ∀ env, sent (s_db s) env → sent (s_db s') env;
  ad_log : ∀ k, messages (s_log s) k `prefix_of` messages (s_log s') k;
}.

#[local] Instance advances_preorder : PreOrder advances.
Proof.
  split.
  - intros s. split; eauto with lia.
  - intros s1 s2 s3 [R1 D1 P1 S1 L1] [R2 D2 P2 S2 L2]. split; eauto; [|set_solver|].
    + intros r row (row' & H & E)%R1. apply R2 in H as (row'' & ? & E'). exists row''. split; [done|lia].
    + intros k. etrans; [apply L1 | apply L2].
Qed.

Lemma evolves_advances s d' cs :
  evolves (s_db s) d' → advances s (mkSys d' (s_log s) cs).
Proof.
  intros HE. split; simpl; try apply HE; [|done]. intros env. by apply sent_evolves.
Qed.

(** A transaction of the tables, with the consumers in states [cs]. *)
Lemma sinv_tx s d' cs :
  sinv s → good d' → evolves (s_db s) d' →
  (∀ k env, cs_phase (consumer_at (mkSys d' (s_log s) cs) k) = Fetched env → sent (s_db s) env) →
  sinv (mkSys d' (s_log s) cs).
Proof.
  intros [I1 I2 I3 I4] HG HE Hc. split; simpl; [done|..].
  - intros k env H. eapply sent_evolves; eauto.
  - intros k env H. eapply sent_evolves; eauto.
  - intros id row H Hp. apply I4 with id; [|done]. by apply (ev_pub _ _ HE).
Qed.

Lemma InTx_good {A} f (body : tx A) d res d' :
  (∀ a d', body d = Ok (a, d') → good d → good d' ∧ evolves d d') →
  InTx f body d = (res, d') → good d → good d' ∧ evolves d d'.
Proof.
  intros Hb H HG. unfold InTx in H. destruct (body d) as [[a d1]|e] eqn:E; [|by simplify_eq].
  destruct (Hb _ _ eq_refl HG). destruct f; by simplify_eq.
Qed.

Lemma append_prefix batch l k : messages l k `prefix_of` messages (foldl append l batch) k.
Proof.
  revert l. induction batch as [|p batch IH]; intros l; simpl; [done|].
  etrans; [|apply IH]. unfold messages, append. rewrite lookup_insert.
  case_decide; [subst; simpl; by apply prefix_app_r | done].
Qed.

Lemma consumer_at_insert k c s k' :
  consumer_at (set_consumer k c s) k' = if decide (k = k') then c else consumer_at s k'.
Proof. unfold consumer_at, set_consumer. simpl. rewrite lookup_insert. by case_decide. Qed.

Lemma cstep_inv s s' : cstep s s' → sinv s → sinv s' ∧ advances s s'.
Proof.
  intros Hs HI. pose proof HI as [I1 I2 I3 I4].
  destruct Hs as [s name topic h p env c Hin -> Hph Hlog _ | s name topic h p env c f now skip id1 id2 res d' Hin -> Hph Hpr
    | s name topic h p c Hin -> Hph | s name topic h p c Hin ->].
  - split; [|by apply (evolves_advances s (s_db s))]. apply (sinv_tx s (s_db s)); try done.
    intros k env'. change (mkSys (s_db s) (s_log s) _) with
      (set_consumer (name, p) (mkCs (cs_committed (consumer_at s (name, p))) (S (cs_pos (consumer_at s (name, p)))) (Fetched env)) s).
    rewrite consumer_at_insert. case_decide; [|apply I3]. simpl. intros [= <-].
    apply (I2 (topic, p)). by eapply list_elem_of_lookup_2.
  - assert (good d' ∧ evolves (s_db s) d') as [HG HE] by (eapply process_good; eauto).
    split; [|by apply (evolves_advances s d')]. apply (sinv_tx s d'); try done.
    intros k env'. unfold consumer_at. simpl. rewrite lookup_insert. case_decide; [|apply I3].
    simpl. by destruct (is_ok res).
  - split; [|by apply (evolves_advances s (s_db s))]. apply (sinv_tx s (s_db s)); try done.
    intros k env'. unfold consumer_at. simpl. rewrite lookup_insert. case_decide; [done|apply I3].
  - split; [|by apply (evolves_advances s (s_db s))]. apply (sinv_tx s (s_db s)); try done.
    intros k env'. unfold consumer_at. simpl. rewrite lookup_insert. case_decide; [done|apply I3].
Qed.

Lemma relay_inv s now skip run d' l' :
  publishBatch now skip run (s_db s) (s_log s) = (d', l') → sinv s →
  sinv (mkSys d' l' (s_cons s)) ∧ advances s (mkSys d' l' (s_cons s)).
Proof.
  intros [(batch & Hb & -> & Hr) ->]%publishBatch_rewritten [I1 I2 I3 I4].
  set (o := outbox d') in *. clearbody o.
  assert (∀ env, sent (with_outbox o (s_db s)) env ↔ sent (s_db s) env) as Hs
    by (intros env; by eapply (rewritten_sent batch (s_db s) (with_outbox o (s_db s)))).
  split; split; simpl; eauto with lia.
  - by eapply rewritten_good.
  - intros k env. unfold messages. rewrite append_lookup, Hs. intros [H|(p & Hp & <- & _)]; [eauto|].
    exists p.1, p.2. auto.
  - intros k env H. apply Hs. by apply (I3 k).
  - intros id row Hrow Hp. unfold messages. apply append_lookup. specialize (Hr id). rewrite Hrow in Hr.
    destruct (outbox (s_db s) !! id) as [r|] eqn:E; [|done]. destruct Hr as (-> & -> & -> & [?|[?|?]]); [done|..].
    + left. by eapply I4.
    + right. by exists (id, r).
  - intros env. apply Hs.
  - intros k. apply append_prefix.
Qed.

Lemma step_inv s s' : step s s' → sinv s → sinv s' ∧ advances s s'.
Proof.
  intros Hs HI. destruct Hs as [s now rideID corr eventID c f res d' H | s now eventID drv lat long f res d' H
    | s now skip run d' l' H | s s' H].
  - assert (good d' ∧ evolves (s_db s) d') as [HG HE].
    { eapply InTx_good; [|done|apply HI]. intros. by eapply Create_good. }
    split; [|by apply evolves_advances]. apply sinv_tx; try done. apply (si_cons _ HI).
  - assert (good d' ∧ evolves (s_db s) d') as [HG HE].
    { eapply InTx_good; [|done|apply HI]. intros. by eapply recordLocation_good. }
    split; [|by apply evolves_advances]. apply sinv_tx; try done. apply (si_cons _ HI).
  - by eapply relay_inv.
  - by apply cstep_inv.
Qed.

(** The seeded database: drivers, and nothing else. *)
Definition seeded (s : sys) : Prop :=
  rides (s_db s) = ∅ ∧ ride_drivers (s_db s) = ∅ ∧ assignments (s_db s) = ∅ ∧ outbox (s_db s) = ∅ ∧
  s_log s = ∅ ∧ s_cons s = ∅.

Definition reachable (s : sys) : Prop := ∃ s0, seeded s0 ∧ rtc step s0 s.

Lemma reachable_inv s : reachable s → sinv s.
Proof.
  intros (s0 & (E1 & E2 & E3 & E4 & E5 & E6) & Hr).
  eapply (rtc_invariant step sinv); [|done|].
  - intros x y Hx Hs. by apply step_inv in Hs as [? _].
  - split; [split|..]; unfold consumer_at, messages, sent; rewrite ?E1, ?E2, ?E3, ?E4, ?E5, ?E6;
      try (intros *; rewrite ?lookup_empty; done).
    + intros env ride i drv name phone vehicle color (id & row & H & _). by rewrite lookup_empty in H.
    + intros k env. rewrite lookup_empty. simpl. intros H. by apply elem_of_nil in H.
Qed.

Lemma rtc_advances s s' : sinv s → rtc step s s' → advances s s'.
Proof.
  intros HI Hr. induction Hr as [s|s s1 s2 Hs Hr IH]; [done|].
  apply step_inv in Hs as [HI' HA]; [|done]. etrans; eauto.
Qed.

Lemma rtc_sinv s s' : sinv s → rtc step s s' → sinv s'.
Proof.
  intros HI Hr. apply (rtc_invariant step sinv s s'); [|done..]. intros x y Hx Hs. by apply step_inv in Hs as [? _].
Qed.

(** ** Theorems *)

(** C18: What the ride API shows agrees with dispatch: a ride has a driver exactly when
its status is DRIVER_ASSIGNED, and then that driver, in all fields, is the one of
the ride's assignment. *)
Theorem Projection_faithful s ride row drv :
  reachable s → Get ride (s_db s) = Ok (row, drv) →
  match drv with
  | Some dr => rd_status row = StatusAssigned ∧
               ∃ i lat long, assignments (s_db s) !! i = Some (mkAsg ride dr lat long)
  | None => rd_status row ≠ StatusAssigned
  end.
Proof.
  intros [HG _ _ _]%reachable_inv H. unfold Get in H. destruct (rides (s_db s) !! ride) as [r|] eqn:Er; [|done].
  injection H as <- <-. destruct (ride_drivers (s_db s) !! ride) as [dr|] eqn:Ed.
  - apply (g_proj _ HG) in Ed as [(row & Hrow & Hst) Ha]. simplify_eq. auto.
  - intros Hst. destruct (g_assigned _ HG _ _ Er Hst) as [x Hx]. congruence.
Qed.

(** The state of a ride only moves from REQUESTED over SEARCHING_DRIVER to
DRIVER_ASSIGNED; an assigned ride stays assigned and keeps its driver. *)
Theorem Ride_status_monotone s s' ride row :
  reachable s → rtc step s s' → rides (s_db s) !! ride = Some row →
  ∃ row', rides (s_db s') !! ride = Some row' ∧ rank (rd_status row) ≤ rank (rd_status row') ∧
    (rd_status row = StatusAssigned → rd_status row' = StatusAssigned ∧
       ride_drivers (s_db s') !! ride = ride_drivers (s_db s) !! ride).
Proof.
  intros HI%reachable_inv Hr Hrow. pose proof (rtc_advances _ _ HI Hr) as HA.
  destruct (ad_ride _ _ HA _ _ Hrow) as (row' & Hrow' & Hle). exists row'. split_and!; try done.
  intros Hst. destruct (g_assigned _ (si_good _ HI) _ _ Hrow Hst) as [dr Hdr].
  rewrite Hdr, (ad_drv _ _ HA _ _ Hdr). split; [|done].
  rewrite Hst in Hle. change (rank StatusAssigned) with 2 in Hle. unfold rank in Hle.
  destruct (bool_decide (rd_status row' = StatusAssigned)) eqn:E; [by zbool|]. case_match; lia.
Qed.

(** An event that a consumer has processed is never applied again: in every later
state another delivery leaves the tables as they are. *)
Theorem Redelivery_harmless s s' name env f h :
  reachable s → (name, EventID env) ∈ processed (s_db s) → rtc step s s' →
  (process f name env h (s_db s')).2 = s_db s'.
Proof.
  intros HI%reachable_inv Hp Hr. pose proof (ad_proc _ _ (rtc_advances _ _ HI Hr)) as Hsub.
  unfold process, InTx, process_body, bind, read.
  rewrite bool_decide_eq_true_2 by set_solver. by destruct f.
Qed.

(** C19: No event is lost on its way out: what a committed transaction has put into the
outbox stays there, everything in the log comes from it, and an event marked as
published is in the log. *)
Theorem Outbox_lossless s s' id row :
  reachable s → outbox (s_db s) !! id = Some row → rtc step s s' →
  sent (s_db s') (o_env row) ∧
  (o_published row ≠ None → o_env row ∈ messages (s_log s') (o_topic row, part (o_key row))) ∧
  (∀ k env, env ∈ messages (s_log s') k → sent (s_db s') env).
Proof.
  intros HI%reachable_inv Hrow Hr. pose proof (rtc_advances _ _ HI Hr) as HA. split_and!.
  - apply (ad_sent _ _ HA). by exists id, row.
  - intros Hp. destruct (ad_log _ _ HA (o_topic row, part (o_key row))) as [l ->].
    apply elem_of_app. left. by eapply si_pub.
  - by apply si_log, (rtc_sinv s s').
Qed.

(** ** The relay drains the outbox *)

Definition waiting (d : db) : gmap string out_row := filter (fun p => o_published p.2 = None) (outbox d).

Fixpoint rounds (n : nat) (now : Z) (d : db) (l : klog) : db * klog :=
  match n with
  | O => (d, l)
  | S n => let '(d', l') := publishBatch now ∅ (RAll Commits) d l in rounds n now d' l'
  end.

Lemma foldr_insert_lookup (f : out_row → out_row) (b : list (string * out_row)) (o : gmap string out_row) id :
  if decide (id ∈ b.*1)
  then ∃ r, (id, r) ∈ b ∧ foldr (fun p o => <[p.1 := f p.2]> o) o b !! id = Some (f r)
  else foldr (fun p o => <[p.1 := f p.2]> o) o b !! id = o !! id.
Proof.
  induction b as [|[i r] b IH]; [done|]. rewrite fmap_cons. cbn [fst snd foldr].
  destruct (decide (id ∈ i :: b.*1)) as [Hin|Hin].
  - destruct (decide (i = id)) as [->|Hne]; [exists r; rewrite lookup_insert_eq; split; [left|done]|].
    rewrite lookup_insert_ne by done. apply elem_of_cons in Hin as [Heq|Hin]; [by subst|].
    rewrite decide_True in IH by done. destruct IH as (r' & ? & ?). exists r'. split; [by right|done].
  - apply not_elem_of_cons in Hin as [Hne Hin]. rewrite decide_False in IH by done.
    by rewrite lookup_insert_ne.
Qed.

(** A round publishes the rows of its batch. *)
Lemma round_waiting now d l :
  dom (waiting (publishBatch now ∅ (RAll Commits) d l).1) =
  dom (waiting d) ∖ list_to_set (unpublished ∅ d).*1.
Proof.
  apply set_eq. intros id. rewrite elem_of_difference, elem_of_list_to_set, !elem_of_dom. unfold waiting. simpl.
  pose proof (foldr_insert_lookup (mark_published now) (unpublished ∅ d) (outbox d) id) as H.
  case_decide as Hin.
  - split; [|tauto]. intros [r Hr]. apply map_lookup_filter_Some in Hr as [Hr Hp].
    destruct H as (r' & _ & H). rewrite H in Hr. by simplify_eq.
  - split.
    + intros [r Hr]. apply map_lookup_filter_Some in Hr as [Hr Hp]. rewrite H in Hr.
      split; [|done]. exists r. by apply map_lookup_filter_Some.
    + intros [[r Hr] _]. exists r. apply map_lookup_filter_Some in Hr as [Hr Hp].
      apply map_lookup_filter_Some. by rewrite H.
Qed.

Lemma unpublished_waiting d :
  ∃ rest, unpublished ∅ d ++ rest ≡ₚ map_to_list (waiting d) ∧
          length (unpublished ∅ d) = Nat.min batchSize (size (waiting d)).
Proof.
  assert (unpublished ∅ d = take batchSize (by_created (map_to_list (waiting d)))) as ->.
  { unfold unpublished, waiting. do 3 f_equal. apply map_filter_ext. intros i x _. set_solver. }
  exists (drop batchSize (by_created (map_to_list (waiting d)))).
  rewrite take_drop. split; [apply by_created_perm|].
  by rewrite length_take, by_created_perm, length_map_to_list.
Qed.

Lemma round_size now d l :
  (size (waiting (publishBatch now ∅ (RAll Commits) d l).1) = size (waiting d) - batchSize)%nat.
Proof.
  rewrite <- !size_dom, round_waiting. destruct (unpublished_waiting d) as (rest & Hp & Hlen).
  assert (NoDup (unpublished ∅ d ++ rest).*1) as Hnd by (rewrite Hp; apply NoDup_fst_map_to_list).
  rewrite fmap_app in Hnd. apply NoDup_app in Hnd as (Hnd & _ & _).
  rewrite size_difference; [rewrite size_list_to_set by done|].
  - rewrite length_fmap, Hlen, size_dom. lia.
  - intros id. rewrite elem_of_list_to_set, list_elem_of_fmap. intros ([i r] & -> & Hin).
    apply elem_of_dom. exists r. apply elem_of_map_to_list. rewrite <- Hp. apply elem_of_app. by left.
Qed.

(** The relay empties the outbox: with nothing new coming in, a round that finds
[n] unpublished events leaves [n - 50], so after enough rounds every event is
marked, and is in the log. *)
Theorem Relay_drains n now s :
  reachable s → (size (waiting (s_db s)) ≤ n * batchSize)%nat →
  let '(d', l') := rounds n now (s_db s) (s_log s) in
  ∀ id row, outbox d' !! id = Some row →
    o_published row ≠ None ∧ o_env row ∈ messages l' (o_topic row, part (o_key row)).
Proof.
  intros HI%reachable_inv. revert s HI. induction n as [|n IH]; intros s HI Hn.
  - simpl. intros id row Hrow. assert (o_published row ≠ None) as Hp; [|by split; [|eapply si_pub]].
    intros Hp. assert (size (waiting (s_db s)) = 0%nat) as Hz by lia. apply map_size_empty_inv in Hz.
    assert (waiting (s_db s) !! id = Some row) as Hw by (by apply map_lookup_filter_Some).
    by rewrite Hz, lookup_empty in Hw.
  - cbn [rounds]. destruct (publishBatch now ∅ (RAll Commits) (s_db s) (s_log s)) as [d' l'] eqn:E.
    apply (IH (mkSys d' l' (s_cons s))); [by eapply relay_inv|]. simpl.
    pose proof (round_size now (s_db s) (s_log s)) as Hr. rewrite E in Hr. simpl in Hr. unfold batchSize in *. lia.
Qed.

(** ** Which driver is reserved *)

Section nearest.
(** The ORDER BY is a strict weak order. *)
Context (closer_asym : ∀ lat long p q, closer lat long p q = true → closer lat long q p = false).
Context (closer_neg : ∀ lat long p q r, closer lat long p q = false → closer lat long q r = false →
                      closer lat long p r = false).

Lemma first_by_least lat long m p :
  first_by (closer lat long) m = Some p → ∀ q, m !! q.1 = Some q.2 → closer lat long q p = false.
Proof.
  intros H q Hq. apply elem_of_map_to_list in Hq. rewrite <- surjective_pairing in Hq. revert p q H Hq.
  unfold first_by. induction (map_to_list m) as [|x l IH]; intros p q H Hq; [by apply elem_of_nil in Hq|].
  simpl in H. destruct (foldr _ _ l) as [r|] eqn:E.
  - apply elem_of_cons in Hq. destruct (closer lat long r x) eqn:Erx; injection H as <-.
    + destruct Hq as [->|Hq]; [by apply closer_asym | by eapply IH].
    + destruct Hq as [->|Hq]; [|eapply closer_neg; [by eapply IH | done]].
      destruct (closer lat long x x) eqn:Ex; [|done]. apply closer_asym in Ex as Ex'. congruence.
  - destruct l as [|y l]; [|simpl in E; destruct (foldr _ _ l); [destruct (closer _ _ _ _)|]; discriminate].
    injection H as <-. apply list_elem_of_singleton in Hq as ->.
    destruct (closer lat long x x) eqn:Ex; [|done]. apply closer_asym in Ex as Ex'. congruence.
Qed.

(** A reservation takes the nearest driver that is available and not locked, makes
it busy, and records the assignment under the ride; it reports failure only when
there is no such driver, and then changes nothing. *)
Theorem Nearest_reserved now skip id1 id2 env ride lat long d b d' :
  reserveDriver now skip id1 id2 env ride lat long d = Ok (b, d') →
  if b then ∃ id row, candidates skip d !! id = Some row ∧
       (∀ id' row', candidates skip d !! id' = Some row' → closer lat long (id', row') (id, row) = false) ∧
       avail d' !! id = Some (set_busy now row) ∧
       assignments d' !! id1 = Some (mkAsg ride (driver_of (id, row)) lat long) ∧ pending d' !! ride = None
  else candidates skip d = ∅ ∧ d' = d.
Proof.
  unfold reserveDriver. intros H. open_tx.
  destruct (first_by _ _) as [[id row]|] eqn:Ef.
  - pose proof (first_by_least _ _ _ _ Ef) as Hleast. apply first_by_elem in Ef.
    pose proof (candidates_Some _ _ _ _ Ef) as (Hav & Hfree & _). simpl in *. open_tx.
    rewrite Hav in H. simpl in H. rewrite Hfree, bool_decide_eq_true_2 in H by done. simpl in H. open_tx.
    case_match; [by open_tx|]. open_tx.
    match goal with H : outbox_Add _ _ _ _ _ = _ |- _ => apply outbox_Add_Ok in H as [_ ->] end.
    exists id, row. simpl. rewrite !lookup_insert_eq, lookup_delete_eq. split_and!; try done.
    intros id' row' Hc. by apply (Hleast (id', row')).
  - open_tx. split; [|done]. apply map_eq. intros i. rewrite lookup_empty. apply eq_None_not_Some. intros [r Hr].
    unfold first_by in Ef. apply elem_of_map_to_list in Hr.
    destruct (map_to_list (candidates skip d')) as [|x l]; [by apply elem_of_nil in Hr|]. simpl in Ef.
    destruct (foldr _ _ l); [destruct (closer _ _ _ _)|]; discriminate.
Qed.
End nearest.

(** ** Committed offsets *)

(** The step from [x] to [y] ran the transaction of a consumer on the message [env] at offset
[i], and it returned an error, which may hide a commit whose reply was lost; the loop
logs it and goes on to the next message without committing. *)
Definition failed_at (x y : sys) (name : string) (p i : nat) (env : Envelope) : Prop :=
  ∃ topic h f now skip id1 id2 e d',
    (name, topic, h) ∈ consumers ∧ cs_phase (consumer_at x (name, p)) = Fetched env ∧
    cs_pos (consumer_at x (name, p)) = S i ∧
    process f name env (h now skip id1 id2) (s_db x) = (Err e, d') ∧ s_db y = d' ∧
    consumer_at y (name, p) = mkCs (cs_committed (consumer_at x (name, p))) (S i) Idle.

(** A run with its steps. *)
Inductive runs (s0 : sys) : list (sys * sys) → sys → Prop :=
| R_nil : runs s0 [] s0
| R_snoc tr s s' : runs s0 tr s → step s s' → runs s0 (tr ++ [(s, s')]) s'.

Definition failed_in (tr : list (sys * sys)) (name : string) (p i : nat) (env : Envelope) : Prop :=
  ∃ x y, (x, y) ∈ tr ∧ failed_at x y name p i env.

Lemma failed_in_snoc tr t name p i env : failed_in tr name p i env → failed_in (tr ++ [t]) name p i env.
Proof. intros (x & y & H & ?). exists x, y. split; [|done]. apply elem_of_app. by left. Qed.

Section failures.
Context (bad : string → nat → nat → Envelope → Prop).

(** The first [n] messages of a partition are processed by a consumer, or failed. *)
Definition done_upto (s : sys) (name topic : string) (p n : nat) : Prop :=
  ∀ i env, (i < n)%nat → messages (s_log s) (topic, p) !! i = Some env →
           (name, EventID env) ∈ processed (s_db s) ∨ bad name p i env.

Record cinv (s : sys) (name topic : string) (p : nat) (c : cstate) : Prop := {
  ci_len : (cs_committed c ≤ cs_pos c ≤ length (messages (s_log s) (topic, p)))%nat;
  ci_com : done_upto s name topic p (cs_committed c);
  ci_pos : match cs_phase c with
           | Fetched env => ∃ n, cs_pos c = S n ∧ messages (s_log s) (topic, p) !! n = Some env ∧
                                 (cs_committed c ≤ n)%nat ∧ done_upto s name topic p n
           | _ => done_upto s name topic p (cs_pos c)
           end;
}.

Lemma done_upto_advances s s' name topic p n :
  advances s s' → (n ≤ length (messages (s_log s) (topic, p)))%nat →
  done_upto s name topic p n → done_upto s' name topic p n.
Proof.
  intros HA Hn Hd i env Hi He. destruct (Hd i env Hi) as [Hp|Hb]; [|left; by apply (ad_proc _ _ HA)|by right].
  destruct (ad_log _ _ HA (topic, p)) as [l Hl]. rewrite Hl in He.
  by rewrite lookup_app_l in He by lia.
Qed.

Lemma cinv_advances s s' name topic p c : advances s s' → cinv s name topic p c → cinv s' name topic p c.
Proof.
  intros HA [[H1 H2] Hc Hp]. pose proof (prefix_length _ _ (ad_log _ _ HA (topic, p))) as Hle.
  split; [lia | apply (done_upto_advances s); [done|lia|done]|].
  destruct (cs_phase c) as [|env|].
  - by eapply done_upto_advances.
  - destruct Hp as (n & Hn & Hm & Hcn & Hd). exists n. split_and!; try done.
    + by eapply prefix_lookup_Some, (ad_log _ _ HA).
    + eapply done_upto_advances; [done| |done]. lia.
  - by eapply done_upto_advances.
Qed.

Lemma consumer_topic name topic topic' h h' :
  (name, topic, h) ∈ consumers → (name, topic', h') ∈ consumers → topic = topic'.
Proof.
  intros H1 H2.
  assert (∀ n t g, (n, t, g) ∈ consumers → (list_to_map consumers.*1 : gmap string string) !! n = Some t) as Ht.
  { intros n t g Hin. unfold consumers in Hin. rewrite !elem_of_cons in Hin.
    destruct_or! Hin; try (injection Hin as -> -> _; reflexivity). by apply elem_of_nil in Hin. }
  apply Ht in H1. apply Ht in H2. congruence.
Qed.

Lemma process_marks name topic h f env now skip id1 id2 d d' u :
  (name, topic, h) ∈ consumers → sent d env → good d →
  process f name env (h now skip id1 id2) d = (Ok u, d') → (name, EventID env) ∈ processed d'.
Proof.
  intros Hin Hs HG H. unfold process, InTx in H.
  destruct (process_body _ _ _ d) as [[v d1]|e] eqn:E; [|done].
  assert ((name, EventID env) ∈ processed d1); [|by destruct f; simplify_eq].
  unfold process_body in E. open_tx. case_match; open_tx; [by zbool|].
  match goal with H : h _ _ _ _ _ ?x = _ |- _ => set (dp := x) in *; rename H into Hh end.
  match type of HG with good ?d0 => assert (good dp) as HGp by (apply (good_ext d0); try done; set_solver) end.
  eapply handlers_good in Hh as [_ HE]; [|done..]. apply (ev_proc _ _ HE). set_solver.
Qed.

Definition patient (s : sys) : Prop :=
  ∀ name topic h p, (name, topic, h) ∈ consumers → cinv s name topic p (consumer_at s (name, p)).

(** A step that touches only the consumer [(name, p)]. *)
Lemma patient_one s s' name topic h p :
  (name, topic, h) ∈ consumers → advances s s' →
  (∀ k, k ≠ (name, p) → consumer_at s' k = consumer_at s k) →
  (cinv s' name topic p (consumer_at s (name, p)) → cinv s' name topic p (consumer_at s' (name, p))) →
  patient s → patient s'.
Proof.
  intros Hin HA Hother Hone HP name' topic' h' p' Hin'.
  destruct (decide ((name', p') = (name, p))) as [Heq|Hne].
  - injection Heq as -> ->. assert (topic' = topic) as -> by (by eapply consumer_topic).
    eapply Hone, cinv_advances, HP; done.
  - rewrite Hother by done. eapply cinv_advances, HP; done.
Qed.

Lemma cstep_patient s s' : sinv s → cstep s s' → (∀ name p i env, failed_at s s' name p i env → bad name p i env) →
  patient s → patient s'.
Proof.
  intros HI Hs Hbad HP. pose proof (cstep_inv _ _ Hs HI) as [_ HA]. revert HA Hbad.
  destruct Hs as [s name topic h p env c Hin -> Hph Hlog _ | s name topic h p env c f now skip id1 id2 res d' Hin -> Hph Hpr
    | s name topic h p c Hin -> Hph | s name topic h p c Hin ->]; intros HA Hbad;
    (eapply patient_one; [done|done| intros k Hk; unfold consumer_at; simpl; by rewrite lookup_insert_ne | | done]);
    rewrite consumer_at_insert, decide_True by done; intros [[H1 H2] Hc Hpos].
  - rewrite Hph in Hpos. pose proof (lookup_lt_Some _ _ _ Hlog) as Hlt. fold (messages (s_log s) (topic, p)) in Hlt.
    split; simpl in *; [lia|done|]. exists (cs_pos (consumer_at s (name, p))). split_and!; try done; lia.
  - rewrite Hph in Hpos. destruct Hpos as (n & Hn & Hm & Hcn & Hd).
    assert (done_upto (set_consumer (name, p) (mkCs (cs_committed (consumer_at s (name, p))) (cs_pos (consumer_at s (name, p)))
      (if is_ok res then Processed else Idle)) (mkSys d' (s_log s) (s_cons s))) name topic p (S n)) as Hd'.
    { intros i env' Hi He. destruct (decide (i = n)) as [->|Hne]; [|apply (Hd i); [lia|done]].
      simpl in Hm, He. rewrite Hm in He. injection He as <-. destruct res as [u|e]; [left|right].
      - eapply (process_marks name topic h); eauto; [|apply HI]. by eapply (si_cons _ HI).
      - apply Hbad. exists topic, h, f, now, skip, id1, id2, e, d'. split_and!; try done.
        rewrite consumer_at_insert, decide_True by done. simpl. by rewrite Hn. }
    split; [simpl in *; lia|done|]. simpl. rewrite Hn. by destruct res.
  - rewrite Hph in Hpos. split; simpl in *; [lia|done|done].
  - split; simpl in *; [lia|done|done].
Qed.

Lemma step_patient s s' : sinv s → step s s' → (∀ name p i env, failed_at s s' name p i env → bad name p i env) →
  patient s → patient s'.
Proof.
  intros HI Hs Hg HP. pose proof (step_inv _ _ Hs HI) as [_ HA].
  destruct Hs as [s now rideID corr eventID c f res d' H | s now eventID drv lat long f res d' H
    | s now skip run d' l' H | s s' H]; [..|by eapply cstep_patient];
    intros name topic h p Hin; apply (cinv_advances s); try done; by apply (HP name topic h).
Qed.
End failures.

Lemma patient_mono (bad bad' : string → nat → nat → Envelope → Prop) s :
  (∀ name p i env, bad name p i env → bad' name p i env) → patient bad s → patient bad' s.
Proof.
  intros Hb HP name topic h p Hin. destruct (HP name topic h p Hin) as [Hl Hc Hpos].
  assert (∀ n, done_upto bad s name topic p n → done_upto bad' s name topic p n) as Hd.
  { intros n H i env Hi He. destruct (H i env Hi He) as [?|?]; [by left|right; auto]. }
  split; [done|auto|]. destruct (cs_phase _); auto. destruct Hpos as (n & ? & ? & ? & ?). exists n. split_and!; auto.
Qed.

Lemma runs_patient s0 tr s : seeded s0 → runs s0 tr s → sinv s ∧ patient (failed_in tr) s.
Proof.
  intros Hseed Hr. induction Hr as [|tr s s' Hr [HI HP] Hs].
  - split; [apply reachable_inv; by exists s0|]. intros n t g q Hin'.
    destruct Hseed as (_ & _ & _ & _ & El & Ec). unfold consumer_at. rewrite Ec, lookup_empty. simpl.
    split; simpl; [lia|intros ?; lia|intros ?; lia].
  - split; [by apply step_inv in Hs as [? _]|]. apply (step_patient _ s); try done.
    + intros name p i env Hf. exists s, s'. split; [|done]. apply elem_of_app. right. left.
    + eapply patient_mono; [|exact HP]. intros *. apply failed_in_snoc.
Qed.

(** C17: In any run, with crashes, lost replies and redelivery, a consumer commits an offset
only past messages that it has processed in a transaction of its own, or whose
transaction returned an error at that offset earlier in the run: the only way to pass
over an event is the branch of the loop that logs an error and fetches the next
message, never a crash, a restart or a redelivery. *)
Theorem Commit_means_processed s0 tr s name topic h p i env :
  seeded s0 → runs s0 tr s → (name, topic, h) ∈ consumers →
  (i < cs_committed (consumer_at s (name, p)))%nat → messages (s_log s) (topic, p) !! i = Some env →
  (name, EventID env) ∈ processed (s_db s) ∨ failed_in tr name p i env.
Proof.
  intros Hseed Hr Hin Hi He. destruct (runs_patient s0 tr s Hseed Hr) as [_ HP].
  destruct (HP _ _ _ p Hin) as [_ Hc _]. by apply (Hc i).
Qed.

End rides.

(** ** Witnesses: one driver, two riders *)

Module RidesWitness.

Definition inside (b x : Z) : bool := (- b <=? x) && (x <=? b).
Definition dist (lat long : Z) (r : avail_row (F := Z)) : Z :=
  (av_lat r - lat) * (av_lat r - lat) + (av_long r - long) * (av_long r - long).
Definition closer (lat long : Z) (p q : string * avail_row (F := Z)) : bool := dist lat long p.2 <? dist lat long q.2.
Definition older (p q : string * pending_row (F := Z)) : bool := pn_requested p.2 <? pn_requested q.2.
Definition part (_ : string) : nat := 0%nat.
Definition by_created (l : list (string * out_row (F := Z))) := l.

Notation wdb := (db (F := Z)).
Notation wsys := (sys (F := Z)).
Notation wstep := (step inside closer older part by_created).
Notation wreachable := (reachable inside closer older part by_created).

Lemma by_created_perm l : by_created l ≡ₚ l.
Proof. reflexivity. Qed.

Definition seed : wdb :=
  mkDb ∅ ∅ {["d1" := (0, 0)]} {["d1" := mkAvail "Aarav" "1001" "bike" "#f6b93b" 0 0 true 0]} ∅ ∅ ∅ ∅ ∅.
Definition s0 : wsys := mkSys seed ∅ ∅.

Definition cmd (rider : string) : CreateCommand (F := Z) := mkCommand rider 1 1 "MG Road".

(** Executable versions of the steps. *)
Definition do_create (f : fate) (now : Z) (r c e rider : string) (s : wsys) : wsys :=
  mkSys (InTx f (Create inside now r c e (cmd rider)) (s_db s)).2 (s_log s) (s_cons s).
Definition do_relay (now : Z) (run : batch_run) (s : wsys) : wsys :=
  let '(d, l) := publishBatch part by_created now ∅ run (s_db s) (s_log s) in mkSys d l (s_cons s).
Definition do_fetch (name topic : string) (s : wsys) : wsys :=
  let c := consumer_at s (name, 0%nat) in
  match messages (s_log s) (topic, 0%nat) !! cs_pos c with
  | Some env => set_consumer (name, 0%nat) (mkCs (cs_committed c) (S (cs_pos c)) (Fetched env)) s
  | None => s
  end.
Definition do_process (f : fate) (now : Z) (id1 id2 : string) (name : string)
    (h : Z → gset string → string → string → Envelope (F := Z) → tx (F := Z) unit) (s : wsys) : wsys :=
  let c := consumer_at s (name, 0%nat) in
  match cs_phase c with
  | Fetched env =>
      let '(res, d') := process f name env (h now ∅ id1 id2) (s_db s) in
      set_consumer (name, 0%nat) (mkCs (cs_committed c) (cs_pos c) (if is_ok res then Processed else Idle))
        (mkSys d' (s_log s) (s_cons s))
  | _ => s
  end.
Definition do_commit (name : string) (s : wsys) : wsys :=
  let c := consumer_at s (name, 0%nat) in set_consumer (name, 0%nat) (mkCs (cs_pos c) (cs_pos c) Idle) s.

Definition n_req : string := "dispatch-service.requested-v1".
Definition h_req := handleRideRequested closer.
Definition n_asg : string := "ride-projection.assigned-v1".
Definition n_def : string := "ride-projection.deferred-v1".

(** Two rides are requested and published. *)
Definition s1 : wsys := do_create Commits 1 "r1" "c1" "e1" "Ann" s0.
Definition s2 : wsys := do_create Commits 2 "r2" "c2" "e2" "Bob" s1.
Definition s3 : wsys := do_relay 3 (RAll Commits) s2.

(** The first is dispatched: its message is fetched, processed and committed. *)
Definition s4 : wsys := do_fetch n_req RideRequestedTopic s3.
Definition s5 : wsys := do_process Commits 4 "a1" "e3" n_req h_req s4.
Definition s6 : wsys := do_commit n_req s5.
Definition s7 : wsys := do_relay 5 (RAll Commits) s6.
Definition s8 : wsys := do_fetch n_asg RideAssignedTopic s7.
Definition s9 : wsys := do_process Commits 6 "e4" "" n_asg applyAssigned s8.

Lemma create_step f now r c e rider s : wstep s (do_create f now r c e rider s).
Proof.
  unfold do_create. destruct (InTx f (Create inside now r c e (cmd rider)) (s_db s)) as [res d'] eqn:E.
  by eapply S_create.
Qed.

Lemma relay_step now run s : wstep s (do_relay now run s).
Proof. unfold do_relay. destruct (publishBatch _ _ _ _ _ _ _) as [d l] eqn:E. by eapply S_relay. Qed.

Lemma fetch_step name topic h s :
  (name, topic, h) ∈ consumers closer older → cs_phase (consumer_at s (name, 0%nat)) = Idle →
  match messages (s_log s) (topic, 0%nat) !! cs_pos (consumer_at s (name, 0%nat)) with
  | Some env => valid_event env = true
  | None => False
  end → wstep s (do_fetch name topic s).
Proof.
  intros Hin Hp Hm. unfold do_fetch. destruct (messages _ _ !! _) as [env|] eqn:E; [|done].
  apply S_consumer. by eapply C_fetch.
Qed.

Lemma process_step f now id1 id2 name topic h s env :
  (name, topic, h) ∈ consumers closer older → cs_phase (consumer_at s (name, 0%nat)) = Fetched env →
  wstep s (do_process f now id1 id2 name h s).
Proof.
  intros Hin Hp. unfold do_process. rewrite Hp.
  destruct (process f name env (h now ∅ id1 id2) (s_db s)) as [res d'] eqn:E.
  apply S_consumer. by eapply (C_process _ _ _ name topic h).
Qed.

Lemma commit_step name topic h s :
  (name, topic, h) ∈ consumers closer older → cs_phase (consumer_at s (name, 0%nat)) = Processed →
  wstep s (do_commit name s).
Proof. intros Hin Hp. apply S_consumer. by eapply C_commit. Qed.

Lemma in_req : (n_req, RideRequestedTopic, h_req) ∈ consumers closer older.
Proof. left. Qed.
Lemma in_asg : (n_asg, RideAssignedTopic, applyAssigned) ∈ consumers closer older.
Proof. right. right. left. Qed.

Lemma s3_rtc : rtc wstep s0 s3.
Proof.
  eapply rtc_l; [apply (create_step Commits 1 "r1" "c1" "e1" "Ann")|].
  eapply rtc_l; [apply (create_step Commits 2 "r2" "c2" "e2" "Bob")|].
  apply rtc_once, (relay_step 3 (RAll Commits)).
Qed.

Lemma s6_rtc : rtc wstep s0 s6.
Proof.
  etrans; [apply s3_rtc|].
  eapply rtc_l; [apply (fetch_step n_req RideRequestedTopic h_req s3 in_req); vm_compute; reflexivity|].
  eapply rtc_l; [eapply (process_step Commits 4 "a1" "e3" n_req _ h_req s4 _ in_req); vm_compute; reflexivity|].
  apply rtc_once, (commit_step n_req RideRequestedTopic h_req s5 in_req). vm_compute. reflexivity.
Qed.

Lemma s9_rtc : rtc wstep s6 s9.
Proof.
  eapply rtc_l; [apply (relay_step 5 (RAll Commits))|].
  eapply rtc_l; [apply (fetch_step n_asg RideAssignedTopic applyAssigned s7 in_asg); vm_compute; reflexivity|].
  apply rtc_once. eapply (process_step Commits 6 "e4" "" n_asg _ applyAssigned s8 _ in_asg). vm_compute. reflexivity.
Qed.

Lemma s6_reachable : wreachable s6.
Proof. exists s0. split; [by vm_compute | apply s6_rtc]. Qed.
Lemma s9_reachable : wreachable s9.
Proof. exists s0. split; [by vm_compute | etrans; [apply s6_rtc | apply s9_rtc]]. Qed.

Definition aarav : Driver := mkDriver "d1" "Aarav" "1001" "bike" "#f6b93b".

Lemma Projection_faithful_witness :
  ∃ i lat long, assignments (s_db s9) !! i = Some (mkAsg "r1" aarav lat long).
Proof.
  destruct (Get "r1" (s_db s9)) as [[row drv]|] eqn:E; [|vm_compute in E; discriminate].
  pose proof (Projection_faithful inside closer older part by_created by_created_perm s9 "r1" row drv s9_reachable E) as H.
  vm_compute in E. injection E as <- <-. apply H.
Defined.

Lemma Ride_status_monotone_witness :
  ∃ row', rides (s_db s9) !! "r1" = Some row' ∧ 0 ≤ rank (rd_status row').
Proof.
  destruct (rides (s_db s6) !! "r1") as [row|] eqn:E; [|vm_compute in E; discriminate].
  destruct (Ride_status_monotone inside closer older part by_created by_created_perm s6 s9 "r1" row
    s6_reachable s9_rtc E) as (row' & Hr & Hle & _).
  exists row'. split; [exact Hr|]. vm_compute in E. injection E as <-. exact Hle.
Defined.

Definition ev1 : Envelope (F := Z) :=
  New "e1" 1 "ride.requested" "ride-api" "c1" "" (RideRequested "r1" "Ann" 1 1 "MG Road").

Lemma Redelivery_harmless_witness :
  (process Commits n_req ev1 (h_req 9 ∅ "a2" "e9") (s_db s9)).2 = s_db s9.
Proof.
  apply (Redelivery_harmless inside closer older part by_created by_created_perm s6 s9 n_req ev1 Commits);
    [apply s6_reachable | | apply s9_rtc].
  vm_compute. reflexivity.
Defined.

Lemma Outbox_lossless_witness : sent (s_db s9) ev1.
Proof.
  destruct (outbox (s_db s6) !! "e1") as [row|] eqn:E; [|vm_compute in E; discriminate].
  destruct (Outbox_lossless inside closer older part by_created by_created_perm s6 s9 "e1" row
    s6_reachable E s9_rtc) as (H & _). vm_compute in E. injection E as <-. exact H.
Defined.

Lemma Relay_drains_witness :
  (size (waiting (s_db s6)) ≤ 1 * batchSize)%nat ∧
  ∀ id row, outbox (rounds part by_created 1 7 (s_db s6) (s_log s6)).1 !! id = Some row → o_published row ≠ None.
Proof.
  split; [vm_compute; lia|].
  pose proof (Relay_drains inside closer older part by_created by_created_perm 1 7 s6 s6_reachable) as H.
  destruct (rounds part by_created 1 7 (s_db s6) (s_log s6)) as [d' l'].
  intros id row Hrow. apply (H ltac:(vm_compute; lia) id row Hrow).
Defined.

Lemma Nearest_reserved_witness :
  ∃ id row, candidates ∅ seed !! id = Some row.
Proof.
  destruct (reserveDriver closer 4 ∅ "a1" "e3" ev1 "r1" 1 1 seed) as [[b d']|] eqn:E; [|vm_compute in E; discriminate].
  pose proof (Nearest_reserved closer older part
    ltac:(intros lat long p q Hpq; unfold closer in *; apply Z.ltb_lt in Hpq; apply Z.ltb_ge; lia)
    ltac:(intros lat long p q r Hpq Hqr; unfold closer in *; apply Z.ltb_ge in Hpq, Hqr; apply Z.ltb_ge; lia)
    4 ∅ "a1" "e3" ev1 "r1" 1 1 seed b d' E) as H.
  destruct b; [|vm_compute in E; discriminate]. destruct H as (id & row & H & _). exists id, row. exact H.
Defined.

(** When processing fails the loop fetches the next message, and committing that
one commits past the failed one: an event is lost to the consumer, although the
offset was meant to advance only after its transaction. *)
Definition t5 : wsys := do_process Fails 4 "a1" "e3" n_req h_req s4.
Definition t6 : wsys := do_fetch n_req RideRequestedTopic t5.
Definition t7 : wsys := do_process Commits 5 "a1" "e3" n_req h_req t6.
Definition t8 : wsys := do_commit n_req t7.

Lemma t8_rtc : rtc wstep s0 t8.
Proof.
  etrans; [apply s3_rtc|].
  eapply rtc_l; [apply (fetch_step n_req RideRequestedTopic h_req s3 in_req); vm_compute; reflexivity|].
  eapply rtc_l; [eapply (process_step Fails 4 "a1" "e3" n_req _ h_req s4 _ in_req); vm_compute; reflexivity|].
  eapply rtc_l; [apply (fetch_step n_req RideRequestedTopic h_req t5 in_req); vm_compute; reflexivity|].
  eapply rtc_l; [eapply (process_step Commits 5 "a1" "e3" n_req _ h_req t6 _ in_req); vm_compute; reflexivity|].
  apply rtc_once, (commit_step n_req RideRequestedTopic h_req t7 in_req). vm_compute. reflexivity.
Qed.

Theorem Failed_event_skipped :
  wreachable t8 ∧ cs_committed (consumer_at t8 (n_req, 0%nat)) = 2%nat ∧
  messages (s_log t8) (RideRequestedTopic, 0%nat) !! 0%nat = Some ev1 ∧
  (n_req, "e1") ∉ processed (s_db t8).
Proof.
  split; [|split; [vm_compute; reflexivity|split; [vm_compute; reflexivity|]]].
  - exists s0. split; [by vm_compute|]. apply t8_rtc.
  - intros H. vm_compute in H. discriminate.
Qed.

Lemma rtc_runs (s s' : wsys) : rtc wstep s s' → ∃ tr, runs inside closer older part by_created s tr s'.
Proof.
  revert s'. apply rtc_ind_r; [exists []; constructor|].
  intros x y _ Hs [tr IH]. exists (tr ++ [(x, y)]). by econstructor.
Qed.

(** Both offsets of the run are committed: the second event is processed, the first one's
transaction failed. *)
Lemma Commit_means_processed_witness :
  ∃ tr, runs inside closer older part by_created s0 tr t8 ∧
    cs_committed (consumer_at t8 (n_req, 0%nat)) = 2%nat ∧ (n_req, "e1") ∉ processed (s_db t8) ∧
    failed_in closer older tr n_req 0 0 ev1.
Proof.
  destruct (rtc_runs s0 t8 t8_rtc) as [tr Htr]. exists tr.
  assert ((n_req, "e1") ∉ processed (s_db t8)) as Hn by (intros H; vm_compute in H; discriminate).
  split; [exact Htr|]. split; [vm_compute; reflexivity|]. split; [exact Hn|].
  destruct (Commit_means_processed inside closer older part by_created by_created_perm s0 tr t8
    n_req RideRequestedTopic h_req 0 0 ev1) as [H|H];
    [by vm_compute | exact Htr | apply in_req | vm_compute; lia | vm_compute; reflexivity | by destruct (Hn H) | exact H].
Defined.

(** The status event of an assignment names REQUESTED as the previous status also
when the ride was SEARCHING_DRIVER. *)
Theorem Status_event_previous :
  let d := with_rides {["r1" := mkRide "Ann" 1 1 "MG Road" StatusSearching "c1" 1 2]} seed in
  let ev := New "e5" 4 "ride.assigned" "dispatch-service" "c1" "e1" (RideAssigned "r1" "a1" "d1" "Aarav" "1001" "bike" "") in
  match applyAssigned 6 ∅ "e6" "" ev d with
  | Ok (_, d') => (fun o => Data (o_env o)) <$> outbox d' !! "e6" =
                  Some (RideStatusChanged "r1" StatusRequested StatusAssigned "d1")
  | Err _ => False
  end.
Proof. vm_compute. reflexivity. Qed.

End RidesWitness.
