(* ===== verification/RidesDispatch.v ===== *)
(** * kafkaeda: concurrent dispatchers, statement by statement

[Rides] runs a consumer's transaction as one step.  Here the transactions of the dispatch
service ([dispatch/service.go] under the consumer's [process]) are programs of SQL
statements, and any number of them interleave at the statements, as PostgreSQL runs
them at READ COMMITTED: a statement sees the committed rows and the transaction's own
writes; a write locks its row, an insert its unique keys, and both wait while
another open transaction has the lock; SELECT ... FOR UPDATE SKIP LOCKED locks the row
it returns and does not see rows that others have locked; a transaction commits all
its writes at once, or is rolled back at any point.  The theorem is the exclusiveness
of the assignments; [alone_handleRideRequested] and [alone_handleDriverLocation] tie the
programs to the handlers of [Rides]. *)

From Stdlib Require Import ZArith Lia.
From stdpp Require Import base gmap strings fin_maps fin_sets relations list.
From S2P Require Import Prelude GoStrings Rides.

Open Scope Z_scope.

(* [base] kafkaeda/internal *)

(** ** Locks *)

(** A row, or a key of a unique index, by its table and its value. *)
Definition lock : Type := string * (string * string).
Definition LDriver (id : string) : lock := ("driver_availability", (id, "")).
Definition LPending (ride : string) : lock := ("pending_rides", (ride, "")).
Definition LPendingKey (ride : string) : lock := ("pending_rides_pkey", (ride, "")).
Definition LAssignment (id : string) : lock := ("assignments", (id, "")).
Definition LAssignedRide (ride : string) : lock := ("assignments.ride_id", (ride, "")).
Definition LProcessed (name event : string) : lock := ("processed_events", (name, event)).
Definition LOutbox (id : string) : lock := ("outbox_events", (id, "")).

(** The keys of the locked rows of one table. *)
Definition locked (table : string) (ls : gset lock) : gset string :=
  set_map (fun l : lock => l.2.1) (filter (fun l : lock => l.1 = table) ls).

Lemma elem_of_locked table ls k : k ∈ locked table ls ↔ ∃ k', (table, (k, k')) ∈ ls.
Proof.
  unfold locked. rewrite elem_of_map. split.
  - intros ([t [a b]] & -> & [Ht Hin]%elem_of_filter). simpl in *. subst. by exists b.
  - intros [k' H]. exists (table, (k, k')). split; [done|]. by apply elem_of_filter.
Qed.

Section dispatchers.
Context {F : Type} (closer : F → F → string * avail_row (F := F) → string * avail_row (F := F) → bool).
Context (older : string * pending_row (F := F) → string * pending_row (F := F) → bool).

Abbreviation rdb := (db (F := F)).
Abbreviation event := (Envelope (F := F)).

(** ** Programs of statements *)

(** The statements of a dispatch transaction with what follows their answer: the
number of affected rows as a boolean, or the selected row. *)
Inductive prog : Type :=
| Done
| InsertProcessed (name id : string) (k : bool → prog)
| InsertPending (ride : string) (row : pending_row (F := F)) (k : bool → prog)
| UpdateLocation (now : Z) (id : string) (lat long : F) (k : prog)
| SelectPending (k : option (string * pending_row (F := F)) → prog)
| SelectDriver (lat long : F) (k : option (string * avail_row (F := F)) → prog)
| UpdateBusy (now : Z) (id : string) (k : bool → prog)
| InsertAssignment (id : string) (a : assignment (F := F)) (k : prog)
| DeletePending (ride : string) (k : prog)
| AddOutbox (now : Z) (topic key : string) (ev : event) (k : prog).

(* [go] dispatch/service.go:101-147 reserveDriver *)
Definition reserveDriver_sql (now : Z) (assignmentID eventID : string) (env : event) (rideID : string) (lat long : F)
    (k : bool → prog) : prog :=
  SelectDriver lat long (fun c =>
    match c with
    | None => k false
    | Some p =>
        let driver := driver_of p in
        UpdateBusy now (dv_ID driver) (fun affected =>
          if negb affected then k false
          else InsertAssignment assignmentID (mkAsg rideID driver lat long) (
               DeletePending rideID (
               AddOutbox now RideAssignedTopic rideID
                 (New eventID now "ride.assigned" "dispatch-service" (CorrelationID env) (EventID env)
                    (RideAssigned rideID assignmentID (dv_ID driver) (dv_Name driver) (dv_Phone driver)
                       (dv_VehicleLabel driver) (dv_Color driver)))
                 (k true))))
    end).

(** The program of a message the handler cannot decode is rolled back before any
statement; it has none here. *)
(* [go] dispatch/service.go:31-60 handleRideRequested *)
Definition handleRideRequested_sql (now : Z) (id1 id2 : string) (env : event) : option prog :=
  match Data env with
  | RideRequested rideID rider lat long dest =>
      Some (InsertPending rideID (mkPending rider lat long dest now) (fun inserted =>
        if negb inserted then Done
        else reserveDriver_sql now id1 id2 env rideID lat long (fun matched =>
          if negb matched
          then AddOutbox now RideDispatchDeferredTopic rideID
                 (New id2 now "ride.dispatch.deferred" "dispatch-service" (CorrelationID env) (EventID env)
                    (RideDispatchDeferred rideID "no driver currently available")) Done
          else Done)))
  | _ => None
  end.

(* [go] dispatch/service.go:78-95 matchOldestPending *)
Definition matchOldestPending_sql (now : Z) (id1 id2 : string) (env : event) : prog :=
  SelectPending (fun c =>
    match c with
    | None => Done
    | Some (rideID, row) => reserveDriver_sql now id1 id2 env rideID (pn_lat row) (pn_long row) (fun _ => Done)
    end).

(* [go] dispatch/service.go:62-76 handleDriverLocation *)
Definition handleDriverLocation_sql (now : Z) (id1 id2 : string) (env : event) : option prog :=
  match Data env with
  | DriverLocationUpdated driverID lat long =>
      Some (UpdateLocation now driverID lat long (matchOldestPending_sql now id1 id2 env))
  | _ => None
  end.

(** The consumer's transaction around a handler. *)
(* [go] platform/consumer/consumer.go:80-102 process *)
Definition process_sql (name : string) (env : event) (handler : prog) : prog :=
  InsertProcessed name (EventID env) (fun inserted => if inserted then handler else Done).

(** ** Statements *)

(** The writes of an open transaction: rows by key, deleted keys apart. *)
Record overlay : Type := mkOv {
  ov_avail : gmap string (avail_row (F := F)); ov_pending : gmap string (pending_row (F := F));
  ov_gone : gset string; ov_asg : gmap string (assignment (F := F));
  ov_processed : gset (string * string); ov_outbox : gmap string (out_row (F := F)) }.

Definition no_writes : overlay := mkOv ∅ ∅ ∅ ∅ ∅ ∅.

(** What a transaction sees, and what its commit leaves. *)
Definition view (o : overlay) (d : rdb) : rdb :=
  mkDb (rides d) (ride_drivers d) (drivers d) (ov_avail o ∪ avail d)
    (ov_pending o ∪ filter (fun p => p.1 ∉ ov_gone o) (pending d))
    (ov_asg o ∪ assignments d) (ov_processed o ∪ processed d) (ov_outbox o ∪ outbox d) (ride_activity d).

Definition put_avail id r o := mkOv (<[id := r]> (ov_avail o)) (ov_pending o) (ov_gone o) (ov_asg o) (ov_processed o) (ov_outbox o).
Definition put_pending ride r o := mkOv (ov_avail o) (<[ride := r]> (ov_pending o)) (ov_gone o) (ov_asg o) (ov_processed o) (ov_outbox o).
Definition del_pending ride o := mkOv (ov_avail o) (delete ride (ov_pending o)) ({[ride]} ∪ ov_gone o) (ov_asg o) (ov_processed o) (ov_outbox o).
Definition put_asg i a o := mkOv (ov_avail o) (ov_pending o) (ov_gone o) (<[i := a]> (ov_asg o)) (ov_processed o) (ov_outbox o).
Definition put_processed k o := mkOv (ov_avail o) (ov_pending o) (ov_gone o) (ov_asg o) ({[k]} ∪ ov_processed o) (ov_outbox o).
Definition put_outbox id r o := mkOv (ov_avail o) (ov_pending o) (ov_gone o) (ov_asg o) (ov_processed o) (<[id := r]> (ov_outbox o)).

(** A statement waits for a lock, fails, or answers and may write and lock. *)
Inductive outcome : Type :=
| Waits
| Errors (e : terr)
| Next (p : prog) (o : overlay) (ls : gset lock).

(** Runs a statement unless one of the locks it needs is another transaction's. *)
Definition locking (others : gset lock) (need : list lock) (r : outcome) : outcome :=
  if decide (Exists (fun l => l ∈ others) need) then Waits else r.

Definition move (now : Z) (lat long : F) (r : avail_row (F := F)) : avail_row (F := F) :=
  mkAvail (av_name r) (av_phone r) (av_vehicle r) (av_color r) lat long (av_free r) now.

(** The first statement of [p], for a transaction with the writes [o] and the locks [ls],
while the other open transactions hold the locks [others]. *)
(* [go] dispatch/service.go:103-147 reserveDriver *)
Definition exec (others : gset lock) (d : rdb) (p : prog) (o : overlay) (ls : gset lock) : outcome :=
  let v := view o d in
  match p with
  | Done => Waits
  | InsertProcessed name id k => locking others [LProcessed name id]
      (if bool_decide ((name, id) ∈ processed v) then Next (k false) o ls
       else Next (k true) (put_processed (name, id) o) ({[LProcessed name id]} ∪ ls))
  | InsertPending ride row k => locking others [LPendingKey ride]
      (match pending v !! ride with
       | Some _ => Next (k false) o ls
       | None => Next (k true) (put_pending ride row o) ({[LPendingKey ride]} ∪ ls)
       end)
  | UpdateLocation now id lat long k =>
      match avail v !! id with
      | Some r => locking others [LDriver id] (Next k (put_avail id (move now lat long r) o) ({[LDriver id]} ∪ ls))
      | None => Next k o ls
      end
  | SelectPending k =>
      match first_by older (filter (fun p => p.1 ∉ locked "pending_rides" others) (pending v)) with
      | Some p => Next (k (Some p)) o ({[LPending p.1]} ∪ ls)
      | None => Next (k None) o ls
      end
  | SelectDriver lat long k =>
      match first_by (closer lat long) (candidates (locked "driver_availability" others) v) with
      | Some p => Next (k (Some p)) o ({[LDriver p.1]} ∪ ls)
      | None => Next (k None) o ls
      end
  | UpdateBusy now id k =>
      match avail v !! id with
      | Some r => locking others [LDriver id]
          (if av_free r then Next (k true) (put_avail id (set_busy now r) o) ({[LDriver id]} ∪ ls)
           else Next (k false) o ls)
      | None => Next (k false) o ls
      end
  | InsertAssignment i a k => locking others [LAssignment i; LAssignedRide (as_ride a)]
      (if bool_decide (is_Some (assignments v !! i)) ||
          existsb (fun p => bool_decide (as_ride p.2 = as_ride a)) (map_to_list (assignments v))
       then Errors EConflict
       else Next k (put_asg i a o) ({[LAssignment i; LAssignedRide (as_ride a)]} ∪ ls))
  | DeletePending ride k =>
      match pending v !! ride with
      | Some _ => locking others [LPending ride; LPendingKey ride]
          (Next k (del_pending ride o) ({[LPending ride; LPendingKey ride]} ∪ ls))
      | None => Next k o ls
      end
  | AddOutbox now topic key ev k => locking others [LOutbox (EventID ev)]
      (match outbox v !! EventID ev with
       | Some _ => Errors EConflict
       | None => Next k (put_outbox (EventID ev) (mkOut topic key ev now None 0 false) o) ({[LOutbox (EventID ev)]} ∪ ls)
       end)
  end.

(** ** The running dispatchers *)

Record dtx : Type := mkTx { t_prog : prog; t_own : overlay; t_locks : gset lock }.
Record dsys : Type := mkD { x_db : rdb; x_txs : gmap nat dtx }.

Definition others (n : nat) (s : dsys) : gset lock :=
  ⋃ ((fun p => t_locks p.2) <$> map_to_list (delete n (x_txs s))).

(** The transactions of the two dispatch consumers. *)
(* [go] dispatch/service.go:17-29 Run *)
Definition starts (p : prog) : Prop :=
  ∃ now id1 id2 env h,
    (p = process_sql "dispatch-service.requested-v1" env h ∧ handleRideRequested_sql now id1 id2 env = Some h) ∨
    (p = process_sql "dispatch-service.location-v1" env h ∧ handleDriverLocation_sql now id1 id2 env = Some h).

(** A transaction begins, runs its next statement, is rolled back (an error, a lost
connection, a deadlock, a crash) or commits; the other services change the tables of
their own. *)
Inductive dstep (s : dsys) : dsys → Prop :=
| X_begin n p : x_txs s !! n = None → starts p → dstep s (mkD (x_db s) (<[n := mkTx p no_writes ∅]> (x_txs s)))
| X_exec n t p' o' ls' : x_txs s !! n = Some t →
    exec (others n s) (x_db s) (t_prog t) (t_own t) (t_locks t) = Next p' o' ls' →
    dstep s (mkD (x_db s) (<[n := mkTx p' o' ls']> (x_txs s)))
| X_rollback n : dstep s (mkD (x_db s) (delete n (x_txs s)))
| X_commit n t : x_txs s !! n = Some t → t_prog t = Done →
    dstep s (mkD (view (t_own t) (x_db s)) (delete n (x_txs s)))
| X_other d : avail d = avail (x_db s) → pending d = pending (x_db s) → assignments d = assignments (x_db s) →
    dstep s (mkD d (x_txs s)).

(** Before the first dispatcher starts there are drivers, and no assignment. *)
Definition dreachable (s : dsys) : Prop :=
  ∃ d, assignments d = ∅ ∧ rtc dstep (mkD d ∅) s.

(** ** The invariant *)

(** At most one driver per ride and one ride per driver, who is busy. *)
Record exclusive (d : rdb) : Prop := {
  e_busy : ∀ i a, assignments d !! i = Some a → ∃ r, avail d !! dv_ID (as_driver a) = Some r ∧ av_free r = false;
  e_driver : ∀ i j a b, assignments d !! i = Some a → assignments d !! j = Some b →
    dv_ID (as_driver a) = dv_ID (as_driver b) → i = j;
  e_ride : ∀ i j a b, assignments d !! i = Some a → assignments d !! j = Some b → as_ride a = as_ride b → i = j }.

(** The driver [id] is reserved by the transaction: taken from the free ones under the
row's lock, and not visibly so to others. *)
Definition takes (d : rdb) (o : overlay) (ls : gset lock) (id : string) : Prop :=
  LDriver id ∈ ls ∧ (∃ r, ov_avail o !! id = Some r ∧ av_free r = false) ∧
  (∃ r, avail d !! id = Some r ∧ av_free r = true).

(** What the writes of an open transaction are. *)
Record tinv (d : rdb) (o : overlay) (ls : gset lock) : Prop := {
  t_avail : ∀ id r, ov_avail o !! id = Some r →
    LDriver id ∈ ls ∧ ∃ r0, avail d !! id = Some r0 ∧ (av_free r0 = false → av_free r = false);
  t_asg : ∀ i a, ov_asg o !! i = Some a →
    LAssignment i ∈ ls ∧ LAssignedRide (as_ride a) ∈ ls ∧ takes d o ls (dv_ID (as_driver a)) ∧
    assignments d !! i = None ∧ ∀ j b, assignments d !! j = Some b → as_ride b ≠ as_ride a;
  t_uniq : ∀ i j a b, ov_asg o !! i = Some a → ov_asg o !! j = Some b →
    dv_ID (as_driver a) = dv_ID (as_driver b) ∨ as_ride a = as_ride b → i = j }.

(** A driver reserved and not yet assigned. *)
Definition reserving (d : rdb) (o : overlay) (ls : gset lock) (r : option string) : Prop :=
  match r with
  | None => True
  | Some id => takes d o ls id ∧ ∀ i a, ov_asg o !! i = Some a → dv_ID (as_driver a) ≠ id
  end.

(** A program inserts an assignment only right after its UPDATE reserved the driver. *)
Fixpoint disciplined (r : option string) (p : prog) : Prop :=
  match p with
  | Done => True
  | InsertProcessed _ _ k | InsertPending _ _ k => ∀ b, disciplined r (k b)
  | UpdateLocation _ _ _ _ k | DeletePending _ k | AddOutbox _ _ _ _ k => disciplined r k
  | SelectPending k => ∀ x, disciplined r (k x)
  | SelectDriver _ _ k => ∀ x, disciplined r (k x)
  | UpdateBusy _ id k => disciplined (Some id) (k true) ∧ disciplined r (k false)
  | InsertAssignment _ a k => r = Some (dv_ID (as_driver a)) ∧ disciplined None k
  end.

Definition tx_ok (d : rdb) (t : dtx) : Prop :=
  ∃ r, disciplined r (t_prog t) ∧ tinv d (t_own t) (t_locks t) ∧ reserving d (t_own t) (t_locks t) r.

Record xinv (s : dsys) : Prop := {
  x_good : exclusive (x_db s);
  x_open : ∀ n t, x_txs s !! n = Some t → tx_ok (x_db s) t;
  x_disj : ∀ n m t u, x_txs s !! n = Some t → x_txs s !! m = Some u → n ≠ m → t_locks t ## t_locks u }.

Lemma reserve_disciplined now i e env ride lat long r k :
  (∀ b r', disciplined r' (k b)) → disciplined r (reserveDriver_sql now i e env ride lat long k).
Proof. intros Hk. simpl. intros [p|]; [|auto]. simpl. split; [split; auto|auto]. Qed.

Lemma starts_disciplined p : starts p → disciplined None p.
Proof.
  intros (now & id1 & id2 & env & h & [[-> Hh]|[-> Hh]]); simpl; intros [|]; try done.
  - unfold handleRideRequested_sql in Hh. destruct (Data env); try done. injection Hh as <-.
    intros [|]; [|done]. apply reserve_disciplined. intros b r'. by destruct b.
  - unfold handleDriverLocation_sql in Hh. destruct (Data env); try done. injection Hh as <-.
    simpl. intros [[ride row]|]; [|done]. by apply reserve_disciplined.
Qed.

Lemma locking_Next oth need r p o ls : locking oth need r = Next p o ls →
  r = Next p o ls ∧ Forall (fun l => l ∉ oth) need.
Proof. unfold locking. case_decide as Hd; [done|]. intros ->. split; [done|]. by apply Forall_Exists_neg. Qed.

Lemma locking_one oth l r p o ls : locking oth [l] r = Next p o ls → r = Next p o ls ∧ l ∉ oth.
Proof. intros [Hr Hf]%locking_Next. by inversion Hf. Qed.

Lemma tinv_locks d o ls ls' : ls ⊆ ls' → tinv d o ls → tinv d o ls'.
Proof.
  intros Hs [H1 H2 H3]. split; [| |done].
  - intros id r Hr. destruct (H1 id r Hr) as (? & ?). split; [set_solver|done].
  - intros i a Ha. destruct (H2 i a Ha) as (? & ? & (? & ? & ?) & ? & ?). split_and!; try done; [set_solver..|].
    split_and!; [set_solver|done|done].
Qed.

Lemma reserving_locks d o ls ls' r : ls ⊆ ls' → reserving d o ls r → reserving d o ls' r.
Proof. intros Hs. destruct r as [id|]; [|done]. intros [(? & ? & ?) ?]. split; [|done]. split_and!; [set_solver|done|done]. Qed.

Lemma own_ext d o o' ls r : ov_avail o' = ov_avail o → ov_asg o' = ov_asg o →
  tinv d o ls ∧ reserving d o ls r → tinv d o' ls ∧ reserving d o' ls r.
Proof.
  destruct o, o'. simpl. intros -> -> [[H1 H2 H3] Hr]. split; [|exact Hr]. split; [exact H1|exact H2|exact H3].
Qed.

(** A statement takes no lock that another transaction holds. *)
Lemma exec_locks oth d p o ls p' o' ls' : exec oth d p o ls = Next p' o' ls' →
  ls ⊆ ls' ∧ ∀ l, l ∈ ls' → l ∈ ls ∨ l ∉ oth.
Proof.
  assert (∀ new, Forall (fun l => l ∉ oth) new →
    ls ⊆ list_to_set new ∪ ls ∧ ∀ l, l ∈ (list_to_set new : gset lock) ∪ ls → l ∈ ls ∨ l ∉ oth) as Hnew.
  { intros new Hf. split; [set_solver|]. intros l [Hl|Hl]%elem_of_union; [|by left]. right.
    apply elem_of_list_to_set in Hl. by eapply Forall_forall in Hf. }
  assert (ls ⊆ ls ∧ ∀ l, l ∈ ls → l ∈ ls ∨ l ∉ oth) as Hsame by (split; [done|auto]).
  assert (∀ l, l ∉ oth → ls ⊆ {[l]} ∪ ls ∧ ∀ l', l' ∈ {[l]} ∪ ls → l' ∈ ls ∨ l' ∉ oth) as Hone by set_solver.
  assert (∀ A (lt : string * A → string * A → bool) m q table k, first_by lt m = Some q →
    (∀ x, m !! q.1 = Some x → q.1 ∉ locked table oth) → (table, (q.1, k)) ∉ oth) as Hfree.
  { intros A lt m q table k Hq Hm Hin. apply first_by_elem in Hq. apply (Hm _ Hq), elem_of_locked. eauto. }
  intros H. destruct p; simpl in H; try done.
  - apply locking_one in H as [H Hf]. case_bool_decide; simplify_eq; auto.
  - apply locking_one in H as [H Hf]. case_match; simplify_eq; auto.
  - case_match; [apply locking_one in H as [H Hf]|]; simplify_eq; auto.
  - case_match eqn:Hq; simplify_eq; [|auto]. apply Hone. eapply Hfree; [exact Hq|].
    intros x [_ Hx]%map_lookup_filter_Some. done.
  - case_match eqn:Hq; simplify_eq; [|auto]. apply Hone. eapply Hfree; [exact Hq|].
    intros x Hx. by apply (candidates_Some older (fun _ => 0%nat)) in Hx as (_ & _ & ?).
  - case_match; [apply locking_one in H as [H Hf]; case_match|]; simplify_eq; auto.
  - apply locking_Next in H as [H Hf]. case_match; [done|]. injection H as <- <- <-.
    apply (Hnew _) in Hf. simpl in Hf. set_solver.
  - case_match; [|simplify_eq; auto]. apply locking_Next in H as [H Hf]. injection H as <- <- <-.
    apply (Hnew _) in Hf. simpl in Hf. set_solver.
  - apply locking_one in H as [H Hf]. case_match; simplify_eq; auto.
Qed.

(** Writing a driver row that one sees, never from busy to free. *)
Section put_avail.
Context (d : rdb) (o : overlay) (ls : gset lock) (id : string) (r r' : avail_row (F := F)).
Context (Hview : avail (view o d) !! id = Some r) (Hkeep : av_free r = false → av_free r' = false).
Context (Ht : tinv d o ls).

Lemma view_committed : ∃ r0, avail d !! id = Some r0 ∧ (av_free r0 = false → av_free r = false).
Proof.
  simpl in Hview. apply lookup_union_Some_raw in Hview as [Ho|[_ Hd]]; [|eauto].
  by destruct (t_avail _ _ _ Ht id r Ho) as (_ & ?).
Qed.

Lemma takes_put ls' id' : ls ⊆ ls' → takes d o ls id' → takes d (put_avail id r' o) ls' id'.
Proof.
  intros Hs (H1 & (x & Hx & Hb) & H3). split_and!; [set_solver| |done]. simpl.
  destruct (decide (id = id')) as [<-|Hne]; [|exists x; by rewrite lookup_insert_ne].
  exists r'. rewrite lookup_insert_eq. split; [done|]. apply Hkeep. simpl in Hview.
  rewrite (lookup_union_Some_l _ _ _ _ Hx) in Hview. congruence.
Qed.

Lemma tinv_put : tinv d (put_avail id r' o) ({[LDriver id]} ∪ ls).
Proof.
  split; [| |apply Ht].
  - intros i x. simpl. intros [[<- <-]|[Hne Hx]]%lookup_insert_Some.
    + split; [set_solver|]. destruct view_committed as (r0 & ? & ?). exists r0. split; auto.
    + destruct (t_avail _ _ _ Ht i x Hx) as (? & ?). split; [set_solver|done].
  - simpl. intros i a Ha. destruct (t_asg _ _ _ Ht i a Ha) as (? & ? & Hta & ? & ?).
    split_and!; try done; [set_solver..|]. apply takes_put; [set_solver|done].
Qed.

Lemma reserving_put x : reserving d o ls x → reserving d (put_avail id r' o) ({[LDriver id]} ∪ ls) x.
Proof. destruct x as [i|]; [|done]. intros [H1 H2]. split; [|done]. apply takes_put; [set_solver|done]. Qed.
End put_avail.

(** Reserving a driver one sees free. *)
Lemma busy_reserves now d o ls id r : tinv d o ls → avail (view o d) !! id = Some r → av_free r = true →
  reserving d (put_avail id (set_busy now r) o) ({[LDriver id]} ∪ ls) (Some id).
Proof.
  intros Ht Hv Hf. split.
  - split_and!; [set_solver|exists (set_busy now r); simpl; by rewrite lookup_insert_eq|].
    destruct (view_committed d o ls id r Hv Ht) as (r0 & Hr0 & Hb). exists r0. split; [done|].
    destruct (av_free r0); [done|]. rewrite Hb in Hf; done.
  - simpl. intros i a Ha Heq. destruct (t_asg _ _ _ Ht i a Ha) as (_ & _ & (_ & (x & Hx & Hb) & _) & _).
    rewrite Heq in Hx. simpl in Hv. rewrite (lookup_union_Some_l _ _ _ _ Hx) in Hv. congruence.
Qed.

(** Assigning the driver one has reserved. *)
Lemma assign_tinv d o ls i a : tinv d o ls → reserving d o ls (Some (dv_ID (as_driver a))) →
  assignments (view o d) !! i = None → (∀ j b, assignments (view o d) !! j = Some b → as_ride b ≠ as_ride a) →
  tinv d (put_asg i a o) ({[LAssignment i; LAssignedRide (as_ride a)]} ∪ ls).
Proof.
  intros Ht [Hta Hno] Hi Hr. simpl in Hi, Hr. apply lookup_union_None in Hi as [Hio Hid].
  assert (∀ j b, ov_asg o !! j = Some b → as_ride b ≠ as_ride a) as Hro.
  { intros j b Hb. apply (Hr j b). by apply lookup_union_Some_l. }
  assert (∀ j b, assignments d !! j = Some b → as_ride b ≠ as_ride a) as Hrd.
  { intros j b Hb. destruct (ov_asg o !! j) as [c|] eqn:Ec.
    - destruct (t_asg _ _ _ Ht j c Ec) as (_ & _ & _ & Hn & _). congruence.
    - apply (Hr j b). by rewrite lookup_union_r. }
  assert (∀ id, takes d o ls id → takes d (put_asg i a o) ({[LAssignment i; LAssignedRide (as_ride a)]} ∪ ls) id) as Htk.
  { intros id (? & ? & ?). split_and!; [set_solver|done|done]. }
  split; simpl.
  - intros id r Hx. destruct (t_avail _ _ _ Ht id r Hx) as (? & ?). split; [set_solver|done].
  - intros j b [[<- <-]|[_ Hb]]%lookup_insert_Some.
    + split_and!; [set_solver..|auto|done|done].
    + destruct (t_asg _ _ _ Ht j b Hb) as (? & ? & ? & ? & ?). split_and!; [set_solver..|auto|done|done].
  - intros j k b c Hb Hc Hor. apply lookup_insert_Some in Hb as [[<- <-]|[? Hb]], Hc as [[<- <-]|[? Hc]]; [done| | |by eapply t_uniq].
    + destruct Hor as [Hor|Hor]; [by destruct (Hno k c Hc)|by destruct (Hro k c Hc)].
    + destruct Hor as [Hor|Hor]; [by destruct (Hno j b Hb)|by destruct (Hro j b Hb)].
Qed.

(** A statement keeps the invariant of its transaction. *)
Lemma exec_ok oth d p o ls p' o' ls' : tx_ok d (mkTx p o ls) → exec oth d p o ls = Next p' o' ls' →
  tx_ok d (mkTx p' o' ls').
Proof.
  intros (r & Hd & Ht & Hr) H. cbn [t_prog t_own t_locks] in *.
  assert (ov_avail o' = ov_avail o → ov_asg o' = ov_asg o → ls ⊆ ls' → disciplined r p' →
    tx_ok d (mkTx p' o' ls')) as Hsame.
  { intros E1 E2 Hs Hp. exists r. split; [done|]. apply (own_ext d o o'); try done.
    split; [by apply (tinv_locks d o ls)|by apply (reserving_locks d o ls)]. }
  destruct p; simpl in H, Hd; try done.
  - apply locking_one in H as [H _]. case_bool_decide; simplify_eq; (apply Hsame; [done|done|set_solver|auto]).
  - apply locking_one in H as [H _]. case_match; simplify_eq; (apply Hsame; [done|done|set_solver|auto]).
  - case_match eqn:Hv; [apply locking_one in H as [H _]|]; simplify_eq; [|by apply Hsame].
    exists r. split_and!; [done|by eapply tinv_put|by eapply reserving_put].
  - case_match; simplify_eq; (apply Hsame; [done|done|set_solver|auto]).
  - case_match; simplify_eq; (apply Hsame; [done|done|set_solver|auto]).
  - case_match eqn:Hv; [apply locking_one in H as [H _]; case_match eqn:Hf|]; simplify_eq; [|by (apply Hsame; [..|apply Hd])..].
    exists (Some id). split_and!; [apply Hd|by eapply tinv_put|by apply busy_reserves].
  - apply locking_Next in H as [H _]. destruct Hd as [-> Hd]. case_match eqn:Hc; [done|]. injection H as <- <- <-.
    apply orb_false_iff in Hc as [Hi Hex]. exists None. split_and!; [done| |done]. apply assign_tinv; try done.
    + apply bool_decide_eq_false in Hi. by apply eq_None_not_Some.
    + intros j b Hb Heq. apply not_true_iff_false in Hex. apply Hex, existsb_exists. exists (j, b).
      split; [by apply list_elem_of_In, elem_of_map_to_list|by apply bool_decide_eq_true_2].
  - case_match; [apply locking_Next in H as [H _]|]; simplify_eq; (apply Hsame; [done|done|set_solver|auto]).
  - apply locking_one in H as [H _]. case_match; simplify_eq. apply Hsame; [done|done|set_solver|auto].
Qed.

(** The invariant of an open transaction reads the rows it has locked, and the
assignments. *)
Lemma tx_ok_frame d d' t : tx_ok d t →
  (∀ id, LDriver id ∈ t_locks t → avail d' !! id = avail d !! id) →
  (∀ i, LAssignment i ∈ t_locks t → assignments d !! i = None → assignments d' !! i = None) →
  (∀ ride, LAssignedRide ride ∈ t_locks t → (∀ j b, assignments d !! j = Some b → as_ride b ≠ ride) →
     ∀ j b, assignments d' !! j = Some b → as_ride b ≠ ride) →
  tx_ok d' t.
Proof.
  intros (r & Hd & [H1 H2 H3] & Hr) Hav Hi Hri.
  assert (∀ id, takes d (t_own t) (t_locks t) id → takes d' (t_own t) (t_locks t) id) as Htk.
  { intros id (? & ? & Hx). split_and!; try done. by rewrite Hav. }
  exists r. split_and!; [done| |].
  - split; [| |done].
    + intros id x Hx. destruct (H1 id x Hx) as (? & ?). by rewrite Hav.
    + intros i a Ha. destruct (H2 i a Ha) as (? & ? & ? & ? & ?). split_and!; eauto.
  - destruct r as [id|]; [|done]. destruct Hr as [? ?]. split; auto.
Qed.

(** The commit of a transaction keeps the exclusiveness, *)
Lemma commit_exclusive d o ls : exclusive d → tinv d o ls → exclusive (view o d).
Proof.
  intros [E1 E2 E3] [H1 H2 H3].
  assert (∀ i a, ov_asg o !! i = Some a → ∀ j b, assignments d !! j = Some b →
    dv_ID (as_driver a) = dv_ID (as_driver b) ∨ as_ride a = as_ride b → False) as Hx.
  { intros i a Ha j b Hb Hor. destruct (H2 i a Ha) as (_ & _ & (_ & _ & (r & Hr & Hf)) & _ & Hri).
    destruct Hor as [Heq|Heq]; [|by apply (Hri j b Hb)].
    destruct (E1 j b Hb) as (r' & Hr' & Hf'). rewrite Heq in Hr. congruence. }
  assert (∀ i a, (ov_asg o ∪ assignments d) !! i = Some a → ov_asg o !! i = Some a ∨ assignments d !! i = Some a) as Hc.
  { intros i a [?|[_ ?]]%lookup_union_Some_raw; auto. }
  split; simpl.
  - intros i a [Ha|Ha]%Hc.
    + destruct (H2 i a Ha) as (_ & _ & (_ & (r & Hr & Hf) & _) & _). exists r. split; [|done]. by apply lookup_union_Some_l.
    + destruct (E1 i a Ha) as (r & Hr & Hf). destruct (ov_avail o !! dv_ID (as_driver a)) as [r'|] eqn:Ho.
      * exists r'. split; [by apply lookup_union_Some_l|]. destruct (H1 _ _ Ho) as (_ & r0 & Hr0 & Hk).
        apply Hk. congruence.
      * exists r. by rewrite lookup_union_r.
  - intros i j a b [Ha|Ha]%Hc [Hb|Hb]%Hc Heq; [by eapply H3; eauto| | |by eapply E2];
      exfalso; by eapply Hx; eauto.
  - intros i j a b [Ha|Ha]%Hc [Hb|Hb]%Hc Heq; [by eapply H3; eauto| | |by eapply E3];
      exfalso; by eapply Hx; eauto.
Qed.

(** and the invariants of the transactions whose locks are others. *)
Lemma commit_frame d t u : tinv d (t_own t) (t_locks t) → t_locks t ## t_locks u → tx_ok d u → tx_ok (view (t_own t) d) u.
Proof.
  intros [H1 H2 _] Hdis Hu. apply (tx_ok_frame d); [done|..]; simpl.
  - intros id Hid. apply lookup_union_r. destruct (ov_avail (t_own t) !! id) eqn:E; [|done].
    destruct (H1 _ _ E) as [? _]. set_solver.
  - intros i Hi Hn. apply lookup_union_None. split; [|done]. destruct (ov_asg (t_own t) !! i) eqn:E; [|done].
    destruct (H2 _ _ E) as [? _]. set_solver.
  - intros ride Hr Hn j b [Ho|[_ Hd]]%lookup_union_Some_raw; [|by apply (Hn j)]. intros <-.
    destruct (H2 _ _ Ho) as (_ & ? & _). set_solver.
Qed.

Lemma others_elem n m s t l : x_txs s !! m = Some t → n ≠ m → l ∈ t_locks t → l ∈ others n s.
Proof.
  intros Hm Hne Hl. unfold others. apply elem_of_union_list. exists (t_locks t). split; [|done].
  apply list_elem_of_fmap. exists (m, t). split; [done|]. apply elem_of_map_to_list. by rewrite lookup_delete_ne.
Qed.

Lemma xinv_exec s n t p' o' ls' : xinv s → x_txs s !! n = Some t →
  exec (others n s) (x_db s) (t_prog t) (t_own t) (t_locks t) = Next p' o' ls' →
  xinv (mkD (x_db s) (<[n := mkTx p' o' ls']> (x_txs s))).
Proof.
  intros [HG HO HD] Hn Hx. destruct (exec_locks _ _ _ _ _ _ _ _ Hx) as [_ Hl].
  assert (∀ m u, x_txs s !! m = Some u → n ≠ m → ls' ## t_locks u) as Hdis.
  { intros m u Hu Hne l Hl1 Hl2. destruct (Hl l Hl1) as [Hin|Hout].
    - by apply (HD n m t u Hn Hu Hne l).
    - by apply Hout, (others_elem n m s u). }
  split; simpl; [done|..].
  - intros m u [[<- <-]|[_ Hu]]%lookup_insert_Some; [|eauto]. eapply exec_ok; [|exact Hx]. destruct t. by apply (HO n).
  - intros m k u w [[<- <-]|[Hm Hu]]%lookup_insert_Some [[<- <-]|[Hk Hw]]%lookup_insert_Some Hne; try done; eauto.
    symmetry. eauto.
Qed.

Lemma xinv_step s s' : xinv s → dstep s s' → xinv s'.
Proof.
  intros HX Hs. pose proof HX as [HG HO HD]. destruct Hs as [n p Hn Hp|n t p' o' ls' Hn Hx|n|n t Hn Hdone|d E1 E2 E3].
  - split; simpl; [done|..].
    + intros m u [[<- <-]|[_ Hu]]%lookup_insert_Some; [|eauto]. exists None. simpl.
      split_and!; [by apply starts_disciplined|split; simpl; by intros *; rewrite lookup_empty|done].
    + intros m k u w [[<- <-]|[Hm Hu]]%lookup_insert_Some [[<- <-]|[Hk Hw]]%lookup_insert_Some Hne;
        try done; [set_solver..|eauto].
  - by eapply xinv_exec.
  - split; simpl; [done|..].
    + intros m u [_ Hu]%lookup_delete_Some. eauto.
    + intros m k u w [_ Hu]%lookup_delete_Some [_ Hw]%lookup_delete_Some. eauto.
  - destruct (HO n t Hn) as (r & _ & Ht & _). split; simpl.
    + by eapply commit_exclusive.
    + intros m u [Hne Hu]%lookup_delete_Some. apply commit_frame; eauto.
    + intros m k u w [_ Hu]%lookup_delete_Some [_ Hw]%lookup_delete_Some. eauto.
  - split; simpl; [|..|done].
    + destruct HG as [G1 G2 G3]. split; rewrite ?E1, ?E3; done.
    + intros n t Ht. apply (tx_ok_frame (x_db s)); rewrite ?E1, ?E3; eauto.
Qed.

Lemma xinv_reachable s : dreachable s → xinv s.
Proof.
  intros (d & Hd & Hr). eapply (rtc_invariant dstep xinv); [|exact Hr|].
  - intros x y. apply xinv_step.
  - split; simpl; [|by intros *; rewrite lookup_empty..]. split; intros *; by rewrite Hd, lookup_empty.
Qed.

(** ** A transaction alone is the handler of [Rides] *)

(** Running a program with no other transaction open. *)
Inductive alone (d : rdb) : prog → overlay → gset lock → result terr rdb → Prop :=
| A_done o ls : alone d Done o ls (Ok (view o d))
| A_next p o ls p' o' ls' res : exec ∅ d p o ls = Next p' o' ls' → alone d p' o' ls' res → alone d p o ls res
| A_error p o ls e : exec ∅ d p o ls = Errors e → alone d p o ls (Err e).

Lemma locked_empty table : locked table ∅ = ∅.
Proof. apply set_eq. intros k. rewrite elem_of_locked. set_solver. Qed.

Lemma locking_free need r : locking ∅ need r = r.
Proof.
  unfold locking. case_decide as Hd; [|done]. apply Exists_exists in Hd as (l & _ & Hl). by apply elem_of_empty in Hl.
Qed.

Lemma view_no_writes d : view no_writes d = d.
Proof.
  unfold view. simpl. rewrite !(left_id_L ∅ (∪)). destruct d. simpl. f_equal.
  apply map_filter_id. intros i x _. set_solver.
Qed.

Lemma view_put_avail id r o d : view (put_avail id r o) d = with_avail (<[id := r]> (avail (view o d))) (view o d).
Proof. unfold view, with_avail. simpl. by rewrite insert_union_l. Qed.

Lemma view_put_pending ride r o d : view (put_pending ride r o) d = with_pending (<[ride := r]> (pending (view o d))) (view o d).
Proof. unfold view, with_pending. simpl. by rewrite insert_union_l. Qed.

Lemma view_put_asg i a o d : view (put_asg i a o) d = with_assignments (<[i := a]> (assignments (view o d))) (view o d).
Proof. unfold view, with_assignments. simpl. by rewrite insert_union_l. Qed.

Lemma view_put_outbox id r o d : view (put_outbox id r o) d = with_outbox (<[id := r]> (outbox (view o d))) (view o d).
Proof. unfold view, with_outbox. simpl. by rewrite insert_union_l. Qed.

Lemma view_put_processed k o d : view (put_processed k o) d = with_processed ({[k]} ∪ processed (view o d)) (view o d).
Proof. unfold view, with_processed. simpl. by rewrite (assoc_L (∪)). Qed.

Lemma view_del_pending ride o d : view (del_pending ride o) d = with_pending (delete ride (pending (view o d))) (view o d).
Proof.
  unfold view, with_pending. simpl. f_equal. apply map_eq. intros k. destruct (decide (k = ride)) as [->|Hne].
  - rewrite lookup_delete_eq. apply lookup_union_None. split; [apply lookup_delete_eq|].
    apply map_lookup_filter_None. right. intros x _ Hk. simpl in Hk. set_solver.
  - rewrite lookup_delete_ne by done. rewrite !lookup_union, lookup_delete_ne by done. f_equal.
    rewrite !map_lookup_filter. destruct (pending d !! k); [|done]. simpl.
    repeat case_guard; try done; exfalso; set_solver.
Qed.

Lemma delete_pending_absent (ride : string) (v : rdb) : pending v !! ride = None → with_pending (delete ride (pending v)) v = v.
Proof. intros H. rewrite delete_id by done. by destruct v. Qed.

(** How the end of a statement of [Rides] is reached by the program. *)
Definition follows (d : rdb) (p : prog) (o : overlay) (ls : gset lock) {A} (r : result terr (A * rdb)) (k : A → prog) : Prop :=
  match r with
  | Err e => alone d p o ls (Err e)
  | Ok (a, v) => ∃ o' ls', view o' d = v ∧ ∀ res, alone d (k a) o' ls' res → alone d p o ls res
  end.

Lemma follows_Add d o ls now topic key ev k :
  follows d (AddOutbox now topic key ev k) o ls (outbox_Add now topic key ev (view o d)) (fun _ => k).
Proof.
  unfold outbox_Add, bind, Rides.read, modify. destruct (outbox (view o d) !! EventID ev) as [x|] eqn:Ho; simpl.
  - apply A_error. simpl. rewrite locking_free. simpl in Ho. by rewrite Ho.
  - eexists _, _. split; [|intros res H; eapply A_next; [|exact H]; simpl; rewrite locking_free; simpl in Ho; by rewrite Ho].
    by rewrite view_put_outbox.
Qed.

Lemma follows_step {A} d p o ls p' o' ls' (r : result terr (A * rdb)) k :
  exec ∅ d p o ls = Next p' o' ls' → follows d p' o' ls' r k → follows d p o ls r k.
Proof.
  intros Hx. destruct r as [[a v]|e]; simpl; [|by apply A_next].
  intros (o1 & ls1 & Hv & H). exists o1, ls1. split; [done|]. intros res Hr. eapply A_next; [exact Hx|auto].
Qed.

Lemma follows_ret {A B} d p o ls (m : tx A) (a : B) k v :
  follows d p o ls (m v) (fun _ => k a) → follows d p o ls (bind m (fun _ => ret a) v) k.
Proof. unfold bind, ret. by destruct (m v) as [[x v']|]. Qed.

(** The DELETE, which has nothing to lock when it finds no row. *)
Lemma exec_delete d ride k o ls : ∃ o' ls', exec ∅ d (DeletePending ride k) o ls = Next k o' ls' ∧
  view o' d = with_pending (delete ride (pending (view o d))) (view o d).
Proof.
  simpl. destruct (_ !! ride) as [x|] eqn:Hp.
  - rewrite locking_free. eexists _, _. split; [done|]. apply view_del_pending.
  - eexists _, _. split; [done|]. symmetry. by apply delete_pending_absent.
Qed.

Lemma follows_reserve d o ls now i e env ride lat long k :
  follows d (reserveDriver_sql now i e env ride lat long k) o ls
    (reserveDriver closer now ∅ i e env ride lat long (view o d)) k.
Proof.
  unfold reserveDriver. cbn [bind Rides.read]. unfold bind at 1, Rides.read at 1.
  destruct (first_by _ _) as [[id row]|] eqn:Ef.
  2: { eapply follows_step; [simpl; rewrite locked_empty, Ef; reflexivity|]. exists o, ls. auto. }
  eapply follows_step; [simpl; rewrite locked_empty, Ef; reflexivity|]. cbn [fst].
  apply first_by_elem, (candidates_Some older (fun _ => 0%nat)) in Ef as (Hav & Hfree & _). simpl in Hav, Hfree.
  eapply follows_step.
  { simpl. rewrite Hav, locking_free, Hfree. simpl. reflexivity. }
  unfold bind at 1, Rides.read at 1. cbn [avail view]. rewrite Hav. cbn [fmap option_fmap option_map]. rewrite Hfree.
  rewrite bool_decide_eq_true_2 by done. cbn [negb].
  unfold bind at 1, modify at 1. unfold bind at 1, Rides.read at 1. cbn [assignments with_avail].
  set (o1 := put_avail id _ o). destruct (_ || _) eqn:Ec.
  { apply A_error. unfold exec. rewrite locking_free. change (assignments (view o1 d)) with (assignments (view o d)).
    cbn [as_ride]. by rewrite Ec. }
  eapply follows_step.
  { unfold exec. rewrite locking_free. change (assignments (view o1 d)) with (assignments (view o d)).
    cbn [as_ride]. rewrite Ec. reflexivity. }
  set (o2 := put_asg _ _ o1). unfold bind at 1, modify at 1.
  destruct (exec_delete d ride (AddOutbox now RideAssignedTopic ride
    (New e now "ride.assigned" "dispatch-service" (CorrelationID env) (EventID env)
       (RideAssigned ride i id (av_name row) (av_phone row) (av_vehicle row) (av_color row))) (k true)) o2
    ({[LAssignment i; LAssignedRide ride]} ∪ ({[LDriver id]} ∪ ({[LDriver id]} ∪ ls)))) as (o3 & ls3 & Hx & Hv).
  eapply follows_step; [exact Hx|]. apply follows_ret.
  assert (view o2 d = with_assignments (<[i := mkAsg ride (driver_of (id, row)) lat long]> (assignments (view o d)))
    (with_avail (<[id := set_busy now row]> (avail (view o d))) (view o d))) as Hv2.
  { unfold o2, o1. by rewrite view_put_asg, view_put_avail. }
  rewrite Hv2 in Hv. pose proof (follows_Add d o3 ls3) as Ha. rewrite Hv in Ha. apply Ha.
Qed.

Lemma follows_end d p o ls (r : result terr (unit * rdb)) : follows d p o ls r (fun _ => Done) →
  alone d p o ls (match r with Ok (_, d') => Ok d' | Err e => Err e end).
Proof.
  destruct r as [[[] v]|e]; simpl; [|done]. intros (o' & ls' & <- & H). apply H. constructor.
Qed.

(** The idempotency record of the consumer, before the handler. *)
Lemma follows_process name env h (handler : event → tx unit) d :
  (∀ o ls, follows d h o ls (handler env (view o d)) (fun _ => Done)) →
  alone d (process_sql name env h) no_writes ∅
    (match process_body name env handler d with Ok (_, d') => Ok d' | Err e => Err e end).
Proof.
  intros Hh. apply follows_end.
  replace (process_body name env handler d) with (process_body name env handler (view no_writes d))
    by (by rewrite view_no_writes).
  unfold process_body, bind, Rides.read, modify. destruct (bool_decide _) eqn:Eb.
  - eapply follows_step; [simpl; rewrite locking_free; simpl in Eb; rewrite Eb; reflexivity|]. eexists _, _. by split.
  - eapply follows_step; [simpl; rewrite locking_free; simpl in Eb; rewrite Eb; reflexivity|].
    cbv beta iota. rewrite <- view_put_processed. apply Hh.
Qed.

(** Alone, the transaction of a ride request is [Rides.handleRideRequested] under
[Rides.process_body]. *)
Theorem alone_handleRideRequested name now id1 id2 env h d :
  handleRideRequested_sql now id1 id2 env = Some h →
  alone d (process_sql name env h) no_writes ∅
    (match process_body name env (handleRideRequested closer now ∅ id1 id2) d with
     | Ok (_, d') => Ok d' | Err e => Err e end).
Proof.
  unfold handleRideRequested_sql. intros Hh. apply follows_process. intros o ls. unfold handleRideRequested.
  destruct (Data env); try done. injection Hh as <-. unfold bind at 1, Rides.read at 1.
  destruct (pending (view o d) !! RideID) as [x|] eqn:Hp.
  - eapply follows_step; [simpl; rewrite locking_free; simpl in Hp; rewrite Hp; reflexivity|]. by exists o, ls.
  - eapply follows_step; [simpl; rewrite locking_free; simpl in Hp; rewrite Hp; reflexivity|]. cbn [negb].
    unfold bind at 1, modify. rewrite <- view_put_pending. set (o1 := put_pending _ _ o). set (ls1 := _ ∪ ls).
    unfold bind. match goal with |- follows _ (reserveDriver_sql _ _ _ _ _ _ _ ?k0) _ _ _ _ =>
      pose proof (follows_reserve d o1 ls1 now id1 id2 env RideID PickupLatitude PickupLongitude k0) as Hf end.
    destruct (reserveDriver _ _ _ _ _ _ _ _ _ _) as [[b v]|e]; [|exact Hf].
    destruct Hf as (o2 & ls2 & <- & Hf). destruct b; simpl; [by exists o2, ls2; split|].
    match goal with |- follows _ _ _ _ ?r _ => pose proof (follows_Add d o2 ls2 now RideDispatchDeferredTopic RideID
      (New id2 now "ride.dispatch.deferred" "dispatch-service" (CorrelationID env) (EventID env)
        (RideDispatchDeferred RideID "no driver currently available")) Done) as Ha; destruct r as [[u v]|e] end.
    + destruct Ha as (o3 & ls3 & <- & Ha). exists o3, ls3. split; [done|]. auto.
    + by apply Hf.
Qed.

(** And the transaction of a location is [Rides.handleDriverLocation]. *)
Theorem alone_handleDriverLocation name now id1 id2 env h d :
  handleDriverLocation_sql now id1 id2 env = Some h →
  alone d (process_sql name env h) no_writes ∅
    (match process_body name env (handleDriverLocation closer older now ∅ id1 id2) d with
     | Ok (_, d') => Ok d' | Err e => Err e end).
Proof.
  unfold handleDriverLocation_sql. intros Hh. apply follows_process. intros o ls. unfold handleDriverLocation.
  destruct (Data env); try done. injection Hh as <-.
  assert (∀ o ls, follows d (matchOldestPending_sql now id1 id2 env) o ls
    (matchOldestPending closer older now ∅ id1 id2 env (view o d)) (fun _ => Done)) as Hm.
  { clear o ls. intros o ls. unfold matchOldestPending. unfold bind at 1, Rides.read at 1.
    destruct (first_by older _) as [[ride row]|] eqn:Ef;
      (eapply follows_step; [simpl; rewrite locked_empty; simpl in Ef; rewrite Ef; reflexivity|]); cbv beta iota; [|by exists o, ls].
    apply follows_ret, (follows_reserve d o). }
  unfold bind at 1, Rides.read at 1. destruct (avail (view o d) !! DriverID) as [r|] eqn:Hr.
  - eapply follows_step; [simpl; simpl in Hr; rewrite Hr, locking_free; reflexivity|].
    unfold bind at 1, modify. rewrite <- view_put_avail. apply Hm.
  - eapply follows_step; [simpl; simpl in Hr; rewrite Hr; reflexivity|]. apply Hm.
Qed.

(** ** Theorem *)

(** C3: A driver is assigned to at most one ride and a ride to at most one driver, with any
number of dispatch transactions interleaving at their SQL statements, each committed or
rolled back at any point: two committed assignments that share the driver or the ride
are the same; an assigned driver is not available; and the driver for whom a
transaction has inserted an assignment that it has not committed yet is neither
committed to a ride nor in the assignment of another open transaction. *)
Theorem Assignments_exclusive (s : dsys) : dreachable s →
  (∀ i j a b, assignments (x_db s) !! i = Some a → assignments (x_db s) !! j = Some b →
     dv_ID (as_driver a) = dv_ID (as_driver b) ∨ as_ride a = as_ride b → i = j) ∧
  (∀ i a, assignments (x_db s) !! i = Some a →
     ∃ r, avail (x_db s) !! dv_ID (as_driver a) = Some r ∧ av_free r = false) ∧
  (∀ n t i a, x_txs s !! n = Some t → ov_asg (t_own t) !! i = Some a →
     (∀ j b, assignments (x_db s) !! j = Some b →
        dv_ID (as_driver b) ≠ dv_ID (as_driver a) ∧ as_ride b ≠ as_ride a) ∧
     ∀ m u j b, x_txs s !! m = Some u → ov_asg (t_own u) !! j = Some b →
        dv_ID (as_driver b) = dv_ID (as_driver a) ∨ as_ride b = as_ride a → n = m ∧ i = j).
Proof.
  intros [[E1 E2 E3] HO HD]%xinv_reachable. split_and!; [|done|].
  - intros i j a b Ha Hb [H|H]; eauto.
  - intros n t i a Hn Ha. destruct (HO n t Hn) as (r & _ & Ht & _).
    destruct (t_asg _ _ _ Ht i a Ha) as (_ & Hlr & (Hld & _ & r1 & Hr1 & Hf1) & _ & Hri). split.
    + intros j b Hb. split; [|by apply (Hri j)]. intros Heq. destruct (E1 j b Hb) as (r2 & Hr2 & Hf2).
      rewrite Heq in Hr2. congruence.
    + intros m u j b Hm Hb Hor. destruct (HO m u Hm) as (r' & _ & Hu & _).
      destruct (t_asg _ _ _ Hu j b Hb) as (_ & Hlr' & (Hld' & _) & _).
      assert (n = m) as <-.
      { destruct (decide (n = m)) as [|Hne]; [done|]. exfalso. pose proof (HD n m t u Hn Hm Hne) as Hdis.
        destruct Hor as [Heq|Heq]; rewrite Heq in *; set_solver. }
      rewrite Hn in Hm. injection Hm as <-. split; [done|]. apply (t_uniq _ _ _ Ht i j a b Ha Hb).
      destruct Hor as [Heq|Heq]; [left|right]; congruence.
Qed.
End dispatchers.

(** ** Two dispatchers, statement by statement *)

Module DispatchWitness.
Import Rides.RidesWitness.

Definition two_drivers : db (F := Z) :=
  mkDb ∅ ∅ ∅ {["d1" := mkAvail "Aarav" "1001" "bike" "" 1 1 true 0; "d2" := mkAvail "Priya" "1002" "auto" "" 5 5 true 0]}
    ∅ ∅ ∅ ∅ ∅.

Definition request (event ride : string) : Envelope (F := Z) :=
  New event 1 "ride.requested" "ride-api" "c" "" (RideRequested ride "Ann" 1 1 "MG Road").

(** The transaction of a ride request with its assignment and event identifiers. *)
Definition dispatch (event ride asg out : string) : prog (F := Z) :=
  match handleRideRequested_sql 2 asg out (request event ride) with
  | Some h => process_sql "dispatch-service.requested-v1" (request event ride) h
  | None => Done
  end.

(** Runs the next statement of a transaction, if it does not wait or fail. *)
Definition run_stmt (s : dsys (F := Z)) (n : nat) : dsys :=
  match x_txs s !! n with
  | Some t => match exec closer older (others n s) (x_db s) (t_prog t) (t_own t) (t_locks t) with
              | Next p o ls => mkD (x_db s) (<[n := mkTx p o ls]> (x_txs s))
              | _ => s
              end
  | None => s
  end.

Definition commit (s : dsys (F := Z)) (n : nat) : dsys :=
  match x_txs s !! n with
  | Some t => match t_prog t with Done => mkD (view (t_own t) (x_db s)) (delete n (x_txs s)) | _ => s end
  | None => s
  end.

Lemma run_stmt_rtc s n : rtc (dstep closer older) s (run_stmt s n).
Proof.
  unfold run_stmt. destruct (x_txs s !! n) as [t|] eqn:Hn; [|done]. destruct (exec _ _ _ _ _ _ _) eqn:Hx; [done..|].
  apply rtc_once. by eapply X_exec.
Qed.

Lemma commit_rtc s n : rtc (dstep closer older) s (commit s n).
Proof.
  unfold commit. destruct (x_txs s !! n) as [t|] eqn:Hn; [|done]. destruct (t_prog t) eqn:Hp; try done.
  apply rtc_once. by apply X_commit.
Qed.

Lemma run_stmts_rtc l s : rtc (dstep closer older) s (foldl run_stmt s l).
Proof. revert s. induction l as [|n l IH]; intros s; [done|]. simpl. etrans; [apply run_stmt_rtc|apply IH]. Qed.

(** Both begin, and take turns at each statement; the second one's SELECT skips the
driver that the first one holds, and both commit. *)
Definition begun : dsys (F := Z) :=
  mkD two_drivers {[0%nat := mkTx (dispatch "e1" "r1" "a1" "o1") no_writes ∅;
                    1%nat := mkTx (dispatch "e2" "r2" "a2" "o2") no_writes ∅]}.
Definition turns : dsys (F := Z) := foldl run_stmt begun [0; 1; 0; 1; 0; 1; 0; 1; 0; 1; 0; 1; 0; 1]%nat.
Definition both : dsys (F := Z) := commit (commit turns 1) 0.

Lemma begun_reachable : rtc (dstep closer older) (mkD two_drivers ∅) begun.
Proof.
  assert (∀ e r a o, starts (dispatch e r a o)) as Hst.
  { intros e r a o. exists 2, a, o, (request e r). eexists. left. split; [|reflexivity]. reflexivity. }
  set (s1 := mkD two_drivers {[1%nat := mkTx (dispatch "e2" "r2" "a2" "o2") no_writes ∅]}).
  apply (rtc_l _ _ s1); [exact (X_begin closer older (mkD two_drivers ∅) 1%nat _ eq_refl (Hst _ _ _ _))|].
  apply rtc_once. exact (X_begin closer older s1 0%nat _ eq_refl (Hst _ _ _ _)).
Qed.

Lemma both_reachable : dreachable closer older both.
Proof.
  exists two_drivers. split; [done|]. etrans; [apply begun_reachable|]. unfold both.
  etrans; [|apply commit_rtc]. etrans; [|apply commit_rtc]. apply run_stmts_rtc.
Qed.

(** The two committed assignments have different drivers and rides. *)
Lemma Assignments_exclusive_witness :
  dreachable closer older both ∧
  ∃ a b, assignments (x_db both) !! "a1" = Some a ∧ assignments (x_db both) !! "a2" = Some b ∧
    as_ride a = "r1" ∧ as_ride b = "r2" ∧ dv_ID (as_driver a) ≠ dv_ID (as_driver b).
Proof.
  split; [apply both_reachable|].
  destruct (assignments (x_db both) !! "a1") as [a|] eqn:Ha; [|vm_compute in Ha; discriminate].
  destruct (assignments (x_db both) !! "a2") as [b|] eqn:Hb; [|vm_compute in Hb; discriminate].
  exists a, b. split_and!; try reflexivity.
  - assert (Some (as_ride a) = Some "r1") as Hq; [|by injection Hq].
    transitivity (as_ride <$> assignments (x_db both) !! "a1"); [by rewrite Ha|vm_compute; reflexivity].
  - assert (Some (as_ride b) = Some "r2") as Hq; [|by injection Hq].
    transitivity (as_ride <$> assignments (x_db both) !! "a2"); [by rewrite Hb|vm_compute; reflexivity].
  - intros Heq. destruct (Assignments_exclusive closer older both both_reachable) as [H _].
    specialize (H "a1" "a2" a b Ha Hb (or_introl Heq)). discriminate H.
Defined.

(** The lock decides which driver the second dispatcher gets. *)
Example second_skips :
  (fun a => dv_ID (as_driver a)) <$> assignments (x_db both) = {["a1" := "d1"; "a2" := "d2"]}.
Proof. vm_compute. reflexivity. Qed.

End DispatchWitness.
