(* ===== verification/RailCache.v ===== *)
(** * railcache: the search cache, its circuit breaker, lock and validation

[cache/breaker.go] with its mutex-protected state, [cache/lock.go] over a
key-value store with expiry, and the read path of [search/service.go]: cache
look-up, stale-while-revalidate, cold fill under a distributed lock, waiting
losers, and the fallback to the source.  The store, the source, the clock and
the flight shared by waiting losers are the interface [World]: the read path is
a function on any world, so that its theorems hold whatever other clients do
between two of its calls.  The wire format of envelopes and the parser of dates
are arguments. *)

From Stdlib Require Import ZArith Lia Ascii.
From stdpp Require Import base gmap strings fin_maps fin_sets relations list.
From S2P Require Import Prelude GoStrings.

Open Scope Z_scope.

(* [base] railcache/internal *)

(** ** The circuit breaker *)

(** Errors of the cache: a miss, the open circuit, and the rest. *)
Inductive cerr : Type := ErrMiss | ErrBreakerOpen | ETransport.

(* [go] cache/breaker.go:24-35 Breaker *)
Record Breaker : Type := mkBreaker {
  br_threshold : Z; br_cooldown : Z;
  br_failures : Z; br_openUntil : option Z; br_halfOpen : bool }.

(* [go] cache/breaker.go:39-44 NewBreaker *)
Definition NewBreaker (threshold cooldown : Z) : Breaker := mkBreaker threshold cooldown 0 None false.

(** Whether a call may proceed, and whether it is the probe. *)
(* [go] cache/breaker.go:47-63 allow *)
Definition allow (now : Z) (b : Breaker) : bool * bool * Breaker :=
  match br_openUntil b with
  | None => (true, false, b)
  | Some u =>
      if now <? u then (false, false, b)
      else if br_halfOpen b then (false, false, b)
      else (true, true, mkBreaker (br_threshold b) (br_cooldown b) (br_failures b) (br_openUntil b) true)
  end.

(** The outcome of a call folded into the state, and the notification of the
observer, if any. *)
(* [go] cache/breaker.go:66-94 record *)
Definition record (now : Z) (err : option cerr) (probe : bool) (b : Breaker) : Breaker * option bool :=
  let success := match err with None | Some ErrMiss => true | _ => false end in
  if success then
    (mkBreaker (br_threshold b) (br_cooldown b) 0 None false,
     match br_openUntil b with Some _ => Some false | None => None end)
  else if probe then
    (mkBreaker (br_threshold b) (br_cooldown b) (br_failures b) (Some (now + br_cooldown b)) false, None)
  else
    let f := br_failures b + 1 in
    match br_openUntil b with
    | None => if br_threshold b <=? f
              then (mkBreaker (br_threshold b) (br_cooldown b) f (Some (now + br_cooldown b)) (br_halfOpen b), Some true)
              else (mkBreaker (br_threshold b) (br_cooldown b) f None (br_halfOpen b), None)
    | Some u => (mkBreaker (br_threshold b) (br_cooldown b) f (Some u) (br_halfOpen b), None)
    end.

(** A decorated operation: the inner call, or [ErrBreakerOpen] without one.  [start]
and [end_] are the times at which the call asks and reports. *)
(* [go] cache/breaker.go:96-104 GetWithTTL *)
Definition guarded {W A} (start end_ : Z) (inner : W → result cerr A * W) (b : Breaker) (w : W)
    : result cerr A * Breaker * W :=
  match allow start b with
  | (false, _, b') => (Err ErrBreakerOpen, b', w)
  | (true, probe, b') =>
      let '(r, w') := inner w in
      (r, (record end_ (match r with Ok _ => None | Err e => Some e end) probe b').1, w')
  end.

(** *** An outage

Every inner call fails.  Callers ask at any time, at most [k] of their calls are in
flight at once, and the calls report in any order: the breaker, the latest time, the
calls in flight (whether each is the probe), and how many reached the store. *)
Record ostate : Type := mkO { os_b : Breaker; os_now : Z; os_flying : list bool; os_reached : Z }.

Section outage.
Context (k : nat) (upto : Z).

Inductive ostep : ostate → ostate → Prop :=
| O_ask s t ok probe b' :
    os_now s ≤ t ≤ upto → (length (os_flying s) < k)%nat → allow t (os_b s) = (ok, probe, b') →
    ostep s (if ok then mkO b' t (probe :: os_flying s) (os_reached s + 1) else mkO b' t (os_flying s) (os_reached s))
| O_report s t i probe :
    os_now s ≤ t → os_flying s !! i = Some probe →
    ostep s (mkO (record t (Some ETransport) probe (os_b s)).1 t (delete i (os_flying s)) (os_reached s)).

Context (threshold cooldown from : Z).

Definition probes (l : list bool) : nat := length (filter (fun p : bool => p = true) l).

(** Closed, every call that reached the store is in flight or counted as a failure.
Open, [p] of them were probes, each a cooldown after the one before. *)
Record oinv (s : ostate) : Prop := {
  oi_now : from ≤ os_now s;
  oi_k : (length (os_flying s) ≤ k)%nat;
  oi_threshold : br_threshold (os_b s) = threshold;
  oi_cooldown : br_cooldown (os_b s) = cooldown;
  oi_probe : probes (os_flying s) = if br_halfOpen (os_b s) then 1%nat else 0%nat;
  oi_phase :
    match br_openUntil (os_b s) with
    | None => br_halfOpen (os_b s) = false ∧ 0 ≤ br_failures (os_b s) < threshold ∧
        os_reached s = br_failures (os_b s) + Z.of_nat (length (os_flying s))
    | Some u => ∃ p, 0 ≤ p ∧ os_reached s ≤ threshold + Z.of_nat k - 1 + p ∧ from + p * cooldown ≤ upto ∧
        if br_halfOpen (os_b s) then from + p * cooldown ≤ os_now s else from + (p + 1) * cooldown ≤ u
    end }.

Lemma probes_delete (l : list bool) i (x : bool) : l !! i = Some x →
  probes l = ((if x then 1 else 0) + probes (delete i l))%nat.
Proof.
  intros Hi. rewrite <- (take_drop_middle l i x Hi) at 1. rewrite delete_take_drop. unfold probes.
  rewrite !filter_app, !length_app, filter_cons. destruct x; [rewrite decide_True by done|rewrite decide_False by done]; simpl; lia.
Qed.

Lemma ask_oinv s t ok probe b' : 0 < cooldown → oinv s → os_now s ≤ t ≤ upto → (length (os_flying s) < k)%nat →
  allow t (os_b s) = (ok, probe, b') →
  oinv (if ok then mkO b' t (probe :: os_flying s) (os_reached s + 1) else mkO b' t (os_flying s) (os_reached s)).
Proof.
  intros Hc [Hn Hk Ht Hco Hp Hph] Ht' Hfl. unfold allow. destruct (br_openUntil (os_b s)) as [u|] eqn:Eu.
  - assert (oinv (mkO (os_b s) t (os_flying s) (os_reached s))) as Hrefused.
    { split; simpl; try done; [lia|]. rewrite Eu. destruct Hph as (p & H0 & H1 & H2 & H3). exists p.
      split_and!; try done. destruct (br_halfOpen (os_b s)); lia. }
    destruct (t <? u) eqn:El; [by intros [= <- <- <-]|].
    destruct (br_halfOpen (os_b s)) eqn:Eh; [by intros [= <- <- <-]|]. intros [= <- <- <-]. zbool.
    destruct Hph as (p & H0 & H1 & H2 & H3). split; simpl; try done; try lia.
    + unfold probes in *. rewrite filter_cons_True by done. simpl. by rewrite Hp.
    + exists (p + 1). lia.
  - intros [= <- <- <-]. destruct Hph as (Hh & Hf & Hr). split; simpl; try done; try lia.
    rewrite Eu. split_and!; [done|lia..].
Qed.

Lemma report_oinv s t i probe : 0 < threshold → 0 < cooldown → from ≤ upto → oinv s → os_now s ≤ t →
  os_flying s !! i = Some probe →
  oinv (mkO (record t (Some ETransport) probe (os_b s)).1 t (delete i (os_flying s)) (os_reached s)).
Proof.
  intros Hth Hc Hle [Hn Hk Ht Hco Hp Hph] Hnow Hi. pose proof (probes_delete _ _ _ Hi) as Hd. rewrite Hp in Hd.
  pose proof (lookup_lt_Some _ _ _ Hi) as Hlt. pose proof (length_delete (os_flying s) i ltac:(by eexists)) as Hlen.
  unfold record. destruct probe; simpl.
  - destruct (br_halfOpen (os_b s)) eqn:Eh; [|lia].
    destruct (br_openUntil (os_b s)) as [u|] eqn:Eu; [|by destruct Hph].
    destruct Hph as (p & H0 & H1 & H2 & H3). split; simpl; try done; try lia. exists p. rewrite Hco. lia.
  - destruct (br_openUntil (os_b s)) as [u|] eqn:Eu.
    + destruct Hph as (p & H0 & H1 & H2 & H3). split; simpl; try done; try lia.
      exists p. split_and!; try done. destruct (br_halfOpen (os_b s)); lia.
    + destruct Hph as (Hh & Hf & Hr). rewrite Hh, Ht in *. destruct (threshold <=? br_failures (os_b s) + 1) eqn:El; zbool.
      * split; simpl; try done; try lia. exists 0. rewrite Hco. lia.
      * split; simpl; try done; try lia.
Qed.
End outage.

Definition o_start (threshold cooldown from : Z) : ostate := mkO (NewBreaker threshold cooldown) from [] 0.

(** C25: During an outage, in which every call that reaches the store fails, callers
ask at any time between [from] and [upto], with at most [k] calls in flight at once
that report in any order.  Then at most [threshold + k - 1] calls reach the store,
plus one per cooldown of the time; the others fail at once.  One caller at a time
([k = 1]) costs the threshold and one probe per cooldown. *)
Theorem Breaker_outage_bound k threshold cooldown from upto s :
  0 < threshold → 0 < cooldown → from ≤ upto →
  rtc (ostep k upto) (o_start threshold cooldown from) s →
  os_reached s ≤ threshold + Z.of_nat k - 1 + (upto - from) / cooldown.
Proof.
  intros Ht Hc Hle Hr. assert (oinv k upto threshold cooldown from s) as [_ Hk _ _ _ Hph].
  { eapply rtc_invariant; [|exact Hr|].
    - intros x y Hx Hs. destruct Hs as [s0 t ok probe b' Hnow Hfl Ha|s0 t i probe Hnow Hi].
      + by apply (ask_oinv k upto threshold cooldown from s0 t ok probe b').
      + by apply (report_oinv k upto threshold cooldown from s0 t i probe).
    - split; simpl; try done; lia. }
  assert (0 ≤ (upto - from) / cooldown) by (apply Z.div_pos; lia).
  destruct (br_openUntil (os_b s)) as [u|]; [|lia]. destruct Hph as (p & H0 & H1 & H2 & _).
  assert (p ≤ (upto - from) / cooldown) by (apply Z.div_le_lower_bound; lia). lia.
Qed.

(** Three callers are let in before the first failure is known; the threshold of two
opens the circuit, a call during the cooldown is refused, and the probe after it is the
fourth to reach the store. *)
Definition o_end : ostate := mkO (mkBreaker 2 5 3 (Some 7) true) 8 [true] 4.

Lemma o_end_reach : rtc (ostep 3 8) (o_start 2 5 0) o_end.
Proof.
  eapply rtc_l; [by apply (O_ask 3 8 _ 0); [simpl; lia|simpl; lia|reflexivity]|].
  eapply rtc_l; [by apply (O_ask 3 8 _ 0); [simpl; lia|simpl; lia|reflexivity]|].
  eapply rtc_l; [by apply (O_ask 3 8 _ 1); [simpl; lia|simpl; lia|reflexivity]|].
  eapply rtc_l; [by apply (O_report 3 8 _ 2 0 false); [simpl; lia|reflexivity]|].
  eapply rtc_l; [by apply (O_report 3 8 _ 2 0 false); [simpl; lia|reflexivity]|].
  eapply rtc_l; [by apply (O_report 3 8 _ 3 0 false); [simpl; lia|reflexivity]|].
  eapply rtc_l; [by apply (O_ask 3 8 _ 4); [simpl; lia|simpl; lia|reflexivity]|].
  eapply rtc_l; [by apply (O_ask 3 8 _ 8); [simpl; lia|simpl; lia|reflexivity]|]. apply rtc_refl.
Qed.

Lemma Breaker_outage_bound_witness : os_reached o_end = 4 ∧ os_reached o_end ≤ 2 + 3 - 1 + (8 - 0) / 5.
Proof. split; [reflexivity|]. apply (Breaker_outage_bound 3 2 5 0 8 o_end); [lia..|exact o_end_reach]. Defined.

(** A success or a miss closes the circuit; while a probe is out no other call is
admitted; a failing probe keeps the circuit open for another cooldown. *)
Theorem Breaker_probe now b b' u :
  br_openUntil b = Some u → allow now b = (true, true, b') →
  (∀ later, (allow later b').1.1 = false) ∧
  (∀ t later, later < t + br_cooldown b → (allow later (record t (Some ETransport) true b').1).1.1 = false) ∧
  (∀ t later, (allow later (record t (Some ErrMiss) true b').1).1 = (true, false)).
Proof.
  intros Hu H. unfold allow in H. rewrite Hu in H. destruct (now <? u); [done|].
  destruct (br_halfOpen b); [done|]. injection H as <-. split_and!.
  - intros later. unfold allow. simpl. by destruct (later <? u).
  - intros t later Hl. unfold allow, record. simpl. by rewrite (proj2 (Z.ltb_lt _ _)).
  - intros t later. done.
Qed.

Lemma Breaker_probe_witness :
  ∀ later, (allow later (mkBreaker 2 5 2 (Some 10) true)).1.1 = false.
Proof. apply (Breaker_probe 12 (mkBreaker 2 5 2 (Some 10) false) _ 10); reflexivity. Defined.

(** ** The distributed lock *)

(** A key-value store with expiry: what a read at a time sees. *)
Class KV (R : Type) : Type := {
  kv_get : Z → string → R → option string;
  kv_setex : Z → string → string → Z → R → R;
  kv_setnx : Z → string → string → Z → R → bool * R;
  kv_del : string → R → R;
}.

(** The expiry that [Set] and [SetNX] of go-redis send for a duration, in milliseconds:
none unless it is positive; whole seconds as such, anything else in milliseconds,
rounded down but to no less than one. *)
Definition redis_expiry (ttl : Z) : option Z :=
  if ttl <=? 0 then None else Some (Z.max 1 (ttl / 1000000)).

(** A value set at [t] with that expiry is seen at [t'].  Redis counts in milliseconds, and
a key lapses when its clock is past the expiry. *)
Definition lives (t ttl t' : Z) : bool :=
  match redis_expiry ttl with
  | None => true
  | Some ms => t' / 1000000 <=? t / 1000000 + ms
  end.

(** A duration of -1 is [redis.KeepTTL], which keeps the expiry of the old value; a lock
with another negative duration is refused by Redis.  Neither is described. *)
Class KVLaws (R : Type) `{KV R} : Prop := {
  get_setex t k v ttl r t' k' : ttl ≠ -1 →
    kv_get t' k' (kv_setex t k v ttl r) =
    if decide (k = k') then (if lives t ttl t' then Some v else None) else kv_get t' k' r;
  setnx_def t k v ttl r : 0 ≤ ttl →
    kv_setnx t k v ttl r = match kv_get t k r with
                           | Some _ => (false, r)
                           | None => (true, kv_setex t k v ttl r)
                           end;
  get_del t k k' r : kv_get t k' (kv_del k r) = if decide (k = k') then None else kv_get t k' r;
}.

Lemma lives_at_once t ttl : lives t ttl t = true.
Proof. unfold lives, redis_expiry. case_test; [done|]. apply Z.leb_le. lia. Qed.

(** For whole milliseconds, a value is seen throughout its duration. *)
Lemma lives_throughout t ttl t' : (1000000 | ttl) → t' < t + ttl → lives t ttl t' = true.
Proof.
  intros [n ->] Hlt. unfold lives, redis_expiry. case_test; [done|]. zbool. apply Z.leb_le.
  rewrite Z.div_mul by lia. assert (t' / 1000000 ≤ (t + n * 1000000) / 1000000) as H by (apply Z.div_le_mono; lia).
  rewrite Z.div_add in H by lia. lia.
Qed.

(* [go] cache/lock.go:24-28 Lock *)
Record Lock : Type := mkLock { lk_key : string; lk_token : string }.

Section lock.
Context {R : Type} `{KVLaws R}.

(** The token is drawn by [newToken]. *)
(* [go] cache/lock.go:38-51 Acquire *)
Definition Acquire (now : Z) (key token : string) (ttl : Z) (r : R) : option Lock * R :=
  match kv_setnx now key token ttl r with
  | (true, r') => (Some (mkLock key token), r')
  | (false, r') => (None, r')
  end.

(** The script deletes the key only for the token it holds. *)
(* [go] cache/lock.go:54-59 Release *)
Definition Release (now : Z) (l : Lock) (r : R) : R :=
  if bool_decide (kv_get now (lk_key l) r = Some (lk_token l)) then kv_del (lk_key l) r else r.

(** What the clients of a lock do, each at its time; a release names the lease. *)
Inductive lock_op : Type := OAcquire (now : Z) (token : string) (ttl : Z) | ORelease (now : Z) (token : string).
Definition lop_time (o : lock_op) : Z := match o with OAcquire now _ _ | ORelease now _ => now end.
Definition lop_ok (o : lock_op) : Prop := match o with OAcquire _ _ ttl => 0 ≤ ttl | ORelease _ _ => True end.

(** Runs the operations on one key; the tokens that acquired the lock. *)
Fixpoint lock_run (key : string) (ops : list lock_op) (r : R) : list string * R :=
  match ops with
  | [] => ([], r)
  | OAcquire now token ttl :: ops =>
      match Acquire now key token ttl r with
      | (Some _, r') => let '(won, r'') := lock_run key ops r' in (token :: won, r'')
      | (None, r') => lock_run key ops r'
      end
  | ORelease now token :: ops => lock_run key ops (Release now (mkLock key token) r)
  end.

Lemma Acquire_holds now key token ttl r r' : 0 ≤ ttl →
  Acquire now key token ttl r = (Some (mkLock key token), r') →
  ∀ t, lives now ttl t = true → kv_get t key r' = Some token.
Proof.
  intros Httl Ha t Hl. unfold Acquire in Ha. rewrite setnx_def in Ha by done. destruct (kv_get now key r); [done|].
  injection Ha as <-. by rewrite get_setex, decide_True, Hl by (done || lia).
Qed.

(** A holder that has not released keeps everyone else out while its key lives: among
operations within that time, whoever releases with another token changes nothing,
and no acquisition succeeds. *)
Theorem Lock_excludes now key token ttl r r' ops :
  0 ≤ ttl → Acquire now key token ttl r = (Some (mkLock key token), r') →
  Forall (fun o => lives now ttl (lop_time o) = true) ops → Forall lop_ok ops →
  Forall (fun o => match o with ORelease _ t => t ≠ token | _ => True end) ops →
  lock_run key ops r' = ([], r').
Proof.
  intros Httl Ha Ht Hok Hr. pose proof (Acquire_holds _ _ _ _ _ _ Httl Ha) as Hheld.
  clear Ha. induction ops as [|[t tok tl|t tok] ops IH]; [done|..];
    apply Forall_cons in Ht as [Ht Hts]; apply Forall_cons in Hr as [Hr Hrs]; apply Forall_cons in Hok as [Hok Hoks]; simpl in *.
  - unfold Acquire. rewrite setnx_def, Hheld by done. auto.
  - unfold Release. simpl. rewrite Hheld by done. rewrite bool_decide_eq_false_2 by congruence. auto.
Qed.

(** The holder's own release frees the lock. *)
Theorem Release_frees now key token ttl r r' t token' ttl' :
  0 ≤ ttl → 0 ≤ ttl' → Acquire now key token ttl r = (Some (mkLock key token), r') → lives now ttl t = true →
  (Acquire t key token' ttl' (Release t (mkLock key token) r')).1 = Some (mkLock key token').
Proof.
  intros Httl Httl' Ha Hl. unfold Release. simpl. rewrite (Acquire_holds _ _ _ _ _ _ Httl Ha t Hl).
  rewrite bool_decide_eq_true_2 by done. unfold Acquire. by rewrite setnx_def, get_del, decide_True.
Qed.
End lock.

(** A store of values with the time and duration of their writes. *)
Notation emap := (gmap string (string * Z * Z)).

Definition emap_get (now : Z) (k : string) (r : emap) : option string :=
  match r !! k with Some (v, t, ttl) => if lives t ttl now then Some v else None | None => None end.

#[global] Instance emap_kv : KV emap := {
  kv_get := emap_get;
  kv_setex t k v ttl r := <[k := (v, t, ttl)]> r;
  kv_setnx t k v ttl r := match emap_get t k r with Some _ => (false, r) | None => (true, <[k := (v, t, ttl)]> r) end;
  kv_del k r := delete k r;
}.

#[global] Instance emap_laws : KVLaws emap.
Proof.
  split; intros; simpl; unfold emap_get.
  - rewrite lookup_insert. by case_decide.
  - done.
  - rewrite lookup_delete. by case_decide.
Qed.

(** Five milliseconds after the lock was taken for ten. *)
Lemma Lock_excludes_witness :
  lock_run (R := emap) "k" [ORelease 3000000 "b"; OAcquire 5000000 "b" 9] {["k" := ("a", 0, 10000000)]} =
  ([], {["k" := ("a", 0, 10000000)]}).
Proof.
  apply (Lock_excludes 0 "k" "a" 10000000 (∅ : emap)); [done|reflexivity| | |].
  - repeat constructor.
  - repeat constructor; simpl; lia.
  - repeat constructor. discriminate.
Defined.

(** ** Queries and keys *)

(* [go] search/types.go:8-13 Query *)
Record Query : Type := mkQuery { q_From : string; q_To : string; q_Date : string; q_Class : string }.

(** [strings.ToUpper] on ASCII. *)
Definition upper (a : ascii) : ascii :=
  let n := nat_of_ascii a in if Nat.leb 97 n && Nat.leb n 122 then ascii_of_nat (n - 32) else a.

Fixpoint ToUpper (s : string) : string :=
  match s with EmptyString => "" | String a s' => String (upper a) (ToUpper s') end.

(* [go] search/key.go:14-22 CacheKey *)
Definition CacheKey (q : Query) : string :=
  join ":"%char ["avail"; "v1"; ToUpper (q_From q); ToUpper (q_To q); q_Date q; ToUpper (q_Class q)].

(* [go] search/key.go:25-25 LockKey *)
Definition LockKey (cacheKey : string) : string := "lock:" +:+ cacheKey.

(* [go] search/key.go:28-34 Normalize *)
Definition Normalize (q : Query) : Query :=
  mkQuery (ToUpper (TrimSpace (q_From q))) (ToUpper (TrimSpace (q_To q)))
          (TrimSpace (q_Date q)) (ToUpper (TrimSpace (q_Class q))).

Lemma upper_idem a : upper (upper a) = upper a.
Proof. by destruct a as [[] [] [] [] [] [] [] []]. Qed.

Lemma upper_space a : is_space (upper a) = is_space a.
Proof. by destruct a as [[] [] [] [] [] [] [] []]. Qed.

Lemma ToUpper_idem s : ToUpper (ToUpper s) = ToUpper s.
Proof. induction s as [|a s IH]; simpl; [done|]. by rewrite upper_idem, IH. Qed.

Lemma trim_left_upper s : trim_left (ToUpper s) = ToUpper (trim_left s).
Proof. induction s as [|a s IH]; simpl; [done|]. rewrite upper_space. by destruct (is_space a). Qed.

Lemma trim_right_upper s : trim_right (ToUpper s) = ToUpper (trim_right s).
Proof.
  induction s as [|a s IH]; simpl; [done|]. rewrite IH, upper_space.
  destruct (trim_right s); simpl; [by destruct (is_space a) | done].
Qed.

Lemma TrimSpace_upper s : TrimSpace (ToUpper s) = ToUpper (TrimSpace s).
Proof. unfold TrimSpace. by rewrite trim_left_upper, trim_right_upper. Qed.

(** [Normalize] is idempotent. *)
Lemma Normalize_idem q : Normalize (Normalize q) = Normalize q.
Proof.
  unfold Normalize. simpl. rewrite !TrimSpace_upper, !ToUpper_idem, !TrimSpace_idem. done.
Qed.

Definition colon_free (q : Query) : Prop :=
  lacks ":"%char (q_From q) ∧ lacks ":"%char (q_To q) ∧ lacks ":"%char (q_Date q) ∧ lacks ":"%char (q_Class q).

Lemma CacheKey_parts p : colon_free (Normalize p) →
  split ":"%char (CacheKey (Normalize p)) =
  ["avail"; "v1"; q_From (Normalize p); q_To (Normalize p); q_Date (Normalize p); q_Class (Normalize p)].
Proof.
  intros (F & T & D & C). unfold CacheKey. simpl q_From. simpl q_To. simpl q_Class. rewrite !ToUpper_idem.
  apply split_join; [done|]. simpl in *. repeat (constructor; [done|]). constructor.
Qed.

Lemma CacheKey_same q q' :
  colon_free (Normalize q) → colon_free (Normalize q') →
  CacheKey (Normalize q) = CacheKey (Normalize q') → Normalize q = Normalize q'.
Proof.
  intros Hq Hq' H%(f_equal (split ":"%char)). rewrite !CacheKey_parts in H by done.
  destruct (Normalize q), (Normalize q'). simpl in *. congruence.
Qed.
