(* ===== verification/RailSearch.v ===== *)
(** * railcache: the read path of the search cache

[search/service.go] with [policy.go], [types.go], the counters of
[metrics/metrics.go] and the validation in front of it ([validate.go],
[stations.go]): cache look-up, stale-while-revalidate behind a per-key gate, cold
fill under a distributed lock, waiting losers, the flight they share and the
fallback to the source.

The store, the source, the clock, the random draws and the flights of
[singleflight] form the interface [World]; an operation of the service is a
computation over any world ([M]).  The theorems on errors, on the number of
queries and on the counters therefore hold whatever the store answers and
whatever other clients do between two calls.  The codec of envelopes
([encoding/json]) is an argument; the jitter of a time to live is computed in
float64, as the code does. *)

From Stdlib Require Import ZArith Lia Ascii SpecFloat.
From stdpp Require Import base gmap strings fin_maps fin_sets relations list.
From S2P Require Import Prelude GoStrings GoTime GoFloat RailCache.

Open Scope Z_scope.
Open Scope list_scope.

(* [base] railcache/internal *)

(** ** Dates *)

Definition two_digits (a b : ascii) : option Z :=
  match digit_value a, digit_value b with Some x, Some y => Some (10 * x + y) | _, _ => None end.

Definition is_leap (y : Z) : bool := (y mod 4 =? 0) && (negb (y mod 100 =? 0) || (y mod 400 =? 0)).

Definition days_in (m y : Z) : Z :=
  if m =? 2 then (if is_leap y then 29 else 28)
  else if (m =? 4) || (m =? 6) || (m =? 9) || (m =? 11) then 30 else 31.

(** Days before the first of month [m] in year [y]. *)
Definition days_before (m y : Z) : Z :=
  zsum (fun k => days_in (Z.of_nat k) y) (seq 1 (Z.to_nat (m - 1))).

(** Days since 1970-01-01 of a date of the proleptic Gregorian calendar. *)
Definition epoch_day (y m d : Z) : Z :=
  let y' := y - 1 in
  365 * y' + y' / 4 - y' / 100 + y' / 400 + days_before m y + (d - 1) - 719162.

(** [time.Parse] with the layout 2006-01-02: four, two and two digits, a month of
the year and a day of the month; the result in days since the epoch. *)
(* [go] search/validate.go:16-17 dateLayout *)
Definition parse_date (s : string) : option Z :=
  match s with
  | String y1 (String y2 (String y3 (String y4 (String s1 (String m1 (String m2 (String s2
      (String d1 (String d2 EmptyString))))))))) =>
      match two_digits y1 y2, two_digits y3 y4, two_digits m1 m2, two_digits d1 d2 with
      | Some c, Some e, Some m, Some d =>
          let y := 100 * c + e in
          if Ascii.eqb s1 "-" && Ascii.eqb s2 "-" && (1 <=? m) && (m <=? 12) && (1 <=? d) && (d <=? days_in m y) then Some (epoch_day y m d) else None
      | _, _, _, _ => None
      end
  | _ => None
  end.

(** Nanoseconds of a day; [Truncate(24 * time.Hour)] of a UTC time, in days. *)
Definition day_ns : Z := 86400 * 10 ^ 9.
Definition utc_day (t : Z) : Z := t / day_ns.

(** [Sub] saturates at the largest and the smallest duration, which are 106751
whole days. *)
(* [go] search/policy.go:26-33 daysAhead *)
Definition daysAhead (now : Z) (date : string) : Z :=
  match parse_date date with
  | None => -1
  | Some day => Z.max (-106751) (Z.min 106751 (day - utc_day now))
  end.

(** ** Results and parameters *)

(* [go] search/types.go:19-28 Train *)
Record Train : Type := mkTrain {
  tr_Number : string; tr_Name : string; tr_DepFrom : string; tr_ArrTo : string; tr_Class : string;
  tr_Available : Z; tr_Total : Z; tr_HasClass : bool }.

(* [go] search/types.go:31-34 SearchResult *)
Record SearchResult : Type := mkResult { sr_Query : Query; sr_Trains : list Train }.

(* [go] search/types.go:42-47 CacheEnvelope *)
Record CacheEnvelope : Type := mkEnvelope {
  ce_Result : SearchResult; ce_Empty : bool; ce_CachedAt : Z; ce_FreshUntil : Z }.

(* [go] search/types.go:49-50 stale *)
Definition stale (e : CacheEnvelope) (t : Z) : bool := negb (t <? ce_FreshUntil e).

(* [go] search/types.go:53-60 CacheStatus *)
Inductive CacheStatus : Type := StatusHit | StatusStale | StatusMiss | StatusFallback.

(* [go] search/types.go:63-70 Outcome *)
Record Outcome : Type := mkOutcome {
  oc_Result : SearchResult; oc_Status : CacheStatus; oc_DBHit : bool; oc_DBTook : Z;
  oc_Suppressed : bool; oc_AsOf : Z }.

(* [go] search/service.go:24-34 Params *)
Record Params : Type := mkParams {
  p_TTL : Z; p_TatkalTTL : Z; p_Jitter : float64; p_NegativeTTL : Z;
  p_PhysicalMultiplier : Z; p_LockTTL : Z; p_WaitTries : nat; p_WaitEvery : Z; p_FillTimeout : Z }.

(* [go] search/policy.go:11-22 freshnessFor *)
Definition freshnessFor (p : Params) (now : Z) (q : Query) : Z :=
  let d := daysAhead now (q_Date q) in
  if d <? 0 then p_TTL p
  else if d <=? 1 then p_TatkalTTL p
  else if d <=? 7 then Z.quot (p_TTL p) 2
  else p_TTL p.

(** The conversion of a float64 to [time.Duration]: towards zero; NaN and what does not
fit 64 bits give the smallest integer, as on amd64. *)
Definition to_duration (f : float64) : Z :=
  match f with
  | S754_zero _ => 0
  | S754_finite s m e =>
      let a := Z.shiftl (Zpos m) e in
      let z := if s then - a else a in
      if (min_i64 <=? z) && (z <=? max_i64) then z else min_i64
  | _ => min_i64
  end.

(** [rand.Float64()] is [r / 2 ^ 53] with [0 <= r < 2 ^ 53]. *)
(* [go] search/key.go:38-46 jitterTTL *)
Definition jitterTTL (base : Z) (fraction : float64) (r : Z) : Z :=
  if fle fraction f0 then base
  else
    let delta := float64_mul (to_float64 base) fraction in
    let random := float64_div (to_float64 r) (to_float64 (2 ^ 53)) in
    let off := float64_mul (SFsub 53 1024 (float64_mul random (to_float64 2)) f1) delta in
    to_duration (SFadd 53 1024 (to_float64 base) off).

(** ** Counters *)

(* [go] metrics/metrics.go:24-32 Metrics *)
Record Metrics : Type := mkMetrics {
  m_Hits : Z; m_Stale : Z; m_Misses : Z; m_HerdSuppressed : Z; m_Fallbacks : Z;
  m_DBFills : Z; m_Refreshes : Z; m_Errors : Z }.

Inductive counter : Type := CHits | CStale | CMisses | CSuppressed | CFallbacks | CDBFills | CRefreshes | CErrors.

(** [Add(1)] on one of the counters, an [atomic.Int64]. *)
Definition add1 (c : counter) (m : Metrics) : Metrics :=
  let i x := i64 (x + 1) in
  match c, m with
  | CHits, mkMetrics h s mi su f d r e => mkMetrics (i h) s mi su f d r e
  | CStale, mkMetrics h s mi su f d r e => mkMetrics h (i s) mi su f d r e
  | CMisses, mkMetrics h s mi su f d r e => mkMetrics h s (i mi) su f d r e
  | CSuppressed, mkMetrics h s mi su f d r e => mkMetrics h s mi (i su) f d r e
  | CFallbacks, mkMetrics h s mi su f d r e => mkMetrics h s mi su (i f) d r e
  | CDBFills, mkMetrics h s mi su f d r e => mkMetrics h s mi su f (i d) r e
  | CRefreshes, mkMetrics h s mi su f d r e => mkMetrics h s mi su f d (i r) e
  | CErrors, mkMetrics h s mi su f d r e => mkMetrics h s mi su f d r (i e)
  end.

(** The derived fields of a snapshot. *)
(* [go] metrics/metrics.go:78-92 Snapshot *)
Definition Served (m : Metrics) : Z :=
  i64 (m_Hits m + m_Stale m + m_Misses m + m_HerdSuppressed m + m_Fallbacks m).

(** ** The world of a request *)

(** The context of a call: the request's own, or one detached from it. *)
Inductive Ctx : Type := CRequest | CDetached.

(* [go] search/service.go:154-159 fillOutput *)
Record fillOutput : Type := mkOutput { fo_res : SearchResult; fo_took : Z; fo_asOf : Z }.

(** The calls the service makes: the store ([cache.Store]), the source, the clock,
[rand], waiting (true when the context ends first), and a flight of
[singleflight]: joining one in progress, and landing one's own, which tells
whether its result was shared. *)
Class World (E L W : Type) : Type := {
  w_get : Ctx → string → W → result cerr string * W;
  w_setex : Ctx → string → string → Z → W → option cerr * W;
  w_del : Ctx → string → W → option cerr * W;
  w_acquire : Ctx → string → Z → W → result cerr (option L) * W;
  w_release : L → W → W;
  w_search : Ctx → Query → W → result E SearchResult * W;
  w_now : W → Z * W;
  w_rand : W → Z * W;
  w_wait : Z → W → bool * W;
  w_join : string → W → option (result E fillOutput) * W;
  w_land : string → result E fillOutput → W → bool * W;
}.

(** The errors of a search, with the error they wrap. *)
Inductive serr (E : Type) : Type := EFill (e : E) | EBudget (e : E) | EFallback (e : E) | EWait.
Arguments EFill {E}. Arguments EBudget {E}. Arguments EFallback {E}. Arguments EWait {E}.

(** The service's own state: its counters, the keys being refreshed, and the
refreshes that were started and have not finished. *)
(* [go] search/service.go:40-56 Service *)
Record Service : Type := mkService {
  s_m : Metrics; s_refreshing : gset string; s_running : list (string * Query) }.

Definition M (W A : Type) : Type := Service → W → A * Service * W.

#[global] Instance M_ret W : MRet (M W) := fun A a s w => (a, s, w).
#[global] Instance M_bind W : MBind (M W) := fun A B k m s w => let '(a, s', w') := m s w in k a s' w'.

Definition call {W A} (f : W → A * W) : M W A := fun s w => let '(a, w') := f w in (a, s, w').
Definition count {W} (c : counter) : M W unit :=
  fun s w => (tt, mkService (add1 c (s_m s)) (s_refreshing s) (s_running s), w).

Section service.
Context {E L W : Type} `{World E L W} (p : Params).
Context (encode : CacheEnvelope → option string) (decode : string → option CacheEnvelope).

(* [go] search/service.go:247-251 queryDB *)
Definition queryDB (ctx : Ctx) (q : Query) : M W (result E SearchResult * Z) :=
  start ← call w_now; res ← call (w_search ctx q); end_ ← call w_now; mret (res, end_ - start).

(* [go] search/service.go:258-264 store *)
Definition freshness (res : SearchResult) : M W Z :=
  base ← match sr_Trains res with
         | [] => mret (p_NegativeTTL p)
         | _ => today ← call w_now; mret (freshnessFor p today (sr_Query res))
         end;
  if fle (p_Jitter p) f0 then mret base
  else r ← call w_rand; mret (jitterTTL base (p_Jitter p) r).

(* [go] search/service.go:256-276 store *)
Definition store (ctx : Ctx) (key : string) (res : SearchResult) : M W unit :=
  now ← call w_now;
  logical ← freshness res;
  let env := mkEnvelope res (bool_decide (sr_Trains res = [])) now (now + logical) in
  match encode env with
  | None => count CErrors
  | Some blob =>
      err ← call (w_setex ctx key blob (i64 (logical * p_PhysicalMultiplier p)));
      match err with Some _ => count CErrors | None => mret tt end
  end.

(* [go] search/service.go:225-237 fillAndStore *)
Definition fillAndStore (q : Query) (key : string) : M W (result E fillOutput) :=
  '(res, took) ← queryDB CDetached q;
  match res with
  | Err e => mret (Err e)
  | Ok res =>
      asOf ← call w_now;
      _ ← store CDetached key res;
      _ ← count CDBFills;
      mret (Ok (mkOutput res took asOf))
  end.

(* [go] search/service.go:239-245 releaseLock *)
Definition releaseLock (l : L) : M W unit := call (fun w => (tt, w_release l w)).

(* [go] search/service.go:161-170 fallback *)
Definition fallback (q : Query) : M W (result (serr E) Outcome) :=
  '(res, took) ← queryDB CRequest q;
  match res with
  | Err e => _ ← count CErrors; mret (Err (EFallback e))
  | Ok res =>
      _ ← count CFallbacks;
      now ← call w_now;
      mret (Ok (mkOutcome res StatusFallback true took false now))
  end.

(** The loser's re-reads; [None] when the budget is exhausted. *)
(* [go] search/service.go:115-131 fill *)
Fixpoint wait_for_fill (n : nat) (q : Query) (key : string) : M W (option (result (serr E) Outcome)) :=
  match n with
  | O => mret None
  | S n =>
      done ← call (w_wait (p_WaitEvery p));
      if (done : bool) then mret (Some (Err EWait))
      else
        val ← call (w_get CRequest key);
        match val with
        | Ok v =>
            match decode v with
            | Some env =>
                _ ← count CSuppressed;
                mret (Some (Ok (mkOutcome (ce_Result env) StatusHit false 0 true (ce_CachedAt env))))
            | None => wait_for_fill n q key
            end
        | Err ErrMiss => wait_for_fill n q key
        | Err _ => r ← fallback q; mret (Some r)
        end
  end.

(** [fillSF.Do]: join the flight for the key, or run it. *)
(* [go] search/service.go:135-141 fill *)
Definition flight (q : Query) (key : string) : M W (result E fillOutput * bool) :=
  joined ← call (w_join key);
  match joined with
  | Some v => mret (v, true)
  | None =>
      v ← fillAndStore q key;
      shared ← call (w_land key v);
      mret (v, shared)
  end.

(* [go] search/service.go:133-152 fill *)
Definition collapse (q : Query) (key : string) : M W (result (serr E) Outcome) :=
  '(v, shared) ← flight q key;
  match v with
  | Err e => _ ← count CErrors; mret (Err (EBudget e))
  | Ok out =>
      if (shared : bool) then
        _ ← count CSuppressed;
        mret (Ok (mkOutcome (fo_res out) StatusHit false 0 true (fo_asOf out)))
      else
        _ ← count CMisses;
        mret (Ok (mkOutcome (fo_res out) StatusMiss true (fo_took out) false (fo_asOf out)))
  end.

(* [go] search/service.go:99-152 fill *)
Definition fill (q : Query) (key : string) : M W (result (serr E) Outcome) :=
  lock ← call (w_acquire CRequest (LockKey key) (p_LockTTL p));
  match lock with
  | Err _ => fallback q
  | Ok (Some l) =>
      r ← fillAndStore q key;
      match r with
      | Err e => _ ← count CErrors; _ ← releaseLock l; mret (Err (EFill e))
      | Ok out =>
          _ ← count CMisses;
          _ ← releaseLock l;
          mret (Ok (mkOutcome (fo_res out) StatusMiss true (fo_took out) false (fo_asOf out)))
      end
  | Ok None =>
      r ← wait_for_fill (p_WaitTries p) q key;
      match r with Some r => mret r | None => collapse q key end
  end.

(** [LoadOrStore] on the gate, and the goroutine that is started. *)
(* [go] search/service.go:174-184 triggerRefresh *)
Definition triggerRefresh (key : string) (q : Query) : M W unit := fun s w =>
  if bool_decide (key ∈ s_refreshing s) then (tt, s, w)
  else (tt, mkService (s_m s) ({[key]} ∪ s_refreshing s) (s_running s ++ [(key, q)]), w).

(* [go] search/service.go:63-95 Search *)
Definition Search (q : Query) : M W (result (serr E) Outcome) :=
  let q := Normalize q in
  let key := CacheKey q in
  val ← call (w_get CRequest key);
  match val with
  | Ok v =>
      match decode v with
      | None => _ ← count CErrors; fill q key
      | Some env =>
          now ← call w_now;
          if stale env now then
            _ ← triggerRefresh key q;
            _ ← count CStale;
            mret (Ok (mkOutcome (ce_Result env) StatusStale false 0 false (ce_CachedAt env)))
          else
            _ ← count CHits;
            mret (Ok (mkOutcome (ce_Result env) StatusHit false 0 false (ce_CachedAt env)))
      end
  | Err ErrMiss => fill q key
  | Err _ => fallback q
  end.

(* [go] search/service.go:188-205 doRefresh *)
Definition doRefresh (key : string) (q : Query) : M W unit :=
  lock ← call (w_acquire CDetached (LockKey key) (p_LockTTL p));
  match lock with
  | Err _ | Ok None => mret tt
  | Ok (Some l) =>
      '(res, _) ← queryDB CDetached q;
      match res with
      | Err _ => _ ← count CErrors; releaseLock l
      | Ok res =>
          _ ← store CDetached key res;
          _ ← count CRefreshes;
          releaseLock l
      end
  end.

(** The goroutine of the [i]-th running refresh runs to its end. *)
(* [go] search/service.go:179-183 triggerRefresh *)
Definition run_refresh (i : nat) : M W unit := fun s w =>
  match s_running s !! i with
  | None => (tt, s, w)
  | Some (key, q) =>
      let '(_, s', w') := doRefresh key q s w in
      (tt, mkService (s_m s') (s_refreshing s' ∖ {[key]}) (delete i (s_running s')), w')
  end.

(* [go] search/service.go:207-210 Invalidate *)
Definition Invalidate (q : Query) : M W (option cerr) :=
  call (w_del CRequest (CacheKey (Normalize q))).
End service.

(** ** Reasoning about computations *)

Section wp.
Context {W : Type}.

(** [Q] holds of the outcome of [m] from the state [s] and the world [w]. *)
Definition wp {A} (m : M W A) (Q : A → Service → W → Prop) (s : Service) (w : W) : Prop :=
  let '(a, s', w') := m s w in Q a s' w'.

Lemma wp_bind {A B} (m : M W A) (k : A → M W B) Q s w :
  wp m (fun a => wp (k a) Q) s w → wp (mbind k m) Q s w.
Proof. unfold wp, mbind, M_bind. by destruct (m s w) as [[a s'] w']. Qed.

Lemma wp_ret {A} (a : A) (Q : A → Service → W → Prop) s w : Q a s w → wp (mret a) Q s w.
Proof. done. Qed.

Lemma wp_call {A} (f : W → A * W) (Q : A → Service → W → Prop) s w :
  (∀ a w', f w = (a, w') → Q a s w') → wp (call f) Q s w.
Proof. unfold wp, call. destruct (f w) as [a w'] eqn:Ef. auto. Qed.

Lemma wp_count c (Q : unit → Service → W → Prop) s w :
  Q tt (mkService (add1 c (s_m s)) (s_refreshing s) (s_running s)) w → wp (count c) Q s w.
Proof. done. Qed.

Lemma wp_mono {A} (m : M W A) (P Q : A → Service → W → Prop) s w :
  wp m P s w → (∀ a s' w', P a s' w' → Q a s' w') → wp m Q s w.
Proof. unfold wp. destruct (m s w) as [[a s'] w']. auto. Qed.
End wp.

#[global] Hint Opaque wp : typeclass_instances.

(** One step of a computation; a call gives its result and its equation. *)
Ltac wstep :=
  match goal with
  | |- wp (mbind _ _) _ _ _ => apply wp_bind
  | |- wp (mret _) _ _ _ => apply wp_ret
  | |- wp (count _) _ _ _ => apply wp_count
  | |- wp (call _) _ _ _ => apply wp_call; intros ? ? ?
  | |- wp (let '(_, _) := ?x in _) _ _ _ => destruct x
  | |- wp (match ?x with _ => _ end) _ _ _ => destruct x eqn:?
  | |- wp (if ?x then _ else _) _ _ _ => destruct x eqn:?
  end.

Section theorems.
Context {E L W : Type} `{World E L W} (p : Params).
Context (encode : CacheEnvelope → option string) (decode : string → option CacheEnvelope).

(** ** Errors come from the source or the request's own context *)

Section errors.
Context (P : E → Prop).
Context (source_errors : ∀ ctx q w e, (w_search ctx q w).1 = Err e → P e).
Context (flight_errors : ∀ key w e, (w_join key w).1 = Some (Err e) → P e).

Definition blame (r : result (serr E) Outcome) : Prop :=
  match r with
  | Ok _ => True
  | Err (EFill e) | Err (EBudget e) | Err (EFallback e) => P e
  | Err EWait => ∃ w, (w_wait (p_WaitEvery p) w).1 = true
  end.

Definition blame_source {A} (r : result E A) : Prop := match r with Ok _ => True | Err e => P e end.

Lemma queryDB_errors ctx q s w : wp (queryDB ctx q) (fun r _ _ => blame_source r.1) s w.
Proof. unfold queryDB. repeat wstep. destruct a0 as [|e]; [done|]. eapply source_errors. by rewrite H1. Qed.

Lemma fillAndStore_errors q key s w :
  wp (fillAndStore p encode q key) (fun r _ _ => blame_source r) s w.
Proof.
  unfold fillAndStore. wstep. eapply wp_mono; [apply queryDB_errors|]. intros [[r|e] took] s' w' Hr; repeat wstep; [|done].
  unfold wp. by destruct (store _ _ _ _ _ _ _) as [[? ?] ?].
Qed.

Lemma fallback_errors q s w : wp (fallback q) (fun r _ _ => blame r) s w.
Proof. unfold fallback. wstep. eapply wp_mono; [apply queryDB_errors|]. intros [[r|e] took] s' w' Hr; by repeat wstep. Qed.

Lemma wait_errors n q key s w :
  wp (wait_for_fill p decode n q key) (fun r _ _ => match r with Some r => blame r | None => True end) s w.
Proof.
  revert s w. induction n as [|n IH]; intros s w; [done|]. cbn [wait_for_fill]. repeat wstep; try done.
  - subst. simpl. exists w. by rewrite H0.
  - eapply wp_mono; [apply fallback_errors|]. done.
  - eapply wp_mono; [apply fallback_errors|]. done.
Qed.

Lemma flight_blame q key s w : wp (flight p encode q key) (fun r _ _ => blame_source r.1) s w.
Proof.
  unfold flight. wstep. wstep. destruct a as [v|]; wstep.
  - destruct v as [|e]; [done|]. eapply flight_errors. by rewrite H0.
  - eapply wp_mono; [apply fillAndStore_errors|]. intros v s' w'' Hv. by repeat wstep.
Qed.

Lemma collapse_errors q key s w : wp (collapse p encode q key) (fun r _ _ => blame r) s w.
Proof.
  unfold collapse. wstep. eapply wp_mono; [apply flight_blame|]. intros [[out|e] shared] s' w' Hr; by repeat wstep.
Qed.

Lemma fill_errors q key s w : wp (fill p encode decode q key) (fun r _ _ => blame r) s w.
Proof.
  unfold fill. wstep. wstep. destruct a as [[l|]|e].
  - wstep. eapply wp_mono; [apply fillAndStore_errors|]. intros [out|e] s' w'' Hr; by repeat (wstep || unfold releaseLock).
  - wstep. eapply wp_mono; [apply wait_errors|]. intros [r|] s' w'' Hr; [done|]. apply collapse_errors.
  - apply fallback_errors.
Qed.

(** C13: A search fails only with an error of the source, wrapped, or because the
request's own context ended while it waited: no failure of the store, no corrupt
envelope and no lost lock reaches the caller. *)
Theorem Search_errors q s w : blame (Search p encode decode q s w).1.1.
Proof.
  assert (wp (Search p encode decode q) (fun r _ _ => blame r) s w) as Hwp.
  { unfold Search. wstep. wstep. destruct a as [v|[]]; try apply fallback_errors; [|apply fill_errors].
    destruct (decode v) as [env|]; [|do 2 wstep; apply fill_errors].
    wstep. wstep. destruct (stale env a); [|by repeat wstep]. wstep.
    unfold triggerRefresh, wp at 1. by destruct (bool_decide _). }
  unfold wp in Hwp. by destruct (Search _ _ _ _ _ _) as [[? ?] ?].
Qed.
End errors.

(** ** How often the source and the store are asked *)

Section counting.

(** A world that counts the queries to the source and the reads of the store. *)
Record tally : Type := mkTally { ta_world : W; ta_asked : Z; ta_reads : Z }.

Definition lift {A} (f : W → A * W) (t : tally) : A * tally :=
  let '(a, w') := f (ta_world t) in (a, mkTally w' (ta_asked t) (ta_reads t)).

#[local] Instance counted : World E L tally := {
  w_get ctx k t := lift (w_get ctx k) (mkTally (ta_world t) (ta_asked t) (ta_reads t + 1));
  w_setex ctx k v ttl := lift (w_setex ctx k v ttl);
  w_del ctx k := lift (w_del ctx k);
  w_acquire ctx k ttl := lift (w_acquire ctx k ttl);
  w_release l t := mkTally (w_release l (ta_world t)) (ta_asked t) (ta_reads t);
  w_search ctx q t := lift (w_search ctx q) (mkTally (ta_world t) (ta_asked t + 1) (ta_reads t));
  w_now := lift w_now;
  w_rand := lift w_rand;
  w_wait d := lift (w_wait d);
  w_join k := lift (w_join k);
  w_land k v := lift (w_land k v);
}.

Lemma lift_tally {A} (f : W → A * W) t a t' :
  lift f t = (a, t') → ta_asked t' = ta_asked t ∧ ta_reads t' = ta_reads t.
Proof. unfold lift. destruct (f (ta_world t)). by intros [= <- <-]. Qed.

(** One step, noting what it does to the counts. *)
Ltac tstep :=
  wstep;
  repeat match goal with
  | Hc : _ = (_, _) |- _ => apply lift_tally in Hc; simpl in Hc; destruct Hc
  end.

Lemma store_tally ctx key res (Q : unit → Service → tally → Prop) s t :
  (∀ s' t', ta_asked t' = ta_asked t → ta_reads t' = ta_reads t → Q tt s' t') →
  wp (store p encode ctx key res) Q s t.
Proof.
  intros HQ. unfold store. tstep. tstep. wstep. unfold freshness.
  destruct (sr_Trains res); repeat tstep; apply HQ; simpl; lia.
Qed.

Lemma queryDB_tally ctx q (Q : result E SearchResult * Z → Service → tally → Prop) s t :
  (∀ r s' t', ta_asked t' = ta_asked t + 1 → ta_reads t' = ta_reads t → Q r s' t') →
  wp (queryDB ctx q) Q s t.
Proof. intros HQ. unfold queryDB. repeat tstep. apply HQ; lia. Qed.

Lemma fillAndStore_tally q key (Q : result E fillOutput → Service → tally → Prop) s t :
  (∀ r s' t', ta_asked t' = ta_asked t + 1 → ta_reads t' = ta_reads t → Q r s' t') →
  wp (fillAndStore p encode q key) Q s t.
Proof.
  intros HQ. unfold fillAndStore. wstep. apply queryDB_tally. intros [[r|e] took] s' t' Ha Hr; [|tstep; by apply HQ].
  tstep. tstep. tstep. apply store_tally. intros. repeat tstep. apply HQ; lia.
Qed.

(** What an answer says about the queries made since the counts [a] and [n], when
at most [k] reads are allowed. *)
Definition billed (a n k : Z) (r : result (serr E) Outcome) (t : tally) : Prop :=
  (ta_asked t = a ∨ ta_asked t = a + 1) ∧ n ≤ ta_reads t ≤ n + k ∧
  match r with
  | Ok o => (oc_DBHit o = true → ta_asked t = a + 1) ∧
            (ta_asked t = a + 1 → oc_DBHit o = true ∨ oc_Suppressed o = true)
  | Err _ => True
  end.

Lemma fallback_tally q s t : wp (fallback q) (fun r _ => billed (ta_asked t) (ta_reads t) 0 r) s t.
Proof.
  unfold fallback. wstep. apply queryDB_tally.
  intros [[r|e] took] s' t' Ha Hr; repeat tstep; unfold billed; simpl; split_and!; try lia; auto.
Qed.

Lemma wait_tally n q key s t :
  wp (wait_for_fill p decode n q key)
     (fun r _ t' => match r with
                    | Some r => billed (ta_asked t) (ta_reads t) (Z.of_nat n) r t'
                    | None => ta_asked t' = ta_asked t ∧ ta_reads t ≤ ta_reads t' ≤ ta_reads t + Z.of_nat n
                    end) s t.
Proof.
  revert s t. induction n as [|n IH]; intros s t; [cbn [wait_for_fill]; tstep; lia|]. cbn [wait_for_fill].
  tstep. tstep. destruct a; [tstep; unfold billed; split_and!; lia || done|]. tstep. tstep.
  assert (wp (wait_for_fill p decode n q key) (fun r _ t' => match r with
                    | Some r => billed (ta_asked t) (ta_reads t) (Z.of_nat (S n)) r t'
                    | None => ta_asked t' = ta_asked t ∧ ta_reads t ≤ ta_reads t' ≤ ta_reads t + Z.of_nat (S n)
                    end) s w'0) as Hrest.
  { eapply wp_mono; [apply IH|]. intros [r|] s' t' Hr; unfold billed in *;
      rewrite ?H2, ?H3, ?H0, ?H1 in Hr; [|lia]. destruct Hr as (? & ? & ?). split_and!; done || lia. }
  destruct a as [v|[]]; [destruct (decode v)|..]; try exact Hrest.
  - repeat tstep. unfold billed. simpl. split_and!; try lia; done || auto.
  - tstep. eapply wp_mono; [apply fallback_tally|]. intros r s' t' (? & ? & ?). unfold billed. rewrite <- H0, <- H2 in *.
    split_and!; done || lia.
  - tstep. eapply wp_mono; [apply fallback_tally|]. intros r s' t' (? & ? & ?). unfold billed. rewrite <- H0, <- H2 in *.
    split_and!; done || lia.
Qed.

Lemma collapse_tally q key s t : wp (collapse p encode q key) (fun r _ => billed (ta_asked t) (ta_reads t) 0 r) s t.
Proof.
  unfold collapse, flight. wstep. tstep. tstep. destruct a as [v|].
  - tstep. destruct v; repeat tstep; unfold billed; simpl; split_and!; lia || done || auto.
  - tstep. apply fillAndStore_tally. intros [out|e] s' t' Ha Hr; repeat tstep; unfold billed; simpl;
      split_and!; lia || auto.
Qed.

Lemma billed_more a n k k' r t : billed a n k r t → k ≤ k' → billed a n k' r t.
Proof. intros (? & ? & ?) ?. split_and!; done || lia. Qed.

Lemma fill_tally q key s t :
  wp (fill p encode decode q key) (fun r _ => billed (ta_asked t) (ta_reads t) (Z.of_nat (p_WaitTries p)) r) s t.
Proof.
  unfold fill. tstep. tstep. rewrite <- H0, <- H1. destruct a as [[l|]|e].
  - wstep. apply fillAndStore_tally. intros [out|e] s' t' Ha Hr; repeat (wstep || unfold releaseLock);
      injection H2 as <- <-; unfold billed; simpl; split_and!; lia || done || auto.
  - wstep. eapply wp_mono; [apply wait_tally|]. intros [r|] s' t' Hr; [done|]. simpl in Hr.
    eapply wp_mono; [apply collapse_tally|]. intros r s'' t'' Hb. destruct Hr as [Hr1 Hr2]. rewrite Hr1 in Hb.
    destruct Hb as (? & ? & ?). split_and!; done || lia.
  - eapply wp_mono; [apply fallback_tally|]. intros r s' t' Hb. eapply billed_more; [exact Hb|lia].
Qed.

(** C14: Whatever the store, the source and the other clients do, one search asks the
source at most once and reads the store at most [1 + WaitTries] times; an answer
marked as a database hit did ask the source, and one that did ask it is so
marked, unless its flight was shared. *)
Theorem Search_queries q s w :
  let '(r, _, t) := Search p encode decode q s (mkTally w 0 0) in
  billed 0 0 (1 + Z.of_nat (p_WaitTries p)) r t.
Proof.
  change (wp (Search p encode decode q) (fun r _ => billed 0 0 (1 + Z.of_nat (p_WaitTries p)) r) s (mkTally w 0 0)).
  unfold Search. tstep. tstep.
  assert (∀ s', wp (fill p encode decode (Normalize q) (CacheKey (Normalize q)))
    (fun r _ => billed 0 0 (1 + Z.of_nat (p_WaitTries p)) r) s' w') as Hfill.
  { intros s'. eapply wp_mono; [apply fill_tally|]. rewrite H0, H1. intros r s'' t' (? & ? & ?). split_and!; done || lia. }
  assert (wp (fallback (Normalize q)) (fun r _ => billed 0 0 (1 + Z.of_nat (p_WaitTries p)) r) s w') as Hback.
  { eapply wp_mono; [apply fallback_tally|]. rewrite H0, H1. intros r s'' t' (? & ? & ?). split_and!; done || lia. }
  destruct a as [v|[]]; try done. destruct (decode v) as [env|]; [|do 2 wstep; apply Hfill].
  tstep. tstep. unfold triggerRefresh. destruct (stale env a); [|repeat tstep; unfold billed; simpl; split_and!; lia || done].
  wstep. unfold wp at 1. destruct (bool_decide _); repeat tstep; unfold billed; simpl; split_and!; lia || done.
Qed.

End counting.

(** ** The counters *)

(** What a computation leaves alone: the number of requests served, and the gate. *)
Definition quiet (s s' : Service) : Prop :=
  Served (s_m s') = Served (s_m s) ∧ s_refreshing s' = s_refreshing s ∧ s_running s' = s_running s.

Definition is_served (c : counter) : bool :=
  match c with CDBFills | CRefreshes | CErrors => false | _ => true end.

Lemma Served_add1 c m : Served (add1 c m) = i64 (Served m + if is_served c then 1 else 0).
Proof.
  destruct m as [h st mi su f d r e]. unfold Served. simpl. rewrite i64_add_l.
  destruct c; simpl; try (f_equal; lia);
    match goal with |- context [i64 (?x + 1)] => destruct (i64_cong (x + 1)) as [k ->] end;
    match goal with |- i64 ?l = i64 ?g => rewrite <- (i64_add_cong g k); f_equal; lia end.
Qed.

Lemma Served_range m : i64 (Served m + 0) = Served m.
Proof. rewrite Z.add_0_r. unfold Served. apply i64_small, i64_range. Qed.

(** A counter that does not count served requests. *)
Lemma quiet_add1 c s s' : is_served c = false →
  quiet s s' → quiet s (mkService (add1 c (s_m s')) (s_refreshing s') (s_running s')).
Proof. intros Hc (H1 & H2 & H3). split_and!; simpl; [|done|done]. by rewrite Served_add1, Hc, Served_range. Qed.

Lemma store_quiet ctx key res (Q : unit → Service → W → Prop) s s0 w :
  quiet s0 s → (∀ s' w', quiet s0 s' → Q tt s' w') → wp (store p encode ctx key res) Q s w.
Proof.
  intros Hq HQ. unfold store, freshness. destruct (sr_Trains res); repeat wstep; apply HQ; try done; by apply quiet_add1.
Qed.

Lemma fillAndStore_quiet q key (Q : result E fillOutput → Service → W → Prop) s s0 w :
  quiet s0 s → (∀ r s' w', quiet s0 s' → Q r s' w') → wp (fillAndStore p encode q key) Q s w.
Proof.
  intros Hq HQ. unfold fillAndStore, queryDB. repeat wstep; [|by apply HQ].
  eapply store_quiet; [done|]. intros s' w'' Hq'. repeat wstep. apply HQ. by apply quiet_add1.
Qed.

(** One more request served exactly when the answer is a success. *)
Definition accounted (s : Service) (r : result (serr E) Outcome) (s' : Service) : Prop :=
  Served (s_m s') = i64 (Served (s_m s) + if is_ok r then 1 else 0).

Definition gate_same (s s' : Service) : Prop :=
  s_refreshing s' = s_refreshing s ∧ s_running s' = s_running s.

Definition answered (s : Service) (r : result (serr E) Outcome) (s' : Service) : Prop :=
  accounted s r s' ∧ gate_same s s'.

Lemma answered_add1 c s s' r : quiet s s' → is_served c = is_ok r →
  answered s r (mkService (add1 c (s_m s')) (s_refreshing s') (s_running s')).
Proof.
  intros (H1 & H2 & H3) Hc. unfold answered, accounted. simpl. split; [|done]. by rewrite Served_add1, H1, Hc.
Qed.

Lemma answered_quiet s s' e : quiet s s' → answered s (Err e) s'.
Proof. intros (H1 & H2 & H3). split; [|done]. unfold accounted. simpl. by rewrite H1, Served_range. Qed.

Lemma fallback_answered q s s0 w : quiet s0 s → wp (fallback q) (fun r s' _ => answered s0 r s') s w.
Proof. intros Hq. unfold fallback, queryDB. repeat wstep; by apply answered_add1. Qed.

Lemma wait_answered n q key s s0 w : quiet s0 s →
  wp (wait_for_fill p decode n q key)
     (fun r s' _ => match r with Some r => answered s0 r s' | None => quiet s0 s' end) s w.
Proof.
  intros Hq. revert w. induction n as [|n IH]; intros w; [done|]. cbn [wait_for_fill]. repeat wstep; try apply IH.
  - by apply answered_quiet.
  - by apply answered_add1.
  - eapply wp_mono; [by apply fallback_answered|]. done.
  - eapply wp_mono; [by apply fallback_answered|]. done.
Qed.

Lemma fill_answered q key s s0 w : quiet s0 s →
  wp (fill p encode decode q key) (fun r s' _ => answered s0 r s') s w.
Proof.
  intros Hq. unfold fill. wstep. wstep. destruct a as [[l|]|e]; [| |by apply fallback_answered].
  - wstep. eapply fillAndStore_quiet; [done|]. intros [out|e] s' w'' Hq'; repeat (wstep || unfold releaseLock);
      by apply answered_add1.
  - wstep. eapply wp_mono; [by apply wait_answered|]. intros [r|] s' w'' Hr; [done|].
    unfold collapse, flight. wstep. wstep. wstep. destruct a as [v|].
    + repeat wstep; by apply answered_add1.
    + wstep. eapply fillAndStore_quiet; [done|]. intros v s'' w3 Hq'. repeat wstep; by apply answered_add1.
Qed.

(** The gate after a search: as before, or with a refresh of the key started that
was not running. *)
Definition gated (key : string) (s s' : Service) : Prop :=
  gate_same s s' ∨
  key ∉ s_refreshing s ∧ s_refreshing s' = {[key]} ∪ s_refreshing s ∧
  ∃ q, s_running s' = s_running s ++ [(key, q)].

Lemma Search_answered q s w :
  let '(r, s', _) := Search p encode decode q s w in
  accounted s r s' ∧ gated (CacheKey (Normalize q)) s s'.
Proof.
  change (wp (Search p encode decode q) (fun r s' _ => accounted s r s' ∧ gated (CacheKey (Normalize q)) s s') s w).
  assert (quiet s s) as Hs by done. unfold Search. wstep. wstep. set (key := CacheKey (Normalize q)).
  assert (∀ s' w', quiet s s' → wp (fill p encode decode (Normalize q) key)
    (fun r s' _ => accounted s r s' ∧ gated key s s') s' w') as Hfill.
  { intros s' w'' Hq. eapply wp_mono; [by apply fill_answered|]. intros r s'' _ [? ?]. split; [done|by left]. }
  destruct a as [v|[]]; try (eapply wp_mono; [by apply fallback_answered|]; intros r s'' ? [? ?]; split; [done|by left]);
    [|by apply Hfill].
  destruct (decode v) as [env|]; [|do 2 wstep; apply Hfill; by apply quiet_add1].
  wstep. wstep. unfold triggerRefresh. destruct (stale env a); wstep.
  - unfold wp at 1. destruct (bool_decide (key ∈ s_refreshing s)) eqn:Ek; repeat wstep; unfold accounted; cbn [s_m is_ok].
    + split; [apply (Served_add1 CStale)|by left].
    + apply bool_decide_eq_false in Ek. split; [apply (Served_add1 CStale)|]. right. split_and!; eauto.
  - repeat wstep. split; [apply (Served_add1 CHits)|by left].
Qed.

(** The served-request counters are exact: every search that answers adds one to
their sum, every search that fails adds none, on every path through the cache, the
lock, the wait, the flight and the fallback. *)
Theorem Search_accounted q s w :
  let '(r, s', _) := Search p encode decode q s w in
  Served (s_m s') = i64 (Served (s_m s) + if is_ok r then 1 else 0).
Proof.
  pose proof (Search_answered q s w) as Ha. destruct (Search _ _ _ _ _ _) as [[r s'] w']. apply Ha.
Qed.

(** ** The refresh gate *)

(** What an instance does: serve a search, or let one of its refreshes end; the
world changes freely in between. *)
Inductive gate_step : Service → Service → Prop :=
  | gs_search q s w r s' w' : Search p encode decode q s w = (r, s', w') → gate_step s s'
  | gs_refresh i s w s' w' : run_refresh p encode i s w = (tt, s', w') → gate_step s s'.

Definition gate_inv (s : Service) : Prop :=
  NoDup (s_running s).*1 ∧ s_refreshing s = list_to_set (s_running s).*1.

Lemma doRefresh_gate key q s w : wp (doRefresh p encode key q) (fun _ s' _ => gate_same s s') s w.
Proof.
  unfold doRefresh, queryDB. repeat (wstep || unfold releaseLock); try done.
  eapply (store_quiet _ _ _ _ _ s); [done|]. intros s' w'' (_ & ? & ?). by repeat (wstep || unfold releaseLock).
Qed.

Lemma gate_inv_step s s' : gate_inv s → gate_step s s' → gate_inv s'.
Proof.
  intros [Hnd Heq] Hst. destruct Hst as [q s w r s' w' Hs|i s w s' w' Hs].
  - pose proof (Search_answered q s w) as Ha. rewrite Hs in Ha.
    destruct Ha as [_ [[Hr Hl]|(Hni & Hr & q' & Hl)]]; unfold gate_inv; rewrite Hr, Hl; [done|].
    rewrite fmap_app. split.
    + apply NoDup_app. split_and!; [done| |apply NoDup_singleton].
      intros x Hx ->%list_elem_of_singleton. apply Hni. rewrite Heq. by apply elem_of_list_to_set.
    + rewrite Heq, list_to_set_app_L. simpl. set_solver.
  - unfold run_refresh in Hs. destruct (s_running s !! i) as [[key q]|] eqn:Ei; [|by injection Hs as <- <-].
    pose proof (doRefresh_gate key q s w) as Hg. unfold wp in Hg.
    destruct (doRefresh p encode key q s w) as [[? s1] w1]. destruct Hg as [Hr Hl]. injection Hs as <- <-.
    unfold gate_inv. simpl. rewrite Hr, Hl, Heq. rewrite list_fmap_delete.
    assert ((s_running s).*1 !! i = Some key) as Hk by (by rewrite list_lookup_fmap, Ei).
    revert Hnd Hk. generalize (s_running s).*1. clear. intros l Hnd Hk.
    pose proof (delete_Permutation l i key Hk) as Hp. rewrite Hp in Hnd. apply NoDup_cons in Hnd as [Hni Hnd].
    split; [done|]. rewrite (list_to_set_perm_L (C := gset string) _ _ Hp). simpl.
    apply set_eq. intros x. rewrite <- (elem_of_list_to_set (C := gset string)) in Hni. set_solver.
Qed.

(** C16: At most one background refresh of a key runs on an instance at any time, and
the gate holds exactly the keys being refreshed, so that every refresh that ends
lets the next stale read start another. *)
Theorem Refresh_gate m s :
  rtc gate_step (mkService m ∅ []) s →
  NoDup (s_running s).*1 ∧ ∀ key, key ∈ s_refreshing s ↔ key ∈ (s_running s).*1.
Proof.
  intros Hr. assert (gate_inv s) as [Hnd Heq].
  { eapply rtc_invariant; [|exact Hr|]; [exact gate_inv_step|]. split; [constructor|done]. }
  split; [done|]. intros key. rewrite Heq. apply elem_of_list_to_set.
Qed.
End theorems.

(** ** Freshness *)

(** Forty-five seconds with a jitter of a fifth: the smallest, the middle and the largest
draw; and a jitter of NaN, which makes every time to live negative. *)
Example jitterTTL_draws :
  jitterTTL (45 * 10 ^ 9) (ratio_float64 1 5) 0 = 36 * 10 ^ 9 ∧
  jitterTTL (45 * 10 ^ 9) (ratio_float64 1 5) (2 ^ 52) = 45 * 10 ^ 9 ∧
  jitterTTL (45 * 10 ^ 9) (ratio_float64 1 5) (2 ^ 53 - 1) = 54 * 10 ^ 9 ∧
  jitterTTL (45 * 10 ^ 9) NaN 0 = min_i64.
Proof. vm_compute. done. Qed.

(** ** One instance on its own *)

(** A world without failures and without other clients: the clock stands still
during a request. *)
Section solo.
Context {E R : Type} `{KVLaws R}.

Record Solo : Type := mkSolo {
  so_now : Z; so_rand : Z; so_token : string; so_kv : R; so_src : Query → result E SearchResult }.

Definition set_kv (r : R) (w : Solo) : Solo := mkSolo (so_now w) (so_rand w) (so_token w) r (so_src w).

#[export] Instance solo_world : World E Lock Solo := {
  w_get _ k w := (match kv_get (so_now w) k (so_kv w) with Some v => Ok v | None => Err ErrMiss end, w);
  w_setex _ k v ttl w := (None, set_kv (kv_setex (so_now w) k v ttl (so_kv w)) w);
  w_del _ k w := (None, set_kv (kv_del k (so_kv w)) w);
  w_acquire _ k ttl w :=
    let '(l, r) := Acquire (so_now w) k (so_token w) ttl (so_kv w) in (Ok l, set_kv r w);
  w_release l w := set_kv (Release (so_now w) l (so_kv w)) w;
  w_search _ q w := (so_src w q, w);
  w_now w := (so_now w, w);
  w_rand w := (so_rand w, w);
  w_wait _ w := (false, w);
  w_join _ w := (None, w);
  w_land _ _ w := (false, w);
}.

Definition at_time (t : Z) (w : Solo) : Solo := mkSolo t (so_rand w) (so_token w) (so_kv w) (so_src w).

Context (p : Params) (encode : CacheEnvelope → option string) (decode : string → option CacheEnvelope).

(** The logical time to live of a result written at [now]. *)
Definition logicalTTL (now r : Z) (res : SearchResult) : Z :=
  jitterTTL (match sr_Trains res with [] => p_NegativeTTL p | _ => freshnessFor p now (sr_Query res) end)
            (p_Jitter p) r.

Lemma freshness_solo res s (w : Solo) :
  freshness p res s w = (logicalTTL (so_now w) (so_rand w) res, s, w).
Proof.
  unfold freshness, logicalTTL, jitterTTL, mbind, M_bind, call, mret, M_ret.
  destruct (sr_Trains res); simpl; by destruct (fle (p_Jitter p) f0).
Qed.

Context (codec : ∀ e, encode e ≫= decode = Some e) (lock_ttl : 0 ≤ p_LockTTL p).

Lemma LockKey_other key : LockKey key ≠ key.
Proof.
  change (LockKey key) with (String "l" (String "o" (String "c" (String "k" (String ":" key))))).
  intros Heq%(f_equal String.length). simpl in Heq. lia.
Qed.

(** A search that finds neither the entry nor the lock asks the source, writes the
envelope and releases the lock. *)
Lemma Search_miss q s (w : Solo) res :
  let key := CacheKey (Normalize q) in
  let ttl := logicalTTL (so_now w) (so_rand w) res in
  kv_get (so_now w) key (so_kv w) = None → kv_get (so_now w) (LockKey key) (so_kv w) = None →
  so_src w (Normalize q) = Ok res →
  ∃ s' blob, decode blob = Some (mkEnvelope res (bool_decide (sr_Trains res = [])) (so_now w) (so_now w + ttl)) ∧
    Search p encode decode q s w = (Ok (mkOutcome res StatusMiss true 0 false (so_now w)), s',
      set_kv (Release (so_now w) (mkLock (LockKey key) (so_token w))
        (kv_setex (so_now w) key blob (i64 (ttl * p_PhysicalMultiplier p))
          (kv_setex (so_now w) (LockKey key) (so_token w) (p_LockTTL p) (so_kv w)))) w).
Proof.
  intros key ttl Hkey Hlock Hsrc. set (env := mkEnvelope _ _ _ _). pose proof (codec env) as Hc.
  destruct (encode env) as [blob|] eqn:Henc; [|done]. simpl in Hc.
  set (kv1 := kv_setex (so_now w) (LockKey key) (so_token w) (p_LockTTL p) (so_kv w)).
  exists (mkService (add1 CMisses (add1 CDBFills (s_m s))) (s_refreshing s) (s_running s)), blob. split; [done|].
  unfold Search, mbind, M_bind, call. simpl. fold key. rewrite Hkey.
  unfold fill, mbind, M_bind, call. simpl. unfold Acquire. rewrite setnx_def, Hlock by done. simpl.
  unfold fillAndStore, queryDB, mbind, M_bind, call, mret, M_ret. simpl. rewrite Hsrc. simpl.
  rewrite Z.sub_diag. unfold store, mbind, M_bind, call. simpl.
  change (so_now w) with (so_now (set_kv kv1 w)) at 1. rewrite freshness_solo. simpl. fold ttl. fold env. by rewrite Henc.
Qed.

(** What it leaves: the envelope for its physical duration, and the lock free. *)
Lemma filled_store key blob token ttl t0 (r : R) t : ttl ≠ -1 →
  let r' := Release t0 (mkLock (LockKey key) token) (kv_setex t0 key blob ttl (kv_setex t0 (LockKey key) token (p_LockTTL p) r)) in
  kv_get t key r' = (if lives t0 ttl t then Some blob else None) ∧ kv_get t (LockKey key) r' = None.
Proof.
  intros Httl r'. pose proof (LockKey_other key) as Hk. unfold r', Release. simpl.
  rewrite bool_decide_eq_true_2.
  - by rewrite !get_del, decide_False, decide_True, get_setex, decide_True.
  - by rewrite !get_setex, decide_False, decide_True, lives_at_once by (done || lia).
Qed.

(** C15: The life of an entry, for a store that keeps what it is given as Redis does and
no other client: the first search asks the source; until the logical expiry the entry
is served fresh; from then on it is served stale as long as the store keeps it, which
is, in the milliseconds Redis counts in, the physical duration rounded down but at least
one; and after that the source is asked again.  The age reported is that of the data.
When the physical duration is not positive, because the product of the logical one and
the multiplier is zero or leaves 64 bits, the store keeps the entry for ever and it
stays stale. *)
Theorem Search_lifecycle q s (w : Solo) res t :
  let key := CacheKey (Normalize q) in
  let t0 := so_now w in
  let ttl := logicalTTL t0 (so_rand w) res in
  let phys := i64 (ttl * p_PhysicalMultiplier p) in
  kv_get t0 key (so_kv w) = None → kv_get t0 (LockKey key) (so_kv w) = None →
  so_src w (Normalize q) = Ok res → t0 ≤ t → phys ≠ -1 →
  ∃ s1 w1,
    Search p encode decode q s w = (Ok (mkOutcome res StatusMiss true 0 false t0), s1, w1) ∧
    (Search p encode decode q s1 (at_time t w1)).1.1 =
      Ok (if (phys <=? 0) || (t / 1000000 <=? t0 / 1000000 + Z.max 1 (phys / 1000000)) then
            (if t <? t0 + ttl then mkOutcome res StatusHit false 0 false t0
             else mkOutcome res StatusStale false 0 false t0)
          else mkOutcome res StatusMiss true 0 false t).
Proof.
  intros key t0 ttl phys Hkey Hlock Hsrc Ht Hphys.
  destruct (Search_miss q s w res Hkey Hlock Hsrc) as (s1 & blob & Hd & Hs).
  eexists s1, _. split; [exact Hs|]. fold key t0 ttl phys in Hd |- *.
  destruct (filled_store key blob (so_token w) phys t0 (so_kv w) t Hphys) as [Hg Hl].
  set (kv' := Release t0 _ _) in *.
  assert (lives t0 phys t = (phys <=? 0) || (t / 1000000 <=? t0 / 1000000 + Z.max 1 (phys / 1000000))) as <-
    by (unfold lives, redis_expiry; by destruct (phys <=? 0)).
  destruct (lives t0 phys t).
  - unfold Search, mbind, M_bind, call. simpl. fold key. rewrite Hg, Hd. unfold stale. simpl.
    destruct (t <? t0 + ttl); simpl; [done|]. unfold triggerRefresh. by destruct (bool_decide (key ∈ s_refreshing s1)).
  - by destruct (Search_miss q s1 (at_time t (set_kv kv' w)) res Hg Hl Hsrc) as (s2 & blob2 & _ & ->).
Qed.
End solo.

Arguments Solo : clear implicits.

(** ** Validation *)

(** The set of station codes, and what a load of it returned. *)
(* [go] search/stations.go:35-51 Refresh *)
Definition Refresh {Er} (listed : result Er (list string)) (set : gset string) : option Er * gset string :=
  match listed with
  | Err e => (Some e, set)
  | Ok codes => (None, list_to_set codes)
  end.

(* [go] search/stations.go:53-59 Has *)
Definition Has (set : gset string) (code : string) : bool := bool_decide (code ∈ set).

(** The reasons of an [InvalidInputError]. *)
(* [go] search/validate.go:12-14 InvalidInputError *)
Inductive invalid : Type :=
  SameStations | UnknownOrigin | UnknownDestination | UnsupportedClass | BadDate | PastDate | BeyondWindow.

(* [go] search/validate.go:21-26 Validator *)
Record Validator : Type := mkValidator {
  v_stations : gset string; v_classes : gset string; v_windowDays : Z; v_now : Z }.

(* [go] search/validate.go:40-69 Validate *)
Definition Validate (v : Validator) (q : Query) : Query * option invalid :=
  let q := Normalize q in
  if bool_decide (q_From q = q_To q) then (q, Some SameStations)
  else if negb (Has (v_stations v) (q_From q)) then (q, Some UnknownOrigin)
  else if negb (Has (v_stations v) (q_To q)) then (q, Some UnknownDestination)
  else if negb (bool_decide (q_Class q ∈ v_classes v)) then (q, Some UnsupportedClass)
  else
    match parse_date (q_Date q) with
    | None => (q, Some BadDate)
    | Some day =>
        if day <? utc_day (v_now v) then (q, Some PastDate)
        else if utc_day (v_now v) + v_windowDays v <? day then (q, Some BeyondWindow)
        else (q, None)
    end.

(** What a valid query is. *)
Definition bookable (v : Validator) (q : Query) : Prop :=
  q_From q ≠ q_To q ∧ q_From q ∈ v_stations v ∧ q_To q ∈ v_stations v ∧ q_Class q ∈ v_classes v ∧
  ∃ day, parse_date (q_Date q) = Some day ∧ utc_day (v_now v) ≤ day ≤ utc_day (v_now v) + v_windowDays v.

Lemma Validate_ok v q : (Validate v q).2 = None ↔ bookable v (Normalize q).
Proof.
  unfold Validate, bookable, Has. cbv zeta. generalize (Normalize q). intros n.
  destruct (decide (q_From n = q_To n)) as [Ht|Hf].
  { rewrite bool_decide_eq_true_2 by done. split; [done|]. by intros [? _]. }
  rewrite bool_decide_eq_false_2 by done.
  do 3 (case_bool_decide; cbn [negb]; [|split; [done|]; intros; by destruct_and?]).
  destruct (parse_date (q_Date n)) as [day|].
  2:{ split; [done|]. intros (_ & _ & _ & _ & day & [=] & _). }
  destruct (day <? utc_day (v_now v)) eqn:E1; zbool.
  { split; [done|]. intros (_ & _ & _ & _ & d & [= <-] & Hd). lia. }
  destruct (utc_day (v_now v) + v_windowDays v <? day) eqn:E2; zbool.
  { split; [done|]. intros (_ & _ & _ & _ & d & [= <-] & Hd). lia. }
  split; [|done]. intros _. split_and!; try done. exists day. split; [done|lia].
Qed.

(** ** Dates that parse *)

Lemma digit_value_lacks c a d : digit_value a = Some d → digit_value c = None → a ≠ c.
Proof. congruence. Qed.

Lemma two_digits_parts a b x : two_digits a b = Some x → ∃ y z, digit_value a = Some y ∧ digit_value b = Some z.
Proof. unfold two_digits. destruct (digit_value a), (digit_value b); naive_solver. Qed.

(** A date that parses consists of digits and dashes. *)
Lemma parse_date_lacks c s d : parse_date s = Some d → digit_value c = None → c ≠ "-"%char → lacks c s.
Proof.
  intros Hp Hc Hd. do 10 (destruct s as [|? s]; [done|]). destruct s; [|done]. cbn [parse_date] in Hp.
  destruct (two_digits a a0) eqn:E1; [|done]. destruct (two_digits a1 a2) eqn:E2; [|done].
  destruct (two_digits a4 a5) eqn:E3; [|done]. destruct (two_digits a7 a8) eqn:E4; [|done].
  apply two_digits_parts in E1 as (? & ? & ? & ?), E2 as (? & ? & ? & ?), E3 as (? & ? & ? & ?), E4 as (? & ? & ? & ?).
  destruct (Ascii.eqb_spec a3 "-"); [|done]. destruct (Ascii.eqb_spec a6 "-"); [|done]. subst.
  repeat (apply lacks_cons; split; [congruence|]). done.
Qed.

(** Validated queries with the same cache key are the same query, so that no two
routes, dates or classes share an entry, provided the reference data has no colon
in it. *)
Theorem Validated_keys_distinct v q q' :
  set_Forall (lacks ":"%char) (v_stations v) → set_Forall (lacks ":"%char) (v_classes v) →
  (Validate v q).2 = None → (Validate v q').2 = None →
  CacheKey (Normalize q) = CacheKey (Normalize q') → Normalize q = Normalize q'.
Proof.
  intros Hs Hcl Hq%Validate_ok Hq'%Validate_ok. apply CacheKey_same.
  - destruct Hq as (_ & HF & HT & HC & day & Hd & _). split_and!; auto. by eapply parse_date_lacks.
  - destruct Hq' as (_ & HF & HT & HC & day & Hd & _). split_and!; auto. by eapply parse_date_lacks.
Qed.

(** Validation accepts exactly the bookable queries: two different known stations, a
supported class, and a date that parses and lies in the booking window; it returns
the normalized query, which validates to itself. *)
Theorem Validate_exact v q :
  ((Validate v q).2 = None ↔ bookable v (Normalize q)) ∧
  (Validate v q).1 = Normalize q ∧ Validate v (Validate v q).1 = Validate v q.
Proof.
  assert ((Validate v q).1 = Normalize q) as Hn.
  { unfold Validate. repeat case_test; try done. destruct (parse_date _); [|done]. by repeat case_test. }
  split_and!; [apply Validate_ok|done|]. rewrite Hn. unfold Validate. by rewrite Normalize_idem.
Qed.

(** ** Concrete instances *)

Module RailWitness.

(** A codec: envelopes numbered, the number in decimal. *)
#[local] Instance Query_eq_dec : EqDecision Query. Proof. solve_decision. Defined.
#[local] Instance Train_eq_dec : EqDecision Train. Proof. solve_decision. Defined.
#[local] Instance Result_eq_dec : EqDecision SearchResult. Proof. solve_decision. Defined.
#[local] Instance Envelope_eq_dec : EqDecision CacheEnvelope. Proof. solve_decision. Defined.

#[local] Instance Query_countable : Countable Query.
Proof.
  refine (inj_countable' (fun q => (q_From q, q_To q, q_Date q, q_Class q))
                         (fun '(a, b, c, d) => mkQuery a b c d) _). by intros [].
Defined.

#[local] Instance Train_countable : Countable Train.
Proof.
  refine (inj_countable'
    (fun t => (tr_Number t, tr_Name t, tr_DepFrom t, tr_ArrTo t, tr_Class t, tr_Available t, tr_Total t, tr_HasClass t))
    (fun '(a, b, c, d, e, f, g, h) => mkTrain a b c d e f g h) _). by intros [].
Defined.

#[local] Instance Result_countable : Countable SearchResult.
Proof. refine (inj_countable' (fun r => (sr_Query r, sr_Trains r)) (fun '(q, t) => mkResult q t) _). by intros []. Defined.

#[local] Instance Envelope_countable : Countable CacheEnvelope.
Proof.
  refine (inj_countable' (fun e => (ce_Result e, ce_Empty e, ce_CachedAt e, ce_FreshUntil e))
                         (fun '(a, b, c, d) => mkEnvelope a b c d) _). by intros [].
Defined.

Definition enc (e : CacheEnvelope) : option string := Some (pretty.pretty (Npos (countable.encode e))).
Definition dec (s : string) : option CacheEnvelope :=
  z ← unsigned s; countable.decode (Z.to_pos z).

Lemma enc_dec e : enc e ≫= dec = Some e.
Proof.
  unfold enc, dec. cbn [mbind option_bind]. rewrite unsigned_pretty. cbn [mbind option_bind].
  change (Z.to_pos (Z.of_N (Npos (countable.encode e)))) with (countable.encode e). apply decode_encode.
Qed.

Definition params : Params := mkParams 45 4 f0 10 10 5 0 1 3.
Definition zero : Metrics := mkMetrics 0 0 0 0 0 0 0 0.
Definition q0 : Query := mkQuery "ndls" "BCT" "2025-01-02" "3A".
Definition res0 : SearchResult := mkResult q0 [].
Definition idle : Service := mkService zero ∅ [].

(** A world whose store is down and whose source fails. *)
#[local] Instance down : World string unit unit := {
  w_get _ _ w := (Err ETransport, w);
  w_setex _ _ _ _ w := (Some ETransport, w);
  w_del _ _ w := (Some ETransport, w);
  w_acquire _ _ _ w := (Err ETransport, w);
  w_release _ w := w;
  w_search _ _ w := (Err "down", w);
  w_now w := (0, w);
  w_rand w := (0, w);
  w_wait _ w := (false, w);
  w_join _ w := (None, w);
  w_land _ _ w := (false, w);
}.

Lemma Search_errors_witness :
  (Search params enc dec q0 idle tt).1.1 = Err (EFallback "down") ∧
  blame params (fun e => e = "down") (Search params enc dec q0 idle tt).1.1.
Proof.
  split; [reflexivity|]. apply (Search_errors params enc dec (fun e => e = "down")).
  - intros ctx q w e [= <-]. reflexivity.
  - intros key w e [=].
Defined.

(** A store that holds an old envelope, or, for [false], in which another filler
holds the lock; the flight of a loser is shared. *)
#[local] Instance scripted : World string unit bool := {
  w_get _ _ w := (if w then Ok "" else Err ErrMiss, w);
  w_setex _ _ _ _ w := (None, w);
  w_del _ _ w := (None, w);
  w_acquire _ _ _ w := (Ok None, w);
  w_release _ w := w;
  w_search _ _ w := (Ok res0, w);
  w_now w := (7, w);
  w_rand w := (0, w);
  w_wait _ w := (false, w);
  w_join _ w := (None, w);
  w_land _ _ w := (true, w);
}.

Definition old (_ : string) : option CacheEnvelope := Some (mkEnvelope res0 true 0 5).

Lemma Refresh_gate_witness :
  NoDup (s_running (Search params enc old q0 idle true).1.2).*1 ∧
  ∀ key, key ∈ s_refreshing (Search params enc old q0 idle true).1.2 ↔
         key ∈ (s_running (Search params enc old q0 idle true).1.2).*1.
Proof.
  apply (Refresh_gate params enc old zero). apply rtc_once. eapply (gs_search _ _ _ q0 idle true). reflexivity.
Defined.

Definition fresh_world : Solo string emap := mkSolo 0 0 "t" ∅ (fun _ => Ok res0).

(** Fresh, stale, and, two milliseconds later, gone. *)
Lemma Search_lifecycle_witness :
  (∃ s1 w1, Search params enc dec q0 idle fresh_world = (Ok (mkOutcome res0 StatusMiss true 0 false 0), s1, w1) ∧
    (Search params enc dec q0 s1 (at_time 9 w1)).1.1 = Ok (mkOutcome res0 StatusHit false 0 false 0)) ∧
  (∃ s1 w1, Search params enc dec q0 idle fresh_world = (Ok (mkOutcome res0 StatusMiss true 0 false 0), s1, w1) ∧
    (Search params enc dec q0 s1 (at_time 20 w1)).1.1 = Ok (mkOutcome res0 StatusStale false 0 false 0)) ∧
  (∃ s1 w1, Search params enc dec q0 idle fresh_world = (Ok (mkOutcome res0 StatusMiss true 0 false 0), s1, w1) ∧
    (Search params enc dec q0 s1 (at_time 2000000 w1)).1.1 = Ok (mkOutcome res0 StatusMiss true 0 false 2000000)).
Proof.
  split; [|split]; [apply (Search_lifecycle params enc dec enc_dec ltac:(done) q0 idle fresh_world res0 9)|
    apply (Search_lifecycle params enc dec enc_dec ltac:(done) q0 idle fresh_world res0 20)|
    apply (Search_lifecycle params enc dec enc_dec ltac:(done) q0 idle fresh_world res0 2000000)];
    reflexivity || done.
Defined.

Definition validator : Validator := mkValidator {["NDLS"; "BCT"]} {["3A"]} 120 (20000 * day_ns).

Lemma Validated_keys_distinct_witness :
  Normalize (mkQuery " ndls" "BCT" "2024-10-05" "3a") = Normalize (mkQuery "NDLS" "bct " "2024-10-05" "3A").
Proof.
  apply (Validated_keys_distinct validator).
  - intros x. unfold validator. simpl. rewrite elem_of_union, !elem_of_singleton. by intros [-> | ->].
  - intros x. unfold validator. simpl. rewrite elem_of_singleton. by intros ->.
  - vm_compute. reflexivity.
  - vm_compute. reflexivity.
  - reflexivity.
Defined.

(** The request that ran the shared flight asked the source, yet it is reported as
suppressed and as no database hit. *)
Theorem Leader_reported_suppressed :
  let '(r, s, t) := Search (H := counted) params enc dec q0 idle (mkTally false 0 0) in
  ta_asked t = 1 ∧ r = Ok (mkOutcome res0 StatusHit false 0 true 7) ∧ m_HerdSuppressed (s_m s) = 1 ∧ m_Misses (s_m s) = 0.
Proof. vm_compute. done. Qed.
End RailWitness.
