(* ===== verification/SocialOps.v ===== *)
(** * railcache social pulse: broker, consumers, requests and the process

[railcache/internal/social/kafka.go]: the broker with its writers, the loop of a
consumer over its partition with failed fetches, commits and restarts, and the
ticks of the outbox relay; [http.go]: the routes behind the timeout, the request
log and the recovery of panics; [cmd/socialpulse]: start and shutdown.  The
transactions and the relay's batch are those of [Social].  The Kafka client is
seen through what it answers: an acknowledgement or an error of a write, a fetch
that gives the next message of the partition or fails, a commit that is stored or
lost. *)

From Stdlib Require Import ZArith Lia Ascii.
From stdpp Require Import base gmap strings fin_maps fin_sets relations list sorting.
From S2P Require Import Prelude GoStrings GoTime Social.

Open Scope string_scope.
Open Scope list_scope.
Open Scope Z_scope.

(* [base] railcache/internal/social *)

(** ** The broker *)

(** A writer is known by the order of its creation; [br_made] has the topic of each
writer created so far. *)
(* [go] kafka.go:17-22 Broker *)
Record Broker : Type := mkBroker { br_writers : gmap string nat; br_made : list string }.

(* [go] kafka.go:24-26 NewBroker *)
Definition NewBroker : Broker := mkBroker ∅ [].

(* [go] kafka.go:50-67 Broker.writer *)
Definition broker_writer (topic : string) (b : Broker) : nat * Broker :=
  match br_writers b !! topic with
  | Some w => (w, b)
  | None => let w := length (br_made b) in (w, mkBroker (<[topic := w]> (br_writers b)) (br_made b ++ [topic]))
  end.

Record message : Type := mkMsg {
  km_writer : nat; km_key : string; km_value : Event; km_headers : list (string * string) }.

Inductive pub_error : Type := PDecode | PWrite (text : string).

(** [acked] tells whether every replica acknowledged the write. *)
(* [go] kafka.go:28-48 Broker.Publish *)
Definition Publish (acked : bool) (topic key : string) (event : Event) (b : Broker)
    : result pub_error message * Broker :=
  if negb (DecodeEvent event) then (Err PDecode, b)
  else
    let '(w, b') := broker_writer topic b in
    if negb acked then (Err (PWrite ("publish to " +:+ topic)), b')
    else (Ok (mkMsg w key event [("event_id", e_ID event); ("event_type", e_Type event); ("schema_version", "1");
                                 ("correlation_id", e_CorrelationID event)]), b').

(** The writers that are closed, in the order in which the map is walked. *)
(* [go] kafka.go:69-77 Broker.Close *)
Definition broker_Close (b : Broker) : list nat := (map_to_list (br_writers b)).*2.

(** Any sequence of calls of the relays that share the broker. *)
Fixpoint publish_all (calls : list (bool * string * Event)) (b : Broker) : list (string * message) * Broker :=
  match calls with
  | [] => ([], b)
  | (acked, topic, event) :: calls =>
      let '(r, b') := Publish acked topic (e_Key event) event b in
      let '(l, b'') := publish_all calls b' in
      (match r with Ok m => (topic, m) :: l | Err _ => l end, b'')
  end.

(** ** The consumer's loop *)

(** A turn of the loop: the fetch fails (because the context ended, or for another
reason), or it gives the next message, which is handled with the given ids, time
and fate of its transaction; [tn_cancelled] says that the context ends during the
wait after a failure, [tn_committed] that the commit succeeds.  [tn_others] is what
the other processes do to the tables before the turn. *)
Record turn : Type := mkTurn {
  tn_others : db → db; tn_fetch : option bool; tn_id1 : string; tn_id2 : string; tn_now : Z; tn_fate : fate;
  tn_cancelled : bool; tn_committed : bool }.

(** The reader's position, the group's committed offset, the tables, and the offsets
whose handling failed. *)
Record cstate : Type := mkC { c_pos : nat; c_committed : nat; c_db : db; c_failed : list nat }.

(** The wait ends when the timer fires or the context ends; the result tells which. *)
(* [go] kafka.go:132-141 wait *)
Definition wait (cancelled : bool) : bool := negb cancelled.

(** One turn; the flag tells whether the loop goes on. *)
(* [go] kafka.go:101-130 Broker.Consume *)
Definition consume_one (topic : string) (partition : list Event) (t : turn) (c : cstate) : cstate * bool :=
  let d := tn_others t (c_db c) in
  match tn_fetch t with
  | Some cancelled =>
      (mkC (c_pos c) (c_committed c) d (c_failed c), if cancelled then false else wait (tn_cancelled t))
  | None =>
      match partition !! c_pos c with
      | None => (mkC (c_pos c) (c_committed c) d (c_failed c), true)
      | Some event =>
          match handle topic (tn_id1 t) (tn_id2 t) (tn_now t) (tn_fate t) event d with
          | (Err _, d') => (mkC (S (c_pos c)) (c_committed c) d' (c_pos c :: c_failed c), wait (tn_cancelled t))
          | (Ok _, d') =>
              (mkC (S (c_pos c)) (if tn_committed t then S (c_pos c) else c_committed c) d' (c_failed c), true)
          end
      end
  end.

Fixpoint consume_loop (topic : string) (partition : list Event) (ts : list turn) (c : cstate) : cstate :=
  match ts with
  | [] => c
  | t :: ts => let '(c', go_on) := consume_one topic partition t c in
               if go_on then consume_loop topic partition ts c' else c'
  end.

(** A reader starts at the offset committed by its group, or at the first one. *)
(* [go] kafka.go:84-99 Broker.Consume *)
Definition Consume (topic : string) (partition : list Event) (ts : list turn) (c : cstate) : cstate :=
  consume_loop topic partition ts (mkC (c_committed c) (c_committed c) (c_db c) (c_failed c)).

(** The life of a group: sessions of the process one after the other, each cut off
at any point. *)
Definition group_life (topic : string) (partition : list Event) (sessions : list (list turn)) (c : cstate) : cstate :=
  foldl (fun c ts => Consume topic partition ts c) c sessions.

Definition group_of (topic : string) : string := if bool_decide (topic = TopicEngagement) then projector else writer.

(** ** The relay's ticks *)

(** A batch at once and then one at every tick, until the context ends; a failed
batch is only logged. *)
(* [go] kafka.go:199-213 Runtime.runOutbox *)
Fixpoint runOutbox (order : list (string * out_row) → list (string * out_row)) (publish : Event → bool) (worker : string)
    (limit : nat) (ticks : list Z) (d : db) (log : list (string * Event)) : db * list (string * Event) :=
  match ticks with
  | [] => (d, log)
  | now :: ticks =>
      let '(d', log', _) := relayBatch order publish now worker limit ∅ d log in
      runOutbox order publish worker limit ticks d' log'
  end.

(** ** HTTP *)

Inductive plog : Type :=
| LogRequest (id method path : string) (duration_ms : Z)
| LogPanic (id : string)
| LogError (operation id : string).

(* [go] http.go:162-167 requestID *)
Definition requestID (ctx : option string) : string := default "unknown" ctx.

(** What a handler does with the id in its context: its answer with the lines it
logs, or a panic; [None] is a panic. *)
Definition phandler : Type := string → option (Z * list plog).

(** [http.TimeoutHandler]: the buffered answer of the handler, its panic, or 503 when
the time is over first. *)
(* [go] http.go:193-197 requestTimeout *)
Definition requestTimeout (timed_out : bool) (h : phandler) : phandler := fun id =>
  if timed_out then Some (503, default [] (snd <$> h id)) else h id.

(* [go] http.go:169-179 HTTPServer.requestLog *)
Definition requestLog (header fresh method path : string) (duration_ms : Z) (h : phandler) : option (Z * list plog) :=
  let id := request_id header fresh in
  match h id with
  | Some (code, l) => Some (code, l ++ [LogRequest id method path duration_ms])
  | None => None
  end.

(** The request seen by the recovery has no id in its context. *)
(* [go] http.go:181-191 HTTPServer.recover *)
Definition recover (inner : option (Z * list plog)) : Z * list plog :=
  match inner with
  | Some answer => answer
  | None => (500, [LogPanic (requestID None)])
  end.

(* [go] http.go:36-38 HTTPServer.Router *)
Definition serve (header fresh method path : string) (duration_ms : Z) (timed_out : bool) (h : phandler) : Z * list plog :=
  recover (requestLog header fresh method path duration_ms (requestTimeout timed_out h)).

(* [go] http.go:147-150 HTTPServer.internalError *)
Definition internalError (operation id : string) : Z * list plog := (500, [LogError operation id]).

(* [go] http.go:64-74 HTTPServer.handleReady *)
Definition handleReady (ping : bool) : Z := if negb ping then 503 else 200.

(* [go] http.go:53-62 HTTPServer.handleHome *)
Definition handleHome (renders : bool) : Z := if negb renders then 500 else 200.

(** The reading routes: the store's answer, or its failure. *)
(* [go] http.go:76-83 HTTPServer.handlePosts *)
Definition handlePosts (catalog : list Post) (up : bool) (d : db) (id : string) : Z * list plog * list Post :=
  if negb up then (internalError "list posts" id, []) else ((200, []), ListPosts catalog d).

(* [go] http.go:125-136 HTTPServer.handleNotifications *)
Definition handleNotifications (query : string) (up : bool) (d : db) (id : string) : Z * list plog * list Notification :=
  if negb up then (internalError "list notifications" id, [])
  else ((200, []), ListNotifications (notification_recipient query) d).

(* [go] http.go:138-145 HTTPServer.handlePipeline *)
Definition handlePipeline (up : bool) (d : db) (id : string) : Z * list plog * option PipelineStats :=
  if negb up then (internalError "read pipeline" id, None) else ((200, []), Some (Pipeline d)).

(* [go] http.go:39-51 HTTPServer.Router *)
Definition pulse_routes : list (string * string) :=
  [("GET", "/"); ("GET", "/livez"); ("GET", "/readyz"); ("GET", "/api/posts"); ("POST", "/api/posts/{postID}/likes");
   ("GET", "/api/notifications"); ("GET", "/api/pipeline")].

(** A like as one request: ids, time, what becomes of the transaction, and whether
the client waits for the answer. *)
Record try : Type := mkTry {
  y_likeID : string; y_eventID : string; y_now : Z; y_header : string; y_fresh : string; y_fate : fate; y_timed_out : bool }.

Definition like_request (post actor : string) (t : try) (d : db) : Z * db :=
  let id := request_id (y_header t) (y_fresh t) in
  let '(code, _, d') := handleLike (Some actor) post
    (fun p a d => in_tx (y_fate t) (RecordLike (y_likeID t) (y_eventID t) (y_now t) p a id d) d) d in
  ((serve (y_header t) (y_fresh t) "POST" post 0 (y_timed_out t) (fun _ => Some (code, []))).1, d').

Fixpoint like_retries (post actor : string) (ts : list try) (d : db) : list Z * db :=
  match ts with
  | [] => ([], d)
  | t :: ts => let '(code, d1) := like_request post actor t d in
               let '(codes, d2) := like_retries post actor ts d1 in (code :: codes, d2)
  end.

(** ** The process *)

(* [base] railcache/cmd/socialpulse *)

Inductive action : Type :=
| AOpenStore | ACloseStore | ACloseBroker | AStartLoops | ACancel | AListen | AShutdown | AWaitLoops.

(** How the surroundings answer: configuration, store, template; what ends the
service, a signal or a failed listener; whether the server shuts down in time and
the three loops end in time. *)
Record surroundings : Type := mkSur {
  su_config : bool; su_store : bool; su_template : bool; su_signal : bool; su_shutdown : bool; su_loops : bool }.

(* [go] main.go:25-84 run *)
Definition run (s : surroundings) : list action * bool :=
  if negb (su_config s) then ([], false)
  else if negb (su_store s) then ([ACancel], false)
  else
    let opened := [AOpenStore; AStartLoops] in
    let defers := [ACloseBroker; ACloseStore; ACancel] in
    if negb (su_template s) then (opened ++ defers, false)
    else if negb (su_signal s) then (opened ++ [AListen] ++ defers, false)
    else if negb (su_shutdown s) then (opened ++ [AListen; AShutdown] ++ defers, false)
    else (opened ++ [AListen; AShutdown; ACancel; AWaitLoops] ++ defers, su_loops s).

(* [go] main.go:17-23 main *)
Definition exit_code (s : surroundings) : Z := if (run s).2 then 0 else 1.

(** ** Lemmas *)

(** *** Writers *)

(** Every writer belongs to the topic it was created for. *)
Definition broker_ok (b : Broker) : Prop :=
  NoDup (br_made b) ∧ ∀ topic w, br_writers b !! topic = Some w ↔ br_made b !! w = Some topic.

Lemma broker_writer_ok topic b w b' : broker_ok b → broker_writer topic b = (w, b') →
  broker_ok b' ∧ br_writers b' !! topic = Some w ∧ br_writers b ⊆ br_writers b'.
Proof.
  intros [Hnd Hw]. unfold broker_writer. destruct (br_writers b !! topic) as [v|] eqn:E; intros [= <- <-]; [done|].
  assert (topic ∉ br_made b) as Hni.
  { intros [i Hi]%list_elem_of_lookup_1. apply Hw in Hi. congruence. }
  split_and!; simpl; [split| |].
  - apply NoDup_app. split_and!; [done|set_solver|apply NoDup_singleton].
  - intros t v. simpl. rewrite lookup_insert, lookup_app. case_decide as Ht.
    + subst t. split.
      * intros [= <-]. rewrite lookup_ge_None_2 by done. by rewrite Nat.sub_diag.
      * destruct (br_made b !! v) as [x|] eqn:Ev.
        -- intros [= ->]. exfalso. apply Hni. by eapply list_elem_of_lookup_2.
        -- apply lookup_ge_None in Ev. intros Hl. apply list_lookup_singleton_Some in Hl as [Hl _]. f_equal. lia.
    + rewrite Hw. destruct (br_made b !! v) as [x|] eqn:Ev; [done|]. split; [done|].
      intros [_ ->]%list_lookup_singleton_Some. done.
  - by rewrite lookup_insert_eq.
  - by apply insert_subseteq.
Qed.

Lemma Publish_ok acked topic key event b r b' : broker_ok b → Publish acked topic key event b = (r, b') →
  broker_ok b' ∧ br_writers b ⊆ br_writers b' ∧
  ∀ m, r = Ok m → br_writers b' !! topic = Some (km_writer m) ∧ km_key m = key ∧ km_value m = event.
Proof.
  intros Hb. unfold Publish. destruct (negb (DecodeEvent event)); [by intros [= <- <-]|].
  destruct (broker_writer topic b) as [w b1] eqn:E. destruct (broker_writer_ok _ _ _ _ Hb E) as (H1 & H2 & H3).
  destruct (negb acked); intros [= <- <-]; (split_and!; [done|done|]); [done|]. by intros m [= <-].
Qed.

Lemma publish_all_ok calls b l b' : broker_ok b → publish_all calls b = (l, b') →
  broker_ok b' ∧ br_writers b ⊆ br_writers b' ∧
  ∀ topic m, (topic, m) ∈ l → br_writers b' !! topic = Some (km_writer m) ∧ km_key m = e_Key (km_value m).
Proof.
  revert b l b'. induction calls as [|[[acked topic] event] calls IH]; intros b l b' Hb; simpl.
  - intros [= <- <-]. split_and!; [done|done|]. by intros t m ?%not_elem_of_nil.
  - destruct (Publish acked topic (e_Key event) event b) as [r b1] eqn:E1.
    destruct (publish_all calls b1) as [l1 b2] eqn:E2. destruct (Publish_ok _ _ _ _ _ _ _ Hb E1) as (H1 & H2 & H3).
    destruct (IH _ _ _ H1 E2) as (H4 & H5 & H6). intros [= <- <-].
    split_and!; [done|by etrans|]. intros t m Hin. destruct r as [m'|]; [|by apply H6].
    apply elem_of_cons in Hin as [[= -> ->]|Hin]; [|by apply H6].
    destruct (H3 m' eq_refl) as (Hw & Hk & Hv). split; [by eapply lookup_weaken|]. by rewrite Hk, Hv.
Qed.

(** *** Consumers *)

Lemma tx_processed {A} (body : result serr (A * db)) f d r d' g id :
  (∀ a d1, body = Ok (a, d1) → processed_events d ⊆ processed_events d1 ∧ (g, id) ∈ processed_events d1) →
  in_tx f body d = (r, d') →
  processed_events d ⊆ processed_events d' ∧ (∀ a, r = Ok a → (g, id) ∈ processed_events d').
Proof.
  intros Hb. unfold in_tx. destruct body as [[a d1]|e]; [|by intros [= <- <-]].
  destruct (Hb a d1 eq_refl) as [H1 H2]. destruct f; intros [= <- <-]; done.
Qed.

Lemma insertOutbox_processed event topic d d' : insertOutbox event topic d = Ok d' →
  processed_events d' = processed_events d.
Proof. unfold insertOutbox. destruct (outbox_events d !! e_ID event); [done|]. by intros [= <-]. Qed.

Lemma insert_notification_processed now r d d' : insert_notification now r d = Ok d' →
  processed_events d' = processed_events d.
Proof.
  unfold insert_notification. destruct (notifications d !! _); [by intros [= <-]|].
  destruct (existsb _ _); [done|]. by intros [= <-].
Qed.

Lemma ApplyEngagement_processed nid eventID now event d a d' : ApplyEngagement nid eventID now event d = Ok (a, d') →
  processed_events d ⊆ processed_events d' ∧ (projector, e_ID event) ∈ processed_events d'.
Proof.
  unfold ApplyEngagement. case_bool_decide; [by intros [= <- <-]|]. case_match; [|intros [= <- <-]; simpl; set_solver].
  destruct (insertOutbox _ _ _) as [d2|] eqn:E; [|done]. intros [= <- <-].
  rewrite (insertOutbox_processed _ _ _ _ E). simpl. set_solver.
Qed.

Lemma PersistNotification_processed eventID now event d a d' : PersistNotification eventID now event d = Ok (a, d') →
  processed_events d ⊆ processed_events d' ∧ (writer, e_ID event) ∈ processed_events d'.
Proof.
  unfold PersistNotification. case_bool_decide; [by intros [= <- <-]|].
  destruct (insert_notification _ _ _) as [d1|] eqn:E1; [|done]. simpl.
  destruct (insertOutbox _ _ _) as [d2|] eqn:E2; [|done]. intros [= <- <-].
  rewrite (insertOutbox_processed _ _ _ _ E2), (insert_notification_processed _ _ _ _ E1). simpl. set_solver.
Qed.

Lemma handle_processed topic id1 id2 now f event d r d' : handle topic id1 id2 now f event d = (r, d') →
  processed_events d ⊆ processed_events d' ∧ (∀ a, r = Ok a → (group_of topic, e_ID event) ∈ processed_events d').
Proof.
  unfold handle, group_of. destruct (negb (DecodeEvent event)); [by intros [= <- <-]|].
  case_bool_decide.
  - destruct (negb (bool_decide (e_Type event = EventEngagementRecorded))); [by intros [= <- <-]|].
    apply tx_processed. intros. by eapply ApplyEngagement_processed.
  - destruct (negb (bool_decide (e_Type event = EventNotificationRequested))); [by intros [= <- <-]|].
    apply tx_processed. intros. by eapply PersistNotification_processed.
Qed.

(** A message that is in the inbox of its group changes nothing. *)
Lemma handle_again topic id1 id2 now f event d :
  (group_of topic, e_ID event) ∈ processed_events d → (handle topic id1 id2 now f event d).2 = d.
Proof.
  unfold handle, group_of. destruct (negb (DecodeEvent event)); [done|]. case_bool_decide; intros Hin.
  - destruct (negb _); [done|]. unfold ApplyEngagement. rewrite bool_decide_eq_true_2 by done. by destruct f.
  - destruct (negb _); [done|]. unfold PersistNotification. rewrite bool_decide_eq_true_2 by done. by destruct f.
Qed.

(** The other processes keep the inbox. *)
Definition keeps_inbox (t : turn) : Prop := ∀ d, processed_events d ⊆ processed_events (tn_others t d).

Section group.
Context (topic : string) (partition : list Event).

(** Whatever is behind the reader was handled, or its handling failed. *)
Definition behind (c : cstate) (n : nat) : Prop := ∀ i e, (i < n)%nat → partition !! i = Some e →
  (group_of topic, e_ID e) ∈ processed_events (c_db c) ∨ i ∈ c_failed c.

Definition group_ok (c : cstate) : Prop :=
  (c_committed c ≤ c_pos c ≤ length partition)%nat ∧ behind c (c_pos c).

Lemma consume_one_ok t c : keeps_inbox t → group_ok c → group_ok (consume_one topic partition t c).1.
Proof.
  intros Hk [Hc Hb]. unfold consume_one. specialize (Hk (c_db c)).
  assert (behind (mkC (c_pos c) (c_committed c) (tn_others t (c_db c)) (c_failed c)) (c_pos c)) as Hb'.
  { intros i e Hi He. simpl. destruct (Hb i e Hi He); [left; set_solver|by right]. }
  destruct (tn_fetch t) as [canc|]; [by split|]. destruct (partition !! c_pos c) as [e|] eqn:Ep; [|by split].
  destruct (handle _ _ _ _ _ _ _) as [r d'] eqn:E. apply handle_processed in E as [Hg Hd].
  pose proof (lookup_lt_Some _ _ _ Ep). destruct r as [a|]; simpl; (split; [simpl; repeat case_match; lia|]);
    intros i e' Hi He; simpl in *; (destruct (decide (i = c_pos c)) as [->|Hne];
      [simplify_eq|destruct (Hb' i e' ltac:(lia) He) as [Hin|Hin]; simpl in Hin; set_solver]).
  - left. by eapply Hd.
  - right. by left.
Qed.

Lemma consume_loop_ok ts c : Forall keeps_inbox ts → group_ok c → group_ok (consume_loop topic partition ts c).
Proof.
  intros Hk. revert c. induction Hk as [|t ts Ht Hk IH]; intros c Hc; [done|]. simpl.
  pose proof (consume_one_ok t c Ht Hc) as H1. destruct (consume_one topic partition t c) as [c' []]; [by apply IH|done].
Qed.

Lemma Consume_ok ts c : Forall keeps_inbox ts → group_ok c → group_ok (Consume topic partition ts c).
Proof.
  intros Hk [Hc Hb]. apply consume_loop_ok; [done|]. split; simpl; [lia|]. intros i e Hi. apply Hb. lia.
Qed.

Lemma group_life_ok sessions c : Forall (Forall keeps_inbox) sessions → group_ok c →
  group_ok (group_life topic partition sessions c).
Proof.
  intros Hk. revert c. induction Hk as [|ts sessions Ht Hk IH]; intros c Hc; [done|]. by apply IH, Consume_ok.
Qed.
End group.

(** *** Retried likes *)

Definition like_done (post actor : string) (d : db) : Prop := is_Some (post_likes d !! (post, TrimSpace actor)).

(** What the transaction of a recorded like leaves: the row of the like under its
new id, and in the outbox, unpublished and unleased, the event that names the like,
the post, its author and the actor.  Nothing else changes. *)
Definition recorded (post actor : string) (t : try) (d d' : db) : Prop :=
  ∃ author, posts d !! post = Some author ∧ outbox_events d !! y_eventID t = None ∧
    d' = mkDb (posts d)
           (<[(post, TrimSpace actor) := mkLikeRow (y_likeID t) post (TrimSpace actor)]> (post_likes d))
           (post_counters d) (processed_events d) (notifications d)
           (<[y_eventID t :=
                mkOut "instagram.engagement.v1"
                  (mkEvent (y_eventID t) "instagram.engagement.recorded.v1" 1 (y_now t) post
                     (request_id (y_header t) (y_fresh t))
                     (PLike (mkLike (y_likeID t) post author (TrimSpace actor))))
                  None None None 0 None]> (outbox_events d)).

Lemma serve_code header fresh method path ms timed_out code :
  (serve header fresh method path ms timed_out (fun _ => Some (code, []))).1 = if timed_out then 503 else code.
Proof. unfold serve, requestLog, requestTimeout. by destruct timed_out. Qed.

Lemma RecordLike_cases likeID eventID now post a corr d b d' :
  RecordLike likeID eventID now post a corr d = Ok (b, d') →
  (b = false ∧ d' = d ∧ is_Some (post_likes d !! (post, a))) ∨
  (b = true ∧ post_likes d !! (post, a) = None ∧ is_Some (post_likes d' !! (post, a))).
Proof.
  unfold RecordLike. destruct (posts d !! post); [|done]. destruct (post_likes d !! (post, a)) eqn:E.
  - intros [= <- <-]. left. eauto.
  - destruct (existsb _ _); [done|]. unfold insertOutbox. simpl. destruct (outbox_events d !! eventID); [done|].
    intros [= <- <-]. right. simpl. rewrite lookup_insert_eq. eauto.
Qed.

Lemma RecordLike_recorded post actor t d d' :
  RecordLike (y_likeID t) (y_eventID t) (y_now t) post (TrimSpace actor) (request_id (y_header t) (y_fresh t)) d
    = Ok (true, d') → recorded post actor t d d'.
Proof.
  unfold RecordLike, recorded. destruct (posts d !! post) as [author|]; [|done].
  destruct (post_likes d !! _); [done|]. destruct (existsb _ _); [done|]. unfold insertOutbox. simpl.
  destruct (outbox_events d !! y_eventID t); [done|]. intros [= <-]. by exists author.
Qed.

Lemma like_request_eq post actor t d :
  like_request post actor t d =
  let '(code, _, d') := handleLike (Some actor) post
    (fun p a d => in_tx (y_fate t)
       (RecordLike (y_likeID t) (y_eventID t) (y_now t) p a (request_id (y_header t) (y_fresh t)) d) d) d in
  (if y_timed_out t then 503 else code, d').
Proof. unfold like_request. destruct (handleLike _ _ _ _) as [[code b] d']. by rewrite serve_code. Qed.

(** A try leaves the tables alone, or records the like. *)
Lemma like_request_cases post actor t d code d1 : like_request post actor t d = (code, d1) →
  (d1 = d ∧ code ≠ 202 ∧ (code = 200 → like_done post actor d)) ∨
  (¬ like_done post actor d ∧ recorded post actor t d d1 ∧ like_done post actor d1 ∧ code ≠ 200).
Proof.
  rewrite like_request_eq. unfold handleLike. set (a := TrimSpace actor).
  assert (∀ c, c ≠ 200 → c ≠ 202 → (if y_timed_out t then 503 else c) ≠ 202 ∧ (if y_timed_out t then 503 else c) ≠ 200) as Hc.
  { intros c. destruct (y_timed_out t); lia. }
  destruct (_ || _); [intros [= <- <-]; left; split_and!; [done|apply Hc; lia|]; destruct (y_timed_out t); lia|].
  destruct (_ || _); [intros [= <- <-]; left; split_and!; [done|apply Hc; lia|]; destruct (y_timed_out t); lia|].
  destruct (RecordLike _ _ _ _ _ _ _) as [[b d']|e] eqn:E; simpl.
  - pose proof (RecordLike_cases _ _ _ _ _ _ _ _ _ E) as [(-> & -> & Hd)|(-> & Hn & Hd)].
    + destruct (y_fate t), (y_timed_out t); intros [= <- <-]; left; (split_and!; [done|done|]); intros; done.
    + assert (¬ like_done post actor d) as Hnd by (unfold like_done; fold a; rewrite Hn; by intros [??]).
      destruct (y_fate t); intros [= <- <-].
      * right. split_and!; [done|by apply RecordLike_recorded|exact Hd|]. destruct (y_timed_out t); lia.
      * left. split_and!; [done| |]; destruct (y_timed_out t); done.
      * right. split_and!; [done|by apply RecordLike_recorded|exact Hd|]. destruct (y_timed_out t); lia.
  - destruct e; intros [= <- <-]; left; (split_and!; [done| |]); destruct (y_timed_out t); done.
Qed.

(** *** The relay *)

Definition pending (d : db) : gmap string out_row := filter (fun p => o_published p.2 = None) (outbox_events d).

Section drain.
Context (order : list (string * out_row) → list (string * out_row)).
Context (order_perm : ∀ l, order l ≡ₚ l).
Context (publish : Event → bool) (w : string) (limit : nat).

Definition publishable (d : db) : Prop :=
  ∀ id r, outbox_events d !! id = Some r → DecodeEvent (o_event r) = true ∧ publish (o_event r) = true.

Definition unleased (now : Z) (d : db) : Prop :=
  ∀ id r, outbox_events d !! id = Some r → o_published r = None → claimable now r = true.

Lemma ready_pending now d : unleased now d → length (ready now d) = size (pending d).
Proof.
  intros Hu. rewrite <- (size_dom (D := gset string) (pending d)), <- (length_fmap fst (ready now d)).
  rewrite <- (size_list_to_set (C := gset string)).
  - f_equal. apply set_eq. intros id. rewrite elem_of_list_to_set, elem_of_dom, list_elem_of_fmap. split.
    + intros ([k r] & -> & [Hc Hin%elem_of_map_to_list]%list_elem_of_filter). exists r. apply map_lookup_filter_Some.
      split; [done|]. simpl in *. unfold claimable in Hc. apply andb_prop in Hc as [Hc _]. by apply bool_decide_eq_true in Hc.
    + intros [r [Hr Hp]%map_lookup_filter_Some]. exists (id, r). split; [done|]. apply list_elem_of_filter.
      split; [by eapply Hu|]. by apply elem_of_map_to_list.
  - apply NoDup_fmap_2_strong; [|apply NoDup_filter, NoDup_map_to_list].
    intros [k r] [k' r'] [_ H1%elem_of_map_to_list]%list_elem_of_filter [_ H2%elem_of_map_to_list]%list_elem_of_filter.
    simpl. intros <-. congruence.
Qed.

(** What a batch does to each row. *)
Lemma relay_batch_rows now d log d' log' ok : publishable d →
  relayBatch order publish now w limit ∅ d log = (d', log', ok) →
  let ids := (claim_rows order now limit ∅ d).*1 in
  ok = true ∧
  (∀ id, if decide (id ∈ ids) then o_published <$> outbox_events d' !! id = Some (Some now)
         else outbox_events d' !! id = outbox_events d !! id) ∧
  log' = log ++ omap (fun id => (fun r => (o_topic r, o_event r)) <$> outbox_events d !! id) ids.
Proof.
  intros Hpub. unfold relayBatch. destruct (ClaimOutbox order now w limit ∅ d) as [ids d1] eqn:E.
  pose proof (fun k => ClaimOutbox_row order order_perm now w limit ∅ d ids d1 k E) as Hrow.
  assert (ids = (claim_rows order now limit ∅ d).*1) as <- by (by injection E as <- _).
  destruct (relay_loop_publishes publish now w ids d1 log) as (d2 & He & Hall).
  { injection E as <- _. by apply claim_rows_nodup. }
  { intros id Hid. destruct (ClaimOutbox_ids order order_perm _ _ _ _ _ _ _ _ E Hid) as (r & Hr & _).
    specialize (Hrow id). rewrite decide_True, Hr in Hrow by done. simpl in Hrow. eexists. split; [exact Hrow|].
    split; [done|]. exact (Hpub id r Hr). }
  rewrite He. intros [= <- <- <-]. split_and!; [done| |].
  - intros id. specialize (Hall id). case_decide; [done|]. by rewrite Hall, Hrow, decide_False.
  - f_equal. apply list_omap_ext. apply Forall_Forall2_diag. apply Forall_forall. intros k Hk.
    rewrite Hrow, decide_True by done. by destruct (outbox_events d !! k).
Qed.

Lemma relay_batch_pending now d log d' log' ok : publishable d → unleased now d →
  relayBatch order publish now w limit ∅ d log = (d', log', ok) →
  size (pending d') = (size (pending d) - limit)%nat ∧
  (∀ id r, outbox_events d' !! id = Some r → o_published r = None → outbox_events d !! id = Some r) ∧
  (∀ te, te ∈ log → te ∈ log') ∧
  (∀ id r, pending d !! id = Some r → pending d' !! id = Some r ∨ (o_topic r, o_event r) ∈ log').
Proof.
  intros Hpub Hu E. destruct (relay_batch_rows _ _ _ _ _ _ Hpub E) as (_ & Hrow & ->).
  set (ids := (claim_rows order now limit ∅ d).*1) in *.
  assert (length ids = (size (pending d) `min` limit)%nat) as Hlen.
  { unfold ids, claim_rows. rewrite length_fmap, length_take, (Permutation_length (order_perm _)).
    rewrite filter_all_in by set_solver. rewrite (ready_pending now d Hu). lia. }
  assert (∀ id, id ∈ ids → is_Some (pending d !! id)) as Hids.
  { intros id Hid. apply list_elem_of_fmap in Hid as ([k r] & -> & (Hr & Hc & _)%claim_rows_in); [|done].
    exists r. apply map_lookup_filter_Some. split; [done|]. simpl in *. unfold claimable in Hc.
    apply andb_prop in Hc as [Hc _]. by apply bool_decide_eq_true in Hc. }
  assert (dom (pending d') = dom (pending d) ∖ (list_to_set ids : gset string)) as Hdom.
  { apply set_eq. intros id. rewrite elem_of_difference, elem_of_list_to_set, !elem_of_dom. unfold pending, is_Some.
    setoid_rewrite map_lookup_filter_Some. specialize (Hrow id). case_decide as Hin.
    - split; [intros (r & Hr & Hp)|tauto]. simpl in Hp. rewrite Hr in Hrow. simpl in Hrow. congruence.
    - rewrite Hrow. naive_solver. }
  split_and!.
  - rewrite <- (size_dom (D := gset string) (pending d')), Hdom, size_difference.
    + rewrite size_dom, size_list_to_set by (by apply claim_rows_nodup). lia.
    + intros id Hid%elem_of_list_to_set. by apply elem_of_dom, Hids.
  - intros id r Hr Hp. specialize (Hrow id). case_decide; [|congruence]. rewrite Hr in Hrow. simpl in Hrow. congruence.
  - intros te Hte. apply elem_of_app. by left.
  - intros id r [Hr Hp]%map_lookup_filter_Some. specialize (Hrow id). case_decide as Hin.
    + right. apply elem_of_app. right. apply list_elem_of_omap. exists id. by rewrite Hr.
    + left. apply map_lookup_filter_Some. by rewrite Hrow.
Qed.

Lemma relay_batch_log now d log d' log' ok te :
  relayBatch order publish now w limit ∅ d log = (d', log', ok) → te ∈ log → te ∈ log'.
Proof.
  unfold relayBatch. destruct (ClaimOutbox order now w limit ∅ d) as [ids d1]. clear d. revert d1 log.
  induction ids as [|id ids IH]; intros d1 log; simpl; [by intros [= _ <- _]|].
  destruct (outbox_events d1 !! id); [|by intros [= _ <- _]]. destruct (_ && _); [|by intros [= _ <- _]].
  intros E Hte. eapply IH; [exact E|]. apply elem_of_app. by left.
Qed.

Lemma publishable_step now d log d' log' ok : publishable d →
  relayBatch order publish now w limit ∅ d log = (d', log', ok) → publishable d'.
Proof.
  intros Hpub E. unfold relayBatch in E.
  assert (∀ ids d log, ev (relay_loop publish now w ids d log).1.1 = ev d) as Hev.
  { clear. induction ids as [|id ids IH]; intros d log; [done|]. simpl. destruct (outbox_events d !! id); [|done].
    destruct (_ && _); [rewrite IH|]; by apply update_locked_ev. }
  destruct (ClaimOutbox order now w limit ∅ d) as [ids d1] eqn:EC.
  destruct (ClaimOutbox_inv order order_perm _ _ _ _ _ _ _ EC) as [He _].
  specialize (Hev ids d1 log). rewrite E in Hev. simpl in Hev. intros id r Hr.
  apply ev_row in Hr. rewrite Hev, He in Hr. unfold ev in Hr. rewrite lookup_fmap in Hr.
  destruct (outbox_events d !! id) as [r0|] eqn:E0; [|done]. simpl in Hr. injection Hr as _ <-. by eapply Hpub.
Qed.
End drain.

(** ** Properties *)

(** Relays that share the broker use one writer per topic, whatever they publish
and whichever writes fail: no topic gets a second writer, and all acknowledged
messages of a topic, with the key of their event, go through that one writer. *)
Theorem Broker_one_writer (calls : list (bool * string * Event)) :
  let '(l, b) := publish_all calls NewBroker in
  NoDup (br_made b) ∧
  (∀ topic m, (topic, m) ∈ l → br_made b !! km_writer m = Some topic ∧ km_key m = e_Key (km_value m)) ∧
  (∀ topic m m', (topic, m) ∈ l → (topic, m') ∈ l → km_writer m = km_writer m').
Proof.
  destruct (publish_all calls NewBroker) as [l b] eqn:E.
  assert (broker_ok NewBroker) as H0 by (split; [constructor|]; intros t v; simpl; by rewrite lookup_empty, lookup_nil).
  destruct (publish_all_ok _ _ _ _ H0 E) as ((H1 & H2) & _ & H3). split_and!; [done| |].
  - intros t m Hm. destruct (H3 t m Hm). split; [by apply H2|done].
  - intros t m m' Hm Hm'. destruct (H3 t m Hm), (H3 t m' Hm'). congruence.
Qed.

(** A committed offset means that everything below it is in the inbox of the
group, or that its handling failed once and a later commit went past it; this
holds over any number of restarts, failed fetches, lost commits and interleavings
with other processes, and a message that is delivered again after it reached the
inbox changes nothing. *)
Theorem Consume_commits (topic : string) (partition : list Event) (sessions : list (list turn)) (d0 : db) :
  Forall (Forall keeps_inbox) sessions →
  let c := group_life topic partition sessions (mkC 0 0 d0 []) in
  (c_committed c ≤ length partition)%nat ∧
  ∀ i e, (i < c_committed c)%nat → partition !! i = Some e →
    i ∈ c_failed c ∨
    ((group_of topic, e_ID e) ∈ processed_events (c_db c) ∧
     ∀ id1 id2 now f, (handle topic id1 id2 now f e (c_db c)).2 = c_db c).
Proof.
  intros Hk. destruct (group_life_ok topic partition sessions (mkC 0 0 d0 []) Hk) as [Hc Hb].
  { split; simpl; [lia|]. intros i e Hi. lia. }
  simpl. split; [lia|]. intros i e Hi He. destruct (Hb i e ltac:(lia) He) as [Hin|Hin]; [right|by left].
  split; [done|]. intros. by apply handle_again.
Qed.

(** C27: A like that is sent again and again, because the client sees failures,
timeouts or nothing, is recorded once.  Either no try changes the tables, or exactly
one does, and its transaction adds exactly two rows: the like, and the unpublished
outbox event that names the like, the post, its author and the actor.  Only that
try may be answered 202, and 200 comes only after it, or for a like that was there
before. *)
Theorem like_retries_once (post actor : string) (ts : list try) (d d' : db) (codes : list Z) :
  like_retries post actor ts d = (codes, d') →
  (d' = d ∧ 202 ∉ codes ∧ (200 ∈ codes → like_done post actor d)) ∨
  (∃ k t, ts !! k = Some t ∧ ¬ like_done post actor d ∧ recorded post actor t d d' ∧ like_done post actor d' ∧
     ∀ i code, codes !! i = Some code → (code = 202 → i = k) ∧ (code = 200 → (k < i)%nat)).
Proof.
  revert d codes. induction ts as [|t ts IH]; intros d codes; simpl.
  - intros [= <- <-]. left. split_and!; [done|apply not_elem_of_nil|by intros ?%not_elem_of_nil].
  - destruct (like_request post actor t d) as [code d1] eqn:E1. destruct (like_retries post actor ts d1) as [cs d2] eqn:E2.
    intros [= <- <-]. apply like_request_cases in E1 as [(-> & Hne & H200)|(Hnd & Hrec & Hdone & Hne)].
    + destruct (IH _ _ E2) as [(-> & Hn & Hl)|(k & t' & Ht & Hnd & Hrec & Hdone & Hcodes)].
      * left. split_and!; [done|by apply not_elem_of_cons|]. intros [Hc|Hc]%elem_of_cons; auto.
      * right. exists (S k), t'. split_and!; try done. intros [|i] c; simpl.
        -- intros [= <-]. split; [done|]. intros ?. exfalso. auto.
        -- intros Hc. destruct (Hcodes i c Hc) as [H1 H2]. split; [intros; f_equal; auto|intros; pose proof (H2 H); lia].
    + destruct (IH _ _ E2) as [(-> & Hn & Hl)|(k & t' & _ & Hc & _)]; [|done].
      right. exists 0%nat, t. split_and!; try done. intros [|i] c; simpl.
      * intros [= <-]. done.
      * intros Hc. split; [intros ->; exfalso; by eapply Hn, list_elem_of_lookup_2|lia].
Qed.

(** C39: Once the broker acknowledges again and the leases of relays that died have
run out, the outbox drains: after as many ticks as the waiting events fill
batches, no event waits, and every event that waited is in the log. *)
Theorem relay_drains (order : list (string * out_row) → list (string * out_row)) (publish : Event → bool) (w : string)
    (limit : nat) (ticks : list Z) (d d' : db) (log log' : list (string * Event)) :
  (∀ l, order l ≡ₚ l) → publishable publish d → Forall (fun now => unleased now d) ticks →
  (size (pending d) ≤ limit * length ticks)%nat →
  runOutbox order publish w limit ticks d log = (d', log') →
  pending d' = ∅ ∧
  ∀ id r, outbox_events d !! id = Some r → o_published r = None → (o_topic r, o_event r) ∈ log'.
Proof.
  intros Hord. revert d log. induction ticks as [|now ticks IH]; intros d log Hpub Hu Hs; simpl.
  - intros [= <- <-]. rewrite Nat.mul_0_r in Hs. assert (pending d = ∅) as He by (apply map_size_empty_inv; lia).
    split; [done|]. intros id r Hr Hp. exfalso.
    assert (pending d !! id = Some r) as Hx by (by apply map_lookup_filter_Some). by rewrite He in Hx.
  - apply Forall_cons in Hu as [Hnow Hu].
    destruct (relayBatch order publish now w limit ∅ d log) as [[d1 log1] ok] eqn:E. intros Hrun.
    destruct (relay_batch_pending order Hord _ _ _ _ _ _ _ _ _ Hpub Hnow E) as (Hsz & Hrows & Hlog & Hdone).
    assert (∀ te, te ∈ log1 → te ∈ log') as Hgrow.
    { clear -Hrun. revert d1 log1 Hrun. induction ticks as [|t ticks IH]; intros d1 log1; simpl; [by intros [= <- <-]|].
      destruct (relayBatch order publish t w limit ∅ d1 log1) as [[d2 log2] ok] eqn:E. intros Hrun te Hte.
      eapply IH; [exact Hrun|]. eapply relay_batch_log; eauto. }
    destruct (IH d1 log1) as [Hempty Hin]; [by eapply publishable_step| | |done|].
    + eapply Forall_impl; [exact Hu|]. intros t Ht id r Hr Hp. by eapply Ht, Hp; apply Hrows.
    + simpl in Hs. lia.
    + split; [done|]. intros id r Hr Hp. destruct (Hdone id r) as [Hpend|?]; [by apply map_lookup_filter_Some| |auto].
      apply map_lookup_filter_Some in Hpend as [? _]. by eapply Hin.
Qed.

(** A shutdown that succeeds ends the loops before it closes the clients they use. *)
Theorem pulse_shutdown_ordered (s : surroundings) :
  (run s).2 = true →
  ∃ a b, (run s).1 = a ++ [AShutdown; ACancel; AWaitLoops; ACloseBroker; ACloseStore] ++ b ∧
         ACloseStore ∉ a ∧ ACloseBroker ∉ a.
Proof.
  destruct s as [[] [] [] [] [] []]; simpl; try done. intros _. exists [AOpenStore; AStartLoops; AListen], [ACancel].
  split_and!; [done|set_solver..].
Qed.

Lemma pulse_shutdown_ordered_witness :
  ∃ a b, (run (mkSur true true true true true true)).1 = a ++ [AShutdown; ACancel; AWaitLoops; ACloseBroker; ACloseStore] ++ b ∧
         ACloseStore ∉ a ∧ ACloseBroker ∉ a.
Proof. apply pulse_shutdown_ordered. reflexivity. Defined.

(** When the listener fails, or the server does not shut down in time, the broker and
the pool are closed while the relay and both consumers are still running: neither
the cancellation nor the wait comes first. *)
Theorem pulse_failure_races_close :
  run (mkSur true true true false true true) = ([AOpenStore; AStartLoops; AListen; ACloseBroker; ACloseStore; ACancel], false) ∧
  run (mkSur true true true true false true) =
    ([AOpenStore; AStartLoops; AListen; AShutdown; ACloseBroker; ACloseStore; ACancel], false).
Proof. done. Qed.

(** The recovery is outside of the middleware that assigns the id, so the log line of
a panic has no id, and the request is not logged. *)
Theorem pulse_panic_unknown (header fresh method path : string) (ms : Z) :
  serve header fresh method path ms false (fun _ => None) = (500, [LogPanic "unknown"]).
Proof. done. Qed.

(** ** Concrete instances *)

Module PulseWitness.
Import SocialWitness.

Definition good : turn := mkTurn (fun d => d) None "n1" "e2" 4 Commits false true.
Definition lost : turn := mkTurn (fun d => d) None "n1" "e2" 4 LostReply true true.

(** The transaction commits and its reply is lost; the restarted consumer gets the
message again. *)
Lemma Consume_commits_witness :
  let c := group_life TopicEngagement [e1] [[lost]; [good]] (mkC 0 0 d1 []) in
  c_committed c = 1%nat ∧ (c_committed c ≤ 1)%nat ∧
  (0%nat ∈ c_failed c ∨ ((projector, "e1") ∈ processed_events (c_db c) ∧
     ∀ id1 id2 now f, (handle TopicEngagement id1 id2 now f e1 (c_db c)).2 = c_db c)).
Proof.
  assert (Forall (Forall keeps_inbox) [[lost]; [good]]) as Hk by (repeat constructor; by intros d).
  destruct (Consume_commits TopicEngagement [e1] [[lost]; [good]] d1 Hk) as [H1 H2].
  split; [vm_compute; reflexivity|]. split; [exact H1|]. apply (H2 0%nat e1); [|reflexivity].
  vm_compute. lia.
Defined.

Definition t1 : try := mkTry "l1" "e1" 1 "req" "" LostReply false.
Definition t2 : try := mkTry "l2" "e2" 2 "req" "" Commits true.
Definition t3 : try := mkTry "l3" "e3" 3 "req" "" Commits false.

Lemma like_retries_once_witness :
  let r := like_retries "p" "niko" [t1; t2; t3] d0 in
  r.1 = [500; 503; 200] ∧ size (post_likes r.2) = 1%nat ∧ dom (outbox_events r.2) = {["e1"]} ∧
  ∃ k t, [t1; t2; t3] !! k = Some t ∧ ¬ like_done "p" "niko" d0 ∧ recorded "p" "niko" t d0 r.2 ∧ like_done "p" "niko" r.2 ∧
     ∀ i code, r.1 !! i = Some code → (code = 202 → i = k) ∧ (code = 200 → (k < i)%nat).
Proof.
  split; [vm_compute; reflexivity|]. split; [vm_compute; reflexivity|]. split; [vm_compute; reflexivity|].
  destruct (like_retries_once "p" "niko" [t1; t2; t3] d0 _ _ (surjective_pairing _)) as [[H _]|H]; [|exact H].
  vm_compute in H. discriminate H.
Defined.

Lemma relay_drains_witness :
  size (pending d1) = 1%nat ∧ pending (runOutbox same (fun _ => true) "w" 50 [2] d1 []).1 = ∅ ∧
  ∀ id r, outbox_events d1 !! id = Some r → o_published r = None →
    (o_topic r, o_event r) ∈ (runOutbox same (fun _ => true) "w" 50 [2] d1 []).2.
Proof.
  assert (∀ id r, outbox_events d1 !! id = Some r → r = mkOut TopicEngagement e1 None None None 0 None) as Hr.
  { intros id r. change (outbox_events d1) with (<["e1" := mkOut TopicEngagement e1 None None None 0 None]> (∅ : gmap string out_row)).
    intros [[_ <-]|[_ ?]]%lookup_insert_Some; done. }
  split; [vm_compute; reflexivity|].
  apply (relay_drains same (fun _ => true) "w" 50 [2] d1 _ [] _ same_perm).
  - intros id r ->%Hr. split; reflexivity.
  - constructor; [|constructor]. intros id r ->%Hr _. reflexivity.
  - vm_compute. lia.
  - apply surjective_pairing.
Defined.
End PulseWitness.
