(* ===== verification/Diagnostics.v ===== *)
(** * golangdebugging/diagnostics: incident snapshots

[events.go]: the ring buffer of recent events and the slog handler that feeds it.
[snapshot.go]: the bounded goroutine dump and its grouping.  [http.go]: the
protected endpoint with its window limiter. *)

From Stdlib Require Import ZArith Lia Ascii.
From stdpp Require Import base gmap strings list sorting fin_maps.
From S2P Require Import Prelude GoStrings.

Open Scope Z_scope.

(** ** events.go *)

(* [base] golangdebugging/diagnostics *)

(** A field: what [slogValue] renders, or a nested map. *)
Inductive field : Type := FLeaf (v : string) | FMap (m : list (string * field)).
Notation fields := (list (string * field)).

(* [go] events.go:14-19 Event *)
Record Event : Type := mkEvent { ev_time : option Z; ev_level : Z; ev_message : string; ev_fields : fields }.

(* [go] events.go:23-28 EventBuffer *)
Record EventBuffer : Type := mkEB { eb_events : list Event; eb_next : Z; eb_count : Z }.

Definition zero_event : Event := mkEvent None 0 "" [].

Definition eb_len (b : EventBuffer) : Z := Z.of_nat (length (eb_events b)).

(** [None] is the panic on a capacity that is not positive. *)
(* [go] events.go:31-36 NewEventBuffer *)
Definition NewEventBuffer (capacity : Z) : option EventBuffer :=
  if capacity <=? 0 then None else Some (mkEB (replicate (Z.to_nat capacity) zero_event) 0 0).

(** The event as it is stored; maps are values here, so their copies are equal. *)
(* [go] events.go:40-43 EventBuffer.Add *)
Definition stamp (now : Z) (e : Event) : Event :=
  match ev_time e with None => mkEvent (Some now) (ev_level e) (ev_message e) (ev_fields e) | Some _ => e end.

(* [go] events.go:39-52 EventBuffer.Add *)
Definition Add (now : Z) (event : Event) (b : EventBuffer) : EventBuffer :=
  mkEB (<[Z.to_nat (eb_next b) := stamp now event]> (eb_events b)) ((eb_next b + 1) mod eb_len b)
    (if eb_count b <? eb_len b then eb_count b + 1 else eb_count b).

(* [go] events.go:56-74 EventBuffer.Recent *)
Definition Recent (limit : Z) (b : EventBuffer) : list Event :=
  if (limit <=? 0) || (eb_count b =? 0) then []
  else
    let limit := if eb_count b <? limit then eb_count b else limit in
    let start := (eb_next b - limit + eb_len b) mod eb_len b in
    (fun i => nth (Z.to_nat ((start + Z.of_nat i) mod eb_len b)) (eb_events b) zero_event) <$> seq 0 (Z.to_nat limit).

(** *** The buffer is the end of the log *)

(** The last [n] elements. *)
Definition suffix_of {A} (n : Z) (l : list A) : list A := drop (length l - Z.to_nat n) l.

(** The buffer of capacity [cap] after the events of [log]. *)
Record holds_log (cap : Z) (b : EventBuffer) (log : list Event) : Prop := {
  hl_cap : 0 < cap; hl_len : eb_len b = cap;
  hl_next : eb_next b = Z.of_nat (length log) mod cap;
  hl_count : eb_count b = Z.min (Z.of_nat (length log)) cap;
  hl_at i e : log !! i = Some e → Z.of_nat (length log) - cap ≤ Z.of_nat i →
    eb_events b !! Z.to_nat (Z.of_nat i mod cap) = Some e }.

Lemma new_holds cap b : NewEventBuffer cap = Some b → holds_log cap b [].
Proof.
  unfold NewEventBuffer. destruct (cap <=? 0) eqn:E; [done|]. zbool. intros [= <-]. split; simpl; try done; try lia.
  unfold eb_len. simpl. rewrite length_replicate. lia.
Qed.

Lemma Add_holds cap now e b log : holds_log cap b log → holds_log cap (Add now e b) (log ++ [stamp now e]).
Proof.
  intros [Hc Hl Hn Hk Hat]. pose proof (Z.mod_pos_bound (Z.of_nat (length log)) cap Hc) as Hb.
  split; [done|..]; unfold Add, eb_len in *; simpl.
  - by rewrite length_insert.
  - rewrite Hl, Hn, length_app. simpl. rewrite Zplus_mod_idemp_l. f_equal. lia.
  - rewrite Hl, Hk, length_app. simpl. case_test; zbool; lia.
  - intros i x Hx Hi. rewrite length_app in Hi. simpl in Hi. apply lookup_app_Some in Hx as [Hx|[Hge Hx]].
    + pose proof (lookup_lt_Some _ _ _ Hx) as Hlt. rewrite list_lookup_insert_ne; [by apply Hat; [|lia]|].
      rewrite Hn. intros Heq%Z2Nat.inj; [|lia|apply Z.mod_pos_bound; lia].
      assert ((Z.of_nat (length log) - Z.of_nat i) mod cap = 0) as Hz.
      { rewrite Zminus_mod, Heq, Z.sub_diag. apply Z.mod_0_l. lia. }
      rewrite Z.mod_small in Hz by lia. lia.
    + apply list_lookup_singleton_Some in Hx as [Hi0 <-]. rewrite Hn. replace i with (length log) by lia.
      apply list_lookup_insert_eq. lia.
Qed.

Lemma Recent_holds cap b log limit : holds_log cap b log → Recent limit b = suffix_of (Z.min limit cap) log.
Proof.
  intros [Hc Hl Hn Hk Hat]. unfold Recent, suffix_of. destruct (limit <=? 0) eqn:E1; zbool; simpl.
  { by rewrite drop_ge by lia. }
  destruct (eb_count b =? 0) eqn:E2; zbool.
  { rewrite Hk in E2. destruct log; [done|]. simpl in E2. lia. }
  set (n := Z.of_nat (length log)) in *.
  set (lim := if eb_count b <? limit then eb_count b else limit).
  assert (lim = Z.min limit (Z.min n cap)) as Hlim by (unfold lim; rewrite Hk; case_test; zbool; lia).
  clearbody lim. assert (0 < lim ≤ n ∧ lim ≤ cap) as Hb by lia.
  apply list_eq. intros i. rewrite list_lookup_fmap, lookup_drop.
  destruct (decide (i < Z.to_nat lim)%nat) as [Hi|Hi].
  - rewrite lookup_seq_lt by done. simpl.
    replace (length log - Z.to_nat (limit `min` cap))%nat with (Z.to_nat (n - lim)) by lia.
    destruct (lookup_lt_is_Some_2 log (Z.to_nat (n - lim) + i)) as [x Hx]; [lia|]. rewrite Hx. f_equal.
    apply nth_lookup_Some. rewrite <- (Hat _ _ Hx) by lia. f_equal. f_equal.
    rewrite Hl, Hn, Zplus_mod_idemp_l. pose proof (Z.div_mod n cap ltac:(lia)).
    rewrite <- (Z.mod_add (n mod cap - lim + cap + Z.of_nat i) (n / cap - 1) cap) by lia. f_equal. lia.
  - rewrite lookup_seq_ge by lia. simpl. symmetry. apply lookup_ge_None. lia.
Qed.

(** ** The capturing slog handler *)

Fixpoint get (k : string) (m : fields) : option field :=
  match m with
  | [] => None
  | (k', v) :: m => if String.eqb k' k then Some v else get k m
  end.

(** [m[k] = v]. *)
Fixpoint put (k : string) (v : field) (m : fields) : fields :=
  match m with
  | [] => [(k, v)]
  | (k', v') :: m => if String.eqb k' k then (k, v) :: m else (k', v') :: put k v m
  end.

(** An attribute value after [Resolve]: [SNil] is the value of the zero attribute,
[SLeaf] carries the rendering by [slogValue]. *)
Inductive slog_value : Type := SNil | SLeaf (v : string) | SGroup (l : list (string * slog_value)).

(* [go] events.go:182-203 slogValue *)
Definition slogValue (v : slog_value) : field := FLeaf (match v with SLeaf s => s | _ => "<nil>" end).

(** [f] applied to the map under the groups, which are created on the way. *)
(* [go] events.go:159-170 addAttr *)
Fixpoint in_groups (groups : list string) (f : fields → fields) (current : fields) : fields :=
  match groups with
  | [] => f current
  | g :: groups =>
      if String.eqb g "" then in_groups groups f current
      else let nested := match get g current with Some (FMap m) => m | _ => [] end in
           put g (FMap (in_groups groups f nested)) current
  end.

Definition is_zero_attr (k : string) (v : slog_value) : bool :=
  String.eqb k "" && match v with SNil => true | _ => false end.

(** What [addAttr] does in the map of its groups. *)
(* [go] events.go:171-179 addAttr *)
Fixpoint add_value (k : string) (v : slog_value) (current : fields) : fields :=
  match v with
  | SGroup l =>
      (fix children l current := match l with
       | [] => current
       | (ck, cv) :: l =>
           children l (if is_zero_attr ck cv then current else in_groups [k] (add_value ck cv) current)
       end) l current
  | _ => if String.eqb k "" then current else put k (slogValue v) current
  end.

(* [go] events.go:154-180 addAttr *)
Definition addAttr (m : fields) (groups : list string) (attr : string * slog_value) : fields :=
  if is_zero_attr attr.1 attr.2 then m else in_groups groups (add_value attr.1 attr.2) m.

(** The handler without the one it wraps and the buffer. *)
(* [go] events.go:100-106 capturingHandler *)
Record capturingHandler : Type := mkCH { ch_minimum : Z; ch_attrs : list (string * slog_value); ch_groups : list string }.

Record LogRecord : Type := mkLogRecord {
  lr_time : option Z; lr_level : Z; lr_message : string; lr_attrs : list (string * slog_value) }.

(** The wrapped handler is the list of the records it received. *)
(* [go] events.go:112-130 capturingHandler.Handle *)
Definition Handle (now : Z) (h : capturingHandler) (r : LogRecord) (st : EventBuffer * list LogRecord)
  : EventBuffer * list LogRecord :=
  let '(b, next) := st in
  let b := if ch_minimum h <=? lr_level r then
      let fs := foldl (fun m a => addAttr m (ch_groups h) a) [] (ch_attrs h) in
      let fs := foldl (fun m a => addAttr m (ch_groups h) a) fs (lr_attrs r) in
      Add now (mkEvent (lr_time r) (lr_level r) (lr_message r) fs) b
    else b in
  (b, next ++ [r]).

(* [go] events.go:132-141 capturingHandler.WithAttrs *)
Definition WithAttrs (attrs : list (string * slog_value)) (h : capturingHandler) : capturingHandler :=
  mkCH (ch_minimum h) (ch_attrs h ++ attrs) (ch_groups h).

(* [go] events.go:143-152 capturingHandler.WithGroup *)
Definition WithGroup (name : string) (h : capturingHandler) : capturingHandler :=
  mkCH (ch_minimum h) (ch_attrs h) (ch_groups h ++ [name]).

(** The map under the groups, empty when there is none. *)
Fixpoint submap (groups : list string) (m : fields) : fields :=
  match groups with
  | [] => m
  | g :: groups =>
      if String.eqb g "" then submap groups m
      else submap groups (match get g m with Some (FMap m') => m' | _ => [] end)
  end.

Lemma get_put k v m k' : get k' (put k v m) = if String.eqb k k' then Some v else get k' m.
Proof.
  induction m as [|[x y] m IH]; simpl; [done|]. destruct (String.eqb_spec x k) as [->|Hx]; simpl.
  - by destruct (String.eqb_spec k k').
  - destruct (String.eqb_spec x k') as [->|Hk]; [|done]. by destruct (String.eqb_spec k k').
Qed.

Lemma submap_in_groups groups f m : submap groups (in_groups groups f m) = f (submap groups m).
Proof.
  revert m. induction groups as [|g groups IH]; intros m; simpl; [done|].
  destruct (String.eqb g ""); [done|]. rewrite get_put, String.eqb_refl. apply IH.
Qed.

(** *** The attributes of a record as writes to paths

A leaf attribute writes its value to a path: the names of the groups around it, without
the empty ones, and its key.  Whatever is added under a group makes sure that the
group is there. *)
Inductive write : Type := Write (dir : list string) (k : string) (v : string) | Touch (dir : list string).

Definition names (groups : list string) : list string := filter (fun g => g ≠ "") groups.

Fixpoint attr_writes (dir : list string) (k : string) (v : slog_value) : list write :=
  Touch dir ::
  match v with
  | SGroup l =>
      (fix children l := match l with
       | [] => []
       | (ck, cv) :: l => (if is_zero_attr ck cv then [] else attr_writes (dir ++ names [k]) ck cv) ++ children l
       end) l
  | SLeaf s => if String.eqb k "" then [] else [Write dir k s]
  | SNil => if String.eqb k "" then [] else [Write dir k "<nil>"]
  end.

Definition attrs_writes (groups : list string) (attrs : list (string * slog_value)) : list write :=
  concat ((fun a => if is_zero_attr a.1 a.2 then [] else attr_writes (names groups) a.1 a.2) <$> attrs).

(** A write concerns the paths above and below its own, a group those above it. *)
Definition concerns (q : list string) (w : write) : Prop :=
  match w with
  | Write d k _ => q `prefix_of` d ++ [k] ∨ d ++ [k] `prefix_of` q
  | Touch d => q `prefix_of` d
  end.

#[global] Instance concerns_dec q w : Decision (concerns q w).
Proof. destruct w; simpl; apply _. Defined.

(** What a path shows: the value of the last write that concerns it, if that one was to
the path itself. *)
Definition last_write (q : list string) (ws : list write) : option string :=
  match last (filter (concerns q) ws) with
  | Some (Write d k v) => if decide (d ++ [k] = q) then Some v else None
  | _ => None
  end.

(** The value at a path of the captured fields. *)
Fixpoint leaf_at (q : list string) (m : fields) : option string :=
  match q with
  | [] => None
  | k :: q' =>
      match get k m with
      | Some (FLeaf v) => match q' with [] => Some v | _ => None end
      | Some (FMap m') => leaf_at q' m'
      | None => None
      end
  end.

Definition do_write (m : fields) (w : write) : fields :=
  match w with
  | Write d k v => in_groups d (put k (FLeaf v)) m
  | Touch d => in_groups d (fun m => m) m
  end.

Definition named (p : list string) : Prop := Forall (fun g => g ≠ "") p.

Lemma names_named groups : named (names groups).
Proof. apply Forall_forall. intros g. by intros [? _]%list_elem_of_filter. Qed.

Lemma leaf_nil q : leaf_at q [] = None.
Proof. by destruct q. Qed.

Lemma leaf_cons g q m : q ≠ [] →
  leaf_at (g :: q) m = leaf_at q (match get g m with Some (FMap m') => m' | _ => [] end).
Proof. intros Hq. simpl. destruct (get g m) as [[v|m']|]; rewrite ?leaf_nil; [by destruct q|done|done]. Qed.

Lemma leaf_submap p r m : named p → r ≠ [] → leaf_at r (submap p m) = leaf_at (p ++ r) m.
Proof.
  intros Hp Hr. revert m. induction Hp as [|g p Hg Hp IH]; intros m; [done|].
  cbn [submap]. rewrite (proj2 (String.eqb_neq g "")) by done. rewrite IH, <- app_comm_cons, leaf_cons; [done|].
  destruct p; [done|]. done.
Qed.

(** The value at [q] after [f] was applied to the map at [p]. *)
Lemma leaf_in_groups p f m q : named p → q ≠ [] →
  leaf_at q (in_groups p f m) =
  if decide (q `prefix_of` p) then None
  else if decide (p `prefix_of` q) then leaf_at (drop (length p) q) (f (submap p m)) else leaf_at q m.
Proof.
  intros Hp. revert q m. induction Hp as [|g p Hg Hp IH]; intros q m Hq.
  { rewrite decide_False by (intros ?%prefix_nil_inv; done). by rewrite decide_True by apply prefix_nil. }
  cbn [in_groups submap length]. rewrite (proj2 (String.eqb_neq g "")) by done. destruct q as [|k q]; [done|].
  destruct (decide (k = g)) as [->|Hk].
  - destruct (decide (q = [])) as [->|Hq'].
    { simpl. rewrite get_put, String.eqb_refl. by rewrite decide_True by (apply prefix_cons, prefix_nil). }
    rewrite leaf_cons, get_put, String.eqb_refl, IH by done. cbn [drop].
    rewrite (decide_ext (g :: q `prefix_of` g :: p) (q `prefix_of` p)), (decide_ext (g :: p `prefix_of` g :: q) (p `prefix_of` q))
      by (split; [apply prefix_cons_inv_2|apply prefix_cons]).
    repeat case_decide; try done. by rewrite leaf_cons.
  - rewrite !decide_False by (intros ?%prefix_cons_inv_1; congruence). simpl.
    rewrite get_put, (proj2 (String.eqb_neq g k)) by done. done.
Qed.

Lemma do_write_leaf m w q : q ≠ [] → named (match w with Write d _ _ | Touch d => d end) →
  leaf_at q (do_write m w) = if decide (concerns q w) then last_write q [w] else leaf_at q m.
Proof.
  intros Hq Hn. unfold last_write. destruct w as [d k v|d]; simpl do_write; rewrite leaf_in_groups by done.
  - destruct (decide (q `prefix_of` d)) as [Hp|Hp].
    + rewrite decide_True by (left; by apply prefix_app_r). rewrite filter_cons_True by (left; by apply prefix_app_r).
      simpl. rewrite decide_False; [done|]. intros <-. apply prefix_length in Hp. rewrite length_app in Hp. simpl in Hp. lia.
    + destruct (decide (d `prefix_of` q)) as [[r ->]|Hd].
      * assert (r ≠ []) as Hr by (intros ->; rewrite app_nil_r in Hp; done).
        rewrite drop_app_length. destruct r as [|k' r]; [done|]. destruct (decide (k' = k)) as [->|Hk].
        -- assert (concerns (d ++ k :: r) (Write d k v)) as Hc.
           { right. exists r. by rewrite <- app_assoc. }
           rewrite decide_True, filter_cons_True by done. simpl. rewrite get_put, String.eqb_refl.
           destruct r; [by rewrite decide_True|rewrite decide_False; [done|]]. intros ?%(inj (app d)). done.
        -- rewrite decide_False.
           ++ simpl. rewrite get_put, (proj2 (String.eqb_neq k k')) by done. by rewrite <- (leaf_submap d (k' :: r)).
           ++ intros [H|H]; rewrite ?prefix_app_inv in H; apply prefix_app_inv, prefix_cons_inv_1 in H; congruence.
      * rewrite decide_False; [done|]. intros [H|H].
        -- destruct H as [x Hx]. destruct (app_eq_inv q x d [k] (eq_sym Hx)) as [(y & ? & ?)|(y & ? & ?)]; subst.
           ++ apply Hd. by eexists.
           ++ apply Hp. by eexists.
        -- apply Hd. etransitivity; [|exact H]. by eexists.
  - simpl. destruct (decide (q `prefix_of` d)) as [Hp|Hp]; [by rewrite filter_cons_True|].
    destruct (decide (d `prefix_of` q)) as [[r ->]|Hd]; [|done].
    rewrite drop_app_length, leaf_submap; [done..|]. intros ->. rewrite app_nil_r in Hp. done.
Qed.

Lemma last_write_snoc q ws w :
  last_write q (ws ++ [w]) = if decide (concerns q w) then last_write q [w] else last_write q ws.
Proof.
  unfold last_write. rewrite filter_app. case_decide as Hc.
  - rewrite filter_cons_True, filter_nil, last_snoc by done. done.
  - rewrite filter_cons_False, filter_nil, app_nil_r by done. done.
Qed.

Definition write_named (w : write) : Prop := named (match w with Write d _ _ | Touch d => d end).

Lemma writes_leaf q ws : q ≠ [] → Forall write_named ws → leaf_at q (foldl do_write [] ws) = last_write q ws.
Proof.
  intros Hq. induction ws as [|w ws IH] using rev_ind; intros Hn; [by destruct q|].
  apply Forall_app in Hn as [Hws Hw]. apply Forall_cons_1 in Hw as [Hw _]. rewrite foldl_snoc, (do_write_leaf _ w q Hq Hw).
  rewrite last_write_snoc. case_decide; [done|auto].
Qed.

Lemma put_put k v v' m : put k v (put k v' m) = put k v m.
Proof.
  induction m as [|[x y] m IH]; simpl; [by rewrite String.eqb_refl|].
  destruct (String.eqb x k) eqn:E; simpl; [by rewrite String.eqb_refl|]. by rewrite E, IH.
Qed.

Lemma in_groups_twice p f g m : named p → in_groups p f (in_groups p g m) = in_groups p (fun x => f (g x)) m.
Proof.
  intros Hp. revert m. induction Hp as [|x p Hx Hp IH]; intros m; [done|]. cbn [in_groups].
  rewrite (proj2 (String.eqb_neq x "")) by done. by rewrite get_put, String.eqb_refl, put_put, IH.
Qed.

Lemma in_groups_names p q f m : in_groups p (in_groups q f) m = in_groups (p ++ names q) f m.
Proof.
  revert m. induction p as [|x p IH]; intros m; simpl.
  - revert m. induction q as [|y q IH]; intros m; [done|]. unfold names. rewrite filter_cons.
    destruct (String.eqb_spec y "") as [->|Hy]; [rewrite decide_False by auto; apply IH|].
    rewrite decide_True by done. simpl. rewrite (proj2 (String.eqb_neq y "")) by done. by rewrite IH.
  - destruct (String.eqb x ""); [done|]. by rewrite IH.
Qed.

Lemma in_groups_ext p f g m : (∀ x, f x = g x) → in_groups p f m = in_groups p g m.
Proof.
  intros Hfg. revert m. induction p as [|x p IH]; intros m; simpl; [done|]. destruct (String.eqb x ""); [done|]. by rewrite IH.
Qed.

Fixpoint slog_ind (P : slog_value → Prop) (Hn : P SNil) (Hl : ∀ s, P (SLeaf s))
    (Hg : ∀ l, Forall (fun a => P a.2) l → P (SGroup l)) (v : slog_value) : P v :=
  match v with
  | SNil => Hn
  | SLeaf s => Hl s
  | SGroup l => Hg l ((fix go l := match l return Forall (fun a => P a.2) l with
      | [] => Forall_nil_2 _
      | a :: l => Forall_cons_2 _ a l (slog_ind P Hn Hl Hg a.2) (go l) end) l)
  end.

Lemma named_app p q : named p → named q → named (p ++ q).
Proof. intros. by apply Forall_app. Qed.

Lemma attr_writes_head dir x k v m : named dir → named x →
  foldl do_write (in_groups dir (fun m => m) m) (attr_writes (dir ++ x) k v) = foldl do_write m (attr_writes (dir ++ x) k v).
Proof.
  intros Hd Hx. assert (names x = x) as Hnx.
  { induction Hx as [|g x Hg _ IH]; [done|]. unfold names in *. rewrite filter_cons_True by done. by rewrite IH. }
  destruct v; simpl; f_equal; rewrite <- Hnx, <- !in_groups_names, in_groups_twice by done; done.
Qed.

(** Adding an attribute is doing its writes. *)
Lemma add_value_writes v dir k m : named dir →
  in_groups dir (add_value k v) m = foldl do_write m (attr_writes dir k v).
Proof.
  revert dir k m. induction v as [|s|l IH] using slog_ind; intros dir k m Hd.
  1, 2: simpl; destruct (String.eqb k "") eqn:E; simpl; rewrite ?in_groups_twice by done; by apply in_groups_ext.
  cbn [attr_writes foldl do_write].
  transitivity (in_groups dir (fun c => (fix children l current := match l with
       | [] => current
       | (ck, cv) :: l =>
           children l (if is_zero_attr ck cv then current else in_groups [k] (add_value ck cv) current)
       end) l c) m); [by apply in_groups_ext|].
  revert m. induction IH as [|[ck cv] l Hv _ IHl]; intros m; [done|]. simpl in Hv.
  set (step := fun c => if is_zero_attr ck cv then c else in_groups [k] (add_value ck cv) c).
  assert (in_groups dir step m =
    foldl do_write (in_groups dir (fun m => m) m) (if is_zero_attr ck cv then [] else attr_writes (dir ++ names [k]) ck cv)) as Hs.
  { unfold step. destruct (is_zero_attr ck cv); [done|]. rewrite attr_writes_head by (auto using names_named).
    rewrite in_groups_names. apply Hv. auto using named_app, names_named. }
  rewrite foldl_app, <- Hs. etransitivity; [|etransitivity; [apply (IHl (in_groups dir step m))|]].
  - rewrite in_groups_twice by done. by apply in_groups_ext.
  - by rewrite in_groups_twice by done.
Qed.

Lemma attr_writes_named v dir k : named dir → Forall write_named (attr_writes dir k v).
Proof.
  revert dir k. induction v as [|s|l IH] using slog_ind; intros dir k Hd; simpl; (constructor; [done|]).
  1, 2: destruct (String.eqb k ""); by repeat constructor.
  induction IH as [|[ck cv] l Hv _ IHl]; [constructor|]. apply Forall_app. split; [|exact IHl].
  destruct (is_zero_attr ck cv); [constructor|]. apply Hv. auto using named_app, names_named.
Qed.

Lemma attrs_fields groups attrs m :
  foldl (fun m a => addAttr m groups a) m attrs = foldl do_write m (attrs_writes groups attrs).
Proof.
  revert m. induction attrs as [|[k v] attrs IH]; intros m; [done|]. unfold attrs_writes in *. simpl.
  rewrite foldl_app, IH. f_equal. unfold addAttr. simpl. destruct (is_zero_attr k v); [done|].
  rewrite <- add_value_writes by apply names_named. exact (in_groups_names [] groups (add_value k v) m).
Qed.

Lemma attrs_leaf q groups attrs : q ≠ [] →
  leaf_at q (foldl (fun m a => addAttr m groups a) [] attrs) = last_write q (attrs_writes groups attrs).
Proof.
  intros Hq. rewrite attrs_fields. apply writes_leaf; [done|]. unfold attrs_writes.
  apply Forall_concat, Forall_fmap, Forall_forall. intros [k v] _. simpl.
  destruct (is_zero_attr k v); [constructor|]. apply attr_writes_named, names_named.
Qed.

Lemma foldl_two {A B} (f : A → B → A) (a : A) (l1 l2 : list B) : foldl f (foldl f a l1) l2 = foldl f a (l1 ++ l2).
Proof. symmetry. apply foldl_app. Qed.

(** ** snapshot.go: the goroutine dump *)

(** Rows of [strings.Split(s, "\n\n")], leftmost separators first. *)
Definition newline : ascii := "010"%char.

Fixpoint split_blank (s : string) : list string :=
  match s with
  | EmptyString => [""]
  | String a s' =>
      match s' with
      | String b s'' =>
          if Ascii.eqb a newline && Ascii.eqb b newline then "" :: split_blank s''
          else match split_blank s' with [] => [String a ""] | x :: l => String a x :: l end
      | EmptyString => [String a ""]
      end
  end.

(** [strings.IndexByte]. *)
Fixpoint IndexByte (c : ascii) (s : string) : Z :=
  match s with
  | EmptyString => -1
  | String a s' => if Ascii.eqb a c then 0 else let i := IndexByte c s' in if i <? 0 then -1 else i + 1
  end.

(* [go] snapshot.go:221-228 goroutineState *)
Definition goroutineState (header : string) : option string :=
  let start := IndexByte "[" header in
  let fin := IndexByte "]" header in
  if (start <? 0) || (fin <=? start + 1) then None
  else Some (String.substring (Z.to_nat (start + 1)) (Z.to_nat (fin - (start + 1))) header).

(* [go] snapshot.go:102-106 GoroutineGroup *)
Record GoroutineGroup : Type := mkGroup { gg_State : string; gg_Count : Z; gg_Stack : string }.

(** The state and the normalised stack of one block of the dump. *)
(* [go] snapshot.go:192-201 groupGoroutines *)
Definition parse_block (block : string) : option (string * string) :=
  match split newline block with
  | [] => None
  | l0 :: lines =>
      if negb (String.prefix "goroutine " l0) then None
      else match goroutineState l0 with
           | None => None
           | Some state => Some (state, join newline (("goroutine [" +:+ state +:+ "]:") :: lines))
           end
  end.

(* [go] snapshot.go:191-207 groupGoroutines *)
Definition count_block (byStack : gmap string GoroutineGroup) (block : string) : gmap string GoroutineGroup :=
  match parse_block block with
  | None => byStack
  | Some (state, stack) =>
      match byStack !! stack with
      | Some g => <[stack := mkGroup (gg_State g) (gg_Count g + 1) (gg_Stack g)]> byStack
      | None => <[stack := mkGroup state 1 stack]> byStack
      end
  end.

(** More goroutines first, then the smaller stack. *)
(* [go] snapshot.go:212-217 groupGoroutines *)
Definition group_le (g h : GoroutineGroup) : Prop :=
  gg_Count h < gg_Count g ∨ gg_Count g = gg_Count h ∧ str_lt (gg_Stack h) (gg_Stack g) = false.

#[global] Instance group_le_dec g h : Decision (group_le g h).
Proof. unfold group_le. apply _. Defined.

(* [go] snapshot.go:189-219 groupGoroutines *)
Definition groupGoroutines (dump : string) : list GoroutineGroup :=
  merge_sort group_le ((map_to_list (foldl count_block ∅ (split_blank (TrimSpace dump)))).*2).

(* [go] snapshot.go:93-98 GoroutineReport *)
Record GoroutineReport : Type := mkReport {
  gr_Observed : Z; gr_Truncated : bool; gr_OmittedGroups : Z; gr_Groups : list GoroutineGroup }.

Section dump.
(** The stacks of all goroutines at the [n]-th call of [runtime.Stack]. *)
Context (stacks : nat → string).

(** [runtime.Stack(buffer, true)] fills the buffer as far as it goes. *)
Definition runtime_Stack (n : nat) (size : Z) : string := slice_to (Z.to_nat size) (stacks n).

(* [go] snapshot.go:171-186 allGoroutineStacks *)
Fixpoint stacks_loop (fuel n : nat) (size maxBytes : Z) : option (string * bool) :=
  match fuel with
  | O => None
  | S fuel =>
      let text := runtime_Stack n size in
      let len := Z.of_nat (String.length text) in
      if size <? maxBytes then
        if len <? size then Some (text, false)
        else let newSize := size * 2 in
             stacks_loop fuel (S n) (if maxBytes <? newSize then maxBytes else newSize) maxBytes
      else if len <? size then Some (text, false) else Some (text, true)
  end.

(** The buffer doubles from 4 KiB, so 64 rounds reach any limit of an int. *)
(* [go] snapshot.go:169-187 allGoroutineStacks *)
Definition allGoroutineStacks (maxBytes : Z) : option (string * bool) := stacks_loop 64 0 4096 maxBytes.

(* [go] snapshot.go:154-167 collectGoroutines *)
Definition collectGoroutines (maxBytes maxGroups : Z) : option GoroutineReport :=
  match allGoroutineStacks maxBytes with
  | None => None
  | Some (stack, truncated) =>
      let groups := groupGoroutines stack in
      let observed := zsum gg_Count groups in
      Some (if maxGroups <? Z.of_nat (length groups)
            then mkReport observed truncated (Z.of_nat (length groups) - maxGroups) (take (Z.to_nat maxGroups) groups)
            else mkReport observed truncated 0 groups)
  end.
End dump.

(* [go] snapshot.go:21-27 Options *)
Record Options : Type := mkOptions { o_MaxEvents : Z; o_MaxStackBytes : Z; o_MaxGoroutineGroups : Z }.

(** The limits of the service. *)
(* [go] snapshot.go:41-64 NewService *)
Definition NewService (o : Options) : Options :=
  let e := if o_MaxEvents o <=? 0 then 50 else o_MaxEvents o in
  let s := if o_MaxStackBytes o <=? 0 then Z.shiftl 1 20 else o_MaxStackBytes o in
  let s := if s <? Z.shiftl 4 10 then Z.shiftl 4 10 else s in
  let g := if o_MaxGoroutineGroups o <=? 0 then 20 else o_MaxGoroutineGroups o in
  mkOptions e s g.

(* [go] snapshot.go:67-72 Snapshot *)
Record Snapshot : Type := mkSnapshot {
  sn_CapturedAt : Z; sn_Events : list Event; sn_Goroutines : option GoroutineReport }.

(* [go] snapshot.go:14-18 ErrSnapshotInProgress *)
Inductive snap_error : Type := ErrSnapshotInProgress | EContext.

(** [ctx_err]: the context is done; [busy]: another dump holds the lock.  [None] is a
loop without end. *)
(* [go] snapshot.go:111-134 Service.Capture *)
Definition Capture (stacks : nat → string) (s : Options) (events : option EventBuffer) (now : Z)
    (ctx_err busy includeGoroutines : bool) : option (result snap_error Snapshot) :=
  if ctx_err then Some (Err EContext)
  else
    let evs := match events with Some b => Recent (o_MaxEvents s) b | None => [] end in
    if negb includeGoroutines then Some (Ok (mkSnapshot now evs None))
    else if busy then Some (Err ErrSnapshotInProgress)
    else match collectGoroutines stacks (o_MaxStackBytes s) (o_MaxGoroutineGroups s) with
         | None => None
         | Some r => Some (Ok (mkSnapshot now evs (Some r)))
         end.

(** *** The dump is bounded *)

Lemma length_slice_to n s : String.length (slice_to n s) = Nat.min n (String.length s).
Proof.
  unfold slice_to. revert n. induction s as [|a s IH]; intros n; [by destruct n|]. destruct n as [|n]; [done|].
  simpl. by rewrite IH.
Qed.

Lemma slice_to_all n s : (String.length s ≤ n)%nat → slice_to n s = s.
Proof.
  unfold slice_to. revert n. induction s as [|a s IH]; intros [|n]; simpl; try done; [lia|].
  intros Hn. f_equal. apply IH. lia.
Qed.

(** A dump that is not truncated is whole; a truncated one fills the limit. *)
Definition dump_of (text : string) (truncated : bool) (whole : string) (maxBytes : Z) : Prop :=
  if truncated then text = slice_to (Z.to_nat maxBytes) whole ∧ Z.of_nat (String.length text) = maxBytes
  else text = whole ∧ Z.of_nat (String.length text) < maxBytes.

Lemma read_stacks stacks n size :
  0 ≤ size → let text := runtime_Stack stacks n size in
  if Z.of_nat (String.length text) <? size then dump_of text false (stacks n) size
  else dump_of text true (stacks n) size.
Proof.
  intros Hs text. unfold text, runtime_Stack, dump_of. rewrite length_slice_to.
  case_test; zbool; [rewrite slice_to_all by lia; split; [done|lia]|split; [done|lia]].
Qed.

Lemma stacks_loop_spec stacks k n size maxBytes :
  0 < size ≤ maxBytes → maxBytes ≤ size * 2 ^ Z.of_nat k →
  ∃ text tr m, stacks_loop stacks (S k) n size maxBytes = Some (text, tr) ∧ dump_of text tr (stacks m) maxBytes.
Proof.
  revert n size. induction k as [|k IH]; intros n size Hs Hk;
    pose proof (read_stacks stacks n size ltac:(lia)) as Hr; unfold stacks_loop at 1; fold (stacks_loop stacks);
    cbv zeta in *; destruct (size <? maxBytes) eqn:E2; zbool.
  - exfalso. simpl in Hk. lia.
  - assert (size = maxBytes) as -> by lia. destruct (_ <? maxBytes); eauto.
  - destruct (Z.of_nat (String.length (runtime_Stack stacks n size)) <? size) eqn:E.
    + exists (runtime_Stack stacks n size), false, n. split; [done|]. destruct Hr. split; [done|lia].
    + apply IH; [case_test; zbool; lia|]. rewrite Nat2Z.inj_succ, Z.pow_succ_r in Hk by lia.
      pose proof (Z.pow_pos_nonneg 2 (Z.of_nat k) ltac:(lia) ltac:(lia)). case_test; zbool; nia.
  - assert (size = maxBytes) as -> by lia. destruct (_ <? maxBytes); eauto.
Qed.

Lemma dump_terminates stacks maxBytes : 4096 ≤ maxBytes < 2 ^ 63 →
  ∃ text tr m, allGoroutineStacks stacks maxBytes = Some (text, tr) ∧ dump_of text tr (stacks m) maxBytes.
Proof. intros Hm. apply stacks_loop_spec; [lia|]. change (2 ^ Z.of_nat 63) with (2 ^ 63). lia. Qed.

(** *** The groups count the blocks *)

#[global] Instance group_le_total : Total group_le.
Proof.
  intros g h. unfold group_le. destruct (Z.lt_trichotomy (gg_Count g) (gg_Count h)) as [?|[?|?]]; [by right; left| |by left; left].
  destruct (str_lt (gg_Stack h) (gg_Stack g)) eqn:E; [right|left; by right]. right. split; [done|].
  destruct (str_lt (gg_Stack g) (gg_Stack h)) eqn:E'; [|done].
  pose proof (str_lt_trans _ _ _ E E'). by rewrite str_lt_irrefl in *.
Qed.

Lemma str_ge_trans a b c : str_lt b a = false → str_lt c b = false → str_lt c a = false.
Proof.
  intros Hab Hbc. destruct (str_lt c a) eqn:E; [|done]. destruct (decide (b = c)) as [->|Hne]; [congruence|].
  assert (str_lt b c = true) as Hlt by (by apply str_lt_total). pose proof (str_lt_trans _ _ _ Hlt E). congruence.
Qed.

#[global] Instance group_le_trans : Transitive group_le.
Proof.
  intros g h k. unfold group_le. intros [?|[? H1]] [?|[? H2]]; [left; lia..|]. right. split; [lia|].
  by eapply str_ge_trans.
Qed.

Definition blocks (dump : string) : list (string * string) := omap parse_block (split_blank (TrimSpace dump)).

(** How many blocks have the stack. *)
Definition occurrences (stack : string) (l : list (string * string)) : Z :=
  zsum (fun p => if String.eqb p.2 stack then 1 else 0) l.

Definition counted (l : list (string * string)) (m : gmap string GoroutineGroup) : Prop :=
  (∀ stack, match m !! stack with
            | Some g => gg_Stack g = stack ∧ gg_Count g = occurrences stack l ∧ 0 < gg_Count g ∧ (gg_State g, stack) ∈ l
            | None => occurrences stack l = 0
            end) ∧ msum gg_Count m = Z.of_nat (length l).

Lemma occurrences_snoc stack l s t : occurrences stack (l ++ [(s, t)]) = occurrences stack l + (if String.eqb t stack then 1 else 0).
Proof. unfold occurrences. rewrite zsum_app. simpl. lia. Qed.

Lemma count_block_counted l m b : counted l m →
  counted (l ++ match parse_block b with Some p => [p] | None => [] end) (count_block m b).
Proof.
  intros [Hm Hs]. unfold count_block. destruct (parse_block b) as [[st t]|]; [|by rewrite app_nil_r].
  pose proof (Hm t) as Ht. destruct (m !! t) as [g|] eqn:Hg.
  - split.
    + intros stack. rewrite lookup_insert, occurrences_snoc. case_decide as Hd.
      * subst t. destruct Ht as (? & ? & ? & ?). simpl. rewrite String.eqb_refl. split_and!; [done|lia|lia|].
        apply elem_of_app. by left.
      * specialize (Hm stack). destruct (String.eqb_spec t stack); [done|]. destruct (m !! stack); [|lia].
        destruct Hm as (? & ? & ? & ?). split_and!; [done|lia|lia|]. apply elem_of_app. by left.
    + rewrite (msum_insert _ _ _ _ _ Hg), length_app. simpl. lia.
  - split.
    + intros stack. rewrite lookup_insert, occurrences_snoc. case_decide as Hd.
      * subst t. simpl. rewrite String.eqb_refl. split_and!; [done|lia|lia|]. apply elem_of_app. right. by left.
      * specialize (Hm stack). destruct (String.eqb_spec t stack); [done|]. destruct (m !! stack); [|lia].
        destruct Hm as (? & ? & ? & ?). split_and!; [done|lia|lia|]. apply elem_of_app. by left.
    + rewrite msum_insert_new, length_app by done. simpl. lia.
Qed.

Lemma fold_counted bs l m : counted l m → counted (l ++ omap parse_block bs) (foldl count_block m bs).
Proof.
  revert l m. induction bs as [|b bs IH]; intros l m Hm; simpl; [by rewrite app_nil_r|].
  pose proof (IH _ _ (count_block_counted _ _ b Hm)) as H. destruct (parse_block b); simpl in *; by rewrite <- app_assoc in H.
Qed.

Lemma groups_counted dump : ∃ m, counted (blocks dump) m ∧ groupGoroutines dump ≡ₚ (map_to_list m).*2.
Proof.
  exists (foldl count_block ∅ (split_blank (TrimSpace dump))). split; [|apply merge_sort_Permutation].
  apply (fold_counted _ []). split; [intros stack; by rewrite lookup_empty|apply msum_empty].
Qed.

Lemma zsum_fmap {A B} (f : B → Z) (g : A → B) l : zsum f (g <$> l) = zsum (fun a => f (g a)) l.
Proof.
  induction l as [|a l IH]; [done|]. rewrite fmap_cons.
  change (f (g a) + zsum f (g <$> l) = f (g a) + zsum (fun a => f (g a)) l). by rewrite IH.
Qed.

(** The groups are in order, one per stack, each counts its blocks, every block is in
one, and the counts sum up to the number of blocks. *)
Record grouped (dump : string) (groups : list GoroutineGroup) : Prop := {
  gp_sorted : StronglySorted group_le groups;
  gp_distinct : NoDup (gg_Stack <$> groups);
  gp_counts g : g ∈ groups → gg_Count g = occurrences (gg_Stack g) (blocks dump) ∧ 0 < gg_Count g ∧
    (gg_State g, gg_Stack g) ∈ blocks dump;
  gp_all p : p ∈ blocks dump → p.2 ∈ gg_Stack <$> groups;
  gp_total : zsum gg_Count groups = Z.of_nat (length (blocks dump)) }.

Lemma occurrences_pos p l : p ∈ l → 0 < occurrences p.2 l.
Proof.
  assert (∀ stack l, 0 ≤ occurrences stack l) as Hnn.
  { intros. apply zsum_nonneg. intros a _. by destruct (String.eqb _ _). }
  induction l as [|q l IH]; [by intros ?%elem_of_nil|]. unfold occurrences in *. simpl.
  intros [->|Hp]%elem_of_cons; [rewrite String.eqb_refl; pose proof (Hnn q.2 l); unfold occurrences in *; lia|].
  specialize (IH Hp). destruct (String.eqb q.2 p.2); lia.
Qed.

Lemma groupGoroutines_grouped dump : grouped dump (groupGoroutines dump).
Proof.
  destruct (groups_counted dump) as (m & [Hm Hs] & Hp).
  assert (∀ g, g ∈ groupGoroutines dump → m !! gg_Stack g = Some g) as Hin.
  { intros g. rewrite Hp. intros ([k g'] & -> & Hk)%list_elem_of_fmap. apply elem_of_map_to_list in Hk. simpl.
    specialize (Hm k). rewrite Hk in Hm. destruct Hm as (-> & _). done. }
  split.
  - unfold groupGoroutines. apply Sorted_StronglySorted; [apply _|]. apply Sorted_merge_sort. apply _.
  - rewrite Hp. rewrite <- list_fmap_compose.
    rewrite (list_fmap_ext _ fst); [apply NoDup_fst_map_to_list|].
    intros i [k g] Hk%list_elem_of_lookup_2. apply elem_of_map_to_list in Hk. specialize (Hm k). rewrite Hk in Hm. simpl. by destruct Hm.
  - intros g Hg%Hin. specialize (Hm (gg_Stack g)). rewrite Hg in Hm. by destruct Hm as (_ & ? & ? & ?).
  - intros p Hpin. pose proof (occurrences_pos _ _ Hpin). specialize (Hm p.2).
    destruct (m !! p.2) as [g|] eqn:Hg; [|lia]. destruct Hm as (<- & _). apply list_elem_of_fmap_2.
    rewrite Hp. apply list_elem_of_fmap. eexists (_, g). split; [done|]. by apply elem_of_map_to_list.
  - rewrite <- Hs. unfold msum. by rewrite Hp, zsum_fmap.
Qed.

(** ** http.go *)

Definition minute : Z := 60 * 10 ^ 9.

(* [go] http.go:101-104 clientWindow *)
Record clientWindow : Type := mkCW { cw_started : option Z; cw_count : Z }.

(* [go] http.go:106-113 rateLimiter *)
Record rateLimiter : Type := mkRL {
  rl_limit : Z; rl_maxClients : Z; rl_seen : gmap string clientWindow; rl_overflow : clientWindow }.

Definition zero_window : clientWindow := mkCW None 0.

Definition expired (now : Z) (w : clientWindow) : bool :=
  match cw_started w with None => true | Some s => minute <=? now - s end.

(* [go] http.go:139-149 rateLimiter.allowWindow *)
Definition allowWindow (limit now : Z) (w : clientWindow) : bool * clientWindow :=
  if expired now w then (true, mkCW (Some now) 1)
  else if limit <=? cw_count w then (false, w)
  else (true, mkCW (cw_started w) (cw_count w + 1)).

(* [go] http.go:122-126 rateLimiter.allow *)
Definition drop_expired (now : Z) (seen : gmap string clientWindow) : gmap string clientWindow :=
  filter (fun p => expired now p.2 = false) seen.

(** The grant out of the client's own window. *)
(* [go] http.go:132-136 rateLimiter.allow *)
Definition allow_own (now : Z) (client : string) (l : rateLimiter) : bool * rateLimiter :=
  let '(ok, w) := allowWindow (rl_limit l) now (default zero_window (rl_seen l !! client)) in
  if ok then (true, mkRL (rl_limit l) (rl_maxClients l) (<[client := w]> (rl_seen l)) (rl_overflow l)) else (false, l).

(* [go] http.go:115-137 rateLimiter.allow *)
Definition allow (now : Z) (client : string) (l : rateLimiter) : bool * rateLimiter :=
  if bool_decide (rl_seen l !! client = None) && (rl_maxClients l <=? Z.of_nat (size (rl_seen l))) then
    let seen := drop_expired now (rl_seen l) in
    let l := mkRL (rl_limit l) (rl_maxClients l) seen (rl_overflow l) in
    if bool_decide (seen !! client = None) && (rl_maxClients l <=? Z.of_nat (size seen)) then
      let '(ok, w) := allowWindow (rl_limit l) now (rl_overflow l) in
      (ok, mkRL (rl_limit l) (rl_maxClients l) seen w)
    else allow_own now client l
  else allow_own now client l.

(** [RemoteAddr] and its host when [net.SplitHostPort] accepts it. *)
Record SnapRequest : Type := mkSnapReq {
  sq_method : string; sq_addr : string; sq_host : option string; sq_goroutines : string; sq_ctx_err : bool }.

(* [go] http.go:151-160 clientID *)
Definition clientID (r : SnapRequest) : string :=
  match sq_host r with
  | Some h => if negb (String.eqb h "") then h else if negb (String.eqb (sq_addr r) "") then sq_addr r else "unknown"
  | None => if negb (String.eqb (sq_addr r) "") then sq_addr r else "unknown"
  end.

(** Limits with their defaults. *)
(* [go] http.go:30-57 NewHandler *)
Definition NewHandler (requestsPerMinute maxTrackedClients : Z) : rateLimiter :=
  mkRL (if requestsPerMinute <=? 0 then 6 else requestsPerMinute)
    (if maxTrackedClients <=? 0 then 1024 else maxTrackedClients) ∅ zero_window.

Record SnapReply : Type := mkSnapReply { sr_status : Z; sr_retry : option Z; sr_snapshot : option Snapshot }.

Section endpoint.
Context (authorize : SnapRequest → bool) (allowGoroutines : bool) (stacks : nat → string) (svc : Options).

(* [go] http.go:66-99 snapshotHandler.ServeHTTP *)
Definition ServeHTTP (now : Z) (busy : bool) (events : option EventBuffer) (r : SnapRequest) (l : rateLimiter)
  : option (SnapReply * rateLimiter) :=
  if negb (String.eqb (sq_method r) "GET") then Some (mkSnapReply 405 None None, l)
  else if negb (authorize r) then Some (mkSnapReply 401 None None, l)
  else
    let '(ok, l') := allow now (clientID r) l in
    if negb ok then Some (mkSnapReply 429 (Some 60) None, l')
    else
      match Capture stacks svc events now (sq_ctx_err r) busy (allowGoroutines && String.eqb (sq_goroutines r) "true") with
      | None => None
      | Some (Err ErrSnapshotInProgress) => Some (mkSnapReply 429 (Some 5) None, l')
      | Some (Err EContext) => Some (mkSnapReply 503 None None, l')
      | Some (Ok s) => Some (mkSnapReply 200 None (Some s), l')
      end.
End endpoint.

(** *** The window limiter *)

(** How much a window may still grant from [now] up to [upto]. *)
Definition window_pot (limit upto now : Z) (w : clientWindow) : Z :=
  match cw_started w with
  | Some s => if minute <=? now - s then limit * ((upto - now) / minute + 1)
              else limit - cw_count w + limit * ((upto - s) / minute)
  | None => limit * ((upto - now) / minute + 1)
  end.

Definition window_ok (limit now : Z) (w : clientWindow) : Prop :=
  cw_count w ≤ limit ∧ ∀ s, cw_started w = Some s → s ≤ now.

Lemma window_pot_later limit upto now now' w :
  0 ≤ limit → now ≤ now' → window_ok limit now w → window_pot limit upto now' w ≤ window_pot limit upto now w.
Proof.
  intros Hl Hle [Hc Hs]. assert (0 < minute) by (unfold minute; lia).
  assert (∀ a b, a ≤ b → limit * a ≤ limit * b) as Hmono by (intros; nia).
  unfold window_pot. destruct (cw_started w) as [s|].
  - specialize (Hs s eq_refl). destruct (minute <=? now - s) eqn:E1, (minute <=? now' - s) eqn:E2; zbool; try lia.
    + apply Hmono. pose proof (Z.div_le_mono (upto - now') (upto - now) minute). lia.
    + pose proof (Hmono ((upto - now') / minute + 1) ((upto - s) / minute)) as Hm.
      assert ((upto - now') / minute + 1 ≤ (upto - s) / minute); [|lia].
      rewrite <- Z.div_add with (b := 1) by lia. apply Z.div_le_mono; lia.
  - apply Hmono. pose proof (Z.div_le_mono (upto - now') (upto - now) minute). lia.
Qed.

Lemma allowWindow_pot limit upto now w ok w' :
  1 ≤ limit → window_ok limit now w → allowWindow limit now w = (ok, w') →
  window_pot limit upto now w' = window_pot limit upto now w - (if ok then 1 else 0) ∧ window_ok limit now w'.
Proof.
  intros Hl [Hc Hs]. assert (0 < minute) by (unfold minute; lia).
  unfold allowWindow, expired, window_pot, window_ok. destruct (cw_started w) as [s|] eqn:Es.
  - specialize (Hs s eq_refl). destruct (minute <=? now - s) eqn:E.
    + intros [= <- <-]. simpl. zbool. rewrite (proj2 (Z.leb_gt _ _)) by lia. split; [lia|].
      split; [lia|]. intros s' [= <-]. lia.
    + destruct (limit <=? cw_count w) eqn:E2; intros [= <- <-]; zbool.
      * rewrite Es. rewrite (proj2 (Z.leb_gt _ _)) by lia. split; [lia|]. split; [lia|]. intros s' [= <-]. lia.
      * simpl. rewrite (proj2 (Z.leb_gt _ _)) by lia. split; [lia|]. split; [lia|]. intros s' [= <-]. lia.
  - intros [= <- <-]. simpl. rewrite (proj2 (Z.leb_gt _ _)) by lia. split; [lia|]. split; [lia|]. intros s' [= <-]. lia.
Qed.

Definition lim_ok (now : Z) (l : rateLimiter) : Prop :=
  1 ≤ rl_limit l ∧ 1 ≤ rl_maxClients l ∧ Z.of_nat (size (rl_seen l)) ≤ rl_maxClients l ∧
  (∀ c w, rl_seen l !! c = Some w → window_ok (rl_limit l) now w) ∧ window_ok (rl_limit l) now (rl_overflow l).

Definition own_window (client : string) (l : rateLimiter) : clientWindow := default zero_window (rl_seen l !! client).

(** What the client may still be granted, out of its window and the shared one. *)
Definition client_pot (upto now : Z) (client : string) (l : rateLimiter) : Z :=
  window_pot (rl_limit l) upto now (own_window client l) + window_pot (rl_limit l) upto now (rl_overflow l).

Lemma own_window_ok now client l : lim_ok now l → window_ok (rl_limit l) now (own_window client l).
Proof.
  intros (Hl & _ & _ & Hw & _). unfold own_window. destruct (rl_seen l !! client) eqn:E; [by eapply Hw|].
  split; simpl; [lia|done].
Qed.

Lemma window_ok_later limit now now' w : now ≤ now' → window_ok limit now w → window_ok limit now' w.
Proof. intros Hle [? Hs]. split; [done|]. intros s E. specialize (Hs s E). lia. Qed.

Lemma lim_ok_later now now' l : now ≤ now' → lim_ok now l → lim_ok now' l.
Proof. intros Hle (? & ? & ? & ? & ?). split_and!; eauto using window_ok_later. Qed.

(** Dropping an expired window changes nothing for its client. *)
Lemma dropped_pot limit upto now client seen :
  window_pot limit upto now (default zero_window (drop_expired now seen !! client)) =
  window_pot limit upto now (default zero_window (seen !! client)).
Proof.
  unfold drop_expired. destruct (seen !! client) as [w|] eqn:Hc.
  - destruct (expired now w) eqn:He.
    + assert (filter (fun p : string * clientWindow => expired now p.2 = false) seen !! client = None) as ->.
      { apply map_lookup_filter_None. right. intros x Hx. simplify_eq. simpl. congruence. }
      simpl.
      unfold expired in He. unfold window_pot. simpl. destruct (cw_started w); [by rewrite He|done].
    + by rewrite (proj2 (map_lookup_filter_Some _ _ _ _) (conj Hc He)).
  - by rewrite (proj2 (map_lookup_filter_None _ _ _) (or_introl Hc)).
Qed.

Lemma dropped_ok now l :
  lim_ok now l → lim_ok now (mkRL (rl_limit l) (rl_maxClients l) (drop_expired now (rl_seen l)) (rl_overflow l)).
Proof.
  intros (? & ? & Hs & Hw & ?). split_and!; simpl; try done.
  - pose proof (map_subseteq_size _ _ (map_filter_subseteq (fun p => expired now p.2 = false) (rl_seen l))).
    unfold drop_expired. lia.
  - intros c w [Hc _]%map_lookup_filter_Some. eauto.
Qed.

Lemma allow_own_pot upto now c client l ok l' :
  lim_ok now l → (rl_seen l !! c ≠ None ∨ Z.of_nat (size (rl_seen l)) < rl_maxClients l) →
  allow_own now c l = (ok, l') →
  lim_ok now l' ∧ rl_limit l' = rl_limit l ∧ rl_maxClients l' = rl_maxClients l ∧
  client_pot upto now client l' = client_pot upto now client l - (if ok && bool_decide (c = client) then 1 else 0).
Proof.
  intros Hok Hroom. pose proof (own_window_ok now c l Hok) as Hw. unfold allow_own.
  fold (own_window c l). destruct (allowWindow (rl_limit l) now (own_window c l)) as [b w] eqn:E.
  destruct Hok as (H1 & H2 & H3 & H4 & H5). apply (allowWindow_pot _ upto) in E as [Hp Hw']; [|done|done].
  destruct b; intros [= <- <-]; [|split_and!; [by split_and!|done|done|simpl; lia]].
  split_and!; [split_and!; simpl; try done|done|done|].
  - destruct (rl_seen l !! c) eqn:Ec; [rewrite map_size_insert_Some by eauto; lia|].
    rewrite map_size_insert_None by done. destruct Hroom; [done|lia].
  - intros c' w'. rewrite lookup_insert. case_decide; [by intros [= <-]|]. apply H4.
  - unfold client_pot, own_window. simpl. rewrite lookup_insert. destruct (decide (c = client)) as [->|Hne]; simpl.
    + rewrite bool_decide_eq_true_2 by done. rewrite Hp. unfold own_window. lia.
    + rewrite bool_decide_eq_false_2 by done. lia.
Qed.

Lemma allow_pot upto now c client l ok l' :
  lim_ok now l → allow now c l = (ok, l') →
  lim_ok now l' ∧ rl_limit l' = rl_limit l ∧ rl_maxClients l' = rl_maxClients l ∧
  client_pot upto now client l' ≤ client_pot upto now client l - (if ok && bool_decide (c = client) then 1 else 0).
Proof.
  intros Hok. unfold allow.
  destruct (bool_decide (rl_seen l !! c = None) && (rl_maxClients l <=? Z.of_nat (size (rl_seen l)))) eqn:E1.
  - clear E1. set (l1 := mkRL _ _ (drop_expired now (rl_seen l)) _). pose proof (dropped_ok now l Hok) as Hok1. fold l1 in Hok1.
    assert (client_pot upto now client l1 = client_pot upto now client l) as Hsame.
    { unfold client_pot, own_window, l1. simpl. by rewrite dropped_pot. }
    destruct (bool_decide _ && _) eqn:E2.
    + destruct (allowWindow (rl_limit l1) now (rl_overflow l1)) as [b w] eqn:E.
      destruct Hok1 as (H1 & H2 & H3 & H4 & H5). apply (allowWindow_pot _ upto) in E as [Hp Hw']; [|done|done].
      intros Heq. injection Heq as <- <-. split_and!; [by split_and!|done|done|]. rewrite <- Hsame. unfold client_pot, own_window. simpl.
      simpl in Hp. rewrite Hp. destruct b; [|simpl; lia]. destruct (bool_decide (c = client)); simpl; lia.
    + intros E. apply (allow_own_pot upto now c client l1) in E as (? & ? & ? & Hp); [|done|].
      * split_and!; [done..|]. rewrite Hp, Hsame. lia.
      * apply andb_false_iff in E2 as [E2|E2]; [left; by apply bool_decide_eq_false in E2|right; zbool; simpl in *; lia].
  - intros E. apply (allow_own_pot upto now c client l) in E as (? & ? & ? & Hp); [|done|].
    + split_and!; [done..|]. rewrite Hp. lia.
    + apply andb_false_iff in E1 as [E1|E1]; [left; by apply bool_decide_eq_false in E1|right; zbool; lia].
Qed.

(** Requests in time, and the number of those of the client that were granted. *)
Fixpoint granted (client : string) (reqs : list (Z * string)) (l : rateLimiter) : Z :=
  match reqs with
  | [] => 0
  | (now, c) :: reqs =>
      let '(ok, l') := allow now c l in
      (if ok && bool_decide (c = client) then 1 else 0) + granted client reqs l'
  end.

Fixpoint ordered (now : Z) (reqs : list (Z * string)) (upto : Z) : Prop :=
  match reqs with
  | [] => now ≤ upto
  | (t, _) :: reqs => now ≤ t ∧ ordered t reqs upto
  end.

Lemma window_pot_nonneg limit upto now w : 0 ≤ limit → now ≤ upto → window_ok limit now w → 0 ≤ window_pot limit upto now w.
Proof.
  intros Hl Hle [Hc Hs]. assert (0 < minute) by (unfold minute; lia).
  assert (0 ≤ (upto - now) / minute) by (apply Z.div_pos; lia).
  unfold window_pot. destruct (cw_started w) as [s|]; [|nia]. specialize (Hs s eq_refl).
  destruct (minute <=? now - s); [nia|]. assert (0 ≤ (upto - s) / minute) by (apply Z.div_pos; lia). nia.
Qed.

Lemma granted_pot client reqs l now upto : lim_ok now l → ordered now reqs upto →
  granted client reqs l ≤ client_pot upto now client l.
Proof.
  revert l now. induction reqs as [|[t c] reqs IH]; intros l now Hok Ho; cbn [granted ordered] in *.
  - pose proof (own_window_ok now client l Hok). destruct Hok as (? & _ & _ & _ & ?). unfold client_pot.
    pose proof (window_pot_nonneg (rl_limit l) upto now (own_window client l) ltac:(lia) Ho ltac:(done)).
    pose proof (window_pot_nonneg (rl_limit l) upto now (rl_overflow l) ltac:(lia) Ho ltac:(done)). lia.
  - destruct Ho as [Hle Ho]. pose proof (lim_ok_later _ _ _ Hle Hok) as Hok'.
    destruct (allow t c l) as [ok l'] eqn:E. destruct (allow_pot upto t c client l ok l' Hok' E) as (Hok2 & _ & _ & Hp).
    specialize (IH l' t Hok2 Ho). pose proof (own_window_ok now client l Hok) as Hw.
    assert (client_pot upto t client l ≤ client_pot upto now client l); [|lia].
    destruct Hok as (? & _ & _ & _ & ?). unfold client_pot.
    pose proof (window_pot_later (rl_limit l) upto now t (own_window client l) ltac:(lia) Hle Hw).
    pose proof (window_pot_later (rl_limit l) upto now t (rl_overflow l) ltac:(lia) Hle ltac:(done)). lia.
Qed.

Lemma window_pot_bound limit upto now w : 0 ≤ limit → 0 ≤ cw_count w → window_ok limit now w →
  window_pot limit upto now w ≤ limit * ((upto - now) / minute + 2).
Proof.
  intros Hl H0 [Hc Hs]. assert (0 < minute) by (unfold minute; lia). unfold window_pot.
  destruct (cw_started w) as [s|]; [|nia]. specialize (Hs s eq_refl). destruct (minute <=? now - s) eqn:E; zbool; [nia|].
  assert ((upto - s) / minute ≤ (upto - now) / minute + 1); [|nia].
  rewrite <- Z.div_add with (b := 1) by lia. apply Z.div_le_mono; lia.
Qed.

(** ** Main results *)

(** What a record leaves in the buffer. *)
Definition captured (x : Z * capturingHandler * LogRecord) : option Event :=
  let '(now, h, r) := x in
  if ch_minimum h <=? lr_level r then
    Some (stamp now (mkEvent (lr_time r) (lr_level r) (lr_message r)
      (foldl (fun m a => addAttr m (ch_groups h) a) [] (ch_attrs h ++ lr_attrs r))))
  else None.

Definition handle_all (run : list (Z * capturingHandler * LogRecord)) (st : EventBuffer * list LogRecord) :=
  foldl (fun st x => Handle x.1.1 x.1.2 x.2 st) st run.

Lemma handle_all_holds run cap b log out :
  holds_log cap b log →
  holds_log cap (handle_all run (b, out)).1 (log ++ omap captured run) ∧ (handle_all run (b, out)).2 = out ++ run.*2.
Proof.
  revert b log out. induction run as [|[[now h] r] run IH]; intros b log out Hb; [by rewrite !app_nil_r|].
  unfold handle_all in *. cbn [foldl fst snd Handle omap list_omap fmap list_fmap captured].
  destruct (ch_minimum h <=? lr_level r).
  - rewrite foldl_two. match goal with |- context [Add now ?e b] =>
      destruct (IH _ _ (out ++ [r]) (Add_holds cap now e b log Hb)) as [H1 H2] end. rewrite <- app_assoc in H1, H2.
    split; [exact H1|exact H2].
  - destruct (IH _ _ (out ++ [r]) Hb) as [H1 H2]. rewrite <- app_assoc in H2. split; [exact H1|exact H2].
Qed.

(** C35: The buffer refines the log: after any records through any handlers it answers
with the last events at or above the minimum level, oldest first, up to the
capacity; the wrapped handler has received every record, once and in order; and in a
retained event every path of group names and key shows the last value written to it.
The attributes of the handler and of the record write in that order, below the
handler's groups; a group attribute writes its members below its key, so that groups
of the same name are merged, to any depth; a value takes the place of a group at
its path and what was below it, and a group that of a value. *)
Theorem Events_refine_log (cap : Z) (b0 : EventBuffer) (run : list (Z * capturingHandler * LogRecord)) :
  NewEventBuffer cap = Some b0 →
  (handle_all run (b0, [])).2 = run.*2 ∧
  (∀ limit, Recent limit (handle_all run (b0, [])).1 = suffix_of (Z.min limit cap) (omap captured run)) ∧
  (∀ now h r e q, captured (now, h, r) = Some e → q ≠ [] →
     leaf_at q (ev_fields e) = last_write q (attrs_writes (ch_groups h) (ch_attrs h ++ lr_attrs r))).
Proof.
  intros Hb%new_holds. destruct (handle_all_holds run cap b0 [] [] Hb) as [H1 H2].
  split_and!; [done|intros limit; by apply Recent_holds|].
  intros now h r e q. unfold captured. case_test; [|done]. intros [= <-] Hq.
  rewrite <- attrs_leaf by done. unfold stamp. by destruct (lr_time r).
Qed.

Lemma Recent_length limit b : Z.of_nat (length (Recent limit b)) ≤ Z.max 0 limit.
Proof.
  unfold Recent. case_test; simpl; [lia|].
  rewrite length_fmap, length_seq. case_test; zbool; lia.
Qed.

Lemma NewService_bounds o : o_MaxStackBytes o < 2 ^ 63 → let s := NewService o in
  4096 ≤ o_MaxStackBytes s < 2 ^ 63 ∧ 0 < o_MaxGoroutineGroups s ∧ 0 < o_MaxEvents s.
Proof.
  intros Hmax. unfold NewService. cbn [o_MaxStackBytes o_MaxGoroutineGroups o_MaxEvents].
  change (Z.shiftl 1 20) with 1048576. change (Z.shiftl 4 10) with 4096. repeat case_test; zbool; lia.
Qed.

Lemma collect_terminates stacks o groups : o_MaxStackBytes o < 2 ^ 63 →
  is_Some (collectGoroutines stacks (o_MaxStackBytes (NewService o)) groups).
Proof.
  intros Hmax. destruct (NewService_bounds o Hmax) as (Hb & _). unfold collectGoroutines.
  destruct (dump_terminates stacks _ Hb) as (text & tr & m & -> & _). eauto.
Qed.

(** A snapshot always returns and its work is bounded: the dump loop ends, the dump
is whole or as long as the limit, the groups count exactly its blocks, in order,
and no more than the limits of events and groups are reported, with the number of
groups left out. *)
Theorem Snapshot_bounded (stacks : nat → string) (o : Options) (events : option EventBuffer) (now : Z)
    (ctx_err busy : bool) :
  o_MaxStackBytes o < 2 ^ 63 → let s := NewService o in
  match Capture stacks s events now ctx_err busy true with
  | None => False
  | Some (Err e) => e = if ctx_err then EContext else ErrSnapshotInProgress
  | Some (Ok sn) => Z.of_nat (length (sn_Events sn)) ≤ o_MaxEvents s ∧
      ∃ rep text m groups, sn_Goroutines sn = Some rep ∧
        dump_of text (gr_Truncated rep) (stacks m) (o_MaxStackBytes s) ∧ grouped text groups ∧
        gr_Groups rep = take (Z.to_nat (o_MaxGoroutineGroups s)) groups ∧
        gr_OmittedGroups rep + Z.of_nat (length (gr_Groups rep)) = Z.of_nat (length groups) ∧
        gr_Observed rep = Z.of_nat (length (blocks text))
  end.
Proof.
  intros Hmax s. destruct (NewService_bounds o Hmax) as (Hb & Hg & He). fold s in Hb, Hg, He. clearbody s.
  unfold Capture. destruct ctx_err; [done|]. simpl. destruct busy; [done|].
  destruct (dump_terminates stacks _ Hb) as (text & tr & m & Hd & Hdump). unfold collectGoroutines. rewrite Hd.
  pose proof (groupGoroutines_grouped text) as Hgr. simpl. split.
  - destruct events as [b|]; simpl; [|lia]. pose proof (Recent_length (o_MaxEvents s) b). lia.
  - eexists _, text, m, (groupGoroutines text). split; [done|].
    destruct (o_MaxGoroutineGroups s <? Z.of_nat (length (groupGoroutines text))) eqn:E; zbool; simpl;
      split_and!; try done; try (by apply gp_total).
    + rewrite length_take. lia.
    + rewrite take_ge by lia. done.
Qed.

(** The endpoint's limiter: from the start and for any requests in time, the table of
clients never outgrows its bound, and one client is granted at most four windows'
worth of requests for a span below a minute, two more for each further one. *)
Theorem Snapshot_rate (rpm maxClients t1 t2 : Z) (client : string) (reqs : list (Z * string)) :
  ordered t1 reqs t2 →
  let l := NewHandler rpm maxClients in
  granted client reqs l ≤ 2 * (rl_limit l * ((t2 - t1) / minute + 2)) ∧
  Z.of_nat (size (rl_seen (foldl (fun l q => (allow q.1 q.2 l).2) l reqs))) ≤ rl_maxClients l.
Proof.
  intros Ho l. assert (∀ t, lim_ok t l) as Hok.
  { intros t. unfold l, NewHandler. destruct (rpm <=? 0) eqn:E1, (maxClients <=? 0) eqn:E2; zbool;
      (split_and!; simpl; [lia|lia|rewrite map_size_empty; lia|intros c w Hw; by rewrite lookup_empty in Hw|
        split; simpl; [lia|done]]). }
  split.
  - pose proof (granted_pot client reqs l t1 t2 (Hok t1) Ho) as Hg. unfold client_pot in Hg.
    pose proof (window_pot_bound (rl_limit l) t2 t1 (own_window client l)) as H1.
    pose proof (window_pot_bound (rl_limit l) t2 t1 (rl_overflow l)) as H2.
    destruct (Hok t1) as (? & _ & _ & _ & ?). pose proof (own_window_ok t1 client l (Hok t1)).
    assert (0 ≤ cw_count (own_window client l)) by (unfold own_window, l, NewHandler; simpl; rewrite lookup_empty; done).
    assert (0 ≤ cw_count (rl_overflow l)) by done. specialize (H1 ltac:(lia) ltac:(done) ltac:(done)).
    specialize (H2 ltac:(lia) ltac:(done) ltac:(done)). lia.
  - assert (∀ l0, lim_ok t1 l0 → rl_maxClients l0 = rl_maxClients l →
      Z.of_nat (size (rl_seen (foldl (fun l q => (allow q.1 q.2 l).2) l0 reqs))) ≤ rl_maxClients l) as Hfold; [|by apply Hfold].
    revert Ho. clear. generalize t1. induction reqs as [|[t c] reqs IH]; intros t0 Ho l0 Hl0 Hm; simpl in *.
    { destruct Hl0 as (_ & _ & ? & _). lia. }
    destruct Ho as [Hle Ho]. destruct (allow t c l0) as [ok l1] eqn:E.
    destruct (allow_pot t2 t c "" l0 ok l1 (lim_ok_later _ _ _ Hle Hl0) E) as (? & _ & ? & _).
    apply (IH t Ho); [done|by etransitivity].
Qed.

(** Only an authorized GET that the limiter granted captures anything, goroutine
stacks only where the handler allows them; every other request is refused with
the status of its first failing check and leaves no trace in the limiter before
the limiter was asked. *)
Theorem ServeHTTP_guarded (authorize : SnapRequest → bool) (allowGoroutines : bool) (stacks : nat → string)
    (o : Options) (now : Z) (busy : bool) (events : option EventBuffer) (r : SnapRequest) (l : rateLimiter) :
  o_MaxStackBytes o < 2 ^ 63 →
  ∃ rep l', ServeHTTP authorize allowGoroutines stacks (NewService o) now busy events r l = Some (rep, l') ∧
  (sr_status rep = 200 ↔ is_Some (sr_snapshot rep)) ∧
  (is_Some (sr_snapshot rep) → sq_method r = "GET" ∧ authorize r = true ∧ (allow now (clientID r) l).1 = true) ∧
  (∀ s, sr_snapshot rep = Some s → is_Some (sn_Goroutines s) → allowGoroutines = true ∧ sq_goroutines r = "true" ∧ busy = false) ∧
  (sr_status rep = 405 ↔ sq_method r ≠ "GET") ∧
  (sr_status rep = 401 ↔ sq_method r = "GET" ∧ authorize r = false) ∧
  (sr_status rep = 405 ∨ sr_status rep = 401 → l' = l).
Proof.
  intros Hmax. pose proof (fun g => collect_terminates stacks o g Hmax) as Hcol.
  generalize dependent (NewService o). intros svc Hcol. unfold ServeHTTP. destruct (String.eqb_spec (sq_method r) "GET") as [Hget|Hget]; simpl.
  2: { eexists _, l. split; [done|]. simpl. split_and!; naive_solver. }
  destruct (authorize r) eqn:Ha; simpl.
  2: { eexists _, l. split; [done|]. simpl. split_and!; naive_solver. }
  destruct (allow now (clientID r) l) as [[|] l1] eqn:El; simpl.
  2: { eexists _, l1. split; [done|]. simpl. split_and!; naive_solver. }
  destruct (allowGoroutines && String.eqb (sq_goroutines r) "true") eqn:Eg.
  - apply andb_prop in Eg as [-> Eg%String.eqb_eq].
    unfold Capture. destruct (sq_ctx_err r), busy; simpl; try (eexists _, l1; (split; [done|]); simpl; split_and!; naive_solver).
    destruct (Hcol (o_MaxGoroutineGroups svc)) as [rep ->].
    eexists _, l1. split; [done|]. simpl. split_and!; naive_solver.
  - unfold Capture. destruct (sq_ctx_err r); simpl; eexists _, l1; (split; [done|]); simpl; split_and!; naive_solver.
Qed.

(** ** Instances *)

Definition rec_of (lvl : Z) (msg : string) (attrs : list (string * slog_value)) : LogRecord := mkLogRecord (Some 1) lvl msg attrs.

Definition h0 : capturingHandler := mkCH 8 [] [].

(** Two group attributes with the same key, under a group of the handler. *)
Definition h1 : capturingHandler := mkCH 8 [("svc", SLeaf "feed")] ["g"; ""].

Definition r1 : LogRecord :=
  rec_of 8 "e" [("req", SGroup [("id", SLeaf "1"); ("ms", SLeaf "5")]); ("req", SGroup [("ms", SLeaf "7")])].

Lemma Events_refine_log_witness :
  (ev_message <$> Recent 5 (handle_all [(0, h0, rec_of 8 "a" []); (0, h0, rec_of 0 "b" []); (0, h0, rec_of 8 "c" []);
     (0, h0, rec_of 9 "d" [])] (mkEB (replicate 2 zero_event) 0 0, [])).1) = ["c"; "d"] ∧
  ∃ e, captured (0, h1, r1) = Some e ∧ leaf_at ["g"; "req"; "id"] (ev_fields e) = Some "1" ∧
    leaf_at ["g"; "req"; "ms"] (ev_fields e) = Some "7".
Proof.
  split.
  - rewrite (proj1 (proj2 (Events_refine_log 2 (mkEB (replicate 2 zero_event) 0 0) _ eq_refl)) 5). by vm_compute.
  - destruct (captured (0, h1, r1)) as [e|] eqn:E; [|by vm_compute in E]. exists e. split; [reflexivity|].
    pose proof (fun q => proj2 (proj2 (Events_refine_log 2 (mkEB (replicate 2 zero_event) 0 0) [] eq_refl)) 0 h1 r1 e q E) as H.
    split; (rewrite H; [by vm_compute|discriminate]).
Defined.

Definition demo_dump : string :=
  "goroutine 1 [running]:" +:+ String newline ("main" +:+ String newline (String newline
  ("goroutine 7 [select]:" +:+ String newline ("wait" +:+ String newline (String newline
  ("goroutine 8 [select]:" +:+ String newline "wait")))))).

Lemma groups_example : (fun g => (gg_State g, gg_Count g)) <$> groupGoroutines demo_dump = [("select", 2); ("running", 1)].
Proof. by vm_compute. Qed.

Definition demo_capture : option (result snap_error Snapshot) :=
  Capture (fun _ => demo_dump) (NewService (mkOptions 0 0 1)) None 5 false false true.

Definition demo_report : GoroutineReport :=
  mkReport 3 false 1 [mkGroup "select" 2 ("goroutine [select]:" +:+ String newline "wait")].

Lemma demo_captured : demo_capture = Some (Ok (mkSnapshot 5 [] (Some demo_report))).
Proof. by vm_compute. Qed.

Lemma Snapshot_bounded_witness :
  demo_capture = Some (Ok (mkSnapshot 5 [] (Some demo_report))) ∧
  ∃ text, dump_of text false demo_dump (Z.shiftl 1 20) ∧ gr_Observed demo_report = Z.of_nat (length (blocks text)).
Proof.
  split; [exact demo_captured|].
  pose proof (Snapshot_bounded (fun _ => demo_dump) (mkOptions 0 0 1) None 5 false false eq_refl) as H.
  cbv zeta in H. fold demo_capture in H. rewrite demo_captured in H.
  destruct H as (_ & rep & text & m & groups & Hr & Hd & _ & _ & _ & Ho). injection Hr as <-. by exists text.
Defined.

Lemma Snapshot_rate_witness :
  granted "a" [(0, "a"); (1, "b"); (2, "a"); (3, "a")] (NewHandler 1 1) ≤ 4 ∧
  granted "a" [(0, "a"); (1, "b"); (2, "a"); (3, "a")] (NewHandler 1 1) = 1.
Proof.
  split; [|by vm_compute]. apply (Snapshot_rate 1 1 0 3 "a" [(0, "a"); (1, "b"); (2, "a"); (3, "a")]). simpl. lia.
Defined.

Lemma ServeHTTP_guarded_witness :
  ∃ rep l', ServeHTTP (fun _ => true) false (fun _ => demo_dump) (NewService (mkOptions 0 0 0)) 7 true None
    (mkSnapReq "GET" "1.2.3.4:5" (Some "1.2.3.4") "true" false) (NewHandler 0 0) = Some (rep, l') ∧
    (sr_status rep = 200 ↔ is_Some (sr_snapshot rep)).
Proof.
  destruct (ServeHTTP_guarded (fun _ => true) false (fun _ => demo_dump) (mkOptions 0 0 0) 7 true None
    (mkSnapReq "GET" "1.2.3.4:5" (Some "1.2.3.4") "true" false) (NewHandler 0 0)) as (rep & l' & ? & ? & _);
    [simpl; lia|by exists rep, l'].
Defined.

(** Attributes added before a group are retained inside the group, although only
later attributes belong to it. *)
Theorem Attrs_before_group_misplaced :
  ∃ e, captured (0, WithGroup "request" (WithAttrs [("service", SLeaf "feed")] h0), rec_of 8 "m" []) = Some e ∧
    get "service" (ev_fields e) = None ∧ get "service" (submap ["request"] (ev_fields e)) = Some (FLeaf "feed").
Proof. eexists. split_and!; by vm_compute. Qed.
