(* ===== verification/Telemetry.v ===== *)
(** * golangdebugging: bounded metrics, the failure laboratory and the feed

[telemetry/metrics.go]: allow-listed labels, the instrumented handler with its
response recorder, dependency timers.  [failurelab/lab.go]: the experiments with
their ceilings.  [cmd/feed-api/main.go]: the feed handler over them. *)

From Stdlib Require Import ZArith Lia Ascii.
From stdpp Require Import base gmap strings list fin_maps.
From S2P Require Import Prelude GoStrings.

Open Scope Z_scope.
Open Scope go_scope.

(** ** Labels *)

(* [base] golangdebugging/telemetry *)

(* [go] metrics.go:21-21 unknownLabel *)
Definition unknownLabel : string := "unknown".

Inductive config_error : Type :=
| EReserved (kind : string) | EDuplicate (kind value : string) | ENoRoute | ENoOperation (dependency : string)
| ERegistryPair | ERegister.

(* [go] metrics.go:269-281 makeAllowlist *)
Fixpoint makeAllowlist (values : list string) (kind : string) (allowed : gset string) : result config_error (gset string) :=
  match values with
  | [] => Ok allowed
  | value :: values =>
      if String.eqb value "" || String.eqb value unknownLabel then Err (EReserved kind)
      else if bool_decide (value ∈ allowed) then Err (EDuplicate kind value)
      else makeAllowlist values kind ({[value]} ∪ allowed)
  end.

(** The map in the order of its iteration. *)
(* [go] metrics.go:283-299 makeDependencyAllowlist *)
Fixpoint makeDependencyAllowlist (deps : list (string * list string)) (allowed : gmap string (gset string))
  : result config_error (gmap string (gset string)) :=
  match deps with
  | [] => Ok allowed
  | (dependency, operations) :: deps =>
      if String.eqb dependency "" || String.eqb dependency unknownLabel then Err (EReserved "dependency")
      else
        let? operationSet := makeAllowlist operations "operation" ∅ in
        if Nat.eqb (size operationSet) 0 then Err (ENoOperation dependency)
        else makeDependencyAllowlist deps (<[dependency := operationSet]> allowed)
  end.

(* [go] metrics.go:37-58 Config *)
Record Config : Type := mkConfig {
  c_Routes : list string; c_Dependencies : list (string * list string); c_Registerer : bool; c_Gatherer : bool }.

(** A series is identified by its labels. *)
Notation series := (string * string * string)%type.

(* [go] metrics.go:61-70 Metrics *)
Record Metrics : Type := mkMetrics {
  m_routes : gset string; m_dependencies : gmap string (gset string);
  m_requests : gmap series Z; m_requestDuration : gmap series Z; m_inFlight : gmap string Z;
  m_dependencyDuration : gmap series Z }.

(** [register] tells whether the registry takes the four collectors; histograms are
kept by their number of observations. *)
(* [go] metrics.go:86-153 New *)
Definition New (register : bool) (config : Config) : result config_error Metrics :=
  let? routes := makeAllowlist (c_Routes config) "route" ∅ in
  if Nat.eqb (size routes) 0 then Err ENoRoute
  else
    let? dependencies := makeDependencyAllowlist (c_Dependencies config) ∅ in
    if xorb (c_Registerer config) (c_Gatherer config) then Err ERegistryPair
    else if negb register then Err ERegister
    else Ok (mkMetrics routes dependencies ∅ ∅ ∅ ∅).

(* [go] metrics.go:251-256 Metrics.routeLabel *)
Definition routeLabel (m : Metrics) (route : string) : string :=
  if bool_decide (route ∈ m_routes m) then route else unknownLabel.

(* [go] metrics.go:258-267 Metrics.dependencyLabels *)
Definition dependencyLabels (m : Metrics) (dependency operation : string) : string * string :=
  match m_dependencies m !! dependency with
  | None => (unknownLabel, unknownLabel)
  | Some operations => (dependency, if bool_decide (operation ∈ operations) then operation else unknownLabel)
  end.

(** [strings.ToUpper] on ASCII text. *)
Definition upper (a : ascii) : ascii :=
  let n := nat_of_ascii a in if Nat.leb 97 n && Nat.leb n 122 then ascii_of_nat (n - 32) else a.
Fixpoint ToUpper (s : string) : string :=
  match s with EmptyString => EmptyString | String a s' => String (upper a) (ToUpper s') end.

Definition http_methods : list string :=
  ["GET"; "HEAD"; "POST"; "PUT"; "PATCH"; "DELETE"; "CONNECT"; "OPTIONS"; "TRACE"].

(* [go] metrics.go:301-308 requestMethod *)
Definition requestMethod (method : string) : string :=
  if bool_decide (ToUpper method ∈ http_methods) then ToUpper method else "OTHER".

(* [go] metrics.go:25-33 DependencyStatus *)
Definition dependency_statuses : list string := ["success"; "error"; "timeout"; "canceled"; "rejected"].

(* [go] metrics.go:310-317 dependencyStatusLabel *)
Definition dependencyStatusLabel (status : string) : string :=
  if bool_decide (status ∈ dependency_statuses) then status else unknownLabel.

(** ** The response recorder over the server's writer *)

(** The writer of [net/http]: informational headers that were sent, the final
status once it is, and whether the connection was taken over. *)
Record Writer : Type := mkWriter { w_info : list Z; w_final : option Z; w_hijacked : bool }.

Definition informational (status : Z) : bool := (100 <=? status) && (status <=? 199) && negb (status =? 101).

Definition writer_WriteHeader (status : Z) (w : Writer) : Writer :=
  if w_hijacked w then w
  else match w_final w with
       | Some _ => w
       | None => if informational status then mkWriter (w_info w ++ [status]) None false
                 else mkWriter (w_info w) (Some status) false
       end.

Definition writer_Write (w : Writer) : Writer := writer_WriteHeader 200 w.

(** What the client got when the handler has returned. *)
Definition client_status (w : Writer) : Z := default 200 (w_final w).

(* [go] metrics.go:319-323 responseRecorder *)
Record responseRecorder : Type := mkRecorder { rr_writer : Writer; rr_status : Z; rr_wroteHeader : bool }.

(* [go] metrics.go:325-332 responseRecorder.WriteHeader *)
Definition rr_WriteHeader (status : Z) (r : responseRecorder) : responseRecorder :=
  if rr_wroteHeader r then r else mkRecorder (writer_WriteHeader status (rr_writer r)) status true.

(* [go] metrics.go:334-339 responseRecorder.Write *)
Definition rr_Write (r : responseRecorder) : responseRecorder :=
  let r := if rr_wroteHeader r then r else rr_WriteHeader 200 r in
  mkRecorder (writer_Write (rr_writer r)) (rr_status r) (rr_wroteHeader r).

(** The copied bytes reach the same writer. *)
(* [go] metrics.go:341-349 responseRecorder.ReadFrom *)
Definition rr_ReadFrom (r : responseRecorder) : responseRecorder := rr_Write r.

(** Flushing sends the header. *)
(* [go] metrics.go:351-358 responseRecorder.Flush *)
Definition rr_Flush (r : responseRecorder) : responseRecorder :=
  let r := if rr_wroteHeader r then r else rr_WriteHeader 200 r in
  mkRecorder (writer_Write (rr_writer r)) (rr_status r) (rr_wroteHeader r).

(** [supported]: the writer is a Hijacker. *)
(* [go] metrics.go:360-370 responseRecorder.Hijack *)
Definition rr_Hijack (supported : bool) (r : responseRecorder) : responseRecorder :=
  if negb supported then r
  else
    let r := if rr_wroteHeader r then r else mkRecorder (rr_writer r) 101 true in
    mkRecorder (mkWriter (w_info (rr_writer r)) (w_final (rr_writer r)) true) (rr_status r) (rr_wroteHeader r).

(* [go] metrics.go:384-389 responseRecorder.statusCode *)
Definition statusCode (r : responseRecorder) : Z := if rr_status r =? 0 then 200 else rr_status r.

(** What a handler does with its writer. *)
Inductive write_op : Type := OWriteHeader (status : Z) | OWrite | OReadFrom | OFlush | OHijack (supported : bool).

Definition record_op (o : write_op) (r : responseRecorder) : responseRecorder :=
  match o with
  | OWriteHeader s => rr_WriteHeader s r
  | OWrite => rr_Write r
  | OReadFrom => rr_ReadFrom r
  | OFlush => rr_Flush r
  | OHijack b => rr_Hijack b r
  end.

Definition fresh_recorder : responseRecorder := mkRecorder (mkWriter [] None false) 0 false.

(** ** Instrumented requests and dependency timers, interleaved *)

(** A request between its start and its end. *)
Record open_request : Type := mkOpen { or_route : string; or_method : string; or_rec : responseRecorder }.

(** A dependency timer: its names and whether it was observed. *)
Record timer : Type := mkTimer { tm_dependency : string; tm_operation : string; tm_once : bool }.

Record TState : Type := mkT { t_metrics : Metrics; t_open : gmap nat open_request; t_timers : gmap nat timer }.

Definition bump {K} `{Countable K} (d : Z) (k : K) (m : gmap K Z) : gmap K Z := <[k := default 0 (m !! k) + d]> m.

(* [go] metrics.go:215-218 Metrics.ObserveDependencyContext *)
Definition ObserveDependency (dependency operation status : string) (m : Metrics) : Metrics :=
  let '(d, o) := dependencyLabels m dependency operation in
  mkMetrics (m_routes m) (m_dependencies m) (m_requests m) (m_requestDuration m) (m_inFlight m)
    (bump 1 (d, o, dependencyStatusLabel status) (m_dependencyDuration m)).

(** Before the next handler runs. *)
(* [go] metrics.go:175-182 Metrics.WrapObserved *)
Definition request_start (id : nat) (route method : string) (s : TState) : TState :=
  let m := t_metrics s in
  let route := routeLabel m route in
  mkT (mkMetrics (m_routes m) (m_dependencies m) (m_requests m) (m_requestDuration m) (bump 1 route (m_inFlight m))
         (m_dependencyDuration m))
    (<[id := mkOpen route (requestMethod method) fresh_recorder]> (t_open s)) (t_timers s).

(** The deferred calls, after the handler returned or panicked. *)
(* [go] metrics.go:180-201 Metrics.WrapObserved *)
Definition request_end (id : nat) (completed : bool) (q : open_request) (s : TState) : TState :=
  let m := t_metrics s in
  let status := if completed then statusCode (or_rec q) else 500 in
  let key := (or_route q, or_method q, Itoa status) in
  mkT (mkMetrics (m_routes m) (m_dependencies m) (bump 1 key (m_requests m)) (bump 1 key (m_requestDuration m))
         (bump (-1) (or_route q) (m_inFlight m)) (m_dependencyDuration m))
    (delete id (t_open s)) (t_timers s).

(* [go] metrics.go:232-240 Metrics.StartDependencyContext *)
Definition timer_done (id : nat) (status : string) (t : timer) (s : TState) : TState :=
  if tm_once t then s
  else mkT (ObserveDependency (tm_dependency t) (tm_operation t) status (t_metrics s)) (t_open s)
         (<[id := mkTimer (tm_dependency t) (tm_operation t) true]> (t_timers s)).

Inductive tel_op : Type :=
| TStart (id : nat) (route method : string)
| TWrite (id : nat) (o : write_op)
| TEnd (id : nat) (completed : bool)
| TTimer (id : nat) (dependency operation : string)
| TDone (id : nat) (status : string).

(** One step of some goroutine; steps on unknown or used ids do nothing. *)
Definition tel_exec (s : TState) (o : tel_op) : TState :=
  match o with
  | TStart id route method => match t_open s !! id with None => request_start id route method s | Some _ => s end
  | TWrite id w =>
      match t_open s !! id with
      | Some q => mkT (t_metrics s) (<[id := mkOpen (or_route q) (or_method q) (record_op w (or_rec q))]> (t_open s))
                    (t_timers s)
      | None => s
      end
  | TEnd id completed => match t_open s !! id with Some q => request_end id completed q s | None => s end
  | TTimer id d op =>
      match t_timers s !! id with
      | None => mkT (t_metrics s) (t_open s) (<[id := mkTimer d op false]> (t_timers s))
      | Some _ => s
      end
  | TDone id status => match t_timers s !! id with Some t => timer_done id status t s | None => s end
  end.

(** *** What happened

The same steps without metrics, labels or recorders: requests with the pattern and
method they came with and the calls their handler made on its writer, whether the
handler returned or panicked, and timers with the status of their first stop. *)
Record raw_request : Type := mkRaw { rw_route : string; rw_method : string; rw_writes : list write_op }.
Record raw_timer : Type := mkRT { rt_dependency : string; rt_operation : string; rt_status : option string }.
Record happened : Type := mkHappened {
  hp_open : gmap nat raw_request; hp_done : list (raw_request * bool); hp_timers : gmap nat raw_timer }.

Definition happen (h : happened) (o : tel_op) : happened :=
  match o with
  | TStart id route method =>
      match hp_open h !! id with
      | None => mkHappened (<[id := mkRaw route method []]> (hp_open h)) (hp_done h) (hp_timers h)
      | Some _ => h
      end
  | TWrite id w =>
      match hp_open h !! id with
      | Some q => mkHappened (<[id := mkRaw (rw_route q) (rw_method q) (rw_writes q ++ [w])]> (hp_open h)) (hp_done h) (hp_timers h)
      | None => h
      end
  | TEnd id completed =>
      match hp_open h !! id with
      | Some q => mkHappened (delete id (hp_open h)) (hp_done h ++ [(q, completed)]) (hp_timers h)
      | None => h
      end
  | TTimer id d op =>
      match hp_timers h !! id with
      | None => mkHappened (hp_open h) (hp_done h) (<[id := mkRT d op None]> (hp_timers h))
      | Some _ => h
      end
  | TDone id status =>
      match hp_timers h !! id with
      | Some (mkRT d op None) => mkHappened (hp_open h) (hp_done h) (<[id := mkRT d op (Some status)]> (hp_timers h))
      | _ => h
      end
  end.

(** *** Under which labels it is to be counted *)

Section wanted.
Context (cfg : Config).

Definition want_route (route : string) : string := if bool_decide (route ∈ c_Routes cfg) then route else "unknown".

Definition want_method (method : string) : string :=
  if bool_decide (ToUpper method ∈ ["GET"; "HEAD"; "POST"; "PUT"; "PATCH"; "DELETE"; "CONNECT"; "OPTIONS"; "TRACE"])
  then ToUpper method else "OTHER".

(** The first call on the writer that settles the status; 200 if there is none. *)
Fixpoint want_status (writes : list write_op) : Z :=
  match writes with
  | [] => 200
  | OWriteHeader s :: _ => if s =? 0 then 200 else s
  | OHijack true :: _ => 101
  | OHijack false :: writes => want_status writes
  | _ :: _ => 200
  end.

(** A handler that panicked counts as 500, whatever it wrote before. *)
Definition want_series (x : raw_request * bool) : series :=
  (want_route (rw_route x.1), want_method (rw_method x.1),
   if x.2 then Itoa (want_status (rw_writes x.1)) else "500").

Definition want_operation (d o : string) : string :=
  if bool_decide (Exists (fun x => x.1 = d ∧ o ∈ x.2) (c_Dependencies cfg)) then o else "unknown".

(** A timer that was not stopped is not counted. *)
Definition want_dependency (t : raw_timer) : option series :=
  (fun status =>
    ((if bool_decide (rt_dependency t ∈ (c_Dependencies cfg).*1) then rt_dependency t else "unknown"),
     want_operation (rt_dependency t) (rt_operation t),
     (if bool_decide (status ∈ ["success"; "error"; "timeout"; "canceled"; "rejected"]) then status else "unknown")))
  <$> rt_status t.

Definition tally {A B} `{EqDecision B} (f : A → B) (k : B) (x : A) : Z := if decide (f x = k) then 1 else 0.

Definition recorder_of (writes : list write_op) : responseRecorder := foldl (fun r o => record_op o r) fresh_recorder writes.

Definition open_of (q : raw_request) : open_request :=
  mkOpen (want_route (rw_route q)) (want_method (rw_method q)) (recorder_of (rw_writes q)).

Definition timer_of (t : raw_timer) : timer :=
  mkTimer (rt_dependency t) (rt_operation t) (match rt_status t with Some _ => true | None => false end).

(** The state of the metrics tells what happened. *)
Record tells (m : Metrics) (s : TState) (h : happened) : Prop := {
  te_open : t_open s = open_of <$> hp_open h;
  te_timers : t_timers s = timer_of <$> hp_timers h;
  te_routes : m_routes (t_metrics s) = m_routes m;
  te_dependencies : m_dependencies (t_metrics s) = m_dependencies m;
  te_requests k : default 0 (m_requests (t_metrics s) !! k) = zsum (tally want_series k) (hp_done h);
  te_durations : m_requestDuration (t_metrics s) = m_requests (t_metrics s);
  te_flight r : default 0 (m_inFlight (t_metrics s) !! r) = msum (tally (fun q => want_route (rw_route q)) r) (hp_open h);
  te_deps k : default 0 (m_dependencyDuration (t_metrics s) !! k) = msum (tally want_dependency (Some k)) (hp_timers h);
  te_series k : is_Some (m_requests (t_metrics s) !! k) → ∃ x, k = want_series x;
  te_flights r : is_Some (m_inFlight (t_metrics s) !! r) → ∃ r0, r = want_route r0;
  te_depkeys k : is_Some (m_dependencyDuration (t_metrics s) !! k) → ∃ t, want_dependency t = Some k }.
End wanted.

Lemma lookup_bump {K} `{Countable K} d k (m : gmap K Z) k' :
  default 0 (bump d k m !! k') = default 0 (m !! k') + (if decide (k = k') then d else 0).
Proof. unfold bump. rewrite lookup_insert. case_decide; simpl; [by subst|lia]. Qed.

Lemma bump_Some {K} `{Countable K} d k (m : gmap K Z) k' : is_Some (bump d k m !! k') → k' = k ∨ is_Some (m !! k').
Proof. unfold bump. rewrite lookup_insert. case_decide; auto. Qed.

(** The recorder keeps the status of the first call that settles it. *)
Lemma record_settled o r : rr_wroteHeader r = true → rr_status (record_op o r) = rr_status r ∧ rr_wroteHeader (record_op o r) = true.
Proof.
  intros Hw. destruct o as [s| | | |[]]; simpl; unfold rr_ReadFrom, rr_Write, rr_Flush, rr_WriteHeader, rr_Hijack; rewrite ?Hw; simpl; by rewrite ?Hw.
Qed.

Lemma records_settled writes r : rr_wroteHeader r = true →
  rr_status (foldl (fun r o => record_op o r) r writes) = rr_status r.
Proof.
  revert r. induction writes as [|o writes IH]; intros r Hr; [done|]. simpl.
  destruct (record_settled o r Hr) as [Hs Hw]. by rewrite IH.
Qed.

Lemma statusCode_wanted writes : statusCode (recorder_of writes) = want_status writes.
Proof.
  unfold recorder_of, statusCode. induction writes as [|o writes IH]; [done|]. cbn [foldl want_status].
  destruct o as [s| | | |[]]; [rewrite records_settled by done..|]; done.
Qed.

Section tells.
Context (cfg : Config) (m : Metrics).
Context (m_cfg : m_routes m = list_to_set (c_Routes cfg)).
Context (deps_cfg : ∀ d o, dependencyLabels m d o =
  ((if bool_decide (d ∈ (c_Dependencies cfg).*1) then d else "unknown"), want_operation cfg d o)).

Lemma routeLabel_wanted M r : m_routes M = m_routes m → routeLabel M r = want_route cfg r.
Proof.
  intros HM. unfold routeLabel, want_route. rewrite HM, m_cfg. by rewrite (bool_decide_ext (r ∈ list_to_set (C := gset string) (c_Routes cfg)) (r ∈ c_Routes cfg)) by set_solver.
Qed.

Lemma tells_start s h id route method : tells cfg m s h → tells cfg m (tel_exec s (TStart id route method)) (happen h (TStart id route method)).
Proof.
  intros Ht. pose proof Ht as [Ho Hti Hr Hd Hq Hdu Hf Hde Hs Hfl Hk]. simpl. rewrite Ho, lookup_fmap.
  destruct (hp_open h !! id) as [q|] eqn:E; simpl; [done|]. unfold request_start. rewrite routeLabel_wanted by done.
  split; simpl; try done.
  - by rewrite ?Ho, ?Hti, fmap_insert.
  - intros r. rewrite lookup_bump, Hf, msum_insert_new by done. unfold tally at 2. simpl. lia.
  - intros r [->|Hx]%bump_Some; [by eexists|by apply Hfl].
Qed.

Lemma tells_write s h id w : tells cfg m s h → tells cfg m (tel_exec s (TWrite id w)) (happen h (TWrite id w)).
Proof.
  intros Ht. pose proof Ht as [Ho Hti Hr Hd Hq Hdu Hf Hde Hs Hfl Hk]. simpl. rewrite Ho, lookup_fmap.
  destruct (hp_open h !! id) as [q|] eqn:E; simpl; [|done]. split; simpl; try done.
  - rewrite fmap_insert. unfold open_of at 2. cbn [rw_route rw_method rw_writes]. unfold recorder_of. by rewrite foldl_snoc.
  - intros r. rewrite Hf, (msum_insert _ _ _ _ _ E). unfold tally at 3 4. simpl. lia.
Qed.

Lemma tells_end s h id completed : tells cfg m s h → tells cfg m (tel_exec s (TEnd id completed)) (happen h (TEnd id completed)).
Proof.
  intros Ht. pose proof Ht as [Ho Hti Hr Hd Hq Hdu Hf Hde Hs Hfl Hk]. simpl. rewrite Ho, lookup_fmap.
  destruct (hp_open h !! id) as [q|] eqn:E; simpl; [|done].
  assert ((or_route (open_of cfg q), or_method (open_of cfg q), Itoa (if completed then statusCode (or_rec (open_of cfg q)) else 500))
    = want_series cfg (q, completed)) as Hkey.
  { unfold want_series. simpl. destruct completed; [by rewrite statusCode_wanted|done]. }
  unfold request_end. rewrite Hkey. split; simpl; try done.
  - by rewrite ?Ho, fmap_delete.
  - intros k. rewrite lookup_bump, Hq, zsum_app. simpl. unfold tally at 3. repeat case_decide; try done; lia.
  - by rewrite Hdu.
  - intros r. rewrite lookup_bump, Hf, (msum_delete _ _ _ _ E). unfold tally at 1. case_decide; lia.
  - intros k [->|Hx]%bump_Some; [by eexists|by apply Hs].
  - intros r [->|Hx]%bump_Some; [by eexists|by apply Hfl].
Qed.

Lemma tells_timer s h id d op : tells cfg m s h → tells cfg m (tel_exec s (TTimer id d op)) (happen h (TTimer id d op)).
Proof.
  intros Ht. pose proof Ht as [Ho Hti Hr Hd Hq Hdu Hf Hde Hs Hfl Hk]. simpl. rewrite Hti, lookup_fmap.
  destruct (hp_timers h !! id) as [q|] eqn:E; simpl; [done|]. split; simpl; try done.
  - by rewrite ?Ho, ?Hti, fmap_insert.
  - intros k. rewrite Hde, msum_insert_new by done. done.
Qed.

Lemma tells_done s h id status : tells cfg m s h → tells cfg m (tel_exec s (TDone id status)) (happen h (TDone id status)).
Proof.
  intros Ht. pose proof Ht as [Ho Hti Hr Hd Hq Hdu Hf Hde Hs Hfl Hk]. simpl. rewrite Hti, lookup_fmap.
  destruct (hp_timers h !! id) as [[d op [st|]]|] eqn:E; simpl; [done| |done].
  unfold timer_done. simpl. unfold ObserveDependency.
  assert (dependencyLabels (t_metrics s) d op = dependencyLabels m d op) as -> by (unfold dependencyLabels; by rewrite Hd).
  rewrite deps_cfg. set (key := (_, _, dependencyStatusLabel status)).
  assert (want_dependency cfg (mkRT d op (Some status)) = Some key) as Hkey by done.
  split; simpl; try done.
  - by rewrite ?Ho, ?Hti, fmap_insert.
  - intros k. rewrite lookup_bump, Hde, (msum_insert _ _ _ _ _ E).
    assert (tally (want_dependency cfg) (Some k) (mkRT d op None) = 0) as -> by done.
    assert (tally (want_dependency cfg) (Some k) (mkRT d op (Some status)) = if decide (key = k) then 1 else 0) as ->; [|lia].
    unfold tally. rewrite Hkey. repeat case_decide; congruence.
  - intros k [->|Hx]%bump_Some; [by eexists|by apply Hk].
Qed.

Lemma tells_run s h ops : tells cfg m s h → tells cfg m (foldl tel_exec s ops) (foldl happen h ops).
Proof.
  revert s h. induction ops as [|o ops IH]; intros s h Ht; [done|]. apply IH.
  destruct o; auto using tells_start, tells_write, tells_end, tells_timer, tells_done.
Qed.
End tells.

(** ** Allow lists and statuses *)

Lemma makeAllowlist_ok values kind allowed set :
  makeAllowlist values kind allowed = Ok set →
  set = list_to_set values ∪ allowed ∧ NoDup values ∧ (∀ v, v ∈ values → v ≠ "" ∧ v ≠ unknownLabel ∧ v ∉ allowed).
Proof.
  revert allowed. induction values as [|v values IH]; intros allowed; simpl.
  { intros [= <-]. split_and!; [set_solver|constructor|set_solver]. }
  destruct (String.eqb_spec v ""); [done|]. destruct (String.eqb_spec v unknownLabel); [done|]. simpl.
  case_bool_decide as Hin; [done|]. intros (-> & Hnd & Hv)%IH. split_and!.
  - set_solver.
  - constructor; [|done]. intros Hc%Hv. set_solver.
  - intros x [->|Hx]%elem_of_cons; [done|]. destruct (Hv x Hx) as (? & ? & ?). set_solver.
Qed.

Lemma makeDependency_ok deps allowed out :
  makeDependencyAllowlist deps allowed = Ok out →
  (∀ d, is_Some (allowed !! d) → d ≠ unknownLabel) → ∀ d, is_Some (out !! d) → d ≠ unknownLabel.
Proof.
  revert allowed. induction deps as [|[d ops] deps IH]; intros allowed; simpl; [by intros [= <-]|].
  destruct (String.eqb_spec d ""); [done|]. destruct (String.eqb_spec d unknownLabel); [done|]. simpl.
  destruct (makeAllowlist ops _ _) as [set|]; simpl; [|done]. destruct (Nat.eqb _ 0); [done|].
  intros Ho Ha. apply (IH _ Ho). intros x. rewrite lookup_insert. case_decide; [congruence|auto].
Qed.

(** The allow list holds the operations of every dependency of the configuration. *)
Lemma makeDependency_lookup deps allowed out d :
  makeDependencyAllowlist deps allowed = Ok out → NoDup deps.*1 →
  (∀ ops, (d, ops) ∈ deps → out !! d = Some (list_to_set ops)) ∧ (d ∉ deps.*1 → out !! d = allowed !! d).
Proof.
  revert allowed. induction deps as [|[d' ops'] deps IH]; intros allowed; simpl.
  { intros [= <-] _. split; [by intros ops ?%elem_of_nil|done]. }
  destruct (_ || _); [done|]. destruct (makeAllowlist ops' _ _) as [set|] eqn:E; simpl; [|done].
  destruct (Nat.eqb _ 0); [done|]. intros Hm [Hn Hnd]%NoDup_cons. destruct (IH _ Hm Hnd) as [H1 H2].
  apply makeAllowlist_ok in E as (-> & _). split.
  - intros ops [[= -> ->]|Hin]%elem_of_cons; [|by apply H1]. rewrite H2, lookup_insert_eq by done. f_equal. set_solver.
  - intros [Hne Hd]%not_elem_of_cons. rewrite H2 by done. by rewrite lookup_insert_ne.
Qed.

Lemma dependencyLabels_wanted cfg m d o :
  makeDependencyAllowlist (c_Dependencies cfg) ∅ = Ok (m_dependencies m) → NoDup (c_Dependencies cfg).*1 →
  dependencyLabels m d o = ((if bool_decide (d ∈ (c_Dependencies cfg).*1) then d else "unknown"), want_operation cfg d o).
Proof.
  intros Hm Hnd. destruct (makeDependency_lookup _ _ _ d Hm Hnd) as [H1 H2]. unfold dependencyLabels, want_operation.
  destruct (bool_decide_reflect (d ∈ (c_Dependencies cfg).*1)) as [Hd|Hd].
  - apply list_elem_of_fmap in Hd as ([d' ops] & -> & Hin). simpl in *. rewrite (H1 ops Hin). f_equal.
    rewrite (bool_decide_ext (o ∈ list_to_set (C := gset string) ops) (Exists (fun x => x.1 = d' ∧ o ∈ x.2) (c_Dependencies cfg)));
      [done|]. rewrite elem_of_list_to_set, Exists_exists. split; [intros Ho; by exists (d', ops)|].
    intros ([d2 ops2] & Hin2 & Heq & Ho). simpl in *. subst d2. pose proof (H1 ops Hin) as E1. rewrite (H1 ops2 Hin2) in E1.
    apply (inj Some) in E1. apply (elem_of_list_to_set (C := gset string)). rewrite <- E1. by apply elem_of_list_to_set.
  - rewrite H2, lookup_empty by done. rewrite bool_decide_eq_false_2; [done|].
    intros ([d2 ops2] & Hin2 & Heq & Ho)%Exists_exists. apply Hd, list_elem_of_fmap. exists (d2, ops2). by split.
Qed.

Lemma New_parts register cfg m : New register cfg = Ok m →
  m = mkMetrics (m_routes m) (m_dependencies m) ∅ ∅ ∅ ∅ ∧
  m_routes m = list_to_set (c_Routes cfg) ∧ unknownLabel ∉ m_routes m ∧ m_dependencies m !! unknownLabel = None ∧
  makeDependencyAllowlist (c_Dependencies cfg) ∅ = Ok (m_dependencies m).
Proof.
  unfold New. destruct (makeAllowlist _ _ _) as [routes|] eqn:E; simpl; [|done]. destruct (Nat.eqb _ 0); [done|].
  destruct (makeDependencyAllowlist _ _) as [deps|] eqn:Ed; simpl; [|done].
  destruct (xorb _ _); [done|]. destruct register; [|done]. intros [= <-]. simpl.
  apply makeAllowlist_ok in E as (-> & _ & Hv). split_and!; [done|set_solver| | |done].
  - intros Hu. assert (unknownLabel ∈ c_Routes cfg) as Hin by set_solver. by destruct (Hv _ Hin) as (_ & ? & _).
  - destruct (deps !! unknownLabel) eqn:Eu; [|done]. exfalso.
    eapply (makeDependency_ok _ _ _ Ed); [|by eexists|done]. intros d. rewrite lookup_empty. by intros [? ?].
Qed.

(** A handler that neither takes over the connection nor sends informational
headers. *)
Definition plain (o : write_op) : Prop :=
  match o with OWriteHeader s => 200 ≤ s | OHijack b => b = false | _ => True end.

Definition rec_agrees (r : responseRecorder) : Prop :=
  w_hijacked (rr_writer r) = false ∧
  if rr_wroteHeader r then w_final (rr_writer r) = Some (rr_status r) ∧ rr_status r ≠ 0
  else w_final (rr_writer r) = None ∧ rr_status r = 0.

Lemma rr_WriteHeader_agrees s r : 200 ≤ s → rec_agrees r → rec_agrees (rr_WriteHeader s r).
Proof.
  unfold rec_agrees, rr_WriteHeader. intros Hs [Hh Hr]. destruct (rr_wroteHeader r) eqn:E; [by rewrite Hh, E|]. simpl.
  unfold writer_WriteHeader. rewrite Hh. destruct Hr as [-> _].
  assert (informational s = false) as ->; [|simpl; split_and!; [done|done|lia]].
  unfold informational. rewrite (proj2 (Z.leb_gt s 199)) by lia. by destruct (100 <=? s).
Qed.

Lemma rr_Write_agrees r : rec_agrees r → rec_agrees (rr_Write r).
Proof.
  intros Hr. unfold rr_Write.
  assert (rec_agrees (if rr_wroteHeader r then r else rr_WriteHeader 200 r) ∧
    rr_wroteHeader (if rr_wroteHeader r then r else rr_WriteHeader 200 r) = true) as [Ha Hw].
  { destruct (rr_wroteHeader r) eqn:E; [done|]. split; [by apply rr_WriteHeader_agrees|]. unfold rr_WriteHeader. by rewrite E. }
  generalize dependent (if rr_wroteHeader r then r else rr_WriteHeader 200 r). intros r' Ha Hw.
  destruct Ha as [Hh Ha]. rewrite Hw in Ha. destruct Ha as [Hf Hn]. unfold rec_agrees. simpl. rewrite Hw.
  unfold writer_Write, writer_WriteHeader. by rewrite Hh, Hf.
Qed.

Lemma record_op_agrees o r : plain o → rec_agrees r → rec_agrees (record_op o r).
Proof.
  destruct o as [s| | | |b]; simpl; intros Hp Hr;
    [by apply rr_WriteHeader_agrees|by apply rr_Write_agrees|by apply rr_Write_agrees|by apply rr_Write_agrees|by subst b].
Qed.

(** ** failurelab *)

(* [base] golangdebugging/failurelab *)

(** Durations in nanoseconds; the logger and the HTTP client have defaults. *)
(* [go] lab.go:20-31 Config *)
Record LabConfig : Type := mkLabConfig {
  lc_Enabled : bool; lc_Token : string; lc_Database : bool; lc_RetryTargetURL : string;
  lc_MaxLeakedGoroutines : Z; lc_MaxMemoryMiB : Z; lc_MaxDBHolders : Z; lc_MaxDuration : Z }.

(** [lab_allocations] are the lengths of the retained blocks. *)
(* [go] lab.go:34-41 Lab *)
Record Lab : Type := mkLab {
  lab_config : LabConfig; lab_leakGate : nat; lab_leaked : Z; lab_allocations : list Z }.

Definition millisecond : Z := 10 ^ 6.
Definition positive_or (v d : Z) : Z := if v <=? 0 then d else v.

(* [go] lab.go:44-64 New *)
Definition NewLab (c : LabConfig) : Lab :=
  mkLab (mkLabConfig (lc_Enabled c) (lc_Token c) (lc_Database c) (lc_RetryTargetURL c)
      (positive_or (lc_MaxLeakedGoroutines c) 256) (positive_or (lc_MaxMemoryMiB c) 128)
      (positive_or (lc_MaxDBHolders c) 32) (positive_or (lc_MaxDuration c) (30 * 1000 * millisecond)))
    0 0 [].

(** [query] is the text of the parameter. *)
(* [go] lab.go:249-261 boundedInt *)
Definition boundedInt (query : string) (fallback minimum maximum : Z) : Z :=
  match ParseInt query with
  | None => fallback
  | Some value => if value <? minimum then minimum else if maximum <? value then maximum else value
  end.

(* [go] lab.go:263-266 boundedDuration *)
Definition boundedDuration (query : string) (fallback maximum : Z) : Z :=
  boundedInt query (Z.quot fallback millisecond) 1 (Z.quot maximum millisecond) * millisecond.

(** The part of [leakGoroutines] under the lock: the gate and the number of
goroutines that are then started on it. *)
(* [go] lab.go:112-121 Lab.leakGoroutines *)
Definition leak_reserve (query : string) (l : Lab) : Lab * nat * Z :=
  let max := lc_MaxLeakedGoroutines (lab_config l) in
  let count := boundedInt query 25 1 max in
  let remaining := max - lab_leaked l in
  let count := if remaining <? count then remaining else count in
  (mkLab (lab_config l) (lab_leakGate l) (lab_leaked l + count) (lab_allocations l), lab_leakGate l, count).

(* [go] lab.go:129-150 Lab.allocateMemory *)
Definition allocateMemory (query : string) (l : Lab) : Lab * Z :=
  let max := lc_MaxMemoryMiB (lab_config l) in
  let requested := boundedInt query 16 1 max in
  let used := zsum (fun n => Z.shiftr n 20) (lab_allocations l) in
  let remaining := max - used in
  let requested := if remaining <? requested then remaining else requested in
  (if 0 <? requested
   then mkLab (lab_config l) (lab_leakGate l) (lab_leaked l) (lab_allocations l ++ [Z.shiftl requested 20])
   else l, requested).

(** The holders that are started and how long each keeps its connection. *)
(* [go] lab.go:152-179 Lab.exhaustDatabase *)
Definition exhaustDatabase (connections duration_ms : string) (l : Lab) : option (Z * Z) :=
  if negb (lc_Database (lab_config l)) then None
  else Some (boundedInt connections 8 1 (lc_MaxDBHolders (lab_config l)),
             boundedDuration duration_ms (10 * 1000 * millisecond) (lc_MaxDuration (lab_config l))).

(** [reply i]: the status of the [i]-th call, [None] when it failed. *)
(* [go] lab.go:181-208 Lab.retryStorm *)
Definition retryStorm (attempts : string) (reply : nat → option Z) (l : Lab) : option (Z * Z) :=
  if String.eqb (lc_RetryTargetURL (lab_config l)) "" then None
  else
    let attempts := boundedInt attempts 10 1 25 in
    Some (attempts, zsum (fun i => match reply i with None => 1 | Some st => if 500 <=? st then 1 else 0 end)
                      (seq 0 (Z.to_nat attempts))).

(* [go] lab.go:210-220 Lab.slowDependency *)
Definition slowDependency (duration_ms : string) (l : Lab) : Z :=
  boundedDuration duration_ms (2 * 1000 * millisecond) (lc_MaxDuration (lab_config l)).

(** Closing the gate releases every goroutine that waits at it. *)
(* [go] lab.go:222-230 Lab.reset *)
Definition reset (l : Lab) : Lab := mkLab (lab_config l) (S (lab_leakGate l)) 0 [].

(* [go] lab.go:232-241 Lab.writeStatus *)
Definition writeStatus (l : Lab) : Z * Z := (lab_leaked l, zsum (fun n => n) (lab_allocations l)).

(** The request: token header, method, experiment and parameters; [calls] are the
replies of the retry target, [gone] tells that the client left a slow call. *)
Record LabRequest : Type := mkLabReq {
  lq_token : string; lq_method : string; lq_experiment : string; lq_count : string; lq_mib : string;
  lq_connections : string; lq_duration_ms : string; lq_attempts : string; lq_calls : nat → option Z; lq_gone : bool }.

(** Goroutines that are started: on a gate, or as holders of a connection. *)
Inductive spawn : Type := SpawnNone | SpawnLeak (gate : nat) (count : Z) | SpawnHolders (count hold : Z).

(** The status, when there is a reply, and the numbers in it. *)
(* [go] lab.go:72-110 Lab.serveHTTP *)
Definition lab_serve (r : LabRequest) (l : Lab) : Lab * spawn * option (Z * list Z) :=
  let c := lab_config l in
  if negb (lc_Enabled c) then (l, SpawnNone, Some (404, []))
  else if String.eqb (lc_Token c) "" || negb (String.eqb (lq_token r) (lc_Token c)) then (l, SpawnNone, Some (401, []))
  else if String.eqb (lq_method r) "GET" && String.eqb (lq_experiment r) "status" then
    (l, SpawnNone, Some (200, [(writeStatus l).1; (writeStatus l).2]))
  else if negb (String.eqb (lq_method r) "POST") then (l, SpawnNone, Some (405, []))
  else if String.eqb (lq_experiment r) "goroutine-leak" then
    let '(l', gate, count) := leak_reserve (lq_count r) l in (l', SpawnLeak gate count, Some (202, [count]))
  else if String.eqb (lq_experiment r) "memory-pressure" then
    let '(l', n) := allocateMemory (lq_mib r) l in (l', SpawnNone, Some (202, [n]))
  else if String.eqb (lq_experiment r) "db-pool-exhaustion" then
    match exhaustDatabase (lq_connections r) (lq_duration_ms r) l with
    | None => (l, SpawnNone, Some (503, []))
    | Some (count, hold) => (l, SpawnHolders count hold, Some (202, [count; hold]))
    end
  else if String.eqb (lq_experiment r) "retry-storm" then
    match retryStorm (lq_attempts r) (lq_calls r) l with
    | None => (l, SpawnNone, Some (503, []))
    | Some (attempts, failures) => (l, SpawnNone, Some (200, [attempts; failures]))
    end
  else if String.eqb (lq_experiment r) "slow-dependency" then
    (l, SpawnNone, if lq_gone r then None else Some (200, [slowDependency (lq_duration_ms r) l]))
  else if String.eqb (lq_experiment r) "always-fail" then (l, SpawnNone, Some (503, []))
  else if String.eqb (lq_experiment r) "reset" then (reset l, SpawnNone, Some (200, []))
  else (l, SpawnNone, Some (404, [])).

(** *** The laboratory with its goroutines

The spawns happen after the lock is given up; a goroutine started on a closed gate
ends at once, and closing a gate ends those that wait at it. *)
Record LabWorld : Type := mkLW { lw_lab : Lab; lw_pending : list (nat * Z); lw_blocked : gmap nat Z }.

Inductive lab_op : Type := LServe (r : LabRequest) | LSpawn (i : nat).

Definition lab_exec (w : LabWorld) (o : lab_op) : LabWorld :=
  match o with
  | LServe r =>
      let '(l, sp, _) := lab_serve r (lw_lab w) in
      let blocked := if Nat.eqb (lab_leakGate l) (lab_leakGate (lw_lab w)) then lw_blocked w
                     else delete (lab_leakGate (lw_lab w)) (lw_blocked w) in
      mkLW l (match sp with SpawnLeak g n => lw_pending w ++ [(g, n)] | _ => lw_pending w end) blocked
  | LSpawn i =>
      match lw_pending w !! i with
      | None => w
      | Some (g, n) =>
          mkLW (lw_lab w) (delete i (lw_pending w))
            (if Nat.eqb g (lab_leakGate (lw_lab w)) then bump n g (lw_blocked w) else lw_blocked w)
      end
  end.

Definition at_gate (g : nat) (p : nat * Z) : Z := if Nat.eqb p.1 g then p.2 else 0.

(** The goroutines waiting at the open gate, with those about to, are those the
laboratory counts; none wait elsewhere; and both ceilings hold. *)
Record lab_ok (w : LabWorld) : Prop := {
  lk_leaked : default 0 (lw_blocked w !! lab_leakGate (lw_lab w)) + zsum (at_gate (lab_leakGate (lw_lab w))) (lw_pending w)
              = lab_leaked (lw_lab w);
  lk_max : 0 ≤ lab_leaked (lw_lab w) ≤ lc_MaxLeakedGoroutines (lab_config (lw_lab w));
  lk_pending p : p ∈ lw_pending w → 0 ≤ p.2 ∧ (p.1 ≤ lab_leakGate (lw_lab w))%nat;
  lk_open g n : lw_blocked w !! g = Some n → g = lab_leakGate (lw_lab w) ∧ 0 ≤ n;
  lk_mem n : n ∈ lab_allocations (lw_lab w) → ∃ k, 0 < k ∧ n = k * 2 ^ 20;
  lk_memory : zsum (fun n => n) (lab_allocations (lw_lab w)) ≤ lc_MaxMemoryMiB (lab_config (lw_lab w)) * 2 ^ 20;
  lk_pos : 0 < lc_MaxLeakedGoroutines (lab_config (lw_lab w)) ∧ 0 < lc_MaxMemoryMiB (lab_config (lw_lab w)) }.

Lemma boundedInt_range q fallback minimum maximum :
  minimum ≤ maximum → minimum ≤ fallback → minimum ≤ boundedInt q fallback minimum maximum ∧
  (fallback ≤ maximum → boundedInt q fallback minimum maximum ≤ maximum).
Proof. intros H1 H2. unfold boundedInt. destruct (ParseInt q); [|lia]. repeat case_test; zbool; lia. Qed.

Lemma memory_used l : (∀ n, n ∈ l → ∃ k, 0 < k ∧ n = k * 2 ^ 20) → zsum (fun n => n) l = zsum (fun n => Z.shiftr n 20) l * 2 ^ 20.
Proof.
  induction l as [|n l IH]; intros Hl; [done|]. unfold zsum in *. simpl. rewrite IH by (intros; apply Hl; by right).
  destruct (Hl n ltac:(by left)) as (k & Hk & ->). rewrite Z.shiftr_div_pow2, Z.div_mul by lia. lia.
Qed.

Lemma allocate_ok query w l n : lab_ok w → allocateMemory query (lw_lab w) = (l, n) →
  lab_ok (mkLW l (lw_pending w) (lw_blocked w)) ∧ lab_leakGate l = lab_leakGate (lw_lab w).
Proof.
  intros [H1 H2 H3 H4 H5 H6 H7]. unfold allocateMemory. rewrite (memory_used _ H5) in H6.
  set (used := zsum (fun n => Z.shiftr n 20) (lab_allocations (lw_lab w))) in *.
  set (bound := boundedInt query 16 1 (lc_MaxMemoryMiB (lab_config (lw_lab w)))).
  set (req := if lc_MaxMemoryMiB (lab_config (lw_lab w)) - used <? bound then _ else _). assert (req ≤ lc_MaxMemoryMiB (lab_config (lw_lab w)) - used) as Hreq
    by (unfold req; case_test; zbool; lia). clearbody req.
  destruct (0 <? req) eqn:E; zbool; intros [= <- <-].
  - split; [|done]. split; simpl; try done.
    + intros x [Hx|Hx]%elem_of_app; [by apply H5|]. apply list_elem_of_singleton in Hx as ->. exists req. split; [done|].
      apply Z.shiftl_mul_pow2. lia.
    + rewrite zsum_app, (memory_used _ H5). fold used. simpl. rewrite Z.shiftl_mul_pow2 by lia. nia.
  - split; [|done]. split; simpl; try done. by rewrite (memory_used _ H5).
Qed.

Lemma leak_ok query w l g n : lab_ok w → leak_reserve query (lw_lab w) = (l, g, n) →
  lab_ok (mkLW l (lw_pending w ++ [(g, n)]) (lw_blocked w)) ∧ lab_leakGate l = lab_leakGate (lw_lab w).
Proof.
  intros [H1 H2 H3 H4 H5 H6 H7]. unfold leak_reserve.
  set (max := lc_MaxLeakedGoroutines (lab_config (lw_lab w))) in *.
  pose proof (boundedInt_range query 25 1 max ltac:(lia) ltac:(lia)) as [Hb _].
  set (b := boundedInt query 25 1 max) in *. clearbody b.
  set (count := if max - lab_leaked (lw_lab w) <? b then max - lab_leaked (lw_lab w) else b).
  assert (0 ≤ count ≤ max - lab_leaked (lw_lab w)) as Hc by (unfold count; case_test; zbool; lia). clearbody count.
  intros [= <- <- <-]. split; [|done]. split; simpl; try done; fold max; try lia.
  - rewrite zsum_app. unfold at_gate at 2. simpl. rewrite Nat.eqb_refl. lia.
  - intros p [Hp|Hp]%elem_of_app; [by apply H3|]. apply list_elem_of_singleton in Hp as ->. simpl. lia.
Qed.

Lemma reset_ok w : lab_ok w → lab_ok (mkLW (reset (lw_lab w)) (lw_pending w) (delete (lab_leakGate (lw_lab w)) (lw_blocked w))).
Proof.
  intros [H1 H2 H3 H4 H5 H6 H7]. split; simpl; try done; try lia.
  - destruct (delete _ _ !! _) as [n|] eqn:E.
    { apply lookup_delete_Some in E as [Hne E]. destruct (H4 _ _ E). lia. }
    simpl. rewrite (zsum_ext _ (fun _ => 0)); [apply zsum_zero|]. intros p Hp. destruct (H3 p Hp) as [_ Hle].
    unfold at_gate. destruct (Nat.eqb_spec p.1 (S (lab_leakGate (lw_lab w)))); [lia|done].
  - intros p Hp. destruct (H3 p Hp). lia.
  - intros g n [Hne E]%lookup_delete_Some. destruct (H4 _ _ E). congruence.
  - by intros n ?%elem_of_nil.
Qed.

Inductive lab_change (r : LabRequest) (l : Lab) : Lab → spawn → Prop :=
| LCNone sp : (∀ g n, sp ≠ SpawnLeak g n) → lab_change r l l sp
| LCLeak l' g n : leak_reserve (lq_count r) l = (l', g, n) → lab_change r l l' (SpawnLeak g n)
| LCMemory l' n : allocateMemory (lq_mib r) l = (l', n) → lab_change r l l' SpawnNone
| LCReset : lab_change r l (reset l) SpawnNone.

Lemma lab_serve_change r l l' sp rep : lab_serve r l = (l', sp, rep) → lab_change r l l' sp.
Proof.
  unfold lab_serve. destruct (leak_reserve (lq_count r) l) as [[l1 g] n] eqn:El.
  destruct (allocateMemory (lq_mib r) l) as [l2 n2] eqn:Em.
  destruct (exhaustDatabase _ _ l) as [[? ?]|], (retryStorm _ _ l) as [[? ?]|]; repeat case_test; intros [= <- <- <-];
    solve [by apply LCNone|by apply LCLeak|by eapply LCMemory|by apply LCReset].
Qed.

Lemma spawn_ok w i g n : lab_ok w → lw_pending w !! i = Some (g, n) → lab_ok (lab_exec w (LSpawn i)).
Proof.
  intros [H1 H2 H3 H4 H5 H6 H7] Hi. simpl. rewrite Hi.
  assert (∀ f, zsum f (lw_pending w) = f (g, n) + zsum f (delete i (lw_pending w))) as Hz.
  { intros f. rewrite (delete_Permutation _ _ _ Hi) at 1. done. }
  pose proof (H3 _ (list_elem_of_lookup_2 _ _ _ Hi)) as [Hn Hg]. simpl in Hn.
  assert (∀ p, p ∈ delete i (lw_pending w) → p ∈ lw_pending w) as Hsub.
  { intros p Hp. rewrite (delete_Permutation _ _ _ Hi). by right. }
  rewrite (Hz (at_gate _)) in H1. unfold at_gate at 1 in H1. simpl in H1.
  split; simpl; try done; try lia; auto.
  - destruct (Nat.eqb_spec g (lab_leakGate (lw_lab w))) as [->|Hne]; [|lia]. rewrite lookup_bump, decide_True by done. lia.
  - intros g' n'. destruct (Nat.eqb_spec g (lab_leakGate (lw_lab w))) as [->|Hne]; [|apply H4].
    unfold bump. rewrite lookup_insert. case_decide as Hd; [|apply H4]. intros [= <-]. split; [done|].
    destruct (lw_blocked w !! lab_leakGate (lw_lab w)) eqn:E; simpl; [destruct (H4 _ _ E)|]; lia.
Qed.

Lemma lab_exec_ok w o : lab_ok w → lab_ok (lab_exec w o).
Proof.
  intros Hok. destruct o as [r|i].
  - simpl. destruct (lab_serve r (lw_lab w)) as [[l sp] rep] eqn:E. apply lab_serve_change in E as [sp' Hsp|l' g n E|l' n E|].
    + rewrite Nat.eqb_refl. destruct w as [l0 p b]. destruct sp'; [done|by destruct (Hsp gate count)|done].
    + destruct (leak_ok _ _ _ _ _ Hok E) as [? ->]. by rewrite Nat.eqb_refl.
    + destruct (allocate_ok _ _ _ _ Hok E) as [? ->]. by rewrite Nat.eqb_refl.
    + rewrite (proj2 (Nat.eqb_neq _ _)) by (simpl; lia). by apply reset_ok.
  - destruct (lw_pending w !! i) as [[g n]|] eqn:E; [by eapply spawn_ok|]. simpl. by rewrite E.
Qed.

(** ** cmd/feed-api *)

(* [base] golangdebugging *)

(* [go] internal/domain/types.go:4-8 Post *)
Record Post : Type := mkPost { p_ID : Z; p_AuthorID : Z; p_Body : string }.
(* [go] internal/domain/types.go:11-15 Profile *)
Record Profile : Type := mkProfile { pr_ID : Z; pr_Username : string; pr_Bio : string }.
(* [go] internal/domain/types.go:18-21 Recommendations *)
Record Recommendations : Type := mkRecs { rc_UserID : Z; rc_Items : list string }.
(* [go] internal/domain/types.go:24-29 Feed *)
Record Feed : Type := mkFeed { f_User : Profile; f_Posts : list Post; f_Recs : Recommendations; f_CacheHit : bool }.

(** Errors, as far as [dependencyStatus] tells them apart. *)
Inductive feed_error : Type := EDeadline | ECanceled | EOther.

(* [go] cmd/feed-api/main.go:265-276 dependencyStatus *)
Definition dependencyStatus (err : option feed_error) : string :=
  match err with
  | None => "success"
  | Some EDeadline => "timeout"
  | Some ECanceled => "canceled"
  | Some EOther => "error"
  end.

Definition err_of {A} (r : result feed_error A) : option feed_error := match r with Ok _ => None | Err e => Some e end.

(** Observations of dependencies, in order. *)
Notation observations := (list (string * string * string)).

(** A reply of Redis: nothing, an error, or text that decodes or does not. *)
Inductive cache_reply : Type := CNil | CErr (e : feed_error) | CVal (f : option Feed).

(* [go] cmd/feed-api/main.go:151-174 feedHandler.cachedFeed *)
Definition cachedFeed (reply : cache_reply) : option Feed * observations :=
  match reply with
  | CNil => (None, [("redis", "get_feed", "success")])
  | CErr e => (None, [("redis", "get_feed", dependencyStatus (Some e))])
  | CVal None => (None, [("redis", "get_feed", "error")])
  | CVal (Some f) => (Some f, [("redis", "get_feed", "success")])
  end.

(** Encoding a feed does not fail. *)
(* [go] cmd/feed-api/main.go:176-187 feedHandler.cacheFeed *)
Definition cacheFeed (set_err : option feed_error) : observations := [("redis", "set_feed", dependencyStatus set_err)].

(** The rows up to the first that does not scan. *)
Inductive row : Type := RRow (p : Post) | RBad.

Fixpoint scan_rows (rows : list row) (acc : list Post) : result feed_error (list Post) :=
  match rows with
  | [] => Ok acc
  | RRow p :: rows => scan_rows rows (acc ++ [p])
  | RBad :: _ => Err EOther
  end.

(** The query fails, or it gives rows and an error after them. *)
(* [go] cmd/feed-api/main.go:189-214 feedHandler.posts *)
Definition posts (query : result feed_error (list row * option feed_error)) : result feed_error (list Post) * observations :=
  match query with
  | Err e => (Err e, [("postgres", "read_feed", dependencyStatus (Some e))])
  | Ok (rows, err) =>
      match scan_rows rows [] with
      | Err e => (Err e, [("postgres", "read_feed", "error")])
      | Ok ps => (match err with None => Ok ps | Some e => Err e end, [("postgres", "read_feed", dependencyStatus err)])
      end
  end.

(** A downstream call: no reply, or a status with a body that decodes or not. *)
(* [go] cmd/feed-api/main.go:232-247 getJSON *)
Definition getJSON {A} (reply : result feed_error (Z * option A)) : result feed_error A :=
  match reply with
  | Err e => Err e
  | Ok (status, body) =>
      if (status <? 200) || (300 <=? status) then Err EOther
      else match body with Some a => Ok a | None => Err EOther end
  end.

(* [go] cmd/feed-api/main.go:216-222 feedHandler.profile *)
Definition profile (reply : result feed_error (Z * option Profile)) : result feed_error Profile * observations :=
  let r := getJSON reply in (r, [("profile", "get", dependencyStatus (err_of r))]).

(* [go] cmd/feed-api/main.go:224-230 feedHandler.recommendations *)
Definition recommendations (reply : result feed_error (Z * option Recommendations))
  : result feed_error Recommendations * observations :=
  let r := getJSON reply in (r, [("recommendation", "list", dependencyStatus (err_of r))]).

(** What the environment answers to one request. *)
Record FeedEnv : Type := mkFeedEnv {
  fe_cache : cache_reply; fe_query : result feed_error (list row * option feed_error);
  fe_profile : result feed_error (Z * option Profile); fe_recs : result feed_error (Z * option Recommendations);
  fe_set : option feed_error }.

Definition feed_user (user_id : string) : Z :=
  match ParseInt user_id with Some n => if n <=? 0 then 1 else n | None => 1 end.

(** The reply, the feed that is put in the cache, and the observations; the three
calls of the group run side by side, their observations are listed in one order. *)
(* [go] cmd/feed-api/main.go:104-149 feedHandler.feed *)
Definition feed (user_id : string) (env : FeedEnv) : result Z Feed * option Feed * observations :=
  let userID := feed_user user_id in
  let '(hit, obs) := cachedFeed (fe_cache env) in
  match hit with
  | Some f => (Ok (mkFeed (f_User f) (f_Posts f) (f_Recs f) true), None, obs)
  | None =>
      let '(ps, o1) := posts (fe_query env) in
      let '(pr, o2) := profile (fe_profile env) in
      let '(rc, o3) := recommendations (fe_recs env) in
      let obs := obs ++ o1 ++ o2 ++ o3 in
      match ps with
      | Err _ => (Err 503, None, obs)
      | Ok ps =>
          let f := mkFeed (match pr with Ok p => p | Err _ => mkProfile userID "" "" end) ps
                     (match rc with Ok c => c | Err _ => mkRecs userID [] end) false in
          (Ok f, Some f, obs ++ cacheFeed (fe_set env))
      end
  end.

(* [go] cmd/feed-api/main.go:249-263 readiness *)
Definition readiness (db_ping cache_ping : bool) : Z := if negb db_ping then 503 else if negb cache_ping then 503 else 204.

(* [go] cmd/feed-api/main.go:28-37 main *)
Definition feed_config : Config :=
  mkConfig ["/healthz"; "/readyz"; "/v1/feed"]
    [("postgres", ["read_feed"]); ("redis", ["get_feed"; "set_feed"]); ("recommendation", ["list"]); ("profile", ["get"])]
    false false.

(* [go] internal/service/runtime.go:59-62 New *)
Definition service_config (c : Config) : Config :=
  mkConfig (c_Routes c ++ ["/internal/failure-lab/{experiment}"]) (c_Dependencies c) false false.

(** ** Main results *)

Lemma new_tells cfg m : m = mkMetrics (m_routes m) (m_dependencies m) ∅ ∅ ∅ ∅ →
  tells cfg m (mkT m ∅ ∅) (mkHappened ∅ [] ∅).
Proof.
  intros ->. split; simpl; try done; try (by rewrite fmap_empty);
    intros *; rewrite ?lookup_empty; try done; by intros [? ?].
Qed.

(** C12: The metrics tell what happened, under any interleaving of requests, panics
and dependency timers.  Every finished request is counted once, in the counter and in
the histogram, under the route it was registered for if the configuration lists it
and "unknown" otherwise, its method in upper case if it is one of the nine and "OTHER"
otherwise, and as status 500 if its handler panicked and else the one the first call
on the writer settled; the gauge of a route is the number of its open requests; every
timer that was stopped is counted once, under the names the configuration allows
and the status of its first stop; and no other label appears. *)
Theorem Metrics_accurate (register : bool) (cfg : Config) (m : Metrics) (ops : list tel_op) :
  New register cfg = Ok m → NoDup (c_Dependencies cfg).*1 →
  let M := t_metrics (foldl tel_exec (mkT m ∅ ∅) ops) in
  let h := foldl happen (mkHappened ∅ [] ∅) ops in
  (∀ k, default 0 (m_requests M !! k) = zsum (tally (want_series cfg) k) (hp_done h)) ∧
  m_requestDuration M = m_requests M ∧
  (∀ r, default 0 (m_inFlight M !! r) = msum (tally (fun q => want_route cfg (rw_route q)) r) (hp_open h)) ∧
  (∀ k, default 0 (m_dependencyDuration M !! k) = msum (tally (want_dependency cfg) (Some k)) (hp_timers h)) ∧
  (∀ k, is_Some (m_requests M !! k) → ∃ x, k = want_series cfg x) ∧
  (∀ r, is_Some (m_inFlight M !! r) → r ∈ "unknown" :: c_Routes cfg) ∧
  (∀ k, is_Some (m_dependencyDuration M !! k) → ∃ t, want_dependency cfg t = Some k).
Proof.
  intros Hm Hnd M h. apply New_parts in Hm as (Hm & Hr & _ & _ & Hd).
  assert (tells cfg m (foldl tel_exec (mkT m ∅ ∅) ops) h) as [_ _ _ _ Hq Hdu Hf Hde Hs Hfl Hk].
  { apply tells_run; [done| |by apply new_tells]. intros d o. by apply dependencyLabels_wanted. }
  split_and!; try done. intros r [r0 ->]%Hfl. unfold want_route. case_bool_decide; [by right|by left].
Qed.

(** The recorded status is the one the client got, for any handler that neither
sends informational headers nor takes over the connection. *)
Theorem Recorded_status (ops : list write_op) :
  Forall plain ops → let r := foldl (fun r o => record_op o r) fresh_recorder ops in
  statusCode r = client_status (rr_writer r).
Proof.
  intros Hp r. assert (rec_agrees r) as [_ Ha].
  { unfold r. assert (rec_agrees fresh_recorder) as H0 by done. revert H0. generalize fresh_recorder.
    induction Hp as [|o ops Ho Hp IH]; intros r0 H0; [done|]. apply IH. by apply record_op_agrees. }
  unfold statusCode, client_status. destruct (rr_wroteHeader r); destruct Ha as [-> Hs]; simpl.
  - by rewrite (proj2 (Z.eqb_neq _ _)).
  - by rewrite Hs.
Qed.

Lemma NewLab_ok c : lab_ok (mkLW (NewLab c) [] ∅).
Proof.
  assert (∀ v d, 0 < d → 0 < positive_or v d) as Hp by (intros; unfold positive_or; case_test; zbool; lia).
  pose proof (Hp (lc_MaxLeakedGoroutines c) 256 ltac:(lia)). pose proof (Hp (lc_MaxMemoryMiB c) 128 ltac:(lia)).
  split; simpl; try done; try lia.
  - by intros p ?%elem_of_nil.
  - by intros n ?%elem_of_nil.
Qed.

(** The laboratory's ceilings are hard: for any requests and any delay between a
request and the goroutines it starts, the goroutines that wait and the bytes that
are retained stay within the configured limits, and a reset leaves nothing. *)
Theorem Lab_ceilings (c : LabConfig) (ops : list lab_op) :
  let w := foldl lab_exec (mkLW (NewLab c) [] ∅) ops in
  msum (fun n => n) (lw_blocked w) ≤ positive_or (lc_MaxLeakedGoroutines c) 256 ∧
  (writeStatus (lw_lab w)).2 ≤ positive_or (lc_MaxMemoryMiB c) 128 * 2 ^ 20 ∧
  writeStatus (reset (lw_lab w)) = (0, 0) ∧
  (∀ r, lab_leakGate (lab_serve r (lw_lab w)).1.1 ≠ lab_leakGate (lw_lab w) → lw_blocked (lab_exec w (LServe r)) = ∅).
Proof.
  intros w. assert (lab_ok w ∧ lab_config (lw_lab w) = lab_config (NewLab c)) as [Hok Hc].
  { unfold w. assert (lab_ok (mkLW (NewLab c) [] ∅) ∧ lab_config (lw_lab (mkLW (NewLab c) [] ∅)) = lab_config (NewLab c)) as H0
      by (split; [apply NewLab_ok|done]).
    revert H0. generalize (mkLW (NewLab c) [] ∅). induction ops as [|o ops IH]; intros w0 [H0 H0']; [done|].
    apply IH. split; [by apply lab_exec_ok|]. rewrite <- H0'. clear. destruct o as [r|i]; simpl.
    - destruct (lab_serve r (lw_lab w0)) as [[l sp] rep] eqn:E. simpl.
      apply lab_serve_change in E as [sp' Hsp|l' g n E|l' n E|]; try done; [unfold leak_reserve in E|unfold allocateMemory in E];
        repeat case_match; by simplify_eq.
    - by destruct (lw_pending w0 !! i) as [[? ?]|]. }
  assert (∀ g n, lw_blocked w !! g = Some n → g = lab_leakGate (lw_lab w)) as Hone by (intros; by eapply (lk_open w Hok)).
  assert (delete (lab_leakGate (lw_lab w)) (lw_blocked w) = ∅) as Hdel.
  { apply map_empty. intros g. destruct (delete _ _ !! g) eqn:E; [|done]. apply lookup_delete_Some in E as [? E].
    by apply Hone in E. }
  split_and!.
  - pose proof (lk_leaked w Hok). pose proof (lk_max w Hok) as [_ Hmax]. rewrite Hc in Hmax. simpl in Hmax.
    assert (0 ≤ zsum (at_gate (lab_leakGate (lw_lab w))) (lw_pending w)).
    { apply zsum_nonneg. intros p Hp. unfold at_gate. destruct (lk_pending w Hok p Hp). by destruct (Nat.eqb _ _). }
    destruct (lw_blocked w !! lab_leakGate (lw_lab w)) as [n|] eqn:E.
    + rewrite (msum_delete _ _ _ _ E), Hdel, msum_empty. simpl in *. lia.
    + rewrite delete_id in Hdel by done. rewrite Hdel, msum_empty. simpl in *. lia.
  - pose proof (lk_memory w Hok) as Hm. by rewrite Hc in Hm.
  - done.
  - intros r Hg. simpl. destruct (lab_serve r (lw_lab w)) as [[l sp] rep]. simpl in *.
    by rewrite (proj2 (Nat.eqb_neq _ _) Hg).
Qed.

(** Nothing happens without the token: a request that changes the laboratory or
starts goroutines is a POST that carries the configured, non-empty token while the
laboratory is enabled. *)
Theorem Lab_guarded (r : LabRequest) (l : Lab) :
  (lab_serve r l).1 ≠ (l, SpawnNone) →
  lc_Enabled (lab_config l) = true ∧ lc_Token (lab_config l) ≠ "" ∧ lq_token r = lc_Token (lab_config l) ∧ lq_method r = "POST".
Proof.
  unfold lab_serve. destruct (lc_Enabled (lab_config l)); [|done]. simpl.
  destruct (String.eqb_spec (lc_Token (lab_config l)) ""); [done|]. simpl.
  destruct (String.eqb_spec (lq_token r) (lc_Token (lab_config l))); [|done]. simpl.
  destruct (String.eqb (lq_method r) "GET" && String.eqb (lq_experiment r) "status"); [done|].
  by destruct (String.eqb_spec (lq_method r) "POST").
Qed.

Definition feed_dependencies : list (string * string) :=
  [("redis", "get_feed"); ("redis", "set_feed"); ("postgres", "read_feed"); ("profile", "get"); ("recommendation", "list")].

Lemma feed_metrics : ∃ m, New true (service_config feed_config) = Ok m ∧
  ∀ d o, (d, o) ∈ feed_dependencies → dependencyLabels m d o = (d, o).
Proof.
  eexists. split; [by vm_compute|]. intros d o Hin.
  repeat (apply elem_of_cons in Hin as [Hin|Hin]; [injection Hin as -> ->; by vm_compute|]). by apply elem_of_nil in Hin.
Qed.

Lemma dependencyStatus_label err : dependencyStatusLabel (dependencyStatus err) = dependencyStatus err.
Proof. destruct err as [[| |]|]; by vm_compute. Qed.

Lemma cachedFeed_obs c : ∃ e, (cachedFeed c).2 = [("redis", "get_feed", dependencyStatus e)].
Proof. destruct c as [|e|[f|]]; [by exists None|by exists (Some e)|by exists None|by exists (Some EOther)]. Qed.

Lemma cachedFeed_hit c : (cachedFeed c).1 = match c with CVal (Some f) => Some f | _ => None end.
Proof. by destruct c as [|e|[f|]]. Qed.

Lemma posts_obs q : ∃ e, (posts q).2 = [("postgres", "read_feed", dependencyStatus e)].
Proof.
  destruct q as [[rows err]|e]; simpl; [|by exists (Some e)].
  destruct (scan_rows rows []); [by exists err|by exists (Some EOther)].
Qed.

Ltac by_decision := match goal with |- ?P => apply (@bool_decide_unpack P _); vm_compute; exact I end.

(** Every observation of an explicit list is of a registered dependency. *)
Ltac all_known :=
  let m := fresh "m" in let Hm := fresh "Hm" in let Hl := fresh "Hl" in
  destruct feed_metrics as (m & Hm & Hl); exists m; split; [exact Hm|]; clear Hm;
  repeat (apply Forall_cons; split;
    [split; [apply Hl; by_decision|apply dependencyStatus_label]|]);
  apply Forall_nil; exact I.

(** The feed degrades as documented: a decodable cached feed is served as a hit; else
the request fails, with 503, exactly when the posts cannot be read, and otherwise
the profile and the recommendations are the downstream's or, when that call
failed, empty ones of the same user.  A request observes each dependency at most
once, under labels that the service has registered. *)
Theorem Feed_degrades (user_id : string) (env : FeedEnv) :
  let '(res, cached, obs) := feed user_id env in
  (∀ f, fe_cache env = CVal (Some f) → res = Ok (mkFeed (f_User f) (f_Posts f) (f_Recs f) true) ∧ cached = None) ∧
  ((∀ f, fe_cache env ≠ CVal (Some f)) →
     match (posts (fe_query env)).1 with
     | Err _ => res = Err 503 ∧ cached = None
     | Ok ps => ∃ f, res = Ok f ∧ cached = Some f ∧ f_Posts f = ps ∧ f_CacheHit f = false ∧
         f_User f = match getJSON (fe_profile env) with Ok p => p | Err _ => mkProfile (feed_user user_id) "" "" end ∧
         f_Recs f = match getJSON (fe_recs env) with Ok c => c | Err _ => mkRecs (feed_user user_id) [] end
     end) ∧
  NoDup obs.*1 ∧
  ∃ m, New true (service_config feed_config) = Ok m ∧
    Forall (fun o => dependencyLabels m o.1.1 o.1.2 = o.1 ∧ dependencyStatusLabel o.2 = o.2) obs.
Proof.
  unfold feed. pose proof (cachedFeed_hit (fe_cache env)) as Hhit.
  destruct (cachedFeed_obs (fe_cache env)) as [e0 H0]. destruct (posts_obs (fe_query env)) as [e1 H1].
  destruct (cachedFeed (fe_cache env)) as [hit obs], (posts (fe_query env)) as [ps o1]. simpl in Hhit, H0, H1. subst hit obs o1.
  destruct (fe_cache env) as [|e|[f|]].
  3: { split_and!; [by intros f' [= <-]|by intros Hne; destruct (Hne f)|by_decision|].
       all_known. }
  all: destruct ps as [ps|e']; unfold profile, recommendations, cacheFeed; cbn [fst snd app];
    (split_and!; [done| |by_decision|all_known]); intros _; [by eexists|done].
Qed.

(** ** Instances *)

Definition demo_ops : list tel_op :=
  [TStart 1 "/v1/feed" "get"; TStart 2 "/v1/users/7" "PURGE"; TTimer 1 "redis" "get_feed"; TWrite 1 (OWriteHeader 404);
   TWrite 2 (OWriteHeader 404); TStart 3 "/v1/feed" "GET"; TDone 1 "success"; TDone 1 "error"; TEnd 1 true; TEnd 2 false].

(** A request that panics after it wrote 404, on a route the configuration does not
list, and a timer that is stopped twice. *)
Lemma Metrics_accurate_witness :
  match New true feed_config with
  | Ok m => let M := t_metrics (foldl tel_exec (mkT m ∅ ∅) demo_ops) in
      default 0 (m_requests M !! ("/v1/feed", "GET", "404")) = 1 ∧
      default 0 (m_requests M !! ("unknown", "OTHER", "500")) = 1 ∧
      default 0 (m_requests M !! ("unknown", "OTHER", "404")) = 0 ∧
      default 0 (m_inFlight M !! "/v1/feed") = 1 ∧
      default 0 (m_dependencyDuration M !! ("redis", "get_feed", "success")) = 1 ∧
      default 0 (m_dependencyDuration M !! ("redis", "get_feed", "error")) = 0
  | Err _ => False
  end.
Proof.
  destruct (New true feed_config) as [m|e] eqn:E; [|by vm_compute in E].
  assert (NoDup (c_Dependencies feed_config).*1) as Hnd by (apply (bool_decide_unpack _); by vm_compute).
  destruct (Metrics_accurate true feed_config m demo_ops E Hnd) as (H1 & _ & H3 & H4 & _).
  cbv zeta. rewrite !H1, !H3, !H4. clear. split_and!; vm_compute; reflexivity.
Defined.

Lemma Recorded_status_witness :
  statusCode (foldl (fun r o => record_op o r) fresh_recorder [OWriteHeader 404; OWrite; OWriteHeader 200]) = 404.
Proof.
  rewrite (Recorded_status [OWriteHeader 404; OWrite; OWriteHeader 200]); [by vm_compute|].
  repeat constructor; simpl; lia.
Defined.

(** After an informational header the final one is swallowed: the handler answers
404, the recorder reports 103 and the client gets 200. *)
Theorem Early_hints_lost :
  let r := foldl (fun r o => record_op o r) fresh_recorder [OWriteHeader 103; OWriteHeader 404; OWrite] in
  statusCode r = 103 ∧ client_status (rr_writer r) = 200.
Proof. by vm_compute. Qed.

Definition demo_lab_config : LabConfig := mkLabConfig true "t" true "" 30 0 4 0.

Definition lab_post (experiment : string) : LabRequest :=
  mkLabReq "t" "POST" experiment "" "" "" "" "" (fun _ => None) false.

Lemma lab_example :
  (fun w => (lab_leaked (lw_lab w), lw_blocked w !! 0%nat))
    (foldl lab_exec (mkLW (NewLab demo_lab_config) [] ∅)
       [LServe (lab_post "goroutine-leak"); LServe (lab_post "goroutine-leak"); LSpawn 1; LSpawn 0]) = (30, Some 30).
Proof. by vm_compute. Qed.

Lemma Lab_guarded_witness : (lab_serve (lab_post "goroutine-leak") (NewLab demo_lab_config)).1 ≠ (NewLab demo_lab_config, SpawnNone) ∧
  lq_method (lab_post "goroutine-leak") = "POST".
Proof.
  assert ((lab_serve (lab_post "goroutine-leak") (NewLab demo_lab_config)).1 ≠ (NewLab demo_lab_config, SpawnNone)) as H
    by (vm_compute; congruence).
  split; [exact H|]. by apply (Lab_guarded (lab_post "goroutine-leak") (NewLab demo_lab_config)) in H as (_ & _ & _ & ?).
Defined.

(** A request without a parameter starts the fallback number of holders, also above
the ceiling of 4, and leaves the laboratory as it was, so that the next request
starts as many again. *)
Theorem Holders_exceed_ceiling :
  lc_MaxDBHolders (lab_config (NewLab demo_lab_config)) = 4 ∧
  lab_serve (lab_post "db-pool-exhaustion") (NewLab demo_lab_config) =
    (NewLab demo_lab_config, SpawnHolders 8 (10 * 1000 * millisecond), Some (202, [8; 10 * 1000 * millisecond])).
Proof. by vm_compute. Qed.
