(* ===== verification/DebugServices.v ===== *)
(** * golangdebugging: the service runtime, tracing, and the downstream services

[internal/service] and [internal/observability]: settings from the environment,
access logging with trace-consistent sampling, the log handler that adds trace
identifiers in front of the capturing handler of [Diagnostics];
[internal/platform]: the connection settings; [cmd/recommendation-service],
[cmd/profile-service] and [cmd/demo], the first two behind the feed of
[Telemetry].  [recs_step] interleaves the recommendation handlers of any number
of requests with the expiry of cached lists. *)

From Stdlib Require Import ZArith Lia Ascii SpecFloat.
From stdpp Require Import base gmap strings pretty list fin_maps relations.
From S2P Require Import Prelude GoStrings GoTime GoFloat Diagnostics Telemetry.

Open Scope string_scope.
Open Scope Z_scope.

(* [base] golangdebugging/internal *)

(** ** Settings *)

Section environment.
(** The environment, empty for unset variables. *)
Context (Getenv : string → string).

(* [go] service/runtime.go:174-180 Env *)
Definition Env (name fallback : string) : string :=
  if negb (String.eqb (Getenv name) "") then Getenv name else fallback.

(* [go] service/runtime.go:182-189 EnvInt *)
Definition EnvInt (name : string) (fallback : Z) : Z :=
  match ParseInt (Getenv name) with Some v => v | None => fallback end.

(* [go] service/runtime.go:191-198 EnvFloat *)
Definition EnvFloat (name : string) (fallback : float64) : float64 :=
  match ParseFloat (Getenv name) with Some v => v | None => fallback end.

(* [go] service/runtime.go:200-207 EnvBool *)
Definition EnvBool (name : string) (fallback : bool) : bool :=
  match ParseBool (Getenv name) with Some v => v | None => fallback end.
End environment.

(* [go] platform/connections.go:18-25 OpenPostgres *)
Record PoolConfig : Type := mkPool {
  MaxConns : Z; MinConns : Z; MaxConnLifetime : Z; MaxConnIdleTime : Z; HealthCheckPeriod : Z }.

Inductive open_error : Type := EParse | ECreate | EPing.

(** What the drivers answer: the URL parses, the pool is created, the server
answers the ping. *)
(* [go] platform/connections.go:12-35 OpenPostgres *)
Definition OpenPostgres (parses creates pings : bool) (maxConnections : Z) : result open_error PoolConfig :=
  if negb parses then Err EParse
  else
    let maxConnections := if maxConnections <=? 0 then 10 else maxConnections in
    let config := mkPool maxConnections 1 (30 * Minute) (5 * Minute) (30 * Second) in
    if negb creates then Err ECreate
    else if negb pings then Err EPing
    else Ok config.

(** The address, the size of the pool, and its fixed limits. *)
(* [go] platform/connections.go:37-55 OpenRedis *)
Definition OpenRedis (pings : bool) (address : string) (poolSize : Z) : result open_error (string * Z * Z * Z * Z) :=
  let poolSize := if poolSize <=? 0 then 20 else poolSize in
  if negb pings then Err EPing else Ok (address, poolSize, 2 * Second, Second, Second).

(** ** Trace contexts *)

(** A span context: 16 and 8 bytes. *)
Record SpanContext : Type := mkSpan { TraceBytes : list Z; SpanBytes : list Z }.

(** A context without a span has the zero span context. *)
Definition no_span : SpanContext := mkSpan (replicate 16 0) (replicate 8 0).

Definition IsValid (c : SpanContext) : bool :=
  existsb (fun b => negb (b =? 0)) (TraceBytes c) && existsb (fun b => negb (b =? 0)) (SpanBytes c).

(** Lower-case hexadecimal. *)
Definition hex_digit (n : Z) : ascii :=
  ascii_of_nat (Z.to_nat (if n <? 10 then 48 + n else 87 + n)).

Fixpoint hex (bytes : list Z) : string :=
  match bytes with
  | [] => ""
  | b :: bytes' => String (hex_digit (b / 16)) (String (hex_digit (b mod 16)) (hex bytes'))
  end.

(* [go] observability/observability.go:133-140 TraceID *)
Definition TraceID (c : SpanContext) : string := if negb (IsValid c) then "" else hex (TraceBytes c).

(** The header [HTTPHandler] sets before the next handler runs. *)
(* [go] observability/observability.go:107-114 Runtime.HTTPHandler *)
Definition trace_header (c : SpanContext) : list (string * string) :=
  if negb (String.eqb (TraceID c) "") then [("X-Trace-ID", TraceID c)] else [].

(** The name and the attributes of a client span. *)
(* [go] observability/observability.go:30-40 StartDependencySpan *)
Definition StartDependencySpan (dependency operation : string) : string * list (string * string) :=
  (dependency +:+ "." +:+ operation,
   [("dependency.name", dependency); ("dependency.operation", operation)]).

(** A span's error events and its status. *)
(* [go] observability/observability.go:42-50 RecordError *)
Definition RecordError (err : option string) (span : list string * option string) : list string * option string :=
  match err with
  | None => span
  | Some text => (span.1 ++ [text], Some text)%list
  end.

(* [go] observability/observability.go:21-28 Config *)
Record TraceConfig : Type := mkTrace {
  ServiceName : string; Environment : string; Endpoint : string; SamplingRatio : float64 }.

(** The settings the tracer provider gets; [resourceOK] and [exporterOK] are the
answers of the SDK. *)
(* [go] observability/observability.go:57-98 New *)
Definition observability_New (resourceOK exporterOK : bool) (config : TraceConfig) : option TraceConfig :=
  if String.eqb (ServiceName config) "" then None
  else
    let environment := if String.eqb (Environment config) "" then "development" else Environment config in
    let ratio := if fle (SamplingRatio config) f0 || flt f1 (SamplingRatio config) then f1 else SamplingRatio config in
    if negb resourceOK then None
    else if negb (String.eqb (Endpoint config) "") && negb exporterOK then None
    else Some (mkTrace (ServiceName config) environment (Endpoint config) ratio).

(** ** Logging *)

Definition LevelInfo : Z := 0.
Definition LevelError : Z := 8.

(** [traceHandler] adds the identifiers of the span to a record. *)
(* [go] observability/observability.go:150-159 traceHandler.Handle *)
Definition add_trace (c : SpanContext) (r : LogRecord) : LogRecord :=
  if IsValid c then
    mkLogRecord (lr_time r) (lr_level r) (lr_message r)
      (lr_attrs r ++ [("trace_id", SLeaf (hex (TraceBytes c))); ("span_id", SLeaf (hex (SpanBytes c)))])%list
  else r.

(** The logger of a service: the trace handler over the capturing handler over
JSON output at level Info, with the attribute "service". *)
(* [go] service/runtime.go:54-57 New *)
Definition service_handler (name : string) : capturingHandler :=
  WithAttrs [("service", SLeaf name)] (mkCH LevelError [] []).

(** [Logger.Log]: a record below the level of the JSON handler is dropped. *)
Definition log (name : string) (now : Z) (c : SpanContext) (r : LogRecord) (st : EventBuffer * list LogRecord)
  : EventBuffer * list LogRecord :=
  if lr_level r <? LevelInfo then st
  else Handle now (service_handler name) (add_trace c r) st.

(** A request as the metrics report it. *)
Record HTTPObservation : Type := mkObs { ob_route : string; ob_method : string; ob_status : Z; ob_duration : Z }.

(** [Duration.Microseconds] as a float64, divided by 1000; [show] is the rendering
of numbers in the captured events. *)
Definition duration_ms (d : Z) : float64 := float64_div (to_float64 (Z.quot d 1000)) (to_float64 1000).

(** The 64 bits that decide, big endian. *)
Definition BigEndian_Uint64 (bytes : list Z) : Z := foldl (fun acc b => acc * 256 + b) 0 (take 8 bytes).

(* [go] service/runtime.go:108-122 sampleTrace *)
Definition sampleTrace (c : SpanContext) (ratio : float64) : bool :=
  if fle ratio f0 then false
  else if fle f1 ratio then true
  else if negb (IsValid c) then false
  else flt (float64_div (to_float64 (BigEndian_Uint64 (TraceBytes c))) (to_float64 (2 ^ 64 - 1))) ratio.

(* [go] service/runtime.go:67-73 New *)
Definition accessLogRatio (configured : float64) : float64 :=
  let ratio := if flt configured f0 then f0 else configured in
  if flt f1 ratio then f1 else ratio.

Section access_log.
Context (show : float64 → string).

(* [go] service/runtime.go:91-106 Runtime.logRequest *)
Definition logRequest (ratio : float64) (now : Z) (c : SpanContext) (ob : HTTPObservation) : option LogRecord :=
  if (ob_status ob <? 500) && negb (sampleTrace c ratio) then None
  else
    let attributes := [("route", SLeaf (ob_route ob)); ("method", SLeaf (ob_method ob));
                       ("status", SLeaf (Itoa (ob_status ob))); ("duration_ms", SLeaf (show (duration_ms (ob_duration ob))))] in
    Some (mkLogRecord (Some now) (if 500 <=? ob_status ob then LevelError else LevelInfo)
            "http request completed" attributes).

Definition observe (name : string) (ratio : float64) (now : Z) (c : SpanContext) (ob : HTTPObservation)
    (st : EventBuffer * list LogRecord) : EventBuffer * list LogRecord :=
  match logRequest ratio now c ob with Some r => log name now c r st | None => st end.
End access_log.

(** ** Operations surface *)

(** [subtle.ConstantTimeCompare] is one exactly for equal texts. *)
(* [go] service/runtime.go:209-216 tokenAuthorizer *)
Definition tokenAuthorizer (expected provided : string) : bool :=
  if String.eqb expected "" then false else String.eqb provided expected.

(** The result of [ListenAndServe]: a server that was shut down ended well. *)
Inductive serve_error : Type := ErrServerClosed | EServe (text : string).

(* [go] service/runtime.go:167-172 Runtime.ListenAndServe *)
Definition listen_result (err : serve_error) : option string :=
  match err with ErrServerClosed => None | EServe text => Some text end.

(** The patterns [MountOperations] adds, with the route under which each is
measured when it is. *)
(* [go] service/runtime.go:124-140 Runtime.MountOperations *)
Definition MountOperations (lab : bool) : list (string * option string) :=
  ([("GET /metrics", None); ("GET /internal/diagnostics/snapshot", None)]
   ++ (if lab then [("GET /internal/failure-lab/{experiment}", Some "/internal/failure-lab/{experiment}");
                    ("POST /internal/failure-lab/{experiment}", Some "/internal/failure-lab/{experiment}")]
       else []))%list.

(** ** cmd/recommendation-service *)

(* [base] golangdebugging/cmd *)

(* [go] recommendation-service/main.go:24-28 main *)
Definition recommendation_config : Config :=
  mkConfig ["/healthz"; "/readyz"; "/v1/recommendations"] [("redis", ["get_recommendations"; "set_recommendations"])] false false.

(* [go] recommendation-service/main.go:52-54 main *)
Definition recommendation_routes : list (string * string) :=
  [("GET /healthz", "/healthz"); ("GET /readyz", "/readyz"); ("GET /v1/recommendations", "/v1/recommendations")].

(** Errors of the drivers, as far as [dependencyStatus] tells them apart. *)
Inductive driver_error : Type := DNil | DDeadline | DOther (text : string).

(** [redis.Nil] and [pgx.ErrNoRows] count as success. *)
(* [go] recommendation-service/main.go:113-121 dependencyStatus *)
Definition redisStatus (err : option driver_error) : string :=
  match err with
  | None | Some DNil => "success"
  | Some DDeadline => "timeout"
  | Some (DOther _) => "error"
  end.

(* [go] recommendation-service/main.go:67-70 recommendationHandler.recommendations *)
Definition recs_user (user_id : string) : Z :=
  match ParseInt user_id with Some n => if n <=? 0 then 1 else n | None => 1 end.

(* [go] recommendation-service/main.go:71-71 recommendationHandler.recommendations *)
Definition recs_key (userID : Z) : string := "recommendations:" +:+ Itoa userID.

(* [go] recommendation-service/main.go:83-83 recommendationHandler.recommendations *)
Definition default_items : list string := ["distributed-systems"; "go-performance"; "observability"].

(** Redis lists with their expiry. *)
Notation lists := (gmap string (list string * Z)).

(** [LRANGE key 0 9] at [now]; a missing or expired key is the empty list. *)
Definition LRange10 (now : Z) (key : string) (r : lists) : list string :=
  match r !! key with
  | Some (l, exp) => if exp <=? now then [] else take 10 l
  | None => []
  end.

(** The transaction: append the values and set the time to live. *)
(* [go] recommendation-service/main.go:90-93 recommendationHandler.recommendations *)
Definition push_expire (now : Z) (key : string) (values : list string) (r : lists) : lists :=
  let old := match r !! key with Some (l, exp) => if exp <=? now then [] else l | None => [] end in
  <[key := ((old ++ values)%list, now + Minute)]> r.

Inductive recs_reply : Type := RecsUnavailable | RecsOK (r : Recommendations).

(** A handler's progress: before the read, between a read that found nothing and
the transaction, and done. *)
Inductive recs_thread : Type :=
| RStart (userID : Z) | RFill (userID : Z) | RDone (userID : Z) (reply : recs_reply) (obs : list (string * string * string)).

(** The read. *)
(* [go] recommendation-service/main.go:74-82 recommendationHandler.recommendations *)
Definition recs_read (now : Z) (userID : Z) (err : option driver_error) (r : lists) : recs_thread :=
  let obs := [("redis", "get_recommendations", redisStatus err)] in
  match err with
  | Some DNil => RFill userID
  | Some _ => RDone userID RecsUnavailable obs
  | None =>
      match LRange10 now (recs_key userID) r with
      | [] => RFill userID
      | items => RDone userID (RecsOK (mkRecs userID items)) obs
      end
  end.

(** The fill: the reply holds the defaults whether or not the transaction took
effect, and whether or not its reply arrived. *)
(* [go] recommendation-service/main.go:82-98 recommendationHandler.recommendations *)
Definition recs_fill (now : Z) (userID : Z) (applied : bool) (err : option driver_error) (r : lists) : lists * recs_thread :=
  (if applied then push_expire now (recs_key userID) default_items r else r,
   RDone userID (RecsOK (mkRecs userID default_items))
     [("redis", "get_recommendations", "success"); ("redis", "set_recommendations", redisStatus err)]).

Record recs_sys : Type := mkRecsSys { rs_now : Z; rs_lists : lists; rs_threads : list recs_thread }.

(** Requests arrive, handlers take their steps, time passes, and Redis may drop a
key at any time. *)
Inductive recs_step : recs_sys → recs_sys → Prop :=
| RS_arrive now r ts user_id :
    recs_step (mkRecsSys now r ts) (mkRecsSys now r (ts ++ [RStart (recs_user user_id)])%list)
| RS_read now r ts i u err : ts !! i = Some (RStart u) →
    recs_step (mkRecsSys now r ts) (mkRecsSys now r (<[i := recs_read now u err r]> ts))
| RS_fill now r ts i u applied err : ts !! i = Some (RFill u) →
    recs_step (mkRecsSys now r ts)
      (mkRecsSys now (recs_fill now u applied err r).1 (<[i := (recs_fill now u applied err r).2]> ts))
| RS_time now now' r ts : now ≤ now' → recs_step (mkRecsSys now r ts) (mkRecsSys now' r ts)
| RS_drop now r ts key : recs_step (mkRecsSys now r ts) (mkRecsSys now (delete key r) ts).

(** One request on its own. *)
(* [go] recommendation-service/main.go:66-99 recommendationHandler.recommendations *)
Definition recommendations_handler (now : Z) (user_id : string) (err set_err : option driver_error) (applied : bool) (r : lists)
  : lists * recs_thread :=
  match recs_read now (recs_user user_id) err r with
  | RFill u => recs_fill now u applied set_err r
  | t => (r, t)
  end.

(* [go] recommendation-service/main.go:101-111 redisReadiness *)
Definition redisReadiness (ping : bool) : Z := if ping then 204 else 503.

(** ** cmd/profile-service *)

(* [go] profile-service/main.go:25-29 main *)
Definition profile_config : Config :=
  mkConfig ["/healthz"; "/readyz"; "/v1/profiles/{id}"] [("postgres", ["get_profile"])] false false.

(* [go] profile-service/main.go:54-56 main *)
Definition profile_routes : list (string * string) :=
  [("GET /healthz", "/healthz"); ("GET /readyz", "/readyz"); ("GET /v1/profiles/{id}", "/v1/profiles/{id}")].

Inductive profile_reply : Type := ProfileError (status : Z) | ProfileOK (p : Profile).

(** [query] is the answer of the database for an identifier. *)
(* [go] profile-service/main.go:68-90 profileHandler.profile *)
Definition profile_handler (id : string) (query : Z → result driver_error Profile)
  : profile_reply * list (string * string * string) :=
  match ParseInt id with
  | None => (ProfileError 400, [])
  | Some n =>
      if n <=? 0 then (ProfileError 400, [])
      else
        match query n with
        | Ok p => (ProfileOK p, [("postgres", "get_profile", "success")])
        | Err DNil => (ProfileError 404, [("postgres", "get_profile", redisStatus (Some DNil))])
        | Err e => (ProfileError 503, [("postgres", "get_profile", redisStatus (Some e))])
        end
  end.

(* [go] profile-service/main.go:92-102 postgresReadiness *)
Definition postgresReadiness (ping : bool) : Z := if ping then 204 else 503.

(** ** cmd/demo *)

(** The reply, the observation and the error that is logged. *)
(* [go] demo/main.go:87-102 feedHandler *)
Definition demo_feed (fail traceID : string) : Z * (string * string * string) * option (list (string * string)) :=
  if String.eqb fail "true"
  then (503, ("postgres", "read_feed", "timeout"), Some [("dependency", "postgres"); ("trace_id", traceID)])
  else (200, ("postgres", "read_feed", "success"), None).

(* [go] demo/main.go:104-109 tokenAuthorizer *)
Definition demo_authorizer (expected provided : string) : bool := String.eqb provided expected.

(** The process starts only with a token. *)
(* [go] demo/main.go:22-31 main *)
Definition demo_start (Getenv : string → string) : option (string * string) :=
  let token := Getenv "DIAGNOSTICS_TOKEN" in
  if String.eqb token "" then None
  else Some (token, if String.eqb (Getenv "LISTEN_ADDR") "" then ":8080" else Getenv "LISTEN_ADDR").

(** ** The feed over its services *)

(** What the feed's client sees of a reply: the status and the body that decodes
as the wanted type; an error reply has no such body. *)
Definition profile_response (r : profile_reply) : Z * option Profile :=
  match r with ProfileError status => (status, None) | ProfileOK p => (200, Some p) end.

Definition recs_response (r : recs_reply) : Z * option Recommendations :=
  match r with RecsUnavailable => (503, None) | RecsOK r => (200, Some r) end.

(** The paths of the feed's calls, and the identifiers the services read from them. *)
(* [go] feed-api/main.go:219-219 feedHandler.profile *)
Definition profile_path (userID : Z) : string := "/v1/profiles/" +:+ Itoa userID.

(* [go] feed-api/main.go:227-227 feedHandler.recommendations *)
Definition recs_path (userID : Z) : string := "/v1/recommendations?user_id=" +:+ Itoa userID.

Definition after (prefix path : string) : string :=
  if String.prefix prefix path then slice_from (String.length prefix) path else "".

(** The environment of one feed request in which the downstream calls are
answered by the two services. *)
Definition composed (user : Z) (cache : cache_reply) (query : result feed_error (list row * option feed_error))
    (db : Z → result driver_error Profile) (recs : recs_thread) (set : option feed_error) : FeedEnv :=
  mkFeedEnv cache query
    (Ok (profile_response (profile_handler (after "/v1/profiles/" (profile_path user)) db).1))
    (match recs with RDone _ reply _ => Ok (recs_response reply) | _ => Err EDeadline end) set.

(** ** Lemmas *)

Definition copies (k : nat) : list string := concat (replicate k default_items).

Lemma copies_S k : copies (S k) = (default_items ++ copies k)%list.
Proof. reflexivity. Qed.

Lemma copies_add a b : (copies a ++ copies b)%list = copies (a + b).
Proof. unfold copies. by rewrite <- concat_app, <- replicate_add. Qed.

(** What a list in the cache can be, and what a reply can be. *)
Definition list_ok (l : list string) : Prop := ∃ k, (1 ≤ k)%nat ∧ l = copies k.

Definition items_ok (l : list string) : Prop := ∃ k, (1 ≤ k)%nat ∧ l = take 10 (copies k).

Definition thread_ok (t : recs_thread) : Prop :=
  match t with
  | RStart u | RFill u | RDone u RecsUnavailable _ => 1 ≤ u
  | RDone u (RecsOK r) _ => 1 ≤ u ∧ rc_UserID r = u ∧ items_ok (rc_Items r)
  end.

Record recs_inv (s : recs_sys) : Prop := {
  ri_lists : ∀ k l e, rs_lists s !! k = Some (l, e) → list_ok l;
  ri_threads : ∀ t, t ∈ rs_threads s → thread_ok t }.

Lemma recs_user_pos u : 1 ≤ recs_user u.
Proof. unfold recs_user. destruct (ParseInt u) as [n|]; [|lia]. destruct (Z.leb_spec n 0); lia. Qed.

Lemma defaults_ok : items_ok default_items.
Proof. exists 1%nat. split; [lia|done]. Qed.

Lemma recs_read_ok now u err r : 1 ≤ u → (∀ k l e, r !! k = Some (l, e) → list_ok l) → thread_ok (recs_read now u err r).
Proof.
  intros Hu Hl. unfold recs_read, LRange10. destruct err as [[]|]; try done.
  destruct (r !! recs_key u) as [[l e]|] eqn:E; [|done]. destruct (e <=? now); [done|].
  destruct (Hl _ _ _ E) as (k & Hk & ->). destruct (take 10 (copies k)) eqn:Et; [done|]. rewrite <- Et.
  simpl. split_and!; [done..|]. by exists k.
Qed.

Lemma push_ok now key r : (∀ k l e, r !! k = Some (l, e) → list_ok l) →
  ∀ k l e, push_expire now key default_items r !! k = Some (l, e) → list_ok l.
Proof.
  intros Hl k l e. unfold push_expire. destruct (decide (k = key)) as [->|Hne].
  - rewrite lookup_insert_eq. intros [= <- <-].
    destruct (r !! key) as [[l0 e0]|] eqn:E; [destruct (e0 <=? now)|]; try (exists 1%nat; split; [lia|done]).
    destruct (Hl _ _ _ E) as (n & Hn & ->). exists (n + 1)%nat. split; [lia|]. by rewrite <- copies_add.
  - rewrite lookup_insert_ne by done. apply Hl.
Qed.

Lemma threads_insert (P : recs_thread → Prop) (ts : list recs_thread) (i : nat) t : (∀ x, x ∈ ts → P x) → P t → ∀ x, x ∈ <[i := t]> ts → P x.
Proof. rewrite <- !Forall_forall. intros H Ht. by apply Forall_insert. Qed.

Lemma recs_inv_step s s' : recs_inv s → recs_step s s' → recs_inv s'.
Proof.
  intros [Hl Ht] Hs. destruct Hs as [now r ts u|now r ts i u err Hi|now r ts i u applied err Hi|now now' r ts|now r ts key];
    simpl in *; constructor; simpl; try done.
  - intros t [Hin|Hin%list_elem_of_singleton]%elem_of_app; [auto|subst]. apply recs_user_pos.
  - apply threads_insert; [done|]. apply recs_read_ok; [|done].
    by apply (Ht (RStart u)), list_elem_of_lookup_2 with i.
  - unfold recs_fill. simpl. destruct applied; [by apply push_ok|done].
  - apply threads_insert; [done|]. simpl. split_and!; [|done|apply defaults_ok].
    by apply (Ht (RFill u)), list_elem_of_lookup_2 with i.
  - intros k l e [_ Hk]%lookup_delete_Some. eauto.
Qed.

Definition recs_init (now : Z) : recs_sys := mkRecsSys now ∅ [].

Lemma recs_inv_reach now s : rtc recs_step (recs_init now) s → recs_inv s.
Proof.
  intros Hr. apply (rtc_invariant _ _ _ _ recs_inv_step Hr). constructor; simpl; [done|]. by intros t ?%elem_of_nil.
Qed.

Lemma items_ok_length l : items_ok l → (3 ≤ length l ≤ 10)%nat ∧ take 3 l = default_items.
Proof.
  intros (k & Hk & ->). destruct k as [|k]; [lia|]. rewrite copies_S. simpl. split; [|done].
  rewrite length_take. lia.
Qed.

Lemma after_app prefix s : after prefix (prefix +:+ s) = s.
Proof. unfold after. by rewrite prefix_app, slice_from_app. Qed.

(** Zero is below one. *)
Lemma above_one x : flt f1 x = true → fle x f0 = false.
Proof. by destruct x as [[]|[]| |[] m e]. Qed.

Lemma below_zero x : flt x f0 = true → fle f1 x = false.
Proof. by destruct x as [[]|[]| |[] m e]. Qed.

Lemma up_to_zero x : fle x f0 = true → fle f1 x = false.
Proof. by destruct x as [[]|[]| |[] m e]. Qed.

Lemma flt_fle x y : flt x y = true → fle x y = true.
Proof. unfold flt, fle, SFltb, SFleb. by destruct (SFcompare x y) as [[]|]. Qed.

(** ** Properties *)

(** Whatever the interleaving of recommendation requests, failures of Redis,
expiries and evictions, a request is answered 503 or with three to ten items
that start with the defaults, under its own user; a cached list is never
anything but copies of the defaults. *)
Theorem recommendations_sound (now : Z) (s : recs_sys) :
  rtc recs_step (recs_init now) s →
  (∀ u r obs, RDone u (RecsOK r) obs ∈ rs_threads s →
     1 ≤ u ∧ rc_UserID r = u ∧ (3 ≤ length (rc_Items r) ≤ 10)%nat ∧ take 3 (rc_Items r) = default_items) ∧
  ∀ k l e, rs_lists s !! k = Some (l, e) → ∃ n, (1 ≤ n)%nat ∧ l = copies n.
Proof.
  intros [Hl Ht]%recs_inv_reach. split; [|exact Hl].
  intros u r obs (Hu & Hid & Hok)%Ht. by apply items_ok_length in Hok as [? ?].
Qed.

(** Two requests that both miss append the defaults twice, and a third is served
the duplicates until the list expires. *)
Definition double_fill : recs_sys :=
  mkRecsSys 0 {[recs_key 7 := (copies 2, Minute)]}
    [RDone 7 (RecsOK (mkRecs 7 default_items)) [("redis", "get_recommendations", "success"); ("redis", "set_recommendations", "success")];
     RDone 7 (RecsOK (mkRecs 7 default_items)) [("redis", "get_recommendations", "success"); ("redis", "set_recommendations", "success")];
     RDone 7 (RecsOK (mkRecs 7 (copies 2))) [("redis", "get_recommendations", "success")]].

Lemma double_fill_reach : rtc recs_step (recs_init 0) double_fill.
Proof.
  eapply rtc_l; [apply (RS_arrive 0 ∅ [] "7")|]. eapply rtc_l; [apply (RS_arrive 0 ∅ [RStart 7] "7")|].
  eapply rtc_l; [apply (RS_read 0 ∅ [RStart 7; RStart 7] 0 7 None); reflexivity|].
  eapply rtc_l; [apply (RS_read 0 ∅ [RFill 7; RStart 7] 1 7 None); reflexivity|].
  eapply rtc_l; [eapply (RS_fill 0 ∅ [RFill 7; RFill 7] 0 7 true None); reflexivity|].
  eapply rtc_l; [eapply (RS_fill 0 _ _ 1 7 true None); reflexivity|].
  eapply rtc_l; [apply (RS_arrive 0 _ _ "7")|].
  eapply rtc_l; [apply (RS_read 0 _ _ 2 7 None); reflexivity|].
  vm_compute. apply rtc_refl.
Qed.

Theorem recommendations_duplicated :
  ∃ s r obs, rtc recs_step (recs_init 0) s ∧ RDone 7 (RecsOK r) obs ∈ rs_threads s ∧ ¬ NoDup (rc_Items r).
Proof.
  exists double_fill. eexists _, _. split; [exact double_fill_reach|]. split; [right; right; left|].
  simpl. intros H. inversion_clear H as [|? ? Hn _]. apply Hn. set_solver.
Qed.

Lemma recommendations_sound_witness :
  (∀ k l e, rs_lists double_fill !! k = Some (l, e) → ∃ n, (1 ≤ n)%nat ∧ l = copies n).
Proof. apply (recommendations_sound 0 double_fill), double_fill_reach. Defined.

(** Incidents are captured and nothing else is: whatever the sampling ratio,
a request that ends with a server error puts exactly one error event, with the
service, the route, the status and (in a trace) the trace identifier, into the
incident buffer, and any other request leaves the buffer as it is. *)
Theorem server_errors_captured (show : float64 → string) (name : string) (ratio : float64) (now : Z)
    (c : SpanContext) (ob : HTTPObservation) (b : EventBuffer) (out : list LogRecord) :
  let '(b', out') := observe show name ratio now c ob (b, out) in
  if 500 <=? ob_status ob
  then ∃ ev, b' = Add now ev b ∧ ev_level ev = LevelError ∧
         get "service" (ev_fields ev) = Some (FLeaf name) ∧ get "route" (ev_fields ev) = Some (FLeaf (ob_route ob)) ∧
         get "status" (ev_fields ev) = Some (FLeaf (Itoa (ob_status ob))) ∧
         get "trace_id" (ev_fields ev) = (if IsValid c then Some (FLeaf (TraceID c)) else None) ∧
         length out' = S (length out)
  else b' = b ∧ (length out' = length out + if sampleTrace c ratio then 1 else 0)%nat.
Proof.
  unfold observe, logRequest. destruct (Z.leb_spec 500 (ob_status ob)) as [H5|H5].
  - rewrite (proj2 (Z.ltb_ge (ob_status ob) 500)) by lia. simpl. unfold log, add_trace, TraceID. simpl.
    destruct (IsValid c); simpl; eexists; split_and!; try reflexivity; rewrite length_app; simpl; lia.
  - rewrite (proj2 (Z.ltb_lt (ob_status ob) 500)) by lia. simpl.
    destruct (sampleTrace c ratio); simpl; [|split; [done|lia]].
    unfold log, add_trace. simpl. destruct (IsValid c); simpl; (split; [done|rewrite length_app; simpl; lia]).
Qed.

(** Sampling is decided by the trace alone within its bounds: a configured
ratio that is not NaN is brought into [0, 1], nothing is sampled at or below 0,
everything at or above 1, and a context without a span only then. *)
Theorem sampling_bounded (configured : float64) (c : SpanContext) :
  let ratio := accessLogRatio configured in
  (configured ≠ NaN → fle f0 ratio = true ∧ fle ratio f1 = true) ∧
  (fle configured f0 = true → sampleTrace c ratio = false) ∧
  (fle f1 configured = true → sampleTrace c ratio = true) ∧
  (IsValid c = false → sampleTrace c ratio = true → fle f1 configured = true) ∧
  (configured = NaN → sampleTrace c ratio = false).
Proof.
  unfold accessLogRatio. split_and!.
  - intros Hn. destruct (flt configured f0) eqn:E0; [by vm_compute|].
    destruct (not_flt _ _ E0) as [?|[?|H0]]; [done|done|]. destruct (flt f1 configured) eqn:E1; [by vm_compute|].
    destruct (not_flt _ _ E1) as [?|[?|H1]]; done.
  - intros H0. destruct (flt configured f0) eqn:E0; [by vm_compute|].
    destruct (flt f1 configured) eqn:E1; [|unfold sampleTrace; by rewrite H0].
    pose proof (above_one _ E1). congruence.
  - intros H1. destruct (flt configured f0) eqn:E0; [pose proof (below_zero _ E0); congruence|].
    destruct (flt f1 configured) eqn:E1; [by vm_compute|]. unfold sampleTrace. rewrite H1.
    destruct (fle configured f0) eqn:E2; [|done]. pose proof (up_to_zero _ E2). congruence.
  - intros Hv. destruct (flt configured f0) eqn:E0; [by vm_compute|].
    destruct (flt f1 configured) eqn:E1; [intros _; by apply flt_fle|]. unfold sampleTrace. rewrite Hv.
    destruct (fle configured f0); [done|]. by destruct (fle f1 configured).
  - intros ->. unfold sampleTrace. simpl. rewrite flt_nan_r. by destruct (negb (IsValid c)).
Qed.

Lemma sampling_bounded_witness :
  fle f0 (accessLogRatio (to_float64 7)) = true ∧ sampleTrace no_span (accessLogRatio (to_float64 7)) = true.
Proof.
  destruct (sampling_bounded (to_float64 7) no_span) as (H1 & _ & H2 & _).
  split; [apply H1; vm_compute; discriminate|apply H2; vm_compute; reflexivity].
Defined.

(** A sampling ratio of NaN reaches the tracer: the range check meant to replace
what is outside (0, 1] lets it through, and the access log is silent. *)
Theorem sampling_nan_passes :
  SamplingRatio <$> observability_New true true (mkTrace "feed-api" "" "" (EnvFloat (fun _ => "nan") "TRACE_SAMPLING_RATIO" f1))
    = Some NaN ∧
  sampleTrace (mkSpan (replicate 16 1) (replicate 8 1)) (accessLogRatio NaN) = false.
Proof. vm_compute. split; reflexivity. Qed.

(** The profile service never answers for an identifier the feed cannot have. *)
Lemma profile_call user db : in_i64 user → 1 ≤ user →
  profile_handler (after "/v1/profiles/" (profile_path user)) db =
  match db user with
  | Ok p => (ProfileOK p, [("postgres", "get_profile", "success")])
  | Err DNil => (ProfileError 404, [("postgres", "get_profile", "success")])
  | Err e => (ProfileError 503, [("postgres", "get_profile", redisStatus (Some e))])
  end.
Proof.
  intros Hi Hu. unfold profile_path. rewrite after_app. unfold profile_handler. rewrite ParseInt_Itoa by done.
  destruct (Z.leb_spec user 0); [lia|]. by destruct (db user) as [|[]].
Qed.

Lemma recs_call user : in_i64 user → 1 ≤ user → recs_user (after "/v1/recommendations?user_id=" (recs_path user)) = user.
Proof.
  intros Hi Hu. unfold recs_path. rewrite after_app. unfold recs_user. rewrite ParseInt_Itoa by done.
  destruct (Z.leb_spec user 0); [lia|done].
Qed.

Lemma feed_user_range u : in_i64 (feed_user u) ∧ 1 ≤ feed_user u.
Proof.
  unfold feed_user, ParseInt. destruct (signed u) as [n|]; [|unfold in_i64; lia].
  destruct (Z.leb_spec min_i64 n), (Z.leb_spec n max_i64); simpl; try (unfold in_i64; lia).
  destruct (Z.leb_spec n 0); unfold in_i64, min_i64, max_i64 in *; lia.
Qed.

(** The three services fit together: on a cache miss with readable posts, the
feed of a user over any state of the recommendation service shows the profile
the profile database has for that user, or the bare identifier when it has none
or fails, and either the user's own recommendations (three to ten items, the
defaults first) or none when that service is unavailable. *)
Theorem feed_over_services (now : Z) (s : recs_sys) (user_id : string) (query : result feed_error (list row * option feed_error))
    (db : Z → result driver_error Profile) (obs : list (string * string * string)) (reply : recs_reply)
    (set : option feed_error) (ps : list Post) :
  rtc recs_step (recs_init now) s →
  RDone (recs_user (after "/v1/recommendations?user_id=" (recs_path (feed_user user_id)))) reply obs ∈ rs_threads s →
  (posts query).1 = Ok ps →
  let user := feed_user user_id in
  match (feed user_id (composed user CNil query db (RDone user reply obs) set)).1.1 with
  | Ok f =>
      f_Posts f = ps ∧ f_CacheHit f = false ∧
      f_User f = match db user with Ok p => p | Err _ => mkProfile user "" "" end ∧
      rc_UserID (f_Recs f) = user ∧
      (rc_Items (f_Recs f) = [] ∨ (3 ≤ length (rc_Items (f_Recs f)) ≤ 10)%nat ∧ take 3 (rc_Items (f_Recs f)) = default_items)
  | Err _ => False
  end.
Proof.
  intros [_ Ht]%recs_inv_reach Hin Hps user.
  assert (in_i64 user ∧ 1 ≤ user) as [Hi Hu] by apply feed_user_range.
  fold user in Hin. rewrite recs_call in Hin by done. apply Ht in Hin. simpl in Hin.
  unfold feed, composed. fold user. simpl. rewrite profile_call by done.
  destruct (posts query) as [r o1]. simpl in Hps. subst r.
  destruct (db user) as [p|[]]; destruct reply as [|rec]; simpl; (split_and!; try done; [.. |]); try (by left).
  all: destruct Hin as (_ & Hid & Hok); try done; right; by apply items_ok_length.
Qed.

Lemma feed_over_services_witness :
  match (feed "7" (composed 7 CNil (Ok ([], None)) (fun _ => Err DNil)
           (RDone 7 (RecsOK (mkRecs 7 (copies 2))) [("redis", "get_recommendations", "success")]) None)).1.1 with
  | Ok f => f_User f = mkProfile 7 "" "" ∧ rc_UserID (f_Recs f) = 7
  | Err _ => False
  end.
Proof.
  pose proof (feed_over_services 0 double_fill "7" (Ok ([], None)) (fun _ => Err DNil)
    [("redis", "get_recommendations", "success")] (RecsOK (mkRecs 7 (copies 2))) None [] double_fill_reach) as H.
  destruct H as (_ & _ & H1 & H2 & _); [|reflexivity|split; [exact H1|exact H2]].
  right. right. left.
Defined.

(** Every measured route and dependency of the services is on its own allow list,
so that no series of theirs is filed under "unknown". *)
Definition known (config : Config) (routes : list string) (deps : list (string * string)) : bool :=
  match New true (service_config config) with
  | Ok m => forallb (fun r => String.eqb (routeLabel m r) r) routes
            && forallb (fun d => bool_decide (dependencyLabels m d.1 d.2 = d)) deps
  | Err _ => false
  end.

Definition lab_routes : list string := omap snd (MountOperations true).

Theorem services_labels_known :
  known recommendation_config ((recommendation_routes.*2) ++ lab_routes)%list
    [("redis", "get_recommendations"); ("redis", "set_recommendations")] = true ∧
  known profile_config ((profile_routes.*2) ++ lab_routes)%list [("postgres", "get_profile")] = true ∧
  known feed_config (["/healthz"; "/readyz"; "/v1/feed"] ++ lab_routes)%list
    [("postgres", "read_feed"); ("redis", "get_feed"); ("redis", "set_feed"); ("recommendation", "list"); ("profile", "get")] = true.
Proof. vm_compute. repeat split. Qed.
