(* ===== verification/SubscriptionPg.v ===== *)
(** * subscription-core/store/postgres against the in-memory store

[repo.go]: the durable store, with the statements of each method over the tables of
[migrations/0001_init.sql]; and how far the in-memory store mirrors it. *)

From Stdlib Require Import ZArith Lia.
From stdpp Require Import base gmap strings list fin_maps.
From S2P Require Import Prelude Subscription.

Open Scope Z_scope.

(* [base] subscription-core/store/postgres *)

(** The tables: subscriptions by their unique provider id, the event ids, the plans.
The JSON column of a plan holds its features. *)
(* [go] repo.go:25-27 Store *)
Record PgStore : Type := mkPg {
  pg_subs : gmap string Subscription; pg_events : gset string; pg_plans : gmap string Plan }.

(** An INT column, and a TIMESTAMPTZ column, which keeps microseconds. *)
Definition int4 (n : Z) : bool := (- 2 ^ 31 <=? n) && (n <? 2 ^ 31).
Definition micros (t : Z) : Z := t / 1000 * 1000.

Definition as_stored (s : Subscription) : Subscription :=
  mkSub (s_ID s) (CustomerID s) (ProviderSubID s) (PlanID s) (s_Status s) (SeatCount s)
    (micros (CurrentPeriodStart s)) (micros (CurrentPeriodEnd s)) (CancelAtPeriodEnd s) (micros (TrialEnd s))
    (micros (ProviderUpdatedAt s)).

Definition with_id (id : string) (s : Subscription) : Subscription :=
  mkSub id (CustomerID s) (ProviderSubID s) (PlanID s) (s_Status s) (SeatCount s) (CurrentPeriodStart s)
    (CurrentPeriodEnd s) (CancelAtPeriodEnd s) (TrialEnd s) (ProviderUpdatedAt s).

Section store.
(** The row that [ORDER BY provider_updated_at DESC LIMIT 1] gives; the order of equal
stamps is the database's. *)
Context (pick : list Subscription → option Subscription).

(* [go] repo.go:92-103 Store.GetByProviderID *)
Definition pg_GetByProviderID (id : string) (p : PgStore) : result store_err Subscription := found (pg_subs p !! id).

Definition of_customer (subject : string) (p : PgStore) : list Subscription :=
  filter (fun s => CustomerID s = subject) ((map_to_list (pg_subs p)).*2).

(* [go] repo.go:106-118 Store.GetBySubject *)
Definition pg_GetBySubject (subject : string) (p : PgStore) : result store_err Subscription :=
  found (pick (of_customer subject p)).

(** A conflict on the provider id updates every column but the id; a conflict on the
primary key alone is an error. *)
(* [go] repo.go:121-144 Store.Upsert *)
Definition pg_Upsert (sub : Subscription) (p : PgStore) : result store_err PgStore :=
  if negb (int4 (SeatCount sub)) then Err ErrStore
  else match pg_subs p !! ProviderSubID sub with
       | Some old => Ok (mkPg (<[ProviderSubID sub := with_id (s_ID old) (as_stored sub)]> (pg_subs p)) (pg_events p) (pg_plans p))
       | None =>
           if bool_decide (s_ID sub ∈ s_ID <$> (map_to_list (pg_subs p)).*2) then Err ErrStore
           else Ok (mkPg (<[ProviderSubID sub := as_stored sub]> (pg_subs p)) (pg_events p) (pg_plans p))
       end.

(* [go] repo.go:148-156 Store.MarkProcessed *)
Definition pg_MarkProcessed (id : string) (p : PgStore) : result store_err (PgStore * bool) :=
  if bool_decide (id ∈ pg_events p) then Ok (p, false) else Ok (mkPg (pg_subs p) ({[id]} ∪ pg_events p) (pg_plans p), true).

(* [go] repo.go:159-178 Store.Get *)
Definition pg_Get (planID : string) (p : PgStore) : result store_err Plan := found (pg_plans p !! planID).

(* [go] repo.go:181-198 Store.UpsertPlan *)
Definition pg_UpsertPlan (pl : Plan) (p : PgStore) : result store_err PgStore :=
  if negb (int4 (SeatIncluded pl)) then Err ErrStore else Ok (mkPg (pg_subs p) (pg_events p) (<[p_ID pl := pl]> (pg_plans p))).

(** ** Calls and their answers *)

Inductive repo_op : Type :=
| RGetByProviderID (id : string) | RGetBySubject (subject : string) | RUpsert (s : Subscription)
| RMarkProcessed (id : string) | RGetPlan (id : string) | RUpsertPlan (p : Plan).

Inductive answer : Type :=
| ASub (r : result store_err Subscription) | APlan (r : result store_err Plan) | AFirst (b : bool) | ADone | AFailed.

Definition mem_call (o : repo_op) (s : Store) : Store * answer :=
  match o with
  | RGetByProviderID id => (s, ASub (mem_GetByProviderID id s))
  | RGetBySubject subject => (s, ASub (mem_GetBySubject subject s))
  | RUpsert sub => match mem_Upsert sub s with Ok s' => (s', ADone) | Err _ => (s, AFailed) end
  | RMarkProcessed id => match mem_MarkProcessed id s with Ok (s', b) => (s', AFirst b) | Err _ => (s, AFailed) end
  | RGetPlan id => (s, APlan (mem_Get id s))
  | RUpsertPlan p => (SeedPlan p s, ADone)
  end.

Definition pg_call (o : repo_op) (p : PgStore) : PgStore * answer :=
  match o with
  | RGetByProviderID id => (p, ASub (pg_GetByProviderID id p))
  | RGetBySubject subject => (p, ASub (pg_GetBySubject subject p))
  | RUpsert sub => match pg_Upsert sub p with Ok p' => (p', ADone) | Err _ => (p, AFailed) end
  | RMarkProcessed id => match pg_MarkProcessed id p with Ok (p', b) => (p', AFirst b) | Err _ => (p, AFailed) end
  | RGetPlan id => (p, APlan (pg_Get id p))
  | RUpsertPlan pl => match pg_UpsertPlan pl p with Ok p' => (p', ADone) | Err _ => (p, AFailed) end
  end.

Fixpoint mem_answers (ops : list repo_op) (s : Store) : list answer :=
  match ops with [] => [] | o :: ops => let '(s', a) := mem_call o s in a :: mem_answers ops s' end.

Fixpoint pg_answers (ops : list repo_op) (p : PgStore) : list answer :=
  match ops with [] => [] | o :: ops => let '(p', a) := pg_call o p in a :: pg_answers ops p' end.

(** A write that fits the columns, keeps the id and the customer of its row, and is
the newest of its customer. *)
Definition regular (o : repo_op) (p : PgStore) : Prop :=
  match o with
  | RUpsert s =>
      int4 (SeatCount s) = true ∧ as_stored s = s ∧
      match pg_subs p !! ProviderSubID s with
      | Some old => s_ID old = s_ID s ∧ CustomerID old = CustomerID s
      | None => ∀ k r, pg_subs p !! k = Some r → s_ID r ≠ s_ID s
      end ∧
      ∀ k r, pg_subs p !! k = Some r → k ≠ ProviderSubID s → CustomerID r = CustomerID s →
        ProviderUpdatedAt r < ProviderUpdatedAt s
  | RUpsertPlan pl => int4 (SeatIncluded pl) = true
  | _ => True
  end.

Fixpoint all_regular (ops : list repo_op) (p : PgStore) : Prop :=
  match ops with [] => True | o :: ops => regular o p ∧ all_regular ops (pg_call o p).1 end.

(** ** The simulation *)

Definition pick_ok : Prop := ∀ l,
  match pick l with
  | Some s => s ∈ l ∧ ∀ s', s' ∈ l → ProviderUpdatedAt s' ≤ ProviderUpdatedAt s
  | None => l = []
  end.

(** [s] is the newest row of its customer, and no other is as new. *)
Definition newest (c : string) (s : Subscription) (subs : gmap string Subscription) : Prop :=
  subs !! ProviderSubID s = Some s ∧ CustomerID s = c ∧
  ∀ k r, subs !! k = Some r → CustomerID r = c → k ≠ ProviderSubID s → ProviderUpdatedAt r < ProviderUpdatedAt s.

Record mirrors (m : Store) (p : PgStore) : Prop := {
  mi_subs : byProv m = pg_subs p;
  mi_keys k s : pg_subs p !! k = Some s → ProviderSubID s = k;
  mi_subj c : match bySubj m !! c with
              | Some s => newest c s (pg_subs p)
              | None => ∀ k r, pg_subs p !! k = Some r → CustomerID r ≠ c
              end;
  mi_events id : seen id m = bool_decide (id ∈ pg_events p);
  mi_plans : plans m = pg_plans p }.

Lemma of_customer_elem s c p : s ∈ of_customer c p ↔ CustomerID s = c ∧ ∃ k, pg_subs p !! k = Some s.
Proof.
  unfold of_customer. rewrite list_elem_of_filter, list_elem_of_fmap. split.
  - intros (Hc & [k s'] & -> & Hk%elem_of_map_to_list). eauto.
  - intros (Hc & k & Hk). split; [done|]. exists (k, s). split; [done|]. by apply elem_of_map_to_list.
Qed.

Lemma subject_agrees m p c : pick_ok → mirrors m p → mem_GetBySubject c m = pg_GetBySubject c p.
Proof.
  intros Hp [_ Hk Hs _ _]. unfold mem_GetBySubject, pg_GetBySubject. f_equal. specialize (Hs c). specialize (Hp (of_customer c p)).
  destruct (bySubj m !! c) as [s|].
  - destruct Hs as (Hin & Hc & Hmax).
    assert (s ∈ of_customer c p) as Hs by (apply of_customer_elem; eauto).
    destruct (pick (of_customer c p)) as [t|]; [|rewrite Hp in Hs; by apply elem_of_nil in Hs].
    destruct Hp as [Ht Hle]. apply of_customer_elem in Ht as (Htc & k & Htk). f_equal.
    destruct (decide (k = ProviderSubID s)) as [->|Hne]; [congruence|].
    specialize (Hmax _ _ Htk Htc Hne). specialize (Hle s Hs). lia.
  - destruct (pick (of_customer c p)) as [t|]; [|done]. destruct Hp as [Ht _].
    apply of_customer_elem in Ht as (Htc & k & Htk). by destruct (Hs _ _ Htk).
Qed.

Lemma with_own_id s : with_id (s_ID s) s = s.
Proof. by destruct s. Qed.

(** What a regular write stores. *)
Lemma pg_Upsert_regular s p : regular (RUpsert s) p →
  pg_Upsert s p = Ok (mkPg (<[ProviderSubID s := s]> (pg_subs p)) (pg_events p) (pg_plans p)).
Proof.
  intros (Hi & Hst & Hid & _). unfold pg_Upsert. rewrite Hi. simpl.
  destruct (pg_subs p !! ProviderSubID s) as [old|] eqn:E.
  - destruct Hid as [-> _]. by rewrite Hst, with_own_id.
  - rewrite Hst, bool_decide_eq_false_2; [done|]. intros Hin.
    apply list_elem_of_fmap in Hin as (r & Hr & ([k r'] & -> & Hk%elem_of_map_to_list)%list_elem_of_fmap). by destruct (Hid k r').
Qed.

Lemma Upsert_mirrors s m p m' : mirrors m p → regular (RUpsert s) p → mem_Upsert s m = Ok m' →
  mirrors m' (mkPg (<[ProviderSubID s := s]> (pg_subs p)) (pg_events p) (pg_plans p)).
Proof.
  intros [H1 H2 H3 H4 H5] (_ & _ & Hid & Hnew) [= <-]. split; simpl; [by rewrite H1| | |done|done].
  - intros k r. rewrite lookup_insert. case_decide; [by intros [= <-]|apply H2].
  - intros c. rewrite lookup_insert. case_decide as Hc.
    + subst c. split_and!; [by rewrite lookup_insert, decide_True|done|].
      intros k r. rewrite lookup_insert. case_decide; [done|]. eauto.
    + specialize (H3 c). destruct (bySubj m !! c) as [t|].
      * destruct H3 as (Ht & Htc & Hmax). assert (ProviderSubID t ≠ ProviderSubID s) as Hne.
        { intros E. rewrite E in Ht. rewrite Ht in Hid. destruct Hid as [_ Hcu]. congruence. }
        split_and!; [by rewrite lookup_insert_ne by done|done|].
        intros k r. rewrite lookup_insert. case_decide; [intros [= <-]; congruence|apply Hmax].
      * intros k r. rewrite lookup_insert. case_decide; [by intros [= <-]|apply H3].
Qed.

Lemma call_mirrors o m p : pick_ok → mirrors m p → regular o p →
  (mem_call o m).2 = (pg_call o p).2 ∧ mirrors (mem_call o m).1 (pg_call o p).1.
Proof.
  intros Hp Hm Hr. destruct o as [id|subject|s|id|id|pl]; simpl.
  - split; [|done]. unfold mem_GetByProviderID, pg_GetByProviderID. by rewrite (mi_subs _ _ Hm).
  - split; [|done]. by rewrite (subject_agrees m p).
  - rewrite (pg_Upsert_regular _ _ Hr). split; [done|]. by eapply Upsert_mirrors.
  - unfold mem_MarkProcessed, pg_MarkProcessed. rewrite (mi_events _ _ Hm). case_bool_decide; [done|]. split; [done|].
    destruct Hm as [H1 H2 H3 H4 H5]. split; simpl; try done. intros i. unfold seen in *. simpl. rewrite lookup_insert.
    case_decide; [subst; simpl; by rewrite bool_decide_eq_true_2 by set_solver|]. rewrite H4. apply bool_decide_ext. set_solver.
  - split; [|done]. unfold mem_Get, pg_Get. by rewrite (mi_plans _ _ Hm).
  - unfold pg_UpsertPlan. rewrite Hr. simpl. split; [done|]. destruct Hm as [H1 H2 H3 H4 H5]. split; simpl; try done. by rewrite H5.
Qed.
End store.

Definition pg_empty : PgStore := mkPg ∅ ∅ ∅.

(** ** Main results *)

(** The in-memory store mirrors the durable one: on any calls whose writes fit the
columns, keep the id and the customer of their row and are the newest of their
customer, the two answer alike. *)
Theorem Memory_mirrors_postgres (pick : list Subscription → option Subscription) (ops : list repo_op) :
  pick_ok pick → all_regular pick ops pg_empty → mem_answers ops New = pg_answers pick ops pg_empty.
Proof.
  intros Hp. assert (mirrors New pg_empty) as H0 by (split; simpl; try done; intros *; rewrite lookup_empty; done).
  revert H0. generalize New pg_empty. induction ops as [|o ops IH]; intros m p Hm; simpl; [done|]. intros [Hr Hrs].
  destruct (call_mirrors pick o m p Hp Hm Hr) as [Ha Hm'].
  destruct (mem_call o m) as [m' a], (pg_call pick o p) as [p' a']. simpl in *. subst a'. f_equal. by apply IH.
Qed.

(** The first row with the greatest stamp. *)
Definition latest (l : list Subscription) : option Subscription :=
  foldr (fun s acc => match acc with
                      | Some t => if ProviderUpdatedAt s <? ProviderUpdatedAt t then Some t else Some s
                      | None => Some s
                      end) None l.

Lemma latest_ok : pick_ok latest.
Proof.
  intros l. induction l as [|s l IH]; [done|]. simpl. destruct (latest l) as [t|].
  - destruct IH as [Ht Hle]. destruct (ProviderUpdatedAt s <? ProviderUpdatedAt t) eqn:E; zbool.
    + split; [by right|]. intros x [->|Hx]%elem_of_cons; [lia|auto].
    + split; [by left|]. intros x [->|Hx]%elem_of_cons; [lia|]. specialize (Hle x Hx). lia.
  - subst l. split; [by left|]. intros x [->|Hx]%elem_of_cons; [lia|]. by apply elem_of_nil in Hx.
Qed.

Lemma regular_new s p :
  int4 (SeatCount s) = true → as_stored s = s → pg_subs p !! ProviderSubID s = None →
  (∀ k r, pg_subs p !! k = Some r → s_ID r ≠ s_ID s ∧ ProviderUpdatedAt r < ProviderUpdatedAt s) → regular (RUpsert s) p.
Proof.
  intros H1 H2 H3 H4. split_and!; [done|done| |].
  - rewrite H3. intros k r Hk. by apply (H4 k).
  - intros k r Hk _ _. by apply (H4 k).
Qed.

Definition sub_at (id cust prov : string) (stamp : Z) : Subscription := mkSub id cust prov "basic" StatusActive 1 0 0 false 0 stamp.

Lemma Memory_mirrors_postgres_witness :
  mem_answers [RUpsert (sub_at "1" "c" "p1" 1000); RUpsert (sub_at "2" "c" "p2" 2000); RGetBySubject "c"; RMarkProcessed "e"] New =
  pg_answers latest [RUpsert (sub_at "1" "c" "p1" 1000); RUpsert (sub_at "2" "c" "p2" 2000); RGetBySubject "c"; RMarkProcessed "e"] pg_empty.
Proof.
  apply (Memory_mirrors_postgres latest); [apply latest_ok|]. cbn [all_regular].
  assert (∀ k r, pg_subs pg_empty !! k = Some r → False) as H0 by (intros k r; simpl; by rewrite lookup_empty).
  assert (regular (RUpsert (sub_at "1" "c" "p1" 1000)) pg_empty) as H1.
  { apply regular_new; [done|done|apply lookup_empty|]. intros k r Hk. by destruct (H0 k r). }
  split_and!; [exact H1| |done|done|done]. cbn [pg_call]. rewrite (pg_Upsert_regular _ _ H1). cbn [fst pg_subs].
  assert (∀ k r, pg_subs (mkPg (<[ProviderSubID (sub_at "1" "c" "p1" 1000):=sub_at "1" "c" "p1" 1000]> (pg_subs pg_empty)) ∅ ∅) !! k = Some r →
    r = sub_at "1" "c" "p1" 1000) as H2.
  { intros k r. simpl. rewrite lookup_insert. case_decide; [by intros [= <-]|by rewrite lookup_empty]. }
  apply regular_new; [done|done|done|]. intros k r ->%H2. split; [done|simpl; lia].
Defined.

(** A write that is not the newest of its customer: the in-memory store answers with
the last one written, Postgres with the newest, whatever it does with ties. *)
Theorem Subject_diverges (pick : list Subscription → option Subscription) :
  pick_ok pick →
  mem_answers [RUpsert (sub_at "1" "c" "p1" 2000); RUpsert (sub_at "2" "c" "p2" 1000); RGetBySubject "c"] New =
    [ADone; ADone; ASub (Ok (sub_at "2" "c" "p2" 1000))] ∧
  pg_answers pick [RUpsert (sub_at "1" "c" "p1" 2000); RUpsert (sub_at "2" "c" "p2" 1000); RGetBySubject "c"] pg_empty =
    [ADone; ADone; ASub (Ok (sub_at "1" "c" "p1" 2000))].
Proof.
  intros Hp. split; [by vm_compute|].
  set (a := sub_at "1" "c" "p1" 2000). set (b := sub_at "2" "c" "p2" 1000).
  pose (p := mkPg (<["p2" := b]> (<["p1" := a]> ∅)) ∅ ∅).
  assert (pg_answers pick [RUpsert a; RUpsert b; RGetBySubject "c"] pg_empty = [ADone; ADone; ASub (pg_GetBySubject pick "c" p)]) as ->
    by (by vm_compute).
  do 4 f_equal. unfold pg_GetBySubject. specialize (Hp (of_customer "c" p)).
  assert (a ∈ of_customer "c" p) as Ha by (apply of_customer_elem; split; [done|]; by exists "p1").
  destruct (pick (of_customer "c" p)) as [t|]; [|rewrite Hp in Ha; by apply elem_of_nil in Ha].
  destruct Hp as [Ht Hle]. specialize (Hle a Ha). apply of_customer_elem in Ht as (_ & k & Hk). simpl in Hk.
  rewrite !lookup_insert, lookup_empty in Hk. repeat case_decide; simplify_eq/=; done || lia.
Qed.

(** A subscription that moves to another customer is still found under the old one in
the in-memory store, and not in Postgres. *)
Theorem Moved_customer_diverges :
  mem_answers [RUpsert (sub_at "1" "c" "p1" 1000); RUpsert (sub_at "1" "d" "p1" 2000); RGetBySubject "c"] New =
    [ADone; ADone; ASub (Ok (sub_at "1" "c" "p1" 1000))] ∧
  pg_answers latest [RUpsert (sub_at "1" "c" "p1" 1000); RUpsert (sub_at "1" "d" "p1" 2000); RGetBySubject "c"] pg_empty =
    [ADone; ADone; ASub (Err ErrNotFound)].
Proof. by vm_compute. Qed.
