(* ===== verification/Instascale.v ===== *)
(** * instascale-observability: resilient client, counters, feed, edge

[internal/obs/httpclient.go]: bounded retries behind a circuit breaker.
[counter-service] and [feed-service]: Redis in front of Postgres.  [edge-api]: the
composed feed.  [internal/chaos]: the failure laboratory. *)

From Stdlib Require Import ZArith Lia.
From stdpp Require Import base gmap strings list sorting fin_maps.
From S2P Require Import Prelude GoStrings.

Open Scope Z_scope.

(** ** The client *)

(* [base] instascale-observability/internal/obs *)

(* [go] httpclient.go:18-23 ClientConfig *)
Record ClientConfig : Type := mkCC { cc_MaxRetries : Z; cc_FailThreshold : Z; cc_OpenFor : Z }.

(* [go] httpclient.go:28-37 Client *)
Record Client : Type := mkClient { cl_failures : Z; cl_openedUntil : Z }.

(** [NewClient]: no failures, and the zero time, before every clock reading. *)
(* [go] httpclient.go:39-46 NewClient *)
Definition NewClient (before : Z) : Client := mkClient 0 before.

(* [go] httpclient.go:113-117 Client.breakerOpen *)
Definition breakerOpen (now : Z) (c : Client) : bool := now <? cl_openedUntil c.

(* [go] httpclient.go:119-127 Client.recordFailure *)
Definition recordFailure (cfg : ClientConfig) (now : Z) (c : Client) : Client :=
  let failures := cl_failures c + 1 in
  if cc_FailThreshold cfg <=? failures then mkClient 0 (now + cc_OpenFor cfg) else mkClient failures (cl_openedUntil c).

(* [go] httpclient.go:129-133 Client.recordSuccess *)
Definition recordSuccess (c : Client) : Client := mkClient 0 (cl_openedUntil c).

(** A reply with its status and body; [None] is no reply. *)
(* [go] httpclient.go:88-111 Client.do *)
Definition do_call (reply : option (Z * string)) : option string :=
  match reply with
  | None => None
  | Some (status, body) => if 500 <=? status then None else Some body
  end.

(** What happens around one attempt: the context ends during the wait before it, the
reply, and the clock at [recordFailure] and at the check after it. *)
Record attempt_env : Type := mkAttempt { at_done : bool; at_reply : option (Z * string); at_fail : Z; at_check : Z }.

Inductive get_result : Type := GBody (b : string) | GBreakerOpen | GContext | GFailed.

(** The client, the result and the number of calls that were made. *)
(* [go] httpclient.go:61-85 Client.Get *)
Fixpoint get_loop (cfg : ClientConfig) (n attempt : nat) (env : nat → attempt_env) (c : Client)
  : Client * get_result * Z :=
  match n with
  | O => (c, GFailed, 0)
  | S n =>
      let a := env attempt in
      if Nat.ltb 0 attempt && at_done a then (c, GContext, 0)
      else match do_call (at_reply a) with
           | Some body => (recordSuccess c, GBody body, 1)
           | None =>
               let c := recordFailure cfg (at_fail a) c in
               if breakerOpen (at_check a) c then (c, GFailed, 1)
               else let '(c', r, k) := get_loop cfg n (S attempt) env c in (c', r, k + 1)
           end
  end.

(* [go] httpclient.go:53-86 Client.Get *)
Definition Get (cfg : ClientConfig) (now : Z) (env : nat → attempt_env) (c : Client) : Client * get_result * Z :=
  if breakerOpen now c then (c, GBreakerOpen, 0)
  else get_loop cfg (Z.to_nat (cc_MaxRetries cfg + 1)) 0 env c.

(** *** Bounds *)

Lemma get_loop_calls cfg m attempt env c : 0 ≤ (get_loop cfg m attempt env c).2 ≤ Z.of_nat m.
Proof.
  revert attempt c. induction m as [|m IH]; intros attempt c; simpl; [lia|].
  destruct (Nat.ltb 0 attempt && at_done (env attempt)); [simpl; lia|]. destruct (do_call _); [simpl; lia|].
  destruct (breakerOpen _ _); [simpl; lia|].
  specialize (IH (S attempt) (recordFailure cfg (at_fail (env attempt)) c)).
  destruct (get_loop _ _ _ _ _) as [[c' r] n]. simpl in *. lia.
Qed.

(** One call of [Get] during an outage: its clock, its attempts in time. *)
Record outage_call : Type := mkOutage { oc_now : Z; oc_env : nat → attempt_env }.

Definition in_outage (o : outage_call) (upto : Z) : Prop :=
  oc_now o ≤ upto ∧
  ∀ i, do_call (at_reply (oc_env o i)) = None ∧ oc_now o ≤ at_fail (oc_env o i) ≤ at_check (oc_env o i) ∧
    at_check (oc_env o i) ≤ at_fail (oc_env o (S i)) ∧ at_check (oc_env o i) ≤ upto.

(** The calls of one goroutine after another. *)
Fixpoint outage_calls (cfg : ClientConfig) (os : list outage_call) (c : Client) : Z :=
  match os with
  | [] => 0
  | o :: os => let '(c', _, n) := Get cfg (oc_now o) (oc_env o) c in n + outage_calls cfg os c'
  end.

(** Each call begins when the attempts of the one before are over. *)
Fixpoint outage (now : Z) (os : list outage_call) (upto : Z) (limit : nat) : Prop :=
  match os with
  | [] => now ≤ upto
  | o :: os => now ≤ oc_now o ∧ in_outage o upto ∧ outage (at_check (oc_env o limit)) os upto limit
  end.

Definition client_ok (cfg : ClientConfig) (now : Z) (c : Client) : Prop :=
  0 ≤ cl_failures c < cc_FailThreshold cfg ∧ (now < cl_openedUntil c → cl_failures c = 0).

(** How many calls may still reach the downstream from [now] up to [upto]. *)
Definition call_pot (cfg : ClientConfig) (upto now : Z) (c : Client) : Z :=
  if now <? cl_openedUntil c then
    if upto <? cl_openedUntil c then 0 else cc_FailThreshold cfg * ((upto - cl_openedUntil c) / cc_OpenFor cfg + 1)
  else cc_FailThreshold cfg - cl_failures c + cc_FailThreshold cfg * ((upto - now) / cc_OpenFor cfg).

Section outage.
Context (cfg : ClientConfig) (upto : Z) (Hthr : 1 ≤ cc_FailThreshold cfg) (Hopen : 0 < cc_OpenFor cfg).

Lemma client_ok_later now now' c : now ≤ now' → client_ok cfg now c → client_ok cfg now' c.
Proof. intros Hle [H1 H2]. split; [done|]. intros. apply H2. lia. Qed.

Lemma call_pot_later now now' c : now ≤ now' ≤ upto → client_ok cfg now c → call_pot cfg upto now' c ≤ call_pot cfg upto now c.
Proof.
  intros Hle [H1 H2]. unfold call_pot. assert (∀ a b, a ≤ b → cc_FailThreshold cfg * a ≤ cc_FailThreshold cfg * b) as Hm by (intros; nia).
  destruct (now <? cl_openedUntil c) eqn:E1, (now' <? cl_openedUntil c) eqn:E2; zbool; try lia.
  - rewrite H2 by lia. rewrite (proj2 (Z.ltb_ge _ _)) by lia.
    pose proof (Hm ((upto - now') / cc_OpenFor cfg) ((upto - cl_openedUntil c) / cc_OpenFor cfg)
      ltac:(apply Z.div_le_mono; lia)). lia.
  - pose proof (Hm ((upto - now') / cc_OpenFor cfg) ((upto - now) / cc_OpenFor cfg) ltac:(apply Z.div_le_mono; lia)). lia.
Qed.

Lemma failure_pot t c : t ≤ upto → client_ok cfg t c → breakerOpen t c = false →
  client_ok cfg t (recordFailure cfg t c) ∧ call_pot cfg upto t (recordFailure cfg t c) = call_pot cfg upto t c - 1.
Proof.
  intros Ht [H1 H2] Hb. unfold breakerOpen in Hb. unfold recordFailure, call_pot. rewrite Hb.
  destruct (cc_FailThreshold cfg <=? cl_failures c + 1) eqn:E; zbool; simpl.
  - split; [split; simpl; lia|]. rewrite (proj2 (Z.ltb_lt _ _)) by lia.
    assert (cl_failures c = cc_FailThreshold cfg - 1) as -> by lia.
    destruct (upto <? t + cc_OpenFor cfg) eqn:E2; zbool.
    + rewrite (Z.div_small (upto - t)) by lia. lia.
    + replace ((upto - t) / cc_OpenFor cfg) with ((upto - (t + cc_OpenFor cfg)) / cc_OpenFor cfg + 1); [lia|].
      rewrite <- Z.div_add with (b := 1) by lia. f_equal. lia.
  - split; [split; simpl; lia|]. rewrite (proj2 (Z.ltb_ge _ _)) by lia. lia.
Qed.

Lemma get_loop_pot o m attempt now c :
  in_outage o upto → oc_now o ≤ now → now ≤ at_fail (oc_env o attempt) → client_ok cfg now c → breakerOpen now c = false →
  let '(c', _, n) := get_loop cfg m attempt (oc_env o) c in
  ∃ now', now ≤ now' ≤ Z.max now (at_check (oc_env o (attempt + m))) ∧ now' ≤ upto ∧ client_ok cfg now' c' ∧
    n + call_pot cfg upto now' c' ≤ call_pot cfg upto now c.
Proof.
  intros [Hnow Ho]. revert attempt now c. induction m as [|m IH]; intros attempt now c Hge Hle Hok Hb; cbn [get_loop].
  { exists now. pose proof (Ho attempt). split_and!; [lia|lia|lia|done|lia]. }
  destruct (Ho attempt) as (Hfail & Ht & Hnext & Hup). rewrite Hfail.
  assert (∀ k, at_check (oc_env o attempt) ≤ at_check (oc_env o (attempt + k))) as Hmono.
  { induction k as [|k IHk]; [by rewrite Nat.add_0_r|]. rewrite Nat.add_succ_r.
    pose proof (Ho (attempt + k)%nat). pose proof (Ho (S (attempt + k))). lia. }
  destruct (Nat.ltb 0 attempt && at_done (oc_env o attempt)).
  { exists now. split_and!; [lia|lia|lia|done|lia]. }
  set (t := at_fail (oc_env o attempt)) in *. assert (breakerOpen t c = false) as Hbt.
  { unfold breakerOpen in *. zbool. lia. }
  destruct (failure_pot t c ltac:(lia) (client_ok_later _ _ _ Hle Hok) Hbt) as [Hok' Hp].
  pose proof (call_pot_later now t c ltac:(lia) Hok) as Hl. set (c1 := recordFailure cfg t c) in *.
  destruct (breakerOpen (at_check (oc_env o attempt)) c1) eqn:Hb1.
  - exists t. split_and!; [lia| |lia|done|lia]. specialize (Hmono (S m)). lia.
  - pose proof (call_pot_later t (at_check (oc_env o attempt)) c1 ltac:(lia) Hok').
    specialize (IH (S attempt) (at_check (oc_env o attempt)) c1 ltac:(lia) ltac:(lia)
      (client_ok_later _ _ _ (proj2 Ht) Hok') Hb1).
    destruct (get_loop cfg m (S attempt) (oc_env o) c1) as [[c' r] n]. destruct IH as (now' & H1 & H2 & H3 & H4).
    exists now'. rewrite Nat.add_succ_comm in H1. specialize (Hmono (S m)). split_and!; [lia| |lia|done|lia].
    rewrite Nat.add_succ_r in *. lia.
Qed.
End outage.

Lemma outage_calls_pot cfg upto now os c :
  1 ≤ cc_FailThreshold cfg → 0 < cc_OpenFor cfg → client_ok cfg now c →
  outage now os upto (Z.to_nat (cc_MaxRetries cfg + 1)) → now ≤ upto →
  outage_calls cfg os c ≤ call_pot cfg upto now c.
Proof.
  intros Hthr Hopen. revert now c. induction os as [|o os IH]; intros now c Hok Ho Hle; cbn [outage_calls outage] in *.
  - unfold call_pot. destruct Hok as [? ?]. assert (0 ≤ (upto - now) / cc_OpenFor cfg) by (apply Z.div_pos; lia).
    repeat case_test; zbool; [lia| |nia].
    assert (0 ≤ (upto - cl_openedUntil c) / cc_OpenFor cfg) by (apply Z.div_pos; lia). nia.
  - destruct Ho as (Hnow & Hin & Ho). pose proof Hin as [Hup Hat].
    pose proof (client_ok_later cfg _ _ _ Hnow Hok) as Hok1.
    pose proof (call_pot_later cfg upto Hthr Hopen now (oc_now o) c ltac:(lia) Hok) as Hp1. unfold Get.
    destruct (Hat (Z.to_nat (cc_MaxRetries cfg + 1))) as (_ & Hge & _ & Hck).
    destruct (breakerOpen (oc_now o) c) eqn:Hb.
    + specialize (IH _ c (client_ok_later cfg (oc_now o) (at_check (oc_env o (Z.to_nat (cc_MaxRetries cfg + 1)))) c ltac:(lia) Hok1) Ho Hck).
      pose proof (call_pot_later cfg upto Hthr Hopen (oc_now o) _ c (conj (Z.le_trans _ _ _ (proj1 Hge) (proj2 Hge)) Hck) Hok1). lia.
    + pose proof (get_loop_pot cfg upto Hthr Hopen o (Z.to_nat (cc_MaxRetries cfg + 1)) 0 (oc_now o) c Hin ltac:(lia)
        ltac:(apply (Hat 0%nat)) Hok1 Hb) as Hl.
      destruct (get_loop _ _ _ _ _) as [[c' r] n]. destruct Hl as (now' & Hr & Hu & Hok' & Hp). simpl in Hr.
      specialize (IH _ c' (client_ok_later cfg now' (at_check (oc_env o (Z.to_nat (cc_MaxRetries cfg + 1)))) c' ltac:(lia) Hok') Ho Hck).
      pose proof (call_pot_later cfg upto Hthr Hopen now' (at_check (oc_env o (Z.to_nat (cc_MaxRetries cfg + 1)))) c' ltac:(lia) Hok'). lia.
Qed.

(** ** counter-service *)

(* [base] instascale-observability/services/counter-service/internal *)

Definition second : Z := 10 ^ 9.

(** A Redis key: its number and when it expires. *)
Record rkey : Type := mkRKey { rk_value : Z; rk_expires : option Z }.

(** Redis keys by user and kind, and the rows of [counters]. *)
(* [go] store.go:17-24 Store *)
Record CounterStore : Type := mkCounter {
  cs_likes : gmap Z rkey; cs_followers : gmap Z rkey; cs_rows : gmap Z (Z * Z) }.

Definition live (now : Z) (k : option rkey) : option rkey :=
  match k with
  | Some r => match rk_expires r with Some e => if e <=? now then None else Some r | None => Some r end
  | None => None
  end.

(** The clock when the two keys are read and when each is set; whether Redis and
Postgres answer.  [SET] gives a key a fresh expiry. *)
Record counts_env : Type := mkCE { ce_read : Z; ce_set_likes : Z; ce_set_followers : Z; ce_redis : bool; ce_pg : bool }.

(* [go] store.go:32-52 Store.Counts *)
Definition Counts (env : counts_env) (user : Z) (s : CounterStore) : CounterStore * option (Z * Z) :=
  match (if ce_redis env then live (ce_read env) (cs_likes s !! user) else None),
        (if ce_redis env then live (ce_read env) (cs_followers s !! user) else None) with
  | Some l, Some f => (s, Some (rk_value l, rk_value f))
  | _, _ =>
      if negb (ce_pg env) then (s, None)
      else match cs_rows s !! user with
           | None => (s, Some (0, 0))
           | Some (likes, followers) =>
               (if ce_redis env then
                  mkCounter (<[user := mkRKey likes (Some (ce_set_likes env + 60 * second))]> (cs_likes s))
                    (<[user := mkRKey followers (Some (ce_set_followers env + 60 * second))]> (cs_followers s)) (cs_rows s)
                else s, Some (likes, followers))
           end
  end.

(** [INCR] keeps the expiry of a key and creates a missing one without. *)
Definition incr (now : Z) (k : option rkey) : rkey :=
  match live now k with Some r => mkRKey (rk_value r + 1) (rk_expires r) | None => mkRKey 1 None end.

(* [go] store.go:56-67 Store.Like *)
Definition Like (now : Z) (redis pg : bool) (user : Z) (s : CounterStore) : CounterStore * option Z :=
  if negb redis then (s, None)
  else
    let k := incr now (cs_likes s !! user) in
    let s := mkCounter (<[user := k]> (cs_likes s)) (cs_followers s) (cs_rows s) in
    if negb pg then (s, None)
    else (mkCounter (cs_likes s) (cs_followers s)
            (<[user := match cs_rows s !! user with Some (l, f) => (l + 1, f) | None => (1, 0) end]> (cs_rows s)),
          Some (rk_value k)).

(** *** The cached counts are the stored ones *)

(** Calls of the service with every dependency up; the two keys are set together. *)
Inductive counter_op : Type := OCounts (now : Z) (user : Z) | OLike (now : Z) (user : Z).

Definition up_at (now : Z) : counts_env := mkCE now now now true true.

Definition counter_exec (s : CounterStore) (o : counter_op) : CounterStore :=
  match o with
  | OCounts now user => (Counts (up_at now) user s).1
  | OLike now user => (Like now true true user s).1
  end.

Fixpoint counter_time (now : Z) (ops : list counter_op) : Prop :=
  match ops with
  | [] => True
  | (OCounts t _ | OLike t _) :: ops => now ≤ t ∧ counter_time t ops
  end.

Definition like_of (user : Z) (o : counter_op) : Z :=
  match o with OLike _ u => if Z.eqb u user then 1 else 0 | _ => 0 end.

(** A user whose followers are cached has the likes cached as long, and exactly. *)
Record counter_ok (now : Z) (s : CounterStore) : Prop := {
  co_pair user f : live now (cs_followers s !! user) = Some f →
    ∃ e l followers likes, rk_expires f = Some e ∧ cs_likes s !! user = Some (mkRKey l (Some e)) ∧
      cs_rows s !! user = Some (likes, followers) ∧ l = likes ∧ rk_value f = followers }.

Lemma live_later now now' k r : now ≤ now' → live now' k = Some r → live now k = Some r.
Proof.
  unfold live. destruct k as [r'|]; [|done]. destruct (rk_expires r') as [e|]; [|done].
  destruct (e <=? now') eqn:E1; [done|]. destruct (e <=? now) eqn:E2; zbool; [lia|done].
Qed.

Lemma live_until now k f e : live now k = Some f → rk_expires f = Some e → now < e.
Proof.
  unfold live. destruct k as [r|]; [|done]. destruct (rk_expires r) as [e'|] eqn:E; [|congruence].
  destruct (e' <=? now) eqn:El; [done|]. intros [= ->] He. zbool. congruence.
Qed.

Lemma live_value now l e : now < e → live now (Some (mkRKey l (Some e))) = Some (mkRKey l (Some e)).
Proof. intros He. unfold live. simpl. by rewrite (proj2 (Z.leb_gt _ _)) by lia. Qed.

Lemma counter_ok_later now now' s : now ≤ now' → counter_ok now s → counter_ok now' s.
Proof. intros Hle [H]. split. intros user f Hf. eapply H. by eapply live_later. Qed.

Lemma Counts_exact_step now user s : counter_ok now s →
  (Counts (up_at now) user s).2 = Some (default (0, 0) (cs_rows s !! user)) ∧ counter_ok now (Counts (up_at now) user s).1.
Proof.
  intros Hok. unfold Counts, up_at. cbn [ce_redis ce_read ce_pg ce_set_likes ce_set_followers negb].
  destruct (live now (cs_followers s !! user)) as [f|] eqn:Hf.
  - destruct (co_pair _ _ Hok _ _ Hf) as (e & l & fo & li & He & Hl & Hr & -> & Hv). rewrite Hl.
    rewrite (live_value _ _ _ (live_until _ _ _ _ Hf He)). simpl. by rewrite Hr, <- Hv.
  - assert (∀ X : CounterStore * option (Z * Z), match live now (cs_likes s !! user) with Some _ => X | None => X end = X) as Hsame
      by (intros; by destruct (live now (cs_likes s !! user))).
    rewrite Hsame. destruct (cs_rows s !! user) as [[likes followers]|] eqn:Hr; [|done]. split; [done|]. simpl. split.
    intros u f. simpl. rewrite !lookup_insert. case_decide as Hu; [|apply (co_pair _ _ Hok)]. subst u.
    intros Hlv. unfold live in Hlv. simpl in Hlv. destruct (now + 60 * second <=? now); [done|]. simplify_eq. simpl. eauto 10.
Qed.

Lemma Like_exact_step now user s : counter_ok now s → counter_ok now (Like now true true user s).1.
Proof.
  intros Hok. unfold Like. simpl. split. intros u f Hf. cbn [cs_likes cs_followers cs_rows] in *.
  destruct (co_pair _ _ Hok _ _ Hf) as (e & l & fo & li & He & Hl & Hr & -> & Hv).
  rewrite !lookup_insert. case_decide as Hu; [|eauto 10]. subst u. rewrite Hl, Hr. exists e, (li + 1), fo, (li + 1).
  split_and!; try done. unfold incr. by rewrite (live_value _ _ _ (live_until _ _ _ _ Hf He)).
Qed.

(** ** feed-service *)

(* [base] instascale-observability/services/feed-service/internal *)

(* [go] store.go:14-20 Post *)
Record Post : Type := mkPost { po_ID : Z; po_AuthorID : Z; po_Caption : string; po_CreatedAt : Z }.

(** The tables [posts] and [edges], and the cached feeds with their expiry. *)
(* [go] store.go:22-25 Store *)
Record FeedStore : Type := mkFeedStore {
  fs_posts : list Post; fs_edges : gset (Z * Z); fs_cache : gmap Z (list Post * Z) }.

Definition newer (p q : Post) : Prop := po_CreatedAt q ≤ po_CreatedAt p.

#[global] Instance newer_dec p q : Decision (newer p q).
Proof. unfold newer. apply _. Defined.
#[global] Instance newer_total : Total newer.
Proof. intros p q. unfold newer. lia. Qed.
#[global] Instance newer_trans : Transitive newer.
Proof. intros p q r. unfold newer. lia. Qed.

(** The posts of those the viewer follows, newest first. *)
(* [go] store.go:44-50 Store.Feed *)
Definition feed_query (viewer limit : Z) (s : FeedStore) : list Post :=
  take (Z.to_nat limit) (merge_sort newer (filter (fun p => (viewer, po_AuthorID p) ∈ fs_edges s) (fs_posts s))).

(** [redis], [pg]: the dependency answers.  The answer is the posts and whether they
were cached. *)
(* [go] store.go:34-72 Store.Feed *)
Definition Feed (now : Z) (redis pg : bool) (viewer limit : Z) (s : FeedStore) : FeedStore * option (list Post * bool) :=
  match (if redis then match fs_cache s !! viewer with Some (ps, e) => if e <=? now then None else Some ps | None => None end
         else None) with
  | Some ps => (s, Some (ps, true))
  | None =>
      if negb pg then (s, None)
      else
        let ps := feed_query viewer limit s in
        (if redis then mkFeedStore (fs_posts s) (fs_edges s) (<[viewer := (ps, now + 60 * second)]> (fs_cache s)) else s,
         Some (ps, false))
  end.

(* [go] handler.go:46-51 Handler.GetFeed *)
Definition feed_limit (text : string) : Z :=
  match ParseInt text with Some n => if (0 <? n) && (n <=? 100) then n else 20 | None => 20 end.

(** The status and what is written. *)
(* [go] handler.go:29-61 Handler.GetFeed *)
Definition feed_GetFeed (fail : bool) (userId limit : string) (now : Z) (redis pg : bool) (s : FeedStore)
  : FeedStore * Z * option (Z * bool * list Post) :=
  if fail then (s, 500, None)
  else match ParseInt userId with
       | None => (s, 400, None)
       | Some viewer =>
           match Feed now redis pg viewer (feed_limit limit) s with
           | (s', None) => (s', 500, None)
           | (s', Some (ps, hit)) => (s', 200, Some (viewer, hit, ps))
           end
       end.

(** ** counter-service: handlers *)

(* [base] instascale-observability/services/counter-service/internal *)

(* [go] handler.go:29-56 Handler.GetCounts *)
Definition GetCounts (fail : bool) (userId : string) (env : counts_env) (s : CounterStore)
  : CounterStore * Z * option (Z * Z * Z) :=
  if fail then (s, 500, None)
  else match ParseInt userId with
       | None => (s, 400, None)
       | Some user =>
           match Counts env user s with
           | (s', None) => (s', 500, None)
           | (s', Some (l, f)) => (s', 200, Some (user, l, f))
           end
       end.

(* [go] handler.go:59-79 Handler.PostLike *)
Definition PostLike (fail : bool) (userId : string) (now : Z) (redis pg : bool) (s : CounterStore)
  : CounterStore * Z * option (Z * Z * Z) :=
  if fail then (s, 500, None)
  else match ParseInt userId with
       | None => (s, 400, None)
       | Some user =>
           match Like now redis pg user s with
           | (s', None) => (s', 500, None)
           | (s', Some n) => (s', 200, Some (user, n, 0))
           end
       end.

(** ** edge-api *)

(* [base] instascale-observability/services/edge-api/internal *)

(* [go] handler.go:34-39 composedFeed *)
Record composedFeed : Type := mkComposed {
  cf_ViewerID : Z; cf_Counts : option string; cf_Feed : option string; cf_Degraded : list string }.

Definition body_of (r : get_result) : option string := match r with GBody b => Some b | _ => None end.

(** The answer of the two downstream calls put together. *)
(* [go] handler.go:77-103 Handler.GetFeed *)
Definition compose (userID : Z) (feedRes countRes : option string) : Z * composedFeed :=
  let degraded := match feedRes with None => ["feed"] | Some _ => [] end in
  let degraded := degraded ++ match countRes with None => ["counts"] | Some _ => [] end in
  (if Nat.eqb (length degraded) 2 then 503 else 200, mkComposed userID countRes feedRes degraded).

(** The handler with its two clients. *)
(* [go] handler.go:42-104 Handler.GetFeed *)
Definition edge_GetFeed (cfg : ClientConfig) (fail : bool) (userId : string) (now : Z) (feed_env count_env : nat → attempt_env)
    (cl : Client * Client) : (Client * Client) * Z * option composedFeed :=
  if fail then (cl, 500, None)
  else match ParseInt userId with
       | None => (cl, 400, None)
       | Some user =>
           let '(c1, r1, _) := Get cfg now feed_env cl.1 in
           let '(c2, r2, _) := Get cfg now count_env cl.2 in
           let '(status, f) := compose user (body_of r1) (body_of r2) in
           ((c1, c2), status, Some f)
       end.

(** ** chaos *)

(* [base] instascale-observability/internal/chaos *)

(** [ch_leaks] blocked goroutines, [ch_mem] retained MiB, [ch_held] connections held
out of a pool of [ch_pool], when one is attached. *)
(* [go] chaos.go:22-33 Registry *)
Record Registry : Type := mkRegistry {
  ch_slowDepMS : Z; ch_fail503 : bool; ch_leaks : Z; ch_mem : Z; ch_pool : option Z; ch_held : Z }.

(* [go] chaos.go:35-35 New *)
Definition NewRegistry (pool : option Z) : Registry := mkRegistry 0 false 0 0 pool 0.

(* [go] chaos.go:46-48 Registry.SlowDepDelay *)
Definition SlowDepDelay (r : Registry) : Z := i64 (ch_slowDepMS r * 10 ^ 6).

(* [go] handler.go:47-54 qInt *)
Definition qInt (text : string) (def : Z) : Z :=
  if String.eqb text "" then def else match ParseInt text with Some n => n | None => def end.

(** The injectors; loops up to a count that is not positive do nothing, and holding
stops when the pool is drained. *)
(* [go] handler.go:19-38 Registry.trigger *)
Definition trigger (mode n mb ms : string) (r : Registry) : Registry * Z :=
  if String.eqb mode "goroutine-leak" then
    (mkRegistry (ch_slowDepMS r) (ch_fail503 r) (ch_leaks r + Z.max 0 (qInt n 1000)) (ch_mem r) (ch_pool r) (ch_held r), 202)
  else if String.eqb mode "mem-pressure" then
    (mkRegistry (ch_slowDepMS r) (ch_fail503 r) (ch_leaks r) (ch_mem r + Z.max 0 (qInt mb 256)) (ch_pool r) (ch_held r), 202)
  else if String.eqb mode "slow-dep" then
    (mkRegistry (qInt ms 800) (ch_fail503 r) (ch_leaks r) (ch_mem r) (ch_pool r) (ch_held r), 202)
  else if String.eqb mode "retry-storm" then
    (mkRegistry (ch_slowDepMS r) true (ch_leaks r) (ch_mem r) (ch_pool r) (ch_held r), 202)
  else if String.eqb mode "db-pool-exhaust" then
    (match ch_pool r with
     | Some size => mkRegistry (ch_slowDepMS r) (ch_fail503 r) (ch_leaks r) (ch_mem r) (ch_pool r)
                      (Z.min size (ch_held r + Z.max 0 (qInt n 20)))
     | None => r
     end, 202)
  else (r, 404).

(* [go] chaos.go:105-120 Registry.Reset *)
Definition Reset (r : Registry) : Registry :=
  mkRegistry 0 false 0 0 (ch_pool r) (match ch_pool r with Some _ => 0 | None => ch_held r end).

(** ** Main results *)

(** A downstream that is down is not stormed: whatever the retries, the calls that
reach it between [t1] and [t2] through one client, made one after another, are at
most the breaker's threshold for each period it stays open, and one threshold
more; and a single [Get] makes at most one call and its retries, none at all while
the breaker is open. *)
Theorem Storm_bounded (cfg : ClientConfig) (t1 t2 : Z) (os : list outage_call) (c : Client) :
  1 ≤ cc_FailThreshold cfg → 0 < cc_OpenFor cfg → client_ok cfg t1 c →
  outage t1 os t2 (Z.to_nat (cc_MaxRetries cfg + 1)) → t1 ≤ t2 →
  outage_calls cfg os c ≤ cc_FailThreshold cfg * ((t2 - t1) / cc_OpenFor cfg + 1) ∧
  ∀ now env c, let '(c', r, n) := Get cfg now env c in
    0 ≤ n ≤ Z.max 0 (cc_MaxRetries cfg + 1) ∧ (breakerOpen now c = true → n = 0 ∧ c' = c ∧ r = GBreakerOpen).
Proof.
  intros Hthr Hopen Hok Ho Hle. split.
  - pose proof (outage_calls_pot cfg t2 t1 os c Hthr Hopen Hok Ho Hle) as H. unfold call_pot in H.
    assert (0 ≤ (t2 - t1) / cc_OpenFor cfg) by (apply Z.div_pos; lia).
    destruct Hok as [? ?]. destruct (t1 <? cl_openedUntil c) eqn:E; zbool; [|nia].
    destruct (t2 <? cl_openedUntil c); [nia|].
    assert ((t2 - cl_openedUntil c) / cc_OpenFor cfg ≤ (t2 - t1) / cc_OpenFor cfg) by (apply Z.div_le_mono; lia). nia.
  - intros now env c0. unfold Get. destruct (breakerOpen now c0); [split; [lia|done]|].
    pose proof (get_loop_calls cfg (Z.to_nat (cc_MaxRetries cfg + 1)) 0 env c0) as Hn.
    destruct (get_loop _ _ _ _ _) as [[c' r] n]. simpl in Hn. split; [lia|done].
Qed.

Lemma counter_run_ok now ops s :
  counter_ok now s → counter_time now ops → ∃ now', now ≤ now' ∧ counter_ok now' (foldl counter_exec s ops) ∧
    ∀ t, counter_time now (ops ++ [OCounts t 0]) → now' ≤ t.
Proof.
  revert now s. induction ops as [|o ops IH]; intros now s Hok Ht.
  { exists now. split_and!; [lia|done|]. intros t. simpl. lia. }
  assert (∃ t1, now ≤ t1 ∧ counter_time t1 ops ∧ counter_ok t1 (counter_exec s o) ∧
    ∀ t, counter_time now ((o :: ops) ++ [OCounts t 0]) → counter_time t1 (ops ++ [OCounts t 0])) as (t1 & Hle & Ht1 & Hok1 & Hlast).
  { destruct o as [t1 u|t1 u]; simpl in *; destruct Ht as [Hle Ht]; exists t1; split_and!; try done; try naive_solver.
    - apply Counts_exact_step. by eapply counter_ok_later.
    - apply Like_exact_step. by eapply counter_ok_later. }
  destruct (IH _ _ Hok1 Ht1) as (now' & ? & ? & Hl). exists now'. split_and!; [lia|done|]. intros t Hc. apply Hl. by apply Hlast.
Qed.

Lemma counter_rows ops s user :
  default (0, 0) (cs_rows (foldl counter_exec s ops) !! user) =
  ((default (0, 0) (cs_rows s !! user)).1 + zsum (like_of user) ops, (default (0, 0) (cs_rows s !! user)).2).
Proof.
  revert s. induction ops as [|o ops IH]; intros s; [simpl; destruct (default _ _); simpl; f_equal; lia|].
  cbn [foldl]. rewrite IH. change (zsum (like_of user) (o :: ops)) with (like_of user o + zsum (like_of user) ops).
  assert (default (0, 0) (cs_rows (counter_exec s o) !! user) =
    ((default (0, 0) (cs_rows s !! user)).1 + like_of user o, (default (0, 0) (cs_rows s !! user)).2)) as ->; [|simpl; f_equal; lia].
  destruct o as [t u|t u]; simpl.
  - unfold Counts. simpl. destruct (live t (cs_likes s !! u)), (live t (cs_followers s !! u)); simpl; try (destruct (cs_rows s !! u) as [[? ?]|]; simpl);
      destruct (default (0, 0) (cs_rows s !! user)); simpl; f_equal; lia.
  - rewrite lookup_insert. destruct (Z.eqb_spec u user) as [->|Hne].
    + rewrite decide_True by done. simpl. by destruct (cs_rows s !! user) as [[? ?]|].
    + rewrite decide_False by done. destruct (default (0, 0) (cs_rows s !! user)); simpl; f_equal; lia.
Qed.

(** The cache hides nothing: with Redis and Postgres up and the two keys set at one
instant, a read at any time gives the stored followers and the stored likes with
every like since, whether it is served from the cache or not. *)
Theorem Counts_exact (s : CounterStore) (now t : Z) (ops : list counter_op) (user : Z) :
  counter_ok now s → counter_time now (ops ++ [OCounts t 0]) →
  (Counts (up_at t) user (foldl counter_exec s ops)).2 =
    Some ((default (0, 0) (cs_rows s !! user)).1 + zsum (like_of user) ops, (default (0, 0) (cs_rows s !! user)).2).
Proof.
  intros Hok Ht. assert (counter_time now ops) as Ht'.
  { clear -Ht. revert now Ht. induction ops as [|[t1 u|t1 u] ops IH]; intros now; simpl; [done|..]; intros [? ?]; split; auto. }
  destruct (counter_run_ok now ops s Hok Ht') as (now' & _ & Hok' & Hl).
  rewrite <- counter_rows. apply Counts_exact_step. eapply counter_ok_later; [|done]. by apply Hl.
Qed.

(** A feed that is not cached is the newest posts of those the viewer follows: at
most [limit], newest first, and a followed post is left out only when [limit] posts
as new are in. *)
Theorem Feed_newest (now viewer limit : Z) (s : FeedStore) :
  0 ≤ limit → fs_cache s !! viewer = None →
  ∃ ps, (Feed now true true viewer limit s).2 = Some (ps, false) ∧
    Z.of_nat (length ps) ≤ limit ∧ StronglySorted newer ps ∧
    (∀ p, p ∈ ps → p ∈ fs_posts s ∧ (viewer, po_AuthorID p) ∈ fs_edges s) ∧
    (∀ p, p ∈ fs_posts s → (viewer, po_AuthorID p) ∈ fs_edges s → p ∉ ps →
       Z.of_nat (length ps) = limit ∧ ∀ q, q ∈ ps → newer q p).
Proof.
  intros Hlim Hc. unfold Feed. rewrite Hc. simpl. exists (feed_query viewer limit s). split; [done|]. unfold feed_query.
  set (all := filter _ (fs_posts s)). set (sorted := merge_sort newer all).
  assert (StronglySorted newer sorted) as Hs by (apply Sorted_StronglySorted; [apply _|apply Sorted_merge_sort, _]).
  assert (∀ p, p ∈ sorted ↔ p ∈ fs_posts s ∧ (viewer, po_AuthorID p) ∈ fs_edges s) as Hin.
  { intros p. unfold sorted. rewrite (merge_sort_Permutation newer all). unfold all. rewrite list_elem_of_filter. naive_solver. }
  rewrite <- (take_drop (Z.to_nat limit) sorted) in Hs. apply StronglySorted_app in Hs as (Hcross & Hs1 & _).
  split_and!; [rewrite length_take; lia|done| |].
  - intros p Hp. apply Hin. rewrite <- (take_drop (Z.to_nat limit) sorted). apply elem_of_app. by left.
  - intros p Hp He Hnot. assert (p ∈ drop (Z.to_nat limit) sorted) as Hd.
    { assert (p ∈ sorted) as Hps by by apply Hin. rewrite <- (take_drop (Z.to_nat limit) sorted) in Hps.
      by apply elem_of_app in Hps as [?|?]. }
    split; [|intros q Hq; by apply Hcross].
    assert (0 < length (drop (Z.to_nat limit) sorted))%nat as Hl by (destruct (drop _ _); [by apply elem_of_nil in Hd|simpl; lia]).
    rewrite length_drop in Hl. rewrite length_take. lia.
Qed.

(** The composed feed degrades and does not fail: it is 503 exactly when neither
downstream answered, and otherwise carries what did answer and names what did
not. *)
Theorem Edge_degrades (cfg : ClientConfig) (userId : string) (now : Z) (feed_env count_env : nat → attempt_env)
    (cl : Client * Client) (user : Z) :
  ParseInt userId = Some user →
  ∃ cl' status f, edge_GetFeed cfg false userId now feed_env count_env cl = (cl', status, Some f) ∧
    cf_ViewerID f = user ∧
    cf_Feed f = body_of (Get cfg now feed_env cl.1).1.2 ∧ cf_Counts f = body_of (Get cfg now count_env cl.2).1.2 ∧
    (status = 503 ↔ cf_Feed f = None ∧ cf_Counts f = None) ∧ (status = 200 ∨ status = 503) ∧
    ("feed" ∈ cf_Degraded f ↔ cf_Feed f = None) ∧ ("counts" ∈ cf_Degraded f ↔ cf_Counts f = None).
Proof.
  intros Hu. unfold edge_GetFeed. rewrite Hu.
  destruct (Get cfg now feed_env cl.1) as [[c1 r1] n1], (Get cfg now count_env cl.2) as [[c2 r2] n2]. simpl.
  unfold compose. destruct (body_of r1), (body_of r2); simpl; eexists _, _, _; (split; [done|]); simpl; set_solver.
Qed.

(** Every injector is reversible: after any triggers a reset gives the idle registry,
under which requests are neither delayed nor failed, and no more connections than
the pool has are ever held. *)
Theorem Chaos_reversible (pool : option Z) (ts : list (string * string * string * string)) :
  match pool with Some n => 0 ≤ n | None => True end →
  let r := foldl (fun r t => (trigger t.1.1.1 t.1.1.2 t.1.2 t.2 r).1) (NewRegistry pool) ts in
  Reset r = NewRegistry pool ∧ SlowDepDelay (Reset r) = 0 ∧ ch_fail503 (Reset r) = false ∧
  0 ≤ ch_held r ≤ default 0 pool ∧ 0 ≤ ch_leaks r ∧ 0 ≤ ch_mem r.
Proof.
  intros Hpool r. assert (ch_pool r = pool ∧ 0 ≤ ch_held r ≤ default 0 pool ∧ 0 ≤ ch_leaks r ∧ 0 ≤ ch_mem r) as (Hp & Hh & Hl & Hm).
  { unfold r. assert (ch_pool (NewRegistry pool) = pool ∧ 0 ≤ ch_held (NewRegistry pool) ≤ default 0 pool ∧
      0 ≤ ch_leaks (NewRegistry pool) ∧ 0 ≤ ch_mem (NewRegistry pool)) as H0 by (destruct pool; simpl in *; split_and!; done || lia).
    revert H0. generalize (NewRegistry pool). induction ts as [|t ts IH]; intros r0 (H1 & H2 & H3 & H4); [done|].
    cbn [foldl]. apply IH. unfold trigger. repeat case_test; simpl; try (split_and!; try done; lia).
    rewrite H1. destruct pool; simpl in *; split_and!; try done; lia. }
  unfold Reset. rewrite Hp. split_and!; try done; try lia.
  destruct pool; [done|]. simpl in Hh. unfold NewRegistry. f_equal. lia.
Qed.

(** ** Instances *)

Definition cfg0 : ClientConfig := mkCC 2 3 (5 * second).
Definition failing (t : Z) (i : nat) : attempt_env := mkAttempt false (Some (503, "")) (t + Z.of_nat i) (t + Z.of_nat i).

Lemma failing_outage t upto : (t + 20 ≤ upto) → oc_now (mkOutage t (fun i => failing t (Nat.min i 9))) ≤ upto ∧
  in_outage (mkOutage t (fun i => failing t (Nat.min i 9))) upto.
Proof. intros Hle. split; [simpl; lia|]. split; [simpl; lia|]. intros i. simpl. split_and!; [done|lia..]. Qed.

Lemma Storm_bounded_witness :
  outage_calls cfg0 [mkOutage 0 (fun i => failing 0 (Nat.min i 9)); mkOutage 10 (fun i => failing 10 (Nat.min i 9))] (NewClient (-1)) ≤ 3 ∧
  outage_calls cfg0 [mkOutage 0 (fun i => failing 0 (Nat.min i 9)); mkOutage 10 (fun i => failing 10 (Nat.min i 9))] (NewClient (-1)) = 3.
Proof.
  split; [|by vm_compute].
  apply (Storm_bounded cfg0 0 100 [mkOutage 0 (fun i => failing 0 (Nat.min i 9)); mkOutage 10 (fun i => failing 10 (Nat.min i 9))] (NewClient (-1)));
    [simpl; lia|simpl; unfold second; lia|split; simpl; lia| |lia].
  simpl. split_and!; try lia; apply (failing_outage _ 100); lia.
Defined.

Definition store0 : CounterStore := mkCounter ∅ ∅ {[7 := (100, 5)]}.

Lemma store0_ok : counter_ok 0 store0.
Proof. split. intros u f. simpl. by rewrite lookup_empty. Qed.

Lemma Counts_exact_witness :
  (Counts (up_at 9) 7 (foldl counter_exec store0 [OLike 1 7; OCounts 2 7; OLike 3 7])).2 = Some (102, 5).
Proof. apply (Counts_exact store0 0 9 [OLike 1 7; OCounts 2 7; OLike 3 7] 7); [apply store0_ok|simpl; lia]. Defined.

(** A like on an expired key answers with 1, whatever the user's likes. *)
Theorem Like_cold_answers_one :
  (Like 0 true true 7 store0).2 = Some 1 ∧ cs_rows (Like 0 true true 7 store0).1 !! 7 = Some (101, 5).
Proof. by vm_compute. Qed.

(** The likes key is set first and expires first: a like between the two expiries
leaves a counter of 1, which reads then serve from the cache. *)
Theorem Counts_between_expiries :
  let s := (Counts (mkCE 0 0 1000 true true) 7 store0).1 in
  let s := (Like (60 * second) true true 7 s).1 in
  (Counts (up_at (60 * second + 500)) 7 s).2 = Some (1, 5).
Proof. by vm_compute. Qed.

Definition fs0 : FeedStore := mkFeedStore [mkPost 1 2 "a" 10; mkPost 2 2 "b" 20; mkPost 3 4 "c" 30] {[(1, 2)]} ∅.

Lemma Feed_newest_witness :
  (Feed 0 true true 1 1 fs0).2 = Some ([mkPost 2 2 "b" 20], false) ∧
  ∃ ps, (Feed 0 true true 1 1 fs0).2 = Some (ps, false) ∧ Z.of_nat (length ps) ≤ 1.
Proof.
  split; [by vm_compute|]. destruct (Feed_newest 0 1 1 fs0) as (ps & H1 & H2 & _); [lia|by vm_compute|]. by exists ps.
Defined.

(** The cached feed ignores the limit: after a request for one post a request for
twenty gets one, and the other way round a request for one gets all. *)
Theorem Feed_limit_ignored :
  (Feed 1 true true 1 20 (Feed 0 true true 1 1 fs0).1).2 = Some ([mkPost 2 2 "b" 20], true) ∧
  (Feed 1 true true 1 1 (Feed 0 true true 1 20 fs0).1).2 = Some ([mkPost 2 2 "b" 20; mkPost 1 2 "a" 10], true).
Proof. by vm_compute. Qed.
