(* ===== verification/InstascaleOps.v ===== *)
(** * instascale-observability: metrics around handlers, pool, and the processes

[internal/obs]: reading the environment, the log level, the middleware around the
handlers with its counters, under any interleaving of requests; the connection
pool of the counter service that the laboratory drains, with the readiness probe;
[services/*/cmd]: what the three processes are made of.  Spans, exemplars and the
Prometheus registry are the libraries'; a trace id is the string the middleware
reads from its context. *)

From Stdlib Require Import ZArith Lia Ascii.
From stdpp Require Import base gmap strings list relations fin_maps.
From S2P Require Import Prelude GoStrings Instascale.

Open Scope string_scope.
Open Scope list_scope.
Open Scope Z_scope.

(* [base] instascale-observability/internal/obs *)

(** ** The environment *)

Section environment.
Context (getenv : string → string).

(* [go] config.go:10-15 Env *)
Definition Env (key def : string) : string := if negb (String.eqb (getenv key) "") then getenv key else def.

(* [go] config.go:18-25 EnvInt *)
Definition EnvInt (key : string) (def : Z) : Z :=
  if negb (String.eqb (getenv key) "") then default def (ParseInt (getenv key)) else def.

(* [go] config.go:28-38 EnvBool *)
Definition EnvBool (key : string) (def : bool) : bool :=
  let v := getenv key in
  if existsb (String.eqb v) ["1"; "true"; "TRUE"; "True"; "yes"] then true
  else if existsb (String.eqb v) ["0"; "false"; "FALSE"; "False"; "no"] then false
  else def.

(* [go] config.go:41-43 EnvMS *)
Definition EnvMS (key : string) (defMS : Z) : Z := i64 (EnvInt key defMS * 10 ^ 6).
End environment.

Inductive level : Type := LevelDebug | LevelInfo | LevelWarn | LevelError.

(** [strings.ToLower] on ASCII letters; the other letters whose lower case is ASCII
give i and k, which are in no level. *)
Definition lower_ascii (c : ascii) : ascii :=
  let n := nat_of_ascii c in if Nat.leb 65 n && Nat.leb n 90 then ascii_of_nat (n + 32) else c.

Fixpoint ToLower (s : string) : string :=
  match s with EmptyString => EmptyString | String c s' => String (lower_ascii c) (ToLower s') end.

(* [go] logging.go:16-30 NewLogger *)
Definition NewLogger (text : string) : level :=
  let l := ToLower text in
  if String.eqb l "debug" then LevelDebug
  else if String.eqb l "warn" then LevelWarn
  else if String.eqb l "error" then LevelError
  else LevelInfo.

(** The attributes on every line of a request. *)
(* [go] logging.go:34-40 NewRequestLogger *)
Definition NewRequestLogger (service route method traceID : string) : list (string * string) :=
  [("service", service); ("route", route); ("method", method)] ++
  (if negb (String.eqb traceID "") then [("trace_id", traceID)] else []).

(* [go] logging.go:50-55 LoggerFromContext *)
Definition LoggerFromContext {L} (ctx : option L) (def : L) : L := default def ctx.

(** ** The middleware *)

(** The recorder keeps the last status; without one it is 200. *)
(* [go] middleware.go:15-23 statusRecorder.WriteHeader *)
Definition recorder_code (codes : list Z) : Z := foldl (fun _ c => c) 200 codes.

(** A latency sample, with the trace id when there is one. *)
Record sample : Type := mkSample { sm_elapsed : Z; sm_exemplar : option string }.

Record line : Type := mkLine { ln_attrs : list (string * string); ln_code : Z; ln_elapsed : Z; ln_path : string }.

(** The counters and gauges of the registry are float64, exact for counts below 2^53;
they are integers here. *)
(* [go] metrics.go:14-26 Metrics *)
Record Metrics : Type := mkMetrics {
  me_requests : gmap (string * string * Z) Z; me_duration : gmap (string * string) (list sample);
  me_inflight : gmap string Z; me_log : list line }.

(* [go] metrics.go:30-70 NewMetrics *)
Definition NewMetrics : Metrics := mkMetrics ∅ ∅ ∅ [].

(** A request on its way: its route, method, path and trace id. *)
Record request : Type := mkReq { rq_route : string; rq_method : string; rq_path : string; rq_trace : string }.

(** Up to the call of the handler. *)
(* [go] middleware.go:31-45 Metrics.Middleware *)
Definition request_begin (r : request) (m : Metrics) : Metrics :=
  mkMetrics (me_requests m) (me_duration m) (<[rq_route r := zget (me_inflight m) (rq_route r) + 1]> (me_inflight m)) (me_log m).

(** The deferred decrement. *)
(* [go] middleware.go:42-42 Metrics.Middleware *)
Definition request_leave (r : request) (m : Metrics) : Metrics :=
  mkMetrics (me_requests m) (me_duration m) (<[rq_route r := zget (me_inflight m) (rq_route r) - 1]> (me_inflight m)) (me_log m).

(** The rest, when the handler returns. *)
(* [go] middleware.go:46-65 Metrics.Middleware *)
Definition request_observe (service : string) (r : request) (codes : list Z) (elapsed : Z) (m : Metrics) : Metrics :=
  let code := recorder_code codes in
  let k := (rq_route r, rq_method r, code) in
  let dk := (rq_route r, rq_method r) in
  let ex := if negb (String.eqb (rq_trace r) "") then Some (rq_trace r) else None in
  mkMetrics (<[k := zget (me_requests m) k + 1]> (me_requests m))
    (<[dk := default [] (me_duration m !! dk) ++ [mkSample elapsed ex]]> (me_duration m)) (me_inflight m)
    (me_log m ++ [mkLine (NewRequestLogger service (rq_route r) (rq_method r) (rq_trace r)) code elapsed (rq_path r)]).

(** What happened to the requests that are over. *)
Record finished : Type := mkFin { fi_req : request; fi_code : Z; fi_elapsed : Z }.

(** Requests inside their handlers, requests whose handler is over and whose deferred
calls are not, and those that are over. *)
Record msys : Type := mkMsys {
  ms_metrics : Metrics; ms_running : list request; ms_leaving : list request; ms_done : list finished; ms_panics : list request }.

(** Requests of the service on all connections: each begins, its handler returns or
panics at any time later, and its deferred calls run after that. *)
Inductive mstep (service : string) : msys → msys → Prop :=
| MS_begin r s :
    mstep service s (mkMsys (request_begin r (ms_metrics s)) (r :: ms_running s) (ms_leaving s) (ms_done s) (ms_panics s))
| MS_return l1 r l2 codes elapsed s : ms_running s = l1 ++ r :: l2 →
    mstep service s (mkMsys (request_observe service r codes elapsed (ms_metrics s)) (l1 ++ l2) (r :: ms_leaving s)
      (ms_done s ++ [mkFin r (recorder_code codes) elapsed]) (ms_panics s))
| MS_panic l1 r l2 s : ms_running s = l1 ++ r :: l2 →
    mstep service s (mkMsys (ms_metrics s) (l1 ++ l2) (r :: ms_leaving s) (ms_done s) (r :: ms_panics s))
| MS_leave l1 r l2 s : ms_leaving s = l1 ++ r :: l2 →
    mstep service s (mkMsys (request_leave r (ms_metrics s)) (ms_running s) (l1 ++ l2) (ms_done s) (ms_panics s)).

Definition ms_init : msys := mkMsys NewMetrics [] [] [] [].

(** ** The connection pool under the laboratory *)

(* [base] instascale-observability/services/counter-service *)

(** Connections held by the laboratory and used by requests, out of the maximum. *)
Record pool : Type := mkPool { po_max : Z; po_held : Z; po_used : Z }.

(** [Acquire] within its short deadline: a free connection, or none. *)
Definition acquirable (p : pool) : bool := po_held p + po_used p <? po_max p.

(** [n] rounds. *)
(* [go] internal/store.go:76-90 Store.HoldConns *)
Fixpoint HoldConns (n : nat) (p : pool) : pool :=
  match n with
  | O => p
  | S n => if acquirable p then HoldConns n (mkPool (po_max p) (po_held p + 1) (po_used p)) else p
  end.

(* [go] internal/store.go:93-100 Store.ReleaseConns *)
Definition ReleaseConns (p : pool) : pool := mkPool (po_max p) 0 (po_used p).

(** The probe pings Postgres over a connection of the pool, then Redis. *)
(* [go] cmd/main.go:116-130 readyz *)
Definition readyz (p : pool) (pg redis : bool) : Z :=
  if negb (acquirable p && pg) then 503 else if negb redis then 503 else 200.

(** The gauges of a tick: acquired, idle out of those [open], maximum, waits. *)
(* [go] cmd/main.go:97-112 pollPoolStats *)
Definition pollPoolStats (p : pool) (opened waits : Z) : list (string * Z) :=
  [("db_pool_acquired_conns", po_held p + po_used p); ("db_pool_idle_conns", opened - (po_held p + po_used p));
   ("db_pool_max_conns", po_max p); ("db_pool_wait_count", waits)].

(** ** The processes *)

Inductive mode : Type := Instrumented (route : string) | Plain.

(** Routes of the laboratory. *)
(* [base] instascale-observability/internal/chaos *)
(* [go] handler.go:11-17 Registry.Register *)
Definition chaos_routes (enabled : bool) : list (string * mode) :=
  if negb enabled then [] else [("POST /chaos/{mode}", Plain); ("DELETE /chaos/{mode}", Plain)].

Section processes.
Context (getenv : string → string).
Notation env := (Env getenv).

Definition chaos_enabled : bool := EnvBool getenv "CHAOS_ENABLED" false.

(* [base] instascale-observability/services *)
(* [go] counter-service/cmd/main.go:72-78 main *)
Definition counter_routes : list (string * mode) :=
  [("GET /counts/{userId}", Instrumented "/counts/{userId}"); ("POST /counts/{userId}/like", Instrumented "/counts/{userId}/like");
   ("GET /healthz", Plain); ("GET /readyz", Plain); ("GET /metrics", Plain)] ++ chaos_routes chaos_enabled.

(* [go] feed-service/cmd/main.go:64-69 main *)
Definition feed_routes : list (string * mode) :=
  [("GET /feed/{userId}", Instrumented "/feed/{userId}"); ("GET /healthz", Plain); ("GET /readyz", Plain); ("GET /metrics", Plain)]
  ++ chaos_routes chaos_enabled.

(* [go] edge-api/cmd/main.go:57-62 main *)
Definition edge_routes : list (string * mode) :=
  [("GET /feed/{userId}", Instrumented "/feed/{userId}"); ("GET /healthz", Plain); ("GET /readyz", Plain); ("GET /metrics", Plain)]
  ++ chaos_routes chaos_enabled.

(** [MaxConns] is converted to 32 bits. *)
(* [go] counter-service/cmd/main.go:50-50 main *)
Definition pool_max_conns : Z := i32 (EnvInt getenv "DB_POOL_MAX_CONNS" 10).

(** The registry of the counter service reaches its pool, those of the other
services reach none. *)
(* [go] counter-service/cmd/main.go:65-66 main *)
Definition counter_registry : Registry := NewRegistry (Some pool_max_conns).

(* [go] feed-service/cmd/main.go:58-60 main *)
Definition feed_registry : Registry := NewRegistry None.

(* [go] edge-api/cmd/main.go:43-48 main *)
Definition edge_config : ClientConfig :=
  mkCC (EnvInt getenv "DOWNSTREAM_MAX_RETRIES" 2) (EnvInt getenv "BREAKER_FAIL_THRESHOLD" 5) (EnvMS getenv "BREAKER_OPEN_MS" 5000).

(* [go] edge-api/cmd/main.go:49-55 main *)
Definition edge_urls : string * string :=
  (env "FEED_SERVICE_URL" "http://feed-service:8081", env "COUNTER_SERVICE_URL" "http://counter-service:8082").
End processes.

(** ** Lemmas *)

(** *** Counting requests *)

Definition on_route (route : string) (r : request) : Z := if String.eqb (rq_route r) route then 1 else 0.

Definition labelled (k : string * string * Z) (f : finished) : bool :=
  bool_decide ((rq_route (fi_req f), rq_method (fi_req f), fi_code f) = k).

Definition timed (k : string * string) (f : finished) : bool := bool_decide ((rq_route (fi_req f), rq_method (fi_req f)) = k).

Definition sample_of (f : finished) : sample :=
  mkSample (fi_elapsed f) (if negb (String.eqb (rq_trace (fi_req f)) "") then Some (rq_trace (fi_req f)) else None).

Definition line_of (service : string) (f : finished) : line :=
  mkLine (NewRequestLogger service (rq_route (fi_req f)) (rq_method (fi_req f)) (rq_trace (fi_req f)))
    (fi_code f) (fi_elapsed f) (rq_path (fi_req f)).

(** The metrics tell what happened. *)
Record metrics_ok (service : string) (s : msys) : Prop := {
  mo_inflight route : zget (me_inflight (ms_metrics s)) route =
    zsum (on_route route) (ms_running s) + zsum (on_route route) (ms_leaving s);
  mo_requests k : zget (me_requests (ms_metrics s)) k = Z.of_nat (length (filter (fun f => labelled k f = true) (ms_done s)));
  mo_duration k : default [] (me_duration (ms_metrics s) !! k) = sample_of <$> filter (fun f => timed k f = true) (ms_done s);
  mo_log : me_log (ms_metrics s) = line_of service <$> ms_done s }.

Lemma on_route_eq route r : on_route route r = if decide (rq_route r = route) then 1 else 0.
Proof. unfold on_route. destruct (String.eqb_spec (rq_route r) route); by case_decide. Qed.

Lemma labelled_eq k r code elapsed :
  labelled k (mkFin r code elapsed) = if decide ((rq_route r, rq_method r, code) = k) then true else false.
Proof. unfold labelled. simpl. by repeat case_decide. Qed.

Lemma timed_eq k r code elapsed : timed k (mkFin r code elapsed) = if decide ((rq_route r, rq_method r) = k) then true else false.
Proof. unfold timed. simpl. by repeat case_decide. Qed.

Lemma metrics_ok_step service s s' : metrics_ok service s → mstep service s s' → metrics_ok service s'.
Proof.
  intros [H1 H2 H3 H4] Hs. destruct Hs as [r s|l1 r l2 codes elapsed s Hr|l1 r l2 s Hr|l1 r l2 s Hr]; constructor; simpl; try done.
  - intros route. rewrite zget_insert, !H1. change (zsum _ (r :: ?l)) with (on_route route r + zsum (on_route route) l).
    rewrite (on_route_eq route r). destruct (decide (rq_route r = route)) as [->|]; lia.
  - intros route. rewrite H1, Hr, !zsum_app. simpl. lia.
  - intros k. rewrite zget_insert, !H2, filter_app, length_app, filter_cons, labelled_eq. simpl.
    destruct (decide (_ = k)) as [<-|]; [rewrite decide_True by done|]; simpl; lia.
  - intros k. rewrite lookup_insert, filter_app, fmap_app, filter_cons, timed_eq. simpl.
    destruct (decide (_ = k)) as [<-|]; [rewrite decide_True by done; simpl; by rewrite H3|]. simpl. by rewrite app_nil_r, H3.
  - by rewrite H4, fmap_app.
  - intros route. rewrite H1, Hr, !zsum_app. simpl. lia.
  - intros route. rewrite zget_insert, !H1, Hr, !zsum_app. simpl.
    rewrite !(on_route_eq _ r). destruct (decide (rq_route r = route)) as [->|]; [rewrite decide_True by done|]; lia.
Qed.

(** *** The pool *)

Lemma HoldConns_held n p : 0 ≤ po_held p → po_held p + po_used p ≤ po_max p →
  HoldConns n p = mkPool (po_max p) (Z.min (po_max p - po_used p) (po_held p + Z.of_nat n)) (po_used p).
Proof.
  revert p. induction n as [|n IH]; intros p H0 Hle.
  - destruct p as [m h u]. simpl in *. f_equal. lia.
  - cbn [HoldConns]. unfold acquirable. destruct (po_held p + po_used p <? po_max p) eqn:E; zbool.
    + rewrite IH by (simpl; lia). simpl. f_equal. lia.
    + destruct p as [m h u]. simpl in *. f_equal. lia.
Qed.

(** ** Properties *)

(** The metrics are exact whatever requests overlap: the in-flight gauge of a
route counts the requests on it whose deferred calls have not run, panicked ones
included; the request counter of a label counts the requests that returned with
that status; and every request that returned, and no other, has one latency
sample, with its trace id if it has one, and one log line. *)
Theorem Red_metrics_exact (service : string) (s : msys) :
  rtc (mstep service) ms_init s →
  (∀ route, zget (me_inflight (ms_metrics s)) route =
     zsum (on_route route) (ms_running s) + zsum (on_route route) (ms_leaving s)) ∧
  (∀ k, zget (me_requests (ms_metrics s)) k = Z.of_nat (length (filter (fun f => labelled k f = true) (ms_done s)))) ∧
  (∀ k, default [] (me_duration (ms_metrics s) !! k) = sample_of <$> filter (fun f => timed k f = true) (ms_done s)) ∧
  me_log (ms_metrics s) = line_of service <$> ms_done s.
Proof.
  intros Hr. assert (metrics_ok service s) as [H1 H2 H3 H4]; [|done].
  apply (rtc_invariant _ _ _ _ (metrics_ok_step service) Hr). constructor; try done; intros; simpl; by rewrite zget_empty.
Qed.

Definition rq1 : request := mkReq "/counts/{userId}" "GET" "/counts/7" "t1".
Definition rq2 : request := mkReq "/counts/{userId}" "GET" "/counts/8" "".

(** One request has returned 500, another panicked and is still counted. *)
Definition ms_demo : msys :=
  mkMsys (request_leave rq1 (request_observe "c" rq1 [500] 3 (request_begin rq2 (request_begin rq1 NewMetrics)))) [] [rq2]
    [mkFin rq1 500 3] [rq2].

Lemma ms_demo_reach : rtc (mstep "c") ms_init ms_demo.
Proof.
  eapply rtc_l; [apply (MS_begin "c" rq1)|]. eapply rtc_l; [apply (MS_begin "c" rq2)|].
  eapply rtc_l; [eapply (MS_return "c" [rq2] rq1 [] [500] 3); reflexivity|].
  eapply rtc_l; [eapply (MS_panic "c" [] rq2 []); reflexivity|].
  eapply rtc_l; [eapply (MS_leave "c" [rq2] rq1 []); reflexivity|]. apply rtc_refl.
Qed.

Lemma Red_metrics_exact_witness :
  zget (me_inflight (ms_metrics ms_demo)) "/counts/{userId}" = 1 ∧
  me_log (ms_metrics ms_demo) = line_of "c" <$> ms_done ms_demo.
Proof. destruct (Red_metrics_exact "c" ms_demo ms_demo_reach) as (H1 & _ & _ & H4). split; [exact (H1 _)|exact H4]. Defined.

(** Draining the pool shows and can be undone: when at least as many connections are
asked for as are free, the probe fails whatever the databases answer, requests
keep what they have, and releasing gives every held connection back; the
registry's own account of the held connections is right when no request holds
one. *)
Theorem exhaustion_shows (p : pool) (n : Z) (r : Registry) :
  0 ≤ po_held p → 0 ≤ po_used p → po_held p + po_used p ≤ po_max p → po_max p - po_used p - po_held p ≤ n →
  let p' := HoldConns (Z.to_nat n) p in
  (∀ pg redis, readyz p' pg redis = 503) ∧ po_used p' = po_used p ∧
  (po_used p < po_max p → readyz (ReleaseConns p') true true = 200) ∧
  (po_used p = 0 → ch_pool r = Some (po_max p) → ch_held r = po_held p → qInt (Itoa n) 20 = n →
     ch_held (trigger "db-pool-exhaust" (Itoa n) "" "" r).1 = po_held p').
Proof.
  intros H0 Hu Hle Hn. rewrite HoldConns_held by lia. simpl. unfold readyz, acquirable, ReleaseConns. simpl.
  split_and!; [|done| |].
  - intros pg redis. rewrite (proj2 (Z.ltb_ge _ _)) by lia. done.
  - intros. by rewrite (proj2 (Z.ltb_lt _ _)) by lia.
  - intros Hu0 Hp Hh Hq. unfold trigger. simpl. rewrite Hp. simpl. rewrite Hq, Hh. lia.
Qed.

Lemma exhaustion_shows_witness :
  let p' := HoldConns 20 (mkPool 10 0 3) in
  (∀ pg redis, readyz p' pg redis = 503) ∧ po_used p' = 3 ∧ readyz (ReleaseConns p') true true = 200.
Proof.
  destruct (exhaustion_shows (mkPool 10 0 3) 20 (NewRegistry None)) as (H1 & H2 & H3 & _); simpl; try lia.
  split_and!; [exact H1|exact H2|apply H3; simpl; lia].
Defined.

(** The edge with its default settings does not storm a downstream that is down:
five calls at most for every five seconds, and five more. *)
Theorem edge_storm_bounded (t1 t2 : Z) (os : list outage_call) (c : Client) :
  let cfg := edge_config (fun _ => "") in
  client_ok cfg t1 c → outage t1 os t2 3 → t1 ≤ t2 →
  outage_calls cfg os c ≤ 5 * ((t2 - t1) / (5 * second) + 1).
Proof.
  intros cfg Hok Ho Hle. assert (cfg = mkCC 2 5 (5 * second)) as Hc by (vm_compute; reflexivity).
  rewrite Hc in *. exact (proj1 (Storm_bounded (mkCC 2 5 (5 * second)) t1 t2 os c ltac:(simpl; lia) ltac:(simpl; unfold second; lia) Hok Ho Hle)).
Qed.

Lemma edge_storm_bounded_witness :
  outage_calls (edge_config (fun _ => "")) [] (NewClient 0) ≤ 5 * ((second - 0) / (5 * second) + 1).
Proof. apply (edge_storm_bounded 0 second [] (NewClient 0)); [split; vm_compute; [split|]; congruence|vm_compute; congruence|vm_compute; congruence]. Defined.

(** [EnvBool] is documented to ignore case: it does not, for most spellings. *)
Theorem EnvBool_case :
  EnvBool (fun _ => "YES") "CHAOS_ENABLED" false = false ∧ EnvBool (fun _ => "yes") "CHAOS_ENABLED" false = true ∧
  EnvBool (fun _ => "NO") "X" true = true ∧ EnvBool (fun _ => "tRUE") "X" false = false.
Proof. done. Qed.

(** The feed service answers 202 to the pool experiment and does nothing: its registry
has no pool. *)
Theorem exhaust_without_pool (n : string) :
  trigger "db-pool-exhaust" n "" "" feed_registry = (feed_registry, 202).
Proof. done. Qed.

(** Without the switch the laboratory has no routes, in any of the services. *)
Theorem chaos_off_no_routes (getenv : string → string) :
  chaos_enabled getenv = false →
  Forall (fun rs => ∀ p, p ∈ rs → p.1 ≠ "POST /chaos/{mode}" ∧ p.1 ≠ "DELETE /chaos/{mode}")
    [counter_routes getenv; feed_routes getenv; edge_routes getenv].
Proof.
  intros Hc. unfold counter_routes, feed_routes, edge_routes. rewrite Hc. simpl.
  repeat constructor; set_unfold in H; naive_solver.
Qed.

Lemma chaos_off_no_routes_witness :
  Forall (fun rs => ∀ p, p ∈ rs → p.1 ≠ "POST /chaos/{mode}" ∧ p.1 ≠ "DELETE /chaos/{mode}")
    [counter_routes (fun _ => ""); feed_routes (fun _ => ""); edge_routes (fun _ => "")].
Proof. apply chaos_off_no_routes. reflexivity. Defined.
