(* ===== verification/RailHttp.v ===== *)
(** * railcache: the middleware chains, the metrics endpoint, and the process

[internal/httpapi]: the chain of middlewares around the handlers of both
routers, over a response writer that remembers every call made on it and a
request whose context carries the request id; [internal/metrics]: snapshot,
gauges, the Prometheus text, and the lock-free float64 sum under any
interleaving of adders; [internal/cache/redis.go]: the client under the breaker;
[cmd/railcache]: how the parts are wired. *)

From Stdlib Require Import ZArith Lia Ascii SpecFloat.
From stdpp Require Import base gmap strings pretty list sorting fin_maps relations.
From S2P Require Import Prelude GoStrings GoTime GoFloat RailCache RailSearch RailApi.

Open Scope string_scope.
Open Scope list_scope.
Open Scope Z_scope.

(* [base] railcache/internal *)

(** ** The response writer *)

(** Calls on the server's writer: a header before the status is out, a status, a
body write. *)
Inductive wcall : Type := CHeader (name value : string) | CStatus (code : Z) | CBody.

(** What the client gets: the first status or body write fixes the status, and the
headers set before it are sent. *)
Fixpoint sent_status (l : list wcall) : option Z :=
  match l with
  | [] => None
  | CHeader _ _ :: l' => sent_status l'
  | CStatus code :: _ => Some code
  | CBody :: _ => Some 200
  end.

Definition client_status (l : list wcall) : Z := default 200 (sent_status l).

Fixpoint sent_headers (l : list wcall) : list (string * string) :=
  match l with
  | CHeader n v :: l' => (n, v) :: sent_headers l'
  | _ => []
  end.

(** [statusWriter]: the last code that went through its [WriteHeader]; a body write
is promoted to the wrapped writer and leaves it alone. *)
(* [go] httpapi/middleware.go:167-175 statusWriter.WriteHeader *)
Definition recorded_status (l : list wcall) : Z :=
  foldl (fun status c => match c with CStatus code => code | _ => status end) 200 l.

(** ** Requests, contexts and handlers *)

Record request : Type := mkReq {
  rq_method : string; rq_path : string; rq_idHeader : string; rq_remote : string; rq_hostport : option string;
  rq_ctxID : option string; rq_deadline : option Z }.

Definition with_id (id : string) (r : request) : request :=
  mkReq (rq_method r) (rq_path r) (rq_idHeader r) (rq_remote r) (rq_hostport r) (Some id) (rq_deadline r).

Definition with_deadline (t : Z) (r : request) : request :=
  mkReq (rq_method r) (rq_path r) (rq_idHeader r) (rq_remote r) (rq_hostport r) (rq_ctxID r)
    (Some (match rq_deadline r with Some t' => Z.min t t' | None => t end)).

Inductive logline : Type :=
| LRequest (method path : string) (status dur_ms : Z) (id : string)
| LPanic (path id : string).

(** What a request leaves behind: the calls on the writer, log lines, observed
latencies, and the limiter. *)
Record world (L : Type) : Type := mkWorld {
  wd_calls : list wcall; wd_log : list logline; wd_lat : list Z; wd_rl : L }.
Arguments mkWorld {L}.
Arguments wd_calls {L}.
Arguments wd_log {L}.
Arguments wd_lat {L}.
Arguments wd_rl {L}.

(** A handler runs from [start] and ends at the given time, or panics. *)
Inductive outcome : Type := Returned | Panics.

Definition handler (L : Type) : Type := request → Z → world L → world L * Z * outcome.

Definition call {L} (c : wcall) (w : world L) : world L := mkWorld (wd_calls w ++ [c]) (wd_log w) (wd_lat w) (wd_rl w).

(** [http.Error]: the status and a body. *)
Definition http_Error {L} (code : Z) (w : world L) : world L := call CBody (call (CStatus code) w).

(* [go] httpapi/middleware.go:159-165 RequestIDFrom *)
Definition RequestIDFrom (r : request) : string := default "" (rq_ctxID r).

(** ** The middlewares *)

(** [fresh] is the random id, [None] when the source of randomness fails. *)
(* [go] httpapi/middleware.go:184-190 newRequestID *)
Definition newRequestID (fresh : option string) : string := default "unknown" fresh.

(* [go] httpapi/middleware.go:104-114 requestID *)
Definition requestID {L} (fresh : option string) (next : handler L) : handler L := fun r t w =>
  let id := if String.eqb (rq_idHeader r) "" then newRequestID fresh else rq_idHeader r in
  next (with_id id r) t (call (CHeader "X-Request-Id" id) w).

(* [go] httpapi/middleware.go:116-125 timeout *)
Definition timeout {L} (d : Z) (next : handler L) : handler L := fun r t w => next (with_deadline (t + d) r) t w.

(* [go] httpapi/middleware.go:127-141 recoverer *)
Definition recoverer {L} (next : handler L) : handler L := fun r t w =>
  match next r t w with
  | (w', t', Returned) => (w', t', Returned)
  | (w', t', Panics) =>
      let w' := mkWorld (wd_calls w') (wd_log w' ++ [LPanic (rq_path r) (RequestIDFrom r)]) (wd_lat w') (wd_rl w') in
      (http_Error 500 w', t', Returned)
  end.

(** The wrapped writer sees the calls made while [next] runs. *)
(* [go] httpapi/middleware.go:143-157 requestLogger *)
Definition requestLogger {L} (next : handler L) : handler L := fun r start w =>
  match next r start w with
  | (w', t', Panics) => (w', t', Panics)
  | (w', t', Returned) =>
      let status := recorded_status (drop (length (wd_calls w)) (wd_calls w')) in
      (mkWorld (wd_calls w')
         (wd_log w' ++ [LRequest (rq_method r) (rq_path r) status (Z.quot (t' - start) Millisecond) (RequestIDFrom r)])
         (wd_lat w' ++ [t' - start]) (wd_rl w'), t', Returned)
  end.

(** [net.SplitHostPort] of the remote address. *)
(* [go] httpapi/middleware.go:177-182 clientIP *)
Definition clientIP (r : request) : string := match rq_hostport r with Some host => host | None => rq_remote r end.

Section limited.
Context `{TokenBucket}.

(* [go] httpapi/middleware.go:89-102 rateLimiter.Middleware *)
Definition rate_limited (next : handler rateLimiter) : handler rateLimiter := fun r t w =>
  match Middleware t (clientIP r) (wd_rl w) with
  | (Served, rl) => next r t (mkWorld (wd_calls w) (wd_log w) (wd_lat w) rl)
  | (_, rl) => (http_Error 429 (mkWorld (wd_calls w) (wd_log w) (wd_lat w) rl), t, Returned)
  end.

(* [go] httpapi/handlers.go:59-60 NewServer *)
Definition public_chain (fresh : option string) (requestTimeout : Z) (next : handler rateLimiter) : handler rateLimiter :=
  recoverer (requestID fresh (requestLogger (timeout requestTimeout (rate_limited next)))).
End limited.

(* [go] httpapi/handlers.go:67-68 NewServer *)
Definition internal_chain {L} (fresh : option string) (next : handler L) : handler L :=
  recoverer (requestID fresh (requestLogger next)).

(** ** Routes *)

(* [go] httpapi/handlers.go:61-65 NewServer *)
Definition public_routes : list (string * string) :=
  [("GET", "/"); ("GET", "/search"); ("GET", "/api/search"); ("GET", "/livez"); ("GET", "/readyz")].

(* [go] httpapi/handlers.go:69-86 NewServer *)
Definition internal_routes (c : RConfig) : list (string * string) :=
  [("GET", "/metrics"); ("GET", "/livez"); ("GET", "/readyz")]
  ++ (if negb (String.eqb (AdminToken c) "") then [("POST", "/admin/invalidate"); ("GET", "/debug/herd")] else [])
  ++ [("*", "/debug/pprof/"); ("*", "/debug/pprof/cmdline"); ("*", "/debug/pprof/profile"); ("*", "/debug/pprof/symbol");
      ("*", "/debug/pprof/trace")].

(* [go] httpapi/handlers.go:104-111 rawQuery *)
Definition rawQuery (get : string → string) : Query := mkQuery (get "from") (get "to") (get "date") (get "class").

(* [go] httpapi/handlers.go:269-272 hasQueryParams *)
Definition hasQueryParams (get : string → string) : bool :=
  negb (String.eqb (get "from") "") || negb (String.eqb (get "to") "") || negb (String.eqb (get "date") "")
  || negb (String.eqb (get "class") "").

(** The data of the page. *)
Record page : Type := mkPage {
  pg_Q : Query; pg_DidSearch : bool; pg_Error : option string; pg_Result : option SearchResult;
  pg_Cache : option CacheStatus; pg_DBTook : Z }.

(** [today2] is the date two days ahead, [err_text] renders a validation error;
the page and the query that was searched. *)
(* [go] httpapi/handlers.go:130-158 Server.handleHTML *)
Definition html_data {E} (v : Validator) (err_text : Query → string) (search : Query → result E Outcome) (today2 : string)
    (get : string → string) : page * option Query :=
  if negb (hasQueryParams get) then (mkPage (mkQuery "NDLS" "BCT" today2 "3A") false None None None 0, None)
  else
    match Validate v (rawQuery get) with
    | (q, Some _) => (mkPage q true (Some (err_text q)) None None 0, None)
    | (q, None) =>
        match search q with
        | Err _ => (mkPage q true (Some "search failed") None None 0, Some q)
        | Ok out => (mkPage q true None (Some (oc_Result out)) (Some (oc_Status out)) (oc_DBTook out), Some q)
        end
    end.

(** The page is rendered into a buffer first. *)
(* [go] httpapi/handlers.go:159-168 Server.handleHTML *)
Definition html_status (renders : bool) : Z := if negb renders then 500 else 200.

(* [go] httpapi/handlers.go:231-236 Server.handleLivez *)
Definition handleLivez : Z * string := (200, "alive").

(** ** metrics *)

(* [go] metrics/metrics.go:60-73 Snapshot *)
Record Snapshot : Type := mkSnap {
  sn_counters : Metrics; sn_Served : Z; sn_DBQueries : Z; sn_HitRatio : float64 }.

(** The counters as one read found them; [fills] and [refreshes] are the values of
the second read, for the derived number of queries. *)
(* [go] metrics/metrics.go:75-91 Metrics.Snapshot *)
Definition snapshot (m : Metrics) (fills refreshes : Z) : Snapshot :=
  let served := i64 (m_Hits m + m_Stale m + m_Misses m + m_HerdSuppressed m + m_Fallbacks m) in
  let cacheServed := i64 (m_Hits m + m_Stale m + m_HerdSuppressed m) in
  let ratio := if 0 <? served then float64_div (to_float64 cacheServed) (to_float64 served) else f0 in
  mkSnap m served (i64 (fills + refreshes + m_Fallbacks m)) ratio.

(** Gauges by name; a gauge is sampled when it is scraped. *)
Notation gauges := (gmap string float64).

(* [go] metrics/metrics.go:52-58 Metrics.RegisterGauge *)
Definition RegisterGauge (name : string) (value : float64) (g : gauges) : gauges := <[name := value]> g.

Definition name_le (a b : string) : Prop := str_lt b a = false.

#[global] Instance name_le_dec a b : Decision (name_le a b).
Proof. unfold name_le. apply _. Defined.

(* [go] metrics/metrics.go:150-159 Metrics.gaugeNamesSorted *)
Definition gaugeNamesSorted (g : gauges) : list string := merge_sort name_le (elements (dom g)).

(* [go] metrics/metrics.go:161-169 Metrics.gaugeValue *)
Definition gaugeValue (name : string) (g : gauges) : float64 := default f0 (g !! name).

(** A line of the text format: a name, an optional bound, and an integer or a
float64 with its verb. *)
Inductive number : Type := NInt (z : Z) | NFloat (verb : string) (f : float64).

Record prom_line : Type := mkLine { pl_name : string; pl_le : option (option Z); pl_value : number }.

(** [buckets] are the bounds in milliseconds with their counts, [sum] the sum. *)
(* [go] metrics/metrics.go:120-148 Metrics.writeProm *)
Definition writeProm (s : Snapshot) (buckets : list (Z * Z)) (count : Z) (sum : float64) (g : gauges) : list prom_line :=
  let m := sn_counters s in
  let counter n v := mkLine n None (NInt v) in
  [counter "railcache_hits_total" (m_Hits m); counter "railcache_stale_total" (m_Stale m);
   counter "railcache_misses_total" (m_Misses m); counter "railcache_herd_suppressed_total" (m_HerdSuppressed m);
   counter "railcache_fallbacks_total" (m_Fallbacks m); counter "railcache_db_fills_total" (m_DBFills m);
   counter "railcache_refreshes_total" (m_Refreshes m); counter "railcache_errors_total" (m_Errors m);
   counter "railcache_db_queries_total" (sn_DBQueries s);
   mkLine "railcache_hit_ratio" None (NFloat ".4f" (sn_HitRatio s))]
  ++ ((fun b => mkLine "railcache_request_latency_ms_bucket" (Some (Some b.1)) (NInt b.2)) <$> buckets)
  ++ [mkLine "railcache_request_latency_ms_bucket" (Some None) (NInt count);
      mkLine "railcache_request_latency_ms_sum" None (NFloat ".3f" sum);
      mkLine "railcache_request_latency_ms_count" None (NInt count)]
  ++ ((fun name => mkLine ("railcache_" +:+ name) None (NFloat "g" (gaugeValue name g))) <$> gaugeNamesSorted g).

(* [go] metrics/metrics.go:39-45 New *)
Definition latency_bounds : list Z := [1; 2; 5; 10; 20; 50; 100; 200; 500; 1000].

(** *** The lock-free sum *)

Definition fadd : float64 → float64 → float64 := SFadd 53 1024.

(** An adder between its load and its swap. *)
Inductive adder : Type := ALoad (v : float64) | ASwap (v old : float64) | ADone (v : float64).

(** The cell, the adders, and the values added so far in the order of their swaps. *)
Record fsys : Type := mkF { fs_cell : float64; fs_adders : list adder; fs_log : list float64 }.

(** Two float64 with the same bits; NaN has one representation here. *)
#[global] Instance float64_eq_dec : EqDecision float64.
Proof. unfold float64. solve_decision. Defined.

(* [go] metrics/metrics.go:217-225 atomicFloat.add *)
Inductive fstep : fsys → fsys → Prop :=
| F_call s v : fstep s (mkF (fs_cell s) (fs_adders s ++ [ALoad v]) (fs_log s))
| F_load s i v : fs_adders s !! i = Some (ALoad v) →
    fstep s (mkF (fs_cell s) (<[i := ASwap v (fs_cell s)]> (fs_adders s)) (fs_log s))
| F_swap s i v old : fs_adders s !! i = Some (ASwap v old) → fs_cell s = old →
    fstep s (mkF (fadd old v) (<[i := ADone v]> (fs_adders s)) (fs_log s ++ [v]))
| F_retry s i v old : fs_adders s !! i = Some (ASwap v old) → fs_cell s ≠ old →
    fstep s (mkF (fs_cell s) (<[i := ALoad v]> (fs_adders s)) (fs_log s)).

Definition fs_init : fsys := mkF f0 [] [].

Definition done_values (l : list adder) : list float64 :=
  omap (fun a => match a with ADone v => Some v | _ => None end) l.

(** ** The Redis client *)

(** The replies of a pipeline of GET and PTTL: the error of the execution, and the
replies of the two commands. *)
Inductive rerr : Type := RNil | RTransport.

(* [go] cache/redis.go:67-90 Client.GetWithTTL *)
Definition GetWithTTL (exec : option rerr) (get : result rerr string) (pttl : Z) : result cerr (string * Z) :=
  match exec with
  | Some RNil => Err ErrMiss
  | Some RTransport => Err ETransport
  | None =>
      match get with
      | Ok val => Ok (val, pttl)
      | Err RNil => Err ErrMiss
      | Err RTransport => Err ETransport
      end
  end.

(** The options of the client: dial, read and write timeouts, pool and idle
connections, retries. *)
(* [go] cache/redis.go:43-59 New *)
Definition redis_options : Z * Z * Z * Z * Z * Z := (Second, 300 * Millisecond, 300 * Millisecond, 100, 10, -1).

(** ** cmd/railcache *)

(* [base] railcache/cmd/railcache *)

(* [go] main.go:75-84 run *)
Definition run_gauges (acquired total stations : Z) (breakerOpen : bool) : gauges :=
  RegisterGauge "redis_breaker_open" (if breakerOpen then f1 else f0)
    (RegisterGauge "stations_known" (to_float64 stations)
      (RegisterGauge "db_pool_total_conns" (to_float64 total)
        (RegisterGauge "db_pool_acquired_conns" (to_float64 acquired) ∅))).

(** What the process does, in order. *)
Inductive action : Type :=
| AOpenDB | ACloseDB | AOpenRedis | ACloseRedis | AStartRefresh | ACancelRoot | AListen | AShutdownPublic | AShutdownInternal
| ADrain.

(** How the surroundings answer: the configuration and the database, the templates,
and what ends the service: a signal or a listener that failed. *)
Record surroundings : Type := mkSur { su_config : bool; su_db : bool; su_templates : bool; su_signal : bool }.

(** The actions of [run], the deferred calls last in reverse order; the flag tells
whether it returned without an error. *)
(* [go] main.go:33-129 run *)
Definition run (s : surroundings) : list action * bool :=
  if negb (su_config s) then ([], false)
  else if negb (su_db s) then ([ACancelRoot], false)
  else
    let defers := [ACloseRedis; ACloseDB; ACancelRoot] in
    let opened := [AOpenDB; AOpenRedis; AStartRefresh] in
    if negb (su_templates s) then (opened ++ defers, false)
    else if negb (su_signal s) then (opened ++ [AListen] ++ defers, false)
    else (opened ++ [AListen; ACancelRoot; AShutdownPublic; AShutdownInternal; ADrain] ++ defers, true).

(* [go] main.go:24-29 main *)
Definition exit_code (s : surroundings) : Z := if (run s).2 then 0 else 1.

(* [go] main.go:131-140 newHTTPServer *)
Definition server_timeouts : Z * Z * Z * Z := (5 * Second, 15 * Second, 15 * Second, 60 * Second).

(* [go] main.go:142-147 serve *)
Definition serve_reports (err : option bool) : bool :=
  match err with Some closed => negb closed | None => false end.

(** ** Lemmas *)

(** A handler that answers and does not touch the access log. *)
Definition well_behaved {L} (h : handler L) : Prop := ∀ r t w,
  let '(w', t', _) := h r t w in
  t ≤ t' ∧ (∃ ext, wd_calls w' = wd_calls w ++ ext) ∧ wd_log w' = wd_log w ∧ wd_lat w' = wd_lat w.

Lemma rate_limited_behaved `{TokenBucket} h : well_behaved h → well_behaved (rate_limited h).
Proof.
  intros Hh r t w. unfold rate_limited. destruct (Middleware t (clientIP r) (wd_rl w)) as [[] rl].
  - specialize (Hh r t (mkWorld (wd_calls w) (wd_log w) (wd_lat w) rl)). destruct (h _ _ _) as [[w' t'] o]. exact Hh.
  - split_and!; [lia| |done|done]. exists [CStatus 429; CBody]. simpl. by rewrite <- app_assoc.
  - split_and!; [lia| |done|done]. exists [CStatus 429; CBody]. simpl. by rewrite <- app_assoc.
Qed.

Lemma timeout_behaved {L} d (h : handler L) : well_behaved h → well_behaved (timeout d h).
Proof. intros Hh r t w. apply Hh. Qed.

Lemma sent_status_app l1 l2 : sent_status (l1 ++ l2) = match sent_status l1 with Some c => Some c | None => sent_status l2 end.
Proof. induction l1 as [|[] l1 IH]; simpl; auto. Qed.

(** The identifier of a request. *)
Definition effective_id (fresh : option string) (r : request) : string :=
  if String.eqb (rq_idHeader r) "" then newRequestID fresh else rq_idHeader r.

Lemma chain_accounts {L} fresh (h : handler L) r t w : well_behaved h → wd_calls w = [] → rq_ctxID r = None →
  let '(w', t', o) := recoverer (requestID fresh (requestLogger h)) r t w in
  let id := effective_id fresh r in
  o = Returned ∧ head (sent_headers (wd_calls w')) = Some ("X-Request-Id", id) ∧ t ≤ t' ∧
  ((∃ ext, wd_calls w' = CHeader "X-Request-Id" id :: ext ∧
      wd_log w' = wd_log w ++ [LRequest (rq_method r) (rq_path r) (recorded_status ext) (Z.quot (t' - t) Millisecond) id] ∧
      wd_lat w' = wd_lat w ++ [t' - t]) ∨
   (∃ ext, wd_calls w' = CHeader "X-Request-Id" id :: ext ++ [CStatus 500; CBody] ∧
      wd_log w' = wd_log w ++ [LPanic (rq_path r) ""] ∧ wd_lat w' = wd_lat w ∧
      (sent_status ext = None → client_status (wd_calls w') = 500))).
Proof.
  intros Hh Hc Hctx. unfold recoverer, requestID, requestLogger. fold (effective_id fresh r).
  set (id := effective_id fresh r). set (w1 := call (CHeader "X-Request-Id" id) w).
  specialize (Hh (with_id id r) t w1). destruct (h (with_id id r) t w1) as [[w2 t2] o].
  destruct Hh as (Ht & (ext & Hext) & Hlog & Hlat).
  assert (wd_calls w1 = [CHeader "X-Request-Id" id]) as Hw1 by (unfold w1, call; simpl; by rewrite Hc).
  assert (wd_log w1 = wd_log w ∧ wd_lat w1 = wd_lat w) as [Hl1 Hl2] by done.
  rewrite Hw1 in Hext. rewrite Hl1 in Hlog. rewrite Hl2 in Hlat. clearbody w1. destruct o; simpl.
  - split_and!; [done|by rewrite Hext|done|left]. exists ext. rewrite Hext, Hlog, Hlat, Hw1. done.
  - rewrite Hext. split_and!; [done|done|done|right]. exists ext. rewrite <- app_assoc. unfold RequestIDFrom. rewrite Hctx.
    split_and!; try done; [by rewrite Hlog|]. intros Hs. unfold client_status. simpl. rewrite sent_status_app, Hs. done.
Qed.


(** *** The sum *)

Record fs_ok (s : fsys) : Prop := {
  fo_cell : fs_cell s = foldl fadd f0 (fs_log s);
  fo_done : done_values (fs_adders s) ≡ₚ fs_log s;
  fo_old : ∀ i v old, fs_adders s !! i = Some (ASwap v old) →
    ∃ k, (k ≤ length (fs_log s))%nat ∧ old = foldl fadd f0 (take k (fs_log s)) }.

Lemma done_values_insert l i a b : l !! i = Some a → (∀ v, a ≠ ADone v) →
  done_values (<[i := b]> l) ≡ₚ match b with ADone v => v :: done_values l | _ => done_values l end.
Proof.
  revert i. induction l as [|x l IH]; intros [|i] Hi Ha; simpl in Hi; simplify_eq.
  - simpl. destruct a; [| |by destruct (Ha v)]; by destruct b.
  - simpl. specialize (IH i Hi Ha). destruct x; simpl; [exact IH|exact IH|]. rewrite IH.
    destruct b; [done|done|apply Permutation_swap].
Qed.

Lemma fs_ok_step s s' : fs_ok s → fstep s s' → fs_ok s'.
Proof.
  intros [Hc Hd Ho] Hs. destruct Hs as [s v|s i v Hi|s i v old Hi Heq|s i v old Hi Hne]; constructor; simpl; try done.
  - unfold done_values. rewrite omap_app. simpl. by rewrite app_nil_r.
  - intros j u old. rewrite lookup_app. destruct (fs_adders s !! j) eqn:Hj; [intros [= ->]; eauto|].
    destruct (j - length (fs_adders s))%nat as [|k]; [done|]. by destruct k.
  - by rewrite (done_values_insert _ _ _ _ Hi).
  - intros j u old [(-> & [= -> <-] & _)|(_ & Hj)]%list_lookup_insert_Some; [|eauto].
    exists (length (fs_log s)). split; [done|]. by rewrite firstn_all.
  - rewrite foldl_snoc. by rewrite <- Hc, Heq.
  - rewrite (done_values_insert _ _ _ _ Hi) by done. rewrite Hd. apply Permutation_cons_append.
  - intros j u old' [(_ & ? & _)|(_ & Hj)]%list_lookup_insert_Some; [done|]. destruct (Ho _ _ _ Hj) as (k & Hk & ->).
    exists k. rewrite length_app. split; [lia|]. by rewrite take_app_le.
  - by rewrite (done_values_insert _ _ _ _ Hi).
  - intros j u old' [(_ & ? & _)|(_ & Hj)]%list_lookup_insert_Some; [done|eauto].
Qed.

(** ** Properties *)

(** Every public request is answered and accounted for, whatever its handler
does: the chain returns, the client gets the request id of the request (its own
or a fresh one), and either the request is logged once under that id with its
latency observed once, or its panic is logged and turned into a 500 unless a
status was already out. *)
Theorem public_requests_accounted `{TokenBucket} (fresh : option string) (d : Z) (h : handler rateLimiter)
    (r : request) (t : Z) (w : world rateLimiter) :
  well_behaved h → wd_calls w = [] → rq_ctxID r = None →
  let '(w', t', o) := public_chain fresh d h r t w in
  let id := effective_id fresh r in
  o = Returned ∧ head (sent_headers (wd_calls w')) = Some ("X-Request-Id", id) ∧ t ≤ t' ∧
  ((∃ ext, wd_calls w' = CHeader "X-Request-Id" id :: ext ∧
      wd_log w' = wd_log w ++ [LRequest (rq_method r) (rq_path r) (recorded_status ext) (Z.quot (t' - t) Millisecond) id] ∧
      wd_lat w' = wd_lat w ++ [t' - t]) ∨
   (∃ ext, wd_calls w' = CHeader "X-Request-Id" id :: ext ++ [CStatus 500; CBody] ∧
      wd_log w' = wd_log w ++ [LPanic (rq_path r) ""] ∧ wd_lat w' = wd_lat w ∧
      (sent_status ext = None → client_status (wd_calls w') = 500))).
Proof.
  intros Hh Hc Hctx. apply chain_accounts; [|done|done]. by apply timeout_behaved, rate_limited_behaved.
Qed.

(** A bucket with one token for ever. *)
#[local] Instance one_token : TokenBucket := {
  Bucket := bool; NewBucket _ _ := true; BAllow _ b := (b, false) }.

Definition panicking {L} : handler L := fun _ t w => (w, t + 5, Panics).

Definition demo_request : request := mkReq "GET" "/api/search" "req-1" "10.0.0.1:99" (Some "10.0.0.1") None None.

Definition demo_world : world rateLimiter := mkWorld [] [] [] (newRateLimiter f1 1 f1 1).

Lemma public_requests_accounted_witness :
  (public_chain None Second panicking demo_request 0 demo_world).2 = Returned ∧
  head (sent_headers (wd_calls (public_chain None Second panicking demo_request 0 demo_world).1.1)) = Some ("X-Request-Id", "req-1").
Proof.
  assert (well_behaved (L := rateLimiter) panicking) as Hb.
  { intros r t w. simpl. split_and!; [lia|exists []; by rewrite app_nil_r|done|done]. }
  pose proof (public_requests_accounted None Second panicking demo_request 0 demo_world Hb eq_refl eq_refl) as H.
  destruct (public_chain None Second panicking demo_request 0 demo_world) as [[w' t'] o].
  destruct H as (H1 & H2 & _). split; [exact H1|exact H2].
Defined.

(** The recoverer wraps the middleware that assigns the request id, so the log line
of a panic never carries the id the client was given. *)
Theorem panic_log_lacks_id :
  let '(w', _, _) := public_chain None Second panicking demo_request 0 demo_world in
  wd_log w' = [LPanic "/api/search" ""] ∧ sent_headers (wd_calls w') = [("X-Request-Id", "req-1")] ∧ wd_lat w' = [].
Proof. vm_compute. repeat split. Qed.

(** C24: The latency sum loses nothing: under any interleaving of concurrent
additions the cell is the float64 sum of the values whose additions completed,
in the order of their successful swaps and each exactly once, and an addition
retries only because another one completed since it loaded the cell. *)
Theorem latency_sum_linearizable (s : fsys) :
  rtc fstep fs_init s →
  fs_cell s = foldl fadd f0 (fs_log s) ∧ done_values (fs_adders s) ≡ₚ fs_log s ∧
  ∀ i v old, fs_adders s !! i = Some (ASwap v old) → fs_cell s ≠ old →
    ∃ k, (k < length (fs_log s))%nat ∧ old = foldl fadd f0 (take k (fs_log s)).
Proof.
  intros Hr. assert (fs_ok s) as [Hc Hd Ho].
  { apply (rtc_invariant _ _ _ _ fs_ok_step Hr). by constructor. }
  split_and!; [done|done|]. intros i v old Hi Hne. destruct (Ho i v old Hi) as (k & Hk & ->).
  exists k. split; [|done]. destruct (decide (k = length (fs_log s))) as [->|]; [|lia].
  rewrite firstn_all, <- Hc in Hne. done.
Qed.

(** Two additions that load the same value: the second has to retry. *)
Definition racing : fsys := mkF (fadd f0 f1) [ADone f1; ASwap (to_float64 2) f0] [f1].

Lemma racing_reach : rtc fstep fs_init racing.
Proof.
  eapply rtc_l; [apply (F_call fs_init f1)|]. eapply rtc_l; [apply (F_call _ (to_float64 2))|].
  eapply rtc_l; [eapply (F_load _ 1 (to_float64 2)); reflexivity|].
  eapply rtc_l; [eapply (F_load _ 0 f1); reflexivity|].
  eapply rtc_l; [eapply (F_swap _ 0 f1 f0); reflexivity|]. apply rtc_refl.
Qed.

Lemma latency_sum_linearizable_witness :
  fs_cell racing = foldl fadd f0 (fs_log racing) ∧ ∃ k, (k < length (fs_log racing))%nat ∧ f0 = foldl fadd f0 (take k (fs_log racing)).
Proof.
  destruct (latency_sum_linearizable racing racing_reach) as (H1 & _ & H3). split; [exact H1|].
  apply (H3 1%nat (to_float64 2) f0); [reflexivity|]. vm_compute. discriminate.
Defined.

(** The series of a scrape are distinct, for the gauges the process registers. *)
Definition series_of (l : list prom_line) : list (string * option (option Z)) := (fun x => (pl_name x, pl_le x)) <$> l.

Theorem scrape_series_distinct (m : Metrics) (fills refreshes acquired total stations count : Z) (open : bool)
    (counts : list Z) (sum : float64) : length counts = length latency_bounds →
  NoDup (series_of (writeProm (snapshot m fills refreshes) (zip latency_bounds counts) count sum
    (run_gauges acquired total stations open))).
Proof.
  intros Hl. assert (gaugeNamesSorted (run_gauges acquired total stations open) =
    ["db_pool_acquired_conns"; "db_pool_total_conns"; "redis_breaker_open"; "stations_known"]) as Hg.
  { unfold gaugeNamesSorted. replace (dom (run_gauges acquired total stations open)) with
      (dom (run_gauges 0 0 0 false)) by (unfold run_gauges, RegisterGauge; by rewrite !dom_insert_L).
    vm_compute. reflexivity. }
  assert (series_of ((fun b => mkLine "railcache_request_latency_ms_bucket" (Some (Some b.1)) (NInt b.2)) <$> zip latency_bounds counts) =
    (fun le => ("railcache_request_latency_ms_bucket", Some (Some le))) <$> latency_bounds) as Hb.
  { rewrite <- (fst_zip latency_bounds counts) at 2 by lia. unfold series_of. by rewrite <- !list_fmap_compose. }
  unfold writeProm. rewrite Hg. unfold series_of in *. rewrite !fmap_app, Hb, <- list_fmap_compose.
  apply (bool_decide_unpack _). vm_compute. done.
Qed.

Lemma scrape_series_distinct_witness :
  NoDup (series_of (writeProm (snapshot (mkMetrics 1 2 3 4 5 6 7 8) 6 7) (zip latency_bounds (replicate 10 0)) 0 f0 (run_gauges 1 2 3 true))).
Proof. apply scrape_series_distinct. reflexivity. Defined.

(** The process cleans up after itself on every path: what was opened is
closed, Redis before the database, the background refresh is told to stop, and
after a signal the refreshes are drained before the stores they use are closed. *)
Theorem run_cleans_up (s : surroundings) :
  let '(l, ok) := run s in
  (AOpenDB ∈ l → ∃ a b c, l = a ++ [AOpenDB] ++ b ++ [ACloseRedis; ACloseDB; ACancelRoot] ++ c) ∧
  (AStartRefresh ∈ l → ACancelRoot ∈ l) ∧
  (ok = true → ∃ a b, l = a ++ [AShutdownPublic; AShutdownInternal; ADrain] ++ b ∧ ACloseDB ∈ b ∧ ACloseDB ∉ a ∧ ADrain ∉ b).
Proof.
  destruct s as [[] [] [] []]; simpl; (split_and!; [intros Hin|intros Hin|intros Hok]);
    try (by apply elem_of_nil in Hin); try discriminate; try (set_solver).
  - by exists [], [AOpenRedis; AStartRefresh; AListen; ACancelRoot; AShutdownPublic; AShutdownInternal; ADrain], [].
  - exists [AOpenDB; AOpenRedis; AStartRefresh; AListen; ACancelRoot], [ACloseRedis; ACloseDB; ACancelRoot].
    split_and!; [done|set_solver..].
  - by exists [], [AOpenRedis; AStartRefresh; AListen], [].
  - by exists [], [AOpenRedis; AStartRefresh], [].
  - by exists [], [AOpenRedis; AStartRefresh], [].
Qed.
