(* ===== verification/CricketOps.v ===== *)
(** * cricket-stadium-booking: the outbox worker and the load test

[cmd/worker/main.go]: a worker is a program of store calls ([wprog]); any
number of workers run side by side, calls fail or lose their reply, and
workers crash ([wstep]).  The queries of the store behind these calls are not
in the repository: [OutboxStore] is what the worker is given, and
[OutboxLaws] the behaviour its tests and migrations document (a poll returns
stored events and stamps its lease on them, marking touches one event or
the status and reference of one refund, the lease decides only who polls an event).

[cmd/loadtest/main.go]: the two scenarios with their counters and latency
trackers under every interleaving of their goroutines, the percentile, and the
verdict.  [internal/httpapi] and [internal/observability]: health, panics and
the transition log. *)

From Stdlib Require Import ZArith Lia Ascii SpecFloat.
From stdpp Require Import base gmap strings pretty list sorting fin_maps relations.
From S2P Require Import Prelude GoStrings GoTime GoFloat.

Open Scope string_scope.
Open Scope Z_scope.

(* [base] cricket-stadium-booking-main/cricket-stadium-booking *)

(** ** cmd/worker *)

(* [go] cmd/worker/main.go:20-31 pollInterval *)
Definition pollInterval : Z := 2 * Second.
(* [go] cmd/worker/main.go:20-31 sweepBatchSize *)
Definition sweepBatchSize : Z := 1000.
(* [go] cmd/worker/main.go:20-31 idempotencyKeyRetention *)
Definition idempotencyKeyRetention : Z := 24 * Hour.
(* [go] cmd/worker/main.go:20-31 pruneBatchSize *)
Definition pruneBatchSize : Z := 1000.

(** An outbox event; [oe_refund] is the refund its payload decodes to, [None] when
the payload is not the JSON of one (a payload without the field decodes to 0). *)
Record OutboxEvent : Type := mkOE { oe_ID : Z; oe_type : string; oe_refund : option Z }.

#[global] Instance OutboxEvent_eq_dec : EqDecision OutboxEvent.
Proof. solve_decision. Defined.

Inductive wcmd : Type :=
| WPoll (limit : Z)
| WMarkProcessed (id : Z)
| WReleaseClaim (id : Z)
| WMarkRefund (refund : Z) (status externalRef : string)
| WSweep (limit : Z)
| WPrune (retention limit : Z).

Inductive wreply : Type := WErr | WOK | WEvents (l : list OutboxEvent) | WCount (n : Z).

Inductive wprog : Type := WRet | WCall (c : wcmd) (k : wreply → wprog).

(** The reference of the stubbed gateway: [nanos] is the clock. *)
(* [go] cmd/worker/main.go:145-151 stubbedGatewayRefund *)
Definition stubbedGatewayRefund (refundID nanos : Z) : string :=
  "stub-refund-ref-" +:+ Itoa refundID +:+ "-" +:+ Itoa nanos.

Section programs.
(** The clock at the calls of the gateway, by event. *)
Context (clock : Z → Z).

(** One event of a batch, then the rest. *)
(* [go] cmd/worker/main.go:99-142 processBatch *)
Definition process_event (e : OutboxEvent) (next : wprog) : wprog :=
  let mark := WCall (WMarkProcessed (oe_ID e)) (fun _ => next) in
  if negb (String.eqb (oe_type e) "refund_requested") then mark
  else match oe_refund e with
       | None => mark
       | Some refund =>
           let externalRef := stubbedGatewayRefund refund (clock (oe_ID e)) in
           WCall (WMarkRefund refund "refunded" externalRef) (fun rep =>
             match rep with
             | WErr => WCall (WReleaseClaim (oe_ID e)) (fun _ => next)
             | _ => mark
             end)
       end.

(* [go] cmd/worker/main.go:99-142 processBatch *)
Fixpoint process_events (l : list OutboxEvent) (next : wprog) : wprog :=
  match l with [] => next | e :: l' => process_event e (process_events l' next) end.

(* [go] cmd/worker/main.go:93-143 processBatch *)
Definition processBatch (batchSize : Z) (next : wprog) : wprog :=
  WCall (WPoll batchSize) (fun rep =>
    match rep with WEvents l => process_events l next | _ => next end).

(** The counts are logged only. *)
(* [go] cmd/worker/main.go:65-77 sweepExpiredHolds *)
Definition sweepExpiredHolds (next : wprog) : wprog := WCall (WSweep sweepBatchSize) (fun _ => next).

(* [go] cmd/worker/main.go:79-91 pruneIdempotencyKeys *)
Definition pruneIdempotencyKeys (next : wprog) : wprog :=
  WCall (WPrune idempotencyKeyRetention pruneBatchSize) (fun _ => next).

(** One tick of the loop. *)
(* [go] cmd/worker/main.go:57-61 main *)
Definition tick (batchSize : Z) : wprog :=
  processBatch batchSize (sweepExpiredHolds (pruneIdempotencyKeys WRet)).
End programs.

(** ** The store *)

(** A row of the table [refunds] of the migrations, by id: its status and the reference
of the gateway. *)
Record refund_row : Type := mkRefund { rf_status : string; rf_ref : option string }.

(** The statuses the table's check admits. *)
Definition refund_statuses : list string := ["pending"; "refunded"; "failed"].

Class OutboxStore (S : Type) : Type := {
  os_events : S → gmap Z OutboxEvent;
  os_processed : S → gset Z;
  os_claimed : S → gset Z;
  os_refunds : S → gmap Z refund_row;
  os_exec : wcmd → S → S * wreply;
}.

Class OutboxLaws (S : Type) `{OutboxStore S} : Prop := {
  (** No call of a worker changes the events themselves. *)
  ol_events c s : os_events (os_exec c s).1 = os_events s;
  (** A poll returns stored events that are neither processed nor claimed, each
      once, and claims them. *)
  ol_poll n s s' l : os_exec (WPoll n) s = (s', WEvents l) →
    NoDup (oe_ID <$> l) ∧ os_processed s' = os_processed s ∧ os_refunds s' = os_refunds s ∧
    os_claimed s' = list_to_set (oe_ID <$> l) ∪ os_claimed s ∧
    ∀ e, e ∈ l → os_events s !! oe_ID e = Some e ∧ oe_ID e ∉ os_processed s ∧ oe_ID e ∉ os_claimed s;
  (** A poll that does not return events changes nothing. *)
  ol_poll_err n s s' rep : os_exec (WPoll n) s = (s', rep) → (∀ l, rep ≠ WEvents l) →
    os_processed s' = os_processed s ∧ os_refunds s' = os_refunds s ∧ os_claimed s' = os_claimed s;
  ol_mark id s : os_exec (WMarkProcessed id) s = ((os_exec (WMarkProcessed id) s).1, WOK) ∧
    os_processed (os_exec (WMarkProcessed id) s).1 = {[id]} ∪ os_processed s ∧
    os_refunds (os_exec (WMarkProcessed id) s).1 = os_refunds s ∧
    os_claimed (os_exec (WMarkProcessed id) s).1 = os_claimed s;
  (** A released event may be polled at once; a processed one stays processed. *)
  ol_release id s : os_processed (os_exec (WReleaseClaim id) s).1 = os_processed s ∧
    os_refunds (os_exec (WReleaseClaim id) s).1 = os_refunds s ∧
    os_claimed (os_exec (WReleaseClaim id) s).1 = os_claimed s ∖ {[id]};
  (** The update of a refund writes the status and the reference it is given to the row
      with that id, if there is one; it fails for a status the table refuses. *)
  ol_refund r st x s : os_processed (os_exec (WMarkRefund r st x) s).1 = os_processed s ∧
    os_claimed (os_exec (WMarkRefund r st x) s).1 = os_claimed s ∧
    ((os_exec (WMarkRefund r st x) s).2 = WOK ∧ st ∈ refund_statuses ∧
       os_refunds (os_exec (WMarkRefund r st x) s).1 = alter (fun _ => mkRefund st (Some x)) r (os_refunds s) ∨
     (os_exec (WMarkRefund r st x) s).2 = WErr ∧ os_refunds (os_exec (WMarkRefund r st x) s).1 = os_refunds s);
  ol_sweep n s : let s' := (os_exec (WSweep n) s).1 in
    os_processed s' = os_processed s ∧ os_refunds s' = os_refunds s ∧ os_claimed s' = os_claimed s;
  ol_prune d n s : let s' := (os_exec (WPrune d n) s).1 in
    os_processed s' = os_processed s ∧ os_refunds s' = os_refunds s ∧ os_claimed s' = os_claimed s;
}.

(** What happens to a call: it is executed, it does not reach the store, or it is
executed and its reply is lost. *)
Inductive fate : Type := Fine | Failed | Lost.

(** ** The workers *)

Record wsys (S : Type) : Type := mkW { ws_store : S; ws_workers : list wprog }.
Arguments mkW {S} _ _.
Arguments ws_store {S} _.
Arguments ws_workers {S} _.

Section workers.
Context {S : Type} `{OutboxStore S}.

Definition wexec (c : wcmd) (f : fate) (s : S) : S * wreply :=
  match f with
  | Fine => os_exec c s
  | Failed => (s, WErr)
  | Lost => ((os_exec c s).1, WErr)
  end.

(** The refund an event asks for. *)
Definition refund_of (e : OutboxEvent) : option Z :=
  if String.eqb (oe_type e) "refund_requested" then oe_refund e else None.

Definition requested (s : S) (r : Z) : Prop := ∃ id e, os_events s !! id = Some e ∧ refund_of e = Some r.

(** Ticks start, calls are executed, workers crash.  In [W_env] leases expire and
bookings are cancelled: a cancellation adds its refund and its event together, so no
row appears for a refund that an event already names, and the rows that are there
stay as they are. *)
Inductive wstep : wsys S → wsys S → Prop :=
| W_tick clock n s ws : wstep (mkW s ws) (mkW s (ws ++ [tick clock n])%list)
| W_call s ws i c k f : ws !! i = Some (WCall c k) →
    wstep (mkW s ws) (mkW (wexec c f s).1 (<[i := k (wexec c f s).2]> ws))
| W_crash s ws i : wstep (mkW s ws) (mkW s (delete i ws))
| W_env s s' ws : os_events s ⊆ os_events s' → os_processed s' = os_processed s → os_refunds s ⊆ os_refunds s' →
    (∀ r, requested s r → os_refunds s !! r = None → os_refunds s' !! r = None) →
    wstep (mkW s ws) (mkW s' ws).

(** A worker running alone, without faults: every program ends. *)
Fixpoint run (p : wprog) (s : S) : S :=
  match p with
  | WRet => s
  | WCall c k => let '(s', rep) := os_exec c s in run (k rep) s'
  end.

(** The refund was made: its row, if the table has one, says so, with the reference the
gateway gave. *)
Definition made (s : S) (r : Z) : Prop :=
  ∀ row, os_refunds s !! r = Some row → rf_status row = "refunded" ∧ ∃ t, rf_ref row = Some (stubbedGatewayRefund r t).

(** An event is processed only when its refund was made. *)
Definition settled (s : S) : Prop :=
  ∀ id e r, id ∈ os_processed s → os_events s !! id = Some e → refund_of e = Some r → made s r.

(** *** What a worker knows: events it was given, refunds it made *)

Definition knowledge : Type := list OutboxEvent * list Z.

Definition knows (s : S) (K : knowledge) : Prop :=
  (∀ e, e ∈ K.1 → os_events s !! oe_ID e = Some e) ∧ ∀ r, r ∈ K.2 → requested s r ∧ made s r.

Definition cmd_ok (K : knowledge) (c : wcmd) : Prop :=
  match c with
  | WMarkProcessed id => ∃ e, e ∈ K.1 ∧ oe_ID e = id ∧ ∀ r, refund_of e = Some r → r ∈ K.2
  | WMarkRefund r st x => st = "refunded" ∧ (∃ t, x = stubbedGatewayRefund r t) ∧ ∃ e, e ∈ K.1 ∧ refund_of e = Some r
  | _ => True
  end.

Definition learn (K : knowledge) (c : wcmd) (rep : wreply) : knowledge :=
  match c, rep with
  | _, WErr => K
  | WPoll _, WEvents l => ((l ++ K.1)%list, K.2)
  | WMarkRefund r _ _, _ => (K.1, r :: K.2)
  | _, _ => K
  end.

Fixpoint good (K : knowledge) (p : wprog) : Prop :=
  match p with
  | WRet => True
  | WCall c k => cmd_ok K c ∧ ∀ rep, good (learn K c rep) (k rep)
  end.

Lemma good_events clock l next K : l ⊆ K.1 → (∀ K', good K' next) → good K (process_events clock l next).
Proof.
  revert K. induction l as [|e l IH]; intros K Hl Hn; [apply Hn|]. simpl.
  assert (∀ K', K.1 ⊆ K'.1 → good K' (process_events clock l next)) as Hrest.
  { intros K' HK. apply IH; [set_solver|done]. }
  assert (∀ K', K.1 ⊆ K'.1 → (∀ r, refund_of e = Some r → r ∈ K'.2) →
    good K' (WCall (WMarkProcessed (oe_ID e)) (fun _ => process_events clock l next))) as Hmark.
  { intros K' HK Hr. split; [exists e; split_and!; [set_solver|done|done]|].
    intros rep. apply Hrest. by destruct rep. }
  unfold process_event, refund_of in *. destruct (String.eqb (oe_type e) "refund_requested") eqn:Et; simpl negb; cbv iota.
  - destruct (oe_refund e) as [r|] eqn:Er; [|by apply Hmark].
    split; [split_and!; [done|eauto|]; exists e; unfold refund_of; rewrite Et, Er; split; [set_solver|done]|]. intros rep. destruct rep; try (apply Hmark; [done|]; intros r' [= <-]; simpl; set_solver).
    split; [done|]. intros rep. apply Hrest. by destruct rep.
  - by apply Hmark.
Qed.

Lemma good_tick clock n K : good K (tick clock n).
Proof.
  assert (∀ K', good K' (sweepExpiredHolds (pruneIdempotencyKeys WRet))) as Hrest by (intros K'; by repeat split).
  split; [done|]. intros rep. destruct rep as [| |l|m]; try apply Hrest.
  apply good_events; [simpl; set_solver|exact Hrest].
Qed.
End workers.

Section laws.
Context {St : Type} `{OutboxLaws St}.

(** Steps forward: events stay, and so do the refunds that were made for them. *)
Definition onward (s s' : St) : Prop :=
  os_events s ⊆ os_events s' ∧ (∀ r, requested s r → made s r → made s' r) ∧
  (∀ r, is_Some (os_refunds s !! r) → is_Some (os_refunds s' !! r)).

Lemma made_same (s s' : St) : os_events s' = os_events s → os_refunds s' = os_refunds s → onward s s'.
Proof. intros He Hr. unfold onward, made. by rewrite He, Hr. Qed.

Lemma marked_refund r t (s s' : St) : os_refunds s' = alter (fun _ => mkRefund "refunded" (Some (stubbedGatewayRefund r t))) r (os_refunds s) →
  made s' r ∧ (∀ r', made s r' → made s' r') ∧ (∀ r', is_Some (os_refunds s !! r') → is_Some (os_refunds s' !! r')).
Proof.
  intros Hr. assert (made s' r) as Hm.
  { intros row. rewrite Hr, lookup_alter_eq. destruct (os_refunds s !! r); [|done]. intros [= <-]. simpl. eauto. }
  split_and!; [done| |].
  - intros r' Hm'. destruct (decide (r = r')) as [<-|Hne]; [done|]. intros row. rewrite Hr, lookup_alter_ne by done. apply Hm'.
  - intros r' Hs. rewrite Hr. destruct (decide (r = r')) as [<-|Hne]; [by rewrite lookup_alter_eq, fmap_is_Some|by rewrite lookup_alter_ne].
Qed.

(** The effect of a call a worker may make, whatever its fate. *)
Lemma wexec_grows c f (s : St) K : cmd_ok K c → let s' := (wexec c f s).1 in
  onward s s' ∧
  (os_processed s' = os_processed s ∨ ∃ id, c = WMarkProcessed id ∧ os_processed s' = {[id]} ∪ os_processed s).
Proof.
  intros Hc. assert (let s' := (os_exec c s).1 in onward s s' ∧
    (os_processed s' = os_processed s ∨ ∃ id, c = WMarkProcessed id ∧ os_processed s' = {[id]} ∪ os_processed s)) as Hx.
  { pose proof (ol_events c s) as He. simpl. destruct c as [n|id|id|r st x|n|d n].
    - destruct (os_exec (WPoll n) s) as [s' rep] eqn:E. simpl in *. destruct rep as [| |l|m].
      3: { destruct (ol_poll n s s' l E) as (_ & -> & ? & _). auto using made_same. }
      all: destruct (ol_poll_err n s s' _ E) as (-> & ? & _); [congruence|auto using made_same].
    - destruct (ol_mark id s) as (_ & -> & ? & _). split; [by apply made_same|]. right. eauto.
    - destruct (ol_release id s) as (-> & ? & _). auto using made_same.
    - destruct (ol_refund r st x s) as (-> & _ & Hr). split; [|by left].
      destruct Hr as [(_ & _ & Hr)|[_ Hr]]; [|by apply made_same].
      destruct Hc as (-> & [t ->] & _). destruct (marked_refund r t _ _ Hr) as (_ & Hm & Hd).
      split_and!; [by rewrite He|intros r' _; apply Hm|apply Hd].
    - destruct (ol_sweep n s) as (-> & ? & _). auto using made_same.
    - destruct (ol_prune d n s) as (-> & ? & _). auto using made_same. }
  destruct f; [exact Hx| |exact Hx]. simpl. split; [by apply made_same|by left].
Qed.

Lemma requested_onward (s s' : St) r : os_events s ⊆ os_events s' → requested s r → requested s' r.
Proof. intros He (id & e & Hid & Hr). exists id, e. split; [by eapply lookup_weaken|done]. Qed.

Lemma knows_onward (s s' : St) K : onward s s' → knows s K → knows s' K.
Proof.
  intros (He & Hm & _) [H1 H2]. split; [intros e Hin; eapply lookup_weaken; eauto|].
  intros r Hr. destruct (H2 r Hr). split; [by eapply requested_onward|auto].
Qed.

(** What the reply of a call teaches is true. *)
Lemma wexec_learn c f (s : St) K : cmd_ok K c → knows s K → knows (wexec c f s).1 (learn K c (wexec c f s).2).
Proof.
  intros Hc HK. destruct (wexec_grows c f s K Hc) as [Hon _].
  pose proof (knows_onward _ _ _ Hon HK) as Hold.
  destruct f; [|destruct c; exact Hold|destruct c; exact Hold]. simpl in *. pose proof (ol_events c s) as Hev.
  destruct c as [n|id|id|r st x|n|d n]; try (destruct (os_exec _ s) as [s' []]; exact Hold).
  - destruct (os_exec (WPoll n) s) as [s' rep] eqn:E. simpl in *. destruct rep as [| |l|m]; try exact Hold.
    destruct (ol_poll n s s' l E) as (_ & _ & _ & _ & Hl). split; simpl; [|apply Hold].
    intros e [He|He]%elem_of_app; [|by apply Hold]. rewrite Hev. by apply Hl.
  - destruct (ol_refund r st x s) as (_ & _ & Hr). destruct (os_exec (WMarkRefund r st x) s) as [s' rep]. simpl in *.
    destruct Hr as [(-> & _ & Hr)|[-> Hr]]; [|exact Hold]. split; simpl; [apply Hold|].
    destruct Hc as (-> & [t ->] & e & He & Hre).
    intros r' [->|Hr']%elem_of_cons; [|by apply Hold]. split; [|exact (proj1 (marked_refund r t s s' Hr))].
    exists (oe_ID e), e. split; [|done]. rewrite Hev. by apply HK.
Qed.

Definition wok (y : wsys St) : Prop :=
  settled (ws_store y) ∧ os_processed (ws_store y) ⊆ dom (os_events (ws_store y)) ∧
  ∀ p, p ∈ ws_workers y → ∃ K, knows (ws_store y) K ∧ good K p.

Lemma settled_onward (s s' : St) : onward s s' →
  os_processed s' = os_processed s → os_processed s ⊆ dom (os_events s) → settled s → settled s'.
Proof.
  intros (He & Hm & _) Hp Hd Hs id e r Hid Hev Hrf. rewrite Hp in Hid. pose proof (Hd id Hid) as [e0 He0]%elem_of_dom.
  pose proof (lookup_weaken _ _ _ _ He0 He). simplify_eq. apply Hm; [by exists id, e|eauto].
Qed.

Lemma wok_call s ws i c k f : ws !! i = Some (WCall c k) → wok (mkW s ws) →
  wok (mkW (wexec c f s).1 (<[i := k (wexec c f s).2]> ws)).
Proof.
  intros Hi (Hs & Hd & Hw). simpl in *. destruct (Hw (WCall c k)) as (K & HK & Hc & Hk); [by eapply list_elem_of_lookup_2|].
  destruct (wexec_grows c f s K Hc) as [Hon Hpr]. pose proof Hon as (Hev & Hm & _).
  split_and!; simpl.
  - destruct Hpr as [Hpr|(id & -> & Hpr)]; [by apply (settled_onward s)|].
    destruct Hc as (e0 & He0 & <- & Hr0). intros id e r Hid He Hrf. rewrite Hpr in Hid.
    apply elem_of_union in Hid as [->%elem_of_singleton|Hid].
    + rewrite (lookup_weaken _ _ _ _ (proj1 HK e0 He0) Hev) in He. simplify_eq.
      destruct (proj2 HK r (Hr0 r Hrf)). by apply Hm.
    + pose proof (Hd id Hid) as [e1 He1]%elem_of_dom. pose proof (lookup_weaken _ _ _ _ He1 Hev). simplify_eq.
      apply Hm; [by exists id, e|eauto].
  - assert (dom (os_events s) ⊆ dom (os_events (wexec c f s).1)) as Hdom by (by apply subseteq_dom).
    destruct Hpr as [->|(id & -> & ->)]; [by etransitivity|]. destruct Hc as (e0 & He0 & <- & _).
    apply union_subseteq. split; [|by etransitivity]. apply singleton_subseteq_l, Hdom, elem_of_dom. exists e0. by apply HK.
  - intros p Hp. apply list_elem_of_lookup in Hp as [j Hj].
    destruct (decide (j = i)) as [->|Hne].
    + rewrite list_lookup_insert_eq in Hj by (by eapply lookup_lt_Some). simplify_eq.
      eexists. split; [by apply wexec_learn|apply Hk].
    + rewrite list_lookup_insert_ne in Hj by done. destruct (Hw p) as (K' & HK' & Hg); [by eapply list_elem_of_lookup_2|].
      exists K'. split; [by apply (knows_onward s)|done].
Qed.

Lemma env_onward (s s' : St) : os_events s ⊆ os_events s' → os_refunds s ⊆ os_refunds s' →
  (∀ r, requested s r → os_refunds s !! r = None → os_refunds s' !! r = None) → onward s s'.
Proof.
  intros He Hr Hn. split_and!; [done| |].
  - intros r Hq Hm row Hrow. destruct (os_refunds s !! r) as [row0|] eqn:E; [|by rewrite (Hn r Hq E) in Hrow].
    rewrite (lookup_weaken _ _ _ _ E Hr) in Hrow. simplify_eq. by apply Hm.
  - intros r [row Hrow]. exists row. by eapply lookup_weaken.
Qed.

Lemma wok_step y y' : wok y → wstep y y' →
  wok y' ∧ ∀ r, is_Some (os_refunds (ws_store y) !! r) → is_Some (os_refunds (ws_store y') !! r).
Proof.
  intros Hok Hs. destruct Hs as [clock n s ws|s ws i c k f Hi|s ws i|s s' ws He Hp Hr Hn].
  - split; [|done]. destruct Hok as (Hs & Hd & Hw). split_and!; [done|done|]. simpl.
    intros p [Hp|Hp%list_elem_of_singleton]%elem_of_app; [auto|].
    subst. exists ([], []). split; [split; simpl; set_solver|apply good_tick].
  - split; [by apply wok_call|]. destruct Hok as (_ & _ & Hw).
    destruct (Hw (WCall c k)) as (K & HK & Hc & _); [by eapply list_elem_of_lookup_2|]. apply (wexec_grows c f s K Hc).
  - split; [|done]. destruct Hok as (Hs & Hd & Hw). split_and!; [done|done|]. simpl. intros p Hp. apply Hw.
    apply list_elem_of_lookup in Hp as [j Hj]. rewrite list_lookup_delete in Hj. case_decide; by eapply list_elem_of_lookup_2.
  - pose proof (env_onward _ _ He Hr Hn) as Hon. split; [|apply Hon].
    destruct Hok as (Hs & Hd & Hw). simpl in *. split_and!; simpl; [by apply (settled_onward s)| |].
    + rewrite Hp. etransitivity; [done|]. by apply subseteq_dom.
    + intros p Hin. destruct (Hw p Hin) as (K & HK & Hg). exists K. split; [by apply (knows_onward s)|done].
Qed.
End laws.

(** ** A worker on its own *)

Section alone.
Context {St : Type} `{OutboxLaws St}.

(** How a batch leaves an event it was given. *)
Definition handled (e : OutboxEvent) (s : St) : Prop :=
  oe_ID e ∈ os_processed s ∨ (∃ r, refund_of e = Some r) ∧ oe_ID e ∉ os_processed s ∧ oe_ID e ∉ os_claimed s.

(** What a call that marks or releases [id] leaves to the other events. *)
Definition elsewhere (ids : gset Z) (s s' : St) : Prop :=
  ∀ j, j ∉ ids → (j ∈ os_processed s' ↔ j ∈ os_processed s) ∧ (j ∈ os_claimed s' ↔ j ∈ os_claimed s).

Lemma run_event clock e next (s : St) : oe_ID e ∉ os_processed s →
  ∃ s', run (process_event clock e next) s = run next s' ∧ handled e s' ∧ elsewhere {[oe_ID e]} s s'.
Proof.
  intros Hn.
  assert (∀ s0 : St, os_processed s0 = os_processed s → os_claimed s0 = os_claimed s →
    ∃ s', run (WCall (WMarkProcessed (oe_ID e)) (fun _ => next)) s0 = run next s' ∧ handled e s' ∧ elsewhere {[oe_ID e]} s s') as Hmark.
  { intros s0 Hp Hc. destruct (ol_mark (oe_ID e) s0) as (E & Ep & _ & Ec). simpl.
    destruct (os_exec (WMarkProcessed (oe_ID e)) s0) as [s1 rep]. simpl in *. exists s1. split_and!; [done|left; set_solver|].
    intros j Hj. rewrite Ep, Ec, Hp, Hc. set_solver. }
  unfold process_event. destruct (String.eqb (oe_type e) "refund_requested") eqn:Ht; simpl negb; cbv iota; [|by apply Hmark].
  destruct (oe_refund e) as [r|] eqn:Hr; [|by apply Hmark]. cbn [run].
  destruct (ol_refund r "refunded" (stubbedGatewayRefund r (clock (oe_ID e))) s) as (Hp & Hc & Hrep).
  destruct (os_exec (WMarkRefund r _ _) s) as [s1 rep]. simpl in *.
  destruct Hrep as [(-> & _)|[-> _]]; [by apply Hmark|]. cbn [run].
  destruct (ol_release (oe_ID e) s1) as (Hp2 & _ & Hc2). destruct (os_exec (WReleaseClaim (oe_ID e)) s1) as [s2 rep2].
  simpl in *. exists s2. split_and!; [done| |].
  - right. split; [|rewrite Hp2, Hp, Hc2; set_solver]. exists r. unfold refund_of. by rewrite Ht.
  - intros j Hj. rewrite Hp2, Hp, Hc2, Hc. set_solver.
Qed.

Lemma run_events clock l next (s : St) : NoDup (oe_ID <$> l) → (∀ e, e ∈ l → oe_ID e ∉ os_processed s) →
  ∃ s', run (process_events clock l next) s = run next s' ∧ (∀ e, e ∈ l → handled e s') ∧
    elsewhere (list_to_set (oe_ID <$> l)) s s'.
Proof.
  revert s. induction l as [|e l IH]; intros s Hnd Hnp.
  { exists s. split_and!; [done|by intros e ?%elem_of_nil|done]. }
  rewrite fmap_cons in Hnd. inversion_clear Hnd as [|? ? Hnot Hnd'].
  cbn [process_events]. destruct (run_event clock e (process_events clock l next) s) as (s1 & -> & Hh & He); [apply Hnp; set_solver|].
  assert (∀ x, x ∈ l → oe_ID x ≠ oe_ID e) as Hne.
  { intros x Hx Heq. apply Hnot. rewrite <- Heq. by apply list_elem_of_fmap_2. }
  destruct (IH s1 Hnd') as (s2 & -> & Hall & Hel).
  { intros x Hx Hin. apply (Hnp x); [set_solver|]. apply He; [|done]. apply not_elem_of_singleton. auto. }
  exists s2. split; [done|]. split.
  - intros x [->|Hx]%elem_of_cons; [|auto]. unfold handled in *.
    assert (oe_ID e ∉ (list_to_set (oe_ID <$> l) : gset Z)) as Hout by (by rewrite elem_of_list_to_set).
    destruct (Hel (oe_ID e) Hout) as [-> ->]. exact Hh.
  - intros j Hj. rewrite fmap_cons, list_to_set_cons in Hj. destruct (Hel j) as [-> ->]; [set_solver|]. apply He. set_solver.
Qed.

Lemma run_maintenance (s : St) : let s' := run (sweepExpiredHolds (pruneIdempotencyKeys WRet)) s in
  os_processed s' = os_processed s ∧ os_claimed s' = os_claimed s.
Proof.
  simpl. pose proof (ol_sweep sweepBatchSize s) as H1. destruct (os_exec (WSweep _) s) as [s1 r1]. simpl in *.
  pose proof (ol_prune idempotencyKeyRetention pruneBatchSize s1) as H2. destruct (os_exec (WPrune _ _) s1) as [s2 r2].
  simpl in *. destruct H2 as (-> & _ & ->). by destruct H1 as (-> & _ & ->).
Qed.
End alone.

(** ** Properties of the worker *)

(** C22: No refund is dropped: with any number of workers, calls that fail or whose
replies are lost, and crashes at any point, an event that asks for a refund is
marked processed only when the row of that refund has the status "refunded", with
the reference the gateway gave for it; and no row of a refund disappears. *)
Theorem refund_before_processed {St : Type} `{OutboxLaws St} (s0 : St) (y : wsys St) :
  os_processed s0 = ∅ → rtc wstep (mkW s0 []) y →
  (∀ id e r row, id ∈ os_processed (ws_store y) → os_events (ws_store y) !! id = Some e → refund_of e = Some r →
     os_refunds (ws_store y) !! r = Some row →
     rf_status row = "refunded" ∧ ∃ t, rf_ref row = Some (stubbedGatewayRefund r t)) ∧
  (∀ r, is_Some (os_refunds s0 !! r) → is_Some (os_refunds (ws_store y) !! r)).
Proof.
  intros Hnone Hr.
  assert (wok y ∧ ∀ r, is_Some (os_refunds s0 !! r) → is_Some (os_refunds (ws_store y) !! r)) as [[Hs _] Hd].
  { eapply (rtc_invariant wstep (fun y => wok y ∧ ∀ r, is_Some (os_refunds s0 !! r) → is_Some (os_refunds (ws_store y) !! r)));
      [|exact Hr|].
    - intros x z [Hx Hd] Hxz. destruct (wok_step _ _ Hx Hxz) as [Hz Hd']. split; [done|auto].
    - split; [|done]. split_and!; simpl; [|by rewrite Hnone|by intros p ?%elem_of_nil].
      intros id e r. rewrite Hnone. set_solver. }
  split; [|exact Hd]. intros id e r row Hid He Hrf. exact (Hs id e r Hid He Hrf row).
Qed.

(** Nothing blocks the queue: a tick of a worker on a working store ends with
every event it polled either processed (events of unknown type and with
unreadable payloads included) or, only when its refund could not be recorded,
free to be polled again at once. *)
Theorem tick_clears_batch {St : Type} `{OutboxLaws St} (clock : Z → Z) (n : Z) (s s1 : St) (l : list OutboxEvent) :
  os_exec (WPoll n) s = (s1, WEvents l) →
  let s' := run (tick clock n) s in
  ∀ e, e ∈ l → (refund_of e = None → oe_ID e ∈ os_processed s') ∧
    (oe_ID e ∈ os_processed s' ∨ oe_ID e ∉ os_processed s' ∧ oe_ID e ∉ os_claimed s').
Proof.
  intros E. simpl. rewrite E. destruct (ol_poll n s s1 l E) as (Hnd & Hp & _ & _ & Hl).
  destruct (run_events clock l (sweepExpiredHolds (pruneIdempotencyKeys WRet)) s1 Hnd) as (s2 & -> & Hall & _).
  { intros e He. rewrite Hp. by apply Hl. }
  destruct (run_maintenance s2) as [Hp2 Hc2]. intros e He. specialize (Hall e He). unfold handled in Hall.
  rewrite Hp2, Hc2. destruct Hall as [Hall|([r Hr] & ? & ?)]; [by auto|]. split; [congruence|by right].
Qed.

(** ** A store that meets the laws *)

(** [ob_lost] are the refunds whose update fails. *)
Record store : Type := mkStore {
  ob_events : gmap Z OutboxEvent; ob_processed : gset Z; ob_claimed : gset Z; ob_refunds : gmap Z refund_row; ob_lost : gset Z }.

Definition stored (s : store) (id : Z) : option OutboxEvent :=
  match ob_events s !! id with Some e => if oe_ID e =? id then Some e else None | None => None end.

Definition pollable (s : store) : list OutboxEvent :=
  omap (stored s) (elements (dom (ob_events s) ∖ ob_processed s ∖ ob_claimed s)).

#[global] Instance store_outbox : OutboxStore store := {
  os_events := ob_events; os_processed := ob_processed; os_claimed := ob_claimed; os_refunds := ob_refunds;
  os_exec c s :=
    match c with
    | WPoll n =>
        let l := take (Z.to_nat n) (pollable s) in
        (mkStore (ob_events s) (ob_processed s) (list_to_set (oe_ID <$> l) ∪ ob_claimed s) (ob_refunds s) (ob_lost s), WEvents l)
    | WMarkProcessed id => (mkStore (ob_events s) ({[id]} ∪ ob_processed s) (ob_claimed s) (ob_refunds s) (ob_lost s), WOK)
    | WReleaseClaim id => (mkStore (ob_events s) (ob_processed s) (ob_claimed s ∖ {[id]}) (ob_refunds s) (ob_lost s), WOK)
    | WMarkRefund r st x =>
        if decide (r ∈ ob_lost s ∨ st ∉ refund_statuses) then (s, WErr)
        else (mkStore (ob_events s) (ob_processed s) (ob_claimed s)
                (alter (fun _ => mkRefund st (Some x)) r (ob_refunds s)) (ob_lost s), WOK)
    | WSweep _ | WPrune _ _ => (s, WCount 0)
    end }.

Lemma stored_Some s id e : stored s id = Some e → ob_events s !! id = Some e ∧ oe_ID e = id.
Proof.
  unfold stored. destruct (ob_events s !! id) as [x|]; [|done]. destruct (Z.eqb_spec (oe_ID x) id); [|done].
  by intros [= <-].
Qed.

Lemma stored_ids s l : oe_ID <$> omap (stored s) l `sublist_of` l.
Proof.
  induction l as [|id l IH]; [constructor|]. simpl. destruct (stored s id) as [e|] eqn:E; [|by constructor].
  apply stored_Some in E as [_ <-]. rewrite fmap_cons. by constructor.
Qed.

Lemma pollable_spec s n : let l := take n (pollable s) in NoDup (oe_ID <$> l) ∧
  ∀ e, e ∈ l → ob_events s !! oe_ID e = Some e ∧ oe_ID e ∉ ob_processed s ∧ oe_ID e ∉ ob_claimed s.
Proof.
  simpl. split.
  - apply (sublist_NoDup _ (elements (dom (ob_events s) ∖ ob_processed s ∖ ob_claimed s))); [apply NoDup_elements|].
    rewrite fmap_take. etransitivity; [apply sublist_take|apply stored_ids].
  - intros e He. apply (subseteq_take _ _) in He. unfold pollable in He.
    apply list_elem_of_omap in He as (id & Hid & [Hs <-]%stored_Some). rewrite elem_of_elements in Hid. set_solver.
Qed.

#[global] Instance store_laws : OutboxLaws store.
Proof.
  constructor; simpl.
  - intros [] s; simpl; try done. by case_decide.
  - intros n s s' l [= <- <-]. destruct (pollable_spec s (Z.to_nat n)) as [H1 H2]. split_and!; done.
  - intros n s s' rep [= <- <-] Hr. by destruct (Hr (take (Z.to_nat n) (pollable s))).
  - done.
  - done.
  - intros r st x s. case_decide; simpl; split_and!; try done; [by right|].
    left. split_and!; [done| |done]. destruct (decide (st ∈ refund_statuses)); [done|]. tauto.
  - done.
  - done.
Qed.

(** A refund, a refund whose update fails, an unknown type, an unreadable payload. *)
Definition demo_store : store :=
  mkStore (list_to_map [(1, mkOE 1 "refund_requested" (Some 10)); (2, mkOE 2 "refund_requested" (Some 20));
                        (3, mkOE 3 "other" None); (4, mkOE 4 "refund_requested" None)]) ∅ ∅
    (list_to_map [(10, mkRefund "pending" None); (20, mkRefund "pending" None)]) {[20]}.

Lemma tick_clears_batch_witness :
  3 ∈ os_processed (run (tick (fun _ => 0) 100) demo_store) ∧ 4 ∈ os_processed (run (tick (fun _ => 0) 100) demo_store).
Proof.
  pose proof (tick_clears_batch (fun _ => 0) 100 demo_store (os_exec (WPoll 100) demo_store).1
    (take 100 (pollable demo_store)) eq_refl) as H.
  split.
  - apply (H (mkOE 3 "other" None)); [|reflexivity]. apply list_elem_of_In. vm_compute. auto.
  - apply (H (mkOE 4 "refund_requested" None)); [|reflexivity]. apply list_elem_of_In. vm_compute. auto.
Defined.

(** One worker, whose poll, refund and mark of event 1 take effect. *)
Definition demo_call (x : wprog * store) : wprog * store :=
  match x.1 with WCall c k => (k (os_exec c x.2).2, (os_exec c x.2).1) | WRet => x end.

Definition demo_worker (n : nat) (x : wprog * store) : wprog * store := Nat.iter n demo_call x.

Lemma demo_worker_steps n x : rtc wstep (mkW x.2 [x.1]) (mkW (demo_worker n x).2 [(demo_worker n x).1]).
Proof.
  induction n as [|n IH]; [constructor|]. unfold demo_worker. rewrite Nat.iter_succ. fold (demo_worker n x).
  destruct (demo_worker n x) as [p s]. unfold demo_call. destruct p as [|c k]; [exact IH|]. eapply rtc_r; [exact IH|].
  exact (W_call s [WCall c k] 0 c k Fine eq_refl).
Qed.

Definition demo_settled : wprog * store := demo_worker 7 (tick (fun _ => 0) 100, demo_store).

Lemma refund_before_processed_witness :
  1 ∈ os_processed demo_settled.2 ∧ 2 ∉ os_processed demo_settled.2 ∧
  ∃ row, os_refunds demo_settled.2 !! 10 = Some row ∧ rf_status row = "refunded" ∧
    ∃ t, rf_ref row = Some (stubbedGatewayRefund 10 t).
Proof.
  split; [by vm_compute|]. split; [by vm_compute|].
  destruct (refund_before_processed (St := store) demo_store (mkW demo_settled.2 [demo_settled.1])) as [H1 H2].
  - reflexivity.
  - eapply rtc_l; [apply (W_tick (fun _ => 0) 100)|]. apply (demo_worker_steps 7 (tick (fun _ => 0) 100, demo_store)).
  - destruct (H2 10) as [row Hrow]; [by exists (mkRefund "pending" None)|]. exists row. split; [exact Hrow|].
    apply (H1 1 (mkOE 1 "refund_requested" (Some 10)) 10 row); [by vm_compute|by vm_compute|reflexivity|exact Hrow].
Defined.

(** ** cmd/loadtest *)

(* [go] cmd/loadtest/main.go:26-32 concurrency *)
Definition concurrency : nat := 500.
(* [go] cmd/loadtest/main.go:26-32 contendedSeats *)
Definition contendedSeats : nat := 5.
(* [go] cmd/loadtest/main.go:26-32 warmupIterations *)
Definition warmupIterations : nat := 20.
(* [go] cmd/loadtest/main.go:26-32 expiryRacers *)
Definition expiryRacers : nat := 100.

(** [float64(n) * 0.95], truncated. *)
(* [go] cmd/loadtest/main.go:67-70 latencyTracker.p95 *)
Definition p95_index (n : Z) : Z :=
  let idx := float64_trunc (float64_mul (to_float64 n) (ratio_float64 95 100)) in
  if n <=? idx then n - 1 else idx.

(* [go] cmd/loadtest/main.go:59-72 latencyTracker.p95 *)
Definition p95 (times : list Z) : Z :=
  match times with
  | [] => 0
  | _ => let sorted := merge_sort Z.le times in
         nth (Z.to_nat (p95_index (Z.of_nat (length sorted)))) sorted 0
  end.

(* [go] cmd/loadtest/main.go:74-77 scenarioResult *)
Record scenarioResult : Type := mkRes {
  attempts : Z; confirmed : Z; rejected : Z; holdLatency : list Z; confirmLatency : list Z }.

(* [go] cmd/loadtest/main.go:79-81 newScenarioResult *)
Definition newScenarioResult : scenarioResult := mkRes 0 0 0 [] [].

(* [go] cmd/loadtest/main.go:53-57 latencyTracker.record *)
Definition record (d : Z) (l : list Z) : list Z := (l ++ [d])%list.

(** The seats the fixtures create. *)
(* [go] cmd/loadtest/main.go:133-140 seedLoadTestFixtures *)
Definition seatIDs : list string :=
  ((fun i => "WARMUP-" +:+ Itoa (Z.of_nat i)) <$> seq 0 warmupIterations)
  ++ ((fun i => "CONTEND-" +:+ Itoa (Z.of_nat i)) <$> seq 0 contendedSeats) ++ ["EXPIRY-BOUNDARY"].

(** A reply: no response, or a status with a body that decodes or not. *)
Record reply : Type := mkReply { rp_status : Z; rp_decodes : bool }.

(** A goroutine of either scenario, between its atomic steps: [Decided] carries
whether the hold was placed, [Judged] the final verdict. *)
Inductive racer : Type := Fresh | Counted | Decided (ok : bool) | Judged (ok : bool) | Finished.

Inductive scenario : Type := Contention | Expiry.

Definition add_attempt (r : scenarioResult) : scenarioResult :=
  mkRes (attempts r + 1) (confirmed r) (rejected r) (holdLatency r) (confirmLatency r).
Definition add_verdict (ok : bool) (r : scenarioResult) : scenarioResult :=
  if ok then mkRes (attempts r) (confirmed r + 1) (rejected r) (holdLatency r) (confirmLatency r)
  else mkRes (attempts r) (confirmed r) (rejected r + 1) (holdLatency r) (confirmLatency r).

(** Whether the hold went through: an error, a status other than 201 or, in the
contention scenario, a body that does not decode is a rejection. *)
(* [go] cmd/loadtest/main.go:178-194 runContentionScenario *)
Definition placed (sc : scenario) (resp : option reply) : bool :=
  match resp with
  | None => false
  | Some r => (rp_status r =? 201) && match sc with Contention => rp_decodes r | Expiry => true end
  end.

(** One atomic step of a goroutine: [d] is the latency of its call, [resp] the reply. *)
(* [go] cmd/loadtest/main.go:168-209 runContentionScenario *)
Definition contend_step (d : Z) (resp : option reply) (t : racer) (r : scenarioResult) : racer * scenarioResult :=
  match t with
  | Fresh => (Counted, add_attempt r)
  | Counted => (Decided (placed Contention resp),
      mkRes (attempts r) (confirmed r) (rejected r) (record d (holdLatency r)) (confirmLatency r))
  | Decided false => (Finished, add_verdict false r)
  | Decided true =>
      (Judged (match resp with Some x => rp_status x =? 200 | None => false end),
       mkRes (attempts r) (confirmed r) (rejected r) (holdLatency r) (record d (confirmLatency r)))
  | Judged ok => (Finished, add_verdict ok r)
  | Finished => (Finished, r)
  end.

(* [go] cmd/loadtest/main.go:244-259 runExpiryBoundaryScenario *)
Definition race_step (resp : option reply) (t : racer) (r : scenarioResult) : racer * scenarioResult :=
  match t with
  | Fresh => (Counted, add_attempt r)
  | Counted => (Judged (placed Expiry resp), r)
  | Judged ok => (Finished, add_verdict ok r)
  | t => (t, r)
  end.

Definition scenario_step (sc : scenario) (d : Z) (resp : option reply) (t : racer) (r : scenarioResult) : racer * scenarioResult :=
  match sc with Contention => contend_step d resp t r | Expiry => race_step resp t r end.

(** The goroutines in any order; the scenario ends when all are finished. *)
Inductive load_step (sc : scenario) : list racer * scenarioResult → list racer * scenarioResult → Prop :=
| L_step ts r i t d resp : ts !! i = Some t →
    load_step sc (ts, r) (<[i := (scenario_step sc d resp t r).1]> ts, (scenario_step sc d resp t r).2).

(* [go] cmd/loadtest/main.go:162-213 runContentionScenario *)
Definition contention_init : list racer * scenarioResult := (replicate concurrency Fresh, newScenarioResult).

(* [go] cmd/loadtest/main.go:240-262 runExpiryBoundaryScenario *)
Definition expiry_init : list racer * scenarioResult := (replicate expiryRacers Fresh, newScenarioResult).

(** The sum check the report prints, and its verdict. *)
(* [go] cmd/loadtest/main.go:286-287 report *)
Definition sum_check (a : scenarioResult) : bool := attempts a =? confirmed a + rejected a.

(* [go] cmd/loadtest/main.go:297-303 report *)
Definition report_pass (oversold : Z) (b : scenarioResult) : bool := (oversold =? 0) && (confirmed b =? 1).

(** The original holder of scenario B: whether its late confirmation is warned about. *)
(* [go] cmd/loadtest/main.go:263-270 runExpiryBoundaryScenario *)
Definition late_confirm_warns (resp : option Z) : bool :=
  match resp with Some status => negb (status =? 409) | None => false end.

(** ** internal/httpapi and internal/observability *)

(* [go] internal/httpapi/static.go:9-15 handleHealthz *)
Definition handleHealthz (ping : bool) : Z * string := if negb ping then (503, "down") else (200, "ok").

(** A handler's outcome: a response, or a panic after an optional status was sent;
the status the client sees. *)
(* [go] internal/httpapi/render.go:69-82 recoverMiddleware *)
Definition recoverMiddleware (panicked : bool) (sent : option Z) : Z :=
  if panicked then match sent with Some s => s | None => 500 end else default 200 sent.

(** The patterns of the server. *)
(* [go] internal/httpapi/router.go:13-32 NewServer *)
Definition stadium_routes : list (string * string) :=
  [("POST", "/matches/{matchId}/seats/{seatId}/hold"); ("POST", "/holds/{holdId}/confirm"); ("DELETE", "/holds/{holdId}");
   ("GET", "/matches/{matchId}/seats"); ("GET", "/matches/{matchId}/bookings"); ("POST", "/bookings/{bookingId}/cancel");
   ("GET", "/healthz"); ("GET", "/app.js"); ("GET", "/")].

(** The log line of a transition: its message and attributes. *)
(* [go] internal/observability/log.go:19-31 LogTransition *)
Definition LogTransition (op matchID seatID : string) (elapsed : Z) (err : option string) : string * list (string * string) :=
  let attrs := [("op", op); ("match_id", matchID); ("seat_id", seatID); ("duration_ms", Itoa (Z.quot elapsed Millisecond))] in
  match err with
  | Some text => ("booking_transition_failed", attrs ++ [("error", text)])
  | None => ("booking_transition_ok", attrs)
  end%list.

(** *** The counters *)

Definition started (t : racer) : Z := match t with Fresh => 0 | _ => 1 end.
Definition finished (t : racer) : Z := match t with Finished => 1 | _ => 0 end.
Definition judged (t : racer) : Z := match t with Judged _ => 1 | _ => 0 end.
Definition held (t : racer) : Z := match t with Fresh | Counted => 0 | _ => 1 end.

Record load_inv (sc : scenario) (n : nat) (x : list racer * scenarioResult) : Prop := {
  li_len : length x.1 = n;
  li_att : attempts x.2 = zsum started x.1;
  li_sum : confirmed x.2 + rejected x.2 = zsum finished x.1;
  li_pos : 0 ≤ confirmed x.2 ∧ 0 ≤ rejected x.2;
  li_hold : Z.of_nat (length (holdLatency x.2)) = match sc with Contention => zsum held x.1 | Expiry => 0 end;
  li_conf : match sc with
            | Contention => confirmed x.2 + zsum judged x.1 ≤ Z.of_nat (length (confirmLatency x.2))
            | Expiry => True end }.

Lemma load_inv_step sc n x y : load_inv sc n x → load_step sc x y → load_inv sc n y.
Proof.
  intros [Hl Ha Hs Hp Hh Hc] Hstep. destruct Hstep as [ts r i t d resp Hi]. simpl in *.
  destruct sc, t as [| |[]|[]|]; simpl in *; constructor; simpl;
    rewrite ?(zsum_insert _ _ _ _ _ Hi), ?length_insert; unfold record; rewrite ?length_app; simpl; try lia.
Qed.

Lemma zsum_all {A} (f : A → Z) c (l : list A) : (∀ x, x ∈ l → f x = c) → zsum f l = c * Z.of_nat (length l).
Proof.
  induction l as [|a l IH]; intros Hf; [simpl; lia|]. simpl. rewrite (Hf a) by set_solver.
  change (foldr (fun a acc => f a + acc) 0 l) with (zsum f l). rewrite IH; [lia|]. intros x Hx. apply Hf. set_solver.
Qed.

Lemma zsum_fresh (f : racer → Z) n : f Fresh = 0 → zsum f (replicate n Fresh) = 0.
Proof. intros Hf. rewrite (zsum_all f 0); [lia|]. by intros x [-> _]%elem_of_replicate. Qed.

Lemma load_inv_init sc n : load_inv sc n (replicate n Fresh, newScenarioResult).
Proof.
  constructor; simpl; [apply length_replicate|by rewrite zsum_fresh..|lia| |].
  all: destruct sc; [by rewrite zsum_fresh|done].
Qed.

(** *** The percentile *)

(** Up to a thousand samples the float64 product truncates to the exact rank. *)
Lemma p95_index_exact n : 1 ≤ n ≤ 1000 → p95_index n = 19 * n / 20.
Proof.
  intros Hn. assert (forallb (fun k => p95_index (Z.of_nat k) =? 19 * Z.of_nat k / 20) (seq 1 1000) = true) as Hall
    by (vm_compute; reflexivity).
  rewrite forallb_forall in Hall. specialize (Hall (Z.to_nat n)). rewrite Z2Nat.id in Hall by lia.
  apply Z.eqb_eq, Hall, in_seq. lia.
Qed.

Lemma sorted_rank (l : list Z) i x : StronglySorted Z.le l → l !! i = Some x →
  (i + 1 ≤ length (filter (fun y => (y ≤ x)%Z) l))%nat ∧ (length (filter (fun y => (y < x)%Z) l) ≤ i)%nat.
Proof.
  intros Hs. revert i. induction Hs as [|a l Hs IH Ha]; intros [|i] Hi; simpl in Hi; simplify_eq.
  - rewrite !filter_cons. rewrite decide_True by lia. rewrite decide_False by lia. simpl. split; [lia|].
    destruct (filter (fun y => (y < x)%Z) l) as [|y ys] eqn:Ef; [simpl; lia|].
    assert (y ∈ filter (fun y => (y < x)%Z) l) as [Hy Hin]%list_elem_of_filter by (rewrite Ef; left).
    rewrite Forall_forall in Ha. specialize (Ha y Hin). lia.
  - assert (a ≤ x)%Z as Hax by (rewrite Forall_forall in Ha; apply Ha; by eapply list_elem_of_lookup_2).
    destruct (IH i Hi) as [H1 H2]. rewrite !filter_cons. rewrite decide_True by done. simpl. split; [lia|].
    case_decide; simpl; lia.
Qed.

Lemma p95_spec times : times ≠ [] → (length times ≤ 1000)%nat →
  p95 times ∈ times ∧
  19 * Z.of_nat (length times) < 20 * Z.of_nat (length (filter (fun t => t ≤ p95 times) times)) ∧
  20 * Z.of_nat (length (filter (fun t => t < p95 times) times)) ≤ 19 * Z.of_nat (length times).
Proof.
  intros Hne Hle. assert (p95 times = nth (Z.to_nat (p95_index (Z.of_nat (length (merge_sort Z.le times))))) (merge_sort Z.le times) 0) as ->
    by (by destruct times).
  pose proof (merge_sort_Permutation Z.le times) as Hp. rewrite (Permutation_length Hp).
  assert (1 ≤ Z.of_nat (length times) ≤ 1000) as Hn by (destruct times; simpl in *; [done|lia]).
  rewrite p95_index_exact by done. set (n := Z.of_nat (length times)) in *. set (k := Z.to_nat (19 * n / 20)).
  assert (20 * (19 * n / 20) ≤ 19 * n < 20 * (19 * n / 20) + 20) as Hd by (Z.div_mod_to_equations; lia).
  assert (k < length (merge_sort Z.le times))%nat as Hk by (rewrite (Permutation_length Hp); unfold k; lia).
  apply lookup_lt_is_Some_2 in Hk as [x Hx]. rewrite (nth_lookup_Some _ _ _ _ Hx).
  assert (StronglySorted Z.le (merge_sort Z.le times)) as Hs by (apply Sorted_StronglySorted; [apply _|apply Sorted_merge_sort, _]).
  destruct (sorted_rank _ _ _ Hs Hx) as [H1 H2]. split; [rewrite <- Hp; by eapply list_elem_of_lookup_2|].
  rewrite <- (Permutation_length (filter_Permutation (fun t => t ≤ x) _ _ Hp)).
  rewrite <- (Permutation_length (filter_Permutation (fun t => t < x) _ _ Hp)). unfold k in *. lia.
Qed.

(** *** Properties of the load test *)

(** The report of the load test is sound for every interleaving of its
goroutines and every reply of the server: at any time the verdicts do not
exceed the attempts, and when all are finished the sum check holds, the
attempts are the number of goroutines, every attempt of the contention scenario
has a hold latency, no more buyers were confirmed than confirmations were
timed, and the hold percentile is a measured latency that at least 95 percent
of the measurements do not exceed. *)
Theorem loadtest_accounting (sc : scenario) (ts : list racer) (r : scenarioResult) :
  let init := match sc with Contention => contention_init | Expiry => expiry_init end in
  rtc (load_step sc) init (ts, r) →
  confirmed r + rejected r ≤ attempts r ∧
  (Forall (fun t => t = Finished) ts →
     sum_check r = true ∧ attempts r = Z.of_nat (length init.1) ∧
     (sc = Contention →
        Z.of_nat (length (holdLatency r)) = attempts r ∧ confirmed r ≤ Z.of_nat (length (confirmLatency r)) ∧
        p95 (holdLatency r) ∈ holdLatency r ∧
        19 * attempts r < 20 * Z.of_nat (length (filter (fun t => t ≤ p95 (holdLatency r)) (holdLatency r))))).
Proof.
  intros init Hr. set (n := length init.1).
  assert (load_inv sc n (ts, r)) as [Hl Ha Hs Hp Hh Hc].
  { eapply (rtc_invariant _ (load_inv sc n)); [intros x y; apply load_inv_step|exact Hr|].
    unfold init, n. destruct sc; [exact (load_inv_init Contention concurrency)|exact (load_inv_init Expiry expiryRacers)]. }
  cbn [fst snd] in *. split.
  - rewrite Ha, Hs. clear. induction ts as [|t ts IH]; [done|]. simpl. destruct t; simpl; unfold zsum in *; lia.
  - intros Hf. rewrite Forall_forall in Hf.
    rewrite (zsum_all _ 1) in Ha by (by intros x ->%Hf). rewrite (zsum_all _ 1) in Hs by (by intros x ->%Hf).
    split; [unfold sum_check; apply Z.eqb_eq; lia|]. split; [unfold n in Hl; lia|]. intros ->.
    rewrite (zsum_all _ 1) in Hh by (by intros x ->%Hf). rewrite (zsum_all _ 0) in Hc by (by intros x ->%Hf).
    assert (length (holdLatency r) = 500%nat) as H500 by (change n with 500%nat in Hl; lia).
    destruct (p95_spec (holdLatency r)) as (Hin & Hrank & _); [intros Hnil; by rewrite Hnil in H500|lia|]. split_and!; try done; lia.
Qed.

(** A schedule: which goroutine takes its next step, with its latency and reply. *)
Definition drive (sc : scenario) (x : list racer * scenarioResult) (a : nat * Z * option reply) : list racer * scenarioResult :=
  let '(i, d, resp) := a in
  match x.1 !! i with
  | Some t => (<[i := (scenario_step sc d resp t x.2).1]> x.1, (scenario_step sc d resp t x.2).2)
  | None => x
  end.

Lemma drive_reach sc l x : rtc (load_step sc) x (foldl (drive sc) x l).
Proof.
  revert x. induction l as [|[[i d] resp] l IH]; intros [ts r]; [constructor|]. simpl.
  destruct (ts !! i) as [t|] eqn:Hi; [|apply IH]. eapply rtc_l; [by apply (L_step sc ts r i t d resp)|apply IH].
Qed.

(** Every goroutine holds and confirms, with latencies of 1 to 500. *)
Definition demo_schedule : list (nat * Z * option reply) :=
  concat ((fun i => [(i, 0, None); (i, Z.of_nat i + 1, Some (mkReply 201 true)); (i, 7, Some (mkReply 200 true)); (i, 0, None)])
          <$> seq 0 500).

Definition demo_end : list racer * scenarioResult := foldl (drive Contention) contention_init demo_schedule.

Lemma loadtest_accounting_witness :
  sum_check demo_end.2 = true ∧ attempts demo_end.2 = 500 ∧ p95 (holdLatency demo_end.2) ∈ holdLatency demo_end.2.
Proof.
  assert (demo_end = (demo_end.1, demo_end.2)) as Hd by apply surjective_pairing.
  destruct (loadtest_accounting Contention demo_end.1 demo_end.2) as [_ H].
  { rewrite <- Hd. apply drive_reach. }
  destruct H as (H1 & H2 & H3).
  - apply Forall_forall. intros t Ht. apply list_elem_of_lookup in Ht as [i Hi].
    assert (demo_end.1 = replicate 500 Finished) as E by (vm_compute; reflexivity).
    rewrite E in Hi. by apply lookup_replicate in Hi as [-> _].
  - split; [exact H1|]. split; [exact H2|]. destruct (H3 eq_refl) as (_ & _ & Hin & _). exact Hin.
Defined.
